(* ===== verification/_CoqProject ===== *)
-Q . S2P
Prelude.v
Decimal.v
JsObject.v
Graphlib.v
GraphWf.v
GraphInv.v
GraphRemove.v
GraphQuery.v
GraphView.v
GraphClaims.v
GraphJson.v
GraphJsonClaims.v
GraphAlg.v
GraphDfs.v
PriorityQueue.v
Dijkstra.v
AlgClaims.v
FloydWarshall.v
Tarjan.v
Prim.v
Lodash.v
LodashSpec.v
LodashCache.v
LodashClaims.v
Vis.v
VisClaims.v
Dashboard.v
Webpack.v
DagreLayout.v
DagreLayoutGraph.v
DagreLayoutClaims.v
DagreUtil.v
DagreTypes.v
DagreFas.v
DagreList.v
DagreGreedy.v
DagreAcyclic.v
DagreRank.v
DagreTree.v
DagreRankClaims.v
DagreCross.v
DagreBk.v
DagreLayers.v
DagreOrder.v
DagreOrderResolve.v
DagreOrderLayer.v
DagreOrderSweep.v
DagreOrderClaims.v
DagreBkIter.v
DagreBkCompact.v
DagreBkAlign.v
DagreBkClaims.v
DagrePosition.v
DagreNormalize.v
DagreRemap.v
DagreNormalizeRun.v
DagreNormalizeUndo.v
DagreNormalizeClaims.v
DagreGeometry.v
DagreGeometryClaims.v
DagreDrawn.v
DagreRankedLayout.v
DagreSimplex.v
DagreSimplexTree.v
DagreSimplexFlow.v
DagreSimplexCut.v
DagreSimplexEnter.v
DagreSimplexExchange.v
DagreSimplexStart.v
DagreSimplexClaims.v
DagreClusters.v
DagreRunLayout.v
DagreFlatNest.v
DagreRankSpan.v
DagreFlatRun.v
DagreFlatPlace.v
DagreRunClaims.v
DagreEntry.v
DagreEntryClaims.v
PageClaims.v
