(* ===== verification/Prelude.v ===== *)
(** * Prism: the blockchain visualiser and the testbed dashboard

    ** The program

    A Prism node serves a JSON dump of its block trees to a web page.  The page
    (src/visualization/blockchain_vis.js) fetches the dump, adds a node per block to a cytoscape
    canvas, adds the parental links, runs the layout named "dagre" and adds the vote links.  The layout
    is the bundle src/visualization/cytoscape-dagre.js: it copies the canvas into a graphlib
    [Graph], calls [dagre.layout] and copies the positions back.  dagre.min.js bundles dagre,
    graphlib and the parts of lodash they use.  testbed/dashboard/prism.js builds the Grafana
    dashboard of a testbed run from the URL parameter [nodes].

    ** Files

    JavaScript values.
    - Prelude: results of code that can throw ([res] with [Ok], [Throw] and the notation [x <-- m ;; k]), the loop
      [res_fold] of callbacks that can throw and its invariant rules, orders in lists, tactics and hints.
    - Decimal: numbers as decimal strings.
    - JsObject: objects used as maps, [obj A], as association lists in property order, with [oget], [oset],
      [odel], [okeys] and the well-formedness [owf] (distinct keys).

    graphlib (lib/graph.js, lib/alg/*, lib/data/priority-queue.js).
    - Graphlib: the record [Graph] with the tables of the class ([nodes_], [in_], [preds_], [out_],
      [sucs_], [edgeObjs_], [edgeLabels_], [parent_], [children_] and the two counts), one definition per method.
    - GraphWf, GraphInv, GraphRemove: the invariant [wf] that ties the tables together and that every
      mutator preserves it; GraphQuery: what the queries return; GraphView: the table of edges seen as a function
      ([elookup]) for the clients; GraphClaims: the theorems on the class; GraphJson and GraphJsonClaims: [filterNodes] and lib/json.js.
    - GraphAlg (topsort, isAcyclic), GraphDfs (dfs, preorder, postorder, components), PriorityQueue (the binary heap and
      the interface [pq_ops] and [pq_laws]), Dijkstra (dijkstra and dijkstraAll, against the
      interface), AlgClaims; FloydWarshall (floydWarshall), Tarjan (tarjan, findCycles), Prim (prim, against the interface).

    lodash.
    - Lodash, LodashSpec: collections, extrema, ranges, [sortBy], objects, [union];
      LodashCache: Hash, ListCache and MapCache; LodashClaims.

    dagre.
    - DagreTypes: the label objects; DagreFas ([dfsFAS]); DagreList (lib/data/list.js, a store of linked
      objects, with the interface [buckets_ops] and [buckets_laws]); DagreGreedy ([greedyFAS], over the
      interface); DagreAcyclic ([run] and [undo] of lib/acyclic.js); DagreRank
      ([slack], [longestPath]); DagreTree ([feasibleTree]); DagreRankClaims (the tight-tree ranker
      and [normalizeRanks]); DagreCross (lib/order/cross-count.js).
    - DagreSimplex (lib/rank/network-simplex.js, [simplify] and [rank]); DagreSimplexTree (the numbering as a rooted tree with intervals,
      its preorder and postorder), DagreSimplexFlow (sums over trees), DagreSimplexCut (the cut
      values), DagreSimplexEnter ([updateRanks], [isDescendant], [leaveEdge], [enterEdge]), DagreSimplexExchange
      ([exchangeEdges]), DagreSimplexStart ([simplify], the first tree), DagreSimplexClaims (the loop as a step relation).
    - DagreUtil ([asNonCompoundGraph]); DagreBk (lib/position/bk.js, the whole file); DagreLayers (what it means that the field
      [order] of the labels describes layers, and [buildLayerMatrix]); DagreBkIter, DagreBkCompact, DagreBkAlign
      (the conflict tables, the traversal of the block graph, one compaction, one alignment); DagreBkClaims;
      DagrePosition (lib/position/index.js, and [order] followed by [position]).
    - DagreOrder (lib/order/*: initial order, layer graphs, barycenters, conflicts, sorting, constraints, sweeps); 
      DagreOrderResolve ([sort], [resolveConflicts]), DagreOrderLayer ([buildLayerGraph]), DagreOrderSweep (one sweep,
      [initOrder], [assignOrder]), DagreOrderClaims (the loop).
    - DagreNormalize (lib/normalize.js); DagreRemap (passes that rewrite every label); DagreNormalizeRun ([run] as chains of dummies), DagreNormalizeUndo ([undo]),
      DagreNormalizeClaims.
    - DagreGeometry (lib/coordinate-system.js, and from lib/layout.js the space for labels, the translation, the ends of edges, label places and
      the points of reversed edges), DagreGeometryClaims; DagreDrawn (what a drawing is, and that these passes keep it); DagreRankedLayout (the
      passes from [normalize.run] to [assignNodeIntersects] composed as [runLayout] composes them).
    - DagreClusters (lib/nesting-graph.js, lib/add-border-segments.js, lib/parent-dummy-chains.js, and from lib/layout.js and lib/util.js the passes
      on loops, clusters, label ranks and empty ranks); DagreRunLayout ([runLayout], all passes in order).
    - DagreFlatNest (the passes before the ranker on graphs without clusters), DagreRankSpan (rankers leave no gaps), DagreFlatRun (from the input to
      ranks), DagreFlatPlace (from ranks to coordinates), DagreRunClaims ([runLayout] as a whole).
    - DagreEntry (the entry point: [layout], [buildLayoutGraph], [updateInputGraph], the conversion [Number]); DagreEntryClaims (the copy, the
      write back, [layout], and the adapter with [layout] in place of its interface).

    The layout adapter and the pages.
    - Webpack: the module loader of cytoscape-dagre.js and its UMD wrapper; DagreLayout,
      DagreLayoutGraph, DagreLayoutClaims: the layout class, its options and its [run].  Here
      [dagre.layout] is the interface [Layout]; DagreEntryClaims implements it with the model of dagre.
    - Vis, VisClaims: blockchain_vis.js.  The canvas is an interface (a [Class] with its laws and an instance
      that keeps the list of elements); [handle_data] is the sequence of calls on the canvas.
    - PageClaims: the page, the adapter and dagre together.
    - Dashboard: prism.js.

    ** What the theorems show

    - The graph class: any sequence of mutators keeps the tables consistent or stops with one of the class's
      own two errors; queries agree with the table of edges; the functional behaviour of [setEdge],
      [removeNode] and [setParent], with the exact condition of the error; [filterNodes] is the induced part of a graph and
      [json.read] inverts [json.write].
    - Algorithms: [topsort] decides acyclicity and returns an order, [dfs] lists what is reachable,
      [components] is the partition by connectedness, the heap refines a finite map with minimum
      extraction, [dijkstra] returns shortest distances and [floydWarshall] those of all pairs, also with negative weights; [tarjan] returns
      the strongly connected components in an order against the edges, [prim] a spanning tree of least weight.  All of them are total: they return a result or a named
      error, never run out of fuel.
    - Layout passes: [acyclic.run] leaves no cycle, turns only edges that lie on a cycle and is undone by
      [undo]; the linked lists refine queues that share their entries; [longestPath] and the tight-tree ranker give feasible ranks,
      the latter with a spanning tree of tight edges; [normalizeRanks] keeps slacks; the
      accumulator tree counts the crossing pairs of edges.
    - Network simplex: every exchange keeps a spanning tree of tight edges, feasible ranks and exact cut values and does not increase the
      weighted length of the edges; when the loop stops the length is least among all feasible ranks.  The number of exchanges is
      bounded by the length at the start as long as the entering edges have slack.
    - Order: on ranked graphs without clusters [order] returns layers numbered from 0, with the fewest crossings of its sweeps; the layer
      graphs have the documented nodes and weights; resolving conflicts and sorting lose no node.
    - Coordinates: on layered graphs [positionX] returns and keeps neighbours of a layer at the distance their widths and the
      separations ask for, whichever of the four alignments is chosen; [position] gives boxes that do not overlap, also when it
      runs on what [order] returned.
    - Long edges: [normalize.run] makes every edge join adjacent ranks and [undo] restores the edges with the places of the dummies
      as points.
    - Drawings: from ranks to [assignNodeIntersects] the passes return on every ranked graph without clusters and loops; boxes do not
      overlap and lie within the size of the graph, edges end on the borders of their nodes, their points lie outside the boxes.
      [runLayout] as a whole returns such a drawing of every graph without clusters and loops, cyclic ones included, for each ranker, and edges
      that lie on no cycle point in the direction of the layout; only network simplex can use up the turns it is given.
    - Entry: [buildLayoutGraph] copies the caller's graph with its hierarchy and throws exactly when a label cannot be read; the labels of the
      copy are typed; [layout] writes a drawing into the caller's labels; the adapter with dagre places every element of the canvas
      without overlaps.
    - Geometry: [translateGraph] also bounds the labels; [intersectRect] returns a border point or throws.
    - lodash: the loops equal the functions their callers mean; [sortBy] is a stable sort; MapCache refines a
      finite map.
    - The page as a whole: of a dump every block is drawn, no two blocks overlap and every block lies below its parent.
    - Adapter and pages: the graph handed to dagre is the canvas, positions come back within the bounding box; the
      module loader runs each reachable module once; what a dump draws, with labels, colours and order, and
      when it throws; the dashboard's targets and panels.

    ** Fuel

    Recursion that is not structural takes a number that bounds it; running out is a [Throw], and each total-correctness
    theorem shows that it does not occur.  Searches use one more than the number of nodes: open
    calls are on distinct nodes.  The dijkstra loop uses the size of the queue, heap loops the size of the array,
    [isAncestor] the number of nodes, [feasible_loop] the number of nodes since each turn adds
    one to the tree, [climb] the index, which halves, webpack's loader the number of modules, the traversal of the
    block graph twice its nodes plus its edges: each visit pops an entry or marks a node.  The loop of [order] makes at most four turns
    per number of crossings, which is at most the square of the total weight; [doResolveConflicts] takes each entry once; a fresh
    identifier is found within one more than the number of nodes.  The walk of [normalize.undo] along a chain uses the number of nodes:
    each turn removes one.  The loop of network simplex has no bound in the code, which could exchange edges without slack for ever;
    [simplex_loop] takes the number of turns as an argument and the theorems hold for every number.

    ** Assumptions

    - Node identifiers are [plain]: they do not contain the separator that graphlib
      puts into edge identifiers and are not its root node [GRAPH_NODE]; names of edges are not empty; and no identifier is the name
      of a property of [Object.prototype] or a path with a dot or bracket.  Hashes
      and the generated names satisfy this.
    - Numbers of the passes (weights, minimal lengths, ranks, positions in layers) are integers and those of
      coordinates are rationals: floating-point rounding is outside the model.  [NaN] and [undefined] are [None] where
      the code can produce them.
    - A label object belongs to one node or edge, so that a write to its field is an
      update of that element's label.
    - The canvas and [JSON.parse] are parameters or interfaces with concrete instances in the witnesses.  Attributes that are [NaN],
      infinite or, for lengths and weights, fractional are outside the records of the layout graph: [layout] stops there with the error [outside].

    ** Not modelled

    cytoscape.js (third-party renderer), the timing option of [layout] ([opts.debugTiming], which prints), the lodash
    functions not listed above (type tests, cloning, deep paths and comparison), and the Rust node, of
    whose dump only the shape is used ([dump_ok]).  The theorems on [runLayout], [layout] and the adapter are about graphs without clusters and
    loops and edges without labels: the page draws no others.  The passes on clusters and loops are defined, and what is proved of them
    is that they leave such graphs alone.

    ** Plan

    Correctness of [greedyFAS], which the page does not select; the theorems on [runLayout] for clusters and loops. *)

From stdpp Require Export sorting gmap strings relations prelude.

(** ** Results of code that can throw

    A JavaScript call either returns a value or throws.  [JsError] is
    [new Error(msg)]; [TypeError] is what the engine raises when a property
    of [undefined] is read or written. *)

Inductive js_error :=
| JsError (msg : string)
| TypeError.

Inductive res (A : Type) :=
| Ok (a : A)
| Throw (e : js_error).
Arguments Ok {A} _.
Arguments Throw {A} _.

Definition res_bind {A B} (m : res A) (f : A → res B) : res B :=
  match m with
  | Ok a => f a
  | Throw e => Throw e
  end.

Declare Scope js_scope.
Delimit Scope js_scope with js.
Notation "x <-- m ;; k" := (res_bind m (λ x, k))
  (at level 100, m at next level, right associativity) : js_scope.
Open Scope js_scope.

(** Reading a property of a value that may be [undefined]. *)
Definition of_option {A} (o : option A) : res A :=
  match o with
  | Some a => Ok a
  | None => Throw TypeError
  end.

(** Running a callback over an array, threading the state the callback
    mutates; an exception stops the traversal. *)
Fixpoint res_fold {A S} (f : S → A → res S) (s : S) (l : list A) : res S :=
  match l with
  | [] => Ok s
  | x :: l' => s' <-- f s x ;; res_fold f s' l'
  end.

Lemma res_bind_Ok {A B} (m : res A) (f : A → res B) b :
  res_bind m f = Ok b ↔ ∃ a, m = Ok a ∧ f a = Ok b.
Proof. destruct m; simpl; naive_solver. Qed.

Lemma res_bind_assoc {A B C} (m : res A) (f : A → res B) (k : B → res C) :
  res_bind (res_bind m f) k = res_bind m (λ a, res_bind (f a) k).
Proof. by destruct m. Qed.

(** Rule for a loop whose body keeps an invariant indexed by the prefix that
    has been processed: the loop returns and the invariant holds at its end. *)
Lemma res_fold_inv {A S} (f : S → A → res S) (P : list A → S → Prop) l s :
  P [] s →
  (∀ done x rest s, l = done ++ x :: rest → P done s →
     ∃ s', f s x = Ok s' ∧ P (done ++ [x]) s') →
  ∃ s', res_fold f s l = Ok s' ∧ P l s'.
Proof.
  intros H0 Hstep.
  enough (∀ done s, P done s → ∀ rest, l = done ++ rest →
            ∃ s', res_fold f s rest = Ok s' ∧ P l s') as Hg.
  { by apply (Hg []). }
  clear s H0. intros done s HP rest. revert done s HP.
  induction rest as [|x rest IH]; intros done s HP ->; simpl.
  - rewrite app_nil_r. eauto.
  - destruct (Hstep done x rest s eq_refl HP) as (s' & Hf & HP').
    rewrite Hf; simpl. apply (IH (done ++ [x])); [done|].
    by rewrite <-app_assoc.
Qed.

(** A loop over elements on which the body returns in every state. *)
Lemma res_fold_total {A S} (f : S → A → res S) s l :
  (∀ s x, x ∈ l → ∃ s', f s x = Ok s') → ∃ s', res_fold f s l = Ok s'.
Proof.
  intros Hf. destruct (res_fold_inv f (λ _ _, True) l s) as (s' & ? & _); [done| |by eauto].
  intros done x rest s' -> _. destruct (Hf s' x) as [s'' ?]; [set_solver|eauto].
Qed.

Lemma res_fold_app {A S} (f : S → A → res S) s l1 l2 :
  res_fold f s (l1 ++ l2) = res_bind (res_fold f s l1) (λ s', res_fold f s' l2).
Proof.
  revert s; induction l1 as [|x l1 IH]; intros s; simpl; [done|].
  destruct (f s x); simpl; auto.
Qed.

Lemma elem_of_concat {A} (x : A) (ls : list (list A)) : x ∈ concat ls ↔ ∃ l, x ∈ l ∧ l ∈ ls.
Proof. induction ls; simpl; [set_solver|]. rewrite elem_of_app. set_solver. Qed.

(** ** Chains of an acyclic relation

    A chain of steps whose sources lie in a finite list is no longer than the
    list; this bounds the fuel of every loop that climbs an acyclic relation. *)
Lemma acyclic_nsteps_bound {A} (R : relation A) (l : list A) n x y :
  (∀ x, ¬ tc R x x) → (∀ x y, R x y → x ∈ l) → nsteps R n x y → n ≤ length l.
Proof.
  intros Hac Hl Hn.
  enough (∃ xs, length xs = n ∧ NoDup xs ∧ ∀ z, z ∈ xs → z ∈ l ∧ rtc R x z) as (xs & <- & Hnd & Hxs).
  { apply submseteq_length, NoDup_submseteq; [done|]. naive_solver. }
  induction Hn as [x|n x x1 y HR Hn IH].
  - exists []. split_and!; [done|constructor|]. by intros z ?%elem_of_nil.
  - destruct IH as (xs & <- & Hnd & Hxs). exists (x :: xs). split_and!; [done| |].
    + apply NoDup_cons. split; [|done]. intros Hx. destruct (Hxs _ Hx) as [_ Hr].
      apply (Hac x). by eapply tc_rtc_r; [apply tc_once|].
    + intros z [->|Hz]%elem_of_cons; [split; [eauto|done]|].
      destruct (Hxs _ Hz). split; [done|]. by eapply rtc_l.
Qed.

(** ** Positions in a list without repetition *)

Definition before {A} (l : list A) (x y : A) : Prop := ∃ i j, l !! i = Some x ∧ l !! j = Some y ∧ i < j.

Lemma before_split {A} (pre post : list A) x y : x ∈ pre → before (pre ++ y :: post) x y.
Proof.
  intros [i Hi]%list_elem_of_lookup. exists i, (length pre). split_and!.
  - by apply lookup_app_l_Some.
  - by rewrite lookup_app_r, Nat.sub_diag by done.
  - by eapply lookup_lt_Some.
Qed.

(** A relation that only steps back in a list without repetition has no cycle. *)
Lemma before_acyclic {A} (R : relation A) l :
  NoDup l → (∀ x y, R x y → before l y x) → ∀ x, ¬ tc R x x.
Proof.
  intros Hnd HR. enough (∀ x y, tc R x y → before l y x) as Htc.
  { intros x (i & j & Hi & Hj & Hlt)%Htc. pose proof (NoDup_lookup _ _ _ _ Hnd Hi Hj). lia. }
  induction 1 as [x y Hxy|x y z Hxy _ (i & j & Hi & Hj & Hlt)]; [by apply HR|].
  destruct (HR x y Hxy) as (i' & j' & Hi' & Hj' & Hlt'). exists i, j'. split_and!; [done..|].
  pose proof (NoDup_lookup _ _ _ _ Hnd Hj Hi'). lia.
Qed.

(** ** Numbers with positive infinity

    Distances and priorities are integers or [Number.POSITIVE_INFINITY]. *)
Inductive ext := Fin (z : Z) | Inf.

#[export] Instance ext_eq_dec : EqDecision ext.
Proof. solve_decision. Defined.

Definition ext_lt (a b : ext) : Prop :=
  match a, b with
  | Fin x, Fin y => (x < y)%Z
  | Fin _, Inf => True
  | Inf, _ => False
  end.
Definition ext_le (a b : ext) : Prop :=
  match a, b with
  | Fin x, Fin y => (x ≤ y)%Z
  | _, Inf => True
  | Inf, Fin _ => False
  end.
Definition ext_add (a b : ext) : ext :=
  match a, b with
  | Fin x, Fin y => Fin (x + y)
  | _, _ => Inf
  end.

#[export] Instance ext_lt_dec : RelDecision ext_lt.
Proof. intros [x|] [y|]; simpl; apply _. Defined.
#[export] Instance ext_le_dec : RelDecision ext_le.
Proof. intros [x|] [y|]; simpl; apply _. Defined.

Lemma ext_le_refl a : ext_le a a.
Proof. destruct a; simpl; lia || done. Qed.
Lemma ext_le_trans a b c : ext_le a b → ext_le b c → ext_le a c.
Proof. destruct a, b, c; simpl; lia || done. Qed.
Lemma ext_lt_le a b : ext_lt a b → ext_le a b.
Proof. destruct a, b; simpl; lia || done. Qed.
Lemma ext_nlt_le a b : ¬ ext_lt a b ↔ ext_le b a.
Proof. destruct a, b; simpl; lia || naive_solver. Qed.
Lemma ext_le_antisym a b : ext_le a b → ext_le b a → a = b.
Proof. destruct a, b; simpl; try done. intros. f_equal. lia. Qed.

Lemma ext_lt_le_trans a b c : ext_lt a b → ext_le b c → ext_lt a c.
Proof. destruct a, b, c; simpl; lia || done. Qed.
Lemma ext_lt_irrefl a : ¬ ext_lt a a.
Proof. destruct a; simpl; lia || done. Qed.

Create HintDb ext.
#[export] Hint Resolve ext_le_refl ext_le_trans ext_lt_le ext_lt_le_trans : ext.
