(* ===== verification/Decimal.v ===== *)
(** * Decimal notation of numbers

    [String(n)] of an integer is [pretty n]; what its characters look like. *)
From stdpp Require Import pretty.
From Stdlib Require Import Ascii.
From S2P Require Import Prelude.

Definition is_digit (c : Ascii.ascii) : bool :=
  let n := Ascii.nat_of_ascii c in (48 <=? n) && (n <=? 57).
Definition digit_value (c : Ascii.ascii) : Z := Z.of_nat (Ascii.nat_of_ascii c) - 48.

Definition starts_with_digit (s : string) : Prop :=
  match s with String c _ => is_digit c = true | EmptyString => False end.

Lemma pretty_char_digit x : (x < 10)%N →
  is_digit (pretty_N_char x) = true ∧ digit_value (pretty_N_char x) = Z.of_N x.
Proof.
  intros Hx. assert (x ∈ [0; 1; 2; 3; 4; 5; 6; 7; 8; 9]%N) as Hin by (repeat (rewrite elem_of_cons); lia).
  repeat (apply elem_of_cons in Hin as [->|Hin]; [done|]). by apply elem_of_nil in Hin.
Qed.

Lemma pretty_go_digit x s : starts_with_digit s → starts_with_digit (pretty_N_go x s).
Proof.
  revert s. induction (N.lt_wf_0 x) as [x _ IH]; intros s Hs.
  assert (x = 0 ∨ 0 < x)%N as [->|Hx] by lia; [by rewrite pretty_N_go_0|].
  rewrite pretty_N_go_step by done. apply IH; [by apply N.div_lt|].
  apply pretty_char_digit, N.mod_lt. done.
Qed.

Lemma pretty_N_digit (n : N) : starts_with_digit (pretty n).
Proof.
  unfold pretty, pretty_N. case_decide; [done|]. rewrite pretty_N_go_step by lia.
  apply pretty_go_digit, pretty_char_digit, N.mod_lt. done.
Qed.

(** The notation of an integer starts with a digit or a minus sign. *)
Lemma pretty_Z_head (z : Z) : ∃ c s, pretty z = String c s ∧ (is_digit c = true ∨ c = "-"%char).
Proof.
  destruct z as [|p|p].
  - exists "0"%char, ""%string. auto.
  - change (pretty (Z.pos p)) with (pretty (N.pos p)). pose proof (pretty_N_digit (N.pos p)) as H.
    destruct (pretty (N.pos p)) as [|c s]; [done|]. eauto.
  - change (pretty (Z.neg p)) with (String "-" (pretty (N.pos p))). eauto.
Qed.
