(* ===== verification/JsObject.v ===== *)
(** * JavaScript objects used as dictionaries

    The graph library keeps every table ([_nodes], [_in], [_preds], ...) in a
    plain object with string keys, and enumerates tables with [_.keys],
    [_.values] and [for-in].  An object is modelled as its list of own
    properties in creation order; the enumeration order of the language (array
    indices in ascending order first, then the other keys in creation order) is
    computed from that list by [okeys]. *)
From S2P Require Import Prelude.

Abbreviation obj V := (list (string * V)).

(** ** Array-index keys

    A key is an array index when it is the canonical decimal form of an
    integer below 2^32 - 1. *)

Definition digit_of (a : Ascii.ascii) : option N :=
  let n := Ascii.N_of_ascii a in
  if bool_decide (48 ≤ n)%N && bool_decide (n ≤ 57)%N then Some (n - 48)%N else None.

Fixpoint decimal (acc : N) (s : string) : option N :=
  match s with
  | EmptyString => Some acc
  | String a s' => d ← digit_of a; decimal (10 * acc + d)%N s'
  end.

Definition array_index (s : string) : option N :=
  match s with
  | EmptyString => None
  | String a s' =>
      n ← decimal 0 s;
      if bool_decide (digit_of a = Some 0%N) && negb (bool_decide (s' = ""%string)) then None
      else if bool_decide (n < 4294967295)%N then Some n else None
  end.

Definition is_index (s : string) : Prop := is_Some (array_index s).

#[export] Instance is_index_dec s : Decision (is_index s).
Proof. unfold is_index. apply _. Defined.

Definition index_le (a b : string) : Prop :=
  (default 0 (array_index a) ≤ default 0 (array_index b))%N.

#[export] Instance index_le_dec : RelDecision index_le.
Proof. intros a b. unfold index_le. apply _. Defined.

(** ** Reading, writing and deleting properties *)

Section Obj.
Context {V : Type}.
Implicit Types (o : obj V) (k : string) (v : V).

(** [o[k]]; [None] is [undefined]. *)
Fixpoint oget o k : option V :=
  match o with
  | [] => None
  | (k', v) :: o' => if decide (k = k') then Some v else oget o' k
  end.

(** [o[k] = v]: an existing property keeps its position, a new one is
    appended. *)
Fixpoint oset o k v : obj V :=
  match o with
  | [] => [(k, v)]
  | (k', v') :: o' =>
      if decide (k = k') then (k, v) :: o' else (k', v') :: oset o' k v
  end.

(** [delete o[k]]. *)
Fixpoint odel o k : obj V :=
  match o with
  | [] => []
  | (k', v') :: o' => if decide (k = k') then odel o' k else (k', v') :: odel o' k
  end.

(** [Object.prototype.hasOwnProperty.call(o, k)]. *)
Definition ohas o k : bool := bool_decide (is_Some (oget o k)).

(** Own enumerable string keys, in enumeration order. *)
Definition okeys o : list string :=
  merge_sort index_le (filter is_index (o.*1)) ++ filter (λ k, ¬ is_index k) (o.*1).

(** The values of the own properties, in enumeration order. *)
Definition ovalues o : list V := omap (oget o) (okeys o).

(** A JavaScript object holds each key once. *)
Definition owf o : Prop := NoDup (o.*1).

Lemma oget_oset o k k' v : oget (oset o k v) k' = if decide (k = k') then Some v else oget o k'.
Proof.
  induction o as [|[k0 v0] o IH]; simpl.
  - repeat case_decide; congruence.
  - destruct (decide (k = k0)) as [->|]; simpl; repeat case_decide; congruence.
Qed.

Lemma oget_oset_eq o k v : oget (oset o k v) k = Some v.
Proof. rewrite oget_oset. by case_decide. Qed.

Lemma oget_oset_ne o k k' v : k ≠ k' → oget (oset o k v) k' = oget o k'.
Proof. intros. rewrite oget_oset. by case_decide. Qed.

Lemma oget_odel o k k' : oget (odel o k) k' = if decide (k = k') then None else oget o k'.
Proof.
  induction o as [|[k0 v0] o IH]; simpl.
  - by case_decide.
  - destruct (decide (k = k0)) as [->|]; simpl; repeat case_decide; congruence.
Qed.

Lemma oget_odel_eq o k : oget (odel o k) k = None.
Proof. rewrite oget_odel. by case_decide. Qed.

Lemma oget_odel_ne o k k' : k ≠ k' → oget (odel o k) k' = oget o k'.
Proof. intros. rewrite oget_odel. by case_decide. Qed.

Lemma oget_keys o k : is_Some (oget o k) ↔ k ∈ o.*1.
Proof.
  induction o as [|[k0 v0] o IH]; simpl.
  - split; [intros [??]; done | by intros ?%elem_of_nil].
  - rewrite elem_of_cons. case_decide as Hk; [naive_solver|].
    rewrite IH. naive_solver.
Qed.

Lemma oget_None o k : oget o k = None ↔ k ∉ o.*1.
Proof. rewrite <-oget_keys, eq_None_not_Some. done. Qed.

Lemma ohas_true o k : ohas o k = true ↔ is_Some (oget o k).
Proof. unfold ohas. by rewrite bool_decide_eq_true. Qed.

Lemma ohas_false o k : ohas o k = false ↔ oget o k = None.
Proof. unfold ohas. by rewrite bool_decide_eq_false, eq_None_not_Some. Qed.

Lemma oset_keys_Some o k v x : oget o k = Some x → (oset o k v).*1 = o.*1.
Proof.
  induction o as [|[k0 v0] o IH]; simpl; [done|].
  case_decide as Hk; simpl; [by subst|]. intros ?. f_equal. auto.
Qed.

Lemma oset_keys_None o k v : oget o k = None → oset o k v = o ++ [(k, v)].
Proof.
  induction o as [|[k0 v0] o IH]; simpl; [done|].
  case_decide as Hk; [done|]. intros ?. f_equal. auto.
Qed.

Lemma odel_filter o k : odel o k = filter (λ p, p.1 ≠ k) o.
Proof.
  induction o as [|[k0 v0] o IH]; simpl; [done|].
  rewrite filter_cons. simpl. destruct (decide (k = k0)) as [->|].
  - by rewrite decide_False by naive_solver.
  - rewrite decide_True by done. by rewrite IH.
Qed.

Lemma odel_keys o k : (odel o k).*1 = filter (λ k', k' ≠ k) (o.*1).
Proof.
  induction o as [|[k0 v0] o IH]; simpl; [done|].
  rewrite filter_cons. destruct (decide (k = k0)) as [->|].
  - by rewrite decide_False by naive_solver.
  - rewrite decide_True by done. rewrite fmap_cons. simpl. by f_equal.
Qed.

Lemma owf_nil : owf [].
Proof. constructor. Qed.

Lemma owf_oset o k v : owf o → owf (oset o k v).
Proof.
  unfold owf. intros Hwf. destruct (oget o k) as [x|] eqn:E.
  - by rewrite (oset_keys_Some _ _ _ x).
  - rewrite oset_keys_None, fmap_app by done. simpl.
    apply NoDup_app. split_and!; [done| |apply NoDup_singleton].
    apply oget_None in E. intros ? ? ->%list_elem_of_singleton. done.
Qed.

Lemma owf_odel o k : owf o → owf (odel o k).
Proof. unfold owf. intros. rewrite odel_keys. by apply NoDup_filter. Qed.

(** ** Enumeration *)

Lemma okeys_Permutation o : okeys o ≡ₚ o.*1.
Proof.
  unfold okeys. rewrite merge_sort_Permutation.
  induction (o.*1) as [|k ks IH]; [done|].
  rewrite !filter_cons. destruct (decide (is_index k)).
  - rewrite decide_False by naive_solver. simpl. by rewrite IH.
  - rewrite decide_True by done. by rewrite <-Permutation_middle, IH.
Qed.

Lemma elem_of_okeys o k : k ∈ okeys o ↔ is_Some (oget o k).
Proof. by rewrite okeys_Permutation, oget_keys. Qed.

Lemma NoDup_okeys o : owf o → NoDup (okeys o).
Proof. unfold owf. by rewrite okeys_Permutation. Qed.

Lemma elem_of_ovalues o v : v ∈ ovalues o ↔ ∃ k, oget o k = Some v.
Proof.
  unfold ovalues. rewrite list_elem_of_omap. split; [naive_solver|].
  intros [k Hk]. exists k. rewrite elem_of_okeys. eauto.
Qed.

Lemma length_okeys o : length (okeys o) = length o.
Proof. by rewrite okeys_Permutation, length_fmap. Qed.

Lemma okeys_nil_iff o : okeys o = [] ↔ o = [].
Proof.
  split; [|by intros ->].
  intros H. apply nil_length_inv. by rewrite <-length_okeys, H.
Qed.

(** Keys that are no array indices are enumerated in creation order: this is
    the case of block hashes, which are 64 hexadecimal digits long. *)
Lemma okeys_creation_order o : Forall (λ k, ¬ is_index k) (o.*1) → okeys o = o.*1.
Proof.
  unfold okeys. induction (o.*1) as [|k ks IH]; intros Hf; [done|].
  apply Forall_cons in Hf as [Hk Hf].
  rewrite !filter_cons, decide_False by done.
  rewrite decide_True by done. specialize (IH Hf).
  enough (filter is_index ks = []) as Hnil by (rewrite Hnil in *; simpl in *; by rewrite IH).
  clear IH. induction Hf; [done|]. rewrite filter_cons, decide_False by done. done.
Qed.
End Obj.

(** A loop that writes, for each key of a list, the value [f] gives it (if any). *)
Lemma oget_fold_set {V} (g : obj V → string → obj V) (f : string → option V) ks acc k :
  (∀ o k, g o k = match f k with Some v => oset o k v | None => o end) →
  oget (foldl g acc ks) k =
    if decide (k ∈ ks) then match f k with Some v => Some v | None => oget acc k end else oget acc k.
Proof.
  intros Hg. revert acc. induction ks as [|k' ks IH]; intros acc; simpl; [done|]. rewrite IH, Hg.
  destruct (decide (k = k')) as [->|Hne].
  - rewrite (decide_True (P := k' ∈ k' :: ks)) by set_solver.
    destruct (f k'); [rewrite oget_oset_eq|]; by case_decide.
  - assert (oget match f k' with Some v => oset acc k' v | None => acc end k = oget acc k) as ->.
    { destruct (f k'); [by apply oget_oset_ne|done]. }
    destruct (decide (k ∈ ks)); [by rewrite decide_True by set_solver|]. by rewrite decide_False by set_solver.
Qed.

(** Rewriting with these lemmas computes a lookup in an object that was built
    by writes and deletes. *)
Create HintDb jsobj.
#[export] Hint Resolve owf_nil owf_oset owf_odel : jsobj.
#[export] Hint Rewrite @oget_oset @oget_odel : jsobj.
