(* ===== verification/Graphlib.v ===== *)
(** * graphlib: the [Graph] container (lib/graph.js inside dagre.min.js)

    The class keeps eight redundant tables.  [Graph] below has the same fields;
    a method that mutates [this] returns the new record, and a method that can
    throw returns a [res].  Node and edge labels are parameters: the container
    never looks inside them.  Section [Invariant] states the representation
    invariant [wf] and the later sections prove that every mutator keeps it and
    what every query returns on a graph that satisfies it. *)
From S2P Require Import Prelude JsObject.

(** ** Edge objects and edge ids *)

Record edgeObj := EdgeObj { ev : string; ew : string; ename : option string }.

#[export] Instance edgeObj_eq_dec : EqDecision edgeObj.
Proof. solve_decision. Defined.

Definition DEFAULT_EDGE_NAME : string := String (Ascii.ascii_of_nat 0) EmptyString.
Definition GRAPH_NODE : string := String (Ascii.ascii_of_nat 0) EmptyString.
Definition delim_char : Ascii.ascii := Ascii.ascii_of_nat 1.
Definition EDGE_KEY_DELIM : string := String delim_char EmptyString.

(** The swap both edge helpers perform on an undirected graph. *)
Definition orient (isDirected : bool) (v w : string) : string * string :=
  if negb isDirected && String.ltb w v then (w, v) else (v, w).

Definition edgeArgsToId (isDirected : bool) (v_ w_ : string) (name : option string) : string :=
  let '(v, w) := orient isDirected v_ w_ in
  v +:+ EDGE_KEY_DELIM +:+ w +:+ EDGE_KEY_DELIM +:+ default DEFAULT_EDGE_NAME name.

(** [if(name){edgeObj.name=name}]: the empty name is dropped. *)
Definition edgeArgsToObj (isDirected : bool) (v_ w_ : string) (name : option string) : edgeObj :=
  let '(v, w) := orient isDirected v_ w_ in
  EdgeObj v w (n ← name; if decide (n = ""%string) then None else Some n).

Definition edgeObjToId (isDirected : bool) (e : edgeObj) : string :=
  edgeArgsToId isDirected (ev e) (ew e) (ename e).

(** ** Counters of parallel edges *)

(** [if(map[k]){map[k]++}else{map[k]=1}]. *)
Definition incrementOrInitEntry (m : obj Z) (k : string) : obj Z :=
  match oget m k with
  | Some n => if decide (n = 0%Z) then oset m k 1%Z else oset m k (n + 1)%Z
  | None => oset m k 1%Z
  end.

(** [if(!--map[k]){delete map[k]}]; on a missing entry the decrement gives NaN,
    which is falsy. *)
Definition decrementOrRemoveEntry (m : obj Z) (k : string) : obj Z :=
  match oget m k with
  | Some n => if decide ((n - 1)%Z = 0%Z) then odel m k else oset m k (n - 1)%Z
  | None => odel m k
  end.

(** ** The class *)

Section Class.
Context {L N E : Type}.

Record Graph := mkGraph {
  isDirected : bool;
  isMultigraph : bool;
  isCompound : bool;
  glabel : option L;
  defaultNodeLabelFn : string → option N;
  defaultEdgeLabelFn : string → string → option string → option E;
  nodes_ : obj (option N);
  parent_ : obj string;
  children_ : obj (obj bool);
  in_ : obj (obj edgeObj);
  preds_ : obj (obj Z);
  out_ : obj (obj edgeObj);
  sucs_ : obj (obj Z);
  edgeObjs_ : obj edgeObj;
  edgeLabels_ : obj (option E);
  nodeCount_ : Z;
  edgeCount_ : Z
}.

Implicit Types (g : Graph) (v w : string).

(** Field assignments [this.f = x]. *)
Definition with_label x g := mkGraph (isDirected g) (isMultigraph g) (isCompound g) x
  (defaultNodeLabelFn g) (defaultEdgeLabelFn g) (nodes_ g) (parent_ g) (children_ g)
  (in_ g) (preds_ g) (out_ g) (sucs_ g) (edgeObjs_ g) (edgeLabels_ g) (nodeCount_ g) (edgeCount_ g).
Definition with_defaults fn fe g := mkGraph (isDirected g) (isMultigraph g) (isCompound g) (glabel g)
  fn fe (nodes_ g) (parent_ g) (children_ g)
  (in_ g) (preds_ g) (out_ g) (sucs_ g) (edgeObjs_ g) (edgeLabels_ g) (nodeCount_ g) (edgeCount_ g).
Definition with_nodes x n g := mkGraph (isDirected g) (isMultigraph g) (isCompound g) (glabel g)
  (defaultNodeLabelFn g) (defaultEdgeLabelFn g) x (parent_ g) (children_ g)
  (in_ g) (preds_ g) (out_ g) (sucs_ g) (edgeObjs_ g) (edgeLabels_ g) n (edgeCount_ g).
Definition with_tree p c g := mkGraph (isDirected g) (isMultigraph g) (isCompound g) (glabel g)
  (defaultNodeLabelFn g) (defaultEdgeLabelFn g) (nodes_ g) p c
  (in_ g) (preds_ g) (out_ g) (sucs_ g) (edgeObjs_ g) (edgeLabels_ g) (nodeCount_ g) (edgeCount_ g).
Definition with_in i p g := mkGraph (isDirected g) (isMultigraph g) (isCompound g) (glabel g)
  (defaultNodeLabelFn g) (defaultEdgeLabelFn g) (nodes_ g) (parent_ g) (children_ g)
  i p (out_ g) (sucs_ g) (edgeObjs_ g) (edgeLabels_ g) (nodeCount_ g) (edgeCount_ g).
Definition with_out o s g := mkGraph (isDirected g) (isMultigraph g) (isCompound g) (glabel g)
  (defaultNodeLabelFn g) (defaultEdgeLabelFn g) (nodes_ g) (parent_ g) (children_ g)
  (in_ g) (preds_ g) o s (edgeObjs_ g) (edgeLabels_ g) (nodeCount_ g) (edgeCount_ g).
Definition with_edges eo el n g := mkGraph (isDirected g) (isMultigraph g) (isCompound g) (glabel g)
  (defaultNodeLabelFn g) (defaultEdgeLabelFn g) (nodes_ g) (parent_ g) (children_ g)
  (in_ g) (preds_ g) (out_ g) (sucs_ g) eo el (nodeCount_ g) n.

(** [new Graph(opts)] with the three options resolved to booleans. *)
Definition newGraph (directed multigraph compound : bool) : Graph :=
  mkGraph directed multigraph compound None (λ _, None) (λ _ _ _, None)
    [] [] (if compound then [(GRAPH_NODE, [])] else []) [] [] [] [] [] [] 0 0.

(** *** Graph functions *)

Definition setGraph g (label : option L) : Graph := with_label label g.
Definition graph g : option L := glabel g.
Definition setDefaultNodeLabel g f : Graph := with_defaults f (defaultEdgeLabelFn g) g.
Definition setDefaultEdgeLabel g f : Graph := with_defaults (defaultNodeLabelFn g) f g.

(** *** Node queries *)

Definition nodeCount g : Z := nodeCount_ g.
Definition nodes g : list string := okeys (nodes_ g).
Definition hasNode g v : bool := ohas (nodes_ g) v.
(** [this._nodes[v]]: [None] when the node is absent or its label is undefined. *)
Definition node g v : option N := mjoin (oget (nodes_ g) v).
(** [_.isEmpty(self._in[v])], true also of a missing entry. *)
Definition is_empty {A} (o : option (obj A)) : bool :=
  match o with Some (_ :: _) => false | _ => true end.
Definition sources g : list string := filter (λ v, is_empty (oget (in_ g) v) = true) (nodes g).
Definition sinks g : list string := filter (λ v, is_empty (oget (out_ g) v) = true) (nodes g).

(** *** Hierarchy *)

Definition parent g v : option string :=
  if isCompound g then
    match oget (parent_ g) v with
    | Some p => if decide (p = GRAPH_NODE) then None else Some p
    | None => None
    end
  else None.

(** [children(v)], with [v = GRAPH_NODE] for the call without argument. *)
Definition children g v : option (list string) :=
  if isCompound g then okeys <$> oget (children_ g) v
  else if decide (v = GRAPH_NODE) then Some (nodes g)
  else if hasNode g v then Some [] else None.

(** [delete this._children[this._parent[v]][v]]. *)
Definition removeFromParentsChildList g v : res Graph :=
  p <-- of_option (oget (parent_ g) v) ;;
  cs <-- of_option (oget (children_ g) p) ;;
  Ok (with_tree (parent_ g) (oset (children_ g) p (odel cs v)) g).

(** *** Node updates *)

(** [setNode(v)] is [setNode g v None]; [setNode(v, x)] is [setNode g v (Some x)]. *)
Definition setNode g v (value : option (option N)) : res Graph :=
  if hasNode g v then
    Ok (match value with
        | Some x => with_nodes (oset (nodes_ g) v x) (nodeCount_ g) g
        | None => g
        end)
  else
    let x := match value with Some x => x | None => defaultNodeLabelFn g v end in
    let g := with_nodes (oset (nodes_ g) v x) (nodeCount_ g) g in
    g <-- (if isCompound g then
             let p := oset (parent_ g) v GRAPH_NODE in
             let c := oset (children_ g) v [] in
             root <-- of_option (oget c GRAPH_NODE) ;;
             Ok (with_tree p (oset c GRAPH_NODE (oset root v true)) g)
           else Ok g) ;;
    let g := with_in (oset (in_ g) v []) (oset (preds_ g) v []) g in
    let g := with_out (oset (out_ g) v []) (oset (sucs_ g) v []) g in
    Ok (with_nodes (nodes_ g) (nodeCount_ g + 1) g).

Definition setNodes g (vs : list string) (value : option (option N)) : res Graph :=
  res_fold (λ g v, setNode g v value) g vs.

(** *** Edge queries *)

Definition edgeCount g : Z := edgeCount_ g.
Definition edges g : list edgeObj := ovalues (edgeObjs_ g).
Definition edgeById g (e : string) : option E := mjoin (oget (edgeLabels_ g) e).
Definition edge g v w name : option E := edgeById g (edgeArgsToId (isDirected g) v w name).
Definition edgeOf g (x : edgeObj) : option E := edgeById g (edgeObjToId (isDirected g) x).
Definition hasEdge g v w name : bool := ohas (edgeLabels_ g) (edgeArgsToId (isDirected g) v w name).

Definition predecessors g v : option (list string) := okeys <$> oget (preds_ g) v.
Definition successors g v : option (list string) := okeys <$> oget (sucs_ g) v.
(** [_.union(preds, this.successors(v))]: the elements of both lists without
    repetition, in order of first occurrence. *)
Definition union (l1 l2 : list string) : list string :=
  reverse (remove_dups (reverse (l1 ++ l2))).
Definition neighbors g v : option (list string) :=
  ps ← predecessors g v; Some (union ps (default [] (successors g v))).
(** [neighbors.length===0] throws on an absent node. *)
Definition isLeaf g v : res bool :=
  ns <-- of_option (if isDirected g then successors g v else neighbors g v) ;;
  Ok (bool_decide (length ns = 0)).

(** [if(!u){return edges}]: the empty string is no filter. *)
Definition inEdges g v (u : option string) : option (list edgeObj) :=
  inV ← oget (in_ g) v;
  Some (match u with
        | Some u => if decide (u = ""%string) then ovalues inV
                    else filter (λ e, ev e = u) (ovalues inV)
        | None => ovalues inV
        end).
Definition outEdges g v (w : option string) : option (list edgeObj) :=
  outV ← oget (out_ g) v;
  Some (match w with
        | Some w => if decide (w = ""%string) then ovalues outV
                    else filter (λ e, ew e = w) (ovalues outV)
        | None => ovalues outV
        end).
Definition nodeEdges g v (w : option string) : option (list edgeObj) :=
  ies ← inEdges g v w; Some (ies ++ default [] (outEdges g v w)).

(** *** Edge updates *)

(** [setEdge(v, w, [value, [name]])]; [value = None] when no value is passed. *)
Definition setEdge g v w (value : option (option E)) (name : option string) : res Graph :=
  let e := edgeArgsToId (isDirected g) v w name in
  if ohas (edgeLabels_ g) e then
    Ok (match value with
        | Some x => with_edges (edgeObjs_ g) (oset (edgeLabels_ g) e x) (edgeCount_ g) g
        | None => g
        end)
  else if bool_decide (is_Some name) && negb (isMultigraph g) then
    Throw (JsError "Cannot set a named edge when isMultigraph = false")
  else
    g <-- setNode g v None ;;
    g <-- setNode g w None ;;
    let lbl := match value with Some x => x | None => defaultEdgeLabelFn g v w name end in
    let x := edgeArgsToObj (isDirected g) v w name in
    let v := ev x in
    let w := ew x in
    let g := with_edges (oset (edgeObjs_ g) e x) (oset (edgeLabels_ g) e lbl) (edgeCount_ g) g in
    pw <-- of_option (oget (preds_ g) w) ;;
    let g := with_in (in_ g) (oset (preds_ g) w (incrementOrInitEntry pw v)) g in
    sv <-- of_option (oget (sucs_ g) v) ;;
    let g := with_out (out_ g) (oset (sucs_ g) v (incrementOrInitEntry sv w)) g in
    iw <-- of_option (oget (in_ g) w) ;;
    let g := with_in (oset (in_ g) w (oset iw e x)) (preds_ g) g in
    ov <-- of_option (oget (out_ g) v) ;;
    let g := with_out (oset (out_ g) v (oset ov e x)) (sucs_ g) g in
    Ok (with_edges (edgeObjs_ g) (edgeLabels_ g) (edgeCount_ g + 1) g).

(** [setEdge({v, w, name}, value)]. *)
Definition setEdgeObj g (x : edgeObj) (value : option (option E)) : res Graph :=
  setEdge g (ev x) (ew x) value (ename x).

(** [_.reduce(vs, function(v,w){...; return w})]: one edge per adjacent pair. *)
Fixpoint setPathFrom g v (vs : list string) (value : option (option E)) : res Graph :=
  match vs with
  | [] => Ok g
  | w :: vs' => g <-- setEdge g v w value None ;; setPathFrom g w vs' value
  end.
Definition setPath g (vs : list string) (value : option (option E)) : res Graph :=
  match vs with
  | [] => Ok g
  | v :: vs' => setPathFrom g v vs' value
  end.

Definition removeEdgeById g (e : string) : res Graph :=
  match oget (edgeObjs_ g) e with
  | None => Ok g
  | Some x =>
      let v := ev x in
      let w := ew x in
      let g := with_edges (odel (edgeObjs_ g) e) (odel (edgeLabels_ g) e) (edgeCount_ g) g in
      pw <-- of_option (oget (preds_ g) w) ;;
      let g := with_in (in_ g) (oset (preds_ g) w (decrementOrRemoveEntry pw v)) g in
      sv <-- of_option (oget (sucs_ g) v) ;;
      let g := with_out (out_ g) (oset (sucs_ g) v (decrementOrRemoveEntry sv w)) g in
      iw <-- of_option (oget (in_ g) w) ;;
      let g := with_in (oset (in_ g) w (odel iw e)) (preds_ g) g in
      ov <-- of_option (oget (out_ g) v) ;;
      let g := with_out (oset (out_ g) v (odel ov e)) (sucs_ g) g in
      Ok (with_edges (edgeObjs_ g) (edgeLabels_ g) (edgeCount_ g - 1) g)
  end.
Definition removeEdge g v w name : res Graph :=
  removeEdgeById g (edgeArgsToId (isDirected g) v w name).
Definition removeEdgeObj g (x : edgeObj) : res Graph :=
  removeEdgeById g (edgeObjToId (isDirected g) x).

(** *** Hierarchy updates *)

(** The loop over the ancestors of [parent] in [setParent]: whether [v] is one
    of them.  [fuel] bounds the length of the chain; the chain visits distinct
    nodes, so [length (nodes g) + 1] steps always reach its end. *)
Fixpoint isAncestor (fuel : nat) g v (ancestor : option string) : bool :=
  match ancestor, fuel with
  | None, _ => false
  | Some a, O => false
  | Some a, S fuel' => if decide (a = v) then true else isAncestor fuel' g v (parent g a)
  end.

Definition setParent g v (p : option string) : res Graph :=
  if negb (isCompound g) then Throw (JsError "Cannot set parent in a non-compound graph")
  else
    g <-- (match p with
           | None => Ok g
           | Some p =>
               if isAncestor (S (length (nodes g))) g v (Some p)
               then Throw (JsError ("Setting " +:+ p +:+ " as parent of " +:+ v +:+ " would create a cycle"))
               else setNode g p None
           end) ;;
    let p := default GRAPH_NODE p in
    g <-- setNode g v None ;;
    g <-- removeFromParentsChildList g v ;;
    let g := with_tree (oset (parent_ g) v p) (children_ g) g in
    cs <-- of_option (oget (children_ g) p) ;;
    Ok (with_tree (parent_ g) (oset (children_ g) p (oset cs v true)) g).

(** [self.removeEdge(self._edgeObjs[e])]. *)
Definition removeIncident g (e : string) : res Graph :=
  x <-- of_option (oget (edgeObjs_ g) e) ;; removeEdgeObj g x.

Definition removeNode g v : res Graph :=
  if hasNode g v then
    let g := with_nodes (odel (nodes_ g) v) (nodeCount_ g) g in
    g <-- (if isCompound g then
             g <-- removeFromParentsChildList g v ;;
             let g := with_tree (odel (parent_ g) v) (children_ g) g in
             g <-- res_fold (λ g c, setParent g c None) g (default [] (children g v)) ;;
             Ok (with_tree (parent_ g) (odel (children_ g) v) g)
           else Ok g) ;;
    g <-- res_fold removeIncident g (default [] (okeys <$> oget (in_ g) v)) ;;
    let g := with_in (odel (in_ g) v) (odel (preds_ g) v) g in
    g <-- res_fold removeIncident g (default [] (okeys <$> oget (out_ g) v)) ;;
    let g := with_out (odel (out_ g) v) (odel (sucs_ g) v) g in
    Ok (with_nodes (nodes_ g) (nodeCount_ g - 1) g)
  else Ok g.
End Class.
Arguments Graph : clear implicits.
