(* ===== verification/GraphWf.v ===== *)
(** * graphlib: representation invariant

    [wf] relates the redundant tables of a graph.  This file proves the
    structural facts about edge ids and parallel-edge counters, that the edge
    part of the invariant is kept when one edge is added or removed, and that
    node insertion keeps the whole invariant. *)
From S2P Require Import Prelude JsObject Graphlib.

(** ** Edge ids *)

Fixpoint delim_free (s : string) : bool :=
  match s with
  | EmptyString => true
  | String a s' => bool_decide (a ≠ delim_char) && delim_free s'
  end.

(** Node ids the container can hold: not the reserved root id and without the
    delimiter of edge ids.  Block hashes and the ids dagre makes are plain. *)
Definition plain (v : string) : Prop := v ≠ GRAPH_NODE ∧ delim_free v = true.

Lemma delim_split s1 s2 t1 t2 :
  delim_free s1 = true → delim_free s2 = true →
  s1 +:+ EDGE_KEY_DELIM +:+ t1 = s2 +:+ EDGE_KEY_DELIM +:+ t2 → s1 = s2 ∧ t1 = t2.
Proof.
  revert s2. induction s1 as [|a s1 IH]; intros [|b s2] H1 H2 Heq; simpl in *.
  - by injection Heq.
  - injection Heq as <- ?. by apply andb_true_iff in H2 as [?%bool_decide_eq_true ?].
  - injection Heq as -> ?. by apply andb_true_iff in H1 as [?%bool_decide_eq_true ?].
  - apply andb_true_iff in H1 as [_ H1], H2 as [_ H2]. injection Heq as -> Heq.
    destruct (IH s2 H1 H2 Heq) as [-> ->]. done.
Qed.

Lemma orient_cases d v w : orient d v w = (v, w) ∨ orient d v w = (w, v).
Proof. unfold orient. destruct (negb d && String.ltb w v); auto. Qed.

Lemma ltb_asym v w : String.ltb w v = true → String.ltb v w = false.
Proof.
  unfold String.ltb. rewrite (String.compare_antisym v w).
  destruct (String.compare w v); done.
Qed.

Lemma orient_idemp d v w v' w' : orient d v w = (v', w') → orient d v' w' = (v', w').
Proof.
  unfold orient. destruct d; simpl; [by intros [= <- <-]|].
  destruct (String.ltb w v) eqn:Hlt; intros [= <- <-]; [|by rewrite Hlt].
  by rewrite (ltb_asym _ _ Hlt).
Qed.

(** [edgeArgsToObj] keeps the id, unless the name is the empty string. *)
Lemma edgeObjToId_Obj d v w name :
  name ≠ Some ""%string → edgeObjToId d (edgeArgsToObj d v w name) = edgeArgsToId d v w name.
Proof.
  intros Hn. unfold edgeObjToId, edgeArgsToObj, edgeArgsToId.
  destruct (orient d v w) as [v' w'] eqn:Ho; simpl.
  rewrite (orient_idemp _ _ _ _ _ Ho).
  destruct name as [n|]; simpl; [|done]. by rewrite decide_False by congruence.
Qed.

Lemma edgeArgsToId_inj d v w v' w' n n' :
  delim_free v = true → delim_free w = true → delim_free v' = true → delim_free w' = true →
  edgeArgsToId d v w n = edgeArgsToId d v' w' n' →
  orient d v w = orient d v' w' ∧ default DEFAULT_EDGE_NAME n = default DEFAULT_EDGE_NAME n'.
Proof.
  intros Hv Hw Hv' Hw'. unfold edgeArgsToId.
  destruct (orient d v w) as [a b] eqn:H1, (orient d v' w') as [a' b'] eqn:H2. intros Heq.
  assert (delim_free a = true ∧ delim_free b = true) as [Ha Hb].
  { destruct (orient_cases d v w); naive_solver congruence. }
  assert (delim_free a' = true ∧ delim_free b' = true) as [Ha' Hb'].
  { destruct (orient_cases d v' w'); naive_solver congruence. }
  apply delim_split in Heq as [-> Heq]; [|done..].
  by apply delim_split in Heq as [-> ->].
Qed.

(** ** Counting edges *)

Section Count.
Context {V : Type} (P : V → Prop) `{!∀ x, Decision (P x)}.
Implicit Types (o : obj V).

(** How many properties of [o] hold a value that satisfies [P]. *)
Fixpoint ocount o : Z :=
  match o with
  | [] => 0
  | (_, x) :: o' => (if decide (P x) then 1 else 0) + ocount o'
  end.

Lemma ocount_nonneg o : (0 ≤ ocount o)%Z.
Proof. induction o as [|[k x] o IH]; simpl; [lia|]. case_decide; lia. Qed.

Lemma ocount_oset o k x :
  oget o k = None → ocount (oset o k x) = (ocount o + if decide (P x) then 1 else 0)%Z.
Proof.
  induction o as [|[k0 x0] o IH]; simpl; [intros _; lia|].
  destruct (decide (k = k0)) as [Hk|Hk]; [done|]. intros Hn. simpl. rewrite IH by done. lia.
Qed.

Lemma ocount_odel_None o k : oget o k = None → ocount (odel o k) = ocount o.
Proof.
  induction o as [|[k0 x0] o IH]; simpl; [done|].
  destruct (decide (k = k0)) as [Hk|Hk]; [done|]. intros. simpl. by rewrite IH.
Qed.

Lemma ocount_odel o k x :
  owf o → oget o k = Some x → ocount (odel o k) = (ocount o - if decide (P x) then 1 else 0)%Z.
Proof.
  unfold owf. induction o as [|[k0 x0] o IH]; simpl; [done|].
  intros [Hnin Hnd]%NoDup_cons. destruct (decide (k = k0)) as [Hk|Hk].
  - intros [= ->]. subst. rewrite ocount_odel_None; [lia|by apply oget_None].
  - intros Hg. simpl. rewrite IH by done. lia.
Qed.

Lemma ocount_pos o : (0 < ocount o)%Z ↔ ∃ x, x ∈ o.*2 ∧ P x.
Proof.
  induction o as [|[k x] o IH]; simpl.
  - split; [lia|]. intros (x & []%elem_of_nil & _).
  - setoid_rewrite elem_of_cons. pose proof (ocount_nonneg o).
    destruct (decide (P x)).
    + split; [eauto|lia].
    + rewrite Z.add_0_l, IH. naive_solver.
Qed.

Lemma ocount_zero o : (∀ x, x ∈ o.*2 → ¬ P x) → ocount o = 0%Z.
Proof.
  intros HP. pose proof (ocount_nonneg o). destruct (decide (0 < ocount o)%Z) as [Hp|]; [|lia].
  apply ocount_pos in Hp as (x & ? & ?). naive_solver.
Qed.
End Count.

Lemma oget_elem_of {V} (o : obj V) k x : oget o k = Some x → x ∈ o.*2.
Proof.
  induction o as [|[k0 x0] o IH]; simpl; [done|].
  case_decide; intros; apply elem_of_cons; naive_solver.
Qed.

Lemma elem_of_oget {V} (o : obj V) x : owf o → x ∈ o.*2 → ∃ k, oget o k = Some x.
Proof.
  unfold owf. induction o as [|[k0 x0] o IH]; simpl; intros Hnd Hx; [by apply elem_of_nil in Hx|].
  apply NoDup_cons in Hnd as [Hnin Hnd].
  apply elem_of_cons in Hx as [->|Hx]; [exists k0; by case_decide|].
  destruct (IH Hnd Hx) as [k Hk]. exists k. case_decide; [|done]. subst.
  apply oget_None in Hnin. congruence.
Qed.

Lemma length_oset_None {V} (o : obj V) k x : oget o k = None → length (oset o k x) = S (length o).
Proof. intros. rewrite oset_keys_None by done. rewrite length_app. simpl. lia. Qed.

Lemma length_oset_Some {V} (o : obj V) k x y : oget o k = Some y → length (oset o k x) = length o.
Proof. intros H. by rewrite <-!(length_fmap fst), (oset_keys_Some _ _ _ _ H). Qed.

Lemma length_odel {V} (o : obj V) k x : owf o → oget o k = Some x → S (length (odel o k)) = length o.
Proof.
  unfold owf. induction o as [|[k0 x0] o IH]; simpl; [done|].
  intros [Hnin Hnd]%NoDup_cons. case_decide as Hk.
  - intros _. subst. f_equal. apply oget_None in Hnin. clear -Hnin.
    induction o as [|[k1 x1] o IH]; simpl in *; [done|]. case_decide; [done|]. simpl. by rewrite IH.
  - intros. simpl. f_equal. auto.
Qed.

(** ** Incidence and adjacency tables *)

Section Tables.
Implicit Types (D : string → Prop) (proj oth : edgeObj → string) (eo : obj edgeObj).

(** [tbl] has an entry for exactly the ids in [D], and the entry of [v] holds
    exactly the edges whose endpoint [proj] is [v], under their ids. *)
Definition inc_ok D proj eo (tbl : obj (obj edgeObj)) : Prop :=
  ∀ v, match oget tbl v with
       | Some o => D v ∧ owf o ∧ ∀ e x, oget o e = Some x ↔ oget eo e = Some x ∧ proj x = v
       | None => ¬ D v
       end.

(** Number of parallel edges from [v] to [u], seen from the endpoint [proj]. *)
Definition parallel proj oth eo v u : Z := ocount (λ x, proj x = v ∧ oth x = u) eo.

(** [tbl] has an entry for exactly the ids in [D], and the entry of [v] counts
    the parallel edges to each other endpoint, without zero counts. *)
Definition adj_ok D proj oth eo (tbl : obj (obj Z)) : Prop :=
  ∀ v, match oget tbl v with
       | Some o => D v ∧ owf o ∧ ∀ u, oget o u =
           if decide (parallel proj oth eo v u = 0%Z) then None else Some (parallel proj oth eo v u)
       | None => ¬ D v
       end.

Lemma inc_lookup D proj eo tbl v :
  inc_ok D proj eo tbl → D v →
  ∃ o, oget tbl v = Some o ∧ owf o ∧ ∀ e x, oget o e = Some x ↔ oget eo e = Some x ∧ proj x = v.
Proof. intros H HD. specialize (H v). destruct (oget tbl v); naive_solver. Qed.

Lemma adj_lookup D proj oth eo tbl v :
  adj_ok D proj oth eo tbl → D v →
  ∃ o, oget tbl v = Some o ∧ owf o ∧ ∀ u, oget o u =
    if decide (parallel proj oth eo v u = 0%Z) then None else Some (parallel proj oth eo v u).
Proof. intros H HD. specialize (H v). destruct (oget tbl v); naive_solver. Qed.

Lemma inc_add D proj eo tbl e x o :
  inc_ok D proj eo tbl → oget eo e = None → oget tbl (proj x) = Some o →
  inc_ok D proj (oset eo e x) (oset tbl (proj x) (oset o e x)).
Proof.
  intros H He Ho v. rewrite oget_oset. specialize (H v) as Hv.
  destruct (decide (proj x = v)) as [<-|Hne].
  - rewrite Ho in Hv. destruct Hv as (HD & Hwf & Hi). split_and!; [done|by apply owf_oset|].
    intros e' y. rewrite !oget_oset. destruct (decide (e = e')) as [<-|]; [|apply Hi].
    naive_solver.
  - destruct (oget tbl v) as [o'|]; [|done]. destruct Hv as (HD & Hwf & Hi).
    split_and!; [done..|]. intros e' y. rewrite Hi, oget_oset.
    destruct (decide (e = e')) as [<-|]; naive_solver.
Qed.

Lemma inc_del D proj eo tbl e x o :
  inc_ok D proj eo tbl → oget eo e = Some x → oget tbl (proj x) = Some o →
  inc_ok D proj (odel eo e) (oset tbl (proj x) (odel o e)).
Proof.
  intros H He Ho v. rewrite oget_oset. specialize (H v) as Hv.
  destruct (decide (proj x = v)) as [<-|Hne].
  - rewrite Ho in Hv. destruct Hv as (HD & Hwf & Hi). split_and!; [done|by apply owf_odel|].
    intros e' y. rewrite !oget_odel. destruct (decide (e = e')) as [<-|]; [naive_solver|apply Hi].
  - destruct (oget tbl v) as [o'|]; [|done]. destruct Hv as (HD & Hwf & Hi).
    split_and!; [done..|]. intros e' y. rewrite Hi, oget_odel.
    destruct (decide (e = e')) as [<-|]; naive_solver.
Qed.

Lemma inc_new_node D proj eo tbl v :
  inc_ok D proj eo tbl → ¬ D v → (∀ e x, oget eo e = Some x → D (proj x)) →
  inc_ok (λ u, u = v ∨ D u) proj eo (oset tbl v []).
Proof.
  intros H HD HE u. rewrite oget_oset. specialize (H u).
  destruct (decide (v = u)) as [<-|].
  - split_and!; [by left|apply owf_nil|]. intros e x. split; [done|]. intros [? <-]. naive_solver.
  - destruct (oget tbl u); naive_solver.
Qed.

Lemma inc_del_node D proj eo tbl v :
  inc_ok D proj eo tbl → inc_ok (λ u, D u ∧ u ≠ v) proj eo (odel tbl v).
Proof.
  intros H u. rewrite oget_odel. specialize (H u).
  destruct (decide (v = u)) as [<-|]; [naive_solver|]. destruct (oget tbl u); naive_solver.
Qed.

Lemma adj_new_node D proj oth eo tbl v :
  owf eo → adj_ok D proj oth eo tbl → ¬ D v → (∀ e x, oget eo e = Some x → D (proj x)) →
  adj_ok (λ u, u = v ∨ D u) proj oth eo (oset tbl v []).
Proof.
  intros Hwf H HD HE u. rewrite oget_oset. specialize (H u).
  destruct (decide (v = u)) as [<-|]; [|destruct (oget tbl u); naive_solver].
  split_and!; [by left|apply owf_nil|]. intros u. unfold parallel.
  rewrite ocount_zero; [done|]. intros x Hx [<- _].
  apply elem_of_oget in Hx as [e ?]; [|done]. naive_solver.
Qed.

Lemma adj_del_node D proj oth eo tbl v :
  adj_ok D proj oth eo tbl → adj_ok (λ u, D u ∧ u ≠ v) proj oth eo (odel tbl v).
Proof.
  intros H u. rewrite oget_odel. specialize (H u).
  destruct (decide (v = u)) as [<-|]; [naive_solver|]. destruct (oget tbl u); naive_solver.
Qed.

Lemma parallel_nonneg proj oth eo v u : (0 ≤ parallel proj oth eo v u)%Z.
Proof. apply ocount_nonneg. Qed.

Lemma parallel_add proj oth eo e x v u :
  oget eo e = None →
  parallel proj oth (oset eo e x) v u =
    (parallel proj oth eo v u + if decide (proj x = v ∧ oth x = u) then 1 else 0)%Z.
Proof. intros. unfold parallel. by rewrite ocount_oset. Qed.

Lemma parallel_del proj oth eo e x v u :
  owf eo → oget eo e = Some x →
  parallel proj oth (odel eo e) v u =
    (parallel proj oth eo v u - if decide (proj x = v ∧ oth x = u) then 1 else 0)%Z.
Proof. intros. unfold parallel. by erewrite ocount_odel. Qed.

Lemma parallel_pos proj oth eo e x :
  oget eo e = Some x → (0 < parallel proj oth eo (proj x) (oth x))%Z.
Proof. intros. apply ocount_pos. exists x. split; [by eapply oget_elem_of|done]. Qed.

Lemma adj_add D proj oth eo tbl e x o :
  adj_ok D proj oth eo tbl → oget eo e = None → oget tbl (proj x) = Some o →
  adj_ok D proj oth (oset eo e x) (oset tbl (proj x) (incrementOrInitEntry o (oth x))).
Proof.
  intros H He Ho v. rewrite oget_oset. specialize (H v) as Hv.
  destruct (decide (proj x = v)) as [<-|Hne].
  - rewrite Ho in Hv. destruct Hv as (HD & Hwf & Hi). unfold incrementOrInitEntry.
    pose proof (Hi (oth x)) as Hx. split_and!; [done| |].
    { destruct (oget o (oth x)); repeat case_decide; by apply owf_oset. }
    intros u. rewrite parallel_add by done. pose proof (parallel_nonneg proj oth eo (proj x) u).
    destruct (decide (oth x = u)) as [<-|Hu].
    + rewrite (decide_True (P := _ ∧ _)) by done. rewrite Hx.
      rewrite (decide_False (P := (_ + 1)%Z = 0%Z)) by lia.
      destruct (decide (parallel _ _ _ _ _ = 0%Z)) as [->|]; simpl; [by rewrite oget_oset_eq|].
      rewrite decide_False by done. by rewrite oget_oset_eq.
    + rewrite (decide_False (P := _ ∧ _)) by naive_solver. rewrite Z.add_0_r, <-Hi.
      destruct (oget o (oth x)); repeat case_decide; by rewrite oget_oset_ne.
  - destruct (oget tbl v) as [o'|]; [|done]. destruct Hv as (HD & Hwf & Hi).
    split_and!; [done..|]. intros u. rewrite parallel_add by done.
    rewrite (decide_False (P := _ ∧ _)) by naive_solver. by rewrite Z.add_0_r.
Qed.

Lemma adj_del D proj oth eo tbl e x o :
  owf eo → adj_ok D proj oth eo tbl → oget eo e = Some x → oget tbl (proj x) = Some o →
  adj_ok D proj oth (odel eo e) (oset tbl (proj x) (decrementOrRemoveEntry o (oth x))).
Proof.
  intros Hwfe H He Ho v. rewrite oget_oset. specialize (H v) as Hv.
  destruct (decide (proj x = v)) as [<-|Hne].
  - rewrite Ho in Hv. destruct Hv as (HD & Hwf & Hi). unfold decrementOrRemoveEntry.
    pose proof (Hi (oth x)) as Hx. pose proof (parallel_pos proj oth eo e x He).
    rewrite decide_False in Hx by lia. rewrite Hx. split_and!; [done| |].
    { case_decide; [by apply owf_odel|by apply owf_oset]. }
    intros u. erewrite parallel_del by done. destruct (decide (oth x = u)) as [<-|Hu].
    + rewrite (decide_True (P := _ ∧ _)) by done.
      case_decide; [apply oget_odel_eq|apply oget_oset_eq].
    + rewrite (decide_False (P := _ ∧ _)) by naive_solver. rewrite Z.sub_0_r, <-Hi.
      case_decide; [by apply oget_odel_ne|by apply oget_oset_ne].
  - destruct (oget tbl v) as [o'|]; [|done]. destruct Hv as (HD & Hwf & Hi).
    split_and!; [done..|]. intros u. erewrite parallel_del by done.
    rewrite (decide_False (P := _ ∧ _)) by naive_solver. by rewrite Z.sub_0_r.
Qed.
End Tables.
