(* ===== verification/GraphInv.v ===== *)
(** * graphlib: every mutator keeps the representation invariant

    [edges_ok] is the edge part of the invariant, with separate domains for the
    in- and out-tables because [removeNode] deletes them one after the other.
    [tree_ok] is the hierarchy part.  [wf] combines both over the set of nodes. *)
From S2P Require Import Prelude JsObject Graphlib GraphWf.

Section Invariant.
Context {L N E : Type}.
Implicit Types (g : Graph L N E) (v w p e : string) (D : string → Prop).

Definition edge_ok Din Dout (d : bool) e (x : edgeObj) : Prop :=
  e = edgeObjToId d x ∧ Dout (ev x) ∧ Din (ew x) ∧ ename x ≠ Some ""%string ∧
  orient d (ev x) (ew x) = (ev x, ew x).

Record edges_ok g (Din Dout : string → Prop) : Prop := {
  eok_objs : owf (edgeObjs_ g);
  eok_labels : owf (edgeLabels_ g);
  eok_dom : ∀ e, is_Some (oget (edgeObjs_ g) e) ↔ is_Some (oget (edgeLabels_ g) e);
  eok_edge : ∀ e x, oget (edgeObjs_ g) e = Some x → edge_ok Din Dout (isDirected g) e x;
  eok_in : inc_ok Din ew (edgeObjs_ g) (in_ g);
  eok_preds : adj_ok Din ew ev (edgeObjs_ g) (preds_ g);
  eok_out : inc_ok Dout ev (edgeObjs_ g) (out_ g);
  eok_sucs : adj_ok Dout ev ew (edgeObjs_ g) (sucs_ g);
  eok_count : edgeCount_ g = Z.of_nat (length (edgeObjs_ g))
}.

(** One step up in the hierarchy. *)
Definition up (par : obj string) (a b : string) : Prop := oget par a = Some b ∧ b ≠ GRAPH_NODE.

(** [Dp] is the set of ids that have a parent entry, [Dc] the set of ids other
    than the root that have a children entry; they differ only inside
    [removeNode]. *)
Record tree_ok (par : obj string) (chl : obj (obj bool)) (Dp Dc : string → Prop) : Prop := {
  tok_root : ¬ Dc GRAPH_NODE;
  tok_parent : ∀ v, is_Some (oget par v) ↔ Dp v;
  tok_inner : ∀ v p, oget par v = Some p → p = GRAPH_NODE ∨ Dc p;
  tok_children : ∀ p, is_Some (oget chl p) ↔ p = GRAPH_NODE ∨ Dc p;
  tok_child : ∀ p cs, oget chl p = Some cs → owf cs ∧ ∀ v, is_Some (oget cs v) ↔ oget par v = Some p;
  tok_acyclic : ∀ v, ¬ tc (up par) v v
}.

Definition isNode g v : Prop := is_Some (oget (nodes_ g) v).

Record wf g : Prop := {
  wf_nodes : owf (nodes_ g);
  wf_plain : ∀ v, isNode g v → plain v;
  wf_edges : edges_ok g (isNode g) (isNode g);
  wf_tree : isCompound g = true → tree_ok (parent_ g) (children_ g) (isNode g) (isNode g);
  wf_count : nodeCount_ g = Z.of_nat (length (nodes_ g))
}.

Lemma hasNode_true g v : hasNode g v = true ↔ isNode g v.
Proof. apply ohas_true. Qed.

Lemma hasNode_false g v : hasNode g v = false ↔ ¬ isNode g v.
Proof. unfold isNode. rewrite <-eq_None_not_Some. apply ohas_false. Qed.

(** ** Construction *)

Lemma newGraph_wf d m c : wf (newGraph (L:=L) (N:=N) (E:=E) d m c).
Proof.
  assert (∀ v, ¬ isNode (newGraph (L:=L) (N:=N) (E:=E) d m c) v) as Hn by (by intros v [??]).
  split; [constructor|naive_solver| | |done].
  - split; try done; try constructor; try (intros v; simpl; apply Hn).
    + by intros [??].
    + by intros [??].
  - simpl. intros ->. split.
    + apply Hn.
    + intros v. split; [by intros [??]|]. intros HD. by destruct (Hn v).
    + done.
    + intros p. simpl. case_decide as Hp; [naive_solver|].
      split; [by intros [??]|]. intros [?|HD]; [done|by destruct (Hn p)].
    + intros p cs. simpl. case_decide as Hp; [|done]. intros [= <-]. split; [constructor|].
      intros v. split; [by intros [??]|done].
    + intros v Htc. inversion Htc as [? ? []|? ? ? []]; done.
Qed.

(** ** Changing the domain of the edge part *)

Lemma edges_ok_ext g g' Din Dout :
  edges_ok g Din Dout →
  isDirected g' = isDirected g → edgeObjs_ g' = edgeObjs_ g → edgeLabels_ g' = edgeLabels_ g →
  in_ g' = in_ g → preds_ g' = preds_ g → out_ g' = out_ g → sucs_ g' = sucs_ g →
  edgeCount_ g' = edgeCount_ g → edges_ok g' Din Dout.
Proof.
  intros [H1 H2 H3 H4 H5 H6 H7 H8 H9] E1 E2 E3 E4 E5 E6 E7 E8.
  split; rewrite ?E1, ?E2, ?E3, ?E4, ?E5, ?E6, ?E7, ?E8; done.
Qed.

Lemma inc_ok_iff D D' proj eo tbl :
  (∀ v, D v ↔ D' v) → inc_ok D proj eo tbl → inc_ok D' proj eo tbl.
Proof. intros HD H v. specialize (H v). destruct (oget tbl v); rewrite <-HD; done. Qed.

Lemma adj_ok_iff D D' proj oth eo tbl :
  (∀ v, D v ↔ D' v) → adj_ok D proj oth eo tbl → adj_ok D' proj oth eo tbl.
Proof. intros HD H v. specialize (H v). destruct (oget tbl v); rewrite <-HD; done. Qed.

Lemma edges_ok_iff g Din Dout Din' Dout' :
  (∀ v, Din v ↔ Din' v) → (∀ v, Dout v ↔ Dout' v) → edges_ok g Din Dout → edges_ok g Din' Dout'.
Proof.
  intros Hi Ho [H1 H2 H3 H4 H5 H6 H7 H8 H9].
  split; eauto using inc_ok_iff, adj_ok_iff.
  intros e x Hx. destruct (H4 e x Hx) as (?&?&?&?&?). split_and!; naive_solver.
Qed.

Lemma edges_ok_move g g' Din Dout Din' Dout' :
  edges_ok g Din Dout →
  isDirected g' = isDirected g → edgeObjs_ g' = edgeObjs_ g → edgeLabels_ g' = edgeLabels_ g →
  in_ g' = in_ g → preds_ g' = preds_ g → out_ g' = out_ g → sucs_ g' = sucs_ g →
  edgeCount_ g' = edgeCount_ g →
  (∀ v, Din v ↔ Din' v) → (∀ v, Dout v ↔ Dout' v) → edges_ok g' Din' Dout'.
Proof. intros. eapply edges_ok_iff; [done..|]. by eapply edges_ok_ext. Qed.

(** ** Removing one edge *)

Lemma removeEdgeById_ok g e Din Dout :
  edges_ok g Din Dout →
  ∃ g', removeEdgeById g e = Ok g' ∧ edges_ok g' Din Dout ∧
    edgeObjs_ g' = odel (edgeObjs_ g) e ∧ edgeLabels_ g' = odel (edgeLabels_ g) e ∧
    nodes_ g' = nodes_ g ∧ nodeCount_ g' = nodeCount_ g ∧
    parent_ g' = parent_ g ∧ children_ g' = children_ g ∧
    isDirected g' = isDirected g ∧ isMultigraph g' = isMultigraph g ∧ isCompound g' = isCompound g ∧
    glabel g' = glabel g.
Proof.
  intros H. pose proof H as [H1 H2 H3 H4 H5 H6 H7 H8 H9].
  unfold removeEdgeById. destruct (oget (edgeObjs_ g) e) as [x|] eqn:He.
  - destruct (H4 _ _ He) as (Hid & Hv & Hw & _).
    destruct (adj_lookup _ _ _ _ _ _ H6 Hw) as (pw & Hpw & _).
    destruct (adj_lookup _ _ _ _ _ _ H8 Hv) as (sv & Hsv & _).
    destruct (inc_lookup _ _ _ _ _ H5 Hw) as (iw & Hiw & _).
    destruct (inc_lookup _ _ _ _ _ H7 Hv) as (ov & Hov & _).
    simpl. rewrite Hpw; simpl. rewrite Hsv; simpl. rewrite Hiw; simpl. rewrite Hov; simpl.
    eexists; split; [done|]. split; [|done].
    split; simpl; eauto using owf_odel, inc_del, adj_del.
    + intros e'. rewrite !oget_odel. case_decide; [|apply H3].
      split; intros [??]; done.
    + intros e' y. rewrite oget_odel. case_decide; [done|]. apply H4.
    + rewrite H9, <-(length_odel _ _ _ H1 He). lia.
  - assert (oget (edgeLabels_ g) e = None) as He'.
    { rewrite eq_None_not_Some, <-H3, He. by intros [??]. }
    assert (∀ V (o : obj V), oget o e = None → odel o e = o) as Hid.
    { intros V o. induction o as [|[k y] o IH]; simpl; [done|].
      case_decide; [done|]. intros. f_equal. auto. }
    exists g. rewrite !Hid by done. done.
Qed.

(** ** Inserting a node *)

(** The options, the graph label and the default-label functions. *)
Definition same_options g g' : Prop :=
  isDirected g' = isDirected g ∧ isMultigraph g' = isMultigraph g ∧
  isCompound g' = isCompound g ∧ glabel g' = glabel g ∧
  defaultNodeLabelFn g' = defaultNodeLabelFn g ∧ defaultEdgeLabelFn g' = defaultEdgeLabelFn g.

Definition same_edges g g' : Prop :=
  edgeObjs_ g' = edgeObjs_ g ∧ edgeLabels_ g' = edgeLabels_ g.

#[export] Instance same_options_refl : Reflexive same_options.
Proof. intros g. split_and!; done. Qed.
#[export] Instance same_options_trans : Transitive same_options.
Proof. unfold same_options. intros g1 g2 g3; intuition congruence. Qed.
#[export] Instance same_edges_refl : Reflexive same_edges.
Proof. intros g. split_and!; done. Qed.
#[export] Instance same_edges_trans : Transitive same_edges.
Proof. unfold same_edges. intros g1 g2 g3; intuition congruence. Qed.

(** The label a node has after [setNode]. *)
Definition set_label g v (value : option (option N)) : option N :=
  match value, oget (nodes_ g) v with
  | Some x, _ => x
  | None, Some x => x
  | None, None => defaultNodeLabelFn g v
  end.

Lemma tree_ok_iff par chl Dp Dc Dp' Dc' :
  (∀ v, Dp v ↔ Dp' v) → (∀ v, Dc v ↔ Dc' v) → tree_ok par chl Dp Dc → tree_ok par chl Dp' Dc'.
Proof.
  intros Hp Hc [H1 H2 H3 H4 H5 H6]. split; try done.
  - by rewrite <-Hc.
  - intros v. by rewrite H2, Hp.
  - intros v p ?. rewrite <-Hc. eauto.
  - intros p. rewrite H4, Hc. done.
Qed.

Lemma tree_new_node par chl D v root :
  tree_ok par chl D D → ¬ D v → v ≠ GRAPH_NODE → oget (oset chl v []) GRAPH_NODE = Some root →
  tree_ok (oset par v GRAPH_NODE)
    (oset (oset chl v []) GRAPH_NODE (oset root v true)) (λ u, u = v ∨ D u) (λ u, u = v ∨ D u).
Proof.
  intros [H1 H2 H3 H4 H5 H6] Hv Hr. rewrite oget_oset_ne by done. intros Hroot.
  assert (oget par v = None) as Hpv by (rewrite eq_None_not_Some, H2; done).
  split.
  - naive_solver.
  - intros u. rewrite oget_oset, <-H2. case_decide; naive_solver.
  - intros u p. rewrite oget_oset. case_decide; [naive_solver|]. intros ?%H3. naive_solver.
  - intros p. rewrite !oget_oset. repeat case_decide; [naive_solver..|].
    rewrite H4. naive_solver.
  - intros p cs. rewrite !oget_oset. destruct (H5 _ _ Hroot) as [Hwr Hr']. case_decide as Hp.
    { intros [= <-]. subst p. split; [by apply owf_oset|]. intros u. rewrite !oget_oset.
      case_decide; [naive_solver|]. apply Hr'. }
    case_decide as Hp'.
    { intros [= <-]. subst p. split; [apply owf_nil|]. intros u. rewrite oget_oset.
      split; [by intros [??]|]. case_decide; [congruence|]. intros ?%H3. naive_solver. }
    intros Hcs. destruct (H5 _ _ Hcs) as [? Hc]. split; [done|].
    intros u. rewrite oget_oset, Hc. case_decide; naive_solver.
  - assert (∀ a b, up (oset par v GRAPH_NODE) a b → up par a b) as Hup.
    { intros a b [Ha Hb]. rewrite oget_oset in Ha. case_decide; [naive_solver|]. by split. }
    intros u Htc. apply (H6 u). eapply (tc_congruence id), Htc. done.
Qed.

Lemma edges_new_node g v :
  edges_ok g (isNode g) (isNode g) → ¬ isNode g v →
  edges_ok (with_out (oset (out_ g) v []) (oset (sucs_ g) v [])
             (with_in (oset (in_ g) v []) (oset (preds_ g) v []) g))
    (λ u, u = v ∨ isNode g u) (λ u, u = v ∨ isNode g u).
Proof.
  intros [H1 H2 H3 H4 H5 H6 H7 H8 H9] Hv. split; simpl; try done.
  - intros e x Hx. destruct (H4 _ _ Hx) as (?&?&?&?&?). split_and!; naive_solver.
  - apply inc_new_node; [done..|]. intros e x Hx. by apply H4 in Hx as (_&_&?&_).
  - apply adj_new_node; [done..|]. intros e x Hx. by apply H4 in Hx as (_&_&?&_).
  - apply inc_new_node; [done..|]. intros e x Hx. by apply H4 in Hx as (_&?&_).
  - apply adj_new_node; [done..|]. intros e x Hx. by apply H4 in Hx as (_&?&_).
Qed.

Record setNode_post g v value g' : Prop := {
  sn_wf : wf g';
  sn_options : same_options g g';
  sn_edges : same_edges g g';
  sn_label : ∀ u, oget (nodes_ g') u =
    if decide (u = v) then Some (set_label g v value) else oget (nodes_ g) u;
  sn_parent : isCompound g = true → ∀ u, oget (parent_ g') u =
    if decide (u = v ∧ ¬ isNode g v) then Some GRAPH_NODE else oget (parent_ g) u
}.

Lemma wf_relabel g v x :
  wf g → isNode g v → wf (with_nodes (oset (nodes_ g) v x) (nodeCount_ g) g).
Proof.
  intros [H1 H2 H3 H4 H5] [y Hy]. set (g' := with_nodes _ _ _).
  assert (∀ u, isNode g u ↔ isNode g' u) as Hn.
  { intros u. unfold isNode, g'; simpl. rewrite oget_oset. case_decide; naive_solver. }
  split.
  - by apply owf_oset.
  - intros u. rewrite <-Hn. apply H2.
  - by eapply (edges_ok_move _ _ _ _ _ _ H3).
  - intros Hc. by eapply tree_ok_iff; [..|apply H4].
  - simpl. rewrite H5. by erewrite length_oset_Some.
Qed.

Lemma setNode_ok g v value :
  wf g → plain v → ∃ g', setNode g v value = Ok g' ∧ setNode_post g v value g'.
Proof.
  intros Hwf [Hv Hd]. unfold setNode. destruct (hasNode g v) eqn:Hh.
  - apply hasNode_true in Hh. eexists; split; [done|]. destruct Hh as [y Hy].
    destruct value as [x|]; split; try done.
    + apply wf_relabel; [done|by exists y].
    + intros u. simpl. rewrite oget_oset. repeat case_decide; naive_solver.
    + intros _ u. rewrite decide_False; [done|]. unfold isNode. naive_solver.
    + intros u. unfold set_label. case_decide; [subst|]; by rewrite ?Hy.
    + intros _ u. rewrite decide_False; [done|]. unfold isNode. naive_solver.
  - apply hasNode_false in Hh. pose proof Hwf as [H1 H2 H3 H4 H5].
    assert (oget (nodes_ g) v = None) as Hnone by by apply eq_None_not_Some.
    set (x := match value with Some x => x | None => defaultNodeLabelFn g v end).
    assert (set_label g v value = x) as Hx by (unfold set_label; rewrite Hnone; by destruct value).
    assert (∀ u, u = v ∨ isNode g u ↔ is_Some (oget (oset (nodes_ g) v x) u)) as Hn.
    { intros u. rewrite oget_oset. unfold isNode. case_decide; naive_solver. }
    assert (∀ u, is_Some (oget (oset (nodes_ g) v x) u) → plain u) as Hpl.
    { intros u [->|Hu]%Hn; [done|auto]. }
    assert (∀ u, oget (oset (nodes_ g) v x) u =
      if decide (u = v) then Some (set_label g v value) else oget (nodes_ g) u) as Hlab.
    { intros u. rewrite oget_oset, Hx. repeat case_decide; congruence. }
    assert (nodeCount_ g + 1 = Z.of_nat (length (oset (nodes_ g) v x)))%Z as Hcnt.
    { rewrite length_oset_None, H5 by done. lia. }
    destruct (isCompound g) eqn:Hc; simpl; rewrite Hc.
    + specialize (H4 eq_refl).
      assert (is_Some (oget (oset (children_ g) v []) GRAPH_NODE)) as [root Hroot].
      { rewrite oget_oset_ne by done. apply (tok_children _ _ _ _ H4). by left. }
      rewrite Hroot; simpl. eexists; split; [done|]. split; simpl; try done.
      * split; simpl; [by apply owf_oset|done| |intros _|done].
        -- by eapply (edges_ok_move _ _ _ _ _ _ (edges_new_node g v H3 Hh)).
        -- eapply tree_ok_iff; [..|by apply tree_new_node]; done.
      * intros _ u. rewrite oget_oset. repeat case_decide; naive_solver.
    + eexists; split; [done|]. split; simpl; try done; [|by rewrite Hc].
      split; simpl; [by apply owf_oset|done| |by rewrite Hc|done].
      by eapply (edges_ok_move _ _ _ _ _ _ (edges_new_node g v H3 Hh)).
Qed.

Lemma setNode_isNode g v value g' u :
  setNode_post g v value g' → isNode g' u ↔ u = v ∨ isNode g u.
Proof. intros H. unfold isNode. rewrite (sn_label _ _ _ _ H). case_decide; naive_solver. Qed.

(** ** Inserting an edge *)

(** The label an edge has after [setEdge]. *)
Definition set_elabel g v w (value : option (option E)) name : option E :=
  match value, oget (edgeLabels_ g) (edgeArgsToId (isDirected g) v w name) with
  | Some x, _ => x
  | None, Some x => x
  | None, None => defaultEdgeLabelFn g v w name
  end.

Record setEdge_post g v w value name g' : Prop := {
  se_wf : wf g';
  se_options : same_options g g';
  se_label : ∀ e, oget (edgeLabels_ g') e =
    if decide (e = edgeArgsToId (isDirected g) v w name)
    then Some (set_elabel g v w value name) else oget (edgeLabels_ g) e;
  se_obj : ∀ e, oget (edgeObjs_ g') e =
    match oget (edgeObjs_ g) e with
    | Some x => Some x
    | None => if decide (e = edgeArgsToId (isDirected g) v w name)
              then Some (edgeArgsToObj (isDirected g) v w name) else None
    end;
  se_node : ∀ u, oget (nodes_ g') u =
    match oget (nodes_ g) u with
    | Some x => Some x
    | None => if decide (u = v ∨ u = w) then Some (defaultNodeLabelFn g u) else None
    end;
  se_parent : isCompound g = true → ∀ u, oget (parent_ g') u =
    match oget (parent_ g) u with
    | Some x => Some x
    | None => if decide (u = v ∨ u = w) then Some GRAPH_NODE else None
    end
}.

Lemma plain_free v : plain v → delim_free v = true.
Proof. by intros [_ ?]. Qed.

(** An edge that is in the graph under the id of [v] and [w] joins them. *)
Lemma edge_endpoints g v w name x :
  wf g → plain v → plain w → oget (edgeObjs_ g) (edgeArgsToId (isDirected g) v w name) = Some x →
  orient (isDirected g) v w = (ev x, ew x) ∧ isNode g v ∧ isNode g w.
Proof.
  intros Hwf Hv Hw Hx. destruct (eok_edge _ _ _ (wf_edges _ Hwf) _ _ Hx) as (Hid & Hnv & Hnw & _ & Ho).
  apply edgeArgsToId_inj in Hid as [Hor _]; eauto using plain_free, wf_plain.
  rewrite Ho in Hor. split; [done|].
  destruct (orient_cases (isDirected g) v w); naive_solver congruence.
Qed.

Lemma edge_dom g e : wf g → is_Some (oget (edgeObjs_ g) e) ↔ is_Some (oget (edgeLabels_ g) e).
Proof. intros Hwf. apply (eok_dom _ _ _ (wf_edges _ Hwf)). Qed.

(** The table updates of [setEdge] once both endpoints are nodes. *)
Lemma edges_add g e x lbl pw sv iw ov :
  edges_ok g (isNode g) (isNode g) → oget (edgeObjs_ g) e = None →
  edge_ok (isNode g) (isNode g) (isDirected g) e x →
  oget (preds_ g) (ew x) = Some pw → oget (sucs_ g) (ev x) = Some sv →
  oget (in_ g) (ew x) = Some iw → oget (out_ g) (ev x) = Some ov →
  edges_ok
    (with_edges (oset (edgeObjs_ g) e x) (oset (edgeLabels_ g) e lbl) (edgeCount_ g + 1)
      (with_out (oset (out_ g) (ev x) (oset ov e x)) (oset (sucs_ g) (ev x) (incrementOrInitEntry sv (ew x)))
        (with_in (oset (in_ g) (ew x) (oset iw e x)) (oset (preds_ g) (ew x) (incrementOrInitEntry pw (ev x))) g)))
    (isNode g) (isNode g).
Proof.
  intros [H1 H2 H3 H4 H5 H6 H7 H8 H9] He Hx Hpw Hsv Hiw Hov.
  split; simpl; eauto using owf_oset, inc_add, adj_add.
  - intros e'. rewrite !oget_oset. case_decide; [naive_solver|apply H3].
  - intros e' y. rewrite oget_oset. case_decide; [naive_solver|apply H4].
  - rewrite length_oset_None, H9 by done. lia.
Qed.

(** [setEdge] on an edge that is there. *)
Lemma setEdge_existing g v w value name :
  wf g → plain v → plain w → ohas (edgeLabels_ g) (edgeArgsToId (isDirected g) v w name) = true →
  ∃ g', setEdge g v w value name = Ok g' ∧ setEdge_post g v w value name g'.
Proof.
  intros Hwf Hv Hw Hh. unfold setEdge. rewrite Hh. set (e := edgeArgsToId (isDirected g) v w name) in *.
  apply ohas_true in Hh as [l Hl]. eexists; split; [done|].
  assert (is_Some (oget (edgeObjs_ g) e)) as [x Hx] by (apply edge_dom; eauto).
  destruct (edge_endpoints g v w name x) as (Hor & Hnv & Hnw); [done..|].
  pose proof Hwf as [H1 H2 H3 H4 H5].
  assert (∀ u, oget (nodes_ g) u = match oget (nodes_ g) u with Some x => Some x
    | None => if decide (u = v ∨ u = w) then Some (defaultNodeLabelFn g u) else None end) as Hn.
  { intros u. destruct (oget (nodes_ g) u) eqn:?; [done|]. unfold isNode in *.
    rewrite decide_False; [done|]. intros [->| ->]; [destruct Hnv|destruct Hnw]; congruence. }
  assert (isCompound g = true → ∀ u, oget (parent_ g) u = match oget (parent_ g) u with Some x => Some x
    | None => if decide (u = v ∨ u = w) then Some GRAPH_NODE else None end) as Hp.
  { intros Hc u. destruct (oget (parent_ g) u) eqn:Hu; [done|]. rewrite decide_False; [done|].
    specialize (H4 Hc). apply (tok_parent _ _ _ _ H4) in Hnv, Hnw.
    intros [->| ->]; [destruct Hnv|destruct Hnw]; congruence. }
  assert (∀ e', oget (edgeObjs_ g) e' = match oget (edgeObjs_ g) e' with Some x => Some x
    | None => if decide (e' = e) then Some (edgeArgsToObj (isDirected g) v w name) else None end) as Ho.
  { intros e'. destruct (oget (edgeObjs_ g) e') eqn:?; [done|]. case_decide; congruence. }
  destruct value as [y|]; split; try done.
  - split; try done. destruct H3 as [E1 E2 E3 E4 E5 E6 E7 E8 E9].
    split; simpl; eauto using owf_oset. intros e'. rewrite oget_oset, E3. case_decide; naive_solver.
  - intros e'. simpl. rewrite oget_oset. repeat case_decide; naive_solver.
  - intros e'. unfold set_elabel. fold e. rewrite Hl. case_decide; naive_solver.
Qed.

(** The two [setNode] calls of [setEdge]. *)
Record both_nodes g v w g2 : Prop := {
  bn_wf : wf g2;
  bn_options : same_options g g2;
  bn_edges : same_edges g g2;
  bn_ends : isNode g2 v ∧ isNode g2 w;
  bn_label : ∀ u, oget (nodes_ g2) u =
    match oget (nodes_ g) u with
    | Some x => Some x
    | None => if decide (u = v ∨ u = w) then Some (defaultNodeLabelFn g u) else None
    end;
  bn_parent : isCompound g = true → ∀ u, oget (parent_ g2) u =
    match oget (parent_ g) u with
    | Some x => Some x
    | None => if decide (u = v ∨ u = w) then Some GRAPH_NODE else None
    end
}.

Lemma both_parent g v w g1 g2 u :
  wf g → isCompound g = true → setNode_post g v None g1 → setNode_post g1 w None g2 →
  oget (parent_ g2) u =
    match oget (parent_ g) u with
    | Some x => Some x
    | None => if decide (u = v ∨ u = w) then Some GRAPH_NODE else None
    end.
Proof.
  intros Hwf Hc P1 P2. destruct (sn_options _ _ _ _ P1) as (_&_&O3&_).
  rewrite (sn_parent _ _ _ _ P2) by congruence. rewrite (sn_parent _ _ _ _ P1) by done.
  pose proof (tok_parent _ _ _ _ (wf_tree _ Hwf Hc)) as Htp.
  assert (∀ a, ¬ isNode g a → oget (parent_ g) a = None) as Hnn.
  { intros a Ha. rewrite eq_None_not_Some. by rewrite Htp. }
  destruct (decide (u = w ∧ _)) as [[-> Hw1]|Hw1]; rewrite (setNode_isNode _ _ _ _ w P1) in Hw1.
  { rewrite Hnn by naive_solver. by rewrite decide_True by auto. }
  destruct (decide (u = v ∧ _)) as [[-> Hv1]|Hv1].
  { rewrite Hnn by naive_solver. by rewrite decide_True by auto. }
  destruct (oget (parent_ g) u) eqn:Hu; [done|]. case_decide as Huv; [|done].
  exfalso. assert (¬ isNode g u) as Hnu by (rewrite <-Htp, Hu; by intros [??]).
  destruct (decide (u = v)); naive_solver.
Qed.

Lemma both_nodes_ok g v w :
  wf g → plain v → plain w →
  ∃ g1 g2, setNode g v None = Ok g1 ∧ setNode g1 w None = Ok g2 ∧ both_nodes g v w g2.
Proof.
  intros Hwf Hv Hw. destruct (setNode_ok g v None Hwf Hv) as (g1 & H1 & P1).
  destruct (setNode_ok g1 w None (sn_wf _ _ _ _ P1) Hw) as (g2 & H2 & P2).
  destruct (sn_options _ _ _ _ P1) as (O1&O2&O3&O4&O5&O6), (sn_options _ _ _ _ P2) as (Q1&Q2&Q3&Q4&Q5&Q6).
  destruct (sn_edges _ _ _ _ P1) as (S1&S2), (sn_edges _ _ _ _ P2) as (T1&T2).
  exists g1, g2. split_and!; [done..|]. split.
  - apply P2.
  - split_and!; congruence.
  - split; congruence.
  - rewrite !(setNode_isNode _ _ _ _ _ P2), !(setNode_isNode _ _ _ _ _ P1). naive_solver.
  - intros u. rewrite (sn_label _ _ _ _ P2). unfold set_label. rewrite !(sn_label _ _ _ _ P1). unfold set_label. rewrite O5.
    destruct (decide (u = w)) as [->|]; [|destruct (decide (u = v)) as [->|]].
    + rewrite (decide_True (P := w = v ∨ _)) by auto.
      destruct (decide (w = v)) as [->|]; by destruct (oget (nodes_ g) _).
    + rewrite (decide_True (P := _ ∨ _)) by auto. by destruct (oget (nodes_ g) v).
    + rewrite (decide_False (P := _ ∨ _)) by naive_solver. by destruct (oget (nodes_ g) u).
  - intros Hc u. by eapply both_parent.
Qed.

(** The edge object that [setEdge] stores. *)
Lemma new_edge_ok g v w name :
  isNode g v → isNode g w → name ≠ Some ""%string →
  edge_ok (isNode g) (isNode g) (isDirected g) (edgeArgsToId (isDirected g) v w name) (edgeArgsToObj (isDirected g) v w name).
Proof.
  intros Hnv Hnw Hname. split_and!.
  - by rewrite edgeObjToId_Obj.
  - unfold edgeArgsToObj. destruct (orient_cases (isDirected g) v w) as [->| ->]; done.
  - unfold edgeArgsToObj. destruct (orient_cases (isDirected g) v w) as [->| ->]; done.
  - unfold edgeArgsToObj. destruct (orient _ _ _); simpl. destruct name; simpl; [|done]. case_decide; congruence.
  - unfold edgeArgsToObj. destruct (orient (isDirected g) v w) eqn:Hor; simpl. by eapply orient_idemp.
Qed.

(** [setEdge] on a new edge. *)
Lemma setEdge_new g v w value name :
  wf g → plain v → plain w → name ≠ Some ""%string → name = None ∨ isMultigraph g = true →
  ohas (edgeLabels_ g) (edgeArgsToId (isDirected g) v w name) = false →
  ∃ g', setEdge g v w value name = Ok g' ∧ setEdge_post g v w value name g'.
Proof.
  intros Hwf Hv Hw Hname Hmulti Hh. unfold setEdge. rewrite Hh.
  set (e := edgeArgsToId (isDirected g) v w name) in *. apply ohas_false in Hh.
  assert (oget (edgeObjs_ g) e = None) as Hno.
  { rewrite eq_None_not_Some, edge_dom, Hh by done. by intros [??]. }
  assert (bool_decide (is_Some name) && negb (isMultigraph g) = false) as ->.
  { destruct Hmulti as [->| ->]; [done|by rewrite andb_false_r]. }
  destruct (both_nodes_ok g v w Hwf Hv Hw) as (g1 & g2 & -> & H2 & P). simpl. rewrite H2. simpl. clear H2.
  destruct P as [Hwf2 (O1&O2&O3&O4&O5&O6) [T1 T2] [Hnv Hnw] Hlab Hpar].
  pose proof (new_edge_ok g2 v w name Hnv Hnw Hname) as Hx. rewrite O1 in Hx. fold e in Hx. rewrite O1.
  set (x := edgeArgsToObj (isDirected g) v w name) in *.
  assert (oget (edgeObjs_ g2) e = None) as Hno2 by (by rewrite T1).
  pose proof Hwf2 as [W1 W2 W3 W4 W5]. pose proof Hx as (_ & Hxv & Hxw & _).
  destruct (adj_lookup _ _ _ _ _ _ (eok_preds _ _ _ W3) Hxw) as (pw & Hpw & _).
  destruct (adj_lookup _ _ _ _ _ _ (eok_sucs _ _ _ W3) Hxv) as (sv & Hsv & _).
  destruct (inc_lookup _ _ _ _ _ (eok_in _ _ _ W3) Hxw) as (iw & Hiw & _).
  destruct (inc_lookup _ _ _ _ _ (eok_out _ _ _ W3) Hxv) as (ov & Hov & _).
  rewrite Hpw; simpl. rewrite Hsv; simpl. rewrite Hiw; simpl. rewrite Hov; simpl.
  eexists; split; [done|]. split.
  - split; simpl; try done. rewrite <-O1 in Hx.
    by apply (edges_ok_ext _ _ _ _ (edges_add g2 e x
      (match value with Some x => x | None => defaultEdgeLabelFn g2 v w name end)
      pw sv iw ov W3 Hno2 Hx Hpw Hsv Hiw Hov)).
  - split_and!; simpl; congruence.
  - intros e'. simpl. rewrite oget_oset, T2. unfold set_elabel. fold e. rewrite Hh, O6. repeat case_decide; congruence.
  - intros e'. simpl. rewrite oget_oset, T1. fold e x. destruct (decide (e = e')) as [<-|].
    { by rewrite Hno, decide_True. }
    rewrite decide_False by congruence. by destruct (oget (edgeObjs_ g) e').
  - apply Hlab.
  - apply Hpar.
Qed.

Lemma setEdge_ok g v w value name :
  wf g → plain v → plain w → name ≠ Some ""%string →
  (name = None ∨ isMultigraph g = true ∨ hasEdge g v w name = true) →
  ∃ g', setEdge g v w value name = Ok g' ∧ setEdge_post g v w value name g'.
Proof.
  intros Hwf Hv Hw Hname Hmulti. unfold hasEdge in Hmulti.
  destruct (ohas (edgeLabels_ g) (edgeArgsToId (isDirected g) v w name)) eqn:Hh.
  - by apply setEdge_existing.
  - apply setEdge_new; naive_solver.
Qed.
End Invariant.
