(* ===== verification/GraphRemove.v ===== *)
(** * graphlib: hierarchy updates and node removal keep the invariant *)
From S2P Require Import Prelude JsObject Graphlib GraphWf GraphInv.

(** ** Tree surgery *)

Section Tree.
Implicit Types (par : obj string) (chl : obj (obj bool)) (Dp Dc : string → Prop).

Lemma tree_detach par chl Dp Dc v q cq :
  tree_ok par chl Dp Dc → oget par v = Some q → oget chl q = Some cq →
  tree_ok (odel par v) (oset chl q (odel cq v)) (λ u, Dp u ∧ u ≠ v) Dc.
Proof.
  intros [H1 H2 H3 H4 H5 H6] Hq Hcq. split.
  - done.
  - intros u. rewrite oget_odel, <-H2. case_decide; [|naive_solver].
    split; [by intros [??]|naive_solver].
  - intros u p. rewrite oget_odel. case_decide; [done|]. apply H3.
  - intros p. rewrite oget_oset, <-H4. case_decide; naive_solver.
  - intros p cs. rewrite oget_oset. case_decide as Hp.
    + intros [= <-]. subst p. destruct (H5 _ _ Hcq) as [Hwf Hc].
      split; [by apply owf_odel|]. intros u. rewrite !oget_odel.
      case_decide; [|apply Hc]. split; [by intros [??]|done].
    + intros Hcs. destruct (H5 _ _ Hcs) as [Hwf Hc]. split; [done|].
      intros u. rewrite oget_odel, Hc. case_decide; [|done]. subst. split; [congruence|done].
  - intros u Htc. apply (H6 u). eapply (tc_congruence id), Htc.
    intros a b [Ha Hb]. rewrite oget_odel in Ha. case_decide; [done|by split].
Qed.

Lemma tree_drop par chl Dp Dc v :
  tree_ok par chl Dp Dc → v ≠ GRAPH_NODE → (∀ u, oget par u ≠ Some v) →
  tree_ok par (odel chl v) Dp (λ u, Dc u ∧ u ≠ v).
Proof.
  intros [H1 H2 H3 H4 H5 H6] Hv Hno. split.
  - naive_solver.
  - done.
  - intros u p Hp. destruct (H3 _ _ Hp); [by left|]. right. split; [done|]. intros ->. by eapply Hno.
  - intros p. rewrite oget_odel. case_decide as Hp; [|rewrite H4; naive_solver].
    subst. split; [by intros [??]|naive_solver].
  - intros p cs. rewrite oget_odel. case_decide; [done|]. apply H5.
  - done.
Qed.

(** Redirecting the parent of [v] adds only cycles through the new link. *)
Lemma up_redirect par v p x y :
  tc (up (oset par v p)) x y →
  tc (up par) x y ∨ (p ≠ GRAPH_NODE ∧ rtc (up par) x v ∧ rtc (up par) p y).
Proof.
  assert (∀ a b, up (oset par v p) a b → (a = v ∧ b = p ∧ p ≠ GRAPH_NODE) ∨ up par a b) as Hup.
  { intros a b [Ha Hb]. rewrite oget_oset in Ha. unfold up. case_decide; naive_solver. }
  induction 1 as [a b [(-> & -> & ?)|?]%Hup|a b c [(-> & -> & ?)|?]%Hup _ IH].
  - right. split_and!; done || apply rtc_refl.
  - left. by apply tc_once.
  - right. split_and!; [done|apply rtc_refl|]. destruct IH as [?|(_&_&?)]; [by apply tc_rtc|done].
  - destruct IH as [?|(?&?&?)]; [left; by eapply tc_l|]. right. split_and!; [done| |done].
    by eapply rtc_l.
Qed.

Lemma tree_redirect par chl Dp Dc v p q cq cp :
  tree_ok par chl Dp Dc → Dp v → (p = GRAPH_NODE ∨ Dc p) →
  (p ≠ GRAPH_NODE → ¬ rtc (up par) p v) →
  oget par v = Some q → oget chl q = Some cq → oget (oset chl q (odel cq v)) p = Some cp →
  tree_ok (oset par v p) (oset (oset chl q (odel cq v)) p (oset cp v true)) Dp Dc.
Proof.
  intros Ht Hv Hp Hnc Hq Hcq Hcp.
  pose proof (tree_detach _ _ _ _ _ _ _ Ht Hq Hcq) as [_ _ _ G4 G5 _].
  destruct Ht as [H1 H2 H3 H4 H5 H6]. split.
  - done.
  - intros u. rewrite oget_oset, <-H2. case_decide; naive_solver.
  - intros u p'. rewrite oget_oset. case_decide; [naive_solver|]. apply H3.
  - intros p'. rewrite oget_oset, <-G4. case_decide; naive_solver.
  - intros p' cs. rewrite oget_oset. case_decide as Hpp.
    + intros [= <-]. subst p'. destruct (G5 _ _ Hcp) as [Hwf Hc].
      split; [by apply owf_oset|]. intros u. rewrite !oget_oset.
      case_decide; [naive_solver|]. by rewrite Hc, oget_odel_ne.
    + intros Hcs. destruct (G5 _ _ Hcs) as [Hwf Hc]. split; [done|].
      intros u. rewrite Hc, oget_oset, oget_odel. case_decide; [|done]. split; congruence.
  - intros u [Htc|(Hpr & Hxv & Hpx)]%up_redirect; [by eapply H6|].
    apply (Hnc Hpr). by etrans.
Qed.
End Tree.

Section Hierarchy.
Context {L N E : Type}.
Implicit Types (g : Graph L N E) (v w p e : string).

(** ** The ancestor loop *)

Lemma parent_up g v p : isCompound g = true → parent g v = Some p ↔ up (parent_ g) v p.
Proof.
  intros Hc. unfold parent, up. rewrite Hc. destruct (oget (parent_ g) v) as [q|]; [|naive_solver].
  case_decide; naive_solver.
Qed.

Lemma isAncestor_sound g v fuel a :
  isCompound g = true → isAncestor fuel g v (Some a) = true → rtc (up (parent_ g)) a v.
Proof.
  intros Hc. revert a. induction fuel as [|fuel IH]; intros a; simpl; [done|].
  case_decide; [subst; intros; apply rtc_refl|].
  destruct (parent g a) as [b|] eqn:Hb; [|by destruct fuel].
  intros Hanc. apply parent_up in Hb; [|done]. eapply rtc_l; eauto.
Qed.

Lemma isAncestor_complete g v fuel n a :
  isCompound g = true → nsteps (up (parent_ g)) n a v → n < fuel →
  isAncestor fuel g v (Some a) = true.
Proof.
  intros Hc Hn. revert fuel. induction Hn as [a|n a b v Hab Hn IH]; intros [|fuel] Hf; try lia; simpl.
  - by rewrite decide_True.
  - case_decide; [done|]. apply parent_up in Hab; [|done]. rewrite Hab. apply IH. lia.
Qed.

(** The fuel of [setParent] is enough: on a well-formed graph the loop decides
    whether [v] is reached by climbing from [a]. *)
Lemma isAncestor_spec g v a :
  wf g → isCompound g = true →
  isAncestor (S (length (nodes g))) g v (Some a) = true ↔ rtc (up (parent_ g)) a v.
Proof.
  intros Hwf Hc. split; [by apply isAncestor_sound|].
  intros [n Hn]%rtc_nsteps. eapply isAncestor_complete; [done..|].
  destruct (wf_tree _ Hwf Hc) as [T1 T2 T3 T4 T5 T6].
  enough (n ≤ length (nodes g)) by lia. eapply acyclic_nsteps_bound; [done| |done].
  intros x y [Hx _]. unfold nodes. apply elem_of_okeys, T2. eauto.
Qed.

(** ** [setParent] *)

Record setParent_post g v (p : option string) g' : Prop := {
  sp_wf : wf g';
  sp_options : same_options g g';
  sp_edges : same_edges g g';
  sp_node : ∀ u, oget (nodes_ g') u =
    match oget (nodes_ g) u with
    | Some x => Some x
    | None => if decide (u = v ∨ Some u = p) then Some (defaultNodeLabelFn g u) else None
    end;
  sp_parent : ∀ u, oget (parent_ g') u =
    if decide (u = v) then Some (default GRAPH_NODE p)
    else match oget (parent_ g) u with
         | Some q => Some q
         | None => if decide (Some u = p) then Some GRAPH_NODE else None
         end
}.

(** The last steps of [setParent], once [v] and the new parent are nodes. *)
Definition relink g v p : res (Graph L N E) :=
  g <-- removeFromParentsChildList g v ;;
  let g := with_tree (oset (parent_ g) v p) (children_ g) g in
  cs <-- of_option (oget (children_ g) p) ;;
  Ok (with_tree (parent_ g) (oset (children_ g) p (oset cs v true)) g).

Lemma relink_tree g v p Dp Dc :
  tree_ok (parent_ g) (children_ g) Dp Dc → Dp v → (p = GRAPH_NODE ∨ Dc p) →
  (p ≠ GRAPH_NODE → ¬ rtc (up (parent_ g)) p v) →
  ∃ par chl, relink g v p = Ok (with_tree par chl g) ∧ tree_ok par chl Dp Dc ∧
    par = oset (parent_ g) v p.
Proof.
  intros Ht Hv Hp Hnc. pose proof Ht as [T1 T2 T3 T4 T5 T6].
  destruct (proj2 (T2 v) Hv) as [q Hq]. destruct (proj2 (T4 q) (T3 _ _ Hq)) as [cq Hcq].
  assert (is_Some (oget (oset (children_ g) q (odel cq v)) p)) as [cp Hcp].
  { rewrite oget_oset. case_decide; [eauto|]. by apply T4. }
  unfold relink, removeFromParentsChildList. rewrite Hq; simpl. rewrite Hcq; simpl. rewrite Hcp; simpl.
  do 2 eexists. split_and!; [done| |done]. by eapply tree_redirect.
Qed.

Lemma relink_post g v p :
  wf g → isCompound g = true → isNode g v → (p = GRAPH_NODE ∨ isNode g p) →
  (p ≠ GRAPH_NODE → ¬ rtc (up (parent_ g)) p v) →
  ∃ g', relink g v p = Ok g' ∧ wf g' ∧ same_options g g' ∧ same_edges g g' ∧
    nodes_ g' = nodes_ g ∧ parent_ g' = oset (parent_ g) v p.
Proof.
  intros [H1 H2 H3 H4 H5] Hc Hv Hp Hnc.
  destruct (relink_tree g v p _ _ (H4 Hc) Hv Hp Hnc) as (par & chl & Hr & Ht & Hpar).
  eexists; split; [done|]. split_and!; try done.
  split; simpl; try done. by eapply (edges_ok_move _ _ _ _ _ _ H3).
Qed.

(** Adding isolated roots does not change which nodes lie above one another. *)
Lemma setNode_rtc g w value g' a b :
  setNode_post g w value g' → isCompound g = true →
  rtc (up (parent_ g')) a b → rtc (up (parent_ g)) a b.
Proof.
  intros HP Hc. apply (rtc_congruence id). intros x y [Hx Hy].
  rewrite (sn_parent _ _ _ _ HP Hc) in Hx. case_decide; [naive_solver|by split].
Qed.

Lemma setParent_root_ok g v :
  wf g → isCompound g = true → plain v →
  ∃ g', setParent g v None = Ok g' ∧ setParent_post g v None g'.
Proof.
  intros Hwf Hc Hv. unfold setParent. rewrite Hc. simpl.
  destruct (setNode_ok g v None Hwf Hv) as (g1 & -> & P). simpl. fold (relink g1 v GRAPH_NODE).
  pose proof (sn_options _ _ _ _ P) as (O1&O2&O3&O4&O5&O6).
  destruct (relink_post g1 v GRAPH_NODE) as (g' & Hr & W & SO & SE & Hn & Hp); [apply P|congruence| | |done|].
  { apply (setNode_isNode _ _ _ _ _ P). by left. } { by left. }
  exists g'. split; [done|]. split; [done| | | |].
  - etrans; [apply P|done].
  - etrans; [apply P|done].
  - intros u. rewrite Hn, (sn_label _ _ _ _ P). unfold set_label.
    destruct (decide (u = v)) as [->|].
    + rewrite decide_True by auto. by destruct (oget (nodes_ g) v).
    + rewrite decide_False by naive_solver. by destruct (oget (nodes_ g) u).
  - intros u. rewrite Hp, oget_oset, (sn_parent _ _ _ _ P Hc).
    destruct (decide (u = v)) as [->|]; [by rewrite decide_True|].
    rewrite (decide_False (P := v = u)) by done. rewrite (decide_False (P := _ ∧ _)) by naive_solver.
    rewrite (decide_False (P := Some u = None)) by done. by destruct (oget (parent_ g) u).
Qed.

Lemma setParent_ok g v p :
  wf g → isCompound g = true → plain v → plain p → ¬ rtc (up (parent_ g)) p v →
  ∃ g', setParent g v (Some p) = Ok g' ∧ setParent_post g v (Some p) g'.
Proof.
  intros Hwf Hc Hv Hpp Hnc. unfold setParent. rewrite Hc. cbn [negb].
  destruct (isAncestor _ g v (Some p)) eqn:Ha.
  { by apply isAncestor_spec in Ha. }
  destruct (setNode_ok g p None Hwf Hpp) as (g1 & -> & P). cbn [res_bind default].
  pose proof (sn_options _ _ _ _ P) as (O1&O2&O3&O4&O5&O6).
  destruct (setNode_ok g1 v None (sn_wf _ _ _ _ P) Hv) as (g2 & -> & Q). cbn [res_bind].
  change (default GRAPH_NODE (Some p)) with p. fold (relink g2 v p).
  pose proof (sn_options _ _ _ _ Q) as (Q1&Q2&Q3&Q4&Q5&Q6).
  destruct (relink_post g2 v p) as (g' & Hr & W & SO & SE & Hn & Hp); [apply Q|congruence| | | |].
  { apply (setNode_isNode _ _ _ _ _ Q). by left. }
  { right. rewrite (setNode_isNode _ _ _ _ _ Q), (setNode_isNode _ _ _ _ _ P). auto. }
  { intros _ Hr. apply Hnc. eapply setNode_rtc; [done..|]. eapply setNode_rtc; [done|congruence|done]. }
  exists g'. split; [done|]. split; [done| | | |].
  - etrans; [apply P|]. etrans; [apply Q|done].
  - etrans; [apply P|]. etrans; [apply Q|done].
  - intros u. rewrite Hn, (sn_label _ _ _ _ Q). unfold set_label.
    rewrite !(sn_label _ _ _ _ P). unfold set_label. rewrite O5.
    destruct (decide (u = v)) as [->|]; [|destruct (decide (u = p)) as [->|]].
    + rewrite (decide_True (P := _ ∨ _)) by auto.
      destruct (decide (v = p)) as [->|]; by destruct (oget (nodes_ g) _).
    + rewrite (decide_True (P := _ ∨ _)) by auto. by destruct (oget (nodes_ g) p).
    + rewrite (decide_False (P := _ ∨ _)) by naive_solver. by destruct (oget (nodes_ g) u).
  - intros u. rewrite Hp, oget_oset, (sn_parent _ _ _ _ Q), (sn_parent _ _ _ _ P) by congruence.
    destruct (decide (u = v)) as [->|]; [by rewrite decide_True|].
    rewrite (decide_False (P := v = u)), (decide_False (P := u = v ∧ _)) by naive_solver.
    pose proof (tok_parent _ _ _ _ (wf_tree _ Hwf Hc) u) as Htp. unfold isNode in Htp.
    destruct (decide (u = p ∧ _)) as [[-> Hnp]|Hnp].
    + assert (oget (parent_ g) p = None) as -> by (rewrite eq_None_not_Some, Htp; done).
      by rewrite decide_True.
    + destruct (oget (parent_ g) u) eqn:Hu; [done|]. rewrite decide_False; [done|].
      intros [= ->]. apply Hnp. split; [done|]. intros Hn'. apply Htp in Hn' as [??]. done.
Qed.

(** The cycle test is exact: [setParent] refuses a parent exactly when the new
    link would put [v] above itself. *)
Lemma setParent_cycle g v p :
  wf g → isCompound g = true → rtc (up (parent_ g)) p v →
  setParent g v (Some p) =
    Throw (JsError ("Setting " +:+ p +:+ " as parent of " +:+ v +:+ " would create a cycle")).
Proof.
  intros Hwf Hc Hr. unfold setParent. rewrite Hc. cbn [negb].
  apply isAncestor_spec in Hr; [|done..]. by rewrite Hr.
Qed.
End Hierarchy.

(** * graphlib: [removeNode] removes a node, its edges and its place in the tree *)
From S2P Require Import Prelude JsObject Graphlib GraphWf GraphInv.

Section Remove.
Context {L N E : Type}.
Implicit Types (g : Graph L N E) (v w p e : string).

(** ** Removing a list of edges *)

(** Everything outside the edge tables. *)
Definition same_nodes g g' : Prop :=
  nodes_ g' = nodes_ g ∧ nodeCount_ g' = nodeCount_ g ∧
  parent_ g' = parent_ g ∧ children_ g' = children_ g.

Record removed g (es : list string) g' Din Dout : Prop := {
  rm_ok : edges_ok g' Din Dout;
  rm_obj : ∀ e, oget (edgeObjs_ g') e = if decide (e ∈ es) then None else oget (edgeObjs_ g) e;
  rm_label : ∀ e, oget (edgeLabels_ g') e = if decide (e ∈ es) then None else oget (edgeLabels_ g) e;
  rm_nodes : same_nodes g g';
  rm_options : isDirected g' = isDirected g ∧ isMultigraph g' = isMultigraph g ∧
               isCompound g' = isCompound g ∧ glabel g' = glabel g
}.

Lemma removeIncident_ok g e x Din Dout :
  edges_ok g Din Dout → oget (edgeObjs_ g) e = Some x →
  ∃ g', removeIncident g e = Ok g' ∧ removed g [e] g' Din Dout.
Proof.
  intros Hok Hx. unfold removeIncident. rewrite Hx. simpl. unfold removeEdgeObj.
  destruct (eok_edge _ _ _ Hok _ _ Hx) as (<- & _).
  destruct (removeEdgeById_ok g e Din Dout Hok) as (g' & -> & H1 & H2 & H3 & H4 & H5 & H6 & H7 & H8).
  exists g'. split; [done|]. split; try done.
  - intros e'. rewrite H2, oget_odel. destruct (decide (e = e')) as [<-|].
    + by rewrite decide_True by set_solver.
    + by rewrite decide_False by set_solver.
  - intros e'. rewrite H3, oget_odel. destruct (decide (e = e')) as [<-|].
    + by rewrite decide_True by set_solver.
    + by rewrite decide_False by set_solver.
Qed.

Lemma removed_app g es1 g1 es2 g2 Din Dout :
  removed g es1 g1 Din Dout → removed g1 es2 g2 Din Dout → removed g (es1 ++ es2) g2 Din Dout.
Proof.
  intros [A1 A2 A3 (?&?&?&?) A5] [B1 B2 B3 (?&?&?&?) B5]. split; [done| | | |].
  - intros e. rewrite B2, A2. destruct (decide (e ∈ es2)).
    { by rewrite decide_True by set_solver. }
    destruct (decide (e ∈ es1)); [by rewrite decide_True by set_solver|].
    by rewrite decide_False by set_solver.
  - intros e. rewrite B3, A3. destruct (decide (e ∈ es2)).
    { by rewrite decide_True by set_solver. }
    destruct (decide (e ∈ es1)); [by rewrite decide_True by set_solver|].
    by rewrite decide_False by set_solver.
  - split_and!; congruence.
  - intuition congruence.
Qed.

Lemma removeIncident_all g es Din Dout :
  edges_ok g Din Dout → NoDup es → (∀ e, e ∈ es → is_Some (oget (edgeObjs_ g) e)) →
  ∃ g', res_fold removeIncident g es = Ok g' ∧ removed g es g' Din Dout.
Proof.
  intros Hok Hnd Hes.
  apply (res_fold_inv removeIncident (λ es g', removed g es g' Din Dout)).
  - split; try done.
  - intros done x rest s -> HP. apply NoDup_app in Hnd as (_ & Hd & Hx%NoDup_cons).
    assert (is_Some (oget (edgeObjs_ s) x)) as [y Hy].
    { rewrite (rm_obj _ _ _ _ _ HP). rewrite decide_False; [apply Hes; set_solver|]. set_solver. }
    destruct (removeIncident_ok s x y Din Dout) as (s' & ? & ?); [apply HP|done|].
    exists s'. split; [done|]. by eapply removed_app.
Qed.

(** ** Moving the children of a removed node to the root *)

Lemma setParent_existing g c :
  isCompound g = true → isNode g c → setParent g c None = relink g c GRAPH_NODE.
Proof.
  intros Hc Hn. unfold setParent. rewrite Hc. simpl. unfold setNode.
  apply hasNode_true in Hn. by rewrite Hn.
Qed.

Lemma orphan_children g cs Dp Dc :
  isCompound g = true → tree_ok (parent_ g) (children_ g) Dp Dc →
  (∀ c, c ∈ cs → Dp c ∧ isNode g c) →
  ∃ par chl, res_fold (λ g c, setParent g c None) g cs = Ok (with_tree par chl g) ∧
    tree_ok par chl Dp Dc ∧
    ∀ u, oget par u = if decide (u ∈ cs) then Some GRAPH_NODE else oget (parent_ g) u.
Proof.
  intros Hc Ht Hcs.
  destruct (res_fold_inv (λ g c, setParent g c None) (λ done g', ∃ par chl, g' = with_tree par chl g ∧
     tree_ok par chl Dp Dc ∧
     ∀ u, oget par u = if decide (u ∈ done) then Some GRAPH_NODE else oget (parent_ g) u) cs g)
    as (g' & Hf & par & chl & -> & HP).
  - exists (parent_ g), (children_ g). split_and!; [by destruct g|done|done].
  - intros done c rest s -> (par & chl & -> & Ht' & Hpar).
    destruct (Hcs c) as [Hd Hn]; [set_solver|].
    rewrite setParent_existing by done.
    destruct (relink_tree (with_tree par chl g) c GRAPH_NODE Dp Dc) as (par' & chl' & -> & Ht'' & Hp');
      [done|done|by left|done|].
    eexists; split; [done|]. do 2 eexists; split_and!; [done|done|].
    intros u. rewrite Hp'. simpl. rewrite oget_oset, Hpar.
    destruct (decide (c = u)) as [<-|]; [by rewrite decide_True by set_solver|].
    destruct (decide (u ∈ done)); [by rewrite decide_True by set_solver|].
    by rewrite decide_False by set_solver.
  - exists par, chl. done.
Qed.

(** The hierarchy part of [removeNode]. *)
Definition unlinkNode g v : res (Graph L N E) :=
  g <-- removeFromParentsChildList g v ;;
  let g := with_tree (odel (parent_ g) v) (children_ g) g in
  g <-- res_fold (λ g c, setParent g c None) g (default [] (children g v)) ;;
  Ok (with_tree (parent_ g) (odel (children_ g) v) g).

Lemma unlinkNode_ok g v D :
  isCompound g = true → tree_ok (parent_ g) (children_ g) D D → D v → v ≠ GRAPH_NODE →
  (∀ u, D u → u ≠ v → isNode g u) →
  ∃ par chl, unlinkNode g v = Ok (with_tree par chl g) ∧
    tree_ok par chl (λ u, D u ∧ u ≠ v) (λ u, D u ∧ u ≠ v) ∧
    ∀ u, oget par u = if decide (u = v) then None
                      else if decide (oget (parent_ g) u = Some v) then Some GRAPH_NODE
                      else oget (parent_ g) u.
Proof.
  intros Hc Ht Hv Hr HD. pose proof Ht as [T1 T2 T3 T4 T5 T6].
  destruct (proj2 (T2 v) Hv) as [q Hq]. destruct (proj2 (T4 q) (T3 _ _ Hq)) as [cq Hcq].
  pose proof (tree_detach _ _ _ _ _ _ _ Ht Hq Hcq) as Ht1.
  unfold unlinkNode, removeFromParentsChildList. rewrite Hq; simpl. rewrite Hcq; simpl.
  set (g1 := with_tree (odel (parent_ g) v) (oset (children_ g) q (odel cq v)) g).
  change (with_tree (odel (parent_ g) v) (oset (children_ g) q (odel cq v)) _) with g1.
  assert (∃ cs, children g1 v = Some cs ∧ ∀ u, u ∈ cs ↔ oget (odel (parent_ g) v) u = Some v) as (cs & Hcs & Hmem).
  { unfold children. simpl. rewrite Hc.
    destruct (proj2 (tok_children _ _ _ _ Ht1 v) (or_intror Hv)) as [o Ho].
    rewrite Ho. simpl. eexists; split; [done|]. intros u. rewrite elem_of_okeys.
    apply (proj2 (tok_child _ _ _ _ Ht1 _ _ Ho)). }
  rewrite Hcs. simpl.
  destruct (orphan_children g1 cs (λ u, D u ∧ u ≠ v) D) as (par & chl & -> & Ht2 & Hpar); [done|done| |].
  { intros c Hcin%Hmem. rewrite oget_odel in Hcin. case_decide; [done|].
    assert (D c) by (apply T2; eauto). split; [naive_solver|]. apply HD; naive_solver. }
  simpl. exists par, (odel chl v). split; [done|].
  assert (∀ u, oget par u = if decide (u = v) then None
    else if decide (oget (parent_ g) u = Some v) then Some GRAPH_NODE else oget (parent_ g) u) as Hfin.
  { intros u. rewrite Hpar. simpl. destruct (decide (u = v)) as [->|Hu].
    - rewrite decide_False; [apply oget_odel_eq|]. rewrite Hmem, oget_odel_eq. done.
    - destruct (decide (u ∈ cs)) as [Hin|Hin]; rewrite Hmem, oget_odel_ne in Hin by done.
      + by rewrite decide_True.
      + rewrite decide_False by done. by apply oget_odel_ne. }
  split; [|done]. apply tree_drop; [done|done|]. intros u Hu. rewrite Hfin in Hu.
  repeat case_decide; congruence.
Qed.

(** ** The whole operation *)

Record removeNode_post g v g' : Prop := {
  rn_wf : wf g';
  rn_node : ∀ u, oget (nodes_ g') u = if decide (u = v) then None else oget (nodes_ g) u;
  rn_obj : ∀ e, oget (edgeObjs_ g') e =
    x ← oget (edgeObjs_ g) e; if decide (ev x = v ∨ ew x = v) then None else Some x;
  rn_label : ∀ e, oget (edgeLabels_ g') e =
    x ← oget (edgeObjs_ g) e; if decide (ev x = v ∨ ew x = v) then None else oget (edgeLabels_ g) e;
  rn_parent : isCompound g = true → ∀ u, oget (parent_ g') u =
    if decide (u = v) then None
    else if decide (oget (parent_ g) u = Some v) then Some GRAPH_NODE
    else oget (parent_ g) u;
  rn_options : isDirected g' = isDirected g ∧ isMultigraph g' = isMultigraph g ∧
               isCompound g' = isCompound g ∧ glabel g' = glabel g
}.

(** The edge part of [removeNode]. *)
Definition dropEdges g v : res (Graph L N E) :=
  g <-- res_fold removeIncident g (default [] (okeys <$> oget (in_ g) v)) ;;
  let g := with_in (odel (in_ g) v) (odel (preds_ g) v) g in
  g <-- res_fold removeIncident g (default [] (okeys <$> oget (out_ g) v)) ;;
  Ok (with_out (odel (out_ g) v) (odel (sucs_ g) v) g).

Lemma inc_keys D proj eo tbl v :
  inc_ok D proj eo tbl → D v →
  NoDup (default [] (okeys <$> oget tbl v)) ∧
  ∀ e, e ∈ default [] (okeys <$> oget tbl v) ↔ ∃ x, oget eo e = Some x ∧ proj x = v.
Proof.
  intros H HD. destruct (inc_lookup _ _ _ _ _ H HD) as (o & Ho & Hwf & Hi).
  rewrite Ho. simpl. split; [by apply NoDup_okeys|].
  intros e. rewrite elem_of_okeys. split.
  - intros [x Hx]. exists x. by apply Hi.
  - intros (x & Hx). exists x. by apply Hi.
Qed.

Lemma edges_drop_in g Din Dout v :
  edges_ok g Din Dout → (∀ e x, oget (edgeObjs_ g) e = Some x → ew x ≠ v) →
  edges_ok (with_in (odel (in_ g) v) (odel (preds_ g) v) g) (λ u, Din u ∧ u ≠ v) Dout.
Proof.
  intros [H1 H2 H3 H4 H5 H6 H7 H8 H9] Hno. split; simpl; eauto using inc_del_node, adj_del_node.
  intros e x Hx. destruct (H4 _ _ Hx) as (?&?&?&?&?). split_and!; eauto.
Qed.

Lemma edges_drop_out g Din Dout v :
  edges_ok g Din Dout → (∀ e x, oget (edgeObjs_ g) e = Some x → ev x ≠ v) →
  edges_ok (with_out (odel (out_ g) v) (odel (sucs_ g) v) g) Din (λ u, Dout u ∧ u ≠ v).
Proof.
  intros [H1 H2 H3 H4 H5 H6 H7 H8 H9] Hno. split; simpl; eauto using inc_del_node, adj_del_node.
  intros e x Hx. destruct (H4 _ _ Hx) as (?&?&?&?&?). split_and!; eauto.
Qed.

Lemma dropEdges_ok g v D :
  edges_ok g D D → D v →
  ∃ g', dropEdges g v = Ok g' ∧ edges_ok g' (λ u, D u ∧ u ≠ v) (λ u, D u ∧ u ≠ v) ∧
    same_nodes g g' ∧
    (∀ e, oget (edgeObjs_ g') e =
       x ← oget (edgeObjs_ g) e; if decide (ev x = v ∨ ew x = v) then None else Some x) ∧
    (∀ e, oget (edgeLabels_ g') e =
       x ← oget (edgeObjs_ g) e; if decide (ev x = v ∨ ew x = v) then None else oget (edgeLabels_ g) e) ∧
    isDirected g' = isDirected g ∧ isMultigraph g' = isMultigraph g ∧
    isCompound g' = isCompound g ∧ glabel g' = glabel g.
Proof.
  intros Hok Hv. unfold dropEdges.
  destruct (inc_keys _ _ _ _ v (eok_in _ _ _ Hok) Hv) as [Hnd1 Hm1].
  set (es1 := default [] (okeys <$> oget (in_ g) v)) in *.
  destruct (removeIncident_all g es1 D D Hok Hnd1) as (g1 & -> & R1).
  { intros e (x & ? & _)%Hm1. eauto. }
  simpl. destruct R1 as [A1 A2 A3 (?&?&?&?) (?&?&?&?)].
  assert (edges_ok (with_in (odel (in_ g1) v) (odel (preds_ g1) v) g1) (λ u, D u ∧ u ≠ v) D) as Hok2.
  { apply edges_drop_in; [done|]. intros e x. rewrite A2. case_decide as He; [done|].
    intros Hx Hw. apply He, Hm1. eauto. }
  set (g2 := with_in _ _ g1) in *.
  destruct (inc_keys _ _ _ _ v (eok_out _ _ _ Hok2) Hv) as [Hnd2 Hm2].
  set (es2 := default [] (okeys <$> oget (out_ g1) v)) in *.
  destruct (removeIncident_all g2 es2 _ _ Hok2 Hnd2) as (g3 & -> & R3).
  { intros e (x & ? & _)%Hm2. eauto. }
  simpl. destruct R3 as [B1 B2 B3 (?&?&?&?) (?&?&?&?)].
  assert (∀ e, oget (edgeObjs_ g3) e =
    x ← oget (edgeObjs_ g) e; if decide (ev x = v ∨ ew x = v) then None else Some x) as Hobj.
  { intros e. rewrite B2. change (edgeObjs_ g2) with (edgeObjs_ g1) in *. rewrite A2.
    destruct (decide (e ∈ es2)) as [He|He].
    - apply Hm2 in He as (x & Hx & Hxv). rewrite A2 in Hx. case_decide; [done|].
      rewrite Hx. simpl. by rewrite decide_True by auto.
    - case_decide as He1.
      + apply Hm1 in He1 as (x & -> & Hxw). simpl. by rewrite decide_True by auto.
      + destruct (oget (edgeObjs_ g) e) as [x|] eqn:Hx; [|done]. simpl. rewrite decide_False; [done|].
        intros [Hxv|Hxw]; [apply He, Hm2|apply He1, Hm1; eauto].
        exists x. rewrite A2, decide_False by done. done. }
  eexists; split; [done|]. split_and!; try done; simpl; try (unfold g2 in *; simpl in *; congruence).
  - apply edges_drop_out; [done|]. intros e x. rewrite Hobj.
    destruct (oget (edgeObjs_ g) e); simpl; [|done]. case_decide; naive_solver.
  - unfold g2 in *; simpl in *. split_and!; simpl; congruence.
  - intros e. rewrite B3. change (edgeLabels_ g2) with (edgeLabels_ g1). rewrite A3.
    specialize (Hobj e). rewrite B2 in Hobj. change (edgeObjs_ g2) with (edgeObjs_ g1) in Hobj. rewrite A2 in Hobj.
    destruct (oget (edgeObjs_ g) e) as [x|] eqn:Hx; simpl in *.
    + repeat case_decide; congruence.
    + repeat case_decide; try done.
      rewrite eq_None_not_Some, <-(eok_dom _ _ _ Hok), Hx. by intros [??].
Qed.

Lemma removeNode_absent g v : ¬ isNode g v → removeNode g v = Ok g.
Proof. intros Hn%hasNode_false. unfold removeNode. by rewrite Hn. Qed.

(** [removeNode] is the hierarchy part followed by the edge part. *)
Lemma removeNode_parts g v :
  isNode g v →
  removeNode g v =
    (g1 <-- (let g0 := with_nodes (odel (nodes_ g) v) (nodeCount_ g) g in
             if isCompound g0 then unlinkNode g0 v else Ok g0) ;;
     g2 <-- dropEdges g1 v ;;
     Ok (with_nodes (nodes_ g2) (nodeCount_ g2 - 1) g2)).
Proof.
  intros Hn%hasNode_true. unfold removeNode, dropEdges, unlinkNode. rewrite Hn.
  destruct (if isCompound _ then _ else _) as [g1|]; [|done]. cbn [res_bind].
  rewrite res_bind_assoc. destruct (res_fold _ g1 _) as [g2|]; [|done]. cbn [res_bind].
  by rewrite res_bind_assoc.
Qed.

Lemma removeNode_ok g v :
  wf g → isNode g v → ∃ g', removeNode g v = Ok g' ∧ removeNode_post g v g'.
Proof.
  intros Hwf Hv. pose proof Hwf as [H1 H2 H3 H4 H5]. rewrite removeNode_parts by done.
  cbv zeta. set (g0 := with_nodes (odel (nodes_ g) v) (nodeCount_ g) g).
  assert (∃ par chl, (if isCompound g0 then unlinkNode g0 v else Ok g0) = Ok (with_tree par chl g0) ∧
    (isCompound g = true → tree_ok par chl (λ u, isNode g u ∧ u ≠ v) (λ u, isNode g u ∧ u ≠ v) ∧
      ∀ u, oget par u = if decide (u = v) then None
        else if decide (oget (parent_ g) u = Some v) then Some GRAPH_NODE else oget (parent_ g) u))
    as (par & chl & Ht & Hpar).
  { change (isCompound g0) with (isCompound g). destruct (isCompound g) eqn:Hc.
    - destruct (unlinkNode_ok g0 v (isNode g)) as (par & chl & ? & ?); [done|auto|done|by apply H2| |eauto].
      intros u [x Hx] Hu. exists x. simpl. by rewrite oget_odel_ne.
    - exists (parent_ g0), (children_ g0). split; [by destruct g|done]. }
  rewrite Ht. cbn [res_bind]. clear Ht.
  assert (edges_ok (with_tree par chl g0) (isNode g) (isNode g)) as Hok0 by by eapply edges_ok_ext.
  destruct (dropEdges_ok _ v _ Hok0 Hv) as (g' & Hd & Hok & (N1&N2&N3&N4) & Ho & Hl & O1 & O2 & O3 & O4).
  rewrite Hd. cbn [res_bind]. simpl in *.
  eexists; split; [done|].
  assert (∀ u, isNode g u ∧ u ≠ v ↔ is_Some (oget (nodes_ g') u)) as Hn.
  { intros u. rewrite N1, oget_odel. unfold isNode. case_decide; [|naive_solver].
    split; [naive_solver|by intros [??]]. }
  split; simpl.
  - split; simpl.
    + rewrite N1. by apply owf_odel.
    + intros u [Hu _]%Hn. auto.
    + by eapply (edges_ok_move _ _ _ _ _ _ Hok).
    + rewrite O3. intros Hc. rewrite N3, N4. eapply tree_ok_iff; [..|apply (Hpar Hc)]; done.
    + destruct Hv as [x Hx]. rewrite N1, N2, H5, <-(length_odel _ _ _ H1 Hx). lia.
  - intros u. rewrite N1, oget_odel. repeat case_decide; congruence.
  - done.
  - done.
  - intros Hc u. rewrite N3. apply (Hpar Hc).
  - done.
Qed.
End Remove.
