(* ===== verification/GraphQuery.v ===== *)
(** * graphlib: what the queries return on a well-formed graph

    Every query is characterised in terms of [edges g] alone, so clients reason
    about one set of edges instead of eight tables. *)
From S2P Require Import Prelude JsObject Graphlib GraphWf GraphInv GraphRemove.

Section Query.
Context {L N E : Type}.
Implicit Types (g : Graph L N E) (v w p e : string) (x : edgeObj).

Lemma elem_of_edges g x :
  wf g → x ∈ edges g ↔ oget (edgeObjs_ g) (edgeObjToId (isDirected g) x) = Some x.
Proof.
  intros Hwf. unfold edges. rewrite elem_of_ovalues. split; [|eauto].
  intros [e He]. by destruct (eok_edge _ _ _ (wf_edges _ Hwf) _ _ He) as [<- _].
Qed.

Lemma elem_of_edges_key g x e : oget (edgeObjs_ g) e = Some x → x ∈ edges g.
Proof. intros. unfold edges. rewrite elem_of_ovalues. eauto. Qed.

Lemma edges_nodes g x : wf g → x ∈ edges g → isNode g (ev x) ∧ isNode g (ew x).
Proof.
  intros Hwf [e He]%elem_of_ovalues.
  by destruct (eok_edge _ _ _ (wf_edges _ Hwf) _ _ He) as (_&?&?&_).
Qed.

(** The values of an object are distinct when each value determines its key. *)
Lemma NoDup_ovalues {V} (o : obj V) (key : V → string) :
  owf o → (∀ k y, oget o k = Some y → k = key y) → NoDup (ovalues o).
Proof.
  intros Hwf Hk. unfold ovalues. pose proof (NoDup_okeys _ Hwf) as Hnd.
  assert (∀ k, k ∈ okeys o → k ∈ okeys o) as Hin by done. revert Hin Hnd.
  generalize (okeys o) at 1 3 4 as ks. induction ks as [|k ks IH]; intros Hin Hnd; simpl; [constructor|].
  apply NoDup_cons in Hnd as [Hni Hnd]. destruct (oget o k) as [x|] eqn:Hx.
  - apply NoDup_cons. split; [|apply IH; [set_solver|done]].
    intros (k' & Hk' & Hx')%list_elem_of_omap. apply Hk in Hx, Hx'. congruence.
  - apply IH; [set_solver|done].
Qed.

Lemma NoDup_edges g : wf g → NoDup (edges g).
Proof.
  intros Hwf. apply (NoDup_ovalues _ (edgeObjToId (isDirected g))).
  - apply (eok_objs _ _ _ (wf_edges _ Hwf)).
  - intros k x Hx. by destruct (eok_edge _ _ _ (wf_edges _ Hwf) _ _ Hx).
Qed.

(** ** Incident edges *)

Lemma incident_spec g proj tbl v :
  wf g → inc_ok (isNode g) proj (edgeObjs_ g) tbl → isNode g v →
  ∃ o, oget tbl v = Some o ∧ NoDup (ovalues o) ∧ ∀ x, x ∈ ovalues o ↔ x ∈ edges g ∧ proj x = v.
Proof.
  intros Hwf Hi Hv. destruct (inc_lookup _ _ _ _ _ Hi Hv) as (o & Ho & Hwo & Hio).
  exists o. split_and!; [done| |].
  - apply (NoDup_ovalues _ (edgeObjToId (isDirected g))); [done|].
    intros k x [Hx _]%Hio. by destruct (eok_edge _ _ _ (wf_edges _ Hwf) _ _ Hx).
  - intros x. unfold edges. rewrite !elem_of_ovalues. setoid_rewrite Hio. naive_solver.
Qed.

Lemma inEdges_spec g v :
  wf g → isNode g v → ∃ l, inEdges g v None = Some l ∧ NoDup l ∧ ∀ x, x ∈ l ↔ x ∈ edges g ∧ ew x = v.
Proof.
  intros Hwf Hv. destruct (incident_spec g ew (in_ g) v Hwf (eok_in _ _ _ (wf_edges _ Hwf)) Hv) as (o & Ho & ?).
  exists (ovalues o). unfold inEdges. by rewrite Ho.
Qed.

Lemma outEdges_spec g v :
  wf g → isNode g v → ∃ l, outEdges g v None = Some l ∧ NoDup l ∧ ∀ x, x ∈ l ↔ x ∈ edges g ∧ ev x = v.
Proof.
  intros Hwf Hv. destruct (incident_spec g ev (out_ g) v Hwf (eok_out _ _ _ (wf_edges _ Hwf)) Hv) as (o & Ho & ?).
  exists (ovalues o). unfold outEdges. by rewrite Ho.
Qed.

(** ** Neighbours *)

Lemma adjacent_spec g proj oth tbl v :
  wf g → adj_ok (isNode g) proj oth (edgeObjs_ g) tbl → isNode g v →
  ∃ o, oget tbl v = Some o ∧ NoDup (okeys o) ∧
    ∀ u, u ∈ okeys o ↔ ∃ x, x ∈ edges g ∧ proj x = v ∧ oth x = u.
Proof.
  intros Hwf Hi Hv. destruct (adj_lookup _ _ _ _ _ _ Hi Hv) as (o & Ho & Hwo & Hao).
  exists o. split_and!; [done|by apply NoDup_okeys|].
  intros u. rewrite elem_of_okeys, Hao. pose proof (parallel_nonneg proj oth (edgeObjs_ g) v u).
  pose proof (ocount_pos (λ x, proj x = v ∧ oth x = u) (edgeObjs_ g)) as Hp.
  fold (parallel proj oth (edgeObjs_ g) v u) in Hp.
  transitivity (0 < parallel proj oth (edgeObjs_ g) v u)%Z.
  { case_decide; split; try lia; [by intros [??]|by eexists]. }
  rewrite Hp. split.
  - intros (x & Hx & ?). exists x. split; [|done].
    apply elem_of_oget in Hx as [e He]; [by eapply elem_of_edges_key|]. apply (wf_edges _ Hwf).
  - intros (x & Hx & ?). exists x. split; [|done].
    apply elem_of_ovalues in Hx as [e He]. by eapply oget_elem_of.
Qed.

Lemma successors_spec g v :
  wf g → isNode g v →
  ∃ l, successors g v = Some l ∧ NoDup l ∧ ∀ w, w ∈ l ↔ ∃ x, x ∈ edges g ∧ ev x = v ∧ ew x = w.
Proof.
  intros Hwf Hv.
  destruct (adjacent_spec g ev ew (sucs_ g) v Hwf (eok_sucs _ _ _ (wf_edges _ Hwf)) Hv) as (o & Ho & ?).
  exists (okeys o). unfold successors. by rewrite Ho.
Qed.

Lemma predecessors_spec g v :
  wf g → isNode g v →
  ∃ l, predecessors g v = Some l ∧ NoDup l ∧ ∀ u, u ∈ l ↔ ∃ x, x ∈ edges g ∧ ew x = v ∧ ev x = u.
Proof.
  intros Hwf Hv.
  destruct (adjacent_spec g ew ev (preds_ g) v Hwf (eok_preds _ _ _ (wf_edges _ Hwf)) Hv) as (o & Ho & ?).
  exists (okeys o). unfold predecessors. by rewrite Ho.
Qed.

Lemma elem_of_nodes g v : v ∈ nodes g ↔ isNode g v.
Proof. apply elem_of_okeys. Qed.

Lemma NoDup_nodes g : wf g → NoDup (nodes g).
Proof. intros Hwf. apply NoDup_okeys, (wf_nodes _ Hwf). Qed.

Lemma nodeCount_spec g : wf g → nodeCount g = Z.of_nat (length (nodes g)).
Proof. intros Hwf. unfold nodeCount, nodes. by rewrite length_okeys, (wf_count _ Hwf). Qed.

Lemma is_empty_values {A} (o : obj A) : is_empty (Some o) = true ↔ ovalues o = [].
Proof.
  destruct o as [|[k x] o]; simpl; split; try done.
  intros Hnil. assert (x ∈ ovalues ((k, x) :: o)) as Hx.
  { apply elem_of_ovalues. exists k. simpl. by case_decide. }
  rewrite Hnil in Hx. by apply elem_of_nil in Hx.
Qed.

Lemma elem_of_sources g v : wf g → v ∈ sources g ↔ isNode g v ∧ ∀ x, x ∈ edges g → ew x ≠ v.
Proof.
  intros Hwf. unfold sources. rewrite list_elem_of_filter, elem_of_nodes.
  split; intros [H1 H2]; [split; [done|]|split; [|done]].
  - destruct (incident_spec g ew (in_ g) v Hwf (eok_in _ _ _ (wf_edges _ Hwf)) H2) as (o & Ho & _ & Hio).
    rewrite Ho in H1. apply is_empty_values in H1. intros x Hx Hw.
    assert (x ∈ ovalues o) as Hin by by apply Hio. rewrite H1 in Hin. by apply elem_of_nil in Hin.
  - destruct (incident_spec g ew (in_ g) v Hwf (eok_in _ _ _ (wf_edges _ Hwf)) H1) as (o & Ho & _ & Hio).
    rewrite Ho. apply is_empty_values, elem_of_nil_inv. intros x [Hx Hw]%Hio. by eapply H2.
Qed.

Lemma elem_of_sinks g v : wf g → v ∈ sinks g ↔ isNode g v ∧ ∀ x, x ∈ edges g → ev x ≠ v.
Proof.
  intros Hwf. unfold sinks. rewrite list_elem_of_filter, elem_of_nodes.
  split; intros [H1 H2]; [split; [done|]|split; [|done]].
  - destruct (incident_spec g ev (out_ g) v Hwf (eok_out _ _ _ (wf_edges _ Hwf)) H2) as (o & Ho & _ & Hio).
    rewrite Ho in H1. apply is_empty_values in H1. intros x Hx Hw.
    assert (x ∈ ovalues o) as Hin by by apply Hio. rewrite H1 in Hin. by apply elem_of_nil in Hin.
  - destruct (incident_spec g ev (out_ g) v Hwf (eok_out _ _ _ (wf_edges _ Hwf)) H1) as (o & Ho & _ & Hio).
    rewrite Ho. apply is_empty_values, elem_of_nil_inv. intros x [Hx Hw]%Hio. by eapply H2.
Qed.

(** ** Operation sequences *)

(** The mutators, as data: a client program is a list of these. *)
Inductive gop :=
| OpSetGraph (l : option L)
| OpSetNode (v : string) (value : option (option N))
| OpRemoveNode (v : string)
| OpSetEdge (v w : string) (value : option (option E)) (name : option string)
| OpRemoveEdge (v w : string) (name : option string)
| OpSetParent (v : string) (p : option string).

Definition run_op g (o : gop) : res (Graph L N E) :=
  match o with
  | OpSetGraph l => Ok (setGraph g l)
  | OpSetNode v value => setNode g v value
  | OpRemoveNode v => removeNode g v
  | OpSetEdge v w value name => setEdge g v w value name
  | OpRemoveEdge v w name => removeEdge g v w name
  | OpSetParent v p => setParent g v p
  end.

(** Arguments the container is meant for: plain ids, no empty edge names. *)
Definition op_ok (o : gop) : Prop :=
  match o with
  | OpSetGraph _ | OpRemoveNode _ | OpRemoveEdge _ _ _ => True
  | OpSetNode v _ => plain v
  | OpSetEdge v w _ name => plain v ∧ plain w ∧ name ≠ Some ""%string
  | OpSetParent v p => plain v ∧ match p with Some q => plain q | None => True end
  end.

Lemma setGraph_wf g l : wf g → wf (setGraph g l).
Proof. intros [H1 H2 H3 H4 H5]. split; try done. by eapply edges_ok_ext. Qed.

(** One operation either returns a well-formed graph or throws one of the
    library's own errors. *)
Definition safe_result (r : res (Graph L N E)) : Prop :=
  match r with
  | Ok g' => wf g'
  | Throw (JsError _) => True
  | Throw TypeError => False
  end.

Lemma removeEdgeById_wf g e :
  wf g → ∃ g', removeEdgeById g e = Ok g' ∧ wf g'.
Proof.
  intros [H1 H2 H3 H4 H5].
  destruct (removeEdgeById_ok g e _ _ H3) as (g' & -> & Hok & _ & _ & N1 & N2 & N3 & N4 & N5 & N6 & N7 & N8).
  exists g'. split; [done|].
  assert (∀ u, isNode g u ↔ isNode g' u) as Hn by (intros u; unfold isNode; by rewrite N1).
  split.
  - by rewrite N1.
  - intros u. rewrite <-Hn. auto.
  - by eapply (edges_ok_move _ _ _ _ _ _ Hok).
  - rewrite N7, N3, N4. intros Hc. eapply tree_ok_iff; [done..|auto].
  - by rewrite N1, N2.
Qed.

Lemma run_op_safe g o : wf g → op_ok o → safe_result (run_op g o).
Proof.
  intros Hwf Hok. destruct o as [l|v value|v|v w value name|v w name|v p]; simpl in *.
  - by apply setGraph_wf.
  - destruct (setNode_ok g v value Hwf Hok) as (g' & -> & H). apply H.
  - destruct (decide (isNode g v)) as [Hv|Hv]; [|by rewrite removeNode_absent].
    destruct (removeNode_ok g v Hwf Hv) as (g' & -> & H). apply H.
  - destruct Hok as (Hv & Hw & Hn).
    destruct (decide (name = None ∨ isMultigraph g = true ∨ hasEdge g v w name = true)) as [Hm|Hm].
    + destruct (setEdge_ok g v w value name Hwf Hv Hw Hn Hm) as (g' & -> & H). apply H.
    + unfold setEdge. unfold hasEdge in Hm. destruct (ohas _ _); [naive_solver|].
      destruct (isMultigraph g); [naive_solver|]. destruct name; [done|naive_solver].
  - destruct (removeEdgeById_wf g (edgeArgsToId (isDirected g) v w name) Hwf) as (g' & Hr & ?).
    unfold removeEdge. by rewrite Hr.
  - destruct Hok as [Hv Hp]. destruct (isCompound g) eqn:Hc; [|unfold setParent; by rewrite Hc].
    destruct p as [p|].
    + destruct (isAncestor (S (length (nodes g))) g v (Some p)) eqn:Ha.
      * apply isAncestor_spec in Ha; [|done..]. by rewrite setParent_cycle.
      * destruct (setParent_ok g v p) as (g' & -> & H); [done..|auto| |apply H].
        rewrite <-isAncestor_spec by done. by rewrite Ha.
    + destruct (setParent_root_ok g v) as (g' & -> & H); [done..|]. apply H.
Qed.

#[export] Instance plain_dec v : Decision (plain v).
Proof. unfold plain. apply _. Defined.

#[export] Instance op_ok_dec o : Decision (op_ok o).
Proof. destruct o; simpl; try apply _. destruct p; apply _. Defined.

Definition run_ops g (ops : list gop) : res (Graph L N E) := res_fold run_op g ops.

Lemma run_ops_safe g ops : wf g → Forall op_ok ops → safe_result (run_ops g ops).
Proof.
  intros Hwf Hops. revert g Hwf. induction Hops as [|o ops Ho Hops IH]; intros g Hwf; [done|].
  unfold run_ops in *; simpl.
  pose proof (run_op_safe g o Hwf Ho) as Hs. destruct (run_op g o); simpl in *; [by apply IH|done].
Qed.

(** The graph a client program builds, for concrete examples. *)
Definition build (d m c : bool) (ops : list gop) : Graph L N E :=
  match run_ops (newGraph d m c) ops with
  | Ok g => g
  | Throw _ => newGraph d m c
  end.

Lemma build_wf d m c ops : Forall op_ok ops → wf (build d m c ops).
Proof.
  intros Hops. pose proof (run_ops_safe (newGraph d m c) ops (newGraph_wf d m c) Hops) as Hs.
  unfold build. destruct (run_ops _ ops); [done|apply newGraph_wf].
Qed.
End Query.
Arguments gop : clear implicits.
