(* ===== verification/GraphView.v ===== *)
(** * graphlib: a graph as a table of edges

    [elookup] reads a graph as a finite map from edge objects to labels.  The mutators
    act on it as the operations of a map; the layout passes are verified against
    these equations instead of the eight tables. *)
From S2P Require Import Prelude JsObject Graphlib GraphWf GraphInv GraphRemove GraphQuery.

Section View.
Context {L N E : Type}.
Implicit Types (g : Graph L N E) (v w : string) (x y : edgeObj).

(** The label of an edge of the graph; [None] when the edge is not there. *)
Definition elookup g x : option (option E) :=
  if decide (oget (edgeObjs_ g) (edgeObjToId (isDirected g) x) = Some x)
  then oget (edgeLabels_ g) (edgeObjToId (isDirected g) x) else None.

(** A name that gives an edge an id of its own. *)
Definition good_name (n : option string) : Prop := n ≠ Some ""%string ∧ n ≠ Some DEFAULT_EDGE_NAME.
Definition plain_edge x : Prop := plain (ev x) ∧ plain (ew x) ∧ good_name (ename x).

#[export] Instance good_name_dec n : Decision (good_name n).
Proof. unfold good_name. apply _. Defined.

(** Directed graphs as the layout uses them. *)
Record digraph g : Prop := {
  dg_wf : wf g;
  dg_directed : isDirected g = true;
  dg_names : ∀ x, x ∈ edges g → good_name (ename x)
}.

Lemma elookup_Some g x : wf g → is_Some (elookup g x) ↔ x ∈ edges g.
Proof.
  intros Hwf. unfold elookup. rewrite elem_of_edges by done. case_decide as H.
  - split; [done|]. intros _. apply edge_dom; [done|]. rewrite H. eauto.
  - split; [by intros [??]|done].
Qed.

Lemma elookup_None g x : wf g → elookup g x = None ↔ x ∉ edges g.
Proof. intros Hwf. by rewrite eq_None_not_Some, elookup_Some. Qed.

(** On an edge of the graph, [g.edge(e)] is the label of the table. *)
Lemma edgeOf_elookup g x : wf g → x ∈ edges g → edgeOf g x = mjoin (elookup g x).
Proof.
  intros Hwf Hx. unfold edgeOf, edgeById, elookup. apply elem_of_edges in Hx; [|done]. by rewrite decide_True.
Qed.

Lemma digraph_edge g x : digraph g → x ∈ edges g → plain_edge x.
Proof.
  intros [Hwf _ Hn] Hx. destruct (edges_nodes g x Hwf Hx). split_and!; [by eapply wf_plain..|by apply Hn].
Qed.

(** Ids of plain edges are different. *)
Lemma edgeObjToId_inj d x y :
  d = true → plain_edge x → plain_edge y → edgeObjToId d x = edgeObjToId d y → x = y.
Proof.
  intros -> ([_ Hx1] & [_ Hx2] & _ & Hx3) ([_ Hy1] & [_ Hy2] & _ & Hy3) Heq.
  apply edgeArgsToId_inj in Heq as [Ho Hn]; [|done..]. unfold orient in Ho. simpl in Ho.
  destruct x as [xv xw xn], y as [yv yw yn]; simpl in *. simplify_eq.
  destruct xn, yn; simpl in *; naive_solver.
Qed.

Lemma edgeObjToId_iff g x y :
  digraph g → plain_edge x → y ∈ edges g → edgeObjToId (isDirected g) x = edgeObjToId (isDirected g) y ↔ x = y.
Proof.
  intros Hg Hx Hy. split; [|by intros ->]. apply edgeObjToId_inj; [apply Hg|done|by eapply digraph_edge].
Qed.

(** [g.edge(e)] of a plain edge is the label of the table, also when there is no such edge. *)
Lemma edgeOf_plain g x : digraph g → plain_edge x → edgeOf g x = mjoin (elookup g x).
Proof.
  intros Hg Hx. destruct (decide (x ∈ edges g)) as [Hin|Hin]; [apply edgeOf_elookup; [apply Hg|done]|].
  assert (wf g) as Hwf by apply Hg. rewrite (proj2 (elookup_None g x Hwf) Hin). unfold edgeOf, edgeById.
  destruct (oget (edgeLabels_ g) (edgeObjToId (isDirected g) x)) as [l|] eqn:Hl; [|done]. exfalso.
  destruct (proj2 (edge_dom g (edgeObjToId (isDirected g) x) Hwf)) as [z Hz]; [by eexists|].
  destruct (eok_edge _ _ _ (wf_edges _ Hwf) _ _ Hz) as (Hid & _).
  assert (z ∈ edges g) as Hze by (by eapply elem_of_edges_key). apply Hin.
  by rewrite (proj1 (edgeObjToId_iff g x z Hg Hx Hze) Hid).
Qed.

(** [setEdge] as an update of the table. *)
Record setEdge_view g x value g' : Prop := {
  sev_digraph : digraph g';
  sev_options : same_options g g';
  sev_edges : ∀ y, elookup g' y =
    if decide (y = x) then
      Some (match value, elookup g x with
            | Some l, _ => l
            | None, Some l => l
            | None, None => defaultEdgeLabelFn g (ev x) (ew x) (ename x)
            end)
    else elookup g y;
  sev_nodes : ∀ u, oget (nodes_ g') u =
    match oget (nodes_ g) u with
    | Some l => Some l
    | None => if decide (u = ev x ∨ u = ew x) then Some (defaultNodeLabelFn g u) else None
    end;
  sev_parent : isCompound g = true → ∀ u, oget (parent_ g') u =
    match oget (parent_ g) u with
    | Some p => Some p
    | None => if decide (u = ev x ∨ u = ew x) then Some GRAPH_NODE else None
    end
}.

Lemma edgeArgsToObj_plain v w name : good_name name → edgeArgsToObj true v w name = EdgeObj v w name.
Proof. intros [Hn _]. unfold edgeArgsToObj, orient. simpl. destruct name as [n|]; simpl; [|done]. case_decide; congruence. Qed.

Lemma setEdge_objs g x value g' y :
  digraph g → plain_edge x → setEdge_post g (ev x) (ew x) value (ename x) g' →
  y ∈ edges g' ↔ y = x ∨ y ∈ edges g.
Proof.
  intros Hg Hx P. pose proof (se_wf _ _ _ _ _ _ P) as Hwf'. destruct (se_options _ _ _ _ _ _ P) as (Hd & _).
  pose proof (dg_directed _ Hg) as Hdir.
  rewrite (elem_of_edges g') by done. rewrite Hd, (se_obj _ _ _ _ _ _ P), (elem_of_edges g) by apply Hg.
  change (edgeArgsToId (isDirected g) (ev x) (ew x) (ename x)) with (edgeObjToId (isDirected g) x).
  assert (edgeArgsToObj (isDirected g) (ev x) (ew x) (ename x) = x) as ->.
  { rewrite Hdir, edgeArgsToObj_plain by apply Hx. by destruct x. }
  destruct (oget (edgeObjs_ g) (edgeObjToId (isDirected g) y)) as [z|] eqn:Hz.
  - split; [by right|]. intros [->|?]; [|done]. f_equal.
    assert (z ∈ edges g) as Hze by (by eapply elem_of_edges_key).
    destruct (eok_edge _ _ _ (wf_edges _ (dg_wf _ Hg)) _ _ Hz) as (Hid & _).
    symmetry. by apply (edgeObjToId_iff g).
  - split.
    + case_decide as Hid; [|done]. intros [= <-]. by left.
    + intros [->|?]; [by rewrite decide_True|done].
Qed.

Lemma setEdge_view_ok g x value :
  digraph g → plain_edge x → ename x = None ∨ isMultigraph g = true →
  ∃ g', setEdge g (ev x) (ew x) value (ename x) = Ok g' ∧ setEdge_view g x value g'.
Proof.
  intros Hg Hx Hm. destruct Hx as (Hxv & Hxw & Hn) eqn:Hxe. clear Hxe.
  destruct (setEdge_ok g (ev x) (ew x) value (ename x)) as (g' & Hr & P);
    [apply Hg|done|done|apply Hn|naive_solver|].
  exists g'. split; [done|]. pose proof (λ y, setEdge_objs g x value g' y Hg Hx P) as Hobj.
  destruct (se_options _ _ _ _ _ _ P) as (Hd & _).
  assert (wf g) as Hwf by apply Hg. pose proof (se_wf _ _ _ _ _ _ P) as Hwf'.
  split; [|apply P| |apply P|apply P].
  - split; [done|by rewrite Hd; apply Hg|]. intros y [->|Hy]%Hobj; [apply Hx|by apply (dg_names _ Hg)].
  - intros y. destruct (decide (y = x)) as [->|Hyx].
    + assert (x ∈ edges g') as Hin by (apply Hobj; by left). unfold elookup at 1.
      apply elem_of_edges in Hin; [|done]. rewrite decide_True by done.
      rewrite Hd, (se_label _ _ _ _ _ _ P), decide_True by done. unfold set_elabel. f_equal.
      destruct value; [done|]. fold (edgeObjToId (isDirected g) x). unfold elookup. case_decide as Ho; [done|].
      destruct (oget (edgeLabels_ g) _) as [l|] eqn:Hl; [|done]. exfalso.
      assert (is_Some (oget (edgeObjs_ g) (edgeObjToId (isDirected g) x))) as [z Hz] by (apply edge_dom; eauto).
      apply Ho. rewrite Hz. f_equal. destruct (eok_edge _ _ _ (wf_edges _ Hwf) _ _ Hz) as (Hid & _).
      symmetry. apply (edgeObjToId_iff g); [done..|by eapply elem_of_edges_key|done].
    + destruct (decide (y ∈ edges g)) as [Hy|Hy].
      * assert (y ∈ edges g') as Hin by (apply Hobj; by right). unfold elookup.
        apply elem_of_edges in Hy as Hy2; [|done]. apply elem_of_edges in Hin; [|done].
        rewrite !decide_True by done. rewrite Hd, (se_label _ _ _ _ _ _ P), decide_False; [done|].
        fold (edgeObjToId (isDirected g) x). intros Hid. apply Hyx. symmetry. by apply (edgeObjToId_iff g).
      * assert (y ∉ edges g') as Hnin by (rewrite Hobj; naive_solver).
        rewrite (proj2 (elookup_None g y Hwf) Hy). by apply elookup_None.
Qed.

Lemma sev_nodes_same g x value g' u :
  setEdge_view g x value g' → isNode g (ev x) → isNode g (ew x) → oget (nodes_ g') u = oget (nodes_ g) u.
Proof.
  intros P [? Hv] [? Hw]. rewrite (sev_nodes _ _ _ _ P). destruct (oget (nodes_ g) u) eqn:Hu; [done|].
  rewrite decide_False; [done|]. intros [->| ->]; congruence.
Qed.

Lemma sev_elem g x value g' y : wf g → setEdge_view g x value g' → y ∈ edges g' ↔ y = x ∨ y ∈ edges g.
Proof.
  intros Hwf P. rewrite <-!elookup_Some by (done || apply P). rewrite (sev_edges _ _ _ _ P).
  case_decide; naive_solver.
Qed.

(** [removeEdge] as a deletion from the table. *)
Record removeEdge_view g x g' : Prop := {
  rev_digraph : digraph g';
  rev_options : isMultigraph g' = isMultigraph g ∧ isCompound g' = isCompound g ∧ glabel g' = glabel g;
  rev_edges : ∀ y, elookup g' y = if decide (y = x) then None else elookup g y;
  rev_nodes : nodes_ g' = nodes_ g;
  rev_parent : parent_ g' = parent_ g
}.

Lemma removeEdge_view_ok g x :
  digraph g → plain_edge x → ∃ g', removeEdgeObj g x = Ok g' ∧ removeEdge_view g x g'.
Proof.
  intros Hg Hx. assert (wf g) as Hwf by apply Hg. unfold removeEdgeObj.
  destruct (removeEdgeById_wf g (edgeObjToId (isDirected g) x) Hwf) as (g1 & H1 & Hwf1).
  destruct (removeEdgeById_ok g (edgeObjToId (isDirected g) x) _ _ (wf_edges _ Hwf))
    as (g' & Hr & _ & Ho & Hl & N1 & N2 & N3 & N4 & N5 & N6 & N7 & N8).
  assert (g1 = g') as -> by congruence. exists g'. split; [done|].
  assert (∀ y, y ∈ edges g' ↔ y ∈ edges g ∧ y ≠ x) as Hobj.
  { intros y. rewrite (elem_of_edges g') by done. rewrite N5, Ho, oget_odel. case_decide as Hid.
    - split; [done|]. intros [Hy Hyx]. exfalso. apply Hyx. symmetry. by apply (edgeObjToId_iff g).
    - rewrite <-elem_of_edges by done. split; [|naive_solver]. intros Hy. split; [done|]. by intros ->. }
  split; [|done| |done|done].
  - split; [done|by rewrite N5; apply Hg|]. intros y [Hy _]%Hobj. by apply (dg_names _ Hg).
  - intros y. destruct (decide (y = x)) as [->|Hyx].
    + apply elookup_None; [done|]. rewrite Hobj. naive_solver.
    + destruct (decide (y ∈ edges g)) as [Hy|Hy].
      * assert (y ∈ edges g') as Hin by (by apply Hobj). unfold elookup.
        apply elem_of_edges in Hy as Hy2; [|done]. apply elem_of_edges in Hin; [|done].
        rewrite !decide_True by done. rewrite N5, Hl, oget_odel, decide_False; [done|].
        intros Hid. apply Hyx. symmetry. by apply (edgeObjToId_iff g).
      * rewrite (proj2 (elookup_None g y Hwf) Hy). apply elookup_None; [done|]. rewrite Hobj. naive_solver.
Qed.

Lemma rev_elem g x g' y : wf g → removeEdge_view g x g' → y ∈ edges g' ↔ y ≠ x ∧ y ∈ edges g.
Proof.
  intros Hwf P. rewrite <-!elookup_Some by (done || apply P). rewrite (rev_edges _ _ _ P).
  case_decide; [split; [by intros [??]|naive_solver]|naive_solver].
Qed.

(** Moving an edge: remove [x], then set [y]. *)
Record moveEdge_view g x y (l : option E) g' : Prop := {
  mv_digraph : digraph g';
  mv_multi : isMultigraph g' = isMultigraph g;
  mv_edges : ∀ z, elookup g' z = if decide (z = y) then Some l else if decide (z = x) then None else elookup g z;
  mv_nodes : ∀ u, oget (nodes_ g') u = oget (nodes_ g) u
}.

Lemma moveEdge_ok g x y l :
  digraph g → isMultigraph g = true → x ∈ edges g → plain_edge y → isNode g (ev y) → isNode g (ew y) →
  ∃ g1 g', removeEdgeObj g x = Ok g1 ∧ setEdge g1 (ev y) (ew y) (Some l) (ename y) = Ok g' ∧ moveEdge_view g x y l g'.
Proof.
  intros Hg Hm Hx Hy Hv Hw. destruct (removeEdge_view_ok g x Hg) as (g1 & Hr & P1); [by eapply digraph_edge|].
  destruct (rev_options _ _ _ P1) as (Hm1 & _).
  destruct (setEdge_view_ok g1 y (Some l)) as (g' & Hs & P2); [apply P1|done|right; congruence|].
  destruct (sev_options _ _ _ _ P2) as (_ & Hm2 & _).
  exists g1, g'. split_and!; [done..|]. split; [apply P2|congruence| |].
  - intros z. rewrite (sev_edges _ _ _ _ P2), (rev_edges _ _ _ P1). done.
  - intros u. rewrite (sev_nodes_same _ _ _ _ _ P2), (rev_nodes _ _ _ P1); [done|..]; unfold isNode; by rewrite (rev_nodes _ _ _ P1).
Qed.

(** ** Assignments to a property of a label *)

(** [g.node(v).p = e]: the label object of [v] is changed in place. *)
Definition updNode g v (f : N → N) : res (Graph L N E) :=
  l <-- of_option (node g v) ;; Ok (with_nodes (oset (nodes_ g) v (Some (f l))) (nodeCount_ g) g).

Lemma updNode_ok g v f l :
  wf g → oget (nodes_ g) v = Some (Some l) →
  ∃ g', updNode g v f = Ok g' ∧ wf g' ∧ edges g' = edges g ∧ (∀ x, elookup g' x = elookup g x) ∧
    (∀ u, oget (nodes_ g') u = if decide (u = v) then Some (Some (f l)) else oget (nodes_ g) u).
Proof.
  intros Hwf Hl. unfold updNode, node. rewrite Hl. simpl. eexists. split; [done|]. split_and!.
  - apply wf_relabel; [done|by eexists].
  - done.
  - done.
  - intros u. simpl. rewrite oget_oset. repeat case_decide; congruence.
Qed.

(** [g1] is [g] with every node label changed by [f]. *)
Record relabelled g (f : string → N → N) g1 : Prop := {
  rl_shape : ∃ ns, g1 = with_nodes ns (nodeCount_ g) g;
  rl_wf : wf g1;
  rl_nodes : ∀ u, oget (nodes_ g1) u = (λ o : option N, f u <$> o) <$> oget (nodes_ g) u
}.

Lemma relabelled_refl g f : wf g → (∀ u l, f u l = l) → relabelled g f g.
Proof.
  intros Hwf Hf. split; [by exists (nodes_ g); destruct g|done|].
  intros u. destruct (oget (nodes_ g) u) as [[l|]|]; simpl; [|done..]. by rewrite Hf.
Qed.

Lemma relabelled_ext g f f' g1 : (∀ u l, node g u = Some l → f u l = f' u l) → relabelled g f g1 → relabelled g f' g1.
Proof.
  intros Hf [H1 H2 H3]. split; [done..|]. intros u. rewrite H3. unfold node in Hf. specialize (Hf u).
  destruct (oget (nodes_ g) u) as [[l|]|]; simpl in *; [|done..]. by rewrite (Hf l).
Qed.

Lemma relabelled_isNode g f g1 v : relabelled g f g1 → isNode g1 v ↔ isNode g v.
Proof. intros [_ _ H]. unfold isNode. rewrite H. by destruct (oget (nodes_ g) v). Qed.

Lemma relabelled_node g f g1 v : relabelled g f g1 → node g1 v = f v <$> node g v.
Proof. intros [_ _ H]. unfold node. rewrite H. by destruct (oget (nodes_ g) v) as [[l|]|]. Qed.

Lemma relabelled_edges g f g1 :
  relabelled g f g1 → edges g1 = edges g ∧ (∀ x, edgeOf g1 x = edgeOf g x) ∧ Graphlib.graph g1 = Graphlib.graph g.
Proof. by intros [(ns & ->) _ _]. Qed.

(** The queries that do not read node labels. *)
Lemma relabelled_queries g f g1 :
  relabelled g f g1 → isMultigraph g1 = isMultigraph g ∧ isDirected g1 = isDirected g ∧ isCompound g1 = isCompound g ∧
    (∀ v, predecessors g1 v = predecessors g v) ∧ (∀ v, successors g1 v = successors g v) ∧
    (∀ v, inEdges g1 v None = inEdges g v None) ∧ (∀ v, outEdges g1 v None = outEdges g v None) ∧ parent_ g1 = parent_ g ∧ children_ g1 = children_ g.
Proof. by intros [(ns & ->) _ _]. Qed.

Lemma updNode_relabelled g f g1 v h :
  is_Some (node g v) → relabelled g f g1 →
  ∃ g2, updNode g1 v h = Ok g2 ∧ relabelled g (λ u l, if decide (u = v) then h (f u l) else f u l) g2.
Proof.
  intros [l Hl] Hr. pose proof (relabelled_node _ _ _ v Hr) as Hn. destruct Hr as [(ns & ->) Hwf Hnodes]. rewrite Hl in Hn.
  unfold updNode. rewrite Hn. simpl. eexists. split; [done|]. unfold node in Hl. destruct (oget (nodes_ g) v) as [o|] eqn:Hv; [|done].
  simpl in Hl. subst o. split.
  - by eexists.
  - apply (wf_relabel (with_nodes ns (nodeCount_ g) g)); [done|]. unfold isNode. rewrite Hnodes, Hv. by eexists.
  - intros u. simpl in *. rewrite oget_oset, Hnodes. destruct (decide (v = u)) as [<-|].
    + rewrite Hv. simpl. by rewrite decide_True.
    + destruct (oget (nodes_ g) u) as [[l'|]|]; simpl; [|done..]. by rewrite decide_False.
Qed.

Lemma updNodes_relabelled g f g1 (vs : list string) h :
  (∀ v, v ∈ vs → is_Some (node g v)) → NoDup vs → relabelled g f g1 →
  ∃ g2, res_fold (λ g v, updNode g v (h v)) g1 vs = Ok g2 ∧ relabelled g (λ u l, if decide (u ∈ vs) then h u (f u l) else f u l) g2.
Proof.
  intros Hvs Hnd Hr.
  destruct (res_fold_inv (λ g v, updNode g v (h v)) (λ done g2, relabelled g (λ u l, if decide (u ∈ done) then h u (f u l) else f u l) g2) vs g1)
    as (g2 & ? & ?); [| |by eauto].
  - eapply relabelled_ext; [|exact Hr]. intros u l _. by rewrite decide_False by apply not_elem_of_nil.
  - intros done v rest g2 -> Hr2. apply NoDup_app in Hnd as (_ & Hd & _).
    destruct (updNode_relabelled g _ g2 v (h v) ltac:(apply Hvs; set_solver) Hr2) as (g3 & ? & Hr3). exists g3. split; [done|].
    eapply relabelled_ext; [|exact Hr3]. intros u l _. cbn. destruct (decide (u = v)) as [->|Hne].
    + rewrite decide_False by (intros Hin; apply (Hd v Hin); by left). by rewrite decide_True by set_solver.
    + destruct (decide (u ∈ done)); [by rewrite decide_True by set_solver|]. rewrite decide_False; [done|]. set_solver.
Qed.
End View.
