(* ===== verification/GraphClaims.v ===== *)
(** * graphlib: the contract of the container

    The theorems about [Graph] that the rest of the system relies on. *)
From S2P Require Import Prelude JsObject Graphlib GraphWf GraphInv GraphRemove GraphQuery.

Section Claims.
Context {L N E : Type}.
Implicit Types (g : Graph L N E) (v w p e : string) (x : edgeObj).


(** C6: The adjacency and incidence tables agree with the edge table: on a
    well-formed graph [successors], [predecessors], [inEdges] and [outEdges] of a node
    return, without repetition, exactly what the list of edges says. *)
Theorem graph_queries_agree g v :
  wf g → isNode g v →
  ∃ ss ps ies oes,
    successors g v = Some ss ∧ predecessors g v = Some ps ∧
    inEdges g v None = Some ies ∧ outEdges g v None = Some oes ∧
    NoDup ss ∧ NoDup ps ∧ NoDup ies ∧ NoDup oes ∧
    (∀ w, w ∈ ss ↔ ∃ x, x ∈ edges g ∧ ev x = v ∧ ew x = w) ∧
    (∀ w, w ∈ ps ↔ ∃ x, x ∈ edges g ∧ ew x = v ∧ ev x = w) ∧
    (∀ x, x ∈ ies ↔ x ∈ edges g ∧ ew x = v) ∧
    (∀ x, x ∈ oes ↔ x ∈ edges g ∧ ev x = v).
Proof.
  intros Hwf Hv. destruct (successors_spec g v Hwf Hv) as (ss & ? & ? & ?).
  destruct (predecessors_spec g v Hwf Hv) as (ps & ? & ? & ?).
  destruct (inEdges_spec g v Hwf Hv) as (ies & ? & ? & ?).
  destruct (outEdges_spec g v Hwf Hv) as (oes & ? & ? & ?).
  exists ss, ps, ies, oes. done.
Qed.

(** C13: [removeNode] of a node of a well-formed graph returns a well-formed
    graph without the node, keeps exactly the edges that do not touch it, and
    moves its children to the root of the hierarchy. *)
Theorem removeNode_correct g v :
  wf g → isNode g v →
  ∃ g', removeNode g v = Ok g' ∧ wf g' ∧
    (∀ u, u ∈ nodes g' ↔ u ∈ nodes g ∧ u ≠ v) ∧
    (∀ x, x ∈ edges g' ↔ x ∈ edges g ∧ ev x ≠ v ∧ ew x ≠ v) ∧
    (∀ u, u ≠ v → parent g' u = if decide (parent g u = Some v) then None else parent g u).
Proof.
  intros Hwf Hv. destruct (removeNode_ok g v Hwf Hv) as (g' & Hr & P).
  exists g'. split_and!; [done|apply P| | |].
  - intros u. rewrite !elem_of_nodes. unfold isNode. rewrite (rn_node _ _ _ P).
    case_decide; [|naive_solver]. split; [by intros [??]|naive_solver].
  - intros x. unfold edges. rewrite !elem_of_ovalues. setoid_rewrite (rn_obj _ _ _ P). split.
    + intros [e He]. destruct (oget (edgeObjs_ g) e) eqn:Hx; simpl in He; [|done].
      case_decide; [done|]. naive_solver.
    + intros ([e He] & ? & ?). exists e. rewrite He. simpl. rewrite decide_False; naive_solver.
  - intros u Hu. destruct (rn_options _ _ _ P) as (_ & _ & Hc & _). unfold parent. rewrite Hc.
    destruct (isCompound g) eqn:Hcg; [|by case_decide].
    rewrite (rn_parent _ _ _ P Hcg), (decide_False (P := u = v)) by done.
    destruct (wf_plain _ Hwf _ Hv) as [Hroot _].
    destruct (oget (parent_ g) u) as [q|]; [|by repeat case_decide].
    destruct (decide (q = v)) as [->|Hq].
    + rewrite (decide_False (P := v = GRAPH_NODE)) by done. by rewrite !decide_True.
    + rewrite (decide_False (P := Some q = Some v)) by congruence.
      destruct (decide (q = GRAPH_NODE)); [done|]. by rewrite decide_False by congruence.
Qed.

(** C14: On a compound graph [setParent(v, p)] throws exactly when [v] lies on
    the chain of ancestors of [p] ([p] included); otherwise it returns a
    well-formed graph in which the parent of [v] is [p], every other existing node
    keeps its parent and no edge changed. *)
Theorem setParent_exact g v p :
  wf g → isCompound g = true → plain v → plain p →
  (rtc (λ a b, parent g a = Some b) p v ∧
   setParent g v (Some p) =
     Throw (JsError ("Setting " +:+ p +:+ " as parent of " +:+ v +:+ " would create a cycle"))) ∨
  (¬ rtc (λ a b, parent g a = Some b) p v ∧
   ∃ g', setParent g v (Some p) = Ok g' ∧ wf g' ∧ parent g' v = Some p ∧
     (∀ u, u ≠ v → parent g' u = parent g u) ∧ edges g' = edges g).
Proof.
  intros Hwf Hc Hv Hp.
  assert (∀ a b, rtc (λ a b, parent g a = Some b) a b ↔ rtc (up (parent_ g)) a b) as Hrtc.
  { intros a b. split; apply (rtc_congruence id); intros ? ?; by apply parent_up. }
  rewrite Hrtc. destruct (isAncestor (S (length (nodes g))) g v (Some p)) eqn:Ha.
  - left. apply isAncestor_spec in Ha; [|done..]. split; [done|]. by apply setParent_cycle.
  - right. assert (¬ rtc (up (parent_ g)) p v) as Hn by (rewrite <-isAncestor_spec, Ha; done).
    split; [done|]. destruct (setParent_ok g v p) as (g' & Hg' & P); [done..|].
    destruct (sp_options _ _ _ _ P) as (_&_&Hc'&_). destruct (sp_edges _ _ _ _ P) as [He _].
    exists g'. split_and!; [done|apply P| | |].
    + unfold parent. rewrite Hc', Hc, (sp_parent _ _ _ _ P), decide_True by done. simpl.
      destruct Hp. by rewrite decide_False.
    + intros u Hu. unfold parent. rewrite Hc', Hc, (sp_parent _ _ _ _ P), decide_False by done.
      destruct (oget (parent_ g) u); [done|]. case_decide; [by rewrite decide_True|done].
    + unfold edges. by rewrite He.
Qed.

(** C15: An edge that was set is found again under its endpoints and name, in
    either orientation when the graph is undirected; its label is the given one,
    and every edge with another id keeps its label. *)
Theorem setEdge_lookup g v w (x : option E) name :
  wf g → plain v → plain w → name ≠ Some ""%string → (name = None ∨ isMultigraph g = true) →
  ∃ g', setEdge g v w (Some x) name = Ok g' ∧ wf g' ∧
    hasEdge g' v w name = true ∧ edge g' v w name = x ∧
    (isDirected g = false → edge g' w v name = x) ∧
    (∀ v' w' name', edgeArgsToId (isDirected g) v' w' name' ≠ edgeArgsToId (isDirected g) v w name →
       edge g' v' w' name' = edge g v' w' name').
Proof.
  intros Hwf Hv Hw Hn Hm.
  destruct (setEdge_ok g v w (Some x) name) as (g' & Hg' & P); [done..|naive_solver|].
  exists g'. destruct (se_options _ _ _ _ _ _ P) as (Hd&_).
  assert (edge g' v w name = x) as Hx.
  { unfold edge, edgeById. by rewrite Hd, (se_label _ _ _ _ _ _ P), decide_True. }
  split_and!; [done|apply P| |done| |].
  - unfold hasEdge. apply ohas_true. rewrite Hd, (se_label _ _ _ _ _ _ P), decide_True by done. eauto.
  - intros Hu. rewrite <-Hx. unfold edge. f_equal. rewrite Hd, Hu. unfold edgeArgsToId, orient. simpl.
    destruct (String.ltb w v) eqn:Hlt; [by rewrite (ltb_asym _ _ Hlt)|].
    destruct (String.ltb v w) eqn:Hlt'; [done|].
    assert (v = w) as ->; [|done]. apply String.compare_eq_iff. unfold String.ltb in *.
    rewrite (String.compare_antisym v w) in Hlt'. destruct (String.compare w v) eqn:Hc; try done.
    by rewrite String.compare_antisym, Hc.
  - intros v' w' name' Hne. unfold edge, edgeById. by rewrite Hd, (se_label _ _ _ _ _ _ P), decide_False.
Qed.
End Claims.

(** ** A concrete graph: two voter blocks, their proposer and a compound box *)

Definition demo_ops : list (gop unit nat nat) :=
  [OpSetNode "a" (Some (Some 1)); OpSetNode "b" None; OpSetEdge "a" "b" (Some (Some 7)) None;
   OpSetEdge "a" "b" None (Some "vote"); OpSetEdge "c" "a" None None;
   OpSetParent "b" (Some "box"); OpSetParent "box" (Some "outer"); OpSetEdge "b" "b" None None].

Definition demo : Graph unit nat nat := build true true true demo_ops.

Lemma demo_ops_ok : Forall op_ok demo_ops.
Proof. apply (bool_decide_unpack _). vm_compute. exact I. Qed.

Lemma demo_wf : wf demo.
Proof. apply build_wf, demo_ops_ok. Qed.

Lemma demo_node v : bool_decide (v ∈ nodes demo) = true → isNode demo v.
Proof. intros Hv%bool_decide_eq_true. by apply elem_of_nodes. Qed.


Lemma graph_queries_agree_witness :
  wf demo ∧ isNode demo "a" ∧ ∃ ss, successors demo "a" = Some ss ∧ NoDup ss.
Proof.
  split; [apply demo_wf|]. split; [by apply demo_node|].
  destruct (graph_queries_agree demo "a") as (ss & ? & ? & ? & H & ? & ? & ? & Hnd & ?).
  - apply demo_wf.
  - by apply demo_node.
  - exists ss. split; [exact H|exact Hnd].
Defined.

Lemma removeNode_correct_witness :
  wf demo ∧ isNode demo "b" ∧ ∃ g', removeNode demo "b" = Ok g' ∧ wf g'.
Proof.
  split; [apply demo_wf|]. split; [by apply demo_node|].
  destruct (removeNode_correct demo "b") as (g' & H & Hwf & _).
  - apply demo_wf.
  - by apply demo_node.
  - exists g'. split; [exact H|exact Hwf].
Defined.

Lemma setParent_exact_witness :
  wf demo ∧ isCompound demo = true ∧ plain "outer" ∧ plain "b" ∧
  ((rtc (λ a b, parent demo a = Some b) "b" "outer" ∧
    setParent demo "outer" (Some "b") =
      Throw (JsError "Setting b as parent of outer would create a cycle")) ∨
   (¬ rtc (λ a b, parent demo a = Some b) "b" "outer" ∧
    ∃ g', setParent demo "outer" (Some "b") = Ok g' ∧ wf g' ∧ parent g' "outer" = Some "b"%string ∧
      (∀ u, u ≠ "outer"%string → parent g' u = parent demo u) ∧ edges g' = edges demo)).
Proof.
  split; [apply demo_wf|]. split; [vm_compute; reflexivity|].
  split; [by apply (bool_decide_unpack _)|]. split; [by apply (bool_decide_unpack _)|].
  apply (setParent_exact demo "outer" "b"); [apply demo_wf|vm_compute; reflexivity| |];
    by apply (bool_decide_unpack _).
Defined.

Lemma setEdge_lookup_witness :
  wf demo ∧ ∃ g', setEdge demo "c" "b" (Some (Some 9)) (Some "vote"%string) = Ok g' ∧
    edge g' "c" "b" (Some "vote"%string) = Some 9.
Proof.
  split; [apply demo_wf|].
  destruct (setEdge_lookup demo "c" "b" (Some 9) (Some "vote"%string)) as (g' & H & _ & _ & He & _).
  - apply demo_wf.
  - by apply (bool_decide_unpack _).
  - by apply (bool_decide_unpack _).
  - discriminate.
  - right. vm_compute. reflexivity.
  - exists g'. split; [exact H|exact He].
Defined.
