(* ===== verification/GraphJson.v ===== *)
(** * graphlib: copies of a graph (lib/json.js and [filterNodes] of lib/graph.js)

    [write] turns a graph into a tree of plain values, [read] builds a graph from one; [filterNodes] copies the part of
    a graph that a predicate selects.  All three go through the public methods of the class.  The invariant of the
    container and the behaviour of these methods give the theorems in GraphJsonClaims. *)
From S2P Require Import Prelude JsObject Graphlib GraphWf GraphInv GraphRemove GraphQuery.

Section Copies.
Context {L N E : Type}.
Implicit Types (g h copy : Graph L N E) (v w p : string) (x : edgeObj).

(** ** lib/json.js *)

(** The entries of [json.nodes] and [json.edges]; an absent property is [None]. *)
Record jsonNode := JsonNode { jn_v : string; jn_value : option N; jn_parent : option string }.
Record jsonEdge := JsonEdge { je_v : string; je_w : string; je_name : option string; je_value : option E }.
Record jsonGraph := JsonGraph {
  j_directed : bool;
  j_multigraph : bool;
  j_compound : bool;
  j_nodes : list jsonNode;
  j_edges : list jsonEdge;
  j_value : option L
}.

Definition writeNodes g : list jsonNode := map (λ v, JsonNode v (node g v) (parent g v)) (nodes g).
Definition writeEdges g : list jsonEdge := map (λ e, JsonEdge (ev e) (ew e) (ename e) (edgeOf g e)) (edges g).
(** [_.clone] of the graph label is a value equal to it. *)
Definition write g : jsonGraph :=
  JsonGraph (isDirected g) (isMultigraph g) (isCompound g) (writeNodes g) (writeEdges g) (graph g).

(** [if(entry.parent)]: no parent and the empty identifier are passed over. *)
Definition read_node g (entry : jsonNode) : res (Graph L N E) :=
  g <-- setNode g (jn_v entry) (Some (jn_value entry)) ;;
  match jn_parent entry with
  | Some p => if decide (p = ""%string) then Ok g else setParent g (jn_v entry) (Some p)
  | None => Ok g
  end.
Definition read_edge g (entry : jsonEdge) : res (Graph L N E) :=
  setEdgeObj g (EdgeObj (je_v entry) (je_w entry) (je_name entry)) (Some (je_value entry)).
Definition read (json : jsonGraph) : res (Graph L N E) :=
  let g := setGraph (newGraph (j_directed json) (j_multigraph json) (j_compound json)) (j_value json) in
  g <-- res_fold read_node g (j_nodes json) ;;
  res_fold read_edge g (j_edges json).

(** ** [filterNodes] *)

(** The nearest ancestor that is in the copy; [parents] remembers results. *)
Fixpoint findParent (fuel : nat) g copy (parents : obj (option string)) v : res (option string * obj (option string)) :=
  match fuel with
  | O => Throw (JsError "Maximum call stack size exceeded")
  | S fuel' =>
      match parent g v with
      | None => Ok (None, oset parents v None)
      | Some p =>
          if hasNode copy p then Ok (Some p, oset parents v (Some p))
          else match oget parents p with
               | Some r => Ok (r, parents)
               | None => findParent fuel' g copy parents p
               end
      end
  end.

Definition filter_parent g (st : Graph L N E * obj (option string)) v : res (Graph L N E * obj (option string)) :=
  let '(copy, parents) := st in
  r <-- findParent (S (length (nodes g))) g copy parents v ;;
  copy <-- setParent copy v r.1 ;;
  Ok (copy, r.2).

Definition filter_node g (keep : string → bool) copy v : res (Graph L N E) :=
  if keep v then setNode copy v (Some (node g v)) else Ok copy.
Definition filter_edge g copy x : res (Graph L N E) :=
  if hasNode copy (ev x) && hasNode copy (ew x) then setEdgeObj copy x (Some (edgeOf g x)) else Ok copy.

Definition filterNodes g (keep : string → bool) : res (Graph L N E) :=
  let copy := setGraph (newGraph (isDirected g) (isMultigraph g) (isCompound g)) (graph g) in
  copy <-- res_fold (filter_node g keep) copy (nodes g) ;;
  copy <-- res_fold (filter_edge g) copy (edges g) ;;
  if isCompound g then st <-- res_fold (filter_parent g) (copy, []) (nodes copy) ;; Ok st.1
  else Ok copy.

(** ** Copying edges *)

(** Only multigraphs have named edges; [setEdge] sees to it. *)
Definition names_ok g : Prop := ∀ x, x ∈ edges g → ename x = None ∨ isMultigraph g = true.

Lemma edgeArgsToObj_id g x : wf g → x ∈ edges g → edgeArgsToObj (isDirected g) (ev x) (ew x) (ename x) = x.
Proof.
  intros Hwf [e He]%elem_of_ovalues. destruct (eok_edge _ _ _ (wf_edges _ Hwf) _ _ He) as (_ & _ & _ & Hn & Ho).
  unfold edgeArgsToObj. rewrite Ho. destruct x as [v w [n|]]; simpl in *; [|done]. by rewrite decide_False by congruence.
Qed.

(** [h] has the edges [x] of [g] with [P x], with their labels. *)
Record edges_copied g (P : edgeObj → Prop) h : Prop := {
  ec_objs : ∀ e x, oget (edgeObjs_ h) e = Some x ↔ oget (edgeObjs_ g) e = Some x ∧ P x;
  ec_labels : ∀ e x, oget (edgeObjs_ h) e = Some x → oget (edgeLabels_ h) e = oget (edgeLabels_ g) e
}.

(** The tables that copying edges between existing nodes leaves alone. *)
Definition same_shape h h' : Prop :=
  same_options h h' ∧ (∀ u, oget (nodes_ h') u = oget (nodes_ h) u) ∧
  (isCompound h = true → ∀ u, oget (parent_ h') u = oget (parent_ h) u).

Lemma copy_edge g (P : edgeObj → Prop) h x :
  wf g → wf h → names_ok g → isDirected h = isDirected g → isMultigraph h = isMultigraph g →
  x ∈ edges g → isNode h (ev x) → isNode h (ew x) → edges_copied g P h →
  ∃ h', setEdgeObj h x (Some (edgeOf g x)) = Ok h' ∧ wf h' ∧ same_shape h h' ∧ edges_copied g (λ y, y = x ∨ P y) h'.
Proof.
  intros Hwf Hwh Hnames Hd Hm Hx Hv Hw [Ho Hl]. pose proof (edgeArgsToObj_id g x Hwf Hx) as Hid.
  pose proof (proj1 (elem_of_edges g x Hwf) Hx) as Hgx.
  assert (is_Some (oget (edgeLabels_ g) (edgeObjToId (isDirected g) x))) as [l Hgl] by (apply edge_dom; eauto).
  destruct (eok_edge _ _ _ (wf_edges _ Hwf) _ _ Hgx) as (_ & _ & _ & Hn & _).
  unfold setEdgeObj. destruct (setEdge_ok h (ev x) (ew x) (Some (edgeOf g x)) (ename x)) as (h' & -> & Q);
    [done|by eapply wf_plain..|done|destruct (Hnames x Hx); [by left|right; left; congruence]|].
  destruct Q as [Q1 Q2 Q3 Q4 Q5 Q6]. fold (edgeObjToId (isDirected h) x) in Q3, Q4. rewrite Hd in *. rewrite Hid in Q4.
  exists h'. split_and!; [done|done|split_and!; [done|..]|split].
  - intros u. rewrite Q5. destruct Hv as [? Hv], Hw as [? Hw]. destruct (oget (nodes_ h) u) eqn:Hu; [done|].
    rewrite decide_False; [done|]. intros [->| ->]; congruence.
  - intros Hc u. rewrite (Q6 Hc). destruct (oget (parent_ h) u) eqn:Hu; [done|]. rewrite decide_False; [done|].
    pose proof (tok_parent _ _ _ _ (wf_tree _ Hwh Hc) u) as Hp. intros [->| ->]; [apply Hp in Hv as [??]|apply Hp in Hw as [??]]; congruence.
  - intros e y. rewrite Q4. destruct (oget (edgeObjs_ h) e) as [z|] eqn:Hz.
    + apply Ho in Hz as [Hz HP]. rewrite Hz. naive_solver.
    + destruct (decide (e = _)) as [->|Hne].
      * rewrite Hgx. naive_solver.
      * split; [done|]. intros [Hy [->|HP]].
        -- destruct (eok_edge _ _ _ (wf_edges _ Hwf) _ _ Hy) as (He & _). done.
        -- assert (oget (edgeObjs_ h) e = Some y) by (by apply Ho). congruence.
  - intros e y. rewrite Q3, Q4. destruct (decide (e = _)) as [->|Hne].
    + intros _. unfold set_elabel, edgeOf, edgeById. by rewrite Hgl.
    + destruct (oget (edgeObjs_ h) e) as [z|] eqn:Hz; [|done]. intros _. by eapply Hl.
Qed.

#[export] Instance same_shape_refl : Reflexive same_shape.
Proof. intros h. split_and!; done. Qed.
#[export] Instance same_shape_trans : Transitive same_shape.
Proof.
  intros h1 h2 h3 (O1 & N1 & P1) (O2 & N2 & P2). split_and!; [by etrans|by intros u; rewrite N2|].
  intros Hc u. rewrite P2, P1; [done..|]. destruct O1 as (_ & _ & ? & _). congruence.
Qed.

(** A loop over the edges of [g] that copies those with [P]. *)
Lemma copy_edges g (P : edgeObj → Prop) (step : Graph L N E → edgeObj → res (Graph L N E)) h :
  wf g → wf h → names_ok g → isDirected h = isDirected g → isMultigraph h = isMultigraph g →
  (∀ e, oget (edgeObjs_ h) e = None) →
  (∀ x, x ∈ edges g → P x → isNode h (ev x) ∧ isNode h (ew x)) →
  (∀ h' x, same_shape h h' → x ∈ edges g → (P x ∧ step h' x = setEdgeObj h' x (Some (edgeOf g x))) ∨ (¬ P x ∧ step h' x = Ok h')) →
  ∃ h', res_fold step h (edges g) = Ok h' ∧ wf h' ∧ same_shape h h' ∧ edges_copied g P h'.
Proof.
  intros Hwf Hwh Hnames Hd Hm H0 Hends Hstep.
  destruct (res_fold_inv step (λ done h', wf h' ∧ same_shape h h' ∧ edges_copied g (λ x, x ∈ done ∧ P x) h') (edges g) h)
    as (h' & Hr & Hw' & Hs' & [Ho Hl]).
  - split_and!; [done|done|]. split; intros e x; rewrite H0; [|done]. split; [done|]. intros (_ & []%elem_of_nil & _).
  - intros done x rest h' Hsplit (Hw' & Hs' & Hc). assert (x ∈ edges g) as Hx by (rewrite Hsplit; set_solver).
    destruct (Hstep h' x Hs' Hx) as [[HP ->]|[HP ->]].
    + destruct (Hends x Hx HP) as [Hv Hw]. pose proof Hs' as ((O1 & O2 & _) & HN & _).
      destruct (copy_edge g (λ x, x ∈ done ∧ P x) h' x Hwf Hw' Hnames ltac:(congruence) ltac:(congruence) Hx)
        as (h'' & ? & ? & ? & [Hob Hlb]); [unfold isNode; by rewrite HN..|done|].
      exists h''. split_and!; [done|done|by etrans|]. split; [|done]. intros e y. rewrite Hob. set_solver.
    + exists h'. destruct Hc as [Hob Hlb]. split_and!; [done..|]. split; [|done]. intros e y. rewrite Hob. set_solver.
  - exists h'. split_and!; [done..|]. split; [|done]. intros e x. rewrite Ho.
    split; [naive_solver|]. intros [He HP]. split_and!; [done| |done]. by eapply elem_of_edges_key.
Qed.
End Copies.
Arguments jsonNode : clear implicits.
Arguments jsonEdge : clear implicits.
Arguments jsonGraph : clear implicits.
