(* ===== verification/GraphJsonClaims.v ===== *)
(** * graphlib: what copies of a graph contain

    [read] after [write] gives the graph back; [filterNodes] gives the induced part of the graph, with the hierarchy
    contracted to the nodes that are kept. *)
From S2P Require Import Prelude JsObject Graphlib GraphWf GraphInv GraphRemove GraphQuery GraphView GraphJson GraphClaims.

Lemma res_fold_map {A B S} (f : S → B → res S) (k : A → B) s (l : list A) : res_fold f s (map k l) = res_fold (λ s a, f s (k a)) s l.
Proof. revert s. induction l as [|a l IH]; intros s; simpl; [done|]. destruct (f s (k a)); simpl; auto. Qed.

Section CopyClaims.
Context {L N E : Type}.
Implicit Types (g h copy : Graph L N E) (v w p : string) (x : edgeObj).

(** The same graph, up to the order in which properties were created. *)
Record same_graph g h : Prop := {
  sg_directed : isDirected h = isDirected g;
  sg_multi : isMultigraph h = isMultigraph g;
  sg_compound : isCompound h = isCompound g;
  sg_label : graph h = graph g;
  sg_nodes : ∀ v, oget (nodes_ h) v = oget (nodes_ g) v;
  sg_objs : ∀ e, oget (edgeObjs_ h) e = oget (edgeObjs_ g) e;
  sg_labels : ∀ e, oget (edgeLabels_ h) e = oget (edgeLabels_ g) e;
  sg_parent : ∀ v, parent h v = parent g v
}.

#[export] Instance same_graph_equiv : Equivalence same_graph.
Proof.
  split; [by intros g|intros g h []; split; by auto|].
  intros g1 g2 g3 [] []; split; intros; congruence.
Qed.

(** All edges copied. *)
Lemma edges_copied_all g (P : edgeObj → Prop) h :
  wf g → wf h → (∀ x, x ∈ edges g → P x) → edges_copied g P h →
  (∀ e, oget (edgeObjs_ h) e = oget (edgeObjs_ g) e) ∧ (∀ e, oget (edgeLabels_ h) e = oget (edgeLabels_ g) e).
Proof.
  intros Hwf Hwh HP [Ho Hl].
  assert (∀ e, oget (edgeObjs_ h) e = oget (edgeObjs_ g) e) as Hobj.
  { intros e. apply option_eq. intros x. rewrite Ho. split; [naive_solver|]. intros Hx. split; [done|]. apply HP. by eapply elem_of_edges_key. }
  split; [done|]. intros e. destruct (oget (edgeObjs_ h) e) as [x|] eqn:Hx; [by eapply Hl|].
  assert (∀ h, wf h → oget (edgeObjs_ h) e = None → oget (edgeLabels_ h) e = None) as Hnone.
  { intros h' Hw' Hn. rewrite eq_None_not_Some, <-edge_dom, Hn by done. by intros [??]. }
  rewrite !Hnone; [done|done|by rewrite <-Hobj|done|done].
Qed.

(** ** [read] *)

(** The state of the loop over the entries of nodes. *)
Record nodes_read g (done : list string) h : Prop := {
  nr_wf : wf h;
  nr_options : isDirected h = isDirected g ∧ isMultigraph h = isMultigraph g ∧ isCompound h = isCompound g ∧ graph h = graph g;
  nr_edges : ∀ e, oget (edgeObjs_ h) e = None;
  nr_done : ∀ u, u ∈ done → oget (nodes_ h) u = oget (nodes_ g) u;
  nr_nodes : ∀ u, isNode h u → isNode g u;
  nr_parent : isCompound g = true → ∀ u, if decide (u ∈ done) then oget (parent_ h) u = oget (parent_ g) u
    else oget (parent_ h) u = None ∨ oget (parent_ h) u = Some GRAPH_NODE
}.

Lemma nodes_read_up g done h a b : wf g → isCompound g = true → nodes_read g done h → up (parent_ h) a b → up (parent_ g) a b.
Proof.
  intros Hwf Hc Q [Ha Hb]. pose proof (nr_parent _ _ _ Q Hc a) as Hp.
  destruct (decide (a ∈ done)); [split; congruence|]. destruct Hp; congruence.
Qed.

Lemma node_oget g v l : oget (nodes_ g) v = Some l → node g v = l.
Proof. unfold node. by intros ->. Qed.

Lemma read_node_ok g done v h :
  wf g → (∀ u, parent g u ≠ Some ""%string) → isNode g v → v ∉ done → nodes_read g done h →
  ∃ h', read_node h (JsonNode v (node g v) (parent g v)) = Ok h' ∧ nodes_read g (done ++ [v]) h'.
Proof.
  intros Hwf Hroot Hv Hnew Q. pose proof Hv as [l Hl]. unfold read_node. cbn [jn_v jn_value jn_parent].
  destruct (setNode_ok h v (Some (node g v)) (nr_wf _ _ _ Q) (wf_plain _ Hwf _ Hv)) as (h1 & -> & P). cbn [res_bind].
  destruct (nr_options _ _ _ Q) as (O1 & O2 & O3 & O4). destruct P as [P1 (R1 & R2 & R3 & R4 & R5 & R6) P3 P4 P5].
  assert (nodes_read g done h1 ∧ oget (nodes_ h1) v = Some l ∧ (isCompound g = true → oget (parent_ h1) v = Some GRAPH_NODE))
    as (Q1 & Hlv & Hpv).
  { split_and!.
    - split; [done|unfold graph in *; split_and!; congruence|by destruct P3 as [-> _]; apply Q| | |].
      + intros u Hu. rewrite P4, decide_False by (by intros ->). by apply Q.
      + intros u. unfold isNode at 1. rewrite P4. case_decide; [by subst|]. apply Q.
      + intros Hc u. rewrite P5 by congruence. pose proof (nr_parent _ _ _ Q Hc u) as Hu.
        destruct (decide (u = v ∧ _)) as [[-> _]|]; [|done]. rewrite decide_False by done. by right.
    - rewrite P4, decide_True by done. unfold set_label. by rewrite (node_oget _ _ _ Hl).
    - intros Hc. rewrite P5 by congruence. pose proof (nr_parent _ _ _ Q Hc v) as Hu. rewrite decide_False in Hu by done.
      destruct (decide (v = v ∧ _)) as [|Hn]; [done|]. destruct Hu as [Hu|]; [|done]. destruct Hn. split; [done|].
      intros Hi. apply (tok_parent _ _ _ _ (wf_tree _ (nr_wf _ _ _ Q) ltac:(congruence))) in Hi as [??]. congruence. }
  clear P1 P3 P4 P5 R1 R2 R3 R4 R5 R6 O1 O2 O3 O4.
  destruct (parent g v) as [p|] eqn:Hp.
  - rewrite decide_False by (intros ->; by eapply Hroot). assert (isCompound g = true) as Hc by (unfold parent in Hp; by destruct (isCompound g)).
    pose proof Hp as Hup. apply (parent_up g v p Hc) in Hup.
    assert (isNode g p) as Hpn. { destruct Hup as [Ho Hne]. destruct (tok_inner _ _ _ _ (wf_tree _ Hwf Hc) _ _ Ho); done. }
    destruct (nr_options _ _ _ Q1) as (O1 & O2 & O3 & O4).
    destruct (setParent_ok h1 v p (nr_wf _ _ _ Q1)) as (h2 & -> & S); [congruence|by eapply wf_plain..| |].
    { intros Hr. apply (tok_acyclic _ _ _ _ (wf_tree _ Hwf Hc) v). eapply tc_rtc_r; [by apply tc_once|].
      eapply (rtc_congruence id); [|exact Hr]. intros a b. by eapply nodes_read_up. }
    destruct S as [S1 (T1 & T2 & T3 & T4 & _) [S3 _] S4 S5]. exists h2. split; [done|].
    split; [done|unfold graph in *; split_and!; congruence|by rewrite S3; apply Q1| | |].
    + intros u Hu. rewrite S4. destruct (decide (u = v)) as [->|]; [by rewrite Hlv|].
      pose proof (nr_done _ _ _ Q1 u ltac:(set_solver)) as Hd. assert (isNode g u ∨ ¬ isNode g u) as [[lu Hlu]|Hnu] by (unfold isNode; destruct (oget (nodes_ g) u); naive_solver).
      * by rewrite Hd, Hlu.
      * assert (oget (nodes_ h1) u = None) as ->. { rewrite Hd. by apply eq_None_not_Some. }
        rewrite decide_False by naive_solver. symmetry. by apply eq_None_not_Some.
    + intros u. unfold isNode at 1. rewrite S4. destruct (oget (nodes_ h1) u) eqn:Hu; [intros _; apply Q1; by eexists|].
      case_decide as Hd; [|by intros [??]]. intros _. destruct Hd as [->|[= ->]]; done.
    + intros Hc' u. rewrite S5. destruct (decide (u = v)) as [->|Hne].
      * rewrite decide_True by set_solver. destruct Hup as [-> _]. done.
      * pose proof (nr_parent _ _ _ Q1 Hc' u) as Hu. destruct (decide (u ∈ done)) as [Hd|Hd].
        -- rewrite decide_True by set_solver. rewrite <-Hu. destruct (oget (parent_ h1) u) as [q|] eqn:Hq; [done|].
           rewrite decide_False; [done|]. intros [= ->]. pose proof (tok_parent _ _ _ _ (wf_tree _ Hwf Hc) p) as Htp.
           apply Htp in Hpn as [??]. congruence.
        -- rewrite decide_False by set_solver. destruct Hu as [->| ->]; [|by right]. case_decide; auto.
  - exists h1. split; [done|]. destruct Q1 as [Q1 Q2 Q3 Q4 Q5 Q6]. split; [done..| |done|].
    + intros u [Hu| ->%list_elem_of_singleton]%elem_of_app; [by apply Q4|congruence].
    + intros Hc u. specialize (Q6 Hc u). destruct (decide (u = v)) as [->|Hne].
      * rewrite decide_True by set_solver. rewrite (Hpv Hc). symmetry.
        unfold parent in Hp. rewrite Hc in Hp. destruct (oget (parent_ g) v) as [q|] eqn:Hq; [by case_decide; congruence|].
        apply (tok_parent _ _ _ _ (wf_tree _ Hwf Hc)) in Hv as [??]. congruence.
      * destruct (decide (u ∈ done)); [by rewrite decide_True by set_solver|by rewrite decide_False by set_solver].
Qed.

Lemma nodes_read_all g h :
  wf g → nodes_read g (nodes g) h → (∀ u, oget (nodes_ h) u = oget (nodes_ g) u) ∧ (∀ u, parent h u = parent g u).
Proof.
  intros Hwf [Q1 (O1 & O2 & O3 & O4) Q3 Q4 Q5 Q6].
  assert (∀ u, oget (nodes_ h) u = oget (nodes_ g) u) as Hn.
  { intros u. destruct (decide (u ∈ nodes g)) as [Hu|Hu]; [by apply Q4|]. rewrite elem_of_nodes in Hu.
    rewrite (proj2 (eq_None_not_Some (oget (nodes_ g) u)) Hu). apply eq_None_not_Some. intros Hi. by apply Hu, Q5. }
  split; [done|]. intros u. unfold parent. rewrite O3. destruct (isCompound g) eqn:Hc; [|done]. specialize (Q6 eq_refl u).
  destruct (decide (u ∈ nodes g)) as [Hu|Hu]; [by rewrite Q6|]. rewrite elem_of_nodes in Hu.
  assert (∀ g', wf g' → isCompound g' = true → ¬ isNode g' u → oget (parent_ g') u = None) as Hnone.
  { intros g' Hw' Hc' Hn'. rewrite eq_None_not_Some. by rewrite (tok_parent _ _ _ _ (wf_tree _ Hw' Hc')). }
  rewrite (Hnone g), (Hnone h); [done|done|congruence| |done..]. intros Hi. by apply Hu, Q5.
Qed.

Lemma new_with_label_wf d m c (l : option L) : wf (setGraph (newGraph (N := N) (E := E) d m c) l).
Proof. apply setGraph_wf, newGraph_wf. Qed.

(** C28: Reading back what [write] made of a well-formed graph returns a well-formed graph with the same options, graph label,
    nodes, edges, labels and hierarchy, whatever the order in which nodes and their parents are listed; the one
    exception in the code is a parent whose identifier is the empty string. *)
Theorem json_roundtrip g :
  wf g → names_ok g → (∀ u, parent g u ≠ Some ""%string) → ∃ h, read (write g) = Ok h ∧ wf h ∧ same_graph g h.
Proof.
  intros Hwf Hnames Hroot. unfold read, write. cbn [j_directed j_multigraph j_compound j_value j_nodes j_edges].
  unfold writeNodes, writeEdges. rewrite res_fold_map. set (h0 := setGraph _ _).
  destruct (res_fold_inv (λ h v, read_node h (JsonNode v (node g v) (parent g v))) (λ done h, nodes_read g done h) (nodes g) h0)
    as (h1 & -> & Q).
  - split; [apply new_with_label_wf|done|done|by intros u ?%elem_of_nil|by intros u [??]|].
    intros _ u. rewrite decide_False by apply not_elem_of_nil. by left.
  - intros done v rest h Hsplit Q. pose proof (NoDup_nodes g Hwf) as Hnd. rewrite Hsplit in Hnd. apply NoDup_app in Hnd as (_ & Hd & _).
    apply read_node_ok; [done..| | |done].
    + apply elem_of_nodes. rewrite Hsplit. set_solver.
    + intros Hin. by apply (Hd v Hin); left.
  - cbn [res_bind]. rewrite res_fold_map. destruct (nodes_read_all g h1 Hwf Q) as [Hn Hp]. destruct (nr_options _ _ _ Q) as (O1 & O2 & O3 & O4).
    destruct (copy_edges g (λ _, True) (λ h x, read_edge h (JsonEdge (ev x) (ew x) (ename x) (edgeOf g x))) h1)
      as (h2 & Hr & Hw2 & (S1 & S2 & S3) & Hc); [done|apply Q|done|done|done|apply Q| | |].
    + intros x Hx _. unfold isNode. rewrite !Hn. by apply edges_nodes.
    + intros h' x _ _. left. split; [done|]. unfold read_edge. cbn. by destruct x.
    + exists h2. split_and!; [done|done|]. destruct S1 as (T1 & T2 & T3 & T4 & _).
      destruct (edges_copied_all g (λ _, True) h2 Hwf Hw2 ltac:(done) Hc) as [Ho Hl].
      split; [congruence..|unfold graph in *; congruence|by intros v; rewrite S2|done|done|].
      intros v. rewrite <-Hp. unfold parent. rewrite T3. destruct (isCompound h1) eqn:Hc1; [|done]. by rewrite S3.
Qed.

(** ** [filterNodes] *)

Section Filter.
Context (g : Graph L N E) (keep : string → bool) (Hwf : wf g).

(** The nearest ancestor that is kept. *)
Inductive kept_above : string → option string → Prop :=
| ka_root v : parent g v = None → kept_above v None
| ka_here v p : parent g v = Some p → keep p = true → kept_above v (Some p)
| ka_skip v p r : parent g v = Some p → keep p = false → kept_above p r → kept_above v r.

Lemma kept_above_tc v r : isCompound g = true → kept_above v r → ∀ p, r = Some p → tc (up (parent_ g)) v p ∧ keep p = true ∧ isNode g p.
Proof.
  intros Hc. induction 1 as [|v p Hp Hk|v p r Hp Hk _ IH]; intros q; [done| |].
  - intros [= <-]. apply (parent_up g v p Hc) in Hp. split_and!; [by apply tc_once|done|].
    destruct Hp as [Ho Hne]. destruct (tok_inner _ _ _ _ (wf_tree _ Hwf Hc) _ _ Ho); done.
  - intros ->. destruct (IH q eq_refl) as (? & ? & ?). apply (parent_up g v p Hc) in Hp. split_and!; [by eapply tc_l|done|done].
Qed.

(** [copy] has exactly the nodes of [g] that are kept, with their labels. *)
Definition nodes_kept copy : Prop := ∀ u, oget (nodes_ copy) u = if keep u then oget (nodes_ g) u else None.

Lemma nodes_kept_has copy u : nodes_kept copy → hasNode copy u = keep u && hasNode g u.
Proof. intros H. unfold hasNode, ohas. rewrite H. by destruct (keep u). Qed.

Lemma findParent_ok fuel copy parents v :
  isCompound g = true → nodes_kept copy → (∀ n y, nsteps (up (parent_ g)) n v y → n < fuel) →
  (∀ u r, oget parents u = Some r → kept_above u r) →
  ∃ r parents', findParent fuel g copy parents v = Ok (r, parents') ∧ kept_above v r ∧ (∀ u r, oget parents' u = Some r → kept_above u r).
Proof.
  intros Hc Hk. revert v. induction fuel as [|fuel IH]; intros v Hf Hm; [specialize (Hf 0 v (nsteps_O _ _)); lia|]. cbn [findParent].
  assert (∀ r, kept_above v r → ∀ u r', oget (oset parents v r) u = Some r' → kept_above u r') as Hset.
  { intros r Hr u r'. rewrite oget_oset. case_decide; [by intros [= <-]; subst|]. apply Hm. }
  destruct (parent g v) as [p|] eqn:Hp; [|pose proof (ka_root v Hp); exists None, (oset parents v None); eauto].
  assert (up (parent_ g) v p) as Hup by (by apply parent_up).
  assert (hasNode g p = true) as Hpn.
  { apply hasNode_true. destruct Hup as [Ho Hne]. destruct (tok_inner _ _ _ _ (wf_tree _ Hwf Hc) _ _ Ho); done. }
  rewrite (nodes_kept_has copy p Hk), Hpn, andb_true_r. destruct (keep p) eqn:Hkp; [pose proof (ka_here v p Hp Hkp); eexists _, _; eauto|].
  destruct (oget parents p) as [r|] eqn:Hpp; [exists r, parents; split_and!; [done|by eapply ka_skip; eauto|done]|].
  destruct (IH p) as (r & ps & -> & Hr & Hps); [|done|].
  - intros n y Hn. enough (S n < S fuel) by lia. eapply Hf. by eapply nsteps_l.
  - exists r, ps. split_and!; [done|by eapply ka_skip|done].
Qed.

(** The copy while parents are set for [done]. *)
Record parents_set copy0 (done : list string) copy : Prop := {
  ps_wf : wf copy;
  ps_options : same_options copy0 copy;
  ps_edges : same_edges copy0 copy;
  ps_nodes : ∀ u, oget (nodes_ copy) u = oget (nodes_ copy0) u;
  ps_done : ∀ u, u ∈ done → ∃ r, oget (parent_ copy) u = Some (default GRAPH_NODE r) ∧ kept_above u r;
  ps_rest : ∀ u, u ∉ done → oget (parent_ copy) u = None ∨ oget (parent_ copy) u = Some GRAPH_NODE
}.

Lemma parents_set_up copy0 done copy a b :
  isCompound g = true → parents_set copy0 done copy → up (parent_ copy) a b → tc (up (parent_ g)) a b.
Proof.
  intros Hc Q [Ha Hb]. destruct (decide (a ∈ done)) as [Hd|Hd].
  - destruct (ps_done _ _ _ Q a Hd) as ([r|] & Hr & Hk); simpl in Hr; [|congruence].
    eapply kept_above_tc; [done|exact Hk|congruence].
  - destruct (ps_rest _ _ _ Q a Hd); congruence.
Qed.

Lemma set_parent_ok copy0 done copy v r :
  isCompound g = true → isCompound copy0 = true → nodes_kept copy0 → isNode copy0 v → kept_above v r → parents_set copy0 done copy →
  ∃ copy', setParent copy v r = Ok copy' ∧ parents_set copy0 (done ++ [v]) copy'.
Proof.
  intros Hc Hc0 Hk0 Hv Hr Q. destruct Q as [Q1 Q2 Q3 Q4 Q5 Q6] eqn:HQ. clear HQ. pose proof Q2 as (_ & _ & Hcc & _).
  assert (isNode copy v) as Hvc by (unfold isNode; rewrite Q4; done). pose proof (wf_plain _ Q1 _ Hvc) as Hpl.
  assert (∃ copy', setParent copy v r = Ok copy' ∧ setParent_post copy v r copy' ∧ ∀ p, r = Some p → isNode copy p) as (copy' & -> & [S1 S2 S3 S4 S5] & Hin).
  { destruct r as [p|].
    - destruct (kept_above_tc v (Some p) Hc Hr p eq_refl) as (Htc & Hkp & Hpn).
      assert (isNode copy p) as Hpc by (unfold isNode; rewrite Q4, Hk0, Hkp; done).
      destruct (setParent_ok copy v p Q1) as (c & ? & ?); [congruence|done|by eapply wf_plain| |by exists c; split_and!; [..|intros ? [= <-]]].
      intros Hrt. apply (tok_acyclic _ _ _ _ (wf_tree _ Hwf Hc) v). eapply tc_rtc_r; [exact Htc|].
      clear -Hwf Hrt Hc Q. induction Hrt as [|a b c Hab _ IH]; [done|]. eapply tc_rtc, tc_rtc_r; [|exact IH]. by eapply parents_set_up.
    - destruct (setParent_root_ok copy v Q1) as (c & ? & ?); [congruence|done|]. by exists c. }
  assert (∀ u, oget (parent_ copy') u = if decide (u = v) then Some (default GRAPH_NODE r) else oget (parent_ copy) u) as Hpar.
  { intros u. rewrite S5. destruct (decide (u = v)); [done|]. destruct (oget (parent_ copy) u) eqn:Hu; [done|].
    rewrite decide_False; [done|]. intros Hur. symmetry in Hur. apply Hin in Hur.
    apply (tok_parent _ _ _ _ (wf_tree _ Q1 ltac:(congruence))) in Hur as [??]. congruence. }
  exists copy'. split; [done|]. split; [done|by etrans|by etrans| | |].
  - intros u. rewrite S4, <-Q4. destruct (oget (nodes_ copy) u) eqn:Hu; [done|]. rewrite decide_False; [done|].
    intros [->|Hur]; [destruct Hvc; congruence|]. symmetry in Hur. apply Hin in Hur as [??]. congruence.
  - intros u Hu. rewrite Hpar. destruct (decide (u = v)) as [->|]; [by exists r|]. apply Q5. set_solver.
  - intros u Hu. rewrite Hpar, decide_False by set_solver. apply Q6. set_solver.
Qed.

Lemma filter_parents_ok copy0 :
  isCompound g = true → wf copy0 → isCompound copy0 = true → nodes_kept copy0 →
  (∀ u, oget (parent_ copy0) u = None ∨ oget (parent_ copy0) u = Some GRAPH_NODE) →
  ∃ copy parents, res_fold (filter_parent g) (copy0, []) (nodes copy0) = Ok (copy, parents) ∧ parents_set copy0 (nodes copy0) copy.
Proof.
  intros Hc Hw0 Hc0 Hk0 Hp0.
  destruct (res_fold_inv (filter_parent g)
      (λ done st, parents_set copy0 done st.1 ∧ (∀ u r, oget st.2 u = Some r → kept_above u r)) (nodes copy0) (copy0, []))
    as ([copy parents] & Hr & HQ & _); [| |by eauto].
  - split; [|done]. split; [done|done|done|done|by intros u ?%elem_of_nil|done].
  - intros done v rest [copy parents] Hsplit [Q Hm]. simpl in Q, Hm. unfold filter_parent.
    destruct (findParent_ok (S (length (nodes g))) copy parents v Hc) as (r & ps & -> & Hr & Hps); [..|done|].
    + intros u. rewrite (ps_nodes _ _ _ Q). apply Hk0.
    + intros n y Hn. enough (n ≤ length (nodes g)) by lia. eapply acyclic_nsteps_bound; [apply (wf_tree _ Hwf Hc)| |exact Hn].
      intros a b [Ha _]. apply elem_of_nodes, (tok_parent _ _ _ _ (wf_tree _ Hwf Hc)). by eexists.
    + cbn [res_bind fst snd]. destruct (set_parent_ok copy0 done copy v r) as (copy' & -> & Q'); [done..| |done|done|].
      * apply elem_of_nodes. rewrite Hsplit. set_solver.
      * cbn [res_bind]. by exists (copy', ps).
Qed.

Lemma filter_copy_nodes :
  let copy0 := setGraph (newGraph (isDirected g) (isMultigraph g) (isCompound g)) (graph g) in
  ∃ copy, res_fold (filter_node g keep) copy0 (nodes g) = Ok copy ∧ wf copy ∧ same_options copy0 copy ∧
    (∀ e, oget (edgeObjs_ copy) e = None) ∧ nodes_kept copy ∧
    (isCompound g = true → ∀ u, oget (parent_ copy) u = None ∨ oget (parent_ copy) u = Some GRAPH_NODE).
Proof.
  intros copy0. destruct (res_fold_inv (filter_node g keep) (λ done copy, wf copy ∧ same_options copy0 copy ∧ (∀ e, oget (edgeObjs_ copy) e = None) ∧
      (∀ u, oget (nodes_ copy) u = if keep u && bool_decide (u ∈ done) then oget (nodes_ g) u else None) ∧
      (isCompound g = true → ∀ u, oget (parent_ copy) u = None ∨ oget (parent_ copy) u = Some GRAPH_NODE)) (nodes g) copy0)
    as (copy & Hr & H1 & H2 & H3 & H4 & H5).
  - split_and!; [apply new_with_label_wf|done|done| |by left]. intros u. rewrite bool_decide_false by apply not_elem_of_nil. by rewrite andb_false_r.
  - intros done v rest copy Hsplit (H1 & H2 & H3 & H4 & H5). unfold filter_node.
    assert (isNode g v) as Hv by (apply elem_of_nodes; rewrite Hsplit; set_solver).
    assert (∀ u, u ≠ v → bool_decide (u ∈ done ++ [v]) = bool_decide (u ∈ done)) as Hbd by (intros u Hu; apply bool_decide_ext; set_solver).
    destruct (keep v) eqn:Hkv.
    + destruct (setNode_ok copy v (Some (node g v)) H1 (wf_plain _ Hwf _ Hv)) as (c & -> & [P1 P2 [P3 _] P4 P5]).
      exists c. split_and!; [done|done|by etrans|by rewrite P3| |].
      * intros u. rewrite P4. destruct (decide (u = v)) as [->|Hne]; [|by rewrite H4, Hbd].
        rewrite Hkv, bool_decide_true by set_solver. destruct Hv as [l Hl]. cbn. by rewrite (node_oget _ _ _ Hl), Hl.
      * intros Hc u. rewrite P5; [|destruct H2 as (_ & _ & -> & _); exact Hc]. case_decide; [by right|by apply H5].
    + exists copy. split_and!; [done..| |done]. intros u. rewrite H4. destruct (decide (u = v)) as [->|Hne]; [by rewrite Hkv|by rewrite Hbd].
  - exists copy. split_and!; [done..| |done]. intros u. rewrite H4. destruct (keep u); [|done]. simpl. case_bool_decide as Hu; [done|].
    rewrite elem_of_nodes in Hu. symmetry. by apply eq_None_not_Some.
Qed.
End Filter.

(** [filterNodes] returns a well-formed graph with the options and the label of the original that has exactly the nodes the
    predicate keeps, exactly the edges between them, all with their labels; on a compound graph the parent of a node is its nearest
    ancestor that is kept. *)
Theorem filterNodes_induced g keep :
  wf g → names_ok g →
  ∃ h, filterNodes g keep = Ok h ∧ wf h ∧
    isDirected h = isDirected g ∧ isMultigraph h = isMultigraph g ∧ isCompound h = isCompound g ∧ graph h = graph g ∧
    (∀ u, oget (nodes_ h) u = if keep u then oget (nodes_ g) u else None) ∧
    (∀ x, x ∈ edges h ↔ x ∈ edges g ∧ keep (ev x) = true ∧ keep (ew x) = true) ∧
    (∀ x, x ∈ edges h → edgeOf h x = edgeOf g x) ∧
    (∀ u, isNode h u → kept_above g keep u (parent h u)).
Proof.
  intros Hwf Hnames. unfold filterNodes. destruct (filter_copy_nodes g keep Hwf) as (c1 & -> & W1 & (O1 & O2 & O3 & O4 & _) & E1 & K1 & P1). cbn [res_bind].
  cbn in O1, O2, O3, O4.
  assert (∀ c x, nodes_kept g keep c → x ∈ edges g → hasNode c (ev x) && hasNode c (ew x) = keep (ev x) && keep (ew x)) as Hends.
  { intros c x Hk Hx. destruct (edges_nodes g x Hwf Hx) as [Hv Hw]. rewrite !(nodes_kept_has g keep c) by done.
    apply hasNode_true in Hv, Hw. by rewrite Hv, Hw, !andb_true_r. }
  destruct (copy_edges g (λ x, keep (ev x) && keep (ew x) = true) (filter_edge g) c1)
    as (c2 & -> & W2 & ((T1 & T2 & T3 & T4 & _) & S2 & S3) & [Ho Hl]); [done..| | |].
  { intros x Hx Hk. rewrite <-(Hends c1 x K1 Hx) in Hk. apply andb_true_iff in Hk as [Hv Hw]. split; by apply hasNode_true. }
  { intros c x (_ & Hs & _) Hx. unfold filter_edge. rewrite (Hends c x); [|by intros u; rewrite Hs|done].
    destruct (keep (ev x) && keep (ew x)); [by left|right; done]. }
  assert (nodes_kept g keep c2) as K2 by (by intros u; rewrite S2). cbn [res_bind].
  assert (∃ h, (if isCompound g then st <-- res_fold (filter_parent g) (c2, []) (nodes c2) ;; Ok st.1 else Ok c2) = Ok h ∧ wf h ∧
    same_options c2 h ∧ same_edges c2 h ∧ nodes_kept g keep h ∧ (∀ u, isNode h u → kept_above g keep u (parent h u))) as (h & -> & W3 & (U1 & U2 & U3 & U4 & _) & [Eo El] & K3 & HP).
  { destruct (isCompound g) eqn:Hc.
    - destruct (filter_parents_ok g keep Hwf c2) as (copy & ps & -> & Q); [done|done|congruence|done| |].
      { intros u. rewrite S3 by congruence. by apply P1. }
      exists copy. split_and!; [done|apply Q|apply Q|apply Q| |].
      + intros u. rewrite (ps_nodes _ _ _ _ _ Q). apply K2.
      + intros u Hu. destruct (ps_done _ _ _ _ _ Q u) as (r & Hr & Hka).
        { apply elem_of_nodes. unfold isNode in *. by rewrite <-(ps_nodes _ _ _ _ _ Q). }
        destruct (ps_options _ _ _ _ _ Q) as (_ & _ & Hcc & _). unfold parent. rewrite Hcc, T3, O3, Hr.
        destruct r as [p|]; simpl; [|done]. rewrite decide_False; [done|].
        destruct (kept_above_tc g keep Hwf u (Some p) Hc Hka p eq_refl) as (_ & _ & Hpn). by destruct (wf_plain _ Hwf _ Hpn).
    - exists c2. split_and!; [done..|]. intros u Hu. unfold parent. rewrite T3, O3. apply ka_root. unfold parent. by rewrite Hc. }
  exists h. split_and!; [done|done|congruence..|unfold graph in *; congruence|done| | |done].
  - intros x. unfold edges. rewrite !elem_of_ovalues, Eo. split.
    + intros [e [He Hk]%Ho]. apply andb_true_iff in Hk as [??]. eauto.
    + intros ([e He] & Hv & Hw). exists e. apply Ho. by rewrite Hv, Hw.
  - intros x Hx. apply elem_of_edges in Hx; [|done]. unfold edgeOf, edgeById. rewrite Eo in Hx. rewrite El, (Hl _ _ Hx).
    f_equal. f_equal. f_equal. congruence.
Qed.
End CopyClaims.

(** ** The demo graph, with a box inside an outer box *)

Lemma demo_names : names_ok demo.
Proof. intros x _. right. vm_compute. reflexivity. Qed.

Lemma demo_parents : ∀ u, parent demo u ≠ Some ""%string.
Proof.
  intros u Hu. unfold parent in Hu. destruct (isCompound demo); [|done]. destruct (oget (parent_ demo) u) as [q|] eqn:Hq; [|done].
  case_decide; [done|]. injection Hu as ->. apply oget_elem_of in Hq. revert Hq. apply (bool_decide_unpack _). vm_compute. exact I.
Qed.

Lemma json_roundtrip_witness :
  wf demo ∧ names_ok demo ∧ (∀ u, parent demo u ≠ Some ""%string) ∧ ∃ h, read (write demo) = Ok h ∧ wf h ∧ same_graph demo h.
Proof.
  split_and!; [apply demo_wf|apply demo_names|apply demo_parents|].
  apply json_roundtrip; [apply demo_wf|apply demo_names|apply demo_parents].
Defined.

Definition no_box (v : string) : bool := negb (bool_decide (v = "box"%string)).

Lemma filterNodes_induced_witness :
  wf demo ∧ names_ok demo ∧ ∃ h, filterNodes demo no_box = Ok h ∧ wf h ∧ isNode h "b" ∧ ¬ isNode h "box" ∧
    kept_above demo no_box "b" (parent h "b") ∧ parent h "b" = Some "outer"%string.
Proof.
  split_and!; [apply demo_wf|apply demo_names|].
  destruct (filterNodes_induced demo no_box demo_wf demo_names) as (h & Hr & Hw & _ & _ & _ & _ & Hn & _ & _ & Hp).
  assert (isNode h "b") as Hb by (unfold isNode; rewrite Hn; vm_compute; eexists; reflexivity).
  exists h. split_and!; [exact Hr|exact Hw|exact Hb| |exact (Hp "b"%string Hb)|].
  - unfold isNode. rewrite Hn. vm_compute. intros [? ?]. discriminate.
  - vm_compute in Hr. injection Hr as <-. vm_compute. reflexivity.
Defined.
