(* ===== verification/GraphAlg.v ===== *)
(** * graphlib algorithms: topological sort and the cycle test (lib/alg in dagre.min.js)

    [topsort] walks the graph against its edges from every sink; [stack] holds the
    nodes whose call is still open.  The recursion depth is bounded by the number of nodes plus
    one because the open calls are on distinct nodes, which is the fuel given to [visit]. *)
From S2P Require Import Prelude JsObject Graphlib GraphWf GraphInv GraphQuery.

Section Topsort.
Context {L N E : Type}.
Implicit Types (g : Graph L N E) (v w : string).

Record topsort_state := TopState { visited : obj bool; stack : obj bool; results : list string }.

Definition CycleException : js_error := JsError "CycleException".

Fixpoint visit (fuel : nat) g (st : topsort_state) (node : string) : res topsort_state :=
  match fuel with
  | O => Throw (JsError "Maximum call stack size exceeded")
  | S fuel' =>
      if ohas (stack st) node then Throw CycleException
      else if ohas (visited st) node then Ok st
      else
        let st := TopState (oset (visited st) node true) (oset (stack st) node true) (results st) in
        st <-- res_fold (visit fuel' g) st (default [] (predecessors g node)) ;;
        Ok (TopState (visited st) (odel (stack st) node) (results st ++ [node]))
  end.

Definition topsort g : res (list string) :=
  st <-- res_fold (visit (S (length (nodes g))) g) (TopState [] [] []) (sinks g) ;;
  if decide (Z.of_nat (length (okeys (visited st))) = nodeCount g) then Ok (results st)
  else Throw CycleException.

(** [isAcyclic]: other exceptions are passed on. *)
Definition isAcyclic g : res bool :=
  match topsort g with
  | Ok _ => Ok true
  | Throw e => match e with
               | JsError s => if decide (s = "CycleException"%string) then Ok false else Throw e
               | TypeError => Throw e
               end
  end.

(** ** Correctness *)

(** There is an edge from [u] to [v]. *)
Definition arrow g (u v : string) : Prop := ∃ x, x ∈ edges g ∧ ev x = u ∧ ew x = v.
Definition acyclic g : Prop := ∀ v, ¬ tc (arrow g) v v.

(** Every node comes after the nodes that have an edge to it. *)
Definition topological g (l : list string) : Prop :=
  ∀ pre v post, l = pre ++ v :: post → ∀ u, arrow g u v → u ∈ pre.

Lemma arrow_nodes g u v : wf g → arrow g u v → isNode g u ∧ isNode g v.
Proof. intros Hwf (x & Hx & <- & <-). by apply edges_nodes. Qed.

Lemma elem_of_preds g u v :
  wf g → isNode g v → u ∈ default [] (predecessors g v) ↔ arrow g u v.
Proof.
  intros Hwf Hv. destruct (predecessors_spec g v Hwf Hv) as (l & -> & _ & Hl). simpl. rewrite Hl.
  split; intros (x & ? & ? & ?); exists x; auto.
Qed.

Record top_inv g (st : topsort_state) : Prop := {
  ti_visited : ∀ v, is_Some (oget (visited st) v) ↔ v ∈ results st ∨ is_Some (oget (stack st) v);
  ti_disjoint : ∀ v, v ∈ results st → oget (stack st) v = None;
  ti_owf : owf (stack st) ∧ owf (visited st);
  ti_nodes : ∀ v, is_Some (oget (visited st) v) → isNode g v;
  ti_nodup : NoDup (results st);
  ti_topo : topological g (results st)
}.

(** What an uninterrupted call on [node] does to the state. *)
Record top_step g (st : topsort_state) (ns : list string) (st' : topsort_state) : Prop := {
  ts_inv : top_inv g st';
  ts_stack : ∀ v, oget (stack st') v = oget (stack st) v;
  ts_len : length (stack st') = length (stack st);
  ts_results : ∃ new, results st' = results st ++ new;
  ts_done : ∀ v, v ∈ ns → v ∈ results st'
}.

Lemma stack_bound g st : wf g → top_inv g st → length (stack st) ≤ length (nodes g).
Proof.
  intros Hwf H. rewrite <-(length_fmap fst). apply submseteq_length, NoDup_submseteq; [apply H|].
  intros v Hv. apply elem_of_nodes, (ti_nodes _ _ H), (ti_visited _ _ H). right. by apply oget_keys.
Qed.

(** Opening a call on a new node. *)
Definition opened (st : topsort_state) (node : string) : topsort_state :=
  TopState (oset (visited st) node true) (oset (stack st) node true) (results st).

Lemma opened_inv g st node :
  top_inv g st → isNode g node → oget (visited st) node = None → top_inv g (opened st node).
Proof.
  intros H Hn Hv. unfold opened. split; simpl.
  - intros v. rewrite !oget_oset. destruct (decide (node = v)) as [->|].
    + split; [eauto|]. intros _. eauto.
    + apply H.
  - intros v Hr. rewrite oget_oset. destruct (decide (node = v)) as [->|]; [|by apply H].
    assert (is_Some (oget (visited st) v)) as [? ?] by (apply H; by left). congruence.
  - split; apply owf_oset, H.
  - intros v. rewrite oget_oset. destruct (decide (node = v)) as [->|]; [done|apply H].
  - apply H.
  - apply H.
Qed.

Lemma topological_snoc g l v :
  topological g l → (∀ u, arrow g u v → u ∈ l) → topological g (l ++ [v]).
Proof.
  intros Hl Hv pre x post Heq u Hu. destruct (decide (post = [])) as [->|Hp].
  - apply app_inj_tail in Heq as [-> ->]. by apply Hv.
  - destruct (exists_last Hp) as (post' & y & ->). rewrite app_comm_cons, app_assoc in Heq.
    apply app_inj_tail in Heq as [-> _]. by eapply Hl.
Qed.

(** Closing the call once all predecessors are in the result. *)
Lemma close_step g st node st1 :
  wf g → top_inv g st → isNode g node → oget (visited st) node = None →
  top_step g (opened st node) (default [] (predecessors g node)) st1 →
  top_step g st [node] (TopState (visited st1) (odel (stack st1) node) (results st1 ++ [node])).
Proof.
  intros Hwf Hinv Hn Hv [H1 Hst Hlen [new Hnew] Hdone].
  assert (oget (stack st1) node = Some true) as Hin by (rewrite Hst; apply oget_oset_eq).
  assert (oget (stack st) node = None) as Hout.
  { apply eq_None_not_Some. intros Hs. assert (is_Some (oget (visited st) node)) as [? ?] by (apply Hinv; by right). congruence. }
  assert (node ∉ results st1) as Hnr by (intros Hr; rewrite (ti_disjoint _ _ H1 _ Hr) in Hin; done).
  split; simpl; [split; simpl| | | |].
  - intros v. rewrite (ti_visited _ _ H1 v), elem_of_app, list_elem_of_singleton, oget_odel.
    destruct (decide (node = v)) as [->|]; [rewrite Hin; naive_solver|]. naive_solver.
  - intros v [Hr| ->%list_elem_of_singleton]%elem_of_app; [|apply oget_odel_eq].
    rewrite oget_odel. case_decide; [done|by apply H1].
  - split; [apply owf_odel|]; apply H1.
  - apply H1.
  - apply NoDup_app. split_and!; [apply H1| |apply NoDup_singleton]. intros v ? ->%list_elem_of_singleton. done.
  - apply topological_snoc; [apply H1|]. intros u Hu. apply Hdone. by apply elem_of_preds.
  - intros v. rewrite oget_odel. destruct (decide (node = v)) as [->|Hne]; [done|].
    rewrite Hst. by apply oget_oset_ne.
  - pose proof (length_odel (stack st1) node true (proj1 (ti_owf _ _ H1)) Hin) as Hd.
    rewrite Hlen in Hd. unfold opened in Hd. simpl in Hd. rewrite length_oset_None in Hd by done. lia.
  - exists (new ++ [node]). rewrite Hnew. unfold opened. simpl. by rewrite app_assoc.
  - intros v ->%list_elem_of_singleton. set_solver.
Qed.

Lemma top_step_refl g st ns : top_inv g st → (∀ v, v ∈ ns → v ∈ results st) → top_step g st ns st.
Proof. intros. split; [done..| |done]. exists []. by rewrite app_nil_r. Qed.

Lemma top_step_app g st ns1 st1 ns2 st2 :
  top_step g st ns1 st1 → top_step g st1 ns2 st2 → top_step g st (ns1 ++ ns2) st2.
Proof.
  intros [A1 A2 A3 [n1 A4] A5] [B1 B2 B3 [n2 B4] B5]. split; [done|..].
  - intros v. by rewrite B2.
  - congruence.
  - exists (n1 ++ n2). by rewrite B4, A4, app_assoc.
  - intros v [Hv|Hv]%elem_of_app; [|auto]. rewrite B4. set_solver.
Qed.

(** The outcome of a traversal: it completes, or the graph has a cycle. *)
Definition top_outcome g st ns (r : res topsort_state) : Prop :=
  match r with
  | Ok st' => top_step g st ns st'
  | Throw e => e = CycleException ∧ ∃ v, tc (arrow g) v v
  end.

(** The loop over predecessors, given that each call behaves. *)
Lemma visit_list g fuel st0 ps st1 done :
  top_step g st0 done st1 →
  (∀ st u, u ∈ ps → top_inv g st → (∀ v, oget (stack st) v = oget (stack st0) v) →
     length (stack st) = length (stack st0) → top_outcome g st [u] (visit fuel g st u)) →
  top_outcome g st0 (done ++ ps) (res_fold (visit fuel g) st1 ps).
Proof.
  revert st1 done. induction ps as [|u ps IH]; intros st1 done Hst1 Hcall; simpl; [by rewrite app_nil_r|].
  pose proof (Hcall st1 u) as Hone. destruct (visit fuel g st1 u) as [st2|e]; simpl.
  - replace (done ++ u :: ps) with ((done ++ [u]) ++ ps) by (by rewrite <-app_assoc). apply IH.
    + eapply top_step_app; [done|]. apply Hone; [by left|apply Hst1..].
    + intros st w Hw. apply Hcall. by right.
  - apply Hone; [by left|apply Hst1..].
Qed.

Lemma visit_spec g fuel st node :
  wf g → top_inv g st → isNode g node →
  (∀ s, is_Some (oget (stack st) s) → tc (arrow g) node s) →
  length (nodes g) - length (stack st) < fuel →
  top_outcome g st [node] (visit fuel g st node).
Proof.
  intros Hwf. revert st node. induction fuel as [|fuel IH]; intros st node Hinv Hn Hpath Hf; [lia|].
  cbn [visit]. destruct (ohas (stack st) node) eqn:Hs.
  { apply ohas_true in Hs. simpl. eauto. }
  apply ohas_false in Hs. destruct (ohas (visited st) node) eqn:Hv.
  { apply ohas_true in Hv. apply top_step_refl; [done|]. intros v ->%list_elem_of_singleton.
    apply (ti_visited _ _ Hinv) in Hv as [?|[? ?]]; [done|congruence]. }
  apply ohas_false in Hv. fold (opened st node).
  pose proof (opened_inv g st node Hinv Hn Hv) as Hopen.
  assert (length (stack (opened st node)) = S (length (stack st))) as Hlen
    by (unfold opened; simpl; by rewrite length_oset_None).
  pose proof (stack_bound g _ Hwf Hopen) as Hb.
  assert (top_outcome g (opened st node) (default [] (predecessors g node))
    (res_fold (visit fuel g) (opened st node) (default [] (predecessors g node)))) as Hloop.
  { apply (visit_list g fuel _ _ _ []).
    - apply top_step_refl; [done|]. by intros v ?%elem_of_nil.
    - intros st1 u Hu%elem_of_preds Hi Hst Hl; [|done..]. destruct (arrow_nodes g u node Hwf Hu) as [Hun _].
      apply IH; [done..| |lia]. intros s. rewrite Hst. unfold opened. simpl. rewrite oget_oset. case_decide as Hns.
      + subst. intros _. by apply tc_once.
      + intros Hss. eapply tc_l; [done|]. by apply Hpath. }
  destruct (res_fold (visit fuel g) (opened st node) (default [] (predecessors g node))) as [st1|e]; simpl in *;
    [by apply close_step|done].
Qed.

(** In a graph without cycles every node is reached from a source. *)
Lemma reach_source g v : wf g → acyclic g → isNode g v → ∃ s, s ∈ sources g ∧ rtc (arrow g) s v.
Proof.
  intros Hwf Hac Hv.
  assert (∀ k u, isNode g u → (∃ n, nsteps (arrow g) n u v ∧ length (nodes g) - n < k) →
    ∃ s, s ∈ sources g ∧ rtc (arrow g) s u) as Hg.
  { induction k as [|k IH]; intros u Hu (n & Hn & Hk); [lia|].
    destruct (decide (u ∈ sources g)) as [Hs|Hs]; [by eauto using rtc_refl|].
    destruct (inEdges_spec g u Hwf Hu) as ([|x l] & _ & _ & Hl).
    { destruct Hs. apply elem_of_sources; [done|]. split; [done|]. intros x Hx Hxu.
      assert (x ∈ []) as ?%elem_of_nil; [|done]. by apply Hl. }
    assert (arrow g (ev x) u) as Hux by (exists x; split; [|split; [done|]]; apply Hl; by left).
    destruct (IH (ev x)) as (s & Hs1 & Hs2); [by apply (arrow_nodes g _ u)| |exists s; split; [done|by eapply rtc_r]].
    exists (S n). split; [by eapply nsteps_l|].
    assert (S n ≤ length (nodes g)); [|lia].
    eapply (acyclic_nsteps_bound (arrow g) (nodes g)); [exact Hac| |by eapply nsteps_l].
    intros a b Hab. by apply elem_of_nodes, (arrow_nodes g a b). }
  apply (Hg (S (length (nodes g))) v Hv). exists 0. split; [constructor|lia].
Qed.

(** In a graph without cycles every node has a path to a sink. *)
Lemma reach_sink g v : wf g → acyclic g → isNode g v → ∃ s, s ∈ sinks g ∧ rtc (arrow g) v s.
Proof.
  intros Hwf Hac Hv.
  assert (∀ k u, isNode g u → (∃ n, nsteps (arrow g) n v u ∧ length (nodes g) - n < k) →
    ∃ s, s ∈ sinks g ∧ rtc (arrow g) u s) as Hg.
  { induction k as [|k IH]; intros u Hu (n & Hn & Hk); [lia|].
    destruct (decide (u ∈ sinks g)) as [Hs|Hs]; [by eauto using rtc_refl|].
    destruct (outEdges_spec g u Hwf Hu) as ([|x l] & _ & _ & Hl).
    { destruct Hs. apply elem_of_sinks; [done|]. split; [done|]. intros x Hx Hxu.
      assert (x ∈ []) as ?%elem_of_nil; [|done]. by apply Hl. }
    assert (arrow g u (ew x)) as Hux by (exists x; split; [|split; [|done]]; apply Hl; by left).
    destruct (IH (ew x)) as (s & Hs1 & Hs2); [by apply (arrow_nodes g u)| |exists s; split; [done|by eapply rtc_l]].
    exists (S n). split; [by eapply nsteps_r|].
    assert (S n ≤ length (nodes g)); [|lia].
    eapply (acyclic_nsteps_bound (arrow g) (nodes g)); [exact Hac| |by eapply nsteps_r].
    intros a b Hab. by apply elem_of_nodes, (arrow_nodes g a b). }
  apply (Hg (S (length (nodes g))) v Hv). exists 0. split; [constructor|lia].
Qed.

(** A topologically ordered list has no cycle through its elements. *)
Lemma topological_before g l u v :
  NoDup l → topological g l → tc (arrow g) u v → v ∈ l → ∃ pre post, l = pre ++ v :: post ∧ u ∈ pre.
Proof.
  intros Hnd Hl Htc. induction Htc as [u v Huv|u w v Huw _ IH]; intros Hv.
  - apply list_elem_of_split in Hv as (pre & post & ->). exists pre, post. split; [done|]. by eapply Hl.
  - destruct (IH Hv) as (pre & post & -> & Hw). exists pre, post. split; [done|].
    apply list_elem_of_split in Hw as (p1 & p2 & ->). apply elem_of_app. left.
    eapply Hl; [|exact Huw]. by rewrite <-app_assoc.
Qed.

Lemma topological_acyclic g l :
  wf g → NoDup l → topological g l → (∀ v, isNode g v → v ∈ l) → acyclic g.
Proof.
  intros Hwf Hnd Hl Hall v Hv. assert (isNode g v) as Hn.
  { inversion Hv as [? ? Ha|? ? ? Ha _]; subst; by apply (arrow_nodes _ _ _ Hwf) in Ha as [??]. }
  destruct (topological_before g l v v Hnd Hl Hv (Hall v Hn)) as (pre & post & -> & Hin).
  apply NoDup_app in Hnd as (_ & Hnd & _). apply (Hnd v Hin). by left.
Qed.

Lemma top_inv_init g : top_inv g (TopState [] [] []).
Proof.
  split; simpl.
  - intros v. split; [by intros [??]|]. intros [?%elem_of_nil|[??]]; done.
  - by intros v ?%elem_of_nil.
  - split; constructor.
  - by intros v [??].
  - constructor.
  - intros pre v post Heq. by destruct pre.
Qed.

(** Everything with a path into a finished node is finished. *)
Lemma results_ancestors g l u v : topological g l → rtc (arrow g) u v → v ∈ l → u ∈ l.
Proof.
  intros Hl Hr. induction Hr as [|u w v Huw _ IH]; intros Hv; [done|].
  specialize (IH Hv). apply list_elem_of_split in IH as (pre & post & ->).
  apply elem_of_app. left. by eapply Hl.
Qed.

Lemma topsort_spec g :
  wf g →
  match topsort g with
  | Ok l => l ≡ₚ nodes g ∧ topological g l ∧ acyclic g
  | Throw e => e = CycleException ∧ ¬ acyclic g
  end.
Proof.
  intros Hwf. unfold topsort.
  assert (top_outcome g (TopState [] [] []) (sinks g)
    (res_fold (visit (S (length (nodes g))) g) (TopState [] [] []) (sinks g))) as Hrun.
  { apply (visit_list g _ _ _ _ []).
    - apply top_step_refl; [apply top_inv_init|]. by intros v ?%elem_of_nil.
    - intros st v Hv Hi Hst Hl. simpl in Hst, Hl. apply visit_spec; [done..| | |rewrite Hl; simpl; lia].
      + by apply elem_of_sinks in Hv as [? _].
      + intros s. rewrite Hst. by intros [??]. }
  destruct (res_fold _ _ (sinks g)) as [st|e]; simpl in *.
  - destruct Hrun as [Hi Hst _ _ Hdone]. simpl in Hst.
    assert (∀ v, is_Some (oget (visited st) v) ↔ v ∈ results st) as Hvis.
    { intros v. rewrite (ti_visited _ _ Hi), Hst. split; [intros [?|[??]]; done|by left]. }
    assert (results st ⊆ nodes g) as Hsub.
    { intros v Hv. apply elem_of_nodes, (ti_nodes _ _ Hi). by apply Hvis. }
    assert (length (okeys (visited st)) = length (results st)) as Hlen.
    { apply Permutation_length, NoDup_Permutation; [apply NoDup_okeys, Hi|apply Hi|].
      intros v. by rewrite elem_of_okeys. }
    rewrite Hlen, nodeCount_spec by done. case_decide as Hc.
    + assert (results st ≡ₚ nodes g) as Hperm.
      { apply submseteq_length_Permutation; [|lia]. apply NoDup_submseteq; [apply Hi|done]. }
      split_and!; [done|apply Hi|]. apply (topological_acyclic g (results st)); [done|apply Hi|apply Hi|].
      intros v Hv. rewrite Hperm. by apply elem_of_nodes.
    + split; [done|]. intros Hac. apply Hc. f_equal. apply Permutation_length.
      apply NoDup_Permutation; [apply Hi|by apply NoDup_nodes|]. intros v. split; [apply Hsub|].
      intros Hv%elem_of_nodes. destruct (reach_sink g v Hwf Hac Hv) as (s & Hs & Hr).
      eapply results_ancestors; [apply Hi|exact Hr|by apply Hdone].
  - destruct Hrun as [-> [v Hv]]. split; [done|]. intros Hac. by apply (Hac v).
Qed.
End Topsort.
