(* ===== verification/GraphDfs.v ===== *)
(** * graphlib algorithms: depth-first traversals and connected components

    [doDfs] is written once over a navigation function; [dfs] (pre- and postorder)
    and [components] instantiate it.  The fuel is the depth of the recursion, at most
    one more than the number of nodes, because an open call has marked its node. *)
From S2P Require Import Prelude JsObject Graphlib GraphWf GraphInv GraphQuery GraphAlg.

Record dfs_state := DfsState { dvisited : obj bool; acc : list string }.

(** [doDfs(g, v, postorder, visited, navigation, acc)]. *)
Fixpoint doDfs (fuel : nat) (navigation : string → list string) (postorder : bool)
    (st : dfs_state) (v : string) : res dfs_state :=
  match fuel with
  | O => Throw (JsError "Maximum call stack size exceeded")
  | S fuel' =>
      if ohas (dvisited st) v then Ok st
      else
        let st := DfsState (oset (dvisited st) v true) (if postorder then acc st else acc st ++ [v]) in
        st <-- res_fold (doDfs fuel' navigation postorder) st (navigation v) ;;
        Ok (DfsState (dvisited st) (if postorder then acc st ++ [v] else acc st))
  end.

Section Dfs.
Context {L N E : Type}.
Implicit Types (g : Graph L N E).

(** [(g.isDirected() ? g.successors : g.neighbors).bind(g)]. *)
Definition navigation g (v : string) : list string :=
  default [] (if isDirected g then successors g v else neighbors g v).

Definition dfs_root g (postorder : bool) (st : dfs_state) (v : string) : res dfs_state :=
  if hasNode g v then doDfs (S (length (nodes g))) (navigation g) postorder st v
  else Throw (JsError ("Graph does not have node: " +:+ v)).

Definition dfs g (vs : list string) (postorder : bool) : res (list string) :=
  st <-- res_fold (dfs_root g postorder) (DfsState [] []) vs ;; Ok (acc st).

Definition preorder g vs := dfs g vs false.
Definition postorder g vs := dfs g vs true.

(** The inner [dfs] of [components] follows successors, then predecessors. *)
Definition both_ways g (v : string) : list string :=
  default [] (successors g v) ++ default [] (predecessors g v).

Definition components_step g (st : obj bool * list (list string)) (v : string) : res (obj bool * list (list string)) :=
  r <-- doDfs (S (length (nodes g))) (both_ways g) false (DfsState st.1 []) v ;;
  Ok (dvisited r, match acc r with [] => st.2 | cmpt => st.2 ++ [cmpt] end).

Definition components g : res (list (list string)) :=
  r <-- res_fold (components_step g) ([], []) (nodes g) ;; Ok r.2.
End Dfs.

(** ** The traversal *)

Section Traversal.
Context (nav : string → list string) (dom : list string) (post : bool).
Context (Hdom : ∀ v w, v ∈ dom → w ∈ nav v → w ∈ dom).

Definition vis (st : dfs_state) (v : string) : Prop := is_Some (oget (dvisited st) v).
Definition nav_step (v w : string) : Prop := w ∈ nav v.

Record dfs_ok (st : dfs_state) : Prop := {
  do_owf : owf (dvisited st);
  do_dom : ∀ v, vis st v → v ∈ dom
}.

(** The effect of visiting the roots [vs]. *)
Record dfs_step (st : dfs_state) (vs : list string) (st' : dfs_state) : Prop := {
  ds_ok : dfs_ok st';
  ds_mono : ∀ v, vis st v → vis st' v;
  ds_roots : ∀ v, v ∈ vs → vis st' v;
  ds_new : ∀ w, vis st' w → ¬ vis st w → (∃ v, v ∈ vs ∧ rtc nav_step v w) ∧ ∀ u, u ∈ nav w → vis st' u;
  ds_acc : ∃ new, acc st' = acc st ++ new ∧ NoDup new ∧ ∀ w, w ∈ new ↔ vis st' w ∧ ¬ vis st w;
  ds_len : length (dvisited st) ≤ length (dvisited st')
}.

#[local] Instance vis_dec st v : Decision (vis st v).
Proof. unfold vis. apply _. Defined.

Lemma dfs_bound st : dfs_ok st → length (dvisited st) ≤ length dom.
Proof.
  intros H. rewrite <-(length_fmap fst). apply submseteq_length, NoDup_submseteq; [apply H|].
  intros v Hv. apply (do_dom _ H). by apply oget_keys.
Qed.

Lemma dfs_step_refl st : dfs_ok st → dfs_step st [] st.
Proof.
  intros H. split; [done|done|by intros v ?%elem_of_nil|done| |done].
  exists []. rewrite app_nil_r. split_and!; [done|constructor|]. intros w. split; [by intros ?%elem_of_nil|by intros []].
Qed.

Lemma dfs_step_app st vs1 st1 vs2 st2 :
  dfs_step st vs1 st1 → dfs_step st1 vs2 st2 → dfs_step st (vs1 ++ vs2) st2.
Proof.
  intros [A1 A2 A3 A4 (n1 & A5 & A6 & A7) A8] [B1 B2 B3 B4 (n2 & B5 & B6 & B7) B8]. split; [done|auto|..].
  - intros v [?|?]%elem_of_app; auto.
  - intros w Hw Hn. destruct (decide (vis st1 w)) as [H1|H1].
    + destruct (A4 w H1 Hn) as [(v & ? & ?) Hu]. split; [exists v; set_solver|auto].
    + destruct (B4 w Hw H1) as [(v & ? & ?) Hu]. split; [exists v; set_solver|done].
  - exists (n1 ++ n2). split_and!; [by rewrite B5, A5, app_assoc| |].
    + apply NoDup_app. split_and!; [done| |done]. intros w [Hw _]%A7 [_ Hn]%B7. done.
    + intros w. rewrite elem_of_app, A7, B7. destruct (decide (vis st1 w)); naive_solver.
  - lia.
Qed.

Definition marked (st : dfs_state) (v : string) : dfs_state :=
  DfsState (oset (dvisited st) v true) (if post then acc st else acc st ++ [v]).

Lemma vis_marked st v w : vis (marked st v) w ↔ w = v ∨ vis st w.
Proof.
  unfold vis, marked. simpl. rewrite oget_oset. case_decide; [subst; naive_solver|]. naive_solver.
Qed.

(** A node that was not visited: mark it, traverse its neighbours, record it. *)
Lemma dfs_step_node st v st1 :
  dfs_ok st → ¬ vis st v → dfs_step (marked st v) (nav v) st1 →
  dfs_step st [v] (DfsState (dvisited st1) (if post then acc st1 ++ [v] else acc st1)).
Proof.
  intros Hst Hv [A1 A2 A3 A4 (new & A5 & A6 & A7) A8].
  assert (∀ w, vis (DfsState (dvisited st1) (if post then acc st1 ++ [v] else acc st1)) w ↔ vis st1 w) as Hvis by done.
  assert (vis st1 v) as Hv1 by (apply A2, vis_marked; by left).
  assert (v ∉ new) as Hnew by (rewrite A7, vis_marked; naive_solver).
  assert (∀ w, (w = v ∨ w ∈ new) ↔ vis st1 w ∧ ¬ vis st w) as Hel.
  { intros w. rewrite A7, vis_marked. destruct (decide (w = v)) as [->|]; naive_solver. }
  split; [split; apply A1|..].
  - intros w Hw. apply A2, vis_marked. by right.
  - intros w ->%list_elem_of_singleton. done.
  - intros w Hw Hn. rewrite Hvis in Hw. destruct (decide (w = v)) as [->|Hwv].
    + split; [exists v; split; [by left|done]|]. intros u Hu. apply Hvis. by apply A3.
    + destruct (A4 w Hw) as [(u & Hu & Hr) Hs]; [rewrite vis_marked; naive_solver|].
      split; [|done]. exists v. split; [by left|]. by eapply rtc_l.
  - change (acc st1 = (if post then acc st else acc st ++ [v]) ++ new) in A5.
    clear A1 A2 A3 A4 A8. destruct post; cbn [acc].
    + exists (new ++ [v]). rewrite A5, <-app_assoc. split_and!; [done| |].
      * apply NoDup_app. split_and!; [done| |apply NoDup_singleton]. intros w ? ->%list_elem_of_singleton. done.
      * intros w. etrans; [|apply Hel]. set_solver.
    + exists (v :: new). rewrite A5, <-app_assoc. split_and!; [done|by constructor|].
      intros w. etrans; [|apply Hel]. set_solver.
  - simpl. unfold marked in A8. simpl in A8. apply eq_None_not_Some in Hv. rewrite length_oset_None in A8 by done. lia.
Qed.

Lemma dfs_list fuel st vs :
  dfs_ok st →
  (∀ st1 v, v ∈ vs → dfs_ok st1 → length (dvisited st) ≤ length (dvisited st1) →
     ∃ st2, doDfs fuel nav post st1 v = Ok st2 ∧ dfs_step st1 [v] st2) →
  ∃ st', res_fold (doDfs fuel nav post) st vs = Ok st' ∧ dfs_step st vs st'.
Proof.
  intros Hst Hcall. apply (res_fold_inv _ (λ done st', dfs_step st done st')); [by apply dfs_step_refl|].
  intros done v rest st1 Hvs H1. destruct (Hcall st1 v) as (st2 & Hr & H2); [rewrite Hvs; set_solver|apply H1|apply H1|].
  exists st2. split; [done|]. by eapply dfs_step_app.
Qed.

Lemma doDfs_spec fuel st v :
  dfs_ok st → v ∈ dom → length dom - length (dvisited st) < fuel →
  ∃ st', doDfs fuel nav post st v = Ok st' ∧ dfs_step st [v] st'.
Proof.
  revert st v. induction fuel as [|fuel IH]; intros st v Hst Hv Hf; [lia|].
  cbn [doDfs]. destruct (ohas (dvisited st) v) eqn:Hvis.
  { apply ohas_true in Hvis. exists st. split; [done|].
    destruct (dfs_step_refl st Hst) as [? ? _ ? ? ?]. split; [done|done| |naive_solver|done|done].
    intros w ->%list_elem_of_singleton. done. }
  apply ohas_false in Hvis. fold (marked st v).
  assert (dfs_ok (marked st v)) as Hm.
  { split; [apply owf_oset, Hst|]. intros w [->|?]%vis_marked; [done|by apply Hst]. }
  assert (length (dvisited (marked st v)) = S (length (dvisited st))) as Hlen by (simpl; by rewrite length_oset_None).
  pose proof (dfs_bound _ Hm).
  destruct (dfs_list fuel (marked st v) (nav v) Hm) as (st1 & Hr & H1).
  { intros st1 w Hw H1 Hl. apply IH; [done|by eapply Hdom|lia]. }
  rewrite Hr. simpl. eexists. split; [done|]. apply dfs_step_node; [done| |done].
  unfold vis. rewrite Hvis. by intros [??].
Qed.

(** From an empty state the traversal visits exactly what can be reached. *)
Lemma dfs_exact st' vs :
  dfs_step (DfsState [] []) vs st' →
  NoDup (acc st') ∧ ∀ w, w ∈ acc st' ↔ ∃ v, v ∈ vs ∧ rtc nav_step v w.
Proof.
  intros [H1 _ H3 H4 (new & H5 & H6 & H7) _]. simpl in H5. subst new. split; [done|].
  assert (∀ w, ¬ vis (DfsState [] []) w) as Hno by (intros w [??]; done).
  intros w. rewrite H7. split; [intros [Hw Hn]; by apply H4|].
  intros (v & Hv & Hr). split; [|done]. apply H3 in Hv.
  induction Hr as [|v u w Hvu _ IH]; [done|]. apply IH. by apply (H4 v).
Qed.
End Traversal.

(** ** [dfs] *)

Section Claims.
Context {L N E : Type}.
Implicit Types (g : Graph L N E).

(** One step of the navigation: along edges, in either direction when undirected. *)
Definition walks g (u v : string) : Prop :=
  if isDirected g then arrow g u v else arrow g u v ∨ arrow g v u.
Definition adjacent g (u v : string) : Prop := arrow g u v ∨ arrow g v u.

Lemma elem_of_succs g u v : wf g → isNode g v → u ∈ default [] (successors g v) ↔ arrow g v u.
Proof.
  intros Hwf Hv. destruct (successors_spec g v Hwf Hv) as (l & -> & _ & Hl). simpl. rewrite Hl.
  split; intros (x & ? & ? & ?); exists x; auto.
Qed.

Lemma elem_of_union l1 l2 (u : string) : u ∈ Graphlib.union l1 l2 ↔ u ∈ l1 ∨ u ∈ l2.
Proof. unfold Graphlib.union. by rewrite elem_of_reverse, elem_of_remove_dups, elem_of_reverse, elem_of_app. Qed.

Lemma elem_of_navigation g u v : wf g → isNode g v → u ∈ navigation g v ↔ walks g v u.
Proof.
  intros Hwf Hv. unfold navigation, walks. destruct (isDirected g); [by apply elem_of_succs|].
  pose proof (elem_of_succs g u v Hwf Hv) as Hs. pose proof (elem_of_preds g u v Hwf Hv) as Hp.
  unfold neighbors. destruct (predecessors_spec g v Hwf Hv) as (ps & Hps & _). rewrite Hps in *. simpl in *.
  rewrite elem_of_union, Hs, Hp. tauto.
Qed.

Lemma elem_of_both_ways g u v : wf g → isNode g v → u ∈ both_ways g v ↔ adjacent g v u.
Proof.
  intros Hwf Hv. unfold both_ways. by rewrite elem_of_app, elem_of_succs, elem_of_preds.
Qed.

Lemma walks_node g u v : wf g → walks g u v → isNode g u ∧ isNode g v.
Proof.
  intros Hwf. unfold walks. destruct (isDirected g); [apply arrow_nodes, Hwf|].
  intros [H|H]; apply (arrow_nodes _ _ _ Hwf) in H as [??]; done.
Qed.

Lemma rtc_on_nodes g (nav : string → list string) (R : string → string → Prop) v w :
  (∀ u x, isNode g u → x ∈ nav u ↔ R u x) → (∀ u x, R u x → isNode g u ∧ isNode g x) →
  isNode g v → rtc (nav_step nav) v w ↔ rtc R v w.
Proof.
  intros Hnav HR Hv. split; intros Hr.
  - induction Hr as [|v u w Hvu _ IH]; [done|]. apply Hnav in Hvu; [|done].
    eapply rtc_l; [done|]. apply IH. by apply (HR v u).
  - induction Hr as [|v u w Hvu _ IH]; [done|]. eapply rtc_l; [by apply Hnav|]. apply IH. by apply (HR v u).
Qed.

Lemma dfs_spec g vs post :
  wf g → (∀ v, v ∈ vs → isNode g v) →
  ∃ l, dfs g vs post = Ok l ∧ NoDup l ∧ ∀ w, w ∈ l ↔ ∃ v, v ∈ vs ∧ rtc (walks g) v w.
Proof.
  intros Hwf Hvs. unfold dfs.
  assert (∀ v w, v ∈ nodes g → w ∈ navigation g v → w ∈ nodes g) as Hdom.
  { intros v w Hv%elem_of_nodes Hw%elem_of_navigation; [|done..]. by apply elem_of_nodes, (walks_node g v w). }
  destruct (res_fold_inv (dfs_root g post) (λ done st, dfs_step (navigation g) (nodes g) (DfsState [] []) done st) vs
    (DfsState [] [])) as (st & -> & Hst).
  - apply dfs_step_refl. split; [constructor|]. by intros v [??].
  - intros done v rest st Heq Hst. assert (isNode g v) as Hv by (apply Hvs; rewrite Heq; set_solver).
    unfold dfs_root. rewrite (proj2 (hasNode_true g v)) by done.
    destruct (doDfs_spec (navigation g) (nodes g) post Hdom (S (length (nodes g))) st v) as (st' & -> & Hst');
      [apply Hst|by apply elem_of_nodes|lia|]. exists st'. split; [done|]. by eapply dfs_step_app.
  - simpl. eexists. split; [done|]. destruct (dfs_exact _ _ _ _ Hst) as [Hnd Hel]. split; [done|].
    intros w. rewrite Hel. split; intros (v & Hv & Hr); exists v; (split; [done|]);
      eapply (rtc_on_nodes g (navigation g) (walks g)); eauto using walks_node; intros; by apply elem_of_navigation.
Qed.

Lemma dfs_missing g vs post v :
  wf g → v ∈ vs → ¬ isNode g v →
  ∃ u, u ∈ vs ∧ ¬ isNode g u ∧ dfs g vs post = Throw (JsError ("Graph does not have node: " +:+ u)).
Proof.
  intros Hwf Hv Hn.
  assert (∃ pre u rest, vs = pre ++ u :: rest ∧ ¬ isNode g u ∧ ∀ w, w ∈ pre → isNode g w) as (pre & u & rest & -> & Hu & Hpre).
  { clear -Hv Hn. induction vs as [|x vs IH]; [by apply elem_of_nil in Hv|].
    destruct (hasNode g x) eqn:Hx.
    - apply hasNode_true in Hx. apply elem_of_cons in Hv as [->|Hv]; [done|].
      destruct (IH Hv) as (pre & u & rest & -> & Hu & Hpre). exists (x :: pre), u, rest.
      split_and!; [done|done|]. intros w [->|?]%elem_of_cons; auto.
    - apply hasNode_false in Hx. exists [], x, vs. split_and!; [done|done|]. by intros w ?%elem_of_nil. }
  exists u. split_and!; [set_solver|done|]. destruct (dfs_spec g pre post Hwf Hpre) as (l & Hl & _).
  unfold dfs in *. rewrite res_fold_app. destruct (res_fold (dfs_root g post) (DfsState [] []) pre) as [st|]; [|done].
  simpl. unfold dfs_root at 1. by rewrite (proj2 (hasNode_false g u)).
Qed.

(** ** [components] *)

Lemma adjacent_sym g u v : adjacent g u v → adjacent g v u.
Proof. unfold adjacent. tauto. Qed.

Lemma connected_sym g u v : rtc (adjacent g) u v → rtc (adjacent g) v u.
Proof.
  intros Hr. induction Hr as [|u w v Huw _ IH]; [done|].
  eapply rtc_r; [done|]. by apply adjacent_sym.
Qed.

Lemma adjacent_node g u v : wf g → adjacent g u v → isNode g u ∧ isNode g v.
Proof. intros Hwf [H|H]; apply (arrow_nodes _ _ _ Hwf) in H as [??]; done. Qed.

Definition class_of g (c : list string) : Prop :=
  c ≠ [] ∧ ∀ u w, u ∈ c → w ∈ c ↔ rtc (adjacent g) u w.

Record comp_inv g (done : list string) (st : obj bool * list (list string)) : Prop := {
  ci_owf : owf st.1;
  ci_vis : ∀ v, is_Some (oget st.1 v) ↔ v ∈ concat st.2;
  ci_nodes : ∀ v, v ∈ concat st.2 → isNode g v;
  ci_nodup : NoDup (concat st.2);
  ci_class : ∀ c, c ∈ st.2 → class_of g c;
  ci_done : ∀ v, v ∈ done → v ∈ concat st.2
}.

(** The visited set is a union of classes, so it is closed under adjacency. *)
Lemma comp_closed g done st u w :
  comp_inv g done st → u ∈ concat st.2 → adjacent g u w → w ∈ concat st.2.
Proof.
  intros H (c & Hu & Hc)%elem_of_concat Ha. apply elem_of_concat. exists c. split; [|done].
  apply (proj2 (ci_class _ _ _ H c Hc) u w Hu). by apply rtc_once.
Qed.

Lemma concat_snoc {A} (ls : list (list A)) l : concat (ls ++ [l]) = concat ls ++ l.
Proof. rewrite concat_app. simpl. by rewrite app_nil_r. Qed.

(** A traversal from a state of [components] collects the class of its root. *)
Lemma fresh_class g done v st r :
  wf g → isNode g v → comp_inv g done st →
  dfs_step (both_ways g) (nodes g) (DfsState st.1 []) [v] r →
  (∀ u w, u ∈ acc r → w ∈ acc r ↔ rtc (adjacent g) u w) ∧
  (∀ w, vis r w ↔ w ∈ concat st.2 ∨ w ∈ acc r) ∧ (∀ w, w ∈ acc r → w ∉ concat st.2) ∧ NoDup (acc r).
Proof.
  intros Hwf Hv H [D1 D2 D3 D4 (new & D5 & D6 & D7) _]. simpl in D5. subst new.
  assert (∀ w, vis (DfsState st.1 []) w ↔ w ∈ concat st.2) as Hold by (intros w; apply (ci_vis _ _ _ H)).
  assert (∀ w, w ∈ acc r → rtc (adjacent g) v w) as Hreach.
  { intros w [Hw Hn]%D7. destruct (D4 w Hw Hn) as [(u & ->%list_elem_of_singleton & Hr) _].
    eapply (rtc_on_nodes g (both_ways g) (adjacent g)); eauto using adjacent_node. intros; by apply elem_of_both_ways. }
  assert (∀ u w, u ∈ acc r → adjacent g u w → w ∈ acc r) as Hclosed.
  { intros u w [Hu Hn]%D7 Ha. apply D7. split.
    - apply (D4 u Hu Hn). apply elem_of_both_ways; [done| |done]. by apply (adjacent_node g u w).
    - rewrite Hold in Hn |- *. intros Hw. apply Hn. eapply comp_closed; [done|done|]. by apply adjacent_sym. }
  split_and!; [| | |done].
  - intros u w Hu. split.
    + intros Hw. etrans; [apply connected_sym|]; by apply Hreach.
    + intros Hr. induction Hr as [|u x w Hux _ IH]; [done|]. apply IH. by eapply Hclosed.
  - intros w. rewrite D7, <-Hold. destruct (decide (is_Some (oget st.1 w))) as [Ho|Ho]; unfold vis in *; simpl in *.
    + split; [by left|]. intros _. by apply D2.
    + split; [by right|]. intros [?|[? _]]; done.
  - intros w [_ Hn]%D7. by rewrite <-Hold.
Qed.

Lemma elem_of_concat_opt (cs : list (list string)) r w :
  w ∈ concat (match acc r with [] => cs | cmpt => cs ++ [cmpt] end) ↔ w ∈ concat cs ∨ w ∈ acc r.
Proof.
  destruct (acc r) as [|x c]; [set_solver|]. by rewrite concat_snoc, elem_of_app.
Qed.

Lemma components_step_inv g done v st :
  wf g → isNode g v → comp_inv g done st →
  ∃ st', components_step g st v = Ok st' ∧ comp_inv g (done ++ [v]) st'.
Proof.
  intros Hwf Hv H. unfold components_step.
  destruct (doDfs_spec (both_ways g) (nodes g) false) with (fuel := S (length (nodes g))) (st := DfsState st.1 []) (v := v)
    as (r & -> & D).
  { intros a b Ha%elem_of_nodes Hb%elem_of_both_ways; [|done..]. by apply elem_of_nodes, (adjacent_node g a b). }
  { split; [apply H|]. intros w Hw. apply elem_of_nodes, (ci_nodes _ _ _ H). by apply (ci_vis _ _ _ H). }
  { by apply elem_of_nodes. }
  { simpl. lia. }
  destruct (fresh_class g done v st r Hwf Hv H D) as (Hclass & Hvis & Hnew & Hnd).
  simpl. eexists. split; [done|]. split; cbn [fst snd].
  - apply D.
  - intros w. rewrite elem_of_concat_opt. apply Hvis.
  - intros w. rewrite elem_of_concat_opt. intros Hw. apply elem_of_nodes, (do_dom _ _ (ds_ok _ _ _ _ _ D)), Hvis, Hw.
  - destruct (acc r) as [|x c]; [apply H|]. rewrite concat_snoc. apply NoDup_app.
    split_and!; [apply H| |done]. intros w Hw Hx. by apply (Hnew w).
  - intros c Hc. destruct (acc r) as [|x c']; [by apply (ci_class _ _ _ H)|].
    apply elem_of_app in Hc as [Hc| ->%list_elem_of_singleton]; [by apply (ci_class _ _ _ H)|done].
  - intros w Hw. apply elem_of_concat_opt. apply elem_of_app in Hw as [Hw| ->%list_elem_of_singleton].
    + left. by apply (ci_done _ _ _ H).
    + apply Hvis, (ds_roots _ _ _ _ _ D). by left.
Qed.

Lemma components_spec g :
  wf g → ∃ cs, components g = Ok cs ∧ concat cs ≡ₚ nodes g ∧ ∀ c, c ∈ cs → class_of g c.
Proof.
  intros Hwf. unfold components.
  destruct (res_fold_inv (components_step g) (λ done st, comp_inv g done st) (nodes g) ([], [])) as (st & -> & H).
  - split; simpl; [constructor| |by intros v ?%elem_of_nil|constructor|by intros c ?%elem_of_nil|by intros v ?%elem_of_nil].
    intros v. split; [by intros [??]|by intros ?%elem_of_nil].
  - intros done v rest st Heq Hst. apply components_step_inv; [done| |done].
    apply elem_of_nodes. rewrite Heq. set_solver.
  - simpl. eexists. split; [done|]. split; [|apply H]. apply NoDup_Permutation; [apply H|by apply NoDup_nodes|].
    intros v. split; [intros Hv; by apply elem_of_nodes, (ci_nodes _ _ _ H)|apply (ci_done _ _ _ H)].
Qed.
End Claims.
