(* ===== verification/PriorityQueue.v ===== *)
(** * graphlib: [PriorityQueue] (lib/data/priority-queue.js inside dagre.min.js)

    A binary heap in an array [_arr] whose slot 0 has the single child 1 and
    whose slot [i >= 1] has the children [2i] and [2i+1], together with the table
    [_keyIndices] from keys to slots.  The heap implements a finite map from keys
    to priorities: [pq_ops] and [pq_laws] state that interface as type classes, and the instance
    at the end of the file discharges them. *)
From S2P Require Import Prelude JsObject.

Record PQ := mkPQ { arr : list (string * ext); keyIndices : obj nat }.

Definition newPQ : PQ := mkPQ [] [].

Definition size (q : PQ) : nat := length (arr q).
Definition keys (q : PQ) : list string := (arr q).*1.
Definition has (q : PQ) (key : string) : bool := ohas (keyIndices q) key.

(** [None] is [undefined]. *)
Definition priority (q : PQ) (key : string) : res (option ext) :=
  match oget (keyIndices q) key with
  | Some index => x <-- of_option (arr q !! index) ;; Ok (Some x.2)
  | None => Ok None
  end.

Definition min (q : PQ) : res string :=
  match arr q with
  | [] => Throw (JsError "Queue underflow")
  | x :: _ => Ok x.1
  end.

(** [_swap(i, j)]. *)
Definition swap (q : PQ) (i j : nat) : res PQ :=
  origArrI <-- of_option (arr q !! i) ;;
  origArrJ <-- of_option (arr q !! j) ;;
  Ok (mkPQ (<[j := origArrI]> (<[i := origArrJ]> (arr q)))
           (oset (oset (keyIndices q) origArrJ.1 i) origArrI.1 j)).

(** The loop of [_decrease]; the index halves at each turn, so [index] turns
    are enough. *)
Fixpoint decrease_loop (fuel : nat) (q : PQ) (index : nat) (prio : ext) : res PQ :=
  match fuel with
  | O => Ok q
  | S fuel' =>
      if decide (index = 0) then Ok q
      else
        let parent := index / 2 in
        x <-- of_option (arr q !! parent) ;;
        if decide (ext_lt x.2 prio) then Ok q
        else q <-- swap q index parent ;; decrease_loop fuel' q parent prio
  end.

Definition decrease_at (q : PQ) (index : nat) : res PQ :=
  x <-- of_option (arr q !! index) ;; decrease_loop (S index) q index x.2.

Definition add (q : PQ) (key : string) (prio : ext) : res (bool * PQ) :=
  if has q key then Ok (false, q)
  else
    let index := length (arr q) in
    q <-- decrease_at (mkPQ (arr q ++ [(key, prio)]) (oset (keyIndices q) key index)) index ;;
    Ok (true, q).

Definition pr (l : list (string * ext)) (i : nat) : ext := default Inf (snd <$> l !! i).

(** [_heapify(i)]; the index grows at each call, so [length arr] calls are
    enough. *)
Fixpoint heapify (fuel : nat) (q : PQ) (i : nat) : res PQ :=
  match fuel with
  | O => Ok q
  | S fuel' =>
      let l := 2 * i in
      let r := l + 1 in
      let n := length (arr q) in
      if decide (l < n) then
        let largest := if decide (ext_lt (pr (arr q) l) (pr (arr q) i)) then l else i in
        let largest :=
          if decide (r < n) then
            if decide (ext_lt (pr (arr q) r) (pr (arr q) largest)) then r else largest
          else largest in
        if decide (largest ≠ i) then
          q <-- swap q i largest ;; heapify fuel' q largest
        else Ok q
      else Ok q
  end.

Definition removeMin (q : PQ) : res (string * PQ) :=
  match arr q with
  | [] => Throw TypeError
  | _ =>
      q <-- swap q 0 (length (arr q) - 1) ;;
      m <-- of_option (last (arr q)) ;;
      let q := mkPQ (take (length (arr q) - 1) (arr q)) (odel (keyIndices q) m.1) in
      q <-- heapify (S (length (arr q))) q 0 ;;
      Ok (m.1, q)
  end.

Definition decrease (q : PQ) (key : string) (prio : ext) : res PQ :=
  index <-- of_option (oget (keyIndices q) key) ;;
  x <-- of_option (arr q !! index) ;;
  if decide (ext_lt x.2 prio) then
    Throw (JsError "New priority is greater than current priority.")
  else
    decrease_at (mkPQ (<[index := (x.1, prio)]> (arr q)) (keyIndices q)) index.

(** ** The heap order *)

Definition heap_ok (l : list (string * ext)) : Prop :=
  ∀ i, 1 ≤ i < length l → ext_le (pr l (i / 2)) (pr l i).

(** [_keyIndices] is the inverse of the array of keys. *)
Definition index_ok (q : PQ) : Prop :=
  ∀ k i, oget (keyIndices q) k = Some i ↔ ∃ p, arr q !! i = Some (k, p).

Record pq_wf (q : PQ) : Prop := {
  pq_heap : heap_ok (arr q);
  pq_index : index_ok q
}.

Lemma pr_lookup l i k p : l !! i = Some (k, p) → pr l i = p.
Proof. intros H. unfold pr. by rewrite H. Qed.

Lemma index_inj q i j k p p' :
  index_ok q → arr q !! i = Some (k, p) → arr q !! j = Some (k, p') → i = j.
Proof.
  intros H Hi Hj.
  assert (oget (keyIndices q) k = Some i) by (apply H; eauto).
  assert (oget (keyIndices q) k = Some j) by (apply H; eauto). congruence.
Qed.

(** The element of the heap at slot 0 is a minimum. *)
Lemma heap_root l i : heap_ok l → i < length l → ext_le (pr l 0) (pr l i).
Proof.
  intros Hh. induction i as [i IH] using lt_wf_ind. intros Hi.
  destruct (decide (i = 0)) as [->|Hi0]; [apply ext_le_refl|].
  assert (i / 2 < i) by (apply Nat.div_lt; lia).
  eapply ext_le_trans; [apply (IH (i / 2)); lia|]. apply Hh. lia.
Qed.

(** ** Swapping two slots *)

Lemma swap_ok q i j :
  index_ok q → i < length (arr q) → j < length (arr q) →
  ∃ q', swap q i j = Ok q' ∧ index_ok q' ∧ length (arr q') = length (arr q) ∧
    arr q' ≡ₚ arr q ∧
    (∀ k, arr q' !! k = if decide (k = j) then arr q !! i
                        else if decide (k = i) then arr q !! j else arr q !! k).
Proof.
  intros Hidx Hi Hj.
  destruct (lookup_lt_is_Some_2 _ _ Hi) as [[ki pi] Hpi].
  destruct (lookup_lt_is_Some_2 _ _ Hj) as [[kj pj] Hpj].
  unfold swap. rewrite Hpi, Hpj. simpl. eexists; split; [done|]. simpl.
  assert (∀ k, <[j:=(ki, pi)]> (<[i:=(kj, pj)]> (arr q)) !! k =
    if decide (k = j) then arr q !! i else if decide (k = i) then arr q !! j else arr q !! k) as Hl.
  { intros k. destruct (decide (k = j)) as [->|].
    - rewrite list_lookup_insert_eq; [done|]. by rewrite length_insert.
    - rewrite list_lookup_insert_ne by done. destruct (decide (k = i)) as [->|].
      + by rewrite list_lookup_insert_eq.
      + by rewrite list_lookup_insert_ne. }
  split_and!; [|by rewrite !length_insert| |by intros k; rewrite Hl, Hpi, Hpj].
  - intros k n. simpl. rewrite !oget_oset, Hl.
    destruct (decide (ki = k)) as [<-|Hki].
    + split; [intros [= <-]; exists pi; by rewrite decide_True|]. intros [p Hp]. f_equal.
      destruct (decide (n = j)); [congruence|]. destruct (decide (n = i)) as [->|Hn].
      * assert (j = i) by (eapply index_inj; eauto). done.
      * destruct Hn. eapply index_inj; eauto.
    + destruct (decide (kj = k)) as [<-|Hkj].
      * split.
        { intros [= <-]. exists pj. rewrite decide_False; [by rewrite decide_True|].
          intros <-. congruence. }
        intros [p Hp]. f_equal. destruct (decide (n = j)); [congruence|].
        destruct (decide (n = i)); [done|]. assert (n = j) by (eapply index_inj; eauto). done.
      * rewrite (Hidx k n). split; intros [p Hp]; exists p.
        -- rewrite !decide_False; [done|..]; intros ->; congruence.
        -- repeat case_decide; congruence.
  - by apply Permutation_insert_swap.
Qed.

Lemma swap_pr l l' i j :
  i < length l → j < length l →
  (∀ k, l' !! k = if decide (k = j) then l !! i else if decide (k = i) then l !! j else l !! k) →
  ∀ k, pr l' k = if decide (k = j) then pr l i else if decide (k = i) then pr l j else pr l k.
Proof. intros Hi Hj Hl k. unfold pr. rewrite Hl. by repeat case_decide. Qed.

(** ** Moving an element towards the root *)

(** The heap order holds except that the element at [j] may be smaller than its
    parent. *)
Definition heap_up (l : list (string * ext)) (j : nat) : Prop :=
  (∀ i, 1 ≤ i < length l → i ≠ j → ext_le (pr l (i / 2)) (pr l i)) ∧
  (∀ i, 1 ≤ i < length l → i / 2 = j → 1 ≤ j → ext_le (pr l (j / 2)) (pr l i)).

Lemma heap_up_done l j :
  heap_up l j → (j = 0 ∨ ext_le (pr l (j / 2)) (pr l j)) → heap_ok l.
Proof.
  intros [H1 H2] Hj i Hi. destruct (decide (i = j)) as [->|]; [|auto].
  destruct Hj; [lia|done].
Qed.

Lemma half_lt i : 1 ≤ i → i / 2 < i.
Proof. intros. apply Nat.div_lt; lia. Qed.

Lemma heap_up_step l l' j :
  heap_up l j → 1 ≤ j < length l → length l' = length l → ext_le (pr l j) (pr l (j / 2)) →
  (∀ k, pr l' k = if decide (k = j / 2) then pr l j
                  else if decide (k = j) then pr l (j / 2) else pr l k) →
  heap_up l' (j / 2).
Proof.
  intros [H1 H2] Hj Hlen Hle Hpr. pose proof (half_lt j). split; intros i Hi.
  - rewrite Hlen in Hi. intros Hne. pose proof (half_lt i). rewrite !Hpr.
    rewrite (decide_False (P := i = j / 2)) by done.
    destruct (decide (i = j)) as [->|Hij]; [by rewrite decide_True|].
    destruct (decide (i / 2 = j / 2)) as [Heq|Hd].
    { eapply ext_le_trans; [done|]. rewrite <-Heq. by apply H1. }
    destruct (decide (i / 2 = j)) as [Heq|]; [apply H2; lia|]. by apply H1.
  - rewrite Hlen in Hi. intros Hih Hj2. pose proof (half_lt (j / 2)). rewrite !Hpr.
    rewrite (decide_False (P := j / 2 / 2 = j / 2)) by lia.
    rewrite (decide_False (P := j / 2 / 2 = j)) by lia.
    rewrite (decide_False (P := i = j / 2)) by (intros ->; lia).
    assert (ext_le (pr l (j / 2 / 2)) (pr l (j / 2))) by (apply H1; lia).
    destruct (decide (i = j)) as [->|]; [done|].
    eapply ext_le_trans; [done|]. rewrite <-Hih. by apply H1.
Qed.

Lemma decrease_loop_ok fuel q j p :
  index_ok q → heap_up (arr q) j → j < length (arr q) → pr (arr q) j = p → j < fuel →
  ∃ q', decrease_loop fuel q j p = Ok q' ∧ pq_wf q' ∧ arr q' ≡ₚ arr q.
Proof.
  revert q j. induction fuel as [|fuel IH]; intros q j Hidx Hup Hj Hp Hf; [lia|]. cbn [decrease_loop].
  destruct (decide (j = 0)) as [->|Hj0].
  { exists q. split_and!; [done| |done]. split; [|done]. eapply heap_up_done; eauto. }
  pose proof (half_lt j).
  destruct (lookup_lt_is_Some_2 (arr q) (j / 2)) as [[kp pp] Hpp]; [lia|].
  rewrite Hpp. cbn [of_option res_bind snd]. case_decide as Hlt.
  { exists q. split_and!; [done| |done]. split; [|done]. eapply heap_up_done; [done|right].
    rewrite (pr_lookup _ _ _ _ Hpp), Hp. by apply ext_lt_le. }
  destruct (swap_ok q j (j / 2)) as (q1 & -> & Hidx1 & Hlen1 & Hperm & Hl1); [done|lia..|].
  cbn [res_bind].
  assert (∀ k, pr (arr q1) k = if decide (k = j / 2) then pr (arr q) j
                  else if decide (k = j) then pr (arr q) (j / 2) else pr (arr q) k) as Hpr.
  { apply swap_pr; [lia..|done]. }
  destruct (IH q1 (j / 2)) as (q' & ? & ? & ?); [done| |lia| |lia|].
  - eapply heap_up_step; eauto; [lia|]. rewrite Hp, (pr_lookup _ _ _ _ Hpp). by apply ext_nlt_le.
  - by rewrite Hpr, decide_True.
  - exists q'. split_and!; [done|done|by etrans].
Qed.

Lemma decrease_at_ok q j :
  index_ok q → heap_up (arr q) j → j < length (arr q) →
  ∃ q', decrease_at q j = Ok q' ∧ pq_wf q' ∧ arr q' ≡ₚ arr q.
Proof.
  intros Hidx Hup Hj. unfold decrease_at.
  destruct (lookup_lt_is_Some_2 _ _ Hj) as [[k p] Hp]. rewrite Hp. cbn [of_option res_bind snd].
  apply decrease_loop_ok; try done; [by eapply pr_lookup|lia].
Qed.

(** ** Moving an element towards the leaves *)

(** The heap order holds except that the element at [j] may be greater than its
    children. *)
Definition heap_down (l : list (string * ext)) (j : nat) : Prop :=
  (∀ i, 1 ≤ i < length l → i / 2 ≠ j → ext_le (pr l (i / 2)) (pr l i)) ∧
  (∀ i, 1 ≤ i < length l → i / 2 = j → 1 ≤ j → ext_le (pr l (j / 2)) (pr l i)).

(** The slot [_heapify] selects: the smallest of [i] and its children. *)
Definition smallest (l : list (string * ext)) (i : nat) : nat :=
  let largest := if decide (ext_lt (pr l (2 * i)) (pr l i)) then 2 * i else i in
  if decide (2 * i + 1 < length l) then
    if decide (ext_lt (pr l (2 * i + 1)) (pr l largest)) then 2 * i + 1 else largest
  else largest.

Lemma half_cases i j : i / 2 = j → i = 2 * j ∨ i = 2 * j + 1.
Proof. intros <-. pose proof (Nat.div_mod_eq i 2). pose proof (Nat.mod_upper_bound i 2). lia. Qed.

Lemma half_double j : 2 * j / 2 = j ∧ (2 * j + 1) / 2 = j.
Proof.
  split; [rewrite Nat.mul_comm; by apply Nat.div_mul|].
  symmetry. apply (Nat.div_unique _ 2 j 1); lia.
Qed.

Lemma smallest_spec l i :
  2 * i < length l →
  let m := smallest l i in
  (m = i ∨ (1 ≤ m < length l ∧ m / 2 = i ∧ m ≠ i ∧ ext_lt (pr l m) (pr l i))) ∧
  ∀ k, 1 ≤ k < length l → k / 2 = i → ext_le (pr l m) (pr l k).
Proof.
  intros Hl. pose proof (half_double i) as [Hd1 Hd2]. cbv zeta. unfold smallest.
  set (a := if decide (ext_lt (pr l (2 * i)) (pr l i)) then 2 * i else i).
  assert ((a = i ∨ (a = 2 * i ∧ 1 ≤ i ∧ ext_lt (pr l a) (pr l i))) ∧
          ext_le (pr l a) (pr l i) ∧ ext_le (pr l a) (pr l (2 * i))) as (Ha & Hai & Hal).
  { unfold a. case_decide as Hlt.
    - split_and!; eauto with ext. right. split_and!; [done| |done].
      destruct i; [by apply ext_lt_irrefl in Hlt|lia].
    - apply ext_nlt_le in Hlt. split_and!; eauto with ext. }
  case_decide as Hr; [case_decide as Hlt|].
  - split; [right; split_and!; try lia; eauto with ext|].
    intros k Hk [->| ->]%half_cases; eauto with ext.
  - apply ext_nlt_le in Hlt. split.
    + destruct Ha as [->|(-> & ? & ?)]; [by left|]. right. split_and!; lia || done.
    + intros k Hk [->| ->]%half_cases; eauto with ext.
  - split.
    + destruct Ha as [->|(-> & ? & ?)]; [by left|]. right. split_and!; lia || done.
    + intros k Hk [->| ->]%half_cases; [done|lia].
Qed.

Lemma heap_down_step l l' i m :
  heap_down l i → 1 ≤ m < length l → m / 2 = i → m ≠ i → length l' = length l →
  ext_lt (pr l m) (pr l i) →
  (∀ k, 1 ≤ k < length l → k / 2 = i → ext_le (pr l m) (pr l k)) →
  (∀ k, pr l' k = if decide (k = m) then pr l i else if decide (k = i) then pr l m else pr l k) →
  heap_down l' m.
Proof.
  intros [H1 H2] Hm Hmi Hne Hlen Hlt Hmin Hpr. pose proof (half_lt m). split; intros k; rewrite Hlen; intros Hk.
  - intros Hkm. pose proof (half_lt k). rewrite !Hpr, (decide_False (P := k / 2 = m)) by done.
    destruct (decide (k = m)) as [->|].
    { rewrite decide_True by done. by apply ext_lt_le. }
    destruct (decide (k = i)) as [->|].
    { rewrite decide_False by lia. apply H2; lia. }
    destruct (decide (k / 2 = i)); auto.
  - intros Hkm _. pose proof (half_lt k). rewrite !Hpr, Hmi.
    rewrite (decide_False (P := i = m)), (decide_True (P := i = i)) by done.
    rewrite (decide_False (P := k = m)), (decide_False (P := k = i)) by lia.
    rewrite <-Hkm. apply H1; lia.
Qed.

Lemma heapify_ok fuel q i :
  index_ok q → heap_down (arr q) i → length (arr q) ≤ i + fuel →
  ∃ q', heapify fuel q i = Ok q' ∧ pq_wf q' ∧ arr q' ≡ₚ arr q.
Proof.
  revert q i. induction fuel as [|fuel IH]; intros q i Hidx Hd Hf.
  { exists q. split_and!; [done| |done]. split; [|done]. intros k Hk. apply Hd; [done|].
    pose proof (half_lt k). lia. }
  cbn [heapify]. case_decide as Hl.
  - fold (smallest (arr q) i). destruct (smallest_spec (arr q) i Hl) as [Hm Hmin].
    set (m := smallest (arr q) i) in *. destruct (decide (m ≠ i)) as [Hne|Heq].
    + destruct Hm as [?|(Hm & Hmi & _ & Hlt)]; [done|]. pose proof (half_lt m).
      destruct (swap_ok q i m) as (q1 & -> & Hidx1 & Hlen1 & Hperm & Hl1); [done|lia..|].
      cbn [res_bind]. destruct (IH q1 m) as (q' & ? & ? & ?); [done| |lia|].
      * eapply heap_down_step; eauto. apply swap_pr; [lia..|done].
      * exists q'. split_and!; [done|done|by etrans].
    + apply dec_stable in Heq. exists q. split_and!; [done| |done]. split; [|done].
      intros k Hk. destruct (decide (k / 2 = i)) as [Hki|]; [|by apply Hd].
      rewrite Hki, <-Heq. auto.
  - exists q. split_and!; [done| |done]. split; [|done]. intros k Hk. apply Hd; [done|].
    intros Hki. pose proof (half_cases _ _ Hki). lia.
Qed.

(** ** The interface: a finite map from keys to priorities *)

Class pq_ops (Q : Type) := {
  q_new : Q;
  q_size : Q → nat;
  q_priority : Q → string → res (option ext);
  q_add : Q → string → ext → res (bool * Q);
  q_removeMin : Q → res (string * Q);
  q_decrease : Q → string → ext → res Q
}.

Class pq_laws (Q : Type) `{!pq_ops Q} := {
  q_inv : Q → Prop;
  q_map : Q → gmap string ext;
  q_new_law : q_inv q_new ∧ q_map q_new = ∅;
  q_size_law q : q_inv q → q_size q = base.size (q_map q);
  q_priority_law q k : q_inv q → q_priority q k = Ok (q_map q !! k);
  q_add_law q k p : q_inv q → q_map q !! k = None →
    ∃ q', q_add q k p = Ok (true, q') ∧ q_inv q' ∧ q_map q' = <[k := p]> (q_map q);
  q_add_present_law q k p : q_inv q → is_Some (q_map q !! k) → q_add q k p = Ok (false, q);
  q_removeMin_law q : q_inv q → q_map q ≠ ∅ →
    ∃ k p q', q_removeMin q = Ok (k, q') ∧ q_inv q' ∧ q_map q !! k = Some p ∧
      (∀ k' p', q_map q !! k' = Some p' → ext_le p p') ∧ q_map q' = delete k (q_map q);
  q_decrease_law q k p0 p : q_inv q → q_map q !! k = Some p0 → ext_le p p0 →
    ∃ q', q_decrease q k p = Ok q' ∧ q_inv q' ∧ q_map q' = <[k := p]> (q_map q);
  q_decrease_error_law q k p0 p : q_inv q → q_map q !! k = Some p0 → ext_lt p0 p →
    ∃ msg, q_decrease q k p = Throw (JsError msg)
}.

#[export] Instance PQ_ops : pq_ops PQ := {|
  q_new := newPQ; q_size := size; q_priority := priority; q_add := add;
  q_removeMin := removeMin; q_decrease := decrease
|}.

(** ** The heap implements the interface *)

Definition contents (q : PQ) : gmap string ext := list_to_map (arr q).

Lemma keys_NoDup q : index_ok q → NoDup ((arr q).*1).
Proof.
  intros H. apply NoDup_alt. intros i j k.
  rewrite !list_lookup_fmap. intros (x & Hx & [= Hix])%fmap_Some (y & Hy & [= Hjy])%fmap_Some.
  destruct x as [k1 p1], y as [k2 p2]. simpl in *. subst. by eapply index_inj.
Qed.

Lemma contents_lookup q k p : index_ok q → contents q !! k = Some p ↔ (k, p) ∈ arr q.
Proof. intros H. symmetry. apply elem_of_list_to_map, keys_NoDup, H. Qed.

Lemma contents_perm q q' : index_ok q → arr q' ≡ₚ arr q → contents q' = contents q.
Proof.
  intros H Hp. unfold contents. symmetry. apply list_to_map_proper; [|by symmetry].
  by apply keys_NoDup.
Qed.

Lemma index_lookup q k p :
  index_ok q → contents q !! k = Some p →
  ∃ i, oget (keyIndices q) k = Some i ∧ arr q !! i = Some (k, p).
Proof.
  intros H [i Hi]%contents_lookup%list_elem_of_lookup; [|done].
  exists i. split; [|done]. apply H. eauto.
Qed.

Lemma index_None q k : index_ok q → contents q !! k = None ↔ oget (keyIndices q) k = None.
Proof.
  intros H. rewrite !eq_None_not_Some. f_equiv. split.
  - intros [p Hp]. destruct (index_lookup q k p H Hp) as (i & -> & _). eauto.
  - intros [i Hi]. apply H in Hi as [p Hp]. exists p. apply contents_lookup; [done|].
    apply list_elem_of_lookup. eauto.
Qed.

Lemma index_push q k p :
  index_ok q → contents q !! k = None →
  index_ok (mkPQ (arr q ++ [(k, p)]) (oset (keyIndices q) k (length (arr q)))).
Proof.
  intros H Hk k' i. simpl. rewrite oget_oset. apply index_None in Hk; [|done].
  destruct (decide (k = k')) as [<-|Hne].
  - split.
    + intros [= <-]. exists p. by rewrite lookup_app_r, Nat.sub_diag by lia.
    + intros [p' [Hl|[Hge Hl]]%lookup_app_Some].
      * assert (oget (keyIndices q) k = Some i) by (apply H; eauto). congruence.
      * destruct (i - length (arr q)) as [|[|n]] eqn:Hd; simpl in Hl; [|done..].
        assert (i = length (arr q)) as -> by lia. done.
  - rewrite (H k' i). split; intros [p' Hl]; exists p'.
    + by apply lookup_app_l_Some.
    + apply lookup_app_Some in Hl as [?|[_ Hl]]; [done|].
      destruct (i - length (arr q)) as [|[|]]; simpl in Hl; congruence.
Qed.

Lemma heap_push l k p : heap_ok l → heap_up (l ++ [(k, p)]) (length l).
Proof.
  intros Hh.
  assert (∀ i, i < length l → pr (l ++ [(k, p)]) i = pr l i) as Hpr.
  { intros i Hi. unfold pr. by rewrite lookup_app_l. }
  split; intros i; rewrite length_app; cbn [length]; intros Hi; pose proof (half_lt i).
  - intros Hne. rewrite !Hpr by lia. apply Hh. lia.
  - lia.
Qed.

Lemma add_ok q k p :
  pq_wf q → contents q !! k = None →
  ∃ q', add q k p = Ok (true, q') ∧ pq_wf q' ∧ contents q' = <[k := p]> (contents q).
Proof.
  intros [Hh Hi] Hk. unfold add, has. pose proof Hk as Hk'. apply index_None in Hk'; [|done].
  apply ohas_false in Hk'. rewrite Hk'. cbv zeta.
  pose proof (index_push q k p Hi Hk) as Hi'.
  destruct (decrease_at_ok _ (length (arr q)) Hi') as (q' & -> & Hwf & Hperm).
  - by apply heap_push.
  - simpl. rewrite length_app. simpl. lia.
  - exists q'. split_and!; [done|done|].
    rewrite (contents_perm _ q' Hi' Hperm). unfold contents. simpl.
    rewrite list_to_map_snoc; [done|]. apply not_elem_of_list_to_map_2. done.
Qed.

Lemma heap_lower l i k p p0 :
  heap_ok l → l !! i = Some (k, p0) → ext_le p p0 → heap_up (<[i := (k, p)]> l) i.
Proof.
  intros Hh Hi Hle. assert (i < length l) as Hlt by by eapply lookup_lt_Some.
  assert (∀ j, pr (<[i := (k, p)]> l) j = if decide (j = i) then p else pr l j) as Hpr.
  { intros j. unfold pr. case_decide; [subst; by rewrite list_lookup_insert_eq|].
    by rewrite list_lookup_insert_ne. }
  pose proof (pr_lookup _ _ _ _ Hi) as Hpi.
  split; intros j; rewrite length_insert; intros Hj; pose proof (half_lt j).
  - intros Hne. rewrite !Hpr, (decide_False (P := j = i)) by done. case_decide as Hji; [|by apply Hh].
    eapply ext_le_trans; [done|]. rewrite <-Hpi, <-Hji. by apply Hh.
  - intros Hji Hi1. pose proof (half_lt i). rewrite !Hpr, !decide_False by lia.
    eapply ext_le_trans; [apply Hh; lia|]. rewrite <-Hji at 1. by apply Hh.
Qed.

Lemma index_lower q i k p p0 :
  index_ok q → arr q !! i = Some (k, p0) → index_ok (mkPQ (<[i := (k, p)]> (arr q)) (keyIndices q)).
Proof.
  intros H Hi k' j. simpl. rewrite (H k' j). destruct (decide (i = j)) as [<-|].
  - rewrite Hi, list_lookup_insert_eq by by eapply lookup_lt_Some. naive_solver.
  - by rewrite list_lookup_insert_ne.
Qed.

Lemma contents_lower q i k p p0 :
  index_ok q → arr q !! i = Some (k, p0) →
  contents (mkPQ (<[i := (k, p)]> (arr q)) (keyIndices q)) = <[k := p]> (contents q).
Proof.
  intros H Hi. pose proof (index_lower q i k p p0 H Hi) as H'.
  apply map_eq. intros k'. apply option_eq. intros p'.
  rewrite contents_lookup by done. rewrite lookup_insert_Some, contents_lookup by done.
  rewrite !list_elem_of_lookup. simpl. assert (i < length (arr q)) as Hlt by by eapply lookup_lt_Some.
  split.
  - intros [j Hj]. apply list_lookup_insert_Some in Hj as [(<- & [= <- <-] & _)|[Hne Hj]]; [by left|].
    right. split; [|eauto]. intros <-. apply Hne. exact (index_inj q _ _ _ _ _ H Hi Hj).
  - intros [[<- <-]|[Hne [j Hj]]]; [exists i; by apply list_lookup_insert_eq|].
    exists j. rewrite list_lookup_insert_ne; [done|]. intros <-. congruence.
Qed.

Lemma decrease_ok q k p0 p :
  pq_wf q → contents q !! k = Some p0 → ext_le p p0 →
  ∃ q', decrease q k p = Ok q' ∧ pq_wf q' ∧ contents q' = <[k := p]> (contents q).
Proof.
  intros [Hh Hi] Hk Hle. destruct (index_lookup q k p0 Hi Hk) as (i & Hik & Hia).
  unfold decrease. rewrite Hik. cbn [of_option res_bind]. rewrite Hia. cbn [of_option res_bind fst snd].
  rewrite decide_False by by apply ext_nlt_le.
  pose proof (index_lower q i k p p0 Hi Hia) as Hi'.
  destruct (decrease_at_ok _ i Hi') as (q' & -> & Hwf & Hperm).
  - by eapply heap_lower.
  - simpl. rewrite length_insert. by eapply lookup_lt_Some.
  - exists q'. split_and!; [done|done|].
    by rewrite (contents_perm _ q' Hi' Hperm), (contents_lower _ _ _ _ p0).
Qed.

(** Popping the last slot of an array that was swapped with slot 0. *)
Lemma index_pop q l k p :
  index_ok q → arr q = l ++ [(k, p)] → index_ok (mkPQ l (odel (keyIndices q) k)).
Proof.
  intros H Harr k' i. simpl. rewrite oget_odel. destruct (decide (k = k')) as [<-|Hne].
  - split; [done|]. intros [p' Hp'].
    assert (i = length l) as ->.
    { eapply (index_inj q); [done|rewrite Harr; by apply lookup_app_l_Some|].
      rewrite Harr. by apply list_lookup_middle. }
    apply lookup_lt_Some in Hp'. lia.
  - rewrite (H k' i), Harr. split; intros [p' Hp']; exists p'; [|by apply lookup_app_l_Some].
    apply lookup_app_Some in Hp' as [?|[_ Hp']]; [done|].
    destruct (i - length l) as [|[|]]; simpl in Hp'; congruence.
Qed.

Lemma removeMin_ok q :
  pq_wf q → contents q ≠ ∅ →
  ∃ k p q', removeMin q = Ok (k, q') ∧ pq_wf q' ∧ contents q !! k = Some p ∧
    (∀ k' p', contents q !! k' = Some p' → ext_le p p') ∧ contents q' = delete k (contents q).
Proof.
  intros [Hh Hi] Hne. unfold removeMin.
  destruct (arr q) as [|[k p] l0] eqn:Harr; [by destruct Hne; unfold contents; rewrite Harr|].
  rewrite <-Harr in *. set (n := length (arr q) - 1).
  assert (length (arr q) = S n) as Hlen by (unfold n; rewrite Harr; simpl; lia).
  assert (arr q !! 0 = Some (k, p)) as H0 by (by rewrite Harr).
  destruct (swap_ok q 0 n) as (q1 & -> & Hi1 & Hlen1 & Hperm1 & Hl1); [done|lia..|].
  cbn [res_bind].
  assert (∃ l, arr q1 = l ++ [(k, p)] ∧ length l = n) as (l & Hq1 & Hln).
  { destruct (List.exists_last (l := arr q1)) as (l & x & E); [intros E; rewrite E in Hlen1; simpl in Hlen1; lia|].
    exists l. assert (length l = n) as Hln by (rewrite E, length_app in Hlen1; simpl in Hlen1; lia).
    split; [|done]. rewrite E. do 2 f_equal. specialize (Hl1 n).
    rewrite decide_True, H0, E, <-Hln, list_lookup_middle in Hl1 by done. congruence. }
  rewrite Hq1, last_snoc. cbn [of_option res_bind fst]. cbn [arr].
  rewrite length_app. cbn [length]. replace (length l + 1 - 1) with (length l) by lia.
  rewrite take_app_length. pose proof (index_pop q1 l k p Hi1 Hq1) as Hi2.
  set (q2 := mkPQ l (odel (keyIndices q1) k)) in *.
  assert (∀ j, 1 ≤ j < n → pr l j = pr (arr q) j) as Hpr.
  { intros j Hj. unfold pr. specialize (Hl1 j). rewrite !decide_False in Hl1 by lia.
    rewrite <-Hl1, Hq1, lookup_app_l by lia. done. }
  destruct (heapify_ok (S (length l)) q2 0) as (q' & -> & Hwf & Hperm); [done| |simpl; lia|].
  { split; intros j Hj Hj2; [|lia]. change (arr q2) with l in *. pose proof (half_lt j).
    assert (j / 2 < j) by lia. rewrite !Hpr by lia. apply Hh. unfold q2 in *; lia. }
  cbn [res_bind]. exists k, p, q'. split_and!; [done|done| | |].
  - apply contents_lookup; [done|]. apply list_elem_of_lookup. eauto.
  - intros k' p' [j Hj]%contents_lookup%list_elem_of_lookup; [|done].
    rewrite <-(pr_lookup _ _ _ _ H0), <-(pr_lookup _ _ _ _ Hj).
    apply heap_root; [done|]. by eapply lookup_lt_Some.
  - rewrite (contents_perm q2 q' Hi2 Hperm). rewrite <-(contents_perm q q1 Hi Hperm1).
    unfold contents. rewrite Hq1. simpl. pose proof (keys_NoDup q1 Hi1) as Hnd.
    rewrite Hq1, fmap_app in Hnd. apply NoDup_app in Hnd as (_ & Hd & _).
    assert (k ∉ l.*1) as Hk by set_solver.
    rewrite list_to_map_snoc by done. rewrite delete_insert_id; [done|].
    by apply not_elem_of_list_to_map_1.
Qed.

#[export] Program Instance PQ_laws : pq_laws PQ := {|
  q_inv := pq_wf; q_map := contents
|}.
Next Obligation.
  split; [split|done].
  - intros i. simpl. lia.
  - intros k i. simpl. split; [done|]. intros [p Hp]. by rewrite lookup_nil in Hp.
Qed.
Next Obligation.
  intros q [_ Hi]. simpl. unfold size, contents.
  rewrite <-length_map_to_list. by rewrite map_to_list_to_map by by apply keys_NoDup.
Qed.
Next Obligation.
  intros q k [_ Hi]. simpl. unfold priority.
  destruct (contents q !! k) as [p|] eqn:Hk.
  - destruct (index_lookup q k p Hi Hk) as (i & -> & Ha). by rewrite Ha.
  - apply index_None in Hk; [|done]. by rewrite Hk.
Qed.
Next Obligation. intros. by apply add_ok. Qed.
Next Obligation.
  intros q k p [_ Hi] [p0 Hk]. destruct (index_lookup q k p0 Hi Hk) as (i & Hik & _).
  simpl. unfold add, has, ohas. by rewrite Hik.
Qed.
Next Obligation. intros. by apply removeMin_ok. Qed.
Next Obligation. intros. by eapply decrease_ok. Qed.
Next Obligation.
  intros q k p0 p [_ Hi] Hk Hlt. destruct (index_lookup q k p0 Hi Hk) as (i & Hik & Hia).
  simpl. unfold decrease. rewrite Hik. cbn [of_option res_bind]. rewrite Hia. simpl.
  rewrite decide_True by done. eauto.
Qed.

(** ** Abstract specification and refinement *)

Inductive qop := QAdd (k : string) (p : ext) | QRemoveMin | QDecrease (k : string) (p : ext).
Inductive qout := Added (b : bool) | Removed (k : string) | Decreased.

Definition run_qop (q : PQ) (o : qop) : res (qout * PQ) :=
  match o with
  | QAdd k p => r <-- add q k p ;; Ok (Added r.1, r.2)
  | QRemoveMin => r <-- removeMin q ;; Ok (Removed r.1, r.2)
  | QDecrease k p => q' <-- decrease q k p ;; Ok (Decreased, q')
  end.

(** What a client may observe of one operation on a map from keys to
    priorities: [removeMin] returns some key of least priority. *)
Inductive qspec (m : gmap string ext) : qop → res (qout * gmap string ext) → Prop :=
| spec_add k p : m !! k = None → qspec m (QAdd k p) (Ok (Added true, <[k := p]> m))
| spec_add_present k p : is_Some (m !! k) → qspec m (QAdd k p) (Ok (Added false, m))
| spec_removeMin k p :
    m !! k = Some p → (∀ k' p', m !! k' = Some p' → ext_le p p') →
    qspec m QRemoveMin (Ok (Removed k, delete k m))
| spec_removeMin_empty : m = ∅ → qspec m QRemoveMin (Throw TypeError)
| spec_decrease k p0 p :
    m !! k = Some p0 → ext_le p p0 → qspec m (QDecrease k p) (Ok (Decreased, <[k := p]> m))
| spec_decrease_greater k p0 p :
    m !! k = Some p0 → ext_lt p0 p →
    qspec m (QDecrease k p) (Throw (JsError "New priority is greater than current priority."))
| spec_decrease_absent k p : m !! k = None → qspec m (QDecrease k p) (Throw TypeError).

(** The concrete result simulates the abstract one. *)
Definition refines (r : res (qout * PQ)) (s : res (qout * gmap string ext)) : Prop :=
  match r, s with
  | Ok (o, q), Ok (o', m) => o = o' ∧ pq_wf q ∧ contents q = m
  | Throw e, Throw e' => e = e'
  | _, _ => False
  end.

Lemma newPQ_wf : pq_wf newPQ.
Proof. exact (proj1 (q_new_law (Q := PQ))). Qed.


(** A concrete queue: three keys added in an order that makes the heap move. *)
Definition demo_queue : PQ :=
  match (r <-- add newPQ "a" (Fin 5) ;; r <-- add r.2 "b" Inf ;; add r.2 "c" (Fin 2)) with
  | Ok r => r.2
  | Throw _ => newPQ
  end.

Lemma demo_queue_wf : pq_wf demo_queue.
Proof.
  unfold demo_queue. destruct (add_ok newPQ "a" (Fin 5) newPQ_wf) as (q1 & -> & H1 & E1); [done|].
  simpl. destruct (add_ok q1 "b" Inf H1) as (q2 & -> & H2 & E2); [by rewrite E1|].
  simpl. destruct (add_ok q2 "c" (Fin 2) H2) as (q3 & -> & H3 & E3); [by rewrite E2, E1|]. done.
Qed.


Example demo_queue_min :
  (r <-- run_qop demo_queue QRemoveMin ;; Ok r.1) = Ok (Removed "c").
Proof. reflexivity. Qed.
