(* ===== verification/Dijkstra.v ===== *)
(** * graphlib algorithms: [dijkstra]

    The algorithm is modelled over any queue with the interface [pq_ops] and verified
    against [pq_laws]; the binary heap of [PriorityQueue] discharges them.  [results] is the table
    of mutable entries; every read goes through it, so the aliases [vEntry] and
    [wEntry] see each other's updates.  Integer weights; [edgeFn] is an argument as in
    the source, with [outEdges] as its default. *)
From stdpp Require Import pretty.
From S2P Require Import Prelude JsObject Graphlib GraphWf GraphInv GraphQuery GraphAlg GraphDfs PriorityQueue.

Record entry := Entry { distance : ext; predecessor : option string }.

Section Dijkstra.
Context {L N E : Type} {Q : Type} `{!pq_ops Q}.
Implicit Types (g : Graph L N E) (wt : edgeObj → Z) (results : obj entry) (pq : Q) (v : string).
Implicit Types (edgeFn : string → option (list edgeObj)).

(** [edge.v!==v?edge.v:edge.w]. *)
Definition other_end v (edge : edgeObj) : string := if decide (ev edge ≠ v) then ev edge else ew edge.

(** The closure [updateNeighbors]; its error message prints the edge as an object. *)
Definition updateNeighbors wt v (st : obj entry * Q) (edge : edgeObj) : res (obj entry * Q) :=
  let '(results, pq) := st in
  let w := other_end v edge in
  let weight := wt edge in
  vEntry <-- of_option (oget results v) ;;
  let dist := ext_add (distance vEntry) (Fin weight) in
  if decide (weight < 0)%Z then
    Throw (JsError ("dijkstra does not allow negative edge weights. Bad edge: [object Object] Weight: " +:+ pretty weight))
  else
    wEntry <-- of_option (oget results w) ;;
    if decide (ext_lt dist (distance wEntry)) then
      pq <-- q_decrease pq w dist ;;
      Ok (oset results w (Entry dist (Some v)), pq)
    else Ok (results, pq).

Definition init_node source (st : obj entry * Q) v : res (obj entry * Q) :=
  let dist := if decide (v = source) then Fin 0 else Inf in
  r <-- q_add st.2 v dist ;;
  Ok (oset st.1 v (Entry dist None), r.2).

(** [while(pq.size()>0)]; each turn removes a key, so one turn per node is enough. *)
Fixpoint main_loop (fuel : nat) edgeFn wt results pq : res (obj entry) :=
  if decide (q_size pq = 0) then Ok results
  else match fuel with
       | O => Throw (JsError "out of fuel")
       | S fuel' =>
           r <-- q_removeMin pq ;;
           let v := r.1 in
           vEntry <-- of_option (oget results v) ;;
           if decide (distance vEntry = Inf) then Ok results
           else
             es <-- of_option (edgeFn v) ;;
             st <-- res_fold (updateNeighbors wt v) (results, r.2) es ;;
             main_loop fuel' edgeFn wt st.1 st.2
       end.

Definition runDijkstra g (source : string) wt edgeFn : res (obj entry) :=
  st <-- res_fold (init_node source) ([], q_new) (nodes g) ;;
  main_loop (length (nodes g)) edgeFn wt st.1 st.2.

Definition dijkstra g (source : string) (weightFn : option (edgeObj → Z))
    (edgeFn : option (string → option (list edgeObj))) : res (obj entry) :=
  runDijkstra g source (default (λ _, 1%Z) weightFn) (default (λ v, outEdges g v None) edgeFn).

(** [dijkstraAll]: one run per node, collected under the node. *)
Definition dijkstraAll g (weightFn : option (edgeObj → Z))
    (edgeFn : option (string → option (list edgeObj))) : res (obj (obj entry)) :=
  res_fold (λ acc v, r <-- dijkstra g v weightFn edgeFn ;; Ok (oset acc v r)) [] (nodes g).

(** ** Shortest paths *)

(** The edges that [edgeFn] offers at [u], with the node each leads to. *)
Definition arc edgeFn (u : string) (x : edgeObj) (w : string) : Prop :=
  ∃ es, edgeFn u = Some es ∧ x ∈ es ∧ w = other_end u x.

(** A path along those edges, with its total weight. *)
Inductive path edgeFn wt (u : string) : string → Z → Prop :=
| path_nil : path edgeFn wt u u 0
| path_snoc v w d x : path edgeFn wt u v d → arc edgeFn v x w → path edgeFn wt u w (d + wt x).

Definition is_distance edgeFn wt u v (d : ext) : Prop :=
  match d with
  | Fin z => path edgeFn wt u v z ∧ ∀ z', path edgeFn wt u v z' → (z ≤ z')%Z
  | Inf => ∀ z, ¬ path edgeFn wt u v z
  end.

(** [edgeFn] is defined on the nodes of the graph and stays inside it. *)
Definition good_edges g edgeFn : Prop :=
  ∀ v, isNode g v → is_Some (edgeFn v) ∧ ∀ x w, arc edgeFn v x w → isNode g w.
Definition good_weights g edgeFn wt : Prop := ∀ v x w, isNode g v → arc edgeFn v x w → (0 ≤ wt x)%Z.

Context `{!pq_laws Q}.

Definition dist_of results v : ext := match oget results v with Some e => distance e | None => Inf end.

(** The invariant between two turns of the main loop.  A node is settled when it has
    left the queue. *)
Record dij g edgeFn wt source results pq : Prop := {
  dj_queue : q_inv pq;
  dj_nodes : ∀ v, is_Some (oget results v) ↔ isNode g v;
  dj_prio : ∀ v p, q_map pq !! v = Some p → isNode g v ∧ p = dist_of results v;
  dj_sound : ∀ v z, dist_of results v = Fin z → path edgeFn wt source v z;
  dj_source : isNode g source → ext_le (dist_of results source) (Fin 0);
  dj_order : ∀ u w p, isNode g u → q_map pq !! u = None → q_map pq !! w = Some p → ext_le (dist_of results u) p;
  dj_pred : ∀ v e u, oget results v = Some e → predecessor e = Some u →
    ∃ x, isNode g u ∧ arc edgeFn u x v ∧ ∃ zu zv, dist_of results u = Fin zu ∧ distance e = Fin zv ∧
      zv = (zu + wt x)%Z ∧ q_map pq !! u = None
}.

(** All edges out of a node have been relaxed. *)
Definition relaxed edgeFn wt results (u : string) : Prop :=
  ∀ x w, arc edgeFn u x w → ext_le (dist_of results w) (ext_add (dist_of results u) (Fin (wt x))).

Definition settled pq (u : string) : Prop := q_map pq !! u = None.

Lemma path_node g edgeFn wt u v z : good_edges g edgeFn → isNode g u → path edgeFn wt u v z → isNode g v.
Proof. intros Hg Hu. induction 1; [done|]. by eapply Hg. Qed.

(** Once every node is relaxed no path is shorter than the recorded distance. *)
Lemma relaxed_lower g edgeFn wt source results v z :
  good_edges g edgeFn → isNode g source → ext_le (dist_of results source) (Fin 0) →
  (∀ u, isNode g u → relaxed edgeFn wt results u) → path edgeFn wt source v z → ext_le (dist_of results v) (Fin z).
Proof.
  intros Hg Hsn Hs Hr Hp. induction Hp as [|v w d x Hp IH Hx]; [done|].
  assert (isNode g v) as Hn by (by eapply path_node).
  specialize (Hr v Hn x w Hx). eapply ext_le_trans; [exact Hr|].
  destruct (dist_of results v); simpl in *; [lia|done].
Qed.

Lemma distance_exact g edgeFn wt source results v :
  good_edges g edgeFn → isNode g source → ext_le (dist_of results source) (Fin 0) →
  (∀ u, isNode g u → relaxed edgeFn wt results u) →
  (∀ z, dist_of results v = Fin z → path edgeFn wt source v z) → is_distance edgeFn wt source v (dist_of results v).
Proof.
  intros Hg Hs H0 Hr Hsound. unfold is_distance.
  pose proof (λ z, relaxed_lower g edgeFn wt source results v z Hg Hs H0 Hr) as Hlow.
  destruct (dist_of results v) as [z|] eqn:Hd; [split; [by apply Hsound|]; intros z' Hz'; by apply (Hlow z')|].
  intros z Hz. by apply (Hlow z).
Qed.

(** The invariant of the loop over the edges of the node [v] that was just removed. *)
Record relaxing g edgeFn wt source v (p : Z) (n : nat) (done : list edgeObj) (st : obj entry * Q) : Prop := {
  rx_dij : dij g edgeFn wt source st.1 st.2;
  rx_here : settled st.2 v ∧ dist_of st.1 v = Fin p;
  rx_low : ∀ u, isNode g u → settled st.2 u → ext_le (dist_of st.1 u) (Fin p);
  rx_done : ∀ x, x ∈ done → ext_le (dist_of st.1 (other_end v x)) (Fin (p + wt x));
  rx_old : ∀ u, isNode g u → settled st.2 u → u ≠ v → relaxed edgeFn wt st.1 u;
  rx_settled : ∀ u, isNode g u → settled st.2 u ∨ is_Some (q_map st.2 !! u);
  rx_size : base.size (q_map st.2) = n
}.

Lemma dist_of_oset results w e v :
  dist_of (oset results w e) v = if decide (w = v) then distance e else dist_of results v.
Proof. unfold dist_of. rewrite oget_oset. by case_decide. Qed.

Section Update.
Context g edgeFn wt (source v : string) (p : Z) (n : nat) (done : list edgeObj) results pq (x : edgeObj).
Context (Hg : good_edges g edgeFn) (H : relaxing g edgeFn wt source v p n done (results, pq)).
Context (Hvn : isNode g v) (Hx : arc edgeFn v x (other_end v x)) (Hpos : (0 ≤ wt x)%Z).
Let w := other_end v x.
Let nd := Fin (p + wt x).

Lemma w_node : isNode g w.
Proof. by eapply Hg. Qed.

(** A shorter distance is only found for a node that is still queued. *)
Lemma shorter_queued : ext_lt nd (dist_of results w) → ∃ p0, q_map pq !! w = Some p0 ∧ p0 = dist_of results w.
Proof.
  intros Hlt. pose proof w_node as Hw.
  destruct (q_map pq !! w) as [p0|] eqn:Hq; [exists p0; split; [done|]; by apply (dj_prio _ _ _ _ _ _ (rx_dij _ _ _ _ _ _ _ _ _ H))|].
  pose proof (rx_low _ _ _ _ _ _ _ _ _ H w Hw Hq) as Hle. simpl in Hle. exfalso.
  destruct (dist_of results w); simpl in *; lia.
Qed.

Lemma update_dij pq' e :
  e = Entry nd (Some v) → ext_lt nd (dist_of results w) → q_inv pq' → q_map pq' = <[w := nd]> (q_map pq) →
  dij g edgeFn wt source (oset results w e) pq'.
Proof.
  intros -> Hlt Hqi Hqm. destruct (shorter_queued Hlt) as (p0 & Hp0 & ->).
  destruct H as [[D1 D2 D3 D4 D5 D6 D7] [Hset Hp] Hlow _ _ _ _]. cbn [fst snd] in *.
  pose proof w_node as Hw.
  assert (w ≠ v) as Hwv by (intros ->; unfold settled in Hset; congruence).
  split; [done|..].
  - intros u. rewrite oget_oset. case_decide; [subst; naive_solver|apply D2].
  - intros u q. rewrite Hqm, lookup_insert, dist_of_oset. case_decide; [intros [= <-]; by subst|apply D3].
  - intros u z. rewrite dist_of_oset. case_decide; [|apply D4]. intros [= <-]. subst u.
    eapply path_snoc; [apply D4, Hp|done].
  - intros Hs. rewrite dist_of_oset. case_decide as Hws; [|by apply D5]. rewrite Hws in Hlt.
    eapply ext_le_trans; [apply ext_lt_le, Hlt|by apply D5].
  - intros u u' q Hu. rewrite Hqm, !lookup_insert, dist_of_oset. destruct (decide (w = u)); [done|].
    intros Hq. destruct (decide (w = u')); [|by apply D6]. intros [= <-].
    eapply ext_le_trans; [by apply Hlow|]. simpl. lia.
  - intros u e u'. rewrite oget_oset, Hqm, lookup_insert, dist_of_oset. destruct (decide (w = u)) as [Hwu|Hwu].
    + intros [= <-] [= <-]. rewrite !decide_False by done. exists x.
      split; [done|]. split; [by subst u|]. exists p, (p + wt x)%Z. done.
    + intros He Hpe. destruct (D7 u e u' He Hpe) as (y & ? & ? & zu & zv & ? & ? & ? & Hq).
      rewrite !decide_False by congruence. exists y. split_and!; [done..|]. exists zu, zv. done.
Qed.

Lemma updateNeighbors_ok :
  ∃ st', updateNeighbors wt v (results, pq) x = Ok st' ∧ relaxing g edgeFn wt source v p n (done ++ [x]) st'.
Proof.
  pose proof w_node as Hw.
  pose proof H as [[D1 D2 D3 D4 D5 D6 D7] [Hset Hp] Hlow Hdone Hold Hall Hsize]. cbn [fst snd] in *.
  unfold updateNeighbors. fold w.
  destruct (proj2 (D2 v) Hvn) as [ve Hve]. destruct (proj2 (D2 w) Hw) as [we Hwe].
  assert (distance ve = Fin p) as Hvd by (unfold dist_of in Hp; by rewrite Hve in Hp).
  assert (distance we = dist_of results w) as Hwd by (unfold dist_of; by rewrite Hwe).
  rewrite Hve, Hwe. cbn [of_option res_bind]. rewrite Hvd, Hwd, (decide_False (P := (wt x < 0)%Z)) by lia.
  change (ext_add (Fin p) (Fin (wt x))) with nd. destruct (decide (ext_lt nd (dist_of results w))) as [Hlt|Hnlt].
  - destruct (shorter_queued Hlt) as (p0 & Hp0 & ->).
    destruct (q_decrease_law pq w (dist_of results w) nd D1 Hp0) as (pq' & -> & Hqi & Hqm); [by apply ext_lt_le|].
    cbn [res_bind]. eexists. split; [done|].
    assert (∀ u, settled pq' u → settled pq u ∧ u ≠ w) as Hse.
    { unfold settled. intros u. rewrite Hqm, lookup_insert. case_decide; [done|]. auto. }
    assert (∀ u, ext_le (dist_of (oset results w (Entry nd (Some v))) u) (dist_of results u)) as Hdec.
    { intros u. rewrite dist_of_oset. case_decide; [subst u; by apply ext_lt_le|apply ext_le_refl]. }
    split; cbn [fst snd].
    + by eapply update_dij.
    + assert (w ≠ v) by (intros ->; unfold settled in Hset; congruence). split.
      * unfold settled. by rewrite Hqm, lookup_insert_ne.
      * rewrite dist_of_oset. by rewrite decide_False.
    + intros u Hu Hs. eapply ext_le_trans; [apply Hdec|]. apply Hlow; [done|by apply Hse].
    + intros y [Hy| ->%list_elem_of_singleton]%elem_of_app.
      * eapply ext_le_trans; [apply Hdec|by apply Hdone].
      * fold w. rewrite dist_of_oset, decide_True by done. apply ext_le_refl.
    + intros u Hu Hs Hne y w' Hy. destruct (Hse u Hs) as [Hs' Huw]. eapply ext_le_trans; [apply Hdec|].
      rewrite dist_of_oset, decide_False by done. by apply Hold.
    + intros u Hu. unfold settled. rewrite Hqm, lookup_insert. case_decide; [right; eauto|by apply Hall].
    + by rewrite Hqm, map_size_insert, Hp0.
  - eexists. split; [done|]. split; [apply H..| | |apply Hall|done]; cbn [fst snd]; [|done].
    intros y [Hy| ->%list_elem_of_singleton]%elem_of_app; [by apply Hdone|]. by apply ext_nlt_le.
Qed.
End Update.

(** The invariant of the main loop. *)
Record main_inv g edgeFn wt source results pq : Prop := {
  mi_dij : dij g edgeFn wt source results pq;
  mi_relaxed : ∀ u, isNode g u → settled pq u → relaxed edgeFn wt results u
}.

(** Taking the minimum [v] out of the queue starts the loop over its edges. *)
Lemma start_relaxing g edgeFn wt source results pq v p pq' :
  main_inv g edgeFn wt source results pq → q_inv pq' → q_map pq !! v = Some (Fin p) →
  (∀ k p', q_map pq !! k = Some p' → ext_le (Fin p) p') → q_map pq' = delete v (q_map pq) →
  relaxing g edgeFn wt source v p (base.size (q_map pq) - 1) [] (results, pq').
Proof.
  intros [[D1 D2 D3 D4 D5 D6 D7] Hrel] Hq Hv Hmin Hm.
  destruct (D3 v _ Hv) as [Hn Hp].
  assert (∀ u, settled pq' u ↔ u = v ∨ settled pq u) as Hset.
  { intros u. unfold settled. rewrite Hm, lookup_delete. case_decide; [naive_solver|naive_solver]. }
  assert (∀ u q, q_map pq' !! u = Some q → q_map pq !! u = Some q) as Hsub.
  { intros u q. rewrite Hm, lookup_delete. by case_decide. }
  split; cbn [fst snd].
  - split; [done|done|..].
    + intros u q Hu. by apply D3, Hsub.
    + done.
    + done.
    + intros u u' q Hu [->|Hs]%Hset Hq'%Hsub; [rewrite <-Hp; by apply (Hmin u')|by apply (D6 u u')].
    + intros u e u' He Hpe. destruct (D7 u e u' He Hpe) as (y & ? & ? & zu & zv & ? & ? & ? & ?).
      exists y. do 2 (split; [done|]). exists zu, zv. split_and!; [done..|]. apply Hset. by right.
  - split; [apply Hset; by left|done].
  - intros u Hu [->|Hs]%Hset; [rewrite <-Hp; apply ext_le_refl|]. by apply (D6 u v).
  - by intros x ?%elem_of_nil.
  - intros u Hu [->|Hs]%Hset Hne; [done|by apply Hrel].
  - intros u Hu. unfold settled. destruct (q_map pq' !! u); eauto.
  - by rewrite Hm, map_size_delete, Hv, Nat.sub_1_r.
Qed.

Lemma relaxing_done g edgeFn wt source v p n es st :
  relaxing g edgeFn wt source v p n es st → edgeFn v = Some es → main_inv g edgeFn wt source st.1 st.2.
Proof.
  intros [Hd [Hs Hp] _ Hdone Hold _ _] Hes. split; [done|]. intros u Hu Hsu.
  destruct (decide (u = v)) as [->|Hne]; [|by apply Hold].
  intros x w (es' & Hes' & Hx & ->). simplify_eq. rewrite Hp. by apply Hdone.
Qed.

(** What the algorithm promises about its table. *)
Record distances g edgeFn wt source results : Prop := {
  di_nodes : ∀ v, is_Some (oget results v) ↔ isNode g v;
  di_exact : ∀ v e, oget results v = Some e → is_distance edgeFn wt source v (distance e);
  di_pred : ∀ v e u, oget results v = Some e → predecessor e = Some u →
    ∃ x zu, isNode g u ∧ arc edgeFn u x v ∧ dist_of results u = Fin zu ∧ distance e = Fin (zu + wt x)
}.

Lemma finish g edgeFn wt source results pq :
  good_edges g edgeFn → isNode g source → main_inv g edgeFn wt source results pq →
  (∀ u p, q_map pq !! u = Some p → p = Inf) → distances g edgeFn wt source results.
Proof.
  intros Hg Hs [[D1 D2 D3 D4 D5 D6 D7] Hrel] Hinf. split; [done|..].
  - intros v e He. assert (distance e = dist_of results v) as -> by (unfold dist_of; by rewrite He).
    eapply distance_exact; [done..|by apply D5| |by apply D4].
    intros u Hu. destruct (q_map pq !! u) as [p|] eqn:Hq; [|by apply Hrel].
    intros x w _. destruct (D3 u p Hq) as [_ Hp]. rewrite <-Hp, (Hinf u p Hq). simpl. by destruct (dist_of results w).
  - intros v e u He Hu. destruct (D7 v e u He Hu) as (x & ? & ? & zu & zv & ? & Hzv & -> & _). eauto 10.
Qed.

Lemma main_loop_spec fuel g edgeFn wt source results pq :
  good_edges g edgeFn → good_weights g edgeFn wt → isNode g source → main_inv g edgeFn wt source results pq →
  base.size (q_map pq) ≤ fuel →
  ∃ r, main_loop fuel edgeFn wt results pq = Ok r ∧ distances g edgeFn wt source r.
Proof.
  intros Hg Hwt Hs. revert results pq. induction fuel as [|fuel IH]; intros results pq Hinv Hf; cbn [main_loop].
  - pose proof (dj_queue _ _ _ _ _ _ (mi_dij _ _ _ _ _ _ Hinv)) as Hq. rewrite q_size_law by done.
    rewrite decide_True by lia. eexists. split; [done|]. eapply finish; [done..|].
    assert (q_map pq = ∅) as -> by (apply map_size_empty_inv; lia). intros u p. by rewrite lookup_empty.
  - pose proof (dj_queue _ _ _ _ _ _ (mi_dij _ _ _ _ _ _ Hinv)) as Hq. rewrite q_size_law by done.
    case_decide as Hz.
    { eexists. split; [done|]. eapply finish; [done..|].
      assert (q_map pq = ∅) as -> by (by apply map_size_empty_inv). intros u p. by rewrite lookup_empty. }
    destruct (q_removeMin_law pq Hq) as (v & p & pq' & -> & Hq' & Hv & Hmin & Hm).
    { intros He. rewrite He in Hz. by rewrite map_size_empty in Hz. }
    cbn [res_bind fst snd]. destruct (dj_prio _ _ _ _ _ _ (mi_dij _ _ _ _ _ _ Hinv) v p Hv) as [Hn Hp].
    destruct (proj2 (dj_nodes _ _ _ _ _ _ (mi_dij _ _ _ _ _ _ Hinv) v) Hn) as [ve Hve].
    assert (distance ve = p) as Hd by (unfold dist_of in Hp; by rewrite Hve in Hp). rewrite Hve. cbn [of_option res_bind].
    rewrite Hd. case_decide as Hpi.
    { eexists. split; [done|]. eapply finish; [done..|]. intros u q Hu. specialize (Hmin u q Hu). rewrite Hpi in Hmin. by destruct q. }
    destruct p as [p|]; [|done]. destruct (Hg v Hn) as [[es Hes] _]. rewrite Hes. cbn [of_option res_bind].
    destruct (res_fold_inv (updateNeighbors wt v) (λ done st, relaxing g edgeFn wt source v p (base.size (q_map pq) - 1) done st) es (results, pq'))
      as (st & -> & Hst).
    { by eapply start_relaxing. }
    { intros done x rest [res q] Heq Hst.
      assert (arc edgeFn v x (other_end v x)) as Hx by (exists es; split_and!; [done|rewrite Heq; set_solver|done]).
      apply updateNeighbors_ok; [done..|]. by eapply Hwt. }
    cbn [res_bind]. apply IH; [by eapply relaxing_done|].
    rewrite (rx_size _ _ _ _ _ _ _ _ _ Hst). lia.
Qed.
(** ** The initial table *)

Definition start_dist (source v : string) : ext := if decide (v = source) then Fin 0 else Inf.

Record initialised source (done : list string) (st : obj entry * Q) : Prop := {
  in_queue : q_inv st.2;
  in_map : ∀ v, q_map st.2 !! v = if decide (v ∈ done) then Some (start_dist source v) else None;
  in_res : ∀ v, oget st.1 v = if decide (v ∈ done) then Some (Entry (start_dist source v) None) else None;
  in_size : base.size (q_map st.2) = length done
}.

Lemma init_nodes_ok source (vs : list string) :
  NoDup vs → ∃ st, res_fold (init_node source) ([], q_new) vs = Ok st ∧ initialised source vs st.
Proof.
  intros Hnd. destruct q_new_law as [Hq Hm].
  apply (res_fold_inv _ (λ done st, initialised source done st)).
  - split; cbn [fst snd]; [done| |done|by rewrite Hm, map_size_empty]. intros v. by rewrite Hm, lookup_empty.
  - intros done v rest [results pq] Hvs [I1 I2 I3 I4]. cbn [fst snd] in *.
    assert (v ∉ done) as Hv.
    { rewrite Hvs in Hnd. apply NoDup_app in Hnd as (_ & Hnd & _). intros Hin. apply (Hnd v Hin). by left. }
    assert (q_map pq !! v = None) as Hnone by (rewrite I2; by rewrite decide_False).
    unfold init_node. fold (start_dist source v). cbn [fst snd].
    destruct (q_add_law pq v (start_dist source v) I1 Hnone) as (pq' & -> & Hq' & Hm').
    eexists. split; [done|]. split; cbn [fst snd]; [done|..].
    + intros u. rewrite Hm', lookup_insert, I2. destruct (decide (v = u)) as [->|].
      * by rewrite decide_True by set_solver.
      * destruct (decide (u ∈ done)); [by rewrite decide_True by set_solver|]. by rewrite decide_False by set_solver.
    + intros u. rewrite oget_oset, I3. destruct (decide (v = u)) as [->|].
      * by rewrite decide_True by set_solver.
      * destruct (decide (u ∈ done)); [by rewrite decide_True by set_solver|]. by rewrite decide_False by set_solver.
    + rewrite Hm', map_size_insert, Hnone, I4, length_app. simpl. lia.
Qed.

Lemma initial_main_inv g edgeFn wt source st :
  wf g → isNode g source → initialised source (nodes g) st → main_inv g edgeFn wt source st.1 st.2.
Proof.
  intros Hwf Hs [I1 I2 I3 _].
  assert (∀ v, dist_of st.1 v = if decide (v ∈ nodes g) then start_dist source v else Inf) as Hd.
  { intros v. unfold dist_of. rewrite I3. by case_decide. }
  split.
  - split; [done|..].
    + intros v. rewrite I3, <-elem_of_nodes. case_decide; [by split; eauto|]. split; [by intros [??]|done].
    + intros v p. rewrite I2, Hd, <-elem_of_nodes. case_decide; [by intros [= <-]|done].
    + intros v z. rewrite Hd. unfold start_dist. repeat case_decide; [|done..]. intros [= <-]. subst. constructor.
    + intros _. rewrite Hd. unfold start_dist. rewrite (decide_True (P := source = source)) by done.
      rewrite decide_True by (by apply elem_of_nodes). apply ext_le_refl.
    + intros u w p Hu. rewrite I2, decide_True by (by apply elem_of_nodes). done.
    + intros v e u. rewrite I3. case_decide; [|done]. by intros [= <-].
  - intros u Hu. unfold settled. rewrite I2, decide_True by (by apply elem_of_nodes). done.
Qed.

Lemma runDijkstra_spec g source edgeFn wt :
  wf g → isNode g source → good_edges g edgeFn → good_weights g edgeFn wt →
  ∃ r, runDijkstra g source wt edgeFn = Ok r ∧ distances g edgeFn wt source r.
Proof.
  intros Hwf Hs Hg Hwt. unfold runDijkstra.
  destruct (init_nodes_ok source (nodes g) (NoDup_nodes g Hwf)) as (st & -> & Hst). cbn [res_bind].
  eapply main_loop_spec; [done..|by apply initial_main_inv|]. by rewrite (in_size _ _ _ Hst).
Qed.

(** The default edge function. *)
Lemma outEdges_good g : wf g → good_edges g (λ v, outEdges g v None).
Proof.
  intros Hwf v Hv. destruct (outEdges_spec g v Hwf Hv) as (es & He & _ & Hes). split; [by rewrite He|].
  intros x w (es' & Hes' & Hx & ->). rewrite He in Hes'. injection Hes' as <-. apply Hes in Hx as [Hx Hxv]. unfold other_end. rewrite decide_False by congruence. by apply edges_nodes.
Qed.

Lemma dijkstraAll_spec g (wt : option (edgeObj → Z)) (edgeFn : option (string → option (list edgeObj))) :
  wf g → good_edges g (default (λ v, outEdges g v None) edgeFn) →
  good_weights g (default (λ v, outEdges g v None) edgeFn) (default (λ _, 1%Z) wt) →
  ∃ rs, dijkstraAll g wt edgeFn = Ok rs ∧ ∀ s, isNode g s → ∃ r, oget rs s = Some r ∧
    distances g (default (λ v, outEdges g v None) edgeFn) (default (λ _, 1%Z) wt) s r.
Proof.
  intros Hwf Hg Hwt. unfold dijkstraAll.
  destruct (res_fold_inv (λ acc v, r <-- dijkstra g v wt edgeFn ;; Ok (oset acc v r))
    (λ done acc, ∀ s, s ∈ done → ∃ r, oget acc s = Some r ∧
       distances g (default (λ v, outEdges g v None) edgeFn) (default (λ _, 1%Z) wt) s r) (nodes g) [])
    as (rs & Hrs & Hall).
  - by intros s ?%elem_of_nil.
  - intros done v rest acc Hvs IH. assert (isNode g v) as Hv by (apply elem_of_nodes; rewrite Hvs; set_solver).
    destruct (runDijkstra_spec g v _ _ Hwf Hv Hg Hwt) as (r & Hr & Hd). unfold dijkstra. rewrite Hr. cbn [res_bind].
    eexists. split; [done|]. intros s [Hs| ->%list_elem_of_singleton]%elem_of_app; rewrite oget_oset; case_decide; subst; eauto. done.
  - exists rs. split; [done|]. intros s Hs. apply Hall. by apply elem_of_nodes.
Qed.
End Dijkstra.
