(* ===== verification/AlgClaims.v ===== *)
(** * graphlib algorithms: what they compute

    Topological sort and cycle test, traversals, components and shortest paths on
    well-formed graphs. *)
From S2P Require Import Prelude JsObject Graphlib GraphWf GraphInv GraphQuery GraphAlg GraphDfs PriorityQueue Dijkstra.

Section Claims.
Context {L N E : Type}.
Implicit Types (g : Graph L N E).

(** C29: [topsort] returns exactly when the graph has no cycle, and then lists every node
    once, after all nodes with an edge to it; otherwise it throws its
    [CycleException].  [isAcyclic] decides whether there is a cycle. *)
Theorem topsort_correct g :
  wf g →
  (acyclic g → ∃ l, topsort g = Ok l ∧ l ≡ₚ nodes g ∧ topological g l) ∧
  (¬ acyclic g → topsort g = Throw CycleException) ∧
  ∃ b, isAcyclic g = Ok b ∧ (b = true ↔ acyclic g).
Proof.
  intros Hwf. pose proof (topsort_spec g Hwf) as Ht. unfold isAcyclic. destruct (topsort g) as [l|e].
  - destruct Ht as (? & ? & ?). split_and!; [eauto|done|]. exists true. done.
  - destruct Ht as [-> Hn]. split_and!; [done|done|]. exists false. split; [done|]. by split.
Qed.

(** [dfs] from roots of the graph lists, once each, exactly the nodes that can be
    reached from a root along edges (against them too when the graph is undirected),
    in both orders; with a root that is not a node it throws the error that names one. *)
Theorem dfs_reaches g vs post :
  wf g →
  ((∀ v, v ∈ vs → isNode g v) →
     ∃ l, dfs g vs post = Ok l ∧ NoDup l ∧ ∀ w, w ∈ l ↔ ∃ v, v ∈ vs ∧ rtc (walks g) v w) ∧
  (∀ v, v ∈ vs → ¬ isNode g v →
     ∃ u, u ∈ vs ∧ ¬ isNode g u ∧ dfs g vs post = Throw (JsError ("Graph does not have node: " +:+ u))).
Proof. intros Hwf. split; [by apply dfs_spec|]. intros v Hv Hn. by eapply dfs_missing. Qed.

(** [components] splits the nodes into the classes of nodes that are connected when
    the direction of edges is ignored. *)
Theorem components_partition g :
  wf g →
  ∃ cs, components g = Ok cs ∧ concat cs ≡ₚ nodes g ∧
    ∀ c, c ∈ cs → c ≠ [] ∧ ∀ u w, u ∈ c → w ∈ c ↔ rtc (adjacent g) u w.
Proof. apply components_spec. Qed.

End Claims.

(** ** A small network *)

Definition net_ops : list (gop unit nat nat) :=
  [OpSetEdge "a" "b" (Some (Some 7)) None; OpSetEdge "a" "c" (Some (Some 2)) None; OpSetEdge "c" "b" (Some (Some 3)) None;
   OpSetEdge "b" "d" (Some (Some 1)) None; OpSetNode "lonely" None].
Definition net : Graph unit nat nat := build true false false net_ops.

Lemma net_wf : wf net.
Proof. apply build_wf. apply (bool_decide_unpack _). vm_compute. exact I. Qed.

Definition net_weight (x : edgeObj) : Z := Z.of_nat (default 1 (edgeOf net x)).

Lemma topsort_correct_witness : wf net ∧ ∃ b, isAcyclic net = Ok b ∧ (b = true ↔ acyclic net).
Proof. split; [apply net_wf|]. exact (proj2 (proj2 (topsort_correct net net_wf))). Defined.

Lemma dfs_reaches_witness :
  wf net ∧ ∃ l, dfs net ["c"; "lonely"]%string true = Ok l ∧ NoDup l.
Proof.
  split; [apply net_wf|]. destruct (proj1 (dfs_reaches net ["c"; "lonely"]%string true net_wf)) as (l & Hl & Hnd & _).
  - intros v Hv. apply elem_of_nodes. revert v Hv. apply Forall_forall. apply (bool_decide_unpack _). vm_compute. exact I.
  - exists l. split; [exact Hl|exact Hnd].
Defined.

Lemma components_partition_witness :
  wf net ∧ ∃ cs, components net = Ok cs ∧ concat cs ≡ₚ nodes net ∧ length cs = 2.
Proof.
  split; [apply net_wf|]. destruct (components_partition net net_wf) as (cs & Hcs & Hp & _).
  exists cs. split; [exact Hcs|]. split; [exact Hp|]. vm_compute in Hcs. injection Hcs as <-. reflexivity.
Defined.

Lemma net_weight_good : good_weights net (λ v, outEdges net v None) net_weight.
Proof. intros v x w _ _. unfold net_weight. lia. Qed.

