(* ===== verification/FloydWarshall.v ===== *)
(** * graphlib algorithms: [floydWarshall] (lib/alg/floyd-warshall.js)

    The table of rows is an object of objects.  [rowI] and [rowK] can be the same row and [ik], [kj], [ij] the same entry, so every
    read goes through the current table.  Weights are integers of either sign. *)
From S2P Require Import Prelude JsObject Graphlib GraphWf GraphInv GraphQuery GraphAlg GraphDfs PriorityQueue Dijkstra AlgClaims.

Section FloydWarshall.
Context {L N E : Type}.
Implicit Types (g : Graph L N E) (wt : edgeObj → Z) (edgeFn : string → option (list edgeObj)).
Implicit Types (results : obj (obj entry)) (row : obj entry) (i j k v w : string).

(** The first row of a node: 0 for itself, infinity for the others, then its edges, a later one overwriting an earlier one. *)
Definition first_row (vs : list string) v : obj entry :=
  foldl (λ row w, if decide (v ≠ w) then oset row w (Entry Inf None) else row) (oset [] v (Entry (Fin 0) None)) vs.
Definition put_edge wt v row (edge : edgeObj) : obj entry := oset row (other_end v edge) (Entry (Fin (wt edge)) (Some v)).
Definition init_row g wt edgeFn results v : res (obj (obj entry)) :=
  es <-- of_option (edgeFn v) ;;
  Ok (oset results v (foldl (put_edge wt v) (first_row (nodes g) v) es)).

(** The body of the three loops. *)
Definition relax k i results j : res (obj (obj entry)) :=
  rowK <-- of_option (oget results k) ;;
  rowI <-- of_option (oget results i) ;;
  ik <-- of_option (oget rowI k) ;;
  kj <-- of_option (oget rowK j) ;;
  ij <-- of_option (oget rowI j) ;;
  let altDistance := ext_add (distance ik) (distance kj) in
  Ok (if decide (ext_lt altDistance (distance ij)) then oset results i (oset rowI j (Entry altDistance (predecessor kj))) else results).
Definition relax_row (vs : list string) k results i : res (obj (obj entry)) := res_fold (relax k i) results vs.
Definition relax_all (vs : list string) results k : res (obj (obj entry)) := res_fold (relax_row vs k) results vs.

Definition runFloydWarshall g wt edgeFn : res (obj (obj entry)) :=
  results <-- res_fold (init_row g wt edgeFn) [] (nodes g) ;;
  res_fold (relax_all (nodes g)) results (nodes g).

Definition floydWarshall g (weightFn : option (edgeObj → Z)) (edgeFn : option (string → option (list edgeObj))) : res (obj (obj entry)) :=
  runFloydWarshall g (default (λ _, 1%Z) weightFn) (default (λ v, outEdges g v None) edgeFn).

(** ** Paths by the nodes they pass through *)

(** What the first rows need: edges between the same nodes weigh the same, loops nothing. *)
Definition uniform g edgeFn wt : Prop :=
  (∀ v w x y, isNode g v → arc edgeFn v x w → arc edgeFn v y w → wt x = wt y) ∧ (∀ v x, isNode g v → arc edgeFn v x v → wt x = 0%Z).
Definition no_negative_cycle edgeFn wt : Prop := ∀ v z, path edgeFn wt v v z → (0 ≤ z)%Z.

Inductive via edgeFn wt (K : list string) (u : string) : string → Z → Prop :=
| via_nil : via edgeFn wt K u u 0
| via_arc x w : arc edgeFn u x w → via edgeFn wt K u w (wt x)
| via_snoc v w d x : via edgeFn wt K u v d → v ∈ K → arc edgeFn v x w → via edgeFn wt K u w (d + wt x).

Lemma path_app edgeFn wt u v w d d' : path edgeFn wt u v d → path edgeFn wt v w d' → path edgeFn wt u w (d + d').
Proof.
  intros H1 H2. induction H2 as [|w y d' x _ IH Hx]; [by rewrite Z.add_0_r|]. rewrite Z.add_assoc. by eapply path_snoc.
Qed.

Lemma path_arc edgeFn wt u x w : arc edgeFn u x w → path edgeFn wt u w (wt x).
Proof. intros Hx. rewrite <-(Z.add_0_l (wt x)). by eapply path_snoc; [constructor|]. Qed.

Lemma via_path edgeFn wt K u v z : via edgeFn wt K u v z → path edgeFn wt u v z.
Proof. induction 1; eauto using path_nil, path_arc, path_snoc. Qed.

Lemma path_via g edgeFn wt u v z : good_edges g edgeFn → isNode g u → path edgeFn wt u v z → via edgeFn wt (nodes g) u v z.
Proof.
  intros Hg Hu. induction 1 as [|v w d x Hp IH Hx]; [constructor|]. eapply via_snoc; [done| |done].
  by eapply elem_of_nodes, path_node.
Qed.

Lemma via_mono edgeFn wt K K' u v z : (∀ m, m ∈ K → m ∈ K') → via edgeFn wt K u v z → via edgeFn wt K' u v z.
Proof. intros HK. induction 1; eauto using via_nil, via_arc, via_snoc. Qed.

(** A path through one more node is a path without it, or two such paths that meet there. *)
Lemma via_split edgeFn wt K k u v z :
  no_negative_cycle edgeFn wt → via edgeFn wt (K ++ [k]) u v z →
  via edgeFn wt K u v z ∨ ∃ z1 z2, via edgeFn wt K u k z1 ∧ via edgeFn wt K k v z2 ∧ (z1 + z2 ≤ z)%Z.
Proof.
  intros Hneg. induction 1 as [|x w Hx|m w d x _ IH Hm Hx]; [left; constructor|left; by constructor|].
  apply elem_of_app in Hm as [Hm| ->%list_elem_of_singleton].
  - destruct IH as [IH|(z1 & z2 & H1 & H2 & Hle)]; [left; by eapply via_snoc|].
    right. exists z1, (z2 + wt x)%Z. split_and!; [done|by eapply via_snoc|lia].
  - right. destruct IH as [IH|(z1 & z2 & H1 & H2 & Hle)].
    + exists d, (wt x). split_and!; [done|by apply via_arc|lia].
    + exists z1, (wt x). split_and!; [done|by apply via_arc|]. apply via_path, Hneg in H2. lia.
Qed.

(** ** The table *)

Definition cell results i j : option entry := row ← oget results i; oget row j.
Definition dist results i j : ext := match cell results i j with Some e => distance e | None => Inf end.

(** An entry stands for a path; its predecessor is the last node before the end. *)
Definition entry_ok edgeFn wt i j (e : entry) : Prop :=
  match distance e with
  | Fin z =>
      path edgeFn wt i j z ∧
      match predecessor e with
      | Some u => ∃ x zu, path edgeFn wt i u zu ∧ arc edgeFn u x j ∧ z = (zu + wt x)%Z
      | None => i = j ∧ z = 0%Z
      end
  | Inf => predecessor e = None
  end.

Record sound g edgeFn wt results : Prop := {
  so_full : ∀ i j, isNode g i → isNode g j → is_Some (cell results i j);
  so_rows : ∀ i, is_Some (oget results i) → isNode g i;
  so_dom : ∀ i j, is_Some (cell results i j) → isNode g j;
  so_entry : ∀ i j e, cell results i j = Some e → entry_ok edgeFn wt i j e
}.

Lemma cell_oset results i row i' j : cell (oset results i row) i' j = if decide (i = i') then oget row j else cell results i' j.
Proof. unfold cell. rewrite oget_oset. by case_decide. Qed.

Lemma sound_row g edgeFn wt results i : sound g edgeFn wt results → isNode g i → ∃ row, oget results i = Some row ∧ ∀ j, oget row j = cell results i j.
Proof.
  intros [H _ _ _] Hi. destruct (H i i Hi Hi) as [e He]. unfold cell in *. destruct (oget results i) as [row|]; [|done]. by exists row.
Qed.

Lemma dist_cell results i j e : cell results i j = Some e → dist results i j = distance e.
Proof. unfold dist. by intros ->. Qed.

(** One step of the inner loop keeps the entries sound and lowers at most the entry of [i] and [j], to the detour over [k]. *)
Lemma relax_ok g edgeFn wt k i results j :
  sound g edgeFn wt results → isNode g k → isNode g i → isNode g j →
  ∃ r, relax k i results j = Ok r ∧ sound g edgeFn wt r ∧ (∀ a b, ext_le (dist r a b) (dist results a b)) ∧
    ext_le (dist r i j) (ext_add (dist results i k) (dist results k j)).
Proof.
  intros Hs Hk Hi Hj. destruct (sound_row _ _ _ _ k Hs Hk) as (rowK & HrK & HcK). destruct (sound_row _ _ _ _ i Hs Hi) as (rowI & HrI & HcI).
  destruct (so_full _ _ _ _ Hs i k Hi Hk) as [ik Hik]. destruct (so_full _ _ _ _ Hs k j Hk Hj) as [kj Hkj]. destruct (so_full _ _ _ _ Hs i j Hi Hj) as [ij Hij].
  unfold relax. rewrite HrK, HrI. cbn [of_option res_bind]. rewrite HcI, HcK, HcI, Hik, Hkj, Hij. cbn [of_option res_bind].
  rewrite (dist_cell _ _ _ _ Hik), (dist_cell _ _ _ _ Hkj). eexists. split; [done|]. set (alt := ext_add _ _).
  destruct (decide (ext_lt alt (distance ij))) as [Hlt|Hlt].
  2: { split_and!; [done|intros; apply ext_le_refl|]. rewrite (dist_cell _ _ _ _ Hij). by apply ext_nlt_le. }
  assert (∀ a b, cell (oset results i (oset rowI j (Entry alt (predecessor kj)))) a b =
    if decide (a = i ∧ b = j) then Some (Entry alt (predecessor kj)) else cell results a b) as Hcell.
  { intros a b. rewrite cell_oset. destruct (decide (i = a)) as [<-|].
    - rewrite oget_oset, HcI. destruct (decide (j = b)) as [<-|]; [by rewrite decide_True|by rewrite decide_False by naive_solver].
    - by rewrite decide_False by naive_solver. }
  split_and!.
  - split.
    + intros a b Ha Hb. rewrite Hcell. case_decide; [eauto|by apply Hs].
    + intros a. rewrite oget_oset. case_decide; [by subst|by apply Hs].
    + intros a b. rewrite Hcell. case_decide as Hd; [by destruct Hd as [_ ->]|by apply Hs].
    + intros a b e. rewrite Hcell. destruct (decide (a = i ∧ b = j)) as [[-> ->]|]; [|by apply Hs]. intros [= <-].
      pose proof (so_entry _ _ _ _ Hs _ _ _ Hik) as Eik. pose proof (so_entry _ _ _ _ Hs _ _ _ Hkj) as Ekj.
      unfold entry_ok in *. unfold alt in *. cbn [distance predecessor]. destruct (distance ik) as [z1|] eqn:Hd1; [|by destruct (distance ij)].
      destruct (distance kj) as [z2|]; [|by destruct (distance ij)]. cbn [ext_add] in *.
      destruct Eik as [Pik _], Ekj as [Pkj Hpred]. split; [by eapply path_app|].
      destruct (predecessor kj) as [u|].
      * destruct Hpred as (x & zu & Hzu & Hx & ->). exists x, (z1 + zu)%Z. split_and!; [by eapply path_app|done|lia].
      * destruct Hpred as [<- ->]. exfalso. rewrite Z.add_0_r in Hlt. assert (ik = ij) as <- by congruence.
        rewrite Hd1 in Hlt. by apply ext_lt_irrefl in Hlt.
  - intros a b. unfold dist at 1. rewrite Hcell. destruct (decide (a = i ∧ b = j)) as [[-> ->]|]; [|apply ext_le_refl].
    rewrite (dist_cell _ _ _ _ Hij). by apply ext_lt_le.
  - unfold dist at 1. rewrite Hcell, decide_True by done. apply ext_le_refl.
Qed.

Lemma ext_add_mono a a' b b' : ext_le a a' → ext_le b b' → ext_le (ext_add a b) (ext_add a' b').
Proof. destruct a, a', b, b'; simpl; try done; lia. Qed.

(** One turn of the outer loop takes every detour over [k]. *)
Lemma relax_all_ok g edgeFn wt results k :
  sound g edgeFn wt results → isNode g k →
  ∃ r, relax_all (nodes g) results k = Ok r ∧ sound g edgeFn wt r ∧ (∀ a b, ext_le (dist r a b) (dist results a b)) ∧
    ∀ i j, isNode g i → isNode g j → ext_le (dist r i j) (ext_add (dist results i k) (dist results k j)).
Proof.
  intros Hs Hk. unfold relax_all.
  set (better := λ r, sound g edgeFn wt r ∧ ∀ a b, ext_le (dist r a b) (dist results a b)).
  assert (∀ i r, isNode g i → better r → ∃ r', relax_row (nodes g) k r i = Ok r' ∧ better r' ∧ (∀ a b, ext_le (dist r' a b) (dist r a b)) ∧
      ∀ j, isNode g j → ext_le (dist r' i j) (ext_add (dist results i k) (dist results k j))) as Hrow.
  { intros i r Hi [Hsr Hbr]. destruct (res_fold_inv (relax k i) (λ done r', better r' ∧ (∀ a b, ext_le (dist r' a b) (dist r a b)) ∧
        ∀ j, j ∈ done → ext_le (dist r' i j) (ext_add (dist results i k) (dist results k j))) (nodes g) r) as (r' & Hr & ? & ? & Hj).
    - split; [by split|]. split; [intros; apply ext_le_refl|by intros j ?%elem_of_nil].
    - intros done j rest r1 Hsplit ([Hs1 Hb1] & Hb2 & Hd). assert (isNode g j) as Hj by (apply elem_of_nodes; rewrite Hsplit; set_solver).
      destruct (relax_ok g edgeFn wt k i r1 j Hs1 Hk Hi Hj) as (r2 & -> & Hs2 & Hm & Ha). exists r2. split; [done|]. split; [split; [done|eauto using ext_le_trans]|]. split; [eauto using ext_le_trans|].
      intros j' [Hj'| ->%list_elem_of_singleton]%elem_of_app; [eauto using ext_le_trans|].
      eapply ext_le_trans; [exact Ha|by apply ext_add_mono].
    - exists r'. split_and!; [done..|]. intros j Hjn. by apply Hj, elem_of_nodes. }
  destruct (res_fold_inv (relax_row (nodes g) k) (λ done r, better r ∧
      ∀ i j, i ∈ done → isNode g j → ext_le (dist r i j) (ext_add (dist results i k) (dist results k j))) (nodes g) results)
    as (r & Hr & [Hsr Hbr] & Hd).
  - split; [split; [done|intros; apply ext_le_refl]|by intros i j ?%elem_of_nil].
  - intros done i rest r1 Hsplit (Hb & Hd). assert (isNode g i) as Hi by (apply elem_of_nodes; rewrite Hsplit; set_solver).
    destruct (Hrow i r1 Hi Hb) as (r2 & -> & Hb2 & Hm & Ha). exists r2. split; [done|]. split; [done|].
    intros i' j [Hi'| ->%list_elem_of_singleton]%elem_of_app Hj; [eauto using ext_le_trans|by apply Ha].
  - exists r. split_and!; [done..|]. intros i j Hi. by apply Hd, elem_of_nodes.
Qed.

(** ** The first rows *)

Lemma first_row_get (vs : list string) v w : oget (first_row vs v) w =
  if decide (w = v) then Some (Entry (Fin 0) None) else if decide (w ∈ vs) then Some (Entry Inf None) else None.
Proof.
  unfold first_row. rewrite (oget_fold_set _ (λ w, if decide (v ≠ w) then Some (Entry Inf None) else None)) by (intros; by case_decide).
  destruct (decide (w = v)) as [->|Hne].
  - rewrite (decide_False (P := v ≠ v)) by naive_solver. rewrite oget_oset_eq. by case_decide.
  - rewrite (decide_True (P := v ≠ w)), oget_oset_ne by done. done.
Qed.

(** The entry a list of edges leaves at [w]: that of the last edge that leads there. *)
Lemma put_edges_get wt v es row w :
  oget (foldl (put_edge wt v) row es) w = oget row w ∨
  ∃ x, x ∈ es ∧ other_end v x = w ∧ oget (foldl (put_edge wt v) row es) w = Some (Entry (Fin (wt x)) (Some v)).
Proof.
  revert row. induction es as [|x es IH]; intros row; simpl; [by left|].
  destruct (IH (put_edge wt v row x)) as [Heq|(y & Hy & Hw & Heq)]; [|right; exists y; split_and!; [by right|done|done]].
  rewrite Heq. unfold put_edge. rewrite oget_oset. case_decide as Hd; [|by left]. right. exists x. split_and!; [by left|done|done].
Qed.

Lemma put_edges_arc wt v es row w x :
  x ∈ es → other_end v x = w → ∃ y, y ∈ es ∧ other_end v y = w ∧ oget (foldl (put_edge wt v) row es) w = Some (Entry (Fin (wt y)) (Some v)).
Proof.
  revert row. induction es as [|y es IH]; intros row Hx Hw; [by apply elem_of_nil in Hx|]. apply elem_of_cons in Hx as [->|Hx].
  - simpl. destruct (put_edges_get wt v es (put_edge wt v row y) w) as [Heq|(z & ? & ? & ?)]; [|exists z; split_and!; [by right|done|done]].
    exists y. split_and!; [by left|done|]. rewrite Heq. unfold put_edge. by rewrite Hw, oget_oset_eq.
  - destruct (IH (put_edge wt v row y) Hx Hw) as (z & ? & ? & ?). exists z. split_and!; [by right|done|done].
Qed.

Lemma init_rows_ok g edgeFn wt :
  wf g → good_edges g edgeFn → uniform g edgeFn wt →
  ∃ r, res_fold (init_row g wt edgeFn) [] (nodes g) = Ok r ∧ sound g edgeFn wt r ∧
    ∀ i j z, isNode g i → via edgeFn wt [] i j z → ext_le (dist r i j) (Fin z).
Proof.
  intros Hwf Hg [Hpar Hloop].
  set (row v := default [] (es ← edgeFn v; Some (foldl (put_edge wt v) (first_row (nodes g) v) es))).
  destruct (res_fold_inv (init_row g wt edgeFn) (λ done r, ∀ v, oget r v = if decide (v ∈ done) then Some (row v) else None) (nodes g) [])
    as (r & Hr & Hrow).
  - intros v. by rewrite decide_False by apply not_elem_of_nil.
  - intros done v rest r Hsplit Hd. destruct (Hg v) as [[es Hes] _]; [apply elem_of_nodes; rewrite Hsplit; set_solver|].
    unfold init_row. rewrite Hes. cbn [of_option res_bind]. eexists. split; [done|]. intros w. rewrite oget_oset, Hd.
    destruct (decide (v = w)) as [<-|].
    + rewrite decide_True by set_solver. unfold row. by rewrite Hes.
    + destruct (decide (w ∈ done)); [by rewrite decide_True by set_solver|by rewrite decide_False by set_solver].
  - exists r. split; [done|].
    assert (∀ i, isNode g i → ∃ es, edgeFn i = Some es ∧ ∀ j, cell r i j = oget (foldl (put_edge wt i) (first_row (nodes g) i) es) j) as Hcell.
    { intros i Hi. destruct (Hg i Hi) as [[es Hes] _]. exists es. split; [done|]. intros j. unfold cell. rewrite Hrow, decide_True by (by apply elem_of_nodes).
      unfold row. by rewrite Hes. }
    split; [split|].
    + intros i j Hi Hj. destruct (Hcell i Hi) as (es & Hes & Hc). rewrite Hc.
      destruct (put_edges_get wt i es (first_row (nodes g) i) j) as [->|(x & _ & _ & ->)]; [|eauto]. rewrite first_row_get.
      case_decide; [eauto|]. rewrite decide_True by (by apply elem_of_nodes). eauto.
    + intros i. rewrite Hrow. case_decide; [|by intros [??]]. intros _. by apply elem_of_nodes.
    + intros i j Hij. assert (isNode g i) as Hi.
      { unfold cell in Hij. rewrite Hrow in Hij. destruct (decide (i ∈ nodes g)); [by apply elem_of_nodes|by destruct Hij]. }
      destruct (Hcell i Hi) as (es & Hes & Hc). rewrite Hc in Hij.
      destruct (put_edges_get wt i es (first_row (nodes g) i) j) as [Heq|(x & Hx & Hw & _)].
      * rewrite Heq, first_row_get in Hij. case_decide; [by subst|]. case_decide; [by apply elem_of_nodes|by destruct Hij].
      * apply (proj2 (Hg i Hi) x). by exists es.
    + intros i j e Hij. assert (isNode g i) as Hi.
      { unfold cell in Hij. rewrite Hrow in Hij. destruct (decide (i ∈ nodes g)); [by apply elem_of_nodes|done]. }
      destruct (Hcell i Hi) as (es & Hes & Hc). rewrite Hc in Hij.
      destruct (put_edges_get wt i es (first_row (nodes g) i) j) as [Heq|(x & Hx & Hw & Heq)]; rewrite Heq in Hij.
      * rewrite first_row_get in Hij. case_decide as Hd; [|by case_decide; [injection Hij as <-|]].
        injection Hij as <-. subst. split; [constructor|done].
      * injection Hij as <-. assert (arc edgeFn i x j) by (by exists es). split; [by apply path_arc|].
        exists x, 0%Z. split_and!; [constructor|done|cbn; lia].
    + intros i j z Hi Hv. destruct (Hcell i Hi) as (es & Hes & Hc). inversion Hv as [|x w Hx|? ? ? ? ? []%elem_of_nil]; subst.
      * unfold dist. rewrite Hc. destruct (put_edges_get wt j es (first_row (nodes g) j) j) as [->|(x & Hx & Hw & ->)].
        -- rewrite first_row_get, decide_True by done. simpl. lia.
        -- simpl. rewrite (Hloop j x Hi); [lia|]. by exists es.
      * unfold dist. rewrite Hc. pose proof Hx as (es' & Hes' & Hin & Hw). assert (es' = es) as -> by congruence.
        destruct (put_edges_arc wt i es (first_row (nodes g) i) j x Hin (eq_sym Hw)) as (y & Hy & Hyw & ->). simpl.
        rewrite (Hpar i j y x Hi); [lia|by exists es|done].
Qed.

End FloydWarshall.

(** ** A network with a negative weight *)

Lemma out_arc {L N E} (g : Graph L N E) v x w : wf g → arc (λ v, outEdges g v None) v x w → x ∈ edges g ∧ ev x = v ∧ ew x = w.
Proof.
  intros Hwf (es & Hes & Hx & ->). unfold outEdges in Hes. pose proof (eok_out _ _ _ (wf_edges _ Hwf) v) as Ho.
  destruct (oget (out_ g) v) as [o|] eqn:Hov; [|done]. injection Hes as <-. destruct Ho as (Hv & _ & Ho).
  apply elem_of_ovalues in Hx as [e He]. apply Ho in He as [He <-]. split_and!; [by eapply elem_of_edges_key|done|].
  unfold other_end. by rewrite decide_False by naive_solver.
Qed.

(** Potentials that no edge exceeds rule out negative cycles. *)
Lemma potential_no_negative_cycle edgeFn wt (h : string → Z) :
  (∀ v x w, arc edgeFn v x w → (h w ≤ h v + wt x)%Z) → no_negative_cycle edgeFn wt.
Proof.
  intros Hh v z Hp. enough (∀ w z, path edgeFn wt v w z → (h w ≤ h v + z)%Z) as Hle by (specialize (Hle v z Hp); lia).
  clear z Hp. intros w z. induction 1 as [|u w d x _ IH Hx]; [lia|]. specialize (Hh u x w Hx). lia.
Qed.

Definition tilt (v : string) : Z := if decide (v = "d"%string) then (-4)%Z else 0%Z.
Definition net_cost (x : edgeObj) : Z := (net_weight x + tilt (ew x) - tilt (ev x))%Z.

