(* ===== verification/Tarjan.v ===== *)
(** * graphlib algorithms: [tarjan] and [findCycles] (lib/alg/tarjan.js, lib/alg/find-cycles.js)

    [entry] is the object [visited[v]], so its updates are updates of the table.  The stack is listed from its top.  The fuel
    is the depth of the recursion: an open call has entered its node. *)
From S2P Require Import Prelude JsObject Graphlib GraphWf GraphInv GraphQuery GraphAlg GraphDfs.

Record tentry := TEntry { onStack : bool; lowlink : nat; tindex : nat }.
Record tarjan_state := TState { index : nat; tstack : list string; tvisited : obj tentry; components_ : list (list string) }.

Definition set_lowlink (l : nat) (e : tentry) : tentry := TEntry (onStack e) l (tindex e).
Definition leave_stack (e : tentry) : tentry := TEntry false (lowlink e) (tindex e).

(** [do{w=stack.pop();visited[w].onStack=false;cmpt.push(w)}while(v!==w)]. *)
Fixpoint popTo (v : string) (stack : list string) (visited : obj tentry) (cmpt : list string) : res (list string * obj tentry * list string) :=
  match stack with
  | [] => Throw TypeError
  | w :: stack =>
      e <-- of_option (oget visited w) ;;
      let visited := oset visited w (leave_stack e) in
      if decide (v = w) then Ok (stack, visited, cmpt ++ [w]) else popTo v stack visited (cmpt ++ [w])
  end.

Section Tarjan.
Context {L N E : Type}.
Implicit Types (g : Graph L N E) (st : tarjan_state) (v w : string).

(** [entry.lowlink=Math.min(entry.lowlink,l)]. *)
Definition lower v (l : nat) st : res tarjan_state :=
  e <-- of_option (oget (tvisited st) v) ;;
  Ok (TState (index st) (tstack st) (oset (tvisited st) v (set_lowlink (Nat.min (lowlink e) l) e)) (components_ st)).

(** The inner loop over the successors, with the recursive call as an argument. *)
Definition tarjan_edge (call : tarjan_state → string → res tarjan_state) v st w : res tarjan_state :=
  match oget (tvisited st) w with
  | None =>
      st <-- call st w ;;
      e <-- of_option (oget (tvisited st) w) ;;
      lower v (lowlink e) st
  | Some e => if onStack e then lower v (tindex e) st else Ok st
  end.

Definition close v st : res tarjan_state :=
  e <-- of_option (oget (tvisited st) v) ;;
  if decide (lowlink e = tindex e) then
    r <-- popTo v (tstack st) (tvisited st) [] ;;
    let '(stack, visited, cmpt) := r in Ok (TState (index st) stack visited (components_ st ++ [cmpt]))
  else Ok st.

Definition enter v st : tarjan_state :=
  TState (S (index st)) (v :: tstack st) (oset (tvisited st) v (TEntry true (index st) (index st))) (components_ st).

Fixpoint tarjan_dfs (fuel : nat) g st v : res tarjan_state :=
  match fuel with
  | O => Throw (JsError "Maximum call stack size exceeded")
  | S fuel' =>
      ss <-- of_option (successors g v) ;;
      st <-- res_fold (tarjan_edge (tarjan_dfs fuel' g) v) (enter v st) ss ;;
      close v st
  end.

Definition tarjan_root g st v : res tarjan_state :=
  if ohas (tvisited st) v then Ok st else tarjan_dfs (S (length (nodes g))) g st v.
Definition tarjan g : res (list (list string)) :=
  st <-- res_fold (tarjan_root g) (TState 0 [] [] []) (nodes g) ;; Ok (components_ st).

(** [cmpt.length>1||cmpt.length===1&&g.hasEdge(cmpt[0],cmpt[0])]. *)
Definition cyclic_component g (cmpt : list string) : bool :=
  match cmpt with
  | [] => false
  | [v] => hasEdge g v v None
  | _ => true
  end.
Definition findCycles g : res (list (list string)) := cs <-- tarjan g ;; Ok (filter (λ c, cyclic_component g c = true) cs).

(** ** The invariant *)

Definition seen st v : Prop := is_Some (oget (tvisited st) v).
Definition num st v : nat := match oget (tvisited st) v with Some e => tindex e | None => 0 end.
Definition closed st v : Prop := v ∈ concat (components_ st).

(** A strongly connected component. *)
Definition strong_class g (c : list string) : Prop :=
  c ≠ [] ∧ ∀ u w, u ∈ c → w ∈ c ↔ rtc (arrow g) u w ∧ rtc (arrow g) w u.

(** [gray] lists the nodes whose calls are open. *)
Record tinv g (gray : list string) st : Prop := {
  ti_owf : owf (tvisited st);
  ti_nodes : ∀ v, seen st v → isNode g v;
  ti_index : ∀ v, seen st v → num st v < index st;
  ti_distinct : NoDup (tstack st);
  ti_on : ∀ v, v ∈ tstack st ↔ ∃ e, oget (tvisited st) v = Some e ∧ onStack e = true;
  ti_gray : ∀ v, v ∈ gray → v ∈ tstack st;
  ti_black : ∀ v w, seen st v → v ∉ gray → arrow g v w → seen st w;
  ti_reach : ∀ x y, x ∈ tstack st → y ∈ tstack st → num st x ≤ num st y → rtc (arrow g) x y;
  ti_back : ∀ y, y ∈ tstack st → ∃ x, x ∈ gray ∧ num st x ≤ num st y ∧ rtc (arrow g) y x;
  ti_done : ∀ v, closed st v ↔ seen st v ∧ v ∉ tstack st;
  ti_nodup : NoDup (concat (components_ st));
  ti_class : ∀ c, c ∈ components_ st → strong_class g c;
  ti_order : ∀ pre c post u w, components_ st = pre ++ c :: post → u ∈ c → arrow g u w → w ∈ concat (pre ++ [c])
}.

Lemma ti_closed g gray st u w : tinv g gray st → closed st u → arrow g u w → closed st w.
Proof.
  intros H (c & Hu & Hc)%elem_of_concat Ha. apply list_elem_of_split in Hc as (pre & post & Heq).
  pose proof (ti_order _ _ _ H pre c post u w Heq Hu Ha) as Hw. unfold closed. rewrite Heq.
  rewrite !concat_app in *. simpl in *. rewrite app_nil_r in Hw. set_solver.
Qed.

(** Nothing that was known changes; what is new lies above the old stack. *)
Record grown st (new : list string) st' : Prop := {
  gr_keep : ∀ u e, oget (tvisited st) u = Some e → oget (tvisited st') u = Some e;
  gr_stack : tstack st' = new ++ tstack st;
  gr_new : ∀ u, u ∈ new → ¬ seen st u;
  gr_fresh : ∀ u, seen st' u → ¬ seen st u → index st ≤ num st' u;
  gr_index : index st ≤ index st';
  gr_len : length (tvisited st) ≤ length (tvisited st')
}.

Lemma grown_seen st new st' u : grown st new st' → seen st u → seen st' u.
Proof. intros H [e He]. exists e. by apply (gr_keep _ _ _ H). Qed.

Lemma grown_num st new st' u : grown st new st' → seen st u → num st' u = num st u.
Proof. intros H [e He]. unfold num. by rewrite He, (gr_keep _ _ _ H _ _ He). Qed.

#[local] Instance seen_dec st v : Decision (seen st v).
Proof. unfold seen. apply _. Defined.

Lemma grown_trans st1 new1 st2 new2 st3 : grown st1 new1 st2 → grown st2 new2 st3 → grown st1 (new2 ++ new1) st3.
Proof.
  intros H1 H2. pose proof H1 as [A1 A2 A3 A4 A5 A6]. pose proof H2 as [B1 B2 B3 B4 B5 B6]. split; [auto|by rewrite B2, A2, app_assoc| | |lia|lia].
  - intros u [Hu|Hu]%elem_of_app; [|by apply A3]. intros Hs. apply (B3 u Hu). by eapply grown_seen.
  - intros u Hu Hn. destruct (decide (seen st2 u)) as [Hs|Hs].
    + rewrite (grown_num _ _ _ _ H2 Hs). by apply A4.
    + specialize (B4 u Hu Hs). lia.
Qed.

Lemma seen_num_stack g gray st u : tinv g gray st → u ∈ tstack st → seen st u.
Proof. intros H (e & He & _)%(ti_on _ _ _ H). by exists e. Qed.

(** ** Entering a node *)

Lemma enter_grown v st : ¬ seen st v → grown st [v] (enter v st).
Proof.
  intros Hv. assert (oget (tvisited st) v = None) as Hn by (by apply eq_None_not_Some). unfold enter. split; cbn.
  - intros u e Hu. rewrite oget_oset_ne; [done|]. intros ->. congruence.
  - done.
  - intros u ->%list_elem_of_singleton. done.
  - intros u. unfold seen, num. cbn. rewrite oget_oset. case_decide; [intros _ _; cbn; lia|done].
  - lia.
  - rewrite length_oset_None by done. lia.
Qed.

Lemma enter_inv g gray v st :
  tinv g gray st → ¬ seen st v → isNode g v → (∀ x, x ∈ gray → rtc (arrow g) x v) → tinv g (v :: gray) (enter v st).
Proof.
  intros H Hv Hn Hg. pose proof (enter_grown v st Hv) as G. pose proof H as [I1 I2 I3 I4 I5 I6 I7 I8 I9 I10 I11 I12 I13].
  assert (∀ u, seen (enter v st) u ↔ u = v ∨ seen st u) as Hs.
  { intros u. unfold seen, enter. cbn. rewrite oget_oset. case_decide; naive_solver. }
  assert (num (enter v st) v = index st) as Hnv by (unfold num, enter; cbn; by rewrite oget_oset_eq).
  assert (∀ u, u ∈ tstack st → num (enter v st) u = num st u) as Hnu.
  { intros u Hu. eapply grown_num; [done|]. by eapply seen_num_stack. }
  assert (∀ u, u ∈ tstack st → num st u < index st) as Hlt by (intros u Hu; apply I3; by eapply seen_num_stack).
  assert (v ∉ tstack st) as Hvs by (intros Hin; apply Hv; by eapply seen_num_stack).
  split; cbn [tvisited tstack index components_ enter].
  - by apply owf_oset.
  - intros u [->|Hu]%Hs; [done|by apply I2].
  - intros u [->|Hu]%Hs; [rewrite Hnv; lia|]. rewrite (grown_num _ _ _ _ G Hu). specialize (I3 u Hu). lia.
  - by constructor.
  - intros u. rewrite elem_of_cons, oget_oset, I5. destruct (decide (v = u)) as [<-|].
    + split; [eauto|]. by left.
    + naive_solver.
  - intros u [->|Hu]%elem_of_cons; [by left|right; auto].
  - intros u w [->|Hu]%Hs Hng Ha; [set_solver|]. apply Hs. right. eapply I7; [done|set_solver|done].
  - intros x y [->|Hx]%elem_of_cons [->|Hy]%elem_of_cons; rewrite ?Hnv; intros Hle; [done| | |].
    + rewrite Hnu in Hle by done. specialize (Hlt y Hy). lia.
    + destruct (I9 x Hx) as (x' & Hg' & _ & Hr). etrans; [exact Hr|auto].
    + rewrite !Hnu in Hle by done. auto.
  - intros y [->|Hy]%elem_of_cons; [exists v; split_and!; [by left|lia|done]|].
    destruct (I9 y Hy) as (x & Hx & Hle & Hr). exists x. rewrite !Hnu by auto. split_and!; [by right|done|done].
  - intros u. etrans; [apply I10|]. rewrite Hs, elem_of_cons. split; [|naive_solver]. intros [Hu Hus]. split; [by right|]. intros [->|?]; done.
  - done.
  - done.
  - done.
Qed.

(** ** Lowering a lowlink *)

Definition put_lowlink v (e : tentry) (l : nat) st : tarjan_state :=
  TState (index st) (tstack st) (oset (tvisited st) v (set_lowlink l e)) (components_ st).

Lemma lower_eq v l st e : oget (tvisited st) v = Some e → lower v l st = Ok (put_lowlink v e (Nat.min (lowlink e) l) st).
Proof. unfold lower. by intros ->. Qed.

Lemma put_lowlink_num v e l st u : oget (tvisited st) v = Some e → num (put_lowlink v e l st) u = num st u.
Proof. intros He. unfold num. cbn. rewrite oget_oset. case_decide; [subst; by rewrite He|done]. Qed.

Lemma put_lowlink_seen v e l st u : oget (tvisited st) v = Some e → seen (put_lowlink v e l st) u ↔ seen st u.
Proof. intros He. unfold seen. cbn. rewrite oget_oset. case_decide; [subst; rewrite He; naive_solver|done]. Qed.

Lemma put_lowlink_inv g gray v e l st : tinv g gray st → oget (tvisited st) v = Some e → tinv g gray (put_lowlink v e l st).
Proof.
  intros [I1 I2 I3 I4 I5 I6 I7 I8 I9 I10 I11 I12 I13] He.
  split; try setoid_rewrite (put_lowlink_seen v e l st); try setoid_rewrite (put_lowlink_num v e l st); try done.
  - by apply owf_oset.
  - intros u. rewrite I5. cbn. rewrite oget_oset. case_decide; [subst|done]. rewrite He. split.
    + intros (e' & [= <-] & Ho). eexists. split; [done|]. done.
    + intros (e' & [= <-] & Ho). eauto.
Qed.

Lemma put_lowlink_grown st new v e l st' :
  grown st new st' → oget (tvisited st') v = Some e → ¬ seen st v → grown st new (put_lowlink v e l st').
Proof.
  intros [G1 G2 G3 G4 G5 G6] He Hv. split; try done.
  - intros u e' Hu. cbn. rewrite oget_oset_ne; [auto|]. intros ->. apply Hv. by eexists.
  - intros u. rewrite put_lowlink_seen, put_lowlink_num by done. auto.
  - cbn. by rewrite (length_oset_Some _ _ _ _ He).
Qed.

(** ** The loop over the successors *)

(** What a call for [v] leaves: its lowlink is its own index when its component is complete, otherwise the index of a node of the old
    stack that it reaches; no edge from the nodes it left on the stack goes further down. *)
Definition low_spec g st v (new : list string) (e : tentry) (complete : Prop) : Prop :=
  (complete ∧ lowlink e = tindex e ∨ ∃ y, y ∈ tstack st ∧ num st y = lowlink e ∧ rtc (arrow g) v y) ∧
  ∀ x y, x ∈ new → y ∈ tstack st → arrow g x y → lowlink e ≤ num st y.

Definition called g gray st v st' : Prop :=
  ∃ new e, tinv g gray st' ∧ grown st new st' ∧ oget (tvisited st') v = Some e ∧ index st ≤ tindex e ∧ low_spec g st v new e (new = []).

Record looping g gray st v (seen_edges : list string) (new : list string) (e : tentry) st1 : Prop := {
  lo_inv : tinv g (v :: gray) st1;
  lo_grown : grown st (new ++ [v]) st1;
  lo_entry : oget (tvisited st1) v = Some e;
  lo_tindex : tindex e = index st;
  lo_low : lowlink e ≤ tindex e;
  lo_spec : low_spec g st v new e True;
  lo_done : ∀ w, w ∈ seen_edges → seen st1 w ∧ (w ∈ tstack st → lowlink e ≤ num st w)
}.

(** Lowering the lowlink of [v] to the index of a node that [v] reaches, in a state where more has been visited. *)
Lemma looping_lower g gray st v seen_edges new new2 e st1 st2 w l :
  looping g gray st v seen_edges new e st1 → ¬ seen st v → tinv g gray st →
  tinv g (v :: gray) st2 → grown st1 new2 st2 → seen st2 w →
  (tindex e ≤ l ∨ ∃ y, y ∈ tstack st1 ∧ num st1 y = l ∧ rtc (arrow g) v y) →
  (w ∈ tstack st → l ≤ num st w) →
  (∀ x y, x ∈ new2 → y ∈ tstack st1 → arrow g x y → l ≤ num st1 y) →
  ∃ e', lower v l st2 = Ok (put_lowlink v e (Nat.min (lowlink e) l) st2) ∧
    looping g gray st v (seen_edges ++ [w]) (new2 ++ new) e' (put_lowlink v e (Nat.min (lowlink e) l) st2).
Proof.
  intros [A1 A2 A3 A4 A5 [A6 A7] A8] Hv Hst Hinv G Hw Hl Hlw Hnew2. exists (set_lowlink (Nat.min (lowlink e) l) e).
  assert (oget (tvisited st2) v = Some e) as He by (by apply (gr_keep _ _ _ G)). split; [by apply lower_eq|].
  assert (∀ y, y ∈ tstack st → y ∈ tstack st1 ∧ num st1 y = num st y) as Hold.
  { intros y Hy. rewrite (gr_stack _ _ _ A2). split; [set_solver|]. eapply grown_num; [done|]. by eapply seen_num_stack. }
  split.
  - by apply put_lowlink_inv.
  - apply put_lowlink_grown; [|done|done]. pose proof (grown_trans _ _ _ _ _ A2 G) as G2. by rewrite app_assoc in G2.
  - cbn. by rewrite oget_oset_eq.
  - done.
  - cbn. lia.
  - split; cbn [lowlink set_lowlink tindex].
    + destruct (Nat.min_spec (lowlink e) l) as [[Hlt ->]|[Hle ->]]; [done|].
      destruct Hl as [Hl|(y & Hy & Hny & Hr)].
      { assert (lowlink e = l) as <- by lia. done. }
      destruct (decide (lowlink e = l)) as [<-|Hne]; [done|]. right. exists y.
      rewrite (gr_stack _ _ _ A2) in Hy. apply elem_of_app in Hy as [Hy|Hy].
      * exfalso. assert (index st ≤ num st1 y); [|lia]. apply (gr_fresh _ _ _ A2); [|by apply (gr_new _ _ _ A2)].
        eapply seen_num_stack; [exact A1|]. rewrite (gr_stack _ _ _ A2). set_solver.
      * split_and!; [done| |done]. destruct (Hold y Hy) as [_ <-]. done.
    + intros x y [Hx|Hx]%elem_of_app Hy Ha.
      * destruct (Hold y Hy) as [Hy1 <-]. specialize (Hnew2 x y Hx Hy1 Ha). lia.
      * specialize (A7 x y Hx Hy Ha). lia.
  - intros u [Hu| ->%list_elem_of_singleton]%elem_of_app; rewrite put_lowlink_seen by done; cbn [lowlink set_lowlink].
    + destruct (A8 u Hu) as [Hs Hlow]. split; [by eapply grown_seen|]. intros Hin. specialize (Hlow Hin). lia.
    + split; [done|]. intros Hin. specialize (Hlw Hin). lia.
Qed.

Lemma grown_refl st : grown st [] st.
Proof. split; try done. by intros u ?%elem_of_nil. Qed.

Lemma tarjan_edge_ok g gray st v seen_edges new e st1 call w :
  looping g gray st v seen_edges new e st1 → ¬ seen st v → tinv g gray st → (∀ x, x ∈ gray → rtc (arrow g) x v) → wf g → arrow g v w →
  (tinv g (v :: gray) st1 → ¬ seen st1 w → isNode g w → (∀ x, x ∈ v :: gray → rtc (arrow g) x w) →
     ∃ st2, call st1 w = Ok st2 ∧ called g (v :: gray) st1 w st2) →
  ∃ st2 new' e', tarjan_edge call v st1 w = Ok st2 ∧ looping g gray st v (seen_edges ++ [w]) new' e' st2.
Proof.
  intros Lo Hv Hst Hgray Hwf Ha Hcall. pose proof Lo as [A1 A2 A3 A4 A5 [A6 A7] A8].
  assert (∀ y, y ∈ tstack st → y ∈ tstack st1 ∧ num st1 y = num st y) as Hold.
  { intros y Hy. rewrite (gr_stack _ _ _ A2). split; [set_solver|]. eapply grown_num; [done|]. by eapply seen_num_stack. }
  unfold tarjan_edge. destruct (oget (tvisited st1) w) as [ew|] eqn:Hw.
  - assert (seen st1 w) as Hs by (by eexists). assert (num st1 w = tindex ew) as Hnum by (unfold num; by rewrite Hw). destruct (onStack ew) eqn:Hon.
    + assert (w ∈ tstack st1) as Hin by (apply (ti_on _ _ _ A1); eauto).
      destruct (looping_lower g gray st v seen_edges new [] e st1 st1 w (tindex ew) Lo Hv Hst A1 (grown_refl st1) Hs) as (e' & -> & Lo').
      * right. exists w. split_and!; [done|done|by apply rtc_once].
      * intros Hwst. destruct (Hold w Hwst) as [_ <-]. lia.
      * by intros x y ?%elem_of_nil.
      * by eexists _, _, e'.
    + exists st1, new, e. split; [done|]. split; try done. intros u [Hu| ->%list_elem_of_singleton]%elem_of_app; [by apply A8|].
      split; [done|]. intros Hin. destruct (Hold w Hin) as [Hin1 _]. apply (ti_on _ _ _ A1) in Hin1 as (e2 & He2 & Ho2). congruence.
  - assert (¬ seen st1 w) as Hns by (unfold seen; rewrite Hw; by intros [??]).
    destruct (Hcall A1 Hns) as (st2 & -> & new2 & ew & B1 & B2 & B3 & B4 & B5 & B6).
    { by apply (arrow_nodes g v w). }
    { intros x [->|Hx]%elem_of_cons; [by apply rtc_once|]. eapply rtc_r; [by apply Hgray|done]. }
    cbn [res_bind]. rewrite B3. cbn [of_option res_bind].
    assert (tindex e < index st1) as Hlt.
    { pose proof (ti_index _ _ _ A1 v) as Hi. unfold num, seen in Hi. rewrite A3 in Hi. apply Hi. eauto. }
    destruct (looping_lower g gray st v seen_edges new new2 e st1 st2 w (lowlink ew) Lo Hv Hst B1 B2) as (e' & -> & Lo').
    * by eexists.
    * destruct B5 as [[_ Hc]|(y & Hy & Hny & Hr)]; [left; lia|]. right. exists y. split_and!; [done|done|]. by eapply rtc_l.
    * intros Hin. destruct Hns. eapply seen_num_stack; [exact A1|]. by apply Hold.
    * done.
    * by eexists _, _, e'.
Qed.

(** ** Completing a component *)

Lemma popTo_ok v new old visited cmpt :
  v ∉ new → NoDup new → owf visited → (∀ u, u ∈ new ++ [v] → is_Some (oget visited u)) →
  ∃ visited', popTo v (new ++ v :: old) visited cmpt = Ok (old, visited', cmpt ++ new ++ [v]) ∧ owf visited' ∧ length visited' = length visited ∧
    ∀ u, oget visited' u = if decide (u ∈ new ++ [v]) then leave_stack <$> oget visited u else oget visited u.
Proof.
  revert visited cmpt. induction new as [|w new IH]; intros visited cmpt Hv Hnd Hwf Hin; simpl.
  - destruct (Hin v) as [e He]; [set_solver|]. rewrite He. cbn. rewrite decide_True by done. eexists. split; [done|].
    split_and!; [by apply owf_oset|by apply (length_oset_Some _ _ _ _ He)|]. intros u. rewrite oget_oset.
    destruct (decide (v = u)) as [<-|]; [rewrite decide_True by set_solver; by rewrite He|by rewrite decide_False by set_solver].
  - apply not_elem_of_cons in Hv as [Hvw Hv]. apply NoDup_cons in Hnd as [Hw Hnd].
    destruct (Hin w) as [e He]; [by left|]. rewrite He. cbn [of_option res_bind]. rewrite decide_False by done.
    destruct (IH (oset visited w (leave_stack e)) (cmpt ++ [w])) as (vis' & -> & Hw' & Hl' & Hg'); [done|done|by apply owf_oset| |].
    { intros u Hu. rewrite oget_oset. case_decide; [eauto|]. apply Hin. by right. }
    exists vis'. split_and!; [by rewrite <-!app_assoc|done|by rewrite Hl', (length_oset_Some _ _ _ _ He)|].
    intros u. rewrite Hg', oget_oset. destruct (decide (w = u)) as [<-|].
    + rewrite (decide_True (P := w ∈ w :: _)) by (by left). rewrite decide_False by set_solver. by rewrite He.
    + destruct (decide (u ∈ new ++ [v])); [by rewrite decide_True by set_solver|by rewrite decide_False by set_solver].
Qed.

(** All successors of [v] are done. *)
Section Close.
Context g (gray : list string) st v (new : list string) (e : tentry) st1 (Hwf : wf g) (Hvn : isNode g v).
Context (Lo : looping g gray st v (default [] (successors g v)) new e st1) (Hv : ¬ seen st v) (Hst : tinv g gray st).

Lemma old_kept y : y ∈ tstack st → y ∈ tstack st1 ∧ num st1 y = num st y.
Proof.
  intros Hy. rewrite (gr_stack _ _ _ (lo_grown _ _ _ _ _ _ _ _ Lo)). split; [apply elem_of_app; by right|]. eapply grown_num; [apply Lo|]. by eapply seen_num_stack.
Qed.

Lemma top_num : num st1 v = tindex e.
Proof. unfold num. by rewrite (lo_entry _ _ _ _ _ _ _ _ Lo). Qed.

Lemma old_below y : y ∈ tstack st → num st y < num st1 v.
Proof.
  intros Hy. rewrite top_num, (lo_tindex _ _ _ _ _ _ _ _ Lo). apply (ti_index _ _ _ Hst). by eapply seen_num_stack.
Qed.

Lemma new_on_stack u : u ∈ new ++ [v] → u ∈ tstack st1.
Proof. intros Hu. rewrite (gr_stack _ _ _ (lo_grown _ _ _ _ _ _ _ _ Lo)). apply elem_of_app. by left. Qed.

Lemma new_above u : u ∈ new ++ [v] → num st1 v ≤ num st1 u.
Proof.
  intros Hu. rewrite top_num, (lo_tindex _ _ _ _ _ _ _ _ Lo). pose proof (lo_grown _ _ _ _ _ _ _ _ Lo) as G.
  apply (gr_fresh _ _ _ G); [|by apply (gr_new _ _ _ G)]. eapply seen_num_stack; [apply Lo|by apply new_on_stack].
Qed.

Lemma stack_parts : NoDup (new ++ [v]) ∧ ∀ u, u ∈ new ++ [v] → u ∉ tstack st.
Proof.
  pose proof (ti_distinct _ _ _ (lo_inv _ _ _ _ _ _ _ _ Lo)) as Hnd.
  rewrite (gr_stack _ _ _ (lo_grown _ _ _ _ _ _ _ _ Lo)) in Hnd. by apply NoDup_app in Hnd as (? & ? & _).
Qed.

Lemma new_not_gray u : u ∈ new → u ∉ v :: gray.
Proof.
  destruct stack_parts as [Hnd Hdisj]. intros Hu [->|Hg]%elem_of_cons.
  - apply NoDup_app in Hnd as (_ & Hd & _). by apply (Hd v Hu), list_elem_of_singleton.
  - apply (Hdisj u); [apply elem_of_app; by left|by apply (ti_gray _ _ _ Hst)].
Qed.

Lemma v_edges u : arrow g v u → seen st1 u ∧ (u ∈ tstack st → lowlink e ≤ num st u).
Proof. intros Hu. apply (lo_done _ _ _ _ _ _ _ _ Lo). by apply elem_of_succs. Qed.

Lemma new_not_closed u : u ∈ new ++ [v] → ¬ closed st1 u.
Proof. intros Hu Hc. apply (ti_done _ _ _ (lo_inv _ _ _ _ _ _ _ _ Lo)) in Hc as [_ Hc]. by apply Hc, new_on_stack. Qed.

Lemma component_out x y : lowlink e = tindex e → x ∈ new ++ [v] → arrow g x y → y ∈ new ++ [v] ∨ closed st1 y.
Proof.
  intros Hlow Hx Ha. pose proof (lo_inv _ _ _ _ _ _ _ _ Lo) as I.
  assert (seen st1 y ∧ (y ∈ tstack st → lowlink e ≤ num st y)) as [Hy Hyl].
  { apply elem_of_app in Hx as [Hx| ->%list_elem_of_singleton]; [|by apply v_edges]. split.
    - eapply (ti_black _ _ _ I x y); [eapply seen_num_stack; [exact I|apply new_on_stack, elem_of_app; by left]|by apply new_not_gray|done].
    - intros Hy. by apply (proj2 (lo_spec _ _ _ _ _ _ _ _ Lo) x y). }
  destruct (decide (y ∈ tstack st1)) as [Hys|Hys]; [|right; by apply (ti_done _ _ _ I)].
  rewrite (gr_stack _ _ _ (lo_grown _ _ _ _ _ _ _ _ Lo)) in Hys. apply elem_of_app in Hys as [?|Hys]; [by left|].
  specialize (Hyl Hys). pose proof (old_below y Hys). pose proof top_num. lia.
Qed.

Lemma closed_reaches u w : closed st1 u → rtc (arrow g) u w → closed st1 w.
Proof. intros Hc Hr. induction Hr as [|a b c Hab _ IH]; [done|]. apply IH. eapply ti_closed; [apply Lo|done|done]. Qed.

Lemma component_strong : lowlink e = tindex e → strong_class g (new ++ [v]).
Proof.
  intros Hlow. pose proof (lo_inv _ _ _ _ _ _ _ _ Lo) as I. split; [by destruct new|].
  assert (v ∈ tstack st1) as Hvs by (apply new_on_stack, elem_of_app; right; by left).
  assert (∀ u, u ∈ new ++ [v] → rtc (arrow g) v u ∧ rtc (arrow g) u v) as Hvu.
  { intros u Hu. split; [apply (ti_reach _ _ _ I); [done|by apply new_on_stack|by apply new_above]|].
    destruct (ti_back _ _ _ I u (new_on_stack u Hu)) as (x & Hx & _ & Hr). etrans; [exact Hr|].
    apply (ti_reach _ _ _ I); [by apply (ti_gray _ _ _ I)|done|]. apply elem_of_cons in Hx as [->|Hx]; [lia|].
    apply (ti_gray _ _ _ Hst) in Hx. destruct (old_kept x Hx) as [_ ->]. by apply Nat.lt_le_incl, old_below. }
  intros u w Hu. split.
  - intros Hw. destruct (Hvu u Hu), (Hvu w Hw). split; by etrans.
  - intros [Huw Hwu]. destruct (decide (w ∈ new ++ [v])) as [|Hw]; [done|]. destruct (new_not_closed u Hu). apply (closed_reaches w u); [|done].
    clear Hwu. induction Huw as [|u u' w Ha Huw IH]; [done|]. destruct (component_out u u' Hlow Hu Ha) as [?|Hc]; [by apply IH|]. by eapply closed_reaches.
Qed.

Context (visited' : obj tentry) (Hlow : lowlink e = tindex e) (Hw' : owf visited') (Hlen : length visited' = length (tvisited st1)).
Context (Hget : ∀ u, oget visited' u = if decide (u ∈ new ++ [v]) then leave_stack <$> oget (tvisited st1) u else oget (tvisited st1) u).

(** The state after the pop. *)
Let st' := TState (index st1) (tstack st) visited' (components_ st1 ++ [new ++ [v]]).

Lemma popped_seen u : seen st' u ↔ seen st1 u.
Proof. unfold seen, st'; cbn. rewrite Hget. case_decide; [|done]. by rewrite fmap_is_Some. Qed.

Lemma popped_num u : num st' u = num st1 u.
Proof. unfold num, st'. cbn. rewrite Hget. case_decide; [|done]. by destruct (oget (tvisited st1) u). Qed.

Lemma popped_closed u : closed st' u ↔ closed st1 u ∨ u ∈ new ++ [v].
Proof. unfold closed, st'. cbn [components_]. rewrite concat_app. cbn. by rewrite app_nil_r, elem_of_app. Qed.

Lemma popped_grown : grown st [] st'.
Proof.
  destruct (lo_grown _ _ _ _ _ _ _ _ Lo) as [G1 G2 G3 G4 G5 G6]. split; [|done|by intros u ?%elem_of_nil| |done|].
  - intros u e' Hu. cbn. rewrite Hget, decide_False; [by apply G1|]. intros Hc. apply (G3 u Hc). by eexists.
  - intros u Hu%popped_seen Hn. rewrite popped_num. by apply G4.
  - cbn. by rewrite Hlen.
Qed.

Lemma popped_order pre c post u w : components_ st' = pre ++ c :: post → u ∈ c → arrow g u w → w ∈ concat (pre ++ [c]).
Proof.
  pose proof (lo_inv _ _ _ _ _ _ _ _ Lo) as I. cbn. destruct post as [|d post _] using rev_ind; intros Heq Hu Ha.
  - apply app_inj_tail in Heq as [<- <-]. rewrite concat_app. cbn. rewrite app_nil_r, elem_of_app.
    destruct (component_out u w Hlow Hu Ha); [by right|by left].
  - change (pre ++ c :: post ++ [d]) with (pre ++ (c :: post) ++ [d]) in Heq. rewrite app_assoc in Heq. apply app_inj_tail in Heq as [Heq _].
    by eapply (ti_order _ _ _ I).
Qed.

Lemma popped_inv : tinv g gray st'.
Proof.
  pose proof (lo_inv _ _ _ _ _ _ _ _ Lo) as I. pose proof I as [I1 I2 I3 I4 I5 I6 I7 I8 I9 I10 I11 I12 I13].
  destruct stack_parts as [Hnd Hdisj]. pose proof (gr_stack _ _ _ (lo_grown _ _ _ _ _ _ _ _ Lo)) as Hstk. split.
  - done.
  - intros u Hu%popped_seen. auto.
  - intros u Hu%popped_seen. rewrite popped_num. by apply I3.
  - apply (ti_distinct _ _ _ Hst).
  - intros u. cbn. rewrite Hget. split.
    + intros Hu. rewrite decide_False by (intros Hc; by apply (Hdisj u Hc)). apply I5. by apply old_kept.
    + case_decide as Hd.
      * intros (e' & He' & Ho). destruct (oget (tvisited st1) u); [|done]. injection He' as <-. done.
      * intros He'. apply I5 in He'. rewrite Hstk in He'. apply elem_of_app in He' as [?|?]; done.
  - apply (ti_gray _ _ _ Hst).
  - intros u w Hu%popped_seen Hng Ha. apply popped_seen. destruct (decide (u = v)) as [->|]; [by apply v_edges|]. eapply I7; [done|set_solver|done].
  - intros x y Hx Hy. rewrite !popped_num. intros Hle. destruct (old_kept x Hx), (old_kept y Hy). by apply I8.
  - intros y Hy. rewrite popped_num. destruct (I9 y) as (x & Hx & Hle & Hr); [by apply old_kept|]. exists x. rewrite popped_num. split_and!; [|done|done].
    apply elem_of_cons in Hx as [->|Hx]; [|done]. pose proof (old_below y Hy). destruct (old_kept y Hy) as [_ Hny]. lia.
  - intros u. rewrite popped_closed, popped_seen, I10, Hstk, elem_of_app. cbn. split.
    + intros [[? ?]|Hu]; [naive_solver|]. split; [eapply seen_num_stack; [exact I|by apply new_on_stack]|]. intros Hc. by apply (Hdisj u Hu).
    + intros [Hu Hns]. destruct (decide (u ∈ new ++ [v])); [by right|]. left. naive_solver.
  - cbn. rewrite concat_app. cbn. rewrite app_nil_r. apply NoDup_app. split_and!; [done| |done]. intros u Hc Hu. by apply (new_not_closed u).
  - cbn. intros c [Hc| ->%list_elem_of_singleton]%elem_of_app; [by apply I12|by apply component_strong].
  - apply popped_order.
Qed.
End Close.

(** When [v] is not the first node of its component it stays on the stack. *)
Lemma stay_inv g gray st v new e st1 :
  wf g → isNode g v → looping g gray st v (default [] (successors g v)) new e st1 → tinv g gray st → lowlink e ≠ tindex e → tinv g gray st1.
Proof.
  intros Hwf Hvn Lo Hst Hne. pose proof (lo_inv _ _ _ _ _ _ _ _ Lo) as I. pose proof I as [I1 I2 I3 I4 I5 I6 I7 I8 I9 I10 I11 I12 I13]. split; try done.
  - intros u Hu. apply I6. by right.
  - intros u w Hu Hng Ha. destruct (decide (u = v)) as [->|]; [by eapply v_edges|]. eapply I7; [done|set_solver|done].
  - intros y Hy. destruct (I9 y Hy) as (x & Hx & Hle & Hr). apply elem_of_cons in Hx as [->|Hx]; [|eauto].
    destruct (proj1 (lo_spec _ _ _ _ _ _ _ _ Lo)) as [[_ ?]|(z & Hz & Hnz & Hvz)]; [done|].
    destruct (old_kept g gray st v new e st1 Lo Hst z Hz) as [Hz1 Hzn]. pose proof (lo_low _ _ _ _ _ _ _ _ Lo). pose proof (top_num g gray st v new e st1 Lo).
    destruct (I9 z Hz1) as (x' & Hx' & Hle' & Hr'). exists x'. split_and!; [|lia|by do 2 etrans].
    apply elem_of_cons in Hx' as [->|?]; [lia|done].
Qed.

Lemma close_ok g gray st v new e st1 :
  wf g → isNode g v → looping g gray st v (default [] (successors g v)) new e st1 → ¬ seen st v → tinv g gray st →
  ∃ st', close v st1 = Ok st' ∧ called g gray st v st'.
Proof.
  intros Hwf Hvn Lo Hv Hst. pose proof Lo as [A1 A2 A3 A4 A5 A6 A8]. unfold close. rewrite A3. cbn [of_option res_bind].
  destruct (decide (lowlink e = tindex e)) as [Hlow|Hlow].
  - destruct (stack_parts g gray st v new e st1 Lo) as [Hnd Hdisj]. apply NoDup_app in Hnd as (Hnd & Hvnew & _).
    rewrite (gr_stack _ _ _ A2), <-app_assoc. cbn [app].
    destruct (popTo_ok v new (tstack st) (tvisited st1) []) as (vis' & -> & Hw' & Hlen & Hget); [|done|apply A1| |].
    { intros Hin. by apply (Hvnew v Hin), list_elem_of_singleton. }
    { intros u Hu. eapply seen_num_stack; [exact A1|]. by eapply new_on_stack. }
    cbn [res_bind app]. eexists. split; [done|]. exists [], (leave_stack e). split_and!.
    + by eapply popped_inv.
    + by eapply popped_grown.
    + cbn. rewrite Hget, decide_True by set_solver. by rewrite A3.
    + cbn. lia.
    + split; [by left|]. by intros x y ?%elem_of_nil.
  - exists st1. split; [done|]. exists (new ++ [v]), e. split_and!; [by eapply stay_inv|done|done|lia|]. destruct A6 as [B1 B2]. split.
    + destruct B1 as [[_ ?]|?]; [done|by right].
    + intros x y [Hx| ->%list_elem_of_singleton]%elem_of_app Hy Ha; [by eapply B2|]. by eapply v_edges.
Qed.

(** ** The recursion *)

Lemma seen_bound g gray st : tinv g gray st → length (tvisited st) ≤ length (nodes g).
Proof.
  intros H. rewrite <-(length_fmap fst). apply submseteq_length, NoDup_submseteq; [apply H|].
  intros v Hv. apply elem_of_nodes, (ti_nodes _ _ _ H). by apply oget_keys.
Qed.

Lemma grown_longer st new st' v : owf (tvisited st) → grown st new st' → seen st' v → ¬ seen st v → length (tvisited st) < length (tvisited st').
Proof.
  intros Hwf G Hv Hn. enough (length (v :: (tvisited st).*1) ≤ length ((tvisited st').*1)) as Hl by (cbn in Hl; rewrite !length_fmap in Hl; lia).
  apply submseteq_length, NoDup_submseteq.
  - constructor; [|done]. intros Hin. apply Hn. by apply oget_keys.
  - intros u [->|Hu]%elem_of_cons; apply oget_keys; [done|]. eapply grown_seen; [done|]. by apply oget_keys.
Qed.

Lemma tarjan_dfs_ok fuel g gray st v :
  wf g → tinv g gray st → ¬ seen st v → isNode g v → (∀ x, x ∈ gray → rtc (arrow g) x v) →
  length (nodes g) - length (tvisited st) < fuel →
  ∃ st', tarjan_dfs fuel g st v = Ok st' ∧ called g gray st v st'.
Proof.
  intros Hwf. revert gray st v. induction fuel as [|fuel IH]; intros gray st v Hst Hv Hn Hgray Hf; [lia|]. cbn [tarjan_dfs].
  destruct (successors_spec g v Hwf Hn) as (ss & Hss & _ & Hel). rewrite Hss. cbn [of_option res_bind].
  pose proof (enter_inv g gray v st Hst Hv Hn Hgray) as I0. pose proof (enter_grown v st Hv) as G0.
  destruct (res_fold_inv (tarjan_edge (tarjan_dfs fuel g) v) (λ done st1, ∃ new e, looping g gray st v done new e st1) ss (enter v st))
    as (st1 & -> & new & e & Lo).
  - exists [], (TEntry true (index st) (index st)). split; [done|done|cbn; by rewrite oget_oset_eq|done|done| |by intros w ?%elem_of_nil].
    split; [by left|]. by intros x y ?%elem_of_nil.
  - intros done w rest st1 Hsplit (new & e & Lo).
    assert (arrow g v w) as Ha. { destruct (proj1 (Hel w)) as (x & ? & ? & ?); [rewrite Hsplit; set_solver|]. by exists x. }
    destruct (tarjan_edge_ok g gray st v done new e st1 (tarjan_dfs fuel g) w Lo Hv Hst Hgray Hwf Ha) as (st2 & new' & e' & Hr & Lo').
    { intros I1 Hns Hwn Hg1. apply IH; [done..|]. pose proof (seen_bound _ _ _ I1).
      assert (length (tvisited st) < length (tvisited st1)); [|lia]. eapply (grown_longer st _ st1 v); [apply Hst|apply Lo| |done].
      eexists. exact (lo_entry _ _ _ _ _ _ _ _ Lo). }
    by exists st2; eauto.
  - cbn [res_bind]. eapply close_ok; [done|done| |done|done]. by rewrite Hss.
Qed.

Lemma tarjan_start g : tinv g [] (TState 0 [] [] []).
Proof.
  assert (∀ v, ¬ seen (TState 0 [] [] []) v) as Hn by (by intros v [??]). split; try (intros; by edestruct Hn); try (by constructor); cbn.
  - intros v. split; [by intros ?%elem_of_nil|]. by intros (? & ? & _).
  - by intros v ?%elem_of_nil.
  - by intros x y ?%elem_of_nil.
  - by intros y ?%elem_of_nil.
  - intros v. split; [by intros ?%elem_of_nil|]. intros [? _]. by edestruct Hn.
  - by intros c ?%elem_of_nil.
  - intros [|??] ????; discriminate.
Qed.

Lemma no_gray_no_stack g st : tinv g [] st → tstack st = [].
Proof.
  intros H. destruct (tstack st) as [|y l] eqn:Hs; [done|]. destruct (ti_back _ _ _ H y) as (x & []%elem_of_nil & _). rewrite Hs. by left.
Qed.

Record scc_list g (cs : list (list string)) : Prop := {
  sl_nodup : NoDup (concat cs);
  sl_nodes : ∀ v, v ∈ concat cs ↔ isNode g v;
  sl_class : ∀ c, c ∈ cs → strong_class g c;
  sl_order : ∀ pre c post u w, cs = pre ++ c :: post → u ∈ c → arrow g u w → w ∈ concat (pre ++ [c])
}.

Lemma tarjan_ok g : wf g → ∃ cs, tarjan g = Ok cs ∧ scc_list g cs.
Proof.
  intros Hwf. unfold tarjan.
  destruct (res_fold_inv (tarjan_root g) (λ done st, tinv g [] st ∧ ∀ v, v ∈ done → seen st v) (nodes g) (TState 0 [] [] []))
    as (st & -> & I & Hall).
  - split; [apply tarjan_start|by intros v ?%elem_of_nil].
  - intros done v rest st Hsplit [I Hd]. unfold tarjan_root. assert (isNode g v) as Hv by (apply elem_of_nodes; rewrite Hsplit; set_solver).
    destruct (ohas (tvisited st) v) eqn:Hh.
    + apply ohas_true in Hh. exists st. split_and!; [done..|]. intros u [Hu| ->%list_elem_of_singleton]%elem_of_app; [auto|done].
    + apply ohas_false in Hh. assert (¬ seen st v) as Hns by (unfold seen; rewrite Hh; by intros [??]).
      destruct (tarjan_dfs_ok (S (length (nodes g))) g [] st v Hwf I Hns Hv) as (st' & -> & new & e & I' & G & He & _); [by intros x ?%elem_of_nil|lia|].
      exists st'. split_and!; [done..|]. intros u [Hu| ->%list_elem_of_singleton]%elem_of_app; [eapply grown_seen; eauto|by eexists].
  - cbn. eexists. split; [done|]. split; [apply I| |apply I|apply I]. intros v. etrans; [apply (ti_done _ _ _ I)|].
    rewrite (no_gray_no_stack _ _ I). split; [intros [Hs _]; by apply (ti_nodes _ _ _ I)|]. intros Hv.
    split; [by apply Hall, elem_of_nodes|apply not_elem_of_nil].
Qed.

Lemma hasEdge_loop g v : wf g → isNode g v → (∀ x, x ∈ edges g → ev x = ew x → ename x = None) → hasEdge g v v None = true ↔ arrow g v v.
Proof.
  intros Hwf Hv Hnames. unfold hasEdge. rewrite ohas_true. split.
  - intros [x Hx]%edge_dom; [|done]. destruct (edge_endpoints g v v None x) as [Ho _]; [done|by eapply wf_plain..|done|].
    assert ((ev x, ew x) = (v, v)) as [= Hxv Hxw] by (destruct (orient_cases (isDirected g) v v); congruence).
    exists x. split_and!; [by eapply elem_of_edges_key|done|done].
  - intros (x & Hx & Hxv & Hxw). assert (ename x = None) as Hn by (apply Hnames; [done|congruence]).
    apply edge_dom; [done|]. apply elem_of_edges in Hx; [|done]. unfold edgeObjToId in Hx. rewrite Hxv, Hxw, Hn in Hx. by eexists.
Qed.

Lemma concat_NoDup {A} (ls : list (list A)) l : NoDup (concat ls) → l ∈ ls → NoDup l.
Proof. intros Hnd (l1 & l2 & ->)%list_elem_of_split. rewrite concat_app in Hnd. cbn in Hnd. by apply NoDup_app in Hnd as (_ & _ & (? & _)%NoDup_app). Qed.

Lemma NoDup_concat_filter {A} (P : list A → Prop) `{!∀ l, Decision (P l)} (ls : list (list A)) : NoDup (concat ls) → NoDup (concat (filter P ls)).
Proof.
  induction ls as [|l ls IH]; [done|]. rewrite filter_cons. cbn [concat]. intros (H1 & H2 & H3)%NoDup_app. case_decide; [|by apply IH].
  cbn [concat]. apply NoDup_app. split_and!; [done| |by apply IH]. intros x Hx (l' & Hl & [_ Hin]%list_elem_of_filter)%elem_of_concat.
  apply (H2 x Hx), elem_of_concat. eauto.
Qed.

(** A component with a cycle is one that [findCycles] keeps. *)
Lemma cyclic_component_spec g c v :
  wf g → (∀ x, x ∈ edges g → ev x = ew x → ename x = None) → NoDup c → strong_class g c → isNode g v → v ∈ c →
  cyclic_component g c = true ↔ tc (arrow g) v v.
Proof.
  intros Hwf Hnames Hnd [_ Hc] Hn Hv. destruct c as [|a [|b c]]; [by apply elem_of_nil in Hv| |]; cbn [cyclic_component].
  - apply list_elem_of_singleton in Hv as <-. rewrite hasEdge_loop by done. split; [by apply tc_once|]. intros Ht.
    inversion Ht as [|? u ? Ha Hu]; [done|subst]. assert (u ∈ [v]) as ->%list_elem_of_singleton; [|done].
    apply (Hc v u); [by left|]. split; [by apply rtc_once|by apply tc_rtc].
  - split; [|done]. intros _. assert (∃ w, w ∈ a :: b :: c ∧ w ≠ v) as (w & Hw & Hne).
    { destruct (decide (a = v)) as [->|]; [exists b|exists a; by split; [left|]]. apply NoDup_cons in Hnd as [Hnin _]. split; [set_solver|]. intros ->. set_solver. }
    destruct (proj1 (Hc v w Hv) Hw) as [Hvw Hwv]. apply rtc_inv in Hvw as [->|(u & Ha & Hr)]; [done|].
    eapply tc_rtc_r; [by apply tc_once|]. by etrans.
Qed.

(** C26: [tarjan] returns the strongly connected components of the graph: every node lies in exactly one of them, two nodes lie in the same one exactly
    when each reaches the other, and edges lead only to the same or to earlier components. *)
Theorem tarjan_components g :
  wf g → ∃ cs, tarjan g = Ok cs ∧ NoDup (concat cs) ∧ (∀ v, v ∈ concat cs ↔ isNode g v) ∧ (∀ c, c ∈ cs → strong_class g c) ∧
    ∀ pre c post u w, cs = pre ++ c :: post → u ∈ c → arrow g u w → w ∈ concat (pre ++ [c]).
Proof. intros Hwf. destruct (tarjan_ok g Hwf) as (cs & Hr & [H1 H2 H3 H4]). by exists cs. Qed.

(** When loops have no name [findCycles] returns the strongly connected components that contain a cycle: their nodes are exactly the nodes that lie on
    a cycle. *)
Theorem findCycles_exact g :
  wf g → (∀ x, x ∈ edges g → ev x = ew x → ename x = None) →
  ∃ cs, findCycles g = Ok cs ∧ (∀ c, c ∈ cs → strong_class g c) ∧ NoDup (concat cs) ∧ ∀ v, v ∈ concat cs ↔ tc (arrow g) v v.
Proof.
  intros Hwf Hnames. unfold findCycles. destruct (tarjan_ok g Hwf) as (cs & -> & [H1 H2 H3 H4]). cbn. eexists. split; [done|].
  assert (∀ c v, c ∈ cs → v ∈ c → cyclic_component g c = true ↔ tc (arrow g) v v) as Hcyc.
  { intros c v Hc Hv. apply cyclic_component_spec; [done..|by eapply concat_NoDup|by apply H3| |done]. apply H2, elem_of_concat. eauto. }
  split_and!.
  - intros c [_ Hc]%list_elem_of_filter. by apply H3.
  - by apply NoDup_concat_filter.
  - intros v. rewrite elem_of_concat. setoid_rewrite list_elem_of_filter. split.
    + intros (c & Hv & Hcc & Hc). by apply (Hcyc c).
    + intros Ht. assert (isNode g v) as Hn. { inversion Ht as [? ? Ha|? ? ? Ha]; by apply arrow_nodes in Ha as [? _]. }
      apply H2, elem_of_concat in Hn as (c & Hv & Hc). exists c. split_and!; [done|by apply (Hcyc c v)|done].
Qed.
End Tarjan.

(** ** A graph with two components on cycles *)

Definition ring_ops : list (gop unit nat nat) :=
  [OpSetEdge "a" "b" None None; OpSetEdge "b" "c" None None; OpSetEdge "c" "a" None None; OpSetEdge "c" "d" None None;
   OpSetEdge "d" "e" None None; OpSetEdge "e" "e" None None].
Definition ring : Graph unit nat nat := build true false false ring_ops.

Lemma ring_wf : wf ring.
Proof. apply build_wf. apply (bool_decide_unpack _). vm_compute. exact I. Qed.

Lemma tarjan_components_witness :
  wf ring ∧ ∃ cs, tarjan ring = Ok cs ∧ (∀ v, v ∈ concat cs ↔ isNode ring v) ∧ cs = [["e"]; ["d"]; ["c"; "b"; "a"]]%string.
Proof.
  split; [apply ring_wf|]. destruct (tarjan_components ring ring_wf) as (cs & Hr & _ & Hn & _).
  exists cs. split; [exact Hr|]. split; [exact Hn|]. vm_compute in Hr. injection Hr as <-. reflexivity.
Defined.

Lemma findCycles_exact_witness :
  wf ring ∧ ∃ cs, findCycles ring = Ok cs ∧ (∀ v, v ∈ concat cs ↔ tc (arrow ring) v v) ∧ cs = [["e"]; ["c"; "b"; "a"]]%string.
Proof.
  split; [apply ring_wf|]. destruct (findCycles_exact ring ring_wf) as (cs & Hr & _ & _ & Hn).
  - assert (Forall (λ x, ev x = ew x → ename x = None) (edges ring)) as Hall by (apply (bool_decide_unpack _); vm_compute; exact I).
    rewrite Forall_forall in Hall. exact Hall.
  - exists cs. split; [exact Hr|]. split; [exact Hn|]. vm_compute in Hr. injection Hr as <-. reflexivity.
Defined.
