(* ===== verification/Prim.v ===== *)
(** * graphlib algorithms: [prim] (lib/alg/prim.js)

    Modelled over the interface of queues, like [dijkstra].  The first part is about lists of edges that span a graph, the second
    verifies the algorithm: what it returns is a spanning tree of least weight. *)
From S2P Require Import Prelude JsObject Graphlib GraphWf GraphInv GraphQuery GraphView GraphAlg GraphDfs PriorityQueue Dijkstra AlgClaims.

(** ** Lists of edges that join nodes *)

Definition joins (x : edgeObj) (u w : string) : Prop := ev x = u ∧ ew x = w ∨ ev x = w ∧ ew x = u.
Definition joined (F : list edgeObj) (u w : string) : Prop := ∃ x, x ∈ F ∧ joins x u w.
Fixpoint total (wt : edgeObj → Z) (F : list edgeObj) : Z := match F with [] => 0 | x :: F => wt x + total wt F end.

#[export] Instance joins_dec x u w : Decision (joins x u w).
Proof. unfold joins. apply _. Defined.

Lemma joins_sym x u w : joins x u w → joins x w u.
Proof. unfold joins. tauto. Qed.

Lemma joins_ends x u w u' w' : joins x u w → joins x u' w' → u = u' ∧ w = w' ∨ u = w' ∧ w = u'.
Proof. unfold joins. intuition congruence. Qed.

Lemma joined_sym F u w : joined F u w → joined F w u.
Proof. intros (x & Hx & Hj). exists x. split; [done|by apply joins_sym]. Qed.

Lemma linked_sym F u w : rtc (joined F) u w → rtc (joined F) w u.
Proof. intros Hr. induction Hr as [|u v w Huv _ IH]; [done|]. eapply rtc_r; [done|by apply joined_sym]. Qed.

Lemma linked_mono F F' u w : (∀ x, x ∈ F → x ∈ F') → rtc (joined F) u w → rtc (joined F') u w.
Proof. intros HF. apply (rtc_congruence id). intros a b (x & Hx & Hj). exists x. auto. Qed.

Lemma total_perm wt F F' : F ≡ₚ F' → total wt F = total wt F'.
Proof. induction 1; simpl; lia. Qed.

(** A walk between two nodes can be made to visit each node once. *)
Inductive walk (R : string → string → Prop) : string → list string → string → Prop :=
| walk_nil u : walk R u [] u
| walk_cons u v l w : R u v → walk R v l w → walk R u (v :: l) w.

Lemma walk_suffix R u l w a : walk R u l w → a ∈ u :: l → ∃ l', walk R a l' w ∧ (∀ b, b ∈ a :: l' → b ∈ u :: l) ∧ length l' ≤ length l ∧ (NoDup (u :: l) → NoDup (a :: l')).
Proof.
  induction 1 as [u|u v l w Huv Hw IH]; intros Ha.
  - apply list_elem_of_singleton in Ha as ->. exists []. split_and!; [constructor|done|done|done].
  - apply elem_of_cons in Ha as [->|Ha]; [exists (v :: l); split_and!; [by econstructor|done|done|done]|].
    destruct (IH Ha) as (l' & H1 & H2 & H3 & H4). exists l'. split_and!; [done|intros b Hb; right; auto|simpl; lia|]. intros [_ Hnd]%NoDup_cons. auto.
Qed.

Lemma simple_walk R u w : rtc R u w → ∃ l, walk R u l w ∧ NoDup (u :: l).
Proof.
  induction 1 as [u|u v w Huv _ (l & Hw & Hnd)]; [exists []; split; [constructor|apply NoDup_singleton]|].
  destruct (decide (u ∈ v :: l)) as [Hin|Hin].
  - destruct (walk_suffix _ _ _ _ u Hw Hin) as (l' & H1 & _ & _ & H4). exists l'. auto.
  - exists (v :: l). split; [by econstructor|by constructor].
Qed.

Lemma walk_rtc R u l w : walk R u l w → rtc R u w.
Proof. induction 1; [done|by eapply rtc_l]. Qed.

(** A simple walk out of a set crosses its border at an edge; without that edge the parts before and after remain. *)
Lemma walk_crosses F (S : string → Prop) `{!∀ v, Decision (S v)} u l w :
  walk (joined F) u l w → NoDup (u :: l) → S u → ¬ S w →
  ∃ f a b, f ∈ F ∧ joins f a b ∧ S a ∧ ¬ S b ∧ rtc (joined (filter (.≠ f) F)) u a ∧ rtc (joined (filter (.≠ f) F)) b w.
Proof.
  induction 1 as [u|u v l w (x & Hx & Hj) Hw IH]; intros Hnd Hu Hnw; [done|]. apply NoDup_cons in Hnd as [Hnin Hnd].
  assert (∀ F', (∀ y c d, y ∈ F → joins y c d → c ∈ v :: l → d ∈ v :: l → y ∈ F') → rtc (joined F') v w) as Hrest.
  { clear -Hw. intros F' HF. assert (∀ y c d, y ∈ F → joins y c d → c ∈ v :: l → d ∈ v :: l → y ∈ F') as HF' by done. clear HF.
    induction Hw as [v|v v' l w (y & Hy & Hj) Hw IH]; [done|]. eapply rtc_l; [exists y; split; [|exact Hj]; eapply HF'; [done|done|by left|by right; left]|].
    apply IH. intros z c d Hz Hjz Hc Hd. eapply HF'; [done|done|by right|by right]. }
  destruct (decide (S v)) as [Hv|Hv].
  - destruct (IH Hnd Hv Hnw) as (f & a & b & Hf & Hjf & Ha & Hb & H1 & H2). exists f, a, b. split_and!; [done..| |done].
    eapply rtc_l; [|exact H1]. exists x. split; [|done]. apply list_elem_of_filter. split; [|done]. intros ->.
    destruct (joins_ends _ _ _ _ _ Hj Hjf) as [[-> ->]|[-> ->]]; done.
  - exists x, u, v. split_and!; [done..|]. apply Hrest. intros y c d Hy Hjy Hc Hd. apply list_elem_of_filter. split; [|done]. intros ->.
    destruct (joins_ends _ _ _ _ _ Hj Hjy) as [[-> ->]|[-> ->]]; done.
Qed.

Section Spanning.
Context {L N E : Type}.
Implicit Types (g : Graph L N E).

(** A spanning tree: edges of the graph that link all nodes, one less than the nodes. *)
Record spanning_tree g (F : list edgeObj) : Prop := {
  st_nodup : NoDup F;
  st_edges : ∀ x, x ∈ F → x ∈ edges g;
  st_links : ∀ u w, isNode g u → isNode g w → rtc (joined F) u w;
  st_size : S (length F) = length (nodes g)
}.

Lemma filter_ne_id (F : list edgeObj) f : f ∉ F → filter (.≠ f) F = F.
Proof.
  induction F as [|x F IH]; [done|]. intros [Hx Hf]%not_elem_of_cons. rewrite filter_cons, decide_True by congruence. by rewrite IH.
Qed.

Lemma filter_ne_perm (F : list edgeObj) f : NoDup F → f ∈ F → F ≡ₚ f :: filter (.≠ f) F.
Proof.
  intros Hnd Hf. induction F as [|x F IH]; [by apply elem_of_nil in Hf|]. apply NoDup_cons in Hnd as [Hx Hnd]. rewrite filter_cons.
  destruct (decide (x = f)) as [->|Hne].
  - rewrite decide_False by naive_solver. by rewrite filter_ne_id.
  - rewrite decide_True by done. apply elem_of_cons in Hf as [?|Hf]; [congruence|]. rewrite (IH Hnd Hf) at 1. apply Permutation_swap.
Qed.

(** The cut property: an edge of least weight among those that leave a set can replace one of a spanning tree. *)
Lemma exchange g wt (F sel : list edgeObj) (S : string → Prop) `{!∀ v, Decision (S v)} x u w :
  spanning_tree g F → (∀ y, y ∈ sel → y ∈ F) → (∀ y a b, y ∈ sel → joins y a b → S a ∧ S b) →
  x ∈ edges g → isNode g u → isNode g w → joins x u w → S u → ¬ S w →
  (∀ y a b, y ∈ edges g → joins y a b → S a → ¬ S b → (wt x ≤ wt y)%Z) →
  ∃ F', spanning_tree g F' ∧ (∀ y, y ∈ x :: sel → y ∈ F') ∧ (total wt F' ≤ total wt F)%Z.
Proof.
  intros HF Hsel Hin Hx Hu Hw Hj HSu HSw Hmin. destruct (decide (x ∈ F)) as [HxF|HxF].
  { exists F. split_and!; [done| |lia]. intros y [->|Hy]%elem_of_cons; auto. }
  destruct (simple_walk _ _ _ (st_links _ _ HF u w Hu Hw)) as (l & Hwalk & Hnd).
  destruct (walk_crosses F S u l w Hwalk Hnd HSu HSw) as (f & a & b & Hf & Hjf & Ha & Hb & H1 & H2).
  exists (x :: filter (.≠ f) F). split_and!.
  - assert (∀ c d, rtc (joined (filter (.≠ f) F)) c d → rtc (joined (x :: filter (.≠ f) F)) c d) as Hmono by (intros c d; apply linked_mono; by right).
    assert (rtc (joined (x :: filter (.≠ f) F)) a b) as Hab.
    { etrans; [apply linked_sym, Hmono, H1|]. eapply rtc_l; [exists x; split; [by left|exact Hj]|]. by apply linked_sym, Hmono. }
    split.
    + constructor; [|by apply NoDup_filter, HF]. rewrite list_elem_of_filter. naive_solver.
    + intros y [->|Hy]%elem_of_cons; [done|]. apply list_elem_of_filter in Hy as [_ Hy]. by apply HF.
    + intros c d Hc Hd. pose proof (st_links _ _ HF c d Hc Hd) as Hr. clear Hc Hd. induction Hr as [|c c' d (y & Hy & Hjy) _ IH]; [done|]. etrans; [|exact IH].
      destruct (decide (y = f)) as [->|Hyf].
      * destruct (joins_ends _ _ _ _ _ Hjf Hjy) as [[<- <-]|[<- <-]]; [done|by apply linked_sym].
      * apply rtc_once. exists y. split; [|done]. right. by apply list_elem_of_filter.
    + rewrite <-(st_size _ _ HF), (Permutation_length (filter_ne_perm F f (st_nodup _ _ HF) Hf)). done.
  - intros y [->|Hy]%elem_of_cons; [by left|]. right. apply list_elem_of_filter. split; [|auto]. intros ->. by destruct (Hin f a b Hy Hjf).
  - rewrite (total_perm wt _ _ (filter_ne_perm F f (st_nodup _ _ HF) Hf)). cbn. specialize (Hmin f a b (st_edges _ _ HF f Hf) Hjf Ha Hb). lia.
Qed.
End Spanning.

(** ** The algorithm *)

Section Prim.
Context {L N E : Type} {Q : Type} `{!pq_ops Q}.
Implicit Types (g : Graph L N E) (t : Graph unit unit unit) (wt : edgeObj → Z) (parents : obj string) (pq : Q) (v w : string).

(** The closure [updateNeighbors]. *)
Definition prim_update wt v (st : obj string * Q) (edge : edgeObj) : res (obj string * Q) :=
  let '(parents, pq) := st in
  let w := other_end v edge in
  pri <-- q_priority pq w ;;
  match pri with
  | None => Ok (parents, pq)
  | Some pri =>
      if decide (ext_lt (Fin (wt edge)) pri) then
        pq <-- q_decrease pq w (Fin (wt edge)) ;;
        Ok (oset parents w v, pq)
      else Ok (parents, pq)
  end.

(** [while(pq.size()>0)]; each turn removes a key.  The message prints the graph as an object. *)
Fixpoint prim_loop (fuel : nat) g wt (init : bool) parents pq t : res (Graph unit unit unit) :=
  if decide (q_size pq = 0) then Ok t
  else match fuel with
       | O => Throw (JsError "out of fuel")
       | S fuel' =>
           r <-- q_removeMin pq ;;
           let v := r.1 in
           t <-- (match oget parents v with
                  | Some p => setEdge t v p None None
                  | None => if init then Throw (JsError "Input graph is not connected: [object Object]") else Ok t
                  end) ;;
           es <-- of_option (nodeEdges g v None) ;;
           st <-- res_fold (prim_update wt v) (parents, r.2) es ;;
           prim_loop fuel' g wt (init || bool_decide (oget parents v = None)) st.1 st.2 t
       end.

Definition prim_node (st : Q * Graph unit unit unit) v : res (Q * Graph unit unit unit) :=
  r <-- q_add st.1 v Inf ;;
  t <-- setNode st.2 v None ;;
  Ok (r.2, t).

Definition prim g wt : res (Graph unit unit unit) :=
  let t := newGraph true false false in
  if decide (nodeCount g = 0%Z) then Ok t
  else
    st <-- res_fold prim_node (q_new, t) (nodes g) ;;
    start <-- of_option (head (nodes g)) ;;
    pq <-- q_decrease st.1 start (Fin 0) ;;
    prim_loop (length (nodes g)) g wt false [] pq st.2.

Context `{!pq_laws Q}.

(** ** The queue *)

(** The queue holds the nodes outside [inn], each with the least weight of an edge to [inn] that satisfies [P]. *)
Record prim_queue g wt (inn : string → Prop) (P : edgeObj → string → Prop) parents pq : Prop := {
  pq_ok : q_inv pq;
  pq_dom : ∀ w, is_Some (q_map pq !! w) ↔ isNode g w ∧ ¬ inn w;
  pq_pri : ∀ w pri, q_map pq !! w = Some pri → match pri with
    | Inf => oget parents w = None
    | Fin z => ∃ x u, x ∈ edges g ∧ wt x = z ∧ oget parents w = Some u ∧ joins x w u ∧ inn u
    end;
  pq_low : ∀ x u w, x ∈ edges g → joins x u w → P x u → inn u → isNode g w → ¬ inn w → ∃ z, q_map pq !! w = Some (Fin z) ∧ (z ≤ wt x)%Z
}.

Lemma other_end_joins x w p : joins x w p → other_end w x = p.
Proof. unfold joins, other_end. intros [[<- <-]|[<- <-]]; case_decide; naive_solver. Qed.

Definition upto v (done : list edgeObj) (y : edgeObj) (u : string) : Prop := u ≠ v ∨ y ∈ done.

Lemma prim_update_ok g wt (inn : string → Prop) `{!∀ v, Decision (inn v)} v parents pq x w done :
  wf g → prim_queue g wt inn (upto v done) parents pq → inn v → x ∈ edges g → joins x v w →
  ∃ parents' pq', prim_update wt v (parents, pq) x = Ok (parents', pq') ∧
    prim_queue g wt inn (upto v (done ++ [x])) parents' pq' ∧ base.size (q_map pq') = base.size (q_map pq).
Proof.
  intros Hwf [Q1 Q2 Q3 Q4] Hv Hx Hj. unfold prim_update. rewrite (other_end_joins x v w Hj), q_priority_law by done. cbn [res_bind].
  assert (∀ y u w', joins y u w' → upto v (done ++ [x]) y u → upto v done y u ∨ u = v ∧ w' = w ∧ y = x) as Hup.
  { intros y u w' Hjy [?|[Hy| ->%list_elem_of_singleton]%elem_of_app]; [left; by left|left; by right|].
    destruct (decide (u = v)) as [->|]; [|left; by left]. right. split_and!; [done| |done]. destruct (joins_ends _ _ _ _ _ Hj Hjy) as [[_ ->]|[-> ->]]; done. }
  assert (isNode g w) as Hwn. { destruct (edges_nodes g x Hwf Hx). by destruct Hj as [[? <-]|[<- ?]]. }
  destruct (q_map pq !! w) as [pri|] eqn:Hpri.
  - assert (¬ inn w) as Hnw by (apply Q2; by eexists). destruct (decide (ext_lt (Fin (wt x)) pri)) as [Hlt|Hlt].
    + destruct (q_decrease_law pq w pri (Fin (wt x)) Q1 Hpri (ext_lt_le _ _ Hlt)) as (pq' & -> & Hok & Hm). cbn [res_bind].
      exists (oset parents w v), pq'. split; [done|]. split; [split; [done|..]|by rewrite Hm, map_size_insert, Hpri].
      * intros w'. rewrite Hm, <-Q2, lookup_insert. case_decide; [subst; rewrite Hpri; naive_solver|done].
      * intros w' pri'. rewrite Hm, lookup_insert, oget_oset. destruct (decide (w = w')) as [<-|]; [|apply Q3].
        intros [= <-]. exists x, v. split_and!; [done|done|done|by apply joins_sym|done].
      * intros y u w' Hy Hjy Hyu Hu Hw' Hnw'. rewrite Hm, lookup_insert.
        assert (upto v done y u → ∃ z, q_map pq !! w' = Some (Fin z) ∧ (z ≤ wt y)%Z) as Hold by (intros; by eapply Q4).
        destruct (decide (w = w')) as [<-|].
        -- exists (wt x). split; [done|]. destruct (Hup y u w Hjy Hyu) as [Ho|(-> & _ & ->)]; [|done]. destruct (Hold Ho) as (z & Hz & Hle).
           assert (pri = Fin z) as -> by congruence. cbn in Hlt. lia.
        -- destruct (Hup y u w' Hjy Hyu) as [Ho|(_ & -> & _)]; [auto|done].
    + exists parents, pq. split; [done|]. split; [|done]. split; [done..|]. intros y u w' Hy Hjy Hyu Hu Hw' Hnw'.
      destruct (Hup y u w' Hjy Hyu) as [Ho|(-> & -> & ->)]; [by eapply Q4|]. destruct pri as [z|]; [|by destruct Hlt]. exists z. split; [done|]. cbn in Hlt. lia.
  - exists parents, pq. split; [done|]. split; [|done]. split; [done..|]. intros y u w' Hy Hjy Hyu Hu Hw' Hnw'.
    destruct (Hup y u w' Hjy Hyu) as [Ho|(-> & -> & ->)]; [by eapply Q4|]. destruct (proj2 (Q2 w)) as [? ?]; [done|congruence].
Qed.

Lemma incident_edges_spec g v : wf g → isNode g v → ∃ es, nodeEdges g v None = Some es ∧ ∀ x, x ∈ es ↔ x ∈ edges g ∧ ∃ w, joins x v w.
Proof.
  intros Hwf Hv. destruct (inEdges_spec g v Hwf Hv) as (ies & Hi & _ & Hie). destruct (outEdges_spec g v Hwf Hv) as (oes & Ho & _ & Hoe).
  unfold nodeEdges. rewrite Hi, Ho. eexists. split; [done|]. intros x. cbn. rewrite elem_of_app, Hie, Hoe. unfold joins. split.
  - intros [[Hx <-]|[Hx <-]]; eauto.
  - intros (Hx & w & [[? ?]|[? ?]]); auto.
Qed.

(** Visiting the edges of [v] brings the priorities up to date. *)
Lemma prim_visit g wt (inn : string → Prop) `{!∀ v, Decision (inn v)} v parents pq :
  wf g → isNode g v → prim_queue g wt inn (upto v []) parents pq → inn v →
  ∃ es st, nodeEdges g v None = Some es ∧ res_fold (prim_update wt v) (parents, pq) es = Ok st ∧
    prim_queue g wt inn (λ _ _, True) st.1 st.2 ∧ base.size (q_map st.2) = base.size (q_map pq).
Proof.
  intros Hwf Hvn Hq Hv. destruct (incident_edges_spec g v Hwf Hvn) as (es & Hes & Hel). exists es.
  destruct (res_fold_inv (prim_update wt v) (λ done st, prim_queue g wt inn (upto v done) st.1 st.2 ∧ base.size (q_map st.2) = base.size (q_map pq)) es (parents, pq))
    as (st & Hr & [Q1 Q2 Q3 Q4] & Hs).
  - done.
  - intros done x rest [ps pq1] Hsplit [Hq1 Hs1]. destruct (proj1 (Hel x)) as (Hx & w & Hj); [rewrite Hsplit; set_solver|].
    destruct (prim_update_ok g wt inn v ps pq1 x w done Hwf Hq1 Hv Hx Hj) as (ps' & pq' & -> & Hq' & Hs'). exists (ps', pq').
    split; [done|]. split; [done|]. cbn in *. congruence.
  - exists st. split_and!; [done|done| |done]. split; [done..|]. intros x u w Hx Hj _. eapply Q4; [done|done|].
    destruct (decide (u = v)) as [->|]; [|by left]. right. apply Hel. eauto.
Qed.

(** ** The tree *)

(** [sel] lists the nodes that joined the tree after the first, each with the edge that joins it to an earlier node. *)
Definition tree_edge (vx : string * edgeObj) : edgeObj := EdgeObj vx.1 (other_end vx.1 vx.2) None.
Definition inside (start : string) (sel : list (string * edgeObj)) v : Prop := v = start ∨ v ∈ sel.*1.

#[local] Instance inside_dec start sel v : Decision (inside start sel v).
Proof. unfold inside. apply _. Defined.

Record prim_tree g wt start (sel : list (string * edgeObj)) t : Prop := {
  pt_nodes_ok : ∀ v, inside start sel v → isNode g v;
  pt_nodup : NoDup (start :: sel.*1);
  pt_distinct : NoDup sel.*2;
  pt_edge : ∀ v x, (v, x) ∈ sel → x ∈ edges g ∧ joins x v (other_end v x) ∧ inside start sel (other_end v x);
  pt_linked : ∀ v, inside start sel v → rtc (joined sel.*2) start v;
  pt_best : ∀ F, spanning_tree g F → ∃ F', spanning_tree g F' ∧ (∀ x, x ∈ sel.*2 → x ∈ F') ∧ (total wt F' ≤ total wt F)%Z;
  pt_graph : digraph t;
  pt_nodes : ∀ u, isNode t u ↔ isNode g u;
  pt_edges : ∀ y, y ∈ edges t ↔ ∃ vx, vx ∈ sel ∧ y = tree_edge vx
}.

Lemma inside_snoc start sel v x u : inside start (sel ++ [(v, x)]) u ↔ u = v ∨ inside start sel u.
Proof. unfold inside. rewrite fmap_app, elem_of_app. cbn. rewrite list_elem_of_singleton. tauto. Qed.

(** The node with the least priority joins the tree. *)
Lemma prim_grow g wt start sel t v x u :
  wf g → prim_tree g wt start sel t → isNode g v → ¬ inside start sel v → x ∈ edges g → joins x v u → inside start sel u →
  (∀ y a b, y ∈ edges g → joins y a b → inside start sel a → ¬ inside start sel b → (wt x ≤ wt y)%Z) →
  ∃ t', setEdge t v u None None = Ok t' ∧ prim_tree g wt start (sel ++ [(v, x)]) t'.
Proof.
  intros Hwf [T1 T2 T2' T3 T4 T5 T6 T7 T8] Hv Hnv Hx Hj Hu Hmin. pose proof (other_end_joins x v u Hj) as Hoe.
  assert (isNode g u) as Hun by auto. assert (∀ y, y ∈ sel.*2 → ∃ w, (w, y) ∈ sel) as Hsel.
  { intros y ([w y'] & -> & Hy)%list_elem_of_fmap. by exists w. }
  assert (∀ y a b, y ∈ sel.*2 → joins y a b → inside start sel a ∧ inside start sel b) as Hins.
  { intros y a b (w & Hy)%Hsel Hjy. destruct (T3 w y Hy) as (_ & Hjw & Ho). assert (inside start sel w) by (right; by apply (list_elem_of_fmap_2 fst _ (w, y))).
    destruct (joins_ends _ _ _ _ _ Hjy Hjw) as [[-> ->]|[-> ->]]; done. }
  destruct (setEdge_view_ok t (EdgeObj v u None) None) as (t' & Hs & V); [done|split; [exact (wf_plain _ Hwf _ Hv)|split; [exact (wf_plain _ Hwf _ Hun)|done]]|by left|]. cbn in Hs.
  exists t'. split; [done|]. split.
  - intros w [->|Hw]%inside_snoc; auto.
  - rewrite fmap_app, app_comm_cons. apply NoDup_app. split_and!; [done| |apply NoDup_singleton]. intros w Hw ->%list_elem_of_singleton.
    apply Hnv. unfold inside. by rewrite <-elem_of_cons.
  - rewrite fmap_app. apply NoDup_app. split_and!; [done| |apply NoDup_singleton]. intros y Hy ->%list_elem_of_singleton.
    apply Hnv. by destruct (Hins x v u Hy Hj).
  - intros w y [Hy|[= -> ->]%list_elem_of_singleton]%elem_of_app.
    + destruct (T3 w y Hy) as (? & ? & ?). split_and!; [done|done|]. apply inside_snoc. by right.
    + rewrite Hoe. split_and!; [done|done|]. apply inside_snoc. by right.
  - assert (∀ w, rtc (joined sel.*2) start w → rtc (joined (sel ++ [(v, x)]).*2) start w) as Hmono.
    { intros w. apply linked_mono. intros y Hy. rewrite fmap_app. set_solver. }
    intros w [->|Hw]%inside_snoc; [|by apply Hmono, T4]. eapply rtc_r; [by apply Hmono, T4|]. exists x. split; [rewrite fmap_app; set_solver|by apply joins_sym].
  - intros F HF. destruct (T5 F HF) as (F1 & HF1 & Hs1 & Hle1).
    destruct (exchange g wt F1 (sel.*2) (inside start sel) x u v) as (F2 & HF2 & Hs2 & Hle2); [done|done|done|done|done|done|by apply joins_sym|done|done|done|].
    exists F2. split_and!; [done| |lia]. intros y. rewrite fmap_app, elem_of_app. intros [Hy|Hy]; apply Hs2; [by right|]. apply list_elem_of_singleton in Hy as ->. by left.
  - apply V.
  - intros w. rewrite <-T7. unfold isNode. rewrite (sev_nodes_same _ _ _ _ _ V); [done|by apply T7..].
  - intros y. rewrite (sev_elem _ _ _ _ _ (dg_wf _ T6) V), T8. unfold tree_edge. split.
    + intros [->|(vx & Hvx & ->)]; [exists (v, x); cbn; rewrite Hoe; set_solver|]. exists vx. set_solver.
    + intros (vx & [Hvx| ->%list_elem_of_singleton]%elem_of_app & ->); [right; eauto|]. left. cbn. by rewrite Hoe.
Qed.

(** ** The loop *)

Definition connected g : Prop := ∀ u w, isNode g u → isNode g w → rtc (adjacent g) u w.
Definition not_connected_error : js_error := JsError "Input graph is not connected: [object Object]".

Lemma rtc_crosses (R : string → string → Prop) (S : string → Prop) `{!∀ v, Decision (S v)} a b :
  rtc R a b → S a → ¬ S b → ∃ u w, R u w ∧ S u ∧ ¬ S w.
Proof.
  induction 1 as [|a c b Hac _ IH]; intros Ha Hb; [done|]. destruct (decide (S c)); [by apply IH|]. eauto.
Qed.

Definition prim_result g wt start (r : res (Graph unit unit unit)) : Prop :=
  match r with
  | Ok t => ∃ sel, prim_tree g wt start sel t ∧ ∀ v, isNode g v → inside start sel v
  | Throw e => e = not_connected_error ∧ ¬ connected g
  end.

Lemma prim_queue_remove g wt start sel v x parents pq pq' :
  prim_queue g wt (inside start sel) (λ _ _, True) parents pq → q_inv pq' → q_map pq' = delete v (q_map pq) →
  prim_queue g wt (inside start (sel ++ [(v, x)])) (upto v []) parents pq'.
Proof.
  intros [Q1 Q2 Q3 Q4] Hok Hm. split; [done|..].
  - intros w. rewrite Hm, inside_snoc, lookup_delete. case_decide as Hd; [|rewrite Q2; naive_solver].
    split; [by intros [??]|]. naive_solver.
  - intros w pri. rewrite Hm, lookup_delete. case_decide; [done|]. intros Hp%Q3. destruct pri as [z|]; [|done].
    destruct Hp as (y & u & ? & ? & ? & ? & ?). exists y, u. split_and!; try done. apply inside_snoc. by right.
  - intros y u w Hy Hj [Hne|[]%elem_of_nil] [->|Hu]%inside_snoc Hw Hnw; [done|]. rewrite inside_snoc in Hnw.
    destruct (Q4 y u w Hy Hj I Hu Hw) as (z & Hz & Hle); [tauto|]. exists z. split; [|done]. rewrite Hm, lookup_delete_ne; [done|]. naive_solver.
Qed.

Lemma prim_loop_ok fuel g wt start sel parents pq t :
  wf g → prim_tree g wt start sel t → prim_queue g wt (inside start sel) (λ _ _, True) parents pq → base.size (q_map pq) ≤ fuel →
  prim_result g wt start (prim_loop fuel g wt true parents pq t).
Proof.
  intros Hwf. revert sel parents pq t. induction fuel as [|fuel IH]; intros sel parents pq t Ht Hq Hf.
  all: assert (q_inv pq) as Hqi by apply Hq; cbn [prim_loop]; rewrite q_size_law by done.
  all: destruct (decide (base.size (q_map pq) = 0)) as [Hz|Hz]; [|try lia].
  1, 2: exists sel; split; [done|]; intros v Hv; destruct (decide (inside start sel v)) as [|Hn]; [done|].
  1, 2: destruct (proj2 (pq_dom _ _ _ _ _ _ Hq v)) as [p Hp]; [done|]; apply map_size_empty_inv in Hz; rewrite Hz, lookup_empty in Hp; done.
  destruct (q_removeMin_law pq Hqi) as (v & p & pq' & -> & Hq' & Hv & Hmin & Hm); [intros He; rewrite He, map_size_empty in Hz; done|].
  cbn [res_bind fst snd]. destruct (proj1 (pq_dom _ _ _ _ _ _ Hq v)) as [Hvn Hnv]; [by eexists|].
  pose proof (pq_pri _ _ _ _ _ _ Hq v p Hv) as Hpri. destruct p as [z|].
  - destruct Hpri as (x & u & Hx & Hwx & Hpar & Hj & Hu). rewrite Hpar.
    destruct (prim_grow g wt start sel t v x u Hwf Ht Hvn Hnv Hx Hj Hu) as (t' & -> & Ht').
    { intros y a b Hy Hjy Ha Hb. assert (isNode g b) as Hbn. { destruct (edges_nodes g y Hwf Hy). by destruct Hjy as [[? <-]|[<- ?]]. }
      destruct (pq_low _ _ _ _ _ _ Hq y a b Hy Hjy I Ha Hbn Hb) as (z' & Hz' & Hle). specialize (Hmin b _ Hz'). cbn in Hmin. lia. }
    cbn [res_bind]. destruct (prim_visit g wt (inside start (sel ++ [(v, x)])) v parents pq' Hwf Hvn) as (es & st & -> & Hr & Hq2 & Hs2).
    { by eapply prim_queue_remove. } { apply inside_snoc. by left. }
    cbn [of_option res_bind]. rewrite Hr. cbn [res_bind orb]. eapply IH; [done|done|]. rewrite Hs2, Hm, map_size_delete, Hv. lia.
  - rewrite Hpri. cbn [res_bind]. split; [done|]. intros Hc.
    assert (rtc (adjacent g) start v) as Hr by (apply Hc; [apply (pt_nodes_ok _ _ _ _ _ Ht); by left|done]).
    destruct (rtc_crosses _ (inside start sel) _ _ Hr) as (a & b & Hab & Ha & Hb); [by left|done|].
    destruct (adjacent_node g a b Hwf Hab) as [_ Hbn]. assert (∃ y, y ∈ edges g ∧ joins y a b) as (y & Hy & Hjy).
    { destruct Hab as [(y & ? & ? & ?)|(y & ? & ? & ?)]; exists y; unfold joins; auto. }
    destruct (pq_low _ _ _ _ _ _ Hq y a b Hy Hjy I Ha Hbn Hb) as (z' & Hz' & _). by specialize (Hmin b _ Hz').
Qed.

(** ** The start *)

Record prim_started g (done : list string) (st : Q * Graph unit unit unit) : Prop := {
  ps_queue : q_inv st.1;
  ps_map : ∀ v, q_map st.1 !! v = if decide (v ∈ done) then Some Inf else None;
  ps_size : base.size (q_map st.1) = length done;
  ps_wf : wf st.2;
  ps_directed : isDirected st.2 = true;
  ps_edges : edgeObjs_ st.2 = [];
  ps_nodes : ∀ u, isNode st.2 u ↔ u ∈ done
}.

Lemma prim_nodes_ok g : wf g → ∃ st, res_fold prim_node (q_new, newGraph true false false) (nodes g) = Ok st ∧ prim_started g (nodes g) st.
Proof.
  intros Hwf. destruct q_new_law as [Hq0 Hm0]. apply (res_fold_inv _ (λ done st, prim_started g done st)).
  - split; cbn [fst snd]; [done| |by rewrite Hm0, map_size_empty|apply newGraph_wf|done|done|].
    + intros v. by rewrite Hm0, lookup_empty.
    + intros u. split; [by intros [??]|by intros ?%elem_of_nil].
  - intros done v rest [pq t] Hvs [S1 S2 S3 S4 S5 S6 S7]. cbn [fst snd] in *. pose proof (NoDup_nodes g Hwf) as Hnd.
    assert (v ∉ done) as Hv. { rewrite Hvs in Hnd. apply NoDup_app in Hnd as (_ & Hnd & _). intros Hin. apply (Hnd v Hin). by left. }
    assert (isNode g v) as Hvn by (apply elem_of_nodes; rewrite Hvs; set_solver).
    assert (q_map pq !! v = None) as Hnone by (rewrite S2; by rewrite decide_False).
    unfold prim_node. cbn [fst snd]. destruct (q_add_law pq v Inf S1 Hnone) as (pq' & -> & Hq' & Hm'). cbn [res_bind].
    destruct (setNode_ok t v None S4 (wf_plain _ Hwf _ Hvn)) as (t' & -> & P). cbn [res_bind].
    eexists. split; [done|]. split; cbn [fst snd]; [done|..].
    + intros u. rewrite Hm', lookup_insert, S2. destruct (decide (v = u)) as [->|]; [by rewrite decide_True by set_solver|].
      destruct (decide (u ∈ done)); [by rewrite decide_True by set_solver|by rewrite decide_False by set_solver].
    + rewrite Hm', map_size_insert, Hnone, S3, length_app. cbn. lia.
    + apply P.
    + destruct (sn_options _ _ _ _ P) as (-> & _). done.
    + by destruct (sn_edges _ _ _ _ P) as [-> _].
    + intros u. rewrite (setNode_isNode _ _ _ _ _ P), S7, elem_of_app, list_elem_of_singleton. tauto.
Qed.

Lemma prim_ok g wt start rest : wf g → nodes g = start :: rest → prim_result g wt start (prim g wt).
Proof.
  intros Hwf Hns. unfold prim. rewrite (nodeCount_spec g Hwf), Hns, decide_False by (cbn; lia). rewrite <-Hns.
  destruct (prim_nodes_ok g Hwf) as ([pq t] & -> & [S1 S2 S3 S4 S5 S6 S7]). cbn [res_bind fst snd] in *. rewrite Hns at 1. cbn [of_option head res_bind].
  assert (isNode g start) as Hstart by (apply elem_of_nodes; rewrite Hns; by left).
  assert (q_map pq !! start = Some Inf) as Hinf by (rewrite S2, decide_True by (by apply elem_of_nodes); done).
  destruct (q_decrease_law pq start Inf (Fin 0) S1 Hinf I) as (pq1 & -> & Hq1 & Hm1). cbn [res_bind].
  assert (base.size (q_map pq1) = length (nodes g)) as Hs1 by (by rewrite Hm1, map_size_insert, Hinf, S3).
  destruct (length (nodes g)) as [|fuel] eqn:Hlen; [by rewrite Hns in Hlen|]. cbn [prim_loop]. rewrite q_size_law, Hs1, decide_False by done.
  destruct (q_removeMin_law pq1 Hq1) as (v & p & pq2 & -> & Hq2 & Hv & Hmin & Hm2); [intros He; rewrite He, map_size_empty in Hs1; done|].
  assert (v = start) as ->.
  { destruct (decide (v = start)) as [|Hne]; [done|]. specialize (Hmin start (Fin 0)). rewrite Hm1, lookup_insert_eq in Hmin. specialize (Hmin eq_refl).
    rewrite Hm1, lookup_insert_ne, S2 in Hv by done. case_decide; [|done]. by injection Hv as <-. }
  cbn [res_bind fst snd oget]. assert (∀ v, inside start [] v ↔ v = start) as Hins.
  { intros v. unfold inside. cbn. rewrite elem_of_nil. tauto. }
  destruct (prim_visit g wt (inside start []) start [] pq2 Hwf Hstart) as (es & st & -> & Hr & Hq3 & Hs3).
  { split; [done|..].
    - intros w. rewrite Hins, Hm2, lookup_delete. case_decide; [split; [by intros [??]|naive_solver]|]. rewrite Hm1, lookup_insert_ne, S2 by done.
      rewrite <-elem_of_nodes. case_decide; [naive_solver|]. split; [by intros [??]|naive_solver].
    - intros w pri. rewrite Hm2, lookup_delete. case_decide; [done|]. rewrite Hm1, lookup_insert_ne, S2 by done. case_decide; [by intros [= <-]|done].
    - intros x u w _ _ [Hne|[]%elem_of_nil] Hu. by apply Hins in Hu. }
  { by left. }
  cbn [of_option res_bind]. rewrite Hr. cbn [res_bind orb]. rewrite bool_decide_true by done.
  eapply prim_loop_ok; [done| |exact Hq3|rewrite Hs3, Hm2, map_size_delete, Hv; lia]. split; cbn.
  - intros v ->%Hins. done.
  - apply NoDup_singleton.
  - constructor.
  - by intros v x ?%elem_of_nil.
  - intros v ->%Hins. done.
  - intros F HF. exists F. split_and!; [done|by intros x ?%elem_of_nil|lia].
  - split; [done|done|]. intros x. unfold edges. rewrite S6. by intros ?%elem_of_nil.
  - intros u. by rewrite S7, elem_of_nodes.
  - intros y. unfold edges. rewrite S6. split; [by intros ?%elem_of_nil|]. by intros (vx & ?%elem_of_nil & _).
Qed.

(** All nodes inside: the chosen edges are a spanning tree, and the best. *)
Lemma prim_tree_spans g wt start sel t :
  wf g → prim_tree g wt start sel t → (∀ v, isNode g v → inside start sel v) →
  spanning_tree g sel.*2 ∧ ∀ F, spanning_tree g F → (total wt sel.*2 ≤ total wt F)%Z.
Proof.
  intros Hwf [T1 T2 T2' T3 T4 T5 T6 T7 T8] Hall.
  assert (start :: sel.*1 ≡ₚ nodes g) as Hperm.
  { apply NoDup_Permutation; [done|by apply NoDup_nodes|]. intros v. rewrite elem_of_nodes, elem_of_cons. split; [apply T1|apply Hall]. }
  assert (spanning_tree g sel.*2) as Hst.
  { split; [done| | |].
    - intros x ([v x'] & -> & Hx)%list_elem_of_fmap. by apply (T3 v).
    - intros u w Hu Hw. etrans; [apply linked_sym, T4; auto|apply T4; auto].
    - rewrite <-(Permutation_length Hperm). cbn. by rewrite !length_fmap. }
  split; [done|]. intros F HF. destruct (T5 F HF) as (F' & HF' & Hsub & Hle).
  assert (sel.*2 ≡ₚ F') as ->%(total_perm wt); [|done]. apply submseteq_length_Permutation.
  - apply NoDup_submseteq; [done|exact Hsub].
  - pose proof (st_size _ _ HF'). pose proof (st_size _ _ Hst). lia.
Qed.
End Prim.

Section PrimClaim.
Context {L N E : Type}.
Implicit Types (g : Graph L N E).

(** C25: On a connected graph [prim] with the binary heap returns a graph with the same nodes whose edges are a spanning tree of least total weight: each node
    but the first has one edge, to the other end of an edge of the input, and no other spanning tree weighs less.  On a graph that is
    not connected it throws its own error; the empty graph gives the empty tree.  Weights may be negative. *)
Theorem prim_minimum g wt :
  wf g →
  (connected g → ∃ t, prim (Q := PQ) g wt = Ok t ∧ wf t ∧ (∀ u, isNode t u ↔ isNode g u) ∧
     (nodes g ≠ [] → ∃ sel, NoDup sel.*1 ∧ (∀ y, y ∈ edges t ↔ ∃ vx, vx ∈ sel ∧ y = tree_edge vx) ∧
        (∀ v x, (v, x) ∈ sel → joins x v (other_end v x)) ∧
        spanning_tree g sel.*2 ∧ ∀ F, spanning_tree g F → (total wt sel.*2 ≤ total wt F)%Z)) ∧
  (¬ connected g → prim (Q := PQ) g wt = Throw not_connected_error).
Proof.
  intros Hwf. destruct (nodes g) as [|start rest] eqn:Hns.
  - assert (∀ u, ¬ isNode g u) as Hno by (intros u; rewrite <-elem_of_nodes, Hns; apply not_elem_of_nil). split.
    + intros _. unfold prim. rewrite (nodeCount_spec g Hwf), Hns. cbn. eexists. split_and!; [done|apply newGraph_wf| |done].
      intros u. split; [by intros [??]|]. intros Hu. by apply Hno in Hu.
    + intros Hc. destruct Hc. intros u w Hu. by apply Hno in Hu.
  - pose proof (prim_ok (Q := PQ) g wt start rest Hwf Hns) as Hr. unfold prim_result in Hr. split.
    + intros Hc. destruct (prim g wt) as [t|e]; [|by destruct Hr]. destruct Hr as (sel & Ht & Hall).
      exists t. split_and!; [done|apply Ht|apply Ht|]. intros _. destruct (prim_tree_spans g wt start sel t Hwf Ht Hall) as [H1 H2].
      exists sel. split_and!; [|apply Ht| |done|done].
      * by pose proof (pt_nodup _ _ _ _ _ Ht) as [_ ?]%NoDup_cons.
      * intros v x Hx. by apply (pt_edge _ _ _ _ _ Ht).
    + intros Hc. destruct (prim g wt) as [t|e]; [|by destruct Hr as [-> _]]. destruct Hr as (sel & Ht & Hall). exfalso. apply Hc. intros u w Hu Hw.
      assert (∀ v, isNode g v → rtc (adjacent g) start v) as Hr.
      { intros v Hv. eapply (rtc_congruence id); [|apply (pt_linked _ _ _ _ _ Ht v (Hall v Hv))]. intros a b (x & ([c x'] & -> & Hx)%list_elem_of_fmap & Hj).
        destruct (pt_edge _ _ _ _ _ Ht c x' Hx) as (Hin & _). cbn in Hj. destruct Hj as [[<- <-]|[<- <-]]; [left|right]; by exists x'. }
      etrans; [apply connected_sym, Hr, Hu|by apply Hr].
Qed.
End PrimClaim.

(** ** A triangle with a negative weight *)

Definition triangle_ops : list (gop unit Z Z) :=
  [OpSetEdge "a" "b" (Some (Some 4%Z)) None; OpSetEdge "c" "b" (Some (Some (-1)%Z)) None; OpSetEdge "a" "c" (Some (Some 2%Z)) None].
Definition triangle : Graph unit Z Z := build true false false triangle_ops.
Definition triangle_weight (x : edgeObj) : Z := default 0%Z (edgeOf triangle x).

Lemma triangle_wf : wf triangle.
Proof. apply build_wf. apply (bool_decide_unpack _). vm_compute. exact I. Qed.

Lemma triangle_arrow u w : bool_decide (EdgeObj u w None ∈ edges triangle) = true → arrow triangle u w.
Proof. intros H%bool_decide_eq_true. by exists (EdgeObj u w None). Qed.

Lemma triangle_connected : connected triangle.
Proof.
  assert (∀ u, isNode triangle u → rtc (adjacent triangle) "a" u) as Ha.
  { intros u Hu%elem_of_nodes. assert (nodes triangle = ["a"; "b"; "c"]%string) as Hn by (vm_compute; reflexivity). rewrite Hn in Hu.
    apply elem_of_cons in Hu as [->|[->|[->|[]%elem_of_nil]%elem_of_cons]%elem_of_cons]; [done|apply rtc_once; left; by apply triangle_arrow..]. }
  intros u w Hu Hw. etrans; [apply connected_sym, Ha, Hu|by apply Ha].
Qed.

Lemma prim_minimum_witness :
  wf triangle ∧ connected triangle ∧ ∃ t, prim (Q := PQ) triangle triangle_weight = Ok t ∧ (∀ u, isNode t u ↔ isNode triangle u) ∧
    edges t = [EdgeObj "c" "a" None; EdgeObj "b" "c" None].
Proof.
  split; [apply triangle_wf|]. split; [apply triangle_connected|].
  destruct (prim_minimum triangle triangle_weight triangle_wf) as [H _]. destruct (H triangle_connected) as (t & Hr & _ & Hn & _).
  exists t. split; [exact Hr|]. split; [exact Hn|]. vm_compute in Hr. injection Hr as <-. reflexivity.
Defined.
