(* ===== verification/Lodash.v ===== *)
(** * lodash: the collection functions of dagre.min.js

    The library helpers that the graph container and the layout passes call on
    arrays and objects.  Every [while(++index<length)] loop is a recursion over the
    rest of the array with the index as a parameter.  Numbers are integers;
    [None] stands for [undefined] and [null]. *)
From S2P Require Import Prelude JsObject.
From stdpp Require Import pretty.

(** ** Loops over arrays *)

Section Arrays.
Context {A B S : Type}.

(** The iteratee returns the new state and whether it returned [false]. *)
Fixpoint arrayEach_from (index : nat) (array : list A) (iteratee : S → A → nat → S * bool) (s : S) : S :=
  match array with
  | [] => s
  | x :: rest => let '(s', stop) := iteratee s x index in
                 if stop : bool then s' else arrayEach_from (Datatypes.S index) rest iteratee s'
  end.
Definition arrayEach array iteratee s := arrayEach_from 0 array iteratee s.

Fixpoint arrayFilter_from (index : nat) (array : list A) (predicate : A → nat → bool) (result : list A) : list A :=
  match array with
  | [] => result
  | x :: rest => arrayFilter_from (Datatypes.S index) rest predicate
                   (if predicate x index then result ++ [x] else result)
  end.
Definition arrayFilter array predicate := arrayFilter_from 0 array predicate [].

Fixpoint arrayMap_from (index : nat) (array : list A) (iteratee : A → nat → B) (result : list B) : list B :=
  match array with
  | [] => result
  | x :: rest => arrayMap_from (Datatypes.S index) rest iteratee (result ++ [iteratee x index])
  end.
Definition arrayMap array iteratee := arrayMap_from 0 array iteratee [].

(** [array[offset+index] = values[index]]. *)
Fixpoint arrayPush (array values : list A) : list A :=
  match values with [] => array | v :: vs => arrayPush (array ++ [v]) vs end.

Fixpoint arrayReduce_from (index : nat) (array : list A) (iteratee : B → A → nat → B) (accumulator : B) : B :=
  match array with
  | [] => accumulator
  | x :: rest => arrayReduce_from (Datatypes.S index) rest iteratee (iteratee accumulator x index)
  end.
Definition arrayReduce array iteratee accumulator := arrayReduce_from 0 array iteratee accumulator.

Fixpoint arraySome_from (index : nat) (array : list A) (predicate : A → nat → bool) : bool :=
  match array with
  | [] => false
  | x :: rest => if predicate x index then true else arraySome_from (Datatypes.S index) rest predicate
  end.
Definition arraySome array predicate := arraySome_from 0 array predicate.

(** [baseTimes(n, iteratee)]. *)
Fixpoint baseTimes_from (fuel index : nat) (iteratee : nat → B) : list B :=
  match fuel with O => [] | Datatypes.S f => iteratee index :: baseTimes_from f (Datatypes.S index) iteratee end.
Definition baseTimes (n : nat) (iteratee : nat → B) : list B := baseTimes_from n 0 iteratee.

Definition last (array : list A) : option A :=
  match length array with O => None | Datatypes.S n => array !! n end.

(** The loop of [baseFindIndex] from the left; [None] is [-1]. *)
Fixpoint baseFindIndex_from (index : nat) (array : list A) (predicate : A → bool) : option nat :=
  match array with
  | [] => None
  | x :: rest => if predicate x then Some index else baseFindIndex_from (Datatypes.S index) rest predicate
  end.
Definition findIndex (array : list A) (predicate : A → bool) : option nat := baseFindIndex_from 0 array predicate.
Definition find (array : list A) (predicate : A → bool) : option A :=
  match findIndex array predicate with Some i => array !! i | None => None end.
End Arrays.

(** Reduction without an initial value starts with the first element. *)
Definition arrayReduce1 {A} (array : list A) (iteratee : A → A → nat → A) : option A :=
  match array with
  | [] => None
  | x :: rest => Some (arrayReduce_from 1 rest iteratee x)
  end.

(** The public names, on arrays and on plain objects. *)
Module Coll.
Definition forEach {A S} (collection : list A) (iteratee : S → A → nat → S * bool) (s : S) : S :=
  arrayEach collection iteratee s.
Definition filter {A} (collection : list A) (predicate : A → nat → bool) : list A := arrayFilter collection predicate.
Definition map {A B} (collection : list A) (iteratee : A → nat → B) : list B := arrayMap collection iteratee.
Definition reduce {A B} (collection : list A) (iteratee : B → A → nat → B) (accumulator : B) : B :=
  arrayReduce collection iteratee accumulator.
Definition find {A} (collection : list A) (predicate : A → bool) : option A := Lodash.find collection predicate.
(** [baseValues(object, keys(object))]. *)
Definition values {V} (object : obj V) : list (option V) := arrayMap (okeys object) (λ key _, oget object key).
End Coll.

(** ** Extrema *)

(** The state of the loop: [computed] and [result]; a criterion that is [null] or
    [undefined] is skipped. *)
Fixpoint baseExtremum_from {A C} (array : list A) (iteratee : A → option C) (comparator : C → C → bool)
    (best : option (C * A)) : option A :=
  match array with
  | [] => snd <$> best
  | value :: rest =>
      let best' := match iteratee value with
                   | None => best
                   | Some current =>
                       match best with
                       | None => Some (current, value)
                       | Some (computed, _) => if comparator current computed then Some (current, value) else best
                       end
                   end in
      baseExtremum_from rest iteratee comparator best'
  end.
Definition baseExtremum {A C} (array : list A) (iteratee : A → option C) comparator : option A :=
  baseExtremum_from array iteratee comparator None.

Definition baseLt (value other : Z) : bool := bool_decide (value < other)%Z.
Definition baseGt (value other : Z) : bool := bool_decide (other < value)%Z.

Definition minBy {A} (array : list A) (iteratee : A → option Z) : option A := baseExtremum array iteratee baseLt.
(** Arrays of numbers in which some entries may be [undefined]. *)
Definition min (array : list (option Z)) : option Z := mjoin (baseExtremum array id baseLt).
Definition max (array : list (option Z)) : option Z := mjoin (baseExtremum array id baseGt).

(** ** Ranges *)

(** [nativeMax(nativeCeil((end-start)/(step||1)), 0)]. *)
Definition range_length (start stop step : Z) : Z :=
  let d := if decide (step = 0)%Z then 1%Z else step in
  Z.max (- ((start - stop) / d)) 0.
Fixpoint baseRange_loop (length : nat) (start step : Z) : list Z :=
  match length with O => [] | S n => start :: baseRange_loop n (start + step) step end.
Definition baseRange (start stop step : Z) : list Z :=
  baseRange_loop (Z.to_nat (range_length start stop step)) start step.

(** [createRange()]: the defaults for [end] and [step]. *)
Definition range (start : Z) (stop step : option Z) : list Z :=
  let '(start, stop) := match stop with Some e => (start, e) | None => (0%Z, start) end in
  let step := match step with Some s => s | None => if decide (start < stop)%Z then 1%Z else (-1)%Z end in
  baseRange start stop step.

(** ** Flattening and unique values *)

(** [_.flatten] of an array of arrays. *)
Fixpoint baseFlatten_from {A} (array : list (list A)) (result : list A) : list A :=
  match array with [] => result | value :: rest => baseFlatten_from rest (arrayPush result value) end.
Definition flatten {A} (array : list (list A)) : list A := baseFlatten_from array [].

Section Uniq.
Context {A : Type} `{EqDecision A}.

(** The inner loop [while(seenIndex--)], from the end of [seen]. *)
Fixpoint seen_loop (seenIndex : nat) (seen : list A) (computed : A) : bool :=
  match seenIndex with
  | O => false
  | S i => if decide (seen !! i = Some computed) then true else seen_loop i seen computed
  end.

Fixpoint baseUniq_loop (array result : list A) : list A :=
  match array with
  | [] => result
  | value :: rest =>
      baseUniq_loop rest (if seen_loop (length result) result value then result else result ++ [value])
  end.

Definition LARGE_ARRAY_SIZE : nat := 200.

(** Long arrays go through a [Set], which enumerates its values in insertion order. *)
Definition set_add (s : list A) (x : A) : list A := if decide (x ∈ s) then s else s ++ [x].
Definition setToArray_createSet (array : list A) : list A := foldl set_add [] array.

Definition baseUniq (array : list A) : list A :=
  if decide (LARGE_ARRAY_SIZE ≤ length array) then setToArray_createSet array
  else baseUniq_loop array [].

Definition union (arrays : list (list A)) : list A := baseUniq (flatten arrays).
End Uniq.

(** ** Objects *)

Section Objects.
Context {V : Type}.

(** [baseZipObject(props, values, assignValue)]; a missing value is [undefined]. *)
Fixpoint baseZipObject_loop (index : nat) (props : list string) (values : list V) (result : obj (option V)) : obj (option V) :=
  match props with
  | [] => result
  | p :: rest => baseZipObject_loop (S index) rest values (oset result p (values !! index))
  end.
Definition zipObject (props : list string) (values : list V) : obj (option V) := baseZipObject_loop 0 props values [].

(** [basePickBy] with the test [hasIn(object, path)] of [basePick]. *)
Fixpoint basePick_loop (paths : list string) (object result : obj V) : obj V :=
  match paths with
  | [] => result
  | path :: rest =>
      basePick_loop rest object (match oget object path with Some value => oset result path value | None => result end)
  end.
Definition pick (object : obj V) (paths : list string) : obj V := basePick_loop paths object [].

(** [mapValues] over the own keys of the object. *)
Definition mapValues {W} (object : obj V) (iteratee : V → string → W) : obj W :=
  foldl (λ result key, match oget object key with Some v => oset result key (iteratee v key) | None => result end)
    [] (okeys object).
End Objects.

(** [defaults(object, ...sources)]; a property whose value is [undefined] is filled. *)
Definition defaults_step {V} (source : obj (option V)) (object : obj (option V)) (key : string) : obj (option V) :=
  match mjoin (oget object key) with
  | Some _ => object
  | None => match oget source key with Some v => oset object key v | None => object end
  end.
Definition defaults {V} (object : obj (option V)) (sources : list (obj (option V))) : obj (option V) :=
  foldl (λ object source, foldl (defaults_step source) object (okeys source)) object sources.

(** ** Unique ids *)

(** The counter after the call, and the id. *)
Definition uniqueId (idCounter : N) (prefix : string) : N * string :=
  let id := (idCounter + 1)%N in (id, prefix +:+ pretty id).
