(* ===== verification/LodashSpec.v ===== *)
(** * lodash: what the helpers compute

    Each loop is equal to the list function a caller has in mind. *)
From stdpp Require Import pretty.
From S2P Require Import Prelude JsObject Graphlib Lodash.

(** ** Array loops *)

Section Arrays.
Context {A B St : Type}.

Lemma arrayEach_total (array : list A) (f : St → A → St) s i :
  arrayEach_from i array (λ s x _, (f s x, false)) s = foldl f s array.
Proof. revert i s. induction array; intros i s; simpl; auto. Qed.

(** An iteratee that returns [false] on [x] ends the iteration after [x]. *)
Lemma arrayEach_stops (pre post : list A) x (f : St → A → St) (stop : A → bool) s i :
  (∀ y, y ∈ pre → stop y = false) → stop x = true →
  arrayEach_from i (pre ++ x :: post) (λ s y _, (f s y, stop y)) s = foldl f s (pre ++ [x]).
Proof.
  revert i s. induction pre as [|y pre IH]; intros i s Hpre Hx; simpl; [by rewrite Hx|].
  rewrite (Hpre y) by (by left). apply IH; [|done]. intros z Hz. apply Hpre. by right.
Qed.

Lemma arrayFilter_spec (array : list A) (p : A → bool) i acc :
  arrayFilter_from i array (λ x _, p x) acc = acc ++ filter (λ x, p x = true) array.
Proof.
  revert i acc. induction array as [|x l IH]; intros i acc; simpl; [by rewrite app_nil_r|].
  rewrite IH, filter_cons. destruct (p x) eqn:Hp.
  - rewrite decide_True by done. by rewrite <-app_assoc.
  - by rewrite decide_False by congruence.
Qed.

Lemma arrayMap_spec (array : list A) (f : A → nat → B) i acc :
  arrayMap_from i array f acc = acc ++ imap (λ j x, f x (i + j)) array.
Proof.
  revert i acc. induction array as [|x l IH]; intros i acc; simpl; [by rewrite app_nil_r|].
  rewrite IH, <-app_assoc. simpl. rewrite Nat.add_0_r. do 2 f_equal.
  apply imap_ext. intros j y _. simpl. f_equal. lia.
Qed.

Lemma arrayPush_app (array values : list A) : arrayPush array values = array ++ values.
Proof.
  revert array. induction values as [|v vs IH]; intros array; simpl; [by rewrite app_nil_r|].
  by rewrite IH, <-app_assoc.
Qed.

Lemma findIndex_spec (array : list A) p i :
  match baseFindIndex_from i array p with
  | Some j => ∃ k x, j = i + k ∧ array !! k = Some x ∧ p x = true ∧
      ∀ k' y, k' < k → array !! k' = Some y → p y = false
  | None => ∀ x, x ∈ array → p x = false
  end.
Proof.
  revert i. induction array as [|x l IH]; intros i; simpl; [by intros x ?%elem_of_nil|].
  destruct (p x) eqn:Hp.
  - exists 0, x. split_and!; [lia|done|done|]. intros; lia.
  - specialize (IH (S i)). destruct (baseFindIndex_from (S i) l p) as [j|].
    + destruct IH as (k & y & -> & Hk & Hy & Hlt). exists (S k), y. split_and!; [lia|done|done|].
      intros [|k'] z Hk' Hz; simpl in Hz; [congruence|]. apply (Hlt k'); [lia|done].
    + intros y [->|Hy]%elem_of_cons; auto.
Qed.
End Arrays.

Lemma arrayReduce_spec {A B} (l : list A) (r : B → A → B) b i :
  arrayReduce_from i l (λ acc x _, r acc x) b = foldl r b l.
Proof. revert i b. induction l; intros i b; simpl; auto. Qed.

Lemma find_first {A} (pre post : list A) x p :
  (∀ y, y ∈ pre → p y = false) → p x = true → Lodash.find (pre ++ x :: post) p = Some x.
Proof.
  intros Hpre Hx. unfold Lodash.find, findIndex. pose proof (findIndex_spec (pre ++ x :: post) p 0) as Hf.
  destruct (baseFindIndex_from 0 (pre ++ x :: post) p) as [j|].
  - destruct Hf as (k & y & -> & Hk & Hy & Hlt). simpl. rewrite Hk. f_equal.
    destruct (decide (k < length pre)).
    + rewrite lookup_app_l in Hk by done. apply list_elem_of_lookup_2 in Hk. rewrite Hpre in Hy; done.
    + destruct (decide (k = length pre)) as [->|]; [rewrite list_lookup_middle in Hk by done; congruence|].
      assert (p x = false); [|congruence]. apply (Hlt (length pre)); [lia|]. by rewrite list_lookup_middle.
  - rewrite (Hf x) in Hx by set_solver. done.
Qed.

Lemma find_none {A} (l : list A) p : Lodash.find l p = None ↔ ∀ x, x ∈ l → p x = false.
Proof.
  unfold Lodash.find, findIndex. pose proof (findIndex_spec l p 0) as Hf.
  destruct (baseFindIndex_from 0 l p) as [j|]; [|done].
  destruct Hf as (k & y & -> & Hk & Hy & _). simpl. rewrite Hk. split; [done|].
  intros Hn. rewrite Hn in Hy; [done|]. by eapply list_elem_of_lookup_2.
Qed.

Lemma values_spec {V} (o : obj V) : Coll.values o = Some <$> ovalues o.
Proof.
  unfold Coll.values, arrayMap, ovalues. rewrite arrayMap_spec. simpl.
  assert (∀ k, k ∈ okeys o → is_Some (oget o k)) as Hk by (intros k; apply elem_of_okeys).
  induction (okeys o) as [|k ks IH]; csimpl; [done|]. destruct (Hk k) as [v Hv]; [by left|].
  rewrite Hv. csimpl. f_equal. apply IH. set_solver.
Qed.

Lemma flatten_concat {A} (ls : list (list A)) acc : baseFlatten_from ls acc = acc ++ concat ls.
Proof.
  revert acc. induction ls as [|l ls IH]; intros acc; simpl; [by rewrite app_nil_r|].
  by rewrite IH, arrayPush_app, <-app_assoc.
Qed.

(** ** Extrema *)

(** [x] is at position [i] the first element of [l] whose criterion is minimal for [le]. *)
Definition first_extremum {A C} (le : relation C) (crit : A → option C) (l : list A) (x : A) : Prop :=
  ∃ pre post c, l = pre ++ x :: post ∧ crit x = Some c ∧
    (∀ y d, y ∈ pre → crit y = Some d → le c d ∧ c ≠ d) ∧ (∀ y d, y ∈ post → crit y = Some d → le c d).

Lemma baseExtremum_loop {A C} (le : relation C) (lt : C → C → bool) (crit : A → option C) (l seen : list A) best :
  (∀ a b c, le a b → le b c → le a c) → (∀ a b, lt a b = true → le a b ∧ a ≠ b) → (∀ a b, lt a b = false → le b a) →
  (∀ a b, le a b → le b a → a = b) →
  match best with
  | None => ∀ y, y ∈ seen → crit y = None
  | Some (c, x) => crit x = Some c ∧ first_extremum le crit seen x
  end →
  match baseExtremum_from l crit lt best with
  | None => ∀ y, y ∈ seen ++ l → crit y = None
  | Some x => first_extremum le crit (seen ++ l) x
  end.
Proof.
  intros Htr Hlt Hnlt Has. revert seen best. induction l as [|v l IH]; intros seen best Hb.
  { simpl. rewrite app_nil_r. destruct best as [[c x]|]; simpl; [apply Hb|done]. }
  cbn [baseExtremum_from]. replace (seen ++ v :: l) with ((seen ++ [v]) ++ l) by (by rewrite <-app_assoc).
  apply IH. destruct (crit v) as [cv|] eqn:Hv.
  - destruct best as [[c x]|].
    + destruct Hb as (Hx & pre & post & c' & -> & Hc' & H1 & H2). assert (c' = c) as -> by congruence.
      destruct (lt cv c) eqn:Hcv.
      * apply Hlt in Hcv as [Hle Hne]. split; [done|]. exists (pre ++ x :: post), [], cv.
        split_and!; [done|done| |by intros y d ?%elem_of_nil].
        intros y d [Hy|[->|Hy]%elem_of_cons]%elem_of_app Hd.
        -- destruct (H1 _ _ Hy Hd). split; [eauto|]. intros ->. naive_solver.
        -- assert (d = c) as -> by congruence. done.
        -- pose proof (H2 _ _ Hy Hd). split; [eauto|]. intros ->. naive_solver.
      * apply Hnlt in Hcv. split; [done|]. exists pre, (post ++ [v]), c. split_and!; [by rewrite <-app_assoc|done|done|].
        intros y d [Hy| ->%list_elem_of_singleton]%elem_of_app Hd; [eauto|]. congruence.
    + split; [done|]. exists seen, [], cv. split_and!; [done|done| |by intros y d ?%elem_of_nil].
      intros y d Hy Hd. rewrite (Hb _ Hy) in Hd. done.
  - destruct best as [[c x]|].
    + destruct Hb as (Hx & pre & post & c' & -> & Hc' & H1 & H2). split; [done|].
      exists pre, (post ++ [v]), c'. split_and!; [by rewrite <-app_assoc|done|done|].
      intros y d [Hy| ->%list_elem_of_singleton]%elem_of_app Hd; [eauto|congruence].
    + intros y [Hy| ->%list_elem_of_singleton]%elem_of_app; auto.
Qed.

Lemma minBy_spec {A} (l : list A) crit :
  match minBy l crit with
  | None => ∀ y, y ∈ l → crit y = None
  | Some x => first_extremum Z.le crit l x
  end.
Proof.
  apply (baseExtremum_loop Z.le baseLt crit l []).
  - lia.
  - unfold baseLt. intros a b ?%bool_decide_eq_true. lia.
  - unfold baseLt. intros a b ?%bool_decide_eq_false. lia.
  - lia.
  - by intros y ?%elem_of_nil.
Qed.

Lemma max_spec_aux (l : list (option Z)) :
  match baseExtremum l id baseGt with
  | None => ∀ y, y ∈ l → id y = None
  | Some x => first_extremum (flip Z.le) id l x
  end.
Proof.
  apply (baseExtremum_loop (flip Z.le) baseGt id l []); unfold flip, baseGt.
  - lia.
  - intros a b ?%bool_decide_eq_true. lia.
  - intros a b ?%bool_decide_eq_false. lia.
  - lia.
  - by intros y ?%elem_of_nil.
Qed.

(** The bound that [_.min] and [_.max] return is one of the numbers. *)
Lemma extremum_value (le : relation Z) l (x : option Z) :
  (∀ a, le a a) → first_extremum le id l x → ∃ m, x = Some m ∧ Some m ∈ l ∧ ∀ z, Some z ∈ l → le m z.
Proof.
  intros Hr (pre & post & c & -> & Hc & H1 & H2). unfold id in Hc. subst x. exists c. split_and!; [done|set_solver|].
  intros z [Hz|[Hz|Hz]%elem_of_cons]%elem_of_app; [by apply (H1 (Some z))|by simplify_eq|by apply (H2 (Some z))].
Qed.

Lemma min_spec l :
  match min l with
  | Some m => Some m ∈ l ∧ ∀ z, Some z ∈ l → (m ≤ z)%Z
  | None => ∀ z, Some z ∉ l
  end.
Proof.
  unfold min. pose proof (minBy_spec l id) as Hm. unfold minBy in Hm.
  destruct (baseExtremum l id baseLt) as [x|]; simpl.
  - destruct (extremum_value Z.le l x) as (m & -> & ? & ?); [lia|done|]. done.
  - intros z Hz. by apply Hm in Hz.
Qed.

Lemma max_spec l :
  match max l with
  | Some m => Some m ∈ l ∧ ∀ z, Some z ∈ l → (z ≤ m)%Z
  | None => ∀ z, Some z ∉ l
  end.
Proof.
  unfold max. pose proof (max_spec_aux l) as Hm.
  destruct (baseExtremum l id baseGt) as [x|]; simpl.
  - destruct (extremum_value (flip Z.le) l x) as (m & -> & ? & ?); [unfold flip; lia|done|]. done.
  - intros z Hz. by apply Hm in Hz.
Qed.

(** ** Ranges *)

Lemma baseRange_loop_spec n start step :
  baseRange_loop n start step = (λ k, (start + Z.of_nat k * step)%Z) <$> seq 0 n.
Proof.
  revert start. induction n as [|n IH]; intros start; csimpl; [done|]. f_equal; [lia|].
  rewrite IH, <-fmap_S_seq, <-list_fmap_compose. apply list_fmap_ext. intros i k _. simpl. lia.
Qed.

Lemma range_length_up start stop : range_length start stop 1 = Z.max (stop - start) 0.
Proof. unfold range_length. rewrite decide_False, Z.div_1_r by done. lia. Qed.

Lemma range_length_down start stop : range_length start stop (-1) = Z.max (start - stop) 0.
Proof.
  unfold range_length. rewrite decide_False by done.
  replace (start - stop)%Z with ((-1) * (stop - start))%Z by lia. rewrite Z.mul_comm, Z.div_mul by lia. lia.
Qed.

Lemma elem_of_baseRange start stop step z :
  z ∈ baseRange start stop step ↔
    ∃ k, (0 ≤ k < range_length start stop step)%Z ∧ z = (start + k * step)%Z.
Proof.
  unfold baseRange. rewrite baseRange_loop_spec, list_elem_of_fmap. setoid_rewrite elem_of_seq. split.
  - intros (k & -> & Hk). exists (Z.of_nat k). lia.
  - intros (k & Hk & ->). exists (Z.to_nat k). split; [|lia]. rewrite Z2Nat.id by lia. done.
Qed.

(** ** Unique values *)

Section Uniq.
Context {A : Type} `{EqDecision A}.

Lemma seen_loop_spec (n : nat) (seen : list A) x :
  seen_loop n seen x = true ↔ ∃ i, i < n ∧ seen !! i = Some x.
Proof.
  induction n as [|n IH]; simpl; [split; [done|intros (?&?&?); lia]|].
  case_decide as Hn; [split; [intros _; eauto|done]|]. rewrite IH. split.
  - intros (i & ? & ?). exists i. split; [lia|done].
  - intros (i & Hi & Hs). exists i. split; [|done]. destruct (decide (i = n)) as [->|]; [done|lia].
Qed.

Lemma seen_loop_elem (seen : list A) x : seen_loop (length seen) seen x = true ↔ x ∈ seen.
Proof.
  rewrite seen_loop_spec, list_elem_of_lookup. split; [naive_solver|].
  intros [i Hi]. exists i. split; [by eapply lookup_lt_Some|done].
Qed.

(** Both branches insert the values that are new, one after the other. *)
Lemma baseUniq_loop_set (array result : list A) : baseUniq_loop array result = foldl set_add result array.
Proof.
  revert result. induction array as [|x l IH]; intros result; simpl; [done|]. rewrite IH. f_equal.
  unfold set_add. destruct (seen_loop (length result) result x) eqn:Hs.
  - rewrite decide_True; [done|]. by apply seen_loop_elem.
  - rewrite decide_False; [done|]. rewrite <-seen_loop_elem. congruence.
Qed.

Lemma baseUniq_eq (array : list A) : baseUniq array = foldl set_add [] array.
Proof. unfold baseUniq. case_decide; [done|]. apply baseUniq_loop_set. Qed.

Lemma foldl_set_add_app (l result : list A) :
  foldl set_add result l = result ++ filter (λ x, x ∉ result) (foldl set_add [] l).
Proof.
  induction l as [|x l IH] using rev_ind; simpl; [by rewrite app_nil_r|].
  rewrite !foldl_app. simpl. rewrite IH. unfold set_add at 1 3. set (F := foldl set_add [] l).
  destruct (decide (x ∈ F)) as [HF|HF].
  - rewrite decide_True; [done|]. apply elem_of_app.
    destruct (decide (x ∈ result)); [by left|right]. by apply list_elem_of_filter.
  - rewrite filter_app, filter_cons. simpl. destruct (decide (x ∈ result)) as [Hr|Hr].
    + rewrite decide_True by (apply elem_of_app; by left).
      rewrite (decide_False (P := x ∉ result)) by tauto. simpl. by rewrite app_nil_r.
    + rewrite decide_False.
      * rewrite decide_True by done. simpl. by rewrite app_assoc.
      * rewrite elem_of_app, list_elem_of_filter. tauto.
Qed.

Lemma set_add_NoDup (l result : list A) : NoDup result → NoDup (foldl set_add result l).
Proof.
  revert result. induction l as [|x l IH]; intros result Hnd; simpl; [done|]. apply IH. unfold set_add.
  case_decide as Hx; [done|]. apply NoDup_app. split_and!; [done| |apply NoDup_singleton]. set_solver.
Qed.

Lemma set_add_elem (l result : list A) x : x ∈ foldl set_add result l ↔ x ∈ result ∨ x ∈ l.
Proof.
  revert result. induction l as [|y l IH]; intros result; simpl; [set_solver|]. rewrite IH. unfold set_add.
  case_decide; set_solver.
Qed.

(** Values in order of first occurrence: a duplicate is the one that comes later. *)
Lemma set_add_first (l : list A) : foldl set_add [] l = reverse (remove_dups (reverse l)).
Proof.
  induction l as [|x l IH] using rev_ind; [done|]. rewrite foldl_app, reverse_app. simpl. rewrite IH.
  unfold set_add. case_decide as H1; case_decide as H2;
    rewrite ?elem_of_reverse, ?elem_of_remove_dups, ?elem_of_reverse in H1;
    rewrite ?elem_of_reverse in H2; [done..|by rewrite reverse_cons].
Qed.
End Uniq.

(** ** Objects *)

Lemma zipObject_other {V} (props : list string) (values : list V) i0 result k :
  k ∉ props → oget (baseZipObject_loop i0 props values result) k = oget result k.
Proof.
  revert i0 result. induction props as [|p props IH]; intros i0 result Hk; simpl; [done|].
  rewrite IH by set_solver. apply oget_oset_ne. set_solver.
Qed.

Lemma zipObject_lookup {V} (props : list string) (values : list V) i0 result i k :
  NoDup props → props !! i = Some k → oget (baseZipObject_loop i0 props values result) k = Some (values !! (i0 + i)).
Proof.
  revert i0 result i. induction props as [|p props IH]; intros i0 result i Hnd Hi; [done|].
  apply NoDup_cons in Hnd as [Hp Hnd]. destruct i as [|i]; simpl in Hi |- *.
  - simplify_eq. rewrite zipObject_other by done. by rewrite oget_oset_eq, Nat.add_0_r.
  - rewrite (IH (S i0) _ i) by done. do 2 f_equal. lia.
Qed.

Lemma pick_lookup {V} (paths : list string) (object result : obj V) k :
  oget (basePick_loop paths object result) k =
    if decide (k ∈ paths) then match oget object k with Some v => Some v | None => oget result k end
    else oget result k.
Proof.
  revert result. induction paths as [|p paths IH]; intros result; simpl; [done|]. rewrite IH.
  destruct (decide (k = p)) as [->|Hne].
  - rewrite (decide_True (P := p ∈ p :: paths)) by set_solver.
    destruct (oget object p); [rewrite oget_oset_eq|]; by case_decide.
  - assert (oget (match oget object p with Some v => oset result p v | None => result end) k = oget result k) as ->.
    { destruct (oget object p); [by apply oget_oset_ne|done]. }
    destruct (decide (k ∈ paths)); [by rewrite decide_True by set_solver|]. by rewrite decide_False by set_solver.
Qed.

Lemma mapValues_lookup {V W} (object : obj V) (f : V → string → W) k :
  oget (mapValues object f) k = (λ v, f v k) <$> oget object k.
Proof.
  unfold mapValues. rewrite (oget_fold_set _ (λ k, (λ v, f v k) <$> oget object k))
    by (intros o k'; by destruct (oget object k')).
  case_decide as Hk; [by destruct (oget object k)|]. rewrite elem_of_okeys, <-eq_None_not_Some in Hk. by rewrite Hk.
Qed.

Lemma defaults_source_lookup {V} (source object : obj (option V)) k :
  mjoin (oget (foldl (defaults_step source) object (okeys source)) k) =
    match mjoin (oget object k) with Some v => Some v | None => mjoin (oget source k) end.
Proof.
  assert (∀ ks o, mjoin (oget (foldl (defaults_step source) o ks) k) =
    match mjoin (oget o k) with Some v => Some v | None => if decide (k ∈ ks) then mjoin (oget source k) else None end) as Hg.
  { induction ks as [|k' ks IH]; intros o; cbn [foldl]; [by destruct (mjoin (oget o k))|]. rewrite IH. unfold defaults_step.
    destruct (decide (k' = k)) as [->|Hne].
    - rewrite (decide_True (P := k ∈ k :: ks)) by set_solver. destruct (mjoin (oget o k)) eqn:Ho; [by rewrite Ho|].
      destruct (oget source k) as [v|] eqn:Hs; [rewrite oget_oset_eq; simpl; destruct v; [done|]|rewrite Ho];
        by case_decide.
    - assert (oget match mjoin (oget o k') with Some _ => o | None =>
        match oget source k' with Some v => oset o k' v | None => o end end k = oget o k) as ->.
      { destruct (mjoin (oget o k')); [done|]. destruct (oget source k'); [by apply oget_oset_ne|done]. }
      destruct (decide (k ∈ ks)); [by rewrite (decide_True (P := k ∈ k' :: ks)) by set_solver|].
      by rewrite (decide_False (P := k ∈ k' :: ks)) by set_solver. }
  rewrite Hg. destruct (mjoin (oget object k)); [done|]. case_decide as Hk; [done|].
  rewrite elem_of_okeys, <-eq_None_not_Some in Hk. by rewrite Hk.
Qed.

(** * lodash: [_.sortBy] is a stable sort

    [baseOrderBy] decorates every value with its criteria and its position, sorts the
    decorated values with [compareMultiple] and strips the decoration.  Because the
    position breaks ties the comparer is a total order, so the result does not
    depend on the algorithm behind [Array.prototype.sort]. *)
From Stdlib Require Import QArith_base Qcanon.
Local Close Scope Q_scope.
Local Close Scope Qc_scope.
From S2P Require Import Prelude JsObject Lodash.

(** Sort criteria: [undefined], [null] or a number (NaN does not occur as a
    criterion); rationals in lowest terms, so that equal numbers are equal. *)
Inductive sval := SUndef | SNull | SNum (q : Qc).

#[export] Instance sval_eq_dec : EqDecision sval.
Proof. solve_decision. Defined.

Definition is_null (v : sval) : bool := match v with SNull => true | _ => false end.
Definition is_def (v : sval) : bool := match v with SUndef => false | _ => true end.

(** [a > b] coerces [null] to zero and is false on [undefined]. *)
Definition to_number (v : sval) : option Qc :=
  match v with SUndef => None | SNull => Some 0%Qc | SNum q => Some q end.
Definition js_gt (a b : sval) : bool :=
  match to_number a, to_number b with Some x, Some y => bool_decide (y < x)%Qc | _, _ => false end.

Definition compareAscending (value other : sval) : Z :=
  if decide (value = other) then 0
  else if (negb (is_null other) && js_gt value other) || (is_null value && is_def other) || negb (is_def value) then 1
  else if (negb (is_null value) && js_gt other value) || (is_null other && is_def value) || negb (is_def other) then -1
  else 0.

Record decorated (A : Type) := Decorated { criteria : list sval; index : nat; value : A }.
Arguments Decorated {A} _ _ _. Arguments criteria {A} _. Arguments index {A} _. Arguments value {A} _.

(** The loop over the criteria; [orders] holds whether a criterion is descending. *)
Fixpoint compareCriteria (obj oth : list sval) (orders : list bool) (fallback : Z) : Z :=
  match obj with
  | [] => fallback
  | a :: obj' =>
      let result := compareAscending a (default SUndef (head oth)) in
      if decide (result = 0%Z) then compareCriteria obj' (tail oth) (tail orders) fallback
      else match orders with
           | [] => result
           | desc :: _ => (result * (if desc : bool then -1 else 1))%Z
           end
  end.
Definition compareMultiple {A} (object other : decorated A) (orders : list bool) : Z :=
  compareCriteria (criteria object) (criteria other) orders (Z.of_nat (index object) - Z.of_nat (index other)).

(** [array.sort(comparer)], as an insertion sort. *)
Fixpoint sort_insert {T} (comparer : T → T → Z) (x : T) (l : list T) : list T :=
  match l with
  | [] => [x]
  | y :: l' => if decide (comparer x y ≤ 0)%Z then x :: l else y :: sort_insert comparer x l'
  end.
Definition array_sort {T} (comparer : T → T → Z) (l : list T) : list T := foldr (sort_insert comparer) [] l.

Definition comparer_le {A} (orders : list bool) (a b : decorated A) : Prop := (compareMultiple a b orders ≤ 0)%Z.

(** [array.sort(comparer)] followed by the loop that keeps the values. *)
Definition baseSortBy {A} (orders : list bool) (array : list (decorated A)) : list A :=
  value <$> array_sort (λ a b, compareMultiple a b orders) array.

Definition decorate {A} (iteratees : list (A → sval)) (i : nat) (v : A) : decorated A :=
  Decorated (arrayMap iteratees (λ f _, f v)) i v.
Definition baseOrderBy {A} (collection : list A) (iteratees : list (A → sval)) (orders : list bool) : list A :=
  baseSortBy orders (imap (decorate iteratees) collection).

(** [_.sortBy(collection, iteratee)]. *)
Definition sortBy {A} (collection : list A) (iteratee : A → sval) : list A :=
  baseOrderBy collection [iteratee] [].

(** ** The order *)

(** Numbers first, then [null], then [undefined]. *)
Definition sval_le (a b : sval) : Prop :=
  match a, b with
  | SNum x, SNum y => (x ≤ y)%Qc
  | SNum _, _ => True
  | SNull, SNum _ => False
  | SNull, _ => True
  | SUndef, SUndef => True
  | SUndef, _ => False
  end.

Lemma compareAscending_spec a b :
  (compareAscending a b = 0%Z ∧ a = b) ∨
  (compareAscending a b = 1%Z ∧ sval_le b a ∧ a ≠ b) ∨
  (compareAscending a b = (-1)%Z ∧ sval_le a b ∧ a ≠ b).
Proof.
  unfold compareAscending. case_decide as Heq; [by left|right].
  destruct a as [| |x], b as [| |y]; try done; cbn; rewrite ?orb_false_r; try naive_solver.
  - unfold js_gt. simpl. case_bool_decide; naive_solver.
  - unfold js_gt. simpl. case_bool_decide; naive_solver.
  - unfold js_gt. simpl. case_bool_decide as Hyx; [left; split_and!; [done|by apply Qclt_le_weak|done]|].
    apply Qcnot_lt_le in Hyx. rewrite bool_decide_eq_true_2; [by right|].
    apply Qcle_lt_or_eq in Hyx as [?| ->]; done.
Qed.

Lemma sval_le_trans a b c : sval_le a b → sval_le b c → sval_le a c.
Proof. destruct a, b, c; simpl; try done. apply Qcle_trans. Qed.
Lemma sval_le_antisym a b : sval_le a b → sval_le b a → a = b.
Proof. destruct a, b; simpl; try done. intros. f_equal. by apply Qcle_antisym. Qed.

(** With one ascending criterion the comparer orders by criterion, then position. *)
Lemma comparer_one {A} (a b : decorated A) ca cb :
  criteria a = [ca] → criteria b = [cb] →
  comparer_le [] a b ↔ (sval_le ca cb ∧ ca ≠ cb) ∨ (ca = cb ∧ index a ≤ index b).
Proof.
  unfold comparer_le, compareMultiple. intros -> ->. simpl.
  destruct (compareAscending_spec ca cb) as [[-> ->]|[(-> & ? & ?)|(-> & ? & ?)]]; simpl.
  - split; [right; split; [done|lia]|]. intros [[_ []]|[_ ?]]; [done|lia].
  - split; [lia|]. intros [[? ?]|[? ?]]; [|done]. destruct (sval_le_antisym ca cb); done.
  - split; [by left|lia].
Qed.

(** ** Sorting *)

Section Sort.
Context {T : Type} (comparer : T → T → Z).
Let le a b := (comparer a b ≤ 0)%Z.

Lemma sort_insert_perm x l : sort_insert comparer x l ≡ₚ x :: l.
Proof. induction l as [|y l IH]; simpl; [done|]. case_decide; [done|]. rewrite IH. apply Permutation_swap. Qed.

Lemma array_sort_perm l : array_sort comparer l ≡ₚ l.
Proof. induction l as [|x l IH]; simpl; [done|]. by rewrite sort_insert_perm, IH. Qed.

(** A comparer that is a total preorder on the elements sorts them. *)
Lemma sort_insert_sorted x l :
  (∀ a b, a ∈ x :: l → b ∈ x :: l → le a b ∨ le b a) →
  (∀ a b c, a ∈ x :: l → b ∈ x :: l → c ∈ x :: l → le a b → le b c → le a c) →
  StronglySorted le l → StronglySorted le (sort_insert comparer x l).
Proof.
  intros Htot Htr Hs. induction Hs as [|y l Hs IH Hy]; simpl; [repeat constructor|].
  case_decide as Hxy.
  - constructor; [by constructor|]. constructor; [done|]. apply Forall_forall. intros z Hz.
    rewrite Forall_forall in Hy. apply (Htr x y z); [set_solver..|done|by apply Hy].
  - constructor.
    + apply IH; [intros a b ??; apply Htot; set_solver|]. intros a b c ???. apply Htr; set_solver.
    + apply Forall_forall. intros z. rewrite sort_insert_perm, elem_of_cons. rewrite Forall_forall in Hy.
      intros [->|Hz]; [|by apply Hy]. destruct (Htot x y); [set_solver..|done|done].
Qed.

Lemma array_sort_sorted l :
  (∀ a b, a ∈ l → b ∈ l → le a b ∨ le b a) →
  (∀ a b c, a ∈ l → b ∈ l → c ∈ l → le a b → le b c → le a c) → StronglySorted le (array_sort comparer l).
Proof.
  intros Htot Htr. induction l as [|x l IH]; simpl; [constructor|].
  apply sort_insert_sorted.
  - intros a b. rewrite array_sort_perm. apply Htot.
  - intros a b c. rewrite array_sort_perm. apply Htr.
  - apply IH; [intros a b ??; apply Htot; set_solver|]. intros a b c ???. apply Htr; set_solver.
Qed.
End Sort.

Lemma StronglySorted_filter {A} (R : relation A) (P : A → Prop) `{!∀ x, Decision (P x)} l :
  StronglySorted R l → StronglySorted R (filter P l).
Proof.
  induction 1 as [|x l Hs IH Hx]; [constructor|]. rewrite filter_cons. case_decide; [|done].
  constructor; [done|]. rewrite Forall_forall in *. intros y [_ Hy]%list_elem_of_filter. auto.
Qed.

Lemma StronglySorted_impl {A} (R R' : relation A) l :
  (∀ a b, a ∈ l → b ∈ l → R a b → R' a b) → StronglySorted R l → StronglySorted R' l.
Proof.
  intros HR Hs. induction Hs as [|x l Hs IH Hx]; constructor.
  - apply IH. intros a b ??. apply HR; by right.
  - rewrite Forall_forall in *. intros y Hy. apply HR; [by left|by right|by apply Hx].
Qed.

(** ** [sortBy] *)

Section SortBy.
Context {A : Type} (crit : A → sval).
Implicit Types (l : list A).

Definition tagged l : list (decorated A) := imap (decorate [crit]) l.

Lemma tagged_lookup l i : tagged l !! i = (λ v, Decorated [crit v] i v) <$> l !! i.
Proof. unfold tagged. by rewrite list_lookup_imap. Qed.

Lemma elem_of_tagged l t : t ∈ tagged l → criteria t = [crit (value t)] ∧ l !! index t = Some (value t).
Proof.
  intros [i Hi]%list_elem_of_lookup. rewrite tagged_lookup in Hi.
  destruct (l !! i) as [v|] eqn:Hl; [|done]. by simplify_eq/=.
Qed.

Lemma tagged_values l : value <$> tagged l = l.
Proof.
  apply list_eq. intros i. rewrite list_lookup_fmap, tagged_lookup. by destruct (l !! i).
Qed.

Lemma tagged_sorted l : StronglySorted (λ a b, index a < index b) (tagged l).
Proof.
  unfold tagged. assert (∀ k, StronglySorted (λ a b, index a < index b) (imap (λ i, decorate [crit] (k + i)) l)) as Hg.
  { induction l as [|x l IH]; intros k; simpl; [constructor|]. constructor.
    - specialize (IH (S k)). erewrite imap_ext; [exact IH|]. intros i y _. simpl. f_equal. lia.
    - apply Forall_forall. intros t (i & y & -> & _)%elem_of_lookup_imap. simpl. lia. }
  exact (Hg 0).
Qed.

Lemma sort_total_on l :
  (∀ a b, a ∈ tagged l → b ∈ tagged l → comparer_le [] a b ∨ comparer_le [] b a) ∧
  (∀ a b c, a ∈ tagged l → b ∈ tagged l → c ∈ tagged l → comparer_le [] a b → comparer_le [] b c → comparer_le [] a c).
Proof.
  split.
  - intros a b [Ha _]%elem_of_tagged [Hb _]%elem_of_tagged.
    rewrite (comparer_one a b _ _ Ha Hb), (comparer_one b a _ _ Hb Ha).
    destruct (decide (crit (value a) = crit (value b))) as [Heq|Hne].
    + destruct (decide (index a ≤ index b)); [left; right; done|right; right; split; [done|lia]].
    + destruct (compareAscending_spec (crit (value a)) (crit (value b))) as [[_ ?]|[(_ & ? & _)|(_ & ? & _)]];
        [done|right; left; auto|left; left; auto].
  - intros a b c [Ha _]%elem_of_tagged [Hb _]%elem_of_tagged [Hc _]%elem_of_tagged.
    rewrite (comparer_one a b _ _ Ha Hb), (comparer_one b c _ _ Hb Hc), (comparer_one a c _ _ Ha Hc).
    intros [[H1 N1]|[-> H1]] [[H2 N2]|[<- H2]]; [|by left|by left|right; split; [done|lia]].
    left. split; [by eapply sval_le_trans|]. intros Heq. apply N1. rewrite Heq in *.
    by apply sval_le_antisym.
Qed.

Lemma sorted_tagged l : StronglySorted (comparer_le []) (array_sort (λ a b, compareMultiple a b []) (tagged l)).
Proof. destruct (sort_total_on l) as [H1 H2]. by apply array_sort_sorted. Qed.

Lemma tagged_eq l t1 t2 : t1 ∈ tagged l → t2 ∈ tagged l → index t1 = index t2 → t1 = t2.
Proof.
  intros [C1 H1]%elem_of_tagged [C2 H2]%elem_of_tagged Heq. rewrite Heq, H2 in H1.
  destruct t1, t2; simpl in *. by simplify_eq.
Qed.

(** Elements with the same criterion keep their order. *)
Lemma tagged_stable l c :
  filter (λ t, crit (value t) = c) (array_sort (λ a b, compareMultiple a b []) (tagged l)) =
  filter (λ t, crit (value t) = c) (tagged l).
Proof.
  assert (∀ t, t ∈ array_sort (λ a b, compareMultiple a b []) (tagged l) → t ∈ tagged l) as Hin
    by (intros t; by rewrite array_sort_perm).
  apply (StronglySorted_unique_strong (λ a b, index a ≤ index b)).
  - intros t1 t2 [_ H1%Hin]%list_elem_of_filter [_ H2]%list_elem_of_filter ? ?. apply (tagged_eq l); [done..|lia].
  - eapply StronglySorted_impl; [|apply StronglySorted_filter, sorted_tagged].
    intros a b [Ha [Ca _]%Hin%elem_of_tagged]%list_elem_of_filter [Hb [Cb _]%Hin%elem_of_tagged]%list_elem_of_filter.
    rewrite (comparer_one a b _ _ Ca Cb). intros [[_ Hne]|[_ ?]]; [congruence|done].
  - eapply StronglySorted_impl; [|apply StronglySorted_filter, tagged_sorted]. intros a b _ _. simpl. lia.
  - by rewrite array_sort_perm.
Qed.

Lemma filter_fmap_value (P : A → Prop) `{!∀ x, Decision (P x)} (l : list (decorated A)) :
  filter P (value <$> l) = value <$> filter (λ t, P (value t)) l.
Proof.
  induction l as [|t l IH]; csimpl; [done|]. rewrite !filter_cons. case_decide; csimpl; by rewrite IH.
Qed.

Lemma sortBy_stable_aux l c : filter (λ v, crit v = c) (sortBy l crit) = filter (λ v, crit v = c) l.
Proof.
  unfold sortBy, baseOrderBy, baseSortBy. fold (tagged l).
  rewrite filter_fmap_value, tagged_stable. rewrite <-(tagged_values l) at 2. symmetry. apply filter_fmap_value.
Qed.

Lemma sortBy_perm l : sortBy l crit ≡ₚ l.
Proof.
  unfold sortBy, baseOrderBy, baseSortBy. fold (tagged l). rewrite array_sort_perm. by rewrite tagged_values.
Qed.

Lemma StronglySorted_fmap {B C} (f : B → C) (R : relation C) (l : list B) :
  StronglySorted (λ a b, R (f a) (f b)) l → StronglySorted R (f <$> l).
Proof.
  induction 1 as [|x l Hs IH Hx]; csimpl; constructor; [done|]. by apply Forall_fmap.
Qed.

Lemma sortBy_sorted l : StronglySorted (λ a b, sval_le (crit a) (crit b)) (sortBy l crit).
Proof.
  unfold sortBy, baseOrderBy, baseSortBy. fold (tagged l). apply StronglySorted_fmap.
  eapply StronglySorted_impl; [|apply sorted_tagged]. intros a b. rewrite !array_sort_perm.
  intros [Ca _]%elem_of_tagged [Cb _]%elem_of_tagged. rewrite (comparer_one a b _ _ Ca Cb).
  intros [[? _]|[-> _]]; [done|]. destruct (crit (value b)); simpl; [done..|apply Qcle_refl].
Qed.
End SortBy.

(** [_.sortBy] returns the values of the collection in ascending order of the
    criterion ([null], then [undefined] last) and is stable: the values with any given
    criterion appear in their original order. *)
Theorem sortBy_stable {A} (crit : A → sval) (l : list A) :
  sortBy l crit ≡ₚ l ∧
  StronglySorted (λ a b, sval_le (crit a) (crit b)) (sortBy l crit) ∧
  ∀ c, filter (λ v, crit v = c) (sortBy l crit) = filter (λ v, crit v = c) l.
Proof. split_and!; [apply sortBy_perm|apply sortBy_sorted|apply sortBy_stable_aux]. Qed.
