(* ===== verification/LodashCache.v ===== *)
(** * lodash: the caches behind [_.uniq] and [_.cloneDeep]

    [Hash], [ListCache] and [MapCache] share one interface, [Cache]; its laws,
    [CacheLaws], say that a cache is a finite map from keys to values that also counts its
    entries.  [MapCache] dispatches on the kind of key and is verified against the
    interface of the cache it uses for objects. *)
From stdpp Require Import pretty.
From Stdlib Require Import Ascii.
From S2P Require Import Prelude Decimal JsObject.

(** Cached values: [undefined], strings, anything else. *)
Inductive val := VUndef | VStr (s : string) | VOther (n : N).
#[export] Instance val_eq_dec : EqDecision val.
Proof. solve_decision. Defined.

(** ** The interface *)

Class Cache (C K : Type) := {
  c_new : C;
  c_get : C → K → val;
  c_has : C → K → bool;
  c_set : C → K → val → C;
  c_delete : C → K → bool * C;
  c_size : C → Z
}.

(** [contents] is the finite map a cache stands for, [norm] what is read back for a
    value that was written under a key. *)
Class CacheLaws (C K : Type) `{EqDecision K} `{!Cache C K} := {
  c_wf : C → Prop;
  contents : C → K → option val;
  norm : K → val → val;
  new_wf : c_wf c_new;
  new_contents k : contents c_new k = None;
  new_size : c_size (C := C) (K := K) c_new = 0%Z;
  get_law c k : c_wf c → c_get c k = default VUndef (contents c k);
  has_law c k : c_wf c → c_has c k = bool_decide (is_Some (contents c k));
  set_wf c k v : c_wf c → c_wf (c_set c k v);
  set_contents c k v k' : c_wf c →
    contents (c_set c k v) k' = if decide (k = k') then Some (norm k v) else contents c k';
  set_size c k v : c_wf c →
    c_size (K := K) (c_set c k v) = (c_size (K := K) c + if decide (is_Some (contents c k)) then 0 else 1)%Z;
  delete_result c k : c_wf c → (c_delete c k).1 = bool_decide (is_Some (contents c k));
  delete_wf c k : c_wf c → c_wf (c_delete c k).2;
  delete_contents c k k' : c_wf c →
    contents (c_delete c k).2 k' = if decide (k = k') then None else contents c k';
  delete_size c k : c_wf c →
    c_size (K := K) (c_delete c k).2 = (c_size (K := K) c - if decide (is_Some (contents c k)) then 1 else 0)%Z
}.

(** ** [ListCache] *)

Section ListCache.
Context {K : Type} `{EqDecision K}.

Record ListCache := mkListCache { ldata : list (K * val); lsize : Z }.

(** [while(length--)]: the search runs from the end. *)
Fixpoint assocIndexOf_loop (length : nat) (array : list (K * val)) (key : K) : option nat :=
  match length with
  | O => None
  | S i => match array !! i with
           | Some (k, _) => if decide (k = key) then Some i else assocIndexOf_loop i array key
           | None => assocIndexOf_loop i array key
           end
  end.
Definition assocIndexOf (array : list (K * val)) (key : K) : option nat := assocIndexOf_loop (length array) array key.

Definition listCacheClear : ListCache := mkListCache [] 0.
Definition listCacheGet (c : ListCache) (key : K) : val :=
  match assocIndexOf (ldata c) key with
  | Some index => default VUndef (snd <$> ldata c !! index)
  | None => VUndef
  end.
Definition listCacheHas (c : ListCache) (key : K) : bool := bool_decide (is_Some (assocIndexOf (ldata c) key)).
Definition listCacheSet (c : ListCache) (key : K) (value : val) : ListCache :=
  match assocIndexOf (ldata c) key with
  | None => mkListCache (ldata c ++ [(key, value)]) (lsize c + 1)
  | Some index => mkListCache (<[index := (key, value)]> (ldata c)) (lsize c)
  end.
(** [data.pop()] when the entry is the last one, [splice] otherwise. *)
Definition listCacheDelete (c : ListCache) (key : K) : bool * ListCache :=
  match assocIndexOf (ldata c) key with
  | None => (false, c)
  | Some index =>
      let lastIndex := length (ldata c) - 1 in
      let data := if decide (index = lastIndex) then take lastIndex (ldata c)
                  else take index (ldata c) ++ drop (S index) (ldata c) in
      (true, mkListCache data (lsize c - 1))
  end.

#[export] Instance ListCache_ops : Cache ListCache K := {
  c_new := listCacheClear; c_get := listCacheGet; c_has := listCacheHas;
  c_set := listCacheSet; c_delete := listCacheDelete; c_size := lsize
}.

Definition list_wf (c : ListCache) : Prop := NoDup (ldata c).*1 ∧ lsize c = Z.of_nat (length (ldata c)).

(** What the search finds on a list without repeated keys. *)
Lemma assocIndexOf_Some l k i :
  NoDup l.*1 → assocIndexOf l k = Some i ↔ ∃ v, l !! i = Some (k, v).
Proof.
  intros Hnd. unfold assocIndexOf.
  assert (∀ n, n ≤ length l → assocIndexOf_loop n l k = Some i ↔ i < n ∧ ∃ v, l !! i = Some (k, v)) as Hg.
  { induction n as [|n IH]; intros Hn; simpl; [split; [done|intros [? _]; lia]|].
    destruct (lookup_lt_is_Some_2 l n) as [[k' v'] Hk']; [lia|]. rewrite Hk'. case_decide as Heq.
    - subst k'. split; [intros [= <-]; eauto|]. intros (_ & v & Hv). f_equal.
      eapply (NoDup_lookup l.*1); [done|by rewrite list_lookup_fmap, Hk'|by rewrite list_lookup_fmap, Hv].
    - rewrite IH by lia. split; [intros (? & ?); split; [lia|done]|]. intros (Hi & v & Hv). split; [|eauto].
      destruct (decide (i = n)) as [->|]; [congruence|lia]. }
  rewrite Hg by done. split; [by intros [_ ?]|]. intros [v Hv]. split; [by eapply lookup_lt_Some|eauto].
Qed.

Lemma assocIndexOf_None l k : NoDup l.*1 → assocIndexOf l k = None ↔ k ∉ l.*1.
Proof.
  intros Hnd. split.
  - intros Hn (p & -> & [i Hi]%list_elem_of_lookup)%list_elem_of_fmap. destruct p as [k v].
    assert (assocIndexOf l k = Some i) by (apply assocIndexOf_Some; eauto). simpl in *. congruence.
  - intros Hk. destruct (assocIndexOf l k) as [i|] eqn:Hi; [|done].
    apply assocIndexOf_Some in Hi as [v Hv]; [|done]. destruct Hk.
    apply list_elem_of_fmap. exists (k, v). split; [done|]. by eapply list_elem_of_lookup_2.
Qed.

Definition list_contents (c : ListCache) (k : K) : option val :=
  i ← assocIndexOf (ldata c) k; snd <$> ldata c !! i.

Lemma list_contents_elem c k v : list_wf c → list_contents c k = Some v ↔ (k, v) ∈ ldata c.
Proof.
  intros [Hnd _]. unfold list_contents. split.
  - destruct (assocIndexOf (ldata c) k) as [i|] eqn:Hi; simpl; [|done].
    apply assocIndexOf_Some in Hi as [w Hw]; [|done]. rewrite Hw. intros [= <-]. by eapply list_elem_of_lookup_2.
  - intros [i Hi]%list_elem_of_lookup. assert (assocIndexOf (ldata c) k = Some i) as -> by (apply assocIndexOf_Some; eauto).
    simpl. by rewrite Hi.
Qed.

Lemma list_contents_index c k i :
  list_wf c → assocIndexOf (ldata c) k = Some i → ∃ v, ldata c !! i = Some (k, v) ∧ list_contents c k = Some v.
Proof.
  intros [Hnd _] Hi. unfold list_contents. rewrite Hi. simpl.
  apply assocIndexOf_Some in Hi as [v Hv]; [|done]. exists v. by rewrite Hv.
Qed.

Lemma list_contents_none c k : assocIndexOf (ldata c) k = None → list_contents c k = None.
Proof. unfold list_contents. by intros ->. Qed.

(** Two caches agree on a key when they hold the same entry for it. *)
Lemma list_contents_ext c c' k :
  list_wf c → list_wf c' → (∀ v, (k, v) ∈ ldata c ↔ (k, v) ∈ ldata c') → list_contents c k = list_contents c' k.
Proof.
  intros H H' Hv. apply option_eq. intros v. rewrite !list_contents_elem by done. apply Hv.
Qed.

Lemma list_set_wf c k v : list_wf c → list_wf (listCacheSet c k v).
Proof.
  intros [Hnd Hs]. unfold listCacheSet. destruct (assocIndexOf (ldata c) k) as [i|] eqn:Hi; split; simpl.
  - apply assocIndexOf_Some in Hi as [w Hw]; [|done]. rewrite list_fmap_insert. simpl.
    rewrite list_insert_id; [done|]. by rewrite list_lookup_fmap, Hw.
  - by rewrite length_insert.
  - rewrite fmap_app. simpl. apply assocIndexOf_None in Hi; [|done].
    apply NoDup_app. split_and!; [done| |apply NoDup_singleton]. set_solver.
  - rewrite length_app. simpl. lia.
Qed.

Lemma list_set_contents c k v k' :
  list_wf c → list_contents (listCacheSet c k v) k' = if decide (k = k') then Some v else list_contents c k'.
Proof.
  intros Hwf. pose proof (list_set_wf c k v Hwf) as Hwf'. destruct (decide (k = k')) as [<-|Hne].
  - apply list_contents_elem; [done|]. unfold listCacheSet.
    destruct (assocIndexOf (ldata c) k) as [i|] eqn:Hi; simpl; [|set_solver].
    destruct (list_contents_index c k i Hwf Hi) as (w & Hw & _).
    apply list_elem_of_lookup. exists i. apply list_lookup_insert_eq. by eapply lookup_lt_Some.
  - apply list_contents_ext; [done..|]. intros w. unfold listCacheSet.
    destruct (assocIndexOf (ldata c) k) as [i|] eqn:Hi; simpl; [|set_solver].
    destruct (list_contents_index c k i Hwf Hi) as (u & Hu & _). rewrite !list_elem_of_lookup. split; intros [j Hj].
    + destruct (decide (j = i)) as [->|]; [rewrite list_lookup_insert_eq in Hj by (by eapply lookup_lt_Some); congruence|].
      rewrite list_lookup_insert_ne in Hj by done. eauto.
    + exists j. rewrite list_lookup_insert_ne; [done|]. intros ->. congruence.
Qed.

(** Removing the last entry and splicing are the same list operation. *)
Lemma list_delete_data c k i :
  list_wf c → assocIndexOf (ldata c) k = Some i →
  ldata (listCacheDelete c k).2 = delete i (ldata c) ∧ (listCacheDelete c k).1 = true ∧
  lsize (listCacheDelete c k).2 = (lsize c - 1)%Z.
Proof.
  intros Hwf Hi. destruct (list_contents_index c k i Hwf Hi) as (v & Hv & _). unfold listCacheDelete. rewrite Hi. simpl.
  split; [|done]. rewrite delete_take_drop. case_decide as Hl; [|done]. subst i.
  rewrite drop_ge by lia. by rewrite app_nil_r.
Qed.

Lemma NoDup_delete_key (l : list (K * val)) i k v k' w :
  NoDup l.*1 → l !! i = Some (k, v) → (k', w) ∈ delete i l ↔ (k', w) ∈ l ∧ k' ≠ k.
Proof.
  intros Hnd Hi. rewrite delete_take_drop. rewrite <-(take_drop_middle l i (k, v) Hi) in Hnd.
  rewrite <-(take_drop_middle l i (k, v) Hi) at 3.
  rewrite fmap_app, fmap_cons in Hnd. apply NoDup_app in Hnd as (_ & H1 & [H2 _]%NoDup_cons). simpl in *.
  rewrite !elem_of_app, elem_of_cons. split; [|naive_solver].
  intros Hw. split; [tauto|]. intros ->. destruct Hw as [Hw|Hw].
  - apply (H1 k); [by apply (list_elem_of_fmap_2 fst) in Hw|by left].
  - apply H2. by apply (list_elem_of_fmap_2 fst) in Hw.
Qed.

Lemma list_delete_none c k : assocIndexOf (ldata c) k = None → listCacheDelete c k = (false, c).
Proof. unfold listCacheDelete. by intros ->. Qed.

Lemma list_delete_wf c k : list_wf c → list_wf (listCacheDelete c k).2.
Proof.
  intros Hwf. destruct (assocIndexOf (ldata c) k) as [i|] eqn:Hi; [|by rewrite list_delete_none].
  destruct (list_delete_data c k i Hwf Hi) as (Hd & _ & Hs). destruct (list_contents_index c k i Hwf Hi) as (v & Hv & _).
  destruct Hwf as [Hnd Hsz]. split.
  - rewrite Hd. eapply sublist_NoDup; [exact Hnd|]. apply fmap_sublist, sublist_delete.
  - rewrite Hs, Hd, length_delete by eauto. apply lookup_lt_Some in Hv. lia.
Qed.

Lemma list_delete_contents c k k' :
  list_wf c → list_contents (listCacheDelete c k).2 k' = if decide (k = k') then None else list_contents c k'.
Proof.
  intros Hwf. pose proof (list_delete_wf c k Hwf) as Hwf'. destruct (assocIndexOf (ldata c) k) as [i|] eqn:Hi.
  - destruct (list_delete_data c k i Hwf Hi) as (Hd & _ & _). destruct (list_contents_index c k i Hwf Hi) as (v & Hv & _).
    case_decide as Hk.
    + subst k'. apply eq_None_ne_Some. intros w Hw%list_contents_elem; [|done]. rewrite Hd in Hw.
      apply (NoDup_delete_key _ i k v) in Hw as [_ ?]; [done|apply Hwf|done].
    + apply list_contents_ext; [done..|]. intros w. rewrite Hd, (NoDup_delete_key _ i k v); [naive_solver|apply Hwf|done].
  - rewrite list_delete_none by done. simpl. case_decide; [subst; by apply list_contents_none|done].
Qed.

#[export] Instance ListCache_laws : CacheLaws ListCache K.
Proof.
  refine {| c_wf := list_wf; contents := list_contents; norm := λ _ v, v |}; cbn [c_new c_get c_has c_set c_delete c_size ListCache_ops].
  - split; [constructor|done].
  - done.
  - done.
  - intros c k Hwf. unfold listCacheGet. destruct (assocIndexOf (ldata c) k) as [i|] eqn:Hi.
    + destruct (list_contents_index c k i Hwf Hi) as (v & -> & ->). done.
    + by rewrite list_contents_none.
  - intros c k Hwf. unfold listCacheHas. apply bool_decide_ext.
    destruct (assocIndexOf (ldata c) k) as [i|] eqn:Hi; [|by rewrite list_contents_none].
    destruct (list_contents_index c k i Hwf Hi) as (v & _ & ->). by split; eauto.
  - apply list_set_wf.
  - intros. by apply list_set_contents.
  - intros c k v Hwf. unfold listCacheSet. destruct (assocIndexOf (ldata c) k) as [i|] eqn:Hi; simpl.
    + destruct (list_contents_index c k i Hwf Hi) as (w & _ & Hw). rewrite decide_True by (rewrite Hw; eauto). lia.
    + rewrite decide_False; [done|]. rewrite list_contents_none by done. by intros [??].
  - intros c k Hwf. destruct (assocIndexOf (ldata c) k) as [i|] eqn:Hi.
    + destruct (list_delete_data c k i Hwf Hi) as (_ & -> & _). destruct (list_contents_index c k i Hwf Hi) as (w & _ & ->).
      by rewrite bool_decide_eq_true_2 by eauto.
    + rewrite list_delete_none, list_contents_none by done. done.
  - intros. by apply list_delete_wf.
  - intros. by apply list_delete_contents.
  - intros c k Hwf. destruct (assocIndexOf (ldata c) k) as [i|] eqn:Hi.
    + destruct (list_delete_data c k i Hwf Hi) as (_ & _ & ->). destruct (list_contents_index c k i Hwf Hi) as (w & _ & Hw).
      by rewrite decide_True by (rewrite Hw; eauto).
    + rewrite list_delete_none by done. simpl. rewrite decide_False; [lia|]. rewrite list_contents_none by done. by intros [??].
Defined.
End ListCache.
Arguments ListCache : clear implicits.

(** ** [Hash] *)

(** Used to stand in for [undefined] hash values. *)
Definition HASH_UNDEFINED : val := VStr "__lodash_hash_undefined__".

Record Hash := mkHash { hdata : obj val; hsize : Z }.

Definition hashClear : Hash := mkHash [] 0.
Definition hashHas (h : Hash) (key : string) : bool :=
  bool_decide (default VUndef (oget (hdata h) key) ≠ VUndef).
Definition hashGet (h : Hash) (key : string) : val :=
  let result := default VUndef (oget (hdata h) key) in
  if decide (result = HASH_UNDEFINED) then VUndef else result.
Definition hashSet (h : Hash) (key : string) (value : val) : Hash :=
  mkHash (oset (hdata h) key (if decide (value = VUndef) then HASH_UNDEFINED else value))
         (hsize h + if hashHas h key then 0 else 1).
Definition hashDelete (h : Hash) (key : string) : bool * Hash :=
  let result := hashHas h key in
  (result, mkHash (if result then odel (hdata h) key else hdata h) (hsize h - if result then 1 else 0)).

#[export] Instance Hash_ops : Cache Hash string := {
  c_new := hashClear; c_get := hashGet; c_has := hashHas; c_set := hashSet; c_delete := hashDelete; c_size := hsize
}.

(** A value that happens to be the stand-in reads back as [undefined]. *)
Definition hash_norm (v : val) : val := if decide (v = HASH_UNDEFINED) then VUndef else v.

Definition hash_wf (h : Hash) : Prop := ∀ k, oget (hdata h) k ≠ Some VUndef.
Definition hash_contents (h : Hash) (k : string) : option val := hash_norm <$> oget (hdata h) k.

Lemma hashHas_contents h k : hash_wf h → hashHas h k = bool_decide (is_Some (hash_contents h k)).
Proof.
  intros Hwf. unfold hashHas, hash_contents. apply bool_decide_ext. specialize (Hwf k).
  destruct (oget (hdata h) k) as [v|]; simpl; [|by split; [|intros [??]]]. split; [eauto|congruence].
Qed.

#[export] Instance Hash_laws : CacheLaws Hash string.
Proof.
  refine {| c_wf := hash_wf; contents := hash_contents; norm := λ _ v, hash_norm v |};
    cbn [c_new c_get c_has c_set c_delete c_size Hash_ops].
  - done.
  - done.
  - done.
  - intros h k _. unfold hashGet, hash_contents, hash_norm. by destruct (oget (hdata h) k).
  - intros h k Hwf. by apply hashHas_contents.
  - intros h k v Hwf k'. simpl. rewrite oget_oset. destruct (decide (k = k')); [|apply Hwf].
    destruct (decide (v = VUndef)); [done|congruence].
  - intros h k v k' Hwf. unfold hash_contents. simpl. rewrite oget_oset. destruct (decide (k = k')); [|done].
    simpl. f_equal. unfold hash_norm. destruct (decide (v = VUndef)) as [->|]; done.
  - intros h k v Hwf. simpl. rewrite hashHas_contents by done. f_equal. by case_bool_decide; case_decide.
  - intros h k Hwf. simpl. by apply hashHas_contents.
  - intros h k Hwf k'. simpl. destruct (hashHas h k); [|apply Hwf]. rewrite oget_odel. case_decide; [done|apply Hwf].
  - intros h k k' Hwf. pose proof (hashHas_contents h k Hwf) as Hh. unfold hash_contents in *. simpl.
    destruct (hashHas h k); [rewrite oget_odel; by case_decide|]. case_decide; [subst|done].
    symmetry in Hh. apply bool_decide_eq_false in Hh. by apply eq_None_not_Some.
  - intros h k Hwf. simpl. rewrite hashHas_contents by done. f_equal. by case_bool_decide; case_decide.
Defined.

(** ** [MapCache] *)

Inductive ckey := KStr (s : string) | KNum (z : Z) | KBool (b : bool) | KNull | KUndef | KObj (ref : N).
#[export] Instance ckey_eq_dec : EqDecision ckey.
Proof. solve_decision. Defined.

(** The property name of a key in a plain object. *)
Definition key_name (k : ckey) : string :=
  match k with
  | KStr s => s
  | KNum z => pretty z
  | KBool true => "true"
  | KBool false => "false"
  | KNull => "null"
  | KUndef => "undefined"
  | KObj _ => "[object Object]"
  end.

Definition isKeyable (k : ckey) : bool :=
  match k with
  | KStr s => bool_decide (s ≠ "__proto__"%string)
  | KNum _ | KBool _ | KNull => true
  | KUndef | KObj _ => false
  end.

Inductive part := PString | PHash | PMap.
Definition getMapData (k : ckey) : part :=
  if isKeyable k then match k with KStr _ => PString | _ => PHash end else PMap.

Section MapCache.
Context {M : Type} `{!Cache M ckey} `{!CacheLaws M ckey}.

Record MapCache := mkMapCache { mhash : Hash; mmap : M; mstring : Hash; msize : Z }.

Definition mapCacheClear : MapCache := mkMapCache hashClear c_new hashClear 0.
Definition mapCacheGet (c : MapCache) (key : ckey) : val :=
  match getMapData key with
  | PString => hashGet (mstring c) (key_name key)
  | PHash => hashGet (mhash c) (key_name key)
  | PMap => c_get (mmap c) key
  end.
Definition mapCacheHas (c : MapCache) (key : ckey) : bool :=
  match getMapData key with
  | PString => hashHas (mstring c) (key_name key)
  | PHash => hashHas (mhash c) (key_name key)
  | PMap => c_has (mmap c) key
  end.
(** [this.size += data.size==size ? 0 : 1]. *)
Definition grown (before after : Z) : Z := if decide (after = before) then 0 else 1.
Definition mapCacheSet (c : MapCache) (key : ckey) (value : val) : MapCache :=
  match getMapData key with
  | PString => let d := hashSet (mstring c) (key_name key) value in
               mkMapCache (mhash c) (mmap c) d (msize c + grown (hsize (mstring c)) (hsize d))
  | PHash => let d := hashSet (mhash c) (key_name key) value in
             mkMapCache d (mmap c) (mstring c) (msize c + grown (hsize (mhash c)) (hsize d))
  | PMap => let d := c_set (mmap c) key value in
            mkMapCache (mhash c) d (mstring c) (msize c + grown (c_size (K := ckey) (mmap c)) (c_size (K := ckey) d))
  end.
Definition mapCacheDelete (c : MapCache) (key : ckey) : bool * MapCache :=
  match getMapData key with
  | PString => let r := hashDelete (mstring c) (key_name key) in
               (r.1, mkMapCache (mhash c) (mmap c) r.2 (msize c - if r.1 then 1 else 0))
  | PHash => let r := hashDelete (mhash c) (key_name key) in
             (r.1, mkMapCache r.2 (mmap c) (mstring c) (msize c - if r.1 then 1 else 0))
  | PMap => let r := c_delete (mmap c) key in
            (r.1, mkMapCache (mhash c) r.2 (mstring c) (msize c - if r.1 then 1 else 0))
  end.

#[export] Instance MapCache_ops : Cache MapCache ckey := {
  c_new := mapCacheClear; c_get := mapCacheGet; c_has := mapCacheHas;
  c_set := mapCacheSet; c_delete := mapCacheDelete; c_size := msize
}.

Definition map_wf (c : MapCache) : Prop := hash_wf (mhash c) ∧ c_wf (mmap c) ∧ hash_wf (mstring c).
Definition map_contents (c : MapCache) (k : ckey) : option val :=
  match getMapData k with
  | PString => hash_contents (mstring c) (key_name k)
  | PHash => hash_contents (mhash c) (key_name k)
  | PMap => contents (mmap c) k
  end.
Definition map_norm (k : ckey) (v : val) : val :=
  match getMapData k with PMap => norm k v | _ => hash_norm v end.

Lemma pretty_not_word (z : Z) w : w ∈ ["true"; "false"; "null"]%string → pretty z ≠ w.
Proof.
  intros Hw. destruct (pretty_Z_head z) as (c & s & -> & Hc). intros <-.
  rewrite !elem_of_cons, elem_of_nil in Hw. destruct Hw as [[= ->]|[[= ->]|[[= ->]|[]]]]; by destruct Hc.
Qed.

(** Keys of one plain object do not collide. *)
Lemma key_name_inj k k' :
  getMapData k = getMapData k' → getMapData k ≠ PMap → key_name k = key_name k' → k = k'.
Proof.
  unfold getMapData. intros Hp Hm Hn.
  assert (∀ (z : Z) (b : bool), pretty z ≠ (if b then "true" else "false")%string) as Hb.
  { intros z []; apply pretty_not_word; set_solver. }
  assert (∀ z : Z, pretty z ≠ "null"%string) as Hnull by (intros z; apply pretty_not_word; set_solver).
  destruct k as [s|z|b| | |r], k' as [s'|z'|b'| | |r']; simpl in *; repeat case_bool_decide; try congruence;
    lazymatch type of Hn with
    | pretty z = pretty z' => by apply (inj (pretty (A := Z))) in Hn as ->
    | pretty z = "null"%string => by destruct (Hnull _ Hn)
    | "null"%string = pretty z' => by destruct (Hnull _ (eq_sym Hn))
    | pretty z = _ => by destruct (Hb z b')
    | _ = pretty z' => by destruct (Hb z' b)
    | _ => first [by destruct b, b' | by destruct b | by destruct b']
    end.
Qed.

Lemma grown_spec n (P : Prop) `{Decision P} :
  grown n (n + if decide P then 0 else 1) = (if decide P then 0 else 1)%Z.
Proof. unfold grown. destruct (decide P); case_decide; lia. Qed.

Lemma hash_set_at (h : Hash) k v k' :
  hash_wf h → getMapData k' = getMapData k → getMapData k ≠ PMap →
  hash_contents (hashSet h (key_name k) v) (key_name k') =
    if decide (k = k') then Some (hash_norm v) else hash_contents h (key_name k').
Proof.
  intros Hwf Hp Hm. pose proof (@set_contents Hash string _ _ Hash_laws h (key_name k) v (key_name k')) as Hs. simpl in Hs. rewrite Hs by done.
  destruct (decide (k = k')) as [->|Hne]; [by rewrite decide_True|].
  rewrite decide_False; [done|]. intros Hn. apply Hne. by apply key_name_inj.
Qed.

Lemma hash_delete_at (h : Hash) k k' :
  hash_wf h → getMapData k' = getMapData k → getMapData k ≠ PMap →
  hash_contents (hashDelete h (key_name k)).2 (key_name k') =
    if decide (k = k') then None else hash_contents h (key_name k').
Proof.
  intros Hwf Hp Hm. pose proof (@delete_contents Hash string _ _ Hash_laws h (key_name k) (key_name k')) as Hs. cbn in Hs. unfold hashDelete. cbn. rewrite Hs by done.
  destruct (decide (k = k')) as [->|Hne]; [by rewrite decide_True|].
  rewrite decide_False; [done|]. intros Hn. apply Hne. by apply key_name_inj.
Qed.

Lemma map_set_contents c k v k' :
  map_wf c → map_contents (mapCacheSet c k v) k' = if decide (k = k') then Some (map_norm k v) else map_contents c k'.
Proof.
  intros (H1 & H2 & H3). unfold map_contents, mapCacheSet, map_norm.
  destruct (getMapData k) eqn:Hk, (getMapData k') eqn:Hk'; simpl;
    try (rewrite decide_False by congruence; done).
  - by rewrite hash_set_at by congruence.
  - by rewrite hash_set_at by congruence.
  - by apply set_contents.
Qed.

Lemma map_delete_contents c k k' :
  map_wf c → map_contents (mapCacheDelete c k).2 k' = if decide (k = k') then None else map_contents c k'.
Proof.
  intros (H1 & H2 & H3). unfold map_contents, mapCacheDelete.
  destruct (getMapData k) eqn:Hk, (getMapData k') eqn:Hk'; simpl;
    try (rewrite decide_False by congruence; done).
  - rewrite <-hash_delete_at by congruence. done.
  - rewrite <-hash_delete_at by congruence. done.
  - by apply delete_contents.
Qed.

#[export] Instance MapCache_laws : CacheLaws MapCache ckey.
Proof.
  refine {| c_wf := map_wf; contents := map_contents; norm := map_norm |};
    cbn [c_new c_get c_has c_set c_delete c_size MapCache_ops].
  - split_and!; [apply (@new_wf Hash string _ _ Hash_laws)|apply new_wf|apply (@new_wf Hash string _ _ Hash_laws)].
  - intros k. unfold map_contents. destruct (getMapData k); [done|done|apply new_contents].
  - done.
  - intros c k (? & ? & ?). unfold mapCacheGet, map_contents.
    destruct (getMapData k); [by apply (@get_law Hash string _ _ Hash_laws)|by apply (@get_law Hash string _ _ Hash_laws)|by apply get_law].
  - intros c k (? & ? & ?). unfold mapCacheHas, map_contents.
    destruct (getMapData k); [by apply (@has_law Hash string _ _ Hash_laws)|by apply (@has_law Hash string _ _ Hash_laws)|by apply has_law].
  - intros c k v (? & ? & ?). unfold mapCacheSet.
    destruct (getMapData k); split_and!; simpl; try done; [by apply (@set_wf Hash string _ _ Hash_laws)..|by apply set_wf].
  - intros. by apply map_set_contents.
  - intros c k v (H1 & H2 & H3). unfold mapCacheSet, map_contents. destruct (getMapData k); cbn [msize].
    + rewrite (@set_size Hash string _ _ Hash_laws (mstring c) _ v H3 : hsize _ = _). by rewrite (grown_spec (hsize _)).
    + rewrite (@set_size Hash string _ _ Hash_laws (mhash c) _ v H1 : hsize _ = _). by rewrite (grown_spec (hsize _)).
    + rewrite set_size by done. by rewrite grown_spec.
  - intros c k (? & ? & ?). unfold mapCacheDelete, map_contents. destruct (getMapData k); cbn [fst];
      [by apply (@delete_result Hash string _ _ Hash_laws)|by apply (@delete_result Hash string _ _ Hash_laws)|by apply delete_result].
  - intros c k (? & ? & ?). unfold mapCacheDelete.
    destruct (getMapData k); split_and!; simpl; try done;
      [by apply (@delete_wf Hash string _ _ Hash_laws _ (key_name k))|by apply (@delete_wf Hash string _ _ Hash_laws _ (key_name k))|by apply delete_wf].
  - intros. by apply map_delete_contents.
  - intros c k (H1 & H2 & H3). unfold mapCacheDelete, map_contents. destruct (getMapData k); cbn [msize fst snd].
    + rewrite (@delete_result Hash string _ _ Hash_laws (mstring c) _ H3 : fst _ = _). by case_bool_decide; case_decide.
    + rewrite (@delete_result Hash string _ _ Hash_laws (mhash c) _ H1 : fst _ = _). by case_bool_decide; case_decide.
    + rewrite delete_result by done. by case_bool_decide; case_decide.
Defined.
End MapCache.
Arguments MapCache : clear implicits.
