(* ===== verification/LodashClaims.v ===== *)
(** * lodash: the contract of the helpers

    The theorems about the collection functions and the caches that the graph
    container and the layout rely on. *)
From stdpp Require Import pretty.
From S2P Require Import Prelude Decimal JsObject Graphlib Lodash LodashSpec LodashCache.

(** ** Caches as finite maps *)

#[export] Instance ckey_countable : Countable ckey.
Proof.
  refine (inj_countable'
    (λ k, match k with
          | KStr s => inl (inl s) | KNum z => inl (inr z) | KBool b => inr (inl (inl b))
          | KNull => inr (inl (inr tt)) | KUndef => inr (inr (inl tt)) | KObj r => inr (inr (inr r))
          end : string + Z + (bool + unit + (unit + N)))
    (λ x, match x with
          | inl (inl s) => KStr s | inl (inr z) => KNum z | inr (inl (inl b)) => KBool b
          | inr (inl (inr _)) => KNull | inr (inr (inl _)) => KUndef | inr (inr (inr r)) => KObj r
          end) _).
  by intros [].
Defined.

Inductive cop (K : Type) := CSet (k : K) (v : val) | CDelete (k : K) | CClear.
Arguments CSet {K} _ _. Arguments CDelete {K} _. Arguments CClear {K}.

Section Refine.
Context {C K : Type} `{Countable K} `{!Cache C K} `{!CacheLaws C K}.

Definition run_cop (c : C) (o : cop K) : C :=
  match o with CSet k v => c_set c k v | CDelete k => (c_delete c k).2 | CClear => c_new end.
Definition run_cops (ops : list (cop K)) : C := foldl run_cop c_new ops.

Definition spec_cop (m : gmap K val) (o : cop K) : gmap K val :=
  match o with CSet k v => <[k := norm k v]> m | CDelete k => delete k m | CClear => ∅ end.
Definition spec_cops (ops : list (cop K)) : gmap K val := foldl spec_cop ∅ ops.

(** The relation between a cache and the map it implements. *)
Record cache_rel (c : C) (m : gmap K val) : Prop := {
  cr_wf : c_wf c;
  cr_contents : ∀ k, contents c k = m !! k;
  cr_size : c_size (K := K) c = Z.of_nat (size m)
}.

Lemma cache_rel_step c m o : cache_rel c m → cache_rel (run_cop c o) (spec_cop m o).
Proof.
  intros [Hwf Hc Hs]. destruct o as [k v|k|]; simpl.
  - split; [by apply set_wf| |].
    + intros k'. rewrite set_contents, lookup_insert by done. by case_decide.
    + rewrite set_size, Hs, map_size_insert, Hc by done. destruct (m !! k); simpl; lia.
  - split; [by apply delete_wf| |].
    + intros k'. rewrite delete_contents, lookup_delete by done. by case_decide.
    + rewrite delete_size, Hs, map_size_delete, Hc by done. destruct (m !! k) eqn:Hk; simpl; [|lia].
      assert (size m ≠ 0) by (intros Hz%map_size_empty_inv; subst; done). lia.
  - split; [apply new_wf| |by rewrite map_size_empty, new_size].
    intros k. by rewrite new_contents, lookup_empty.
Qed.

Lemma cache_refines ops : cache_rel (run_cops ops) (spec_cops ops).
Proof.
  unfold run_cops, spec_cops.
  assert (∀ c m, cache_rel c m → cache_rel (foldl run_cop c ops) (foldl spec_cop m ops)) as Hg.
  { induction ops as [|o ops IH]; intros c m Hr; simpl; [done|]. by apply IH, cache_rel_step. }
  apply Hg. split; [apply new_wf| |by rewrite map_size_empty, new_size].
  intros k. by rewrite new_contents, lookup_empty.
Qed.
End Refine.

(** The map that a client of [MapCache] has in mind. *)
Definition plain_cop (m : gmap ckey val) (o : cop ckey) : gmap ckey val :=
  match o with CSet k v => <[k := v]> m | CDelete k => delete k m | CClear => ∅ end.

Definition ordinary (o : cop ckey) : Prop :=
  match o with CSet _ v => v ≠ HASH_UNDEFINED | _ => True end.
#[export] Instance ordinary_dec o : Decision (ordinary o).
Proof. destruct o; simpl; apply _. Defined.

Lemma map_norm_id (k : ckey) v : v ≠ HASH_UNDEFINED → map_norm (M := ListCache ckey) k v = v.
Proof. intros Hv. unfold map_norm, hash_norm. by destruct (getMapData k); rewrite ?decide_False. Qed.

Lemma spec_plain ops : Forall ordinary ops →
  spec_cops (C := MapCache (ListCache ckey)) ops = foldl plain_cop ∅ ops.
Proof.
  unfold spec_cops. generalize (∅ : gmap ckey val) as m. intros m H. revert m.
  induction H as [|o ops Ho _ IH]; intros m; cbn [foldl]; [done|]. rewrite IH. f_equal.
  destruct o as [k v|k|]; [|done..]. cbn [spec_cop plain_cop norm MapCache_laws]. by rewrite map_norm_id.
Qed.

(** C40: After any sequence of [set], [delete] and [clear] calls a [MapCache] answers
    [get], [has] and [size] like the finite map the calls describe, for string,
    number, boolean, [null], [undefined] and object keys alike; the only exception are
    values equal to the internal marker for [undefined]. *)
Theorem mapcache_refines_map (ops : list (cop ckey)) k :
  Forall ordinary ops →
  let c : MapCache (ListCache ckey) := run_cops ops in
  let m := foldl plain_cop ∅ ops in
  mapCacheGet c k = default VUndef (m !! k) ∧ mapCacheHas c k = bool_decide (is_Some (m !! k)) ∧
  msize c = Z.of_nat (size m).
Proof.
  intros Ho. destruct (cache_refines (C := MapCache (ListCache ckey)) ops) as [Hwf Hc Hs].
  rewrite (spec_plain ops Ho) in Hc, Hs. cbv zeta. rewrite <-Hc. split_and!; [|exact (has_law _ k Hwf)|exact Hs].
  exact (get_law _ k Hwf).
Qed.

Definition demo_cops : list (cop ckey) :=
  [CSet (KStr "1") (VStr "a"); CSet (KNum 1) (VStr "b"); CSet (KObj 7) VUndef; CSet (KStr "1") (VStr "c");
   CSet KNull (VOther 3); CDelete (KObj 7); CSet (KStr "__proto__") (VOther 9); CDelete (KBool true)].

Lemma mapcache_refines_map_witness :
  Forall ordinary demo_cops ∧
  mapCacheGet (run_cops demo_cops : MapCache (ListCache ckey)) (KStr "1") = VStr "c" ∧
  mapCacheGet (run_cops demo_cops : MapCache (ListCache ckey)) (KNum 1) = VStr "b" ∧
  msize (run_cops demo_cops : MapCache (ListCache ckey)) = 4%Z.
Proof.
  assert (Forall ordinary demo_cops) as Ho by (apply (bool_decide_unpack _); vm_compute; exact I).
  split; [exact Ho|]. destruct (mapcache_refines_map demo_cops (KStr "1") Ho) as (H1 & _ & H3).
  destruct (mapcache_refines_map demo_cops (KNum 1) Ho) as (H2 & _).
  split; [rewrite H1; vm_compute; reflexivity|]. split; [rewrite H2; vm_compute; reflexivity|].
  rewrite H3. vm_compute. reflexivity.
Defined.

(** ** Collection functions *)

(** [_.union] returns the values of all arrays once, in order of first occurrence,
    whichever of its two branches (short arrays, long arrays through a [Set]) runs; on
    two arrays it is the union that [Graph.neighbors] uses. *)
Theorem union_first_occurrence {A} `{EqDecision A} (arrays : list (list A)) :
  NoDup (Lodash.union arrays) ∧ (∀ x, x ∈ Lodash.union arrays ↔ ∃ l, l ∈ arrays ∧ x ∈ l) ∧
  Lodash.union arrays = reverse (remove_dups (reverse (concat arrays))) ∧
  ∀ l1 l2 : list string, Lodash.union [l1; l2] = Graphlib.union l1 l2.
Proof.
  assert (∀ B (EB : EqDecision B) (ls : list (list B)), Lodash.union ls = foldl set_add [] (concat ls)) as Hu.
  { intros B EB ls. unfold Lodash.union, flatten. by rewrite baseUniq_eq, flatten_concat. }
  rewrite Hu. split_and!.
  - apply set_add_NoDup. constructor.
  - intros x. rewrite set_add_elem, elem_of_concat. set_solver.
  - apply set_add_first.
  - intros l1 l2. rewrite Hu, set_add_first. unfold Graphlib.union. simpl. by rewrite app_nil_r.
Qed.

(** [_.minBy] returns the first element whose criterion is smallest and skips
    elements without a criterion; it returns [undefined] exactly when no element has one. *)
Theorem minBy_first_minimum {A} (l : list A) (crit : A → option Z) :
  (minBy l crit = None ↔ ∀ y, y ∈ l → crit y = None) ∧
  ∀ x, minBy l crit = Some x → ∃ pre post c, l = pre ++ x :: post ∧ crit x = Some c ∧
    (∀ y d, y ∈ pre → crit y = Some d → (c < d)%Z) ∧ (∀ y d, y ∈ post → crit y = Some d → (c ≤ d)%Z).
Proof.
  pose proof (minBy_spec l crit) as Hm. destruct (minBy l crit) as [x|].
  - destruct Hm as (pre & post & c & -> & Hc & H1 & H2). split.
    + split; [done|]. intros Hn. rewrite (Hn x) in Hc by set_solver. done.
    + intros x' [= <-]. exists pre, post, c. split_and!; [done|done| |done].
      intros y d Hy Hd. destruct (H1 y d Hy Hd). lia.
  - split; [by split|done].
Qed.

(** [_.min] and [_.max] of an array of numbers with holes return its least and its
    greatest number, and [undefined] on an array without numbers. *)
Lemma min_max_spec l :
  match Lodash.min l with Some m => Some m ∈ l ∧ ∀ z, Some z ∈ l → (m ≤ z)%Z | None => ∀ z, Some z ∉ l end ∧
  match Lodash.max l with Some m => Some m ∈ l ∧ ∀ z, Some z ∈ l → (z ≤ m)%Z | None => ∀ z, Some z ∉ l end.
Proof. split; [apply min_spec|apply max_spec]. Qed.

(** [_.range(a, b)] counts up from [a] to below [b], [_.range(a, b, -1)] counts
    down from [a] to above [b], [_.range(n)] counts up (or down, when [n] is negative)
    from zero; every result lists its numbers in steps without repetition. *)
Lemma range_counts a b :
  (∀ z, z ∈ range a (Some b) (Some 1%Z) ↔ (a ≤ z < b)%Z) ∧
  (∀ z, z ∈ range a (Some b) (Some (-1)%Z) ↔ (b < z ≤ a)%Z) ∧
  (∀ z, z ∈ range a None None ↔ (0 ≤ z < a ∨ a < z ≤ 0)%Z) ∧
  (∀ step i z, range a (Some b) (Some step) !! i = Some z → z = (a + Z.of_nat i * step)%Z).
Proof.
  split_and!.
  - intros z. unfold range. rewrite elem_of_baseRange, range_length_up. split.
    + intros (k & Hk & ->). lia.
    + intros Hz. exists (z - a)%Z. lia.
  - intros z. unfold range. rewrite elem_of_baseRange, range_length_down. split.
    + intros (k & Hk & ->). lia.
    + intros Hz. exists (a - z)%Z. lia.
  - intros z. unfold range. case_decide; rewrite elem_of_baseRange, ?range_length_up, ?range_length_down; split.
    + intros (k & Hk & ->). lia.
    + intros Hz. exists z. lia.
    + intros (k & Hk & ->). lia.
    + intros Hz. exists (- z)%Z. lia.
  - intros step i z. unfold range, baseRange. rewrite baseRange_loop_spec, list_lookup_fmap.
    destruct (seq _ _ !! i) as [k|] eqn:Hk; simpl; [|done]. apply lookup_seq in Hk as [-> _]. by intros [= <-].
Qed.

(** The object helpers: [pick] keeps exactly the listed properties, [defaults] keeps
    every defined property and takes the others from the first source that defines them,
    [zipObject] of distinct names maps each name to the value at its position. *)
Theorem object_helpers {V} (o : obj V) (d : obj (option V)) sources source paths values k :
  (oget (pick o paths) k = if decide (k ∈ paths) then oget o k else None) ∧
  (mjoin (oget (defaults d (sources ++ [source])) k) =
     match mjoin (oget (defaults d sources) k) with Some v => Some v | None => mjoin (oget source k) end) ∧
  (∀ v, mjoin (oget d k) = Some v → mjoin (oget (defaults d sources) k) = Some v) ∧
  (NoDup paths → ∀ i, paths !! i = Some k → oget (zipObject paths values) k = Some ((values : list V) !! i)).
Proof.
  split_and!.
  - unfold pick. rewrite pick_lookup. case_decide; [by destruct (oget o k)|done].
  - unfold defaults at 1. rewrite foldl_app. simpl. apply defaults_source_lookup.
  - intros v. unfold defaults. revert d. induction sources as [|s ss IH]; intros d Hd; cbn [foldl]; [done|].
    apply IH. by rewrite defaults_source_lookup, Hd.
  - intros Hnd i Hi. unfold zipObject. by rewrite (zipObject_lookup _ _ 0 _ i).
Qed.

(** The collection functions on arrays and objects are the list functions the
    callers mean: [filter], [map] with positions, [reduce] from the left, [flatten] by
    one level, [forEach] over the whole array unless the callback returns [false],
    [find] for the first match, [values] in the order of [keys]. *)
Theorem collection_functions {A B : Type} (l : list A) (ls : list (list A)) (p : A → bool)
    (f : A → nat → B) (r : B → A → B) (b : B) {V} (o : obj V) :
  Coll.filter l (λ x _, p x) = filter (λ x, p x = true) l ∧
  Coll.map l f = imap (λ i x, f x i) l ∧
  Coll.reduce l (λ acc x _, r acc x) b = foldl r b l ∧
  Coll.forEach l (λ acc x _, (r acc x, false)) b = foldl r b l ∧
  (∀ pre x post, l = pre ++ x :: post → (∀ y, y ∈ pre → p y = false) → p x = true →
     Coll.forEach l (λ acc y _, (r acc y, p y)) b = foldl r b (pre ++ [x]) ∧
     Coll.find l p = Some x) ∧
  (Coll.find l p = None ↔ ∀ x, x ∈ l → p x = false) ∧
  flatten ls = concat ls ∧
  Coll.values o = Some <$> ovalues o.
Proof.
  split_and!.
  - apply (arrayFilter_spec l p 0 []).
  - apply (arrayMap_spec l f 0 []).
  - apply arrayReduce_spec.
  - apply arrayEach_total.
  - intros pre x post -> Hpre Hx. split; [by apply (arrayEach_stops pre post x r p)|by apply find_first].
  - apply find_none.
  - apply (flatten_concat ls []).
  - apply values_spec.
Qed.

(** Two calls of [_.uniqueId] with the same prefix return the same id only when
    they started from the same counter, so ids handed out over time are distinct. *)
Lemma uniqueId_fresh c c' prefix :
  (uniqueId c prefix).2 = (uniqueId c' prefix).2 ↔ c = c'.
Proof.
  unfold uniqueId. simpl. split; [|by intros ->]. intros Heq%(inj _)%(inj _). lia.
Qed.
