(* ===== verification/Vis.v ===== *)
(** * blockchain_vis.js: drawing the block trees

    The script fetches the dump of the blockchain and issues a sequence of calls
    on the cytoscape canvas [cy].  [handle_data] is modelled as the function from
    the parsed dump to that sequence of calls; the canvas itself is a third-party
    component, so it appears as an interface ([Canvas]) with the documented
    behaviour of [cy.elements().remove()], [cy.add] and [cy.layout(..).run()]. *)
From S2P Require Import Prelude JsObject.
From stdpp Require Import pretty.
From Stdlib Require Import QArith_base.
Local Close Scope Q_scope.

(** ** The dump, as [JSON.parse] returns it *)

Record proposer_node := ProposerNode { p_level : Z; p_status : string; p_votes : Z }.
Record voter_node := VoterNode { v_chain : Z; v_level : Z; v_status : string }.
Record dump_edge := DumpEdge { from : string; to : string; edgetype : string }.

Record dump := Dump {
  edges : list dump_edge;
  proposer_levels : list (list string);
  proposer_nodes : obj proposer_node;
  voter_longest : list string;
  voter_nodes : obj voter_node;
  voter_chain_number : list string;
  proposer_tree_number : string
}.

(** ** Calls on the canvas *)

Inductive element :=
| Node (id disp type : string)
| Edge (source target type : string).

Inductive call :=
| RemoveAll
| Add (e : element)
| RunLayout (name : string).

(** [hash.substring(58, 64)]. *)
Definition short_hash (hash : string) : string := String.substring 58 6 hash.

(** ** Proposer nodes *)

Definition proposer_type (v : proposer_node) : string :=
  if decide (p_status v = "Leader"%string) then "LeaderProposer" else "Proposer".

(** The first element of the first level; reading it throws when there is no
    first level. *)
Definition first_proposer (data : dump) : res (option string) :=
  level <-- of_option (proposer_levels data !! 0) ;; Ok (level !! 0).

Definition proposer_disp (data : dump) (first : option string) (hash : string) (v : proposer_node) : string :=
  let prefix := if decide (Some hash = first) then proposer_tree_number data else ""%string in
  prefix +:+ pretty (p_level v) +:+ ":" +:+ short_hash hash +:+ " (" +:+ pretty (p_votes v) +:+ ")".

Definition add_proposer (data : dump) (calls : list call) (hash : string) : res (list call) :=
  v <-- of_option (oget (proposer_nodes data) hash) ;;
  first <-- first_proposer data ;;
  Ok (calls ++ [Add (Node hash (proposer_disp data first hash v) (proposer_type v))]).

(** ** Voter nodes, one chain at a time *)

(** [Object.keys(data.voter_nodes).reduce(...)]. *)
Definition nodes_on_this_chain (data : dump) (voter_idx : Z) : obj voter_node :=
  foldl (λ filtered key,
    match oget (voter_nodes data) key with
    | Some v => if decide (v_chain v = voter_idx) then oset filtered key v else filtered
    | None => filtered
    end) [] (okeys (voter_nodes data)).

(** The loop that computes [lowest]. *)
Definition lowest_level (nodes : obj voter_node) : Z :=
  foldl (λ lowest hash,
    match oget nodes hash with
    | Some v => if decide (lowest < 0)%Z then v_level v
                else if decide (v_level v < lowest)%Z then v_level v else lowest
    | None => lowest
    end) (-1)%Z (okeys nodes).

Definition voter_type (v : voter_node) : string :=
  if decide (v_status v = "Orphan"%string) then "OrphanVoter" else "Voter".

(** [data.voter_chain_number[voter_idx] + v.level + ':'], where [undefined]
    plus a number is NaN. *)
Definition chain_prefix (data : dump) (voter_idx : nat) (level : Z) : string :=
  match voter_chain_number data !! voter_idx with
  | Some s => s +:+ pretty level +:+ ":"
  | None => "NaN:"
  end.

Definition voter_disp (data : dump) (voter_idx : nat) (lowest : Z) (hash : string) (v : voter_node) : string :=
  (if decide (v_level v = lowest) then chain_prefix data voter_idx (v_level v) else ""%string)
  +:+ short_hash hash.

Definition chain_elements (data : dump) (voter_idx : nat) : list element :=
  let nodes := nodes_on_this_chain data (Z.of_nat voter_idx) in
  let lowest := lowest_level nodes in
  omap (λ hash,
    v ← oget nodes hash;
    Some (Node hash (voter_disp data voter_idx lowest hash v) (voter_type v))) (okeys nodes).

Definition chain_calls (data : dump) (voter_idx : nat) : list call :=
  Add <$> chain_elements data voter_idx.

(** ** Edges *)

Definition is_parent_edge (e : dump_edge) : bool :=
  bool_decide (edgetype e = "VoterToVoterParent"%string) ||
  bool_decide (edgetype e = "ProposerToProposerParent"%string).

Definition is_vote_edge (e : dump_edge) : bool :=
  bool_decide (edgetype e = "VoterToProposerParentAndVote"%string) ||
  bool_decide (edgetype e = "VoterToProposerVote"%string).

(** Parental links are reversed: they originate at the parent. *)
Definition parent_calls (data : dump) : list call :=
  (λ e, Add (Edge (to e) (from e) "ToParent")) <$> filter (λ e, is_parent_edge e = true) (edges data).

Definition vote_calls (data : dump) : list call :=
  (λ e, Add (Edge (from e) (to e) "VoteForProposer")) <$> filter (λ e, is_vote_edge e = true) (edges data).

(** ** The handler *)

Definition handle_data (data : dump) : res (list call) :=
  calls <-- res_fold (add_proposer data) [RemoveAll] (okeys (proposer_nodes data)) ;;
  let num_voter := length (voter_longest data) in
  let calls := calls ++ concat (chain_calls data <$> seq 0 num_voter) in
  Ok (calls ++ parent_calls data ++ [RunLayout "dagre"] ++ vote_calls data).

(** ** Fetching the dump

    [loadJSON(path, success, error)]: the state-change callback of the request. *)

Inductive outcome (A : Type) := Waiting | Success (payload : A) | Failure | ParseError | Ignored.
Arguments Waiting {A}. Arguments Success {A} _. Arguments Failure {A}.
Arguments ParseError {A}. Arguments Ignored {A}.

(** [parse] is [JSON.parse]: a parameter; [hasSuccess] and [hasError] tell
    whether the two callbacks were given. *)
Definition onreadystatechange {A} (parse : string → option A) (readyState status : Z)
    (responseText : string) (hasSuccess hasError : bool) : outcome A :=
  if decide (readyState = 4)%Z then
    if decide (status = 200)%Z then
      if hasSuccess then match parse responseText with Some d => Success d | None => ParseError end
      else Ignored
    else if hasError then Failure else Ignored
  else Waiting.

(** The readyState values a request goes through after [open] and [send]. *)
Definition xhr_states : list Z := [1; 2; 3; 4]%Z.

Definition loadJSON {A} (parse : string → option A) (status : Z) (responseText : string)
    (hasSuccess hasError : bool) : list (outcome A) :=
  (λ rs, onreadystatechange parse rs status responseText hasSuccess hasError) <$> xhr_states.

(** ** The stylesheet of the canvas *)

Inductive selector := SelNode (type : option string) | SelEdge (type : option string).

Inductive style_value := SStr (s : string) | SNum (q : Q).

Definition node_style (background : string) : list (string * style_value) :=
  [ ("shape", SStr "rectangle"); ("width", SStr "label"); ("height", SStr "label");
    ("text-halign", SStr "center"); ("text-valign", SStr "center");
    ("background-color", SStr background); ("label", SStr "data(disp)") ]%string.

Definition stylesheet : list (selector * list (string * style_value)) :=
  [ (SelNode None, node_style "#AAA");
    (SelNode (Some "Voter"), node_style "#4CECED");
    (SelNode (Some "OrphanVoter"), node_style "#E1E1E1");
    (SelNode (Some "LeaderProposer"), node_style "#69D979");
    (SelNode (Some "Proposer"), node_style "#E1E1E1");
    (SelEdge None,
     [ ("width", SNum 3); ("line-color", SStr "#ccc"); ("target-arrow-color", SStr "#ccc");
       ("target-arrow-shape", SStr "triangle"); ("curve-style", SStr "straight") ]);
    (SelEdge (Some "ToParent"),
     [ ("width", SNum 2); ("arrow-scale", SNum (4 # 5)); ("line-color", SStr "#C4282C");
       ("target-arrow-color", SStr "#C4282C"); ("target-arrow-shape", SStr "triangle");
       ("curve-style", SStr "straight") ]);
    (SelEdge (Some "VoteForProposer"),
     [ ("width", SNum 1); ("arrow-scale", SNum (1 # 2)); ("line-color", SStr "#E65026");
       ("target-arrow-color", SStr "#E65026"); ("target-arrow-shape", SStr "triangle");
       ("curve-style", SStr "straight") ]) ]%string.

Definition matches (s : selector) (e : element) : bool :=
  match s, e with
  | SelNode None, Node _ _ _ => true
  | SelNode (Some t), Node _ _ t' => bool_decide (t = t')
  | SelEdge None, Edge _ _ _ => true
  | SelEdge (Some t), Edge _ _ t' => bool_decide (t = t')
  | _, _ => false
  end.

(** The value of a style property: the last matching rule that sets it wins. *)
Definition style_of (e : element) (prop : string) : option style_value :=
  foldl (λ cur r, if matches r.1 e then
                    match oget r.2 prop with Some v => Some v | None => cur end
                  else cur) None stylesheet.

(** ** What a dump promises

    [Blockchain::dump] writes each node under one key, keeps the two node tables
    apart (a block is a proposer or a voter), numbers the chains below the number
    of longest chains, and only keeps edges between nodes it shows. *)

Record dump_ok (data : dump) : Prop := {
  d_proposers : owf (proposer_nodes data);
  d_voters : owf (voter_nodes data);
  d_disjoint : ∀ h, h ∈ okeys (proposer_nodes data) → h ∉ okeys (voter_nodes data);
  d_chains : ∀ h v, oget (voter_nodes data) h = Some v →
    (0 ≤ v_chain v < Z.of_nat (length (voter_longest data)))%Z;
  d_levels : proposer_nodes data ≠ [] → proposer_levels data ≠ [];
  d_edges : ∀ e, e ∈ edges data →
    from e ∈ okeys (proposer_nodes data) ++ okeys (voter_nodes data) ∧
    to e ∈ okeys (proposer_nodes data) ++ okeys (voter_nodes data)
}.

(** The ids of the nodes that a list of calls adds, in order. *)
Definition added_ids (cs : list call) : list string :=
  omap (λ c, match c with Add (Node id _ _) => Some id | _ => None end) cs.

Definition is_node_add (c : call) : Prop :=
  match c with Add (Node _ _ _) => True | _ => False end.

(** ** Voter chains *)

Lemma nodes_on_chain_lookup data i h v :
  oget (nodes_on_this_chain data i) h = Some v ↔ oget (voter_nodes data) h = Some v ∧ v_chain v = i.
Proof.
  unfold nodes_on_this_chain.
  rewrite (oget_fold_set _ (λ key, v ← oget (voter_nodes data) key; if decide (v_chain v = i) then Some v else None))
    by (intros o k; destruct (oget _ k); simpl; [by case_decide|done]).
  destruct (oget (voter_nodes data) h) as [w|] eqn:Hh; simpl.
  - rewrite decide_True by (apply elem_of_okeys; eauto). case_decide; naive_solver.
  - case_decide; naive_solver.
Qed.

Lemma nodes_on_chain_wf data i : owf (nodes_on_this_chain data i).
Proof.
  unfold nodes_on_this_chain. generalize (okeys (voter_nodes data)) as ks.
  assert (owf ([] : obj voter_node)) as H by apply owf_nil. revert H. generalize ([] : obj voter_node).
  intros acc Hacc ks. revert acc Hacc. induction ks as [|k ks IH]; intros acc Hacc; simpl; [done|].
  apply IH. destruct (oget _ k); [case_decide|]; auto using owf_oset.
Qed.

Lemma lowest_level_spec nodes :
  (∀ h v, oget nodes h = Some v → (0 ≤ v_level v)%Z) → okeys nodes ≠ [] →
  (∃ h v, oget nodes h = Some v ∧ v_level v = lowest_level nodes) ∧
  (∀ h v, oget nodes h = Some v → (lowest_level nodes ≤ v_level v)%Z).
Proof.
  intros Hpos Hne. unfold lowest_level.
  assert (∀ h, h ∈ okeys nodes → is_Some (oget nodes h)) as Hks by (intros h; apply elem_of_okeys).
  assert (∀ h, is_Some (oget nodes h) → h ∈ okeys nodes) as Hks' by (intros h; apply elem_of_okeys).
  destruct (okeys nodes) as [|k ks]; [done|]. clear Hne. simpl.
  destruct (Hks k) as [v0 Hv0]; [by left|]. rewrite Hv0.
  enough (∀ acc, (0 ≤ acc)%Z → (∃ h v, oget nodes h = Some v ∧ v_level v = acc) →
    let r := foldl (λ lowest hash, match oget nodes hash with
      | Some v => if decide (lowest < 0)%Z then v_level v
                  else if decide (v_level v < lowest)%Z then v_level v else lowest
      | None => lowest end) acc ks in
    (∃ h v, oget nodes h = Some v ∧ v_level v = r) ∧ (r ≤ acc)%Z ∧
    ∀ h v, h ∈ ks → oget nodes h = Some v → (r ≤ v_level v)%Z) as Hg.
  { destruct (Hg (v_level v0)) as (H1 & H2 & H3); [eauto..|]. split; [done|].
    intros h v Hh. destruct (decide (h = k)) as [->|]; [naive_solver|].
    apply (H3 h v); [|done]. assert (h ∈ k :: ks) by (apply Hks'; eauto). set_solver. }
  clear Hv0 v0 Hks Hks'. induction ks as [|k' ks IH]; intros acc Hacc Hex; simpl.
  { split_and!; [done|lia|]. by intros h v ?%elem_of_nil. }
  destruct (oget nodes k') as [v'|] eqn:Hk'.
  - rewrite (decide_False (P := (acc < 0)%Z)) by lia.
    destruct (decide (v_level v' < acc)%Z).
    + destruct (IH (v_level v')) as (H1 & H2 & H3); [eauto..|]. split_and!; [done|lia|].
      intros h v [->|Hh]%elem_of_cons Hv; [naive_solver lia|eauto].
    + destruct (IH acc) as (H1 & H2 & H3); [done..|]. split_and!; [done|lia|].
      intros h v [->|Hh]%elem_of_cons Hv; [|eauto]. assert (v = v') as -> by congruence. lia.
  - destruct (IH acc) as (H1 & H2 & H3); [done..|]. split_and!; [done|lia|].
    intros h v [->|Hh]%elem_of_cons Hv; [congruence|eauto].
Qed.

(** ** The sequence of calls *)

(** The elements that the two node loops add. *)
Definition proposer_elements (data : dump) (first : option string) : list element :=
  omap (λ h, v ← oget (proposer_nodes data) h;
             Some (Node h (proposer_disp data first h v) (proposer_type v))) (okeys (proposer_nodes data)).

Definition voter_elements (data : dump) : list element :=
  concat (chain_elements data <$> seq 0 (length (voter_longest data))).

Lemma chain_calls_elements data :
  concat (chain_calls data <$> seq 0 (length (voter_longest data))) = Add <$> voter_elements data.
Proof.
  unfold voter_elements. generalize (seq 0 (length (voter_longest data))) as l.
  induction l as [|i l IH]; csimpl; [done|]. by rewrite fmap_app, IH.
Qed.

Lemma proposer_calls data first :
  first_proposer data = Ok first →
  res_fold (add_proposer data) [RemoveAll] (okeys (proposer_nodes data)) =
    Ok (RemoveAll :: (Add <$> proposer_elements data first)).
Proof.
  intros Hf. unfold proposer_elements.
  assert (∀ ks cs, (∀ k, k ∈ ks → is_Some (oget (proposer_nodes data) k)) →
    res_fold (add_proposer data) cs ks = Ok (cs ++ (Add <$> omap (λ h, v ← oget (proposer_nodes data) h;
      Some (Node h (proposer_disp data first h v) (proposer_type v))) ks))) as Hg.
  { induction ks as [|k ks IH]; intros cs Hks; simpl; [by rewrite app_nil_r|].
    destruct (Hks k) as [v Hv]; [by left|]. unfold add_proposer at 1. rewrite Hv, Hf. simpl.
    rewrite IH by set_solver. by rewrite <-app_assoc. }
  rewrite Hg; [done|]. intros k. apply elem_of_okeys.
Qed.

Lemma first_proposer_ok data :
  dump_ok data → proposer_nodes data ≠ [] → ∃ first, first_proposer data = Ok first.
Proof.
  intros H Hne. unfold first_proposer. destruct (proposer_levels data) as [|l ls] eqn:Hl; [|simpl; eauto].
  by destruct (d_levels _ H Hne).
Qed.

(** The calls in order: clear, all proposers, the voters chain by chain, the
    parental edges, the layout, the votes. *)
Definition drawing (data : dump) (first : option string) : list call :=
  RemoveAll :: (Add <$> proposer_elements data first) ++ (Add <$> voter_elements data) ++
  parent_calls data ++ [RunLayout "dagre"] ++ vote_calls data.

Lemma handle_data_drawing data :
  dump_ok data → ∃ first, handle_data data = Ok (drawing data first) ∧
    (proposer_nodes data ≠ [] → first_proposer data = Ok first).
Proof.
  intros H. unfold handle_data, drawing. destruct (decide (okeys (proposer_nodes data) = [])) as [He|Hne].
  - exists None. unfold proposer_elements. rewrite He. simpl. rewrite chain_calls_elements.
    split; [done|]. intros []. by apply okeys_nil_iff.
  - destruct (first_proposer_ok data H) as [first Hf]; [by rewrite <-okeys_nil_iff|].
    exists first. split; [|done]. rewrite (proposer_calls data first Hf). simpl.
    by rewrite chain_calls_elements, <-!app_assoc.
Qed.

(** ** Node ids *)

Definition node_id (e : element) : option string :=
  match e with Node id _ _ => Some id | Edge _ _ _ => None end.

Lemma proposer_ids data first : omap node_id (proposer_elements data first) = okeys (proposer_nodes data).
Proof.
  unfold proposer_elements.
  assert (∀ k, k ∈ okeys (proposer_nodes data) → is_Some (oget (proposer_nodes data) k)) as Hks
    by (intros k; apply elem_of_okeys).
  induction (okeys (proposer_nodes data)) as [|k ks IH]; simpl; [done|].
  destruct (Hks k) as [v Hv]; [by left|]. rewrite Hv. simpl. f_equal. apply IH. set_solver.
Qed.

Lemma chain_ids data i :
  omap node_id (chain_elements data i) = okeys (nodes_on_this_chain data (Z.of_nat i)).
Proof.
  unfold chain_elements.
  assert (∀ k, k ∈ okeys (nodes_on_this_chain data (Z.of_nat i)) →
    is_Some (oget (nodes_on_this_chain data (Z.of_nat i)) k)) as Hks by (intros k; apply elem_of_okeys).
  generalize (lowest_level (nodes_on_this_chain data (Z.of_nat i))) as low. intros low.
  induction (okeys (nodes_on_this_chain data (Z.of_nat i))) as [|k ks IH]; simpl; [done|].
  destruct (Hks k) as [v Hv]; [by left|]. rewrite Hv. simpl. f_equal. apply IH. set_solver.
Qed.

Lemma voter_ids_concat data :
  omap node_id (voter_elements data) =
    concat ((λ i, okeys (nodes_on_this_chain data (Z.of_nat i))) <$> seq 0 (length (voter_longest data))).
Proof.
  unfold voter_elements. generalize (seq 0 (length (voter_longest data))) as l.
  induction l as [|i l IH]; csimpl; [done|]. by rewrite omap_app, IH, chain_ids.
Qed.

(** Each voter block of the dump is drawn once. *)
Lemma voter_ids data :
  dump_ok data → omap node_id (voter_elements data) ≡ₚ okeys (voter_nodes data).
Proof.
  intros H. rewrite voter_ids_concat. apply NoDup_Permutation.
  - generalize (length (voter_longest data)) as n. intros n.
    pose proof (NoDup_seq 0 n) as Hnd.
    induction (seq 0 n) as [|i l IH]; csimpl; [constructor|].
    apply NoDup_cons in Hnd as [Hni Hnd]. apply NoDup_app.
    split_and!; [apply NoDup_okeys, nodes_on_chain_wf| |auto].
    intros h Hh (ks & Hks & (j & -> & Hj)%list_elem_of_fmap)%elem_of_concat.
    apply elem_of_okeys in Hh as [v [Hv Hvi]%nodes_on_chain_lookup].
    apply elem_of_okeys in Hks as [w [Hw Hwj]%nodes_on_chain_lookup].
    assert (i = j) as -> by naive_solver lia. done.
  - apply NoDup_okeys, (d_voters _ H).
  - intros h. rewrite elem_of_concat. setoid_rewrite list_elem_of_fmap. split.
    + intros (ks & Hh & i & -> & Hi). apply elem_of_okeys in Hh as [v [Hv _]%nodes_on_chain_lookup].
      apply elem_of_okeys. eauto.
    + intros [v Hv]%elem_of_okeys. pose proof (d_chains _ H _ _ Hv).
      eexists. split; [|exists (Z.to_nat (v_chain v)); split; [done|]].
      * apply elem_of_okeys. exists v. apply nodes_on_chain_lookup. split; [done|]. lia.
      * apply elem_of_seq. lia.
Qed.

(** ** The canvas

    What the cytoscape core promises: [remove()] on all elements empties the
    canvas; [add] appends an element, and is refused for a second node with the
    same id or for an edge with a missing endpoint; a layout moves elements and
    neither adds nor removes any. *)

Definition ids_of (es : list element) : list string := omap node_id es.

Definition addable (es : list element) (e : element) : Prop :=
  match e with
  | Node id _ _ => id ∉ ids_of es
  | Edge s t _ => s ∈ ids_of es ∧ t ∈ ids_of es
  end.

#[export] Instance addable_dec es e : Decision (addable es e).
Proof. destruct e; simpl; apply _. Defined.

Class Canvas (C : Type) := {
  elements : C → list element;
  perform : C → call → option C
}.

Class CanvasLaws (C : Type) `{Canvas C} := {
  perform_remove c : ∃ c', perform c RemoveAll = Some c' ∧ elements c' = [];
  perform_add c e : addable (elements c) e →
    ∃ c', perform c (Add e) = Some c' ∧ elements c' = elements c ++ [e];
  perform_layout c name : ∃ c', perform c (RunLayout name) = Some c' ∧ elements c' = elements c
}.

Definition perform_all {C} `{Canvas C} (c : C) (cs : list call) : option C :=
  foldl (λ oc k, c ← oc; perform c k) (Some c) cs.

(** The simplest canvas: the list of its elements. *)
#[export] Instance list_canvas : Canvas (list element) := {
  elements es := es;
  perform es k :=
    match k with
    | RemoveAll => Some []
    | Add e => if decide (addable es e) then Some (es ++ [e]) else None
    | RunLayout _ => Some es
    end
}.

#[export] Instance list_canvas_laws : CanvasLaws (list element).
Proof.
  split; simpl; eauto. intros c e He. rewrite decide_True by done. eauto.
Qed.

Section canvas.
Context {C : Type} `{CanvasLaws C}.
Implicit Types (c : C) (es : list element).

Lemma perform_all_app c cs1 cs2 :
  perform_all c (cs1 ++ cs2) = c' ← perform_all c cs1; perform_all c' cs2.
Proof.
  unfold perform_all. rewrite foldl_app. destruct (foldl _ (Some c) cs1); simpl; [done|].
  induction cs2; simpl; done.
Qed.

Lemma perform_all_cons c k cs : perform_all c (k :: cs) = c' ← perform c k; perform_all c' cs.
Proof. apply (perform_all_app c [k] cs). Qed.

Lemma ids_of_app es1 es2 : ids_of (es1 ++ es2) = ids_of es1 ++ ids_of es2.
Proof. apply omap_app. Qed.

(** A batch of additions goes through when the ids are new and the endpoints are there. *)
Lemma perform_adds c es :
  NoDup (ids_of (elements c) ++ ids_of es) →
  (∀ s t ty, Edge s t ty ∈ es → s ∈ ids_of (elements c) ∧ t ∈ ids_of (elements c)) →
  ∃ c', perform_all c (Add <$> es) = Some c' ∧ elements c' = elements c ++ es.
Proof.
  revert c. induction es as [|e es IH]; intros c Hnd He; csimpl.
  { exists c. by rewrite app_nil_r. }
  destruct (perform_add c e) as (c1 & Hc1 & Hel).
  { destruct e as [id d ty|s t ty]; simpl; [|apply (He s t ty); by left].
    unfold ids_of at 2 in Hnd. simpl in Hnd. apply NoDup_app in Hnd as (_ & Hnd & _).
    intros Hid. apply (Hnd _ Hid). by left. }
  destruct (IH c1) as (c' & Hc' & Hel').
  - rewrite Hel, ids_of_app, <-app_assoc. by rewrite <-(ids_of_app [e] es).
  - intros s t ty Hst. rewrite Hel, ids_of_app. destruct (He s t ty); [by right|]. set_solver.
  - exists c'. rewrite perform_all_cons, Hc1. simpl. split; [done|].
    by rewrite Hel', Hel, <-app_assoc.
Qed.
End canvas.

(** ** The whole drawing *)

Definition parent_edges (data : dump) : list element :=
  (λ e, Edge (to e) (from e) "ToParent") <$> filter (λ e, is_parent_edge e = true) (edges data).
Definition vote_edges (data : dump) : list element :=
  (λ e, Edge (from e) (to e) "VoteForProposer") <$> filter (λ e, is_vote_edge e = true) (edges data).

Lemma parent_calls_edges data : parent_calls data = Add <$> parent_edges data.
Proof. unfold parent_calls, parent_edges. by rewrite <-list_fmap_compose. Qed.
Lemma vote_calls_edges data : vote_calls data = Add <$> vote_edges data.
Proof. unfold vote_calls, vote_edges. by rewrite <-list_fmap_compose. Qed.

Lemma edges_no_ids f (l : list dump_edge) :
  (∀ e, node_id (f e) = None) → ids_of (f <$> l) = [].
Proof. intros Hf. induction l as [|e l IH]; csimpl; [done|]. unfold ids_of in *. csimpl. by rewrite Hf. Qed.

Lemma drawn_ids data first :
  dump_ok data →
  ids_of (proposer_elements data first ++ voter_elements data) ≡ₚ
    okeys (proposer_nodes data) ++ okeys (voter_nodes data).
Proof.
  intros H. rewrite ids_of_app. unfold ids_of. rewrite proposer_ids, voter_ids by done. done.
Qed.

Lemma drawn_ids_NoDup data :
  dump_ok data → NoDup (okeys (proposer_nodes data) ++ okeys (voter_nodes data)).
Proof.
  intros H. apply NoDup_app. split_and!; [apply NoDup_okeys, H|apply H|apply NoDup_okeys, H].
Qed.

Lemma proposer_elements_nodes data first s t ty : Edge s t ty ∉ proposer_elements data first.
Proof.
  unfold proposer_elements. rewrite list_elem_of_omap. intros (h & _ & He).
  destruct (oget _ h); simpl in He; congruence.
Qed.
Lemma voter_elements_nodes data s t ty : Edge s t ty ∉ voter_elements data.
Proof.
  unfold voter_elements. rewrite elem_of_concat. intros (l & Hl & (i & -> & _)%list_elem_of_fmap).
  unfold chain_elements in Hl. apply list_elem_of_omap in Hl as (h & _ & He).
  destruct (oget _ h); simpl in He; congruence.
Qed.

(** The endpoints of an edge of the dump are drawn. *)
Lemma dump_edge_endpoints data first e :
  dump_ok data → e ∈ edges data →
  from e ∈ ids_of (proposer_elements data first ++ voter_elements data) ∧
  to e ∈ ids_of (proposer_elements data first ++ voter_elements data).
Proof. intros H He. rewrite !drawn_ids by done. by apply d_edges. Qed.
