(* ===== verification/VisClaims.v ===== *)
(** * blockchain_vis.js: what the page draws

    The theorems about the handler, stated against the [Canvas] interface. *)
From S2P Require Import Prelude JsObject Vis.

(** ** The page: [loadJSON("/blockchain.json", handle_data, handle_error)] *)

Inductive page_event := Draw (r : res (list call)) | Log.

Definition page (parse : string → option dump) (status : Z) (responseText : string) : list page_event :=
  omap (λ o, match o with
             | Success data => Some (Draw (handle_data data))
             | Failure => Some Log
             | Waiting | ParseError | Ignored => None
             end) (loadJSON parse status responseText true true).

Lemma drawing_split data first :
  (RemoveAll :: (Add <$> proposer_elements data first) ++ (Add <$> voter_elements data) ++
     parent_calls data) ++ RunLayout "dagre" :: vote_calls data = drawing data first.
Proof. unfold drawing. simpl. by rewrite <-!app_assoc. Qed.

Section drawing.
Context {C : Type} `{CanvasLaws C}.

(** What is on the canvas when the layout runs, and at the end. *)
Lemma drawing_steps (c : C) data first :
  dump_ok data →
  ∃ c1 c2, perform_all c (RemoveAll :: (Add <$> proposer_elements data first) ++
      (Add <$> voter_elements data) ++ parent_calls data) = Some c1 ∧
    elements c1 = proposer_elements data first ++ voter_elements data ++ parent_edges data ∧
    perform_all c (drawing data first) = Some c2 ∧
    elements c2 = elements c1 ++ vote_edges data.
Proof.
  intros Hok.
  destruct (perform_remove c) as (c0 & Hc0 & He0).
  set (ns := proposer_elements data first ++ voter_elements data).
  assert (Hid : ids_of (ns ++ parent_edges data) = ids_of ns).
  { rewrite ids_of_app. unfold parent_edges at 1. by rewrite edges_no_ids, app_nil_r. }
  destruct (perform_adds c0 ns) as (cn & Hcn & Hen).
  { rewrite He0. simpl. subst ns. rewrite drawn_ids by done. by apply drawn_ids_NoDup. }
  { intros s t ty [?%proposer_elements_nodes|?%voter_elements_nodes]%elem_of_app; done. }
  rewrite He0 in Hen. simpl in Hen.
  destruct (perform_adds cn (parent_edges data)) as (c1 & Hc1 & He1).
  { rewrite <-ids_of_app, Hen, Hid. subst ns. rewrite drawn_ids by done. by apply drawn_ids_NoDup. }
  { intros s t ty (e & [= -> -> ->] & [_ Hx]%list_elem_of_filter)%list_elem_of_fmap.
    rewrite Hen. apply and_comm. by apply dump_edge_endpoints. }
  destruct (perform_layout c1 "dagre") as (cl & Hcl & Hel).
  destruct (perform_adds cl (vote_edges data)) as (c2 & Hc2 & He2).
  { rewrite <-ids_of_app, Hel, He1, Hen. rewrite ids_of_app, Hid. unfold vote_edges.
    rewrite edges_no_ids, app_nil_r by done. subst ns. rewrite drawn_ids by done. by apply drawn_ids_NoDup. }
  { intros s t ty (e & [= -> -> ->] & [_ Hx]%list_elem_of_filter)%list_elem_of_fmap.
    rewrite Hel, He1, Hen, Hid. by apply dump_edge_endpoints. }
  assert (perform_all c (RemoveAll :: (Add <$> proposer_elements data first) ++
      (Add <$> voter_elements data) ++ parent_calls data) = Some c1) as Hpre.
  { rewrite perform_all_cons, Hc0. simpl.
    rewrite app_assoc, <-fmap_app. fold ns. rewrite perform_all_app, Hcn. simpl. by rewrite parent_calls_edges. }
  exists c1, c2. split_and!; [done|by rewrite He1, Hen; subst ns; rewrite <-app_assoc| |by rewrite He2, Hel].
  rewrite <-(drawing_split data first), perform_all_app, Hpre. simpl.
  rewrite perform_all_cons, Hcl. simpl. by rewrite vote_calls_edges.
Qed.
End drawing.

(** ** Helper lemmas *)

Lemma elem_of_parent_edges data s t ty :
  Edge s t ty ∈ parent_edges data ↔
    ∃ e, e ∈ edges data ∧ is_parent_edge e = true ∧ s = to e ∧ t = from e ∧ ty = "ToParent"%string.
Proof.
  unfold parent_edges. rewrite list_elem_of_fmap. setoid_rewrite list_elem_of_filter. naive_solver.
Qed.

Lemma elem_of_vote_edges data s t ty :
  Edge s t ty ∈ vote_edges data ↔
    ∃ e, e ∈ edges data ∧ is_vote_edge e = true ∧ s = from e ∧ t = to e ∧ ty = "VoteForProposer"%string.
Proof.
  unfold vote_edges. rewrite list_elem_of_fmap. setoid_rewrite list_elem_of_filter. naive_solver.
Qed.

Lemma nodes_not_edges data first s t ty :
  Edge s t ty ∉ proposer_elements data first ++ voter_elements data.
Proof. intros [?%proposer_elements_nodes|?%voter_elements_nodes]%elem_of_app; done. Qed.

(** The chain number of a voter, as an order on hashes. *)
Definition chain_le (data : dump) (a b : string) : Prop :=
  ∀ va vb, oget (voter_nodes data) a = Some va → oget (voter_nodes data) b = Some vb →
    (v_chain va ≤ v_chain vb)%Z.

Lemma chain_ids_chain data i h v :
  h ∈ okeys (nodes_on_this_chain data i) → oget (voter_nodes data) h = Some v → v_chain v = i.
Proof. intros [w [??]%nodes_on_chain_lookup]%elem_of_okeys ?. by simplify_eq. Qed.

Lemma StronglySorted_app {A} (R : relation A) l1 l2 :
  StronglySorted R l1 → StronglySorted R l2 → (∀ a b, a ∈ l1 → b ∈ l2 → R a b) →
  StronglySorted R (l1 ++ l2).
Proof.
  intros H1 H2 H12. induction H1 as [|x l1 H1 IH Hx]; simpl; [done|]. constructor.
  - apply IH. intros a b ??. apply H12; [by right|done].
  - apply Forall_app. split; [done|]. apply Forall_forall. intros b Hb. apply H12; [by left|done].
Qed.

Lemma StronglySorted_const {A} (R : relation A) l :
  (∀ a b, a ∈ l → b ∈ l → R a b) → StronglySorted R l.
Proof.
  induction l as [|x l IH]; intros HR; constructor.
  - apply IH. intros. apply HR; by right.
  - apply Forall_forall. intros b Hb. apply HR; [by left|by right].
Qed.

Lemma voter_ids_sorted data : StronglySorted (chain_le data) (ids_of (voter_elements data)).
Proof.
  unfold ids_of. rewrite voter_ids_concat. generalize (length (voter_longest data)) as n, 0 as k.
  induction n as [|n IH]; intros k; csimpl; [constructor|]. apply StronglySorted_app; [|done|].
  - apply StronglySorted_const. intros a b Ha Hb va vb Hva Hvb.
    rewrite (chain_ids_chain _ _ _ _ Ha Hva), (chain_ids_chain _ _ _ _ Hb Hvb). lia.
  - intros a b Ha (ks & Hb & (j & -> & Hj%elem_of_seq)%list_elem_of_fmap)%elem_of_concat va vb Hva Hvb.
    rewrite (chain_ids_chain _ _ _ _ Ha Hva), (chain_ids_chain _ _ _ _ Hb Hvb). lia.
Qed.

Lemma elem_of_proposer_elements data first h d ty :
  Node h d ty ∈ proposer_elements data first ↔
    ∃ v, oget (proposer_nodes data) h = Some v ∧ d = proposer_disp data first h v ∧ ty = proposer_type v.
Proof.
  unfold proposer_elements. rewrite list_elem_of_omap. split.
  - intros (k & _ & Hk). destruct (oget _ k) eqn:Hv; simpl in Hk; naive_solver.
  - intros (v & Hv & -> & ->). exists h. rewrite Hv. split; [apply elem_of_okeys; eauto|done].
Qed.

Lemma elem_of_voter_elements data h d ty :
  dump_ok data →
  Node h d ty ∈ voter_elements data ↔
    ∃ v, oget (voter_nodes data) h = Some v ∧ ty = voter_type v ∧
      d = voter_disp data (Z.to_nat (v_chain v)) (lowest_level (nodes_on_this_chain data (v_chain v))) h v.
Proof.
  intros Hok. unfold voter_elements, chain_elements. rewrite elem_of_concat. split.
  - intros (l & Hl & (i & -> & Hi)%list_elem_of_fmap). apply list_elem_of_omap in Hl as (k & _ & Hk).
    destruct (oget _ k) as [v|] eqn:Hv; simpl in Hk; [|done]. simplify_eq.
    apply nodes_on_chain_lookup in Hv as [Hv Hc]. exists v. rewrite Hc, Nat2Z.id. done.
  - intros (v & Hv & -> & ->). pose proof (d_chains _ Hok _ _ Hv).
    eexists. split; [|apply list_elem_of_fmap; exists (Z.to_nat (v_chain v)); split; [done|apply elem_of_seq; lia]].
    rewrite Z2Nat.id by lia. apply list_elem_of_omap. exists h.
    assert (oget (nodes_on_this_chain data (v_chain v)) h = Some v) as Hn by (by apply nodes_on_chain_lookup).
    split; [apply elem_of_okeys; eauto|]. by rewrite Hn.
Qed.

(** The lowest level of the chain of a block is reached by a block of that chain. *)
Lemma chain_minimum data h v :
  (∀ h v, oget (voter_nodes data) h = Some v → (0 ≤ v_level v)%Z) →
  oget (voter_nodes data) h = Some v →
  let low := lowest_level (nodes_on_this_chain data (v_chain v)) in
  (∃ h0 v0, oget (voter_nodes data) h0 = Some v0 ∧ v_chain v0 = v_chain v ∧ v_level v0 = low) ∧
  (∀ h' v', oget (voter_nodes data) h' = Some v' → v_chain v' = v_chain v → (low ≤ v_level v')%Z).
Proof.
  intros Hpos Hv. simpl. set (ns := nodes_on_this_chain data (v_chain v)).
  assert (oget ns h = Some v) as Hn by (by apply nodes_on_chain_lookup).
  destruct (lowest_level_spec ns) as [(h0 & v0 & Hv0 & He0) Hlow].
  - intros h1 v1 [??]%nodes_on_chain_lookup. eauto.
  - intros Hnil. assert (h ∈ okeys ns) as Hin by (apply elem_of_okeys; eauto). rewrite Hnil in Hin. set_solver.
  - apply nodes_on_chain_lookup in Hv0 as [Hv0 Hc0]. split; [eauto|].
    intros h' v' ??. apply (Hlow h' v'). by apply nodes_on_chain_lookup.
Qed.

(** ** The claims *)

Section claims.
Context {C : Type} `{CanvasLaws C}.

(** C7: On a dump that [Blockchain::dump] can write, [handle_data] returns, none
    of its calls is refused by the canvas, and whatever was drawn before, the canvas
    ends up with one node per proposer and voter block, a reversed edge per
    parental link and an edge per vote, and nothing else. *)
Theorem handle_data_draws data :
  dump_ok data →
  ∃ cs es, handle_data data = Ok cs ∧
    (∀ c : C, ∃ c', perform_all c cs = Some c' ∧ elements c' = es) ∧
    NoDup (ids_of es) ∧
    ids_of es ≡ₚ okeys (proposer_nodes data) ++ okeys (voter_nodes data) ∧
    ∀ s t ty, Edge s t ty ∈ es ↔ ∃ e, e ∈ edges data ∧
      ((is_parent_edge e = true ∧ s = to e ∧ t = from e ∧ ty = "ToParent"%string) ∨
       (is_vote_edge e = true ∧ s = from e ∧ t = to e ∧ ty = "VoteForProposer"%string)).
Proof.
  intros Hok. destruct (handle_data_drawing data Hok) as (first & Hd & _).
  set (ns := proposer_elements data first ++ voter_elements data).
  exists (drawing data first), (ns ++ parent_edges data ++ vote_edges data).
  assert (ids_of (ns ++ parent_edges data ++ vote_edges data) = ids_of ns) as Hids.
  { rewrite !ids_of_app. unfold parent_edges, vote_edges. by rewrite !edges_no_ids, !app_nil_r. }
  rewrite Hids. subst ns. rewrite drawn_ids by done. split_and!; [done| |by apply drawn_ids_NoDup|done|].
  - intros c. destruct (drawing_steps c data first Hok) as (c1 & c2 & _ & He1 & Hc2 & He2).
    exists c2. split; [done|]. by rewrite He2, He1, <-!app_assoc.
  - intros s t ty. rewrite !elem_of_app, elem_of_parent_edges, elem_of_vote_edges.
    pose proof (nodes_not_edges data first s t ty) as Hne. rewrite elem_of_app in Hne. naive_solver.
Qed.

(** C33: The layout runs once, on a canvas that holds every block and exactly the
    reversed parental links (no vote yet), with the proposers first and the voters
    ordered by chain number; the votes are added after it. *)
Theorem layout_sees_trees data :
  dump_ok data →
  ∃ pre post, handle_data data = Ok (pre ++ RunLayout "dagre" :: post) ∧
    (∀ n, RunLayout n ∉ pre ++ post) ∧
    (∀ k, k ∈ post → ∃ e, e ∈ edges data ∧ is_vote_edge e = true ∧
       k = Add (Edge (from e) (to e) "VoteForProposer")) ∧
    ∀ c : C, ∃ c' vs, perform_all c pre = Some c' ∧
      ids_of (elements c') = okeys (proposer_nodes data) ++ vs ∧
      vs ≡ₚ okeys (voter_nodes data) ∧ StronglySorted (chain_le data) vs ∧
      ∀ s t ty, Edge s t ty ∈ elements c' ↔
        ∃ e, e ∈ edges data ∧ is_parent_edge e = true ∧ s = to e ∧ t = from e ∧ ty = "ToParent"%string.
Proof.
  intros Hok. destruct (handle_data_drawing data Hok) as (first & Hd & _).
  eexists _, _. split; [rewrite Hd; f_equal; symmetry; apply drawing_split|]. split_and!.
  - intros n. rewrite parent_calls_edges, vote_calls_edges, !elem_of_app, elem_of_cons, !elem_of_app,
      !list_elem_of_fmap. naive_solver.
  - intros k. unfold vote_calls. rewrite list_elem_of_fmap. setoid_rewrite list_elem_of_filter. naive_solver.
  - intros c. destruct (drawing_steps c data first Hok) as (c1 & c2 & Hc1 & He1 & _).
    exists c1, (ids_of (voter_elements data)). rewrite He1. split_and!; [done| | | |].
    + rewrite !ids_of_app. unfold parent_edges. rewrite edges_no_ids, app_nil_r by done.
      unfold ids_of at 1. by rewrite proposer_ids.
    + by apply voter_ids.
    + apply voter_ids_sorted.
    + intros s t ty. rewrite app_assoc, elem_of_app, <-elem_of_parent_edges.
      pose proof (nodes_not_edges data first s t ty). naive_solver.
Qed.
End claims.

(** C36: A voter block is labelled with the end of its hash, and the label starts
    with the chain's name and the level exactly on the blocks of minimal level of
    their chain. *)
Theorem voter_labels data h d ty :
  dump_ok data →
  (∀ h v, oget (voter_nodes data) h = Some v → (0 ≤ v_level v)%Z) →
  Node h d ty ∈ voter_elements data ↔
  ∃ v, oget (voter_nodes data) h = Some v ∧
    ty = (if decide (v_status v = "Orphan"%string) then "OrphanVoter" else "Voter")%string ∧
    (((∀ h' v', oget (voter_nodes data) h' = Some v' → v_chain v' = v_chain v → (v_level v ≤ v_level v')%Z) ∧
      d = chain_prefix data (Z.to_nat (v_chain v)) (v_level v) +:+ String.substring 58 6 h) ∨
     ((∃ h' v', oget (voter_nodes data) h' = Some v' ∧ v_chain v' = v_chain v ∧ (v_level v' < v_level v)%Z) ∧
      d = String.substring 58 6 h)).
Proof.
  intros Hok Hpos. rewrite elem_of_voter_elements by done. unfold voter_disp, short_hash.
  apply exist_proper. intros v. split.
  - intros (Hv & -> & ->). split; [done|]. split; [done|].
    destruct (chain_minimum data h v Hpos Hv) as [(h0 & v0 & Hv0 & Hc0 & He0) Hmin]. case_decide as Hl.
    + left. split; [|done]. intros h' v' ??. rewrite Hl. eauto.
    + right. split; [|done]. pose proof (Hmin _ _ Hv eq_refl). exists h0, v0. split_and!; [done..|lia].
  - intros (Hv & -> & Hd). split; [done|]. split; [done|].
    destruct (chain_minimum data h v Hpos Hv) as [(h0 & v0 & Hv0 & Hc0 & He0) Hmin].
    destruct Hd as [[Hd ->]|[(h' & v' & Hv' & Hc' & Hlt) ->]].
    + rewrite decide_True; [done|]. pose proof (Hd _ _ Hv0 Hc0). pose proof (Hmin _ _ Hv eq_refl). lia.
    + rewrite decide_False; [done|]. pose proof (Hmin _ _ Hv' Hc'). lia.
Qed.

(** The stylesheet colours what is drawn by status: leaders and voters on
    their longest chain get their own colour, the other proposers and the orphans
    share the grey one, and the colours of the two kinds of edges differ. *)
Theorem drawn_colours data first h d ty :
  dump_ok data →
  (Node h d ty ∈ proposer_elements data first →
     ∃ v, oget (proposer_nodes data) h = Some v ∧
       style_of (Node h d ty) "background-color" =
         Some (SStr (if decide (p_status v = "Leader"%string) then "#69D979" else "#E1E1E1")%string)) ∧
  (Node h d ty ∈ voter_elements data →
     ∃ v, oget (voter_nodes data) h = Some v ∧
       style_of (Node h d ty) "background-color" =
         Some (SStr (if decide (v_status v = "Orphan"%string) then "#E1E1E1" else "#4CECED")%string)) ∧
  (∀ s t ty', Edge s t ty' ∈ parent_edges data → style_of (Edge s t ty') "line-color" = Some (SStr "#C4282C")) ∧
  (∀ s t ty', Edge s t ty' ∈ vote_edges data → style_of (Edge s t ty') "line-color" = Some (SStr "#E65026")).
Proof.
  intros Hok. split_and!.
  - intros (v & Hv & -> & ->)%elem_of_proposer_elements. exists v. split; [done|].
    unfold proposer_type. by case_decide.
  - intros (v & Hv & -> & ->)%elem_of_voter_elements; [|done]. exists v. split; [done|].
    unfold voter_type. by case_decide.
  - intros s t ty' (e & _ & _ & _ & _ & ->)%elem_of_parent_edges. done.
  - intros s t ty' (e & _ & _ & _ & _ & ->)%elem_of_vote_edges. done.
Qed.


(** The page draws once, when the request succeeded and the body parses; on any other
    status it logs once and draws nothing; before the request is done it does nothing. *)
Theorem page_draws_once parse status text :
  page parse status text =
    (if decide (status = 200)%Z then
       match parse text with Some data => [Draw (handle_data data)] | None => [] end
     else [Log]) ∧
  ∀ rs, (rs ≠ 4)%Z → onreadystatechange parse rs status text true true = Waiting.
Proof.
  split.
  - unfold page, loadJSON, onreadystatechange. simpl. case_decide; [|done]. by destruct (parse text).
  - intros rs Hrs. unfold onreadystatechange. by rewrite decide_False.
Qed.

(** ** A concrete dump: a genesis and a leader, two voter chains with a fork *)

Definition hash_of (c : string) : string :=
  "0000000000000000000000000000000000000000000000000000000000" +:+ c.

Definition sample : dump := {|
  Vis.edges := [
    DumpEdge (hash_of "00000b") (hash_of "00000a") "ProposerToProposerParent";
    DumpEdge (hash_of "0000v1") (hash_of "0000v0") "VoterToVoterParent";
    DumpEdge (hash_of "0000v2") (hash_of "0000v0") "VoterToVoterParent";
    DumpEdge (hash_of "0000v1") (hash_of "00000b") "VoterToProposerVote";
    DumpEdge (hash_of "0000w1") (hash_of "00000b") "VoterToProposerVote";
    DumpEdge (hash_of "0000v1") (hash_of "00000b") "VoterToProposerParent" ];
  proposer_levels := [[hash_of "00000a"]; [hash_of "00000b"]];
  proposer_nodes := [ (hash_of "00000a", ProposerNode 0 "Leader" 2); (hash_of "00000b", ProposerNode 1 "Others" 2) ];
  voter_longest := [hash_of "0000v1"; hash_of "0000w1"];
  voter_nodes := [ (hash_of "0000v0", VoterNode 0 1 "OnMainChain"); (hash_of "0000w1", VoterNode 1 3 "OnMainChain");
    (hash_of "0000v1", VoterNode 0 2 "OnMainChain"); (hash_of "0000v2", VoterNode 0 2 "Orphan") ];
  voter_chain_number := ["Chain 0 "; "Chain 1 "];
  proposer_tree_number := "Proposer tree " |}%string.

Lemma oget_Forall {V} (o : obj V) (P : V → Prop) :
  Forall (λ kv, P kv.2) o → ∀ k v, oget o k = Some v → P v.
Proof.
  induction 1 as [|[k' v'] o Hv _ IH]; intros k v; simpl; [done|]. case_decide; [by intros [= <-]|eauto].
Qed.

Lemma sample_ok : dump_ok sample.
Proof.
  split.
  - apply (bool_decide_unpack _). vm_compute. exact I.
  - apply (bool_decide_unpack _). vm_compute. exact I.
  - apply Forall_forall. apply (bool_decide_unpack _). vm_compute. exact I.
  - apply oget_Forall. apply (bool_decide_unpack _). vm_compute. exact I.
  - done.
  - apply Forall_forall. apply (bool_decide_unpack _). vm_compute. exact I.
Qed.

Lemma sample_levels h v : oget (voter_nodes sample) h = Some v → (0 ≤ v_level v)%Z.
Proof. revert h v. apply oget_Forall. apply (bool_decide_unpack _). vm_compute. exact I. Qed.

Lemma handle_data_draws_witness :
  dump_ok sample ∧ ∃ cs es, handle_data sample = Ok cs ∧
    (∀ c : list element, ∃ c', perform_all c cs = Some c' ∧ elements c' = es) ∧
    length (ids_of es) = 6.
Proof.
  split; [apply sample_ok|].
  destruct (handle_data_draws (C := list element) sample) as (cs & es & Hd & Hp & _ & Hids & _).
  - apply sample_ok.
  - exists cs, es. split; [exact Hd|]. split; [exact Hp|]. rewrite Hids. vm_compute. reflexivity.
Defined.

Lemma layout_sees_trees_witness :
  dump_ok sample ∧ ∃ pre post, handle_data sample = Ok (pre ++ RunLayout "dagre" :: post) ∧
    ∃ c' vs, perform_all ([Node "old" "old" "Voter"] : list element) pre = Some c' ∧
      ids_of (elements c') = okeys (proposer_nodes sample) ++ vs ∧ StronglySorted (chain_le sample) vs.
Proof.
  split; [apply sample_ok|].
  destruct (layout_sees_trees (C := list element) sample) as (pre & post & Hd & _ & _ & Hc).
  - apply sample_ok.
  - exists pre, post. split; [exact Hd|]. destruct (Hc [Node "old" "old" "Voter"]) as (c' & vs & H1 & H2 & _ & H4 & _).
    exists c', vs. split; [exact H1|]. split; [exact H2|exact H4].
Defined.

Lemma voter_labels_witness :
  Node (hash_of "0000w1") "Chain 1 3:0000w1" "Voter" ∈ voter_elements sample ∧
  ∃ v, oget (voter_nodes sample) (hash_of "0000w1") = Some v ∧
    "Voter"%string = (if decide (v_status v = "Orphan"%string) then "OrphanVoter" else "Voter")%string.
Proof.
  assert (Hin : Node (hash_of "0000w1") "Chain 1 3:0000w1" "Voter" ∈ voter_elements sample).
  { apply list_elem_of_lookup. exists 3. vm_compute. reflexivity. }
  split; [exact Hin|].
  destruct (proj1 (voter_labels sample (hash_of "0000w1") "Chain 1 3:0000w1" "Voter" sample_ok sample_levels) Hin)
    as (v & Hv & Ht & _).
  exists v. split; [exact Hv|exact Ht].
Defined.

Lemma drawn_colours_witness :
  dump_ok sample ∧
  style_of (Node (hash_of "00000a") "Proposer tree 0:00000a (2)" "LeaderProposer") "background-color" =
    Some (SStr "#69D979").
Proof.
  split; [apply sample_ok|].
  destruct (drawn_colours sample (Some (hash_of "00000a")) (hash_of "00000a") "Proposer tree 0:00000a (2)"
    "LeaderProposer" sample_ok) as [Hp _].
  destruct Hp as (v & Hv & Hs).
  - apply list_elem_of_lookup. exists 0. vm_compute. reflexivity.
  - rewrite Hs. vm_compute in Hv. injection Hv as <-. reflexivity.
Defined.
