(* ===== verification/Dashboard.v ===== *)
(** * prism.js: the scripted Grafana dashboard

    The script builds one JSON object from the URL parameters [ARGS].  The object
    is modelled as it is written; [txRateTargets] is the list the per-node loop
    pushes to. *)
From S2P Require Import Prelude JsObject Decimal.
From stdpp Require Import pretty.
From Stdlib Require Import Ascii.

(** ** JSON values *)

Inductive json :=
| JNull
| JBool (b : bool)
| JNum (z : Z)
| JStr (s : string)
| JArr (l : list json)
| JObj (o : list (string * json)).

Definition jget (j : json) (k : string) : option json :=
  match j with JObj o => oget o k | _ => None end.
Definition jarr (j : option json) : list json :=
  match j with Some (JArr l) => l | _ => [] end.
Definition jnum (j : option json) : Z :=
  match j with Some (JNum z) => z | _ => 0%Z end.

(** ** [parseInt(s, 10)] *)

(** The white space that is skipped in front of the number. *)
Definition is_space (c : Ascii.ascii) : bool :=
  bool_decide (Ascii.nat_of_ascii c ∈ [9; 10; 11; 12; 13; 32; 160]).
Fixpoint skip_space (s : string) : string :=
  match s with
  | String c s' => if is_space c then skip_space s' else s
  | EmptyString => s
  end.

(** The longest prefix of digits, accumulated onto [acc]. *)
Fixpoint parse_digits (acc : Z) (s : string) : Z :=
  match s with
  | String c s' => if is_digit c then parse_digits (10 * acc + digit_value c) s' else acc
  | EmptyString => acc
  end.
Definition parse_unsigned (s : string) : option Z :=
  match s with
  | String c _ => if is_digit c then Some (parse_digits 0 s) else None
  | EmptyString => None
  end.

(** [None] is NaN. *)
Definition parseInt (s : string) : option Z :=
  match skip_space s with
  | String c s' =>
      if decide (c = "-"%char) then Z.opp <$> parse_unsigned s'
      else if decide (c = "+"%char) then parse_unsigned s'
      else parse_unsigned (String c s')
  | EmptyString => None
  end.

(** ** The per-node queries *)

(** [nodes] is 1 unless the parameter is given. *)
Definition nodes (ARGS_nodes : option string) : option Z :=
  match ARGS_nodes with
  | None => Some 1%Z
  | Some s => parseInt s
  end.

Definition tx_rate_target (i : nat) : json :=
  JObj [("target", JStr ("node_" +:+ pretty i +:+ ":confirmed_tx")); ("type", JStr "timeserie")]%string.

(** [for (var i = 0; i < nodes; i++) txRateTargets.push(...)]; [fuel] is the
    number of iterations left, and no comparison with NaN holds. *)
Fixpoint push_targets (fuel : nat) (i : nat) (nodes : option Z) (txRateTargets : list json) : list json :=
  match fuel with
  | O => txRateTargets
  | S fuel' =>
      match nodes with
      | Some n => if decide (Z.of_nat i < n)%Z
                  then push_targets fuel' (S i) nodes (txRateTargets ++ [tx_rate_target i])
                  else txRateTargets
      | None => txRateTargets
      end
  end.

(** One iteration more than the count, so that the loop always ends on its own test. *)
Definition txRateTargets (ARGS_nodes : option string) : list json :=
  let n := nodes ARGS_nodes in
  push_targets (S (Z.to_nat (default 0%Z n))) 0 n [].

(** ** The dashboard *)

Definition gridPos (h w x y : Z) : json :=
  JObj [("h", JNum h); ("w", JNum w); ("x", JNum x); ("y", JNum y)]%string.
Definition query (refId target : string) : json :=
  JObj [("refId", JStr refId); ("target", JStr target); ("type", JStr "timeserie")]%string.

Definition current_rate_panel : json :=
  JObj [("cacheTimeout", JNull); ("format", JStr "short"); ("postfix", JStr "Tx/s");
    ("postfixFontSize", JStr "50%"); ("targets", JArr [query "A" "average:confirmed_tx"]);
    ("title", JStr "Current Confirmation Rate"); ("gridPos", gridPos 8 4 0 2);
    ("type", JStr "singlestat"); ("valueFontSize", JStr "80%"); ("valueName", JStr "current");
    ("sparkline", JObj [("fillColor", JStr "rgba(31, 118, 189, 0.18)"); ("full", JBool false);
       ("lineColor", JStr "rgb(31, 120, 193)"); ("show", JBool true)])]%string.

Definition legend (avg show values : bool) : json :=
  JObj [("avg", JBool avg); ("current", JBool false); ("max", JBool false); ("min", JBool false);
    ("show", JBool show); ("total", JBool false); ("values", JBool values)]%string.

Definition count_panel : json :=
  JObj [("title", JStr "Transaction Count"); ("gridPos", gridPos 10 8 4 0); ("type", JStr "graph");
    ("fill", JNum 1); ("linewidth", JNum 2);
    ("targets", JArr [query "A" "accumulative:confirmed_tx"; query "B" "accumulative:generated_tx"]);
    ("tooltip", JObj [("shared", JBool true)]); ("legend", legend true true true)]%string.

Definition node_rate_panel (targets : list json) : json :=
  JObj [("title", JStr "Per-node Confirmation Rate"); ("gridPos", gridPos 10 12 12 0); ("type", JStr "graph");
    ("fill", JNum 0); ("linewidth", JNum 1); ("targets", JArr targets);
    ("tooltip", JObj [("shared", JBool true)]); ("legend", legend false false false)]%string.

Definition average_rate_panel : json :=
  JObj [("cacheTimeout", JNull); ("format", JStr "short"); ("postfix", JStr "Tx/s");
    ("postfixFontSize", JStr "50%"); ("targets", JArr [query "A" "average:confirmed_tx"]);
    ("title", JStr "Average Confirmation Rate"); ("gridPos", gridPos 2 4 0 0);
    ("type", JStr "singlestat"); ("valueFontSize", JStr "80%"); ("valueName", JStr "avg")]%string.

Definition timepicker : json :=
  JObj [("refresh_intervals", JArr (JStr <$> ["1s"; "3s"; "5s"; "10s"; "30s"; "1m"]));
        ("time_options", JArr (JStr <$> ["1m"; "5m"; "10m"; "30m"; "1h"]))]%string.

Definition dashboard (ARGS_nodes : option string) : json :=
  JObj [("panels", JArr [current_rate_panel; count_panel; node_rate_panel (txRateTargets ARGS_nodes);
                         average_rate_panel]);
    ("title", JStr "Prism");
    ("time", JObj [("from", JStr "now-5m"); ("to", JStr "now")]);
    ("refresh", JStr "1s"); ("timepicker", timepicker)]%string.

(** ** Properties *)

Lemma push_targets_spec n fuel i acc :
  (Z.to_nat n - i < fuel) →
  push_targets fuel i (Some n) acc = acc ++ (tx_rate_target <$> seq i (Z.to_nat n - i)).
Proof.
  revert i acc. induction fuel as [|fuel IH]; intros i acc Hf; cbn [push_targets]; [lia|].
  case_decide.
  - rewrite IH by lia. rewrite <-app_assoc. f_equal.
    replace (Z.to_nat n - i) with (S (Z.to_nat n - S i)) by lia. done.
  - replace (Z.to_nat n - i) with 0 by lia. by rewrite app_nil_r.
Qed.

Lemma txRateTargets_spec args :
  txRateTargets args = tx_rate_target <$> seq 0 (Z.to_nat (default 0%Z (nodes args))).
Proof.
  unfold txRateTargets. destruct (nodes args) as [n|]; [|done]. unfold default, from_option, id.
  rewrite push_targets_spec by lia. simpl. by rewrite Nat.sub_0_r.
Qed.

Definition panels (d : json) : list json := jarr (jget d "panels").

(** A panel occupies [w] by [h] cells of the grid from ([x], [y]). *)
Definition cell_of (p : json) (x y : Z) : Prop :=
  let pos := default JNull (jget p "gridPos") in
  (jnum (jget pos "x") ≤ x < jnum (jget pos "x") + jnum (jget pos "w") ∧
   jnum (jget pos "y") ≤ y < jnum (jget pos "y") + jnum (jget pos "h"))%Z.

(** *** Decimal round trip *)

Lemma parse_pretty_go x s : parse_digits 0 (pretty_N_go x s) = parse_digits (Z.of_N x) s.
Proof.
  revert s. induction (N.lt_wf_0 x) as [x _ IH]; intros s.
  assert (x = 0 ∨ 0 < x)%N as [->|Hx] by lia; [by rewrite pretty_N_go_0|].
  rewrite pretty_N_go_step, IH by (done || by apply N.div_lt). simpl.
  destruct (pretty_char_digit (x `mod` 10)) as [-> ->]; [by apply N.mod_lt|]. f_equal.
  rewrite <-(N2Z.inj_mul 10), <-N2Z.inj_add. f_equal. symmetry. by apply N.div_mod.
Qed.

Lemma parse_unsigned_pretty (n : N) : parse_unsigned (pretty n) = Some (Z.of_N n).
Proof.
  pose proof (pretty_N_digit n) as Hd. unfold parse_unsigned.
  destruct (pretty n) as [|c s] eqn:Hp; [done|]. simpl in Hd. rewrite Hd, <-Hp.
  unfold pretty, pretty_N. case_decide; [by subst|]. by rewrite parse_pretty_go.
Qed.

Lemma digit_not_space c : is_digit c = true → is_space c = false ∧ c ≠ "-"%char ∧ c ≠ "+"%char.
Proof.
  unfold is_digit, is_space. intros Hd. rewrite andb_true_iff, !Nat.leb_le in Hd. split_and!.
  - apply bool_decide_eq_false. rewrite !elem_of_cons, elem_of_nil. lia.
  - intros ->. vm_compute in Hd. lia.
  - intros ->. vm_compute in Hd. lia.
Qed.

Lemma parseInt_digits s : starts_with_digit s → parseInt s = parse_unsigned s.
Proof.
  destruct s as [|c s]; [done|]. intros (Hs & Hm & Hp)%digit_not_space.
  unfold parseInt. cbn [skip_space]. by rewrite Hs, !decide_False.
Qed.

(** ** Claims *)

(** Parsing the decimal notation of an integer gives it back, also after a
    leading blank. *)
Theorem parseInt_roundtrip (n : Z) : parseInt (pretty n) = Some n ∧ parseInt (" " +:+ pretty n) = Some n.
Proof.
  assert (parseInt (pretty n) = Some n) as H; [|split; [done|exact H]].
  destruct n as [|p|p]; [done| |].
  - change (pretty (Z.pos p)) with (pretty (N.pos p)). rewrite parseInt_digits by apply pretty_N_digit.
    apply (parse_unsigned_pretty (N.pos p)).
  - change (pretty (Z.neg p)) with (String "-" (pretty (N.pos p))).
    unfold parseInt. cbn [skip_space]. rewrite (eq_refl : is_space "-" = false), decide_True by done.
    by rewrite parse_unsigned_pretty.
Qed.

(** C38: The per-node panel queries exactly the nodes [0 .. n-1], in order, where
    [n] is the URL parameter (1 without it, none when it is not a number or not
    positive). *)
Theorem per_node_targets args :
  let targets := jarr (p ← panels (dashboard args) !! 2; jget p "targets") in
  length targets = Z.to_nat (default 0%Z (nodes args)) ∧
  ∀ i, i < length targets →
    (t ← targets !! i; jget t "target") = Some (JStr ("node_" +:+ pretty i +:+ ":confirmed_tx")).
Proof.
  simpl. rewrite txRateTargets_spec, length_fmap, length_seq. split; [done|].
  intros i Hi. rewrite list_lookup_fmap, lookup_seq_lt by done. done.
Qed.


