(* ===== verification/Webpack.v ===== *)
(** * cytoscape-dagre.js: the module loader around the layout extension

    The file is a webpack bundle: a universal module definition that finds the
    dependency [dagre], a cache of installed modules, and [__webpack_require__],
    which runs a module the first time it is required.  A module function is
    modelled by the ids it requires, in order, and the exports it computes from
    what those calls returned. *)
From S2P Require Import Prelude JsObject.

Section Loader.
Context {X : Type} (empty : X).

Record module_fn := ModuleFn { requires : list nat; body : list X → X }.

(** A cache entry: the flag [l] and the current [exports]. *)
Record installed_module := Installed { loaded : bool; exports : X }.

Record loader := Loader {
  installedModules : gmap nat installed_module;
  executed : list nat  (** ids of the module functions called, in call order *)
}.

Implicit Types (st : loader) (id : nat).

Definition new_loader : loader := Loader ∅ [].

(** [fuel] is the height of the call stack. *)
Fixpoint webpack_require (fuel : nat) (modules : list module_fn) st id : res (X * loader) :=
  match fuel with
  | O => Throw (JsError "Maximum call stack size exceeded")
  | S fuel' =>
      match installedModules st !! id with
      | Some m => Ok (exports m, st)
      | None =>
          let st := Loader (<[id := Installed false empty]> (installedModules st)) (executed st) in
          f <-- of_option (modules !! id) ;;
          let st := Loader (installedModules st) (executed st ++ [id]) in
          r <-- res_fold (λ r d,
                  y <-- webpack_require fuel' modules r.2 d ;; Ok (r.1 ++ [y.1], y.2))
                ([], st) (requires f) ;;
          let x := body f r.1 in
          Ok (x, Loader (<[id := Installed true x]> (installedModules r.2)) (executed r.2))
      end
  end.

(** ** Correctness of the cache *)

Context (modules : list module_fn).

Definition dep (i j : nat) : Prop := ∃ f, modules !! i = Some f ∧ j ∈ requires f.

(** Every id that is required names a module of the bundle. *)
Definition closed_bundle : Prop := ∀ i j, dep i j → j < length modules.

Record inv st : Prop := {
  inv_nodup : NoDup (executed st);
  inv_cached : ∀ i, i ∈ executed st ↔ is_Some (installedModules st !! i);
  inv_range : ∀ i, i ∈ executed st → i < length modules;
  inv_closed : ∀ i m, installedModules st !! i = Some m → loaded m = true →
    ∀ j, dep i j → j ∈ executed st
}.

(** What one call of [__webpack_require__(id)] adds to the state. *)
Record grows st id st' : Prop := {
  gr_inv : inv st';
  gr_id : id ∈ executed st';
  gr_new : ∃ new, executed st' = executed st ++ new ∧
    ∀ i, i ∈ new → rtc dep id i ∧ ∃ m, installedModules st' !! i = Some m ∧ loaded m = true;
  gr_old : ∀ i, i ∈ executed st → installedModules st' !! i = installedModules st !! i
}.

Lemma executed_bound st : inv st → length (executed st) ≤ length modules.
Proof.
  intros H. rewrite <-(length_seq (length modules) 0).
  apply submseteq_length, NoDup_submseteq; [apply H|].
  intros i Hi. apply elem_of_seq. pose proof (inv_range _ H _ Hi). lia.
Qed.

(** The state in which the function of a new module starts. *)
Definition entered st id : loader :=
  Loader (<[id := Installed false empty]> (installedModules st)) (executed st ++ [id]).

Lemma entered_inv st id :
  inv st → id < length modules → id ∉ executed st → inv (entered st id).
Proof.
  intros H Hid Hn. unfold entered. split; simpl.
  - apply NoDup_app. split_and!; [apply H| |apply NoDup_singleton]. set_solver.
  - intros i. rewrite elem_of_app, list_elem_of_singleton, (inv_cached _ H).
    destruct (decide (i = id)) as [->|]; [rewrite lookup_insert_eq; naive_solver|].
    rewrite lookup_insert_ne by done. naive_solver.
  - intros i [Hi| ->%list_elem_of_singleton]%elem_of_app; [by apply (inv_range _ H)|done].
  - intros i m. destruct (decide (i = id)) as [->|]; [rewrite lookup_insert_eq; by intros [= <-]|].
    rewrite lookup_insert_ne by done. intros Hm Hl j Hj. apply elem_of_app. left. by eapply (inv_closed _ H).
Qed.

Lemma grows_refl st id : inv st → id ∈ executed st → grows st id st.
Proof.
  intros H Hid. split; [done..| |done]. exists []. rewrite app_nil_r. split; [done|].
  by intros i ?%elem_of_nil.
Qed.

(** The loop over the requires of a module. *)
Record many st (ds : list nat) (i0 : nat) st' : Prop := {
  many_inv : inv st';
  many_in : ∀ d, d ∈ ds → d ∈ executed st';
  many_new : ∃ new, executed st' = executed st ++ new ∧
    ∀ i, i ∈ new → rtc dep i0 i ∧ ∃ m, installedModules st' !! i = Some m ∧ loaded m = true;
  many_old : ∀ i, i ∈ executed st → installedModules st' !! i = installedModules st !! i
}.

Lemma many_step st ds d i0 st1 st2 :
  many st ds i0 st1 → dep i0 d → grows st1 d st2 → many st (ds ++ [d]) i0 st2.
Proof.
  intros [H1 H2 (new1 & He1 & Hn1) H4] Hd [G1 G2 (new2 & He2 & Hn2) G4]. split; [done| | |].
  - intros i [Hi| ->%list_elem_of_singleton]%elem_of_app; [|done].
    rewrite He2. apply elem_of_app. auto.
  - exists (new1 ++ new2). split; [by rewrite He2, He1, app_assoc|].
    intros i [Hi|Hi]%elem_of_app.
    + destruct (Hn1 _ Hi) as (? & m & ? & ?). split; [done|]. exists m. split; [|done].
      rewrite G4; [done|]. rewrite He1. set_solver.
    + destruct (Hn2 _ Hi) as (? & m & ? & ?). split; [by eapply rtc_l|eauto].
  - intros i Hi. rewrite G4 by (rewrite He1; set_solver). auto.
Qed.

(** Flagging the module as loaded closes its call. *)
Lemma finished st id f st1 x :
  inv st → modules !! id = Some f → id ∉ executed st → many (entered st id) (requires f) id st1 →
  grows st id (Loader (<[id := Installed true x]> (installedModules st1)) (executed st1)).
Proof.
  intros Hinv Hfn Hn [H1 H2 (new & He & Hnew) H4]. unfold entered in He. simpl in He.
  assert (id ∈ executed st1) as Hin by (rewrite He; set_solver).
  assert (id ∉ new) as Hnn.
  { pose proof (inv_nodup _ H1) as Hnd. rewrite He in Hnd. apply NoDup_app in Hnd as (_ & Hnd & _).
    apply Hnd. set_solver. }
  split; simpl; [split; simpl|done| |].
  - apply H1.
  - intros i. destruct (decide (i = id)) as [->|]; [rewrite lookup_insert_eq; naive_solver|].
    rewrite lookup_insert_ne by done. apply H1.
  - apply H1.
  - intros i m. destruct (decide (i = id)) as [->|].
    + intros _ _ j (f' & Hf' & Hj). simplify_eq. auto.
    + rewrite lookup_insert_ne by done. apply H1.
  - exists (id :: new). split; [by rewrite He, <-app_assoc|].
    intros i [->|Hi]%elem_of_cons; [rewrite lookup_insert_eq; eauto using rtc_refl|].
    rewrite lookup_insert_ne by congruence. auto.
  - intros i Hi. rewrite lookup_insert_ne by congruence. rewrite H4 by (unfold entered; simpl; set_solver).
    unfold entered. simpl. by rewrite lookup_insert_ne by congruence.
Qed.

Lemma require_spec fuel st id :
  closed_bundle → inv st → id < length modules → length modules - length (executed st) < fuel →
  ∃ x st', webpack_require fuel modules st id = Ok (x, st') ∧ grows st id st'.
Proof.
  intros Hcl. revert st id. induction fuel as [|fuel IH]; intros st id Hinv Hid Hf; [lia|].
  cbn [webpack_require]. destruct (installedModules st !! id) as [m|] eqn:Hm.
  { exists (exports m), st. split; [done|]. apply grows_refl; [done|]. apply (inv_cached _ Hinv). eauto. }
  assert (id ∉ executed st) as Hn by (rewrite (inv_cached _ Hinv), Hm; by intros [??]).
  destruct (lookup_lt_is_Some_2 _ _ Hid) as [f Hfn]. rewrite Hfn. cbn [of_option res_bind]. cbv zeta. cbn [installedModules executed].
  pose proof (entered_inv st id Hinv Hid Hn) as Hent.
  pose proof (executed_bound _ Hent) as Hbnd. unfold entered in Hbnd. simpl in Hbnd. rewrite length_app in Hbnd.
  simpl in Hbnd. fold (entered st id).
  destruct (res_fold_inv (λ r d, y <-- webpack_require fuel modules r.2 d ;; Ok (r.1 ++ [y.1], y.2))
    (λ ds r, many (entered st id) ds id r.2) (requires f) ([], entered st id)) as ([args st1] & Hr & Hmany).
  - split; [done|by intros d ?%elem_of_nil| |done]. exists []. rewrite app_nil_r.
    split; [done|]. by intros i ?%elem_of_nil.
  - intros ds d rest [args st1] Hreq Hmany. simpl in *.
    assert (dep id d) as Hd by (exists f; split; [done|]; rewrite Hreq; set_solver).
    destruct (IH st1 d) as (x & st2 & Hx & Hg); [apply Hmany|by eapply Hcl| |].
    + destruct (many_new _ _ _ _ Hmany) as (new & He & _). rewrite He. unfold entered. simpl.
      rewrite !length_app. simpl. lia.
    + rewrite Hx. simpl. eexists. split; [done|]. by eapply many_step.
  - rewrite Hr. simpl. eexists _, _. split; [done|].
    by eapply finished.
Qed.
End Loader.

(** ** The bundle *)

(** What the five modules export; a constructor holds what the module captured. *)
Inductive export :=
| ExEmpty
| ExDagreLayout (defaults assign dagre : export)
| ExAssign
| ExDefaults
| ExRegister (impl : export)
| ExDagre.

(** [__webpack_require__.s = 3]. *)
Definition entry_module : nat := 3.

Definition bundle (external_dagre : export) : list module_fn :=
  [ ModuleFn [2; 1; 4] (λ args, match args with
                                | [defaults; assign; dagre] => ExDagreLayout defaults assign dagre
                                | _ => ExEmpty
                                end);
    ModuleFn [] (λ _, ExAssign);
    ModuleFn [] (λ _, ExDefaults);
    ModuleFn [0] (λ args, match args with [impl] => ExRegister impl | _ => ExEmpty end);
    ModuleFn [] (λ _, external_dagre) ].

(** A call [cytoscape('layout', name, impl)]. *)
Record registration := Registration { reg_name : string; reg_impl : export }.

(** [register(cytoscape)]: nothing without a cytoscape. *)
Definition register (cytoscape : bool) (impl : export) : list registration :=
  if cytoscape then [Registration "dagre" impl] else [].

(** Running the entry module: its export and the registrations it made. *)
Definition run_bundle (external_dagre : export) (has_cytoscape : bool) : res (export * list registration) :=
  r <-- webpack_require ExEmpty 6 (bundle external_dagre) new_loader entry_module ;;
  match r.1 with
  | ExRegister impl => Ok (r.1, register has_cytoscape impl)
  | _ => Throw TypeError
  end.

(** *** The helpers on [__webpack_require__] *)

(** A property of an exports object: a plain value or an accessor. *)
Inductive property (X G : Type) :=
| Data (value : X)
| Accessor (configurable enumerable : bool) (get : G).
Arguments Data {X G} _.
Arguments Accessor {X G} _ _ _.

(** [__webpack_require__.i]. *)
Definition webpack_i {X} (value : X) : X := value.
(** [__webpack_require__.o]. *)
Definition webpack_o {X G} (object : obj (property X G)) (name : string) : bool := ohas object name.
(** [__webpack_require__.d]: an existing export is kept. *)
Definition webpack_d {X G} (object : obj (property X G)) (name : string) (getter : G) : obj (property X G) :=
  if negb (webpack_o object name) then oset object name (Accessor false true getter) else object.

(** A getter function made by [n]: which of the two closures it is, and its own properties;
    the property [a] refers to the function itself. *)
Inductive getter_kind := GetDefault | GetModuleExports.
Inductive self_reference := Self.
Record getter_fn := Getter { gkind : getter_kind; gprops : obj (property string self_reference) }.

(** [__webpack_require__.n] of a module, given whether it is truthy and has [__esModule]. *)
Definition webpack_n (truthy_module es_module : bool) : getter_fn :=
  let kind := if truthy_module && es_module then GetDefault else GetModuleExports in
  Getter kind (webpack_d [] "a" Self).

(** [getter()]: the default export or the module. *)
Definition call_getter {X} (f : getter_fn) (module default_export : X) : X :=
  match gkind f with GetDefault => default_export | GetModuleExports => module end.

(** [d] makes the name an export and changes no other property, nor an export that was there. *)
Lemma webpack_d_spec {X G} (object : obj (property X G)) name getter k :
  is_Some (oget (webpack_d object name getter) name) ∧
  (is_Some (oget object k) ∨ k ≠ name → oget (webpack_d object name getter) k = oget object k).
Proof.
  unfold webpack_d, webpack_o. destruct (ohas object name) eqn:Hn; simpl.
  - apply ohas_true in Hn. by split.
  - apply ohas_false in Hn. rewrite !oget_oset, decide_True by done. split; [by eexists|].
    intros [[x Hx]|Hk]; rewrite decide_False; [done|congruence|done|congruence].
Qed.

(** Where the universal module definition finds dagre and puts its result. *)
Inductive umd_target := CommonJsModule | Amd | CommonJsExports | Root.

Definition webpackUniversalModuleDefinition (exports_object module_object define_amd : bool) : umd_target :=
  if exports_object && module_object then CommonJsModule
  else if define_amd then Amd
  else if exports_object then CommonJsExports
  else Root.

(** ** Claims *)

(** C35: For every bundle whose modules only require modules of the bundle, also with
    circular requires, loading the entry returns, runs each module function at most
    once, and runs exactly the modules reachable from the entry; at the end each of
    them is flagged as loaded.  A call stack as deep as the number of modules plus one
    is enough. *)
Theorem webpack_runs_once {X} (empty : X) modules entry :
  closed_bundle modules → entry < length modules →
  ∃ x st, webpack_require empty (S (length modules)) modules new_loader entry = Ok (x, st) ∧
    NoDup (executed st) ∧ (∀ i, i ∈ executed st ↔ rtc (dep modules) entry i) ∧
    ∀ i, i ∈ executed st → ∃ m, installedModules st !! i = Some m ∧ loaded m = true.
Proof.
  intros Hcl He. destruct (require_spec empty modules (S (length modules)) new_loader entry)
    as (x & st & Hr & [Hi Hid (new & Hnew & Hall) _]).
  - done.
  - split; simpl; [constructor| | |].
    + intros i. rewrite lookup_empty. split; [by intros ?%elem_of_nil|by intros [??]].
    + by intros i ?%elem_of_nil.
    + intros i m. by rewrite lookup_empty.
  - done.
  - simpl. lia.
  - simpl in Hnew. subst new. exists x, st. split; [done|].
    split; [apply Hi|]. split; [|intros i ?; by apply Hall].
    intros i. split; [intros ?; by apply Hall|].
    revert i. apply (rtc_ind_r (λ j, j ∈ executed st)); [done|]. intros j k _ Hjk Hj.
    destruct (Hall _ Hj) as (_ & m & Hm & Hl). by eapply (inv_closed _ _ Hi).
Qed.

Lemma bundle_closed d : closed_bundle (bundle d).
Proof.
  intros i j (f & Hf & Hj). do 5 (destruct i as [|i]; [simplify_eq/=; set_solver by lia|]). done.
Qed.

Lemma webpack_runs_once_witness :
  closed_bundle (bundle ExDagre) ∧
  ∃ x st, webpack_require ExEmpty 6 (bundle ExDagre) new_loader entry_module = Ok (x, st) ∧
    NoDup (executed st) ∧ executed st = [3; 0; 2; 1; 4].
Proof.
  split; [apply bundle_closed|].
  destruct (webpack_runs_once ExEmpty (bundle ExDagre) entry_module) as (x & st & Hr & Hnd & _).
  - apply bundle_closed.
  - simpl. unfold entry_module. lia.
  - exists x, st. split; [exact Hr|]. split; [exact Hnd|].
    vm_compute in Hr. injection Hr as _ <-. reflexivity.
Defined.

(** Loading the extension registers exactly one layout, under the name the page asks
    for, when cytoscape is loaded, and none otherwise; the layout is built from the
    modules for the default options, [assign] and the dagre the host supplied. *)
Lemma bundle_registers d has_cytoscape :
  run_bundle d has_cytoscape =
    Ok (ExRegister (ExDagreLayout ExDefaults ExAssign d),
        if has_cytoscape then [Registration "dagre" (ExDagreLayout ExDefaults ExAssign d)] else []).
Proof. by destruct has_cytoscape. Qed.
