(* ===== verification/DagreLayout.v ===== *)
(** * cytoscape-dagre.js: [DagreLayout]

    The layout extension turns the elements of the canvas into a graphlib graph, runs
    dagre on it and maps the positions dagre found back onto the canvas.  The
    collection of elements belongs to cytoscape and is given as data ([cnode],
    [cedge]); [dagre.layout] is the parameter [layout] with the interface [Layout], which the model of
    dagre implements in DagreEntryClaims. *)
From S2P Require Import Prelude JsObject Graphlib GraphWf GraphInv GraphRemove GraphQuery.
From Stdlib Require Import QArith Lqa.
Local Close Scope Q_scope.

(** ** Numbers

    Finite numbers are exact rationals here (rounding is not modelled); the two
    infinities and NaN are kept because the code computes with them. *)

Inductive jsnum := NaN | NegInf | PosInf | Rat (q : Q).

Definition n_le (a b : jsnum) : bool :=
  match a, b with
  | NaN, _ | _, NaN => false
  | NegInf, _ | _, PosInf => true
  | Rat x, Rat y => Qle_bool x y
  | _, _ => false
  end.
Definition n_min (a b : jsnum) : jsnum :=
  match a, b with NaN, _ | _, NaN => NaN | _, _ => if n_le a b then a else b end.
Definition n_max (a b : jsnum) : jsnum :=
  match a, b with NaN, _ | _, NaN => NaN | _, _ => if n_le a b then b else a end.
Definition n_opp (a : jsnum) : jsnum :=
  match a with NaN => NaN | NegInf => PosInf | PosInf => NegInf | Rat x => Rat (- x) end.
Definition n_add (a b : jsnum) : jsnum :=
  match a, b with
  | Rat x, Rat y => Rat (x + y)
  | NaN, _ | _, NaN | NegInf, PosInf | PosInf, NegInf => NaN
  | NegInf, _ | _, NegInf => NegInf
  | PosInf, _ | _, PosInf => PosInf
  end.
Definition n_sub (a b : jsnum) : jsnum := n_add a (n_opp b).
(** Sign as a comparison with zero; [None] for NaN. *)
Definition n_sign (a : jsnum) : option comparison :=
  match a with NaN => None | NegInf => Some Lt | PosInf => Some Gt | Rat x => Some (Qcompare x 0) end.
Definition n_is_zero (a : jsnum) : bool := match a with Rat x => Qeq_bool x 0 | _ => false end.
Definition inf_of_sign (s : comparison) : jsnum :=
  match s with Lt => NegInf | Gt => PosInf | Eq => NaN end.
Definition sign_mul (s t : comparison) : comparison :=
  match s, t with Eq, _ | _, Eq => Eq | Lt, Lt | Gt, Gt => Gt | _, _ => Lt end.
Definition n_mul (a b : jsnum) : jsnum :=
  match a, b with
  | Rat x, Rat y => Rat (x * y)
  | _, _ => match n_sign a, n_sign b with
            | Some s, Some t => inf_of_sign (sign_mul s t)
            | _, _ => NaN
            end
  end.
(** The code only divides by a number it compared with zero, so a zero divisor does not
    occur and the sign of zero is not needed. *)
Definition n_div (a b : jsnum) : jsnum :=
  match a, b with
  | Rat x, Rat y => if Qeq_bool y 0 then NaN else Rat (x / y)
  | Rat _, (NegInf | PosInf) => Rat 0
  | (NegInf | PosInf), Rat y =>
      match n_sign a with Some s => inf_of_sign (sign_mul s (Qcompare y 0)) | None => NaN end
  | _, _ => NaN
  end.

(** ** Layout options *)

(** A bounding box; [None] is [undefined]. *)
Record bbox := BBox {
  x1 : option jsnum; y1 : option jsnum; x2 : option jsnum; y2 : option jsnum;
  w : option jsnum; h : option jsnum
}.

Inductive arg := ArgEle (id : string) | ArgIndex (i : nat) | ArgPos (x y : jsnum).

Inductive optval :=
| Undefined
| Null
| Num (n : jsnum)
| Str (s : string)
| Bool (b : bool)
| Pos (x y : jsnum)
| Box (b : bbox)
| Fn (f : list arg → optval)
| Points (ps : list (jsnum * jsnum)).

Definition one : jsnum := Rat 1.

(** Module 2. *)
Definition defaults : obj optval :=
  [ ("nodeSep", Undefined); ("edgeSep", Undefined); ("rankSep", Undefined); ("rankDir", Undefined);
    ("ranker", Undefined); ("minLen", Fn (λ _, Num one)); ("edgeWeight", Fn (λ _, Num one));
    ("fit", Bool true); ("padding", Num (Rat 30)); ("spacingFactor", Undefined);
    ("nodeDimensionsIncludeLabels", Bool false); ("animate", Bool false);
    ("animateFilter", Fn (λ _, Bool true)); ("animationDuration", Num (Rat 500));
    ("animationEasing", Undefined); ("boundingBox", Undefined);
    ("transform", Fn (λ args, match args with [_; ArgPos x y] => Pos x y | _ => Undefined end));
    ("ready", Fn (λ _, Undefined)); ("stop", Fn (λ _, Undefined)) ]%string.

(** Module 1: [assign(tgt, ...srcs)], the fallback for a missing [Object.assign]. *)
Definition assign_from {V} (tgt src : obj V) : obj V :=
  foldl (λ tgt k, match oget src k with Some v => oset tgt k v | None => tgt end) tgt (okeys src).
Definition assign {V} (tgt : obj V) (srcs : list (obj V)) : obj V := foldl assign_from tgt srcs.

(** [this.options] after the constructor. *)
Definition newDagreLayout (options : obj optval) : obj optval := assign [] [defaults; options].

(** [options.name], [Undefined] when there is no such property. *)
Definition opt (options : obj optval) (name : string) : optval := default Undefined (oget options name).

(** ** The bounding box *)

Definition num (o : option jsnum) : jsnum := default NaN o.

(** The four completions of [bb]. *)
Definition complete_bb (bb : bbox) : bbox :=
  let bb := match x2 bb with
            | Some _ => bb
            | None => BBox (x1 bb) (y1 bb) (Some (n_add (num (x1 bb)) (num (w bb)))) (y2 bb) (w bb) (h bb)
            end in
  let bb := match w bb with
            | Some _ => bb
            | None => BBox (x1 bb) (y1 bb) (x2 bb) (y2 bb) (Some (n_sub (num (x2 bb)) (num (x1 bb)))) (h bb)
            end in
  let bb := match y2 bb with
            | Some _ => bb
            | None => BBox (x1 bb) (y1 bb) (x2 bb) (Some (n_add (num (y1 bb)) (num (h bb)))) (w bb) (h bb)
            end in
  match h bb with
  | Some _ => bb
  | None => BBox (x1 bb) (y1 bb) (x2 bb) (y2 bb) (w bb) (Some (n_sub (num (y2 bb)) (num (y1 bb))))
  end.

(** [options.boundingBox || {x1: 0, y1: 0, w: cy.width(), h: cy.height()}]. *)
Definition given_box (options : obj optval) : option bbox :=
  match opt options "boundingBox" with Box b => Some b | _ => None end.
Definition layout_bb (options : obj optval) (cy_width cy_height : jsnum) : bbox :=
  complete_bb (default (BBox (Some (Rat 0)) (Some (Rat 0)) None None (Some cy_width) (Some cy_height))
                       (given_box options)).

(** ** Elements of the canvas *)

Record cnode := CNode {
  n_id : string;
  n_w : jsnum; n_h : jsnum;        (** [node.layoutDimensions(options)] *)
  n_parent : option string          (** [node.parent().id()] when [node.isChild()] *)
}.
Record cedge := CEdge { e_id : string; e_source : string; e_target : string }.

Definition label := obj optval.
Abbreviation dgraph := (Graph label label label).

(** ** Building the dagre graph *)

Definition isFunction (o : optval) : bool := match o with Fn _ => true | _ => false end.
(** [val.apply(ele, args)]. *)
Definition apply (val : optval) (args : list arg) : optval := match val with Fn f => f args | _ => Undefined end.
Definition getVal (ele : string) (val : optval) : optval :=
  if isFunction val then apply val [ArgEle ele] else val.

Definition setGObj (gObj : label) (name : string) (val : optval) : label :=
  match val with Undefined | Null => gObj | v => oset gObj name v end.

Definition graph_label (options : obj optval) : label :=
  let gObj := setGObj [] "nodesep" (opt options "nodeSep") in
  let gObj := setGObj gObj "edgesep" (opt options "edgeSep") in
  let gObj := setGObj gObj "ranksep" (opt options "rankSep") in
  let gObj := setGObj gObj "rankdir" (opt options "rankDir") in
  setGObj gObj "ranker" (opt options "ranker").

Definition empty_graph (options : obj optval) : dgraph :=
  let g := setGraph (newGraph true true true) (Some (graph_label options)) in
  let g := setDefaultEdgeLabel g (λ _ _ _, Some []) in
  setDefaultNodeLabel g (λ _, Some []).

Definition node_label (n : cnode) : label :=
  [("width", Num (n_w n)); ("height", Num (n_h n)); ("name", Str (n_id n))]%string.
Definition add_node (g : dgraph) (n : cnode) : res dgraph :=
  setNode g (n_id n) (Some (Some (node_label n))).

Definition add_parent (g : dgraph) (n : cnode) : res dgraph :=
  match n_parent n with Some p => setParent g (n_id n) (Some p) | None => Ok g end.

Definition edge_label (options : obj optval) (e : cedge) : label :=
  [("minlen", getVal (e_id e) (opt options "minLen"));
   ("weight", getVal (e_id e) (opt options "edgeWeight")); ("name", Str (e_id e))]%string.
Definition add_edge (options : obj optval) (g : dgraph) (e : cedge) : res dgraph :=
  setEdge g (e_source e) (e_target e) (Some (Some (edge_label options e))) (Some (e_id e)).

(** [isParent] tells which elements of the canvas have children. *)
Definition layout_edges (isParent : string → bool) (es : list cedge) : list cedge :=
  filter (λ e, negb (isParent (e_source e)) && negb (isParent (e_target e)) = true) es.

Definition build_graph (options : obj optval) (ns : list cnode) (es : list cedge)
    (isParent : string → bool) : res dgraph :=
  g <-- res_fold add_node (empty_graph options) ns ;;
  g <-- res_fold add_parent g ns ;;
  res_fold (add_edge options) g (layout_edges isParent es).

(** ** Positions *)

(** [cy.getElementById(id).scratch().dagre = n] for every node of the graph. *)
Definition write_scratch (g : dgraph) (scratch : obj (option label)) : obj (option label) :=
  foldl (λ s id, oset s id (node g id)) scratch (nodes g).

Definition coord (l : label) (k : string) : jsnum := match oget l k with Some (Num n) => n | _ => NaN end.

(** [node.scratch().dagre]; reading a coordinate of [undefined] throws. *)
Definition dModel (scratch : obj (option label)) (id : string) : res label :=
  of_option (mjoin (oget scratch id)).

Record dbox := DBox { bx1 : jsnum; bx2 : jsnum; by1 : jsnum; by2 : jsnum }.

Definition grow_box (scratch : obj (option label)) (b : dbox) (n : cnode) : res dbox :=
  d <-- dModel scratch (n_id n) ;;
  Ok (DBox (n_min (bx1 b) (coord d "x")) (n_max (bx2 b) (coord d "x"))
           (n_min (by1 b) (coord d "y")) (n_max (by2 b) (coord d "y"))).

Definition dagreBB (scratch : obj (option label)) (ns : list cnode) : res dbox :=
  res_fold (grow_box scratch) (DBox PosInf NegInf PosInf NegInf) ns.

(** One axis of [constrainPos] inside a given box. *)
Definition rescale (lo size target_lo target_size p : jsnum) : jsnum :=
  let pct := if n_is_zero size then Rat 0 else n_div (n_sub p lo) size in
  n_add target_lo (n_mul pct target_size).

Definition constrainPos (bounded : bool) (d : dbox) (bb : bbox) (px py : jsnum) : jsnum * jsnum :=
  if bounded then
    (rescale (bx1 d) (n_sub (bx2 d) (bx1 d)) (num (x1 bb)) (num (w bb)) px,
     rescale (by1 d) (n_sub (by2 d) (by1 d)) (num (y1 bb)) (num (h bb)) py)
  else (px, py).

Definition position_of (bounded : bool) (d : dbox) (bb : bbox) (scratch : obj (option label)) (n : cnode)
    : res (string * (jsnum * jsnum)) :=
  l <-- dModel scratch (n_id n) ;;
  Ok (n_id n, constrainPos bounded d bb (coord l "x") (coord l "y")).

(** [nodes.layoutPositions(layout, options, fn)] asks for the position of each node. *)
Definition layout_positions (bounded : bool) (d : dbox) (bb : bbox) (scratch : obj (option label))
    (ns : list cnode) : res (list (string * (jsnum * jsnum))) :=
  res_fold (λ acc n, p <-- position_of bounded d bb scratch n ;; Ok (acc ++ [p])) [] ns.

(** ** [DagreLayout.prototype.run] *)

Definition run (layout : dgraph → res dgraph) (options : obj optval) (cy_width cy_height : jsnum)
    (ns : list cnode) (es : list cedge) (isParent : string → bool) (scratch : obj (option label))
    : res (list (string * (jsnum * jsnum))) :=
  let bb := layout_bb options cy_width cy_height in
  g <-- build_graph options ns es isParent ;;
  g <-- layout g ;;
  let scratch := write_scratch g scratch in
  let bounded := bool_decide (is_Some (given_box options)) in
  d <-- (if bounded then dagreBB scratch ns
         else Ok (DBox (num (x1 bb)) (num (x2 bb)) (num (y1 bb)) (num (y2 bb)))) ;;
  layout_positions bounded d bb scratch ns.
