(* ===== verification/DagreLayoutGraph.v ===== *)
(** * cytoscape-dagre.js: the graph that is handed to dagre

    The three loops of [run] that fill the graph, each with its invariant. *)
From S2P Require Import Prelude JsObject Graphlib GraphWf GraphInv GraphRemove GraphQuery DagreLayout.

(** The parent links among the elements. *)
Definition child_of (ns : list cnode) (a b : string) : Prop :=
  ∃ n, n ∈ ns ∧ n_id n = a ∧ n_parent n = Some b.

(** What a cytoscape collection promises: ids are unique, the compound hierarchy is a
    forest over its nodes, and edges join nodes. *)
Record eles_ok (ns : list cnode) (es : list cedge) : Prop := {
  el_ids : NoDup (n_id <$> ns);
  el_plain : ∀ n, n ∈ ns → plain (n_id n);
  el_parents : ∀ a b, child_of ns a b → b ∈ n_id <$> ns;
  el_forest : ∀ a, ¬ tc (child_of ns) a a;
  el_edge_ids : NoDup (e_id <$> es);
  el_edge_name : ∀ e, e ∈ es → e_id e ≠ ""%string ∧ e_id e ≠ DEFAULT_EDGE_NAME;
  el_ends : ∀ e, e ∈ es → e_source e ∈ n_id <$> ns ∧ e_target e ∈ n_id <$> ns
}.

Section Build.
Context (options : obj optval) (ns : list cnode) (es : list cedge) (isParent : string → bool).
Context (Hok : eles_ok ns es).
Implicit Types (g : dgraph).

Lemma node_eq n n' : n ∈ ns → n' ∈ ns → n_id n = n_id n' → n = n'.
Proof.
  intros Hn Hn' Heq. apply list_elem_of_lookup in Hn as [i Hi], Hn' as [j Hj].
  assert (i = j) as ->; [|congruence].
  eapply (NoDup_lookup (n_id <$> ns)); [apply Hok|..]; rewrite list_lookup_fmap; [by rewrite Hi|].
  rewrite Hj. simpl. by f_equal.
Qed.

Lemma plain_id v : v ∈ n_id <$> ns → plain v.
Proof. intros (n & -> & Hn)%list_elem_of_fmap. by apply (el_plain _ _ Hok). Qed.

Lemma empty_graph_wf : wf (empty_graph options).
Proof.
  pose proof (newGraph_wf (L := label) (N := label) (E := label) true true true) as [H1 H2 H3 H4 H5].
  split; [exact H1|exact H2|by eapply edges_ok_ext; [exact H3|..]|exact H4|exact H5].
Qed.

(** *** Nodes *)

Record nodes_added (done : list cnode) g : Prop := {
  na_wf : wf g;
  na_options : same_options (empty_graph options) g;
  na_edges : edgeObjs_ g = [] ∧ edgeLabels_ g = [];
  na_node : ∀ u l, oget (nodes_ g) u = Some l ↔ ∃ n, n ∈ done ∧ n_id n = u ∧ l = Some (node_label n);
  na_parent : ∀ u q, oget (parent_ g) u = Some q → q = GRAPH_NODE
}.

Lemma add_node_step done n rest g :
  ns = done ++ n :: rest → nodes_added done g →
  ∃ g', add_node g n = Ok g' ∧ nodes_added (done ++ [n]) g'.
Proof.
  intros Hns [Hwf Hopt [He1 He2] Hnode Hpar].
  assert (n ∈ ns) as Hn by (rewrite Hns; set_solver).
  assert (n_id n ∉ n_id <$> done) as Hfresh.
  { pose proof (el_ids _ _ Hok) as Hnd. rewrite Hns, fmap_app in Hnd.
    apply NoDup_app in Hnd as (_ & Hnd & _). intros Hin. apply (Hnd _ Hin). csimpl. by left. }
  destruct (setNode_ok g (n_id n) (Some (Some (node_label n)))) as (g' & Hg' & P); [done|by apply (el_plain _ _ Hok)|].
  exists g'. split; [done|]. destruct (sn_edges _ _ _ _ P) as [E1 E2]. destruct (sn_options _ _ _ _ P) as (_&_&Hc&_).
  split; [apply P|etrans; [done|apply P]|by rewrite E1, E2| |].
  - intros u l. rewrite (sn_label _ _ _ _ P). case_decide as Hu.
    + subst u. split; [intros [= <-]; exists n; set_solver|].
      intros (n' & [Hn'| ->%list_elem_of_singleton]%elem_of_app & Hid & ->); [|done].
      destruct Hfresh. rewrite <-Hid. by apply list_elem_of_fmap_2.
    + rewrite Hnode. set_solver.
  - intros u q. rewrite (sn_parent _ _ _ _ P); [case_decide; [by intros [= <-]|apply Hpar]|].
    destruct Hopt as (_&_&->&_). done.
Qed.

Lemma add_nodes : ∃ g, res_fold add_node (empty_graph options) ns = Ok g ∧ nodes_added ns g.
Proof.
  apply res_fold_inv.
  - split; [apply empty_graph_wf|done|done| |].
    + intros u l. split; [done|]. by intros (n & ?%elem_of_nil & _).
    + done.
  - intros. by eapply add_node_step.
Qed.

(** *** Hierarchy *)

Record parents_added (done : list cnode) g : Prop := {
  pa_wf : wf g;
  pa_options : same_options (empty_graph options) g;
  pa_edges : edgeObjs_ g = [] ∧ edgeLabels_ g = [];
  pa_node : ∀ u l, oget (nodes_ g) u = Some l ↔ ∃ n, n ∈ ns ∧ n_id n = u ∧ l = Some (node_label n);
  pa_parent : ∀ u q, oget (parent_ g) u = Some q → q = GRAPH_NODE ∨ child_of done u q;
  pa_done : ∀ n, n ∈ done → oget (parent_ g) (n_id n) = Some (default GRAPH_NODE (n_parent n))
}.

Lemma parents_isNode done g u : parents_added done g → isNode g u ↔ u ∈ n_id <$> ns.
Proof.
  intros P. unfold isNode. rewrite list_elem_of_fmap. split.
  - intros [l (n & ? & <- & _)%(pa_node _ _ P)]. eauto.
  - intros (n & -> & Hn). eexists. apply (pa_node _ _ P). eauto.
Qed.

Lemma child_of_mono l1 l2 a b : l1 ⊆ l2 → child_of l1 a b → child_of l2 a b.
Proof. intros Hl (n & Hn & ? & ?). exists n. auto. Qed.

Lemma no_cycle done g n p :
  parents_added done g → done ⊆ ns → n ∈ ns → n_parent n = Some p → ¬ rtc (up (parent_ g)) p (n_id n).
Proof.
  intros P Hsub Hn Hp Hr. apply (el_forest _ _ Hok (n_id n)).
  eapply tc_rtc_r; [apply tc_once; exists n; eauto|].
  eapply (rtc_congruence id); [|exact Hr]. intros a b [Hab Hroot].
  destruct (pa_parent _ _ P _ _ Hab) as [->|Hc]; [done|]. by eapply child_of_mono.
Qed.

Lemma root_parent g n : wf g → isCompound g = true → isNode g (n_id n) →
  (∀ q, oget (parent_ g) (n_id n) = Some q → q = GRAPH_NODE) → oget (parent_ g) (n_id n) = Some GRAPH_NODE.
Proof.
  intros Hwf Hc Hn Hq. destruct (oget (parent_ g) (n_id n)) as [q|] eqn:Hp; [by rewrite (Hq q)|].
  destruct (proj2 (tok_parent _ _ _ _ (wf_tree _ Hwf Hc) (n_id n)) Hn) as [q Hq']. congruence.
Qed.

Lemma fresh_in_split done n rest : ns = done ++ n :: rest → n ∉ done ∧ n ∈ ns ∧ done ⊆ ns.
Proof.
  intros Hns. split; [|rewrite Hns; set_solver]. intros Hin. pose proof (el_ids _ _ Hok) as Hnd.
  rewrite Hns, fmap_app in Hnd. apply NoDup_app in Hnd as (_ & Hnd & _).
  apply (Hnd (n_id n)); [by apply list_elem_of_fmap_2|]. csimpl. by left.
Qed.

(** Both nodes exist, so [setParent] changes one entry of the hierarchy. *)
Lemma setParent_known done g n p :
  parents_added done g → done ⊆ ns → n ∈ ns → n_parent n = Some p →
  ∃ g', setParent g (n_id n) (Some p) = Ok g' ∧ wf g' ∧ same_options g g' ∧ same_edges g g' ∧
    (∀ u, oget (nodes_ g') u = oget (nodes_ g) u) ∧
    (∀ u, oget (parent_ g') u = if decide (u = n_id n) then Some p else oget (parent_ g) u).
Proof.
  intros P Hsub Hn Hp. assert (isCompound g = true) as Hc by (by destruct (pa_options _ _ P) as (_&_&->&_)).
  assert (p ∈ n_id <$> ns) as Hpn by (apply (el_parents _ _ Hok (n_id n)); exists n; eauto).
  destruct (setParent_ok g (n_id n) p) as (g' & Hg' & Q);
    [apply P|done|by apply (el_plain _ _ Hok)|by apply plain_id|by eapply no_cycle|].
  exists g'. split_and!; [done|apply Q..| |].
  - intros u. rewrite (sp_node _ _ _ _ Q). destruct (oget (nodes_ g) u) eqn:Hu; [done|].
    rewrite decide_False; [done|]. intros Hup. assert (isNode g u) as [? ?]; [|congruence].
    eapply parents_isNode; [done|]. destruct Hup as [->|[= ->]]; [by apply list_elem_of_fmap_2|done].
  - intros u. rewrite (sp_parent _ _ _ _ Q). case_decide; [done|].
    destruct (oget (parent_ g) u) eqn:Hu; [done|]. rewrite decide_False; [done|]. intros [= ->].
    assert (isNode g p) as Hip by (by eapply parents_isNode).
    apply (tok_parent _ _ _ _ (wf_tree _ (pa_wf _ _ P) Hc)) in Hip as [??]. congruence.
Qed.

Lemma parents_added_mono done n g u q :
  parents_added done g → oget (parent_ g) u = Some q → q = GRAPH_NODE ∨ child_of (done ++ [n]) u q.
Proof.
  intros P [->|Hq]%(pa_parent _ _ P); [by left|]. right. eapply child_of_mono; [|done]. set_solver.
Qed.

Lemma add_parent_step done n rest g :
  ns = done ++ n :: rest → parents_added done g →
  ∃ g', add_parent g n = Ok g' ∧ parents_added (done ++ [n]) g'.
Proof.
  intros Hns P. destruct (fresh_in_split _ _ _ Hns) as (Hnd & Hn & Hsub).
  unfold add_parent. destruct (n_parent n) as [p|] eqn:Hp.
  - destruct (setParent_known done g n p) as (g' & Hg' & Hwf & Hopt & [E1 E2] & Hnode & Hpar); [done..|].
    exists g'. split; [done|]. split; [done|etrans; [apply P|done]|rewrite E1, E2; apply P| | |].
    + intros u l. rewrite Hnode. apply P.
    + intros u q. rewrite Hpar. case_decide as Hu; [|by apply parents_added_mono].
      intros [= <-]. right. subst u. exists n. set_solver.
    + intros n' [Hn'| ->%list_elem_of_singleton]%elem_of_app; rewrite Hpar.
      * rewrite decide_False; [by apply P|]. intros Hid. destruct Hnd. rewrite <-(node_eq n' n); auto.
      * by rewrite decide_True, Hp.
  - exists g. split; [done|]. split; [apply P..|intros u q; by apply parents_added_mono|].
    intros n' [Hn'| ->%list_elem_of_singleton]%elem_of_app; [by apply P|]. rewrite Hp. simpl.
    apply root_parent; [apply P|by destruct (pa_options _ _ P) as (_&_&->&_)| |].
    + eapply parents_isNode; [done|]. by apply list_elem_of_fmap_2.
    + intros q [?|(n' & Hn' & Hid & _)]%(pa_parent _ _ P); [done|].
      destruct Hnd. rewrite <-(node_eq n' n); auto.
Qed.

Lemma add_parents g0 : nodes_added ns g0 → ∃ g, res_fold add_parent g0 ns = Ok g ∧ parents_added ns g.
Proof.
  intros [? ? ? ? Hp]. apply res_fold_inv.
  - split; [done..| |by intros n ?%elem_of_nil]. intros u q ?%Hp. by left.
  - intros. by eapply add_parent_step.
Qed.

(** *** Edges *)

Definition obj_of (e : cedge) : edgeObj := EdgeObj (e_source e) (e_target e) (Some (e_id e)).

Record edges_added (done : list cedge) g : Prop := {
  ea_wf : wf g;
  ea_options : same_options (empty_graph options) g;
  ea_node : ∀ u l, oget (nodes_ g) u = Some l ↔ ∃ n, n ∈ ns ∧ n_id n = u ∧ l = Some (node_label n);
  ea_parent : ∀ n, n ∈ ns → oget (parent_ g) (n_id n) = Some (default GRAPH_NODE (n_parent n));
  ea_obj : ∀ k x, oget (edgeObjs_ g) k = Some x ↔
    ∃ e, e ∈ done ∧ x = obj_of e ∧ k = edgeObjToId true (obj_of e);
  ea_label : ∀ e, e ∈ done →
    oget (edgeLabels_ g) (edgeObjToId true (obj_of e)) = Some (Some (edge_label options e))
}.

(** Distinct edges of the collection have distinct ids in the graph. *)
Lemma edge_id_inj e e' :
  e ∈ es → e' ∈ es → edgeObjToId true (obj_of e) = edgeObjToId true (obj_of e') → e = e'.
Proof.
  intros He He' Heq. destruct (el_ends _ _ Hok e He) as [?%plain_id ?%plain_id].
  destruct (el_ends _ _ Hok e' He') as [?%plain_id ?%plain_id].
  apply edgeArgsToId_inj in Heq as [_ Hname]; [|by apply plain_free..]. simpl in Hname.
  apply list_elem_of_lookup in He as [i Hi], He' as [j Hj]. assert (i = j) as ->; [|congruence].
  eapply (NoDup_lookup (e_id <$> es)); [apply Hok|..]; rewrite list_lookup_fmap; [by rewrite Hi|].
  rewrite Hj. simpl. by f_equal.
Qed.

Lemma edge_obj_of e :
  e_id e ≠ ""%string → edgeArgsToObj true (e_source e) (e_target e) (Some (e_id e)) = obj_of e.
Proof. intros He. unfold edgeArgsToObj, obj_of. simpl. by rewrite decide_False. Qed.

(** The table of edge objects after one more edge. *)
Lemma edge_objs_step done e (eo : obj edgeObj) k x :
  done ⊆ es → e ∈ es →
  (∀ k x, oget eo k = Some x ↔ ∃ e, e ∈ done ∧ x = obj_of e ∧ k = edgeObjToId true (obj_of e)) →
  match oget eo k with
  | Some x => Some x
  | None => if decide (k = edgeObjToId true (obj_of e)) then Some (obj_of e) else None
  end = Some x ↔ ∃ e', e' ∈ done ++ [e] ∧ x = obj_of e' ∧ k = edgeObjToId true (obj_of e').
Proof.
  intros Hdone He Heo. destruct (oget eo k) as [x'|] eqn:Hk.
  - pose proof (proj1 (Heo _ _) Hk) as (e' & He' & -> & ->). split.
    + intros [= <-]. exists e'. set_solver.
    + intros (e2 & He2 & -> & Heq). f_equal. f_equal. apply edge_id_inj; [auto| |done]. set_solver.
  - case_decide as Hke.
    + split; [intros [= <-]; exists e; set_solver|]. intros (e2 & He2 & -> & Heq). f_equal. f_equal.
      apply edge_id_inj; [done|set_solver|congruence].
    + split; [done|]. intros (e2 & [He2| ->%list_elem_of_singleton]%elem_of_app & -> & ->); [|done].
      assert (oget eo (edgeObjToId true (obj_of e2)) = Some (obj_of e2)); [|congruence].
      apply Heo. eauto.
Qed.

Lemma add_edge_step l done e rest g :
  l ⊆ es → NoDup l → l = done ++ e :: rest → edges_added done g →
  ∃ g', add_edge options g e = Ok g' ∧ edges_added (done ++ [e]) g'.
Proof.
  intros Hsub Hndl Hl P. assert (e ∈ es) as He by (apply Hsub; rewrite Hl; set_solver).
  assert (e ∉ done) as Hnd.
  { rewrite Hl in Hndl. apply NoDup_app in Hndl as (_ & Hndl & _). intros Hin. apply (Hndl _ Hin). by left. }
  assert (∀ e', e' ∈ done → e' ∈ es) as Hdone by (intros e' ?; apply Hsub; rewrite Hl; set_solver).
  destruct (el_ends _ _ Hok e He) as [Hs Ht]. destruct (el_edge_name _ _ Hok e He) as [Hne _].
  assert (isDirected g = true ∧ isMultigraph g = true ∧ isCompound g = true) as (Hd & Hm & Hc)
    by (by destruct (ea_options _ _ P) as (->&->&->&_)).
  destruct (setEdge_ok g (e_source e) (e_target e) (Some (Some (edge_label options e))) (Some (e_id e)))
    as (g' & Hg' & Q); [apply P|by apply plain_id|by apply plain_id|congruence|auto|].
  assert (∀ u, u ∈ n_id <$> ns → is_Some (oget (nodes_ g) u) ∧ is_Some (oget (parent_ g) u)) as Hex.
  { intros u (n & -> & Hn)%list_elem_of_fmap. split; [eexists; apply (ea_node _ _ P); eauto|].
    rewrite (ea_parent _ _ P) by done. eauto. }
  exists g'. split; [done|]. split; [apply Q|etrans; [apply P|apply Q]| | | |].
  - intros u lb. rewrite (se_node _ _ _ _ _ _ Q), <-(ea_node _ _ P).
    destruct (oget (nodes_ g) u) eqn:Hu; [done|]. rewrite decide_False; [done|].
    intros [->| ->]; [destruct (Hex _ Hs) as [[??] _]|destruct (Hex _ Ht) as [[??] _]]; congruence.
  - intros n Hn. by rewrite (se_parent _ _ _ _ _ _ Q Hc), (ea_parent _ _ P) by done.
  - intros k x. rewrite (se_obj _ _ _ _ _ _ Q), Hd.
    change (edgeArgsToId true (e_source e) (e_target e) (Some (e_id e))) with (edgeObjToId true (obj_of e)).
    rewrite edge_obj_of by done. by apply edge_objs_step; [..|apply P].
  - intros e' He'. rewrite (se_label _ _ _ _ _ _ Q), Hd.
    change (edgeArgsToId true (e_source e) (e_target e) (Some (e_id e))) with (edgeObjToId true (obj_of e)).
    case_decide as Heq.
    + assert (e' = e) as -> by (apply edge_id_inj; [set_solver|done|done]). done.
    + apply elem_of_app in He' as [He'| ->%list_elem_of_singleton]; [by apply P|done].
Qed.

Lemma layout_edges_sub : layout_edges isParent es ⊆ es ∧ NoDup (layout_edges isParent es).
Proof.
  unfold layout_edges. split; [intros e [_ ?]%list_elem_of_filter; done|].
  apply NoDup_filter, (NoDup_fmap_1 e_id), Hok.
Qed.

Lemma build_graph_ok :
  ∃ g, build_graph options ns es isParent = Ok g ∧ edges_added (layout_edges isParent es) g.
Proof.
  unfold build_graph. destruct add_nodes as (g1 & -> & H1). simpl.
  destruct (add_parents g1 H1) as (g2 & -> & H2). simpl. destruct layout_edges_sub as [Hsub Hnd].
  apply res_fold_inv.
  - destruct H2 as [? ? [E1 E2] ? ? ?]. split; [done..| |].
    + intros k x. rewrite E1. split; [done|]. by intros (e & ?%elem_of_nil & _).
    + by intros e ?%elem_of_nil.
  - intros. by eapply add_edge_step.
Qed.
End Build.
