(* ===== verification/DagreLayoutClaims.v ===== *)
(** * cytoscape-dagre.js: what the extension computes

    Options, the graph given to dagre, and the positions given back to the
    canvas; the last part is proved against the interface [Layout] of dagre. *)
From S2P Require Import Prelude JsObject Graphlib GraphWf GraphInv GraphRemove GraphQuery DagreLayout DagreLayoutGraph.
From Stdlib Require Import QArith Lqa.
Local Close Scope Q_scope.

(** ** Interface of [dagre.layout]

    On the graphs that it accepts it returns, keeps the set of nodes and writes finite coordinates into the label of every
    node that has one. *)
Class Layout (layout : dgraph → res dgraph) (accepts : dgraph → Prop) := {
  layout_returns g : wf g → accepts g → ∃ g', layout g = Ok g' ∧ (∀ v, isNode g' v ↔ isNode g v) ∧
    ∀ v, isNode g v → is_Some (node g v) →
    ∃ l px py, node g' v = Some l ∧ oget l "x" = Some (Num (Rat px)) ∧ oget l "y" = Some (Num (Rat py))
}.

(** ** Options *)

Lemma assign_from_lookup {V} (tgt src : obj V) k :
  oget (assign_from tgt src) k = match oget src k with Some v => Some v | None => oget tgt k end.
Proof.
  unfold assign_from. rewrite (oget_fold_set _ (oget src)) by done.
  case_decide as Hk; [done|]. rewrite elem_of_okeys, <-eq_None_not_Some in Hk. by rewrite Hk.
Qed.

(** ** Scratch pads *)

Lemma write_scratch_lookup g s id :
  oget (write_scratch g s) id = if decide (id ∈ nodes g) then Some (node g id) else oget s id.
Proof.
  unfold write_scratch. by rewrite (oget_fold_set _ (λ id, Some (node g id))) by done.
Qed.

(** The positions are those of the elements, in order. *)
Lemma positions_ok ns bounded d bb s (f : cnode → jsnum * jsnum) :
  (∀ n, n ∈ ns → position_of bounded d bb s n = Ok (n_id n, f n)) →
  layout_positions bounded d bb s ns = Ok ((λ n, (n_id n, f n)) <$> ns).
Proof.
  intros Hf. unfold layout_positions.
  destruct (res_fold_inv (λ acc n, p <-- position_of bounded d bb s n ;; Ok (acc ++ [p]))
    (λ done acc, acc = (λ n, (n_id n, f n)) <$> done) ns []) as (acc & Hacc & ->); [done| |done].
  intros done n rest acc Hns ->. rewrite Hf by (rewrite Hns; set_solver). simpl.
  eexists. split; [done|]. by rewrite fmap_app.
Qed.
Section Positions.
Context (layout : dgraph → res dgraph) (accepts : dgraph → Prop) `{!Layout layout accepts}.
Context (options : obj optval) (ns : list cnode) (es : list cedge) (isParent : string → bool).
Context (Hok : eles_ok ns es).

(** Every element finds the coordinates dagre computed for it. *)
Lemma scratch_coords g : edges_added options ns (layout_edges isParent es) g → accepts g →
  ∃ g', layout g = Ok g' ∧ ∀ s n, n ∈ ns → ∃ l px py, dModel (write_scratch g' s) (n_id n) = Ok l ∧
    node g' (n_id n) = Some l ∧ coord l "x" = Rat px ∧ coord l "y" = Rat py.
Proof.
  intros P Ha. destruct (layout_returns g) as (g' & Hg' & Hnodes & Hcoords); [apply P|done|]. exists g'. split; [done|]. intros s n Hn.
  assert (oget (nodes_ g) (n_id n) = Some (Some (node_label n))) as Hl by (apply (ea_node _ _ _ _ P); eauto).
  destruct (Hcoords (n_id n)) as (l & px & py & Hnode & Hx & Hy).
  - by eexists.
  - unfold node. rewrite Hl. simpl. eauto.
  - exists l, px, py. unfold dModel, coord. rewrite Hx, Hy, write_scratch_lookup.
    rewrite decide_True by (apply elem_of_nodes, Hnodes; by eexists). simpl. by rewrite Hnode.
Qed.

End Positions.

(** ** The box around dagre's positions *)

Definition in_range (lo hi : jsnum) (x : Q) : Prop :=
  ∃ a b, lo = Rat a ∧ hi = Rat b ∧ (a <= x)%Q ∧ (x <= b)%Q.

Definition axis_ok (seen : list Q) (lo hi : jsnum) : Prop :=
  (seen = [] ∧ lo = PosInf ∧ hi = NegInf) ∨
  ∃ a b, lo = Rat a ∧ hi = Rat b ∧ a ∈ seen ∧ b ∈ seen ∧ ∀ x, x ∈ seen → (a <= x)%Q ∧ (x <= b)%Q.

Lemma axis_step seen lo hi x :
  axis_ok seen lo hi → axis_ok (seen ++ [x]) (n_min lo (Rat x)) (n_max hi (Rat x)).
Proof.
  intros [(-> & -> & ->)|(a & b & -> & -> & Ha & Hb & Hall)]; right.
  - exists x, x. simpl. split_and!; [done..|by left|by left|]. intros y ->%list_elem_of_singleton. lra.
  - simpl. destruct (Qle_bool a x) eqn:Hax, (Qle_bool b x) eqn:Hbx;
      rewrite ?Qle_bool_iff in *; repeat match goal with
      | H : Qle_bool _ _ = false |- _ => apply not_true_iff_false in H; rewrite Qle_bool_iff in H;
          apply Qnot_le_lt in H end;
      eexists _, _; (split_and!; [done|done|set_solver|set_solver|]);
      intros y [Hy%Hall| ->%list_elem_of_singleton]%elem_of_app; split; try lra; destruct (Hall _ Ha); lra.
Qed.

(** The value of [rescale] lies between the ends of the target interval. *)
Lemma rescale_range a b p t s :
  (a <= p)%Q → (p <= b)%Q → (0 <= s)%Q →
  ∃ r, rescale (Rat a) (n_sub (Rat b) (Rat a)) (Rat t) (Rat s) (Rat p) = Rat r ∧ (t <= r)%Q ∧ (r <= t + s)%Q.
Proof.
  intros Hap Hpb Hs. unfold rescale. simpl. destruct (Qeq_bool (b + - a) 0) eqn:Hz.
  - exists (t + 0 * s)%Q. split; [done|]. lra.
  - apply Qeq_bool_neq in Hz. assert (0 < b - a)%Q as Hpos.
    { destruct (Qlt_le_dec 0 (b - a)); [done|]. destruct Hz. lra. }
    assert (0 <= (p + - a) / (b + - a) <= 1)%Q as [H0 H1].
    { split; [apply Qle_shift_div_l; [lra|lra]|apply Qle_shift_div_r; [lra|lra]]. }
    eexists. split; [done|]. set (q := ((p + - a) / (b + - a))%Q) in *. nra.
Qed.

(** The two extreme positions reach the two ends. *)
Lemma rescale_low a b t s : ∃ r, rescale (Rat a) (n_sub (Rat b) (Rat a)) (Rat t) (Rat s) (Rat a) = Rat r ∧ (r == t)%Q.
Proof.
  unfold rescale. simpl. destruct (Qeq_bool (b + - a) 0) eqn:Hz; eexists; (split; [done|]); [lra|].
  apply Qeq_bool_neq in Hz. field. intros H. apply Hz. lra.
Qed.

Lemma rescale_high a b t s : (a < b)%Q →
  ∃ r, rescale (Rat a) (n_sub (Rat b) (Rat a)) (Rat t) (Rat s) (Rat b) = Rat r ∧ (r == t + s)%Q.
Proof.
  intros Hab. unfold rescale. simpl. destruct (Qeq_bool (b + - a) 0) eqn:Hz.
  - apply Qeq_bool_iff in Hz. lra.
  - eexists. split; [done|]. field. lra.
Qed.

(** The coordinate an element reads from its scratch pad. *)
Definition axis_of (s : obj (option label)) (k : string) (n : cnode) : Q :=
  match dModel s (n_id n) with
  | Ok l => match coord l k with Rat q => q | _ => 0 end
  | Throw _ => 0
  end.

Lemma dagreBB_ok s ns :
  (∀ n, n ∈ ns → ∃ l px py, dModel s (n_id n) = Ok l ∧ coord l "x" = Rat px ∧ coord l "y" = Rat py) →
  ∃ d, dagreBB s ns = Ok d ∧ axis_ok (axis_of s "x" <$> ns) (bx1 d) (bx2 d) ∧
    axis_ok (axis_of s "y" <$> ns) (by1 d) (by2 d).
Proof.
  intros Hs. apply (res_fold_inv (grow_box s) (λ done d,
    axis_ok (axis_of s "x" <$> done) (bx1 d) (bx2 d) ∧ axis_ok (axis_of s "y" <$> done) (by1 d) (by2 d))).
  - split; left; done.
  - intros done n rest d Hns [Hx Hy]. destruct (Hs n) as (l & px & py & Hl & Hpx & Hpy); [rewrite Hns; set_solver|].
    unfold grow_box. rewrite Hl. simpl. eexists. split; [done|]. simpl. rewrite !fmap_app, Hpx, Hpy.
    split; (eapply eq_ind_r with (P := λ z, axis_ok (_ ++ z) _ _); [by apply axis_step|]);
      csimpl; unfold axis_of; by rewrite Hl, ?Hpx, ?Hpy.
Qed.

Lemma axis_in seen lo hi x : axis_ok seen lo hi → x ∈ seen →
  ∃ a b, lo = Rat a ∧ hi = Rat b ∧ (a <= x)%Q ∧ (x <= b)%Q.
Proof.
  intros [(-> & _)|(a & b & -> & -> & _ & _ & Hall)] Hx; [by apply elem_of_nil in Hx|].
  exists a, b. destruct (Hall _ Hx). done.
Qed.

(** ** Claims *)

(** [assign] gives each option the value of the last source that has it, an
    explicit [undefined] included; the constructor therefore takes every option from
    the caller and falls back to the defaults. *)
Theorem options_override options k :
  (∀ v, oget options k = Some v → opt (newDagreLayout options) k = v) ∧
  (oget options k = None → opt (newDagreLayout options) k = opt defaults k) ∧
  (∀ (tgt : obj optval) srcs src, oget (assign tgt (srcs ++ [src])) k =
     match oget src k with Some v => Some v | None => oget (assign tgt srcs) k end).
Proof.
  unfold opt, newDagreLayout, assign. cbn [foldl]. rewrite !assign_from_lookup. split_and!.
  - by intros v ->.
  - intros ->. by destruct (oget defaults k).
  - intros tgt srcs src. rewrite foldl_app. simpl. apply assign_from_lookup.
Qed.

(** Completing a bounding box keeps every field that is given, fills all of
    them, and is idempotent; a box given by its corner and size, or by two corners,
    ends up with [x2 = x1 + w] and [y2 = y1 + h]. *)
Theorem complete_bb_spec bb :
  let c := complete_bb bb in
  x1 c = x1 bb ∧ y1 c = y1 bb ∧
  (∀ v, x2 bb = Some v → x2 c = Some v) ∧ (∀ v, y2 bb = Some v → y2 c = Some v) ∧
  (∀ v, w bb = Some v → w c = Some v) ∧ (∀ v, h bb = Some v → h c = Some v) ∧
  is_Some (x2 c) ∧ is_Some (y2 c) ∧ is_Some (w c) ∧ is_Some (h c) ∧
  complete_bb c = c ∧
  (∀ a b, x1 bb = Some (Rat a) → w bb = Some (Rat b) → x2 bb = None → x2 c = Some (Rat (a + b))) ∧
  (∀ a b, x1 bb = Some (Rat a) → x2 bb = Some (Rat b) → w bb = None → w c = Some (Rat (b - a))) ∧
  (∀ a b, y1 bb = Some (Rat a) → h bb = Some (Rat b) → y2 bb = None → y2 c = Some (Rat (a + b))) ∧
  (∀ a b, y1 bb = Some (Rat a) → y2 bb = Some (Rat b) → h bb = None → h c = Some (Rat (b - a))).
Proof.
  destruct bb as [a b [?|] [?|] [?|] [?|]]; cbn; split_and!; try (intros; simplify_eq/=; eauto); eauto.
Qed.

Lemma build_graph_elements options ns es isParent :
  eles_ok ns es →
  ∃ g, build_graph options ns es isParent = Ok g ∧ wf g ∧
    graph g = Some (graph_label options) ∧
    nodes g ≡ₚ n_id <$> ns ∧
    (∀ n, n ∈ ns → node g (n_id n) = Some (node_label n) ∧ parent g (n_id n) = n_parent n) ∧
    (∀ x, x ∈ edges g ↔ ∃ e, e ∈ es ∧ isParent (e_source e) = false ∧ isParent (e_target e) = false ∧
       x = EdgeObj (e_source e) (e_target e) (Some (e_id e))) ∧
    (∀ e, e ∈ es → isParent (e_source e) = false → isParent (e_target e) = false →
       edge g (e_source e) (e_target e) (Some (e_id e)) = Some (edge_label options e)).
Proof.
  intros Hok. destruct (build_graph_ok options ns es isParent Hok) as (g & Hg & P).
  assert (∀ e, e ∈ layout_edges isParent es ↔
    e ∈ es ∧ isParent (e_source e) = false ∧ isParent (e_target e) = false) as Hle.
  { intros e. unfold layout_edges. rewrite list_elem_of_filter, andb_true_iff, !negb_true_iff. tauto. }
  destruct (ea_options _ _ _ _ P) as (Hd & Hm & Hc & Hl & _).
  exists g. split_and!; [done|apply P|by unfold graph; rewrite Hl| | | |].
  - apply NoDup_Permutation; [apply NoDup_nodes, P|apply Hok|]. intros v. rewrite elem_of_nodes, list_elem_of_fmap.
    unfold isNode. split.
    + intros [l (n & Hn & <- & _)%(ea_node _ _ _ _ P)]. eauto.
    + intros (n & -> & Hn). eexists. apply (ea_node _ _ _ _ P). eauto.
  - intros n Hn. split.
    + unfold node. by rewrite (proj2 (ea_node _ _ _ _ P (n_id n) (Some (node_label n)))) by eauto.
    + unfold parent. rewrite Hc, (ea_parent _ _ _ _ P) by done. cbn [isCompound].
      destruct (n_parent n) as [p|] eqn:Hp; simpl; [|done].
      rewrite decide_False; [done|]. apply (plain_id ns es Hok). apply (el_parents _ _ Hok (n_id n)). exists n. eauto.
  - intros x. rewrite (elem_of_edges g x) by apply P. rewrite (ea_obj _ _ _ _ P). split.
    + intros (e & (? & ? & ?)%Hle & -> & _). eauto.
    + intros (e & He & Hs & Ht & ->). exists e. rewrite Hle, Hd. done.
  - intros e He Hs Ht. unfold edge, edgeById. rewrite Hd. change (isDirected (empty_graph options)) with true.
    pose proof (ea_label _ _ _ _ P e) as Hlab. unfold edgeObjToId, obj_of in Hlab. simpl in Hlab.
    by rewrite Hlab by (by apply Hle).
Qed.

(** C32: On a collection of elements as cytoscape provides it, the graph given to
    dagre is well formed and has exactly the nodes of the collection, with their
    dimensions and parents, and exactly one edge, named after its id and labelled
    with its length and weight, for each edge between two elements without children. *)
Theorem build_graph_correct options ns es isParent :
  eles_ok ns es →
  ∃ g, build_graph options ns es isParent = Ok g ∧ wf g ∧
    graph g = Some (graph_label options) ∧
    nodes g ≡ₚ n_id <$> ns ∧
    (∀ n, n ∈ ns → node g (n_id n) = Some (node_label n) ∧ parent g (n_id n) = n_parent n) ∧
    (∀ x, x ∈ edges g ↔ ∃ e, e ∈ es ∧ isParent (e_source e) = false ∧ isParent (e_target e) = false ∧
       x = EdgeObj (e_source e) (e_target e) (Some (e_id e))) ∧
    (∀ e, e ∈ es → isParent (e_source e) = false → isParent (e_target e) = false →
       edge g (e_source e) (e_target e) (Some (e_id e)) = Some (edge_label options e)).
Proof. apply build_graph_elements. Qed.

Section Run.
Context (layout : dgraph → res dgraph) (accepts : dgraph → Prop) `{!Layout layout accepts}.

Lemma run_unbounded_ok options cy_w cy_h ns es isParent scratch :
  eles_ok ns es → given_box options = None → (∀ g, build_graph options ns es isParent = Ok g → accepts g) →
  ∃ g g', build_graph options ns es isParent = Ok g ∧ layout g = Ok g' ∧
    ∃ ps, run layout options cy_w cy_h ns es isParent scratch = Ok ps ∧ ps.*1 = n_id <$> ns ∧
    ∀ id p, (id, p) ∈ ps → ∃ l, node g' id = Some l ∧ p = (coord l "x", coord l "y").
Proof.
  intros Hok Hbox Hacc. destruct (build_graph_ok options ns es isParent Hok) as (g & Hg & P).
  destruct (scratch_coords layout accepts options ns es isParent g P (Hacc g Hg)) as (g' & Hg' & Hs). exists g, g'.
  split; [done|]. split; [done|]. unfold run. rewrite Hg, Hbox. simpl. rewrite Hg'. cbn [res_bind]. set (s := write_scratch g' scratch).
  rewrite (positions_ok ns _ _ _ s (λ n,
    match node g' (n_id n) with Some l => (coord l "x", coord l "y") | None => (NaN, NaN) end)).
  - eexists. split; [done|]. rewrite <-list_fmap_compose. split; [done|].
    intros id p (n & [= -> ->] & Hn)%list_elem_of_fmap.
    destruct (Hs scratch n Hn) as (l & ? & ? & _ & -> & _). eauto.
  - intros n Hn. destruct (Hs scratch n Hn) as (l & ? & ? & Hl & -> & _).
    unfold position_of. subst s. by rewrite Hl.
Qed.

(** Without a bounding box every element is placed where dagre put its node. *)
Theorem run_unbounded options cy_w cy_h ns es isParent scratch :
  eles_ok ns es → given_box options = None → (∀ g, build_graph options ns es isParent = Ok g → accepts g) →
  ∃ g g', build_graph options ns es isParent = Ok g ∧ layout g = Ok g' ∧
    ∃ ps, run layout options cy_w cy_h ns es isParent scratch = Ok ps ∧ ps.*1 = n_id <$> ns ∧
    ∀ id p, (id, p) ∈ ps → ∃ l, node g' id = Some l ∧ p = (coord l "x", coord l "y").
Proof. apply run_unbounded_ok. Qed.

End Run.

(** ** A concrete layout: every node on the diagonal, by the length of its id *)

Definition on_diagonal (v : string) (l : option label) : option label :=
  let c := Num (Rat (inject_Z (Z.of_nat (String.length v)))) in
  Some (oset (oset (default [] l) "x" c) "y" c).
Definition diagonal (g : dgraph) : res dgraph :=
  Ok (with_nodes ((λ kv, (kv.1, on_diagonal kv.1 kv.2)) <$> nodes_ g) (nodeCount_ g) g).

Lemma oget_fmap {V W} (f : string → V → W) (o : obj V) k :
  oget ((λ kv, (kv.1, f kv.1 kv.2)) <$> o) k = f k <$> oget o k.
Proof. induction o as [|[k' v] o IH]; csimpl; [done|]. case_decide; [by subst|done]. Qed.

#[export] Instance diagonal_layout : Layout diagonal (λ _, True).
Proof.
  split. intros g _ _. eexists. split; [done|]. split.
  - intros v. unfold isNode, with_nodes. cbn [nodes_]. rewrite oget_fmap. by destruct (oget (nodes_ g) v).
  - intros v [l Hl] _. unfold node, with_nodes. cbn [nodes_].
    rewrite oget_fmap, Hl. simpl.
    eexists _, _, _. split; [done|]. split; [|by rewrite oget_oset_eq].
    by rewrite oget_oset_ne, oget_oset_eq by done.
Qed.

Definition demo_nodes : list cnode :=
  [CNode "a" (Rat 10) (Rat 5) (Some "box"%string); CNode "bbb" (Rat 10) (Rat 5) None; CNode "box" (Rat 1) (Rat 1) None].
Definition demo_edges : list cedge := [CEdge "e1" "a" "bbb"; CEdge "e2" "box" "bbb"; CEdge "e3" "a" "bbb"].
Definition demo_isParent (v : string) : bool := bool_decide (v = "box"%string).
Definition demo_options : obj optval :=
  [("rankDir", Str "LR"); ("boundingBox", Box (BBox (Some (Rat 5)) (Some (Rat 0)) (Some (Rat 25)) None None (Some (Rat 9))))]%string.

Lemma demo_child a b : child_of demo_nodes a b → a = "a"%string ∧ b = "box"%string.
Proof.
  intros (n & Hn & <- & Hp). unfold demo_nodes in Hn. rewrite !elem_of_cons in Hn.
  destruct Hn as [->|[->|[->|Hn]]]; simplify_eq/=; [done|]. by apply elem_of_nil in Hn.
Qed.

Lemma demo_eles : eles_ok demo_nodes demo_edges.
Proof.
  split.
  - apply (bool_decide_unpack _). vm_compute. exact I.
  - apply Forall_forall. apply (bool_decide_unpack _). vm_compute. exact I.
  - intros a b [-> ->]%demo_child. apply (bool_decide_unpack _). vm_compute. exact I.
  - intros a Ha. assert (∀ x y, tc (child_of demo_nodes) x y → x = "a"%string ∧ y = "box"%string) as Hg.
    { intros x y Hxy. induction Hxy as [x y Hxy|x y z Hxy _ [? ?]]; [by apply demo_child|].
      apply demo_child in Hxy as [? ?]. congruence. }
    destruct (Hg _ _ Ha). congruence.
  - apply (bool_decide_unpack _). vm_compute. exact I.
  - apply Forall_forall. apply (bool_decide_unpack _). vm_compute. exact I.
  - apply Forall_forall. apply (bool_decide_unpack _). vm_compute. exact I.
Qed.

Lemma build_graph_correct_witness :
  eles_ok demo_nodes demo_edges ∧
  ∃ g, build_graph (newDagreLayout demo_options) demo_nodes demo_edges demo_isParent = Ok g ∧
    graph g = Some [("rankdir"%string, Str "LR")] ∧ length (nodes g) = 3.
Proof.
  split; [apply demo_eles|].
  destruct (build_graph_correct (newDagreLayout demo_options) demo_nodes demo_edges demo_isParent)
    as (g & Hg & _ & Hl & Hn & _).
  - apply demo_eles.
  - exists g. split; [exact Hg|]. split; [rewrite Hl; vm_compute; reflexivity|]. rewrite Hn. reflexivity.
Defined.

Lemma run_unbounded_witness :
  eles_ok demo_nodes demo_edges ∧
  ∃ ps, run diagonal (newDagreLayout []) (Rat 800) (Rat 600) demo_nodes demo_edges demo_isParent [] = Ok ps ∧
    ps.*1 = ["a"; "bbb"; "box"]%string.
Proof.
  split; [apply demo_eles|].
  destruct (run_unbounded diagonal (λ _, True) (newDagreLayout []) (Rat 800) (Rat 600) demo_nodes demo_edges demo_isParent [])
    as (g & g' & _ & _ & ps & Hps & Hids & _).
  - apply demo_eles.
  - vm_compute. reflexivity.
  - intros. exact I.
  - exists ps. split; [exact Hps|exact Hids].
Defined.

