(* ===== verification/DagreUtil.v ===== *)
(** * dagre: helpers on graphs (lib/util.js inside dagre.min.js)

    The loop that draws a node identifier that is not in use, and [asNonCompoundGraph], which copies
    the leaves of the hierarchy and all edges into a flat graph, with the same label objects. *)
From stdpp Require Import pretty.
From S2P Require Import Prelude JsObject Graphlib GraphWf GraphInv GraphQuery GraphView Decimal Lodash.

(** ** Fresh identifiers

    [do{v=_.uniqueId(prefix)}while(g.hasNode(v))]: the ids are distinct, so that one more than the number of nodes
    always contains a fresh one. *)
Fixpoint freshId {L V E} (fuel : nat) (g : Graph L V E) (prefix : string) (idCounter : N) : res (N * string) :=
  match fuel with
  | O => Throw (JsError "out of fuel")
  | S fuel' =>
      let '(idCounter, v) := uniqueId idCounter prefix in
      if hasNode g v then freshId fuel' g prefix idCounter else Ok (idCounter, v)
  end.

(** Generated ids are plain. *)
Lemma delim_free_app s t : delim_free (s +:+ t) = delim_free s && delim_free t.
Proof. induction s as [|a s IH]; [done|]. change (String a s +:+ t) with (String a (s +:+ t)). cbn [delim_free]. by rewrite IH, andb_assoc. Qed.

Lemma pretty_go_delim_free x s : delim_free s = true → delim_free (pretty_N_go x s) = true.
Proof.
  revert s. induction (N.lt_wf_0 x) as [x _ IH]; intros s Hs.
  assert (x = 0 ∨ 0 < x)%N as [->|Hx] by lia; [by rewrite pretty_N_go_0|].
  rewrite pretty_N_go_step by done. apply IH; [by apply N.div_lt|]. cbn. rewrite Hs, andb_true_r. apply bool_decide_eq_true. intros Hc.
  destruct (pretty_char_digit (x `mod` 10)%N) as [Hd _]; [by apply N.mod_lt|]. by rewrite Hc in Hd.
Qed.

Lemma pretty_delim_free (n : N) : delim_free (pretty n) = true.
Proof. unfold pretty, pretty_N. case_decide; [done|]. by apply pretty_go_delim_free. Qed.

Lemma fresh_plain prefix (n : N) : delim_free prefix = true → prefix ≠ ""%string → plain (prefix +:+ pretty n).
Proof.
  intros Hp Hne. split; [|by rewrite delim_free_app, Hp, pretty_delim_free].
  destruct prefix as [|a [|b prefix]]; [done|..]; [|done]. cbn. pose proof (pretty_N_digit n). by destruct (pretty n).
Qed.

Section Fresh.
Context {L V E : Type}.
Implicit Types (g : Graph L V E).

Definition nth_id (prefix : string) (c : N) (k : nat) : string := prefix +:+ pretty (c + N.of_nat k)%N.

#[local] Instance nth_id_inj prefix c : Inj (=) (=) (nth_id prefix c).
Proof. intros j k Hjk. unfold nth_id in Hjk. apply (inj (String.append prefix)), (inj pretty) in Hjk. lia. Qed.

Lemma freshId_ok g prefix fuel c :
  (∃ k, 1 ≤ k ≤ fuel ∧ ¬ isNode g (nth_id prefix c k)) →
  ∃ k, 1 ≤ k ∧ freshId fuel g prefix c = Ok ((c + N.of_nat k)%N, nth_id prefix c k) ∧ ¬ isNode g (nth_id prefix c k).
Proof.
  revert c. induction fuel as [|fuel IH]; intros c (k & Hk & Hn); [lia|]. cbn [freshId]. unfold uniqueId.
  assert (∀ j, nth_id prefix (c + 1) j = nth_id prefix c (S j)) as Hshift by (intros j; unfold nth_id; do 2 f_equal; lia).
  change (prefix +:+ pretty (c + 1)%N) with (nth_id prefix c 1). destruct (hasNode g (nth_id prefix c 1)) eqn:Hh.
  - apply hasNode_true in Hh. destruct (decide (k = 1)) as [->|Hk1]; [done|].
    destruct (IH (c + 1)%N) as (j & Hj & -> & Hf).
    { exists (pred k). split; [lia|]. rewrite Hshift. by replace (S (pred k)) with k by lia. }
    exists (S j). split; [lia|]. rewrite Hshift in *. split; [do 2 f_equal; lia|done].
  - exists 1. split_and!; [lia|done|]. rewrite <-hasNode_true. congruence.
Qed.

(** With one more than the number of nodes a fresh id is found. *)
Lemma freshId_total g prefix c :
  ∃ c' v, freshId (S (length (nodes g))) g prefix c = Ok (c', v) ∧ ¬ isNode g v ∧ (c < c')%N ∧ v = prefix +:+ pretty c'.
Proof.
  destruct (freshId_ok g prefix (S (length (nodes g))) c) as (k & Hk & -> & Hn); [|by exists (c + N.of_nat k)%N, (nth_id prefix c k); split_and!; [done|done|lia|]].
  destruct (decide (Exists (λ k, ¬ isNode g (nth_id prefix c k)) (seq 1 (S (length (nodes g)))))) as [He|Hall].
  - apply Exists_exists in He as (k & ?%elem_of_seq & ?). exists k. split; [lia|done].
  - exfalso. assert (length (nth_id prefix c <$> seq 1 (S (length (nodes g)))) ≤ length (nodes g)) as Hle.
    + apply submseteq_length, NoDup_submseteq; [apply NoDup_fmap; [apply _|apply NoDup_seq]|].
      intros v (k & -> & Hk)%list_elem_of_fmap. apply elem_of_nodes. apply dec_stable. intros Hn. apply Hall, Exists_exists. eauto.
    + rewrite length_fmap, length_seq in Hle. lia.
Qed.
End Fresh.

(** ** Flat copies *)

Section Flat.
Context {L N E : Type}.
Implicit Types (g s : Graph L N E) (v u : string) (x e : edgeObj).

(** [if(!g.children(v).length) simplified.setNode(v, g.node(v))]. *)
Definition copy_leaf g s v : res (Graph L N E) :=
  cs <-- of_option (children g v) ;;
  match cs with [] => setNode s v (Some (node g v)) | _ => Ok s end.
Definition asNonCompoundGraph g : res (Graph L N E) :=
  s <-- res_fold (copy_leaf g) (setGraph (newGraph true (isMultigraph g) false) (Graphlib.graph g)) (nodes g) ;;
  res_fold (λ s e, setEdgeObj s e (Some (edgeOf g e))) s (edges g).

Definition leaf g v : bool := match children g v with Some [] => true | _ => false end.

Lemma children_total g v : wf g → isNode g v → is_Some (children g v).
Proof.
  intros Hwf Hv. unfold children. destruct (isCompound g) eqn:Hc.
  - apply fmap_is_Some, (tok_children _ _ _ _ (wf_tree _ Hwf Hc)). by right.
  - case_decide; [by eexists|]. apply hasNode_true in Hv. rewrite Hv. by eexists.
Qed.

(** The graph while the leaves among [done] have been copied. *)
Record copied g (done : list string) s : Prop := {
  cp_wf : wf s;
  cp_options : isDirected s = true ∧ isMultigraph s = isMultigraph g ∧ isCompound s = false ∧ glabel s = glabel g;
  cp_edges : edgeObjs_ s = [] ∧ edgeLabels_ s = [];
  cp_nodes : ∀ v, oget (nodes_ s) v = if decide (v ∈ done) then (if leaf g v then Some (node g v) else None) else None
}.

Lemma copy_leaf_ok g done s v :
  wf g → isNode g v → copied g done s → ∃ s', copy_leaf g s v = Ok s' ∧ copied g (done ++ [v]) s'.
Proof.
  intros Hwf Hv C. unfold copy_leaf. destruct (children_total g v Hwf Hv) as [cs Hcs]. rewrite Hcs. cbn [of_option res_bind].
  destruct cs as [|c cs].
  - destruct (setNode_ok s v (Some (node g v)) (cp_wf _ _ _ C)) as (s' & Hs & P); [by eapply wf_plain|].
    exists s'. split; [done|]. destruct (sn_options _ _ _ _ P) as (H1 & H2 & H3 & H4 & _). destruct (sn_edges _ _ _ _ P) as (He & Hl).
    destruct (cp_options _ _ _ C) as (O1 & O2 & O3 & O4). destruct (cp_edges _ _ _ C) as [E1 E2].
    split; [apply P|split_and!; congruence|split; congruence|]. intros u. rewrite (sn_label _ _ _ _ P), (cp_nodes _ _ _ C).
    unfold set_label. destruct (decide (u = v)) as [->|Hne].
    + rewrite decide_True by set_solver. unfold leaf. by rewrite Hcs.
    + destruct (decide (u ∈ done)); [by rewrite decide_True by set_solver|]. rewrite decide_False; [done|set_solver].
  - exists s. split; [done|]. split; [apply C..|]. intros u. rewrite (cp_nodes _ _ _ C).
    destruct (decide (u ∈ done)); [by rewrite decide_True by set_solver|]. case_decide as Hu; [|done].
    assert (u = v) as -> by set_solver. unfold leaf. by rewrite Hcs.
Qed.

(** The flat graph: the labelled leaves with all edges. *)
Record flat_view g s : Prop := {
  fv_digraph : digraph s;
  fv_options : isMultigraph s = isMultigraph g ∧ isCompound s = false ∧ Graphlib.graph s = Graphlib.graph g;
  fv_nodes : ∀ v, oget (nodes_ s) v = if leaf g v then oget (nodes_ g) v else None;
  fv_edges : ∀ x, elookup s x = elookup g x
}.

Lemma copies_ok g : wf g → ∃ s,
  res_fold (copy_leaf g) (setGraph (newGraph true (isMultigraph g) false) (Graphlib.graph g)) (nodes g) = Ok s ∧ copied g (nodes g) s.
Proof.
  intros Hwf. apply (res_fold_inv (copy_leaf g) (copied g)).
  - split; [apply setGraph_wf, newGraph_wf|done|done|]. intros v. by rewrite decide_False by apply not_elem_of_nil.
  - intros done v rest s Heq C. apply copy_leaf_ok; [done| |done]. apply elem_of_nodes. rewrite Heq. set_solver.
Qed.

Lemma asNonCompoundGraph_ok g :
  digraph g → isMultigraph g = true → (∀ x, x ∈ edges g → leaf g (ev x) = true ∧ leaf g (ew x) = true) →
  ∃ s, asNonCompoundGraph g = Ok s ∧ flat_view g s.
Proof.
  intros Hg Hm Hleaf. assert (wf g) as Hwf by apply Hg. unfold asNonCompoundGraph.
  destruct (copies_ok g Hwf) as (s0 & -> & C). cbn [res_bind]. destruct (cp_options _ _ _ C) as (O1 & O2 & O3 & O4).
  assert (∀ v, oget (nodes_ s0) v = if leaf g v then oget (nodes_ g) v else None) as Hn0.
  { intros v. rewrite (cp_nodes _ _ _ C). destruct (oget (nodes_ g) v) as [o|] eqn:Hv.
    - rewrite decide_True by (apply elem_of_nodes; by exists o). unfold node. by rewrite Hv.
    - rewrite decide_False; [by destruct (leaf g v)|]. rewrite elem_of_nodes. unfold isNode. rewrite Hv. by intros [? [=]]. }
  assert (edges s0 = []) as Hnil by (unfold edges; by rewrite (proj1 (cp_edges _ _ _ C))).
  assert (digraph s0) as Hdg0 by (split; [apply C|done|]; rewrite Hnil; by intros x ?%elem_of_nil).
  match goal with |- context [res_fold ?f ?s1 ?l] => destruct (res_fold_inv f (λ done s, digraph s ∧
    (isMultigraph s = isMultigraph g ∧ isCompound s = false ∧ Graphlib.graph s = Graphlib.graph g) ∧
    (∀ v, oget (nodes_ s) v = if leaf g v then oget (nodes_ g) v else None) ∧
    ∀ x, elookup s x = if decide (x ∈ done) then elookup g x else None) l s1) as (s & -> & H1 & H2 & H3 & H4) end.
  - split_and!; [done..|]. intros x. rewrite decide_False by apply not_elem_of_nil. apply elookup_None; [apply C|]. rewrite Hnil. apply not_elem_of_nil.
  - intros done x rest s Heq (D & (M & Cm & G) & Hn & Hl). assert (x ∈ edges g) as Hx by (rewrite Heq; set_solver).
    unfold setEdgeObj. destruct (setEdge_view_ok s x (Some (edgeOf g x)) D) as (s' & -> & P); [by apply (digraph_edge g)|right; congruence|].
    destruct (Hleaf x Hx) as [Lv Lw]. destruct (edges_nodes g x Hwf Hx) as [Nv Nw].
    destruct (sev_options _ _ _ _ P) as (_ & M' & C' & G' & _). exists s'. split; [done|]. split_and!; [apply P|congruence|congruence|unfold Graphlib.graph in *; congruence| |].
    + intros v. erewrite sev_nodes_same; [apply Hn|exact P|unfold isNode; rewrite Hn|unfold isNode; rewrite Hn]; by rewrite ?Lv, ?Lw.
    + intros y. rewrite (sev_edges _ _ _ _ P), Hl. destruct (decide (y = x)) as [->|Hne].
      * rewrite decide_True by set_solver. rewrite edgeOf_elookup by done. destruct (proj2 (elookup_Some g x Hwf) Hx) as [l ->]. done.
      * destruct (decide (y ∈ done)); [by rewrite decide_True by set_solver|]. rewrite decide_False; [done|set_solver].
  - exists s. split; [done|]. split; [done..|]. intros x. rewrite H4. case_decide as Hx; [done|].
    symmetry. by apply elookup_None.
Qed.
End Flat.
