(* ===== verification/DagreTypes.v ===== *)
(** * dagre: the labels of the layout graph

    [buildLayoutGraph] gives every node, edge and the graph itself a label object
    with the attributes below, and the passes add and remove some of them.  A field of
    type [option] is absent ([undefined]) when it is [None]; [reversed] and [nestingEdge] are
    flags that are absent when [false].  Coordinates and sizes are exact rationals,
    ranks, orders, minimum lengths and weights are integers.

    A label belongs to one node or edge, and the graphs that a pass derives from the
    layout graph share the label objects; [updNode] of [GraphView] assigns to a field of
    the shared object. *)
From S2P Require Import Prelude JsObject Graphlib.
From Stdlib Require Import QArith_base.
Local Close Scope Q_scope.

(** A coordinate that has not been assigned, or is [NaN], is [None]. *)
Record point := Point { px : option Q; py : option Q }.

Record edgeLabel := EdgeLabel {
  minlen : Z;
  weight : Z;
  ewidth : Q;
  eheight : Q;
  labeloffset : Q;
  labelpos : string;
  ex : option Q;
  ey : option Q;
  points : option (list point);
  labelRank : option Z;
  reversed : bool;
  forwardName : option string;
  nestingEdge : bool
}.

(** The attributes of clusters ([minRank] to [borderRight], the last two sparse arrays indexed by rank), of the
    dummy nodes of a long edge ([edgeLabel] and [edgeObj] in the code), of the dummies that stand for an
    edge ([e] and [label]) and of nodes with loops. *)
Record nodeMore := NodeMore {
  minRank : option Z;
  nmaxRank : option Z;
  borderTop : option string;
  borderBottom : option string;
  borderLeft : option (list (option string));
  borderRight : option (list (option string));
  origLabel : option edgeLabel;
  origObj : option edgeObj;
  ne : option edgeObj;
  nlabel : option edgeLabel;
  selfEdges : option (list (edgeObj * edgeLabel))
}.
Definition no_more : nodeMore := NodeMore None None None None None None None None None None None.

Record nodeLabel := NodeLabel {
  width : Q;
  height : Q;
  nx : option Q;
  ny : option Q;
  rank : option Z;
  order : option Z;
  dummy : option string;
  nlabelpos : option string;
  borderType : option string;
  more : nodeMore
}.

(** The attributes that the passes keep in the label of the graph. *)
Record graphMore := GraphMore {
  dummyChains : option (list string);
  gmaxRank : option Z;
  nestingRoot : option string;
  nodeRankFactor : option Z
}.
Definition no_gmore : graphMore := GraphMore None None None None.

(** The label of the graph. *)
Record graphLabel := GraphLabel {
  nodesep : Q;
  edgesep : Q;
  ranksep : Q;
  rankdir : string;
  align : option string;
  marginx : option Q;
  marginy : option Q;
  gwidth : option Q;
  gheight : option Q;
  gmore : graphMore
}.

(** Assignments to one field. *)
Definition with_dummyChains (cs : list string) (l : graphLabel) : graphLabel :=
  GraphLabel (nodesep l) (edgesep l) (ranksep l) (rankdir l) (align l) (marginx l) (marginy l) (gwidth l) (gheight l)
    (GraphMore (Some cs) (gmaxRank (gmore l)) (nestingRoot (gmore l)) (nodeRankFactor (gmore l))).
Definition with_dummy (d : string) (l : nodeLabel) : nodeLabel :=
  NodeLabel (width l) (height l) (nx l) (ny l) (rank l) (order l) (Some d) (nlabelpos l) (borderType l) (more l).
Definition with_reversed (r : bool) (name : option string) (l : edgeLabel) : edgeLabel :=
  EdgeLabel (minlen l) (weight l) (ewidth l) (eheight l) (labeloffset l) (labelpos l) (ex l) (ey l)
    (points l) (labelRank l) r name (nestingEdge l).
Definition with_rank (r : Z) (l : nodeLabel) : nodeLabel :=
  NodeLabel (width l) (height l) (nx l) (ny l) (Some r) (order l) (dummy l) (nlabelpos l) (borderType l) (more l).
Definition with_order (r : Z) (l : nodeLabel) : nodeLabel :=
  NodeLabel (width l) (height l) (nx l) (ny l) (rank l) (Some r) (dummy l) (nlabelpos l) (borderType l) (more l).
Definition with_size (w h : Q) (l : nodeLabel) : nodeLabel :=
  NodeLabel w h (nx l) (ny l) (rank l) (order l) (dummy l) (nlabelpos l) (borderType l) (more l).
Definition with_xy (x y : option Q) (l : nodeLabel) : nodeLabel :=
  NodeLabel (width l) (height l) x y (rank l) (order l) (dummy l) (nlabelpos l) (borderType l) (more l).
Definition with_esize (w h : Q) (l : edgeLabel) : edgeLabel :=
  EdgeLabel (minlen l) (weight l) w h (labeloffset l) (labelpos l) (ex l) (ey l)
    (points l) (labelRank l) (reversed l) (forwardName l) (nestingEdge l).
Definition with_exy (x y : option Q) (l : edgeLabel) : edgeLabel :=
  EdgeLabel (minlen l) (weight l) (ewidth l) (eheight l) (labeloffset l) (labelpos l) x y
    (points l) (labelRank l) (reversed l) (forwardName l) (nestingEdge l).
Definition with_points (ps : option (list point)) (l : edgeLabel) : edgeLabel :=
  EdgeLabel (minlen l) (weight l) (ewidth l) (eheight l) (labeloffset l) (labelpos l) (ex l) (ey l)
    ps (labelRank l) (reversed l) (forwardName l) (nestingEdge l).
