(* ===== verification/DagreFas.v ===== *)
(** * dagre: the feedback arc set of a depth-first search ([dfsFAS] of lib/acyclic.js)

    [dfsFAS] collects the edges that lead back to an open call of the search.  The fuel
    bounds the depth of the recursion: open calls are on distinct nodes. *)
From S2P Require Import Prelude JsObject Graphlib GraphWf GraphInv GraphQuery GraphAlg.

(** ** The feedback arc set *)

Record fas_state := FasState { fas : list edgeObj; fstack : obj bool; fvisited : obj bool }.

Section Fas.
Context {L N E : Type}.
Implicit Types (g : Graph L N E) (st : fas_state) (v w : string) (e : edgeObj).

Fixpoint fas_dfs (fuel : nat) g st v : res fas_state :=
  match fuel with
  | O => Throw (JsError "Maximum call stack size exceeded")
  | S fuel' =>
      if ohas (fvisited st) v then Ok st
      else
        let st := FasState (fas st) (oset (fstack st) v true) (oset (fvisited st) v true) in
        st <-- res_fold (λ st e,
                 if ohas (fstack st) (ew e) then Ok (FasState (fas st ++ [e]) (fstack st) (fvisited st))
                 else fas_dfs fuel' g st (ew e)) st (default [] (outEdges g v None)) ;;
        Ok (FasState (fas st) (odel (fstack st) v) (fvisited st))
  end.

Definition dfsFAS g : res (list edgeObj) :=
  st <-- res_fold (fas_dfs (S (length (nodes g))) g) (FasState [] [] []) (nodes g) ;; Ok (fas st).

(** *** The order in which calls end *)

Definition fvis st v : Prop := is_Some (oget (fvisited st) v).
Definition open st v : Prop := is_Some (oget (fstack st) v).

(** [fin] lists the nodes whose call has ended, in that order: an edge that was not
    collected leads to a node that ended earlier, a collected one comes from such a node. *)
Record fas_inv g (fin : list string) st : Prop := {
  fi_visited : ∀ v, fvis st v ↔ v ∈ fin ∨ open st v;
  fi_disjoint : ∀ v, v ∈ fin → ¬ open st v;
  fi_nodes : ∀ v, fvis st v → isNode g v;
  fi_owf : owf (fstack st);
  fi_nodup : NoDup fin;
  fi_back : ∀ e, e ∈ fas st → e ∈ edges g ∧ fvis st (ev e) ∧ fvis st (ew e) ∧ rtc (arrow g) (ew e) (ev e);
  fi_fas : NoDup (fas st);
  fi_keep : ∀ pre v post e, fin = pre ++ v :: post → e ∈ edges g → ev e = v → e ∉ fas st → ew e ∈ pre;
  fi_turn : ∀ pre v post e, fin = pre ++ v :: post → e ∈ fas st → ew e = v → ev e ≠ v → ev e ∈ pre
}.

(** The effect of calls on the nodes [vs]. *)
Record fas_step g fin st (vs : list string) fin' st' : Prop := {
  fs_inv : fas_inv g fin' st';
  fs_stack : ∀ v, oget (fstack st') v = oget (fstack st) v;
  fs_len : length (fstack st') = length (fstack st);
  fs_fin : ∃ new, fin' = fin ++ new;
  fs_fas : ∃ new, fas st' = fas st ++ new;
  fs_new : ∀ e, e ∈ fas st' → e ∉ fas st → ev e ∈ fin' ∧ ev e ∉ fin;
  fs_done : ∀ v, v ∈ vs → v ∈ fin'
}.

Lemma fas_step_refl g fin st vs : fas_inv g fin st → (∀ v, v ∈ vs → v ∈ fin) → fas_step g fin st vs fin st.
Proof. intros H Hvs. split; try done; exists []; by rewrite app_nil_r. Qed.

Lemma fas_step_app g fin st vs1 fin1 st1 vs2 fin2 st2 :
  fas_step g fin st vs1 fin1 st1 → fas_step g fin1 st1 vs2 fin2 st2 → fas_step g fin st (vs1 ++ vs2) fin2 st2.
Proof.
  intros [A1 A2 A3 [n1 A4] [f1 A5] A6 A7] [B1 B2 B3 [n2 B4] [f2 B5] B6 B7]. split; [done|..].
  - intros v. by rewrite B2, A2.
  - lia.
  - exists (n1 ++ n2). by rewrite B4, A4, app_assoc.
  - exists (f1 ++ f2). by rewrite B5, A5, app_assoc.
  - intros e He Hn. destruct (decide (e ∈ fas st1)) as [H1|H1].
    + destruct (A6 e H1 Hn). split; [rewrite B4; set_solver|done].
    + destruct (B6 e He H1) as [? Hnin]. split; [done|]. rewrite A4 in Hnin. set_solver.
  - intros v [?|?]%elem_of_app; [|by apply B7]. rewrite B4. apply elem_of_app. left. by apply A7.
Qed.

Lemma open_bound g fin st : wf g → fas_inv g fin st → length (fstack st) ≤ length (nodes g).
Proof.
  intros Hwf H. rewrite <-(length_fmap fst). apply submseteq_length, NoDup_submseteq; [apply H|].
  intros v Hv. apply elem_of_nodes, (fi_nodes _ _ _ H), (fi_visited _ _ _ H). right. by apply oget_keys.
Qed.

(** The state inside the loop of the call on [v]. *)
Definition entered st v : fas_state := FasState (fas st) (oset (fstack st) v true) (oset (fvisited st) v true).

Lemma fas_entered_inv g fin st v :
  fas_inv g fin st → isNode g v → ¬ fvis st v → fas_inv g fin (entered st v).
Proof.
  intros H Hn Hv. unfold entered. split; simpl; try apply H.
  - intros u. unfold fvis, open. simpl. rewrite !oget_oset. destruct (decide (v = u)) as [->|].
    + naive_solver.
    + apply H.
  - intros u Hu. unfold open. simpl. rewrite oget_oset. destruct (decide (v = u)) as [->|].
    + intros _. apply Hv, H. by left.
    + by apply H.
  - intros u. unfold fvis. simpl. rewrite oget_oset. destruct (decide (v = u)) as [->|]; [done|apply H].
  - apply owf_oset, H.
  - intros e He. destruct (fi_back _ _ _ H e He) as (? & ? & ? & ?). unfold fvis. simpl. rewrite !oget_oset.
    split_and!; [done| | |done]; case_decide; eauto.
Qed.

(** The loop of the call on [v], after the edges [done]. *)
Record fas_loop g fin st v (done : list edgeObj) fin1 st1 : Prop := {
  fl_inv : fas_inv g fin1 st1;
  fl_stack : ∀ u, oget (fstack st1) u = oget (fstack (entered st v)) u;
  fl_len : length (fstack st1) = length (fstack (entered st v));
  fl_fin : ∃ new, fin1 = fin ++ new;
  fl_fas : ∃ new, fas st1 = fas st ++ new;
  fl_new : ∀ e, e ∈ fas st1 → e ∉ fas st → (ev e ∈ fin1 ∧ ev e ∉ fin) ∨ (ev e = v ∧ e ∈ done);
  fl_done : ∀ e, e ∈ done → e ∈ fas st1 ∨ ew e ∈ fin1
}.

Section Call.
Context g fin st v (Hwf : wf g) (Hinv : fas_inv g fin st) (Hnode : isNode g v) (Hv : ¬ fvis st v).

Lemma fas_loop_open done fin1 st1 : fas_loop g fin st v done fin1 st1 → open st1 v ∧ v ∉ fin1.
Proof.
  intros H. assert (open st1 v) as Ho.
  { unfold open. rewrite (fl_stack _ _ _ _ _ _ _ H). simpl. rewrite oget_oset_eq. eauto. }
  split; [done|]. intros Hf. by apply (fi_disjoint _ _ _ (fl_inv _ _ _ _ _ _ _ H) v Hf).
Qed.

Lemma fas_from_v done fin1 st1 e : fas_loop g fin st v done fin1 st1 → e ∈ fas st1 → ev e = v → e ∈ done.
Proof.
  intros H He Hev. destruct (fas_loop_open _ _ _ H) as [_ Hnf].
  destruct (decide (e ∈ fas st)) as [Hold|Hnew].
  - exfalso. apply Hv. destruct (fi_back _ _ _ Hinv e Hold) as (_ & ? & _). by subst.
  - destruct (fl_new _ _ _ _ _ _ _ H e He Hnew) as [[? _]|[_ ?]]; [|done]. by subst.
Qed.

(** An edge back to an open node is collected. *)
Lemma fas_loop_push done fin1 st1 e :
  fas_loop g fin st v done fin1 st1 → e ∈ edges g → ev e = v → e ∉ done → open st1 (ew e) → rtc (arrow g) (ew e) v →
  fas_loop g fin st v (done ++ [e]) fin1 (FasState (fas st1 ++ [e]) (fstack st1) (fvisited st1)).
Proof.
  intros H He Hev Hnd Ho Hr. destruct (fas_loop_open _ _ _ H) as [Hvo Hvf].
  assert (e ∉ fas st1) as Hnf by (intros Hf; by eapply Hnd, fas_from_v).
  pose proof H as [[I1 I2 I3 I4 I5 I6 I7 I8 I9] S1 S2 S3 [nf S4] S5 S6]. split; simpl; try done.
  - split; try done.
    + intros e' [He'| ->%list_elem_of_singleton]%elem_of_app; [by apply I6|].
      split_and!; [done|apply I1; right; by rewrite Hev|apply I1; by right|by rewrite Hev].
    + apply NoDup_app. split_and!; [done| |apply NoDup_singleton]. intros e' ? ->%list_elem_of_singleton. done.
    + intros pre x post e' Hpre He' Hx Hn. eapply I8; [done..|]. simpl in Hn. set_solver.
    + intros pre x post e' Hpre He' Hx Hne. simpl in He'.
      apply elem_of_app in He' as [He'| ->%list_elem_of_singleton]; [by eapply I9|].
      exfalso. apply (I2 (ew e)); [|done]. rewrite Hpre, Hx. set_solver.
  - exists (nf ++ [e]). by rewrite S4, app_assoc.
  - intros e' [He'| ->%list_elem_of_singleton]%elem_of_app Hn; [|right; set_solver].
    destruct (S5 e' He' Hn) as [?|[? ?]]; [by left|right; set_solver].
  - intros e' [He'| ->%list_elem_of_singleton]%elem_of_app; [|left; set_solver].
    destruct (S6 e' He'); [left; set_solver|by right].
Qed.

(** Otherwise the search goes on at its head. *)
Lemma fas_loop_call done fin1 st1 e fin2 st2 :
  fas_loop g fin st v done fin1 st1 → fas_step g fin1 st1 [ew e] fin2 st2 →
  fas_loop g fin st v (done ++ [e]) fin2 st2.
Proof.
  intros [A1 A2 A3 [n1 A4] [f1 A5] A6 A7] [B1 B2 B3 [n2 B4] [f2 B5] B6 B7]. split; [done|..].
  - intros u. by rewrite B2, A2.
  - lia.
  - exists (n1 ++ n2). by rewrite B4, A4, app_assoc.
  - exists (f1 ++ f2). by rewrite B5, A5, app_assoc.
  - intros e' He Hn. destruct (decide (e' ∈ fas st1)) as [H1|H1].
    + destruct (A6 e' H1 Hn) as [[? ?]|[? ?]]; [left; split; [rewrite B4; set_solver|done]|right; set_solver].
    + destruct (B6 e' He H1) as [? Hnin]. left. split; [done|]. rewrite A4 in Hnin. set_solver.
  - intros e' [He| ->%list_elem_of_singleton]%elem_of_app.
    + destruct (A7 e' He); [left; rewrite B5; set_solver|right; rewrite B4; set_solver].
    + right. apply B7. by left.
Qed.

(** At the end of the loop the call closes. *)
Lemma fas_close es fin1 st1 :
  fas_loop g fin st v es fin1 st1 → (∀ e, e ∈ edges g → ev e = v → e ∈ es) →
  fas_step g fin st [v] (fin1 ++ [v]) (FasState (fas st1) (odel (fstack st1) v) (fvisited st1)).
Proof.
  intros H Hes. destruct (fas_loop_open _ _ _ H) as [Hvo Hvf].
  assert (∀ e, e ∈ fas st1 → ew e = v → ev e ≠ v → ev e ∈ fin1) as Hturn.
  { intros e He Hw Hne. destruct (fl_new _ _ _ _ _ _ _ H e He) as [[? _]|[? _]]; [|done..].
    intros Hold. apply Hv. destruct (fi_back _ _ _ Hinv e Hold) as (_ & _ & ? & _). by subst. }
  pose proof H as [[I1 I2 I3 I4 I5 I6 I7 I8 I9] S1 S2 [nw S3] S4 S5 S6]. split; simpl; try done.
  - split; try done.
    + intros u. etrans; [apply (I1 u)|]. unfold open. simpl. rewrite oget_odel.
      destruct (decide (v = u)) as [->|]; [set_solver|]. rewrite elem_of_app, list_elem_of_singleton. naive_solver.
    + intros u Hu. unfold open. simpl. rewrite oget_odel. destruct (decide (v = u)) as [->|]; [by intros [??]|].
      apply I2. set_solver.
    + by apply owf_odel.
    + apply NoDup_app. split_and!; [done| |apply NoDup_singleton]. intros u ? ->%list_elem_of_singleton. done.
    + intros pre x post e Heq He Hx Hn. simpl in Hn. destruct (decide (post = [])) as [->|Hp].
      * apply app_inj_tail in Heq as [-> ->]. destruct (S6 e) as [?|?]; [by apply Hes|done|done].
      * destruct (exists_last Hp) as (post' & z & ->). rewrite app_comm_cons, app_assoc in Heq.
        apply app_inj_tail in Heq as [-> ->]. by eapply I8.
    + intros pre x post e Heq He Hx Hn. simpl in He. destruct (decide (post = [])) as [->|Hp].
      * apply app_inj_tail in Heq as [-> ->]. by apply Hturn.
      * destruct (exists_last Hp) as (post' & z & ->). rewrite app_comm_cons, app_assoc in Heq.
        apply app_inj_tail in Heq as [-> ->]. by eapply I9.
  - intros u. rewrite oget_odel, S1. simpl. rewrite oget_oset. case_decide; [subst u|done].
    symmetry. rewrite eq_None_not_Some. intros ?. apply Hv, Hinv. by right.
  - destruct Hvo as [b Hb]. pose proof (length_odel _ _ _ I4 Hb) as Hl. rewrite S2 in Hl. simpl in Hl.
    rewrite length_oset_None in Hl; [lia|]. rewrite eq_None_not_Some. intros ?. apply Hv, Hinv. by right.
  - exists (nw ++ [v]). by rewrite S3, app_assoc.
  - intros e He Hn. destruct (S5 e He Hn) as [[? ?]|[-> _]]; [set_solver|].
    split; [set_solver|]. intros ?. apply Hv, Hinv. by left.
  - set_solver.
Qed.
End Call.

Lemma fas_dfs_spec fuel g fin st v :
  wf g → fas_inv g fin st → isNode g v → ¬ open st v → (∀ u, open st u → rtc (arrow g) u v) →
  length (nodes g) < fuel + length (fstack st) →
  ∃ fin' st', fas_dfs fuel g st v = Ok st' ∧ fas_step g fin st [v] fin' st'.
Proof.
  intros Hwf. revert fin st v. induction fuel as [|fuel IH]; intros fin st v Hinv Hn Hno Hpath Hf; cbn [fas_dfs].
  { pose proof (open_bound g fin st Hwf Hinv). simpl in *. lia. }
  destruct (ohas (fvisited st) v) eqn:Hv.
  { apply ohas_true in Hv. exists fin, st. split; [done|]. apply fas_step_refl; [done|].
    intros u ->%list_elem_of_singleton. apply (fi_visited _ _ _ Hinv) in Hv as [?|?]; done. }
  assert (¬ fvis st v) as Hnv by (unfold fvis; by rewrite <-ohas_true, Hv).
  cbn zeta. fold (entered st v). destruct (outEdges_spec g v Hwf Hn) as (es & -> & Hnd & Hes). change (default [] (Some es)) with es.
  destruct (res_fold_inv (λ st e,
       if ohas (fstack st) (ew e) then Ok (FasState (fas st ++ [e]) (fstack st) (fvisited st))
       else fas_dfs fuel g st (ew e)) (λ done st1, ∃ fin1, fas_loop g fin st v done fin1 st1) es (entered st v))
    as (st1 & -> & fin1 & Hst1).
  - exists fin. split; simpl; try done; [by apply fas_entered_inv|by exists []; rewrite app_nil_r..|].
    by intros e ?%elem_of_nil.
  - intros done e rest st1 Heq (fin1 & Hl). assert (e ∈ edges g ∧ ev e = v) as [He Hev] by (apply Hes; rewrite Heq; set_solver).
    assert (∀ u, open st1 u → rtc (arrow g) u v) as Hpath1.
    { intros u. unfold open. rewrite (fl_stack _ _ _ _ _ _ _ Hl). simpl. rewrite oget_oset.
      case_decide as Hu; [by subst|apply Hpath]. }
    destruct (ohas (fstack st1) (ew e)) eqn:Ho.
    + apply ohas_true in Ho. eexists. split; [done|]. exists fin1. apply fas_loop_push; auto.
      rewrite Heq in Hnd. apply NoDup_app in Hnd as (_ & Hnd & _). intros ?. apply (Hnd e); set_solver.
    + assert (¬ open st1 (ew e)) as Hno1 by (unfold open; by rewrite <-ohas_true, Ho).
      destruct (IH fin1 st1 (ew e)) as (fin2 & st2 & Hr & Hs).
      * apply Hl.
      * by apply (edges_nodes g e Hwf).
      * done.
      * intros u Hu. eapply rtc_r; [by apply Hpath1|]. by exists e.
      * rewrite (fl_len _ _ _ _ _ _ _ Hl). simpl. rewrite length_oset_None; [lia|]. by apply eq_None_not_Some.
      * exists st2. split; [done|]. exists fin2. by eapply fas_loop_call.
  - cbn [res_bind]. eexists (fin1 ++ [v]), _. split; [done|]. eapply fas_close; [done..|]. intros e ??. by apply Hes.
Qed.

(** The whole search: all nodes have ended, and the collected edges are on cycles. *)
Lemma dfsFAS_spec g :
  wf g → ∃ l fin, dfsFAS g = Ok l ∧ NoDup l ∧ NoDup fin ∧ (∀ v, v ∈ fin ↔ isNode g v) ∧
    (∀ e, e ∈ l → e ∈ edges g ∧ rtc (arrow g) (ew e) (ev e)) ∧
    (∀ pre v post e, fin = pre ++ v :: post → e ∈ edges g → ev e = v → e ∉ l → ew e ∈ pre) ∧
    (∀ pre v post e, fin = pre ++ v :: post → e ∈ l → ew e = v → ev e ≠ v → ev e ∈ pre).
Proof.
  intros Hwf. assert (fas_inv g [] (FasState [] [] [])) as H0.
  { split; unfold fvis, open; simpl; try (by constructor); try (by intros [|??]); try (by intros ?? ?%elem_of_nil).
    - intros v. split; [by intros [??]|]. by intros [?%elem_of_nil|?].
    - by intros e ?%elem_of_nil. }
  destruct (res_fold_inv (fas_dfs (S (length (nodes g))) g)
    (λ done st, ∃ fin, fas_step g [] (FasState [] [] []) done fin st) (nodes g) (FasState [] [] []))
    as (st & Hr & fin & Hst).
  - exists []. apply fas_step_refl; [done|]. by intros v ?%elem_of_nil.
  - intros done v rest st Heq (fin & Hst). assert (∀ u, ¬ open st u) as Hopen.
    { intros u. unfold open. rewrite (fs_stack _ _ _ _ _ _ Hst). simpl. by intros [??]. }
    destruct (fas_dfs_spec (S (length (nodes g))) g fin st v) as (fin' & st' & Hc & Hs);
      [done|apply Hst|apply elem_of_nodes; rewrite Heq; set_solver|done|naive_solver|lia|].
    exists st'. split; [done|]. exists fin'. by eapply fas_step_app.
  - exists (fas st), fin. unfold dfsFAS. rewrite Hr. pose proof (fs_inv _ _ _ _ _ _ Hst) as Hinv.
    split_and!; [done|apply Hinv..| | | |].
    + intros v. split.
      * intros Hv. apply (fi_nodes _ _ _ Hinv), (fi_visited _ _ _ Hinv). by left.
      * intros Hv. apply (fs_done _ _ _ _ _ _ Hst). by apply elem_of_nodes.
    + intros e He. destruct (fi_back _ _ _ Hinv e He) as (? & _ & _ & ?). done.
    + apply Hinv.
    + apply Hinv.
Qed.

(** ** Feedback arc sets

    [l] is a feedback arc set with witness [fin]: in that list every other edge leads
    backwards and every edge of [l] leads forwards, so turning [l] around leaves no cycle. *)
Record fas_order g (l : list edgeObj) (fin : list string) : Prop := {
  fo_nodup : NoDup fin;
  fo_fas : NoDup l ∧ ∀ e, e ∈ l → e ∈ edges g;
  fo_kept : ∀ e, e ∈ edges g → e ∉ l → before fin (ew e) (ev e);
  fo_turned : ∀ e, e ∈ l → before fin (ev e) (ew e)
}.

Lemma dfsFAS_order g :
  wf g → (∀ x, x ∈ edges g → ev x ≠ ew x) →
  ∃ l fin, dfsFAS g = Ok l ∧ fas_order g l fin ∧ ∀ e, e ∈ l → rtc (arrow g) (ew e) (ev e).
Proof.
  intros Hwf Hself. destruct (dfsFAS_spec g Hwf) as (l & fin & Hr & Hndl & Hnd & Hfin & Hl & Hkeep & Hturn).
  exists l, fin. split_and!; [done| |by intros e [_ ?]%Hl]. split; [done| | |].
  - split; [done|]. by intros e [? _]%Hl.
  - intros e He Hel. destruct (edges_nodes g e Hwf He) as [Hv%Hfin _].
    apply list_elem_of_split in Hv as (pre & post & Heq). rewrite Heq at 1. apply before_split. by eapply Hkeep.
  - intros e Hel. destruct (Hl e Hel) as [He _]. destruct (edges_nodes g e Hwf He) as [_ Hw%Hfin].
    apply list_elem_of_split in Hw as (pre & post & Heq). rewrite Heq at 1. apply before_split.
    by eapply Hturn; [..|apply Hself].
Qed.
End Fas.
