(* ===== verification/DagreList.v ===== *)
(** * dagre: the doubly linked list (lib/data/list.js inside dagre.min.js)

    A list is a ring of [_next] and [_prev] links through a sentinel.  Entries are
    the label objects of nodes, identified by the node; an entry carries its own links, so
    enqueuing it takes it out of the list it is in.  The store maps each object to its
    two link properties.  [buckets_ops] and [buckets_laws] state what an array of such lists
    promises: first-in first-out queues that share their entries. *)
From S2P Require Import Prelude.

(** ** Objects and links *)

Inductive loc := Sentinel (i : nat) | Entry (v : string).

#[export] Instance loc_eq_dec : EqDecision loc.
Proof. solve_decision. Defined.
#[export] Instance loc_countable : Countable loc.
Proof.
  refine (inj_countable' (λ l, match l with Sentinel i => inl i | Entry v => inr v end)
    (λ x, match x with inl i => Sentinel i | inr v => Entry v end) _); by intros [].
Defined.

Record links := Links { next_ : option loc; prev_ : option loc }.
Notation store := (gmap loc links).

Implicit Types (h : store) (a b : loc) (v : string).

Definition next h a : option loc := h !! a ≫= next_.
Definition prev h a : option loc := h !! a ≫= prev_.
Definition set_next h a (x : option loc) : store := <[a := Links x (prev h a)]> h.
Definition set_prev h a (x : option loc) : store := <[a := Links (next h a) x]> h.

(** ** Operations *)

(** [new List]: [sentinel._next = sentinel._prev = sentinel]. *)
Definition newList h (i : nat) : store := <[Sentinel i := Links (Some (Sentinel i)) (Some (Sentinel i))]> h.

Definition unlink h (entry : loc) : res store :=
  p <-- of_option (prev h entry) ;;
  let h := set_next h p (next h entry) in
  n <-- of_option (next h entry) ;;
  let h := set_prev h n (prev h entry) in
  Ok (set_prev (set_next h entry None) entry None).

(** [undefined] when the list is empty. *)
Definition dequeue h (i : nat) : res (option loc * store) :=
  entry <-- of_option (prev h (Sentinel i)) ;;
  if decide (entry = Sentinel i) then Ok (None, h)
  else h <-- unlink h entry ;; Ok (Some entry, h).

Definition enqueue h (i : nat) (entry : loc) : res store :=
  let sentinel := Sentinel i in
  h <-- (if bool_decide (is_Some (prev h entry)) && bool_decide (is_Some (next h entry))
         then unlink h entry else Ok h) ;;
  let h := set_next h entry (next h sentinel) in
  n <-- of_option (next h sentinel) ;;
  let h := set_prev h n (Some entry) in
  let h := set_next h sentinel (Some entry) in
  Ok (set_prev h entry (Some sentinel)).

Lemma next_set_next h a x b : next (set_next h a x) b = if decide (a = b) then x else next h b.
Proof. unfold next, set_next. rewrite lookup_insert. by case_decide. Qed.
Lemma prev_set_next h a x b : prev (set_next h a x) b = prev h b.
Proof. unfold prev at 1. unfold set_next. rewrite lookup_insert. case_decide; [by subst|done]. Qed.
Lemma next_set_prev h a x b : next (set_prev h a x) b = next h b.
Proof. unfold next at 1. unfold set_prev. rewrite lookup_insert. case_decide; [by subst|done]. Qed.
Lemma prev_set_prev h a x b : prev (set_prev h a x) b = if decide (a = b) then x else prev h b.
Proof. unfold prev, set_prev. rewrite lookup_insert. by case_decide. Qed.

Create HintDb links.
#[export] Hint Rewrite next_set_next prev_set_next next_set_prev prev_set_prev : links.

(** Reads after writes at objects known to differ. *)
Ltac links_simpl :=
  autorewrite with links;
  repeat first [rewrite (decide_True (P := ?[a] = _)) by done | rewrite decide_False by (done || congruence || set_solver)].

(** ** Chains of links *)

Fixpoint chain h (ls : list loc) : Prop :=
  match ls with
  | a :: ((b :: _) as rest) => next h a = Some b ∧ prev h b = Some a ∧ chain h rest
  | _ => True
  end.

Lemma chain_app h l1 a l2 : chain h (l1 ++ a :: l2) ↔ chain h (l1 ++ [a]) ∧ chain h (a :: l2).
Proof.
  induction l1 as [|b [|c l1] IH]; simpl; [by destruct l2; naive_solver|by destruct l2; naive_solver|].
  simpl in IH. naive_solver.
Qed.

(** A chain only depends on the links inside it. *)
Lemma chain_ext h h' l1 a :
  (∀ x, x ∈ l1 → next h' x = next h x) → (∀ x, x ∈ tail (l1 ++ [a]) → prev h' x = prev h x) →
  chain h (l1 ++ [a]) → chain h' (l1 ++ [a]).
Proof.
  induction l1 as [|b [|c l1] IH]; simpl; [done| |]; intros Hn Hp.
  - intros (? & ? & _). rewrite Hn, Hp by set_solver. done.
  - intros (? & ? & Hc). rewrite Hn, Hp by set_solver. split_and!; [done..|].
    apply IH; [set_solver| |done]. intros x Hx. apply Hp. simpl. set_solver.
Qed.

(** The ring of a list: the sentinel, the entries from [_next] on, and the sentinel again. *)
Definition ring h (s : loc) (ls : list loc) : Prop := chain h (s :: ls ++ [s]).

Lemma ring_ext h h' s ls :
  (∀ x, x ∈ s :: ls → next h' x = next h x ∧ prev h' x = prev h x) → ring h s ls → ring h' s ls.
Proof.
  intros Hx. unfold ring. rewrite app_comm_cons. apply chain_ext; simpl; [naive_solver|].
  intros x Hin. apply Hx. set_solver.
Qed.

(** Taking an entry out of a ring closes the gap and clears its links. *)
Lemma unlink_ring h s l1 e l2 :
  NoDup (s :: l1 ++ e :: l2) → ring h s (l1 ++ e :: l2) →
  ∃ h', unlink h e = Ok h' ∧ ring h' s (l1 ++ l2) ∧ next h' e = None ∧ prev h' e = None ∧
    (∀ x, x ∉ s :: l1 ++ e :: l2 → next h' x = next h x ∧ prev h' x = prev h x).
Proof.
  intros Hnd Hr. destruct (exists_last (l := s :: l1)) as (A & p & HA); [done|].
  destruct (l2 ++ [s]) as [|n B] eqn:HB; [by destruct l2|].
  assert (s :: (l1 ++ e :: l2) ++ [s] = A ++ p :: e :: n :: B) as Heq.
  { trans ((s :: l1) ++ e :: (l2 ++ [s])); [by simpl; rewrite <-app_assoc|]. by rewrite HA, HB, <-app_assoc. }
  assert (s :: (l1 ++ l2) ++ [s] = A ++ p :: n :: B) as Heq'.
  { trans ((s :: l1) ++ (l2 ++ [s])); [by simpl; rewrite <-app_assoc|]. by rewrite HA, HB, <-app_assoc. }
  unfold ring in Hr. rewrite Heq, chain_app in Hr. destruct Hr as [HcA (Hpe & Hep & Hen & Hne & HcB)].
  assert (p ∈ s :: l1 ∧ (∀ x, x ∈ A → x ∈ s :: l1) ∧ p ∉ A) as (Hp & HAs & HpA).
  { rewrite HA. split_and!; [set_solver..|]. intros ?.
    rewrite app_comm_cons, HA in Hnd. apply NoDup_app in Hnd as (Hnd & _). apply NoDup_app in Hnd. set_solver. }
  assert (e ≠ s ∧ e ∉ l1 ∧ e ∉ l2 ∧ s ∉ l1 ∧ s ∉ l2 ∧ (∀ x, x ∈ l1 → x ∉ l2) ∧ NoDup l2) as (Hes & He1 & He2 & Hs1 & Hs2 & Hd & Hn2).
  { apply NoDup_cons in Hnd as [Hs Hnd]. apply NoDup_app in Hnd as (_ & Hx & Hnd). apply NoDup_cons in Hnd as [? ?]. set_solver. }
  assert (n ∈ l2 ++ [s] ∧ n ∉ B) as [Hn HnB].
  { split; [rewrite HB; set_solver|]. assert (NoDup (l2 ++ [s])) as Hnd2 by (apply NoDup_app; split_and!; [done|set_solver|apply NoDup_singleton]).
    rewrite HB in Hnd2. by apply NoDup_cons in Hnd2 as [? _]. }
  assert (p ≠ e) by set_solver. assert (n ≠ e) by set_solver.
  eexists. split.
  { unfold unlink. rewrite Hep. simpl. autorewrite with links. rewrite decide_False, Hen by done. simpl. done. }
  split_and!.
  - unfold ring. rewrite Heq'. apply chain_app. split.
    + eapply chain_ext; [..|exact HcA].
      * intros x Hx. autorewrite with links. rewrite !decide_False; [done|set_solver..].
      * intros x Hx. assert (x ∈ l1) as Hx1.
        { rewrite <-HA in Hx. done. }
        autorewrite with links. rewrite !decide_False; [done|set_solver..].
    + apply (chain_app _ [p] n B). split.
      * simpl. links_simpl. by rewrite Hep.
      * assert (∃ B' z, n :: B = B' ++ [z] ∧ ∀ x, x ∈ B' → x ∈ l2) as (B' & z & HB' & Hin).
        { exists l2, s. split; [done|done]. }
        rewrite HB' in HcB |- *. eapply chain_ext; [..|exact HcB].
        -- intros x Hx%Hin. autorewrite with links. rewrite !decide_False; [done|set_solver..].
        -- rewrite <-HB'. simpl. intros x Hx. assert (x ∈ l2 ++ [s]) by (rewrite HB; set_solver).
           autorewrite with links. rewrite !decide_False; [done|set_solver..].
  - autorewrite with links. by rewrite decide_True.
  - autorewrite with links. by rewrite decide_True.
  - intros x Hx. assert (n ∈ s :: l1 ++ e :: l2) by set_solver. autorewrite with links. rewrite !decide_False; [done|set_solver..].
Qed.

(** Putting a free entry behind the sentinel. *)
Lemma push_ring h s e ls :
  NoDup (s :: ls) → e ≠ s → e ∉ ls → ring h s ls →
  ∃ n, next h s = Some n ∧
    let h' := set_prev (set_next (set_prev (set_next h e (next h s)) n (Some e)) s (Some e)) e (Some s) in
    ring h' s (e :: ls) ∧ (∀ x, x ∉ s :: e :: ls → next h' x = next h x ∧ prev h' x = prev h x).
Proof.
  intros Hnd Hes Hel Hr. destruct (ls ++ [s]) as [|n B] eqn:HB; [by destruct ls|].
  unfold ring in Hr. rewrite HB in Hr. destruct Hr as (Hn & Hns & Hc). exists n. split; [done|].
  assert (n ∈ ls ++ [s]) as Hnin by (rewrite HB; set_solver). assert (n ≠ e) by set_solver.
  apply NoDup_cons in Hnd as [Hs Hnd].
  assert (n ∉ B) as HnB.
  { assert (NoDup (ls ++ [s])) as Hnd2 by (apply NoDup_app; split_and!; [done|set_solver|apply NoDup_singleton]).
    rewrite HB in Hnd2. by apply NoDup_cons in Hnd2 as [? _]. }
  split.
  - unfold ring. change (chain ?h (s :: (e :: ls) ++ [s])) with (chain h (s :: e :: ls ++ [s])). rewrite HB.
    apply (chain_app _ [s] e (n :: B)). split; [simpl; links_simpl; done|].
    apply (chain_app _ [e] n B). split; [simpl; links_simpl; by rewrite Hn|].
    rewrite <-HB in Hc |- *. eapply chain_ext; [..|exact Hc].
    + intros x Hx. links_simpl. done.
    + rewrite HB. simpl. intros x Hx. assert (x ∈ ls ++ [s]) by (rewrite HB; set_solver). links_simpl. done.
  - intros x Hx. links_simpl. done.
Qed.

(** ** An array of lists *)

(** [qs] lists, for every bucket, its entries from the newest to the oldest. *)
Record rep h (qs : list (list string)) : Prop := {
  rep_ring : ∀ i q, qs !! i = Some q → ring h (Sentinel i) (Entry <$> q);
  rep_nodup : NoDup (concat qs);
  rep_free : ∀ v, v ∉ concat qs → next h (Entry v) = None ∧ prev h (Entry v) = None;
  rep_range : ∀ i, length qs ≤ i → next h (Sentinel i) = None ∧ prev h (Sentinel i) = None
}.

(** The queues that the lists implement. *)
Definition q_remove (qs : list (list string)) v : list (list string) := filter (λ u, u ≠ v) <$> qs.
Definition q_enqueue (qs : list (list string)) (i : nat) v : list (list string) :=
  <[i := v :: default [] (q_remove qs v !! i)]> (q_remove qs v).

(** [_.range(n).map(function(){return new List})]. *)
Definition newLists (n : nat) : store := foldl newList ∅ (seq 0 n).

Lemma lookup_newLists n l :
  newLists n !! l = match l with
                    | Sentinel i => if decide (i < n) then Some (Links (Some l) (Some l)) else None
                    | Entry _ => None
                    end.
Proof.
  unfold newLists. induction n as [|n IH]; [by destruct l|].
  rewrite seq_S, foldl_app. simpl. unfold newList at 1. rewrite lookup_insert, IH. destruct l as [i|v]; [|done].
  destruct (decide (Sentinel n = Sentinel i)) as [[= ->]|Hn].
  - by rewrite decide_True by lia.
  - assert (n ≠ i) by congruence. repeat case_decide; done || lia.
Qed.

Lemma concat_replicate_nil {A} n : concat (replicate n ([] : list A)) = [].
Proof. induction n; simpl; done. Qed.

Lemma newLists_rep n : rep (newLists n) (replicate n []).
Proof.
  split.
  - intros i q [-> Hi]%lookup_replicate. unfold ring. simpl. unfold next, prev. rewrite lookup_newLists, decide_True by done. done.
  - rewrite concat_replicate_nil. constructor.
  - intros v _. unfold next, prev. by rewrite lookup_newLists.
  - intros i Hi. rewrite length_replicate in Hi. unfold next, prev. rewrite lookup_newLists, decide_False by lia. done.
Qed.

Lemma rep_disjoint h qs i j q q' v :
  rep h qs → qs !! i = Some q → qs !! j = Some q' → v ∈ q → v ∈ q' → i = j.
Proof.
  intros H Hi Hj Hv Hv'. pose proof (rep_nodup _ _ H) as Hnd. clear H. revert i j Hi Hj.
  induction qs as [|q0 qs IH]; intros [|i] [|j] Hi Hj; simpl in *; try done; simplify_eq.
  - apply NoDup_app in Hnd as (_ & Hnd & _). exfalso. apply (Hnd v Hv). apply elem_of_concat. eauto using list_elem_of_lookup_2.
  - apply NoDup_app in Hnd as (_ & Hnd & _). exfalso. apply (Hnd v Hv'). apply elem_of_concat. eauto using list_elem_of_lookup_2.
  - f_equal. apply IH; [|done..]. by apply NoDup_app in Hnd as (_ & _ & ?).
Qed.

Lemma NoDup_ring h qs i q : rep h qs → qs !! i = Some q → NoDup (Sentinel i :: (Entry <$> q)).
Proof.
  intros H Hi. apply NoDup_cons. split; [by intros (? & ? & ?)%list_elem_of_fmap|].
  apply NoDup_fmap_2; [by intros ?? [= ->]|]. pose proof (rep_nodup _ _ H) as Hnd. clear H. revert i Hi.
  induction qs as [|q0 qs IH]; intros [|i] Hi; simpl in *; simplify_eq; apply NoDup_app in Hnd as (? & ? & ?); eauto.
Qed.

(** A store that changed only inside one ring still represents the other lists. *)
Lemma other_ring h h' qs i j q q' :
  rep h qs → qs !! i = Some q → qs !! j = Some q' → j ≠ i →
  (∀ x, x ∉ Sentinel i :: (Entry <$> q) → next h' x = next h x ∧ prev h' x = prev h x) →
  ring h' (Sentinel j) (Entry <$> q').
Proof.
  intros H Hi Hj Hji Hx. eapply ring_ext; [|by apply (rep_ring _ _ H)].
  intros x Hin. apply Hx. intros [->|(v & -> & Hv)%list_elem_of_fmap]%elem_of_cons.
  - apply elem_of_cons in Hin as [?|(? & ? & ?)%list_elem_of_fmap]; congruence.
  - apply elem_of_cons in Hin as [?|(v' & [= <-] & Hv')%list_elem_of_fmap]; [congruence|].
    apply Hji. symmetry. by eapply (rep_disjoint h qs i j).
Qed.

Lemma concat_alter {A} (qs : list (list A)) i q q' :
  qs !! i = Some q → ∃ l1 l2, concat qs = l1 ++ q ++ l2 ∧ concat (<[i := q']> qs) = l1 ++ q' ++ l2.
Proof.
  intros Hi. exists (concat (take i qs)), (concat (drop (S i) qs)). split.
  - rewrite <-(take_drop_middle qs i q Hi) at 1. by rewrite concat_app.
  - pose proof (lookup_lt_Some _ _ _ Hi). rewrite insert_take_drop by done. by rewrite concat_app.
Qed.

(** Taking an entry out of its list. *)
Lemma unlink_rep h qs i l1 v l2 :
  rep h qs → qs !! i = Some (l1 ++ v :: l2) →
  ∃ h', unlink h (Entry v) = Ok h' ∧ rep h' (<[i := l1 ++ l2]> qs).
Proof.
  intros H Hi. pose proof (rep_ring _ _ H i _ Hi) as Hr. pose proof (NoDup_ring _ _ _ _ H Hi) as Hnd.
  rewrite fmap_app, fmap_cons in Hr, Hnd.
  destruct (unlink_ring h _ _ _ _ Hnd Hr) as (h' & Hu & Hr' & Hn & Hp & Hx). exists h'. split; [done|].
  change (Entry v :: (Entry <$> l2)) with (Entry <$> (v :: l2)) in Hx. rewrite <-fmap_app in Hx, Hr'.
  destruct (concat_alter qs i _ (l1 ++ l2) Hi) as (c1 & c2 & Hc & Hc').
  assert (concat qs ≡ₚ v :: concat (<[i := l1 ++ l2]> qs)) as Hperm by (rewrite Hc, Hc'; solve_Permutation).
  split.
  - intros j q. destruct (decide (j = i)) as [->|Hj].
    + rewrite list_lookup_insert_eq by (by eapply lookup_lt_Some). intros [= <-]. done.
    + rewrite list_lookup_insert_ne by done. intros Hq. by eapply (other_ring h h' qs i j).
  - pose proof (rep_nodup _ _ H) as Hnd'. rewrite Hperm in Hnd'. by apply NoDup_cons in Hnd' as [_ ?].
  - intros u Hu'. destruct (decide (u = v)) as [->|Huv]; [done|].
    assert (u ∉ concat qs) as Hnin by (rewrite Hperm; set_solver).
    destruct (Hx (Entry u)) as [-> ->]; [|by apply (rep_free _ _ H)].
    intros [?|(? & [= <-] & ?)%list_elem_of_fmap]%elem_of_cons; [done|]. apply Hnin. rewrite Hc. set_solver.
  - intros j Hj. rewrite length_insert in Hj. pose proof (lookup_lt_Some _ _ _ Hi).
    destruct (Hx (Sentinel j)) as [-> ->]; [|by apply (rep_range _ _ H)].
    intros [[= ->]|(? & ? & ?)%list_elem_of_fmap]%elem_of_cons; [lia|done].
Qed.

(** [dequeue] takes the oldest entry. *)
Lemma dequeue_rep h qs i q :
  rep h qs → qs !! i = Some q →
  ∃ h', dequeue h i = Ok (Entry <$> last q, h') ∧ rep h' (<[i := take (length q - 1) q]> qs).
Proof.
  intros H Hi. pose proof (rep_ring _ _ H i _ Hi) as Hr. unfold dequeue.
  destruct q as [|v l1 _] using rev_ind.
  - destruct Hr as (_ & Hp & _). rewrite Hp. simpl. exists h. rewrite decide_True by done. split; [done|].
    by rewrite list_insert_id.
  - rewrite fmap_app in Hr. unfold ring in Hr. rewrite <-app_assoc, app_comm_cons in Hr. simpl in Hr.
    apply (chain_app _ (Sentinel i :: (Entry <$> l1)) (Entry v) [Sentinel i]) in Hr as [_ (_ & Hp & _)]. rewrite Hp. simpl.
    destruct (unlink_rep h qs i l1 v [] H Hi) as (h' & -> & Hrep). exists h'. simpl.
    rewrite last_snoc, length_app. simpl. rewrite Nat.add_sub, take_app_length. split; [done|].
    by rewrite app_nil_r in Hrep.
Qed.

Lemma filter_notin (l : list string) v : v ∉ l → filter (λ u, u ≠ v) l = l.
Proof.
  induction l as [|u l IH]; [done|]. intros Hv. rewrite filter_cons, decide_True by set_solver. f_equal. apply IH. set_solver.
Qed.

Lemma q_remove_notin qs v : v ∉ concat qs → q_remove qs v = qs.
Proof.
  intros Hv. unfold q_remove. induction qs as [|q qs IH]; [done|]. simpl in Hv. rewrite fmap_cons.
  f_equal; [apply filter_notin|apply IH]; set_solver.
Qed.

Lemma q_remove_at h qs i l1 v l2 :
  rep h qs → qs !! i = Some (l1 ++ v :: l2) → q_remove qs v = <[i := l1 ++ l2]> qs.
Proof.
  intros H Hi. apply list_eq. intros j. unfold q_remove. rewrite list_lookup_fmap.
  assert (v ∉ l1 ∧ v ∉ l2) as [H1 H2].
  { pose proof (NoDup_ring _ _ _ _ H Hi) as Hnd. apply NoDup_cons in Hnd as [_ Hnd]. apply NoDup_fmap_1 in Hnd.
    apply NoDup_app in Hnd as (_ & Hx & Hnd). apply NoDup_cons in Hnd as [? _]. set_solver. }
  destruct (decide (j = i)) as [->|Hj].
  - rewrite list_lookup_insert_eq, Hi by (by eapply lookup_lt_Some). simpl. f_equal.
    rewrite filter_app, filter_cons, decide_False by naive_solver. by rewrite !filter_notin.
  - rewrite list_lookup_insert_ne by done. destruct (qs !! j) as [q|] eqn:Hq; [|done]. simpl. f_equal.
    apply filter_notin. intros Hv. apply Hj. eapply (rep_disjoint h qs j i); [done..|]. set_solver.
Qed.

(** The first step of [enqueue]. *)
Lemma detach_rep h qs v :
  rep h qs →
  ∃ h', (if bool_decide (is_Some (prev h (Entry v))) && bool_decide (is_Some (next h (Entry v)))
         then unlink h (Entry v) else Ok h) = Ok h' ∧ rep h' (q_remove qs v) ∧ v ∉ concat (q_remove qs v).
Proof.
  intros H. assert (v ∉ concat (q_remove qs v)) as Hv.
  { unfold q_remove. intros (l & Hl & (q & -> & _)%list_elem_of_fmap)%elem_of_concat.
    apply list_elem_of_filter in Hl as [? _]. done. }
  destruct (decide (v ∈ concat qs)) as [(q & Hvq & [i Hi]%list_elem_of_lookup)%elem_of_concat|Hn].
  - apply list_elem_of_split in Hvq as (l1 & l2 & ->).
    assert (is_Some (prev h (Entry v)) ∧ is_Some (next h (Entry v))) as [Hp Hnx].
    { pose proof (rep_ring _ _ H i _ Hi) as Hr. rewrite fmap_app, fmap_cons in Hr. unfold ring in Hr.
      destruct (exists_last (l := Sentinel i :: (Entry <$> l1))) as (A & p & HA); [done|].
      destruct ((Entry <$> l2) ++ [Sentinel i]) as [|n B] eqn:HB; [by destruct (Entry <$> l2)|].
      rewrite <-app_assoc, app_comm_cons, HA in Hr. simpl in Hr. rewrite HB, <-app_assoc in Hr.
      simpl in Hr. apply chain_app in Hr as [_ (_ & Hp & Hn & _)]. eauto. }
    rewrite !bool_decide_true by done. simpl. rewrite (q_remove_at h qs i l1 v l2) in * by done.
    destruct (unlink_rep h qs i l1 v l2 H Hi) as (h' & -> & ?). eauto.
  - destruct (rep_free _ _ H v Hn) as [_ Hp]. rewrite Hp. simpl. rewrite q_remove_notin in * by done. eauto.
Qed.

(** [enqueue] moves the entry to the front of the list, whichever list held it. *)
Lemma enqueue_rep h qs i v :
  rep h qs → i < length qs → ∃ h', enqueue h i (Entry v) = Ok h' ∧ rep h' (q_enqueue qs i v).
Proof.
  intros H Hi. unfold enqueue. destruct (detach_rep h qs v H) as (h1 & -> & H1 & Hv). simpl. clear H.
  assert (i < length (q_remove qs v)) as Hi' by (unfold q_remove; by rewrite length_fmap).
  apply lookup_lt_is_Some in Hi' as [q Hq]. pose proof (rep_ring _ _ H1 i _ Hq) as Hr. pose proof (NoDup_ring _ _ _ _ H1 Hq) as Hnd.
  assert (v ∉ q) as Hvq by (intros ?; apply Hv, elem_of_concat; eauto using list_elem_of_lookup_2).
  destruct (push_ring h1 (Sentinel i) (Entry v) (Entry <$> q) Hnd) as (n & Hn & Hr' & Hx); [done|by intros (? & [= <-] & ?)%list_elem_of_fmap|done|].
  autorewrite with links. rewrite (decide_False (P := Entry v = Sentinel i)) by done. rewrite Hn in *. simpl. eexists. split; [done|].
  unfold q_enqueue. rewrite Hq. change (default [] (Some q)) with q.
  destruct (concat_alter (q_remove qs v) i q (v :: q) Hq) as (c1 & c2 & Hc & Hc').
  assert (concat (<[i := v :: q]> (q_remove qs v)) ≡ₚ v :: concat (q_remove qs v)) as Hperm by (rewrite Hc, Hc'; solve_Permutation).
  assert (∀ x, x ∉ Sentinel i :: (Entry <$> q) → x ≠ Entry v → x ∉ Sentinel i :: Entry v :: (Entry <$> q)) as Hout by set_solver.
  split.
  - intros j q'. destruct (decide (j = i)) as [->|Hj].
    + rewrite list_lookup_insert_eq by (by eapply lookup_lt_Some). by intros [= <-].
    + rewrite list_lookup_insert_ne by done. intros Hq'. eapply ring_ext; [|by apply (rep_ring _ _ H1)].
      intros x Hin. apply Hx, Hout.
      * intros [->|(u & -> & Hu)%list_elem_of_fmap]%elem_of_cons.
        -- apply elem_of_cons in Hin as [?|(? & ? & ?)%list_elem_of_fmap]; congruence.
        -- apply elem_of_cons in Hin as [?|(u' & [= <-] & Hu')%list_elem_of_fmap]; [congruence|].
           apply Hj. by eapply (rep_disjoint h1 _ j i).
      * intros ->. apply Hv, elem_of_concat. apply elem_of_cons in Hin as [?|(u' & [= <-] & Hu')%list_elem_of_fmap]; [congruence|].
        eauto using list_elem_of_lookup_2.
  - rewrite Hperm. apply NoDup_cons. split; [done|apply H1].
  - intros u Hu. rewrite Hperm in Hu. destruct (Hx (Entry u)) as [Hx1 Hx2].
    { intros [?|[[= ->]|(? & [= <-] & ?)%list_elem_of_fmap]%elem_of_cons]%elem_of_cons; [done|set_solver|].
      apply Hu. right. rewrite Hc. set_solver. }
    rewrite Hx1, Hx2. apply (rep_free _ _ H1). set_solver.
  - intros j Hj. rewrite length_insert in Hj. pose proof (lookup_lt_Some _ _ _ Hq). destruct (Hx (Sentinel j)) as [Hx1 Hx2].
    { intros [[= ->]|[?|(? & ? & ?)%list_elem_of_fmap]%elem_of_cons]%elem_of_cons; [lia|done|done]. }
    rewrite Hx1, Hx2. by apply (rep_range _ _ H1).
Qed.

(** ** The interface *)

Class buckets_ops (B : Type) := {
  b_new : nat → B;
  b_enqueue : B → nat → string → res B;
  b_dequeue : B → nat → res (option string * B)
}.

Class buckets_laws (B : Type) `{!buckets_ops B} := {
  b_rep : B → list (list string) → Prop;
  b_new_law n : b_rep (b_new n) (replicate n []);
  b_enqueue_law (b : B) qs i v : b_rep b qs → i < length qs → ∃ b' : B, b_enqueue b i v = Ok b' ∧ b_rep b' (q_enqueue qs i v);
  b_dequeue_law (b : B) qs i q : b_rep b qs → qs !! i = Some q →
    ∃ b' : B, b_dequeue b i = Ok (last q, b') ∧ b_rep b' (<[i := take (length q - 1) q]> qs);
  b_nodup_law (b : B) qs : b_rep b qs → NoDup (concat qs)
}.

(** [entry.v] of the entry that [dequeue] returned. *)
Definition dequeue_node h (i : nat) : res (option string * store) :=
  r <-- dequeue h i ;;
  Ok (match r.1 with Some (Entry v) => Some v | _ => None end, r.2).

#[export] Instance list_buckets : buckets_ops store := {|
  b_new := newLists;
  b_enqueue h i v := enqueue h i (Entry v);
  b_dequeue := dequeue_node
|}.

#[export] Instance list_buckets_laws : buckets_laws store.
Proof.
  refine {| b_rep := rep : store → _; b_new_law := newLists_rep; b_enqueue_law := enqueue_rep; b_nodup_law := rep_nodup |}.
  intros h qs i q H Hi. destruct (dequeue_rep h qs i q H Hi) as (h' & Hd & ?). exists h'. split; [|done].
  simpl. unfold dequeue_node. rewrite Hd. simpl. by destruct (last q).
Defined.

(** ** Sequences of operations *)

Inductive list_op := Enqueue (i : nat) (v : string) | Dequeue (i : nat).
Definition op_list (o : list_op) : nat := match o with Enqueue i _ | Dequeue i => i end.

(** The outputs of the [dequeue] calls, in order. *)
Definition run_list_op (st : list (option string) * store) (o : list_op) : res (list (option string) * store) :=
  match o with
  | Enqueue i v => h <-- enqueue st.2 i (Entry v) ;; Ok (st.1, h)
  | Dequeue i => r <-- dequeue_node st.2 i ;; Ok (st.1 ++ [r.1], r.2)
  end.

Definition run_queue_op (st : list (option string) * list (list string)) (o : list_op) : list (option string) * list (list string) :=
  match o with
  | Enqueue i v => (st.1, q_enqueue st.2 i v)
  | Dequeue i => let q := default [] (st.2 !! i) in (st.1 ++ [last q], <[i := take (length q - 1) q]> st.2)
  end.

Lemma length_run_queue st o : length (run_queue_op st o).2 = length st.2.
Proof. destruct o; simpl; [unfold q_enqueue, q_remove|]; by rewrite length_insert, ?length_fmap. Qed.

(** [n] linked lists behave as [n] first-in first-out queues that share their entries: in every
    sequence of calls on existing lists no call throws, each [dequeue] returns the
    entry that has been longest in its list, or [undefined] when the list is empty, and an entry that is
    enqueued again leaves the list that held it. *)
Theorem lists_are_queues n ops :
  (∀ o, o ∈ ops → op_list o < n) →
  ∃ h, res_fold run_list_op ([], newLists n) ops = Ok ((foldl run_queue_op ([], replicate n []) ops).1, h) ∧
    rep h (foldl run_queue_op ([], replicate n []) ops).2.
Proof.
  intros Hops. set (q0 := ([], replicate n []) : list (option string) * list (list string)).
  destruct (res_fold_inv run_list_op (λ done st, st.1 = (foldl run_queue_op q0 done).1 ∧
    rep st.2 (foldl run_queue_op q0 done).2 ∧ length (foldl run_queue_op q0 done).2 = n) ops ([], newLists n))
    as ([outs h] & Hr & Houts & Hrep & _).
  - simpl. split_and!; [done|apply newLists_rep|apply length_replicate].
  - intros done o rest [outs h] Heq (Ho & Hrep & Hlen). rewrite foldl_app. simpl in *. subst outs.
    assert (op_list o < n) as Hin by (apply Hops; rewrite Heq; set_solver).
    set (qs := foldl run_queue_op q0 done) in *. rewrite length_run_queue. destruct o as [i v|i]; simpl in *.
    + destruct (enqueue_rep h qs.2 i v Hrep) as (h' & -> & ?); [lia|]. eexists. done.
    + destruct (lookup_lt_is_Some_2 qs.2 i) as [q Hq]; [lia|]. rewrite Hq. simpl.
      destruct (dequeue_rep h qs.2 i q Hrep Hq) as (h' & Hd & ?). unfold dequeue_node. rewrite Hd. simpl.
      eexists. split; [done|]. simpl. by destruct (last q).
  - exists h. simpl in *. subst outs. done.
Qed.

Lemma lists_are_queues_witness :
  ∃ h, res_fold run_list_op ([], newLists 2)
    [Enqueue 0 "a"; Enqueue 0 "b"; Enqueue 1 "c"; Enqueue 1 "a"; Dequeue 0; Dequeue 0; Dequeue 1] =
    Ok ([Some "b"; None; Some "c"]%string, h).
Proof.
  destruct (lists_are_queues 2 [Enqueue 0 "a"; Enqueue 0 "b"; Enqueue 1 "c"; Enqueue 1 "a"; Dequeue 0; Dequeue 0; Dequeue 1])
    as (h & Hr & _).
  - intros o Ho. revert o Ho. apply Forall_forall. repeat constructor.
  - exists h. exact Hr.
Defined.
