(* ===== verification/DagreGreedy.v ===== *)
(** * dagre: the greedy feedback arc set (lib/greedy-fas.js inside dagre.min.js)

    [buildState] copies the graph into a simple graph whose nodes carry the weights of
    their in- and out-edges and sorts the nodes into buckets by the difference;
    [doGreedyFAS] removes sinks, sources and otherwise the node with the largest
    difference until none is left, and returns the edges that point backwards.  The buckets are
    used through [buckets_ops].  Weights are integers. *)
From S2P Require Import Prelude JsObject Graphlib GraphView DagreList.

Record fasEntry := FasEntry { fv : string; fin : Z; fout : Z }.

Section Greedy.
Context {L N E : Type} {B : Type} `{!buckets_ops B}.
Notation fasGraph := (Graph unit fasEntry Z).
Implicit Types (g : Graph L N E) (fg : fasGraph) (b : B) (n : nat) (zeroIdx : Z).

(** [buckets[i].enqueue(entry)] throws when there is no such bucket; [n] is [buckets.length]. *)
Definition assignBucket n b zeroIdx (entry : fasEntry) : res B :=
  if decide (fout entry = 0%Z) then b_enqueue b 0 (fv entry)
  else if decide (fin entry = 0%Z) then b_enqueue b (n - 1) (fv entry)
  else let i := (fout entry - fin entry + zeroIdx)%Z in
       if decide (0 ≤ i < Z.of_nat n)%Z then b_enqueue b (Z.to_nat i) (fv entry) else Throw TypeError.

Definition add_out (w : Z) (x : fasEntry) : fasEntry := FasEntry (fv x) (fin x) (fout x + w).
Definition add_in (w : Z) (x : fasEntry) : fasEntry := FasEntry (fv x) (fin x + w) (fout x).

(** The two callbacks of [removeNode]: the neighbour loses the weight of the edge and
    changes its bucket. *)
Definition drop_in n zeroIdx (st : fasGraph * B) (edge : edgeObj) : res (fasGraph * B) :=
  weight <-- of_option (edgeOf st.1 edge) ;;
  fg <-- updNode st.1 (ev edge) (add_out (- weight)) ;;
  uEntry <-- of_option (node fg (ev edge)) ;;
  b <-- assignBucket n st.2 zeroIdx uEntry ;;
  Ok (fg, b).
Definition drop_out n zeroIdx (st : fasGraph * B) (edge : edgeObj) : res (fasGraph * B) :=
  weight <-- of_option (edgeOf st.1 edge) ;;
  fg <-- updNode st.1 (ew edge) (add_in (- weight)) ;;
  wEntry <-- of_option (node fg (ew edge)) ;;
  b <-- assignBucket n st.2 zeroIdx wEntry ;;
  Ok (fg, b).

(** [removeNode(g, buckets, zeroIdx, entry, true)]; without the last argument the caller
    ignores the list. *)
Definition fas_removeNode n zeroIdx (st : fasGraph * B) (v : string) : res (fasGraph * B * list edgeObj) :=
  let ins := default [] (inEdges st.1 v None) in
  st <-- res_fold (drop_in n zeroIdx) st ins ;;
  st <-- res_fold (drop_out n zeroIdx) st (default [] (outEdges st.1 v None)) ;;
  fg <-- removeNode st.1 v ;;
  Ok (fg, st.2, (λ e, EdgeObj (ev e) (ew e) None) <$> ins).

(** [while(entry=buckets[i].dequeue()){removeNode(...)}]. *)
Fixpoint drain (fuel : nat) n zeroIdx (i : nat) (st : fasGraph * B) : res (fasGraph * B) :=
  match fuel with
  | O => Throw (JsError "out of fuel")
  | S fuel' =>
      r <-- b_dequeue st.2 i ;;
      match r.1 with
      | None => Ok (st.1, r.2)
      | Some v => s <-- fas_removeNode n zeroIdx (st.1, r.2) v ;; drain fuel' n zeroIdx i s.1
      end
  end.

(** [for(var i=buckets.length-2;i>0;--i)], up to the first bucket that is not empty. *)
Fixpoint scan n zeroIdx (i : nat) (st : fasGraph * B) : res (fasGraph * B * list edgeObj) :=
  match i with
  | O => Ok (st, [])
  | S i' =>
      r <-- b_dequeue st.2 i ;;
      match r.1 with
      | None => scan n zeroIdx i' (st.1, r.2)
      | Some v => fas_removeNode n zeroIdx (st.1, r.2) v
      end
  end.

(** One turn of [while(g.nodeCount())]. *)
Definition greedy_turn n zeroIdx (st : fasGraph * B) : res (fasGraph * B * list edgeObj) :=
  let fuel := S (length (nodes st.1)) in
  st <-- drain fuel n zeroIdx 0 st ;;
  st <-- drain fuel n zeroIdx (n - 1) st ;;
  if decide (nodeCount st.1 = 0%Z) then Ok (st, []) else scan n zeroIdx (n - 2) st.

Fixpoint doGreedyFAS (fuel : nat) n zeroIdx (st : fasGraph * B) (results : list edgeObj) : res (list edgeObj) :=
  if decide (nodeCount st.1 = 0%Z) then Ok results
  else match fuel with
       | O => Throw (JsError "out of fuel")
       | S fuel' => r <-- greedy_turn n zeroIdx st ;; doGreedyFAS fuel' n zeroIdx r.1 (results ++ r.2)
       end.

Record fas_build := FasBuild { fb_graph : fasGraph; maxIn : Z; maxOut : Z }.

Definition build_edge (weightFn : edgeObj → Z) (st : fas_build) (e : edgeObj) : res fas_build :=
  let fg := fb_graph st in
  let prevWeight := default 0%Z (edge fg (ev e) (ew e) None) in
  let weight := weightFn e in
  fg <-- setEdge fg (ev e) (ew e) (Some (Some (prevWeight + weight)%Z)) None ;;
  fg <-- updNode fg (ev e) (add_out weight) ;;
  v <-- of_option (node fg (ev e)) ;;
  fg <-- updNode fg (ew e) (add_in weight) ;;
  w <-- of_option (node fg (ew e)) ;;
  Ok (FasBuild fg (Z.max (maxIn st) (fin w)) (Z.max (maxOut st) (fout v))).

(** The graph, the number of buckets, the buckets and [zeroIdx]. *)
Definition buildState g (weightFn : edgeObj → Z) : res (fasGraph * nat * B * Z) :=
  fg <-- res_fold (λ fg v, setNode fg v (Some (Some (FasEntry v 0 0)))) (newGraph true false false) (nodes g) ;;
  st <-- res_fold (build_edge weightFn) (FasBuild fg 0 0) (edges g) ;;
  let n := Z.to_nat (maxOut st + maxIn st + 3) in
  let zeroIdx := (maxIn st + 1)%Z in
  b <-- res_fold (λ b v, x <-- of_option (node (fb_graph st) v) ;; assignBucket n b zeroIdx x) (b_new n) (nodes (fb_graph st)) ;;
  Ok (fb_graph st, n, b, zeroIdx).

Definition greedyFAS g (weightFn : option (edgeObj → Z)) : res (list edgeObj) :=
  if decide (nodeCount g ≤ 1)%Z then Ok []
  else
    s <-- buildState g (default (λ _, 1%Z) weightFn) ;;
    let '(fg, n, b, zeroIdx) := s in
    results <-- doGreedyFAS (S (length (nodes fg))) n zeroIdx (fg, b) [] ;;
    Ok (concat ((λ e, default [] (outEdges g (ev e) (Some (ew e)))) <$> results)).
End Greedy.
