(* ===== verification/DagreAcyclic.v ===== *)
(** * dagre: the acyclic pass (lib/acyclic.js inside dagre.min.js)

    [run] turns the edges of a feedback arc set around under a fresh name and remembers
    the old name in the label; [undo] turns them back. *)
From stdpp Require Import pretty.
From Stdlib Require Import QArith_base.
Local Close Scope Q_scope.
From S2P Require Import Prelude JsObject Graphlib GraphWf GraphInv GraphQuery GraphView GraphAlg Lodash.
From S2P Require Import DagreTypes DagreFas DagreList DagreGreedy.

(** ** Reversing and restoring *)

Section Reverse.
Context {L V : Type}.
Implicit Types (g : Graph L V edgeLabel) (c : BinNums.N) (e x y : edgeObj).

(** The callback of [run]; [idCounter] is the state of [_.uniqueId]. *)
Definition reverse_edge (st : Graph L V edgeLabel * BinNums.N) e : res (Graph L V edgeLabel * BinNums.N) :=
  let '(g, idCounter) := st in
  label <-- of_option (edgeOf g e) ;;
  g <-- removeEdgeObj g e ;;
  let '(idCounter, name) := uniqueId idCounter "rev" in
  g <-- setEdge g (ew e) (ev e) (Some (Some (with_reversed true (ename e) label))) (Some name) ;;
  Ok (g, idCounter).

Definition reverse_edges g c (l : list edgeObj) := res_fold reverse_edge (g, c) l.

(** [run(g)]; [acyclicer] is the option of the graph label. *)
Definition weightFn g (e : edgeObj) : Z := match edgeOf g e with Some l => weight l | None => 0 end.
Definition run (acyclicer : option string) g c : res (Graph L V edgeLabel * BinNums.N) :=
  fas <-- (if decide (acyclicer = Some "greedy"%string) then greedyFAS (B := store) g (Some (weightFn g)) else dfsFAS g) ;;
  reverse_edges g c fas.

(** The callback of [undo]. *)
Definition restore_edge g e : res (Graph L V edgeLabel) :=
  label <-- of_option (edgeOf g e) ;;
  if reversed label then
    g <-- removeEdgeObj g e ;;
    setEdge g (ew e) (ev e) (Some (Some (with_reversed false None label))) (forwardName label)
  else Ok g.

Definition undo g : res (Graph L V edgeLabel) := res_fold restore_edge g (edges g).

(** *** Reversed edges *)

(** The name and the edge that replace the [i]-th collected edge. *)
Definition rev_name c (i : nat) : string := "rev" +:+ pretty (c + 1 + N.of_nat i)%N.
Definition turned c (i : nat) e : edgeObj := EdgeObj (ew e) (ev e) (Some (rev_name c i)).

(** Every edge has a label without the marks of this pass, and no edge bears a name
    that [_.uniqueId("rev")] is about to return. *)
Record reversible g c : Prop := {
  rv_digraph : digraph g;
  rv_multi : isMultigraph g = true;
  rv_label : ∀ x, x ∈ edges g → ∃ l, elookup g x = Some (Some l) ∧ reversed l = false ∧ forwardName l = None;
  rv_fresh : ∀ x i, x ∈ edges g → ename x ≠ Some (rev_name c i)
}.

Lemma rev_name_inj c i j : rev_name c i = rev_name c j → i = j.
Proof. unfold rev_name. intros Heq%(inj _)%(inj _). lia. Qed.

Lemma rev_name_good c i : good_name (Some (rev_name c i)).
Proof.
  split; intros [= Heq]; apply (f_equal (String.get 0)) in Heq; cbn in Heq; discriminate.
Qed.

Lemma turned_plain c i e : plain_edge e → plain_edge (turned c i e).
Proof. intros (? & ? & ?). split_and!; [done..|apply rev_name_good]. Qed.

Lemma turned_inj c i j e e' : turned c i e = turned c j e' → i = j.
Proof. intros Heq%(f_equal ename)%(inj Some). by eapply rev_name_inj. Qed.

(** The table of edges after the edges [done] have been reversed. *)
Record reversed_upto g c (done : list edgeObj) g' : Prop := {
  ru_digraph : digraph g';
  ru_multi : isMultigraph g' = true;
  ru_nodes : ∀ v, oget (nodes_ g') v = oget (nodes_ g) v;
  ru_kept : ∀ y, y ∈ edges g → elookup g' y = if decide (y ∈ done) then None else elookup g y;
  ru_turned : ∀ i e l, done !! i = Some e → elookup g e = Some (Some l) →
    elookup g' (turned c i e) = Some (Some (with_reversed true (ename e) l));
  ru_only : ∀ y, y ∈ edges g' → (y ∈ edges g ∧ y ∉ done) ∨ ∃ i e, done !! i = Some e ∧ y = turned c i e
}.

Lemma turned_new g c i e y : reversible g c → y ∈ edges g → y ≠ turned c i e.
Proof. intros H Hy ->. by apply (rv_fresh _ _ H _ i Hy). Qed.

Lemma reverse_edge_ok g c done g1 e rest l0 :
  reversible g c → l0 = done ++ e :: rest → NoDup l0 → e ∈ edges g → reversed_upto g c done g1 →
  ∃ g2, reverse_edge (g1, c + N.of_nat (length done))%N e = Ok (g2, c + N.of_nat (length (done ++ [e])))%N ∧
    reversed_upto g c (done ++ [e]) g2.
Proof.
  intros Hrv -> Hnd He [U1 U2 U3 U4 U5 U6].
  assert (e ∉ done) as Hed by (apply NoDup_app in Hnd as (_ & Hnd & _); intros ?; apply (Hnd e); set_solver).
  destruct (rv_label _ _ Hrv e He) as (l & Hl & Hlr & Hlf). pose proof (rv_digraph _ _ Hrv) as Hg.
  assert (elookup g1 e = Some (Some l)) as Hl1 by (rewrite U4, decide_False; done).
  assert (e ∈ edges g1) as He1 by (apply elookup_Some; [apply U1|by rewrite Hl1]).
  destruct (edges_nodes g e (dg_wf _ Hg) He) as [Hnv Hnw].
  set (i := length done). set (y := turned c i e).
  destruct (moveEdge_ok g1 e y (Some (with_reversed true (ename e) l))) as (ga & g2 & Hr & Hs & [M1 M2 M3 M4]);
    [done..|by eapply turned_plain, digraph_edge|by unfold isNode; rewrite U3|by unfold isNode; rewrite U3|].
  exists g2. split.
  { unfold reverse_edge. rewrite edgeOf_elookup, Hl1 by (done || apply U1). simpl. rewrite Hr. simpl.
    replace (c + N.of_nat (length (done ++ [e])))%N with (c + N.of_nat i + 1)%N by (rewrite length_app; simpl; lia).
    unfold y, turned, rev_name in Hs. simpl in Hs. replace (c + N.of_nat i + 1)%N with (c + 1 + N.of_nat i)%N by lia.
    by rewrite Hs. }
  split; [done|congruence|by intros v; rewrite M4|..].
  - intros z Hz. rewrite M3, U4 by done. rewrite decide_False by (by eapply turned_new).
    repeat case_decide; set_solver.
  - intros j e' l' Hj Hl'. rewrite M3. apply lookup_app_Some in Hj as [Hj|[Hj Hj2]].
    + rewrite decide_False; [rewrite decide_False|].
      * by apply U5.
      * intros Heq. by apply (turned_new g c j e' e).
      * intros ?%turned_inj. apply lookup_lt_Some in Hj. unfold i in *. lia.
    + apply list_lookup_singleton_Some in Hj2 as [Hj0 <-]. replace j with i by (unfold i; lia).
      rewrite decide_True by done. congruence.
  - intros z Hz. apply elookup_Some in Hz; [|apply M1]. rewrite M3 in Hz. destruct (decide (z = y)) as [->|].
    + right. exists i, e. split; [|done]. unfold i. by rewrite lookup_app_r, Nat.sub_diag by done.
    + case_decide; [by destruct Hz|]. apply elookup_Some in Hz; [|apply U1].
      destruct (U6 z Hz) as [[? ?]|(j & e' & Hj & ->)]; [left; set_solver|]. right. exists j, e'. split; [|done].
      by apply lookup_app_l_Some.
Qed.

Lemma reverse_edges_ok g c (l : list edgeObj) :
  reversible g c → NoDup l → (∀ e, e ∈ l → e ∈ edges g) →
  ∃ g', reverse_edges g c l = Ok (g', c + N.of_nat (length l))%N ∧ reversed_upto g c l g'.
Proof.
  intros Hrv Hnd Hl. destruct (res_fold_inv reverse_edge
    (λ done st, st.2 = (c + N.of_nat (length done))%N ∧ reversed_upto g c done st.1) l (g, c)) as ([g' c'] & Hr & Hc & Hu).
  - cbn [fst snd length]. split; [lia|]. split; [apply Hrv|apply Hrv|done|..].
    + intros y Hy. rewrite decide_False; [done|]. by intros ?%elem_of_nil.
    + by intros i e le Hi.
    + intros y Hy. left. split; [done|]. by intros ?%elem_of_nil.
  - intros done e rest [g1 c1] Heq [Hc1 Hu1]. simpl in *. subst c1.
    destruct (reverse_edge_ok g c done g1 e rest l) as (g2 & Hr2 & Hu2); [done..|apply Hl; rewrite Heq; set_solver|done|].
    eexists. split; [done|]. done.
  - simpl in *. subst c'. eauto.
Qed.
(** Reversing a feedback arc set leaves no cycle. *)
Lemma reversed_acyclic g c l fin g' : fas_order g l fin → reversed_upto g c l g' → acyclic g'.
Proof.
  intros [Hnd _ Hkept Hturned] Hu. unfold acyclic. apply (before_acyclic (arrow g') fin Hnd).
  intros u w (x & Hx & <- & <-). destruct (ru_only _ _ _ _ Hu x Hx) as [[Hxe Hxl]|(i & e & Hi & ->)]; [by apply Hkept|].
  apply Hturned. by eapply list_elem_of_lookup_2.
Qed.

(** *** Turning them back *)

Lemma with_reversed_undo l n : reversed l = false → forwardName l = None → with_reversed false None (with_reversed true n l) = l.
Proof. destruct l. simpl. by intros -> ->. Qed.

(** The table while [undo] has processed [done]. *)
Record restored_upto g c (l done : list edgeObj) g' : Prop := {
  rs_digraph : digraph g';
  rs_multi : isMultigraph g' = true;
  rs_nodes : ∀ v, oget (nodes_ g') v = oget (nodes_ g) v;
  rs_kept : ∀ y, y ∈ edges g → y ∉ l → elookup g' y = elookup g y;
  rs_turned : ∀ i e, l !! i = Some e →
    if decide (turned c i e ∈ done)
    then elookup g' e = elookup g e ∧ elookup g' (turned c i e) = None
    else elookup g' e = None ∧ ∃ le, elookup g e = Some (Some le) ∧
      elookup g' (turned c i e) = Some (Some (with_reversed true (ename e) le));
  rs_only : ∀ y, y ∈ edges g' → y ∈ edges g ∨ ∃ i e, l !! i = Some e ∧ y = turned c i e
}.

Lemma restored_init g c l g' :
  reversible g c → NoDup l → (∀ e, e ∈ l → e ∈ edges g) → reversed_upto g c l g' → restored_upto g c l [] g'.
Proof.
  intros Hrv Hnd Hl [U1 U2 U3 U4 U5 U6]. split; [done..| | |].
  - intros y Hy Hyl. by rewrite U4, decide_False.
  - intros i e Hi. rewrite decide_False by (by intros ?%elem_of_nil). apply list_elem_of_lookup_2 in Hi as He.
    destruct (rv_label _ _ Hrv e (Hl e He)) as (le & Hle & _). split; [|eauto].
    rewrite U4, decide_True by auto. done.
  - intros y [[? _]|?]%U6; auto.
Qed.

(** An edge that was not reversed stays. *)
Lemma restore_kept g c l done g1 y :
  reversible g c → y ∈ edges g → y ∉ l → restored_upto g c l done g1 →
  restore_edge g1 y = Ok g1 ∧ restored_upto g c l (done ++ [y]) g1.
Proof.
  intros Hrv Hy Hyl [R1 R2 R3 R4 R5 R6]. destruct (rv_label _ _ Hrv y Hy) as (ly & Hly & Hrev & _).
  pose proof (R4 y Hy Hyl) as Hl1. split.
  - unfold restore_edge. rewrite edgeOf_elookup; [|apply R1|apply elookup_Some; [apply R1|by rewrite Hl1, Hly]].
    rewrite Hl1, Hly. simpl. by rewrite Hrev.
  - split; try done. intros i e Hi. specialize (R5 i e Hi).
    assert (y ≠ turned c i e) by (by eapply turned_new).
    destruct (decide (turned c i e ∈ done)); [rewrite decide_True by set_solver; done|].
    rewrite decide_False by set_solver. done.
Qed.

(** A reversed edge gets its old direction, name and label. *)
Lemma restore_turned g c l done g1 i e :
  reversible g c → NoDup l → (∀ e, e ∈ l → e ∈ edges g) → l !! i = Some e → turned c i e ∉ done →
  restored_upto g c l done g1 →
  ∃ g2, restore_edge g1 (turned c i e) = Ok g2 ∧ restored_upto g c l (done ++ [turned c i e]) g2.
Proof.
  intros Hrv Hnd Hl Hi Hnin [R1 R2 R3 R4 R5 R6]. set (y := turned c i e) in *.
  pose proof (R5 i e Hi) as Hi5. fold y in Hi5. rewrite decide_False in Hi5 by done. destruct Hi5 as (He1 & le & Hle & Hy1).
  assert (e ∈ edges g) as He by (eapply Hl, list_elem_of_lookup_2, Hi). pose proof (rv_digraph _ _ Hrv) as Hg.
  destruct (rv_label _ _ Hrv e He) as (le' & Hle' & Hlr & Hlf). assert (le' = le) as -> by congruence.
  assert (y ∈ edges g1) as Hy by (apply elookup_Some; [apply R1|by rewrite Hy1]).
  destruct (edges_nodes g e (dg_wf _ Hg) He) as [Hnv Hnw].
  destruct (moveEdge_ok g1 y e (Some le)) as (ga & g2 & Hr & Hs & [M1 M2 M3 M4]);
    [done..|by eapply digraph_edge|by unfold isNode; rewrite R3|by unfold isNode; rewrite R3|].
  exists g2. split.
  { unfold restore_edge. rewrite edgeOf_elookup, Hy1 by (done || apply R1). simpl. rewrite Hr. simpl.
    rewrite with_reversed_undo by done. done. }
  assert (∀ j e', l !! j = Some e' → turned c j e' ≠ e) as Hte.
  { intros j e' Hj Heq. by apply (turned_new g c j e' e Hrv He). }
  split; [done|congruence|by intros v; rewrite M4|..].
  - intros z Hz Hzl. rewrite M3. rewrite decide_False by (intros ->; eapply Hzl, list_elem_of_lookup_2, Hi).
    rewrite decide_False by (by eapply turned_new). by apply R4.
  - intros j e' Hj. rewrite !M3. destruct (decide (j = i)) as [->|Hji].
    + assert (e' = e) as -> by congruence. fold y. rewrite !(decide_True (P := y ∈ _)) by set_solver.
      rewrite (decide_True (P := e = e)), (decide_True (P := y = y)) by done.
      rewrite decide_False by (by apply (Hte i)). split; [congruence|done].
    + assert (turned c j e' ≠ y) by (intros ?%turned_inj; done).
      assert (e' ≠ e) by (intros ->; by apply Hji, (NoDup_lookup l j i e)).
      assert (e' ≠ y) by (eapply turned_new; [done|by eapply Hl, list_elem_of_lookup_2]).
      specialize (R5 j e' Hj). rewrite !(decide_False (P := e' = _)), !(decide_False (P := turned c j e' = _)) by auto.
      destruct (decide (turned c j e' ∈ done)); [rewrite decide_True by set_solver|rewrite decide_False by set_solver]; done.
  - intros z Hz. apply elookup_Some in Hz; [|apply M1]. rewrite M3 in Hz. destruct (decide (z = e)) as [->|]; [by left|].
    case_decide; [by destruct Hz|]. apply R6. apply elookup_Some; [apply R1|done].
Qed.

Lemma undo_reversed g c l g' :
  reversible g c → NoDup l → (∀ e, e ∈ l → e ∈ edges g) → reversed_upto g c l g' →
  ∃ g'', undo g' = Ok g'' ∧ digraph g'' ∧ (∀ x, elookup g'' x = elookup g x) ∧
    (∀ v, oget (nodes_ g'') v = oget (nodes_ g) v).
Proof.
  intros Hrv Hnd Hl Hu. destruct (res_fold_inv restore_edge (λ done g1, restored_upto g c l done g1) (edges g') g')
    as (g'' & Hr & [R1 R2 R3 R4 R5 R6]).
  - by apply restored_init.
  - intros done y rest g1 Heq Hg1. assert (y ∈ edges g') as Hy by (rewrite Heq; set_solver).
    destruct (ru_only _ _ _ _ Hu y Hy) as [[? ?]|(i & e & Hi & ->)].
    + exists g1. by apply restore_kept.
    + apply restore_turned; [done..| |done]. pose proof (NoDup_edges g' (dg_wf _ (ru_digraph _ _ _ _ Hu))) as Hne.
      rewrite Heq in Hne. apply NoDup_app in Hne as (_ & Hne & _). intros ?. apply (Hne (turned c i e)); set_solver.
  - exists g''. split_and!; [done..| |done].
    assert (∀ i e, l !! i = Some e → elookup g'' e = elookup g e ∧ elookup g'' (turned c i e) = None) as Hall.
    { intros i e Hi. specialize (R5 i e Hi). rewrite decide_True in R5; [done|].
      assert (e ∈ edges g) as He by (eapply Hl, list_elem_of_lookup_2, Hi).
      destruct (rv_label _ _ Hrv e He) as (le & Hle & _).
      apply elookup_Some; [apply Hu|]. rewrite (ru_turned _ _ _ _ Hu i e le Hi Hle). eauto. }
    intros x. destruct (decide (x ∈ edges g)) as [Hx|Hx].
    + destruct (decide (x ∈ l)) as [[i Hi]%list_elem_of_lookup|]; [by apply (Hall i)|by apply R4].
    + rewrite (proj2 (elookup_None g x (dg_wf _ (rv_digraph _ _ Hrv))) Hx). apply elookup_None; [apply R1|].
      intros Hx''. destruct (R6 x Hx'') as [?|(i & e & Hi & ->)]; [done|].
      apply elookup_Some in Hx''; [|apply R1]. destruct (Hall i e Hi) as [_ Hn]. rewrite Hn in Hx''. by destruct Hx''.
Qed.
End Reverse.

(** ** The pass *)

Section Claims.
Context {L V : Type}.
Implicit Types (g : Graph L V edgeLabel).

End Claims.

(** ** Three blocks that vote in a circle *)

Definition plain_label : edgeLabel := EdgeLabel 1 1 0%Q 0%Q 10%Q "r" None None None None false None false.
Definition ring_ops : list (gop unit unit edgeLabel) :=
  [OpSetEdge "a" "b" (Some (Some plain_label)) None; OpSetEdge "b" "c" (Some (Some plain_label)) None;
   OpSetEdge "c" "a" (Some (Some plain_label)) None].
Definition ring_graph : Graph unit unit edgeLabel := build true true false ring_ops.

Lemma ring_edges : edges ring_graph = [EdgeObj "a" "b" None; EdgeObj "b" "c" None; EdgeObj "c" "a" None].
Proof. vm_compute. reflexivity. Qed.

Lemma ring_reversible : reversible ring_graph 0.
Proof.
  assert (∀ x, x ∈ edges ring_graph → ename x = None ∧ elookup ring_graph x = Some (Some plain_label)) as Hx.
  { apply Forall_forall. rewrite ring_edges. repeat constructor. }
  split.
  - split; [|reflexivity|].
    + apply build_wf. apply (bool_decide_unpack _). vm_compute. exact I.
    + intros x Hin. destruct (Hx x Hin) as [-> _]. done.
  - reflexivity.
  - intros x Hin. destruct (Hx x Hin) as [_ ->]. by exists plain_label.
  - intros x i Hin. destruct (Hx x Hin) as [-> _]. done.
Qed.

