(* ===== verification/DagreRank.v ===== *)
(** * dagre: initial ranks (lib/rank/util.js inside dagre.min.js)

    [longestPath] gives every node the rank of its nearest successor minus the length
    of the edge, by a depth-first search that stores the rank in the label.  The depth
    of the search is bounded by the number of nodes because the graph has no cycle. *)
From Stdlib Require Import QArith_base.
Local Close Scope Q_scope.
From S2P Require Import Prelude JsObject Graphlib GraphWf GraphInv GraphQuery GraphView GraphAlg Lodash LodashSpec DagreTypes.

Section Rank.
Context {L : Type}.
Notation graph := (Graph L nodeLabel edgeLabel).
Implicit Types (g : graph) (v w : string) (x e : edgeObj).

(** [slack(g, e)]; a rank that is missing gives [NaN], here [None]. *)
Definition slack g e : res (option Z) :=
  lw <-- of_option (node g (ew e)) ;;
  lv <-- of_option (node g (ev e)) ;;
  le <-- of_option (edgeOf g e) ;;
  Ok (match rank lw, rank lv with Some rw, Some rv => Some (rw - rv - minlen le)%Z | _, _ => None end).

Record lp_state := LpState { lp_graph : graph; lp_visited : obj bool }.

(** The inner [dfs(v)]: [None] is [undefined], or [NaN] after a subtraction; [_.min] skips both. *)
Fixpoint lp_dfs (fuel : nat) (st : lp_state) v : res (option Z * lp_state) :=
  match fuel with
  | O => Throw (JsError "Maximum call stack size exceeded")
  | S fuel' =>
      label <-- of_option (node (lp_graph st) v) ;;
      if ohas (lp_visited st) v then Ok (rank label, st)
      else
        let st := LpState (lp_graph st) (oset (lp_visited st) v true) in
        r <-- res_fold (λ acc e,
                d <-- lp_dfs fuel' acc.2 (ew e) ;;
                l <-- of_option (edgeOf (lp_graph d.2) e) ;;
                Ok (acc.1 ++ [(λ r, (r - minlen l)%Z) <$> d.1], d.2))
              ([], st) (default [] (outEdges (lp_graph st) v None)) ;;
        let rank := default 0%Z (Lodash.min r.1) in
        g <-- updNode (lp_graph r.2) v (with_rank rank) ;;
        Ok (Some rank, LpState g (lp_visited r.2))
  end.

Definition longestPath g : res graph :=
  st <-- res_fold (λ st v, r <-- lp_dfs (S (length (nodes g))) st v ;; Ok r.2) (LpState g []) (sources g) ;;
  Ok (lp_graph st).

(** ** A graph with given ranks *)

Implicit Types (ρ : string → option Z).

Definition set_rank (r : option Z) (l : nodeLabel) : nodeLabel :=
  NodeLabel (width l) (height l) (nx l) (ny l) r (order l) (dummy l) (nlabelpos l) (borderType l) (more l).

(** [g1] is [g] with the ranks [ρ]: nothing else differs. *)
Record ranked g ρ g1 : Prop := {
  rk_shape : ∃ ns, g1 = with_nodes ns (nodeCount_ g) g;
  rk_wf : wf g1;
  rk_nodes : ∀ u, oget (nodes_ g1) u = (λ o : option nodeLabel, set_rank (ρ u) <$> o) <$> oget (nodes_ g) u
}.

(** Every node and every edge has a label. *)
Record labelled g : Prop := {
  lb_wf : wf g;
  lb_node : ∀ v, isNode g v → ∃ l, oget (nodes_ g) v = Some (Some l);
  lb_edge : ∀ x, x ∈ edges g → ∃ l, edgeOf g x = Some l
}.

Definition rankOf g v : option Z := node g v ≫= rank.
Definition len g e : Z := match edgeOf g e with Some l => minlen l | None => 0 end.

Lemma set_rank_id l : set_rank (rank l) l = l.
Proof. by destruct l. Qed.

Lemma ranked_refl g : wf g → ranked g (rankOf g) g.
Proof.
  intros Hwf. split; [by exists (nodes_ g); destruct g|done|].
  intros u. unfold rankOf, node. destruct (oget (nodes_ g) u) as [[l|]|] eqn:Hu; simpl; [|done..]. by rewrite set_rank_id.
Qed.

Lemma ranked_ext g ρ ρ' g1 : (∀ u, isNode g u → ρ u = ρ' u) → ranked g ρ g1 → ranked g ρ' g1.
Proof.
  intros Hρ [H1 H2 H3]. split; [done..|]. intros u. rewrite H3. destruct (oget (nodes_ g) u) eqn:Hu; [|done].
  by rewrite Hρ by (by eexists).
Qed.

Lemma ranked_node g ρ g1 v : ranked g ρ g1 → isNode g1 v ↔ isNode g v.
Proof.
  intros [_ _ H]. unfold isNode. rewrite H. by destruct (oget (nodes_ g) v).
Qed.

Lemma ranked_edges g ρ g1 :
  ranked g ρ g1 → edges g1 = edges g ∧ (∀ x, edgeOf g1 x = edgeOf g x) ∧ (∀ v, outEdges g1 v None = outEdges g v None) ∧
    (∀ v, nodeEdges g1 v None = nodeEdges g v None).
Proof. by intros [(ns & ->) _ _]. Qed.

Lemma ranked_label g ρ g1 v l :
  ranked g ρ g1 → oget (nodes_ g) v = Some (Some l) → node g1 v = Some (set_rank (ρ v) l).
Proof. intros [_ _ H] Hl. unfold node. by rewrite H, Hl. Qed.

(** Assigning a rank. *)
Lemma updNode_ranked g ρ g1 v r f l :
  ranked g ρ g1 → oget (nodes_ g) v = Some (Some l) → f (set_rank (ρ v) l) = set_rank (Some r) l →
  ∃ g2, updNode g1 v f = Ok g2 ∧ ranked g (λ u, if decide (u = v) then Some r else ρ u) g2.
Proof.
  intros Hr Hl Hf. pose proof (ranked_label _ _ _ _ _ Hr Hl) as Hn. destruct Hr as [(ns & ->) Hwf Hnodes].
  unfold updNode. rewrite Hn. simpl. eexists. split; [done|]. split.
  - eexists. done.
  - apply (wf_relabel (with_nodes ns (nodeCount_ g) g)); [done|]. unfold isNode. rewrite Hnodes, Hl. by eexists.
  - intros u. simpl in *. rewrite oget_oset, Hnodes. destruct (decide (v = u)) as [<-|].
    + rewrite decide_True, Hl by done. simpl. by rewrite Hf.
    + by rewrite decide_False.
Qed.

(** Assigning ranks to the nodes of a list. *)
Lemma updNodes_ranked g ρ g1 (vs : list string) f (h : string → Z) :
  labelled g → ranked g ρ g1 → NoDup vs → (∀ v, v ∈ vs → isNode g v) →
  (∀ v l, v ∈ vs → f (set_rank (ρ v) l) = set_rank (Some (h v)) l) →
  ∃ g2, res_fold (λ g v, updNode g v f) g1 vs = Ok g2 ∧ ranked g (λ u, if decide (u ∈ vs) then Some (h u) else ρ u) g2.
Proof.
  intros Hlb Hr Hnd Hvs Hf.
  destruct (res_fold_inv (λ g v, updNode g v f)
    (λ done g2, ranked g (λ u, if decide (u ∈ done) then Some (h u) else ρ u) g2) vs g1) as (g2 & ? & ?); [..|by exists g2].
  - eapply ranked_ext; [|exact Hr]. intros u _. rewrite decide_False; [done|]. by intros ?%elem_of_nil.
  - intros done v rest g2 Heq Hg2. assert (v ∈ vs) as Hin by (rewrite Heq; set_solver).
    destruct (lb_node _ Hlb v (Hvs v Hin)) as [l Hl].
    assert (v ∉ done) as Hnin by (rewrite Heq in Hnd; apply NoDup_app in Hnd as (_ & Hnd & _); intros Hd; apply (Hnd v Hd); by left).
    destruct (updNode_ranked _ _ g2 v (h v) f l Hg2 Hl) as (g3 & Hu & Hg3); [rewrite decide_False by done; by apply Hf|].
    exists g3. split; [done|]. eapply ranked_ext; [|exact Hg3]. intros u _. simpl. destruct (decide (u = v)) as [->|].
    + by rewrite decide_True by set_solver.
    + destruct (decide (u ∈ done)); [by rewrite decide_True by set_solver|]. by rewrite decide_False by set_solver.
Qed.

Lemma slack_ranked g ρ g1 e rv rw :
  labelled g → ranked g ρ g1 → e ∈ edges g → ρ (ev e) = Some rv → ρ (ew e) = Some rw →
  slack g1 e = Ok (Some (rw - rv - len g e)%Z).
Proof.
  intros [Hwf Hn He] Hr Hin Hv Hw. destruct (edges_nodes g e Hwf Hin) as [[lv Hlv]%Hn [lw Hlw]%Hn].
  destruct (He e Hin) as [le Hle]. destruct (ranked_edges _ _ _ Hr) as (_ & Heo & _).
  unfold slack, len. rewrite (ranked_label _ _ _ _ _ Hr Hlw), (ranked_label _ _ _ _ _ Hr Hlv), Heo, Hle. simpl.
  by rewrite Hv, Hw.
Qed.

(** ** Ranks by longest paths *)

(** The rank of [u] is 0 at a sink, and otherwise the least rank of a successor minus the
    length of the edge. *)
Definition exact g ρ (u : string) : Prop :=
  ∃ r, ρ u = Some r ∧ (∀ x, x ∈ edges g → ev x = u → ∃ rw, ρ (ew x) = Some rw ∧ (r ≤ rw - len g x)%Z) ∧
    ((r = 0%Z ∧ ∀ x, x ∈ edges g → ev x ≠ u) ∨
     ∃ x rw, x ∈ edges g ∧ ev x = u ∧ ρ (ew x) = Some rw ∧ r = (rw - len g x)%Z).

(** [fin] are the nodes whose call has ended. *)
Record lp_inv g (fin : list string) ρ (st : lp_state) : Prop := {
  lp_ranked : ranked g ρ (lp_graph st);
  lp_fin : ∀ u, u ∈ fin → is_Some (oget (lp_visited st) u) ∧ exact g ρ u ∧ ∀ w, arrow g u w → w ∈ fin
}.

Record lp_post g (fin : list string) ρ st (vs fin' : list string) ρ' st' : Prop := {
  lpp_inv : lp_inv g fin' ρ' st';
  lpp_old : ∀ u, u ∈ fin → u ∈ fin' ∧ ρ' u = ρ u;
  lpp_vis : ∀ u, is_Some (oget (lp_visited st') u) → u ∈ fin' ∨ is_Some (oget (lp_visited st) u);
  lpp_mono : ∀ u, is_Some (oget (lp_visited st) u) → is_Some (oget (lp_visited st') u);
  lpp_new : ∀ u, u ∈ fin' → u ∈ fin ∨ ¬ is_Some (oget (lp_visited st) u);
  lpp_done : ∀ v, v ∈ vs → v ∈ fin'
}.

Lemma lp_post_refl g fin ρ st vs : lp_inv g fin ρ st → (∀ v, v ∈ vs → v ∈ fin) → lp_post g fin ρ st vs fin ρ st.
Proof. intros H Hvs. split; auto. Qed.

Lemma lp_post_app g fin ρ st vs1 fin1 ρ1 st1 vs2 fin2 ρ2 st2 :
  lp_post g fin ρ st vs1 fin1 ρ1 st1 → lp_post g fin1 ρ1 st1 vs2 fin2 ρ2 st2 →
  lp_post g fin ρ st (vs1 ++ vs2) fin2 ρ2 st2.
Proof.
  intros [A1 A2 A3 A4 A5 A6] [B1 B2 B3 B4 B5 B6]. split; [done|..].
  - intros u Hu. destruct (A2 u Hu) as [Hu1 He]. destruct (B2 u Hu1) as [? ?]. split; [done|congruence].
  - intros u Hu. destruct (B3 u Hu) as [?|Hu1]; [by left|]. destruct (A3 u Hu1) as [?|?]; [left; by apply B2|by right].
  - auto.
  - intros u Hu. destruct (B5 u Hu) as [Hu1|Hn]; [by apply A5|right; auto].
  - intros v [?|?]%elem_of_app; [by apply B2, A6|by apply B6].
Qed.

(** What the loop over the out-edges of [v] has collected after [done]. *)
Definition collected g ρ (done : list edgeObj) (rs : list (option Z)) : Prop :=
  rs = (λ e, (λ r, (r - len g e)%Z) <$> ρ (ew e)) <$> done ∧ ∀ e, e ∈ done → is_Some (ρ (ew e)).

Lemma min_exact g ρ v (es : list edgeObj) rs :
  (∀ x, x ∈ es ↔ x ∈ edges g ∧ ev x = v) → collected g ρ es rs → (∀ e, e ∈ es → ew e ≠ v) →
  exact g (λ u, if decide (u = v) then Some (default 0%Z (Lodash.min rs)) else ρ u) v.
Proof.
  intros Hes [-> Hsome] Hne. set (rs := _ <$> es). exists (default 0%Z (Lodash.min rs)).
  assert (∀ e, e ∈ es → (if decide (ew e = v) then Some (default 0%Z (Lodash.min rs)) else ρ (ew e)) = ρ (ew e)) as Hd.
  { intros e He. rewrite decide_False; [done|by apply Hne]. }
  pose proof (min_spec rs) as Hm. split; [by rewrite decide_True|]. split.
  - intros x Hx Hxv. assert (x ∈ es) as Hin by (by apply Hes). rewrite Hd by done.
    destruct (Hsome x Hin) as [rw Hrw]. exists rw. split; [done|].
    assert (Some (rw - len g x)%Z ∈ rs) as Hin' by (apply list_elem_of_fmap; exists x; by rewrite Hrw).
    destruct (Lodash.min rs) as [m|]; [by apply Hm|]. by destruct (Hm _ Hin').
  - destruct (Lodash.min rs) as [m|] eqn:Hmin; simpl.
    + right. destruct Hm as [(x & Hx & Hin)%list_elem_of_fmap _]. exists x. rewrite Hd by done.
      destruct (ρ (ew x)) as [rw|]; simpl in Hx; [|done]. exists rw. apply Hes in Hin as [? ?]. split_and!; [done..|congruence].
    + left. split; [done|]. intros x Hx Hxv. assert (x ∈ es) as Hin by (by apply Hes).
      destruct (Hsome x Hin) as [rw Hrw]. apply (Hm (rw - len g x)%Z). apply list_elem_of_fmap. exists x. by rewrite Hrw.
Qed.

Lemma exact_ext g ρ ρ' u :
  ρ' u = ρ u → (∀ w, arrow g u w → ρ' w = ρ w) → exact g ρ u → exact g ρ' u.
Proof.
  intros Hu Hw (r & Hr & Hall & Hmin). exists r. split; [congruence|].
  assert (∀ x, x ∈ edges g → ev x = u → ρ' (ew x) = ρ (ew x)) as Hx by (intros x ??; apply Hw; by exists x).
  split.
  - intros x Hin Hev. rewrite Hx by done. by apply Hall.
  - destruct Hmin as [?|(x & rw & ? & ? & ? & ?)]; [by left|]. right. exists x, rw. rewrite Hx by done. done.
Qed.

(** Closing the call on [v]. *)
Lemma lp_close g fin ρ st v rs r :
  labelled g → acyclic g → isNode g v → lp_inv g fin ρ st → v ∉ fin → is_Some (oget (lp_visited st) v) →
  (∀ w, arrow g v w → w ∈ fin) → r = default 0%Z (Lodash.min rs) →
  (∀ es, outEdges g v None = Some es → collected g ρ es rs) →
  ∃ g', updNode (lp_graph st) v (with_rank r) = Ok g' ∧
    lp_inv g (v :: fin) (λ u, if decide (u = v) then Some r else ρ u) (LpState g' (lp_visited st)).
Proof.
  intros Hlb Hac Hv [Hr Hfin] Hvf Hvis Hsuc -> Hcol. destruct (lb_node _ Hlb v Hv) as [l Hl].
  destruct (updNode_ranked g ρ (lp_graph st) v (default 0%Z (Lodash.min rs)) (with_rank (default 0%Z (Lodash.min rs))) l Hr Hl) as (g' & Hu & Hr');
    [done|]. exists g'. split; [done|]. split; [done|].
  intros u [->|Hu']%elem_of_cons; simpl.
  - split_and!; [done| |intros w Hw; right; by apply Hsuc].
    destruct (outEdges_spec g v (lb_wf _ Hlb) Hv) as (es & Ho & _ & Hes).
    apply (min_exact g ρ v es); [done|by apply Hcol|]. intros e [He Hev]%Hes Hew. apply (Hac v), tc_once. by exists e.
  - destruct (Hfin u Hu') as (? & Hex & Hs). split_and!; [done| |intros w Hw; right; by apply Hs].
    eapply exact_ext; [..|exact Hex]; simpl.
    + rewrite decide_False; [done|]. by intros ->.
    + intros w Hw. rewrite decide_False; [done|]. intros ->. by apply Hvf, (Hs v).
Qed.

Lemma lp_dfs_spec fuel g fin ρ st v :
  labelled g → acyclic g → lp_inv g fin ρ st → isNode g v →
  (∀ u, is_Some (oget (lp_visited st) u) → u ∈ fin ∨ tc (arrow g) u v) →
  (∀ n y, nsteps (arrow g) n v y → n < fuel) →
  ∃ fin' ρ' st', lp_dfs fuel st v = Ok (ρ' v, st') ∧ lp_post g fin ρ st [v] fin' ρ' st'.
Proof.
  intros Hlb Hac. pose proof (lb_wf _ Hlb) as Hwf. revert fin ρ st v.
  induction fuel as [|fuel IH]; intros fin ρ st v Hinv Hv Hvis Hdepth.
  { specialize (Hdepth 0 v (nsteps_O _ _)). lia. }
  cbn [lp_dfs]. destruct (lb_node _ Hlb v Hv) as [l Hl]. rewrite (ranked_label _ _ _ _ _ (lp_ranked _ _ _ _ Hinv) Hl). cbn [of_option res_bind].
  destruct (ohas (lp_visited st) v) eqn:Hvv.
  { apply ohas_true, Hvis in Hvv as [Hf|Hc]; [|by destruct (Hac v)]. exists fin, ρ, st. split; [done|].
    apply lp_post_refl; [done|]. by intros u ->%list_elem_of_singleton. }
  assert (¬ is_Some (oget (lp_visited st) v)) as Hnv by (by rewrite <-ohas_true, Hvv).
  assert (v ∉ fin) as Hvf by (intros Hf; by destruct (lp_fin _ _ _ _ Hinv v Hf)).
  cbn zeta. set (st0 := LpState (lp_graph st) (oset (lp_visited st) v true)).
  assert (lp_inv g fin ρ st0) as Hinv0.
  { split; [apply Hinv|]. intros u Hu. destruct (lp_fin _ _ _ _ Hinv u Hu) as (? & ? & ?). split; [|done].
    simpl. rewrite oget_oset. case_decide; eauto. }
  destruct (ranked_edges _ _ _ (lp_ranked _ _ _ _ Hinv)) as (_ & _ & Hout & _).
  change (lp_graph st0) with (lp_graph st). rewrite Hout.
  destruct (outEdges_spec g v Hwf Hv) as (es & Hes & _ & Hin). rewrite Hes. change (default [] (Some es)) with es.
  match goal with |- context [res_fold ?f ?s ?l] =>
    destruct (res_fold_inv f (λ done acc, ∃ fin1 ρ1, lp_post g fin ρ st0 (ew <$> done) fin1 ρ1 acc.2 ∧ collected g ρ1 done acc.1) l s)
      as ([rs st1] & -> & fin1 & ρ1 & Hpost & Hcol)
  end.
  - exists fin, ρ. split; [|split; [done|by intros e ?%elem_of_nil]]. apply lp_post_refl; [done|]. by intros u ?%elem_of_nil.
  - intros done e rest [rs st1] Heq (fin1 & ρ1 & Hp1 & Hc1). simpl in Hp1, Hc1.
    assert (e ∈ edges g ∧ ev e = v) as [He Hev] by (apply Hin; rewrite Heq; set_solver).
    assert (arrow g v (ew e)) as Harr by (by exists e).
    destruct (IH fin1 ρ1 st1 (ew e)) as (fin2 & ρ2 & st2 & Hr2 & Hp2).
    + apply Hp1.
    + by apply (edges_nodes g e Hwf).
    + intros u Hu. destruct (lpp_vis _ _ _ _ _ _ _ _ Hp1 u Hu) as [?|Hu0]; [by left|]. simpl in Hu0. rewrite oget_oset in Hu0.
      destruct (decide (v = u)) as [<-|]; [right; by apply tc_once|].
      destruct (Hvis u Hu0) as [Hf|Ht]; [left; by apply (lpp_old _ _ _ _ _ _ _ _ Hp1)|right; by eapply tc_r].
    + intros n y Hn. assert (S n < S fuel); [|lia]. apply (Hdepth (S n) y). by eapply nsteps_l.
    + destruct (ranked_edges _ _ _ (lp_ranked _ _ _ _ (lpp_inv _ _ _ _ _ _ _ _ Hp2))) as (_ & Heo & _).
      destruct (lb_edge _ Hlb e He) as [le Hle]. cbn [fst snd]. rewrite Hr2. cbn [res_bind fst snd]. rewrite Heo, Hle. cbn [of_option res_bind].
      eexists. split; [done|]. exists fin2, ρ2. cbn [fst snd]. rewrite fmap_app. split; [by eapply lp_post_app|].
      assert (∀ e', e' ∈ done → ρ2 (ew e') = ρ1 (ew e')) as Hold.
      { intros e' He'. apply (lpp_old _ _ _ _ _ _ _ _ Hp2), (lpp_done _ _ _ _ _ _ _ _ Hp1). by apply list_elem_of_fmap_2. }
      destruct Hc1 as [-> Hs1]. split.
      * rewrite fmap_app. f_equal.
        -- apply list_fmap_ext. intros i e' He'. rewrite Hold; [done|]. by eapply list_elem_of_lookup_2.
        -- simpl. unfold len. by rewrite Hle.
      * intros e' [He'| ->%list_elem_of_singleton]%elem_of_app; [rewrite Hold; auto|].
        destruct (lp_fin _ _ _ _ (lpp_inv _ _ _ _ _ _ _ _ Hp2) (ew e)) as (_ & (r & -> & _) & _); [|eauto].
        apply (lpp_done _ _ _ _ _ _ _ _ Hp2). by left.
  - cbn [res_bind fst snd]. simpl in Hpost, Hcol.
    assert (∀ w, arrow g v w → w ∈ fin1) as Hsuc.
    { intros w (x & Hx & Hxv & <-). apply (lpp_done _ _ _ _ _ _ _ _ Hpost), list_elem_of_fmap_2, Hin. done. }
    assert (is_Some (oget (lp_visited st0) v)) as Hv0 by (simpl; rewrite oget_oset_eq; eauto).
    assert (v ∉ fin1) as Hvf1 by (intros Hf; by destruct (lpp_new _ _ _ _ _ _ _ _ Hpost v Hf)).
    destruct (lp_close g fin1 ρ1 st1 v rs (default 0%Z (Lodash.min rs))) as (g' & Hu & Hinv');
      [done..|apply Hpost|done|by apply (lpp_mono _ _ _ _ _ _ _ _ Hpost)|done|done|by intros es' [= <-]%(eq_trans (eq_sym Hes))|].
    rewrite Hu. cbn [res_bind]. exists (v :: fin1), (λ u, if decide (u = v) then Some (default 0%Z (Lodash.min rs)) else ρ1 u), (LpState g' (lp_visited st1)).
    split; [by rewrite decide_True by done|].
    destruct Hpost as [P1 P2 P3 P4 P5 P6]. split; simpl; [done|..].
    + intros u Hf. destruct (P2 u Hf) as [? ?]. split; [by right|]. rewrite decide_False; [done|]. by intros ->.
    + intros u Hu'. destruct (P3 u Hu') as [?|Hu0]; [left; by right|]. simpl in Hu0. rewrite oget_oset in Hu0.
      destruct (decide (v = u)) as [<-|]; [left; by left|by right].
    + intros u Hu'. apply P4. simpl. rewrite oget_oset. case_decide; eauto.
    + intros u [->|Hf]%elem_of_cons; [by right|]. destruct (P5 u Hf) as [?|Hn]; [by left|]. right.
      intros Hu'. apply Hn. simpl. rewrite oget_oset. case_decide; eauto.
    + intros u ->%list_elem_of_singleton. by left.
Qed.

(** Every edge of the graph has at least its minimum length. *)
Definition feasible g ρ : Prop :=
  ∀ x, x ∈ edges g → ∃ rv rw, ρ (ev x) = Some rv ∧ ρ (ew x) = Some rw ∧ (len g x ≤ rw - rv)%Z.

Lemma longestPath_spec g :
  labelled g → acyclic g →
  ∃ g' ρ, longestPath g = Ok g' ∧ ranked g ρ g' ∧ ∀ v, isNode g v → exact g ρ v.
Proof.
  intros Hlb Hac. pose proof (lb_wf _ Hlb) as Hwf. unfold longestPath.
  match goal with |- context [res_fold ?f ?s ?l] =>
    destruct (res_fold_inv f (λ done st, ∃ fin ρ, lp_post g [] (rankOf g) (LpState g []) done fin ρ st) l s)
      as (st & -> & fin & ρ & Hpost)
  end.
  - exists [], (rankOf g). apply lp_post_refl; [|by intros u ?%elem_of_nil]. split; [by apply ranked_refl|]. by intros u ?%elem_of_nil.
  - intros done v rest st Heq (fin & ρ & Hp).
    assert (v ∈ sources g) as Hvs by (rewrite Heq; set_solver). apply elem_of_sources in Hvs as [Hv _]; [|done].
    destruct (lp_dfs_spec (S (length (nodes g))) g fin ρ st v) as (fin' & ρ' & st' & -> & Hp'); [done..|apply Hp|done| | |].
    + intros u Hu. destruct (lpp_vis _ _ _ _ _ _ _ _ Hp u Hu) as [?|[? Hn]]; [by left|]. done.
    + intros n y Hn. apply Nat.lt_succ_r. eapply (acyclic_nsteps_bound (arrow g)); [exact Hac| |exact Hn].
      intros a b Hab. by apply elem_of_nodes, (arrow_nodes g a b).
    + simpl. eexists. split; [done|]. exists fin', ρ'. by eapply lp_post_app.
  - simpl. exists (lp_graph st), ρ. split; [done|]. destruct Hpost as [[Hr Hfin] _ _ _ _ Hdone]. split; [done|].
    intros v Hv. destruct (reach_source g v Hwf Hac Hv) as (s & Hs & Hrtc). apply Hdone in Hs.
    apply (Hfin v). clear Hv. induction Hrtc as [|a b c Hab _ IH]; [done|]. apply IH. by apply (Hfin a).
Qed.

Lemma exact_feasible g ρ : wf g → (∀ v, isNode g v → exact g ρ v) → feasible g ρ.
Proof.
  intros Hwf Hex x Hx. destruct (edges_nodes g x Hwf Hx) as [Hv _]. destruct (Hex _ Hv) as (r & Hr & Hall & _).
  destruct (Hall x Hx eq_refl) as (rw & Hrw & Hle). exists r, rw. split_and!; [done..|lia].
Qed.
End Rank.
