(* ===== verification/DagreTree.v ===== *)
(** * dagre: the feasible tree (lib/rank/feasible-tree.js inside dagre.min.js)

    [feasibleTree] grows a tree of tight edges: [tightTree] adds every node that a tight
    edge connects, and when none is left the ranks of the tree are shifted by the least slack of
    an edge that leaves it.  A call of the inner [dfs] has added its node to the tree, and each turn
    of the loop adds a node, so the number of nodes bounds both. *)
From Stdlib Require Import QArith_base.
Local Close Scope Q_scope.
From S2P Require Import Prelude JsObject Graphlib GraphWf GraphInv GraphQuery GraphView GraphAlg GraphDfs Lodash LodashSpec.
From S2P Require Import DagreTypes DagreRank.

(** The labels of the tree; [{}] has none of the fields. *)
Record treeNode := TreeNode { low : option Z; lim : option Z; tparent : option string }.
Record treeEdge := TreeEdge { cutvalue : option Z }.
Definition no_node : treeNode := TreeNode None None None.
Definition no_edge : treeEdge := TreeEdge None.

Section Tree.
Context {L : Type}.
Notation graph := (Graph L nodeLabel edgeLabel).
Notation tree := (Graph unit treeNode treeEdge).
Implicit Types (g : graph) (t : tree) (v w : string) (e x : edgeObj).

(** [v===edgeV?e.w:edgeV]. *)
Definition across v e : string := if decide (v = ev e) then ew e else ev e.

(** The inner [dfs(v)] of [tightTree]; [!slack(g,e)] holds of 0 and of [NaN]. *)
Fixpoint tt_dfs (fuel : nat) g t v : res tree :=
  match fuel with
  | O => Throw (JsError "Maximum call stack size exceeded")
  | S fuel' =>
      res_fold (λ t e,
        let w := across v e in
        if hasNode t w then Ok t
        else
          s <-- slack g e ;;
          if decide (default 0%Z s = 0%Z) then
            t <-- setNode t w (Some (Some no_node)) ;;
            t <-- setEdge t v w (Some (Some no_edge)) None ;;
            tt_dfs fuel' g t w
          else Ok t) t (default [] (nodeEdges g v None))
  end.

Definition tightTree t g : res (Z * tree) :=
  t <-- res_fold (tt_dfs (S (length (nodes g))) g) t (nodes t) ;; Ok (nodeCount t, t).

(** [_.minBy(g.edges(), ...)]: the criterion is [undefined] inside and outside the tree. *)
Definition slack_criterion t g e : res (option Z) :=
  if xorb (hasNode t (ev e)) (hasNode t (ew e)) then slack g e else Ok None.
Definition findMinSlackEdge t g : res (option edgeObj) :=
  cs <-- res_fold (λ cs e, c <-- slack_criterion t g e ;; Ok (cs ++ [(e, c)])) [] (edges g) ;;
  Ok (fst <$> minBy cs snd).

Definition add_rank (delta : option Z) (l : nodeLabel) : nodeLabel :=
  set_rank (r ← rank l; d ← delta; Some (r + d)%Z) l.
Definition shiftRanks t g (delta : option Z) : res graph :=
  res_fold (λ g v, updNode g v (add_rank delta)) g (nodes t).

(** [while(tightTree(t,g)<size)]. *)
Fixpoint feasible_loop (fuel : nat) t g (size : Z) : res (tree * graph) :=
  r <-- tightTree t g ;;
  if decide (r.1 < size)%Z then
    match fuel with
    | O => Throw (JsError "out of fuel")
    | S fuel' =>
        edge <-- findMinSlackEdge r.2 g ;;
        edge <-- of_option edge ;;
        s <-- slack g edge ;;
        let delta := if hasNode r.2 (ev edge) then s else Z.opp <$> s in
        g <-- shiftRanks r.2 g delta ;;
        feasible_loop fuel' r.2 g size
    end
  else Ok (r.2, g).

(** [g.nodes()[0]] of an empty graph is [undefined], which becomes a node id. *)
Definition feasibleTree g : res (tree * graph) :=
  let start := default "undefined"%string (head (nodes g)) in
  t <-- setNode (newGraph false false false) start (Some (Some no_node)) ;;
  feasible_loop (length (nodes g)) t g (nodeCount g).
End Tree.

(** ** Adding a leaf to an undirected graph *)

Section Leaf.
Context {L N E : Type}.
Implicit Types (t : Graph L N E).

(** [setNode(w)] followed by [setEdge(v,w)] when [w] is new. *)
Record leaf_added t v w t' : Prop := {
  la_wf : wf t';
  la_directed : isDirected t' = isDirected t;
  la_node : ∀ u, isNode t' u ↔ u = w ∨ isNode t u;
  la_count : length (nodes t') = S (length (nodes t));
  la_edge : ∀ x, x ∈ edges t' ↔ x = edgeArgsToObj (isDirected t) v w None ∨ x ∈ edges t;
  la_ecount : length (edges t') = S (length (edges t))
}.

Lemma leaf_added_ok t v w nl el :
  wf t → isNode t v → plain w → ¬ isNode t w →
  ∃ t1 t', setNode t w (Some nl) = Ok t1 ∧ setEdge t1 v w (Some el) None = Ok t' ∧ leaf_added t v w t'.
Proof.
  intros Hwf Hv Hw Hnw. destruct (setNode_ok t w (Some nl) Hwf Hw) as (t1 & H1 & P1).
  destruct (setEdge_ok t1 v w (Some el) None) as (t' & H2 & P2);
    [apply P1|by apply (wf_plain _ Hwf)|done|done|by left|].
  pose proof (sn_wf _ _ _ _ P1) as Hwf1. pose proof (se_wf _ _ _ _ _ _ P2) as Hwf'.
  destruct (sn_options _ _ _ _ P1) as (Hd1 & _). destruct (se_options _ _ _ _ _ _ P2) as (Hd2 & _).
  destruct (sn_edges _ _ _ _ P1) as [Ho1 _].
  assert (∀ u, isNode t' u ↔ u = w ∨ isNode t u) as Hnodes.
  { intros u. rewrite <-(setNode_isNode _ _ _ _ u P1). unfold isNode. rewrite (se_node _ _ _ _ _ _ P2).
    destruct (oget (nodes_ t1) u) eqn:Hu; [done|]. case_decide as Huv; [|done]. exfalso.
    assert (isNode t1 u) as [??]; [|congruence]. rewrite (setNode_isNode _ _ _ _ u P1). naive_solver. }
  set (e := edgeArgsToId (isDirected t) v w None). set (x0 := edgeArgsToObj (isDirected t) v w None).
  assert (oget (edgeObjs_ t) e = None) as Hnew.
  { destruct (oget (edgeObjs_ t) e) as [y|] eqn:Hy; [|done]. exfalso.
    destruct (edge_endpoints t v w None y) as (_ & _ & ?); [done|by apply (wf_plain _ Hwf)|done..]. }
  assert (∀ e', oget (edgeObjs_ t') e' = if decide (e' = e) then Some x0 else oget (edgeObjs_ t) e') as Hobj.
  { intros e'. rewrite (se_obj _ _ _ _ _ _ P2), Ho1, Hd1. fold e x0. case_decide as He; [subst e'; by rewrite Hnew|].
    by destruct (oget (edgeObjs_ t) e'). }
  assert (∀ x, x ∈ edges t' ↔ x = x0 ∨ x ∈ edges t) as Hedges.
  { intros x. unfold edges. rewrite !elem_of_ovalues. setoid_rewrite Hobj. split.
    - intros [e' He']. case_decide; [left; congruence|right; eauto].
    - intros [->|[e' He']]; [exists e; by rewrite decide_True|]. exists e'. rewrite decide_False; [done|]. congruence. }
  exists t1, t'. split_and!; [done..|]. split; [done|congruence|done| |done|].
  - assert (nodes t' ≡ₚ w :: nodes t) as ->; [|done]. apply NoDup_Permutation.
    + by apply NoDup_nodes.
    + apply NoDup_cons. rewrite elem_of_nodes. split; [done|by apply NoDup_nodes].
    + intros u. by rewrite elem_of_cons, !elem_of_nodes, Hnodes.
  - assert (edges t' ≡ₚ x0 :: edges t) as ->; [|done]. apply NoDup_Permutation.
    + by apply NoDup_edges.
    + apply NoDup_cons. split; [|by apply NoDup_edges]. intros Hin.
      apply elem_of_ovalues in Hin as [e' He']. destruct (eok_edge _ _ _ (wf_edges _ Hwf) _ _ He') as (-> & _).
      unfold x0 in He'. rewrite edgeObjToId_Obj in He' by done. fold e in He'. congruence.
    + intros x. by rewrite elem_of_cons, Hedges.
Qed.

Lemma leaf_adjacent t v w t' : leaf_added t v w t' → adjacent t' v w ∧ ∀ a b, adjacent t a b → adjacent t' a b.
Proof.
  intros H. split.
  - unfold adjacent, arrow. assert (edgeArgsToObj (isDirected t) v w None ∈ edges t') as Hx by (apply (la_edge _ _ _ _ H); by left).
    revert Hx. unfold edgeArgsToObj. destruct (orient_cases (isDirected t) v w) as [->| ->]; intros Hx; [left|right]; by eexists.
  - intros a b [(x & Hx & ?)|(x & Hx & ?)]; [left|right]; exists x; (split; [apply (la_edge _ _ _ _ H); by right|done]).
Qed.
End Leaf.

(** ** Trees of tight edges *)

Section Spec.
Context {L : Type}.
Notation graph := (Graph L nodeLabel edgeLabel).
Notation tree := (Graph unit treeNode treeEdge).
Implicit Types (g : graph) (t : tree) (ρ : string → option Z) (v w : string) (e x : edgeObj).

Definition tight g ρ e : Prop := ∃ rv rw, ρ (ev e) = Some rv ∧ ρ (ew e) = Some rw ∧ (rw - rv = len g e)%Z.

(** The tree edge [x] joins the ends of a tight edge of the graph. *)
Definition along g ρ x : Prop :=
  ∃ e, e ∈ edges g ∧ tight g ρ e ∧ ((ev x = ev e ∧ ew x = ew e) ∨ (ev x = ew e ∧ ew x = ev e)).

Record tight_tree g ρ (start : string) t : Prop := {
  tr_wf : wf t;
  tr_undirected : isDirected t = false;
  tr_nodes : ∀ u, isNode t u → isNode g u;
  tr_start : isNode t start;
  tr_along : ∀ x, x ∈ edges t → along g ρ x;
  tr_connected : ∀ u, isNode t u → rtc (adjacent t) start u;
  tr_count : length (nodes t) = S (length (edges t))
}.

(** Every tight edge at [u] stays inside the tree. *)
Definition closed g ρ t (u : string) : Prop :=
  ∀ e, e ∈ edges g → tight g ρ e → (ev e = u → isNode t (ew e)) ∧ (ew e = u → isNode t (ev e)).

Definition extends t t' : Prop := ∀ u, isNode t u → isNode t' u.

Lemma length_extends t t' : wf t → wf t' → extends t t' → length (nodes t) ≤ length (nodes t').
Proof.
  intros Hwf Hwf' He. apply submseteq_length, NoDup_submseteq; [by apply NoDup_nodes|].
  intros u. rewrite !elem_of_nodes. apply He.
Qed.

Lemma tree_bound g ρ start t : wf g → tight_tree g ρ start t → length (nodes t) ≤ length (nodes g).
Proof.
  intros Hwf Ht. apply submseteq_length, NoDup_submseteq; [apply NoDup_nodes, Ht|].
  intros u. rewrite !elem_of_nodes. apply Ht.
Qed.

Lemma closed_extends g ρ t t' u : extends t t' → closed g ρ t u → closed g ρ t' u.
Proof. intros He Hc e Hin Ht. destruct (Hc e Hin Ht). auto. Qed.

Lemma nodeEdges_spec g v :
  wf g → isNode g v → ∃ es, nodeEdges g v None = Some es ∧ ∀ x, x ∈ es ↔ x ∈ edges g ∧ (ev x = v ∨ ew x = v).
Proof.
  intros Hwf Hv. destruct (inEdges_spec g v Hwf Hv) as (ies & Hi & _ & Hie). destruct (outEdges_spec g v Hwf Hv) as (oes & Ho & _ & Hoe).
  exists (ies ++ oes). unfold nodeEdges. rewrite Hi. simpl. rewrite Ho. split; [done|].
  intros x. rewrite elem_of_app, Hie, Hoe. naive_solver.
Qed.

(** Adding the other end of a tight edge keeps a tight tree. *)
Lemma tight_tree_leaf g ρ start t v w e t' :
  tight_tree g ρ start t → isNode t v → isNode g w → e ∈ edges g → tight g ρ e →
  (ev e = v ∧ ew e = w) ∨ (ev e = w ∧ ew e = v) → leaf_added t v w t' → tight_tree g ρ start t'.
Proof.
  intros [T1 T2 T3 T4 T5 T6 T7] Hv Hw He Ht Hend Hl. destruct (leaf_adjacent _ _ _ _ Hl) as [Hvw Hold].
  destruct Hl as [A1 A2 A3 A4 A5 A6]. split.
  - done.
  - congruence.
  - intros u [->|?]%A3; auto.
  - apply A3. by right.
  - intros x [->|?]%A5; [|by apply T5]. exists e. split_and!; [done..|]. unfold edgeArgsToObj.
    destruct (orient_cases (isDirected t) v w) as [->| ->]; simpl; naive_solver.
  - assert (∀ a b, rtc (adjacent t) a b → rtc (adjacent t') a b) as Hrtc by (intros a b; apply (rtc_congruence id); auto).
    intros u [->|?]%A3; [|auto]. eapply rtc_r; [|exact Hvw]. auto.
  - lia.
Qed.

Section Grow.
Context g ρ g1 (start : string) (Hlb : labelled g) (Hr : ranked g ρ g1).
Context (Hρ : ∀ v, isNode g v → is_Some (ρ v)).

Record grown t v t' : Prop := {
  gr_tree : tight_tree g ρ start t';
  gr_extends : extends t t';
  gr_closed : ∀ u, u = v ∨ (isNode t' u ∧ ¬ isNode t u) → closed g ρ t' u
}.

Lemma slack_tight e : e ∈ edges g →
  ∃ s, slack g1 e = Ok (Some s) ∧ (s = 0%Z ↔ tight g ρ e).
Proof.
  intros He. destruct (edges_nodes g e (lb_wf _ Hlb) He) as [[rv Hv]%Hρ [rw Hw]%Hρ].
  exists (rw - rv - len g e)%Z. split; [by apply (slack_ranked g ρ)|]. unfold tight. split; [|naive_solver lia].
  intros. exists rv, rw. split_and!; [done..|lia].
Qed.

Lemma across_ends v e : ev e = v ∨ ew e = v → (ev e = v ∧ ew e = across v e) ∨ (ev e = across v e ∧ ew e = v).
Proof. unfold across. case_decide; naive_solver. Qed.

Lemma tt_dfs_spec fuel t v :
  tight_tree g ρ start t → isNode t v → length (nodes g) < fuel + length (nodes t) →
  ∃ t', tt_dfs fuel g1 t v = Ok t' ∧ grown t v t'.
Proof.
  pose proof (lb_wf _ Hlb) as Hwf. revert t v. induction fuel as [|fuel IH]; intros t v Ht Hv Hf.
  { pose proof (tree_bound g ρ start t Hwf Ht). simpl in Hf. lia. }
  cbn [tt_dfs]. destruct (nodeEdges_spec g v Hwf) as (es & Hes & Hin); [by apply Ht|].
  destruct (ranked_edges _ _ _ Hr) as (_ & _ & _ & Hne). rewrite Hne, Hes. change (default [] (Some es)) with es.
  match goal with |- context [res_fold ?f ?s ?l] =>
    destruct (res_fold_inv f (λ done t1, tight_tree g ρ start t1 ∧ extends t t1 ∧
      (∀ u, isNode t1 u → ¬ isNode t u → closed g ρ t1 u) ∧
      ∀ e, e ∈ done → tight g ρ e → isNode t1 (across v e)) l s) as (t1 & Hr1 & T1 & E1 & N1 & D1)
  end.
  - split_and!; [done|by intros ?|naive_solver|by intros e ?%elem_of_nil].
  - intros done e rest t1 Heq (T1 & E1 & N1 & D1). assert (e ∈ es) as [He Hev]%Hin by (rewrite Heq; set_solver).
    apply across_ends in Hev. set (w := across v e) in *.
    assert (isNode g w) as Hw by (destruct (edges_nodes g e Hwf He); naive_solver congruence).
    assert (∀ t2, extends t1 t2 → (tight g ρ e → isNode t2 w) → ∀ e', e' ∈ done ++ [e] → tight g ρ e' → isNode t2 (across v e')) as Hdone.
    { intros t2 E2 H2 e' [He'| ->%list_elem_of_singleton]%elem_of_app Ht'; [by apply E2, D1|by apply H2]. }
    destruct (hasNode t1 w) eqn:Hh.
    { apply hasNode_true in Hh. exists t1. split_and!; [done..|]. apply Hdone; [by intros ?|done]. }
    apply hasNode_false in Hh. destruct (slack_tight e He) as (s & -> & Hs). cbn [res_bind default from_option id].
    destruct (decide (s = 0%Z)) as [H0|H0].
    2: { exists t1. split_and!; [done..|]. apply Hdone; [by intros ?|]. naive_solver. }
    destruct (leaf_added_ok t1 v w (Some no_node) (Some no_edge)) as (t2 & t3 & -> & H3 & Hl);
      [apply T1|by apply E1|by apply (wf_plain _ Hwf)|done|]. cbn [res_bind]. rewrite H3. cbn [res_bind].
    assert (tight_tree g ρ start t3) as T3 by (eapply tight_tree_leaf; [exact T1|by apply E1|exact Hw|exact He|by apply Hs|done|done]).
    assert (extends t1 t3) as E3 by (intros u Hu; apply (la_node _ _ _ _ Hl); by right).
    assert (isNode t3 w) as Hw3 by (apply (la_node _ _ _ _ Hl); by left).
    destruct (IH t3 w T3 Hw3) as (t4 & -> & [T4 E4 C4]).
    { rewrite (la_count _ _ _ _ Hl). pose proof (length_extends t t1 (tr_wf _ _ _ _ Ht) (tr_wf _ _ _ _ T1) E1). lia. }
    exists t4. split_and!; [done|done| | |].
    + intros u Hu. by apply E4, E3, E1.
    + intros u Hu Hnu. destruct (hasNode t3 u) eqn:Hu3; [apply hasNode_true in Hu3|apply hasNode_false in Hu3; apply C4; by right].
      apply (la_node _ _ _ _ Hl) in Hu3 as [->|Hu1]; [apply C4; by left|].
      apply (closed_extends _ _ t1); [intros ? ?; by apply E4, E3|by apply N1].
    + apply Hdone; [intros ? ?; by apply E4, E3|]. intros _. by apply E4.
  - exists t1. split; [done|]. split; [done|done|]. intros u [->|[? ?]]; [|by apply N1].
    intros e He Hte. split; intros Hev.
    + assert (across v e = ew e) as <- by (unfold across; by rewrite decide_True). apply D1; [apply Hin; naive_solver|done].
    + destruct (decide (v = ev e)) as [Hv'|Hv']; [rewrite <-Hv'; by apply E1|].
      assert (across v e = ev e) as <- by (unfold across; by rewrite decide_False). apply D1; [apply Hin; naive_solver|done].
Qed.

(** [tightTree] returns a tight tree that no tight edge leaves. *)
Lemma tightTree_spec t :
  tight_tree g ρ start t →
  ∃ t', tightTree t g1 = Ok (Z.of_nat (length (nodes t')), t') ∧ tight_tree g ρ start t' ∧ extends t t' ∧
    ∀ u, isNode t' u → closed g ρ t' u.
Proof.
  intros Ht. unfold tightTree. pose proof (lb_wf _ Hlb) as Hwf.
  assert (length (nodes g1) = length (nodes g)) as Hlen.
  { apply Permutation_length, NoDup_Permutation; [apply NoDup_nodes, Hr|by apply NoDup_nodes|].
    intros u. rewrite !elem_of_nodes. by apply (ranked_node g ρ). }
  destruct (res_fold_inv (tt_dfs (S (length (nodes g1))) g1) (λ done t1, tight_tree g ρ start t1 ∧ extends t t1 ∧
      ∀ u, u ∈ done ∨ (isNode t1 u ∧ ¬ isNode t u) → closed g ρ t1 u) (nodes t) t) as (t' & -> & T' & E' & C').
  - split_and!; [done|by intros ?|]. intros u [?%elem_of_nil|[??]]; done.
  - intros done v rest t1 Heq (T1 & E1 & C1).
    assert (isNode t1 v) as Hv by (apply E1, elem_of_nodes; rewrite Heq; set_solver).
    destruct (tt_dfs_spec (S (length (nodes g1))) t1 v T1 Hv) as (t2 & Hr2 & [T2 E2 C2]); [lia|].
    exists t2. split_and!; [done|done|intros u ?; by apply E2, E1|].
    intros u Hu. destruct (decide (u = v)) as [->|Huv]; [apply C2; by left|].
    destruct (hasNode t1 u) eqn:Hu1; [apply hasNode_true in Hu1|apply hasNode_false in Hu1].
    + apply (closed_extends _ _ t1); [done|]. apply C1. set_solver.
    + destruct Hu as [Hu|[? ?]]; [|apply C2; by right].
      exfalso. apply Hu1, E1, elem_of_nodes. rewrite Heq. set_solver.
  - exists t'. cbn [res_bind]. rewrite nodeCount_spec by apply T'. split_and!; [done..|].
    intros u Hu. apply C'. destruct (hasNode t u) eqn:Ht'; [left; by apply elem_of_nodes, hasNode_true|right].
    split; [done|by apply hasNode_false].
Qed.
End Grow.

(** ** Shifting the tree *)

Definition crossing t e : Prop := xorb (hasNode t (ev e)) (hasNode t (ew e)) = true.

#[export] Instance crossing_dec t e : Decision (crossing t e).
Proof. unfold crossing. apply _. Defined.

Lemma crossing_iff t e :
  crossing t e ↔ (isNode t (ev e) ∧ ¬ isNode t (ew e)) ∨ (¬ isNode t (ev e) ∧ isNode t (ew e)).
Proof.
  unfold crossing. rewrite <-!hasNode_true. destruct (hasNode t (ev e)), (hasNode t (ew e)); simpl; naive_solver.
Qed.

(** A path that leaves the tree has an edge that crosses. *)
Lemma leaves_tree g t u w :
  rtc (adjacent g) u w → isNode t u → ¬ isNode t w → ∃ e, e ∈ edges g ∧ crossing t e.
Proof.
  induction 1 as [|u v w Huv _ IH]; intros Hu Hw; [done|].
  destruct (hasNode t v) eqn:Hv; [apply hasNode_true in Hv; by apply IH|]. apply hasNode_false in Hv.
  destruct Huv as [(x & Hx & <- & <-)|(x & Hx & <- & <-)]; exists x; (split; [done|]); apply crossing_iff; auto.
Qed.

(** The slack of an edge as a number. *)
Definition sl g ρ e : Z := (default 0 (ρ (ew e)) - default 0 (ρ (ev e)) - len g e)%Z.

Section Shift.
Context g ρ g1 (Hlb : labelled g) (Hr : ranked g ρ g1) (Hρ : ∀ v, isNode g v → is_Some (ρ v)).

Lemma slack_sl e : e ∈ edges g → slack g1 e = Ok (Some (sl g ρ e)).
Proof.
  intros He. destruct (edges_nodes g e (lb_wf _ Hlb) He) as [[rv Hv]%Hρ [rw Hw]%Hρ].
  rewrite (slack_ranked g ρ g1 e rv rw) by done. unfold sl. by rewrite Hv, Hw.
Qed.

Lemma findMinSlackEdge_spec t :
  (∃ e, e ∈ edges g ∧ crossing t e) →
  ∃ e, findMinSlackEdge t g1 = Ok (Some e) ∧ e ∈ edges g ∧ crossing t e ∧
    ∀ e', e' ∈ edges g → crossing t e' → (sl g ρ e ≤ sl g ρ e')%Z.
Proof.
  intros (e0 & He0 & Hc0). set (crit e := if decide (crossing t e) then Some (sl g ρ e) else None).
  unfold findMinSlackEdge. destruct (ranked_edges _ _ _ Hr) as (-> & _).
  match goal with |- context [res_fold ?f ?s ?l] =>
    destruct (res_fold_inv f (λ done cs, cs = (λ e, (e, crit e)) <$> done) l s) as (cs & -> & ->); [done| |]
  end.
  - intros done e rest cs Heq ->. assert (e ∈ edges g) as He by (rewrite Heq; set_solver).
    assert (slack_criterion t g1 e = Ok (crit e)) as ->.
    { unfold slack_criterion, crit. rewrite slack_sl by done.
      destruct (decide (crossing t e)) as [Hx|Hx]; unfold crossing in Hx; [by rewrite Hx|by destruct (xorb _ _)]. }
    eexists. split; [done|]. by rewrite fmap_app.
  - cbn [res_bind]. pose proof (minBy_spec ((λ e, (e, crit e)) <$> edges g) snd) as Hm.
    assert ((e0, crit e0) ∈ (λ e, (e, crit e)) <$> edges g) as Hin0 by (apply list_elem_of_fmap; eauto).
    destruct (minBy _ snd) as [[e c]|] eqn:Hmin.
    + destruct Hm as (pre & post & d & Heq & Hc & H1 & H2). simpl in Hc. subst c. exists e. split; [done|].
      assert ((e, Some d) ∈ (λ e, (e, crit e)) <$> edges g) as Hin by (rewrite Heq; set_solver).
      apply list_elem_of_fmap in Hin as (e' & [= <- Hd] & He). unfold crit in Hd. case_decide as Hcr; [|done].
      injection Hd as ->. split_and!; [done..|]. intros e' He' Hcr'.
      assert ((e', crit e') ∈ (λ e, (e, crit e)) <$> edges g) as Hin' by (apply list_elem_of_fmap; eauto).
      assert (crit e' = Some (sl g ρ e')) as Hce by (unfold crit; by rewrite decide_True).
      rewrite Heq in Hin'. apply elem_of_app in Hin' as [Hp|[Hp|Hp]%elem_of_cons].
      * destruct (H1 _ (sl g ρ e') Hp Hce). lia.
      * assert (e' = e) as -> by congruence. done.
      * apply (H2 _ (sl g ρ e') Hp Hce).
    + specialize (Hm _ Hin0). unfold crit in Hm. simpl in Hm. by rewrite decide_True in Hm.
Qed.

(** The ranks after [shiftRanks(t, g, delta)]. *)
Definition shifted t (delta : Z) (u : string) : option Z :=
  if hasNode t u then (λ r, (r + delta)%Z) <$> ρ u else ρ u.

Lemma shiftRanks_spec t delta :
  wf t → (∀ u, isNode t u → isNode g u) → ∃ g2, shiftRanks t g1 (Some delta) = Ok g2 ∧ ranked g (shifted t delta) g2.
Proof.
  intros Hwf Ht. destruct (updNodes_ranked g ρ g1 (nodes t) (add_rank (Some delta)) (λ u, default 0 (ρ u) + delta)%Z)
    as (g2 & Hs & Hg2); [done..|by apply NoDup_nodes|intros v ?%elem_of_nodes; auto| |].
  { intros v l Hv%elem_of_nodes%Ht%Hρ. destruct Hv as [r Hrv]. rewrite Hrv. done. }
  exists g2. split; [done|]. eapply ranked_ext; [|exact Hg2]. intros u Hu. unfold shifted. simpl. destruct (Hρ u Hu) as [r ->].
  destruct (hasNode t u) eqn:Hh; [apply hasNode_true in Hh; by rewrite decide_True by (by apply elem_of_nodes)|].
  apply hasNode_false in Hh. by rewrite decide_False by (by rewrite elem_of_nodes).
Qed.

Lemma shifted_Some t delta v : isNode g v → is_Some (shifted t delta v).
Proof. intros [r Hv]%Hρ. unfold shifted. rewrite Hv. destruct (hasNode t v); eauto. Qed.

Lemma sl_shifted t delta e :
  e ∈ edges g → sl g (shifted t delta) e =
    (sl g ρ e + (if hasNode t (ew e) then delta else 0) - (if hasNode t (ev e) then delta else 0))%Z.
Proof.
  intros He. destruct (edges_nodes g e (lb_wf _ Hlb) He) as [[rv Hv]%Hρ [rw Hw]%Hρ].
  unfold sl, shifted. rewrite Hv, Hw. destruct (hasNode t (ew e)), (hasNode t (ev e)); simpl; lia.
Qed.

Lemma tight_sl e : e ∈ edges g → tight g ρ e ↔ sl g ρ e = 0%Z.
Proof.
  intros He. destruct (edges_nodes g e (lb_wf _ Hlb) He) as [[rv Hv]%Hρ [rw Hw]%Hρ].
  unfold tight, sl. rewrite Hv, Hw. simpl. split; [naive_solver lia|]. intros. exists rv, rw. split_and!; [done..|lia].
Qed.
End Shift.

(** ** The loop *)

Definition connected g : Prop := ∀ u v, isNode g u → isNode g v → rtc (adjacent g) u v.

Lemma feasible_sl g ρ :
  labelled g → (∀ v, isNode g v → is_Some (ρ v)) → feasible g ρ ↔ ∀ x, x ∈ edges g → (0 ≤ sl g ρ x)%Z.
Proof.
  intros Hlb Hρ. unfold feasible, sl. split.
  - intros Hf x Hx. destruct (Hf x Hx) as (rv & rw & -> & -> & ?). simpl. lia.
  - intros Hs x Hx. destruct (edges_nodes g x (lb_wf _ Hlb) Hx) as [[rv Hv]%Hρ [rw Hw]%Hρ].
    exists rv, rw. specialize (Hs x Hx). rewrite Hv, Hw in Hs. simpl in Hs. split_and!; [done..|lia].
Qed.

(** Shifting by the least slack keeps every edge long enough and makes an edge that
    leaves the tree tight; edges inside the tree keep their slack. *)
Lemma shift_feasible g ρ t e delta :
  labelled g → (∀ v, isNode g v → is_Some (ρ v)) → (∀ x, x ∈ edges g → (0 ≤ sl g ρ x)%Z) →
  e ∈ edges g → crossing t e → (∀ e', e' ∈ edges g → crossing t e' → (sl g ρ e ≤ sl g ρ e')%Z) →
  delta = (if hasNode t (ev e) then sl g ρ e else - sl g ρ e)%Z →
  (∀ x, x ∈ edges g → (0 ≤ sl g (shifted ρ t delta) x)%Z) ∧ sl g (shifted ρ t delta) e = 0%Z.
Proof.
  intros Hlb Hρ Hf He Hc Hmin ->. split.
  - intros x Hx. rewrite (sl_shifted g ρ Hlb Hρ) by done. pose proof (Hf x Hx). pose proof (Hf e He).
    destruct (decide (crossing t x)) as [Hcx|Hcx].
    + specialize (Hmin x Hx Hcx). unfold crossing in Hcx, Hc.
      destruct (hasNode t (ev x)), (hasNode t (ew x)), (hasNode t (ev e)), (hasNode t (ew e)); simpl in *; done || lia.
    + unfold crossing in Hcx, Hc. destruct (hasNode t (ev x)), (hasNode t (ew x)), (hasNode t (ev e)); simpl in *; done || lia.
  - rewrite (sl_shifted g ρ Hlb Hρ) by done. unfold crossing in Hc.
    destruct (hasNode t (ev e)), (hasNode t (ew e)); simpl in *; done || lia.
Qed.

(** The tree is still tight after the shift. *)
Lemma shift_tree g ρ start t delta :
  labelled g → (∀ v, isNode g v → is_Some (ρ v)) → tight_tree g ρ start t → tight_tree g (shifted ρ t delta) start t.
Proof.
  intros Hlb Hρ [T1 T2 T3 T4 T5 T6 T7]. split; try done. intros x Hx. destruct (T5 x Hx) as (e & He & Ht & Hends).
  exists e. split_and!; [done| |done].
  apply (tight_sl g (shifted ρ t delta) Hlb); [by apply shifted_Some|done|]. rewrite (sl_shifted g ρ Hlb Hρ) by done.
  apply (tight_sl g ρ Hlb Hρ) in Ht; [|done].
  assert (hasNode t (ev e) = true ∧ hasNode t (ew e) = true) as [-> ->]; [|lia].
  destruct (edges_nodes t x T1 Hx). rewrite !hasNode_true. naive_solver congruence.
Qed.

Lemma feasible_loop_spec fuel g ρ g1 start t :
  labelled g → connected g → ranked g ρ g1 → (∀ v, isNode g v → is_Some (ρ v)) →
  (∀ x, x ∈ edges g → (0 ≤ sl g ρ x)%Z) → tight_tree g ρ start t →
  (∀ t', tight_tree g ρ start t' → extends t t' → (∀ u, isNode t' u → closed g ρ t' u) →
     length (nodes g) < fuel + length (nodes t')) →
  ∃ t' g' ρ', feasible_loop fuel t g1 (Z.of_nat (length (nodes g))) = Ok (t', g') ∧ ranked g ρ' g' ∧
    (∀ v, isNode g v → is_Some (ρ' v)) ∧ (∀ x, x ∈ edges g → (0 ≤ sl g ρ' x)%Z) ∧
    tight_tree g ρ' start t' ∧ ∀ u, isNode t' u ↔ isNode g u.
Proof.
  intros Hlb Hcon. pose proof (lb_wf _ Hlb) as Hwf. revert ρ g1 t.
  induction fuel as [|fuel IH]; intros ρ g1 t Hr Hρ Hf Ht Hfuel; cbn [feasible_loop];
    destruct (tightTree_spec g ρ g1 start Hlb Hr Hρ t Ht) as (t' & -> & Ht' & He & Hcl); cbn [res_bind fst snd];
    specialize (Hfuel t' Ht' He Hcl); (case_decide as Hsize; [|
      exists t', g1, ρ; split_and!; [done..|]; intros u; split; [apply Ht'|]; intros Hu;
      assert (nodes t' ≡ₚ nodes g) as Hp by
        (apply submseteq_length_Permutation; [apply NoDup_submseteq; [apply NoDup_nodes, Ht'|]; intros v; rewrite !elem_of_nodes; apply Ht'|lia]);
      apply elem_of_nodes; rewrite Hp; by apply elem_of_nodes]).
  { lia. }
  assert (∃ e, e ∈ edges g ∧ crossing t' e) as Hex.
  { destruct (decide (Forall (λ u, isNode t' u) (nodes g))) as [Hall|Hnall].
    - exfalso. rewrite Forall_forall in Hall. assert (length (nodes g) ≤ length (nodes t')); [|lia].
      apply submseteq_length, NoDup_submseteq; [by apply NoDup_nodes|]. intros u Hu. by apply elem_of_nodes, Hall.
    - apply not_Forall_Exists, Exists_exists in Hnall as (u & Hu%elem_of_nodes & Hn); [|apply _].
      eapply (leaves_tree g t' start u); [apply Hcon; [apply (tr_nodes _ _ _ _ Ht')|done]| |done]; apply (tr_start _ _ _ _ Ht'). }
  destruct (findMinSlackEdge_spec g ρ g1 Hlb Hr Hρ t' Hex) as (e & -> & Hee & Hce & Hmin). cbn [res_bind of_option].
  rewrite (slack_sl g ρ g1 Hlb Hr Hρ e Hee). cbn [res_bind].
  set (delta := if hasNode t' (ev e) then sl g ρ e else (- sl g ρ e)%Z).
  replace (if hasNode t' (ev e) then Some (sl g ρ e) else Z.opp <$> Some (sl g ρ e)) with (Some delta) by (unfold delta; by destruct (hasNode t' (ev e))).
  destruct (shiftRanks_spec g ρ g1 Hlb Hr Hρ t' delta) as (g2 & -> & Hr2); [apply Ht'|apply Ht'|]. cbn [res_bind].
  destruct (shift_feasible g ρ t' e delta Hlb Hρ Hf Hee Hce Hmin eq_refl) as [Hf2 He2].
  apply (IH (shifted ρ t' delta)); [done|by apply shifted_Some|done|by apply shift_tree|].
  intros t2 Ht2 He' Hcl2. assert (S (length (nodes t')) ≤ length (nodes t2)); [|lia].
  apply (tight_sl g (shifted ρ t' delta) Hlb) in He2; [|by apply shifted_Some|done].
  assert (∃ u, isNode t2 u ∧ ¬ isNode t' u) as (u & Hu2 & Hu').
  { apply crossing_iff in Hce as [[H1 H2]|[H1 H2]].
    - exists (ew e). split; [|done]. by apply (Hcl2 (ev e) (He' _ H1) e Hee He2).
    - exists (ev e). split; [|done]. by apply (Hcl2 (ew e) (He' _ H2) e Hee He2). }
  change (length (u :: nodes t') ≤ length (nodes t2)). apply submseteq_length, NoDup_submseteq.
  - apply NoDup_cons. rewrite elem_of_nodes. split; [done|]. apply NoDup_nodes, Ht'.
  - intros w [->|Hw]%elem_of_cons; apply elem_of_nodes; [done|]. by apply He', elem_of_nodes.
Qed.
End Spec.
