(* ===== verification/DagreRankClaims.v ===== *)
(** * dagre: ranks that respect the minimum lengths

    The longest-path and tight-tree rankers on labelled graphs, and the shift of all ranks
    to start at 0. *)
From Stdlib Require Import QArith_base.
Local Close Scope Q_scope.
From S2P Require Import Prelude JsObject Graphlib GraphWf GraphInv GraphQuery GraphView GraphAlg GraphDfs Lodash LodashSpec.
From S2P Require Import DagreTypes DagreRank DagreTree.

Section Rankers.
Context {L : Type}.
Notation graph := (Graph L nodeLabel edgeLabel).
Notation tree := (Graph unit treeNode treeEdge).
Implicit Types (g : graph) (t : tree) (ρ : string → option Z) (v w : string) (e x : edgeObj).

(** [tightTreeRanker(g)]. *)
Definition tightTreeRanker g : res graph :=
  g <-- longestPath g ;; r <-- feasibleTree g ;; Ok r.2.

(** [normalizeRanks(g)]; subtracting [undefined] gives [NaN], here [None]. *)
Definition sub_rank (m : option Z) (l : nodeLabel) : nodeLabel :=
  match rank l with Some r => set_rank (z ← m; Some (r - z)%Z) l | None => l end.
Definition normalizeRanks g : res graph :=
  rs <-- res_fold (λ rs v, l <-- of_option (node g v) ;; Ok (rs ++ [rank l])) [] (nodes g) ;;
  res_fold (λ g v, updNode g v (sub_rank (Lodash.min rs))) g (nodes g).

(** Nothing but ranks differs. *)
Definition reranked g g' : Prop := ∃ ρ, ranked g ρ g'.

Lemma ranked_rankOf g ρ g' v : labelled g → ranked g ρ g' → isNode g v → rankOf g' v = ρ v.
Proof. intros Hlb Hr Hv. destruct (lb_node _ Hlb v Hv) as [l Hl]. unfold rankOf. by rewrite (ranked_label _ _ _ _ _ Hr Hl). Qed.

Lemma start_tree g ρ start :
  wf g → isNode g start →
  ∃ t, setNode (newGraph false false false) start (Some (Some no_node)) = Ok t ∧ tight_tree g ρ start t.
Proof.
  intros Hwf Hs. destruct (setNode_ok (newGraph (L := unit) (N := treeNode) (E := treeEdge) false false false) start (Some (Some no_node)))
    as (t & Ht & P); [apply newGraph_wf|by apply (wf_plain _ Hwf)|]. exists t. split; [done|].
  assert (∀ u, isNode t u ↔ u = start) as Hn.
  { intros u. rewrite (setNode_isNode _ _ _ _ _ P). split; [|by left]. by intros [?|[??]]. }
  destruct (sn_edges _ _ _ _ P) as [He _]. assert (edges t = []) as Hed by (unfold edges; by rewrite He).
  destruct (sn_options _ _ _ _ P) as (Hd & _). split.
  - apply P.
  - done.
  - by intros u ->%Hn.
  - by apply Hn.
  - intros x. rewrite Hed. by intros ?%elem_of_nil.
  - by intros u ->%Hn.
  - rewrite Hed. assert (nodes t ≡ₚ [start]) as ->; [|done]. apply NoDup_Permutation; [apply NoDup_nodes, P|apply NoDup_singleton|].
    intros u. by rewrite elem_of_nodes, list_elem_of_singleton.
Qed.

Lemma feasibleTree_ok g ρ g1 :
  labelled g → connected g → nodes g1 ≠ [] → ranked g ρ g1 → (∀ v, isNode g v → is_Some (ρ v)) → feasible g ρ →
  ∃ t g' ρ' start, feasibleTree g1 = Ok (t, g') ∧ ranked g ρ' g' ∧ (∀ v, isNode g v → is_Some (ρ' v)) ∧
    feasible g ρ' ∧ tight_tree g ρ' start t ∧ ∀ u, isNode t u ↔ isNode g u.
Proof.
  intros Hlb Hcon Hne Hr Hρ Hf. pose proof (lb_wf _ Hlb) as Hwf. pose proof (rk_wf _ _ _ Hr) as Hwf1.
  assert (nodes g1 ≡ₚ nodes g) as Hperm.
  { apply NoDup_Permutation; [by apply NoDup_nodes..|]. intros u. rewrite !elem_of_nodes. by apply (ranked_node g ρ). }
  destruct (nodes g1) as [|start vs] eqn:Hns; [done|].
  assert (isNode g start) as Hstart by (apply elem_of_nodes; rewrite <-Hperm; by left).
  destruct (start_tree g ρ start Hwf Hstart) as (t & Ht & Htt).
  rewrite (feasible_sl g ρ Hlb Hρ) in Hf.
  destruct (feasible_loop_spec (length (nodes g)) g ρ g1 start t) as (t' & g' & ρ' & Hl & Hr' & Hρ' & Hf' & Ht' & Hn); [done..| |].
  { intros t' Ht' _ _. rewrite (tr_count _ _ _ _ Ht'). lia. }
  exists t', g', ρ', start. split_and!; [|done|done|by apply feasible_sl|done|done].
  unfold feasibleTree. rewrite nodeCount_spec, Hns by done. cbn [head default from_option id]. rewrite Ht. cbn [res_bind].
  by rewrite Hperm.
Qed.

(** On a graph without cycles [longestPath] changes nothing but ranks; every edge gets at least its
    minimum length, and every node either has rank 0 and no successor or an out-edge of exactly the minimum length, so the
    rank is the length of a longest path to a sink, negated. *)
Theorem longestPath_feasible g :
  labelled g → acyclic g →
  ∃ g', longestPath g = Ok g' ∧ reranked g g' ∧
    (∀ x, x ∈ edges g → ∃ s, slack g' x = Ok (Some s) ∧ (0 ≤ s)%Z) ∧
    (∀ v, isNode g v →
       (rankOf g' v = Some 0%Z ∧ ∀ x, x ∈ edges g → ev x ≠ v) ∨
       (∃ x, x ∈ edges g ∧ ev x = v ∧ slack g' x = Ok (Some 0%Z))).
Proof.
  intros Hlb Hac. destruct (longestPath_spec g Hlb Hac) as (g' & ρ & Hr & Hrk & Hex). exists g'.
  split_and!; [done|by exists ρ| |].
  - intros x Hx. destruct (exact_feasible g ρ (lb_wf _ Hlb) Hex x Hx) as (rv & rw & Hv & Hw & Hle).
    exists (rw - rv - len g x)%Z. split; [by apply (slack_ranked g ρ)|lia].
  - intros v Hv. destruct (Hex v Hv) as (r & Hr0 & _ & [[-> Hn]|(x & rw & Hx & Hxv & Hw & ->)]).
    + left. split; [|done]. by rewrite (ranked_rankOf g ρ).
    + right. exists x. split_and!; [done..|]. rewrite (slack_ranked g ρ g' x (rw - len g x) rw) by congruence. do 2 f_equal. lia.
Qed.

(** C19: The tight-tree ranker on a connected graph without cycles terminates; it changes nothing but
    ranks, every edge has at least its minimum length, and the tree it built spans the graph with edges
    of exactly the minimum length. *)
Theorem tightTree_spanning g :
  labelled g → acyclic g → connected g → nodes g ≠ [] →
  ∃ g1 t g', longestPath g = Ok g1 ∧ feasibleTree g1 = Ok (t, g') ∧ tightTreeRanker g = Ok g' ∧ reranked g g' ∧
    (∀ x, x ∈ edges g → ∃ s, slack g' x = Ok (Some s) ∧ (0 ≤ s)%Z) ∧
    nodes t ≡ₚ nodes g ∧ length (nodes t) = S (length (edges t)) ∧
    (∀ u v, isNode t u → isNode t v → rtc (adjacent t) u v) ∧
    (∀ x, x ∈ edges t → ∃ e, e ∈ edges g ∧ slack g' e = Ok (Some 0%Z) ∧
       ((ev x = ev e ∧ ew x = ew e) ∨ (ev x = ew e ∧ ew x = ev e))).
Proof.
  intros Hlb Hac Hcon Hne. pose proof (lb_wf _ Hlb) as Hwf.
  destruct (longestPath_spec g Hlb Hac) as (g1 & ρ & H1 & Hrk & Hex).
  assert (∀ v, isNode g v → is_Some (ρ v)) as Hρ by (intros v (r & -> & _)%Hex; eauto).
  destruct (feasibleTree_ok g ρ g1) as (t & g' & ρ' & start & Hft & Hrk' & Hρ' & Hf' & Ht & Hn);
    [done..| |done|done|by apply exact_feasible|].
  { intros Hnil. apply Hne. apply Permutation_nil. rewrite <-Hnil.
    apply NoDup_Permutation; [apply NoDup_nodes, Hrk|by apply NoDup_nodes|]. intros u. rewrite !elem_of_nodes. by apply (ranked_node g ρ). }
  exists g1, t, g'. split_and!; [done|done| |by exists ρ'| | |apply Ht| |].
  - unfold tightTreeRanker. rewrite H1. simpl. by rewrite Hft.
  - intros x Hx. destruct (Hf' x Hx) as (rv & rw & Hv & Hw & Hle). exists (rw - rv - len g x)%Z. split; [by apply (slack_ranked g ρ')|lia].
  - apply NoDup_Permutation; [apply NoDup_nodes, Ht|by apply NoDup_nodes|]. intros u. by rewrite !elem_of_nodes.
  - intros u v Hu Hv. trans start; [apply connected_sym|]; by apply Ht.
  - intros x Hx. destruct (tr_along _ _ _ _ Ht x Hx) as (e & He & (rv & rw & Hv & Hw & Hlen) & Hends). exists e.
    split_and!; [done| |done]. rewrite (slack_ranked g ρ' g' e rv rw) by done. do 2 f_equal. lia.
Qed.

(** The list of ranks that [normalizeRanks] takes the minimum of. *)
Lemma collect_ranks g :
  labelled g → res_fold (λ rs v, l <-- of_option (node g v) ;; Ok (rs ++ [rank l])) [] (nodes g) = Ok (rankOf g <$> nodes g).
Proof.
  intros Hlb. destruct (res_fold_inv (λ rs v, l <-- of_option (node g v) ;; Ok (rs ++ [rank l])) (λ done rs, rs = rankOf g <$> done) (nodes g) [])
    as (rs & -> & ->); [done| |done].
  intros done v rest rs Heq ->. assert (isNode g v) as Hv by (apply elem_of_nodes; rewrite Heq; set_solver).
  destruct (lb_node _ Hlb v Hv) as [l Hl]. assert (node g v = Some l) as Hnl by (unfold node; by rewrite Hl).
  rewrite Hnl. simpl. eexists. split; [done|]. rewrite fmap_app. simpl. unfold rankOf. by rewrite Hnl.
Qed.

Lemma normalizeRanks_ok g :
  labelled g → nodes g ≠ [] → (∀ v, isNode g v → is_Some (rankOf g v)) →
  ∃ m g', normalizeRanks g = Ok g' ∧ ranked g (λ v, (λ r, r - m)%Z <$> rankOf g v) g' ∧
    (∃ v, isNode g v ∧ rankOf g v = Some m) ∧ ∀ v r, isNode g v → rankOf g v = Some r → (m ≤ r)%Z.
Proof.
  intros Hlb Hne Hρ. pose proof (lb_wf _ Hlb) as Hwf. unfold normalizeRanks. rewrite collect_ranks by done. cbn [res_bind].
  pose proof (min_spec (rankOf g <$> nodes g)) as Hm.
  assert (∀ v r, isNode g v → rankOf g v = Some r → Some r ∈ rankOf g <$> nodes g) as Hin.
  { intros v r Hv Hr. apply list_elem_of_fmap. exists v. by rewrite elem_of_nodes. }
  destruct (Lodash.min (rankOf g <$> nodes g)) as [m|].
  2: { exfalso. destruct (nodes g) as [|v vs] eqn:Hns; [done|]. assert (isNode g v) as Hv by (apply elem_of_nodes; rewrite Hns; by left).
       destruct (Hρ v Hv) as [r Hr]. by apply (Hm r), (Hin v). }
  destruct Hm as [(v0 & Hv0 & Hin0%elem_of_nodes)%list_elem_of_fmap Hle].
  destruct (updNodes_ranked g (rankOf g) g (nodes g) (sub_rank (Some m)) (λ v, default 0 (rankOf g v) - m)%Z) as (g' & Hs & Hr);
    [done|by apply ranked_refl|by apply NoDup_nodes|by intros v ?%elem_of_nodes| |].
  { intros v l Hv%elem_of_nodes%Hρ. destruct Hv as [r ->]. done. }
  exists m, g'. split_and!; [done| |by exists v0|eauto].
  eapply ranked_ext; [|exact Hr]. intros u Hu. simpl. rewrite decide_True by (by apply elem_of_nodes). by destruct (Hρ u Hu) as [r ->].
Qed.

(** [normalizeRanks] on a graph whose nodes all have ranks shifts them so that the smallest is 0; the
    slack of every edge is kept. *)
Theorem normalizeRanks_spec g :
  labelled g → nodes g ≠ [] → (∀ v, isNode g v → is_Some (rankOf g v)) →
  ∃ g', normalizeRanks g = Ok g' ∧ reranked g g' ∧
    (∀ v, isNode g v → ∃ r, rankOf g' v = Some r ∧ (0 ≤ r)%Z) ∧
    (∃ v, isNode g v ∧ rankOf g' v = Some 0%Z) ∧
    (∀ x, x ∈ edges g → slack g' x = slack g x).
Proof.
  intros Hlb Hne Hρ. pose proof (lb_wf _ Hlb) as Hwf.
  destruct (normalizeRanks_ok g Hlb Hne Hρ) as (m & g' & Hn & Hr & (v0 & Hv0 & Hm) & Hle).
  exists g'. split_and!; [done|by eexists| | |].
  - intros v Hv. destruct (Hρ v Hv) as [r Hrv]. exists (r - m)%Z. rewrite (ranked_rankOf g _ g' v Hlb Hr Hv), Hrv.
    specialize (Hle v r Hv Hrv). split; [done|lia].
  - exists v0. split; [done|]. rewrite (ranked_rankOf g _ g' v0 Hlb Hr Hv0), Hm. simpl. f_equal. lia.
  - intros x Hx. destruct (edges_nodes g x Hwf Hx) as [[rv Hv]%Hρ [rw Hw]%Hρ].
    rewrite (slack_ranked g _ g' x (rv - m) (rw - m) Hlb Hr Hx) by (by rewrite ?Hv, ?Hw).
    rewrite (slack_ranked g _ g x rv rw Hlb (ranked_refl g Hwf) Hx Hv Hw). do 2 f_equal. lia.
Qed.
End Rankers.

(** ** A diamond *)

Definition diamond_node : nodeLabel := NodeLabel 10%Q 10%Q None None None None None None None no_more.
Definition edge_of_len (n : Z) : edgeLabel := EdgeLabel n 1 0%Q 0%Q 10%Q "r" None None None None false None false.
Definition diamond_ops : list (gop unit nodeLabel edgeLabel) :=
  [OpSetNode "a" (Some (Some diamond_node)); OpSetNode "b" (Some (Some diamond_node)); OpSetNode "c" (Some (Some diamond_node));
   OpSetNode "d" (Some (Some diamond_node));
   OpSetEdge "a" "b" (Some (Some (edge_of_len 1))) None; OpSetEdge "a" "c" (Some (Some (edge_of_len 1))) None;
   OpSetEdge "b" "d" (Some (Some (edge_of_len 1))) None; OpSetEdge "c" "d" (Some (Some (edge_of_len 3))) None].
Definition diamond : Graph unit nodeLabel edgeLabel := build true false false diamond_ops.

Lemma topsort_acyclic {L N E} (g : Graph L N E) l : wf g → topsort g = Ok l → acyclic g.
Proof. intros Hwf Ht. pose proof (topsort_spec g Hwf) as Hs. rewrite Ht in Hs. apply Hs. Qed.

Lemma components_connected {L} (g : Graph L nodeLabel edgeLabel) c : wf g → components g = Ok [c] → connected g.
Proof.
  intros Hwf Hc u v Hu Hv. destruct (components_spec g Hwf) as (cs & Hcs & Hp & Hcl). rewrite Hc in Hcs. injection Hcs as <-.
  simpl in Hp. rewrite app_nil_r in Hp. destruct (Hcl c) as [_ Hcc]; [by left|].
  apply Hcc; rewrite Hp; by apply elem_of_nodes.
Qed.

Lemma diamond_labelled : labelled diamond.
Proof.
  split.
  - apply build_wf. apply (bool_decide_unpack _). vm_compute. exact I.
  - intros v Hv. apply elem_of_nodes in Hv. exists diamond_node. revert v Hv. apply Forall_forall. vm_compute. repeat constructor.
  - intros x Hx. assert (Forall (λ x, is_Some (edgeOf diamond x)) (edges diamond)) as Hf by (vm_compute; repeat constructor; eauto).
    rewrite Forall_forall in Hf. by apply Hf.
Qed.

Lemma diamond_acyclic : acyclic diamond.
Proof. apply (topsort_acyclic diamond ["a"; "b"; "c"; "d"]%string); [apply diamond_labelled|vm_compute; reflexivity]. Qed.

Lemma diamond_connected : connected diamond.
Proof. apply (components_connected diamond ["a"; "b"; "d"; "c"]%string); [apply diamond_labelled|vm_compute; reflexivity]. Qed.

Lemma longestPath_feasible_witness :
  ∃ g', longestPath diamond = Ok g' ∧ reranked diamond g' ∧ rankOf g' "a" = Some (-4)%Z.
Proof.
  destruct (longestPath_feasible diamond diamond_labelled diamond_acyclic) as (g' & Hr & Hk & _).
  exists g'. split; [exact Hr|]. split; [exact Hk|]. vm_compute in Hr. injection Hr as <-. reflexivity.
Defined.

Lemma tightTree_spanning_witness :
  ∃ g', tightTreeRanker diamond = Ok g' ∧ reranked diamond g'.
Proof.
  destruct (tightTree_spanning diamond diamond_labelled diamond_acyclic diamond_connected) as (g1 & t & g' & _ & _ & Hr & Hk & _).
  - vm_compute. discriminate.
  - exists g'. split; [exact Hr|exact Hk].
Defined.

(** The diamond with ranks. *)
Definition ranked_diamond : Graph unit nodeLabel edgeLabel :=
  match longestPath diamond with Ok g => g | Throw _ => diamond end.

Lemma ranked_diamond_labelled : labelled ranked_diamond.
Proof.
  assert (Forall (λ v, ∃ l, oget (nodes_ ranked_diamond) v = Some (Some l)) (nodes ranked_diamond)) as Hn by (vm_compute; repeat constructor; eauto).
  assert (Forall (λ x, is_Some (edgeOf ranked_diamond x)) (edges ranked_diamond)) as He by (vm_compute; repeat constructor; eauto).
  rewrite Forall_forall in Hn. rewrite Forall_forall in He. split.
  - destruct (longestPath_spec diamond diamond_labelled diamond_acyclic) as (g' & ρ & Hg & Hr & _).
    unfold ranked_diamond. rewrite Hg. apply Hr.
  - intros v Hv. by apply Hn, elem_of_nodes.
  - exact He.
Qed.

Lemma normalizeRanks_spec_witness :
  ∃ g', normalizeRanks ranked_diamond = Ok g' ∧ rankOf g' "a" = Some 0%Z ∧ rankOf g' "d" = Some 4%Z.
Proof.
  destruct (normalizeRanks_spec ranked_diamond ranked_diamond_labelled) as (g' & Hr & _).
  - vm_compute. discriminate.
  - intros v Hv. apply elem_of_nodes in Hv. revert v Hv. apply Forall_forall. vm_compute. repeat constructor; eauto.
  - exists g'. split; [exact Hr|]. vm_compute in Hr. injection Hr as <-. split; reflexivity.
Defined.
