(* ===== verification/DagreCross.v ===== *)
(** * dagre: counting crossings (lib/order/cross-count.js inside dagre.min.js)

    The weighted number of edge crossings between adjacent layers, by one pass over the edges in the
    order of the north layer.  An accumulator tree, stored as the array of a complete
    binary tree, holds the weight seen so far at each south position. *)
From Stdlib Require Import QArith_base.
Local Close Scope Q_scope.
From S2P Require Import Prelude JsObject Graphlib GraphWf GraphInv GraphQuery GraphView Lodash LodashSpec DagreTypes.

Record south_entry := SouthEntry { pos : option nat; sweight : Z }.

(** ** The algorithm *)

Section CrossCount.
Context {L V : Type}.
Implicit Types (g : Graph L V edgeLabel) (tree : list Z) (layer northLayer southLayer : list string).

(** [_.zipObject(southLayer, _.map(southLayer, function(v,i){return i}))]. *)
Definition southPos southLayer : obj (option nat) := zipObject southLayer (Coll.map southLayer (λ _ i, i)).

Definition by_pos (x : south_entry) : sval := match pos x with Some p => SNum (Qc_of_Z (Z.of_nat p)) | None => SUndef end.

(** The entries of one north node, sorted by position; the position of a node outside the south layer
    is [undefined]. *)
Definition north_entries g (sp : obj (option nat)) (v : string) : res (list south_entry) :=
  xs <-- res_fold (λ xs e, l <-- of_option (edgeOf g e) ;; Ok (xs ++ [SouthEntry (mjoin (oget sp (ew e))) (weight l)]))
           [] (default [] (outEdges g v None)) ;;
  Ok (sortBy xs by_pos).
Definition southEntries g northLayer southLayer : res (list south_entry) :=
  blocks <-- res_fold (λ bs v, b <-- north_entries g (southPos southLayer) v ;; Ok (bs ++ [b])) [] northLayer ;;
  Ok (flatten blocks).

(** [while(firstIndex<southLayer.length)firstIndex<<=1]. *)
Fixpoint first_index (fuel : nat) (n firstIndex : nat) : nat :=
  match fuel with
  | O => firstIndex
  | S fuel' => if decide (firstIndex < n) then first_index fuel' n (2 * firstIndex) else firstIndex
  end.

(** [while(index>0)]: the index decreases. *)
Fixpoint climb (fuel : nat) tree (index : nat) (weightSum w : Z) : Z * list Z :=
  match fuel with
  | O => (weightSum, tree)
  | S fuel' =>
      if decide (0 < index) then
        let weightSum := if Nat.odd index then (weightSum + default 0 (tree !! (index + 1)%nat))%Z else weightSum in
        let index := (index - 1) / 2 in
        climb fuel' (<[index := (default 0 (tree !! index) + w)%Z]> tree) index weightSum w
      else (weightSum, tree)
  end.

(** The callback; an undefined position only sets a property [NaN] of the array, and its
    weight sum is 0. *)
Definition add_entry (firstIndex : nat) (st : list Z * Z) (entry : south_entry) : list Z * Z :=
  match pos entry with
  | None => st
  | Some p =>
      let index := p + firstIndex in
      let tree := <[index := (default 0 (st.1 !! index) + sweight entry)%Z]> st.1 in
      let '(weightSum, tree) := climb index tree index 0 (sweight entry) in
      (tree, (st.2 + sweight entry * weightSum)%Z)
  end.

Definition count_entries (n : nat) (entries : list south_entry) : Z :=
  let firstIndex := first_index n n 1 in
  let treeSize := 2 * firstIndex - 1 in
  let firstIndex := firstIndex - 1 in
  (foldl (add_entry firstIndex) (replicate treeSize 0%Z, 0%Z) entries).2.

Definition twoLayerCrossCount g northLayer southLayer : res Z :=
  entries <-- southEntries g northLayer southLayer ;; Ok (count_entries (length southLayer) entries).

(** [for(var i=1;i<layering.length;++i)]. *)
Fixpoint crossCount g (layering : list (list string)) : res Z :=
  match layering with
  | north :: ((south :: _) as rest) =>
      c <-- twoLayerCrossCount g north south ;; cc <-- crossCount g rest ;; Ok (c + cc)%Z
  | _ => Ok 0%Z
  end.
End CrossCount.

(** ** Sums over ranges of positions *)

(** The sum of [c] over [n] positions from [a] on. *)
Fixpoint rsum (c : nat → Z) (a n : nat) : Z :=
  match n with O => 0 | S n' => (c a + rsum c (S a) n')%Z end.

Lemma rsum_app c a n m : rsum c a (n + m) = (rsum c a n + rsum c (a + n)%nat m)%Z.
Proof.
  revert a. induction n as [|n IH]; intros a; simpl; [by rewrite Nat.add_0_r|].
  rewrite IH. replace (S a + n) with (a + S n) by lia. lia.
Qed.

Definition bump (c : nat → Z) (p : nat) (w : Z) (q : nat) : Z := (c q + if decide (q = p) then w else 0)%Z.

Lemma rsum_bump c p w a n : rsum (bump c p w) a n = (rsum c a n + if decide (a ≤ p < a + n)%nat then w else 0)%Z.
Proof.
  revert a. induction n as [|n IH]; intros a; simpl; [rewrite decide_False by lia; lia|].
  rewrite IH. unfold bump. repeat case_decide; lia.
Qed.

Lemma rsum_zero a n : rsum (λ _, 0%Z) a n = 0%Z.
Proof. revert a. induction n as [|n IH]; intros a; simpl; [done|]. rewrite IH. lia. Qed.

(** ** The accumulator tree *)

(** The node [j] at depth [d] of a tree of height [h], and the positions below it. *)
Definition node_index (d j : nat) : nat := 2 ^ d - 1 + j.
Definition below (c : nat → Z) (h d j : nat) : Z := rsum c (j * 2 ^ (h - d)) (2 ^ (h - d)).

(** Depths from [d] on hold the counts [c'], the others [c]. *)
Record tree_holds (h d : nat) (c c' : nat → Z) (tree : list Z) : Prop := {
  th_length : length tree = 2 ^ S h - 1;
  th_node : ∀ i j, i ≤ h → j < 2 ^ i → tree !! node_index i j = Some (below (if decide (d ≤ i) then c' else c) h i j)
}.

Lemma pow2_pos n : 0 < 2 ^ n.
Proof. apply Nat.neq_0_lt_0, Nat.pow_nonzero. done. Qed.

Lemma node_index_range h i j : i ≤ h → j < 2 ^ i → node_index i j < 2 ^ S h - 1.
Proof.
  intros Hi Hj. unfold node_index. assert (2 ^ S i ≤ 2 ^ S h) by (apply Nat.pow_le_mono_r; lia).
  rewrite !Nat.pow_succ_r' in *. pose proof (pow2_pos i). lia.
Qed.

Lemma node_index_inj i j i' j' : j < 2 ^ i → j' < 2 ^ i' → node_index i j = node_index i' j' → i = i' ∧ j = j'.
Proof.
  unfold node_index. intros Hj Hj' Heq. pose proof (pow2_pos i). pose proof (pow2_pos i').
  assert (∀ a b x y, a < b → x < 2 ^ a → 2 ^ a - 1 + x = 2 ^ b - 1 + y → False) as Hlt.
  { intros a b x y Hab Hx Hxy. assert (2 ^ S a ≤ 2 ^ b) by (apply Nat.pow_le_mono_r; lia). rewrite Nat.pow_succ_r' in *.
    pose proof (pow2_pos a). lia. }
  destruct (Nat.lt_trichotomy i i') as [Hl|[->|Hl]].
  - exfalso. by apply (Hlt i i' j j').
  - lia.
  - exfalso. by apply (Hlt i' i j' j).
Qed.

(** The parent of a node, and which child it is. *)
Lemma parent_index d j : (node_index (S d) j - 1) / 2 = node_index d (j / 2).
Proof.
  unfold node_index. rewrite Nat.pow_succ_r'. pose proof (pow2_pos d).
  replace (2 * 2 ^ d - 1 + j - 1) with ((2 ^ d - 1) * 2 + j) by lia. rewrite Nat.div_add_l by done. done.
Qed.

Lemma odd_index d j : Nat.odd (node_index (S d) j) = Nat.even j.
Proof.
  unfold node_index. rewrite Nat.pow_succ_r'. pose proof (pow2_pos d).
  replace (2 * 2 ^ d - 1 + j) with (j + 1 + 2 * (2 ^ d - 1)) by lia.
  rewrite Nat.odd_add_mul_2, Nat.add_1_r, Nat.odd_succ. done.
Qed.

Lemma below_children c h d j : S d ≤ h → below c h d j = (below c h (S d) (2 * j)%nat + below c h (S d) (2 * j + 1)%nat)%Z.
Proof.
  intros Hd. unfold below. replace (h - d) with (S (h - S d)) by lia. rewrite Nat.pow_succ_r'.
  set (k := 2 ^ (h - S d)). replace (2 * k) with (k + k) by lia. rewrite rsum_app.
  replace (j * (k + k)) with (2 * j * k) by lia. by replace (2 * j * k + k) with ((2 * j + 1) * k) by lia.
Qed.

(** Updating the node above position [p] at depth [d]. *)
Lemma tree_update h d c p w tree :
  p < 2 ^ h → d ≤ h → tree_holds h (S d) c (bump c p w) tree →
  tree_holds h d c (bump c p w)
    (<[node_index d (p / 2 ^ (h - d)) := (default 0 (tree !! node_index d (p / 2 ^ (h - d))%nat) + w)%Z]> tree).
Proof.
  intros Hp Hd [Hlen Hn]. set (k := 2 ^ (h - d)). set (j := p / k). assert (0 < k) as Hk by apply pow2_pos.
  assert (2 ^ d * k = 2 ^ h) as Hdk by (unfold k; rewrite <-Nat.pow_add_r; f_equal; lia).
  assert (j < 2 ^ d) as Hj by (unfold j; apply Nat.Div0.div_lt_upper_bound; lia).
  split; [by rewrite length_insert|]. intros i j' Hi Hj'. destruct (decide (node_index d j = node_index i j')) as [Heq|Hne].
  - destruct (node_index_inj d j i j' Hj Hj' Heq) as [<- <-].
    rewrite list_lookup_insert_eq by (rewrite Hlen; by apply node_index_range).
    rewrite (Hn d j), decide_False by (done || lia). simpl. f_equal. rewrite decide_True by done.
    unfold below. fold k. rewrite rsum_bump, decide_True; [done|].
    unfold j. pose proof (Nat.div_mod_eq p k). pose proof (Nat.mod_upper_bound p k). nia.
  - rewrite list_lookup_insert_ne by done. rewrite (Hn i j') by done. f_equal.
    destruct (decide (d ≤ i)), (decide (S d ≤ i)); try done; [|lia]. assert (i = d) as -> by lia.
    unfold below. fold k. rewrite rsum_bump, decide_False; [lia|].
    intros Hin. apply Hne. f_equal. unfold j. symmetry. apply (Nat.div_unique p k j' (p - j' * k)); nia.
Qed.

(** The climb from depth [d] adds up everything to the right of the node and updates its ancestors. *)
Lemma climb_spec h d c p w tree fuel ws :
  let k := 2 ^ (h - d) in let j := p / k in
  p < 2 ^ h → d ≤ h → node_index d j ≤ fuel → tree_holds h d c (bump c p w) tree →
  ∃ tree', climb fuel tree (node_index d j) ws w = ((ws + rsum c ((j + 1) * k) (2 ^ h - (j + 1) * k))%Z, tree') ∧
    tree_holds h 0 c (bump c p w) tree'.
Proof.
  revert tree fuel ws. induction d as [|d IH]; intros tree fuel ws k j Hp Hd Hf Ht.
  - assert (j = 0) as Hj by (unfold j, k; rewrite Nat.sub_0_r; by apply Nat.div_small).
    exists tree. split; [|done]. rewrite Hj. unfold k. rewrite Nat.sub_0_r, Nat.mul_1_l, Nat.sub_diag. simpl. rewrite Z.add_0_r.
    by destruct fuel.
  - assert (0 < k) as Hk by apply pow2_pos. assert (2 ^ (h - d) = 2 * k) as Hk2.
    { unfold k. replace (h - d) with (S (h - S d)) by lia. apply Nat.pow_succ_r'. }
    assert (2 ^ S d * k = 2 ^ h) as Hdk by (unfold k; rewrite <-Nat.pow_add_r; f_equal; lia).
    assert (j < 2 ^ S d) as Hj by (unfold j; apply Nat.Div0.div_lt_upper_bound; lia).
    assert (p / 2 ^ (h - d) = j / 2) as Hj2 by (rewrite Hk2; unfold j; by rewrite Nat.Div0.div_div, (Nat.mul_comm k)).
    assert (0 < node_index (S d) j) as Hi0 by (unfold node_index; pose proof (pow2_pos d); rewrite Nat.pow_succ_r'; lia).
    destruct fuel as [|fuel]; [lia|]. cbn [climb]. rewrite decide_True by done. cbv zeta. rewrite odd_index, parent_index.
    pose proof (tree_update h d c p w tree Hp ltac:(lia) Ht) as Hu. rewrite Hj2 in Hu.
    match type of Hu with tree_holds _ _ _ _ ?T =>
      specialize (IH T fuel (if Nat.even j then (ws + default 0 (tree !! (node_index (S d) j + 1)%nat))%Z else ws))
    end.
    cbv zeta in IH. rewrite Hj2 in IH.
    destruct (IH Hp ltac:(lia)) as (tree' & Hc & Hh); [|exact Hu|].
    { rewrite <-parent_index. assert ((node_index (S d) j - 1) / 2 ≤ node_index (S d) j - 1) by (apply Nat.Div0.div_le_upper_bound; lia). lia. }
    exists tree'. split; [|done]. rewrite Hc. f_equal. rewrite Hk2.
    rewrite Nat.pow_succ_r' in Hj, Hdk. destruct (Nat.even j) eqn:He.
    + apply Nat.even_spec in He as [m Hm]. assert (j / 2 = m) as -> by (rewrite Hm, Nat.mul_comm, Nat.div_mul; lia).
      replace (node_index (S d) j + 1) with (node_index (S d) (j + 1)) by (unfold node_index; lia).
      rewrite (th_node _ _ _ _ _ Ht (S d) (j + 1)) by (rewrite ?Nat.pow_succ_r'; lia). rewrite decide_True by done. cbn [default from_option id].
      unfold below. fold k. rewrite rsum_bump, decide_False.
      2: { unfold j. pose proof (Nat.div_mod_eq p k). pose proof (Nat.mod_upper_bound p k). nia. }
      assert ((m + 1) * (2 * k) ≤ 2 ^ h) by nia.
      replace (2 ^ h - (j + 1) * k) with (k + (2 ^ h - (m + 1) * (2 * k))) by nia. rewrite rsum_app.
      replace ((m + 1) * (2 * k)) with ((j + 1) * k + k) by nia. lia.
    + assert (Nat.odd j = true) as [m Hm]%Nat.odd_spec by (by rewrite <-Nat.negb_even, He).
      assert (j / 2 = m) as -> by (symmetry; apply (Nat.div_unique j 2 m 1); lia).
      by replace ((m + 1) * (2 * k)) with ((j + 1) * k) by nia.
Qed.

(** One entry: the weight sum is the weight seen to the right of its position. *)
Lemma add_entry_spec h c tree cc p w :
  p < 2 ^ h → tree_holds h 0 c c tree →
  ∃ tree', add_entry (2 ^ h - 1) (tree, cc) (SouthEntry (Some p) w) = (tree', (cc + w * rsum c (p + 1) (2 ^ h - (p + 1)))%Z) ∧
    tree_holds h 0 (bump c p w) (bump c p w) tree'.
Proof.
  intros Hp Ht. assert (tree_holds h (S h) c (bump c p w) tree) as Ht0.
  { split; [apply Ht|]. intros i j Hi Hj. rewrite (th_node _ _ _ _ _ Ht i j Hi Hj). rewrite (decide_False (P := S h ≤ i)) by lia. by case_decide. }
  pose proof (tree_update h h c p w tree Hp ltac:(lia) Ht0) as Hu. rewrite Nat.sub_diag in Hu. simpl (2 ^ 0) in Hu. rewrite Nat.div_1_r in Hu.
  match type of Hu with tree_holds _ _ _ _ ?T => pose proof (climb_spec h h c p w T (node_index h p) 0 Hp) as Hcl end.
  rewrite Nat.sub_diag in Hcl. simpl (2 ^ 0) in Hcl. rewrite Nat.div_1_r, !Nat.mul_1_r in Hcl.
  destruct (Hcl ltac:(lia) ltac:(lia) Hu) as (tree' & Hc & Hh).
  exists tree'. split.
  - unfold add_entry. simpl. replace (p + (2 ^ h - 1)) with (node_index h p) by (unfold node_index; lia). by rewrite Hc.
  - split; [apply Hh|]. intros i j Hi Hj. rewrite (th_node _ _ _ _ _ Hh i j Hi Hj). by rewrite !(decide_True (P := 0 ≤ i)) by lia.
Qed.

(** ** Sums over lists *)

Definition zsum {A} (f : A → Z) (l : list A) : Z := foldr (λ x s, (f x + s)%Z) 0%Z l.

Lemma zsum_app {A} (f : A → Z) l1 l2 : zsum f (l1 ++ l2) = (zsum f l1 + zsum f l2)%Z.
Proof. unfold zsum. induction l1 as [|x l1 IH]; simpl; [done|]. rewrite IH. lia. Qed.
Lemma zsum_ext {A} (f f' : A → Z) l : (∀ x, x ∈ l → f x = f' x) → zsum f l = zsum f' l.
Proof. unfold zsum. induction l as [|x l IH]; intros Hf; simpl; [done|]. rewrite Hf, IH; set_solver. Qed.
Lemma zsum_mul {A} (f : A → Z) k l : zsum (λ x, k * f x)%Z l = (k * zsum f l)%Z.
Proof. unfold zsum. induction l as [|x l IH]; simpl; [lia|]. rewrite IH. lia. Qed.

Lemma zsum_zero {A} (f : A → Z) l : (∀ x, x ∈ l → f x = 0%Z) → zsum f l = 0%Z.
Proof. unfold zsum. induction l as [|x l IH]; intros Hf; simpl; [done|]. rewrite Hf, IH; set_solver. Qed.

#[export] Instance zsum_perm {A} (f : A → Z) : Proper ((≡ₚ) ==> (=)) (zsum f).
Proof. intros l1 l2 Hp. unfold zsum. induction Hp; simpl; lia. Qed.

(** ** Crossings *)

(** The contribution of an edge that comes earlier in the north layer and one that comes later. *)
Definition cross (x y : south_entry) : Z :=
  match pos x, pos y with
  | Some p, Some q => if decide (q < p) then (sweight x * sweight y)%Z else 0%Z
  | _, _ => 0%Z
  end.

(** All pairs of a list, in its order. *)
Fixpoint inversions (l : list south_entry) : Z :=
  match l with [] => 0%Z | x :: l' => (zsum (cross x) l' + inversions l')%Z end.

Lemma inversions_app l1 l2 :
  inversions (l1 ++ l2) = (inversions l1 + zsum (λ x, zsum (cross x) l2) l1 + inversions l2)%Z.
Proof. induction l1 as [|x l1 IH]; simpl; [lia|]. rewrite zsum_app, IH. lia. Qed.

(** The weight seen so far at a position. *)
Definition seen (l : list south_entry) (q : nat) : Z := zsum (λ x, if decide (pos x = Some q) then sweight x else 0%Z) l.

Lemma seen_cons x l q : seen (x :: l) q = ((if decide (pos x = Some q) then sweight x else 0) + seen l q)%Z.
Proof. done. Qed.

Definition within (a n : nat) (x : south_entry) : Z :=
  match pos x with Some p => if decide (a ≤ p < a + n) then sweight x else 0%Z | None => 0%Z end.

Lemma rsum_seen l a n : rsum (seen l) a n = zsum (within a n) l.
Proof.
  induction l as [|x l IH]; [apply rsum_zero|]. change (zsum (within a n) (x :: l)) with (within a n x + zsum (within a n) l)%Z.
  rewrite <-IH. clear IH. revert a. induction n as [|n IHn]; intros a; cbn [rsum].
  - unfold within. destruct (pos x); [rewrite decide_False by lia|]; done.
  - rewrite IHn, seen_cons. unfold within. destruct (pos x) as [p|]; [destruct (decide (p = a)) as [->|]|]; repeat case_decide; try congruence; lia.
Qed.

Lemma seen_snoc l x q : seen (l ++ [x]) q = (seen l q + if decide (pos x = Some q) then sweight x else 0)%Z.
Proof. unfold seen. rewrite zsum_app. unfold zsum. simpl. lia. Qed.

(** The weight to the right of a position. *)
Definition beyond (q : nat) (x : south_entry) : Z :=
  match pos x with Some p => if decide (q < p) then sweight x else 0%Z | None => 0%Z end.

Lemma zsum_cross_snoc l y :
  zsum (λ x, zsum (cross x) [y]) l = match pos y with Some q => (sweight y * zsum (beyond q) l)%Z | None => 0%Z end.
Proof.
  destruct (pos y) as [q|] eqn:Hy.
  - rewrite <-zsum_mul. apply zsum_ext. intros x _. unfold zsum, cross, beyond. simpl. rewrite Hy. destruct (pos x); [case_decide|]; lia.
  - apply zsum_zero. intros x _. unfold zsum, cross. simpl. rewrite Hy. by destruct (pos x).
Qed.

Definition in_range (n : nat) (x : south_entry) : Prop := ∀ p, pos x = Some p → p < n.

(** One pass over the entries counts the inversions of the list. *)
Lemma count_fold h l :
  Forall (in_range (2 ^ h)) l →
  ∃ tree, foldl (add_entry (2 ^ h - 1)) (replicate (2 ^ S h - 1) 0%Z, 0%Z) l = (tree, inversions l) ∧
    tree_holds h 0 (seen l) (seen l) tree.
Proof.
  induction l as [|x l IH] using rev_ind; intros Hl.
  - exists (replicate (2 ^ S h - 1) 0%Z). split; [done|]. split; [by rewrite length_replicate|].
    intros i j Hi Hj. rewrite lookup_replicate_2 by (by apply node_index_range). f_equal. unfold below.
    symmetry. case_decide; apply rsum_zero.
  - apply Forall_app in Hl as [Hl [Hx _]%Forall_cons]. destruct (IH Hl) as (tree & Hf & Ht).
    rewrite foldl_app, Hf. simpl foldl. rewrite inversions_app, zsum_cross_snoc. simpl (inversions [x]).
    assert (∀ c, (∀ q, c q = seen (l ++ [x]) q) → ∀ tr, tree_holds h 0 c c tr → tree_holds h 0 (seen (l ++ [x])) (seen (l ++ [x])) tr) as Hext.
    { intros c Hc tr [H1 H2]. split; [done|]. intros i j Hi Hj. rewrite (H2 i j Hi Hj). f_equal. rewrite !(decide_True (P := 0 ≤ i)) by lia.
      unfold below. generalize (j * 2 ^ (h - i)). induction (2 ^ (h - i)) as [|k IHk]; intros a; cbn [rsum]; [done|]. by rewrite Hc, IHk. }
    destruct x as [[p|] w]; simpl pos; simpl sweight.
    + destruct (add_entry_spec h (seen l) tree (inversions l) p w) as (tree' & -> & Ht'); [by apply Hx|done|].
      exists tree'. split.
      * f_equal. rewrite rsum_seen. cut (zsum (within (p + 1) (2 ^ h - (p + 1))) l = zsum (beyond p) l); [intros ->; lia|].
        apply zsum_ext. intros y Hy. rewrite Forall_forall in Hl. specialize (Hl y Hy). unfold within, beyond, in_range in *.
        destruct (pos y) as [q|]; [|done]. specialize (Hl q eq_refl). repeat case_decide; done || lia.
      * eapply Hext; [|exact Ht']. intros q. rewrite seen_snoc. unfold bump. simpl. repeat case_decide; congruence || lia.
    + exists tree. split; [unfold add_entry; simpl; f_equal; lia|]. eapply Hext; [|exact Ht]. intros q. rewrite seen_snoc. simpl. lia.
Qed.

Lemma first_index_spec fuel n h : n ≤ 2 ^ h + fuel → ∃ h', first_index fuel n (2 ^ h) = 2 ^ h' ∧ n ≤ 2 ^ h'.
Proof.
  revert h. induction fuel as [|fuel IH]; intros h Hn; simpl; [exists h; split; [done|lia]|].
  case_decide as Hlt; [|exists h; split; [done|lia]]. change (2 ^ h + (2 ^ h + 0)) with (2 * 2 ^ h). rewrite <-Nat.pow_succ_r'.
  apply IH. rewrite Nat.pow_succ_r'. pose proof (pow2_pos h). lia.
Qed.

Lemma count_entries_spec n l : Forall (in_range n) l → count_entries n l = inversions l.
Proof.
  intros Hl. unfold count_entries. destruct (first_index_spec n n 0) as (h & Hh & Hn); [simpl; lia|].
  change (2 ^ 0) with 1 in Hh. rewrite Hh. replace (2 * 2 ^ h - 1) with (2 ^ S h - 1) by (by rewrite Nat.pow_succ_r').
  destruct (count_fold h l) as (tree & -> & _); [|done].
  eapply Forall_impl; [exact Hl|]. intros x Hx p Hp. specialize (Hx p Hp). lia.
Qed.

(** ** The reference count *)

(** Every pair of edges whose tails and heads are in opposite orders counts with the
    product of the weights. *)
Fixpoint crossings (blocks : list (list south_entry)) : Z :=
  match blocks with
  | [] => 0%Z
  | b :: bs => (zsum (λ x, zsum (cross x) (concat bs)) b + crossings bs)%Z
  end.

Lemma inversions_sorted l : StronglySorted (λ a b, sval_le (by_pos a) (by_pos b)) l → inversions l = 0%Z.
Proof.
  induction 1 as [|x l Hs IH Hx]; [done|]. simpl. rewrite IH, Z.add_0_r. rewrite Forall_forall in Hx.
  apply zsum_zero. intros y Hy. specialize (Hx y Hy). unfold by_pos in Hx. unfold cross. destruct (pos x), (pos y); simpl in Hx; try done.
  apply Z2Qc_inj_le in Hx. by rewrite decide_False by lia.
Qed.

Lemma zsum_cross_perm b b' l l' : b ≡ₚ b' → l ≡ₚ l' → zsum (λ x, zsum (cross x) l) b = zsum (λ x, zsum (cross x) l') b'.
Proof. intros Hb Hl. rewrite Hb. apply zsum_ext. intros x _. by rewrite Hl. Qed.

Lemma inversions_blocks bs bs' :
  Forall2 (λ b b', b ≡ₚ b' ∧ StronglySorted (λ x y, sval_le (by_pos x) (by_pos y)) b) bs bs' →
  inversions (concat bs) = crossings bs' ∧ concat bs ≡ₚ concat bs'.
Proof.
  induction 1 as [|b b' bs bs' [Hp Hs] _ [IH1 IH2]]; simpl; [done|]. rewrite inversions_app, inversions_sorted by done.
  split; [|by rewrite Hp, IH2]. rewrite IH1, (zsum_cross_perm b b' _ _ Hp IH2). lia.
Qed.

Definition index_of (layer : list string) (w : string) : option nat := fst <$> list_find (λ u, u = w) layer.

Lemma southPos_spec south w : NoDup south → mjoin (oget (southPos south) w) = index_of south w.
Proof.
  intros Hnd. unfold southPos, index_of, zipObject, Coll.map, arrayMap.
  destruct (list_find (λ u, u = w) south) as [[i u]|] eqn:Hf.
  - apply list_find_Some in Hf as (Hi & -> & _). rewrite (zipObject_lookup south _ 0 [] i w Hnd Hi). simpl.
    rewrite arrayMap_spec. simpl. by rewrite list_lookup_imap, Hi.
  - rewrite zipObject_other; [done|]. intros Hin. apply list_find_None in Hf. rewrite Forall_forall in Hf. by apply (Hf w).
Qed.

Section Reference.
Context {L V : Type}.
Implicit Types (g : Graph L V edgeLabel).

Definition out_of g (v : string) : list edgeObj := default [] (outEdges g v None).
Definition weight_of g (e : edgeObj) : Z := match edgeOf g e with Some l => weight l | None => 0 end.

(** [e] comes from a node further left than [f] but goes to one further right. *)
Definition edge_cross g (south : list string) (e f : edgeObj) : Z :=
  match index_of south (ew e), index_of south (ew f) with
  | Some p, Some q => if decide (q < p) then (weight_of g e * weight_of g f)%Z else 0%Z
  | _, _ => 0%Z
  end.

Fixpoint naive_count g (south north : list string) : Z :=
  match north with
  | [] => 0%Z
  | v :: rest =>
      (zsum (λ e, zsum (edge_cross g south e) (concat (out_of g <$> rest))) (out_of g v) + naive_count g south rest)%Z
  end.

Fixpoint naive_layers g (layering : list (list string)) : Z :=
  match layering with
  | north :: ((south :: _) as rest) => (naive_count g south north + naive_layers g rest)%Z
  | _ => 0%Z
  end.

Definition entry_of g (south : list string) (e : edgeObj) : south_entry := SouthEntry (index_of south (ew e)) (weight_of g e).

Lemma zsum_fmap {A B} (f : B → Z) (h : A → B) l : zsum f (h <$> l) = zsum (λ x, f (h x)) l.
Proof. induction l as [|x l IH]; [done|]. unfold zsum in *. csimpl. by rewrite IH. Qed.

Lemma crossings_naive g south north :
  crossings ((λ v, entry_of g south <$> out_of g v) <$> north) = naive_count g south north.
Proof.
  induction north as [|v north IH]; [done|]. rewrite fmap_cons. cbn [crossings naive_count]. rewrite IH. f_equal. rewrite zsum_fmap. apply zsum_ext. intros e _.
  rewrite <-(zsum_fmap (cross (entry_of g south e)) (entry_of g south)). f_equal.
  clear. induction north as [|u north IH]; csimpl; [done|]. by rewrite fmap_app, IH.
Qed.

Definition edges_labelled g : Prop := ∀ x, x ∈ edges g → is_Some (edgeOf g x).

Lemma out_of_edges g v e : wf g → e ∈ out_of g v → e ∈ edges g.
Proof.
  intros Hwf. unfold out_of. destruct (decide (isNode g v)) as [Hv|Hv].
  - destruct (outEdges_spec g v Hwf Hv) as (es & -> & _ & Hes). simpl. by intros [? _]%Hes.
  - unfold outEdges. pose proof (eok_out _ _ _ (wf_edges _ Hwf) v) as Ho. destruct (oget (out_ g) v); [by destruct Ho|].
    simpl. by intros ?%elem_of_nil.
Qed.

Lemma north_entries_spec g south v :
  wf g → edges_labelled g → NoDup south →
  ∃ b, north_entries g (southPos south) v = Ok b ∧ b ≡ₚ entry_of g south <$> out_of g v ∧
    StronglySorted (λ x y, sval_le (by_pos x) (by_pos y)) b.
Proof.
  intros Hwf Hl Hnd. unfold north_entries. fold (out_of g v).
  match goal with |- context [res_fold ?f ?s ?l] =>
    destruct (res_fold_inv f (λ done xs, xs = entry_of g south <$> done) l s) as (xs & -> & ->); [done| |]
  end.
  - intros done e rest xs Heq ->. assert (e ∈ edges g) as He by (eapply out_of_edges; [done|rewrite Heq; set_solver]).
    destruct (Hl e He) as [l Hle]. rewrite Hle. simpl. eexists. split; [done|]. rewrite fmap_app. simpl.
    unfold entry_of, weight_of. by rewrite Hle, southPos_spec.
  - simpl. eexists. split; [done|]. split; [apply sortBy_perm|apply sortBy_sorted].
Qed.

Lemma twoLayer_spec g north south :
  wf g → edges_labelled g → NoDup south → twoLayerCrossCount g north south = Ok (naive_count g south north).
Proof.
  intros Hwf Hl Hnd. unfold twoLayerCrossCount, southEntries.
  match goal with |- context [res_fold ?f ?s ?l] =>
    destruct (res_fold_inv f (λ done bs, Forall2 (λ b b', b ≡ₚ b' ∧ StronglySorted (λ x y, sval_le (by_pos x) (by_pos y)) b)
      bs ((λ v, entry_of g south <$> out_of g v) <$> done)) l s) as (bs & -> & Hbs); [done| |]
  end.
  - intros done v rest bs Heq Hbs. destruct (north_entries_spec g south v Hwf Hl Hnd) as (b & -> & Hp & Hs). simpl.
    eexists. split; [done|]. rewrite fmap_app. apply Forall2_app; [done|]. by repeat constructor.
  - simpl. unfold flatten. rewrite flatten_concat. simpl. destruct (inversions_blocks _ _ Hbs) as [Hi Hp].
    f_equal. rewrite count_entries_spec, Hi; [apply crossings_naive|]. rewrite Hp. apply Forall_forall.
    intros x (b & Hx & (v & -> & _)%list_elem_of_fmap)%elem_of_concat. apply list_elem_of_fmap in Hx as (e & -> & _).
    intros p. simpl. unfold index_of. destruct (list_find _ south) as [[i u]|] eqn:Hf; simpl; [|done]. intros [= <-].
    apply list_find_Some in Hf as (Hi' & _). by eapply lookup_lt_Some.
Qed.

Lemma crossCount_ok g layering :
  wf g → edges_labelled g → (∀ layer, layer ∈ layering → NoDup layer) →
  crossCount g layering = Ok (naive_layers g layering).
Proof.
  intros Hwf Hl. induction layering as [|north [|south rest] IH]; intros Hnd; [done..|].
  change (crossCount g (north :: south :: rest)) with
    (c <-- twoLayerCrossCount g north south ;; cc <-- crossCount g (south :: rest) ;; Ok (c + cc)%Z).
  rewrite IH by (intros; apply Hnd; set_solver). by rewrite twoLayer_spec by (done || apply Hnd; set_solver).
Qed.

(** C23: [crossCount] returns the weighted number of crossings: over adjacent layers, the sum over all pairs of edges
    whose tails and heads are in opposite orders of the product of their weights. *)
Theorem crossCount_naive g layering :
  wf g → edges_labelled g → (∀ layer, layer ∈ layering → NoDup layer) →
  crossCount g layering = Ok (naive_layers g layering).
Proof. apply crossCount_ok. Qed.
End Reference.

(** Two crossing edges and one that crosses neither. *)
Definition cross_label (w : Z) : edgeLabel := EdgeLabel 1 w 0%Q 0%Q 10%Q "r" None None None None false None false.
Definition cross_graph : Graph unit unit edgeLabel :=
  build true false false
    [OpSetEdge "a" "y" (Some (Some (cross_label 2))) None; OpSetEdge "b" "x" (Some (Some (cross_label 3))) None;
     OpSetEdge "b" "z" (Some (Some (cross_label 5))) None].

Lemma crossCount_naive_witness :
  crossCount cross_graph [["a"; "b"]; ["x"; "y"; "z"]]%string = Ok 6%Z.
Proof.
  rewrite (crossCount_naive cross_graph [["a"; "b"]; ["x"; "y"; "z"]]%string).
  - reflexivity.
  - apply build_wf. apply (bool_decide_unpack _). vm_compute. exact I.
  - intros x Hx. revert x Hx. apply Forall_forall. vm_compute. repeat constructor; eauto.
  - intros layer Hl. revert layer Hl. apply Forall_forall. apply (bool_decide_unpack _). vm_compute. exact I.
Defined.
