(* ===== verification/DagreBk.v ===== *)
(** * dagre: horizontal coordinates (lib/position/bk.js inside dagre.min.js)

    The assignment of x coordinates after Brandes and Köpf: four times, once per corner,
    nodes are aligned into vertical blocks ([verticalAlignment]) and the blocks are placed
    side by side ([horizontalCompaction]); the four results are shifted to the
    narrowest one and averaged ([balance]).  [None] is [NaN] or [undefined] as a coordinate. *)
From Stdlib Require Import QArith_base Qminmax Qcanon.
Local Close Scope Q_scope.
Local Close Scope Qc_scope.
From S2P Require Import Prelude JsObject Graphlib GraphWf GraphInv GraphQuery GraphView Lodash LodashSpec DagreTypes.

(** A string that is not empty. *)
Definition truthy (s : option string) : bool := match s with Some s => negb (bool_decide (s = ""%string)) | None => false end.
(** [v > w] on strings. *)
Definition str_gt (v w : string) : bool := match String.compare v w with Gt => true | _ => false end.
Definition lower_ascii (a : Ascii.ascii) : Ascii.ascii :=
  let n := Ascii.nat_of_ascii a in
  if bool_decide (65 ≤ n) && bool_decide (n ≤ 90) then Ascii.ascii_of_nat (n + 32) else a.
Fixpoint toLowerCase (s : string) : string :=
  match s with EmptyString => EmptyString | String a s' => String (lower_ascii a) (toLowerCase s') end.
(** [a < b] is false when a side is [undefined]. *)
Definition lt_undef (a b : option Z) : bool :=
  match a, b with Some x, Some y => bool_decide (x < y)%Z | _, _ => false end.

Definition qltb (a b : Q) : bool := negb (Qle_bool b a).
Definition qmin (array : list (option Q)) : option Q := mjoin (baseExtremum array id qltb).
Definition qmax (array : list (option Q)) : option Q := mjoin (baseExtremum array id (λ a b, qltb b a)).

Abbreviation layoutGraph := (Graph graphLabel nodeLabel edgeLabel).
Abbreviation conflict_table := (obj (obj bool)).
Abbreviation coords := (obj (option Q)).
Abbreviation blockGraph := (Graph unit unit Q).

Definition is_dummy (l : nodeLabel) : bool := truthy (dummy l).

(** ** The layering matrix (lib/util.js) *)

Section Layers.
Implicit Types (g : layoutGraph).

Definition ranks_of g : res (list (option Z)) :=
  res_fold (λ rs v, l <-- of_option (node g v) ;; Ok (rs ++ [rank l])) [] (nodes g).
Definition maxRank g : res (option Z) := rs <-- ranks_of g ;; Ok (Lodash.max rs).

(** [row[i]=v] extends the array with holes when the index is beyond its end. *)
Definition array_set (row : list (option string)) (i : nat) (v : string) : list (option string) :=
  if decide (i < length row) then <[i := Some v]> row
  else row ++ replicate (i - length row) None ++ [Some v].

Definition layer_node g (layering : list (list (option string))) (v : string) : res (list (list (option string))) :=
  l <-- of_option (node g v) ;;
  match rank l with
  | None => Ok layering
  | Some r =>
      row <-- of_option (if decide (0 ≤ r)%Z then layering !! Z.to_nat r else None) ;;
      Ok (match order l with
          | Some o => if decide (0 ≤ o)%Z then <[Z.to_nat r := array_set row (Z.to_nat o) v]> layering else layering
          | None => layering
          end)
  end.
(** [_.range] of [undefined+1] is empty. *)
Definition buildLayerMatrix g : res (list (list (option string))) :=
  m <-- maxRank g ;;
  let rows := match m with Some m => range (m + 1) None None | None => [] end in
  res_fold (layer_node g) (Coll.map rows (λ _ _, [])) (nodes g).

(** A hole makes the label lookups of the passes below fail. *)
Definition full_layers (layering : list (list (option string))) : res (list (list string)) :=
  of_option (mapM (mapM id) layering).
End Layers.

(** ** Conflicts *)

Section Conflicts.
Implicit Types (g : layoutGraph) (conflicts : conflict_table) (v w u : string) (layer : list string).

Definition addConflict conflicts v w : conflict_table :=
  let '(v, w) := if str_gt v w then (w, v) else (v, w) in
  oset conflicts v (oset (default [] (oget conflicts v)) w true).
Definition hasConflict conflicts v w : bool :=
  let '(v, w) := if str_gt v w then (w, v) else (v, w) in
  match oget conflicts v with Some row => ohas row w | None => false end.

(** [_.find(g.predecessors(v), function(u){return g.node(u).dummy})]. *)
Fixpoint find_dummy g (us : list string) : res (option string) :=
  match us with
  | [] => Ok None
  | u :: us' => l <-- of_option (node g u) ;; if is_dummy l then Ok (Some u) else find_dummy g us'
  end.
Definition findOtherInnerSegmentNode g v : res (option string) :=
  l <-- of_option (node g v) ;;
  if is_dummy l then find_dummy g (default [] (predecessors g v)) else Ok None.

(** [_.reduce(layering, visitLayer)] with a [visitLayer] that returns its second argument. *)
Fixpoint reduce_layers {S} (visitLayer : list string → list string → S → res S) (layering : list (list string)) (s : S) : res S :=
  match layering with
  | north :: ((south :: _) as rest) => s <-- visitLayer north south s ;; reduce_layers visitLayer rest s
  | _ => Ok s
  end.

Record type1 := Type1 { conflicts1 : conflict_table; k0 : option Z; scanPos : nat }.

Definition type1_pair g (k0 k1 : option Z) (scanNode : string) conflicts u : res conflict_table :=
  uLabel <-- of_option (node g u) ;;
  if lt_undef (order uLabel) k0 || lt_undef k1 (order uLabel) then
    if is_dummy uLabel then
      sLabel <-- of_option (node g scanNode) ;;
      Ok (if is_dummy sLabel then conflicts else addConflict conflicts u scanNode)
    else Ok (addConflict conflicts u scanNode)
  else Ok conflicts.

Definition type1_node g (prevLayerLength : nat) layer (st : type1) (iv : nat * string) : res type1 :=
  let '(i, v) := iv in
  w <-- findOtherInnerSegmentNode g v ;;
  k1 <-- (if truthy w then w <-- of_option w ;; l <-- of_option (node g w) ;; Ok (order l)
          else Ok (Some (Z.of_nat prevLayerLength))) ;;
  if truthy w || bool_decide (Lodash.last layer = Some v) then
    conflicts <-- res_fold (λ cs scanNode, res_fold (type1_pair g (k0 st) k1 scanNode) cs (default [] (predecessors g scanNode)))
                    (conflicts1 st) (drop (scanPos st) (take (i + 1) layer)) ;;
    Ok (Type1 conflicts k1 (i + 1))
  else Ok st.

Definition findType1Conflicts g (layering : list (list string)) : res conflict_table :=
  reduce_layers (λ prevLayer layer conflicts,
    st <-- res_fold (type1_node g (length prevLayer) layer) (Type1 conflicts (Some 0%Z) 0) (imap pair layer) ;;
    Ok (conflicts1 st)) layering [].

Record type2 := Type2 { conflicts2 : conflict_table; prevNorthPos : option Z; nextNorthPos : option Z; southPos : nat }.

Definition type2_pair g (prevNorthBorder nextNorthBorder : option Z) v conflicts u : res conflict_table :=
  uNode <-- of_option (node g u) ;;
  Ok (if is_dummy uNode && (lt_undef (order uNode) prevNorthBorder || lt_undef nextNorthBorder (order uNode))
      then addConflict conflicts u v else conflicts).
Definition type2_scan g (south : list string) (southPos southEnd : nat) (prevNorthBorder nextNorthBorder : option Z) conflicts : res conflict_table :=
  res_fold (λ cs i,
    v <-- of_option (south !! Z.to_nat i) ;;
    l <-- of_option (node g v) ;;
    if is_dummy l then res_fold (type2_pair g prevNorthBorder nextNorthBorder v) cs (default [] (predecessors g v)) else Ok cs)
    conflicts (range (Z.of_nat southPos) (Some (Z.of_nat southEnd)) None).

Definition type2_node g (north south : list string) (st : type2) (iv : nat * string) : res type2 :=
  let '(southLookahead, v) := iv in
  l <-- of_option (node g v) ;;
  st <-- (if bool_decide (dummy l = Some "border"%string) then
            predecessors <-- of_option (predecessors g v) ;;
            match predecessors with
            | [] => Ok st
            | p :: _ =>
                pl <-- of_option (node g p) ;;
                cs <-- type2_scan g south (southPos st) southLookahead (prevNorthPos st) (order pl) (conflicts2 st) ;;
                Ok (Type2 cs (order pl) (order pl) southLookahead)
            end
          else Ok st) ;;
  cs <-- type2_scan g south (southPos st) (length south) (nextNorthPos st) (Some (Z.of_nat (length north))) (conflicts2 st) ;;
  Ok (Type2 cs (prevNorthPos st) (nextNorthPos st) (southPos st)).

Definition findType2Conflicts g (layering : list (list string)) : res conflict_table :=
  reduce_layers (λ north south conflicts,
    st <-- res_fold (type2_node g north south) (Type2 conflicts (Some (-1)%Z) None 0) (imap pair south) ;;
    Ok (conflicts2 st)) layering [].

(** [_.merge] of two tables of tables. *)
Definition merge_conflicts (a b : conflict_table) : conflict_table :=
  foldl (λ a k, match oget b k with
                | Some row => oset a k (foldl (λ r w, oset r w true) (default [] (oget a k)) (okeys row))
                | None => a
                end) a (okeys b).
End Conflicts.

(** ** Vertical alignment *)

Record alignment := Alignment { aroot : obj string; aalign : obj string }.

Section Alignment.
Implicit Types (v w : string) (pos : obj nat).

Definition va_init (layering : list (list string)) : alignment * obj nat :=
  foldl (λ st (layer : list string), foldl (λ (st : alignment * obj nat) iv, let '(a, pos) := st in let '(i, v) := iv in
           (Alignment (oset (aroot a) v v) (oset (aalign a) v v), oset pos v i)) st (imap pair layer))
    (Alignment [] [], []) layering.

(** One median [w]; [root] and [pos] have the same keys. *)
Definition va_pick (conflicts : conflict_table) pos v (st : alignment * Z) w : alignment * Z :=
  let '(a, prevIdx) := st in
  match oget pos w, oget (aroot a) w with
  | Some p, Some rw =>
      if bool_decide (oget (aalign a) v = Some v) && bool_decide (prevIdx < Z.of_nat p)%Z && negb (hasConflict conflicts v w)
      then (Alignment (oset (aroot a) v rw) (oset (oset (aalign a) w v) v rw), Z.of_nat p)
      else st
  | _, _ => st
  end.

(** [for(i=floor(mp);i<=ceil(mp);++i)] with [mp=(ws.length-1)/2]. *)
Definition medians (ws : list string) : list string :=
  let n := length ws in
  omap (λ i, ws !! i) (seq ((n - 1) / 2) (n / 2 + 1 - (n - 1) / 2)).

Definition by_position pos (w : string) : sval :=
  match oget pos w with Some p => SNum (Qc_of_Z (Z.of_nat p)) | None => SUndef end.

Definition va_node (neighborFn : string → option (list string)) conflicts pos (st : alignment * Z) v : res (alignment * Z) :=
  ws <-- of_option (neighborFn v) ;;
  Ok (match ws with
      | [] => st
      | _ => foldl (va_pick conflicts pos v) st (medians (sortBy ws (by_position pos)))
      end).

Definition va_layer neighborFn conflicts pos (st : alignment) (layer : list string) : res alignment :=
  r <-- res_fold (va_node neighborFn conflicts pos) (st, (-1)%Z) layer ;; Ok r.1.

Definition verticalAlignment (layering : list (list string)) (conflicts : conflict_table)
    (neighborFn : string → option (list string)) : res alignment :=
  let '(a, pos) := va_init layering in
  res_fold (va_layer neighborFn conflicts pos) a layering.
End Alignment.

(** ** Horizontal compaction *)

Section Compaction.
Implicit Types (g : layoutGraph) (b : blockGraph) (xs : coords) (v w elem : string) (root : obj string).

(** The shift of a label that is not centred on its dummy node. *)
Definition label_delta (l : nodeLabel) : Q :=
  match nlabelpos l with
  | Some p => if bool_decide (toLowerCase p = "l"%string) then (- width l / 2)%Q
              else if bool_decide (toLowerCase p = "r"%string) then (width l / 2)%Q else 0%Q
  | None => 0%Q
  end.
Definition half_sep (nodeSep edgeSep : Q) (l : nodeLabel) : Q := ((if is_dummy l then edgeSep else nodeSep) / 2)%Q.
Definition sep (nodeSep edgeSep : Q) (reverseSep : bool) g v w : res Q :=
  vLabel <-- of_option (node g v) ;;
  wLabel <-- of_option (node g w) ;;
  let sum := (0 + width vLabel / 2)%Q in
  let delta := label_delta vLabel in
  let sum := (sum + (if reverseSep then delta else - delta))%Q in
  let sum := (sum + half_sep nodeSep edgeSep vLabel)%Q in
  let sum := (sum + half_sep nodeSep edgeSep wLabel)%Q in
  let sum := (sum + width wLabel / 2)%Q in
  let delta := (- label_delta wLabel)%Q in
  Ok (sum + (if reverseSep then delta else - delta))%Q.

(** An absent entry becomes the key of [undefined]. *)
Definition rootOf root v : string := default "undefined"%string (oget root v).

Definition block_node g root (sepFn : layoutGraph → string → string → res Q) (st : blockGraph * option string) v :
    res (blockGraph * option string) :=
  let '(b, u) := st in
  let vRoot := rootOf root v in
  b <-- setNode b vRoot None ;;
  b <-- match u with
        | Some u =>
            if decide (u = ""%string) then Ok b
            else
              let uRoot := rootOf root u in
              let prevMax := edge b uRoot vRoot None in
              s <-- sepFn g v u ;;
              setEdge b uRoot vRoot (Some (Some (Qmax s (default 0%Q prevMax)))) None
        | None => Ok b
        end ;;
  Ok (b, Some v).

Definition buildBlockGraph g (layering : list (list string)) root (reverseSep : bool) : res blockGraph :=
  gl <-- of_option (Graphlib.graph g) ;;
  res_fold (λ b layer, r <-- res_fold (block_node g root (sep (nodesep gl) (edgesep gl) reverseSep)) (b, None) layer ;; Ok r.1)
    (newGraph true false false) layering.

(** [while(elem)]: the top of the stack is the head of the list, its elements are nodes of the block graph. *)
Fixpoint iterate_loop (fuel : nat) (setXsFunc : coords → string → res coords) (nextNodesFunc : string → option (list string))
    (visited : obj bool) (stack : list string) xs : res coords :=
  match stack with
  | [] => Ok xs
  | elem :: rest =>
      if decide (elem = ""%string) then Ok xs
      else
        match fuel with
        | O => Throw (JsError "out of fuel")
        | S fuel' =>
            if ohas visited elem then
              xs <-- setXsFunc xs elem ;; iterate_loop fuel' setXsFunc nextNodesFunc visited rest xs
            else
              iterate_loop fuel' setXsFunc nextNodesFunc (oset visited elem true)
                (reverse (default [] (nextNodesFunc elem)) ++ elem :: rest) xs
        end
  end.
(** A node is pushed at the start, once when it is expanded and once per edge. *)
Definition iterate b setXsFunc nextNodesFunc xs : res coords :=
  iterate_loop (2 * length (nodes b) + length (edges b)) setXsFunc nextNodesFunc [] (reverse (nodes b)) xs.

Definition xOf xs v : option Q := mjoin (oget xs v).

Definition pass1 b xs elem : res coords :=
  es <-- of_option (inEdges b elem None) ;;
  Ok (oset xs elem (foldl (λ acc e, a ← acc; x ← xOf xs (ev e); s ← edgeOf b e; Some (Qmax a (x + s)%Q)) (Some 0%Q) es)).

(** The accumulator: [None] is infinity, [Some None] is [NaN]. *)
Definition min_step b xs (acc : option (option Q)) (e : edgeObj) : option (option Q) :=
  let y := x ← xOf xs (ew e); s ← edgeOf b e; Some (x - s)%Q in
  Some (match acc with None => y | Some acc => a ← acc; y ← y; Some (Qmin a y) end).
Definition pass2 g b (borderType_ : string) xs elem : res coords :=
  es <-- of_option (outEdges b elem None) ;;
  match foldl (min_step b xs) None es with
  | None => Ok xs
  | Some m =>
      l <-- of_option (node g elem) ;;
      Ok (if decide (borderType l = Some borderType_) then xs
          else oset xs elem (x ← xOf xs elem; m ← m; Some (Qmax x m)))
  end.

Definition horizontalCompaction g (layering : list (list string)) (a : alignment) (reverseSep : bool) : res coords :=
  b <-- buildBlockGraph g layering (aroot a) reverseSep ;;
  xs <-- iterate b (pass1 b) (predecessors b) [] ;;
  xs <-- iterate b (pass2 g b (if reverseSep then "borderLeft" else "borderRight")%string) (successors b) xs ;;
  Ok (foldl (λ xs v, oset xs v (xOf xs (rootOf (aroot a) v))) xs (ovalues (aalign a))).
End Compaction.

(** ** Choosing and balancing *)

Section Balance.
Implicit Types (g : layoutGraph) (xs : coords) (xss : list (string * coords)).

(** [max-min]; the criterion is skipped when it is [NaN], [Some None] is minus infinity. *)
Definition width_step g (st : option (option (Q * Q))) xs v : res (option (option (Q * Q))) :=
  l <-- of_option (node g v) ;;
  let halfWidth := (width l / 2)%Q in
  Ok (match st, xOf xs v with
      | Some None, Some x => Some (Some (x + halfWidth, x - halfWidth)%Q)
      | Some (Some (hi, lo)), Some x => Some (Some (Qmax (x + halfWidth) hi, Qmin (x - halfWidth) lo)%Q)
      | _, _ => None
      end).
Definition alignment_width g xs : res (option (option Q)) :=
  st <-- res_fold (λ st v, width_step g st xs v) (Some None) (okeys xs) ;;
  Ok (option_map (λ hl, hi_lo ← hl; Some (hi_lo.1 - hi_lo.2)%Q) st).
Definition width_lt (a b : option Q) : bool :=
  match a, b with None, Some _ => true | Some x, Some y => qltb x y | _, _ => false end.
Definition findSmallestWidthAlignment g xss : res (option (string * coords)) :=
  ws <-- res_fold (λ ws kx, w <-- alignment_width g kx.2 ;; Ok (ws ++ [(kx, w)])) [] xss ;;
  Ok (fst <$> baseExtremum ws snd width_lt).

Definition coord_values xs : list (option Q) := xOf xs <$> okeys xs.

(** [xs===alignTo] holds of the chosen alignment only: the four objects are distinct. *)
Definition align_one (alignTo : option (string * coords)) (kx : string * coords) : string * coords :=
  let '(alignment, xs) := kx in
  if decide (fst <$> alignTo = Some alignment) then kx
  else
    let alignToVals := from_option (coord_values ∘ snd) [] alignTo in
    let xsVals := coord_values xs in
    let delta := if decide (alignment = "ul" ∨ alignment = "dl")%string
                 then a ← qmin alignToVals; x ← qmin xsVals; Some (a - x)%Q
                 else a ← qmax alignToVals; x ← qmax xsVals; Some (a - x)%Q in
    match delta with
    | Some d => if Qeq_bool d 0 then kx else (alignment, mapValues xs (λ x _, x ← x; Some (x + d)%Q))
    | None => kx
    end.
Definition alignCoordinates xss (alignTo : option (string * coords)) : list (string * coords) := align_one alignTo <$> xss.

Definition by_value (x : option Q) : sval := match x with Some q => SNum (Q2Qc q) | None => SUndef end.
Definition balance_one xss (align : option string) (v : string) : res (option Q) :=
  if truthy align then
    xs <-- of_option (oget xss (toLowerCase (default "" align)%string)) ;; Ok (xOf xs v)
  else
    let xs := sortBy ((λ kx, xOf kx.2 v) <$> xss) by_value in
    Ok (a ← mjoin (xs !! 1); b ← mjoin (xs !! 2); Some ((a + b) / 2)%Q).
Definition balance xss (align : option string) : res coords :=
  ul <-- of_option (oget xss "ul"%string) ;;
  res_fold (λ r v, x <-- balance_one xss align v ;; Ok (oset r v x)) [] (okeys ul).

Definition corner g (layering : list (list string)) conflicts neighborFn (right : bool) : res coords :=
  a <-- verticalAlignment layering conflicts neighborFn ;;
  xs <-- horizontalCompaction g layering a right ;;
  Ok (if right then mapValues xs (λ x _, Qopp <$> x) else xs).

Definition positionX g : res coords :=
  matrix <-- buildLayerMatrix g ;;
  layering <-- full_layers matrix ;;
  c1 <-- findType1Conflicts g layering ;;
  c2 <-- findType2Conflicts g layering ;;
  let conflicts := merge_conflicts c1 c2 in
  gl <-- of_option (Graphlib.graph g) ;;
  ul <-- corner g layering conflicts (predecessors g) false ;;
  ur <-- corner g (reverse <$> layering) conflicts (predecessors g) true ;;
  dl <-- corner g (reverse layering) conflicts (successors g) false ;;
  dr <-- corner g (reverse <$> reverse layering) conflicts (successors g) true ;;
  let xss := [("ul", ul); ("ur", ur); ("dl", dl); ("dr", dr)]%string in
  smallestWidth <-- findSmallestWidthAlignment g xss ;;
  balance (alignCoordinates xss smallestWidth) (align gl).
End Balance.
