(* ===== verification/DagreLayers.v ===== *)
(** * dagre: the layering matrix

    On a graph whose nodes have distinct places (rank, order), without gaps inside a rank,
    [buildLayerMatrix] returns the nodes of every rank in their order. *)
From Stdlib Require Import QArith_base.
Local Close Scope Q_scope.
From S2P Require Import Prelude JsObject Graphlib GraphWf GraphInv GraphQuery GraphView Lodash LodashSpec DagreTypes DagreBk.

Section Matrix.
Implicit Types (g : layoutGraph) (v u : string) (r o : nat) (row : list (option string)).

(** Node [v] has rank [r] and order [o]. *)
Definition located g v r o : Prop :=
  ∃ l, node g v = Some l ∧ rank l = Some (Z.of_nat r) ∧ order l = Some (Z.of_nat o).

Record layered g : Prop := {
  ly_wf : wf g;
  ly_node : ∀ v, isNode g v → v ≠ ""%string ∧ ∃ r o, located g v r o;
  ly_inj : ∀ u v r o, located g u r o → located g v r o → u = v;
  ly_dense : ∀ v r o, located g v r (S o) → ∃ u, located g u r o
}.

Lemma located_fun g v r o r' o' : located g v r o → located g v r' o' → r = r' ∧ o = o'.
Proof. intros (l & Hl & Hr & Ho) (l' & Hl' & Hr' & Ho'). simplify_eq. split; lia. Qed.

Lemma located_node g v r o : located g v r o → isNode g v.
Proof. intros (l & Hl & _). unfold node in Hl. destruct (oget (nodes_ g) v) as [x|] eqn:Hx; [by exists x|done]. Qed.

Lemma located_below g v r o o' : layered g → located g v r o → o' < o → ∃ u, located g u r o'.
Proof.
  intros H. revert v. induction o as [|o IH]; intros v Hv Hlt; [lia|]. destruct (ly_dense _ H v r o Hv) as [u Hu].
  destruct (decide (o' = o)) as [->|]; [by exists u|]. apply (IH u); [done|lia].
Qed.

Lemma array_set_lookup row i v j :
  array_set row i v !! j = if decide (j = i) then Some (Some v) else
    if decide (j < length row) then row !! j else if decide (j < i) then Some None else None.
Proof.
  unfold array_set. destruct (decide (i < length row)) as [Hi|Hi].
  - destruct (decide (j = i)) as [->|Hne]; [by rewrite list_lookup_insert_eq|]. rewrite list_lookup_insert_ne by done.
    destruct (decide (j < length row)); [done|]. rewrite decide_False by lia. apply lookup_ge_None_2. lia.
  - destruct (decide (j < length row)) as [Hj|Hj].
    + rewrite decide_False by lia. by rewrite lookup_app_l.
    + rewrite lookup_app_r by lia. destruct (decide (j = i)) as [->|Hne].
      * rewrite lookup_app_r by (rewrite length_replicate; lia). rewrite length_replicate.
        by replace (i - length row - (i - length row)) with 0 by lia.
      * case_decide as Hji.
        -- rewrite lookup_app_l by (rewrite length_replicate; lia). apply lookup_replicate_2. lia.
        -- apply lookup_ge_None_2. rewrite length_app, length_replicate. simpl. lia.
Qed.

(** The rows hold exactly the nodes [done], and a hole only stands before a node. *)
Record matrix_inv g (n : nat) (done : list string) (m : list (list (option string))) : Prop := {
  mx_rows : length m = n;
  mx_here : ∀ r row o v, m !! r = Some row → row !! o = Some (Some v) ↔ v ∈ done ∧ located g v r o;
  mx_hole : ∀ r row o, m !! r = Some row → row !! o = Some None → ∃ v o', v ∈ done ∧ located g v r o' ∧ o < o'
}.

Lemma layer_node_ok g n done m v :
  layered g → v ∉ done → (∀ u, u ∈ done → isNode g u) → isNode g v → (∀ r o, located g v r o → r < n) → matrix_inv g n done m →
  ∃ m', layer_node g m v = Ok m' ∧ matrix_inv g n (done ++ [v]) m'.
Proof.
  intros H Hnew Hdn Hv Hbound [M1 M2 M3]. destruct (ly_node _ H v Hv) as (_ & r & o & Hat). specialize (Hbound r o Hat).
  destruct (lookup_lt_is_Some_2 m r) as [row Hrow]; [lia|]. pose proof Hat as (l & Hl & Hr & Ho).
  unfold layer_node. rewrite Hl. cbn [of_option res_bind]. rewrite Hr, Ho. rewrite decide_True by lia. rewrite Nat2Z.id, Hrow.
  cbn [of_option res_bind]. rewrite decide_True, Nat2Z.id by lia. eexists. split; [done|].
  assert (∀ s row', <[r:=array_set row o v]> m !! s = Some row' →
    (s = r ∧ row' = array_set row o v) ∨ (s ≠ r ∧ m !! s = Some row')) as Hcase.
  { intros s row' Hs. apply list_lookup_insert_Some in Hs as [(-> & <- & _)|[? ?]]; [by left|by right]. }
  assert (∀ o', located g v r o' → o' = o) as Hfun by (intros o' H'; by destruct (located_fun _ _ _ _ _ _ Hat H')).
  split.
  - by rewrite length_insert.
  - intros s row' o' u [[-> ->]|[Hne Hs]]%Hcase; rewrite elem_of_app, list_elem_of_singleton.
    + rewrite array_set_lookup. case_decide as Hoo.
      * subst o'. split; [intros [= ->]; by split; [right|]|]. intros [_ Hu]. f_equal. f_equal. by apply (ly_inj _ H _ _ r o).
      * transitivity (row !! o' = Some (Some u)).
        { repeat case_decide; try done; rewrite lookup_ge_None_2 by lia; done. }
        rewrite (M2 r row o' u Hrow). split; [intros [??]; auto|]. intros [[?| ->] Hu]; [done|]. by apply Hfun in Hu.
    + rewrite (M2 s row' o' u Hs). split; [intros [??]; auto|]. intros [[?| ->] Hu]; [done|].
      by destruct (located_fun _ _ _ _ _ _ Hat Hu).
  - intros s row' o' [[-> ->]|[Hne Hs]]%Hcase Hhole.
    + rewrite array_set_lookup in Hhole. case_decide as Hoo; [done|]. case_decide as Hlt.
      * destruct (M3 r row o' Hrow Hhole) as (u & o2 & ? & ? & ?). exists u, o2. set_solver.
      * case_decide; [|done]. exists v, o. set_solver.
    + destruct (M3 s row' o' Hs Hhole) as (u & o2 & ? & ? & ?). exists u, o2. set_solver.
Qed.

Lemma ranks_of_ok g : layered g → ∃ rs, ranks_of g = Ok rs ∧ (∀ z, Some z ∈ rs ↔ ∃ v r o, located g v r o ∧ z = Z.of_nat r).
Proof.
  intros H. unfold ranks_of.
  match goal with |- context [res_fold ?f ?s ?l] =>
    destruct (res_fold_inv f (λ done rs, ∀ z, Some z ∈ rs ↔ ∃ v r o, v ∈ done ∧ located g v r o ∧ z = Z.of_nat r) l s) as (rs & -> & Hrs) end.
  - intros z. split; [by intros ?%elem_of_nil|]. by intros (? & ? & ? & ?%elem_of_nil & _).
  - intros done v rest rs Heq Hrs. assert (isNode g v) as Hv by (apply elem_of_nodes; rewrite Heq; set_solver).
    destruct (ly_node _ H v Hv) as (_ & r & o & Hat). pose proof Hat as (l & Hl & Hr & _). rewrite Hl. simpl. eexists. split; [done|].
    intros z. rewrite elem_of_app, list_elem_of_singleton, Hrs, Hr. setoid_rewrite elem_of_app. setoid_rewrite list_elem_of_singleton. split.
    + intros [(u & r' & o' & ? & ?)|[= ->]]; [exists u, r', o'; naive_solver|by exists v, r, o; auto].
    + intros (u & r' & o' & [?| ->] & Hu & ->); [left; by exists u, r', o'|right]. by destruct (located_fun _ _ _ _ _ _ Hat Hu) as [-> _].
  - exists rs. split; [done|]. intros z. rewrite Hrs. split; intros (v & r & o & ?); exists v, r, o; [naive_solver|].
    split; [|done]. eapply elem_of_nodes, located_node. naive_solver.
Qed.

Lemma range_rows (m : Z) : (0 ≤ m)%Z → length (range (m + 1) None None) = Z.to_nat (m + 1).
Proof.
  intros Hm. unfold range. rewrite decide_True by lia. unfold baseRange. rewrite baseRange_loop_spec, length_fmap, length_seq, range_length_up. lia.
Qed.

Lemma empty_rows {A} (rows : list Z) : Coll.map rows (λ _ _, [] : list A) = replicate (length rows) [].
Proof.
  unfold Coll.map, arrayMap. rewrite arrayMap_spec. simpl. induction rows as [|z rows IH]; [done|]. simpl. by rewrite <-IH.
Qed.

Lemma buildLayerMatrix_inv g : layered g → ∃ m n, buildLayerMatrix g = Ok m ∧ matrix_inv g n (nodes g) m ∧
  (∀ v r o, located g v r o → r < n) ∧ ∀ r, r < n → ∃ v r' o, located g v r' o ∧ r ≤ r'.
Proof.
  intros H. unfold buildLayerMatrix, maxRank. destruct (ranks_of_ok g H) as (rs & -> & Hrs). cbn [res_bind].
  pose proof (max_spec rs) as Hmax.
  assert (∃ n, replicate n [] = Coll.map (match Lodash.max rs with Some m => range (m + 1) None None | None => [] end) (λ _ _, [] : list (option string)) ∧
    (∀ v r o, located g v r o → r < n) ∧ ∀ r, r < n → ∃ v r' o, located g v r' o ∧ r ≤ r') as (n & <- & Hn & Hn').
  { rewrite empty_rows. eexists. split; [done|]. split; [intros v r o Hat|].
    2:{ intros r Hr. destruct (Lodash.max rs) as [m|]; [|simpl in Hr; lia]. destruct Hmax as [(v' & r' & o' & ? & Hm)%Hrs _].
        rewrite range_rows in Hr by lia. exists v', r', o'. split; [done|lia]. }
    assert (Some (Z.of_nat r) ∈ rs) as Hin by (apply Hrs; eauto). destruct (Lodash.max rs) as [m|]; [|by apply Hmax in Hin].
    destruct Hmax as [(v' & r' & o' & _ & Hm)%Hrs Hle]. specialize (Hle _ Hin). rewrite range_rows by lia. lia. }
  destruct (res_fold_inv (layer_node g) (matrix_inv g n) (nodes g) (replicate n [])) as (m & Hm & I).
  - split; [apply length_replicate| |].
    + intros r row o v [-> _]%lookup_replicate. split; [done|]. by intros [?%elem_of_nil _].
    + by intros r row o [-> _]%lookup_replicate.
  - intros done v rest m Heq I. assert (NoDup (nodes g)) as Hnd by apply NoDup_nodes, H.
    rewrite Heq in Hnd. apply NoDup_app in Hnd as (_ & Hd & _). apply layer_node_ok; [done| | | |by intros; eapply Hn|done].
    + intros Hin. apply (Hd v Hin). by left.
    + intros u Hu. apply elem_of_nodes. rewrite Heq. set_solver.
    + apply elem_of_nodes. rewrite Heq. set_solver.
  - by exists m, n.
Qed.

(** A layering that lists the nodes at their places. *)
Definition layering_of g (layering : list (list string)) : Prop :=
  ∀ v r o, (∃ layer, layering !! r = Some layer ∧ layer !! o = Some v) ↔ located g v r o.

Lemma buildLayerMatrix_ok g : layered g →
  ∃ m layering, buildLayerMatrix g = Ok m ∧ full_layers m = Ok layering ∧
    layering_of g layering ∧ ∀ r, r < length layering → ∃ v r' o, located g v r' o ∧ r ≤ r'.
Proof.
  intros H. destruct (buildLayerMatrix_inv g H) as (m & n & Hm & [M1 M2 M3] & Hn & Hn'). exists m.
  assert (is_Some (mapM (mapM id) m)) as [layering Hl].
  { apply mapM_is_Some, Forall_forall. intros row [r Hr]%list_elem_of_lookup. apply mapM_is_Some, Forall_forall.
    intros x [o Ho]%list_elem_of_lookup. destruct x as [v|]; [by eexists|]. exfalso.
    destruct (M3 r row o Hr Ho) as (v & o' & Hv & Hat & Hlt). destruct (located_below _ _ _ _ _ H Hat Hlt) as [u Hu].
    assert (u ∈ nodes g) as Hun by (eapply elem_of_nodes, located_node, Hu).
    assert (row !! o = Some (Some u)) by (by apply (M2 r)). congruence. }
  exists layering. unfold full_layers. rewrite Hl. apply mapM_Some in Hl.
  split_and!; [done..| |intros r Hr; apply Hn'; by rewrite <-M1, (Forall2_length _ _ _ Hl)]. intros v r o. split.
  - intros (layer & Hlr & Ho). destruct (Forall2_lookup_r _ _ _ _ _ Hl Hlr) as (row & Hrow & Hrl%mapM_Some).
    destruct (Forall2_lookup_r _ _ _ _ _ Hrl Ho) as (x & Hx & Hid). unfold id in Hid. subst x. by apply (M2 r) in Hx as [_ ?].
  - intros Hat. destruct (lookup_lt_is_Some_2 m r) as [row Hrow]; [rewrite M1; by eapply Hn|].
    destruct (Forall2_lookup_l _ _ _ _ _ Hl Hrow) as (layer & Hlr & Hrl%mapM_Some). exists layer. split; [done|].
    assert (row !! o = Some (Some v)) as Hx by (apply (M2 r); [done|]; split; [by eapply elem_of_nodes, located_node|done]).
    destruct (Forall2_lookup_l _ _ _ _ _ Hrl Hx) as (y & Hy & Hid). unfold id in Hid. by simplify_eq.
Qed.

(** The place of a node, computed. *)
Definition place g v : option (nat * nat) :=
  l ← node g v; r ← rank l; o ← order l;
  if decide (0 ≤ r ∧ 0 ≤ o)%Z then Some (Z.to_nat r, Z.to_nat o) else None.

Lemma located_place g v r o : located g v r o ↔ place g v = Some (r, o).
Proof.
  unfold located, place. split.
  - intros (l & Hl & Hr & Ho). rewrite Hl. cbn. rewrite Hr. cbn. rewrite Ho. cbn. rewrite decide_True by lia. by rewrite !Nat2Z.id.
  - destruct (node g v) as [l|]; [|done]. cbn. destruct (rank l) as [r'|] eqn:Hr; [|done]. cbn. destruct (order l) as [o'|] eqn:Ho; [|done]. cbn.
    case_decide; [|done]. intros [= <- <-]. exists l. rewrite !Z2Nat.id by lia. done.
Qed.

(** The conditions of [layered], decided on the list of nodes. *)
#[local] Instance place_dense_dec g v : Decision (∀ p, place g v = Some p → p.2 = 0 ∨ Some (p.1, pred p.2) ∈ place g <$> nodes g).
Proof.
  destruct (place g v) as [p|]; [|left; by intros ? [=]].
  destruct (decide (p.2 = 0 ∨ Some (p.1, pred p.2) ∈ place g <$> nodes g)); [left|right]; naive_solver.
Defined.

Definition layered_check g : bool :=
  bool_decide (Forall (λ v, v ≠ ""%string ∧ is_Some (place g v)) (nodes g)) &&
  bool_decide (NoDup (place g <$> nodes g)) &&
  bool_decide (Forall (λ v, ∀ p, place g v = Some p → p.2 = 0 ∨ Some (p.1, pred p.2) ∈ place g <$> nodes g) (nodes g)).

Lemma layered_check_ok g : wf g → layered_check g = true → layered g.
Proof.
  intros Hwf. unfold layered_check. rewrite !andb_true_iff, !bool_decide_eq_true. intros [[H1 H2] H3].
  rewrite Forall_forall in H1. rewrite Forall_forall in H3.
  assert (∀ v r o, located g v r o → v ∈ nodes g) as Hin by (intros v r o Hat; by eapply elem_of_nodes, located_node).
  split; [done| | |].
  - intros v Hv%elem_of_nodes. destruct (H1 v Hv) as [? [[r o] Hp]]. split; [done|]. exists r, o. by apply located_place.
  - intros u v r o Hu Hv. destruct (list_elem_of_lookup_1 _ _ (Hin _ _ _ Hu)) as [i Hi]. destruct (list_elem_of_lookup_1 _ _ (Hin _ _ _ Hv)) as [j Hj].
    apply located_place in Hu, Hv. assert (i = j) as ->; [|congruence].
    apply (NoDup_lookup _ i j (Some (r, o)) H2); rewrite list_lookup_fmap, ?Hi, ?Hj; cbn; congruence.
  - intros v r o Hat. pose proof (Hin _ _ _ Hat) as Hv. apply located_place in Hat. destruct (H3 v Hv _ Hat) as [[=]|(u & Hu & _)%list_elem_of_fmap].
    exists u. apply located_place. by rewrite <-Hu.
Qed.

Lemma elem_of_layering g layering v : layered g → layering_of g layering → v ∈ concat layering ↔ isNode g v.
Proof.
  intros H Hl. rewrite elem_of_concat. split.
  - intros (layer & [o Ho]%list_elem_of_lookup & [r Hr]%list_elem_of_lookup). eapply located_node, Hl. eauto.
  - intros Hv. destruct (ly_node _ H v Hv) as (_ & r & o & (layer & Hr & Ho)%Hl). exists layer. split; by eapply list_elem_of_lookup_2.
Qed.

Lemma NoDup_concat_lookup {A} (ls : list (list A)) :
  (∀ i j i' j' l l' x, ls !! i = Some l → l !! j = Some x → ls !! i' = Some l' → l' !! j' = Some x → i = i' ∧ j = j') →
  NoDup (concat ls).
Proof.
  induction ls as [|l ls IH]; intros Huniq; simpl; [constructor|]. apply NoDup_app. split_and!.
  - apply NoDup_alt. intros j j' x Hj Hj'. by destruct (Huniq 0 j 0 j' l l x) as [_ ?].
  - intros x [j Hj]%list_elem_of_lookup (l' & [j' Hj']%list_elem_of_lookup & [i' Hi']%list_elem_of_lookup)%elem_of_concat.
    by destruct (Huniq 0 j (S i') j' l l' x).
  - apply IH. intros i j i' j' l1 l2 x ????. destruct (Huniq (S i) j (S i') j' l1 l2 x) as [[=] ?]; done.
Qed.

Lemma NoDup_layering g layering : layering_of g layering → NoDup (concat layering).
Proof.
  intros Hl. apply NoDup_concat_lookup. intros i j i' j' l l' x ????. eapply located_fun; apply Hl; eauto.
Qed.
End Matrix.
