(* ===== verification/DagreOrder.v ===== *)
(** * dagre: the order of the nodes in their layers (lib/order/* inside dagre.min.js)

    [order] sweeps over the layers, up and down in turn.  A sweep sorts each layer by the barycenters of its nodes with respect to
    the neighbouring layer; the layering with the fewest crossings is kept.  The neighbours of a layer and its hierarchy are
    kept in a layer graph, whose labels are the label objects of the layout graph: [LShared] refers to the label of
    the node of the same name, [LBorder] is the object that replaces it for a cluster.

    A number that may be [NaN] is an [option Q].  Weights are not negative, so that a sum of weights that is 0 goes with
    a weighted sum that is 0 or [NaN], and the quotient is [NaN]. *)
From Stdlib Require Import QArith_base Qminmax Qcanon.
Local Close Scope Q_scope.
Local Close Scope Qc_scope.
From S2P Require Import Prelude JsObject Graphlib GraphView Lodash LodashSpec DagreTypes DagreBk DagreUtil DagreCross.

Inductive lnode :=
| LShared
| LBorder (bl br : option string) (lorder : option Z).

Abbreviation layerGraph := (Graph string lnode Z).
Abbreviation constraintGraph := (Graph unit unit unit).
Abbreviation num := (option Q).

Definition num_lt (a b : num) : bool := match a, b with Some x, Some y => qltb x y | _, _ => false end.
Definition num_ge (a b : num) : bool := match a, b with Some x, Some y => Qle_bool y x | _, _ => false end.
Definition num_add (a b : num) : num := x ← a; y ← b; Some (x + y)%Q.
Definition num_scale (a : num) (w : Z) : num := x ← a; Some (x * inject_Z w)%Q.
Definition num_div (a : num) (w : Z) : num := if decide (w = 0%Z) then None else x ← a; Some (x / inject_Z w)%Q.
Definition num_of (o : option Z) : num := inject_Z <$> o.

Definition le_undef (a b : option Z) : bool :=
  match a, b with Some x, Some y => bool_decide (x ≤ y)%Z | _, _ => false end.

(** ** The layer graphs *)

Inductive relationship := InEdges | OutEdges.

Section LayerGraph.
Implicit Types (g : layoutGraph) (lg : layerGraph) (v u root : string) (r : Z).

Definition related g (rel : relationship) v : option (list edgeObj) :=
  match rel with InEdges => inEdges g v None | OutEdges => outEdges g v None end.

Definition in_layer (l : nodeLabel) r : bool :=
  bool_decide (rank l = Some r) || (le_undef (minRank (more l)) (Some r) && le_undef (Some r) (nmaxRank (more l))).

(** [node.borderLeft[rank]]. *)
Definition border_at (border : option (list (option string))) r : res (option string) :=
  a <-- of_option border ;; Ok (if decide (0 ≤ r)%Z then mjoin (a !! Z.to_nat r) else None).

Definition layer_edge g v lg (e : edgeObj) : res layerGraph :=
  let u := if decide (ev e = v) then ew e else ev e in
  let w := default 0%Z (edge lg u v None) in
  l <-- of_option (edgeOf g e) ;;
  setEdge lg u v (Some (Some (weight l + w)%Z)) None.

Definition layer_graph_node g root r rel lg v : res layerGraph :=
  l <-- of_option (node g v) ;;
  if in_layer l r then
    lg <-- setNode lg v None ;;
    lg <-- setParent lg v (Some (if truthy (parent g v) then default root (parent g v) else root)) ;;
    lg <-- res_fold (layer_edge g v) lg (default [] (related g rel v)) ;;
    match minRank (more l) with
    | Some _ =>
        bl <-- border_at (borderLeft (more l)) r ;;
        br <-- border_at (borderRight (more l)) r ;;
        setNode lg v (Some (Some (LBorder bl br None)))
    | None => Ok lg
    end
  else Ok lg.

Definition createRootNode (idCounter : N) g : res (N * string) := freshId (S (length (nodes g))) g "_root" idCounter.

(** The default label is [g.node(v)]. *)
Definition default_lnode g v : option lnode := match node g v with Some _ => Some LShared | None => None end.

Definition buildLayerGraph (idCounter : N) g r rel : res (N * layerGraph) :=
  cr <-- createRootNode idCounter g ;;
  let lg := setDefaultNodeLabel (setGraph (newGraph true false true) (Some cr.2)) (default_lnode g) in
  lg <-- res_fold (layer_graph_node g cr.2 r rel) lg (nodes g) ;;
  Ok (cr.1, lg).

Definition buildLayerGraphs (idCounter : N) g (ranks : list Z) rel : res (N * list layerGraph) :=
  res_fold (λ st r, b <-- buildLayerGraph st.1 g r rel ;; Ok (b.1, st.2 ++ [b.2])) (idCounter, []) ranks.

(** [lg.node(v).order]. *)
Definition lorder_of g lg v : res (option Z) :=
  l <-- of_option (node lg v) ;;
  match l with
  | LShared => l <-- of_option (node g v) ;; Ok (order l)
  | LBorder _ _ o => Ok o
  end.

(** [lg.node(v).order=i]. *)
Definition set_lorder (st : layoutGraph * layerGraph) (iv : nat * string) : res (layoutGraph * layerGraph) :=
  let '(g, lg) := st in
  let '(i, v) := iv in
  l <-- of_option (node lg v) ;;
  match l with
  | LShared => g <-- updNode g v (with_order (Z.of_nat i)) ;; Ok (g, lg)
  | LBorder bl br _ => lg <-- updNode lg v (λ _, LBorder bl br (Some (Z.of_nat i))) ;; Ok (g, lg)
  end.
End LayerGraph.

(** ** Barycenters (lib/order/barycenter.js) *)

Record centre := Centre { cv : string; cbary : option (num * Z) }.

Section Barycenter.
Implicit Types (g : layoutGraph) (lg : layerGraph) (v : string).

Definition barycenter_node g lg v : res centre :=
  inV <-- of_option (inEdges lg v None) ;;
  match inV with
  | [] => Ok (Centre v None)
  | _ =>
      r <-- res_fold (λ acc e, w <-- of_option (edgeOf lg e) ;; o <-- lorder_of g lg (ev e) ;;
                        Ok (num_add acc.1 (num_scale (num_of o) w), (acc.2 + w)%Z)) (Some 0%Q, 0%Z) inV ;;
      Ok (Centre v (Some (num_div r.1 r.2, r.2)))
  end.
Definition barycenter g lg (movable : list string) : res (list centre) :=
  res_fold (λ cs v, c <-- barycenter_node g lg v ;; Ok (cs ++ [c])) [] movable.
End Barycenter.

(** ** Conflicts with the constraint graph (lib/order/resolve-conflicts.js)

    The entries are objects that refer to each other; [mappedEntries] is their store, the key of an entry is its node.
    The last element of [sourceSet] is the head of the list. *)

Record rentry := REntry {
  indegree : Z;
  rin : list string;
  rout : list string;
  rvs : list string;
  ri : nat;
  rbary : option (num * Z);
  merged : bool
}.

Record entry := Entry { evs : list string; ei : nat; ebary : option (num * Z) }.

Section Conflicts.
Implicit Types (m : obj rentry) (v w u : string) (cg : constraintGraph).

Definition rupd m v (f : rentry → rentry) : obj rentry := match oget m v with Some x => oset m v (f x) | None => m end.

Definition mapped_entry m (ic : nat * centre) : obj rentry :=
  oset m (cv ic.2) (REntry 0 [] [] [cv ic.2] ic.1 (cbary ic.2) false).
Definition bump_indegree (d : Z) (x : rentry) : rentry :=
  REntry (indegree x + d) (rin x) (rout x) (rvs x) (ri x) (rbary x) (merged x).
Definition push_out w (x : rentry) : rentry :=
  REntry (indegree x) (rin x) (rout x ++ [w]) (rvs x) (ri x) (rbary x) (merged x).
Definition with_rin (l : list string) (x : rentry) : rentry :=
  REntry (indegree x) l (rout x) (rvs x) (ri x) (rbary x) (merged x).
Definition set_merged (x : rentry) : rentry :=
  REntry (indegree x) (rin x) (rout x) (rvs x) (ri x) (rbary x) true.

Definition add_constraint m (e : edgeObj) : obj rentry :=
  match oget m (ev e), oget m (ew e) with
  | Some _, Some _ => rupd (rupd m (ew e) (bump_indegree 1)) (ev e) (push_out (ew e))
  | _, _ => m
  end.

(** The part of an entry in the weighted sum; [if(target.weight)]. *)
Definition add_part (acc : num * Z) (b : option (num * Z)) : num * Z :=
  match b with
  | Some (c, w) => if decide (w = 0%Z) then acc else (num_add acc.1 (num_scale c w), (acc.2 + w)%Z)
  | None => acc
  end.
Definition mergeEntries m (target source : string) : obj rentry :=
  match oget m target, oget m source with
  | Some t, Some s =>
      let '(sum, w) := add_part (add_part (Some 0%Q, 0%Z) (rbary t)) (rbary s) in
      rupd (oset m target (REntry (indegree t) (rin t) (rout t) (rvs s ++ rvs t) (Nat.min (ri s) (ri t)) (Some (num_div sum w, w)) (merged t)))
        source set_merged
  | _, _ => m
  end.

Definition handleIn v m u : obj rentry :=
  match oget m u, oget m v with
  | Some x, Some y =>
      if merged x then m
      else match rbary x, rbary y with
           | Some (bu, _), Some (bv, _) => if num_ge bu bv then mergeEntries m v u else m
           | _, _ => mergeEntries m v u
           end
  | _, _ => m
  end.

Definition handleOut v (st : obj rentry * list string) w : obj rentry * list string :=
  match oget st.1 w with
  | Some x =>
      let x := with_rin (rin x ++ [v]) (bump_indegree (-1) x) in
      (oset st.1 w x, if decide (indegree x = 0%Z) then w :: st.2 else st.2)
  | None => st
  end.

(** An entry enters [sourceSet] when its indegree becomes 0, so at most once. *)
Fixpoint doResolveConflicts (fuel : nat) m (sourceSet entries : list string) : res (obj rentry * list string) :=
  match sourceSet with
  | [] => Ok (m, entries)
  | v :: sourceSet =>
      match fuel with
      | O => Throw (JsError "out of fuel")
      | S fuel' =>
          x <-- of_option (oget m v) ;;
          let ins := reverse (rin x) in
          let m := foldl (handleIn v) (oset m v (with_rin ins x)) ins in
          let '(m, sourceSet) := foldl (handleOut v) (m, sourceSet) (rout x) in
          doResolveConflicts fuel' m sourceSet (entries ++ [v])
      end
  end.

Definition entry_of_store m v : option entry :=
  x ← oget m v; if merged x then None else Some (Entry (rvs x) (ri x) (rbary x)).

Definition resolveConflicts (entries : list centre) cg : res (list entry) :=
  let m := foldl mapped_entry [] (imap pair entries) in
  let m := foldl add_constraint m (edges cg) in
  let sourceSet := filter (λ v, from_option indegree 1%Z (oget m v) = 0%Z) (okeys m) in
  r <-- doResolveConflicts (length m) m (reverse sourceSet) [] ;;
  Ok (omap (entry_of_store r.1) r.2).
End Conflicts.

(** ** Sorting (lib/order/sort.js)

    The last element of [unsortable] is the head of the list. *)

Record sresult := SResult { svs : list string; sbary : option (num * Z) }.

Section Sort.
Implicit Types (vs : list (list string)) (unsortable : list entry).

Fixpoint consumeUnsortable vs unsortable (index : nat) : list (list string) * list entry * nat :=
  match unsortable with
  | last :: rest =>
      if decide (ei last ≤ index) then consumeUnsortable (vs ++ [evs last]) rest (S index) else (vs, unsortable, index)
  | [] => (vs, [], index)
  end.

Definition ecentre (e : entry) : num := match ebary e with Some (b, _) => b | None => None end.
Definition compareWithBias (bias : bool) (entryV entryW : entry) : Z :=
  if num_lt (ecentre entryV) (ecentre entryW) then (-1)%Z
  else if num_lt (ecentre entryW) (ecentre entryV) then 1%Z
  else if bias then (Z.of_nat (ei entryW) - Z.of_nat (ei entryV))%Z
  else (Z.of_nat (ei entryV) - Z.of_nat (ei entryW))%Z.

Definition has_barycenter (e : entry) : bool := bool_decide (is_Some (ebary e)).
Definition by_index_down (e : entry) : sval := SNum (Qc_of_Z (- Z.of_nat (ei e))).

Record sort_state := SortState { ss_vs : list (list string); ss_un : list entry; ss_index : nat; ss_sum : num; ss_weight : Z }.

Definition sort_step (st : sort_state) (e : entry) : sort_state :=
  let vsIndex := ss_index st + length (evs e) in
  let vs := ss_vs st ++ [evs e] in
  let '(b, w) := default (None, 0%Z) (ebary e) in
  let '(vs, un, vsIndex) := consumeUnsortable vs (ss_un st) vsIndex in
  SortState vs un vsIndex (num_add (ss_sum st) (num_scale b w)) (ss_weight st + w).

Definition sort (entries : list entry) (biasRight : bool) : sresult :=
  let sortable := array_sort (compareWithBias biasRight) (filter (λ e, has_barycenter e = true) entries) in
  let unsortable := reverse (sortBy (filter (λ e, has_barycenter e = false) entries) by_index_down) in
  let '(vs, un, vsIndex) := consumeUnsortable [] unsortable 0 in
  let st := foldl sort_step (SortState vs un vsIndex (Some 0%Q) 0%Z) sortable in
  SResult (flatten (ss_vs st))
    (if decide (ss_weight st = 0%Z) then None else Some (num_div (ss_sum st) (ss_weight st), ss_weight st)).
End Sort.

(** ** Sorting a cluster (lib/order/sort-subgraph.js) *)

Section SortSubgraph.
Implicit Types (g : layoutGraph) (lg : layerGraph) (v : string) (cg : constraintGraph).

Definition expandSubgraphs (entries : list entry) (subgraphs : obj sresult) : list entry :=
  (λ e, Entry (flatten ((λ v, match oget subgraphs v with Some s => svs s | None => [v] end) <$> evs e)) (ei e) (ebary e)) <$> entries.

Definition mergeBarycenters (target : centre) (other : num * Z) : centre :=
  Centre (cv target)
    (Some (match cbary target with
           | Some (b, w) => (num_div (num_add (num_scale b w) (num_scale other.1 other.2)) (w + other.2), (w + other.2)%Z)
           | None => other
           end)).

(** [node.borderLeft] and [node.borderRight].  The label object of a cluster has been replaced in the layer graph, and
    other nodes have no borders. *)
Definition borders_of g lg v : res (option string * option string) :=
  match node lg v with
  | Some (LBorder bl br _) => Ok (bl, br)
  | Some LShared =>
      match node g v with
      | Some l => if decide (borderLeft (more l) = None) then Ok (None, None) else Throw (JsError "border of a cluster outside the layer")
      | None => Ok (None, None)
      end
  | None => Ok (None, None)
  end.

(** [g.node(g.predecessors(v)[0]).order]. *)
Definition pred_order g lg v : res num :=
  ps <-- of_option (predecessors lg v) ;;
  p <-- of_option (head ps) ;;
  o <-- lorder_of g lg p ;; Ok (num_of o).

(** The borders around the result, and their share in its barycenter. *)
Definition add_borders g lg (bl br : string) (result : sresult) : res sresult :=
  let vs := flatten [[bl]; svs result; [br]] in
  preds <-- of_option (predecessors lg bl) ;;
  match preds with
  | [] => Ok (SResult vs (sbary result))
  | _ =>
      ol <-- pred_order g lg bl ;;
      or <-- pred_order g lg br ;;
      let '(b, w) := default (Some 0%Q, 0%Z) (sbary result) in
      Ok (SResult vs (Some (num_div (num_add (num_add (num_scale b w) ol) or) (w + 2), (w + 2)%Z)))
  end.

(** The recursion follows the hierarchy of the layer graph.  The two borders of a cluster are set together. *)
Fixpoint sortSubgraph (fuel : nat) g lg v cg (biasRight : bool) : res sresult :=
  match fuel with
  | O => Throw (JsError "Maximum call stack size exceeded")
  | S fuel' =>
      let movable := default [] (children lg v) in
      b <-- borders_of g lg v ;;
      let movable := if truthy b.1 then filter (λ w, Some w ≠ b.1 ∧ Some w ≠ b.2) movable else movable in
      barycenters <-- barycenter g lg movable ;;
      r <-- res_fold (λ st c,
              cs <-- of_option (children lg (cv c)) ;;
              match cs with
              | [] => Ok (st.1 ++ [c], st.2)
              | _ =>
                  s <-- sortSubgraph fuel' g lg (cv c) cg biasRight ;;
                  Ok (st.1 ++ [match sbary s with Some o => mergeBarycenters c o | None => c end], oset st.2 (cv c) s)
              end) ([], []) barycenters ;;
      entries <-- resolveConflicts r.1 cg ;;
      let result := sort (expandSubgraphs entries r.2) biasRight in
      if truthy b.1 then
        bl <-- of_option b.1 ;; br <-- of_option b.2 ;; add_borders g lg bl br result
      else Ok result
  end.
End SortSubgraph.

(** ** Constraints between clusters (lib/order/add-subgraph-constraints.js) *)

Section Constraints.
Implicit Types (lg : layerGraph) (cg : constraintGraph).

Record constraints := Constraints { cprev : obj string; rootPrev : option string; cgraph : constraintGraph }.

(** [while(child)]: the ancestors of a node, at most as many as there are nodes. *)
Fixpoint constrain_up (fuel : nat) lg (st : constraints) (child : option string) : res constraints :=
  match child with
  | None => Ok st
  | Some c =>
      if decide (c = ""%string) then Ok st
      else
        match fuel with
        | O => Throw (JsError "out of fuel")
        | S fuel' =>
            let p := parent lg c in
            let '(prevChild, st) :=
              if truthy p
              then (oget (cprev st) (default "" p)%string, Constraints (oset (cprev st) (default "" p)%string c) (rootPrev st) (cgraph st))
              else (rootPrev st, Constraints (cprev st) (Some c) (cgraph st)) in
            if truthy prevChild && negb (bool_decide (prevChild = Some c)) then
              cg <-- setEdge (cgraph st) (default "" prevChild)%string c None None ;;
              Ok (Constraints (cprev st) (rootPrev st) cg)
            else constrain_up fuel' lg st p
        end
  end.

Definition addSubgraphConstraints lg cg (vs : list string) : res constraintGraph :=
  st <-- res_fold (λ st v, constrain_up (S (length (nodes lg))) lg st (parent lg v)) (Constraints [] None cg) vs ;;
  Ok (cgraph st).
End Constraints.

(** ** The initial order (lib/order/init-order.js) *)

Section InitOrder.
Implicit Types (g : layoutGraph) (layers : list (list string)).

(** [layers[node.rank].push(v)]. *)
Definition push_layer layers (r : option Z) (v : string) : res (list (list string)) :=
  r <-- of_option r ;;
  layer <-- of_option (if decide (0 ≤ r)%Z then layers !! Z.to_nat r else None) ;;
  Ok (<[Z.to_nat r := layer ++ [v]]> layers).

Fixpoint init_dfs (fuel : nat) g (st : obj bool * list (list string)) (v : string) : res (obj bool * list (list string)) :=
  match fuel with
  | O => Throw (JsError "Maximum call stack size exceeded")
  | S fuel' =>
      if ohas st.1 v then Ok st
      else
        l <-- of_option (node g v) ;;
        layers <-- push_layer st.2 (rank l) v ;;
        res_fold (init_dfs fuel' g) (oset st.1 v true, layers) (default [] (successors g v))
  end.

Definition simple_nodes g : res (list string) :=
  res_fold (λ vs v, cs <-- of_option (children g v) ;; Ok (match cs with [] => vs ++ [v] | _ => vs end)) [] (nodes g).
Definition rank_of g (v : string) : option Z := l ← node g v; rank l.
Definition by_rank g (v : string) : sval := match rank_of g v with Some r => SNum (Qc_of_Z r) | None => SUndef end.

(** Every node has a label: the pass has read their ranks before. *)
Definition initOrder g : res (list (list string)) :=
  simpleNodes <-- simple_nodes g ;;
  let rows := match Lodash.max (rank_of g <$> simpleNodes) with Some m => range (m + 1) None None | None => [] end in
  let orderedVs := sortBy simpleNodes (by_rank g) in
  st <-- res_fold (init_dfs (S (length (nodes g))) g) ([], Coll.map rows (λ _ _, [])) orderedVs ;;
  Ok st.2.
End InitOrder.

(** ** The sweeps (lib/order/index.js) *)

Section Order.
Implicit Types (g : layoutGraph) (lg : layerGraph) (layering : list (list string)).

Definition assign_layer g (layer : list string) : res layoutGraph :=
  res_fold (λ g (iv : nat * string), updNode g iv.2 (with_order (Z.of_nat iv.1))) g (imap pair layer).
Definition assignOrder g layering : res layoutGraph := res_fold assign_layer g layering.

Record sweep_state := SweepState { sw_graph : layoutGraph; sw_cg : constraintGraph; sw_done : list layerGraph }.

Definition sweep_layer (biasRight : bool) (st : sweep_state) lg : res sweep_state :=
  root <-- of_option (Graphlib.graph lg) ;;
  sorted <-- sortSubgraph (S (length (nodes lg))) (sw_graph st) lg root (sw_cg st) biasRight ;;
  r <-- res_fold set_lorder (sw_graph st, lg) (imap pair (svs sorted)) ;;
  cg <-- addSubgraphConstraints r.2 (sw_cg st) (svs sorted) ;;
  Ok (SweepState r.1 cg (sw_done st ++ [r.2])).

Definition sweepLayerGraphs g (layerGraphs : list layerGraph) (biasRight : bool) : res (layoutGraph * list layerGraph) :=
  st <-- res_fold (sweep_layer biasRight) (SweepState g (newGraph true false false) []) layerGraphs ;;
  Ok (sw_graph st, sw_done st).

(** A hole of the matrix is read as [undefined], which is the key of that name. *)
Definition filled_layers (matrix : list (list (option string))) : list (list string) :=
  (λ row : list (option string), default "undefined"%string <$> row) <$> matrix.

(** The state of the [for] loop. *)
Record order_state := OrderState {
  os_graph : layoutGraph;
  downLayerGraphs : list layerGraph;
  upLayerGraphs : list layerGraph;
  os_i : nat;
  lastBest : nat;
  bestCC : ext;
  best : list (list string)
}.

(** One turn of the loop, the increments included. *)
Definition order_step (st : order_state) : res order_state :=
  let i := os_i st in
  sw <-- sweepLayerGraphs (os_graph st) (if Nat.odd i then downLayerGraphs st else upLayerGraphs st) (bool_decide (2 ≤ i mod 4)) ;;
  let g := sw.1 in
  let down := if Nat.odd i then sw.2 else downLayerGraphs st in
  let up := if Nat.odd i then upLayerGraphs st else sw.2 in
  matrix <-- buildLayerMatrix g ;;
  let layering := filled_layers matrix in
  cc <-- crossCount g layering ;;
  Ok (if decide (ext_lt (Fin cc) (bestCC st)) then OrderState g down up (S i) 1 (Fin cc) layering
      else OrderState g down up (S i) (S (lastBest st)) (bestCC st) (best st)).

Fixpoint order_loop (fuel : nat) (st : order_state) : res order_state :=
  if decide (lastBest st < 4) then
    match fuel with
    | O => Throw (JsError "out of fuel")
    | S fuel' => st <-- order_step st ;; order_loop fuel' st
    end
  else Ok st.

(** The crossing counts are at most the square of the total weight; at most three turns in a row do not improve. *)
Definition total_weight g : Z := zsum (λ v, zsum (weight_of g) (out_of g v)) (nodes g).
Definition order_fuel g : nat := 4 * S (Z.to_nat (total_weight g * total_weight g)).

(** [toFinite(NaN)] is 0 when there is no rank. *)
Definition down_ranks (maxRank : option Z) : list Z :=
  range 1 (Some (match maxRank with Some m => (m + 1)%Z | None => 0%Z end)) None.
Definition up_ranks (maxRank : option Z) : list Z :=
  range (match maxRank with Some m => (m - 1)%Z | None => 0%Z end) (Some (-1)%Z) (Some (-1)%Z).

End Order.

Module Pass.
Definition order (idCounter : N) (g : layoutGraph) : res (N * layoutGraph) :=
  m <-- maxRank g ;;
  downs <-- buildLayerGraphs idCounter g (down_ranks m) InEdges ;;
  ups <-- buildLayerGraphs downs.1 g (up_ranks m) OutEdges ;;
  layering <-- initOrder g ;;
  g <-- assignOrder g layering ;;
  st <-- order_loop (order_fuel g) (OrderState g downs.2 ups.2 0 0 Inf []) ;;
  g <-- assignOrder (os_graph st) (best st) ;;
  Ok (ups.1, g).
End Pass.
