(* ===== verification/DagreOrderResolve.v ===== *)
(** * dagre: sorting a layer loses no node

    [sort] interleaves the entries with a barycenter, in their order, with the others, which keep their index where they
    can.  An entry without barycenter is only consumed when its index has been reached; the theorem gives the condition under
    which all of them are. *)
From Stdlib Require Import QArith_base Qcanon.
Local Close Scope Q_scope.
Local Close Scope Qc_scope.
From S2P Require Import Prelude JsObject Graphlib Lodash LodashSpec DagreTypes DagreBk DagreOrder.

Section Consume.
Implicit Types (e : entry) (un taken rest es : list entry) (vs : list (list string)).

Lemma consume_spec un vs i :
  ∃ taken rest, consumeUnsortable vs un i = (vs ++ (evs <$> taken), rest, i + length taken) ∧ un = taken ++ rest ∧
    ∀ e, head rest = Some e → i + length taken < ei e.
Proof.
  revert vs i. induction un as [|e un IH]; intros vs i.
  - exists [], []. simpl. rewrite app_nil_r, Nat.add_0_r. done.
  - cbn [consumeUnsortable]. case_decide as Hi.
    + destruct (IH (vs ++ [evs e]) (S i)) as (taken & rest & -> & -> & Hr). exists (e :: taken), rest. cbn.
      rewrite <-app_assoc. split_and!; [do 2 f_equal; lia|done|]. intros e' He. apply Hr in He. lia.
    + exists [], (e :: un). simpl. rewrite app_nil_r, Nat.add_0_r. split_and!; [done..|]. intros e' [= <-]. lia.
Qed.

Definition span es : nat := sum_list_with (λ e, length (evs e)) es.

(** After the sortable entries [done] the first [taken] of [un0] have been consumed. *)
Record consumed un0 done taken (st : sort_state) : Prop := {
  cs_split : un0 = taken ++ ss_un st;
  cs_vs : concat (ss_vs st) ≡ₚ concat (evs <$> done ++ taken);
  cs_index : ss_index st = span done + length taken;
  cs_next : ∀ e, head (ss_un st) = Some e → ss_index st < ei e
}.

Lemma sort_step_consumed un0 done taken st e :
  consumed un0 done taken st → ∃ taken', consumed un0 (done ++ [e]) taken' (sort_step st e).
Proof.
  intros [H1 H2 H3 H4]. unfold sort_step. destruct (default (None, 0%Z) (ebary e)) as [b w].
  destruct (consume_spec (ss_un st) (ss_vs st ++ [evs e]) (ss_index st + length (evs e))) as (more & rest & -> & Hun & Hnext).
  exists (taken ++ more). split; cbn.
  - by rewrite H1, Hun, app_assoc.
  - rewrite !concat_app, H2, !fmap_app, !concat_app. cbn. rewrite app_nil_r. solve_Permutation.
  - unfold span in *. rewrite sum_list_with_app, length_app. cbn. lia.
  - done.
Qed.

Lemma sort_fold_consumed un0 sortable done taken st :
  consumed un0 done taken st → ∃ taken', consumed un0 (done ++ sortable) taken' (foldl sort_step st sortable).
Proof.
  revert done taken st. induction sortable as [|e sortable IH]; intros done taken st H; cbn; [rewrite app_nil_r; eauto|].
  destruct (sort_step_consumed _ _ _ _ e H) as [taken' H']. destruct (IH _ _ _ H') as [taken'' ?]. exists taken''.
  by rewrite <-app_assoc in *.
Qed.

Definition sortables es : list entry := filter (λ e, has_barycenter e = true) es.
Definition unsortables es : list entry := filter (λ e, has_barycenter e = false) es.

(** Enough of the layer is filled before the index of every entry without barycenter. *)
Definition reachable_indices es : Prop :=
  ∀ e, e ∈ unsortables es → ei e ≤ span (sortables es) + length (filter (λ f, ei f < ei e) (unsortables es)).

Lemma by_index_down_le e f : sval_le (by_index_down e) (by_index_down f) → ei f ≤ ei e.
Proof. unfold by_index_down. simpl. rewrite <-Z2Qc_inj_le. lia. Qed.

Lemma sort_perm es bias : reachable_indices es → svs (sort es bias) ≡ₚ concat (evs <$> es).
Proof.
  intros Hreach. unfold sort. fold (sortables es) (unsortables es).
  set (un0 := reverse (sortBy (unsortables es) by_index_down)).
  destruct (consume_spec un0 [] 0) as (taken & rest & -> & Hun & Hnext).
  set (st := SortState _ rest _ _ _).
  destruct (sort_fold_consumed un0 (array_sort (compareWithBias bias) (sortables es)) [] taken st) as [taken' C].
  { split; cbn; [done|done|done|]. intros e He. by apply Hnext in He. }
  rewrite app_nil_l in C. assert (un0 ≡ₚ unsortables es) as Hp by (unfold un0; by rewrite reverse_Permutation, sortBy_perm).
  set (fin := foldl sort_step st _) in *. destruct (ss_un fin) as [|e rest'] eqn:Hrest.
  - cbn [svs]. unfold flatten. rewrite flatten_concat. cbn. rewrite (cs_vs _ _ _ _ C), array_sort_perm.
    pose proof (cs_split _ _ _ _ C) as Hs. rewrite Hrest, app_nil_r in Hs. rewrite <-Hs, Hp.
    assert (sortables es ++ unsortables es ≡ₚ es) as ->; [|done]. unfold sortables, unsortables. clear.
    induction es as [|e es IH]; [done|]. destruct (has_barycenter e) eqn:He.
    + rewrite filter_cons_True, filter_cons_False by congruence. cbn. by rewrite IH.
    + rewrite filter_cons_False, filter_cons_True by congruence. rewrite <-Permutation_middle. by rewrite IH.
  - exfalso. pose proof (cs_next _ _ _ _ C e) as Hlt. rewrite Hrest, (cs_index _ _ _ _ C) in Hlt. specialize (Hlt eq_refl).
    pose proof (cs_split _ _ _ _ C) as Hs. rewrite Hrest in Hs. specialize (Hreach e).
    unfold span in *. rewrite array_sort_perm in Hlt. rewrite <-Hp, Hs, filter_app, length_app, filter_cons_False in Hreach by lia.
    assert (filter (λ f, ei f < ei e) rest' = []) as Hnil.
    { apply elem_of_nil_inv. intros f [Hf Hin]%list_elem_of_filter.
      assert (sortBy (unsortables es) by_index_down = reverse rest' ++ e :: reverse taken') as Hsort.
      { rewrite <-(reverse_involutive (sortBy _ _)). fold un0. rewrite Hs, reverse_app, reverse_cons, <-app_assoc. done. }
      pose proof (sortBy_sorted by_index_down (unsortables es)) as Hss. rewrite Hsort in Hss.
      apply (StronglySorted_app_1_elem_of _ _ _ f e) in Hss; [|by rewrite elem_of_reverse|by left].
      apply by_index_down_le in Hss. lia. }
    rewrite Hnil in Hreach. pose proof (length_filter (λ f, ei f < ei e) taken'). cbn in Hreach.
    assert (ei e ≤ sum_list_with (λ e, length (evs e)) (sortables es) + (length (filter (λ f, ei f < ei e) taken') + 0)) by (apply Hreach; set_solver).
    lia.
Qed.
End Consume.

(** * dagre: resolving the conflicts between barycenters and constraints

    [resolveConflicts] takes the entries in a topological order of the constraint graph and merges an entry into a
    predecessor when their barycenters contradict the constraint.  When the constraints have no cycle, every node ends up
    in exactly one of the entries that are returned. *)
From Stdlib Require Import QArith_base.
Local Close Scope Q_scope.
From S2P Require Import Prelude JsObject Graphlib GraphWf GraphInv GraphQuery GraphView Lodash LodashSpec DagreTypes DagreBk DagreOrder.

Section Resolve.
Context (K : list string) (idx : string → nat).
Implicit Types (m : obj rentry) (v w u : string) (x y : rentry) (outs : string → list string) (P S : list string).

Definition occ w (l : list string) : nat := length (filter (λ u, u = w) l).

(** The constraints on [w] from entries that have not been taken. *)
Definition pending outs P w : nat := sum_list_with (λ u, occ w (outs u)) (filter (λ u, u ∉ P) K).

Lemma occ_cons w u l : occ w (u :: l) = (if decide (u = w) then 1 else 0) + occ w l.
Proof. unfold occ. rewrite filter_cons. by case_decide. Qed.
Lemma occ_app w l l' : occ w (l ++ l') = occ w l + occ w l'.
Proof. unfold occ. by rewrite filter_app, length_app. Qed.
Lemma occ_pos w l : 0 < occ w l ↔ w ∈ l.
Proof.
  induction l as [|u l IH]; [unfold occ; cbn; rewrite elem_of_nil; lia|]. rewrite occ_cons, elem_of_cons, <-IH.
  case_decide; split; try lia; [by left; congruence|]. intros [->|?]; [done|lia].
Qed.

Lemma pending_take outs P v w : NoDup K → v ∈ K → v ∉ P → pending outs P w = occ w (outs v) + pending outs (P ++ [v]) w.
Proof.
  intros Hnd Hv Hn. unfold pending.
  assert (filter (λ u, u ∉ P) K ≡ₚ v :: filter (λ u, u ∉ P ++ [v]) K) as ->; [|done].
  apply NoDup_Permutation; [by apply NoDup_filter|apply NoDup_cons; split; [|by apply NoDup_filter]|].
  - rewrite list_elem_of_filter. set_solver.
  - intros u. rewrite elem_of_cons, !list_elem_of_filter. destruct (decide (u = v)); set_solver.
Qed.

Lemma sum_list_pos {A} (f : A → nat) l : 0 < sum_list_with f l ↔ ∃ a, a ∈ l ∧ 0 < f a.
Proof.
  induction l as [|a l IH]; cbn; [split; [lia|by intros (? & ?%elem_of_nil & _)]|]. split.
  - intros Hpos. destruct (decide (0 < f a)); [exists a; by split; [left|]|].
    destruct (proj1 IH) as (b & ? & ?); [lia|]. exists b. by split; [right|].
  - intros (b & [->|Hb]%elem_of_cons & ?); [lia|]. assert (0 < sum_list_with f l) by (apply IH; eauto). lia.
Qed.

Lemma pending_pos outs P w : 0 < pending outs P w ↔ ∃ u, u ∈ K ∧ u ∉ P ∧ w ∈ outs u.
Proof.
  unfold pending. rewrite sum_list_pos. setoid_rewrite list_elem_of_filter. setoid_rewrite occ_pos. naive_solver.
Qed.

(** ** The loop *)

(** The nodes of the entries that have been taken and not been merged into another. *)
Definition live m P : list string := concat (omap (λ v, evs <$> entry_of_store m v) P).

Record rc_inv outs P S m : Prop := {
  rc_keys : ∀ v, is_Some (oget m v) ↔ v ∈ K;
  rc_nodup : NoDup (P ++ S);
  rc_out : ∀ v x, oget m v = Some x → rout x = outs v;
  rc_in : ∀ v x u, oget m v = Some x → u ∈ rin x → u ∈ P;
  rc_degree : ∀ v x, oget m v = Some x → indegree x = Z.of_nat (pending outs P v);
  rc_source : ∀ v, v ∈ P ++ S ↔ v ∈ K ∧ pending outs P v = 0;
  rc_fresh : ∀ v x, oget m v = Some x → v ∉ P → rvs x = [v] ∧ merged x = false;
  rc_plain : ∀ v x, oget m v = Some x → rbary x = None → rvs x = [v] ∧ ri x = idx v;
  rc_live : live m P ≡ₚ P
}.

Lemma oget_rupd m v f u : oget (rupd m v f) u = if decide (u = v) then f <$> oget m v else oget m u.
Proof.
  unfold rupd. destruct (oget m v) as [x|] eqn:Hv; [rewrite oget_oset|]; repeat case_decide; subst; cbn; congruence.
Qed.

Lemma rupd_keys m v f u : is_Some (oget (rupd m v f) u) ↔ is_Some (oget m u).
Proof. rewrite oget_rupd. case_decide; [subst; by rewrite fmap_is_Some|done]. Qed.

(** Two stores that agree on what the loop reads, the nodes of the entries apart. *)
Definition same_links m m' : Prop :=
  ∀ v, (λ x, (indegree x, rin x, rout x)) <$> oget m v = (λ x, (indegree x, rin x, rout x)) <$> oget m' v.

(** While the predecessors of [v] are merged into it. *)
Record merging P v m m' : Prop := {
  mg_links : same_links m m';
  mg_other : ∀ u, u ∉ P → u ≠ v → oget m' u = oget m u;
  mg_plain : ∀ u x, oget m' u = Some x → rbary x = None → rvs x = [u] ∧ ri x = idx u;
  mg_self : ∃ x, oget m' v = Some x ∧ merged x = false ∧ live m' P ++ rvs x ≡ₚ P ++ [v]
}.

Lemma live_split m P u : NoDup P → u ∈ P → ∃ P', P ≡ₚ u :: P' ∧ u ∉ P'.
Proof. intros Hnd [P' HP]%elem_of_Permutation. exists P'. split; [done|]. rewrite HP in Hnd. by apply NoDup_cons in Hnd as [? _]. Qed.

Lemma live_perm m P P' : P ≡ₚ P' → live m P ≡ₚ live m P'.
Proof. intros HP. unfold live. by rewrite HP. Qed.

Lemma live_ext m m' P : (∀ u, u ∈ P → entry_of_store m u = entry_of_store m' u) → live m P = live m' P.
Proof.
  intros H. unfold live. f_equal. induction P as [|u P IH]; [done|]. cbn. rewrite (H u) by (by left).
  rewrite IH; [done|]. intros. apply H. by right.
Qed.

Lemma handleIn_merging P v m0 m u :
  NoDup P → v ∉ P → u ∈ P → merging P v m0 m → merging P v m0 (handleIn v m u).
Proof.
  intros Hnd Hv Hu M. unfold handleIn. destruct (oget m u) as [x|] eqn:Hx; [|done]. destruct (mg_self _ _ _ _ M) as (y & Hy & Hm & Hlive).
  rewrite Hy. destruct (merged x) eqn:Hmx; [done|]. enough (merging P v m0 (mergeEntries m v u)) as Hmerge.
  { destruct (rbary x) as [[bu ?]|], (rbary y) as [[bv ?]|]; [destruct (num_ge bu bv)|..]; done. }
  assert (u ≠ v) as Hne by set_solver. unfold mergeEntries. rewrite Hy, Hx.
  destruct (add_part (add_part (Some 0%Q, 0%Z) (rbary y)) (rbary x)) as [sum w]. split.
  - intros z. rewrite (mg_links _ _ _ _ M z), oget_rupd, !oget_oset. repeat case_decide; subst; try done; [|by rewrite Hy]. by rewrite Hx.
  - intros z Hz Hzv. rewrite oget_rupd, !oget_oset. rewrite !decide_False by (congruence || set_solver). by apply M.
  - intros z y'. rewrite oget_rupd, !oget_oset. repeat case_decide; subst; [done|..].
    + rewrite Hx. intros [= <-]. apply (mg_plain _ _ _ _ M u x Hx).
    + by intros [= <-].
    + by apply M.
  - rewrite oget_rupd, decide_False, oget_oset_eq by done. eexists. split_and!; [done|done|]. cbn [rvs].
    destruct (live_split m P u Hnd Hu) as (P' & HP & HuP'). rewrite (live_perm _ _ _ HP). rewrite (live_perm _ _ _ HP) in Hlive.
    assert (v ∉ P') as HvP' by (rewrite HP in Hv; set_solver).
    unfold live at 1. cbn [omap list_omap]. unfold entry_of_store at 1. rewrite oget_rupd, decide_True, oget_oset_ne by done. rewrite Hx. cbn.
    fold (live (rupd (oset m v (REntry (indegree y) (rin y) (rout y) (rvs x ++ rvs y) (Nat.min (ri x) (ri y)) (Some (num_div sum w, w)) (merged y))) u set_merged) P').
    rewrite (live_ext _ m P').
    + rewrite <-Hlive. unfold live at 2. cbn [omap list_omap]. unfold entry_of_store at 1. rewrite Hx. cbn. rewrite Hmx. cbn.
      fold (live m P'). solve_Permutation.
    + intros z Hz. unfold entry_of_store. rewrite oget_rupd, decide_False, oget_oset_ne; [done|set_solver..].
Qed.

Lemma handleIns_merging P v m0 m ins :
  NoDup P → v ∉ P → (∀ u, u ∈ ins → u ∈ P) → merging P v m0 m → merging P v m0 (foldl (handleIn v) m ins).
Proof.
  intros Hnd Hv. revert m. induction ins as [|u ins IH]; intros m Hins M; [done|]. cbn. apply IH; [set_solver|].
  apply handleIn_merging; [done..|set_solver|done].
Qed.

(** While the successors [d] of [v] have been told. *)
Definition told v (x x' : rentry) : Prop :=
  (∀ u, u ∈ rin x' → u ∈ rin x ∨ u = v) ∧ rout x' = rout x ∧ rvs x' = rvs x ∧ ri x' = ri x ∧ rbary x' = rbary x ∧ merged x' = merged x.

Record releasing outs P v S m d (st : obj rentry * list string) : Prop := {
  rs_store : ∀ w, match oget m w, oget st.1 w with
                  | Some x, Some x' => told v x x' ∧ indegree x' = (indegree x - Z.of_nat (occ w d))%Z
                  | None, None => True
                  | _, _ => False
                  end;
  rs_nodup : NoDup st.2;
  rs_stack : ∀ w, w ∈ st.2 ↔ w ∈ S ∨ w ∈ d ∧ pending outs P w = occ w d
}.

Lemma handleOut_releasing outs P v S m d st w :
  (∀ u x, oget m u = Some x → indegree x = Z.of_nat (pending outs P u)) → (∀ u, u ∈ S → pending outs P u = 0) →
  is_Some (oget m w) → occ w d < pending outs P w →
  releasing outs P v S m d st → releasing outs P v S m (d ++ [w]) (handleOut v st w).
Proof.
  intros Hdeg HS [x Hx] Hocc [R1 R2 R3]. unfold handleOut. pose proof (R1 w) as Hw. rewrite Hx in Hw.
  destruct (oget st.1 w) as [y|] eqn:Hy; [|done]. destruct Hw as [(T1 & T2 & T3 & T4 & T5 & T6) Hd].
  assert (∀ u, occ u (d ++ [w]) = occ u d + if decide (w = u) then 1 else 0) as Happ.
  { intros u. rewrite occ_app, occ_cons. change (occ u []) with 0. lia. }
  assert (w ∉ st.2) as Hnot.
  { rewrite R3. intros [Hin|[_ Hin]]; [rewrite (HS w Hin) in Hocc|]; lia. }
  cbn [fst snd]. assert (indegree (with_rin (rin y ++ [v]) (bump_indegree (-1) y)) = (Z.of_nat (pending outs P w) - Z.of_nat (occ w d) - 1)%Z) as Hi.
  { cbn. rewrite Hd, (Hdeg w x Hx). lia. }
  split; cbn [fst snd].
  - intros u. pose proof (R1 u) as Hu. rewrite oget_oset. destruct (decide (w = u)) as [<-|Hne].
    + rewrite Hx. rewrite Happ, decide_True by done. split; [|cbn; rewrite Hd; lia].
      unfold told. cbn. split_and!; try congruence. intros z. rewrite elem_of_app, list_elem_of_singleton. naive_solver.
    + rewrite Happ, decide_False, Nat.add_0_r by done. done.
  - case_decide; [|done]. by apply NoDup_cons.
  - intros u. rewrite Happ, elem_of_app, list_elem_of_singleton. destruct (decide (w = u)) as [<-|Hne].
    + rewrite Hi. case_decide; [rewrite elem_of_cons, R3|rewrite R3]; split; try (intros; lia || naive_solver lia).
    + rewrite Nat.add_0_r. transitivity (u ∈ st.2); [case_decide; rewrite ?elem_of_cons; naive_solver|]. rewrite R3. naive_solver.
Qed.

Lemma handleOuts_releasing outs P v S m :
  (∀ u x, oget m u = Some x → indegree x = Z.of_nat (pending outs P u)) → (∀ u, u ∈ S → pending outs P u = 0) → NoDup S →
  (∀ w, w ∈ outs v → is_Some (oget m w)) → (∀ w, occ w (outs v) ≤ pending outs P w) →
  releasing outs P v S m (outs v) (foldl (handleOut v) (m, S) (outs v)).
Proof.
  intros Hdeg HS Hnd Hin Hocc.
  assert (∀ rest d st, outs v = d ++ rest → releasing outs P v S m d st → releasing outs P v S m (outs v) (foldl (handleOut v) st rest)) as Hg.
  { induction rest as [|w rest IH]; intros d st Heq R; cbn; [rewrite app_nil_r in Heq; by rewrite Heq|].
    apply (IH (d ++ [w])); [by rewrite <-app_assoc|]. apply handleOut_releasing; [done|done|apply Hin; rewrite Heq; set_solver| |done].
    specialize (Hocc w). rewrite Heq, occ_app, occ_cons, decide_True in Hocc by done. lia. }
  apply (Hg _ []); [done|]. split; cbn; [|done|].
  - intros w. destruct (oget m w); [|done]. split; [|unfold occ; cbn; lia]. unfold told. naive_solver.
  - intros w. split; [by left|]. by intros [?|[?%elem_of_nil _]].
Qed.

(** The entries taken and the sources after one turn. *)
Lemma stack_next outs P v S S' :
  NoDup K → (∀ u w, u ∈ K → w ∈ outs u → w ∈ K) → NoDup (P ++ v :: S) → NoDup S' →
  (∀ w, w ∈ P ++ v :: S ↔ w ∈ K ∧ pending outs P w = 0) →
  (∀ w, w ∈ S' ↔ w ∈ S ∨ w ∈ outs v ∧ pending outs P w = occ w (outs v)) →
  NoDup ((P ++ [v]) ++ S') ∧ ∀ w, w ∈ (P ++ [v]) ++ S' ↔ w ∈ K ∧ pending outs (P ++ [v]) w = 0.
Proof.
  intros HK Hcl (HP & HPS & [HvS HS]%NoDup_cons)%NoDup_app HS' Hsrc Hstack.
  assert (v ∉ P) as HvP by (intros Hin; apply (HPS v Hin); by left).
  assert (v ∈ K) as HvK by (apply Hsrc; set_solver).
  assert (∀ w, pending outs P w = occ w (outs v) + pending outs (P ++ [v]) w) as Hpend by (intros; by apply pending_take).
  split; [apply NoDup_app; split_and!; [|intros u Hu|done]|].
  - apply NoDup_app. split_and!; [done|set_solver|apply NoDup_singleton].
  - rewrite Hstack. intros [Hin|[Hin Hocc]].
    + apply elem_of_app in Hu as [Hu| ->%list_elem_of_singleton]; [by apply (HPS u Hu); right|done].
    + assert (pending outs P u = 0) by (apply Hsrc; set_solver). apply occ_pos in Hin. lia.
  - intros u. rewrite elem_of_app, Hstack. specialize (Hpend u). split.
    + intros [Hu|[Hu|[Hu Hocc]]]; [| |split; [by apply (Hcl v)|lia]].
      all: assert (u ∈ P ++ v :: S) as [? ?]%Hsrc by set_solver; split; [done|lia].
    + intros [Hu Hz]. destruct (decide (pending outs P u = 0)) as [Hp|Hp].
      * assert (u ∈ P ++ v :: S) as Hin by (by apply Hsrc). set_solver.
      * right. right. split; [apply occ_pos; lia|lia].
Qed.

(** The store after the predecessors of [v] have been merged into it. *)
Lemma merge_phase outs P v S m x :
  rc_inv outs P (v :: S) m → oget m v = Some x →
  let m0 := oset m v (with_rin (reverse (rin x)) x) in
  let m1 := foldl (handleIn v) m0 (reverse (rin x)) in
  merging P v m0 m1 ∧
  ∀ u, match oget m u, oget m1 u with
       | Some y, Some y1 => indegree y1 = indegree y ∧ rout y1 = rout y ∧ (∀ z, z ∈ rin y1 → z ∈ rin y)
       | None, None => True
       | _, _ => False
       end.
Proof.
  intros I Hx. pose proof (rc_nodup _ _ _ _ I) as Hnd. apply NoDup_app in Hnd as (HP & HPS & _).
  assert (v ∉ P) as HvP by (intros Hin; apply (HPS v Hin); by left).
  destruct (rc_fresh _ _ _ _ I v x Hx HvP) as [Hvs Hmx]. cbn zeta. set (m0 := oset m v _).
  assert (merging P v m0 (foldl (handleIn v) m0 (reverse (rin x)))) as M.
  { apply handleIns_merging; [done..| |].
    - intros u. rewrite elem_of_reverse. by apply (rc_in _ _ _ _ I v).
    - split; [done|done| |].
      { intros u y. unfold m0. rewrite oget_oset. case_decide; [|apply (rc_plain _ _ _ _ I)]. subst. intros [= <-]. apply (rc_plain _ _ _ _ I _ x Hx). }
      exists (with_rin (reverse (rin x)) x). unfold m0. rewrite oget_oset_eq. split_and!; [done..|]. cbn. rewrite Hvs.
      rewrite (live_ext _ m P); [by rewrite (rc_live _ _ _ _ I)|]. intros u Hu. unfold entry_of_store. rewrite oget_oset_ne; [done|set_solver]. }
  split; [done|]. intros u. pose proof (mg_links _ _ _ _ M u) as Hl. unfold m0 in Hl at 1. rewrite oget_oset in Hl.
  destruct (decide (v = u)) as [<-|Hne].
  - rewrite Hx. destruct (oget (foldl _ _ _) v) as [y1|]; simplify_eq/=. split_and!; [congruence..|]. intros z Hz. rewrite <-elem_of_reverse. congruence.
  - destruct (oget m u), (oget (foldl _ _ _) u); simplify_eq/=; [|done]. split_and!; [congruence..|]. intros z. congruence.
Qed.

(** One turn of the loop. *)
Lemma resolve_turn outs P v S m x :
  NoDup K → (∀ u w, u ∈ K → w ∈ outs u → w ∈ K) → rc_inv outs P (v :: S) m → oget m v = Some x →
  let m1 := foldl (handleIn v) (oset m v (with_rin (reverse (rin x)) x)) (reverse (rin x)) in
  let st := foldl (handleOut v) (m1, S) (rout x) in
  rc_inv outs (P ++ [v]) st.2 st.1.
Proof.
  intros HK Hcl I Hx. destruct (merge_phase _ _ _ _ _ _ I Hx) as [M Hm1]. pose proof (rc_nodup _ _ _ _ I) as Hnd.
  pose proof Hnd as (_ & HPS & [HvS HS]%NoDup_cons)%NoDup_app.
  assert (v ∉ P) as HvP by (intros Hin; apply (HPS v Hin); by left).
  assert (v ∈ K) as HvK by (apply (rc_keys _ _ _ _ I); by eexists).
  cbn zeta in *. rewrite (rc_out _ _ _ _ I v x Hx). set (m1 := foldl (handleIn v) _ _) in *.
  assert (∀ u y, oget m1 u = Some y → ∃ y0, oget m u = Some y0 ∧ indegree y = indegree y0 ∧ rout y = rout y0 ∧ ∀ z, z ∈ rin y → z ∈ rin y0) as Hback.
  { intros u y Hy. specialize (Hm1 u). rewrite Hy in Hm1. destruct (oget m u) as [y0|]; [|done]. exists y0. naive_solver. }
  destruct (handleOuts_releasing outs P v S m1) as [R1 R2 R3]; [| |done| | |set (st := foldl (handleOut v) (m1, S) (outs v)) in *].
  { intros u y (y0 & Hy0 & -> & _)%Hback. by apply (rc_degree _ _ _ _ I). }
  { intros u Hu. apply (rc_source _ _ _ _ I). set_solver. }
  { intros w Hw. assert (is_Some (oget m w)) as [y Hy] by (by apply (rc_keys _ _ _ _ I), (Hcl v)). specialize (Hm1 w). rewrite Hy in Hm1.
    by destruct (oget m1 w). }
  { intros w. rewrite (pending_take outs P v w HK HvK HvP). lia. }
  assert (∀ u y, oget st.1 u = Some y → ∃ y1, oget m1 u = Some y1 ∧ told v y1 y ∧ indegree y = (indegree y1 - Z.of_nat (occ u (outs v)))%Z) as Hst.
  { intros u y Hy. specialize (R1 u). rewrite Hy in R1. destruct (oget m1 u) as [y1|]; [|done]. exists y1. naive_solver. }
  destruct (stack_next outs P v S st.2 HK Hcl Hnd R2 (rc_source _ _ _ _ I) R3) as [Hnd' Hsrc']. split; [|done| | | |done| | |].
  - intros u. rewrite <-(rc_keys _ _ _ _ I u). specialize (Hm1 u). specialize (R1 u).
    destruct (oget m u), (oget m1 u), (oget st.1 u); try done; split; intros; by eexists || (by destruct H).
  - intros u y (y1 & (y0 & Hy0 & _ & Hr & _)%Hback & (_ & -> & _) & _)%Hst. rewrite Hr. by apply (rc_out _ _ _ _ I).
  - intros u y z (y1 & (y0 & Hy0 & _ & _ & Hin)%Hback & (Ht & _) & _)%Hst Hz. apply elem_of_app.
    destruct (Ht z Hz) as [?| ->]; [left; eapply (rc_in _ _ _ _ I u); eauto|right; by left].
  - intros u y (y1 & (y0 & Hy0 & Hi & _)%Hback & _ & ->)%Hst. rewrite Hi, (rc_degree _ _ _ _ I u y0 Hy0), (pending_take outs P v u HK HvK HvP). lia.
  - intros u y (y1 & Hy1 & (_ & _ & -> & _ & _ & ->) & _)%Hst Hu.
    assert (u ∉ P ∧ u ≠ v) as [Hup Huv] by set_solver. rewrite (mg_other _ _ _ _ M u Hup Huv), oget_oset_ne in Hy1 by done.
    by apply (rc_fresh _ _ _ _ I u).
  - intros u y (y1 & Hy1 & (_ & _ & -> & -> & -> & _) & _)%Hst. by apply (mg_plain _ _ _ _ M u).
  - destruct (mg_self _ _ _ _ M) as (y1 & Hy1 & Hmy & Hl). transitivity (live m1 P ++ rvs y1); [|done]. rewrite (live_ext st.1 m1).
    + unfold live. rewrite omap_app, concat_app. f_equiv. cbn. unfold entry_of_store. fold m1 in Hy1. rewrite Hy1. cbn. rewrite Hmy. cbn. by rewrite app_nil_r.
    + intros u _. unfold entry_of_store. specialize (R1 u). destruct (oget m1 u) as [y|], (oget st.1 u) as [y'|]; try done. cbn.
      destruct R1 as [(_ & _ & -> & -> & -> & ->) _]. done.
Qed.

(** With no cycle among the constraints, the loop takes every entry. *)
Lemma all_taken outs P :
  (∀ v, ¬ tc (λ u w, u ∈ K ∧ w ∈ outs u) v v) → (∀ w, w ∈ P ↔ w ∈ K ∧ pending outs P w = 0) → ∀ v, v ∈ K → v ∈ P.
Proof.
  intros Hac HP v Hv. apply dec_stable. intros Hn.
  assert (∀ n, ∃ u, u ∈ K ∧ u ∉ P ∧ nsteps (λ u w, u ∈ K ∧ w ∈ outs u) n u v) as Hchain.
  { induction n as [|n (u & Hu & HuP & Hs)]; [exists v; split_and!; [done..|constructor]|].
    assert (0 < pending outs P u) as (w & ? & ? & ?)%pending_pos; [|exists w; split_and!; [done..|by econstructor]].
    apply Nat.neq_0_lt_0. intros Hz. by apply HuP, HP. }
  destruct (Hchain (S (length K))) as (u & _ & _ & Hs).
  apply (acyclic_nsteps_bound _ K) in Hs; [lia|done|]. by intros ?? [? _].
Qed.

Lemma resolve_loop outs :
  NoDup K → (∀ u w, u ∈ K → w ∈ outs u → w ∈ K) → (∀ v, ¬ tc (λ u w, u ∈ K ∧ w ∈ outs u) v v) →
  ∀ fuel P S m, rc_inv outs P S m → length K ≤ fuel + length P →
  ∃ m' P', doResolveConflicts fuel m S P = Ok (m', P') ∧ rc_inv outs P' [] m' ∧ P' ≡ₚ K.
Proof.
  intros HK Hcl Hac fuel. induction fuel as [|fuel IH]; intros P S m I Hf; destruct S as [|v S].
  1,3: exists m, P; split_and!; [done|done|]; pose proof (rc_nodup _ _ _ _ I) as Hnd; rewrite app_nil_r in Hnd;
    pose proof (rc_source _ _ _ _ I) as Hsrc; rewrite app_nil_r in Hsrc;
    apply NoDup_Permutation; [done|done|]; intros v; split; [by intros [? _]%Hsrc|by apply (all_taken outs P)].
  - exfalso. assert (length (P ++ v :: S) ≤ length K) as Hle.
    { apply submseteq_length, NoDup_submseteq; [apply I|]. by intros u [? _]%(rc_source _ _ _ _ I). }
    rewrite length_app in Hle. cbn in Hle. lia.
  - cbn [doResolveConflicts]. assert (v ∈ K) as HvK by (apply (rc_source _ _ _ _ I); set_solver).
    destruct (proj2 (rc_keys _ _ _ _ I v) HvK) as [x Hx]. rewrite Hx. cbn [of_option res_bind].
    pose proof (resolve_turn outs P v S m x HK Hcl I Hx) as Hturn. cbn zeta in Hturn.
    destruct (foldl (handleOut v) _ (rout x)) as [m2 S2]. apply IH; [done|]. rewrite length_app. cbn. lia.
Qed.

(** ** The initial store *)

(** The heads of the constraints from [v] between the given nodes. *)
Definition outs_of (es : list edgeObj) v : list string := ew <$> filter (λ e, ev e = v ∧ ev e ∈ K ∧ ew e ∈ K) es.

Lemma elem_of_outs es v w : w ∈ outs_of es v → w ∈ K ∧ v ∈ K ∧ ∃ e, e ∈ es ∧ ev e = v ∧ ew e = w.
Proof. intros (e & -> & [(<- & ? & ?) ?]%list_elem_of_filter)%list_elem_of_fmap. eauto 10. Qed.

Lemma outs_of_snoc es e v :
  outs_of (es ++ [e]) v = outs_of es v ++ if decide (ev e = v ∧ ev e ∈ K ∧ ew e ∈ K) then [ew e] else [].
Proof. unfold outs_of. rewrite filter_app, fmap_app. f_equal. rewrite filter_cons. by case_decide. Qed.

Lemma pending_snoc es e w :
  NoDup K → pending (outs_of (es ++ [e])) [] w = pending (outs_of es) [] w + if decide (ev e ∈ K ∧ ew e ∈ K ∧ ew e = w) then 1 else 0.
Proof.
  intros HK. destruct (decide (ev e ∈ K)) as [Hv|Hv].
  - rewrite !(pending_take _ [] (ev e)) by (done || apply not_elem_of_nil). rewrite outs_of_snoc, occ_app.
    assert (pending (outs_of (es ++ [e])) ([] ++ [ev e]) w = pending (outs_of es) ([] ++ [ev e]) w) as ->.
    { unfold pending. assert (∀ u, u ∈ filter (λ u, u ∉ [] ++ [ev e]) K → outs_of (es ++ [e]) u = outs_of es u) as Hext.
      { intros u [Hu _]%list_elem_of_filter. rewrite outs_of_snoc, decide_False, app_nil_r; [done|]. set_solver. }
      induction (filter _ K) as [|u l IH]; [done|]. cbn. rewrite IH, Hext; [done|by left|]. intros z ?. apply Hext. by right. }
    destruct (decide (ew e ∈ K)) as [Hw|Hw].
    + rewrite (decide_True (P := ev e = ev e ∧ _)) by done. rewrite occ_cons. change (occ w []) with 0.
      destruct (decide (ew e = w)); [rewrite decide_True by done|rewrite decide_False by naive_solver]; lia.
    + rewrite !decide_False by naive_solver. change (occ w []) with 0. lia.
  - rewrite decide_False by naive_solver. rewrite Nat.add_0_r. unfold pending.
    induction (filter _ K) as [|u l IH]; [done|]. cbn. rewrite IH, outs_of_snoc, decide_False, app_nil_r by naive_solver. done.
Qed.

(** The store while the constraints [es] have been added. *)
Record linked es m : Prop := {
  lk_keys : ∀ v, is_Some (oget m v) ↔ v ∈ K;
  lk_entry : ∀ v x, oget m v = Some x → rin x = [] ∧ rvs x = [v] ∧ ri x = idx v ∧ merged x = false ∧
    rout x = outs_of es v ∧ indegree x = Z.of_nat (pending (outs_of es) [] v)
}.

Lemma add_constraint_linked es m e : NoDup K → linked es m → linked (es ++ [e]) (add_constraint m e).
Proof.
  intros HK [L1 L2]. unfold add_constraint.
  destruct (decide (ev e ∈ K ∧ ew e ∈ K)) as [[Hv Hw]|Hn].
  - destruct (proj2 (L1 _) Hv) as [x ->], (proj2 (L1 _) Hw) as [y ->]. split.
    + intros v. by rewrite !rupd_keys.
    + intros v z. rewrite outs_of_snoc, pending_snoc by done.
      assert (∀ z', oget (rupd m (ew e) (bump_indegree 1)) v = Some z' →
        rin z' = [] ∧ rvs z' = [v] ∧ ri z' = idx v ∧ merged z' = false ∧ rout z' = outs_of es v ∧
        indegree z' = Z.of_nat (pending (outs_of es) [] v + if decide (ev e ∈ K ∧ ew e ∈ K ∧ ew e = v) then 1 else 0)) as Hb.
      { intros z'. rewrite oget_rupd. case_decide as Hvw.
        - intros (z0 & Hz0 & ->)%fmap_Some. rewrite <-Hvw in Hz0. destruct (L2 v z0 Hz0) as (?&?&?&?&?&Hi).
          rewrite decide_True by (by rewrite <-Hvw in *). cbn. split_and!; try done. rewrite Hi. lia.
        - intros Hz0. destruct (L2 v z' Hz0) as (?&?&?&?&?&Hi). rewrite decide_False by naive_solver. rewrite Nat.add_0_r. done. }
      rewrite oget_rupd. destruct (decide (v = ev e)) as [Hve|Hve].
      * intros (z' & Hz' & ->)%fmap_Some. rewrite <-Hve in Hz'. destruct (Hb z' Hz') as (?&?&?&?&Ho&?).
        rewrite (decide_True (P := ev e = v ∧ _)) by (by rewrite <-Hve in *). cbn. split_and!; try done. by rewrite Ho.
      * intros Hz'. destruct (Hb z Hz') as (?&?&?&?&Ho&?). rewrite (decide_False (P := ev e = v ∧ _)) by naive_solver. rewrite app_nil_r. done.
  - assert (match oget m (ev e), oget m (ew e) with Some _, Some _ => rupd (rupd m (ew e) (bump_indegree 1)) (ev e) (push_out (ew e)) | _, _ => m end = m) as ->.
    { destruct (oget m (ev e)) eqn:H1, (oget m (ew e)) eqn:H2; try done. exfalso. apply Hn. split; apply L1; by eexists. }
    split; [done|]. intros v x Hx. rewrite outs_of_snoc, pending_snoc, !decide_False, app_nil_r, Nat.add_0_r by naive_solver. by apply L2.
Qed.

Lemma add_constraints_linked es m : NoDup K → linked [] m → linked es (foldl add_constraint m es).
Proof.
  intros HK L. assert (∀ rest done m, es = done ++ rest → linked done m → linked es (foldl add_constraint m rest)) as Hg.
  { induction rest as [|e rest IH]; intros done m' Heq L'; cbn; [rewrite app_nil_r in Heq; by rewrite Heq|].
    apply (IH (done ++ [e])); [by rewrite <-app_assoc|]. by apply add_constraint_linked. }
  by apply (Hg es []).
Qed.
End Resolve.

(** ** The whole function *)

Section Whole.
Implicit Types (cs : list centre) (cg : constraintGraph) (v u : string).

Definition index_in (K : list string) v : nat := default 0 (fst <$> list_find (λ u, u = v) K).

Lemma index_in_lookup K v i : NoDup K → K !! i = Some v → index_in K v = i.
Proof.
  intros HK Hi. unfold index_in. destruct (list_find (λ u, u = v) K) as [[j u]|] eqn:Hf.
  - apply list_find_Some in Hf as (Hj & -> & _). cbn. by eapply NoDup_lookup.
  - apply list_find_None in Hf. rewrite Forall_forall in Hf. exfalso. apply (Hf v); [by eapply list_elem_of_lookup_2|done].
Qed.

Lemma imap_snoc {A B} (f : nat → A → B) l x : imap f (l ++ [x]) = imap f l ++ [f (length l) x].
Proof. rewrite imap_app. cbn. by rewrite Nat.add_0_r. Qed.

Lemma mapped_entries_spec cs v :
  NoDup (cv <$> cs) →
  oget (foldl mapped_entry [] (imap pair cs)) v =
    match list_find (λ c, cv c = v) cs with Some (i, c) => Some (REntry 0 [] [] [v] i (cbary c) false) | None => None end.
Proof.
  induction cs as [|c cs IH] using rev_ind; [done|]. rewrite fmap_app. intros (Hnd & Hd & _)%NoDup_app.
  rewrite imap_snoc, foldl_snoc. unfold mapped_entry at 1. cbn [fst snd]. rewrite oget_oset, (IH Hnd).
  destruct (list_find (λ c, cv c = v) cs) as [[i c']|] eqn:Hf.
  - rewrite (list_find_app_l _ _ _ _ _ Hf). apply list_find_Some in Hf as (Hi & Hc & _). rewrite decide_False; [done|].
    intros <-. apply (Hd (cv c)); [|by left]. apply list_elem_of_fmap. exists c'. split; [done|]. by eapply list_elem_of_lookup_2.
  - rewrite list_find_app_r by done. cbn. case_decide; subst; cbn; rewrite ?Nat.add_0_r; done.
Qed.

Lemma mapped_entries_linked cs : NoDup (cv <$> cs) → linked (cv <$> cs) (index_in (cv <$> cs)) [] (foldl mapped_entry [] (imap pair cs)).
Proof.
  intros Hnd. split.
  - intros v. rewrite mapped_entries_spec by done. destruct (list_find _ cs) as [[i c]|] eqn:Hf.
    + apply list_find_Some in Hf as (Hi & <- & _). split; [|by eexists]. intros _. apply list_elem_of_fmap_2. by eapply list_elem_of_lookup_2.
    + split; [by intros []|]. intros (c & -> & Hc)%list_elem_of_fmap. apply list_find_None in Hf. rewrite Forall_forall in Hf. by destruct (Hf c Hc).
  - intros v x. rewrite mapped_entries_spec by done. destruct (list_find _ cs) as [[i c]|] eqn:Hf; [|done]. intros [= <-].
    apply list_find_Some in Hf as (Hi & <- & _). cbn. split_and!; try done.
    + symmetry. apply index_in_lookup; [done|]. by rewrite list_lookup_fmap, Hi.
    + unfold pending, outs_of. cbn. induction (filter _ (cv <$> cs)) as [|u l IH]; [done|]. cbn. by rewrite <-IH.
Qed.

(** A constraint between two of the nodes. *)
Definition constrained cg (K : list string) u v : Prop := u ∈ K ∧ v ∈ K ∧ ∃ e, e ∈ edges cg ∧ ev e = u ∧ ew e = v.

Lemma tc_impl {A} (R R' : relation A) x y : (∀ a b, R a b → R' a b) → tc R x y → tc R' x y.
Proof. intros H. induction 1; [by apply tc_once, H|eapply tc_l; eauto]. Qed.

Lemma linked_inv cs cg m sources :
  linked (cv <$> cs) (index_in (cv <$> cs)) (edges cg) m → owf m → NoDup (cv <$> cs) →
  sources = filter (λ v, from_option indegree 1%Z (oget m v) = 0%Z) (okeys m) →
  rc_inv (cv <$> cs) (index_in (cv <$> cs)) (outs_of (cv <$> cs) (edges cg)) [] (reverse sources) m.
Proof.
  intros [L1 L2] Hwf Hnd ->. split.
  - done.
  - cbn. rewrite reverse_Permutation. by apply NoDup_filter, NoDup_okeys.
  - intros v x Hx. by apply (L2 v x Hx).
  - intros v x u Hx. destruct (L2 v x Hx) as (-> & _). by intros ?%elem_of_nil.
  - intros v x Hx. by apply (L2 v x Hx).
  - intros v. cbn. rewrite elem_of_reverse, list_elem_of_filter, elem_of_okeys, <-L1. split.
    + intros [Hi [x Hx]]. rewrite Hx in Hi. destruct (L2 v x Hx) as (_ & _ & _ & _ & _ & Hd). cbn in Hi. split; [by eexists|lia].
    + intros [[x Hx] Hp]. rewrite Hx. destruct (L2 v x Hx) as (_ & _ & _ & _ & _ & Hd). cbn. split; [lia|by eexists].
  - intros v x Hx _. by destruct (L2 v x Hx) as (_ & ? & _ & ? & _).
  - intros v x Hx _. by destruct (L2 v x Hx) as (_ & ? & ? & _).
  - done.
Qed.

Lemma owf_rupd m v f : owf m → owf (rupd m v f).
Proof. unfold rupd. destruct (oget m v); [apply owf_oset|done]. Qed.

Lemma owf_store cs es : owf (foldl add_constraint (foldl mapped_entry [] (imap pair cs)) es).
Proof.
  assert (owf (foldl mapped_entry [] (imap pair cs))) as H.
  { generalize (imap pair cs). intros l. assert (owf ([] : obj rentry)) as H by apply owf_nil. revert H. generalize ([] : obj rentry).
    induction l as [|ic l IH]; intros m H; [done|]. cbn. by apply IH, owf_oset. }
  revert H. generalize (foldl mapped_entry [] (imap pair cs)). induction es as [|e es IH]; intros m H; [done|]. cbn. apply IH.
  unfold add_constraint. destruct (oget m (ev e)), (oget m (ew e)); try done. by repeat apply owf_rupd.
Qed.

(** The indices of the entries without barycenter fit the number of nodes in front of them. *)
Lemma entries_reachable (K : list string) (es : list entry) :
  NoDup K → concat (evs <$> es) ≡ₚ K → (∀ e, e ∈ unsortables es → ∃ v, evs e = [v] ∧ ei e = index_in K v ∧ v ∈ K) → reachable_indices es.
Proof.
  intros HK Hp Hun e He. destruct (Hun e He) as (v & Hv & Hi & HvK). apply list_elem_of_lookup in HvK as [i HvK].
  rewrite (index_in_lookup K v i HK HvK) in Hi. subst i.
  set (low := filter (λ f, ei f < ei e) (unsortables es)).
  assert (length (take (ei e) K) ≤ length (concat (evs <$> sortables es) ++ concat (evs <$> low))) as Hle.
  { apply submseteq_length, NoDup_submseteq; [by eapply sublist_NoDup, sublist_take|]. intros u Hu.
    assert (u ∈ K) as HuK by (eapply elem_of_sublist; [done|apply sublist_take]). apply list_elem_of_lookup in Hu as [j Hj].
    apply lookup_take_Some in Hj as [Hj Hlt]. rewrite <-Hp in HuK. apply elem_of_concat in HuK as (vs & Huv & (f & -> & Hf)%list_elem_of_fmap).
    rewrite elem_of_app, !elem_of_concat. destruct (has_barycenter f) eqn:Hb.
    - left. exists (evs f). split; [done|]. apply list_elem_of_fmap. exists f. split; [done|]. by apply list_elem_of_filter.
    - right. exists (evs f). split; [done|]. apply list_elem_of_fmap. exists f. split; [done|]. assert (f ∈ unsortables es) as Hfu by (by apply list_elem_of_filter).
      apply list_elem_of_filter. split; [|done]. destruct (Hun f Hfu) as (w & Hw & Hwi & _). rewrite Hw in Huv. apply list_elem_of_singleton in Huv as ->.
      by rewrite Hwi, (index_in_lookup K w j HK Hj). }
  rewrite length_take_le in Hle by (apply Nat.lt_le_incl; by eapply lookup_lt_Some). rewrite length_app in Hle.
  assert (∀ l : list entry, length (concat (evs <$> l)) = span l) as Hspan.
  { unfold span. induction l as [|f l IH]; [done|]. cbn. by rewrite length_app, IH. }
  assert (span low = length low) as Hlow.
  { unfold span. assert (∀ f, f ∈ low → length (evs f) = 1) as H1.
    { intros f [_ Hf]%list_elem_of_filter. destruct (Hun f Hf) as (w & -> & _). done. }
    clearbody low. clear Hle. induction low as [|f l IH]; [done|]. cbn. rewrite IH by (intros z ?; apply H1; by right). by rewrite (H1 f) by (by left). }
  rewrite !Hspan, Hlow in Hle. done.
Qed.

Lemma resolveConflicts_ok cs cg :
  NoDup (cv <$> cs) → (∀ v, ¬ tc (constrained cg (cv <$> cs)) v v) →
  ∃ es, resolveConflicts cs cg = Ok es ∧ concat (evs <$> es) ≡ₚ cv <$> cs ∧ reachable_indices es.
Proof.
  intros Hnd Hac. unfold resolveConflicts. set (K := cv <$> cs) in *.
  pose proof (add_constraints_linked K (index_in K) (edges cg) _ Hnd (mapped_entries_linked cs Hnd)) as HL.
  pose proof (owf_store cs (edges cg)) as Hwf. set (m := foldl add_constraint _ (edges cg)) in *.
  pose proof (linked_inv cs cg m _ HL Hwf Hnd eq_refl) as I.
  destruct (resolve_loop K (index_in K) (outs_of K (edges cg)) Hnd) with (fuel := length m) (P := @nil string) (S := reverse (filter (λ v, from_option indegree 1%Z (oget m v) = 0%Z) (okeys m))) (m := m)
    as (m' & P & -> & I' & HP).
  - by intros u w _ [? _]%elem_of_outs.
  - intros v Hv. apply (Hac v). eapply tc_impl; [|exact Hv]. intros a b [Ha (Hb & _ & e & ?)%elem_of_outs]. split_and!; eauto.
  - done.
  - cbn. rewrite Nat.add_0_r, <-(length_okeys m). apply submseteq_length, NoDup_submseteq; [done|].
    intros v Hv. apply elem_of_okeys. by apply (lk_keys _ _ _ _ HL).
  - cbn [res_bind fst snd]. eexists. split; [done|].
    assert (concat (evs <$> omap (entry_of_store m') P) ≡ₚ K) as Hperm.
    { rewrite <-HP. pose proof (rc_live _ _ _ _ _ _ I') as Hl. unfold live in Hl. etrans; [|exact Hl]. f_equiv. clear.
      induction P as [|v P IH]; [done|]. cbn. destruct (entry_of_store m' v); cbn; by rewrite IH. }
    split; [done|]. apply (entries_reachable K); [done..|]. intros e [Hb (v & Hv & He)%list_elem_of_omap]%list_elem_of_filter.
    unfold entry_of_store in He. destruct (oget m' v) as [x|] eqn:Hx; [|done]. cbn in He. destruct (merged x); [done|]. injection He as <-.
    exists v. unfold has_barycenter in Hb. apply bool_decide_eq_false in Hb. cbn in Hb. rewrite <-eq_None_not_Some in Hb.
    destruct (rc_plain _ _ _ _ _ _ I' v x Hx Hb) as [-> ->]. split_and!; [done..|]. by rewrite <-HP.
Qed.
End Whole.

(** [resolveConflicts] returns when the constraints between the nodes have no cycle, and the entries it returns hold every
    node exactly once. *)
Theorem resolveConflicts_keeps_nodes cs cg :
  NoDup (cv <$> cs) → (∀ v, ¬ tc (constrained cg (cv <$> cs)) v v) →
  ∃ es, resolveConflicts cs cg = Ok es ∧ concat (evs <$> es) ≡ₚ cv <$> cs.
Proof. intros Hnd Hac. destruct (resolveConflicts_ok cs cg Hnd Hac) as (es & Hes & Hp & _). by exists es. Qed.

(** Two constraints with the same tail; the barycenters contradict both. *)
Definition fork : constraintGraph := build true false false [OpSetEdge "u" "p" None None; OpSetEdge "u" "q" None None].
Definition fork_entries : list centre :=
  [Centre "u" (Some (Some 10%Q, 2%Z)); Centre "p" (Some (Some 6%Q, 2%Z)); Centre "q" (Some (Some 7%Q, 2%Z))]%string.

Lemma fork_acyclic v : ¬ tc (constrained fork (cv <$> fork_entries)) v v.
Proof.
  assert (∀ a b, constrained fork (cv <$> fork_entries) a b → a = "u"%string ∧ b ≠ "u"%string) as Hs.
  { intros a b (_ & _ & e & He & <- & <-). revert e He. apply Forall_forall. apply (bool_decide_unpack _). vm_compute. exact I. }
  assert (∀ a b, tc (constrained fork (cv <$> fork_entries)) a b → a = "u"%string ∧ b ≠ "u"%string) as Ht.
  { induction 1 as [a b Hab|a b c' Hab _ IH]; [by apply Hs|]. destruct (Hs a b Hab). by destruct IH. }
  intros Hv. by destruct (Ht v v Hv).
Qed.

Lemma resolveConflicts_keeps_nodes_witness :
  ∃ es, resolveConflicts fork_entries fork = Ok es ∧ concat (evs <$> es) ≡ₚ ["u"; "p"; "q"]%string.
Proof.
  destruct (resolveConflicts_keeps_nodes fork_entries fork) as (es & H1 & H2).
  - apply (bool_decide_unpack _). vm_compute. exact I.
  - exact fork_acyclic.
  - exists es. split; [exact H1|exact H2].
Defined.

(** The tail of both constraints is merged with the head that is taken first and ignored for the other, so that sorting
    the entries puts [p] before [u] in spite of the constraint from [u] to [p]. *)
Lemma resolveConflicts_leaves_conflict :
  ∃ es, resolveConflicts fork_entries fork = Ok es ∧ hasEdge fork "u" "p" None = true ∧ svs (sort es false) = ["p"; "u"; "q"]%string.
Proof. eexists. split; [vm_compute; reflexivity|]. split; vm_compute; reflexivity. Qed.

(** Constraints in a cycle remove the nodes. *)
Lemma resolveConflicts_cycle_loses_nodes :
  resolveConflicts [Centre "u" None; Centre "p" None; Centre "q" None]%string
    (build true false false [OpSetEdge "u" "p" None None; OpSetEdge "p" "u" None None]) = Ok [Entry ["q"%string] 2 None].
Proof. vm_compute. reflexivity. Qed.
