(* ===== verification/DagreOrderLayer.v ===== *)
(** * dagre: the layer graphs of a graph without clusters

    For a layout graph whose nodes are ranked and have no children, [buildLayerGraph] returns a graph with a root above the
    nodes of the layer and, for every node of the layer, an edge from each neighbour in the chosen direction,
    weighted by the sum of the weights between them. *)
From Stdlib Require Import QArith_base.
Local Close Scope Q_scope.
From S2P Require Import Prelude JsObject Graphlib GraphWf GraphInv GraphQuery GraphRemove GraphView Lodash LodashSpec DagreTypes DagreBk DagreUtil DagreCross DagreOrder.

(** A ranked graph without clusters. *)
Record flat_ranked (g : layoutGraph) : Prop := {
  fr_digraph : digraph g;
  fr_leaf : ∀ v, isNode g v → leaf g v = true;
  fr_labelled : edges_labelled g;
  fr_node : ∀ v, isNode g v → v ≠ ""%string ∧ ∃ l r, node g v = Some l ∧ rank l = Some (Z.of_nat r) ∧
    minRank (more l) = None ∧ borderLeft (more l) = None
}.

Section Build.
Implicit Types (g : layoutGraph) (lg : layerGraph) (v u root : string) (r : Z) (x e : edgeObj).

Lemma same_edges_elookup {L V E} (h h' : Graph L V E) :
  same_options h h' → same_edges h h' → ∀ x, elookup h' x = elookup h x.
Proof. intros (Hd & _) [He Hl] x. unfold elookup. by rewrite Hd, He, Hl. Qed.

Lemma same_edges_digraph {L V E} (h h' : Graph L V E) :
  digraph h → wf h' → same_options h h' → same_edges h h' → digraph h'.
Proof.
  intros [_ H2 H3] Hwf Ho He. split; [done|by destruct Ho as [-> _]|].
  intros x. unfold edges. destruct He as [-> _]. apply H3.
Qed.

(** The other end of an edge, and the edges between two nodes. *)
Definition other v e : string := if decide (ev e = v) then ew e else ev e.
Definition between g rel u v : list edgeObj := filter (λ e, other v e = u) (default [] (related g rel v)).
Definition movable g r v : Prop := rank_of g v = Some r.

#[export] Instance movable_dec g r v : Decision (movable g r v).
Proof. unfold movable. apply _. Defined.

(** The edges of the layer graph when the nodes [done] have been added. *)
Definition layer_edges g r rel (done : list string) x : option (option Z) :=
  if decide (ename x = None ∧ ew x ∈ done ∧ movable g r (ew x) ∧ between g rel (ev x) (ew x) ≠ [])
  then Some (Some (zsum (weight_of g) (between g rel (ev x) (ew x)))) else None.

Record layer_inv g root r rel (done : list string) lg : Prop := {
  li_digraph : digraph lg;
  li_options : isMultigraph lg = false ∧ isCompound lg = true ∧ glabel lg = Some root ∧ defaultNodeLabelFn lg = default_lnode g;
  li_node : ∀ v, isNode lg v → v = root ∨ isNode g v;
  li_label : ∀ v l, oget (nodes_ lg) v = Some l → l = default_lnode g v;
  li_parent : ∀ v p, oget (parent_ lg) v = Some p → p = if decide (v ∈ done ∧ movable g r v) then root else GRAPH_NODE;
  li_moved : ∀ v, v ∈ done → movable g r v → oget (parent_ lg) v = Some root;
  li_edges : ∀ x, elookup lg x = layer_edges g r rel done x
}.

(** While the edges [d] of [v] are copied. *)
Record copying g root v lg0 (d : list edgeObj) lg : Prop := {
  cy_digraph : digraph lg;
  cy_options : same_options lg0 lg;
  cy_node : ∀ u, isNode lg u → isNode lg0 u ∨ isNode g u;
  cy_label : ∀ u l, oget (nodes_ lg) u = Some l → l = default_lnode g u;
  cy_parent : ∀ u p, oget (parent_ lg) u = Some p → oget (parent_ lg0) u = Some p ∨ p = GRAPH_NODE ∧ oget (parent_ lg0) u = None;
  cy_kept : ∀ u p, oget (parent_ lg0) u = Some p → oget (parent_ lg) u = Some p;
  cy_edges : ∀ x, elookup lg x =
    if decide (ename x = None ∧ ew x = v) then
      let es := filter (λ e, other v e = ev x) d in
      if decide (es = []) then None else Some (Some (zsum (weight_of g) es))
    else elookup lg0 x
}.

Lemma other_node g rel v e : wf g → isNode g v → e ∈ default [] (related g rel v) → e ∈ edges g ∧ isNode g (other v e).
Proof.
  intros Hwf Hv He. assert (e ∈ edges g) as Hin.
  { destruct rel; cbn in He; [destruct (inEdges_spec g v Hwf Hv) as (es & Hes & _ & Hin)|destruct (outEdges_spec g v Hwf Hv) as (es & Hes & _ & Hin)];
      rewrite Hes in He; by apply Hin in He as [? _]. }
  split; [done|]. destruct (edges_nodes g e Hwf Hin). unfold other. by case_decide.
Qed.

Lemma layer_edge_copying g root v lg0 d lg e :
  wf g → edges_labelled g → isCompound lg0 = true → isMultigraph lg0 = false → defaultNodeLabelFn lg0 = default_lnode g →
  e ∈ edges g → isNode g (other v e) → isNode g v → isNode lg0 v →
  copying g root v lg0 d lg → ∃ lg', layer_edge g v lg e = Ok lg' ∧ copying g root v lg0 (d ++ [e]) lg'.
Proof.
  intros Hwf Hlab Hcomp Hmul Hdef He Ho Hv Hv0 C. destruct (Hlab e He) as [l Hl]. unfold layer_edge. rewrite Hl. cbn [of_option res_bind].
  fold (other v e). set (x := EdgeObj (other v e) v None).
  assert (plain_edge x) as Hx by (split_and!; [by eapply wf_plain..|done]).
  destruct (cy_options _ _ _ _ _ _ C) as (O1 & O2 & O3 & O4 & O5 & O6).
  change (edge lg (other v e) v None) with (edgeOf lg x). rewrite (edgeOf_plain lg x (cy_digraph _ _ _ _ _ _ C) Hx).
  destruct (setEdge_view_ok lg x (Some (Some (weight l + default 0%Z (mjoin (elookup lg x)))%Z))) as (lg' & Hs & P);
    [apply C|done|by left|]. exists lg'. split; [exact Hs|].
  assert (isCompound lg = true) as Hc by congruence.
  split.
  - apply P.
  - etrans; [apply C|apply P].
  - intros u [y Hu]. rewrite (sev_nodes _ _ _ _ P) in Hu. destruct (oget (nodes_ lg) u) eqn:Hlu; [apply C; by eexists|].
    case_decide as Hux; [|done]. right. destruct Hux as [->| ->]; done.
  - intros u y. rewrite (sev_nodes _ _ _ _ P). destruct (oget (nodes_ lg) u) eqn:Hlu; [intros [= <-]; by apply C|].
    case_decide; [|done]. intros [= <-]. by rewrite O5, Hdef.
  - intros u p. rewrite (sev_parent _ _ _ _ P Hc). destruct (oget (parent_ lg) u) as [q|] eqn:Hp; [intros [= <-]; by apply C|].
    case_decide; [|done]. intros [= <-]. right. split; [done|]. destruct (oget (parent_ lg0) u) as [q|] eqn:Hq; [|done].
    by rewrite (cy_kept _ _ _ _ _ _ C u q Hq) in Hp.
  - intros u p Hp. rewrite (sev_parent _ _ _ _ P Hc). by rewrite (cy_kept _ _ _ _ _ _ C u p Hp).
  - intros y. rewrite (sev_edges _ _ _ _ P), !(cy_edges _ _ _ _ _ _ C). cbn zeta. rewrite filter_app.
    assert (weight_of g e = weight l) as Hw by (unfold weight_of; by rewrite Hl).
    destruct (decide (y = x)) as [->|Hne].
    + rewrite !(decide_True (P := ename x = None ∧ ew x = v)) by done. cbn [ev ew ename x]. rewrite filter_cons_True, (filter_nil _) by done.
      rewrite (decide_False (P := _ ++ [e] = [])) by (by destruct (filter _ d)). rewrite zsum_app. cbn. rewrite Hw. do 2 f_equal.
      destruct (decide (filter (λ e0, other v e0 = other v e) d = [])) as [->|]; cbn; lia.
    + destruct (decide (ename y = None ∧ ew y = v)) as [[Hn Hy]|]; [|done]. rewrite filter_cons_False, filter_nil, app_nil_r; [done|].
      intros Heq. apply Hne. destruct y as [a b n]. cbn in *. by subst.
Qed.

Lemma flat_parent g v : flat_ranked g → isNode g v → parent g v = None.
Proof.
  intros F Hv. unfold parent. destruct (isCompound g) eqn:Hc; [|done]. destruct (oget (parent_ g) v) as [p|] eqn:Hp; [|done].
  case_decide as Hg; [done|]. exfalso. pose proof (wf_tree _ (dg_wf _ (fr_digraph _ F)) Hc) as [T1 T2 T3 T4 T5 T6].
  destruct (T3 v p Hp) as [|Hpn]; [done|]. pose proof (fr_leaf _ F p Hpn) as Hleaf. unfold leaf, children in Hleaf. rewrite Hc in Hleaf.
  destruct (oget (children_ g) p) as [cs|] eqn:Hcs; [|done]. cbn in Hleaf. destruct (okeys cs) as [|c k] eqn:Hk; [|done].
  apply okeys_nil_iff in Hk as ->. apply (proj2 (T5 p [] Hcs)) in Hp. by destruct Hp.
Qed.

Lemma flat_in_layer g v l r : flat_ranked g → node g v = Some l → in_layer l r = bool_decide (movable g r v).
Proof.
  intros F Hl. assert (isNode g v) as Hv by (unfold node in Hl; destruct (oget (nodes_ g) v) eqn:Hn; [by eexists|done]).
  destruct (fr_node _ F v Hv) as (_ & l' & r' & Hl' & _ & Hm & _). simplify_eq. unfold in_layer. rewrite Hm. cbn.
  rewrite orb_false_r. apply bool_decide_ext. unfold movable, rank_of. by rewrite Hl.
Qed.

(** The node is added below the root. *)
Lemma layer_enter g root r rel done lg v :
  flat_ranked g → plain root → ¬ isNode g root → isNode g v → v ∉ done → (∀ u, u ∈ done → isNode g u) → layer_inv g root r rel done lg →
  ∃ lg1 lg2, setNode lg v None = Ok lg1 ∧ setParent lg1 v (Some root) = Ok lg2 ∧ same_options lg lg2 ∧ digraph lg2 ∧
    (∀ x, elookup lg2 x = elookup lg x) ∧ (∀ u, isNode lg2 u → u = root ∨ isNode g u) ∧ isNode lg2 v ∧
    (∀ u l, oget (nodes_ lg2) u = Some l → l = default_lnode g u) ∧
    (∀ u p, oget (parent_ lg2) u = Some p → p = if decide (u = v ∨ u ∈ done ∧ movable g r u) then root else GRAPH_NODE) ∧
    (∀ u, u = v ∨ u ∈ done ∧ movable g r u → oget (parent_ lg2) u = Some root).
Proof.
  intros F Hpr Hr Hv Hnew Hdone [I1 I2 I3 I4 I5 I6 I7]. destruct I2 as (Hmul & Hc & Hgl & Hdef).
  destruct (setNode_ok lg v None) as (lg1 & Hs1 & P1); [apply I1|by eapply wf_plain; [apply F|]|].
  pose proof (sn_options _ _ _ _ P1) as (O1 & O2 & O3 & O4 & O5 & O6). assert (isCompound lg1 = true) as Hc1 by congruence.
  assert (root ≠ v) as Hrv by (intros ->; done).
  assert (∀ q, oget (parent_ lg1) root = Some q → q = GRAPH_NODE) as Hroot.
  { intros q. rewrite (sn_parent _ _ _ _ P1 Hc). rewrite decide_False by naive_solver. intros Hq. apply I5 in Hq. rewrite decide_False in Hq; [done|].
    intros [Hd _]. by apply Hdone in Hd. }
  destruct (setParent_ok lg1 v root) as (lg2 & Hs2 & P2); [apply P1|done|by eapply wf_plain; [apply F|]|done| |].
  { intros Hrtc. inversion Hrtc as [|? q ? [Hq Hne]]; subst; [done|]. by apply Hroot in Hq. }
  exists lg1, lg2. split_and!; [done|done| | | | | | | |].
  - etrans; [apply P1|apply P2].
  - eapply same_edges_digraph; [|apply P2|apply P2|apply P2]. eapply same_edges_digraph; [done|apply P1..].
  - intros x. rewrite (same_edges_elookup lg1 lg2), (same_edges_elookup lg lg1); [done|apply P1|apply P1|apply P2|apply P2].
  - intros u [y Hu]. rewrite (sp_node _ _ _ _ P2), (sn_label _ _ _ _ P1) in Hu. destruct (decide (u = v)) as [->|]; [by right|].
    destruct (oget (nodes_ lg) u) eqn:Hlu; [apply I3; by eexists|]. case_decide as Hd; [|done]. destruct Hd as [?|[= ->]]; [done|by left].
  - unfold isNode. rewrite (sp_node _ _ _ _ P2), (sn_label _ _ _ _ P1). by rewrite decide_True.
  - intros u l. rewrite (sp_node _ _ _ _ P2), (sn_label _ _ _ _ P1). destruct (decide (u = v)) as [->|].
    + intros [= <-]. unfold set_label. destruct (oget (nodes_ lg) v) eqn:Hlv; [by apply I4|]. by rewrite Hdef.
    + destruct (oget (nodes_ lg) u) eqn:Hlu; [intros [= <-]; by apply I4|]. case_decide; [|done]. intros [= <-]. by rewrite O5, Hdef.
  - intros u p. rewrite (sp_parent _ _ _ _ P2). destruct (decide (u = v)) as [->|Huv].
    + intros [= <-]. rewrite decide_True by (by left). done.
    + rewrite (sn_parent _ _ _ _ P1 Hc), (decide_False (P := u = v ∧ _)) by naive_solver.
      destruct (oget (parent_ lg) u) as [q|] eqn:Hq.
      * intros [= <-]. apply I5 in Hq. rewrite Hq. destruct (decide (u ∈ done ∧ _)); [by rewrite decide_True by (by right)|].
        rewrite decide_False; [done|naive_solver].
      * case_decide as Hur; [|done]. intros [= <-]. injection Hur as ->. rewrite decide_False; [done|].
        intros [?|[Hd _]]; [done|]. by apply Hdone in Hd.
  - intros u Hu. rewrite (sp_parent _ _ _ _ P2). destruct (decide (u = v)) as [->|Huv]; [done|]. destruct Hu as [?|[Hd Hm]]; [done|].
    rewrite (sn_parent _ _ _ _ P1 Hc), (decide_False (P := u = v ∧ _)) by naive_solver. by rewrite (I6 u Hd Hm).
Qed.

Lemma layer_graph_node_ok g root r rel done lg v :
  flat_ranked g → plain root → root ≠ ""%string → ¬ isNode g root → isNode g v → v ∉ done → (∀ u, u ∈ done → isNode g u) →
  layer_inv g root r rel done lg →
  ∃ lg', layer_graph_node g root r rel lg v = Ok lg' ∧ layer_inv g root r rel (done ++ [v]) lg'.
Proof.
  intros F Hpr Hr0 Hr Hv Hnew Hdone I. destruct (fr_node _ F v Hv) as (_ & l & r' & Hl & _ & Hm & _).
  assert (wf g) as Hwf by apply F. assert (∀ (u : string), u ∈ done ++ [v] ↔ u = v ∨ u ∈ done) as Hin by set_solver.
  unfold layer_graph_node. rewrite Hl. cbn [of_option res_bind]. rewrite (flat_in_layer g v l r F Hl). case_bool_decide as Hmov.
  2:{ exists lg. split; [done|]. destruct I as [I1 I2 I3 I4 I5 I6 I7]. split; [done..| | |].
      - intros u p Hp. rewrite (I5 u p Hp). repeat case_decide; try done; naive_solver.
      - intros u [->|Hu]%Hin Hmu; [done|by apply I6].
      - intros x. rewrite I7. unfold layer_edges. repeat case_decide; try done; naive_solver. }
  rewrite (flat_parent g v F Hv). cbn [truthy default].
  destruct (layer_enter g root r rel done lg v F Hpr Hr Hv Hnew Hdone I) as (lg1 & lg2 & -> & Hs2 & Ho & Hdg & He & Hn & Hvn & Hlab & Hp & Hmv).
  cbn [res_bind]. rewrite Hs2. cbn [res_bind]. destruct (li_options _ _ _ _ _ _ I) as (Hmul & Hc & Hgl & Hdef).
  pose proof Ho as (O1 & O2 & O3 & O4 & O5 & O6).
  destruct (res_fold_inv (layer_edge g v) (copying g root v lg2) (default [] (related g rel v)) lg2) as (lg3 & -> & C).
  - split; [done|done|by left|done|by left|done|]. intros x. cbn. destruct (decide (ename x = None ∧ ew x = v)) as [[Hx1 Hx2]|]; [|done].
    rewrite He, (li_edges _ _ _ _ _ _ I). unfold layer_edges. rewrite decide_False; [done|]. rewrite Hx2. naive_solver.
  - intros d e rest lg3 Heq C. assert (e ∈ default [] (related g rel v)) as Hein by (rewrite Heq; set_solver).
    destruct (other_node g rel v e Hwf Hv Hein). apply layer_edge_copying; try done; [apply F|congruence..].
  - cbn [res_bind]. rewrite Hm. exists lg3. split; [done|]. pose proof (cy_options _ _ _ _ _ _ C) as (Q1 & Q2 & Q3 & Q4 & Q5 & Q6). split.
    + apply C.
    + split_and!; congruence.
    + intros u [Hu|Hu]%(cy_node _ _ _ _ _ _ C); [by apply Hn|by right].
    + apply C.
    + intros u p [Hu|[-> Hu]]%(cy_parent _ _ _ _ _ _ C).
      * rewrite (Hp u p Hu). repeat case_decide; try done; naive_solver.
      * rewrite decide_False; [done|]. intros [[->|?]%Hin ?]; [rewrite (Hmv v) in Hu by (by left); done|].
        rewrite (Hmv u) in Hu by (by right); done.
    + intros u [->|Hu]%Hin Hmu; apply (cy_kept _ _ _ _ _ _ C), Hmv; [by left|by right].
    + intros x. rewrite (cy_edges _ _ _ _ _ _ C), He, (li_edges _ _ _ _ _ _ I). unfold layer_edges, between. cbn zeta.
      destruct (decide (ew x = v)) as [Hx|Hx].
      * rewrite Hx. destruct (decide (ename x = None)); [rewrite decide_True by done|rewrite !decide_False by naive_solver; done].
        destruct (decide (filter _ _ = [])) as [Hnil|Hnil]; [rewrite decide_False by naive_solver; done|]. rewrite decide_True; [done|].
        split_and!; [done|by apply Hin; left|done..].
      * rewrite (decide_False (P := ename x = None ∧ ew x = v)) by naive_solver. repeat case_decide; try done; naive_solver.
Qed.

Lemma setDefaultNodeLabel_wf {L V E} (h : Graph L V E) f : wf h → wf (setDefaultNodeLabel h f).
Proof. intros [H1 H2 H3 H4 H5]. split; try done. by eapply edges_ok_ext. Qed.

Lemma buildLayerGraph_ok g r rel c :
  flat_ranked g → ∃ c' lg root, buildLayerGraph c g r rel = Ok (c', lg) ∧ (c < c')%N ∧
    ¬ isNode g root ∧ root ≠ ""%string ∧ plain root ∧ layer_inv g root r rel (nodes g) lg.
Proof.
  intros F. unfold buildLayerGraph, createRootNode. destruct (freshId_total g "_root" c) as (c' & root & -> & Hn & Hlt & Hroot). cbn [res_bind fst snd].
  assert (plain root) as Hpl by (rewrite Hroot; by apply fresh_plain). assert (root ≠ ""%string) as Hne by (rewrite Hroot; done).
  match goal with |- context [res_fold ?f ?s ?l] => destruct (res_fold_inv f (layer_inv g root r rel) l s) as (lg & -> & I) end.
  - split.
    + split; [|done|by intros x ?%elem_of_nil]. apply setDefaultNodeLabel_wf, setGraph_wf, newGraph_wf.
    + done.
    + by intros v [??].
    + done.
    + done.
    + by intros v ?%elem_of_nil.
    + intros x. unfold layer_edges. rewrite decide_False; [done|]. intros (_ & ?%elem_of_nil & _). done.
  - intros done v rest lg Heq I. assert (NoDup (nodes g)) as Hnd by apply NoDup_nodes, F. rewrite Heq in Hnd. apply NoDup_app in Hnd as (_ & Hd & _).
    apply layer_graph_node_ok; try done; [apply elem_of_nodes; rewrite Heq; set_solver|intros Hin; apply (Hd v Hin); by left|].
    intros u Hu. apply elem_of_nodes. rewrite Heq. set_solver.
  - exists c', lg, root. split_and!; try done.
Qed.

(** A layer graph of [g]. *)
Definition layer_graph g r rel lg : Prop :=
  ∃ root, ¬ isNode g root ∧ root ≠ ""%string ∧ plain root ∧ layer_inv g root r rel (nodes g) lg.

Lemma buildLayerGraphs_ok g rs rel c :
  flat_ranked g → ∃ c' lgs, buildLayerGraphs c g rs rel = Ok (c', lgs) ∧ (c ≤ c')%N ∧ Forall2 (λ r lg, layer_graph g r rel lg) rs lgs.
Proof.
  intros F. unfold buildLayerGraphs.
  match goal with |- context [res_fold ?f ?s ?l] =>
    destruct (res_fold_inv f (λ done st, (c ≤ st.1)%N ∧ Forall2 (λ r lg, layer_graph g r rel lg) done st.2) l s) as ([c' lgs] & -> & Hc & Hl) end.
  - split; [done|constructor].
  - intros done r rest [c1 lgs] _ [Hc Hl]. cbn [fst snd] in *. destruct (buildLayerGraph_ok g r rel c1 F) as (c2 & lg & root & -> & Hlt & H).
    cbn. eexists. split; [done|]. cbn. split; [lia|]. apply Forall2_app; [done|]. constructor; [|constructor]. by exists root.
  - by exists c', lgs.
Qed.

(** ** What the sweep reads *)

Definition layer_nodes lg root : list string := default [] (children lg root).

Section Read.
Context g root r rel lg (F : flat_ranked g) (Hr : ¬ isNode g root) (Hpl : plain root) (I : layer_inv g root r rel (nodes g) lg).

Lemma li_tree : tree_ok (parent_ lg) (children_ lg) (isNode lg) (isNode lg).
Proof. apply (wf_tree _ (dg_wf _ (li_digraph _ _ _ _ _ _ I))). apply I. Qed.

Lemma li_parent_iff v : oget (parent_ lg) v = Some root ↔ isNode g v ∧ movable g r v.
Proof.
  split; [|intros [Hv Hm]; apply (li_moved _ _ _ _ _ _ I); [by apply elem_of_nodes|done]].
  intros Hp. pose proof (li_parent _ _ _ _ _ _ I v root Hp) as Hd.
  destruct (decide (v ∈ nodes g ∧ movable g r v)) as [[? ?]|]; [by split; [apply elem_of_nodes|]|]. by destruct Hpl as [? _].
Qed.

Lemma li_children p : default [] (children lg p) = from_option okeys [] (oget (children_ lg) p).
Proof. unfold children. destruct (li_options _ _ _ _ _ _ I) as (_ & -> & _). by destruct (oget (children_ lg) p). Qed.

Lemma layer_nodes_spec : NoDup (layer_nodes lg root) ∧ ∀ v, v ∈ layer_nodes lg root ↔ isNode g v ∧ movable g r v.
Proof.
  destruct li_tree as [T1 T2 T3 T4 T5 T6]. unfold layer_nodes. rewrite li_children. setoid_rewrite <-li_parent_iff.
  destruct (oget (children_ lg) root) as [cs|] eqn:Hcs; cbn.
  - destruct (T5 root cs Hcs) as [Hwf Hc]. split; [by apply NoDup_okeys|]. intros v. by rewrite elem_of_okeys, Hc.
  - split; [constructor|]. intros v. split; [by intros ?%elem_of_nil|]. intros Hv. exfalso.
    apply T3 in Hv. apply T4 in Hv as [cs Hv]. congruence.
Qed.

Lemma layer_node_shared v : isNode g v → isNode lg v → node lg v = Some LShared.
Proof.
  intros Hv [x Hx]. unfold node. rewrite Hx. cbn. rewrite (li_label _ _ _ _ _ _ I v x Hx). unfold default_lnode.
  destruct (fr_node _ F v Hv) as (_ & l & _ & -> & _). done.
Qed.

Lemma layer_node_isNode v : v ∈ layer_nodes lg root → isNode lg v.
Proof. intros Hv. apply layer_nodes_spec, li_parent_iff in Hv. apply (tok_parent _ _ _ _ li_tree). by eexists. Qed.

Lemma layer_node_leaf v : v ∈ layer_nodes lg root → children lg v = Some [].
Proof.
  intros Hv. pose proof (layer_node_isNode v Hv) as Hn. destruct li_tree as [T1 T2 T3 T4 T5 T6].
  unfold children. destruct (li_options _ _ _ _ _ _ I) as (_ & -> & _).
  destruct (proj2 (T4 v)) as [cs Hcs]; [by right|]. rewrite Hcs. cbn. f_equal. apply elem_of_nil_inv. intros c Hc%elem_of_okeys.
  apply (proj2 (T5 v cs Hcs)) in Hc. apply (li_parent _ _ _ _ _ _ I) in Hc. apply layer_nodes_spec in Hv as [Hv _].
  case_decide; subst; [done|]. by apply (wf_plain _ (dg_wf _ (fr_digraph _ F))) in Hv as [? _].
Qed.

Lemma layer_node_parent v : v ∈ layer_nodes lg root → parent lg v = Some root.
Proof.
  intros Hv. apply layer_nodes_spec, li_parent_iff in Hv. unfold parent. destruct (li_options _ _ _ _ _ _ I) as (_ & -> & _). rewrite Hv.
  destruct Hpl as [? _]. by rewrite decide_False.
Qed.

Lemma layer_root : node lg root = None ∧ parent lg root = None.
Proof.
  split.
  - unfold node. destruct (oget (nodes_ lg) root) as [x|] eqn:Hx; [|done]. cbn. rewrite (li_label _ _ _ _ _ _ I root x Hx).
    unfold default_lnode, node. destruct (oget (nodes_ g) root) eqn:Hn; [|done]. exfalso. apply Hr. by eexists.
  - unfold parent. destruct (li_options _ _ _ _ _ _ I) as (_ & -> & _). destruct (oget (parent_ lg) root) as [p|] eqn:Hp; [|done].
    apply (li_parent _ _ _ _ _ _ I) in Hp. rewrite decide_False in Hp; [subst; by rewrite decide_True|]. by intros [Hn%elem_of_nodes _].
Qed.

(** The edges into a node of the layer. *)
Lemma layer_inEdges v : v ∈ layer_nodes lg root → ∃ es, inEdges lg v None = Some es ∧
  ∀ e, e ∈ es → edgeOf lg e = Some (zsum (weight_of g) (between g rel (ev e) v)) ∧ isNode g (ev e) ∧ node lg (ev e) = Some LShared ∧
    between g rel (ev e) v ≠ [].
Proof.
  intros Hv. assert (wf lg) as Hwf by apply I. destruct (inEdges_spec lg v Hwf (layer_node_isNode v Hv)) as (es & -> & _ & Hes).
  exists es. split; [done|]. intros e [He Hev]%Hes. rewrite edgeOf_elookup by done. apply elookup_Some in He as Hs; [|done].
  rewrite (li_edges _ _ _ _ _ _ I) in Hs |- *. unfold layer_edges in *. case_decide as Hc; [|by destruct Hs]. destruct Hc as (_ & _ & _ & Hb).
  rewrite Hev in Hb |- *. assert (isNode g (ev e)) as Hn; [|split_and!; try done; apply layer_node_shared; [done|by apply (edges_nodes lg e)]].
  destruct (between g rel (ev e) v) as [|x l] eqn:Hbe; [done|]. assert (x ∈ between g rel (ev e) v) as [Hx Hin]%list_elem_of_filter by (rewrite Hbe; by left).
  rewrite <-Hx. apply layer_nodes_spec in Hv as [Hv _]. by eapply (other_node g rel v x (dg_wf _ (fr_digraph _ F))).
Qed.
End Read.

(** the layer graph of a rank has, below its root, the nodes of that rank, and an edge into each of them from every
    neighbour in the given direction, weighted by the sum of the weights between the two. *)
Theorem buildLayerGraph_spec c g r rel : flat_ranked g →
  ∃ c' lg root, buildLayerGraph c g r rel = Ok (c', lg) ∧ Graphlib.graph lg = Some root ∧ ¬ isNode g root ∧
    (∀ v, v ∈ default [] (children lg root) ↔ isNode g v ∧ movable g r v) ∧
    ∀ x, elookup lg x = layer_edges g r rel (nodes g) x.
Proof.
  intros F. destruct (buildLayerGraph_ok g r rel c F) as (c' & lg & root & Hb & _ & Hr & _ & Hpl & I).
  exists c', lg, root. split_and!; [done|apply I|done|apply (layer_nodes_spec g root r rel lg Hpl I)|apply I].
Qed.
End Build.
