(* ===== verification/DagreOrderSweep.v ===== *)
(** * dagre: sweeping over the layers of a graph without clusters

    Sorting a layer permutes its nodes, so that every sweep leaves the layers with orders that count from 0. *)
From Stdlib Require Import QArith_base.
Local Close Scope Q_scope.
From S2P Require Import Prelude JsObject Graphlib GraphWf GraphInv GraphQuery GraphRemove GraphView Lodash LodashSpec DagreTypes DagreBk DagreUtil DagreCross DagreLayers DagreOrder DagreOrderResolve DagreOrderLayer.

(** ** Orders *)

Section Orders.
Implicit Types (g : layoutGraph) (v u : string) (φ : string → option Z) (vs layer : list string).

Definition set_order (o : option Z) (l : nodeLabel) : nodeLabel :=
  NodeLabel (width l) (height l) (nx l) (ny l) (rank l) o (dummy l) (nlabelpos l) (borderType l) (more l).

(** [g1] is [g] with the orders [φ]: nothing else differs. *)
Definition reordered g φ g1 : Prop := relabelled g (λ u l, set_order (φ u) l) g1.

Definition assigned vs φ u : option Z := if decide (u ∈ vs) then Some (Z.of_nat (index_in vs u)) else φ u.

Lemma reordered_refl g : wf g → ∃ φ, reordered g φ g.
Proof.
  intros Hwf. exists (λ u, l ← node g u; order l). eapply relabelled_ext; [|by apply (relabelled_refl g (λ _ l, l))].
  intros u l Hl. cbn. rewrite Hl. cbn. by destruct l.
Qed.

Lemma res_fold_imap {A St} (f : St → nat * A → res St) (h : St → A → res St) (l : list A) s :
  (∀ i x s, l !! i = Some x → f s (i, x) = h s x) → res_fold f s (imap pair l) = res_fold h s l.
Proof.
  induction l as [|x l IH] using rev_ind; intros Hf; [done|]. rewrite imap_snoc, !res_fold_app, IH.
  - destruct (res_fold h s l) as [s'|]; [|done]. cbn. rewrite (Hf (length l)); [done|]. by rewrite lookup_app_r, Nat.sub_diag.
  - intros i y s' Hi. apply Hf. by apply lookup_app_l_Some.
Qed.

Lemma assign_layer_fold g vs :
  NoDup vs → assign_layer g vs = res_fold (λ g v, updNode g v (with_order (Z.of_nat (index_in vs v)))) g vs.
Proof.
  intros Hnd. unfold assign_layer. apply res_fold_imap. intros i v g' Hi. cbn. by rewrite (index_in_lookup vs v i).
Qed.

Lemma assign_layer_ok g φ g1 vs :
  NoDup vs → (∀ v, v ∈ vs → is_Some (node g v)) → reordered g φ g1 → ∃ g2, assign_layer g1 vs = Ok g2 ∧ reordered g (assigned vs φ) g2.
Proof.
  intros Hnd Hn Hr. rewrite assign_layer_fold by done.
  destruct (updNodes_relabelled g _ g1 vs (λ v, with_order (Z.of_nat (index_in vs v))) Hn Hnd Hr) as (g2 & Hg2 & Hr2).
  exists g2. split; [exact Hg2|]. eapply relabelled_ext; [|exact Hr2]. intros u l _. cbn. unfold assigned. by case_decide.
Qed.

(** The nodes of rank [r] have the orders 0, 1, ... *)
Definition rank_ok g φ (r : Z) : Prop :=
  ∃ layer, NoDup layer ∧ (∀ v, v ∈ layer ↔ isNode g v ∧ movable g r v) ∧ ∀ i v, layer !! i = Some v → φ v = Some (Z.of_nat i).

Lemma rank_ok_assigned g φ vs r r' :
  NoDup vs → (∀ v, v ∈ vs ↔ isNode g v ∧ movable g r v) → r' = r ∨ rank_ok g φ r' → rank_ok g (assigned vs φ) r'.
Proof.
  intros Hnd Hvs Hor. destruct (decide (r' = r)) as [->|Hne].
  - exists vs. split_and!; [done..|]. intros i v Hi. unfold assigned. rewrite decide_True by (by eapply list_elem_of_lookup_2).
    by rewrite (index_in_lookup vs v i).
  - destruct Hor as [|(layer & H1 & H2 & H3)]; [done|]. exists layer. split_and!; [done..|]. intros i v Hi. unfold assigned.
    rewrite decide_False; [by apply H3|]. intros [_ Hv]%Hvs. apply list_elem_of_lookup_2, H2 in Hi as [_ Hv']. unfold movable in *. congruence.
Qed.

(** ** Graphs whose orders describe layers *)

Definition ordered g g1 : Prop := ∃ φ, reordered g φ g1 ∧ ∀ r, rank_ok g φ r.

Lemma reordered_node g φ g1 v : reordered g φ g1 → node g1 v = set_order (φ v) <$> node g v.
Proof. intros Hr. exact (relabelled_node _ _ _ v Hr). Qed.

Lemma ordered_located g φ g1 v r o : flat_ranked g → reordered g φ g1 →
  located g1 v r o ↔ isNode g v ∧ movable g (Z.of_nat r) v ∧ φ v = Some (Z.of_nat o).
Proof.
  intros F Hr. unfold located. rewrite (reordered_node _ _ _ v Hr). unfold movable, rank_of. split.
  - intros (l & (l0 & Hl & ->)%fmap_Some & Hrk & Ho). rewrite Hl. cbn in *. split_and!; [|done..].
    unfold node in Hl. destruct (oget (nodes_ g) v) eqn:Hn; [by eexists|done].
  - intros (Hv & Hm & Ho). destruct (fr_node _ F v Hv) as (_ & l & r' & Hl & _). rewrite Hl in *. cbn in *. eexists. split_and!; [done..|]. done.
Qed.

Lemma ordered_layered g g1 : flat_ranked g → ordered g g1 → layered g1.
Proof.
  intros F (φ & Hr & Hok).
  pose proof (λ v r o, ordered_located g φ g1 v r o F Hr) as Hloc.
  split.
  - apply Hr.
  - intros v Hv. apply (relabelled_isNode _ _ _ v Hr) in Hv. destruct (fr_node _ F v Hv) as (Hne & l & r & Hl & Hrk & _). split; [done|].
    destruct (Hok (Z.of_nat r)) as (layer & H1 & H2 & H3). assert (v ∈ layer) as [o Ho]%list_elem_of_lookup.
    { apply H2. split; [done|]. unfold movable, rank_of. by rewrite Hl. }
    exists r, o. apply Hloc. split_and!; [done| |by apply H3]. unfold movable, rank_of. by rewrite Hl.
  - intros u v r o (Hu & Hum & Huo)%Hloc (Hv & Hvm & Hvo)%Hloc. destruct (Hok (Z.of_nat r)) as (layer & H1 & H2 & H3).
    assert (u ∈ layer) as [i Hi]%list_elem_of_lookup by (by apply H2). assert (v ∈ layer) as [j Hj]%list_elem_of_lookup by (by apply H2).
    apply H3 in Hi as Hi'. apply H3 in Hj as Hj'. assert (i = j) as -> by (rewrite Hi' in Huo; rewrite Hj' in Hvo; simplify_eq; lia). congruence.
  - intros v r o (Hv & Hm & Ho)%Hloc. destruct (Hok (Z.of_nat r)) as (layer & H1 & H2 & H3).
    assert (v ∈ layer) as [i Hi]%list_elem_of_lookup by (by apply H2). apply H3 in Hi as Hi'. assert (i = S o) as -> by (rewrite Hi' in Ho; simplify_eq; lia).
    destruct (lookup_lt_is_Some_2 layer o) as [u Hu]; [apply lookup_lt_Some in Hi; lia|]. exists u.
    assert (isNode g u ∧ movable g (Z.of_nat r) u) as [Hun Hum] by (apply H2; by eapply list_elem_of_lookup_2).
    apply Hloc. split_and!; [done..|]. by apply H3.
Qed.
End Orders.

(** ** One layer *)

Section Layer.
Implicit Types (g : layoutGraph) (lg : layerGraph) (v u root : string) (φ : string → option Z) (cg : constraintGraph).
Context g root r rel lg (F : flat_ranked g) (Hr : ¬ isNode g root) (Hr0 : root ≠ ""%string) (Hpl : plain root) (I : layer_inv g root r rel (nodes g) lg).
Context φ g1 (Hg1 : reordered g φ g1).

Lemma shared_order u : isNode g u → node lg u = Some LShared → lorder_of g1 lg u = Ok (φ u).
Proof.
  intros Hu Hs. unfold lorder_of. rewrite Hs. cbn. destruct (fr_node _ F u Hu) as (_ & l & _ & Hl & _).
  rewrite (reordered_node _ _ _ u Hg1), Hl. done.
Qed.

Lemma barycenter_node_ok v : v ∈ layer_nodes lg root → ∃ b, barycenter_node g1 lg v = Ok (Centre v b).
Proof.
  intros Hv. unfold barycenter_node. destruct (layer_inEdges g root r rel lg F Hpl I v Hv) as (es & -> & Hes). cbn [of_option res_bind].
  destruct es as [|e es]; [by exists None|]. generalize (e :: es) Hes. clear e es Hes. intros es Hes.
  match goal with |- context [res_fold ?f ?s ?l] => destruct (res_fold_total f s l) as [[sm w] ->] end; [|by eexists].
  intros acc e He. destruct (Hes e He) as (-> & Hn & Hs & _). cbn. rewrite shared_order by done. by eexists.
Qed.

Lemma barycenter_ok : ∃ cs, barycenter g1 lg (layer_nodes lg root) = Ok cs ∧ cv <$> cs = layer_nodes lg root.
Proof.
  unfold barycenter. match goal with |- context [res_fold ?f ?s ?l] => apply (res_fold_inv f (λ done cs, cv <$> cs = done) l s) end; [done|].
  intros done v rest cs Heq Hcs. destruct (barycenter_node_ok v) as [b ->]; [rewrite Heq; set_solver|]. cbn. eexists. split; [done|]. by rewrite fmap_app, Hcs.
Qed.

Lemma expand_nothing es : expandSubgraphs es [] = es.
Proof.
  unfold expandSubgraphs. rewrite <-(list_fmap_id es) at 2. apply list_fmap_ext. intros i [vs k b] _. cbn. f_equal. unfold flatten. rewrite flatten_concat. cbn.
  induction vs as [|v vs IH]; [done|]. cbn. by rewrite IH.
Qed.

Lemma sortSubgraph_ok fuel cg bias :
  edges cg = [] → ∃ s, sortSubgraph (S fuel) g1 lg root cg bias = Ok s ∧ svs s ≡ₚ layer_nodes lg root.
Proof.
  intros Hcg. cbn [sortSubgraph]. unfold borders_of. destruct (layer_root g root r rel lg Hr I) as [-> _]. cbn [res_bind fst snd truthy].
  fold (layer_nodes lg root). destruct barycenter_ok as (cs & -> & Hcs). cbn [res_bind]. destruct (layer_nodes_spec g root r rel lg Hpl I) as [Hnd _].
  match goal with |- context [res_fold ?f ?s ?l] => destruct (res_fold_inv f (λ done st, st = (done, [])) l s) as (st & -> & ->) end; [done| |].
  - intros done c rest st Heq ->. assert (cv c ∈ layer_nodes lg root) as Hc by (rewrite <-Hcs, Heq; apply list_elem_of_fmap_2; set_solver).
    rewrite (layer_node_leaf g root r rel lg F Hr Hpl I (cv c) Hc). cbn. by eexists.
  - cbn [res_bind fst snd]. destruct (resolveConflicts_ok cs cg) as (es & -> & Hp & Hreach); [by rewrite Hcs| |].
    + intros v Hv. assert (∀ a b, ¬ constrained cg (cv <$> cs) a b) as Hno.
      { intros a b (_ & _ & e & He & _). rewrite Hcg in He. by apply elem_of_nil in He. }
      destruct Hv as [? ? Hc|? ? ? Hc _]; by apply Hno in Hc.
    + cbn [res_bind]. rewrite expand_nothing. eexists. split; [done|]. by rewrite sort_perm, Hp, Hcs.
Qed.

Lemma set_lorders_ok vs : (∀ v, v ∈ vs → v ∈ layer_nodes lg root) →
  res_fold set_lorder (g1, lg) (imap pair vs) = (g2 <-- assign_layer g1 vs ;; Ok (g2, lg)).
Proof.
  intros Hvs. unfold assign_layer.
  assert (∀ l g', (∀ iv, iv ∈ l → iv.2 ∈ vs) → res_fold set_lorder (g', lg) l =
    (g2 <-- res_fold (λ g (iv : nat * string), updNode g iv.2 (with_order (Z.of_nat iv.1))) g' l ;; Ok (g2, lg))) as Hg.
  { induction l as [|[i v] l IH]; intros g' Hl; [done|]. cbn [res_fold]. unfold set_lorder at 1.
    assert (v ∈ layer_nodes lg root) as Hv by (apply Hvs, (Hl (i, v)); by left). pose proof (proj1 (proj2 (layer_nodes_spec g root r rel lg Hpl I) v) Hv) as [Hvg _].
    rewrite (layer_node_shared g root r rel lg F I v Hvg) by (by eapply layer_node_isNode). cbn [of_option res_bind fst snd].
    destruct (updNode g' v _) as [g2|]; [|done]. cbn [res_bind]. apply IH. intros iv ?. apply Hl. by right. }
  apply Hg. intros [i v] (j & x & Heq & Hj)%elem_of_lookup_imap_1. injection Heq as -> ->. by eapply list_elem_of_lookup_2.
Qed.

Lemma addSubgraphConstraints_ok cg vs : (∀ v, v ∈ vs → v ∈ layer_nodes lg root) → addSubgraphConstraints lg cg vs = Ok cg.
Proof.
  intros Hvs. unfold addSubgraphConstraints.
  match goal with |- context [res_fold ?f ?s ?l] =>
    destruct (res_fold_inv f (λ _ st, cgraph st = cg ∧ (rootPrev st = None ∨ rootPrev st = Some root)) l s) as (st & -> & <- & _) end; [by auto| |done].
  intros done v rest st Heq [Hcg Hrp]. rewrite (layer_node_parent g root r rel lg Hpl I v) by (apply Hvs; rewrite Heq; set_solver).
  cbn [constrain_up]. rewrite decide_False by done. destruct (layer_root g root r rel lg Hr I) as [_ ->]. cbn [truthy].
  assert (truthy (rootPrev st) && negb (bool_decide (rootPrev st = Some root)) = false) as ->.
  { destruct Hrp as [-> | ->]; [done|]. rewrite bool_decide_true by done. apply andb_false_r. }
  destruct (length (nodes lg)); cbn; eexists; (split; [done|]); cbn; auto.
Qed.

Lemma sweep_layer_ok bias cg lgs :
  edges cg = [] → ∃ vs g2, sweep_layer bias (SweepState g1 cg lgs) lg = Ok (SweepState g2 cg (lgs ++ [lg])) ∧
    vs ≡ₚ layer_nodes lg root ∧ reordered g (assigned vs φ) g2.
Proof.
  intros Hcg. unfold sweep_layer. unfold Graphlib.graph. destruct (li_options _ _ _ _ _ _ I) as (_ & _ & -> & _). cbn [of_option res_bind sw_graph sw_cg sw_done].
  destruct (sortSubgraph_ok (length (nodes lg)) cg bias Hcg) as (s & -> & Hp). cbn [res_bind].
  assert (∀ v, v ∈ svs s → v ∈ layer_nodes lg root) as Hvs by (intros v; by rewrite Hp).
  rewrite set_lorders_ok by done. destruct (layer_nodes_spec g root r rel lg Hpl I) as [Hnd Hel].
  destruct (assign_layer_ok g φ g1 (svs s)) as (g2 & -> & Hr2); [by rewrite Hp| |done|].
  { intros v Hv. apply Hvs, Hel in Hv as [Hv _]. destruct (fr_node _ F v Hv) as (_ & l & _ & -> & _). by eexists. }
  cbn [res_bind fst snd]. rewrite addSubgraphConstraints_ok by done. cbn. by exists (svs s), g2.
Qed.
End Layer.

(** ** A sweep *)

Section Sweep.
Implicit Types (g : layoutGraph) (lg : layerGraph).

Lemma sweepLayerGraphs_ok g rel rs lgs g1 bias :
  flat_ranked g → Forall2 (λ r lg, layer_graph g r rel lg) rs lgs → ordered g g1 →
  ∃ g2, sweepLayerGraphs g1 lgs bias = Ok (g2, lgs) ∧ ordered g g2.
Proof.
  intros F Hlgs Hg1. unfold sweepLayerGraphs. set (cg := newGraph true false false).
  destruct (res_fold_inv (sweep_layer bias) (λ done st, ∃ g2, st = SweepState g2 cg done ∧ ordered g g2) lgs (SweepState g1 cg [])) as (st & -> & g2 & -> & Ho).
  - by exists g1.
  - intros done lg rest st Heq (g2 & -> & φ & Hr & Hok). assert (lg ∈ lgs) as [i Hi]%list_elem_of_lookup by (rewrite Heq; set_solver).
    destruct (Forall2_lookup_r _ _ _ _ _ Hlgs Hi) as (r & _ & root & Hroot & Hne & Hpl & I).
    destruct (sweep_layer_ok g root r rel lg F Hroot Hne Hpl I φ g2 Hr bias cg done eq_refl) as (vs & g3 & -> & Hp & Hr3).
    eexists. split; [done|]. exists g3. split; [done|]. exists (assigned vs φ). split; [done|]. intros r'.
    destruct (layer_nodes_spec g root r rel lg Hpl I) as [Hnd Hel]. apply (rank_ok_assigned g φ vs r); [by rewrite Hp|intros v; by rewrite Hp|by right].
  - by exists g2.
Qed.
End Sweep.

(** * dagre: the initial order

    The traversal of [initOrder] is the preorder traversal along successors, its layers are the visited nodes of each
    rank, so that [initOrder] lists every node once, in the layer of its rank. *)
From Stdlib Require Import QArith_base.
Local Close Scope Q_scope.
From S2P Require Import Prelude JsObject Graphlib GraphWf GraphInv GraphQuery GraphRemove GraphView GraphAlg GraphDfs Lodash LodashSpec DagreTypes DagreBk DagreUtil DagreCross DagreLayers DagreOrder DagreOrderResolve DagreOrderLayer.

Section Init.
Implicit Types (g : layoutGraph) (v u : string) (layering : list (list string)).

(** A layering with the nodes of each rank in their layer. *)
Record layers_exact g layering : Prop := {
  le_layer : ∀ r layer, layering !! r = Some layer → NoDup layer ∧ ∀ v, v ∈ layer ↔ isNode g v ∧ movable g (Z.of_nat r) v;
  le_all : ∀ v r, isNode g v → movable g (Z.of_nat r) v → r < length layering
}.

(** ** The traversal *)

Definition layers_of g (n : nat) (acc : list string) : list (list string) :=
  (λ r, filter (λ v, rank_of g v = Some (Z.of_nat r)) acc) <$> seq 0 n.

Lemma layers_of_lookup g n acc r : layers_of g n acc !! r = if decide (r < n) then Some (filter (λ v, rank_of g v = Some (Z.of_nat r)) acc) else None.
Proof.
  unfold layers_of. rewrite list_lookup_fmap. case_decide; [by rewrite lookup_seq_lt|]. by rewrite lookup_seq_ge by lia.
Qed.

Lemma push_layers_of g n acc v r :
  rank_of g v = Some (Z.of_nat r) → r < n → push_layer (layers_of g n acc) (Some (Z.of_nat r)) v = Ok (layers_of g n (acc ++ [v])).
Proof.
  intros Hr Hn. unfold push_layer. cbn [of_option res_bind]. rewrite decide_True, Nat2Z.id, layers_of_lookup, decide_True by lia. cbn. f_equal.
  apply list_eq. intros i. rewrite layers_of_lookup. destruct (decide (i = r)) as [->|Hne].
  - rewrite list_lookup_insert_eq by (unfold layers_of; rewrite length_fmap, length_seq; done). rewrite decide_True, filter_app, filter_cons_True by done. done.
  - rewrite list_lookup_insert_ne, layers_of_lookup by done. case_decide; [|done]. rewrite filter_app, filter_cons_False, app_nil_r; [done|].
    rewrite Hr. intros [= ?]. lia.
Qed.

Definition succs g v : list string := default [] (successors g v).

Lemma init_dfs_doDfs g n fuel st v :
  flat_ranked g → (∀ u r, isNode g u → movable g (Z.of_nat r) u → r < n) → isNode g v →
  init_dfs fuel g (dvisited st, layers_of g n (acc st)) v =
    (st' <-- doDfs fuel (succs g) false st v ;; Ok (dvisited st', layers_of g n (acc st'))).
Proof.
  intros F Hn. revert st v. induction fuel as [|fuel IH]; intros st v Hv; [done|]. cbn [init_dfs doDfs fst snd].
  destruct (ohas (dvisited st) v); [done|]. destruct (fr_node _ F v Hv) as (_ & l & r & Hl & Hrk & _). rewrite Hl. cbn [of_option res_bind].
  assert (rank_of g v = Some (Z.of_nat r)) as Hro by (unfold rank_of; by rewrite Hl). rewrite Hrk, push_layers_of by (done || by eapply Hn).
  cbn [res_bind]. set (st1 := DfsState (oset (dvisited st) v true) (acc st ++ [v])).
  change (oset (dvisited st) v true, layers_of g n (acc st ++ [v])) with (dvisited st1, layers_of g n (acc st1)).
  assert (∀ u, u ∈ succs g v → isNode g u) as Hsucc.
  { intros u Hu. unfold succs in Hu. apply elem_of_succs in Hu; [|apply F|done]. by eapply arrow_nodes; [apply F|]. }
  fold (succs g v). clearbody st1. revert st1. induction (succs g v) as [|u us IHu]; intros st1.
  - cbn. by destruct st1.
  - cbn [res_fold]. rewrite IH by (apply Hsucc; by left). destruct (doDfs fuel (succs g) false st1 u) as [st2|]; [|done]. cbn [res_bind].
    apply IHu. intros w Hw. apply Hsucc. by right.
Qed.

Lemma init_fold_doDfs g n fuel vs st :
  flat_ranked g → (∀ u r, isNode g u → movable g (Z.of_nat r) u → r < n) → (∀ v, v ∈ vs → isNode g v) →
  res_fold (init_dfs fuel g) (dvisited st, layers_of g n (acc st)) vs =
    (st' <-- res_fold (doDfs fuel (succs g) false) st vs ;; Ok (dvisited st', layers_of g n (acc st'))).
Proof.
  intros F Hn. revert st. induction vs as [|v vs IH]; intros st Hvs; [done|]. cbn [res_fold]. rewrite (init_dfs_doDfs g n) by (done || apply Hvs; by left).
  destruct (doDfs fuel (succs g) false st v) as [st2|]; [|done]. cbn [res_bind]. apply IH. intros u Hu. apply Hvs. by right.
Qed.

Lemma simple_nodes_flat g : flat_ranked g → simple_nodes g = Ok (nodes g).
Proof.
  intros F. unfold simple_nodes. match goal with |- context [res_fold ?f ?s ?l] => destruct (res_fold_inv f (λ done vs, vs = done) l s) as (vs & -> & ->) end; [done| |done].
  intros done v rest vs Heq ->. assert (isNode g v) as Hv by (apply elem_of_nodes; rewrite Heq; set_solver).
  pose proof (fr_leaf _ F v Hv) as Hleaf. unfold leaf in Hleaf. destruct (children g v) as [[|]|]; [|done..]. cbn. eauto.
Qed.

Lemma flat_rank g v : flat_ranked g → isNode g v → ∃ r, rank_of g v = Some (Z.of_nat r).
Proof. intros F Hv. destruct (fr_node _ F v Hv) as (_ & l & r & Hl & Hr & _). exists r. unfold rank_of. by rewrite Hl. Qed.

(** The rows of the matrix cover the ranks. *)
Lemma rows_cover g : flat_ranked g → ∃ n,
  Coll.map (match Lodash.max (rank_of g <$> nodes g) with Some m => range (m + 1) None None | None => [] end) (λ _ _, [] : list string) = layers_of g n [] ∧
  ∀ u r, isNode g u → movable g (Z.of_nat r) u → r < n.
Proof.
  intros F. set (rows := match Lodash.max _ with Some _ => _ | None => _ end). exists (length rows). split.
  - rewrite empty_rows. unfold layers_of. clear. generalize 0. induction rows as [|z rows IH]; intros k; [done|]. cbn. by rewrite <-IH.
  - intros u r Hu Hm. pose proof (max_spec (rank_of g <$> nodes g)) as Hmax.
    assert (Some (Z.of_nat r) ∈ rank_of g <$> nodes g) as Hin by (rewrite <-Hm; apply list_elem_of_fmap_2; by apply elem_of_nodes).
    unfold rows. destruct (Lodash.max _) as [m|]; [|by apply Hmax in Hin]. destruct Hmax as [(v & Hv & Hvn)%list_elem_of_fmap Hle]. specialize (Hle _ Hin).
    apply elem_of_nodes in Hvn. destruct (flat_rank g v F Hvn) as [rv Hrv]. rewrite Hrv in Hv. rewrite range_rows; [lia|]. simplify_eq. lia.
Qed.

Lemma initOrder_ok g : flat_ranked g → ∃ layering, initOrder g = Ok layering ∧ layers_exact g layering.
Proof.
  intros F. unfold initOrder. rewrite simple_nodes_flat by done. cbn [res_bind]. destruct (rows_cover g F) as (n & -> & Hn).
  assert (∀ v, v ∈ sortBy (nodes g) (by_rank g) ↔ isNode g v) as Hvs by (intros v; by rewrite sortBy_perm, elem_of_nodes).
  change ([], layers_of g n []) with (dvisited (DfsState [] []), layers_of g n (acc (DfsState [] []))).
  rewrite init_fold_doDfs by (done || intros v; apply Hvs).
  assert (∀ a b, a ∈ nodes g → b ∈ succs g a → b ∈ nodes g) as Hdom.
  { intros a b Ha%elem_of_nodes Hb. apply elem_of_succs in Hb; [|apply F|done]. apply elem_of_nodes. by eapply arrow_nodes; [apply F|]. }
  destruct (dfs_list (succs g) (nodes g) false Hdom (S (length (nodes g))) (DfsState [] []) (sortBy (nodes g) (by_rank g))) as (st & -> & D).
  - split; [apply owf_nil|]. by intros v [??].
  - intros st1 v Hv Hok _. apply doDfs_spec; [done|done|by apply elem_of_nodes, Hvs|lia].
  - cbn [res_bind]. eexists. split; [done|]. cbn [snd].
    assert (∀ v, isNode g v → v ∈ acc st) as Hacc.
    { intros v Hv. destruct (ds_acc _ _ _ _ _ D) as (new & Hnew & _ & Hel). cbn in Hnew. rewrite Hnew. apply Hel. split; [by apply (ds_roots _ _ _ _ _ D), Hvs|].
      by intros [??]. }
    assert (NoDup (acc st)) as Hnd by (by eapply dfs_exact). split.
    + intros r layer. rewrite layers_of_lookup. case_decide; [|done]. intros [= <-]. split; [by apply NoDup_filter|]. intros v.
      rewrite list_elem_of_filter. split; [|intros [??]; split; [done|by apply Hacc]]. intros [Hm Hv]. split; [|done].
      unfold rank_of, node in Hm. destruct (oget (nodes_ g) v) eqn:Hvn; [by eexists|done].
    + intros v r Hv Hm. unfold layers_of. rewrite length_fmap, length_seq. by eapply Hn.
Qed.

(** ** Assigning a layering *)

Lemma assignOrder_ok g φ g1 layering :
  flat_ranked g → reordered g φ g1 → layers_exact g layering →
  ∃ φ' g2, assignOrder g1 layering = Ok g2 ∧ reordered g φ' g2 ∧ (∀ r, rank_ok g φ' r) ∧
    ∀ r layer i v, layering !! r = Some layer → layer !! i = Some v → φ' v = Some (Z.of_nat i).
Proof.
  intros F Hr [L1 L2]. unfold assignOrder.
  destruct (res_fold_inv assign_layer (λ done g2, ∃ φ', reordered g φ' g2 ∧
    ∀ r layer i v, done !! r = Some layer → layer !! i = Some v → φ' v = Some (Z.of_nat i)) layering g1) as (g2 & -> & φ' & Hr' & Hφ).
  - by exists φ.
  - intros done layer rest g2 Heq (φ' & Hr' & Hφ). destruct (L1 (length done) layer) as [Hnd Hel]; [by rewrite Heq, lookup_app_r, Nat.sub_diag|].
    destruct (assign_layer_ok g φ' g2 layer Hnd) as (g3 & -> & Hr3); [|done|].
    { intros v [Hv _]%Hel. destruct (fr_node _ F v Hv) as (_ & l & _ & -> & _). by eexists. }
    eexists. split; [done|]. exists (assigned layer φ'). split; [done|]. intros r layer' i v Hlr Hi. unfold assigned.
    apply lookup_app_Some in Hlr as [Hlr|[Hle Hlr]].
    + rewrite decide_False; [by eapply Hφ|]. intros [_ Hv]%Hel. destruct (L1 r layer') as [_ Hel']; [rewrite Heq; by apply lookup_app_l_Some|].
      apply list_elem_of_lookup_2, Hel' in Hi as [_ Hv']. unfold movable in *. apply lookup_lt_Some in Hlr. rewrite Hv in Hv'. simplify_eq. lia.
    + apply list_lookup_singleton_Some in Hlr as [_ <-]. rewrite decide_True by (by eapply list_elem_of_lookup_2). by rewrite (index_in_lookup layer v i).
  - exists φ', g2. split_and!; [done|done| |done]. intros r.
    destruct (decide (0 ≤ r < Z.of_nat (length layering))%Z) as [Hk|Hno].
    + destruct (lookup_lt_is_Some_2 layering (Z.to_nat r)) as [layer Hlayer]; [lia|]. destruct (L1 _ layer Hlayer) as [? Hel]. rewrite Z2Nat.id in Hel by lia.
      exists layer. split_and!; [done..|]. by intros; eapply Hφ.
    + exists []. split_and!; [constructor| |done]. intros v. split; [by intros ?%elem_of_nil|]. intros [Hv Hm]. exfalso.
      destruct (flat_rank g v F Hv) as [k Hk]. unfold movable in Hm. rewrite Hk in Hm. simplify_eq. apply Hno. specialize (L2 v k Hv Hk). lia.
Qed.
End Init.
