(* ===== verification/DagreOrderClaims.v ===== *)
(** * dagre: the order pass on graphs without clusters

    [Pass.order] returns: the number of crossings decreases at each turn that resets the counter.  The graph it returns has
    every rank ordered 0, 1, ..., and the fewest crossings among the sweeps that were made. *)
From Stdlib Require Import QArith_base.
Local Close Scope Q_scope.
From S2P Require Import Prelude JsObject Graphlib GraphWf GraphInv GraphQuery GraphView Lodash LodashSpec DagreTypes DagreBk DagreUtil DagreCross DagreLayers DagreOrder DagreOrderResolve DagreOrderLayer DagreOrderSweep.

(** ** Bounds on the number of crossings *)

Section Bounds.
Implicit Types (g : layoutGraph) (layering : list (list string)).

Definition nonneg_weights g : Prop := ∀ x l, x ∈ edges g → edgeOf g x = Some l → (0 ≤ weight l)%Z.

(** The weight of the edges out of some nodes. *)
Definition out_weight g (vs : list string) : Z := zsum (λ v, zsum (weight_of g) (out_of g v)) vs.

Lemma zsum_nonneg {A} (f : A → Z) l : (∀ x, x ∈ l → (0 ≤ f x)%Z) → (0 ≤ zsum f l)%Z.
Proof.
  induction l as [|x l IH]; intros Hf; cbn; [lia|]. specialize (Hf x) as Hx. assert (0 ≤ zsum f l)%Z by (apply IH; intros; apply Hf; by right).
  assert (0 ≤ f x)%Z by (apply Hf; by left). unfold zsum in *. lia.
Qed.

Lemma zsum_le {A} (f h : A → Z) l : (∀ x, x ∈ l → (f x ≤ h x)%Z) → (zsum f l ≤ zsum h l)%Z.
Proof.
  induction l as [|x l IH]; intros Hf; cbn; [lia|]. assert (zsum f l ≤ zsum h l)%Z by (apply IH; intros; apply Hf; by right).
  assert (f x ≤ h x)%Z by (apply Hf; by left). unfold zsum in *. lia.
Qed.

Lemma zsum_perm {A} (f : A → Z) l l' : l ≡ₚ l' → zsum f l = zsum f l'.
Proof. induction 1; cbn; unfold zsum in *; cbn in *; lia. Qed.

Lemma zsum_concat {A B} (f : B → Z) (h : A → list B) l : zsum f (concat (h <$> l)) = zsum (λ x, zsum f (h x)) l.
Proof. induction l as [|x l IH]; [done|]. rewrite fmap_cons. cbn [concat]. by rewrite zsum_app, IH. Qed.

Context g (Hwf : wf g) (Hw : nonneg_weights g).

Lemma weight_of_nonneg v e : e ∈ out_of g v → (0 ≤ weight_of g e)%Z.
Proof.
  intros He. unfold weight_of. destruct (edgeOf g e) as [l|] eqn:Hl; [|done]. apply (Hw e l); [|done]. by eapply out_of_edges.
Qed.

Lemma out_weight_nonneg vs : (0 ≤ out_weight g vs)%Z.
Proof. apply zsum_nonneg. intros v _. apply zsum_nonneg. intros e. apply weight_of_nonneg. Qed.

Lemma edge_cross_bound south v u e f : e ∈ out_of g v → f ∈ out_of g u → (0 ≤ edge_cross g south e f ≤ weight_of g e * weight_of g f)%Z.
Proof.
  intros He%weight_of_nonneg Hf%weight_of_nonneg. unfold edge_cross. repeat case_match; nia.
Qed.

Lemma naive_count_bound south north : (0 ≤ naive_count g south north ≤ out_weight g north * out_weight g north)%Z.
Proof.
  induction north as [|v rest IH]; [done|]. cbn [naive_count].
  set (x := zsum _ (out_of g v)). assert (0 ≤ x ≤ zsum (weight_of g) (out_of g v) * out_weight g rest)%Z as Hx.
  { assert (∀ e f, e ∈ out_of g v → f ∈ concat (out_of g <$> rest) → (0 ≤ edge_cross g south e f ≤ weight_of g e * weight_of g f)%Z) as Hb.
    { intros e f He (es & Hf & (u & -> & _)%list_elem_of_fmap)%elem_of_concat. by eapply edge_cross_bound. }
    split; [apply zsum_nonneg; intros e He; apply zsum_nonneg; intros f Hf; by apply Hb|].
    unfold x. etrans; [apply zsum_le; intros e He; apply zsum_le; intros f Hf; by apply (Hb e f)|].
    unfold out_weight. rewrite <-zsum_concat. rewrite Z.mul_comm, <-zsum_mul. apply zsum_le. intros e He. rewrite zsum_mul. lia. }
  pose proof (out_weight_nonneg rest). assert (0 ≤ zsum (weight_of g) (out_of g v))%Z by (apply zsum_nonneg; intros e; apply weight_of_nonneg).
  change (out_weight g (v :: rest)) with (zsum (weight_of g) (out_of g v) + out_weight g rest)%Z. nia.
Qed.

Lemma naive_layers_bound layering : (0 ≤ naive_layers g layering ≤ out_weight g (concat layering) * out_weight g (concat layering))%Z.
Proof.
  induction layering as [|north [|south rest] IH]; [done|cbn; pose proof (out_weight_nonneg (north ++ [])); nia|].
  change (naive_layers g (north :: south :: rest)) with (naive_count g south north + naive_layers g (south :: rest))%Z.
  change (concat (north :: south :: rest)) with (north ++ concat (south :: rest)).
  assert (∀ l l', out_weight g (l ++ l') = out_weight g l + out_weight g l')%Z as Happ by (intros; apply zsum_app). rewrite Happ.
  pose proof (naive_count_bound south north). pose proof (out_weight_nonneg north). pose proof (out_weight_nonneg (concat (south :: rest))). nia.
Qed.
End Bounds.

(** ** The layering of an ordered graph *)

Section Layering.
Implicit Types (g : layoutGraph) (layering : list (list string)).

(** No empty layer at the end. *)
Definition tight g layering : Prop := ∀ r, r < length layering → ∃ v r' o, located g v r' o ∧ r ≤ r'.

Lemma layering_unique g l1 l2 : layering_of g l1 → layering_of g l2 → tight g l1 → tight g l2 → l1 = l2.
Proof.
  assert (∀ l l', layering_of g l → layering_of g l' → tight g l → length l ≤ length l') as Hlen.
  { intros l l' H H' Ht. destruct (decide (length l = 0)) as [|Hn]; [lia|]. destruct (Ht (pred (length l))) as (v & r' & o & Hat & Hle); [lia|].
    apply H' in Hat as (layer & Hl & _). apply lookup_lt_Some in Hl. lia. }
  intros H1 H2 T1 T2. apply list_eq_same_length with (length l2); [done|pose proof (Hlen l1 l2); pose proof (Hlen l2 l1); naive_solver lia|].
  intros r a b _ Ha Hb. apply list_eq. intros o. apply option_eq. intros v. split; intros Hv.
  - assert (located g v r o) as (b' & Hb' & ?)%H2 by (apply H1; eauto). congruence.
  - assert (located g v r o) as (a' & Ha' & ?)%H1 by (apply H2; eauto). congruence.
Qed.

Lemma filled_full m layering : full_layers m = Ok layering → filled_layers m = layering.
Proof.
  unfold full_layers. destruct (mapM (mapM id) m) as [l|] eqn:Hm; [|done]. intros [= ->]. apply mapM_Some in Hm. unfold filled_layers.
  induction Hm as [|row layer m layers Hrow Hm IH]; [done|]. cbn. rewrite IH. f_equal. apply mapM_Some in Hrow. clear -Hrow.
  induction Hrow as [|x v row layer Hx _ IH]; [done|]. unfold id in Hx. subst x. cbn. by rewrite IH.
Qed.

Lemma layering_exact g g1 layering : flat_ranked g → ordered g g1 → layering_of g1 layering → layers_exact g layering.
Proof.
  intros F (φ & Hr & Hok) Hl. pose proof (λ v r o, ordered_located g φ g1 v r o F Hr) as Hloc.
  assert (∀ v r, isNode g v → movable g (Z.of_nat r) v → ∃ o, located g1 v r o) as Hex.
  { intros v r Hv Hm. destruct (Hok (Z.of_nat r)) as (layer & _ & H2 & H3). assert (v ∈ layer) as [o Ho]%list_elem_of_lookup by (by apply H2).
    exists o. apply Hloc. split_and!; [done..|]. by apply H3. }
  split.
  - intros r layer Hlr. split.
    + apply NoDup_alt. intros i j v Hi Hj. assert (located g1 v r i) as Hli by (apply Hl; eauto). assert (located g1 v r j) as Hlj by (apply Hl; eauto).
      by destruct (located_fun _ _ _ _ _ _ Hli Hlj).
    + intros v. split.
      * intros [o Ho]%list_elem_of_lookup. assert (located g1 v r o) as (? & ? & _)%Hloc by (apply Hl; eauto). done.
      * intros [Hv Hm]. destruct (Hex v r Hv Hm) as (o & (layer' & Hlr' & Ho)%Hl). simplify_eq. by eapply list_elem_of_lookup_2.
  - intros v r Hv Hm. destruct (Hex v r Hv Hm) as (o & (layer' & Hlr' & Ho)%Hl). by eapply lookup_lt_Some.
Qed.

(** The crossings of a graph, as a turn of the loop counts them. *)
Definition crossings g : res Z := matrix <-- buildLayerMatrix g ;; crossCount g (filled_layers matrix).

Lemma reordered_out g φ g1 : reordered g φ g1 → (∀ v, out_of g1 v = out_of g v) ∧ ∀ e, weight_of g1 e = weight_of g e.
Proof.
  intros Hr. destruct (relabelled_queries _ _ _ Hr) as (_ & _ & _ & _ & _ & _ & Ho & _). destruct (relabelled_edges _ _ _ Hr) as (_ & He & _).
  split; [intros v; unfold out_of; by rewrite Ho|intros e; unfold weight_of; by rewrite He].
Qed.

Lemma naive_layers_ext g g1 layering :
  (∀ v, out_of g1 v = out_of g v) → (∀ e, weight_of g1 e = weight_of g e) → naive_layers g1 layering = naive_layers g layering.
Proof.
  intros Ho Hw. assert (∀ south e f, edge_cross g1 south e f = edge_cross g south e f) as Hc by (intros; unfold edge_cross; by rewrite !Hw).
  assert (∀ south north, naive_count g1 south north = naive_count g south north) as Hn.
  { intros south. induction north as [|v rest IH]; [done|]. cbn [naive_count]. rewrite IH, Ho. f_equal. apply zsum_ext. intros e _.
    replace (concat (out_of g1 <$> rest)) with (concat (out_of g <$> rest)) by (f_equal; apply list_fmap_ext; intros; symmetry; apply Ho).
    apply zsum_ext. intros f _. apply Hc. }
  induction layering as [|north [|south rest] IH]; [done..|].
  change (naive_count g1 south north + naive_layers g1 (south :: rest) = naive_count g south north + naive_layers g (south :: rest))%Z. by rewrite Hn, IH.
Qed.

Lemma crossings_ok g g1 : flat_ranked g → ordered g g1 →
  ∃ m layering, buildLayerMatrix g1 = Ok m ∧ filled_layers m = layering ∧ layering_of g1 layering ∧ tight g1 layering ∧ layers_exact g layering ∧
    crossCount g1 layering = Ok (naive_layers g layering).
Proof.
  intros F Ho. pose proof (ordered_layered g g1 F Ho) as Hlay. destruct (buildLayerMatrix_ok g1 Hlay) as (m & layering & Hm & Hf & Hl & Ht).
  exists m, layering. pose proof (layering_exact g g1 layering F Ho Hl) as Hex. destruct Ho as (φ & Hr & _). split_and!; [done|by apply filled_full|done..|].
  destruct (reordered_out g φ g1 Hr) as [Hout Hw]. rewrite <-(naive_layers_ext g g1) by done. apply crossCount_ok.
  - apply Hr.
  - intros x. destruct (relabelled_edges _ _ _ Hr) as (-> & He & _). intros Hx. rewrite He. by apply (fr_labelled _ F).
  - intros layer [r Hlr]%list_elem_of_lookup. by apply (le_layer _ _ Hex r).
Qed.

Lemma exact_perm g layering : flat_ranked g → layers_exact g layering → concat layering ≡ₚ nodes g.
Proof.
  intros F [L1 L2]. apply NoDup_Permutation; [|apply NoDup_nodes, F|].
  - apply NoDup_concat_lookup. intros i j i' j' l l' v Hi Hj Hi' Hj'. destruct (L1 i l Hi) as [Hnd Hel]. destruct (L1 i' l' Hi') as [_ Hel'].
    assert (movable g (Z.of_nat i) v) as H1 by (apply Hel; by eapply list_elem_of_lookup_2).
    assert (movable g (Z.of_nat i') v) as H2 by (apply Hel'; by eapply list_elem_of_lookup_2).
    unfold movable in *. assert (i = i') as <- by (rewrite H1 in H2; simplify_eq; lia). simplify_eq. split; [done|]. by eapply NoDup_lookup.
  - intros v. rewrite elem_of_concat, elem_of_nodes. split.
    + intros (layer & Hv & [r Hr]%list_elem_of_lookup). by apply (L1 r layer Hr).
    + intros Hv. destruct (flat_rank g v F Hv) as [r Hr]. destruct (lookup_lt_is_Some_2 layering r) as [layer Hlr]; [by eapply L2|].
      exists layer. split; [by apply (L1 r layer Hlr)|by eapply list_elem_of_lookup_2].
Qed.

Lemma total_weight_reordered g φ g1 : wf g → reordered g φ g1 → total_weight g1 = total_weight g.
Proof.
  intros Hwf Hr. destruct (reordered_out g φ g1 Hr) as [Ho Hw]. unfold total_weight. rewrite (zsum_perm _ (nodes g1) (nodes g)).
  - apply zsum_ext. intros v _. rewrite Ho. apply zsum_ext. intros e _. apply Hw.
  - apply NoDup_Permutation; [apply NoDup_nodes, Hr|by apply NoDup_nodes|]. intros v. rewrite !elem_of_nodes. apply (relabelled_isNode _ _ _ v Hr).
Qed.
End Layering.

(** ** The loop *)

(** The graph after [k] sweeps over the given layer graphs. *)
Fixpoint sweeps (downs ups : list layerGraph) (g : layoutGraph) (k : nat) : res layoutGraph :=
  match k with
  | O => Ok g
  | S k' => g <-- sweeps downs ups g k' ;; r <-- sweepLayerGraphs g (if Nat.odd k' then downs else ups) (bool_decide (2 ≤ k' mod 4)) ;; Ok r.1
  end.

Section Loop.
Implicit Types (st : order_state) (k b : nat).
Context (g : layoutGraph) (F : flat_ranked g) (Hw : nonneg_weights g).
Context (rds rus : list Z) (downs ups : list layerGraph).
Context (Hdowns : Forall2 (λ r lg, layer_graph g r InEdges lg) rds downs) (Hups : Forall2 (λ r lg, layer_graph g r OutEdges lg) rus ups).
Context (g0 : layoutGraph) (Hg0 : ordered g g0).

(** The crossings after [k] sweeps. *)
Definition count_after k (c : Z) : Prop := ∃ gk, sweeps downs ups g0 k = Ok gk ∧ crossings gk = Ok c.

(** The fewest crossings so far came after the sweep [S b] of [k]. *)
Definition best_at k b (c : Z) : Prop :=
  b < k ∧ count_after (S b) c ∧ ∀ j, j < k → ∃ cj, count_after (S j) cj ∧ (c ≤ cj)%Z ∧ (j < b → (c < cj)%Z).

Record loop_inv k st : Prop := {
  lp_i : os_i st = k;
  lp_graphs : downLayerGraphs st = downs ∧ upLayerGraphs st = ups;
  lp_sweeps : sweeps downs ups g0 k = Ok (os_graph st);
  lp_ordered : ordered g (os_graph st);
  lp_best : match bestCC st with
            | Inf => k = 0 ∧ lastBest st = 0
            | Fin c => (0 ≤ c ≤ total_weight g * total_weight g)%Z ∧ ∃ b, lastBest st = k - b ∧ best_at k b c ∧
                ∃ gb, sweeps downs ups g0 (S b) = Ok gb ∧ ordered g gb ∧ layering_of gb (best st) ∧ tight gb (best st) ∧ c = naive_layers g (best st)
            end
}.

Lemma order_step_ok k st : loop_inv k st → ∃ st' c, order_step st = Ok st' ∧ loop_inv (S k) st' ∧ (0 ≤ c ≤ total_weight g * total_weight g)%Z ∧
  (lastBest st' = 1 ∧ bestCC st' = Fin c ∧ ext_lt (Fin c) (bestCC st) ∨ lastBest st' = S (lastBest st) ∧ bestCC st' = bestCC st ∧ bestCC st ≠ Inf).
Proof.
  intros [I1 [I2 I2'] I3 I4 I5]. unfold order_step. rewrite I1, I2, I2'.
  assert (∃ g2, sweepLayerGraphs (os_graph st) (if Nat.odd k then downs else ups) (bool_decide (2 ≤ k mod 4)) = Ok (g2, if Nat.odd k then downs else ups) ∧ ordered g g2) as (g2 & Hsw & Ho2).
  { destruct (Nat.odd k); by eapply sweepLayerGraphs_ok. }
  rewrite Hsw. cbn [res_bind fst snd]. destruct (crossings_ok g g2 F Ho2) as (m & layering & Hm & Hf & Hl & Ht & Hex & Hcc).
  rewrite Hm. cbn [res_bind]. rewrite Hf, Hcc. cbn [res_bind]. set (c := naive_layers g layering) in *.
  assert (sweeps downs ups g0 (S k) = Ok g2) as Hsk by (cbn [sweeps]; rewrite I3; cbn [res_bind]; rewrite Hsw; done).
  assert (crossings g2 = Ok c) as Hcr by (unfold crossings; rewrite Hm; cbn; by rewrite Hf).
  assert (count_after (S k) c) as Hcount by (by exists g2).
  assert (0 ≤ c ≤ total_weight g * total_weight g)%Z as Hc.
  { pose proof (naive_layers_bound g (dg_wf _ (fr_digraph _ F)) Hw layering) as Hb. unfold out_weight in Hb.
    rewrite (zsum_perm _ _ _ (exact_perm g layering F Hex)) in Hb. exact Hb. }
  assert ((if Nat.odd k then if Nat.odd k then downs else ups else downs) = downs ∧ (if Nat.odd k then ups else if Nat.odd k then downs else ups) = ups) as [-> ->]
    by (by destruct (Nat.odd k)).
  eexists _, c. split; [done|]. destruct (decide (ext_lt (Fin c) (bestCC st))) as [Hlt|Hlt]; (split; [|split; [done|]]).
  - split; try done. cbn [bestCC lastBest best]. split; [done|]. exists k. split; [lia|]. split; [split; [lia|split; [done|]]|by exists g2].
    intros j Hj. destruct (decide (j = k)) as [->|Hne]; [exists c; split_and!; [done|lia|lia]|]. destruct (bestCC st) as [c0|]; [|lia].
    destruct I5 as (_ & b & _ & (_ & _ & Hall) & _). destruct (Hall j) as (cj & ? & ? & _); [lia|]. cbn in Hlt. exists cj. split_and!; [done|lia|lia].
  - left. done.
  - split; try done. cbn [bestCC lastBest best]. destruct (bestCC st) as [c0|]; [|done]. cbn in Hlt. destruct I5 as (Hc0 & b & Hlb & (Hb & Hcb & Hall) & Hgb).
    split; [done|]. exists b. split; [lia|]. split; [split; [lia|split; [done|]]|done].
    intros j Hj. destruct (decide (j = k)) as [->|Hne]; [exists c; split_and!; [done|lia|lia]|]. apply Hall. lia.
  - right. split_and!; [done..|]. intros Hinf. by rewrite Hinf in Hlt.
Qed.

(** The turns that are left at most. *)
Definition turns_left st : nat :=
  match bestCC st with
  | Inf => 4 * S (Z.to_nat (total_weight g * total_weight g))
  | Fin c => 4 * Z.to_nat c + (4 - lastBest st)
  end.

Lemma order_loop_ok fuel k st : loop_inv k st → lastBest st ≤ 4 → turns_left st ≤ fuel →
  ∃ k' st', order_loop fuel st = Ok st' ∧ loop_inv k' st' ∧ lastBest st' = 4.
Proof.
  revert k st. induction fuel as [|fuel IH]; intros k st I Hl4 Hf; cbn [order_loop].
  - exists k, st. unfold turns_left in Hf. destruct (bestCC st) as [c|] eqn:Hb; [|lia]. rewrite decide_False by lia. split_and!; [done..|lia].
  - case_decide as Hl; [|exists k, st; split_and!; [done..|lia]]. destruct (order_step_ok k st I) as (st' & c & -> & I' & Hc & Hcase). cbn [res_bind].
    apply (IH (S k) st' I').
    + destruct Hcase as [(-> & _)|(-> & _)]; lia.
    + unfold turns_left in *. destruct Hcase as [(-> & -> & Hlt)|(-> & -> & Hni)].
      * destruct (bestCC st) as [c0|] eqn:Hb; [|lia]. cbn in Hlt. lia.
      * destruct (bestCC st); [lia|done].
Qed.
End Loop.

(** ** The pass *)

(** The layer graphs and the initial order with which the loop starts. *)
Definition order_start (idCounter : N) (g : layoutGraph) : res (list layerGraph * list layerGraph * layoutGraph) :=
  m <-- maxRank g ;;
  downs <-- buildLayerGraphs idCounter g (down_ranks m) InEdges ;;
  ups <-- buildLayerGraphs downs.1 g (up_ranks m) OutEdges ;;
  layering <-- initOrder g ;;
  g0 <-- assignOrder g layering ;;
  Ok (downs.2, ups.2, g0).

Section Claims.
Implicit Types (g : layoutGraph).

Lemma flat_maxRank g : flat_ranked g → ∃ m, maxRank g = Ok m.
Proof.
  intros F. unfold maxRank, ranks_of. match goal with |- context [res_fold ?f ?s ?l] => destruct (res_fold_total f s l) as [rs ->] end; [|by eexists].
  intros rs v Hv%elem_of_nodes. destruct (fr_node _ F v Hv) as (_ & l & _ & -> & _). by eexists.
Qed.

Lemma order_ok c g : flat_ranked g → nonneg_weights g →
  ∃ downs ups g0 b cc c' g', order_start c g = Ok (downs, ups, g0) ∧ Pass.order c g = Ok (c', g') ∧ ordered g g' ∧
    crossings g' = Ok cc ∧ best_at downs ups g0 (b + 4) b cc.
Proof.
  intros F Hw. unfold order_start, Pass.order. destruct (flat_maxRank g F) as [m ->]. cbn [res_bind].
  destruct (buildLayerGraphs_ok g (down_ranks m) InEdges c F) as (c1 & downs & -> & _ & Hdowns). cbn [res_bind fst snd].
  destruct (buildLayerGraphs_ok g (up_ranks m) OutEdges c1 F) as (c2 & ups & -> & _ & Hups). cbn [res_bind fst snd].
  destruct (initOrder_ok g F) as (layering & -> & Hex). cbn [res_bind]. assert (wf g) as Hwf by apply F.
  destruct (reordered_refl g Hwf) as [φ Hφ]. destruct (assignOrder_ok g φ g layering F Hφ Hex) as (φ0 & g0 & -> & Hr0 & Hok0 & _). cbn [res_bind].
  assert (ordered g g0) as Ho0 by (by exists φ0).
  destruct (order_loop_ok g F Hw _ _ downs ups Hdowns Hups g0 (order_fuel g0) 0 (OrderState g0 downs ups 0 0 Inf [])) as (k & st & -> & I & Hl4).
  { split; try done. }
  { cbn. lia. }
  { cbn. unfold order_fuel. by rewrite (total_weight_reordered g φ0 g0 Hwf Hr0). }
  cbn [res_bind]. pose proof (lp_best _ _ _ _ _ _ I) as Hbest. destruct (bestCC st) as [cc|]; [|lia].
  destruct Hbest as (_ & b & Hlb & Hat & gb & Hsb & Hob & Hlay & Htight & Hcc). pose proof (layering_exact g gb _ F Hob Hlay) as Hexb.
  destruct (lp_ordered _ _ _ _ _ _ I) as (φk & Hrk & _). destruct (assignOrder_ok g φk _ (best st) F Hrk Hexb) as (φ' & g' & -> & Hr' & Hok' & Hφ').
  cbn [res_bind]. assert (ordered g g') as Ho' by (by exists φ').
  exists downs, ups, g0, b, cc, c2, g'. split_and!; [done|done|done| |by replace (b + 4) with k by lia].
  destruct (crossings_ok g g' F Ho') as (m' & l' & Hm' & Hf' & Hl' & Ht' & _ & Hc'). unfold crossings. rewrite Hm'. cbn [res_bind]. rewrite Hf', Hc', Hcc. do 2 f_equal.
  assert (∀ v r o, (∃ layer, best st !! r = Some layer ∧ layer !! o = Some v) ↔ located g' v r o) as Hlay'.
  { intros v r o. rewrite (ordered_located g φ' g' v r o F Hr'). split.
    - intros (layer & Hlr & Ho). destruct (le_layer _ _ Hexb r layer Hlr) as [_ Hel]. apply list_elem_of_lookup_2 in Ho as Hin. apply Hel in Hin as [? ?].
      split_and!; [done..|]. by eapply Hφ'.
    - intros (Hv & Hm & Ho). destruct (lookup_lt_is_Some_2 (best st) r) as [layer Hlr]; [by eapply (le_all _ _ Hexb v)|].
      destruct (le_layer _ _ Hexb r layer Hlr) as [_ Hel]. assert (v ∈ layer) as [i Hi]%list_elem_of_lookup by (by apply Hel).
      exists layer. split; [done|]. rewrite (Hφ' r layer i v Hlr Hi) in Ho. assert (i = o) as -> by (simplify_eq; lia). done. }
  apply (layering_unique g'); [done|done|done|]. intros r Hr. destruct (Htight r Hr) as (v & r' & o & Hat' & Hle). exists v, r', o. split; [|done].
  by apply Hlay', Hlay.
Qed.

(** C17: [order] returns on every ranked graph without clusters, changes only the orders, and gives the nodes of each
    rank the orders 0, 1, ... *)
Theorem order_layers c g : flat_ranked g → nonneg_weights g →
  ∃ c' g' φ, Pass.order c g = Ok (c', g') ∧ reordered g φ g' ∧ layered g' ∧ edges g' = edges g.
Proof.
  intros F Hw. destruct (order_ok c g F Hw) as (downs & ups & g0 & b & cc & c' & g' & _ & Hord & Ho & _).
  pose proof (ordered_layered g g' F Ho). destruct Ho as (φ & Hr & _). exists c', g', φ. split_and!; [done..|]. by apply (relabelled_edges _ _ _ Hr).
Qed.

End Claims.

(** ** An example *)

Definition flat_check (g : layoutGraph) : bool :=
  isDirected g &&
  forallb (λ v, leaf g v && negb (bool_decide (v = ""%string)) &&
    match node g v with
    | Some l => match rank l with Some r => bool_decide (0 ≤ r)%Z | None => false end && bool_decide (minRank (more l) = None) && bool_decide (borderLeft (more l) = None)
    | None => false
    end) (nodes g) &&
  forallb (λ x, bool_decide (good_name (ename x)) && match edgeOf g x with Some l => bool_decide (0 ≤ weight l)%Z | None => false end) (edges g).

Lemma flat_check_ok g : wf g → flat_check g = true → flat_ranked g ∧ nonneg_weights g.
Proof.
  intros Hwf. unfold flat_check. rewrite !andb_true_iff, !forallb_forall. intros [[Hd Hn] He]. setoid_rewrite <-list_elem_of_In in Hn. setoid_rewrite <-list_elem_of_In in He.
  assert (∀ x, x ∈ edges g → good_name (ename x) ∧ ∃ l, edgeOf g x = Some l ∧ (0 ≤ weight l)%Z) as Hedge.
  { intros x Hx. specialize (He x Hx). apply andb_true_iff in He as [H1%bool_decide_eq_true H2]. split; [done|].
    destruct (edgeOf g x) as [l|]; [|done]. apply bool_decide_eq_true in H2. eauto. }
  split; [split|].
  - split; [done..|]. intros x Hx. by apply Hedge.
  - intros v Hv%elem_of_nodes%Hn. by apply andb_true_iff in Hv as [[? _]%andb_true_iff _].
  - intros x Hx. destruct (Hedge x Hx) as (_ & l & -> & _). by eexists.
  - intros v Hv%elem_of_nodes%Hn. rewrite !andb_true_iff, negb_true_iff, bool_decide_eq_false in Hv. destruct Hv as [[_ Hne] Hl]. split; [done|].
    destruct (node g v) as [l|]; [|done]. rewrite !andb_true_iff, !bool_decide_eq_true in Hl. destruct Hl as [[Hr H1] H2].
    destruct (rank l) as [r|] eqn:Hrl; [|done]. apply bool_decide_eq_true in Hr. exists l, (Z.to_nat r). rewrite Z2Nat.id by done. done.
  - intros x l Hx Hl. destruct (Hedge x Hx) as (_ & l' & Hl' & ?). congruence.
Qed.

Definition ranked_node (r : Z) : option (option nodeLabel) :=
  Some (Some (NodeLabel 10%Q 10%Q None None (Some r) None None None None no_more)).
Definition weighted (w : Z) : option (option edgeLabel) :=
  Some (Some (EdgeLabel 1 w 0%Q 0%Q 10%Q "r" None None None None false None false)).

(** Two layers that a sweep disentangles. *)
Definition tangle : layoutGraph :=
  build true true true
    [OpSetGraph (Some (GraphLabel 50%Q 20%Q 50%Q "tb" None None None None None no_gmore));
     OpSetNode "a" (ranked_node 0); OpSetNode "b" (ranked_node 0); OpSetNode "c" (ranked_node 0);
     OpSetNode "x" (ranked_node 1); OpSetNode "y" (ranked_node 1); OpSetNode "z" (ranked_node 1);
     OpSetEdge "a" "z" (weighted 1) None; OpSetEdge "b" "y" (weighted 1) None; OpSetEdge "c" "x" (weighted 2) None;
     OpSetEdge "a" "x" (weighted 1) None; OpSetEdge "b" "z" (weighted 1) None].

Lemma tangle_flat : flat_ranked tangle ∧ nonneg_weights tangle.
Proof. apply flat_check_ok; [apply build_wf; apply (bool_decide_unpack _); vm_compute; exact I|vm_compute; reflexivity]. Qed.

Lemma order_layers_witness : ∃ c g, Pass.order 0 tangle = Ok (c, g) ∧ layered g ∧ place g "b" = Some (0, 0) ∧ place g "a" = Some (0, 1).
Proof.
  destruct (order_layers 0 tangle) as (c & g & φ & Hord & _ & Hlay & _); [apply tangle_flat..|].
  exists c, g. split; [exact Hord|]. split; [exact Hlay|]. vm_compute in Hord. injection Hord as <- <-. split; reflexivity.
Defined.


Lemma buildLayerGraph_spec_witness :
  ∃ c lg root, buildLayerGraph 0 tangle 1 InEdges = Ok (c, lg) ∧ Graphlib.graph lg = Some root ∧ "z"%string ∈ default [] (children lg root) ∧
    elookup lg (EdgeObj "b" "z" None) = Some (Some 1%Z).
Proof.
  destruct (buildLayerGraph_spec 0 tangle 1 InEdges) as (c & lg & root & H1 & H2 & _ & H3 & H4); [apply tangle_flat|].
  exists c, lg, root. split; [exact H1|]. split; [exact H2|]. split.
  - apply H3. split; [vm_compute; eauto|reflexivity].
  - rewrite H4. vm_compute. reflexivity.
Defined.
