(* ===== verification/DagreBkIter.v ===== *)
(** * dagre: the search for conflicts returns

    On a layered graph both searches of bk.js return a table; which pairs it holds does not
    matter for the separation of nodes. *)
From Stdlib Require Import QArith_base.
Local Close Scope Q_scope.
From S2P Require Import Prelude JsObject Graphlib GraphWf GraphInv GraphQuery GraphView Lodash LodashSpec DagreTypes DagreBk DagreLayers.

Section Conflicts.
Context (g : layoutGraph) (Hg : layered g).
Implicit Types (v u : string) (layer : list string) (conflicts : conflict_table).

Lemma node_labelled v : isNode g v → is_Some (node g v).
Proof. intros Hv. destruct (ly_node _ Hg v Hv) as (_ & r & o & l & Hl & _). by exists l. Qed.

Lemma predecessors_nodes v u : u ∈ default [] (predecessors g v) → isNode g v → isNode g u.
Proof.
  intros Hu Hv. destruct (predecessors_spec g v (ly_wf _ Hg) Hv) as (l & Hl & _ & Hin). rewrite Hl in Hu.
  apply Hin in Hu as (x & Hx & _ & <-). by apply (edges_nodes g x (ly_wf _ Hg)).
Qed.

Lemma find_dummy_total us : (∀ u, u ∈ us → isNode g u) → ∃ w, find_dummy g us = Ok w ∧ ∀ x, w = Some x → isNode g x.
Proof.
  induction us as [|u us IH]; intros Hn; simpl; [by exists None|].
  destruct (node_labelled u) as [l ->]; [apply Hn; by left|]. simpl. destruct (is_dummy l).
  - exists (Some u). split; [done|]. intros x [= <-]. apply Hn. by left.
  - apply IH. intros ??. apply Hn. by right.
Qed.

Lemma findOther_total v : isNode g v → ∃ w, findOtherInnerSegmentNode g v = Ok w ∧ ∀ x, w = Some x → isNode g x.
Proof.
  intros Hv. unfold findOtherInnerSegmentNode. destruct (node_labelled v Hv) as [l ->]. simpl.
  destruct (is_dummy l); [|by exists None]. apply find_dummy_total. intros u Hu. by eapply predecessors_nodes.
Qed.

Lemma reduce_layers_total {S} (visit : list string → list string → S → res S) layering s :
  (∀ north south s, north ∈ layering → south ∈ layering → ∃ s', visit north south s = Ok s') →
  ∃ s', reduce_layers visit layering s = Ok s'.
Proof.
  revert s. induction layering as [|north [|south rest] IH]; intros s Hv; [by eexists..|]. cbn [reduce_layers].
  destruct (Hv north south s) as [s' ->]; [set_solver..|]. cbn [res_bind]. apply IH. intros ?????. apply Hv; by right.
Qed.

Lemma findType1_total layering : (∀ v, v ∈ concat layering → isNode g v) → ∃ c, findType1Conflicts g layering = Ok c.
Proof.
  intros Hn. apply reduce_layers_total. intros north south s _ Hs.
  assert (∀ v, v ∈ south → isNode g v) as Hsn by (intros v Hv; apply Hn, elem_of_concat; eauto).
  destruct (res_fold_total (type1_node g (length north) south) (Type1 s (Some 0%Z) 0) (imap pair south)) as [st ->]; [|by eexists].
  intros st [i v] Hiv. assert (v ∈ south) as Hv.
  { apply elem_of_lookup_imap in Hiv as (j & y & [= -> ->] & Hj). by eapply list_elem_of_lookup_2. }
  cbn [type1_node]. destruct (findOther_total v (Hsn v Hv)) as (w & -> & Hw). cbn [res_bind].
  assert (∃ k1, (if truthy w then w <-- of_option w;; l <-- of_option (node g w);; Ok (order l)
    else Ok (Some (Z.of_nat (length north)))) = Ok k1) as [k1 ->].
  { destruct w as [w|]; [|by eexists]. destruct (truthy (Some w)); [|by eexists]. simpl.
    destruct (node_labelled w (Hw w eq_refl)) as [l ->]. by eexists. }
  cbn [res_bind]. destruct (truthy w || _); [|by eexists].
  match goal with |- context [res_fold ?f ?s ?l] => destruct (res_fold_total f s l) as [c ->]; [|by eexists] end.
  intros c scanNode Hin. apply res_fold_total. intros c' u Hu.
  assert (isNode g scanNode) as Hsc by (apply Hsn; eapply subseteq_drop, subseteq_take in Hin; done).
  unfold type1_pair. destruct (node_labelled u) as [l ->]; [by eapply predecessors_nodes|]. cbn [of_option res_bind].
  destruct (_ || _); [|by eexists]. destruct (is_dummy l); [|by eexists].
  destruct (node_labelled scanNode Hsc) as [l' ->]. by eexists.
Qed.

Lemma type2_scan_total south a b p n c :
  (∀ v, v ∈ south → isNode g v) → a ≤ b → b ≤ length south → ∃ c', type2_scan g south a b p n c = Ok c'.
Proof.
  intros Hsn Hab Hb. apply res_fold_total. intros c' z Hz.
  assert (0 ≤ z < Z.of_nat b)%Z as Hrange.
  { unfold range in Hz. case_decide; apply elem_of_baseRange in Hz as (k & Hk & ->); rewrite ?range_length_up, ?range_length_down in Hk; lia. }
  destruct (lookup_lt_is_Some_2 south (Z.to_nat z)) as [v Hv]; [lia|]. rewrite Hv. cbn [of_option res_bind].
  assert (isNode g v) as Hvn by (apply Hsn; by eapply list_elem_of_lookup_2).
  destruct (node_labelled v Hvn) as [l ->]. cbn [of_option res_bind]. destruct (is_dummy l); [|by eexists].
  apply res_fold_total. intros c'' u Hu. unfold type2_pair.
  destruct (node_labelled u) as [lu ->]; [by eapply predecessors_nodes|]. by eexists.
Qed.

Lemma findType2_total layering : (∀ v, v ∈ concat layering → isNode g v) → ∃ c, findType2Conflicts g layering = Ok c.
Proof.
  intros Hn. apply reduce_layers_total. intros north south s _ Hs.
  assert (∀ v, v ∈ south → isNode g v) as Hsn by (intros v Hv; apply Hn, elem_of_concat; eauto).
  destruct (res_fold_inv (type2_node g north south) (λ done st, southPos st ≤ length done) (imap pair south) (Type2 s (Some (-1)%Z) None 0))
    as (st & -> & _); [simpl; lia| |by eexists].
  intros done [i v] rest st Heq Hpos.
  assert (imap pair south !! length done = Some (i, v)) as Hi by (by rewrite Heq, list_lookup_middle).
  rewrite list_lookup_imap in Hi. destruct (south !! length done) as [v'|] eqn:Hv; [|done]. injection Hi as <- ->.
  assert (length done < length south) as Hlt by (by eapply lookup_lt_Some).
  assert (isNode g v) as Hvn by (apply Hsn; by eapply list_elem_of_lookup_2).
  cbn [type2_node]. destruct (node_labelled v Hvn) as [l Hl]. rewrite Hl. cbn [of_option res_bind].
  assert (∃ st', (if bool_decide (dummy l = Some "border"%string) then
            predecessors <-- of_option (predecessors g v) ;;
            match predecessors with
            | [] => Ok st
            | p :: _ =>
                pl <-- of_option (node g p) ;;
                cs <-- type2_scan g south (southPos st) (length done) (prevNorthPos st) (order pl) (conflicts2 st) ;;
                Ok (Type2 cs (order pl) (order pl) (length done))
            end else Ok st) = Ok st' ∧ southPos st' ≤ length done) as (st' & -> & Hpos').
  { case_bool_decide; [|by eexists]. destruct (predecessors_spec g v (ly_wf _ Hg) Hvn) as (ps & Hps & _). rewrite Hps.
    cbn [of_option res_bind]. destruct ps as [|p ps]; [by eexists|].
    destruct (node_labelled p) as [pl ->]; [eapply predecessors_nodes; [rewrite Hps; by left|done]|]. cbn [of_option res_bind].
    destruct (type2_scan_total south (southPos st) (length done) (prevNorthPos st) (order pl) (conflicts2 st)) as [cs ->]; [done|lia|lia|].
    eexists. split; [done|]. simpl. lia. }
  cbn [res_bind].
  destruct (type2_scan_total south (southPos st') (length south) (nextNorthPos st') (Some (Z.of_nat (length north))) (conflicts2 st')) as [cs ->]; [done|lia|lia|].
  eexists. split; [done|]. rewrite length_app. simpl. lia.
Qed.
End Conflicts.

(** * dagre: the two sweeps over the block graph

    [iterate] of [horizontalCompaction] visits the nodes of the block graph with an explicit
    stack.  On an acyclic graph a node is only assigned when all its successors in the
    direction of the sweep have been, and the loop ends within the fuel. *)
From Stdlib Require Import QArith_base Lqa.
Local Close Scope Q_scope.
From S2P Require Import Prelude JsObject Graphlib GraphWf GraphInv GraphQuery GraphView DagreTypes DagreBk.

Section Iterate.
Context (V : list string) (next : string → option (list string)) (r : string → Q).
Context (setXs : coords → string → res coords) (P : list string → coords → Prop).
Implicit Types (visited : obj bool) (stack D : list string) (u v p : string) (xs : coords).

Definition nexts u : list string := default [] (next u).
Definition unvisited visited : list string := filter (λ u, oget visited u = None) V.
Definition work visited stack : nat := length stack + sum_list_with (λ u, S (length (nexts u))) (unvisited visited).

Hypothesis V_nodup : NoDup V.
Hypothesis V_name : ""%string ∉ V.
Hypothesis V_next : ∀ v p, v ∈ V → p ∈ nexts v → p ∈ V.
Hypothesis r_next : ∀ v p, v ∈ V → p ∈ nexts v → (r p < r v)%Q.
Hypothesis P_step : ∀ D xs v, v ∈ V → (∀ p, p ∈ nexts v → p ∈ D) → P D xs → ∃ xs', setXs xs v = Ok xs' ∧ P (v :: D) xs'.

(** Visited and not yet assigned. *)
Definition pending visited D v : Prop := is_Some (oget visited v) ∧ v ∉ D.

(** [D] holds the assigned nodes.  What a pending node waits for is above it on the stack, and below
    it are only nodes of higher rank up to its first copy. *)
Record iter_inv visited stack D xs : Prop := {
  it_stack : ∀ v, v ∈ stack → v ∈ V;
  it_closed : ∀ v p, v ∈ D → p ∈ nexts v → p ∈ D;
  it_visited : ∀ v, v ∈ D → is_Some (oget visited v);
  it_all : ∀ v, v ∈ V → v ∈ stack ∨ is_Some (oget visited v);
  it_here : ∀ v, pending visited D v → v ∈ stack;
  it_waits : ∀ above v below p, stack = above ++ v :: below → pending visited D v → p ∈ nexts v → p ∈ D ∨ p ∈ above;
  it_rank : ∀ above v below u, stack = above ++ v :: below → pending visited D v → v ∉ above → u ∈ above → (r u < r v)%Q;
  it_P : P D xs
}.

Lemma work_expand visited stack rest v :
  v ∈ V → oget visited v = None → stack = v :: rest →
  work visited stack = S (work (oset visited v true) (reverse (nexts v) ++ v :: rest)).
Proof.
  intros Hv Hn ->. unfold work. rewrite length_app, length_reverse. simpl.
  assert (unvisited visited ≡ₚ v :: unvisited (oset visited v true)) as Hp.
  { apply NoDup_Permutation; [by apply NoDup_filter|apply NoDup_cons; split|].
    - unfold unvisited. rewrite list_elem_of_filter, oget_oset_eq. naive_solver.
    - by apply NoDup_filter.
    - intros u. unfold unvisited. rewrite elem_of_cons, !list_elem_of_filter, oget_oset. case_decide; naive_solver. }
  rewrite Hp. simpl. lia.
Qed.

(** The top of the stack has been visited: it is assigned, once more if it was already. *)
Lemma iter_assign visited v rest D xs :
  iter_inv visited (v :: rest) D xs → is_Some (oget visited v) →
  ∃ xs', setXs xs v = Ok xs' ∧ iter_inv visited rest (v :: D) xs'.
Proof.
  intros I Hvis.
  assert (∀ p, p ∈ nexts v → p ∈ D) as Hd.
  { intros p Hp. destruct (decide (v ∈ D)) as [HD|HD]; [by eapply (it_closed _ _ _ _ I)|].
    destruct (it_waits _ _ _ _ I [] v rest p eq_refl) as [?|?%elem_of_nil]; [by split|done|done|done]. }
  destruct (P_step D xs v) as (xs' & Hs & HP); [apply (it_stack _ _ _ _ I); by left|done|apply I|].
  exists xs'. split; [done|].
  assert (∀ u, pending visited (v :: D) u → u ≠ v ∧ pending visited D u) as Hpend by (intros u [Hu [? ?]%not_elem_of_cons]; by split; [|split]).
  split; [| | | | | | |done].
  - intros u Hu. apply (it_stack _ _ _ _ I). by right.
  - intros u p [->|Hu]%elem_of_cons Hp; right; [by apply Hd|by eapply (it_closed _ _ _ _ I)].
  - intros u [->|Hu]%elem_of_cons; [done|by apply (it_visited _ _ _ _ I)].
  - intros u Hu. destruct (it_all _ _ _ _ I u Hu) as [[->|?]%elem_of_cons|?]; [by right|by left|by right].
  - intros u [Hne Hu]%Hpend. pose proof (it_here _ _ _ _ I u Hu). set_solver.
  - intros above u below p -> [Hne Hu]%Hpend Hp.
    destruct (it_waits _ _ _ _ I (v :: above) u below p eq_refl Hu Hp); set_solver.
  - intros above u below x -> [Hne Hu]%Hpend Hnin Hx.
    apply (it_rank _ _ _ _ I (v :: above) u below x eq_refl Hu); set_solver.
Qed.

(** Where an occurrence in [l1 ++ x :: l2] lies. *)
Lemma app_cons_split {A} (l1 l2 above below : list A) x y :
  l1 ++ x :: l2 = above ++ y :: below →
  (y ∈ l1 ∧ ∃ k, l1 = above ++ y :: k) ∨ (y = x ∧ above = l1) ∨ ∃ k, above = l1 ++ x :: k ∧ l2 = k ++ y :: below.
Proof.
  revert above. induction l1 as [|a l1 IH]; intros [|c above] Heq; simplify_eq/=.
  - by right; left.
  - right; right. by exists above.
  - left. split; [set_solver|]. by exists l1.
  - destruct (IH above H0) as [[? [k ->]]|[[-> ->]|(k & -> & ->)]].
    + left. split; [set_solver|]. by exists k.
    + by right; left.
    + right; right. by exists k.
Qed.

(** The top of the stack is new: what it waits for is pushed above it. *)
Lemma iter_expand visited v rest D xs :
  iter_inv visited (v :: rest) D xs → oget visited v = None →
  iter_inv (oset visited v true) (reverse (nexts v) ++ v :: rest) D xs.
Proof.
  intros I Hn. assert (v ∈ V) as Hv by (apply (it_stack _ _ _ _ I); by left).
  assert (v ∉ nexts v) as Hirr by (intros Hin; pose proof (r_next v v Hv Hin); lra).
  assert (∀ u, pending (oset visited v true) D u → u = v ∨ (u ≠ v ∧ pending visited D u)) as Hpend.
  { intros u [Hu ?]. rewrite oget_oset in Hu. case_decide; [by left|right]. by split; [|split]. }
  (* a pending node has a higher rank than the new one *)
  assert (∀ u, u ≠ v → pending visited D u → (r v < r u)%Q) as Hrank.
  { intros u Hne Hu. pose proof (it_here _ _ _ _ I u Hu) as Hin.
    apply list_elem_of_split_l in Hin as (above & below & Heq & Hnin).
    destruct above as [|a above]; simplify_eq/=. eapply (it_rank _ _ _ _ I (a :: above)); [done|done|done|by left]. }
  split; [| | | | | | |apply I].
  - intros u. rewrite elem_of_app, elem_of_reverse. intros [Hu|Hu]; [by eapply V_next|by apply (it_stack _ _ _ _ I)].
  - apply I.
  - intros u Hu. rewrite oget_oset. case_decide; [by eexists|]. by apply (it_visited _ _ _ _ I).
  - intros u Hu. rewrite elem_of_app, oget_oset. case_decide; [right; by eexists|].
    destruct (it_all _ _ _ _ I u Hu); [left; by right|by right].
  - intros u Hu. apply elem_of_app. right. destruct (Hpend u Hu) as [->|[_ Hu']]; [by left|by apply (it_here _ _ _ _ I)].
  - intros above u below p Heq Hu Hp.
    destruct (app_cons_split _ _ _ _ _ _ Heq) as [[Hun _]|[[-> ->]|(k & -> & ->)]].
    + rewrite elem_of_reverse in Hun. pose proof (r_next v u Hv Hun). destruct (Hpend u Hu) as [->|[Hne Hu']]; [lra|]. specialize (Hrank u Hne Hu'). lra.
    + right. by apply elem_of_reverse.
    + destruct (Hpend u Hu) as [->|[Hne Hu']]; [right; apply elem_of_app; left; by apply elem_of_reverse|].
      destruct (it_waits _ _ _ _ I (v :: k) u below p eq_refl Hu' Hp); set_solver.
  - intros above u below x Heq Hu Hnin Hx.
    destruct (app_cons_split _ _ _ _ _ _ Heq) as [[Hun _]|[[-> ->]|(k & -> & ->)]].
    + rewrite elem_of_reverse in Hun. pose proof (r_next v u Hv Hun). destruct (Hpend u Hu) as [->|[Hne Hu']]; [lra|]. specialize (Hrank u Hne Hu'). lra.
    + apply r_next; [done|]. by apply elem_of_reverse.
    + destruct (Hpend u Hu) as [->|[Hne Hu']]; [set_solver|].
      apply elem_of_app in Hx as [Hx|Hx]; [rewrite elem_of_reverse in Hx|].
      * pose proof (r_next v x Hv Hx). specialize (Hrank u Hne Hu'). lra.
      * apply (it_rank _ _ _ _ I (v :: k) u below x eq_refl Hu'); set_solver.
Qed.

Lemma iterate_loop_ok fuel visited stack D xs :
  iter_inv visited stack D xs → work visited stack ≤ fuel →
  ∃ xs' D', iterate_loop fuel setXs next visited stack xs = Ok xs' ∧ P D' xs' ∧ ∀ v, v ∈ V → v ∈ D'.
Proof.
  revert visited stack D xs. induction fuel as [|fuel IH]; intros visited stack D xs I Hw.
  all: destruct stack as [|v rest]; simpl.
  1,3: exists xs, D; split_and!; [done|apply I|];
    intros u Hu; destruct (decide (u ∈ D)) as [|HD]; [done|exfalso];
    destruct (it_all _ _ _ _ I u Hu) as [?%elem_of_nil|Hvis]; [done|];
    by apply (elem_of_nil u), (it_here _ _ _ _ I).
  { unfold work in Hw. simpl in Hw. lia. }
  assert (v ∈ V) as Hv by (apply (it_stack _ _ _ _ I); by left).
  rewrite decide_False by (by intros ->). destruct (ohas visited v) eqn:Hvis.
  - apply ohas_true in Hvis. destruct (iter_assign _ _ _ _ _ I Hvis) as (xs' & -> & I').
    simpl. apply (IH _ _ _ _ I'). unfold work in *. simpl in Hw. lia.
  - apply ohas_false in Hvis. apply (IH _ _ D _ (iter_expand _ _ _ _ _ I Hvis)).
    rewrite (work_expand _ _ _ _ Hv Hvis eq_refl) in Hw. lia.
Qed.
End Iterate.

(** ** Sweeps over a graph *)

Section Sweep.
Context {L N E : Type} (b : Graph L N E) (next : string → option (list string)) (proj oth : edgeObj → string).

(** [next] lists the other ends of the edges at a node. *)
Definition direction : Prop := ∀ v, isNode b v →
  ∃ l, next v = Some l ∧ NoDup l ∧ ∀ w, w ∈ l ↔ ∃ x, x ∈ edges b ∧ proj x = v ∧ oth x = w.

Lemma elem_of_nexts v w : direction → isNode b v → w ∈ nexts next v ↔ ∃ x, x ∈ edges b ∧ proj x = v ∧ oth x = w.
Proof. intros Hd Hv. destruct (Hd v Hv) as (l & Hl & _ & Hw). unfold nexts. rewrite Hl. apply Hw. Qed.

Lemma length_bind {A B} (f : A → list B) l : length (l ≫= f) = sum_list_with (length ∘ f) l.
Proof. induction l as [|x l IH]; csimpl; [done|]. by rewrite length_app, IH. Qed.

Lemma direction_work : wf b → direction → sum_list_with (λ u, length (nexts next u)) (nodes b) ≤ length (edges b).
Proof.
  intros Hwf Hd. set (arcs := nodes b ≫= λ u, pair u <$> nexts next u).
  transitivity (length arcs).
  { unfold arcs. rewrite length_bind. apply Nat.eq_le_incl. induction (nodes b) as [|u l IH]; csimpl; [done|].
    rewrite length_fmap, IH. done. }
  rewrite <-(length_fmap (λ x, (proj x, oth x)) (edges b)). apply submseteq_length, NoDup_submseteq.
  - apply NoDup_bind; [|intros u Hu|by apply NoDup_nodes].
    + intros u1 u2 [a c] _ _ (? & ? & _)%list_elem_of_fmap (? & ? & _)%list_elem_of_fmap. by simplify_eq.
    + apply NoDup_fmap_2; [by intros ?? [=]|]. apply elem_of_nodes in Hu. destruct (Hd u Hu) as (l & Hl & Hnd & _).
      unfold nexts. by rewrite Hl.
  - intros [u w] (v & (w' & [= -> ->] & Hw)%list_elem_of_fmap & Hv)%list_elem_of_bind. apply elem_of_nodes in Hv.
    apply (elem_of_nexts _ _ Hd Hv) in Hw as (x & Hx & <- & <-). apply list_elem_of_fmap. eauto.
Qed.

Context (r : string → Q) (setXs : coords → string → res coords) (P : list string → coords → Prop).

(** A sweep in the direction in which ranks fall assigns every node after the nodes it depends on. *)
Lemma sweep_ok xs :
  wf b → direction → ¬ isNode b ""%string → (∀ x, x ∈ edges b → isNode b (oth x)) →
  (∀ x, x ∈ edges b → (r (oth x) < r (proj x))%Q) →
  (∀ D xs v, isNode b v → (∀ x, x ∈ edges b → proj x = v → oth x ∈ D) → P D xs → ∃ xs', setXs xs v = Ok xs' ∧ P (v :: D) xs') →
  P [] xs →
  ∃ xs' D, iterate_loop (2 * length (nodes b) + length (edges b)) setXs next [] (reverse (nodes b)) xs = Ok xs' ∧
    P D xs' ∧ ∀ v, isNode b v → v ∈ D.
Proof.
  intros Hwf Hd Hname Hoth Hr Hstep H0.
  destruct (iterate_loop_ok (nodes b) next r setXs P) with (fuel := 2 * length (nodes b) + length (edges b))
    (visited := [] : obj bool) (stack := reverse (nodes b)) (D := [] : list string) (xs := xs) as (xs' & D & Hi & HP & Hall).
  - by apply NoDup_nodes.
  - by rewrite elem_of_nodes.
  - intros v p. rewrite !elem_of_nodes. intros Hv (x & Hx & _ & <-)%elem_of_nexts; auto.
  - intros v p. rewrite elem_of_nodes. intros Hv (x & Hx & <- & <-)%elem_of_nexts; auto.
  - intros D' xs1 v. rewrite elem_of_nodes. intros Hv Hp. apply Hstep; [done|].
    intros x Hx <-. apply Hp, elem_of_nexts; eauto.
  - assert (∀ v, ¬ pending ([] : obj bool) [] v) as Hnone by (intros v [[? [=]] _]).
    split; try done; try (intros; exfalso; by eapply Hnone).
    + intros v. by rewrite elem_of_reverse.
    + intros v p ?%elem_of_nil. done.
    + intros v ?%elem_of_nil. done.
    + intros v Hv. left. by apply elem_of_reverse.
  - unfold work. rewrite length_reverse. pose proof (direction_work Hwf Hd) as Hw.
    assert (unvisited (nodes b) [] = nodes b) as ->
      by (unfold unvisited; clear; induction (nodes b) as [|u l IH]; [done|]; by rewrite filter_cons, decide_True, IH).
    assert (sum_list_with (λ u, S (length (nexts next u))) (nodes b) =
      length (nodes b) + sum_list_with (λ u, length (nexts next u)) (nodes b)) as ->; [|lia].
    clear. induction (nodes b) as [|u l IH]; simpl; lia.
  - exists xs', D. split_and!; [done|done|]. intros v Hv. by apply Hall, elem_of_nodes.
Qed.
End Sweep.
