(* ===== verification/DagreBkCompact.v ===== *)
(** * dagre: horizontal compaction keeps nodes apart

    The block graph has an edge for every pair of neighbours of a layer, labelled with at least
    their separation; both sweeps of [horizontalCompaction] end with coordinates that
    respect all labels. *)
From Stdlib Require Import QArith_base Qminmax Lqa.
Local Close Scope Q_scope.
From S2P Require Import Prelude JsObject Graphlib GraphWf GraphInv GraphQuery GraphView DagreTypes DagreBk DagreBkIter.

(** ** Coordinates *)

Lemma xOf_oset xs v x u : xOf (oset xs v x) u = if decide (v = u) then x else xOf xs u.
Proof. unfold xOf. rewrite oget_oset. by case_decide. Qed.

Section Passes.
Implicit Types (b : blockGraph) (xs : coords) (e x : edgeObj) (D : list string).

(** Every edge has a label. *)
Definition labelled_edges b : Prop := ∀ x, x ∈ edges b → is_Some (edgeOf b x).

Definition separated b xs : Prop := ∀ x, x ∈ edges b →
  ∃ p q s, xOf xs (ev x) = Some p ∧ xOf xs (ew x) = Some q ∧ edgeOf b x = Some s ∧ (p + s <= q)%Q.

Definition max_in b xs (acc : option Q) (es : list edgeObj) : option Q :=
  foldl (λ acc e, a ← acc; x ← xOf xs (ev e); s ← edgeOf b e; Some (Qmax a (x + s)%Q)) acc es.

Lemma max_in_ext b xs xs' acc es :
  (∀ e, e ∈ es → xOf xs' (ev e) = xOf xs (ev e)) → max_in b xs' acc es = max_in b xs acc es.
Proof.
  revert acc. induction es as [|e es IH]; intros acc Hx; [done|]. cbn. rewrite Hx by (by left).
  apply IH. intros ??. apply Hx. by right.
Qed.

Lemma max_in_spec b xs a es :
  (∀ e, e ∈ es → is_Some (xOf xs (ev e)) ∧ is_Some (edgeOf b e)) →
  ∃ m, max_in b xs (Some a) es = Some m ∧ (a <= m)%Q ∧
    ∀ e (x s : Q), e ∈ es → xOf xs (ev e) = Some x → edgeOf b e = Some s → (x + s <= m)%Q.
Proof.
  revert a. induction es as [|e es IH]; intros a Hx.
  { exists a. split_and!; [done|apply Qle_refl|]. by intros ??? ?%elem_of_nil. }
  destruct (Hx e) as [[x Hxe] [s Hse]]; [by left|]. cbn. rewrite Hxe, Hse. cbn.
  destruct (IH (Qmax a (x + s)%Q)) as (m & Hm & Ha & Hall); [intros ??; apply Hx; by right|].
  exists m. split_and!; [done|eapply Qle_trans; [apply Q.le_max_l|exact Ha]|].
  intros e' x' s' [->|He']%elem_of_cons H1 H2; [|by eapply Hall].
  simplify_eq. eapply Qle_trans; [apply Q.le_max_r|exact Ha].
Qed.

(** The state of the first sweep: every assigned node has the least coordinate that its predecessors
    allow. *)
Definition pass1_inv b D xs : Prop := ∀ v, v ∈ D → ∃ es,
  inEdges b v None = Some es ∧ (∀ e, e ∈ es → ev e ∈ D) ∧ xOf xs v = max_in b xs (Some 0%Q) es ∧ is_Some (xOf xs v).

Lemma pass1_step b D xs v :
  wf b → labelled_edges b → isNode b v → (∀ x, x ∈ edges b → ew x = v → ev x ∈ D) → pass1_inv b D xs →
  ∃ xs', pass1 b xs v = Ok xs' ∧ pass1_inv b (v :: D) xs' ∧ ∀ u, is_Some (oget xs' u) → u = v ∨ is_Some (oget xs u).
Proof.
  intros Hwf Hlab Hv Hin I. destruct (inEdges_spec b v Hwf Hv) as (es & Hes & _ & Hel).
  unfold pass1. rewrite Hes. cbn [of_option res_bind]. eexists. split; [done|]. fold (max_in b xs (Some 0%Q) es).
  assert (∀ e, e ∈ es → ev e ∈ D) as HinD by (intros e [??]%Hel; by apply Hin).
  destruct (max_in_spec b xs 0%Q es) as (m & Hm & _).
  { intros e He. split; [|apply Hlab, (proj1 (Hel e) He)]. by destruct (I _ (HinD e He)) as (? & _ & _ & _ & ?). }
  (* nothing changes at the nodes that were assigned before *)
  assert (∀ u, u ∈ D → xOf (oset xs v (max_in b xs (Some 0%Q) es)) u = xOf xs u) as Hsame.
  { intros u Hu. rewrite xOf_oset. case_decide as Heq; [|done]. subst u.
    destruct (I v Hu) as (es' & Hes' & _ & -> & _). congruence. }
  split; [|by intros u; rewrite oget_oset; case_decide; [left|right]].
  intros u [->|Hu]%elem_of_cons.
  - exists es. split_and!; [done|intros e He; right; by apply HinD| |].
    + rewrite xOf_oset, decide_True by done. symmetry. apply max_in_ext. intros e He. by apply Hsame, HinD.
    + rewrite xOf_oset, decide_True by done. by exists m.
  - destruct (I u Hu) as (es' & Hes' & Hp & Hx & Hs). exists es'. rewrite (Hsame u Hu). split_and!; [done| | |done].
    + intros e He. right. by apply Hp.
    + rewrite Hx. symmetry. apply max_in_ext. intros e He. by apply Hsame, Hp.
Qed.

Lemma pass1_separated b D xs :
  wf b → labelled_edges b → (∀ v, isNode b v → v ∈ D) → pass1_inv b D xs →
  separated b xs ∧ ∀ v, isNode b v → is_Some (xOf xs v).
Proof.
  intros Hwf Hlab Hall I. split.
  - intros x Hx. destruct (edges_nodes b x Hwf Hx) as [Hv Hw].
    destruct (I _ (Hall _ Hw)) as (es & Hes & Hp & Hval & [q Hq]). destruct (I _ (Hall _ Hv)) as (_ & _ & _ & _ & [p Hpv]).
    destruct (inEdges_spec b (ew x) Hwf Hw) as (es' & Hes' & _ & Hel). assert (es' = es) as -> by congruence.
    destruct (Hlab x Hx) as [s Hs]. exists p, q, s. split_and!; [done..|].
    destruct (max_in_spec b xs 0%Q es) as (m & Hm & _ & Hge).
    { intros e He. split; [|apply Hlab, (proj1 (Hel e) He)]. by destruct (I _ (Hp e He)) as (? & _ & _ & _ & ?). }
    assert (q = m) as -> by congruence. by apply (Hge x); [apply Hel|..].
  - intros v Hv. by destruct (I v (Hall v Hv)) as (_ & _ & _ & _ & ?).
Qed.

Lemma min_step_spec b xs acc es :
  (∀ e, e ∈ es → is_Some (xOf xs (ew e)) ∧ is_Some (edgeOf b e)) → acc ≠ Some None →
  (foldl (min_step b xs) acc es = None ∧ acc = None ∧ es = []) ∨
  ∃ m, foldl (min_step b xs) acc es = Some (Some m) ∧ (∀ a, acc = Some (Some a) → (m <= a)%Q) ∧
    ∀ e (x s : Q), e ∈ es → xOf xs (ew e) = Some x → edgeOf b e = Some s → (m <= x - s)%Q.
Proof.
  revert acc. induction es as [|e es IH]; intros acc Hx Hacc.
  { destruct acc as [[a|]|]; [right|done|by left]. exists a. split_and!; [done| |by intros ??? ?%elem_of_nil].
    intros ? [= ->]. apply Qle_refl. }
  right. destruct (Hx e) as [[x Hxe] [s Hse]]; [by left|].
  assert (∃ m0, min_step b xs acc e = Some (Some m0) ∧ (∀ a, acc = Some (Some a) → (m0 <= a)%Q) ∧ (m0 <= x - s)%Q) as (m0 & Hm0 & Ha & Hle).
  { unfold min_step. rewrite Hxe, Hse. cbn. destruct acc as [[a|]|]; [|done|].
    - eexists. split_and!; [done| |apply Q.le_min_r]. intros ? [= ->]. apply Q.le_min_l.
    - eexists. split_and!; [done|done|apply Qle_refl]. }
  cbn [foldl]. rewrite Hm0.
  destruct (IH (Some (Some m0))) as [(_ & [=] & _)|(m & Hm & Hma & Hall)]; [intros ??; apply Hx; by right|done|].
  specialize (Hma m0 eq_refl). exists m. split_and!; [done| |].
  - intros a Hacc'. eapply Qle_trans; [exact Hma|]. by apply Ha.
  - intros e' x' s' [->|He']%elem_of_cons H1 H2; [|by eapply Hall]. simplify_eq. by eapply Qle_trans.
Qed.

(** The second sweep only moves nodes to the right, and not beyond what their successors allow. *)
Lemma pass2_step g b bt xs v :
  wf b → (∀ x, x ∈ edges b → ev x ≠ ew x) → isNode b v → is_Some (node g v) →
  separated b xs → (∀ u, isNode b u → is_Some (xOf xs u)) →
  ∃ xs', pass2 g b bt xs v = Ok xs' ∧ separated b xs' ∧ (∀ u, isNode b u → is_Some (xOf xs' u)) ∧
    ∀ u, is_Some (oget xs' u) → u = v ∨ is_Some (oget xs u).
Proof.
  intros Hwf Hirr Hv [l Hl] Hsep Hdef. destruct (outEdges_spec b v Hwf Hv) as (es & Hes & _ & Hel).
  unfold pass2. rewrite Hes. cbn [of_option res_bind].
  destruct (min_step_spec b xs None es) as [(-> & _)|(m & -> & _ & Hm)]; [|done|by exists xs; eauto|].
  { intros e [He _]%Hel. destruct (Hsep e He) as (p & q & s & _ & ? & ? & _). split; by eexists. }
  rewrite Hl. cbn [of_option res_bind]. eexists. split; [done|]. case_decide; [by eauto|].
  destruct (Hdef v Hv) as [x Hx]. rewrite Hx. cbn. split_and!.
  - intros e He. destruct (Hsep e He) as (p & q & s & Hp & Hq & Hs & Hle). rewrite !xOf_oset.
    case_decide as Hev; case_decide as Hew.
    + exfalso. apply (Hirr e He). congruence.
    + assert (x = p) as -> by congruence. assert (m <= q - s)%Q by (apply (Hm e q s); [apply Hel; by split|done..]).
      exists (Qmax p m), q, s. split_and!; [done..|]. assert (Qmax p m <= q - s)%Q; [apply Q.max_lub; lra|lra].
    + assert (x = q) as -> by congruence. exists p, (Qmax q m), s. split_and!; [done..|]. pose proof (Q.le_max_l q m). lra.
    + exists p, q, s. done.
  - intros u Hu. rewrite xOf_oset. case_decide; [by eexists|by apply Hdef].
  - intros u. rewrite oget_oset. case_decide; [by left|by right].
Qed.
End Passes.

(** ** The block graph *)

(** The pairs of neighbours of a list. *)
Definition pairs {A} (l : list A) : list (A * A) := zip l (tail l).

Lemma pairs_snoc {A} (l : list A) v : pairs (l ++ [v]) = pairs l ++ from_option (λ u, [(u, v)]) [] (last l).
Proof.
  unfold pairs. induction l as [|a [|c l] IH]; [done|done|]. cbn [tail app zip zip_with] in *. by rewrite IH.
Qed.

Section Build.
Context (g : layoutGraph) (root : obj string) (sepFn : layoutGraph → string → string → res Q).
Implicit Types (b : blockGraph) (u v : string) (layer seen : list string) (ps : list (string * string)).

(** The block graph after the nodes [seen] and their neighbour pairs [ps]. *)
Record block_inv seen ps b : Prop := {
  bk_digraph : digraph b;
  bk_nodes : ∀ r, isNode b r ↔ ∃ v, v ∈ seen ∧ r = rootOf root v;
  bk_edges : ∀ x, x ∈ edges b → ∃ u v, (u, v) ∈ ps ∧ x = EdgeObj (rootOf root u) (rootOf root v) None;
  bk_labels : labelled_edges b;
  bk_sep : ∀ u v s, (u, v) ∈ ps → sepFn g v u = Ok s → ∃ s',
    elookup b (EdgeObj (rootOf root u) (rootOf root v) None) = Some (Some s') ∧ (s <= s')%Q
}.

Lemma block_new_node seen ps b v :
  block_inv seen ps b → plain (rootOf root v) →
  ∃ b', setNode b (rootOf root v) None = Ok b' ∧ block_inv (seen ++ [v]) ps b'.
Proof.
  intros I Hp. destruct (setNode_ok b (rootOf root v) None (dg_wf _ (bk_digraph _ _ _ I)) Hp) as (b' & Hb & P).
  exists b'. split; [done|]. destruct (sn_options _ _ _ _ P) as (Hd & _). destruct (sn_edges _ _ _ _ P) as (Ho & Hl).
  assert (edges b' = edges b) as He by (unfold edges; by rewrite Ho).
  assert (∀ x, elookup b' x = elookup b x) as Hlook by (intros x; unfold elookup; by rewrite Ho, Hl, Hd).
  split.
  - split; [apply P|rewrite Hd; apply I|]. rewrite He. apply (bk_digraph _ _ _ I).
  - intros r. rewrite (setNode_isNode _ _ _ _ r P), (bk_nodes _ _ _ I). setoid_rewrite elem_of_app.
    setoid_rewrite list_elem_of_singleton. naive_solver.
  - rewrite He. apply I.
  - intros x. rewrite He. intros Hx. unfold edgeOf, edgeById. rewrite Hd, Hl. by apply (bk_labels _ _ _ I).
  - intros u w s Hu Hs. rewrite Hlook. by apply (bk_sep _ _ _ I).
Qed.

Lemma block_new_edge seen ps b u v s :
  block_inv seen ps b → u ∈ seen → v ∈ seen → plain (rootOf root u) → plain (rootOf root v) → sepFn g v u = Ok s →
  ∃ b', setEdge b (rootOf root u) (rootOf root v) (Some (Some (Qmax s (default 0%Q (edge b (rootOf root u) (rootOf root v) None))))) None = Ok b' ∧
    block_inv seen (ps ++ [(u, v)]) b'.
Proof.
  intros I Hu Hv Hpu Hpv Hs. pose proof (bk_digraph _ _ _ I) as Hdg. set (x := EdgeObj (rootOf root u) (rootOf root v) None).
  assert (plain_edge x) as Hx by (by split_and!).
  destruct (setEdge_view_ok b x (Some (Some (Qmax s (default 0%Q (edgeOf b x))))) Hdg Hx) as (b' & Hb & P); [by left|].
  exists b'. split; [done|]. pose proof (λ y, sev_elem _ _ _ _ y (dg_wf _ Hdg) P) as Hel.
  assert (∀ r, isNode b' r ↔ isNode b r) as Hn.
  { intros r. unfold isNode. erewrite sev_nodes_same; [done|exact P|apply (bk_nodes _ _ _ I)..]; eauto. }
  split; [apply P| | | |].
  - intros r. by rewrite Hn, (bk_nodes _ _ _ I).
  - intros y [->|Hy]%Hel; [exists u, v; set_solver|].
    destruct (bk_edges _ _ _ I y Hy) as (u' & v' & ? & ->). exists u', v'. set_solver.
  - intros y Hy. rewrite edgeOf_elookup by (done || apply P). rewrite (sev_edges _ _ _ _ P).
    case_decide; [by eexists|]. apply Hel in Hy as [?|Hy]; [done|]. rewrite <-edgeOf_elookup by (done || apply Hdg).
    by apply (bk_labels _ _ _ I).
  - intros u' v' s' Hin Hs'. rewrite (sev_edges _ _ _ _ P). case_decide as Heq.
    + eexists. split; [done|]. apply elem_of_app in Hin as [Hin|Heq'%list_elem_of_singleton].
      * destruct (bk_sep _ _ _ I u' v' s' Hin Hs') as (m & Hm & Hle). rewrite Heq in Hm.
        rewrite edgeOf_plain, Hm by done. cbn. eapply Qle_trans; [exact Hle|apply Q.le_max_r].
      * injection Heq' as -> ->. assert (s' = s) as -> by congruence. apply Q.le_max_l.
    + apply elem_of_app in Hin as [Hin|Heq'%list_elem_of_singleton]; [by apply (bk_sep _ _ _ I)|].
      injection Heq' as -> ->. done.
Qed.

Hypothesis sep_total : ∀ u v, is_Some (node g u) → is_Some (node g v) → ∃ s, sepFn g v u = Ok s.

Lemma block_layer seen ps b layer :
  (∀ v, v ∈ layer → v ≠ ""%string ∧ plain (rootOf root v) ∧ is_Some (node g v)) → block_inv seen ps b →
  ∃ r, res_fold (block_node g root sepFn) (b, None) layer = Ok r ∧ block_inv (seen ++ layer) (ps ++ pairs layer) r.1.
Proof.
  intros Hok I.
  destruct (res_fold_inv (block_node g root sepFn)
    (λ done (st : blockGraph * option string), st.2 = last done ∧ block_inv (seen ++ done) (ps ++ pairs done) st.1) layer (b, None))
    as (r & Hr & _ & Hi); [by rewrite !app_nil_r| |by eauto].
  intros done v rest [b1 u] Heq [Hu I1]. cbn in Hu, I1. cbn [block_node].
  destruct (Hok v) as (Hv & Hpv & Hlv); [set_solver|].
  destruct (block_new_node _ _ _ v I1 Hpv) as (b2 & -> & I2). cbn [res_bind]. rewrite <-app_assoc in I2.
  rewrite pairs_snoc, last_snoc, (assoc_L _ ps). destruct u as [u|]; rewrite <-Hu; cbn [from_option].
  - assert (u ∈ done) as Hin by (symmetry in Hu; by apply last_Some_elem_of in Hu).
    destruct (Hok u) as (Hne & Hpu & Hlu); [set_solver|]. rewrite decide_False by done.
    destruct (sep_total u v Hlu Hlv) as [s Hs]. rewrite Hs. cbn [res_bind].
    destruct (block_new_edge _ _ _ u v s I2) as (b3 & -> & I3); [set_solver..|done|done|done|]. by eexists.
  - cbn [res_bind]. eexists. split; [done|]. by rewrite app_nil_r.
Qed.

(** All layers. *)
Lemma block_layers (layering : list (list string)) :
  (∀ v, v ∈ concat layering → v ≠ ""%string ∧ plain (rootOf root v) ∧ is_Some (node g v)) →
  ∃ b, res_fold (λ b layer, r <-- res_fold (block_node g root sepFn) (b, None) layer ;; Ok r.1) (newGraph true false false) layering = Ok b ∧
    block_inv (concat layering) (layering ≫= pairs) b.
Proof.
  intros Hok.
  match goal with |- context [res_fold ?f ?s ?l] =>
    destruct (res_fold_inv f (λ done b, block_inv (concat done) (done ≫= pairs) b) l s) as (b & -> & I); [| |by eauto] end.
  - assert (edges (newGraph true false false : blockGraph) = []) as Hnil by done. split.
    + split; [apply newGraph_wf|done|]. rewrite Hnil. by intros x ?%elem_of_nil.
    + intros r. split; [by intros [? [=]]|]. by intros (? & ?%elem_of_nil & _).
    + rewrite Hnil. by intros x ?%elem_of_nil.
    + intros x. rewrite Hnil. by intros ?%elem_of_nil.
    + by intros u v s ?%elem_of_nil.
  - intros done layer rest b Heq I. destruct (block_layer (concat done) (done ≫= pairs) b layer) as (r & -> & I').
    { intros v Hv. apply Hok. rewrite Heq. apply elem_of_concat. exists layer. set_solver. }
    { exact I. }
    cbn [res_bind]. eexists. split; [reflexivity|]. rewrite concat_app, bind_app. cbn. by rewrite !app_nil_r.
Qed.
End Build.

(** ** Compaction *)

(** What an alignment has to provide: roots are nodes of the layering, and some [r] grows along every
    layer, so that the block graph has no cycle. *)
Record compactable (g : layoutGraph) (layering : list (list string)) (a : alignment) (r : string → Q) : Prop := {
  ca_node : ∀ v, v ∈ concat layering → v ≠ ""%string ∧ plain v ∧ is_Some (node g v);
  ca_root : ∀ v, v ∈ concat layering → rootOf (aroot a) v ∈ concat layering ∧ rootOf (aroot a) (rootOf (aroot a) v) = rootOf (aroot a) v;
  ca_cover : ∀ v, v ∈ ovalues (aalign a) ↔ v ∈ concat layering;
  ca_rank : ∀ u v, (u, v) ∈ layering ≫= pairs → (r (rootOf (aroot a) u) < r (rootOf (aroot a) v))%Q
}.

(** Coordinates for exactly the nodes of the layering that keep neighbours apart. *)
Record placed (layering : list (list string)) (apart : string → string → Q → Prop) (xs : coords) : Prop := {
  pl_defined : ∀ v, v ∈ concat layering → is_Some (xOf xs v);
  pl_only : ∀ v, is_Some (oget xs v) → v ∈ concat layering;
  pl_apart : ∀ u v s, (u, v) ∈ layering ≫= pairs → apart u v s →
    ∃ p q, xOf xs u = Some p ∧ xOf xs v = Some q ∧ (p + s <= q)%Q
}.

Lemma pairs_elem {A} (l : list A) u v : (u, v) ∈ pairs l → u ∈ l ∧ v ∈ l.
Proof.
  unfold pairs. intros Hin. split; [by eapply elem_of_zip_l|]. apply elem_of_zip_r in Hin. destruct l; set_solver.
Qed.
Lemma layer_pairs_elem (layering : list (list string)) u v : (u, v) ∈ layering ≫= pairs → u ∈ concat layering ∧ v ∈ concat layering.
Proof.
  intros (layer & [Hu Hv]%pairs_elem & Hl)%list_elem_of_bind. split; apply elem_of_concat; eauto.
Qed.

Section Compact.
Context (g : layoutGraph) (layering : list (list string)) (a : alignment) (r : string → Q) (gl : graphLabel) (reverseSep : bool).
Context (Hca : compactable g layering a r) (Hgl : Graphlib.graph g = Some gl).
Notation sepFn := (sep (nodesep gl) (edgesep gl) reverseSep).
Notation rt := (rootOf (aroot a)).
Notation blocks := (block_inv g (aroot a) sepFn (concat layering) (layering ≫= pairs)).

Lemma sep_total u v : is_Some (node g u) → is_Some (node g v) → ∃ s, sepFn g v u = Ok s.
Proof. intros [lu Hu] [lv Hv]. unfold sep. rewrite Hu, Hv. by eexists. Qed.

Lemma build_ok : ∃ b, buildBlockGraph g layering (aroot a) reverseSep = Ok b ∧ blocks b.
Proof.
  unfold buildBlockGraph. rewrite Hgl. apply block_layers; [apply sep_total|].
  intros v Hv. destruct (ca_node _ _ _ _ Hca v Hv) as (? & _ & ?). split_and!; [done| |done].
  by apply (ca_node _ _ _ _ Hca), (ca_root _ _ _ _ Hca).
Qed.

Lemma blocks_rank b x : blocks b → x ∈ edges b → (r (ev x) < r (ew x))%Q.
Proof. intros I Hx. destruct (bk_edges _ _ _ _ _ _ I x Hx) as (u & v & Hp & ->). by apply (ca_rank _ _ _ _ Hca). Qed.

Lemma blocks_node b v : blocks b → isNode b v → v ∈ concat layering ∧ v ≠ ""%string ∧ is_Some (node g v).
Proof.
  intros I (u & Hu & ->)%(bk_nodes _ _ _ _ _ _ I). destruct (ca_root _ _ _ _ Hca u Hu) as [Hr _].
  by destruct (ca_node _ _ _ _ Hca _ Hr) as (? & _ & ?).
Qed.

Lemma sweeps_ok b :
  blocks b → ∃ xs1 xs, iterate b (pass1 b) (predecessors b) [] = Ok xs1 ∧
    iterate b (pass2 g b (if reverseSep then "borderLeft" else "borderRight")%string) (successors b) xs1 = Ok xs ∧
    separated b xs ∧ (∀ v, isNode b v → is_Some (xOf xs v)) ∧ ∀ v, is_Some (oget xs v) → isNode b v.
Proof.
  intros I. assert (wf b) as Hwf by apply I. assert (¬ isNode b ""%string) as Hname by (intros H; by destruct (blocks_node _ _ I H) as (_ & ? & _)).
  unfold iterate.
  destruct (sweep_ok b (predecessors b) ew ev r (pass1 b) (λ D xs, pass1_inv b D xs ∧ ∀ v, is_Some (oget xs v) → isNode b v) [])
    as (xs1 & D & -> & [H1 Hd1] & Hall); [done|intros v Hv; by apply predecessors_spec|done| | | |by split; [intros ? ?%elem_of_nil|intros ? [? [=]]]|].
  { intros x Hx. by destruct (edges_nodes b x Hwf Hx). }
  { intros x Hx. by apply (blocks_rank b). }
  { intros D xs v Hv Hin [Hi Hd]. destruct (pass1_step b D xs v) as (xs' & Hp & Hi' & Hd'); [done|apply I|done|done|done|].
    exists xs'. split_and!; [done..|]. intros u [->|?]%Hd'; auto. }
  destruct (pass1_separated b D xs1 Hwf (bk_labels _ _ _ _ _ _ I) Hall H1) as [Hs1 Hdef1].
  destruct (sweep_ok b (successors b) ev ew (λ v, - r v)%Q (pass2 g b (if reverseSep then "borderLeft" else "borderRight")%string)
    (λ _ xs, separated b xs ∧ (∀ v, isNode b v → is_Some (xOf xs v)) ∧ ∀ v, is_Some (oget xs v) → isNode b v) xs1)
    as (xs & D2 & Hit & Hfin & _); [done|intros v Hv; by apply successors_spec|done| | | |by split_and!|by exists xs1, xs].
  { intros x Hx. by destruct (edges_nodes b x Hwf Hx). }
  { intros x Hx. pose proof (blocks_rank b x I Hx). lra. }
  intros D' xs v Hv _ (Hs & Hdef & Hd).
  destruct (pass2_step g b (if reverseSep then "borderLeft" else "borderRight")%string xs v) as (xs' & Hp & ? & ? & Hd'); [done| |done| |done|done|].
  - intros x Hx Heq. pose proof (blocks_rank b x I Hx). rewrite Heq in *. lra.
  - by destruct (blocks_node b v I Hv) as (_ & _ & ?).
  - exists xs'. split_and!; [done..|]. intros u [->|?]%Hd'; auto.
Qed.

(** [_.forEach(align, function(v){xs[v]=xs[root[v]]})]. *)
Lemma spread_ok vs xs :
  (∀ v, v ∈ vs → rt (rt v) = rt v) →
  ∀ u, xOf (foldl (λ xs v, oset xs v (xOf xs (rt v))) xs vs) u = if decide (u ∈ vs) then xOf xs (rt u) else xOf xs u.
Proof.
  revert xs. induction vs as [|v vs IH]; intros xs Hr u; cbn [foldl]; [by rewrite decide_False by apply not_elem_of_nil|].
  rewrite IH by (intros ??; apply Hr; by right). rewrite !xOf_oset.
  destruct (decide (u ∈ vs)) as [Hu|Hu].
  - rewrite (decide_True (P := u ∈ v :: vs)) by (by right). case_decide as Heq; [|done]. by rewrite Heq, Hr by (by right).
  - destruct (decide (v = u)) as [->|Hne].
    + by rewrite decide_True by (by left).
    + rewrite decide_False; [done|]. set_solver.
Qed.

Lemma spread_dom (f : coords → string → option Q) vs xs u :
  is_Some (oget (foldl (λ xs v, oset xs v (f xs v)) xs vs) u) → u ∈ vs ∨ is_Some (oget xs u).
Proof.
  revert xs. induction vs as [|v vs IH]; intros xs; cbn [foldl]; [by right|].
  intros [?|Hs]%IH; [left; by right|]. rewrite oget_oset in Hs. case_decide; [subst; left; by left|by right].
Qed.

Lemma horizontalCompaction_ok :
  ∃ xs, horizontalCompaction g layering a reverseSep = Ok xs ∧ placed layering (λ u v s, sepFn g v u = Ok s) xs.
Proof.
  destruct build_ok as (b & Hb & I). destruct (sweeps_ok b I) as (xs1 & xs & H1 & H2 & Hs & Hdef & Hdom).
  unfold horizontalCompaction. rewrite Hb. cbn [res_bind]. rewrite H1. cbn [res_bind]. rewrite H2. cbn [res_bind].
  eexists. split; [done|]. set (xs' := foldl _ _ _).
  assert (∀ v, v ∈ concat layering → xOf xs' v = xOf xs (rt v)) as Hx.
  { intros v Hv. unfold xs'. rewrite spread_ok, decide_True; [done|by apply (ca_cover _ _ _ _ Hca)|].
    intros u Hu%(ca_cover _ _ _ _ Hca). by apply (ca_root _ _ _ _ Hca). }
  assert (∀ v, v ∈ concat layering → isNode b (rt v)) as Hrn by (intros v Hv; apply (bk_nodes _ _ _ _ _ _ I); eauto).
  split.
  - intros v Hv. rewrite Hx by done. auto.
  - intros v [Hv|Hv]%spread_dom; [by apply (ca_cover _ _ _ _ Hca)|]. by apply (blocks_node b v I), Hdom.
  - intros u v s Hp Hsep. destruct (layer_pairs_elem layering u v Hp) as [Hu Hv]. rewrite !Hx by done.
    destruct (bk_sep _ _ _ _ _ _ I u v s Hp Hsep) as (s' & Hl & Hle).
    assert (EdgeObj (rt u) (rt v) None ∈ edges b) as He by (apply elookup_Some; [apply I|by eexists]).
    destruct (Hs _ He) as (p & q & s1 & Hp1 & Hq1 & Hs1 & Hle1). rewrite edgeOf_elookup, Hl in Hs1 by (done || apply I).
    cbn in *. simplify_eq. exists p, q. split_and!; [done..|]. lra.
Qed.
End Compact.
