(* ===== verification/DagreBkAlign.v ===== *)
(** * dagre: vertical alignment builds blocks that can be placed side by side

    [verticalAlignment] joins nodes of adjacent layers into blocks.  Blocks do not cross: there is a
    rank on the roots of the blocks that grows along every layer.  It is built
    layer by layer; the blocks that a layer extends keep their rank, and the ranks of the new ones
    are put in between. *)
From Stdlib Require Import QArith_base Qminmax Lqa Qcanon.
Local Close Scope Q_scope.
Local Close Scope Qc_scope.
From S2P Require Import Prelude JsObject Graphlib GraphWf GraphInv GraphQuery GraphView Lodash LodashSpec.
From S2P Require Import DagreTypes DagreBk DagreBkIter DagreBkCompact.

(** ** Filling an increasing list *)

Lemma between lo (xs : list Q) : (∀ x, x ∈ xs → (lo < x)%Q) → ∃ q, (lo < q)%Q ∧ ∀ x, x ∈ xs → (q < x)%Q.
Proof.
  induction xs as [|x xs IH]; intros Hlo.
  { exists (lo + 1)%Q. split; [lra|]. by intros ? ?%elem_of_nil. }
  destruct IH as (q & Hq & Hall); [intros ??; apply Hlo; by right|]. assert (lo < x)%Q by (apply Hlo; by left).
  exists ((lo + Qmin q x) * (1 # 2))%Q. pose proof (Q.le_min_l q x). pose proof (Q.le_min_r q x).
  assert (lo < Qmin q x)%Q by (apply Q.min_glb_lt; done).
  split; [lra|]. intros y [->|Hy]%elem_of_cons; [lra|]. specialize (Hall y Hy). lra.
Qed.

Lemma fill_above lo (fixed : list (option Q)) :
  (∀ x, x ∈ omap id fixed → (lo < x)%Q) → StronglySorted Qlt (omap id fixed) →
  ∃ qs, Forall2 (λ f q, ∀ x, f = Some x → q = x) fixed qs ∧ StronglySorted Qlt qs ∧ ∀ q, q ∈ qs → (lo < q)%Q.
Proof.
  revert lo. induction fixed as [|[x|] fixed IH]; intros lo Hlo Hs; csimpl in *.
  - exists []. split_and!; [constructor|constructor|by intros ? ?%elem_of_nil].
  - inversion Hs as [|?? Hs' Hx]; subst. rewrite Forall_forall in Hx. assert (lo < x)%Q by (apply Hlo; by left).
    destruct (IH x) as (qs & H1 & H2 & H3); [done..|]. exists (x :: qs). split_and!.
    + constructor; [by intros ? [= ->]|done].
    + constructor; [done|]. by apply Forall_forall.
    + intros q [->|Hq]%elem_of_cons; [done|]. specialize (H3 q Hq). lra.
  - destruct (between lo (omap id fixed)) as (q & Hq & Hall); [done|].
    destruct (IH q) as (qs & H1 & H2 & H3); [done..|]. exists (q :: qs). split_and!.
    + by constructor.
    + constructor; [done|]. by apply Forall_forall.
    + intros q' [->|Hq']%elem_of_cons; [done|]. specialize (H3 q' Hq'). lra.
Qed.

Lemma fill (fixed : list (option Q)) :
  StronglySorted Qlt (omap id fixed) →
  ∃ qs, Forall2 (λ f q, ∀ x, f = Some x → q = x) fixed qs ∧ StronglySorted Qlt qs.
Proof.
  intros Hs. assert (∃ lo, ∀ x, x ∈ omap id fixed → (lo < x)%Q) as [lo Hlo].
  { clear Hs. induction (omap id fixed) as [|x xs [lo IH]]; [exists 0%Q; by intros ? ?%elem_of_nil|].
    exists (Qmin lo (x - 1))%Q. pose proof (Q.le_min_l lo (x - 1)%Q). pose proof (Q.le_min_r lo (x - 1)%Q).
    intros y [->|Hy]%elem_of_cons; [lra|]. specialize (IH y Hy). lra. }
  destruct (fill_above lo fixed Hlo Hs) as (qs & ? & ? & _). eauto.
Qed.

(** ** The tables at the start *)

Section Init.
Implicit Types (layering : list (list string)) (v : string).

Definition va_put (st : alignment * obj nat) (iv : nat * string) : alignment * obj nat :=
  let '(a, pos) := st in let '(i, v) := iv in
  (Alignment (oset (aroot a) v v) (oset (aalign a) v v), oset pos v i).

(** Every node of [vs] is mapped to itself. *)
Definition alone (vs : list string) (o : obj string) : Prop := ∀ v, oget o v = if decide (v ∈ vs) then Some v else None.

(** The state after the nodes of [idx], which pairs them with their positions. *)
Record init_inv (idx : list (nat * string)) (st : alignment * obj nat) : Prop := {
  in_root : alone (idx.*2) (aroot st.1);
  in_align : alone (idx.*2) (aalign st.1);
  in_pos : NoDup (idx.*2) → ∀ i v, (i, v) ∈ idx → oget st.2 v = Some i
}.

Lemma init_put idx st iv : init_inv idx st → init_inv (idx ++ [iv]) (va_put st iv).
Proof.
  destruct st as [a pos], iv as [i v]. intros [H1 H2 H3]. cbn in *. split; cbn.
  - intros u. rewrite oget_oset, fmap_app. cbn. case_decide as Heq; [subst; rewrite decide_True by set_solver; done|].
    rewrite H1. repeat case_decide; set_solver.
  - intros u. rewrite oget_oset, fmap_app. cbn. case_decide as Heq; [subst; rewrite decide_True by set_solver; done|].
    rewrite H2. repeat case_decide; set_solver.
  - rewrite fmap_app. cbn. intros (Hnd & Hdis & _)%NoDup_app j u [Hin|Heq%list_elem_of_singleton]%elem_of_app.
    + rewrite oget_oset_ne; [by apply H3|]. intros ->. apply (Hdis u); [|by left]. apply list_elem_of_fmap. by exists (j, u).
    + simplify_eq. by rewrite oget_oset_eq.
Qed.

Lemma init_puts l idx st : init_inv idx st → init_inv (idx ++ l) (foldl va_put st l).
Proof.
  revert idx st. induction l as [|iv l IH]; intros idx st H; cbn [foldl]; [by rewrite app_nil_r|].
  rewrite cons_middle, (assoc_L _). by apply IH, init_put.
Qed.

Lemma va_init_ok layering : init_inv (layering ≫= imap pair) (va_init layering).
Proof.
  unfold va_init. change (λ (st : alignment * obj nat) (iv : nat * string), _) with va_put.
  assert (∀ idx st, init_inv idx st →
    init_inv (idx ++ (layering ≫= imap pair)) (foldl (λ st (layer : list string), foldl va_put st (imap pair layer)) st layering)) as Hg.
  { induction layering as [|layer rest IH]; intros idx st H; csimpl; [by rewrite app_nil_r|].
    rewrite (assoc_L _). apply IH, init_puts, H. }
  apply (Hg []). split; cbn; [done..|]. by intros _ ?? ?%elem_of_nil.
Qed.

Lemma imap_pair_snd (layer : list string) : (imap pair layer).*2 = layer.
Proof. apply list_eq. intros i. rewrite list_lookup_fmap, list_lookup_imap. by destruct (layer !! i). Qed.

Lemma positions_nodes layering : (layering ≫= imap pair).*2 = concat layering.
Proof. induction layering as [|layer rest IH]; csimpl; [done|]. by rewrite fmap_app, imap_pair_snd, IH. Qed.
End Init.

(** ** One step *)

Section Step.
Context (all : list string).
Implicit Types (a : alignment) (prev tails todo : list string) (v w x : string).

(** The nodes [todo] are alone in their blocks, and the nodes [tails] are the last of theirs: they
    point back to the root. *)
Record align_inv tails todo a : Prop := {
  ai_root : ∀ v x, oget (aroot a) v = Some x → v ∈ all ∧ x ∈ all;
  ai_total : ∀ v, v ∈ all → is_Some (oget (aroot a) v);
  ai_idem : ∀ v x, oget (aroot a) v = Some x → oget (aroot a) x = Some x;
  ai_values : ∀ k v, oget (aalign a) k = Some v → v ∈ all;
  ai_cover : ∀ v, v ∈ all → ∃ k, oget (aalign a) k = Some v;
  ai_tail : ∀ w, w ∈ tails → oget (aalign a) w = oget (aroot a) w;
  ai_todo : ∀ v, v ∈ todo → oget (aroot a) v = Some v ∧ oget (aalign a) v = Some v;
  ai_alone : ∀ v x, oget (aroot a) v = Some x → x ∈ todo → v = x
}.

Lemma align_inv_weaken tails tails' todo todo' a :
  (∀ w, w ∈ tails' → w ∈ tails) → (∀ v, v ∈ todo' → v ∈ todo) → align_inv tails todo a → align_inv tails' todo' a.
Proof. intros Ht Hd []. split; eauto. Qed.

Definition join a v w rw : alignment := Alignment (oset (aroot a) v rw) (oset (oset (aalign a) w v) v rw).

(** Node [v] joins the block of [w]. *)
Lemma join_inv tails tails' todo todo' a v w rw :
  align_inv tails todo a → w ∈ tails → v ∈ todo → w ∉ todo → oget (aroot a) w = Some rw →
  (∀ x, x ∈ tails' → x ≠ w ∧ (x = v ∨ x ∈ tails)) → (∀ x, x ∈ todo' → x ∈ todo ∧ x ≠ v) →
  align_inv tails' todo' (join a v w rw) ∧ rw ≠ v.
Proof.
  intros I Hw Hv Hwt Hr Ht' Hd'. destruct (ai_todo _ _ _ I v Hv) as [Hrv Hav]. destruct (ai_root _ _ _ I _ _ Hr) as [Hwall Hrall].
  destruct (ai_root _ _ _ I _ _ Hrv) as [Hvall _].
  assert (v ≠ w) as Hvw by (by intros ->). assert (rw ≠ v) as Hrwv by (intros ->; apply Hvw; symmetry; by eapply (ai_alone _ _ _ I)).
  pose proof (ai_tail _ _ _ I w Hw) as Htw. rewrite Hr in Htw. split; [|done]. split; cbn.
  - intros u x. rewrite oget_oset. case_decide; [intros [= <-]; by subst|]. apply (ai_root _ _ _ I).
  - intros u Hu. rewrite oget_oset. case_decide; [by eexists|]. by apply (ai_total _ _ _ I).
  - intros u x. rewrite !oget_oset. case_decide.
    + intros [= <-]. rewrite decide_False by done. by eapply (ai_idem _ _ _ I).
    + intros Hu. case_decide; [|by eapply (ai_idem _ _ _ I)]. subst x. exfalso.
      assert (u = v) by (by eapply (ai_alone _ _ _ I)). congruence.
  - intros k u. rewrite !oget_oset. repeat case_decide; [by intros [= <-]..|]. apply (ai_values _ _ _ I).
  - intros u Hu. destruct (ai_cover _ _ _ I u Hu) as [k Hk].
    destruct (decide (k = v)) as [->|Hkv]; [exists w; rewrite oget_oset_ne, oget_oset_eq by done; congruence|].
    destruct (decide (k = w)) as [->|Hkw]; [exists v; rewrite oget_oset_eq; congruence|].
    exists k. by rewrite !oget_oset_ne by done.
  - intros x Hx. destruct (Ht' x Hx) as [Hxw Hx']. rewrite !oget_oset. case_decide as Hxv; [done|].
    rewrite decide_False by done. destruct Hx' as [?|?]; [congruence|]. by apply (ai_tail _ _ _ I).
  - intros x Hx. destruct (Hd' x Hx) as [Hxt Hxv]. rewrite !oget_oset_ne by (congruence || (intros ->; done)). by apply (ai_todo _ _ _ I).
  - intros u x Hu Hx. destruct (Hd' x Hx) as [Hxt Hxv]. rewrite oget_oset in Hu. case_decide.
    + simplify_eq. exfalso. apply Hwt. by rewrite (ai_alone _ _ _ I _ _ Hr Hxt).
    + by eapply (ai_alone _ _ _ I).
Qed.

(** The medians are neighbours. *)
Lemma medians_elem ws w : w ∈ medians ws → w ∈ ws.
Proof. unfold medians. intros (i & _ & Hi)%list_elem_of_omap. by eapply list_elem_of_lookup_2. Qed.

(** At most one of the medians is taken. *)
Lemma picks_spec conflicts pos v st ws :
  (∀ w rw, w ∈ ws → oget (aroot st.1) w = Some rw → rw ≠ v) →
  foldl (va_pick conflicts pos v) st ws = st ∨
  ∃ w p rw, w ∈ ws ∧ oget pos w = Some p ∧ oget (aroot st.1) w = Some rw ∧ (st.2 < Z.of_nat p)%Z ∧
    foldl (va_pick conflicts pos v) st ws = (join st.1 v w rw, Z.of_nat p).
Proof.
  assert (∀ a p rw ws, rw ≠ v → oget (aalign a) v = Some rw → foldl (va_pick conflicts pos v) (a, p) ws = (a, p)) as Hstop.
  { intros a p rw ws' Hne Ha. induction ws' as [|w ws' IH]; [done|]. cbn [foldl va_pick].
    destruct (oget pos w), (oget (aroot a) w); try done. by rewrite bool_decide_eq_false_2 by congruence. }
  destruct st as [a prevIdx]. intros Hne. induction ws as [|w ws IH]; [by left|]. cbn [foldl].
  assert (va_pick conflicts pos v (a, prevIdx) w = (a, prevIdx) ∨ ∃ p rw, oget pos w = Some p ∧ oget (aroot a) w = Some rw ∧
    (prevIdx < Z.of_nat p)%Z ∧ va_pick conflicts pos v (a, prevIdx) w = (join a v w rw, Z.of_nat p)) as Hcase.
  { cbn [va_pick]. destruct (oget pos w) as [p|] eqn:Hp; [|by left]. destruct (oget (aroot a) w) as [rw|] eqn:Hr; [|by left].
    destruct (_ && _ && _) eqn:Hc; [right|by left]. apply andb_true_iff in Hc as [[_ Hlt%bool_decide_eq_true]%andb_true_iff _].
    exists p, rw. by split_and!. }
  destruct Hcase as [->|(p & rw & Hp & Hr & Hlt & ->)].
  - destruct IH as [?|(w' & p & rw & ? & ?)]; [intros ?? ?; apply Hne; by right|by left|right]. exists w', p, rw. set_solver.
  - right. exists w, p, rw. split_and!; [by left|done..|]. cbn in Hne. apply (Hstop _ _ rw); [apply (Hne w); [by left|done]|].
    cbn. by rewrite oget_oset_eq.
Qed.
End Step.

(** ** One layer *)

Lemma StronglySorted_lt {A} (R : relation A) l i j x y :
  StronglySorted R l → i < j → l !! i = Some x → l !! j = Some y → R x y.
Proof.
  revert i j. induction l as [|z l IH]; intros [|i] [|j] Hs Hij Hx Hy; simplify_eq/=; try lia.
  - inversion Hs as [|?? _ Hall]; subst. rewrite Forall_forall in Hall. by eapply Hall, list_elem_of_lookup_2.
  - inversion Hs; subst. apply (IH i j); [done|lia|done..].
Qed.

Lemma StronglySorted_fmap_inv {A B} (f : A → B) (R : relation B) l :
  StronglySorted R (f <$> l) → StronglySorted (λ x y, R (f x) (f y)) l.
Proof.
  induction l as [|x l IH]; csimpl; [constructor|]. intros Hs. inversion Hs as [|?? Hs' Hx]; subst.
  constructor; [by apply IH|]. by rewrite Forall_fmap in Hx.
Qed.

Lemma oget_zip {V} (ks : list string) (vs : list V) k x q :
  NoDup ks → ks !! k = Some x → vs !! k = Some q → oget (zip ks vs) x = Some q.
Proof.
  revert vs k. induction ks as [|y ks IH]; intros [|v vs] [|k] Hnd Hx Hq; simplify_eq/=; [by rewrite decide_True|].
  apply NoDup_cons in Hnd as [Hy Hnd]. rewrite decide_False; [by eapply IH|]. intros ->. by eapply Hy, list_elem_of_lookup_2.
Qed.

Lemma Forall2_fmap_eq {A B} (f : A → B) l k : Forall2 (λ x y, f x = y) l k → f <$> l = k.
Proof. induction 1; csimpl; congruence. Qed.

Lemma Forall2_impl_elem {A B} (P Q : A → B → Prop) l k :
  Forall2 P l k → (∀ x y, x ∈ l → P x y → Q x y) → Forall2 Q l k.
Proof.
  induction 1 as [|x y l k Hxy Hlk IH]; intros HPQ; constructor; [apply HPQ; [by left|done]|].
  apply IH. intros ???. apply HPQ. by right.
Qed.

Section Layer.
Context (all : list string) (conflicts : conflict_table) (pos : obj nat) (neighborFn : string → option (list string)).
Context (prev todo : list string).
Implicit Types (a : alignment) (done layer : list string) (v w x : string) (ps : list (option nat)).

Hypothesis pos_prev : ∀ i w, prev !! i = Some w → oget pos w = Some i.
Hypothesis prev_nodup : NoDup prev.

(** The position in the previous layer of the node that [x] joined. *)
Definition chosen (root : obj string) x (p : option nat) : Prop :=
  match p with
  | Some i => ∃ w, prev !! i = Some w ∧ oget root x = oget root w
  | None => oget root x = Some x
  end.

Definition unused (prevIdx : Z) : list string := drop (Z.to_nat (prevIdx + 1)) prev.

Lemma elem_of_unused p w : w ∈ unused p ↔ ∃ i, prev !! i = Some w ∧ Z.to_nat (p + 1) ≤ i.
Proof.
  unfold unused. rewrite list_elem_of_lookup. setoid_rewrite lookup_drop. split.
  - intros [i Hi]. eexists. split; [exact Hi|lia].
  - intros (i & Hi & Hle). exists (i - Z.to_nat (p + 1)). by replace (Z.to_nat (p + 1) + (i - Z.to_nat (p + 1))) with i by lia.
Qed.

Record layer_inv a0 done rest (st : alignment * Z) ps : Prop := {
  li_idx : (-1 ≤ st.2)%Z;
  li_align : align_inv all (done ++ unused st.2) (rest ++ todo) st.1;
  li_chosen : Forall2 (chosen (aroot st.1)) done ps;
  li_sorted : StronglySorted lt (omap id ps);
  li_bound : ∀ i, i ∈ omap id ps → (Z.of_nat i ≤ st.2)%Z;
  li_others : ∀ u, u ∉ done → oget (aroot st.1) u = oget (aroot a0) u
}.

Lemma chosen_stable root v rw x p : v ∉ prev → x ≠ v → chosen root x p → chosen (oset root v rw) x p.
Proof.
  intros Hv Hx. destruct p as [i|]; cbn; [|by rewrite oget_oset_ne].
  intros (w & Hw & Heq). exists w. split; [done|]. rewrite !oget_oset_ne; [done| |done].
  intros ->. by eapply Hv, list_elem_of_lookup_2.
Qed.

(** The node stays alone. *)
Lemma layer_keep a0 done v rest st ps :
  NoDup (prev ++ done ++ v :: rest ++ todo) → layer_inv a0 done (v :: rest) st ps →
  layer_inv a0 (done ++ [v]) rest st (ps ++ [None]).
Proof.
  intros Hnd [H1 H2 H3 H4 H5 H6]. destruct (ai_todo _ _ _ _ H2 v) as [Hr Ha]; [by left|].
  assert (omap id (ps ++ [None]) = omap id ps) as Hom by (by rewrite omap_app, app_nil_r).
  split; [done| |by apply Forall2_app; [|repeat constructor]|by rewrite Hom|by rewrite Hom|set_solver].
  destruct H2. split; eauto; [|set_solver|set_solver].
  intros w. rewrite !elem_of_app, list_elem_of_singleton. intros [[?| ->]|?]; [|congruence|]; apply ai_tail0; set_solver.
Qed.

(** The node joins the block of [w]. *)
Lemma layer_join a0 done v rest st ps w p rw :
  NoDup (prev ++ done ++ v :: rest ++ todo) → layer_inv a0 done (v :: rest) st ps →
  prev !! p = Some w → oget (aroot st.1) w = Some rw → (st.2 < Z.of_nat p)%Z →
  layer_inv a0 (done ++ [v]) rest (join st.1 v w rw, Z.of_nat p) (ps ++ [Some p]).
Proof.
  intros Hnd [H1 H2 H3 H4 H5 H6] Hw Hr Hlt.
  assert (w ∈ prev) as Hwp by (by eapply list_elem_of_lookup_2).
  assert (∀ u, u ∈ prev → u ∉ done ∧ u ≠ v ∧ u ∉ rest ∧ u ∉ todo) as Hdis.
  { intros u Hu. apply NoDup_app in Hnd as (_ & Hd & _). specialize (Hd u Hu). set_solver. }
  assert (v ∉ done ∧ v ∉ rest ∧ v ∉ todo) as (Hvd & Hvr & Hvt).
  { apply NoDup_app in Hnd as (_ & _ & (_ & Hd & Hv)%NoDup_app). apply NoDup_cons in Hv as [Hv _]. set_solver. }
  assert (omap id (ps ++ [Some p]) = omap id ps ++ [p]) as Hom by (by rewrite omap_app).
  assert (v ∉ prev) as Hvp by (intros Hv; by destruct (Hdis v Hv) as (_ & ? & _)).
  split; cbn.
  - lia.
  - eapply join_inv; [exact H2| |set_solver| |done| |].
    + apply elem_of_app. right. apply elem_of_unused. exists p. split; [done|lia].
    + specialize (Hdis w Hwp). set_solver.
    + intros x. rewrite !elem_of_app, list_elem_of_singleton, !elem_of_unused.
      intros [[Hx| ->]|(i & Hi & Hle)].
      * split; [|by right; left]. intros ->. by destruct (Hdis w Hwp).
      * split; [|by left]. by intros ->.
      * split; [intros ->; pose proof (NoDup_lookup prev i p _ prev_nodup Hi Hw); lia|].
        right. right. exists i. split; [done|lia].
    + intros x Hx. split; [set_solver|]. intros ->. set_solver.
  - apply Forall2_app.
    + eapply Forall2_impl_elem; [exact H3|]. intros x i Hx. apply chosen_stable; [done|]. by intros ->.
    + repeat constructor. exists w. split; [done|]. rewrite oget_oset_eq, oget_oset_ne; [done|]. by intros ->.
  - rewrite Hom. apply StronglySorted_app_2; [|done|repeat constructor].
    intros i j Hi ->%list_elem_of_singleton. specialize (H5 i Hi). lia.
  - intros i. rewrite Hom, elem_of_app, list_elem_of_singleton. intros [Hi| ->]; [specialize (H5 i Hi)|]; lia.
  - intros u Hu. rewrite oget_oset_ne by set_solver. apply H6. set_solver.
Qed.

Lemma va_node_ok a0 done v rest st ps ws :
  NoDup (prev ++ done ++ v :: rest ++ todo) → neighborFn v = Some ws → (∀ w, w ∈ ws → w ∈ prev) →
  layer_inv a0 done (v :: rest) st ps →
  ∃ st' ps', va_node neighborFn conflicts pos st v = Ok st' ∧ layer_inv a0 (done ++ [v]) rest st' ps'.
Proof.
  intros Hnd Hws Hprev I. unfold va_node. rewrite Hws. cbn [of_option res_bind].
  destruct ws as [|w0 ws']; [exists st, (ps ++ [None]); split; [done|by apply layer_keep]|].
  set (ws := w0 :: ws') in *. destruct (picks_spec conflicts pos v st (medians (sortBy ws (by_position pos)))) as [->|(w & p & rw & Hw & Hp & Hr & Hlt & ->)].
  - intros w rw Hw%medians_elem Hr ->. rewrite sortBy_perm in Hw. apply Hprev in Hw.
    assert (w = v) as -> by (eapply (ai_alone _ _ _ _ (li_align _ _ _ _ _ I)); [done|by left]).
    apply NoDup_app in Hnd as (_ & Hd & _). apply (Hd v Hw). set_solver.
  - exists st, (ps ++ [None]). split; [done|by apply layer_keep].
  - apply medians_elem in Hw. rewrite sortBy_perm in Hw. apply Hprev, list_elem_of_lookup in Hw as [i Hi].
    assert (i = p) as -> by (apply pos_prev in Hi; congruence).
    eexists _, (ps ++ [Some p]). split; [done|]. by apply layer_join.
Qed.

Lemma va_layer_ok a0 layer :
  NoDup (prev ++ layer ++ todo) → align_inv all prev (layer ++ todo) a0 →
  (∀ v, v ∈ layer → ∃ ws, neighborFn v = Some ws ∧ ∀ w, w ∈ ws → w ∈ prev) →
  ∃ a ps, va_layer neighborFn conflicts pos a0 layer = Ok a ∧ align_inv all layer todo a ∧
    Forall2 (chosen (aroot a)) layer ps ∧ StronglySorted lt (omap id ps) ∧ ∀ u, u ∉ layer → oget (aroot a) u = oget (aroot a0) u.
Proof.
  intros Hnd Ha Hn. unfold va_layer.
  destruct (res_fold_inv (va_node neighborFn conflicts pos)
    (λ done st, ∃ ps rest, layer = done ++ rest ∧ layer_inv a0 done rest st ps) layer (a0, (-1)%Z)) as (st & -> & ps & rest & Heq & I).
  - exists [], layer. split; [done|]. split; cbn; [lia|done|constructor|constructor|by intros ? ?%elem_of_nil|done].
  - intros done v rest st Heq (ps & rest' & Heq' & I). assert (rest' = v :: rest) as -> by (by simplify_list_eq).
    destruct (Hn v) as (ws & Hws & Hin); [rewrite Heq; set_solver|].
    destruct (va_node_ok a0 done v rest st ps ws) as (st' & ps' & Hv & I'); [|done..|].
    { rewrite Heq in Hnd. by rewrite <-app_assoc in Hnd. }
    exists st'. split; [done|]. exists ps', rest. split; [|done]. by rewrite <-app_assoc.
  - exists st.1, ps. split; [done|]. assert (rest = []) as -> by (apply (f_equal length) in Heq; rewrite length_app in Heq; by apply nil_length_inv; lia).
    destruct I as [H1 H2 H3 H4 H5 H6]. split_and!; [|done..]. eapply align_inv_weaken; [| |exact H2]; [set_solver|done].
Qed.

(** *** Ranks *)

Definition ranks (ρ : string → Q) (root : obj string) layer : Prop :=
  StronglySorted (λ u v, (ρ (rootOf root u) < ρ (rootOf root v))%Q) layer.

Lemma omap_fmap_sorted (fixed : nat → option Q) ps :
  (∀ i, i ∈ omap id ps → is_Some (fixed i)) →
  (∀ i j (x y : Q), i < j → fixed i = Some x → fixed j = Some y → (x < y)%Q) →
  StronglySorted lt (omap id ps) → StronglySorted Qlt (omap id ((λ p, i ← p; fixed i) <$> ps)).
Proof.
  intros Hdef Hmono. induction ps as [|[i|] ps IH]; csimpl in *; [intros; apply SSorted_nil| |auto]. intros Hs.
  inversion Hs as [|?? Hs' Hall]; subst. destruct (Hdef i) as [x Hx]; [by left|]. rewrite Hx. cbn.
  constructor; [apply IH; [intros ??; apply Hdef; by right|done]|]. apply Forall_forall.
  intros y (f & (q & -> & Hq)%list_elem_of_fmap & Hf)%list_elem_of_omap. destruct q as [j|]; [|done]. cbn in Hf.
  apply (Hmono i j); [|done..]. rewrite Forall_forall in Hall. apply Hall, list_elem_of_omap. by exists (Some j).
Qed.

(** The ranks of the previous layer extend to the new one. *)
Lemma ranks_layer ρ root layer ps :
  (∀ w, w ∈ prev → rootOf root w ∉ layer) → NoDup layer →
  ranks ρ root prev → Forall2 (chosen root) layer ps → StronglySorted lt (omap id ps) →
  ∃ ρ', (∀ y, y ∉ layer → ρ' y = ρ y) ∧ ranks ρ' root layer.
Proof.
  intros Hroot Hnd Hr Hch Hs. set (fixed := λ i, w ← prev !! i; Some (ρ (rootOf root w))).
  assert (∀ i, i ∈ omap id ps → is_Some (prev !! i)) as Hdef.
  { intros i (q & Hq & Hid)%list_elem_of_omap. unfold id in Hid. subst q. apply list_elem_of_lookup in Hq as [k Hk].
    destruct (Forall2_lookup_r _ _ _ _ _ Hch Hk) as (x & _ & w & Hw & _). by eexists. }
  destruct (fill ((λ p, i ← p; fixed i) <$> ps)) as (qs & Hf & Hqs).
  { apply omap_fmap_sorted; [|unfold fixed|done].
    - intros i Hi. unfold fixed. destruct (Hdef i Hi) as [w ->]. by eexists.
    - intros i j x y Hij. destruct (prev !! i) as [u|] eqn:Hu, (prev !! j) as [w|] eqn:Hw; try done. intros [= <-] [= <-].
      by eapply (StronglySorted_lt _ prev i j u w Hr). }
  exists (λ y, default (ρ y) (oget (zip layer qs) y)). split.
  { intros y Hy. assert (oget (zip layer qs) y = None) as ->; [|done].
    apply oget_None. intros ([u q] & -> & Hin)%list_elem_of_fmap. by apply elem_of_zip_l in Hin. }
  assert (Forall2 (λ x q, default (ρ (rootOf root x)) (oget (zip layer qs) (rootOf root x)) = q) layer qs) as Hval.
  { rewrite Forall2_fmap_l in Hf. apply Forall2_same_length_lookup. split; [by rewrite (Forall2_length _ _ _ Hch), (Forall2_length _ _ _ Hf)|].
    intros k x q Hx Hq. destruct (Forall2_lookup_l _ _ _ _ _ Hch Hx) as (p & Hp & Hc).
    pose proof (Forall2_lookup_lr _ _ _ _ _ _ Hf Hp Hq) as Hfix. destruct p as [i|]; cbn in Hc, Hfix.
    - destruct Hc as (w & Hw & Heq). assert (rootOf root x = rootOf root w) as -> by (unfold rootOf; by rewrite Heq).
      assert (oget (zip layer qs) (rootOf root w) = None) as ->.
      { apply oget_None. intros ([u q'] & Hu & Hin)%list_elem_of_fmap. apply elem_of_zip_l in Hin. cbn in Hu. subst u.
        eapply Hroot; [by eapply list_elem_of_lookup_2|done]. }
      cbn. symmetry. apply Hfix. unfold fixed. by rewrite Hw.
    - unfold rootOf. rewrite Hc. cbn. by rewrite (oget_zip layer qs k x q). }
  apply (StronglySorted_fmap_inv (λ x, default (ρ (rootOf root x)) (oget (zip layer qs) (rootOf root x)))).
  assert ((λ x, default (ρ (rootOf root x)) (oget (zip layer qs) (rootOf root x))) <$> layer = qs) as ->; [|done].
  by apply Forall2_fmap_eq.
Qed.
End Layer.

(** ** All layers *)

Section Layers.
Context (all : list string) (conflicts : conflict_table) (pos : obj nat) (neighborFn : string → option (list string)).
Implicit Types (layering donel rest : list (list string)) (prev layer : list string).

(** The neighbours of a node are in the layer before it. *)
Fixpoint neighbours_ok prev layering : Prop :=
  match layering with
  | [] => True
  | layer :: rest => (∀ v, v ∈ layer → ∃ ws, neighborFn v = Some ws ∧ ∀ w, w ∈ ws → w ∈ prev) ∧ neighbours_ok layer rest
  end.

Definition positions layering : Prop := ∀ layer i v, layer ∈ layering → layer !! i = Some v → oget pos v = Some i.

Lemma align_root prev todo a v : align_inv all prev todo a → v ∈ all → oget (aroot a) v = Some (rootOf (aroot a) v).
Proof. intros I Hv. unfold rootOf. by destruct (ai_total _ _ _ _ I v Hv) as [x ->]. Qed.

(** A layer keeps its ranks while later layers are aligned. *)
Lemma ranks_kept ρ ρ' root root' layer (new : list string) :
  (∀ v, v ∈ layer → oget root' v = oget root v ∧ rootOf root v ∉ new) → (∀ y, y ∉ new → ρ' y = ρ y) →
  ranks ρ root layer → ranks ρ' root' layer.
Proof.
  intros Hroot Hρ. apply StronglySorted_impl. intros u v Hu Hv.
  destruct (Hroot u Hu) as [Eu Nu], (Hroot v Hv) as [Ev Nv]. unfold rootOf in *. rewrite Eu, Ev.
  by rewrite !Hρ by done.
Qed.

Lemma va_layers_ok rest : ∀ prev donel a ρ,
  align_inv all prev (concat rest) a → prev = [] ∨ prev ∈ donel → NoDup (concat donel ++ concat rest) →
  (∀ v, v ∈ concat donel → v ∈ all) → positions donel → positions rest →
  (∀ layer, layer ∈ donel → ranks ρ (aroot a) layer) → neighbours_ok prev rest →
  ∃ a' ρ', res_fold (va_layer neighborFn conflicts pos) a rest = Ok a' ∧ align_inv all [] [] a' ∧
    ∀ layer, layer ∈ donel ++ rest → ranks ρ' (aroot a') layer.
Proof.
  induction rest as [|layer rest IH]; intros prev donel a ρ I Hprev Hnd Hall Hp1 Hp2 Hr Hn.
  { exists a, ρ. split_and!; [done|eapply align_inv_weaken; [| |exact I]; set_solver|by rewrite app_nil_r]. }
  destruct Hn as [Hn Hn']. simpl in I, Hnd.
  assert (∀ v, v ∈ prev → v ∈ concat donel) as Hpd.
  { intros v Hv. destruct Hprev as [->|Hin]; [by apply elem_of_nil in Hv|]. apply elem_of_concat. eauto. }
  assert (NoDup prev) as Hndp.
  { destruct Hprev as [->|Hin]; [constructor|]. apply list_elem_of_split in Hin as (d1 & d2 & ->).
    rewrite concat_app in Hnd. simpl in Hnd. by apply NoDup_app in Hnd as [(_ & _ & (? & _)%NoDup_app)%NoDup_app _]. }
  apply NoDup_app in Hnd as (Hnd1 & Hdis & Hnd2).
  destruct (va_layer_ok all conflicts pos neighborFn prev (concat rest)) with (a0 := a) (layer := layer)
    as (a1 & ps & Hv & I1 & Hch & Hs & Hsame); [|done| |done|done|].
  { intros i w Hi. destruct Hprev as [->|Hin]; [done|by eapply Hp1]. }
  { apply NoDup_app. split_and!; [done|set_solver|done]. }
  (* no earlier node has its root in the new layer *)
  assert (∀ v, v ∈ concat donel → oget (aroot a1) v = oget (aroot a) v ∧ rootOf (aroot a) v ∉ layer) as Hold.
  { intros v Hvd. specialize (Hdis v Hvd). split; [apply Hsame; set_solver|]. intros Hin.
    assert (v = rootOf (aroot a) v) as Heq.
    { eapply (ai_alone _ _ _ _ I); [eapply align_root; [done|by apply Hall]|]. set_solver. }
    rewrite <-Heq in Hin. set_solver. }
  destruct (ranks_layer prev ρ (aroot a1) layer ps) as (ρ' & Hoff & Hnew); [|by apply NoDup_app in Hnd2 as (? & _)| |done|done|].
  { intros w Hw%Hpd. destruct (Hold w Hw) as [Heq ?]. unfold rootOf in *. by rewrite Heq. }
  { destruct Hprev as [->|Hin]; [constructor|]. eapply (ranks_kept ρ ρ _ _ _ []); [|done|by apply Hr].
    intros v Hv'%Hpd. split; [by apply Hold|by apply not_elem_of_nil]. }
  destruct (IH layer (donel ++ [layer]) a1 ρ') as (a' & ρ'' & Hf & I' & Hrank).
  - done.
  - right. set_solver.
  - rewrite concat_app. simpl. rewrite app_nil_r, <-app_assoc. apply NoDup_app. by split_and!.
  - intros v. rewrite concat_app. simpl. rewrite app_nil_r, elem_of_app. intros [?|Hvl]; [by apply Hall|].
    destruct (ai_todo _ _ _ _ I v) as [Hrv _]; [set_solver|]. by apply (ai_root _ _ _ _ I) in Hrv as [? _].
  - intros l i v [?| ->%list_elem_of_singleton]%elem_of_app; [by eapply Hp1|]. apply Hp2. by left.
  - intros l i v Hl. apply Hp2. by right.
  - intros l [Hl| ->%list_elem_of_singleton]%elem_of_app; [|done]. eapply ranks_kept; [|exact Hoff|by apply Hr].
    intros v Hvl. apply Hold, elem_of_concat. eauto.
  - done.
  - exists a', ρ''. simpl. rewrite Hv. simpl. split_and!; [done..|]. intros l Hl. apply Hrank. set_solver.
Qed.
End Layers.

(** ** The whole alignment *)

Lemma pairs_sorted {A} (R : relation A) l u v : StronglySorted R l → (u, v) ∈ pairs l → R u v.
Proof.
  unfold pairs. induction 1 as [|x l Hs IH Hx]; [by intros ?%elem_of_nil|]. destruct l as [|y l]; [by intros ?%elem_of_nil|].
  cbn. intros [[= -> ->]|Hin]%elem_of_cons; [by apply Forall_cons in Hx as [? _]|]. by apply IH.
Qed.

Lemma verticalAlignment_ok (g : layoutGraph) layering conflicts neighborFn :
  NoDup (concat layering) → neighbours_ok neighborFn [] layering →
  (∀ v, v ∈ concat layering → v ≠ ""%string ∧ plain v ∧ is_Some (node g v)) →
  ∃ a r, verticalAlignment layering conflicts neighborFn = Ok a ∧ compactable g layering a r.
Proof.
  intros Hnd Hn Hlab. unfold verticalAlignment. pose proof (va_init_ok layering) as I0. destruct (va_init layering) as [a0 pos].
  destruct I0 as [H1 H2 H3]. cbn [fst snd] in H1, H2, H3.
  rewrite positions_nodes in H1, H2, H3.
  destruct (va_layers_ok (concat layering) conflicts pos neighborFn layering [] [] a0 (λ _, 0%Q)) as (a & ρ & Ha & I & Hr).
  - split.
    + intros v x. rewrite H1. case_decide; [intros [= <-]; done|done].
    + intros v Hv. rewrite H1, decide_True by done. by eexists.
    + intros v x. rewrite !H1. case_decide; [|done]. intros [= <-]. by rewrite decide_True.
    + intros k v. rewrite H2. case_decide; [by intros [= <-]|done].
    + intros v Hv. exists v. by rewrite H2, decide_True.
    + by intros w ?%elem_of_nil.
    + intros v Hv. by rewrite H1, H2, !decide_True.
    + intros v x. rewrite H1. case_decide; [by intros [= <-]|done].
  - by left.
  - done.
  - by intros v ?%elem_of_nil.
  - by intros l i v ?%elem_of_nil.
  - intros layer i v Hl Hi. apply H3; [done|]. apply list_elem_of_bind. exists layer. split; [|done].
    apply (list_elem_of_lookup_2 _ i). by rewrite list_lookup_imap, Hi.
  - by intros l ?%elem_of_nil.
  - done.
  - exists a, ρ. split; [done|]. split; [done| | |].
    + intros v Hv. pose proof (align_root _ _ _ _ v I Hv) as Hrv. split; [by apply (ai_root _ _ _ _ I) in Hrv as [_ ?]|].
      apply (ai_idem _ _ _ _ I) in Hrv. unfold rootOf at 1. by rewrite Hrv.
    + intros v. rewrite elem_of_ovalues. split; [intros [k Hk]; by eapply (ai_values _ _ _ _ I)|by apply (ai_cover _ _ _ _ I)].
    + intros u v (layer & Hp & Hl)%list_elem_of_bind. eapply (pairs_sorted _ layer u v (Hr layer Hl)). done.
Qed.
