(* ===== verification/DagreBkClaims.v ===== *)
(** * dagre: the x coordinates keep the nodes of a layer apart

    The four alignments of [positionX] all respect the separation of neighbours; so do the
    shifted alignments and their balanced mean. *)
From Stdlib Require Import QArith_base Qminmax Lqa Qcanon Qreduction.
Local Close Scope Q_scope.
Local Close Scope Qc_scope.
From S2P Require Import Prelude JsObject Graphlib GraphWf GraphInv GraphQuery GraphView Lodash LodashSpec.
From S2P Require Import DagreTypes DagreBk DagreLayers DagreBkIter DagreBkCompact DagreBkAlign.

(** ** Order statistics *)

Section Sorted.
Implicit Types (l a b : list Q) (x y s : Q).

Definition count (P : Q → bool) l : nat := length (filter (λ x, P x = true) l).

#[local] Instance count_perm P : Proper ((≡ₚ) ==> (=)) (count P).
Proof. intros l l' Hl. unfold count. by rewrite Hl. Qed.

Lemma count_app P l l' : count P (l ++ l') = count P l + count P l'.
Proof. unfold count. by rewrite filter_app, length_app. Qed.
Lemma count_all P l : (∀ x, x ∈ l → P x = true) → count P l = length l.
Proof.
  intros HP. unfold count. induction l as [|x l IH]; [done|]. rewrite filter_cons, decide_True by (apply HP; by left).
  simpl. rewrite IH; [done|]. intros ??. apply HP. by right.
Qed.
Lemma count_none P l : (∀ x, x ∈ l → P x = false) → count P l = 0.
Proof.
  intros HP. unfold count. induction l as [|x l IH]; [done|]. rewrite filter_cons, decide_False by (rewrite HP; [done|by left]).
  apply IH. intros ??. apply HP. by right.
Qed.
Lemma count_le P l : count P l ≤ length l.
Proof. apply length_filter. Qed.

(** The [k]-th smallest values of two lists are as far apart as the values of the lists. *)
Lemma kth_apart s l l' a b k x y :
  Forall2 (λ x y, (x + s <= y)%Q) l l' → a ≡ₚ l → b ≡ₚ l' → StronglySorted Qle a → StronglySorted Qle b →
  a !! k = Some x → b !! k = Some y → (x + s <= y)%Q.
Proof.
  intros Hl Ha Hb Hsa Hsb Hx Hy. destruct (Qlt_le_dec y (x + s)) as [Hlt|]; [exfalso|done].
  set (below := λ z, negb (Qle_bool x z)). set (upto := λ z, Qle_bool z y).
  assert (count upto l' ≤ count below l) as Hcount.
  { clear -Hl Hlt. induction Hl as [|u v l l' Huv Hl IH]; [done|]. unfold count in *. rewrite !filter_cons.
    destruct (decide (upto v = true)) as [Hv|Hv], (decide (below u = true)) as [Hu|Hu]; simpl; try lia.
    exfalso. apply Hu. unfold below. destruct (Qle_bool x u) eqn:Hxu; [|done]. apply Qle_bool_iff in Hxu, Hv. lra. }
  rewrite <-Ha, <-Hb in Hcount.
  apply list_elem_of_split_length in Hx as (a1 & a2 & -> & Hk1). apply list_elem_of_split_length in Hy as (b1 & b2 & -> & Hk2).
  rewrite !count_app in Hcount. apply StronglySorted_app in Hsa as (Ha12 & _ & Hsa2). apply StronglySorted_app in Hsb as (Hb12 & Hsb1 & Hsb2).
  assert (count below (x :: a2) = 0) as H0.
  { apply count_none. unfold below. intros z Hz. apply negb_false_iff, Qle_bool_iff. apply elem_of_cons in Hz as [->|Hz]; [apply Qle_refl|].
    inversion Hsa2 as [|?? _ Hall]; subst. rewrite Forall_forall in Hall. by apply Hall. }
  assert (count upto (b1 ++ [y]) = S (length b1)) as H1.
  { rewrite count_all; [rewrite length_app; simpl; lia|]. unfold upto. intros z. rewrite elem_of_app, list_elem_of_singleton.
    intros [Hz| ->]; apply Qle_bool_iff; [apply Hb12; [done|by left]|apply Qle_refl]. }
  rewrite count_app in H1. change (y :: b2) with ([y] ++ b2) in Hcount. rewrite count_app in Hcount. pose proof (count_le below a1). lia.
Qed.
End Sorted.

(** ** Coordinates under the maps of [positionX] *)

Section Maps.
Implicit Types (xs : coords) (layering : list (list string)) (R : string → string → Q → Prop).

Lemma xOf_mapValues xs (h : Q → Q) f v :
  (∀ x k, f x k = h <$> x) → xOf (mapValues xs f) v = h <$> xOf xs v.
Proof. intros Hf. unfold xOf. rewrite mapValues_lookup. destruct (oget xs v) as [x|]; [|done]. cbn. by rewrite Hf. Qed.

Lemma mapValues_dom {V W} (o : obj V) (f : V → string → W) v : is_Some (oget (mapValues o f) v) ↔ is_Some (oget o v).
Proof. rewrite mapValues_lookup. by rewrite fmap_is_Some. Qed.

Lemma placed_shift layering R xs f d :
  (∀ x k, f x k = (λ x, x + d)%Q <$> x) → placed layering R xs → placed layering R (mapValues xs f).
Proof.
  intros Hf [H1 H2 H3]. split.
  - intros v Hv. rewrite (xOf_mapValues _ _ _ _ Hf), fmap_is_Some. by apply H1.
  - intros v Hv%mapValues_dom. by apply H2.
  - intros u v s Hp HR. destruct (H3 u v s Hp HR) as (p & q & Hu & Hv & Hle). rewrite !(xOf_mapValues _ _ _ _ Hf), Hu, Hv.
    eexists _, _. split_and!; [done..|]. lra.
Qed.

Lemma pairs_lookup {A} (l : list A) i u v : l !! i = Some u → l !! S i = Some v → (u, v) ∈ pairs l.
Proof.
  intros Hu Hv. apply (list_elem_of_lookup_2 _ i). unfold pairs. apply lookup_zip_Some. split; [done|]. by destruct l.
Qed.
Lemma pairs_inv {A} (l : list A) u v : (u, v) ∈ pairs l → ∃ i, l !! i = Some u ∧ l !! S i = Some v.
Proof.
  intros [i [Hu Hv]%lookup_zip_Some]%list_elem_of_lookup. exists i. split; [done|]. by destruct l.
Qed.

Lemma pairs_reverse {A} (l : list A) u v : (u, v) ∈ pairs l → (v, u) ∈ pairs (reverse l).
Proof.
  intros (i & Hu & Hv)%pairs_inv. pose proof (lookup_lt_Some _ _ _ Hv).
  apply (pairs_lookup _ (length l - S (S i))); apply reverse_lookup_Some; split; try lia; rewrite <-?Hu, <-?Hv; f_equal; lia.
Qed.

Lemma layers_reverse_elem layering v : v ∈ concat (reverse <$> layering) ↔ v ∈ concat layering.
Proof.
  rewrite !elem_of_concat. split.
  - intros (l & Hv & (l' & -> & Hl)%list_elem_of_fmap). rewrite elem_of_reverse in Hv. eauto.
  - intros (l & Hv & Hl). exists (reverse l). split; [by apply elem_of_reverse|]. apply list_elem_of_fmap. eauto.
Qed.
Lemma reverse_layers_elem layering v : v ∈ concat (reverse layering) ↔ v ∈ concat layering.
Proof. rewrite !elem_of_concat. by setoid_rewrite elem_of_reverse. Qed.
Lemma layers_reverse_pairs layering u v : (u, v) ∈ layering ≫= pairs → (v, u) ∈ (reverse <$> layering) ≫= pairs.
Proof.
  intros (l & Hp & Hl)%list_elem_of_bind. apply list_elem_of_bind. exists (reverse l). split; [by apply pairs_reverse|].
  apply list_elem_of_fmap. eauto.
Qed.
Lemma reverse_layers_pairs layering p : p ∈ reverse layering ≫= pairs ↔ p ∈ layering ≫= pairs.
Proof. rewrite !list_elem_of_bind. by setoid_rewrite elem_of_reverse. Qed.

Lemma placed_reverse layering R xs : placed (reverse layering) R xs → placed layering R xs.
Proof.
  intros [H1 H2 H3]. split.
  - intros v Hv. by apply H1, reverse_layers_elem.
  - intros v Hv. by apply reverse_layers_elem, H2.
  - intros u v s Hp. apply H3. by apply reverse_layers_pairs.
Qed.

(** The separation does not depend on the side from which a layer is read. *)
Lemma sep_reverse ns es (g : layoutGraph) u v s :
  sep ns es false g v u = Ok s → ∃ s', sep ns es true g u v = Ok s' ∧ (s' == s)%Q.
Proof.
  unfold sep. destruct (node g v) as [lv|], (node g u) as [lu|]; try done. cbn [of_option res_bind]. intros [= <-].
  eexists. split; [done|]. generalize (width lv / 2)%Q, (width lu / 2)%Q, (label_delta lv), (label_delta lu), (half_sep ns es lv), (half_sep ns es lu).
  intros. lra.
Qed.

Lemma placed_mirror layering ns es g xs f :
  (∀ x k, f x k = Qopp <$> x) →
  placed (reverse <$> layering) (λ u v s, sep ns es true g v u = Ok s) xs →
  placed layering (λ u v s, sep ns es false g v u = Ok s) (mapValues xs f).
Proof.
  intros Hf [H1 H2 H3]. split.
  - intros v Hv. rewrite (xOf_mapValues _ _ _ _ Hf), fmap_is_Some. by apply H1, layers_reverse_elem.
  - intros v Hv%mapValues_dom. by apply layers_reverse_elem, H2.
  - intros u v s Hp HR. destruct (sep_reverse _ _ _ _ _ _ HR) as (s' & HR' & Heq).
    destruct (H3 v u s' (layers_reverse_pairs _ _ _ Hp) HR') as (p & q & Hv & Hu & Hle).
    rewrite !(xOf_mapValues _ _ _ _ Hf), Hu, Hv. eexists _, _. split_and!; [done..|]. lra.
Qed.
End Maps.

(** ** The four corners *)

Section Position.
Context (g : layoutGraph) (gl : graphLabel) (layering : list (list string)).
Implicit Types (xs : coords) (xss : list (string * coords)) (v u : string).

(** Edges lead to the next rank. *)
Definition short_edges : Prop := ∀ x r o, x ∈ edges g → located g (ev x) r o → ∃ o', located g (ew x) (S r) o'.

Context (Hg : layered g) (Hshort : short_edges) (Hgl : Graphlib.graph g = Some gl) (Hlay : layering_of g layering).
Notation apart := (λ u v s, sep (nodesep gl) (edgesep gl) false g v u = Ok s).
Notation spaced := (placed layering apart).

Lemma neighbours_alt (fn : string → option (list string)) prev ls :
  (∀ i layer v, ls !! i = Some layer → v ∈ layer → ∃ ws, fn v = Some ws ∧
     ∀ w, w ∈ ws → w ∈ match i with O => prev | S j => default [] (ls !! j) end) → neighbours_ok fn prev ls.
Proof.
  revert prev. induction ls as [|layer ls IH]; intros prev Hn; [done|]. split; [intros v Hv; by apply (Hn 0 layer)|].
  apply IH. intros i l v Hi Hv. destruct (Hn (S i) l v Hi Hv) as (ws & Hws & Hin). exists ws. split; [done|].
  intros w Hw. specialize (Hin w Hw). destruct i; exact Hin.
Qed.

Lemma layer_elem r layer v : layering !! r = Some layer → v ∈ layer ↔ ∃ o, located g v r o.
Proof.
  intros Hr. rewrite list_elem_of_lookup. split; intros [o Ho]; exists o; [apply Hlay; by eexists|].
  apply Hlay in Ho as (layer' & Hr' & ?). by simplify_eq.
Qed.

(** The neighbours in both directions lie in the adjacent layer. *)
Lemma pred_located v r o ws w : located g v r o → predecessors g v = Some ws → w ∈ ws → ∃ r' o', r = S r' ∧ located g w r' o'.
Proof.
  intros Hv Hws Hw. destruct (predecessors_spec g v (ly_wf _ Hg) (located_node _ _ _ _ Hv)) as (l & Hl & _ & Hin).
  assert (l = ws) as -> by congruence. apply Hin in Hw as (x & Hx & <- & <-).
  destruct (edges_nodes g x (ly_wf _ Hg) Hx) as [Hn _]. destruct (ly_node _ Hg _ Hn) as (_ & r' & o' & Hat).
  destruct (Hshort x r' o' Hx Hat) as [o2 Ho2]. destruct (located_fun _ _ _ _ _ _ Hv Ho2) as [-> _]. eauto.
Qed.
Lemma succ_located v r o ws w : located g v r o → successors g v = Some ws → w ∈ ws → ∃ o', located g w (S r) o'.
Proof.
  intros Hv Hws Hw. destruct (successors_spec g v (ly_wf _ Hg) (located_node _ _ _ _ Hv)) as (l & Hl & _ & Hin).
  assert (l = ws) as -> by congruence. apply Hin in Hw as (x & Hx & <- & <-). by eapply Hshort.
Qed.

Lemma layer_at r v o : located g v r o → ∃ layer, layering !! r = Some layer ∧ v ∈ layer.
Proof. intros (layer & Hr & Ho)%Hlay. exists layer. split; [done|by eapply list_elem_of_lookup_2]. Qed.

(** [rev] reads every layer from either side. *)
Lemma up_neighbours (rev : list string → list string) :
  (∀ l v, v ∈ rev l ↔ v ∈ l) → neighbours_ok (predecessors g) [] (rev <$> layering).
Proof.
  intros Hrev. apply neighbours_alt. intros i layer v (l & -> & Hl)%list_lookup_fmap_Some Hv.
  rewrite Hrev, (layer_elem i l v Hl) in Hv. destruct Hv as [o Ho].
  destruct (predecessors_spec g v (ly_wf _ Hg) (located_node _ _ _ _ Ho)) as (ws & Hws & _). exists ws. split; [done|].
  intros w Hw. destruct (pred_located v i o ws w Ho Hws Hw) as (r' & o' & -> & Hat). simpl.
  destruct (layer_at _ _ _ Hat) as (l' & Hl' & Hin). rewrite list_lookup_fmap, Hl'. by apply Hrev.
Qed.
Lemma down_neighbours (rev : list string → list string) :
  (∀ l v, v ∈ rev l ↔ v ∈ l) → neighbours_ok (successors g) [] (rev <$> reverse layering).
Proof.
  intros Hrev. apply neighbours_alt. intros i layer v (l & -> & [Hl Hi]%reverse_lookup_Some)%list_lookup_fmap_Some Hv.
  rewrite Hrev, (layer_elem _ l v Hl) in Hv. destruct Hv as [o Ho].
  destruct (successors_spec g v (ly_wf _ Hg) (located_node _ _ _ _ Ho)) as (ws & Hws & _). exists ws. split; [done|].
  intros w Hw. destruct (succ_located v _ o ws w Ho Hws Hw) as (o' & Hat). destruct (layer_at _ _ _ Hat) as (l' & Hl' & Hin).
  pose proof (lookup_lt_Some _ _ _ Hl') as Hlt. destruct i as [|i]; [lia|]. rewrite list_lookup_fmap, reverse_lookup by lia.
  replace (length layering - S i) with (S (length layering - S (S i))) by lia. rewrite Hl'. by apply Hrev.
Qed.

Lemma concat_reverse_perm {A} (ls : list (list A)) : concat (reverse <$> ls) ≡ₚ concat ls.
Proof. induction ls as [|l ls IH]; csimpl; [done|]. by rewrite IH, reverse_Permutation. Qed.
Lemma concat_perm {A} (ls ls' : list (list A)) : ls ≡ₚ ls' → concat ls ≡ₚ concat ls'.
Proof. induction 1; simpl; [done|by f_equiv|by rewrite !(assoc_L (++)), (Permutation_app_comm x)|by etrans]. Qed.

Lemma corner_left ls conflicts fn :
  concat ls ≡ₚ concat layering → neighbours_ok fn [] ls →
  ∃ xs, corner g ls conflicts fn false = Ok xs ∧ placed ls apart xs.
Proof.
  intros Hp Hn. destruct (verticalAlignment_ok g ls conflicts fn) as (a & r & Ha & Hca); [|done| |].
  - rewrite Hp. by eapply NoDup_layering.
  - intros v. rewrite Hp, (elem_of_layering g) by done. intros Hv. destruct (ly_node _ Hg v Hv) as [? _]. split_and!; [done|by eapply wf_plain, Hv; apply Hg|by apply node_labelled].
  - destruct (horizontalCompaction_ok g ls a r gl false Hca Hgl) as (xs & Hxs & Hpl).
    unfold corner. rewrite Ha. cbn [res_bind]. rewrite Hxs. by eexists.
Qed.

Lemma corner_right ls conflicts fn :
  concat ls ≡ₚ concat layering → neighbours_ok fn [] (reverse <$> ls) →
  ∃ xs, corner g (reverse <$> ls) conflicts fn true = Ok xs ∧ placed ls apart xs.
Proof.
  intros Hp Hn. destruct (verticalAlignment_ok g (reverse <$> ls) conflicts fn) as (a & r & Ha & Hca); [|done| |].
  - rewrite concat_reverse_perm, Hp. by eapply NoDup_layering.
  - intros v. rewrite concat_reverse_perm, Hp, (elem_of_layering g) by done. intros Hv. destruct (ly_node _ Hg v Hv) as [? _].
    split_and!; [done|by eapply wf_plain, Hv; apply Hg|by apply node_labelled].
  - destruct (horizontalCompaction_ok g (reverse <$> ls) a r gl true Hca Hgl) as (xs & Hxs & Hpl).
    unfold corner. rewrite Ha. cbn [res_bind]. rewrite Hxs. eexists. split; [done|]. by apply placed_mirror.
Qed.

Lemma corners_ok conflicts : ∃ ul ur dl dr,
  corner g layering conflicts (predecessors g) false = Ok ul ∧
  corner g (reverse <$> layering) conflicts (predecessors g) true = Ok ur ∧
  corner g (reverse layering) conflicts (successors g) false = Ok dl ∧
  corner g (reverse <$> reverse layering) conflicts (successors g) true = Ok dr ∧
  spaced ul ∧ spaced ur ∧ spaced dl ∧ spaced dr.
Proof.
  assert (concat (reverse layering) ≡ₚ concat layering) as Hrev by apply concat_perm, reverse_Permutation.
  destruct (corner_left layering conflicts (predecessors g)) as (ul & ? & ?); [done| |].
  { rewrite <-(list_fmap_id layering). by apply up_neighbours. }
  destruct (corner_right layering conflicts (predecessors g)) as (ur & ? & ?); [done|apply up_neighbours; intros; by rewrite elem_of_reverse|].
  destruct (corner_left (reverse layering) conflicts (successors g)) as (dl & ? & ?); [done| |].
  { rewrite <-(list_fmap_id (reverse layering)). by apply down_neighbours. }
  destruct (corner_right (reverse layering) conflicts (successors g)) as (dr & ? & ?); [done|apply down_neighbours; intros; by rewrite elem_of_reverse|].
  exists ul, ur, dl, dr. split_and!; [done..|by apply placed_reverse|by apply placed_reverse].
Qed.

(** ** Shifting and balancing *)

Lemma alignment_width_total xs : spaced xs → ∃ w, alignment_width g xs = Ok w.
Proof.
  intros Hp. unfold alignment_width.
  match goal with |- context [res_fold ?f ?s ?l] => destruct (res_fold_total f s l) as [st ->]; [|by eexists] end.
  intros st v Hv%elem_of_okeys%(pl_only _ _ _ Hp). apply (elem_of_layering g) in Hv; [|done..].
  unfold width_step. destruct (node_labelled g Hg v Hv) as [l ->]. by eexists.
Qed.

Lemma smallest_total xss : (∀ kx, kx ∈ xss → spaced kx.2) → ∃ best, findSmallestWidthAlignment g xss = Ok best.
Proof.
  intros Hp. unfold findSmallestWidthAlignment.
  match goal with |- context [res_fold ?f ?s ?l] => destruct (res_fold_total f s l) as [st ->]; [|by eexists] end.
  intros ws kx Hkx. destruct (alignment_width_total kx.2 (Hp kx Hkx)) as [w ->]. by eexists.
Qed.

Lemma align_one_spaced best kx : spaced kx.2 → (align_one best kx).1 = kx.1 ∧ spaced (align_one best kx).2.
Proof.
  destruct kx as [k xs]. intros Hp. unfold align_one. case_decide; [done|]. set (delta := if decide _ then _ else _). destruct delta as [d|]; [|done].
  destruct (Qeq_bool d 0); [done|]. split; [done|]. apply (placed_shift _ _ _ _ d); [|done]. by intros [x|] k'.
Qed.

Lemma by_value_le (x y : Q) : sval_le (by_value (Some x)) (by_value (Some y)) ↔ (x <= y)%Q.
Proof. cbn. unfold Qcle. cbn. by rewrite !Qred_correct. Qed.

(** The sorted coordinates of a node. *)
Lemma sorted_coords (l : list Q) : ∃ l', sortBy (Some <$> l) by_value = Some <$> l' ∧ l' ≡ₚ l ∧ StronglySorted Qle l'.
Proof.
  pose proof (sortBy_perm by_value (Some <$> l)) as Hp. apply Permutation_map_inv in Hp as (l' & Hl' & Hp).
  exists l'. split_and!; [done|by symmetry|]. pose proof (sortBy_sorted by_value (Some <$> l)) as Hs. rewrite Hl' in Hs.
  apply StronglySorted_fmap_inv in Hs. eapply StronglySorted_impl; [|exact Hs]. intros x y _ _. apply by_value_le.
Qed.

Definition median (l : list (option Q)) : option Q :=
  a ← mjoin (sortBy l by_value !! 1); b ← mjoin (sortBy l by_value !! 2); Some ((a + b) / 2)%Q.

Lemma median_defined (l : list Q) : length l = 4 → is_Some (median (Some <$> l)).
Proof.
  intros Hlen. destruct (sorted_coords l) as (l' & Hs & Hp & _). unfold median. rewrite Hs, !list_lookup_fmap.
  apply Permutation_length in Hp. destruct (lookup_lt_is_Some_2 l' 1) as [a ->]; [lia|]. destruct (lookup_lt_is_Some_2 l' 2) as [b ->]; [lia|].
  by eexists.
Qed.

Lemma median_apart s (l l' : list Q) p q :
  Forall2 (λ x y, (x + s <= y)%Q) l l' → median (Some <$> l) = Some p → median (Some <$> l') = Some q → (p + s <= q)%Q.
Proof.
  intros Hl. destruct (sorted_coords l) as (a & Ha & Hpa & Hsa). destruct (sorted_coords l') as (b & Hb & Hpb & Hsb).
  unfold median. rewrite Ha, Hb, !list_lookup_fmap.
  destruct (a !! 1) as [a1|] eqn:A1, (a !! 2) as [a2|] eqn:A2; try done. intros [= <-].
  destruct (b !! 1) as [b1|] eqn:B1, (b !! 2) as [b2|] eqn:B2; try done. intros [= <-].
  pose proof (kth_apart s l l' a b 1 a1 b1 Hl Hpa Hpb Hsa Hsb A1 B1).
  pose proof (kth_apart s l l' a b 2 a2 b2 Hl Hpa Hpb Hsa Hsb A2 B2).
  unfold Qdiv. change (/ 2)%Q with (1 # 2)%Q. lra.
Qed.

(** The option [align] names one of the corners or is absent. *)
Definition align_ok (align : option string) : Prop :=
  truthy align = true → toLowerCase (default "" align)%string ∈ ["ul"; "ur"; "dl"; "dr"]%string.

Definition four (ul ur dl dr : coords) : list (string * coords) := [("ul", ul); ("ur", ur); ("dl", dl); ("dr", dr)]%string.

(** What [balance] computes for a node: a choice of corner or the median of the four. *)
Lemma balance_one_spec ul ur dl dr al :
  align_ok al → spaced ul → spaced ur → spaced dl → spaced dr →
  ∃ val : string → option Q, (∀ v, balance_one (four ul ur dl dr) al v = Ok (val v)) ∧
    (∀ v, v ∈ concat layering → is_Some (val v)) ∧
    (∀ u v s p q, (u, v) ∈ layering ≫= pairs → apart u v s → val u = Some p → val v = Some q → (p + s <= q)%Q).
Proof.
  intros Hal Hul Hur Hdl Hdr. unfold balance_one. destruct (truthy al) eqn:Ht.
  - specialize (Hal Ht). generalize dependent (toLowerCase (default "" al)%string). intros k Hk.
    assert (∃ xs, oget (four ul ur dl dr) k = Some xs ∧ spaced xs) as (xs & Hx & Hsp).
    { repeat (apply elem_of_cons in Hk as [->|Hk]; [by eexists|]). by apply elem_of_nil in Hk. }
    exists (xOf xs). split_and!; [intros v; by rewrite Hx|by apply Hsp|]. intros u v s p q Hp HR Hu Hv.
    destruct (pl_apart _ _ _ Hsp u v s Hp HR) as (p' & q' & ? & ? & ?). by simplify_eq.
  - exists (λ v, median [xOf ul v; xOf ur v; xOf dl v; xOf dr v]). split_and!; [done| |].
    + intros v Hv. destruct (pl_defined _ _ _ Hul v Hv) as [a ->], (pl_defined _ _ _ Hur v Hv) as [b ->],
        (pl_defined _ _ _ Hdl v Hv) as [c ->], (pl_defined _ _ _ Hdr v Hv) as [d ->]. by apply (median_defined [a; b; c; d]).
    + intros u v s p q Hp HR.
      destruct (pl_apart _ _ _ Hul u v s Hp HR) as (a & a' & -> & -> & ?), (pl_apart _ _ _ Hur u v s Hp HR) as (b & b' & -> & -> & ?),
        (pl_apart _ _ _ Hdl u v s Hp HR) as (c & c' & -> & -> & ?), (pl_apart _ _ _ Hdr u v s Hp HR) as (d & d' & -> & -> & ?).
      apply (median_apart s [a; b; c; d] [a'; b'; c'; d']). by repeat constructor.
Qed.

Lemma balance_ok ul ur dl dr al :
  align_ok al → spaced ul → spaced ur → spaced dl → spaced dr →
  ∃ xs, balance (four ul ur dl dr) al = Ok xs ∧ spaced xs.
Proof.
  intros Hal Hul Hur Hdl Hdr. destruct (balance_one_spec ul ur dl dr al) as (val & Hone & Hdef & Hap); [done..|].
  unfold balance. assert (oget (four ul ur dl dr) "ul"%string = Some ul) as -> by done. cbn [of_option res_bind].
  match goal with |- context [res_fold ?f ?s ?l] =>
    destruct (res_fold_inv f (λ done r, ∀ v, oget r v = if decide (v ∈ done) then Some (val v) else None) l s) as (xs & -> & Hxs) end.
  { intros v. by rewrite decide_False by apply not_elem_of_nil. }
  { intros done v rest r _ Hr. rewrite Hone. cbn [res_bind]. eexists. split; [done|].
    intros u. rewrite oget_oset, Hr. repeat case_decide; set_solver. }
  exists xs. split; [done|].
  assert (∀ v, v ∈ concat layering → xOf xs v = val v) as Hx.
  { intros v Hv. unfold xOf. rewrite Hxs, decide_True; [done|]. apply elem_of_okeys.
    destruct (pl_defined _ _ _ Hul v Hv) as [x Hx]. unfold xOf in Hx. destruct (oget ul v); [by eexists|done]. }
  split.
  - intros v Hv. rewrite Hx by done. auto.
  - intros v [x Hv]. rewrite Hxs in Hv. case_decide as Hin; [|done]. by apply (pl_only _ _ _ Hul), elem_of_okeys.
  - intros u v s Hp HR. destruct (layer_pairs_elem layering u v Hp) as [Hu Hv]. rewrite !Hx by done.
    destruct (Hdef u Hu) as [p Hpu], (Hdef v Hv) as [q Hqv]. exists p, q. eauto.
Qed.

Lemma align_four best ul ur dl dr :
  spaced ul → spaced ur → spaced dl → spaced dr →
  ∃ ul' ur' dl' dr', alignCoordinates (four ul ur dl dr) best = four ul' ur' dl' dr' ∧ spaced ul' ∧ spaced ur' ∧ spaced dl' ∧ spaced dr'.
Proof.
  intros H1 H2 H3 H4. exists (align_one best ("ul"%string, ul)).2, (align_one best ("ur"%string, ur)).2,
    (align_one best ("dl"%string, dl)).2, (align_one best ("dr"%string, dr)).2.
  destruct (align_one_spaced best ("ul"%string, ul) H1) as [E1 ?], (align_one_spaced best ("ur"%string, ur) H2) as [E2 ?],
    (align_one_spaced best ("dl"%string, dl) H3) as [E3 ?], (align_one_spaced best ("dr"%string, dr) H4) as [E4 ?].
  split_and!; [|done..]. unfold alignCoordinates, four. cbn [fmap list_fmap].
  repeat f_equal; by apply injective_projections.
Qed.
End Position.

Lemma balance_owf xss al xs : balance xss al = Ok xs → owf xs.
Proof.
  unfold balance. intros (ul & _ & Hb)%res_bind_Ok.
  assert (∀ vs r0, owf r0 → res_fold (λ r v, x <-- balance_one xss al v ;; Ok (oset r v x)) r0 vs = Ok xs → owf xs) as Hg; [|by eapply (Hg _ []); [apply owf_nil|]].
  clear Hb. induction vs as [|v vs IH]; intros r0 Hr; simpl; [by intros [= <-]|]. intros (r1 & (x & _ & [= <-])%res_bind_Ok & H)%res_bind_Ok.
  eapply IH; [|exact H]. by apply owf_oset.
Qed.

Lemma positionX_owf g xs : positionX g = Ok xs → owf xs.
Proof.
  unfold positionX. intros (m & _ & (l & _ & (c1 & _ & (c2 & _ & (gl & _ & (ul & _ & (ur & _ & (dl & _ & (dr & _ & (b & _ & H)%res_bind_Ok)
    %res_bind_Ok)%res_bind_Ok)%res_bind_Ok)%res_bind_Ok)%res_bind_Ok)%res_bind_Ok)%res_bind_Ok)%res_bind_Ok)%res_bind_Ok. by eapply balance_owf.
Qed.

Lemma positionX_ok g gl :
  layered g → short_edges g → Graphlib.graph g = Some gl → align_ok (align gl) →
  ∃ xs, positionX g = Ok xs ∧ (∀ v, isNode g v ↔ is_Some (oget xs v)) ∧ (∀ v, isNode g v → is_Some (xOf xs v)) ∧
    ∀ u v r o s, located g u r o → located g v r (S o) → sep (nodesep gl) (edgesep gl) false g v u = Ok s →
      ∃ p q, xOf xs u = Some p ∧ xOf xs v = Some q ∧ (p + s <= q)%Q.
Proof.
  intros Hg Hs Hgl Hal. unfold positionX. destruct (buildLayerMatrix_ok g Hg) as (m & layering & -> & Hf & Hlay & _). cbn [res_bind]. rewrite Hf. cbn [res_bind].
  assert (∀ v, v ∈ concat layering ↔ isNode g v) as Hn by (intros v; by apply elem_of_layering).
  destruct (findType1_total g Hg layering) as [c1 ->]; [by intros v ?%Hn|]. cbn [res_bind].
  destruct (findType2_total g Hg layering) as [c2 ->]; [by intros v ?%Hn|]. cbn [res_bind]. rewrite Hgl. cbn [of_option res_bind].
  destruct (corners_ok g gl layering Hg Hs Hgl Hlay (merge_conflicts c1 c2)) as (ul & ur & dl & dr & -> & -> & -> & -> & H1 & H2 & H3 & H4).
  cbn [res_bind]. fold (four ul ur dl dr).
  destruct (smallest_total g gl layering Hg Hlay (four ul ur dl dr)) as [best ->].
  { intros kx. unfold four. rewrite !elem_of_cons, elem_of_nil. naive_solver. }
  cbn [res_bind]. destruct (align_four g gl layering best ul ur dl dr H1 H2 H3 H4) as (ul' & ur' & dl' & dr' & -> & ? & ? & ? & ?).
  destruct (balance_ok g gl layering) with (ul := ul') (ur := ur') (dl := dl') (dr := dr') (al := align gl) as (xs & Hb & Hsp); [done..|]. exists xs. split_and!; [done| | |].
  - intros v. rewrite <-Hn. split; [|apply Hsp]. intros Hv. destruct (pl_defined _ _ _ Hsp v Hv) as [x Hx]. unfold xOf in Hx.
    destruct (oget xs v); [by eexists|done].
  - intros v Hv. by apply Hsp, Hn.
  - intros u v r o s Hu Hv Hse. apply (pl_apart _ _ _ Hsp u v s); [|done].
    apply Hlay in Hu as (layer & Hr & Ho). apply Hlay in Hv as (layer' & Hr' & Ho'). assert (layer' = layer) as -> by congruence.
    apply list_elem_of_bind. exists layer. split; [by eapply pairs_lookup|by eapply list_elem_of_lookup_2].
Qed.

(** C16: on a graph whose nodes have distinct places without gaps and whose edges lead to the next
    rank, [positionX] returns a coordinate for every node and for no other key, and
    neighbours of a layer are at least their separation apart: half of both widths, half of the node or edge
    separation for each, and the shift of labels that are not centred. *)
Theorem positionX_separates g gl :
  layered g → short_edges g → Graphlib.graph g = Some gl → align_ok (align gl) →
  ∃ xs, positionX g = Ok xs ∧ (∀ v, isNode g v ↔ is_Some (oget xs v)) ∧ (∀ v, isNode g v → is_Some (xOf xs v)) ∧
    ∀ u v r o s, located g u r o → located g v r (S o) → sep (nodesep gl) (edgesep gl) false g v u = Ok s →
      ∃ p q, xOf xs u = Some p ∧ xOf xs v = Some q ∧ (p + s <= q)%Q.
Proof. apply positionX_ok. Qed.

Definition short_check (g : layoutGraph) : bool :=
  forallb (λ x, match place g (ev x), place g (ew x) with
                | Some (r, _), Some (r', _) => bool_decide (r' = S r)
                | _, _ => false
                end) (edges g).
Lemma short_check_ok g : short_check g = true → short_edges g.
Proof.
  unfold short_check. rewrite forallb_forall. intros Hc x r o Hx%list_elem_of_In%Hc Hat%located_place. rewrite Hat in Hx.
  destruct (place g (ew x)) as [[r' o']|] eqn:Hw; [|done]. apply bool_decide_eq_true in Hx as ->. exists o'. by apply located_place.
Qed.

(** ** Two layers with a crossing *)

Definition placed_node (w : Q) (r o : Z) : option (option nodeLabel) :=
  Some (Some (NodeLabel w 10 None None (Some r) (Some o) None None None no_more)).
Definition short_edge : option (option edgeLabel) :=
  Some (Some (EdgeLabel 1 1 0%Q 0%Q 10%Q "r" None None None None false None false)).
Definition crossing_label : graphLabel := GraphLabel 50 20 50 "tb" None None None None None no_gmore.
Definition crossing_ops : list (gop graphLabel nodeLabel edgeLabel) :=
  [OpSetGraph (Some crossing_label);
   OpSetNode "a" (placed_node 30 0 0); OpSetNode "b" (placed_node 30 0 1);
   OpSetNode "c" (placed_node 40 1 0); OpSetNode "d" (placed_node 50 1 1); OpSetNode "e" (placed_node 50 1 2);
   OpSetEdge "a" "c" short_edge None; OpSetEdge "a" "e" short_edge None;
   OpSetEdge "b" "d" short_edge None; OpSetEdge "b" "c" short_edge None].
Definition crossing : layoutGraph := build true false false crossing_ops.

Lemma crossing_layered : layered crossing.
Proof.
  apply layered_check_ok; [|vm_compute; reflexivity]. apply build_wf. apply (bool_decide_unpack _). vm_compute. exact I.
Qed.

Lemma positionX_separates_witness :
  ∃ xs, positionX crossing = Ok xs ∧ ∃ p q, xOf xs "d" = Some p ∧ xOf xs "e" = Some q ∧ (p + 100 <= q)%Q.
Proof.
  destruct (positionX_separates crossing crossing_label crossing_layered) as (xs & Hx & _ & _ & Hap).
  - apply short_check_ok. vm_compute. reflexivity.
  - reflexivity.
  - intros [=].
  - exists xs. split; [exact Hx|]. edestruct (Hap "d" "e" 1 1)%string as (p & q & Hp & Hq & Hle);
      [apply located_place; vm_compute; reflexivity..|vm_compute; reflexivity|].
    exists p, q. split; [exact Hp|]. split; [exact Hq|]. lra.
Defined.
