(* ===== verification/DagrePosition.v ===== *)
(** * dagre: positions (lib/position/index.js inside dagre.min.js)

    [position] gives the leaves of the layout graph their coordinates: [positionY] stacks the
    layers, [positionX] of bk.js places the nodes within the layers.  The boxes of two nodes do not
    overlap. *)
From Stdlib Require Import QArith_base Qminmax Lqa Qcanon.
Local Close Scope Q_scope.
Local Close Scope Qc_scope.
From S2P Require Import Prelude JsObject Graphlib GraphWf GraphInv GraphQuery GraphView Lodash LodashSpec.
From S2P Require Import DagreUtil DagreTypes DagreBk DagreLayers DagreBkIter DagreBkCompact DagreBkAlign DagreBkClaims.

Definition set_x (x : option Q) (l : nodeLabel) : nodeLabel := with_xy x (ny l) l.
Definition set_y (y : option Q) (l : nodeLabel) : nodeLabel := with_xy (nx l) y l.

(** ** The pass *)

Section Pass.
Implicit Types (g s : layoutGraph).

(** One layer; [_.max([])] is [undefined]. *)
Definition positionY_layer (rankSep : Q) (st : layoutGraph * option Q) (layer : list string) : res (layoutGraph * option Q) :=
  let '(g, prevY) := st in
  hs <-- res_fold (λ hs v, l <-- of_option (node g v) ;; Ok (hs ++ [Some (height l)])) [] layer ;;
  let maxHeight := qmax hs in
  g <-- res_fold (λ g v, updNode g v (set_y (p ← prevY; h ← maxHeight; Some (p + h / 2)%Q))) g layer ;;
  Ok (g, p ← prevY; h ← maxHeight; Some (p + (h + rankSep))%Q).

Definition positionY g : res layoutGraph :=
  matrix <-- buildLayerMatrix g ;;
  layering <-- full_layers matrix ;;
  gl <-- of_option (Graphlib.graph g) ;;
  st <-- res_fold (positionY_layer (ranksep gl)) (g, Some 0%Q) layering ;;
  Ok st.1.

(** The label objects of [s] are those of [g]: assignments through [s] are seen in [g]. *)
Definition share_labels g s : res layoutGraph :=
  res_fold (λ g v, updNode g v (λ l, default l (node s v))) g (nodes s).

Definition position g : res layoutGraph :=
  s <-- asNonCompoundGraph g ;;
  s <-- positionY s ;;
  xs <-- positionX s ;;
  s <-- res_fold (λ s v, updNode s v (set_x (xOf xs v))) s (okeys xs) ;;
  share_labels g s.
End Pass.

(** ** Maxima of coordinates *)

Lemma qmax_loop (l : list Q) c :
  ∃ M, baseExtremum_from (Some <$> l) id (λ a b, qltb b a) (Some (c, Some c)) = Some (Some M) ∧ (c <= M)%Q ∧ ∀ x, x ∈ l → (x <= M)%Q.
Proof.
  revert c. induction l as [|x l IH]; intros c; csimpl.
  { exists c. split_and!; [done|apply Qle_refl|by intros ? ?%elem_of_nil]. }
  unfold qltb at 2. destruct (Qle_bool x c) eqn:Hx; simpl.
  - apply Qle_bool_iff in Hx. destruct (IH c) as (M & -> & Hc & Hall). exists M. split_and!; [done..|].
    intros y [->|Hy]%elem_of_cons; [lra|by apply Hall].
  - assert (¬ x <= c)%Q as Hlt by (intros H%Qle_bool_iff; congruence). destruct (IH x) as (M & -> & Hc & Hall). exists M. split_and!; [done|lra|].
    intros y [->|Hy]%elem_of_cons; [done|by apply Hall].
Qed.

Lemma qmax_spec (l : list Q) : l ≠ [] → ∃ M, qmax (Some <$> l) = Some M ∧ ∀ x, x ∈ l → (x <= M)%Q.
Proof.
  destruct l as [|c l]; [done|intros _]. unfold qmax, baseExtremum. csimpl. destruct (qmax_loop l c) as (M & -> & Hc & Hall).
  exists M. split; [done|]. intros x [->|Hx]%elem_of_cons; [done|by apply Hall].
Qed.

(** ** Labels that differ in coordinates only *)

Section Relabel.
Implicit Types (g s : layoutGraph) (f : string → nodeLabel → nodeLabel).

(** [f] only assigns coordinates. *)
Definition only_xy f : Prop := ∀ v l, ∃ x y, f v l = with_xy x y l.

Lemma only_xy_located s f s1 v r o : only_xy f → relabelled s f s1 → located s1 v r o ↔ located s v r o.
Proof.
  intros Hf Hr. unfold located. setoid_rewrite (relabelled_node _ _ _ v Hr). split.
  - intros (l & Hl & H1 & H2). destruct (node s v) as [l0|]; [|done]. injection Hl as <-. exists l0.
    destruct (Hf v l0) as (x & y & Heq). rewrite Heq in H1, H2. by split_and!.
  - intros (l & Hl & H1 & H2). rewrite Hl. exists (f v l). destruct (Hf v l) as (x & y & Heq). split; [done|]. rewrite Heq. done.
Qed.

Lemma only_xy_layered s f s1 : only_xy f → relabelled s f s1 → layered s → layered s1.
Proof.
  intros Hf Hr [H1 H2 H3 H4]. pose proof (λ v r o, only_xy_located s f s1 v r o Hf Hr) as Hl. split; [apply Hr|..].
  - intros v Hv%(relabelled_isNode _ _ _ _ Hr). destruct (H2 v Hv) as (? & r & o & ?). split; [done|]. exists r, o. by apply Hl.
  - intros u v r o Hu%Hl Hv%Hl. by eapply H3.
  - intros v r o Hv%Hl. destruct (H4 _ _ _ Hv) as [u Hu]. exists u. by apply Hl.
Qed.

Lemma only_xy_short s f s1 : only_xy f → relabelled s f s1 → short_edges s → short_edges s1.
Proof.
  intros Hf Hr Hs x r o. destruct (relabelled_edges _ _ _ Hr) as (-> & _). rewrite (only_xy_located s f s1 _ _ _ Hf Hr).
  intros Hx Ho. destruct (Hs x r o Hx Ho) as [o' ?]. exists o'. by apply (only_xy_located s f s1).
Qed.

Lemma only_xy_sep s f s1 ns es b u v : only_xy f → relabelled s f s1 → sep ns es b s1 u v = sep ns es b s u v.
Proof.
  intros Hf Hr. unfold sep. rewrite !(relabelled_node _ _ _ _ Hr).
  destruct (node s u) as [lu|]; [|done]. destruct (node s v) as [lv|]; [|done]. cbn [fmap option_fmap option_map of_option res_bind].
  by destruct (Hf u lu) as (? & ? & ->), (Hf v lv) as (? & ? & ->).
Qed.
End Relabel.

(** ** Stacking the layers *)

Section Stack.
Context (s : layoutGraph) (gl : graphLabel) (layering : list (list string)).
Implicit Types (g : layoutGraph) (v u : string) (Y : string → Q) (done : list (list string)) (layer : list string).

(** Every rank below a node is inhabited. *)
Definition no_empty_rank : Prop := ∀ v r o, located s v (S r) o → ∃ u o', located s u r o'.

Lemma inhabited_below : no_empty_rank → ∀ v r' o r, located s v r' o → r ≤ r' → ∃ u o', located s u r o'.
Proof.
  intros Hne v r'. revert v. induction r' as [|r' IH]; intros v o r Hv Hle; [replace r with 0 by lia; eauto|].
  destruct (decide (r = S r')) as [->|]; [eauto|]. destruct (Hne v r' o Hv) as (u & o' & Hu). apply (IH u o'); [done|lia].
Qed.

(** Sizes and separations are not negative. *)
Record sizes_ok : Prop := {
  sz_width : ∀ v l, node s v = Some l → (0 <= width l)%Q;
  sz_height : ∀ v l, node s v = Some l → (0 <= height l)%Q;
  sz_nodesep : (0 <= nodesep gl)%Q;
  sz_edgesep : (0 <= edgesep gl)%Q;
  sz_ranksep : (0 <= ranksep gl)%Q
}.

Context (Hs : layered s) (Hlay : layering_of s layering) (Hsz : sizes_ok) (Hne : ∀ layer, layer ∈ layering → layer ≠ []).

Definition heightOf v : Q := from_option height 0%Q (node s v).

(** Before [vs] have been placed at [Y]. *)
Definition at_height Y (vs : list string) (v : string) (l : nodeLabel) : nodeLabel :=
  if decide (v ∈ vs) then set_y (Some (Y v)) l else l.

Lemma at_height_only_xy Y vs : only_xy (at_height Y vs).
Proof. intros v l. unfold at_height. case_decide; [by eexists _, _|]. exists (nx l), (ny l). by destruct l. Qed.

(** The layers [done] are placed above [bottom], in their order. *)
Record stacked done (st : layoutGraph * option Q) Y (bottom : Q) : Prop := {
  st_graph : relabelled s (at_height Y (concat done)) st.1;
  st_bottom : st.2 = Some bottom;
  st_above : ∀ v, v ∈ concat done → (Y v + heightOf v * (1 # 2) + ranksep gl <= bottom)%Q;
  st_order : ∀ i j l l' u v, i < j → done !! i = Some l → done !! j = Some l' → u ∈ l → v ∈ l' →
    (Y u + heightOf u * (1 # 2) + ranksep gl <= Y v - heightOf v * (1 # 2))%Q
}.

Lemma collect_heights g Y vs layer :
  relabelled s (at_height Y vs) g → (∀ v, v ∈ layer → is_Some (node s v)) →
  res_fold (λ hs v, l <-- of_option (node g v) ;; Ok (hs ++ [Some (height l)])) [] layer = Ok (Some <$> (heightOf <$> layer)).
Proof.
  intros Hr Hl.
  match goal with |- res_fold ?f _ _ = _ => destruct (res_fold_inv f (λ (vs : list string) hs, hs = Some <$> (heightOf <$> vs)) layer []) as (hs & -> & ->); [done| |done] end.
  intros done v rest hs -> ->. destruct (Hl v) as [l Hv]; [set_solver|]. rewrite (relabelled_node _ _ _ v Hr), Hv. cbn [fmap option_fmap option_map of_option res_bind].
  eexists. split; [done|]. rewrite !fmap_app. unfold heightOf at 3. cbn. rewrite Hv. cbn.
  destruct (at_height_only_xy Y vs v l) as (? & ? & ->). done.
Qed.

Lemma stack_layer done layer rest st Y bottom :
  layering = done ++ layer :: rest → stacked done st Y bottom →
  ∃ st' Y' bottom', positionY_layer (ranksep gl) st layer = Ok st' ∧ stacked (done ++ [layer]) st' Y' bottom'.
Proof.
  intros Heq [S1 S2 S3 S4]. destruct st as [g prevY]. cbn in S1, S2. subst prevY.
  assert (∀ v, v ∈ concat (done ++ [layer]) → isNode s v) as Hnode.
  { intros v Hv. apply (elem_of_layering s layering); [done..|]. rewrite Heq, cons_middle, (assoc_L (++)), concat_app. by apply elem_of_app; left. }
  pose proof (NoDup_layering s layering Hlay) as Hnd. rewrite Heq, concat_app in Hnd. simpl in Hnd. apply NoDup_app in Hnd as (_ & Hdis & (Hndl & _)%NoDup_app).
  assert (concat (done ++ [layer]) = concat done ++ layer) as Hcat by (rewrite concat_app; simpl; by rewrite app_nil_r).
  assert (∀ v, v ∈ layer → is_Some (node s v)) as Hlab by (intros v Hv; apply (node_labelled s Hs), Hnode; rewrite Hcat; set_solver).
  unfold positionY_layer. rewrite (collect_heights g Y (concat done) layer S1 Hlab). cbn [res_bind].
  destruct (qmax_spec (heightOf <$> layer)) as (M & -> & HM).
  { intros Hnil%fmap_nil_inv. apply (Hne layer); [rewrite Heq; set_solver|done]. }
  assert (∀ v, v ∈ layer → (heightOf v <= M)%Q) as HM' by (intros v Hv; apply HM, list_elem_of_fmap; eauto).
  assert (∀ v, v ∈ layer → (0 <= heightOf v)%Q) as H0.
  { intros v Hv. destruct (Hlab v Hv) as [l Hl]. unfold heightOf. rewrite Hl. by eapply (sz_height Hsz). }
  cbn [mbind option_bind].
  destruct (updNodes_relabelled s _ g layer (λ _, set_y (Some (bottom + M / 2)%Q)) Hlab Hndl S1) as (g' & -> & Hr').
  cbn [res_bind]. set (Y' := λ v, if decide (v ∈ layer) then (bottom + M / 2)%Q else Y v).
  exists (g', Some (bottom + (M + ranksep gl))%Q), Y', (bottom + (M + ranksep gl))%Q. split; [done|].
  pose proof (sz_ranksep Hsz) as Hrs. assert (M / 2 == M * (1 # 2))%Q as Hhalf by reflexivity.
  assert (∀ v, v ∈ concat done → Y' v = Y v) as Hold.
  { intros v Hv. unfold Y'. rewrite decide_False; [done|]. intros Hl. apply (Hdis v Hv). set_solver. }
  assert (∀ v, v ∈ layer → Y' v = bottom + M / 2)%Q as Hnew by (intros v Hv; unfold Y'; by rewrite decide_True).
  assert (0 <= M)%Q as HM0.
  { destruct layer as [|v layer']; [by destruct (Hne []); [rewrite Heq; set_solver|]|]. pose proof (H0 v ltac:(by left)). pose proof (HM' v ltac:(by left)). lra. }
  split; cbn.
  - eapply relabelled_ext; [|exact Hr']. intros v l _. cbn. unfold at_height. rewrite Hcat. destruct (decide (v ∈ layer)) as [Hl|Hl].
    + rewrite (decide_True (P := v ∈ concat done ++ layer)) by set_solver. rewrite (Hnew v Hl).
      destruct (decide (v ∈ concat done)); [|done]. by destruct l.
    + destruct (decide (v ∈ concat done)) as [Hd|Hd].
      * rewrite decide_True by set_solver. by rewrite (Hold v Hd).
      * rewrite decide_False; [done|]. set_solver.
  - done.
  - intros v. rewrite Hcat, elem_of_app. intros [Hv|Hv].
    + rewrite (Hold v Hv). specialize (S3 v Hv). lra.
    + rewrite (Hnew v Hv), Hhalf. specialize (HM' v Hv). lra.
  - intros i j l l' u v Hij Hi Hj Hu Hv.
    assert (j < length done ∨ j = length done) as [Hjd|Hjd].
    { pose proof (lookup_lt_Some _ _ _ Hj) as Hlt. rewrite length_app in Hlt. simpl in Hlt. lia. }
    + rewrite lookup_app_l in Hi by lia. rewrite lookup_app_l in Hj by lia.
      rewrite !Hold by (apply elem_of_concat; eexists; split; [done|by eapply list_elem_of_lookup_2]). by eapply (S4 i j).
    + subst j. rewrite lookup_app_l in Hi by lia. rewrite list_lookup_middle in Hj by done. injection Hj as <-.
      assert (u ∈ concat done) as Hud by (apply elem_of_concat; eexists; split; [done|by eapply list_elem_of_lookup_2]).
      rewrite (Hold u Hud), (Hnew v Hv), Hhalf. specialize (S3 u Hud). specialize (HM' v Hv). lra.
Qed.

Lemma stack_layers :
  ∃ st Y bottom, res_fold (positionY_layer (ranksep gl)) (s, Some 0%Q) layering = Ok st ∧ stacked layering st Y bottom.
Proof.
  destruct (res_fold_inv (positionY_layer (ranksep gl)) (λ done st, ∃ Y bottom, stacked done st Y bottom) layering (s, Some 0%Q)) as (st & ? & Y & bottom & ?).
  - exists (λ _, 0%Q), 0%Q. split; cbn; [|done|by intros v ?%elem_of_nil|by intros]. apply relabelled_refl; [apply Hs|].
    intros u l. unfold at_height. by rewrite decide_False by apply not_elem_of_nil.
  - intros done layer rest st Heq (Y & bottom & Hst). destruct (stack_layer done layer rest st Y bottom Heq Hst) as (st' & Y' & b' & ? & ?). eauto.
  - by exists st, Y, bottom.
Qed.
End Stack.

(** ** Boxes *)

Record box := Box { left_ : Q; right_ : Q; top_ : Q; bottom_ : Q }.

(** The extent of a node to either side; the box of an off-centre label lies to one side. *)
Definition left_ext (l : nodeLabel) : Q := (width l / 2 - label_delta l)%Q.
Definition right_ext (l : nodeLabel) : Q := (width l / 2 + label_delta l)%Q.
Definition box_of (l : nodeLabel) : option box :=
  x ← nx l; y ← ny l; Some (Box (x - left_ext l) (x + right_ext l) (y - height l * (1 # 2)) (y + height l * (1 # 2)))%Q.

Definition disjoint_boxes (a b : box) : Prop :=
  (right_ a <= left_ b ∨ right_ b <= left_ a ∨ bottom_ a <= top_ b ∨ bottom_ b <= top_ a)%Q.

Lemma ext_nonneg l : (0 <= width l)%Q → (0 <= left_ext l ∧ 0 <= right_ext l)%Q.
Proof.
  intros Hw. unfold left_ext, right_ext, label_delta. assert (width l / 2 == width l * (1 # 2))%Q as H2 by reflexivity.
  assert (- width l / 2 == - (width l * (1 # 2)))%Q as H3 by (unfold Qdiv; change (/ 2)%Q with (1 # 2)%Q; lra).
  destruct (nlabelpos l); [repeat case_bool_decide|]; rewrite ?H3, ?H2; split; lra.
Qed.

Lemma sep_ext ns es g u v lu lv :
  node g u = Some lu → node g v = Some lv →
  ∃ s, sep ns es false g v u = Ok s ∧ (s == right_ext lu + half_sep ns es lu + half_sep ns es lv + left_ext lv)%Q.
Proof.
  intros Hu Hv. unfold sep. rewrite Hu, Hv. cbn [of_option res_bind]. eexists. split; [done|]. unfold left_ext, right_ext.
  generalize (width lv / 2)%Q, (width lu / 2)%Q, (label_delta lv), (label_delta lu), (half_sep ns es lv), (half_sep ns es lu). intros. lra.
Qed.

Section Boxes.
Context (s : layoutGraph) (gl : graphLabel) (Hs : layered s) (Hsz : sizes_ok s gl).
Context (xs : coords).
Hypothesis xs_defined : ∀ v, isNode s v → is_Some (xOf xs v).
Hypothesis xs_apart : ∀ u v r o d, located s u r o → located s v r (S o) → sep (nodesep gl) (edgesep gl) false s v u = Ok d →
  ∃ p q, xOf xs u = Some p ∧ xOf xs v = Some q ∧ (p + d <= q)%Q.

(** Within a layer the right side of a node is left of all nodes after it. *)
Lemma row_apart r o o' u v lu lv p q :
  o < o' → located s u r o → located s v r o' → node s u = Some lu → node s v = Some lv → xOf xs u = Some p → xOf xs v = Some q →
  (p + right_ext lu <= q - left_ext lv)%Q.
Proof.
  intros Hlt Hu. revert v lv q. induction o' as [|o' IH]; intros v lv q Hv Hlu Hlv Hp Hq; [lia|].
  assert (∀ l : nodeLabel, (0 <= half_sep (nodesep gl) (edgesep gl) l)%Q) as Hhs.
  { intros l. pose proof (sz_nodesep _ _ Hsz). pose proof (sz_edgesep _ _ Hsz). unfold half_sep, Qdiv. change (/ 2)%Q with (1 # 2)%Q.
    destruct (is_dummy l); lra. }
  assert (∃ w lw x, located s w r o' ∧ node s w = Some lw ∧ xOf xs w = Some x ∧ (p + right_ext lu <= x + right_ext lw)%Q) as (w & lw & x & Hw & Hlw & Hx & Hle).
  { destruct (decide (o = o')) as [->|Hne]; [exists u, lu, p; split_and!; [done..|apply Qle_refl]|].
    destruct (located_below s v r (S o') o' Hs Hv) as [w Hw]; [lia|]. pose proof (located_node _ _ _ _ Hw) as Hwn.
    destruct (node_labelled s Hs w Hwn) as [lw Hlw]. destruct (xs_defined w Hwn) as [x Hx]. exists w, lw, x. split_and!; [done..|].
    pose proof (IH ltac:(lia) w lw x Hw Hlu Hlw Hp Hx). destruct (ext_nonneg lw (sz_width _ _ Hsz w lw Hlw)). lra. }
  destruct (sep_ext (nodesep gl) (edgesep gl) s w v lw lv Hlw Hlv) as (d & Hd & Heq).
  destruct (xs_apart w v r o' d Hw Hv Hd) as (x' & q' & Hx' & Hq' & Hap). simplify_eq.
  pose proof (Hhs lw). pose proof (Hhs lv). lra.
Qed.
End Boxes.

(** ** No overlap *)

Section NoOverlap.
Implicit Types (g s : layoutGraph) (gl : graphLabel) (v u : string).

Lemma positionY_ok s gl :
  layered s → no_empty_rank s → Graphlib.graph s = Some gl → sizes_ok s gl →
  ∃ s1 Y vs, positionY s = Ok s1 ∧ relabelled s (at_height Y vs) s1 ∧ (∀ v, isNode s v → v ∈ vs) ∧
    ∀ u v r r' o o', r < r' → located s u r o → located s v r' o' →
      (Y u + heightOf s u * (1 # 2) + ranksep gl <= Y v - heightOf s v * (1 # 2))%Q.
Proof.
  intros Hs Hne Hgl Hsz. unfold positionY. destruct (buildLayerMatrix_ok s Hs) as (m & layering & -> & Hf & Hlay & Hrows). cbn [res_bind]. rewrite Hf, Hgl. cbn [of_option res_bind].
  destruct (stack_layers s gl layering Hs Hlay Hsz) as (st & Y & bottom & -> & [S1 _ _ S4]).
  { intros layer [r Hr]%list_elem_of_lookup ->. destruct (Hrows r) as (v & r' & o & Hv & Hle); [by eapply lookup_lt_Some|].
    destruct (inhabited_below s Hne v r' o r Hv Hle) as (u & o' & Hu). apply Hlay in Hu as (l & Hl & Ho). by simplify_eq. }
  cbn [res_bind]. exists st.1, Y, (concat layering). split_and!; [done..| |].
  - intros v Hv. by apply (elem_of_layering s).
  - intros u v r r' o o' Hlt Hu Hv. apply Hlay in Hu as (l & Hl & Hu). apply Hlay in Hv as (l' & Hl' & Hv).
    by apply (S4 r r' l l'); [..|by eapply list_elem_of_lookup_2|by eapply list_elem_of_lookup_2].
Qed.

(** The coordinates of the leaves. *)
Definition coordinates (xs : coords) Y (l : nodeLabel) v : nodeLabel := with_xy (xOf xs v) (Some (Y v)) l.

Lemma position_spec g s gl :
  digraph g → isMultigraph g = true → (∀ x, x ∈ edges g → leaf g (ev x) = true ∧ leaf g (ew x) = true) →
  asNonCompoundGraph g = Ok s → layered s → short_edges s → no_empty_rank s →
  Graphlib.graph g = Some gl → sizes_ok s gl → align_ok (align gl) →
  ∃ g' xs Y, position g = Ok g' ∧ relabelled g (λ v l, if decide (isNode s v) then coordinates xs Y l v else l) g' ∧
    (∀ v, isNode s v → is_Some (xOf xs v)) ∧
    (∀ u v r o d, located s u r o → located s v r (S o) → sep (nodesep gl) (edgesep gl) false s v u = Ok d →
      ∃ p q, xOf xs u = Some p ∧ xOf xs v = Some q ∧ (p + d <= q)%Q) ∧
    ∀ u v r r' o o', r < r' → located s u r o → located s v r' o' →
      (Y u + heightOf s u * (1 # 2) + ranksep gl <= Y v - heightOf s v * (1 # 2))%Q.
Proof.
  intros Hg Hm Hleaf Hflat Hs Hsh Hne Hgl Hsz Hal. destruct (asNonCompoundGraph_ok g Hg Hm Hleaf) as (s' & Hs' & F).
  assert (s' = s) as -> by congruence. destruct (fv_options _ _ F) as (_ & _ & Hgs). rewrite Hgl in Hgs.
  unfold position. rewrite Hflat. cbn [res_bind].
  destruct (positionY_ok s gl Hs Hne Hgs Hsz) as (s1 & Y & vs & -> & R1 & Hvs & HY). cbn [res_bind].
  pose proof (at_height_only_xy Y vs) as Hxy. destruct (relabelled_edges _ _ _ R1) as (_ & _ & Hg1).
  destruct (positionX_ok s1 gl) as (xs & Hx & Hdom & Hdef & Hap);
    [by eapply only_xy_layered|by eapply only_xy_short|congruence|done|]. rewrite Hx. cbn [res_bind].
  assert (∀ v, isNode s1 v ↔ isNode s v) as Hn1 by (intros v; by eapply relabelled_isNode).
  destruct (updNodes_relabelled s1 (λ _ l, l) s1 (okeys xs) (λ v, set_x (xOf xs v))) as (s2 & -> & R2).
  { intros v Hv%elem_of_okeys%Hdom. by eapply (node_labelled s1); [by eapply only_xy_layered|]. }
  { by eapply NoDup_okeys, positionX_owf. }
  { by apply relabelled_refl; [apply R1|]. }
  cbn [res_bind]. unfold share_labels.
  assert (∀ v, isNode s2 v ↔ isNode s v) as Hn2 by (intros v; rewrite (relabelled_isNode _ _ _ _ R2); apply Hn1).
  assert (∀ v, isNode s v → node g v = node s v) as Hgn.
  { intros v Hv. unfold node, isNode in *. rewrite (fv_nodes _ _ F) in *. by destruct (leaf g v); [|destruct Hv]. }
  destruct (updNodes_relabelled g (λ _ l, l) g (nodes s2) (λ v l, default l (node s2 v))) as (g' & -> & R3).
  { intros v Hv%elem_of_nodes%Hn2. rewrite Hgn by done. by apply node_labelled. }
  { apply NoDup_nodes, R2. }
  { by apply relabelled_refl; [apply Hg|]. }
  exists g', xs, Y. split_and!; [done| | | |exact HY].
  - eapply relabelled_ext; [|exact R3]. intros v l Hl. cbn. destruct (decide (isNode s v)) as [Hv|Hv].
    + rewrite decide_True by (by apply elem_of_nodes, Hn2). rewrite (relabelled_node _ _ _ _ R2), (relabelled_node _ _ _ _ R1), <-(Hgn v Hv), Hl. cbn.
      rewrite decide_True by (by apply elem_of_okeys, Hdom, Hn1). unfold at_height. rewrite decide_True by (by apply Hvs). by destruct l.
    + rewrite decide_False; [done|]. by rewrite elem_of_nodes, Hn2.
  - intros v Hv. by apply Hdef, Hn1.
  - intros u v r o d Hu Hv Hd. apply (Hap u v r o d); [by apply (only_xy_located s _ s1 _ _ _ Hxy R1)..|]. by rewrite (only_xy_sep s (at_height Y vs) s1).
Qed.

Lemma position_ok g s gl :
  digraph g → isMultigraph g = true → (∀ x, x ∈ edges g → leaf g (ev x) = true ∧ leaf g (ew x) = true) →
  asNonCompoundGraph g = Ok s → layered s → short_edges s → no_empty_rank s →
  Graphlib.graph g = Some gl → sizes_ok s gl → align_ok (align gl) →
  ∃ g' f, position g = Ok g' ∧ relabelled g f g' ∧ only_xy f ∧
    (∀ v, isNode s v → ∃ l b, node g' v = Some l ∧ box_of l = Some b) ∧
    (∀ u v lu lv a b, isNode s u → isNode s v → u ≠ v →
      node g' u = Some lu → node g' v = Some lv → box_of lu = Some a → box_of lv = Some b → disjoint_boxes a b) ∧
    ∀ u v lu lv a b r r' o o', r < r' → located s u r o → located s v r' o' →
      node g' u = Some lu → node g' v = Some lv → box_of lu = Some a → box_of lv = Some b → (bottom_ a <= top_ b)%Q.
Proof.
  intros Hg Hm Hleaf Hflat Hs Hsh Hne Hgl Hsz Hal.
  destruct (position_spec g s gl) as (g' & xs & Y & Hp & R & Hdef & Hap & HY); [done..|].
  destruct (asNonCompoundGraph_ok g Hg Hm Hleaf) as (s' & Hs' & F). assert (s' = s) as -> by congruence.
  assert (∀ v, isNode s v → ∃ l x, node s v = Some l ∧ xOf xs v = Some x ∧ node g' v = Some (with_xy (Some x) (Some (Y v)) l)) as Hlab.
  { intros v Hv. destruct (node_labelled s Hs v Hv) as [l Hl]. destruct (Hdef v Hv) as [x Hx]. exists l, x. split_and!; [done..|].
    rewrite (relabelled_node _ _ _ v R). assert (node g v = Some l) as ->.
    { unfold node in *. rewrite (fv_nodes _ _ F) in Hl. by destruct (leaf g v). }
    cbn. rewrite decide_True by done. unfold coordinates. by rewrite Hx. }
  exists g', (λ v l, if decide (isNode s v) then coordinates xs Y l v else l). 
  assert (∀ w l, node s w = Some l → heightOf s w = height l) as Hh by (intros w l Hw; unfold heightOf; by rewrite Hw). pose proof (sz_ranksep _ _ Hsz) as Hrs. split_and!; [done|done| | | |].
  - intros v l. case_decide; [by eexists _, _|]. exists (nx l), (ny l). by destruct l.
  - intros v Hv. destruct (Hlab v Hv) as (l & x & _ & _ & ->). by eexists _, _.
  - intros u v lu lv a b Hu Hv Huv. destruct (Hlab u Hu) as (lu0 & p & Hlu & Hp' & ->), (Hlab v Hv) as (lv0 & q & Hlv & Hq & ->).
    intros [= <-] [= <-] [= <-] [= <-]. unfold disjoint_boxes. cbn [left_ right_ top_ bottom_].
    destruct (ly_node _ Hs u Hu) as (_ & r & o & Hru), (ly_node _ Hs v Hv) as (_ & r' & o' & Hrv).
    destruct (decide (r < r')) as [Hlt|Hge]; [|destruct (decide (r' < r)) as [Hlt|Hge']].
    + pose proof (HY u v r r' o o' Hlt Hru Hrv) as Hy. rewrite (Hh u _ Hlu), (Hh v _ Hlv) in Hy. right; right; left. cbn. lra.
    + pose proof (HY v u r' r o' o Hlt Hrv Hru) as Hy. rewrite (Hh u _ Hlu), (Hh v _ Hlv) in Hy. right; right; right. cbn. lra.
    + assert (r' = r) as -> by lia. assert (o ≠ o') as Hoo by (intros ->; apply Huv; by eapply (ly_inj _ Hs)).
      destruct (decide (o < o')) as [Hlt|Hge2].
      * left. exact (row_apart s gl Hs Hsz xs Hdef Hap r o o' u v _ _ p q Hlt Hru Hrv Hlu Hlv Hp' Hq).
      * right; left. exact (row_apart s gl Hs Hsz xs Hdef Hap r o' o v u _ _ q p ltac:(lia) Hrv Hru Hlv Hlu Hq Hp').
  - intros u v lu lv a b r r' o o' Hlt Hru Hrv. destruct (Hlab u (located_node _ _ _ _ Hru)) as (lu0 & p & Hlu & Hp' & ->), (Hlab v (located_node _ _ _ _ Hrv)) as (lv0 & q & Hlv & Hq & ->).
    intros [= <-] [= <-] [= <-] [= <-]. cbn [top_ bottom_]. pose proof (HY u v r r' o o' Hlt Hru Hrv) as Hy. rewrite (Hh u _ Hlu), (Hh v _ Hlv) in Hy. cbn. lra.
Qed.

(** [position] gives every leaf of the layout graph coordinates, changes nothing else, and the boxes of two
    leaves do not overlap.  The box of an edge label that is to be placed beside its dummy node
    lies to that side of the coordinate. *)
Theorem position_no_overlap g s gl :
  digraph g → isMultigraph g = true → (∀ x, x ∈ edges g → leaf g (ev x) = true ∧ leaf g (ew x) = true) →
  asNonCompoundGraph g = Ok s → layered s → short_edges s → no_empty_rank s →
  Graphlib.graph g = Some gl → sizes_ok s gl → align_ok (align gl) →
  ∃ g', position g = Ok g' ∧ edges g' = edges g ∧
    (∀ v l, node g v = Some l → ∃ x y, node g' v = Some (with_xy x y l)) ∧
    (∀ v, isNode s v → ∃ l b, node g' v = Some l ∧ box_of l = Some b) ∧
    ∀ u v lu lv a b, isNode s u → isNode s v → u ≠ v →
      node g' u = Some lu → node g' v = Some lv → box_of lu = Some a → box_of lv = Some b → disjoint_boxes a b.
Proof.
  intros. destruct (position_ok g s gl) as (g' & f & Hp & R & Hf & Hb & Hd & _); [done..|]. exists g'. split_and!; [done|by apply (relabelled_edges _ _ _ R)| |done|done].
  intros v l Hl. rewrite (relabelled_node _ _ _ v R), Hl. destruct (Hf v l) as (x & y & Heq). exists x, y. cbn. by rewrite Heq.
Qed.
End NoOverlap.

(** ** A cluster *)

Definition no_empty_check (s : layoutGraph) : bool :=
  forallb (λ v, match place s v with
                | Some (S r, _) => existsb (λ u, bool_decide (fst <$> place s u = Some r)) (nodes s)
                | _ => true
                end) (nodes s).
Lemma no_empty_check_ok s : no_empty_check s = true → no_empty_rank s.
Proof.
  unfold no_empty_check. rewrite forallb_forall. intros Hc v r o Hv. pose proof (located_node _ _ _ _ Hv) as Hn%elem_of_nodes%list_elem_of_In.
  specialize (Hc v Hn). apply located_place in Hv. rewrite Hv in Hc. apply existsb_exists in Hc as (u & _ & Hu%bool_decide_eq_true).
  destruct (place s u) as [[r' o']|] eqn:Hp; [|done]. injection Hu as ->. exists u, o'. by apply located_place.
Qed.

Definition sizes_check (s : layoutGraph) (gl : graphLabel) : bool :=
  forallb (λ v, match node s v with Some l => Qle_bool 0 (width l) && Qle_bool 0 (height l) | None => true end) (nodes s) &&
  Qle_bool 0 (nodesep gl) && Qle_bool 0 (edgesep gl) && Qle_bool 0 (ranksep gl).
Lemma sizes_check_ok s gl : sizes_check s gl = true → sizes_ok s gl.
Proof.
  unfold sizes_check. rewrite !andb_true_iff, !Qle_bool_iff, forallb_forall. intros [[[Hn H1] H2] H3].
  assert (∀ v l, node s v = Some l → (0 <= width l ∧ 0 <= height l)%Q) as Hboth.
  { intros v l Hl. assert (In v (nodes s)) as Hin.
    { apply list_elem_of_In, elem_of_nodes. unfold node, isNode in *. destruct (oget (nodes_ s) v); [by eexists|done]. }
    specialize (Hn v Hin). rewrite Hl in Hn. by rewrite andb_true_iff, !Qle_bool_iff in Hn. }
  split; [intros; by eapply Hboth..|done|done|done].
Qed.

Definition cluster_ops : list (gop graphLabel nodeLabel edgeLabel) :=
  crossing_ops ++ [OpSetNode "p" (Some (Some (NodeLabel 0 0 None None None None None None None no_more))); OpSetParent "a" (Some "p"%string)].
Definition cluster : layoutGraph := build true true true cluster_ops.
Definition flat_cluster : layoutGraph := match asNonCompoundGraph cluster with Ok s => s | Throw _ => cluster end.

Lemma cluster_digraph : digraph cluster.
Proof.
  split; [apply build_wf; apply (bool_decide_unpack _); vm_compute; exact I|reflexivity|].
  apply Forall_forall. apply (bool_decide_unpack _). vm_compute. exact I.
Qed.

Lemma cluster_leaves : ∀ x, x ∈ edges cluster → leaf cluster (ev x) = true ∧ leaf cluster (ew x) = true.
Proof. apply Forall_forall. apply (bool_decide_unpack _). vm_compute. exact I. Qed.

Lemma flat_cluster_layered : layered flat_cluster.
Proof.
  apply layered_check_ok; [|vm_compute; reflexivity].
  destruct (asNonCompoundGraph_ok cluster cluster_digraph eq_refl cluster_leaves) as (s & Hs & F).
  unfold flat_cluster. rewrite Hs. apply F.
Qed.

Lemma position_no_overlap_witness :
  ∃ g', position cluster = Ok g' ∧ edges g' = edges cluster ∧ length (nodes g') = 6.
Proof.
  destruct (position_no_overlap cluster flat_cluster crossing_label) as (g' & Hp & He & _).
  - exact cluster_digraph.
  - reflexivity.
  - exact cluster_leaves.
  - vm_compute. reflexivity.
  - exact flat_cluster_layered.
  - apply short_check_ok. vm_compute. reflexivity.
  - apply no_empty_check_ok. vm_compute. reflexivity.
  - reflexivity.
  - apply sizes_check_ok. vm_compute. reflexivity.
  - intros [=].
  - exists g'. split; [exact Hp|]. split; [exact He|]. vm_compute in Hp. injection Hp as <-. reflexivity.
Defined.

(** * dagre: ordering and placing a graph without clusters

    The two passes composed as [runLayout] composes them: [order] establishes what [position] needs. *)
From Stdlib Require Import QArith_base.
Local Close Scope Q_scope.
From S2P Require Import Prelude JsObject Graphlib GraphWf GraphInv GraphQuery GraphView Lodash DagreTypes DagreBk DagreUtil DagreCross DagreLayers DagreOrder DagreOrderLayer DagreOrderSweep DagreOrderClaims DagreBkClaims.

Section FlatLayout.
Implicit Types (g s : layoutGraph) (v : string).

(** Edges join adjacent ranks, and no rank between others is empty. *)
Definition short_ranks g : Prop :=
  ∀ x r, x ∈ edges g → movable g (Z.of_nat r) (ev x) → movable g (Z.of_nat (S r)) (ew x).
Definition dense_ranks g : Prop :=
  ∀ v r, isNode g v → movable g (Z.of_nat (S r)) v → ∃ u, isNode g u ∧ movable g (Z.of_nat r) u.

Lemma flat_copy g s v : (∀ v, isNode g v → leaf g v = true) → flat_view g s → node s v = node g v.
Proof.
  intros Hl FV. unfold node. rewrite (fv_nodes _ _ FV). destruct (oget (nodes_ g) v) as [l|] eqn:Hv; [|by destruct (leaf g v)].
  by rewrite Hl by (by eexists).
Qed.

Lemma flat_copy_isNode g s v : (∀ v, isNode g v → leaf g v = true) → flat_view g s → isNode s v ↔ isNode g v.
Proof.
  intros Hl FV. unfold isNode. rewrite (fv_nodes _ _ FV). destruct (oget (nodes_ g) v) as [l|] eqn:Hv; [|by destruct (leaf g v)].
  by rewrite Hl by (by eexists).
Qed.

Lemma flat_copy_located g s v r o : (∀ v, isNode g v → leaf g v = true) → flat_view g s → located s v r o ↔ located g v r o.
Proof. intros Hl FV. unfold located. by rewrite (flat_copy g s v). Qed.

Lemma flat_copy_layered g s : (∀ v, isNode g v → leaf g v = true) → flat_view g s → layered g → layered s.
Proof.
  intros Hl FV H. pose proof (λ v r o, flat_copy_located g s v r o Hl FV) as Hloc. split.
  - apply FV.
  - intros v Hv. apply (flat_copy_isNode g s v Hl FV) in Hv. destruct (ly_node _ H v Hv) as (? & r & o & ?). split; [done|]. exists r, o. by apply Hloc.
  - intros u v r o Hu%Hloc Hv%Hloc. by eapply (ly_inj _ H).
  - intros v r o Hv%Hloc. destruct (ly_dense _ H v r o Hv) as [u Hu]. exists u. by apply Hloc.
Qed.

Lemma ordered_exists g g1 v r : flat_ranked g → ordered g g1 → isNode g v → movable g (Z.of_nat r) v → ∃ o, located g1 v r o.
Proof.
  intros F (φ & Hr & Hok) Hv Hm. destruct (Hok (Z.of_nat r)) as (layer & _ & H2 & H3). assert (v ∈ layer) as [o Ho]%list_elem_of_lookup by (by apply H2).
  exists o. apply (ordered_located g φ g1 v r o F Hr). split_and!; [done..|]. by apply H3.
Qed.

Lemma leaf_reordered g φ g1 v : reordered g φ g1 → (∀ v, isNode g v → leaf g v = true) → isNode g1 v → leaf g1 v = true.
Proof.
  intros Hr Hl Hv. apply (relabelled_isNode _ _ _ v Hr) in Hv as Hvg. specialize (Hl v Hvg). unfold leaf, children in *.
  destruct (relabelled_queries _ _ _ Hr) as (_ & _ & -> & _ & _ & _ & _ & _ & ->). destruct (isCompound g); [done|].
  assert (v ≠ GRAPH_NODE) as Hne by (by destruct (wf_plain _ (rl_wf _ _ _ Hr) v Hv)). rewrite decide_False by done. by rewrite (proj2 (hasNode_true g1 v) Hv).
Qed.

(** What [position] needs of a graph without clusters. *)
Record arranged g gl : Prop := {
  ar_digraph : digraph g;
  ar_multi : isMultigraph g = true;
  ar_leaf : ∀ v, isNode g v → leaf g v = true;
  ar_layered : layered g;
  ar_short : short_edges g;
  ar_full : no_empty_rank g;
  ar_sizes : sizes_ok g gl
}.

(** [order] establishes it. *)
Lemma ordered_arranged g gl g1 :
  flat_ranked g → isMultigraph g = true → short_ranks g → dense_ranks g → sizes_ok g gl → ordered g g1 → arranged g1 gl.
Proof.
  intros F Hm Hsh Hde Hsz Ho. pose proof (ordered_layered g g1 F Ho) as Hlay. pose proof Ho as (φ & Hr & _).
  destruct (relabelled_queries _ _ _ Hr) as (Hm1 & Hd1 & _). destruct (relabelled_edges _ _ _ Hr) as (He1 & _ & _).
  pose proof (λ v r o, ordered_located g φ g1 v r o F Hr) as Hloc. split.
  - split; [apply Hr|rewrite Hd1; apply F|rewrite He1; apply F].
  - congruence.
  - intros v. apply (leaf_reordered g φ g1 v Hr), F.
  - done.
  - intros x r o Hx (Hv & Hmv & _)%Hloc. rewrite He1 in Hx. destruct (edges_nodes g x (dg_wf _ (fr_digraph _ F)) Hx) as [_ Hw].
    exact (ordered_exists g g1 (ew x) (S r) F Ho Hw (Hsh x r Hx Hmv)).
  - intros v r o (Hv & Hmv & _)%Hloc. destruct (Hde v r Hv Hmv) as (u & Hu & Hmu). destruct (ordered_exists g g1 u r F Ho Hu Hmu) as [o' Ho']. by exists u, o'.
  - assert (∀ v l, node g1 v = Some l → ∃ l0, node g v = Some l0 ∧ width l = width l0 ∧ height l = height l0) as Hn.
    { intros v l. rewrite (reordered_node _ _ _ v Hr). intros (l0 & Hl0 & ->)%fmap_Some. eauto. }
    destruct Hsz as [S1 S2 S3 S4 S5]. split; [| |done..]; intros v l (l0 & Hl0 & Hw & Hh)%Hn; rewrite ?Hw, ?Hh; eauto.
Qed.

(** [position] on it. *)
Lemma arranged_position g gl :
  arranged g gl → Graphlib.graph g = Some gl → align_ok (align gl) →
  ∃ g' f, position g = Ok g' ∧ relabelled g f g' ∧ only_xy f ∧ (∀ v, isNode g v → ∃ l b, node g' v = Some l ∧ box_of l = Some b) ∧
    (∀ u v lu lv a b, isNode g u → isNode g v → u ≠ v → node g' u = Some lu → node g' v = Some lv → box_of lu = Some a → box_of lv = Some b → disjoint_boxes a b) ∧
    ∀ u v lu lv a b r r' o o', r < r' → located g u r o → located g v r' o' → node g' u = Some lu → node g' v = Some lv → box_of lu = Some a → box_of lv = Some b → (bottom_ a <= top_ b)%Q.
Proof.
  intros [Hg Hm Hleaf Hlay Hsh Hne Hsz] Hgl Hal.
  assert (∀ x, x ∈ edges g → leaf g (ev x) = true ∧ leaf g (ew x) = true) as Hends by (intros x Hx; destruct (edges_nodes g x (dg_wf _ Hg) Hx); split; by apply Hleaf).
  destruct (asNonCompoundGraph_ok g Hg Hm Hends) as (s & Hs & FV). pose proof (λ v r o, flat_copy_located g s v r o Hleaf FV) as Hloc.
  assert (∀ x, x ∈ edges s → x ∈ edges g) as Hes.
  { intros x Hx. apply elookup_Some; [apply Hg|]. rewrite <-(fv_edges _ _ FV). by apply elookup_Some; [apply FV|]. }
  destruct (position_ok g s gl Hg Hm) as (g' & h & Hp & R & Hh & Hbox & Hdis & Hbel); [done|done|by eapply flat_copy_layered| | |done| |done|].
  - intros x r o Hx Hv%Hloc. destruct (Hsh x r o (Hes x Hx) Hv) as [o' Ho']. exists o'. by apply Hloc.
  - intros v r o Hv%Hloc. destruct (Hne v r o Hv) as (u & o' & Hu). exists u, o'. by apply Hloc.
  - destruct Hsz as [S1 S2 S3 S4 S5]. split; [| |done..]; intros v l; rewrite (flat_copy g s v Hleaf FV); eauto.
  - assert (∀ v, isNode s v ↔ isNode g v) as Hns by (intros v; apply (flat_copy_isNode g s v Hleaf FV)).
    exists g', h. split_and!; [done|done|done|intros v Hv; by apply Hbox, Hns|intros u v lu lv a b Hu Hv; by apply Hdis; apply Hns|].
    intros u v lu lv a b r r' o o' Hlt Hu%Hloc Hv%Hloc. by eapply Hbel.
Qed.

(** The passes move nodes: they assign [order], [x] and [y]. *)
Definition moves (f : string → nodeLabel → nodeLabel) : Prop := ∀ u l, ∃ o x y, f u l = with_xy x y (set_order o l).

Lemma relabelled_trans g f g1 h g2 : relabelled g f g1 → relabelled g1 h g2 → relabelled g (λ u l, h u (f u l)) g2.
Proof.
  intros [(ns & ->) W1 N1] [(ns' & ->) W2 N2]. split; [by exists ns'|done|]. intros u. cbn in *. rewrite N2, N1.
  by destruct (oget (nodes_ g) u) as [[l|]|].
Qed.

Lemma order_position_ok c g gl :
  flat_ranked g → nonneg_weights g → isMultigraph g = true → short_ranks g → dense_ranks g →
  Graphlib.graph g = Some gl → sizes_ok g gl → align_ok (align gl) →
  ∃ c' g1 g2 f, Pass.order c g = Ok (c', g1) ∧ position g1 = Ok g2 ∧ relabelled g f g2 ∧ moves f ∧
    (∀ v, isNode g v → ∃ l b, node g2 v = Some l ∧ box_of l = Some b) ∧
    ∀ u v lu lv a b, isNode g u → isNode g v → u ≠ v → node g2 u = Some lu → node g2 v = Some lv → box_of lu = Some a → box_of lv = Some b → disjoint_boxes a b.
Proof.
  intros F Hw Hm Hsh Hde Hgl Hsz Hal. destruct (order_ok c g F Hw) as (_ & _ & _ & _ & _ & c' & g1 & _ & Hord & Ho & _).
  pose proof (ordered_arranged g gl g1 F Hm Hsh Hde Hsz Ho) as A. pose proof Ho as (φ & Hr & _). destruct (relabelled_edges _ _ _ Hr) as (_ & _ & Hgl1).
  destruct (arranged_position g1 gl A) as (g2 & h & Hp & R2 & Hh & Hbox & Hdis & _); [congruence|done|].
  pose proof (λ v, relabelled_isNode _ _ _ v Hr) as Hns.
  exists c', g1, g2, (λ u l, h u (set_order (φ u) l)). split_and!; [done|done|by eapply relabelled_trans| | |].
  - intros u l. destruct (Hh u (set_order (φ u) l)) as (x & y & ->). by eexists _, _, _.
  - intros v Hv. by apply Hbox, Hns.
  - intros u v lu lv a b Hu Hv. by apply Hdis; apply Hns.
Qed.

(** On a ranked graph without clusters whose edges join adjacent ranks, [order] followed by [position] returns, keeps
    the edges and the sizes, and gives the nodes boxes that do not overlap. *)
Theorem order_position_no_overlap c g gl :
  flat_ranked g → nonneg_weights g → isMultigraph g = true → short_ranks g → dense_ranks g →
  Graphlib.graph g = Some gl → sizes_ok g gl → align_ok (align gl) →
  ∃ c' g1 g2, Pass.order c g = Ok (c', g1) ∧ position g1 = Ok g2 ∧ edges g2 = edges g ∧
    (∀ v l, node g v = Some l → ∃ l2 b, node g2 v = Some l2 ∧ box_of l2 = Some b ∧ width l2 = width l ∧ height l2 = height l) ∧
    ∀ u v lu lv a b, isNode g u → isNode g v → u ≠ v → node g2 u = Some lu → node g2 v = Some lv → box_of lu = Some a → box_of lv = Some b → disjoint_boxes a b.
Proof.
  intros. destruct (order_position_ok c g gl) as (c' & g1 & g2 & f & Ho & Hp & R & Hf & Hbox & Hdis); [done..|].
  exists c', g1, g2. split_and!; [done|done|by apply (relabelled_edges _ _ _ R)| |done].
  intros v l Hl. destruct (Hbox v) as (l2 & b & Hl2 & Hb). { unfold node in Hl. destruct (oget (nodes_ g) v) eqn:Hv; [by eexists|done]. }
  exists l2, b. destruct (Hf v l) as (o & x & y & Heq). split; [done|]. rewrite (relabelled_node _ _ _ v R), Hl in Hl2. cbn in Hl2. rewrite Heq in Hl2. injection Hl2 as <-. by split_and!.
Qed.
End FlatLayout.

Definition short_ranks_check (g : layoutGraph) : bool :=
  forallb (λ x, match rank_of g (ev x), rank_of g (ew x) with Some r, Some r' => bool_decide (r' = r + 1)%Z | _, _ => false end) (edges g).
Lemma short_ranks_check_ok g : short_ranks_check g = true → short_ranks g.
Proof.
  unfold short_ranks_check. rewrite forallb_forall. intros Hc x r Hx%list_elem_of_In%Hc Hm. unfold movable in *. rewrite Hm in Hx.
  destruct (rank_of g (ew x)); [|done]. apply bool_decide_eq_true in Hx as ->. f_equal. lia.
Qed.

Definition dense_ranks_check (g : layoutGraph) : bool :=
  forallb (λ v, match rank_of g v with
                | Some r => bool_decide (r ≤ 0)%Z || existsb (λ u, bool_decide (rank_of g u = Some (r - 1)%Z)) (nodes g)
                | None => true
                end) (nodes g).
Lemma dense_ranks_check_ok g : dense_ranks_check g = true → dense_ranks g.
Proof.
  unfold dense_ranks_check. rewrite forallb_forall. intros Hc v r Hv%elem_of_nodes%list_elem_of_In%Hc Hm. unfold movable in *. rewrite Hm in Hv.
  rewrite bool_decide_false in Hv by lia. cbn [orb] in Hv. apply existsb_exists in Hv as (u & Hu%list_elem_of_In%elem_of_nodes & Hr%bool_decide_eq_true).
  exists u. split; [done|]. rewrite Hr. f_equal. lia.
Qed.

Lemma order_position_no_overlap_witness :
  ∃ c g1 g2, Pass.order 0 tangle = Ok (c, g1) ∧ position g1 = Ok g2 ∧ edges g2 = edges tangle.
Proof.
  destruct (order_position_no_overlap 0 tangle (GraphLabel 50%Q 20%Q 50%Q "tb" None None None None None no_gmore)) as (c & g1 & g2 & H1 & H2 & H3 & _).
  - apply tangle_flat.
  - apply tangle_flat.
  - reflexivity.
  - apply short_ranks_check_ok. vm_compute. reflexivity.
  - apply dense_ranks_check_ok. vm_compute. reflexivity.
  - reflexivity.
  - apply sizes_check_ok. vm_compute. reflexivity.
  - intros [=].
  - exists c, g1, g2. split; [exact H1|]. split; [exact H2|exact H3].
Defined.
