(* ===== verification/DagreNormalize.v ===== *)
(** * dagre: splitting long edges (lib/normalize.js inside dagre.min.js)

    [run] replaces an edge that spans several ranks by a chain of dummy nodes, one per rank in between; [undo]
    restores the edge with the coordinates of the dummies as its points. *)
From Stdlib Require Import QArith_base.
Local Close Scope Q_scope.
From S2P Require Import Prelude JsObject Graphlib GraphWf GraphInv GraphRemove GraphQuery GraphView Lodash DagreTypes DagreBk DagreUtil.

(** [g.edge(e).p = x]: the label object of [e] is changed in place. *)
Definition updEdge {L V E} (g : Graph L V E) (x : edgeObj) (f : E → E) : res (Graph L V E) :=
  l <-- of_option (edgeOf g x) ;;
  Ok (with_edges (edgeObjs_ g) (oset (edgeLabels_ g) (edgeObjToId (isDirected g) x) (Some (f l))) (edgeCount_ g) g).

Section Normalize.
Implicit Types (g : layoutGraph) (e : edgeObj) (l : edgeLabel) (v : string).

(** [util.addDummyNode]. *)
Definition addDummyNode (idCounter : N) g (type : string) (attrs : nodeLabel) (name : string) : res (N * string * layoutGraph) :=
  r <-- freshId (S (length (nodes g))) g name idCounter ;;
  g <-- setNode g r.2 (Some (Some (with_dummy type attrs))) ;;
  Ok (r.1, r.2, g).

(** [{width:0,height:0,edgeLabel:edgeLabel,edgeObj:e,rank:vRank}]. *)
Definition edge_attrs l e (vRank : Z) : nodeLabel :=
  NodeLabel 0%Q 0%Q None None (Some vRank) None None None None (NodeMore None None None None None None (Some l) (Some e) None None None).
(** The dummy that carries the label of the edge. *)
Definition as_edge_label l (n : nodeLabel) : nodeLabel :=
  NodeLabel (ewidth l) (eheight l) (nx n) (ny n) (rank n) (order n) (Some "edge-label"%string) (Some (labelpos l)) (borderType n) (more n).
(** [{weight:edgeLabel.weight}].  The other attributes are undefined; no pass reads them before [undo] removes the edge. *)
Definition segment (w : Z) : edgeLabel := EdgeLabel 0 w 0%Q 0%Q 0%Q ""%string None None None None false None false.

Definition push_chain g (dummy : string) : res layoutGraph :=
  gl <-- of_option (Graphlib.graph g) ;;
  cs <-- of_option (dummyChains (gmore gl)) ;;
  Ok (setGraph g (Some (with_dummyChains (cs ++ [dummy]) gl))).

Record norm_state := NormState { nm_id : N; nm_graph : layoutGraph; nm_v : string }.

(** One turn of the loop over the ranks between the ends; [i] counts the turns. *)
Definition normalize_turn e l (st : norm_state) (ir : nat * Z) : res norm_state :=
  let '(i, vRank) := ir in
  d <-- addDummyNode (nm_id st) (nm_graph st) "edge" (edge_attrs l e vRank) "_d" ;;
  let '(id, dummy, g) := d in
  g <-- (if decide (labelRank l = Some vRank) then updNode g dummy (as_edge_label l) else Ok g) ;;
  g <-- setEdge g (nm_v st) dummy (Some (Some (segment (weight l)))) (ename e) ;;
  g <-- (if decide (i = 0) then push_chain g dummy else Ok g) ;;
  Ok (NormState id g dummy).

Definition normalizeEdge (st : N * layoutGraph) e : res (N * layoutGraph) :=
  let '(id, g) := st in
  lv <-- of_option (node g (ev e)) ;;
  lw <-- of_option (node g (ew e)) ;;
  l <-- of_option (edgeOf g e) ;;
  match rank lv, rank lw with
  | Some vRank, Some wRank =>
      if decide (wRank = vRank + 1)%Z then Ok st
      else
        g <-- removeEdgeObj g e ;;
        s <-- res_fold (normalize_turn e (with_points (Some []) l)) (NormState id g (ev e))
                (imap pair (seqZ (vRank + 1) (wRank - (vRank + 1)))) ;;
        g <-- setEdge (nm_graph s) (nm_v s) (ew e) (Some (Some (segment (weight l)))) (ename e) ;;
        Ok (nm_id s, g)
  | _, _ =>
      (* a comparison with [undefined] is false: the loop is not entered *)
      g <-- removeEdgeObj g e ;;
      g <-- setEdge g (ev e) (ew e) (Some (Some (segment (weight l)))) (ename e) ;;
      Ok (id, g)
  end.

Definition run (idCounter : N) g : res (N * layoutGraph) :=
  gl <-- of_option (Graphlib.graph g) ;;
  let g := setGraph g (Some (with_dummyChains [] gl)) in
  res_fold normalizeEdge (idCounter, g) (edges g).

(** *** [undo] *)

(** [origLabel.points.push({x:node.x,y:node.y})]; the label is that of the edge that has been restored. *)
Definition push_point g e (n : nodeLabel) : res layoutGraph :=
  l <-- of_option (edgeOf g e) ;;
  ps <-- of_option (points l) ;;
  updEdge g e (with_points (Some (ps ++ [Point (nx n) (ny n)]))).
Definition place_label (n : nodeLabel) l : edgeLabel := with_esize (width n) (height n) (with_exy (nx n) (ny n) l).

(** [while(node.dummy)]: each turn removes a node. *)
Fixpoint undo_loop (fuel : nat) g e v (n : nodeLabel) : res layoutGraph :=
  if is_dummy n then
    match fuel with
    | O => Throw (JsError "out of fuel")
    | S fuel' =>
        ws <-- of_option (successors g v) ;;
        g <-- removeNode g v ;;
        g <-- push_point g e n ;;
        g <-- (if decide (dummy n = Some "edge-label"%string) then updEdge g e (place_label n) else Ok g) ;;
        w <-- of_option (head ws) ;;
        n <-- of_option (node g w) ;;
        undo_loop fuel' g e w n
    end
  else Ok g.

Definition undo_chain g v : res layoutGraph :=
  n <-- of_option (node g v) ;;
  e <-- of_option (origObj (more n)) ;;
  g <-- setEdgeObj g e (Some (origLabel (more n))) ;;
  undo_loop (length (nodes g)) g e v n.

Definition undo g : res layoutGraph :=
  gl <-- of_option (Graphlib.graph g) ;;
  res_fold undo_chain g (default [] (dummyChains (gmore gl))).
End Normalize.
