(* ===== verification/DagreRemap.v ===== *)
(** * dagre: passes that rewrite labels

    Many passes of lib/layout.js walk over the nodes and then over the edges and assign to fields of the labels.  [remapped]
    is what such a pass leaves: the same graph with a function applied to every label. *)
From S2P Require Import Prelude JsObject Graphlib GraphWf GraphInv GraphRemove GraphQuery GraphView DagreNormalize.

(** ** Removing a node, seen through the table of edges *)

Record removeNode_view {L V E} (g : Graph L V E) v g' : Prop := {
  rnv_digraph : digraph g';
  rnv_options : isMultigraph g' = isMultigraph g ∧ isCompound g' = isCompound g ∧ glabel g' = glabel g;
  rnv_edges : ∀ x, elookup g' x = if decide (ev x = v ∨ ew x = v) then None else elookup g x;
  rnv_nodes : ∀ u, oget (nodes_ g') u = if decide (u = v) then None else oget (nodes_ g) u
}.

Lemma removeNode_view_ok {L V E} (g : Graph L V E) v : digraph g → isNode g v → ∃ g', removeNode g v = Ok g' ∧ removeNode_view g v g'.
Proof.
  intros Hg Hv. destruct (removeNode_ok g v (dg_wf _ Hg) Hv) as (g' & Hr & P). exists g'. split; [done|]. destruct (rn_options _ _ _ P) as (O1 & O2 & O3 & O4).
  assert (∀ x, elookup g' x = if decide (ev x = v ∨ ew x = v) then None else elookup g x) as He.
  { intros x. unfold elookup. rewrite O1, (rn_obj _ _ _ P), (rn_label _ _ _ P). destruct (oget (edgeObjs_ g) _) as [y|] eqn:Hy; cbn.
    - destruct (decide (x = y)) as [->|Hne].
      + destruct (decide (ev y = v ∨ ew y = v)); [by rewrite decide_False|]. by rewrite !decide_True.
      + rewrite (decide_False (P := Some y = Some x)) by congruence. rewrite decide_False; [by case_decide|]. case_decide; congruence.
    - rewrite !decide_False by done. by case_decide. }
  split; [|done|done|apply P]. split; [apply P|rewrite O1; apply Hg|]. intros x Hx. apply (dg_names _ Hg).
  apply elookup_Some; [apply Hg|]. apply elookup_Some in Hx; [|apply P]. rewrite He in Hx. case_decide; [by destruct Hx|done].
Qed.

(** Changing the label of an edge. *)
Record edge_changed {L V E} (g : Graph L V E) e l g' : Prop := {
  ec_digraph : digraph g';
  ec_options : isMultigraph g' = isMultigraph g ∧ isCompound g' = isCompound g ∧ glabel g' = glabel g;
  ec_nodes : ∀ u, oget (nodes_ g') u = oget (nodes_ g) u;
  ec_edges : ∀ x, elookup g' x = if decide (x = e) then Some (Some l) else elookup g x
}.

Lemma setEdge_changed {L V E} (g : Graph L V E) e l :
  digraph g → isMultigraph g = true → plain_edge e → isNode g (ev e) → isNode g (ew e) →
  ∃ g', setEdgeObj g e (Some (Some l)) = Ok g' ∧ edge_changed g e l g'.
Proof.
  intros Hg Hm He Hv Hw. destruct (setEdge_view_ok g e (Some (Some l)) Hg He) as (g' & Hs & P); [by right|]. exists g'. split; [exact Hs|].
  destruct (sev_options _ _ _ _ P) as (_ & O2 & O3 & O4 & _). split; [apply P|done| |].
  - intros u. by apply (sev_nodes_same _ _ _ _ u P).
  - intros x. by rewrite (sev_edges _ _ _ _ P).
Qed.

Lemma updEdge_ok {L V E} (g : Graph L V E) e f l :
  digraph g → isMultigraph g = true → elookup g e = Some (Some l) → ∃ g', updEdge g e f = Ok g' ∧ edge_changed g e (f l) g'.
Proof.
  intros Hg Hm He. assert (e ∈ edges g) as Hin by (apply elookup_Some; [apply Hg|rewrite He; by eexists]).
  destruct (edges_nodes g e (dg_wf _ Hg) Hin). destruct (setEdge_changed g e (f l)) as (g' & Hs & P); [done|done|by eapply digraph_edge|done|done|].
  exists g'. split; [|done]. rewrite <-Hs. unfold updEdge. rewrite edgeOf_elookup by (done || apply Hg). rewrite He. cbn [mjoin option_join of_option res_bind].
  unfold setEdgeObj, setEdge. change (edgeArgsToId (isDirected g) (ev e) (ew e) (ename e)) with (edgeObjToId (isDirected g) e).
  unfold elookup in He. case_decide; [|done]. by rewrite (proj2 (ohas_true (edgeLabels_ g) _)) by (rewrite He; by eexists).
Qed.

Section Remap.
Context {L N E : Type}.
Implicit Types (g : Graph L N E) (x e : edgeObj) (u v : string) (fn : string → N → N) (fe : edgeObj → E → E).

Record remapped g fn fe g1 : Prop := {
  rm_shape : ∃ ns els, g1 = with_edges (edgeObjs_ g) els (edgeCount_ g) (with_nodes ns (nodeCount_ g) g);
  rm_digraph : digraph g1;
  rm_nodes : ∀ u, oget (nodes_ g1) u = (λ o : option N, fn u <$> o) <$> oget (nodes_ g) u;
  rm_edges : ∀ x, elookup g1 x = (λ o : option E, fe x <$> o) <$> elookup g x
}.

Lemma remapped_refl g fn fe : digraph g → (∀ u l, fn u l = l) → (∀ x l, fe x l = l) → remapped g fn fe g.
Proof.
  intros Hg H1 H2. split; [exists (nodes_ g), (edgeLabels_ g); by destruct g|done| |].
  - intros u. destruct (oget (nodes_ g) u) as [[l|]|]; cbn; [|done..]. by rewrite H1.
  - intros x. destruct (elookup g x) as [[l|]|]; cbn; [|done..]. by rewrite H2.
Qed.

Lemma remapped_trans g fn fe g1 fn' fe' g2 :
  remapped g fn fe g1 → remapped g1 fn' fe' g2 → remapped g (λ u l, fn' u (fn u l)) (λ x l, fe' x (fe x l)) g2.
Proof.
  intros [(ns & els & ->) D1 N1 E1] [(ns' & els' & ->) D2 N2 E2]. split; [by exists ns', els'|done| |].
  - intros u. rewrite N2, N1. by destruct (oget (nodes_ g) u) as [[l|]|].
  - intros x. rewrite E2, E1. by destruct (elookup g x) as [[l|]|].
Qed.

Lemma remapped_isNode g fn fe g1 v : remapped g fn fe g1 → isNode g1 v ↔ isNode g v.
Proof. intros [_ _ H _]. unfold isNode. rewrite H. by destruct (oget (nodes_ g) v). Qed.

Lemma remapped_node g fn fe g1 v : remapped g fn fe g1 → node g1 v = fn v <$> node g v.
Proof. intros [_ _ H _]. unfold node. rewrite H. by destruct (oget (nodes_ g) v) as [[l|]|]. Qed.

Lemma remapped_queries g fn fe g1 :
  remapped g fn fe g1 → edges g1 = edges g ∧ Graphlib.graph g1 = Graphlib.graph g ∧ isMultigraph g1 = isMultigraph g ∧ isDirected g1 = isDirected g ∧
    isCompound g1 = isCompound g ∧ parent_ g1 = parent_ g ∧ children_ g1 = children_ g.
Proof. by intros [(ns & els & ->) _ _ _]. Qed.

Lemma remapped_edgeOf g fn fe g1 x : digraph g → remapped g fn fe g1 → x ∈ edges g → edgeOf g1 x = fe x <$> edgeOf g x.
Proof.
  intros Hg R Hx. destruct (remapped_queries _ _ _ _ R) as (He & _). rewrite !edgeOf_elookup; [|apply Hg|done|apply R|by rewrite He].
  rewrite (rm_edges _ _ _ _ R). by destruct (elookup g x) as [[l|]|].
Qed.

Lemma relabelled_remapped g f g1 : digraph g → relabelled g f g1 → remapped g f (λ _ l, l) g1.
Proof.
  intros Hg R. destruct (rl_shape _ _ _ R) as [ns Heq]. split.
  - exists ns, (edgeLabels_ g). rewrite Heq. by destruct g.
  - split; [apply R|rewrite Heq; apply Hg|]. intros x. rewrite Heq. apply Hg.
  - apply R.
  - intros x. rewrite Heq. change (elookup (with_nodes ns (nodeCount_ g) g) x) with (elookup g x). by destruct (elookup g x) as [[l|]|].
Qed.

Lemma remapped_ext g fn fe fn' fe' g1 :
  (∀ u l, node g u = Some l → fn u l = fn' u l) → (∀ x l, elookup g x = Some (Some l) → fe x l = fe' x l) → remapped g fn fe g1 → remapped g fn' fe' g1.
Proof.
  intros H1 H2 [R1 R2 R3 R4]. split; [done|done| |].
  - intros u. rewrite R3. specialize (H1 u). unfold node in H1. destruct (oget (nodes_ g) u) as [[l|]|]; cbn in *; [|done..]. by rewrite (H1 l).
  - intros x. rewrite R4. specialize (H2 x). destruct (elookup g x) as [[l|]|]; cbn; [|done..]. by rewrite (H2 l).
Qed.

(** A pass over the nodes. *)
Lemma updNodes_remapped g h :
  digraph g → (∀ v, isNode g v → is_Some (node g v)) →
  ∃ g1, res_fold (λ g v, updNode g v (h v)) g (nodes g) = Ok g1 ∧ remapped g h (λ _ l, l) g1.
Proof.
  intros Hg Hn. destruct (updNodes_relabelled g (λ _ l, l) g (nodes g) h) as (g1 & Hr & R).
  - intros v Hv%elem_of_nodes. by apply Hn.
  - apply NoDup_nodes, Hg.
  - by apply relabelled_refl; [apply Hg|].
  - exists g1. split; [done|]. eapply remapped_ext; [| |by apply relabelled_remapped]; [|done].
    intros u l Hl. cbn. rewrite decide_True; [done|]. apply elem_of_nodes. unfold node, isNode in *. destruct (oget (nodes_ g) u); [by eexists|done].
Qed.

(** A pass over the edges, each turn of which changes the label of its edge. *)
Lemma edge_pass_remapped g step h :
  digraph g → isMultigraph g = true → (∀ x, x ∈ edges g → is_Some (edgeOf g x)) →
  (∀ (done : list edgeObj) g1 x l, remapped g (λ _ l, l) (λ y l, if decide (y ∈ done) then h y l else l) g1 →
    x ∈ edges g → x ∉ done → edgeOf g x = Some l → edgeOf g1 x = Some l → step g1 x = updEdge g1 x (h x)) →
  ∃ g1, res_fold step g (edges g) = Ok g1 ∧ remapped g (λ _ l, l) h g1.
Proof.
  intros Hg Hm Hl Hstep.
  destruct (res_fold_inv step (λ done g1, remapped g (λ _ l, l) (λ x l, if decide (x ∈ done) then h x l else l) g1) (edges g) g) as (g1 & Hr & R).
  - apply remapped_refl; [done|done|]. intros x l. by rewrite decide_False by apply not_elem_of_nil.
  - intros done x rest g1 Heq R. assert (x ∈ edges g) as Hx by (rewrite Heq; set_solver). assert (x ∉ done) as Hnew.
    { pose proof (NoDup_edges g (dg_wf _ Hg)) as Hnd. rewrite Heq in Hnd. apply NoDup_app in Hnd as (_ & Hd & _). intros Hin. apply (Hd x Hin). by left. }
    destruct (remapped_queries _ _ _ _ R) as (He & _ & Hm1 & _). destruct (Hl x Hx) as [l Hlx].
    assert (elookup g x = Some (Some l)) as Hlk.
    { rewrite edgeOf_elookup in Hlx by (done || apply Hg). destruct (elookup g x) as [o|]; [|done]. cbn in Hlx. by rewrite Hlx. }
    assert (elookup g1 x = Some (Some l)) as Hlk1 by (rewrite (rm_edges _ _ _ _ R), Hlk; cbn; by rewrite decide_False).
    destruct (updEdge_ok g1 x (h x) l) as (g2 & Hu & P); [apply R|congruence|done|].
    exists g2. rewrite (Hstep done g1 x l R Hx Hnew Hlx) by (rewrite edgeOf_elookup; [by rewrite Hlk1|apply R|by rewrite He]). split; [done|]. split.
    + destruct (rm_shape _ _ _ _ R) as (ns & els & Hg1). unfold updEdge in Hu. destruct (of_option (edgeOf g1 x)) as [l'|]; [|done]. cbn in Hu. injection Hu as <-. rewrite Hg1. by eexists _, _.
    + apply P.
    + intros u. rewrite (ec_nodes _ _ _ _ P). apply R.
    + intros y. rewrite (ec_edges _ _ _ _ P). destruct (decide (y = x)) as [->|Hne].
      * rewrite Hlk. cbn. by rewrite decide_True by set_solver.
      * rewrite (rm_edges _ _ _ _ R). destruct (elookup g y) as [[l'|]|]; cbn; [|done..]. do 2 f_equal.
        destruct (decide (y ∈ done)); [by rewrite decide_True by set_solver|]. rewrite decide_False; [done|]. set_solver.
  - exists g1. split; [done|]. eapply remapped_ext; [| |exact R]; [done|]. intros x l Hx. cbn. rewrite decide_True; [done|]. apply elookup_Some; [apply Hg|]. rewrite Hx. by eexists.
Qed.

Lemma updEdges_remapped g h :
  digraph g → isMultigraph g = true → (∀ x, x ∈ edges g → is_Some (edgeOf g x)) →
  ∃ g1, res_fold (λ g x, updEdge g x (h x)) g (edges g) = Ok g1 ∧ remapped g (λ _ l, l) h g1.
Proof. intros Hg Hm Hl. by apply edge_pass_remapped. Qed.

(** A pass over the nodes and then the edges. *)
Definition remap g fn fe : res (Graph L N E) :=
  g <-- res_fold (λ g v, updNode g v (fn v)) g (nodes g) ;; res_fold (λ g x, updEdge g x (fe x)) g (edges g).

Record labelled g : Prop := {
  lb_digraph : digraph g;
  lb_multi : isMultigraph g = true;
  lb_node : ∀ v, isNode g v → is_Some (node g v);
  lb_edge : ∀ x, x ∈ edges g → is_Some (edgeOf g x)
}.

Lemma remapped_labelled g fn fe g1 : labelled g → remapped g fn fe g1 → labelled g1.
Proof.
  intros [H1 H2 H3 H4] R. destruct (remapped_queries _ _ _ _ R) as (He & _ & Hm & _). split; [apply R|congruence| |].
  - intros v Hv%(remapped_isNode _ _ _ _ v R). rewrite (remapped_node _ _ _ _ v R). by apply fmap_is_Some, H3.
  - intros x. rewrite He. intros Hx. rewrite (remapped_edgeOf g fn fe g1) by done. by apply fmap_is_Some, H4.
Qed.

Lemma remap_ok g fn fe : labelled g → ∃ g1, remap g fn fe = Ok g1 ∧ remapped g fn fe g1.
Proof.
  intros Hg. destruct (updNodes_remapped g fn (lb_digraph _ Hg) (lb_node _ Hg)) as (g1 & H1 & R1). pose proof (remapped_labelled _ _ _ _ Hg R1) as [D1 M1 _ E1].
  destruct (updEdges_remapped g1 fe D1 M1 E1) as (g2 & H2 & R2). exists g2. unfold remap. rewrite H1. cbn [res_bind]. split; [done|]. exact (remapped_trans _ _ _ _ _ _ _ R1 R2).
Qed.
End Remap.
