(* ===== verification/DagreNormalizeRun.v ===== *)
(** * dagre: what [normalize.run] leaves

    The long edges become chains of dummy nodes; every edge of the result joins adjacent ranks. *)
From Stdlib Require Import QArith_base.
Local Close Scope Q_scope.
From S2P Require Import Prelude JsObject Graphlib GraphWf GraphInv GraphRemove GraphQuery GraphView Lodash DagreTypes DagreBk DagreUtil DagreOrder DagreOrderLayer DagreNormalize.

(** ** Paths of edges *)

Fixpoint segs (name : option string) (a : string) (l : list string) : list edgeObj :=
  match l with [] => [] | b :: l' => EdgeObj a b name :: segs name b l' end.

Definition end_of (a : string) (l : list string) : string := default a (list.last l).

Lemma end_of_snoc a l b : end_of a (l ++ [b]) = b.
Proof. unfold end_of. by rewrite last_snoc. Qed.

Lemma end_of_cons a b l : end_of a (b :: l) = end_of b l.
Proof. unfold end_of. rewrite last_cons. by destruct (list.last l). Qed.

Lemma segs_snoc name a l b : segs name a (l ++ [b]) = segs name a l ++ [EdgeObj (end_of a l) b name].
Proof. revert a. induction l as [|c l IH]; intros a; [done|]. cbn. by rewrite IH, end_of_cons. Qed.

Lemma elem_of_segs name a l x : x ∈ segs name a l → ename x = name ∧ (ev x = a ∨ ev x ∈ l) ∧ ew x ∈ l.
Proof.
  revert a. induction l as [|b l IH]; intros a; cbn; [by intros ?%elem_of_nil|]. intros [->|Hx]%elem_of_cons; [cbn; set_solver|].
  destruct (IH b Hx) as (? & ? & ?). set_solver.
Qed.

(** ** The chains *)

Record chain := Chain { c_e : edgeObj; c_l : edgeLabel; c_from : Z; c_ds : list string; c_open : bool }.

Definition c_segs (c : chain) : list edgeObj :=
  segs (ename (c_e c)) (ev (c_e c)) (c_ds c ++ if c_open c then [] else [ew (c_e c)]).

Definition dummy_label (l : edgeLabel) (e : edgeObj) (r : Z) : nodeLabel :=
  let n := with_dummy "edge" (edge_attrs l e r) in
  if decide (labelRank l = Some r) then as_edge_label l n else n.

Definition all_dummies (cs : list chain) : list string := concat (c_ds <$> cs).

Section Run.
Implicit Types (g : layoutGraph) (c : chain) (cs : list chain) (x e : edgeObj) (v u d : string) (l : edgeLabel).
Context (g0 : layoutGraph).

(** [g] is [g0] with the edges of [cs] replaced by chains; an open chain has no last segment yet. *)
Record normalised cs g : Prop := {
  nz_digraph : digraph g;
  nz_options : isMultigraph g = isMultigraph g0 ∧ isCompound g = isCompound g0;
  nz_nodup : NoDup (all_dummies cs);
  nz_new : ∀ d, d ∈ all_dummies cs → ¬ isNode g0 d;
  nz_name : ∀ d, d ∈ all_dummies cs → d ≠ ""%string;
  nz_old : ∀ u, isNode g0 u → oget (nodes_ g) u = oget (nodes_ g0) u;
  nz_node : ∀ u, isNode g u → isNode g0 u ∨ u ∈ all_dummies cs;
  nz_dummy : ∀ c i d, c ∈ cs → c_ds c !! i = Some d →
    oget (nodes_ g) d = Some (Some (dummy_label (c_l c) (c_e c) (c_from c + 1 + Z.of_nat i)));
  nz_edge : ∀ c, c ∈ cs → c_e c ∈ edges g0 ∧ (c_open c = false → c_ds c ≠ []);
  nz_seg : ∀ c x, c ∈ cs → x ∈ c_segs c → elookup g x = Some (Some (segment (weight (c_l c))));
  nz_gone : ∀ c, c ∈ cs → elookup g (c_e c) = None;
  nz_kept : ∀ x, (∀ c, c ∈ cs → x ∉ c_segs c ∧ x ≠ c_e c) → elookup g x = elookup g0 x;
  nz_parent : isCompound g0 = true → ∀ u p, oget (parent_ g) u = Some p → p = GRAPH_NODE ∨ oget (parent_ g0) u = Some p;
  nz_chains : ∃ gl, Graphlib.graph g = Some gl ∧ dummyChains (gmore gl) = Some (omap (head ∘ c_ds) cs) ∧
    ∃ gl0, Graphlib.graph g0 = Some gl0 ∧ gl = with_dummyChains (omap (head ∘ c_ds) cs) gl0
}.

Context (Hg0 : digraph g0).

Lemma elem_of_all_dummies cs d : d ∈ all_dummies cs ↔ ∃ c, c ∈ cs ∧ d ∈ c_ds c.
Proof.
  unfold all_dummies. rewrite elem_of_concat. setoid_rewrite list_elem_of_fmap. naive_solver.
Qed.

(** A segment has a dummy at one of its ends. *)
Lemma seg_dummy c x : (c_open c = false → c_ds c ≠ []) → x ∈ c_segs c → ev x ∈ c_ds c ∨ ew x ∈ c_ds c.
Proof.
  intros Hne. unfold c_segs. destruct (c_open c); [rewrite app_nil_r; intros (_ & _ & ?)%elem_of_segs; by right|].
  rewrite segs_snoc. intros [(_ & _ & ?)%elem_of_segs| ->%list_elem_of_singleton]%elem_of_app; [by right|left]. cbn. specialize (Hne eq_refl).
  destruct (c_ds c) as [|d ds _] using rev_ind; [done|]. rewrite end_of_snoc. set_solver.
Qed.

Lemma seg_ends c x u : x ∈ c_segs c → u = ev x ∨ u = ew x → u ∈ c_ds c ∨ u = ev (c_e c) ∨ u = ew (c_e c).
Proof.
  unfold c_segs. intros (_ & Hv & Hw)%elem_of_segs. rewrite elem_of_app in Hw. rewrite elem_of_app in Hv. destruct (c_open c); set_solver.
Qed.

(** An edge with a fresh end is neither a segment nor an edge of [g0]. *)
Lemma fresh_not_seg cs g x d : normalised cs g → ¬ isNode g d → d = ev x ∨ d = ew x → elookup g x = None ∧ ∀ c, c ∈ cs → x ∉ c_segs c ∧ x ≠ c_e c.
Proof.
  intros Hn Hd Hx. assert (wf g) as Hwf by apply Hn. split.
  - apply elookup_None; [done|]. intros Hin. destruct (edges_nodes g x Hwf Hin). destruct Hx as [->| ->]; done.
  - intros c Hc. split; intros Hin.
    + apply (nz_seg _ _ Hn c x Hc) in Hin. assert (x ∈ edges g) as Hxe by (apply elookup_Some; [done|]; rewrite Hin; by eexists).
      destruct (edges_nodes g x Hwf Hxe). destruct Hx as [->| ->]; done.
    + destruct (nz_edge _ _ Hn c Hc) as [He _]. rewrite <-Hin in He. destruct (edges_nodes g0 x (dg_wf _ Hg0) He) as [H1 H2].
      apply Hd. unfold isNode. destruct Hx as [->| ->]; rewrite (nz_old _ _ Hn) by done; done.
Qed.

(** Opening a chain: the edge is removed. *)
Lemma open_chain cs g e l r :
  normalised cs g → e ∈ edges g0 → (∀ c, c ∈ cs → c_e c ≠ e) →
  ∃ g', removeEdgeObj g e = Ok g' ∧ normalised (cs ++ [Chain e l r [] true]) g'.
Proof.
  intros Hn He Hne. destruct (removeEdge_view_ok g e) as (g' & Hr & P); [apply Hn|by eapply digraph_edge|].
  exists g'. split; [exact Hr|]. destruct (rev_options _ _ _ P) as (O1 & O2 & O3).
  assert (all_dummies (cs ++ [Chain e l r [] true]) = all_dummies cs) as Had by (unfold all_dummies; by rewrite fmap_app, concat_app, !app_nil_r).
  assert (omap (head ∘ c_ds) (cs ++ [Chain e l r [] true]) = omap (head ∘ c_ds) cs) as Hom by (by rewrite omap_app, app_nil_r).
  assert (∀ c, c ∈ cs ++ [Chain e l r [] true] ↔ c ∈ cs ∨ c = Chain e l r [] true) as Hin by set_solver.
  split; rewrite ?Had, ?Hom.
  - apply P.
  - rewrite O1. split; [apply Hn|]. rewrite O2. apply Hn.
  - apply Hn.
  - apply Hn.
  - apply Hn.
  - intros u Hu. rewrite (rev_nodes _ _ _ P). by apply Hn.
  - intros u [y Hu]. apply (nz_node _ _ Hn). rewrite (rev_nodes _ _ _ P) in Hu. by exists y.
  - intros c i d [Hc| ->]%Hin Hi; [|done]. rewrite (rev_nodes _ _ _ P). by apply Hn.
  - intros c [Hc| ->]%Hin; [by apply Hn|done].
  - intros c x [Hc| ->]%Hin Hx; [|by apply elem_of_nil in Hx]. rewrite (rev_edges _ _ _ P), decide_False; [by apply (nz_seg _ _ Hn c)|].
    intros ->. apply (seg_dummy c e) in Hx; [|apply (nz_edge _ _ Hn c Hc)]. destruct (edges_nodes g0 e (dg_wf _ Hg0) He).
    destruct Hx as [Hx|Hx]; (eapply (nz_new _ _ Hn); [apply elem_of_all_dummies; by exists c|done]).
  - intros c [Hc| ->]%Hin; rewrite (rev_edges _ _ _ P); [|by rewrite decide_True]. case_decide; [done|]. by apply Hn.
  - intros x Hx. rewrite (rev_edges _ _ _ P), decide_False; [|by destruct (Hx (Chain e l r [] true)) as [_ ?]; [apply Hin; by right|]].
    apply (nz_kept _ _ Hn). intros c Hc. apply Hx, Hin. by left.
  - rewrite (rev_parent _ _ _ P). apply Hn.
  - destruct (nz_chains _ _ Hn) as (gl & H1 & H2). exists gl. split; [|done]. unfold Graphlib.graph in *. congruence.
Qed.

(** ** Adding a dummy *)

Record dummy_added g d (n : nodeLabel) g' : Prop := {
  da_digraph : digraph g';
  da_options : isMultigraph g' = isMultigraph g ∧ isCompound g' = isCompound g ∧ glabel g' = glabel g;
  da_nodes : ∀ u, oget (nodes_ g') u = if decide (u = d) then Some (Some n) else oget (nodes_ g) u;
  da_edges : ∀ x, elookup g' x = elookup g x;
  da_parent : isCompound g = true → ∀ u p, oget (parent_ g') u = Some p → p = GRAPH_NODE ∨ oget (parent_ g) u = Some p
}.

Lemma addDummyNode_ok id g type attrs name :
  digraph g → delim_free name = true → name ≠ ""%string →
  ∃ id' d g', addDummyNode id g type attrs name = Ok (id', d, g') ∧ ¬ isNode g d ∧ plain d ∧ d ≠ ""%string ∧ dummy_added g d (with_dummy type attrs) g'.
Proof.
  intros Hg H1 H2. unfold addDummyNode. destruct (freshId_total g name id) as (id' & d & -> & Hd & _ & Hname). cbn [res_bind fst snd].
  assert (plain d) as Hpl by (rewrite Hname; by apply fresh_plain).
  destruct (setNode_ok g d (Some (Some (with_dummy type attrs))) (dg_wf _ Hg) Hpl) as (g' & -> & P). cbn [res_bind].
  assert (d ≠ ""%string) as Hne by (rewrite Hname; by destruct name).
  exists id', d, g'. split_and!; [done..|]. destruct (sn_options _ _ _ _ P) as (O1 & O2 & O3 & O4 & _). split.
  - eapply same_edges_digraph; [done|apply P..].
  - done.
  - intros u. by rewrite (sn_label _ _ _ _ P).
  - apply same_edges_elookup; apply P.
  - intros Hc u p. rewrite (sn_parent _ _ _ _ P Hc). case_decide; [intros [= <-]; by left|by right].
Qed.

Lemma label_dummy_ok g g1 d l e r :
  dummy_added g d (with_dummy "edge" (edge_attrs l e r)) g1 →
  ∃ g2, (if decide (labelRank l = Some r) then updNode g1 d (as_edge_label l) else Ok g1) = Ok g2 ∧ dummy_added g d (dummy_label l e r) g2.
Proof.
  intros A. unfold dummy_label. case_decide; [|by exists g1]. destruct A as [A1 A2 A3 A4 A5].
  destruct (updNode_ok g1 d (as_edge_label l) (with_dummy "edge" (edge_attrs l e r)) (dg_wf _ A1)) as (g2 & Hu & Hwf & He & Hel & Hnodes).
  { by rewrite A3, decide_True. }
  assert (∃ ns, g2 = with_nodes ns (nodeCount_ g1) g1) as (ns & Hg2).
  { unfold updNode in Hu. destruct (of_option (node g1 d)); [|done]. cbn in Hu. injection Hu as <-. by eexists. }
  exists g2. split; [done|]. split.
  - split; [done|rewrite Hg2; apply A1|]. intros x. rewrite He. apply A1.
  - by rewrite Hg2.
  - intros u. rewrite Hnodes. case_decide; [done|]. rewrite A3. by rewrite decide_False.
  - intros x. by rewrite Hel.
  - by rewrite Hg2.
Qed.

Lemma setGraph_digraph g gl : digraph g → digraph (setGraph g gl).
Proof. intros [H1 H2 H3]. split; [by apply setGraph_wf|done|done]. Qed.

Lemma all_dummies_snoc cs c : all_dummies (cs ++ [c]) = all_dummies cs ++ c_ds c.
Proof. unfold all_dummies. rewrite fmap_app, concat_app. cbn. by rewrite app_nil_r. Qed.

Lemma end_of_elem a ds : end_of a ds = a ∧ ds = [] ∨ end_of a ds ∈ ds.
Proof. destruct ds as [|d ds _] using rev_ind; [by left|]. right. rewrite end_of_snoc. set_solver. Qed.

Lemma sev_parent_old {L V E} (g g' : Graph L V E) x value u p :
  setEdge_view g x value g' → isCompound g = true → oget (parent_ g') u = Some p → p = GRAPH_NODE ∨ oget (parent_ g) u = Some p.
Proof. intros P Hc. rewrite (sev_parent _ _ _ _ P Hc). destruct (oget (parent_ g) u); [by right|]. case_decide; [intros [= <-]; by left|done]. Qed.

(** The new dummy at the end of the open chain. *)
Lemma extend_chain cs e l a ds g d g1 g2 :
  normalised (cs ++ [Chain e l a ds true]) g → ¬ isNode g d → d ≠ ""%string →
  dummy_added g d (dummy_label l e (a + 1 + Z.of_nat (length ds))) g1 →
  setEdge_view g1 (EdgeObj (end_of (ev e) ds) d (ename e)) (Some (Some (segment (weight l)))) g2 →
  isNode g1 (end_of (ev e) ds) →
  ∃ gl', (if decide (length ds = 0) then push_chain g2 d else Ok g2) = Ok (setGraph g2 (Some gl')) ∧
    normalised (cs ++ [Chain e l a (ds ++ [d]) true]) (setGraph g2 (Some gl')).
Proof.
  intros Hn Hd Hname [A1 A2 A3 A4 A5] P Hv. set (c := Chain e l a ds true) in *. set (c' := Chain e l a (ds ++ [d]) true).
  set (x := EdgeObj (end_of (ev e) ds) d (ename e)) in *.
  destruct A2 as (O1 & O2 & O3). destruct (sev_options _ _ _ _ P) as (Q1 & Q2 & Q3 & Q4 & _).
  assert (isNode g1 d) as Hdn by (unfold isNode; rewrite A3, decide_True by done; by eexists).
  assert (∀ u, oget (nodes_ g2) u = if decide (u = d) then Some (Some (dummy_label l e (a + 1 + Z.of_nat (length ds)))) else oget (nodes_ g) u) as Hnodes.
  { intros u. rewrite (sev_nodes_same _ _ _ _ _ P) by done. by rewrite A3. }
  assert (∀ y, elookup g2 y = if decide (y = x) then Some (Some (segment (weight l))) else elookup g y) as Hedges.
  { intros y. rewrite (sev_edges _ _ _ _ P), A4. done. }
  assert (d ∉ all_dummies (cs ++ [c])) as Hdnew.
  { intros (c0 & Hc0 & [i Hi]%list_elem_of_lookup)%elem_of_all_dummies. apply Hd. unfold isNode. rewrite (nz_dummy _ _ Hn c0 i d Hc0 Hi). by eexists. }
  assert (¬ isNode g0 d) as Hd0 by (intros Hdo; apply Hd; unfold isNode; rewrite (nz_old _ _ Hn) by done; done).
  destruct (fresh_not_seg _ g x d Hn Hd) as [_ Hfresh]; [by right|].
  assert (all_dummies (cs ++ [c']) = all_dummies (cs ++ [c]) ++ [d]) as Had by (rewrite !all_dummies_snoc; cbn; by rewrite app_assoc).
  assert (c_segs c' = c_segs c ++ [x]) as Hsegs by (unfold c_segs; cbn; by rewrite !app_nil_r, segs_snoc).
  destruct (nz_chains _ _ Hn) as (gl & Hgl & Hch & gl0 & Hgl0 & Hgl').
  set (chains := omap (head ∘ c_ds) (cs ++ [c'])).
  assert ((if decide (length ds = 0) then push_chain g2 d else Ok g2) = Ok (setGraph g2 (Some (with_dummyChains chains gl0)))) as Hpush.
  { assert (Graphlib.graph g2 = Some gl) as Hg2 by (unfold Graphlib.graph in *; congruence). unfold chains. rewrite omap_app in *. cbn in Hgl', Hch |- *. case_decide as Hlen.
    - destruct ds; [|done]. cbn in *. rewrite app_nil_r in *. unfold push_chain. rewrite Hg2. cbn [of_option res_bind]. rewrite Hch. cbn [of_option res_bind]. by rewrite Hgl'.
    - destruct ds as [|d0 ds]; [done|]. cbn in *. rewrite <-Hgl'. f_equal. unfold setGraph, with_label. unfold Graphlib.graph in Hg2. rewrite <-Hg2. by destruct g2. }
  eexists. split; [exact Hpush|].
  assert (∀ c0, c0 ∈ cs ++ [c'] ↔ c0 ∈ cs ∨ c0 = c') as Hin by set_solver.
  assert (∀ c0, c0 ∈ cs → c0 ∈ cs ++ [c]) as Hold by set_solver. assert (c ∈ cs ++ [c]) as Hcin by set_solver.
  split; rewrite ?Had.
  - apply setGraph_digraph, P.
  - destruct (nz_options _ _ Hn). cbn. split; congruence.
  - apply NoDup_app. split_and!; [apply Hn|by intros u Hu ->%list_elem_of_singleton|apply NoDup_singleton].
  - intros u [Hu| ->%list_elem_of_singleton]%elem_of_app; [by apply Hn|done].
  - intros u [Hu| ->%list_elem_of_singleton]%elem_of_app; [by apply Hn|done].
  - intros u Hu. cbn. rewrite Hnodes, decide_False by (by intros ->). by apply Hn.
  - intros u [y Hu]. cbn in Hu. rewrite Hnodes in Hu. rewrite elem_of_app, list_elem_of_singleton. case_decide as Hud; [by right; right|].
    destruct (nz_node _ _ Hn u) as [?|?]; [by exists y|by left|by right; left].
  - intros c0 i u [Hc| ->]%Hin Hi; cbn; rewrite Hnodes.
    + rewrite decide_False; [by apply Hn; [apply Hold|]|]. intros ->. apply Hdnew, elem_of_all_dummies. exists c0. split; [by apply Hold|]. by eapply list_elem_of_lookup_2.
    + cbn in Hi. apply lookup_app_Some in Hi as [Hi|[Hle Hi]].
      * rewrite decide_False; [by apply (nz_dummy _ _ Hn c)|]. intros ->. apply Hdnew, elem_of_all_dummies. exists c. split; [done|]. by eapply list_elem_of_lookup_2.
      * apply list_lookup_singleton_Some in Hi as [Hz <-]. rewrite decide_True by done. cbn. by replace i with (length ds) by lia.
  - intros c0 [Hc| ->]%Hin; [by apply Hn, Hold|]. split; [by apply (nz_edge _ _ Hn c)|done].
  - intros c0 y [Hc| ->]%Hin Hy; change (elookup (setGraph g2 _) y) with (elookup g2 y); rewrite Hedges.
    + rewrite decide_False; [by apply (nz_seg _ _ Hn c0 y (Hold _ Hc))|]. intros ->. by destruct (Hfresh c0 (Hold _ Hc)) as [? _].
    + rewrite Hsegs in Hy. destruct (decide (y = x)) as [Hyx|Hyx]; [reflexivity|]. apply elem_of_app in Hy as [Hy|Hy%list_elem_of_singleton]; [|done]. exact (nz_seg _ _ Hn c y Hcin Hy).
  - intros c0 [Hc| ->]%Hin; [change (elookup g2 (c_e c0) = None)|change (elookup g2 (c_e c) = None)]; rewrite Hedges, decide_False.
    1,3: by apply Hn; auto. all: intros Heq; symmetry in Heq; revert Heq; apply Hfresh; auto.
  - intros y Hy. change (elookup g2 y = elookup g0 y). rewrite Hedges, decide_False.
    + apply (nz_kept _ _ Hn). intros c0 [Hc|Hc%list_elem_of_singleton]%elem_of_app; [by apply Hy, Hin; left|]. subst c0.
      destruct (Hy c') as [Hy1 Hy2]; [apply Hin; by right|]. rewrite Hsegs in Hy1. split; [set_solver|done].
    + intros ->. destruct (Hy c') as [Hy1 _]; [apply Hin; by right|]. rewrite Hsegs in Hy1. set_solver.
  - destruct (nz_options _ _ Hn) as [_ Hc]. intros Hc0 u p Hu. cbn in Hu. rewrite <-Hc in Hc0. apply (sev_parent_old _ _ _ _ _ _ P) in Hu as [?|Hu]; [by left| |congruence].
    apply (A5 Hc0) in Hu as [?|Hu]; [by left|]. apply (nz_parent _ _ Hn); congruence.
  - eexists. split; [done|]. split; [done|]. exists gl0. done.
Qed.

(** Closing the chain: the last segment is added. *)
Lemma close_chain cs e l a ds g :
  normalised (cs ++ [Chain e l a ds true]) g → ds ≠ [] → isMultigraph g0 = true →
  ∃ g', setEdge g (end_of (ev e) ds) (ew e) (Some (Some (segment (weight l)))) (ename e) = Ok g' ∧ normalised (cs ++ [Chain e l a ds false]) g'.
Proof.
  intros Hn Hds Hm. set (c := Chain e l a ds true) in *. set (c' := Chain e l a ds false). set (d := end_of (ev e) ds).
  set (x := EdgeObj d (ew e) (ename e)).
  assert (d ∈ ds) as Hd by (destruct (end_of_elem (ev e) ds) as [[_ ?]|?]; done).
  assert (c ∈ cs ++ [c]) as Hcin by set_solver. destruct (nz_edge _ _ Hn c Hcin) as [He _]. cbn in He.
  destruct (edges_nodes g0 e (dg_wf _ Hg0) He) as [Hv0 Hw0].
  assert (d ∈ all_dummies (cs ++ [c])) as Hdall by (apply elem_of_all_dummies; by exists c).
  assert (isNode g d) as Hdn by (apply list_elem_of_lookup in Hd as [i Hi]; unfold isNode; rewrite (nz_dummy _ _ Hn c i d Hcin Hi); by eexists).
  assert (isNode g (ew e)) as Hwn by (unfold isNode; by rewrite (nz_old _ _ Hn)).
  assert (wf g) as Hwf by apply Hn. assert (plain_edge x) as Hx.
  { destruct (digraph_edge g0 e Hg0 He) as (_ & ? & ?). split_and!; [by eapply wf_plain|done|done]. }
  destruct (setEdge_view_ok g x (Some (Some (segment (weight l))))) as (g' & Hs & P); [apply Hn|done|right; destruct (nz_options _ _ Hn); congruence|].
  exists g'. split; [exact Hs|]. destruct (sev_options _ _ _ _ P) as (Q1 & Q2 & Q3 & Q4 & _).
  assert (∀ u, oget (nodes_ g') u = oget (nodes_ g) u) as Hnodes by (intros u; by apply (sev_nodes_same _ _ _ _ u P)).
  assert (∀ y, elookup g' y = if decide (y = x) then Some (Some (segment (weight l))) else elookup g y) as Hedges by (intros y; by rewrite (sev_edges _ _ _ _ P)).
  assert (all_dummies (cs ++ [c']) = all_dummies (cs ++ [c])) as Had by (by rewrite !all_dummies_snoc).
  assert (c_segs c' = c_segs c ++ [x]) as Hsegs by (unfold c_segs; cbn; by rewrite app_nil_r, segs_snoc).
  assert (∀ c0, c0 ∈ cs → x ∉ c_segs c0) as Hother.
  { intros c0 Hc0 Hxs. pose proof (nz_nodup _ _ Hn) as Hnd. rewrite all_dummies_snoc in Hnd. apply NoDup_app in Hnd as (_ & Hdis & _).
    destruct (seg_ends c0 x d Hxs) as [Hin|Hin]; [by left| |].
    - apply (Hdis d); [apply elem_of_all_dummies; by exists c0|done].
    - destruct (nz_edge _ _ Hn c0) as [He0 _]; [set_solver|]. destruct (edges_nodes g0 (c_e c0) (dg_wf _ Hg0) He0).
      apply (nz_new _ _ Hn d Hdall). destruct Hin as [->| ->]; done. }
  assert (∀ e0, e0 ∈ edges g0 → e0 ≠ x) as Hxe.
  { intros e0 He0 ->. destruct (edges_nodes g0 x (dg_wf _ Hg0) He0). by apply (nz_new _ _ Hn d Hdall). }
  assert (∀ c0, c0 ∈ cs ++ [c'] ↔ c0 ∈ cs ∨ c0 = c') as Hin by set_solver.
  assert (∀ c0, c0 ∈ cs → c0 ∈ cs ++ [c]) as Hold by set_solver.
  split; rewrite ?Had.
  - apply P.
  - destruct (nz_options _ _ Hn). split; congruence.
  - apply Hn.
  - apply Hn.
  - apply Hn.
  - intros u Hu. rewrite Hnodes. by apply Hn.
  - intros u [y Hu]. rewrite Hnodes in Hu. apply (nz_node _ _ Hn). by exists y.
  - intros c0 i u [Hc| ->]%Hin Hi; rewrite Hnodes; [by apply Hn; [apply Hold|]|by apply (nz_dummy _ _ Hn c)].
  - intros c0 [Hc| ->]%Hin; [by apply Hn, Hold|]. split; [by apply (nz_edge _ _ Hn c)|done].
  - intros c0 y [Hc| ->]%Hin Hy; rewrite Hedges.
    + rewrite decide_False; [by apply (nz_seg _ _ Hn c0 y (Hold _ Hc))|]. intros ->. by apply (Hother c0).
    + rewrite Hsegs in Hy. destruct (decide (y = x)) as [Hyx|Hyx]; [reflexivity|]. apply elem_of_app in Hy as [Hy|Hy%list_elem_of_singleton]; [|done].
      exact (nz_seg _ _ Hn c y Hcin Hy).
  - intros c0 Hc0. assert (∃ c1, c1 ∈ cs ++ [c] ∧ c_e c1 = c_e c0) as (c1 & Hc1 & <-) by (apply Hin in Hc0 as [?| ->]; [exists c0; auto|by exists c]).
    rewrite Hedges, decide_False; [by apply Hn|]. apply Hxe. by apply Hn.
  - intros y Hy. destruct (Hy c') as [Hy1 Hy2]; [apply Hin; by right|]. rewrite Hsegs in Hy1. rewrite Hedges, decide_False by set_solver.
    apply (nz_kept _ _ Hn). intros c0 [Hc|Hc%list_elem_of_singleton]%elem_of_app; [by apply Hy, Hin; left|]. subst c0. split; [set_solver|done].
  - destruct (nz_options _ _ Hn) as [_ Hc]. intros Hc0 u p Hu. apply (sev_parent_old _ _ _ _ _ _ P) in Hu as [?|Hu]; [by left|by apply (nz_parent _ _ Hn)|congruence].
  - destruct (nz_chains _ _ Hn) as (gl & H1 & H2 & H3). rewrite omap_app in *. exists gl. split; [unfold Graphlib.graph in *; congruence|done].
Qed.

(** ** One edge *)

Lemma normalize_turn_ok cs e l a ds g id :
  isMultigraph g0 = true → normalised (cs ++ [Chain e l a ds true]) g →
  ∃ st d, normalize_turn e l (NormState id g (end_of (ev e) ds)) (length ds, (a + 1 + Z.of_nat (length ds))%Z) = Ok st ∧
    nm_v st = d ∧ normalised (cs ++ [Chain e l a (ds ++ [d]) true]) (nm_graph st).
Proof.
  intros Hm Hn. set (c := Chain e l a ds true) in *. assert (c ∈ cs ++ [c]) as Hcin by set_solver.
  destruct (nz_edge _ _ Hn c Hcin) as [He _]. cbn in He. destruct (edges_nodes g0 e (dg_wf _ Hg0) He) as [Hv0 _].
  assert (isNode g (end_of (ev e) ds)) as Hend.
  { unfold isNode. destruct (end_of_elem (ev e) ds) as [[-> _]|[i Hi]%list_elem_of_lookup]; [by rewrite (nz_old _ _ Hn)|]. rewrite (nz_dummy _ _ Hn c i _ Hcin Hi). by eexists. }
  unfold normalize_turn. cbn [nm_id nm_graph nm_v].
  destruct (addDummyNode_ok id g "edge" (edge_attrs l e (a + 1 + Z.of_nat (length ds))) "_d" (nz_digraph _ _ Hn)) as (id' & d & g1 & -> & Hd & Hpl & Hname & A); [done..|].
  cbn [res_bind]. destruct (label_dummy_ok g g1 d l e _ A) as (g2 & -> & A2). cbn [res_bind].
  assert (isNode g2 (end_of (ev e) ds)) as Hend2 by (unfold isNode; rewrite (da_nodes _ _ _ _ A2); case_decide; [by eexists|done]).
  set (x := EdgeObj (end_of (ev e) ds) d (ename e)). assert (plain_edge x) as Hx.
  { destruct (digraph_edge g0 e Hg0 He) as (_ & _ & ?). split_and!; [|done|done]. by eapply (wf_plain g); [apply Hn|]. }
  destruct (setEdge_view_ok g2 x (Some (Some (segment (weight l)))) (da_digraph _ _ _ _ A2) Hx) as (g3 & Hs & P).
  { right. destruct (da_options _ _ _ _ A2) as (-> & _). destruct (nz_options _ _ Hn). congruence. }
  change (setEdge g2 (end_of (ev e) ds) d (Some (Some (segment (weight l)))) (ename e)) with (setEdge g2 (ev x) (ew x) (Some (Some (segment (weight l)))) (ename x)).
  rewrite Hs. cbn [res_bind]. destruct (extend_chain cs e l a ds g d g2 g3 Hn Hd Hname A2 P Hend2) as (gl' & -> & Hn').
  cbn [res_bind]. by eexists _, d.
Qed.

Lemma normalize_turns_ok cs e l a n ds g id :
  isMultigraph g0 = true → normalised (cs ++ [Chain e l a ds true]) g →
  ∃ st ds', res_fold (normalize_turn e l) (NormState id g (end_of (ev e) ds)) (imap (λ i r, (length ds + i, r)) (seqZ (a + 1 + Z.of_nat (length ds)) (Z.of_nat n))) = Ok st ∧
    length ds' = length ds + n ∧ nm_v st = end_of (ev e) ds' ∧ normalised (cs ++ [Chain e l a ds' true]) (nm_graph st).
Proof.
  intros Hm. revert ds g id. induction n as [|n IH]; intros ds g id Hn.
  { cbn. exists (NormState id g (end_of (ev e) ds)), ds. split_and!; [done|lia|done|done]. }
  rewrite Nat2Z.inj_succ, seqZ_cons by lia. cbn [imap res_fold]. rewrite Nat.add_0_r.
  destruct (normalize_turn_ok cs e l a ds g id Hm Hn) as (st & d & -> & Hd & Hn'). cbn [res_bind].
  destruct st as [id' g' v']. cbn in Hd, Hn'. subst v'. destruct (IH (ds ++ [d]) g' id' Hn') as (st & ds' & Hr & Hlen & Hv & Hfin).
  rewrite end_of_snoc in Hr. exists st, ds'. split_and!; [|rewrite Hlen, length_app; cbn; lia|done|done].
  rewrite <-Hr. rewrite length_app. cbn [length]. replace (Z.pred (Z.succ (Z.of_nat n))) with (Z.of_nat n) by lia.
  replace (a + 1 + Z.of_nat (length ds + 1))%Z with (Z.succ (a + 1 + Z.of_nat (length ds))) by lia. f_equal.
  apply imap_ext. intros i r _. cbn. f_equal. lia.
Qed.
End Run.

(** ** All edges *)

(** What [run] expects: labelled edges that go down at least one rank. *)
Record rank_ready (g0 : layoutGraph) : Prop := {
  rr_digraph : digraph g0;
  rr_multi : isMultigraph g0 = true;
  rr_graph : is_Some (Graphlib.graph g0);
  rr_edge : ∀ x, x ∈ edges g0 → ∃ rv rw l, rank_of g0 (ev x) = Some rv ∧ rank_of g0 (ew x) = Some rw ∧ (rv < rw)%Z ∧ edgeOf g0 x = Some l
}.

Section Edges.
Implicit Types (g : layoutGraph) (c : chain) (cs : list chain) (x e : edgeObj) (v u d : string).
Context (g0 : layoutGraph) (H0 : rank_ready g0).

Definition long e : Prop := ∃ rv rw, rank_of g0 (ev e) = Some rv ∧ rank_of g0 (ew e) = Some rw ∧ rw ≠ (rv + 1)%Z.

(** A chain spans the ranks between the ends of its edge. *)
Record chain_ok c : Prop := {
  ck_closed : c_open c = false;
  ck_label : ∃ l0, edgeOf g0 (c_e c) = Some l0 ∧ c_l c = with_points (Some []) l0;
  ck_from : rank_of g0 (ev (c_e c)) = Some (c_from c);
  ck_to : rank_of g0 (ew (c_e c)) = Some (c_from c + 1 + Z.of_nat (length (c_ds c)))%Z
}.

Record run_inv (done : list edgeObj) cs g : Prop := {
  ri_norm : normalised g0 cs g;
  ri_edges : ∀ e, e ∈ c_e <$> cs ↔ e ∈ done ∧ long e;
  ri_nodup : NoDup (c_e <$> cs);
  ri_chains : ∀ c, c ∈ cs → chain_ok c
}.

Lemma rank_of_node g v r : rank_of g v = Some r → ∃ l, node g v = Some l ∧ rank l = Some r.
Proof. unfold rank_of. destruct (node g v) as [l|]; [|done]. cbn. eauto. Qed.

Lemma normalised_node cs g v : normalised g0 cs g → isNode g0 v → node g v = node g0 v.
Proof. intros Hn Hv. unfold node. by rewrite (nz_old _ _ _ Hn). Qed.

Lemma not_done_kept done cs g e : run_inv done cs g → e ∈ edges g0 → e ∉ done → ∀ c, c ∈ cs → e ∉ c_segs c ∧ e ≠ c_e c.
Proof.
  intros [R1 R2 R3 R4] He Hnew c Hc. split.
  - intros Hs%(seg_dummy g0 (rr_digraph _ H0)); [|by apply (nz_edge _ _ _ R1 c)]. destruct (edges_nodes g0 e (dg_wf _ (rr_digraph _ H0)) He).
    destruct Hs as [Hs|Hs]; (eapply (nz_new _ _ _ R1); [apply elem_of_all_dummies; by exists c|done]).
  - intros ->. apply Hnew, R2. by apply list_elem_of_fmap_2.
Qed.

Lemma normalizeEdge_ok done cs g id e :
  run_inv done cs g → e ∈ edges g0 → e ∉ done →
  ∃ id' g' cs', normalizeEdge (id, g) e = Ok (id', g') ∧ run_inv (done ++ [e]) cs' g'.
Proof.
  intros R He Hnew. pose proof R as [R1 R2 R3 R4]. destruct (rr_edge _ H0 e He) as (rv & rw & l & Hrv & Hrw & Hlt & Hl).
  destruct (edges_nodes g0 e (dg_wf _ (rr_digraph _ H0)) He) as [Hv Hw]. destruct (rank_of_node _ _ _ Hrv) as (lv & Hlv & Hlvr), (rank_of_node _ _ _ Hrw) as (lw & Hlw & Hlwr).
  assert (plain_edge e) as Hpe by (eapply digraph_edge; [apply H0|done]).
  unfold normalizeEdge. rewrite !(normalised_node cs g) by done. rewrite Hlv, Hlw. cbn [of_option res_bind].
  assert (edgeOf g e = Some l) as ->.
  { rewrite (edgeOf_plain g e (nz_digraph _ _ _ R1) Hpe), (nz_kept _ _ _ R1 e) by (by eapply not_done_kept). by rewrite <-edgeOf_plain by (done || apply H0). }
  cbn [of_option res_bind]. rewrite Hlvr, Hlwr. assert (∀ e', e' ∈ done ++ [e] ↔ e' ∈ done ∨ e' = e) as Hin by set_solver.
  destruct (decide (rw = rv + 1)%Z) as [Hshort|Hlong].
  { exists id, g, cs. split; [done|]. split; [done| |done|done]. intros e'. rewrite R2, Hin. split; [naive_solver|]. intros [[?| ->] Hlg]; [done|].
    destruct Hlg as (rv' & rw' & ? & ? & ?). simplify_eq. }
  destruct (open_chain g0 (rr_digraph _ H0) cs g e (with_points (Some []) l) rv R1 He) as (g1 & -> & Hn1).
  { intros c Hc Heq. apply Hnew, R2. rewrite <-Heq. by apply list_elem_of_fmap_2. }
  cbn [res_bind]. destruct (normalize_turns_ok g0 (rr_digraph _ H0) cs e (with_points (Some []) l) rv (Z.to_nat (rw - (rv + 1))) [] g1 id (rr_multi _ H0) Hn1) as (st & ds & Hr & Hlen & Hvs & Hn2).
  cbn [length end_of list.last default Nat.add] in Hr, Hlen. replace (rv + 1 + Z.of_nat 0)%Z with (rv + 1)%Z in Hr by lia. rewrite Z2Nat.id in Hr by lia.
  change (end_of (ev e) []) with (ev e) in Hr. change (imap (λ (i : nat) (r : Z), (i, r))) with (imap (@pair nat Z)) in Hr. rewrite Hr. cbn [res_bind].
  destruct (close_chain g0 (rr_digraph _ H0) cs e (with_points (Some []) l) rv ds (nm_graph st) Hn2) as (g3 & Hs3 & Hn3); [by intros ->; cbn in Hlen; lia|apply H0|].
  rewrite Hvs. change (weight l) with (weight (with_points (Some []) l)). rewrite Hs3. cbn [res_bind].
  eexists _, g3, _. split; [done|]. split; [exact Hn3| | |].
  - intros e'. rewrite fmap_app, elem_of_app, R2, Hin. cbn. rewrite list_elem_of_singleton. split; [|naive_solver].
    intros [[? ?]| ->]; [by split; [left|]|]. split; [by right|]. by exists rv, rw.
  - rewrite fmap_app. apply NoDup_app. split_and!; [done| |apply NoDup_singleton]. intros e' [Hd _]%R2 ->%list_elem_of_singleton. done.
  - intros c [Hc| ->%list_elem_of_singleton]%elem_of_app; [by apply R4|]. split; cbn; [done|by exists l|done|]. rewrite Hrw. f_equal. lia.
Qed.

Lemma run_ok id : ∃ id' g' cs, run id g0 = Ok (id', g') ∧ run_inv (edges g0) cs g'.
Proof.
  unfold run. destruct (rr_graph _ H0) as [gl Hgl]. rewrite Hgl. cbn [of_option res_bind]. set (g := setGraph g0 _).
  change (edges g) with (edges g0).
  destruct (res_fold_inv normalizeEdge (λ done st, ∃ cs, run_inv done cs st.2) (edges g0) (id, g)) as ([id' g'] & -> & cs & R).
  - exists []. split; [|intros e; split; [by intros ?%elem_of_nil|by intros [?%elem_of_nil _]]|constructor|by intros c ?%elem_of_nil].
    split; try done.
    + apply setGraph_digraph, H0.
    + constructor.
    + by intros d ?%elem_of_nil.
    + by intros d ?%elem_of_nil.
    + by left.
    + by intros c i d ?%elem_of_nil.
    + by intros c ?%elem_of_nil.
    + by intros c x ?%elem_of_nil.
    + by intros c ?%elem_of_nil.
    + intros _ u p Hu. by right.
    + eexists. split; [done|]. split; [done|]. by exists gl.
  - intros done e rest [id1 g1] Heq (cs & R). assert (NoDup (edges g0)) as Hnd by apply NoDup_edges, H0. rewrite Heq in Hnd. apply NoDup_app in Hnd as (_ & Hd & _).
    destruct (normalizeEdge_ok done cs g1 id1 e R) as (id2 & g2 & cs' & -> & R'); [rewrite Heq; set_solver|intros Hin; apply (Hd e Hin); by left|].
    eexists. split; [done|]. by exists cs'.
  - by exists id', g', cs.
Qed.
End Edges.
