(* ===== verification/DagreNormalizeUndo.v ===== *)
(** * dagre: [normalize.undo] restores the edges

    On a graph that [run] returned, whatever coordinates and orders its nodes have received since, [undo] removes the dummies
    and restores the long edges, with the coordinates of the dummies as points. *)
From Stdlib Require Import QArith_base.
Local Close Scope Q_scope.
From S2P Require Import Prelude JsObject Graphlib GraphWf GraphInv GraphRemove GraphQuery GraphView Lodash DagreTypes DagreBk DagreUtil DagreOrder DagreOrderLayer DagreNormalize DagreRemap DagreNormalizeRun.

(** ** The loop over one chain *)

(** The label after the nodes [ns] have been collected. *)
Definition collect_one (l : edgeLabel) (n : nodeLabel) : edgeLabel :=
  let l := with_points (Some (default [] (points l) ++ [Point (nx n) (ny n)])) l in
  if decide (dummy n = Some "edge-label"%string) then place_label n l else l.
Definition collect (l : edgeLabel) (ns : list nodeLabel) : edgeLabel := foldl collect_one l ns.

Section Loop.
Implicit Types (g : layoutGraph) (x e : edgeObj) (v u d : string) (l : edgeLabel) (n : nodeLabel).

Lemma collect_points l ns ps : points l = Some ps → points (collect l ns) = Some (ps ++ ((λ n, Point (nx n) (ny n)) <$> ns)).
Proof.
  revert l ps. induction ns as [|n ns IH]; intros l ps Hl; cbn; [by rewrite app_nil_r|]. rewrite (IH _ (ps ++ [Point (nx n) (ny n)])).
  - by rewrite <-app_assoc.
  - unfold collect_one. rewrite Hl. by case_decide.
Qed.

(** One turn: the dummy is removed and its place recorded. *)
Lemma undo_turn g e d n l ps :
  digraph g → isMultigraph g = true → isNode g d → ev e ≠ d → ew e ≠ d → elookup g e = Some (Some l) → points l = Some ps →
  ∃ g1 g2 g3, removeNode g d = Ok g1 ∧ push_point g1 e n = Ok g2 ∧
    (if decide (dummy n = Some "edge-label"%string) then updEdge g2 e (place_label n) else Ok g2) = Ok g3 ∧
    digraph g3 ∧ (isMultigraph g3 = isMultigraph g ∧ isCompound g3 = isCompound g ∧ glabel g3 = glabel g) ∧
    (∀ u, oget (nodes_ g3) u = if decide (u = d) then None else oget (nodes_ g) u) ∧
    ∀ x, elookup g3 x = if decide (x = e) then Some (Some (collect_one l n)) else if decide (ev x = d ∨ ew x = d) then None else elookup g x.
Proof.
  intros Hg Hm Hd Hv Hw Hl Hps. destruct (removeNode_view_ok g d Hg Hd) as (g1 & Hr & P1). destruct (rnv_options _ _ _ P1) as (O1 & O2 & O3).
  assert (elookup g1 e = Some (Some l)) as Hl1 by (rewrite (rnv_edges _ _ _ P1), decide_False by naive_solver; done).
  assert (edgeOf g1 e = Some l) as He1.
  { rewrite edgeOf_elookup; [by rewrite Hl1|apply P1|]. apply elookup_Some; [apply P1|]. rewrite Hl1. by eexists. }
  set (l1 := with_points (Some (ps ++ [Point (nx n) (ny n)])) l).
  destruct (updEdge_ok g1 e (with_points (Some (ps ++ [Point (nx n) (ny n)]))) l) as (g2 & Hu2 & P2); [apply P1|congruence|done|].
  destruct (ec_options _ _ _ _ P2) as (Q1 & Q2 & Q3).
  assert (push_point g1 e n = Ok g2) as Hp by (unfold push_point; rewrite He1; cbn [of_option res_bind]; rewrite Hps; done).
  assert (∃ g3, (if decide (dummy n = Some "edge-label"%string) then updEdge g2 e (place_label n) else Ok g2) = Ok g3 ∧ edge_changed g2 e (collect_one l n) g3) as (g3 & Hu3 & P3).
  { unfold collect_one. rewrite Hps. cbn [default]. fold l1. case_decide.
    - apply updEdge_ok; [apply P2|congruence|]. rewrite (ec_edges _ _ _ _ P2). by rewrite decide_True.
    - exists g2. split; [done|]. split; [apply P2|done|done|]. intros x. rewrite (ec_edges _ _ _ _ P2). by case_decide. }
  destruct (ec_options _ _ _ _ P3) as (R1 & R2 & R3). exists g1, g2, g3. split_and!; [done..|apply P3|congruence|congruence|congruence| |].
  - intros u. by rewrite (ec_nodes _ _ _ _ P3), (ec_nodes _ _ _ _ P2), (rnv_nodes _ _ _ P1).
  - intros x. rewrite (ec_edges _ _ _ _ P3). destruct (decide (x = e)); [done|]. rewrite (ec_edges _ _ _ _ P2), decide_False, (rnv_edges _ _ _ P1) by done. done.
Qed.

(** The effect of the loop over the dummies [ds] on the graph [g]. *)
Record unchained g e l (ds : list string) g' : Prop := {
  uc_digraph : digraph g';
  uc_options : isMultigraph g' = isMultigraph g ∧ isCompound g' = isCompound g ∧ glabel g' = glabel g;
  uc_nodes : ∀ u, oget (nodes_ g') u = if decide (u ∈ ds) then None else oget (nodes_ g) u;
  uc_edges : ∀ x, elookup g' x = if decide (x = e) then Some (Some l) else if decide (ev x ∈ ds ∨ ew x ∈ ds) then None else elookup g x
}.

Lemma undo_loop_ok ds fuel g e l ps w nw v n :
  digraph g → isMultigraph g = true → elookup g e = Some (Some l) → points l = Some ps → NoDup ds → w ∉ ds → ev e ∉ ds → ew e ∉ ds →
  node g w = Some nw → is_dummy nw = false →
  (∀ i d, ds !! i = Some d → (∃ n, node g d = Some n ∧ is_dummy n = true) ∧
     (∃ x, x ∈ edges g ∧ ev x = d ∧ Some (ew x) = (ds ++ [w]) !! S i) ∧ ∀ x, x ∈ edges g → ev x = d → Some (ew x) = (ds ++ [w]) !! S i) →
  head (ds ++ [w]) = Some v → node g v = Some n → length ds ≤ fuel →
  ∃ g', undo_loop fuel g e v n = Ok g' ∧ unchained g e (collect l (omap (node g) ds)) ds g'.
Proof.
  revert fuel g l ps v n. induction ds as [|d ds IH]; intros fuel g l ps v n Hg Hm Hl Hps Hnd Hw Hev Hew Hnw Hdw Hds Hv Hn Hf.
  - cbn in Hv. injection Hv as <-. assert (n = nw) as -> by congruence. exists g. split; [destruct fuel; cbn; by rewrite Hdw|].
    split; [done|done|intros u; by rewrite decide_False by apply not_elem_of_nil|]. intros x. cbn. case_decide as Hx; [by rewrite Hx|]. rewrite decide_False; [done|].
    by intros [?%elem_of_nil|?%elem_of_nil].
  - cbn in Hv. injection Hv as <-. destruct fuel as [|fuel]; [cbn in Hf; lia|]. destruct (Hds 0 d eq_refl) as ((n0 & Hn0 & Hd0) & (x & Hx & Hxv & Hxw) & Huniq).
    apply not_elem_of_cons in Hw as [Hwd Hw], Hev as [Hevd Hev], Hew as [Hewd Hew].
    assert (n0 = n) as -> by congruence. apply NoDup_cons in Hnd as [Hdn Hnd]. assert (isNode g d) as Hdnode by (unfold node in Hn; destruct (oget (nodes_ g) d) eqn:E; [by eexists|done]).
    cbn [undo_loop]. rewrite Hd0. destruct (successors_spec g d (dg_wf _ Hg) Hdnode) as (ws & -> & Hwsnd & Hws). cbn [of_option res_bind].
    assert (ws = [ew x]) as ->.
    { apply Permutation_singleton_r. apply NoDup_Permutation; [done|apply NoDup_singleton|]. intros u. rewrite Hws, list_elem_of_singleton. split; [|intros ->; eauto].
      intros (y & Hy & Hyv & <-). specialize (Huniq y Hy Hyv). congruence. }
    destruct (undo_turn g e d n l ps Hg Hm Hdnode) as (g1 & g2 & g3 & -> & Hp & Hu & Hg3 & (O1 & O2 & O3) & Hnodes & Hedges); [done|done|done|done|].
    cbn [res_bind]. rewrite Hp. cbn [res_bind]. rewrite Hu. cbn [res_bind head of_option].
    assert (ew x ∈ ds ++ [w]) as Hnext by (cbn in Hxw; by eapply list_elem_of_lookup_2).
    assert (∀ u, u ≠ d → node g3 u = node g u) as Hnode3 by (intros u Hud; unfold node; by rewrite Hnodes, decide_False).
    assert (d ∉ ds ++ [w]) as Hdw' by (intros [?| ?%list_elem_of_singleton]%elem_of_app; [done|congruence]).
    assert (ew x ≠ d) as Hxd by (by intros Heq; rewrite Heq in Hnext).
    assert (∃ n', node g (ew x) = Some n') as [n' Hn'].
    { apply elem_of_app in Hnext as [[i Hi]%list_elem_of_lookup| ->%list_elem_of_singleton]; [|eauto]. destruct (Hds (S i) (ew x) Hi) as [(? & ? & _) _]. eauto. }
    rewrite (Hnode3 _ Hxd), Hn'. cbn [of_option res_bind].
    assert (∀ y, ev y ∈ ds → y ∈ edges g3 ↔ y ∈ edges g ∧ ew y ≠ d) as Hedge3.
    { intros y Hyv. rewrite <-(elookup_Some g3 y (dg_wf _ Hg3)), <-(elookup_Some g y (dg_wf _ Hg)). rewrite Hedges. rewrite (decide_False (P := y = e)) by (intros ->; done).
      destruct (decide (ev y = d ∨ ew y = d)) as [Hyd|Hyd]; [|split; [intros ?; split; [done|]|by intros [? _]]; intros Hyw; apply Hyd; by right].
      split; [by intros []|]. intros [_ Hyw]. destruct Hyd as [Hyd|Hyd]; [by rewrite Hyd in Hyv|done]. }
    destruct (IH fuel g3 (collect_one l n) (ps ++ [Point (nx n) (ny n)]) (ew x) n') as (g' & Hr & U); try done; [congruence|by rewrite Hedges, decide_True| | | | | |cbn in Hf; lia|].
    + unfold collect_one. rewrite Hps. by case_decide.
    + by rewrite Hnode3 by congruence.
    + intros i d' Hi. destruct (Hds (S i) d' Hi) as ((n'' & Hn'' & Hdd) & (y & Hy & Hyv & Hyw) & Hu'). assert (d' ∈ ds) as Hd'in by (by eapply list_elem_of_lookup_2).
      assert (d' ≠ d) as Hd'd by (by intros ->). split_and!; [exists n''; by rewrite Hnode3|exists y; split_and!; [|done|done]|].
      * apply Hedge3; [by rewrite Hyv|]. split; [done|]. intros Heq. cbn in Hyw. rewrite Heq in Hyw. symmetry in Hyw. by apply list_elem_of_lookup_2 in Hyw.
      * intros z Hz Hzv. apply Hedge3 in Hz as [Hz _]; [by apply Hu'|by rewrite Hzv].
    + cbn in Hxw. rewrite Hxw. by destruct (ds ++ [w]).
    + by rewrite Hnode3.
    + exists g'. split; [done|]. destruct U as [U1 (U2 & U2' & U2'') U3 U4]. split; [done|split_and!; congruence| |].
      * intros u. rewrite U3, Hnodes. destruct (decide (u ∈ ds)); [by rewrite decide_True by (by right)|]. destruct (decide (u = d)) as [->|]; [by rewrite decide_True by (by left)|].
        by rewrite decide_False by (by apply not_elem_of_cons).
      * intros y. rewrite U4. assert (omap (node g3) ds = omap (node g) ds) as ->.
        { clear -Hdn Hnode3. induction ds as [|d' ds IH]; [done|]. cbn. rewrite Hnode3 by set_solver. rewrite IH by set_solver. done. }
        assert (collect l (omap (node g) (d :: ds)) = collect (collect_one l n) (omap (node g) ds)) as -> by (cbn; by rewrite Hn).
        destruct (decide (y = e)) as [Hye|Hye]; [done|]. rewrite Hedges, (decide_False (P := y = e)) by done.
        clear -Hdn. destruct (decide (ev y ∈ ds ∨ ew y ∈ ds)), (decide (ev y = d ∨ ew y = d)), (decide (ev y ∈ d :: ds ∨ ew y ∈ d :: ds)); set_solver.
Qed.
End Loop.

(** ** Chains in the graph that [run] left *)

Lemma concat_owner {A B} (h : A → list B) (l : list A) x y d : NoDup (concat (h <$> l)) → x ∈ l → y ∈ l → d ∈ h x → d ∈ h y → x = y.
Proof.
  induction l as [|z l IH]; [by intros _ ?%elem_of_nil|]. cbn. intros (_ & Hd & Hnd)%NoDup_app Hx Hy Hdx Hdy.
  assert (∀ u, u ∈ l → d ∈ h u → d ∈ concat (h <$> l)) as Hc by (intros u Hu Hdu; apply elem_of_concat; exists (h u); split; [done|by apply list_elem_of_fmap_2]).
  apply elem_of_cons in Hx as [->|Hx], Hy as [->|Hy]; [done|by destruct (Hd d Hdx (Hc y Hy Hdy))|by destruct (Hd d Hdy (Hc x Hx Hdx))|by apply IH].
Qed.

Lemma segs_lookup name a l i b c : l !! i = Some b → l !! S i = Some c → EdgeObj b c name ∈ segs name a l.
Proof.
  revert a i. induction l as [|d l IH]; intros a i; [done|]. destruct i as [|i]; cbn; [|intros; right; by eapply IH].
  intros [= ->] Hc. right. destruct l; [done|]. injection Hc as ->. by left.
Qed.

Lemma segs_start name a l b : head l = Some b → EdgeObj a b name ∈ segs name a l.
Proof. destruct l; [done|]. intros [= ->]. by left. Qed.

Lemma elem_of_segs_index name a l x :
  x ∈ segs name a l → x = EdgeObj a (ew x) name ∧ l !! 0 = Some (ew x) ∨ ∃ i, l !! i = Some (ev x) ∧ l !! S i = Some (ew x) ∧ ename x = name.
Proof.
  revert a. induction l as [|b l IH]; intros a; cbn; [by intros ?%elem_of_nil|]. intros [->|Hx]%elem_of_cons; [by left|]. right.
  destruct (IH b Hx) as [[-> H0]|(i & H1 & H2 & H3)]; [exists 0; by split_and!|exists (S i); by split_and!].
Qed.

Section Chains.
Implicit Types (g : layoutGraph) (c : chain) (x e : edgeObj) (v u d : string).
Context (g0 gr : layoutGraph) (cs : list chain) (H0 : rank_ready g0) (R : run_inv g0 (edges g0) cs gr).

Lemma c_segs_closed c : c ∈ cs → c_segs c = segs (ename (c_e c)) (ev (c_e c)) (c_ds c ++ [ew (c_e c)]).
Proof. intros Hc. unfold c_segs. by rewrite (ck_closed _ _ (ri_chains _ _ _ _ R c Hc)). Qed.

Lemma chain_nonempty c : c ∈ cs → c_ds c ≠ [].
Proof. intros Hc. apply (nz_edge _ _ _ (ri_norm _ _ _ _ R) c Hc), (ri_chains _ _ _ _ R c Hc). Qed.

Lemma dummy_not_old c d : c ∈ cs → d ∈ c_ds c → ¬ isNode g0 d.
Proof. intros Hc Hd. apply (nz_new _ _ _ (ri_norm _ _ _ _ R)), elem_of_all_dummies. by exists c. Qed.

Lemma chain_ends c : c ∈ cs → isNode g0 (ev (c_e c)) ∧ isNode g0 (ew (c_e c)).
Proof. intros Hc. apply edges_nodes; [apply H0|]. by apply (nz_edge _ _ _ (ri_norm _ _ _ _ R) c Hc). Qed.

Lemma chain_dummies_nodup c : c ∈ cs → NoDup (c_ds c).
Proof.
  intros Hc. pose proof (nz_nodup _ _ _ (ri_norm _ _ _ _ R)) as Hnd. unfold all_dummies in Hnd. apply list_elem_of_split in Hc as (l1 & l2 & ->).
  rewrite fmap_app, concat_app in Hnd. apply NoDup_app in Hnd as (_ & _ & Hnd). cbn in Hnd. by apply NoDup_app in Hnd as (Hnd & _).
Qed.

Lemma segs_edges c x : c ∈ cs → x ∈ c_segs c → x ∈ edges gr.
Proof.
  intros Hc Hx. apply elookup_Some; [apply (ri_norm _ _ _ _ R)|]. rewrite (nz_seg _ _ _ (ri_norm _ _ _ _ R) c x Hc Hx). by eexists.
Qed.

(** Every edge of the result is a segment or a short edge of [g0]. *)
Lemma run_edges x : x ∈ edges gr ↔ (∃ c, c ∈ cs ∧ x ∈ c_segs c) ∨ x ∈ edges g0 ∧ ∀ c, c ∈ cs → x ≠ c_e c.
Proof.
  pose proof (ri_norm _ _ _ _ R) as Hn. rewrite <-(elookup_Some gr x (dg_wf _ (nz_digraph _ _ _ Hn))). split.
  - intros Hx. destruct (decide (Exists (λ c, x ∈ c_segs c) cs)) as [(c & Hc & Hxc)%Exists_exists|Hno]; [left; eauto|right].
    assert (∀ c, c ∈ cs → x ≠ c_e c) as Hne by (intros c Hc ->; rewrite (nz_gone _ _ _ Hn c Hc) in Hx; by destruct Hx).
    split; [|done]. apply (elookup_Some g0 x); [apply H0|]. rewrite <-(nz_kept _ _ _ Hn x); [done|]. intros c Hc. split; [|by apply Hne].
    intros Hxc. apply Hno, Exists_exists. eauto.
  - intros [(c & Hc & Hx)|[Hx Hne]]; [rewrite (nz_seg _ _ _ Hn c x Hc Hx); by eexists|]. rewrite (nz_kept _ _ _ Hn x); [by apply elookup_Some; [apply H0|]|].
    intros c Hc. split; [|by apply Hne]. intros Hs%(seg_dummy g0 (rr_digraph _ H0)); [|by apply (nz_edge _ _ _ Hn c)].
    destruct (edges_nodes g0 x (dg_wf _ (rr_digraph _ H0)) Hx). destruct Hs as [Hs|Hs]; by eapply dummy_not_old in Hs.
Qed.

(** The only edge out of a dummy leads to the next node of its chain. *)
Lemma dummy_out c i d : c ∈ cs → c_ds c !! i = Some d →
  (∃ x, x ∈ edges gr ∧ ev x = d ∧ Some (ew x) = (c_ds c ++ [ew (c_e c)]) !! S i) ∧
  ∀ x, x ∈ edges gr → ev x = d → Some (ew x) = (c_ds c ++ [ew (c_e c)]) !! S i.
Proof.
  intros Hc Hi. assert (d ∈ c_ds c) as Hd by (by eapply list_elem_of_lookup_2). assert ((c_ds c ++ [ew (c_e c)]) !! i = Some d) as Hi' by (by apply lookup_app_l_Some).
  assert (i < length (c_ds c)) as Hlt by (by eapply lookup_lt_Some). split.
  - destruct (lookup_lt_is_Some_2 (c_ds c ++ [ew (c_e c)]) (S i)) as [b Hb]; [rewrite length_app; cbn; lia|].
    exists (EdgeObj d b (ename (c_e c))). split_and!; [|done|done]. apply (segs_edges c); [done|]. rewrite c_segs_closed by done. by eapply segs_lookup.
  - intros x [(c' & Hc' & Hx)|[Hx _]]%run_edges Hxd.
    2:{ destruct (edges_nodes g0 x (dg_wf _ (rr_digraph _ H0)) Hx) as [Hv _]. rewrite Hxd in Hv. by eapply dummy_not_old in Hd. }
    rewrite c_segs_closed in Hx by done. apply elem_of_segs_index in Hx as [[Hx _]|(j & Hj & Hj' & _)].
    { rewrite Hx in Hxd. cbn in Hxd. destruct (chain_ends c' Hc') as [Hv _]. rewrite Hxd in Hv. by eapply dummy_not_old in Hd. }
    rewrite Hxd in Hj. apply lookup_app_Some in Hj as [Hj|[_ Hj]].
    + assert (c' = c) as -> by (eapply (concat_owner c_ds); [apply (nz_nodup _ _ _ (ri_norm _ _ _ _ R))|done|done| |exact Hd]; by eapply list_elem_of_lookup_2).
      assert (j = i) as -> by (eapply NoDup_lookup; [by apply (chain_dummies_nodup c)|done|done]). done.
    + apply list_lookup_singleton_Some in Hj as [_ Hj]. destruct (chain_ends c' Hc') as [_ Hw]. rewrite Hj in Hw. by eapply dummy_not_old in Hd.
Qed.
End Chains.

(** ** All chains *)

(** The passes between [run] and [undo] that move nodes keep these fields of a label. *)
Definition keeps_chain (f : string → nodeLabel → nodeLabel) : Prop := ∀ u l, dummy (f u l) = dummy l ∧ more (f u l) = more l.

Section Undo.
Implicit Types (g : layoutGraph) (c : chain) (x e : edgeObj) (v u d : string).
Context (g0 gr g1 : layoutGraph) (cs : list chain) (f : string → nodeLabel → nodeLabel) (fe : edgeObj → edgeLabel → edgeLabel).
Context (H0 : rank_ready g0) (R : run_inv g0 (edges g0) cs gr) (Hr : remapped gr f fe g1) (Hf : keeps_chain f).
Context (Hplain : ∀ v, isNode g0 v → ∃ l, node g0 v = Some l ∧ is_dummy l = false).

Definition restored c : edgeLabel := collect (c_l c) (omap (node g1) (c_ds c)).

Record undone (pre : list chain) g : Prop := {
  ud_digraph : digraph g;
  ud_options : isMultigraph g = true ∧ glabel g = glabel g1;
  ud_nodes : ∀ u, oget (nodes_ g) u = if decide (u ∈ all_dummies pre) then None else oget (nodes_ g1) u;
  ud_restored : ∀ c, c ∈ pre → elookup g (c_e c) = Some (Some (restored c));
  ud_edges : ∀ x, (∀ c, c ∈ pre → x ≠ c_e c) →
    elookup g x = if decide (ev x ∈ all_dummies pre ∨ ew x ∈ all_dummies pre) then None else elookup g1 x
}.

Lemma elookup_remapped x : is_Some (elookup g1 x) ↔ is_Some (elookup gr x).
Proof. rewrite (rm_edges _ _ _ _ Hr). apply fmap_is_Some. Qed.

Lemma old_node u : isNode g0 u → isNode g1 u ∧ ∃ l, node g1 u = Some l ∧ is_dummy l = false.
Proof.
  intros Hu. destruct (Hplain u Hu) as (l & Hl & Hd). assert (isNode gr u) as Hur by (unfold isNode; by rewrite (nz_old _ _ _ (ri_norm _ _ _ _ R) u Hu)).
  split; [by apply (remapped_isNode _ _ _ _ u Hr)|]. exists (f u l). rewrite (remapped_node _ _ _ _ u Hr). unfold node in *.
  rewrite (nz_old _ _ _ (ri_norm _ _ _ _ R) u Hu), Hl. split; [done|]. unfold is_dummy in *. by rewrite (proj1 (Hf u l)).
Qed.

Lemma dummy_node c i d : c ∈ cs → c_ds c !! i = Some d →
  isNode g1 d ∧ ∃ l, node g1 d = Some l ∧ is_dummy l = true ∧ origObj (more l) = Some (c_e c) ∧ origLabel (more l) = Some (c_l c).
Proof.
  intros Hc Hi. pose proof (nz_dummy _ _ _ (ri_norm _ _ _ _ R) c i d Hc Hi) as Hd. split; [apply (remapped_isNode _ _ _ _ d Hr); by eexists|].
  rewrite (remapped_node _ _ _ _ d Hr). unfold node. rewrite Hd. cbn [mjoin option_join fmap option_fmap option_map]. eexists. split; [done|].
  destruct (Hf d (dummy_label (c_l c) (c_e c) (c_from c + 1 + Z.of_nat i))) as [F1 F2]. unfold is_dummy. rewrite F1, F2. unfold dummy_label. by case_decide.
Qed.

Lemma undone_start : undone [] g1.
Proof.
  pose proof (ri_norm _ _ _ _ R) as Hn. destruct (remapped_queries _ _ _ _ Hr) as (_ & _ & Hm & _).
  split; [apply Hr| |done|by intros c ?%elem_of_nil|].
  - split; [|done]. rewrite Hm. destruct (nz_options _ _ _ Hn) as [-> _]. apply H0.
  - intros x _. rewrite decide_False; [done|]. by intros [?%elem_of_nil|?%elem_of_nil].
Qed.

Lemma own_dummies pre c suf : cs = pre ++ c :: suf →
  c ∈ cs ∧ (∀ c', c' ∈ pre → c' ∈ cs) ∧ all_dummies (pre ++ [c]) = all_dummies pre ++ c_ds c ∧ (∀ u, u ∈ c_ds c → u ∉ all_dummies pre) ∧
  ∀ u, isNode g0 u → u ∉ all_dummies pre ∧ u ∉ c_ds c.
Proof.
  intros Hcs. assert (c ∈ cs) as Hc by (rewrite Hcs; apply elem_of_app; right; by left).
  assert (∀ c', c' ∈ pre → c' ∈ cs) as Hpre by (intros c' ?; rewrite Hcs; apply elem_of_app; by left). split_and!; [done|done| | |].
  - unfold all_dummies. rewrite fmap_app, concat_app. cbn. by rewrite app_nil_r.
  - pose proof (nz_nodup _ _ _ (ri_norm _ _ _ _ R)) as Hnd. rewrite Hcs in Hnd. unfold all_dummies in *. rewrite fmap_app, concat_app in Hnd. cbn in Hnd.
    apply NoDup_app in Hnd as (_ & Hnd & _). intros u Hu Hp. apply (Hnd u Hp), elem_of_app. by left.
  - intros u Hu. split; [intros (c' & Hc' & Hin)%elem_of_all_dummies|intros Hin]; by apply (dummy_not_old g0 gr cs R _ u) in Hin; [|eauto].
Qed.

(** The edges out of the dummies of the next chain are still there when its edge has been put back. *)
Lemma restored_out pre c suf g g2 x :
  cs = pre ++ c :: suf → undone pre g → edge_changed g (c_e c) (c_l c) g2 → ev x ∈ c_ds c → x ∈ edges g2 ↔ x ∈ edges gr ∧ ew x ∉ all_dummies pre.
Proof.
  intros Hcs U P Hx. destruct (own_dummies pre c suf Hcs) as (Hc & Hpre & _ & Hown & Hold). pose proof (ri_norm _ _ _ _ R) as Hn.
  rewrite <-(elookup_Some g2 x (dg_wf _ (ec_digraph _ _ _ _ P))), <-(elookup_Some gr x (dg_wf _ (nz_digraph _ _ _ Hn))), <-elookup_remapped.
  assert (∀ c', c' ∈ cs → x ≠ c_e c') as Hne.
  { intros c' Hc' ->. apply (dummy_not_old g0 gr cs R c _ Hc Hx). by apply (chain_ends g0 gr cs H0 R c' Hc'). }
  rewrite (ec_edges _ _ _ _ P), decide_False by (by apply Hne). rewrite (ud_edges _ _ U) by auto.
  destruct (decide (ev x ∈ all_dummies pre ∨ ew x ∈ all_dummies pre)) as [[Hp|Hp]|Hp]; [by destruct (Hown _ Hx)|split; [by intros []|by intros []]|].
  split; [intros ?; split; [done|]|by intros []]. intros Hp'. apply Hp. by right.
Qed.

Lemma undone_extend pre c suf g g2 g3 :
  cs = pre ++ c :: suf → undone pre g → edge_changed g (c_e c) (c_l c) g2 → unchained g2 (c_e c) (restored c) (c_ds c) g3 → undone (pre ++ [c]) g3.
Proof.
  intros Hcs U P [U1 (U2 & _ & U2') U3 U4]. destruct (own_dummies pre c suf Hcs) as (Hc & Hpre & Had & Hown & Hold).
  destruct (ec_options _ _ _ _ P) as (O1 & O2 & O3). destruct (ud_options _ _ U) as [Hm Hgl]. split.
  - done.
  - split; congruence.
  - intros u. rewrite U3, (ec_nodes _ _ _ _ P), (ud_nodes _ _ U), Had. clear. destruct (decide (u ∈ c_ds c)), (decide (u ∈ all_dummies pre)), (decide (u ∈ all_dummies pre ++ c_ds c)); set_solver.
  - intros c' Hc'. rewrite U4. destruct (decide (c_e c' = c_e c)) as [Heq|Hne].
    { assert (c' = c) as ->; [|done]. apply elem_of_app in Hc' as [Hc'| ->%list_elem_of_singleton]; [|done]. pose proof (ri_nodup _ _ _ _ R) as Hnd.
      rewrite Hcs, fmap_app in Hnd. apply NoDup_app in Hnd as (_ & Hnd & _). destruct (Hnd (c_e c')); [by apply list_elem_of_fmap_2|]. cbn. rewrite Heq. by left. }
    apply elem_of_app in Hc' as [Hc'| ->%list_elem_of_singleton]; [|done].
    destruct (chain_ends g0 gr cs H0 R c' (Hpre _ Hc')). rewrite decide_False by (intros [Hin|Hin]; by apply Hold in Hin).
    rewrite (ec_edges _ _ _ _ P), decide_False by done. by apply (ud_restored _ _ U).
  - intros x Hx. assert (x ≠ c_e c) as Hxc by (apply Hx, elem_of_app; right; by left). rewrite U4, (ec_edges _ _ _ _ P), !(decide_False (P := x = c_e c)) by done.
    rewrite (ud_edges _ _ U) by (intros c' Hc'; apply Hx, elem_of_app; by left). rewrite Had. clear.
    destruct (decide (ev x ∈ c_ds c ∨ ew x ∈ c_ds c)), (decide (ev x ∈ all_dummies pre ∨ ew x ∈ all_dummies pre)), (decide (ev x ∈ all_dummies pre ++ c_ds c ∨ ew x ∈ all_dummies pre ++ c_ds c)); set_solver.
Qed.

Lemma undo_chain_ok pre c suf g d :
  cs = pre ++ c :: suf → undone pre g → head (c_ds c) = Some d → ∃ g', undo_chain g d = Ok g' ∧ undone (pre ++ [c]) g'.
Proof.
  intros Hcs U Hhd. destruct (own_dummies pre c suf Hcs) as (Hc & Hpre & Had & Hown & Hold).
  assert (∀ u, u ∉ all_dummies pre → oget (nodes_ g) u = oget (nodes_ g1) u) as Hnode by (intros u Hu; by rewrite (ud_nodes _ _ U), decide_False).
  destruct (chain_ends g0 gr cs H0 R c Hc) as [Hv Hw]. destruct (old_node _ Hv) as [Hv1 _], (old_node _ Hw) as [Hw1 (lw & Hlw & Hdw)].
  assert (c_ds c !! 0 = Some d) as Hd0 by (by destruct (c_ds c)). destruct (dummy_node c 0 d Hc Hd0) as (_ & ld & Hld & Hdd & Hobj & Hlab).
  assert (d ∈ c_ds c) as Hdin by (by eapply list_elem_of_lookup_2). assert (node g d = Some ld) as Hgd by (unfold node in *; by rewrite Hnode by (by apply Hown)).
  unfold undo_chain. rewrite Hgd. cbn [of_option res_bind]. rewrite Hobj, Hlab. cbn [of_option res_bind].
  destruct (nz_edge _ _ _ (ri_norm _ _ _ _ R) c Hc) as [Hce _]. destruct (ud_options _ _ U) as [Hm _].
  destruct (setEdge_changed g (c_e c) (c_l c) (ud_digraph _ _ U) Hm) as (g2 & -> & P); [eapply digraph_edge; [apply H0|done]|unfold isNode; by rewrite Hnode by (by apply Hold)..|].
  cbn [res_bind]. destruct (ec_options _ _ _ _ P) as (O1 & _ & _).
  assert (∀ u, u ∉ all_dummies pre → node g2 u = node g1 u) as Hnode2 by (intros u Hu; unfold node; by rewrite (ec_nodes _ _ _ _ P), Hnode).
  assert (∀ u, u ∈ c_ds c ++ [ew (c_e c)] → u ∉ all_dummies pre) as Hnext.
  { intros b [Hb| ->%list_elem_of_singleton]%elem_of_app; [by apply Hown|by apply Hold]. }
  destruct (undo_loop_ok (c_ds c) (length (nodes g2)) g2 (c_e c) (c_l c) [] (ew (c_e c)) lw d ld) as (g3 & Hl & UC); try (by apply Hold).
  - apply P.
  - congruence.
  - rewrite (ec_edges _ _ _ _ P). by rewrite decide_True.
  - destruct (ck_label _ _ (ri_chains _ _ _ _ R c Hc)) as (l0 & _ & ->). done.
  - by eapply chain_dummies_nodup.
  - by rewrite Hnode2 by (by apply Hold).
  - done.
  - intros i d' Hi. assert (d' ∈ c_ds c) as Hd' by (by eapply list_elem_of_lookup_2). destruct (dummy_node c i d' Hc Hi) as (_ & l' & Hl' & Hdl' & _).
    destruct (dummy_out g0 gr cs H0 R c i d' Hc Hi) as [(x & Hx & Hxv & Hxw) Hall]. pose proof (λ x, restored_out pre c suf g g2 x Hcs U P) as Hout. split_and!.
    + exists l'. by rewrite Hnode2 by (by apply Hown).
    + exists x. split_and!; [|done|done]. apply Hout; [by rewrite Hxv|]. split; [done|]. apply Hnext. by eapply list_elem_of_lookup_2.
    + intros y Hy Hyv. apply Hout in Hy as [Hy _]; [by apply Hall|by rewrite Hyv].
  - by destruct (c_ds c).
  - by rewrite Hnode2 by (by apply Hown).
  - apply submseteq_length, NoDup_submseteq; [by eapply chain_dummies_nodup|]. intros d' [i Hi]%list_elem_of_lookup. apply elem_of_nodes. unfold isNode.
    rewrite (ec_nodes _ _ _ _ P), Hnode by (apply Hown; by eapply list_elem_of_lookup_2). by apply (dummy_node c i d' Hc Hi).
  - exists g3. split; [done|]. apply (undone_extend pre c suf g g2 g3 Hcs U P). unfold restored.
    replace (omap (node g1) (c_ds c)) with (omap (node g2) (c_ds c)); [done|].
    clear -Hnode2 Hown. induction (c_ds c) as [|d ds IH]; [done|]. cbn. rewrite Hnode2 by (apply Hown; by left). rewrite IH by (intros u Hu; apply Hown; by right). done.
Qed.

Lemma undo_ok : ∃ g, undo g1 = Ok g ∧ undone cs g.
Proof.
  unfold undo. destruct (remapped_queries _ _ _ _ Hr) as (_ & -> & _). destruct (nz_chains _ _ _ (ri_norm _ _ _ _ R)) as (gl & -> & Hch & _).
  cbn [of_option res_bind]. rewrite Hch. cbn [default]. assert (∀ suf pre g, cs = pre ++ suf → undone pre g → ∃ g', res_fold undo_chain g (omap (head ∘ c_ds) suf) = Ok g' ∧ undone cs g') as Hall.
  { induction suf as [|c suf IH]; intros pre g Hcs U; [rewrite app_nil_r in Hcs; subst; by exists g|].
    assert (c_ds c ≠ []) as Hne by (eapply chain_nonempty; [done|rewrite Hcs; apply elem_of_app; right; by left]). destruct (head (c_ds c)) as [d|] eqn:Hd; [|by destruct (c_ds c)].
    destruct (undo_chain_ok pre c suf g d Hcs U Hd) as (g' & Hg' & U'). cbn. rewrite Hd. cbn. rewrite Hg'. cbn. apply (IH (pre ++ [c])); [by rewrite <-app_assoc|done]. }
  by apply (Hall cs [] g1); [|apply undone_start].
Qed.
End Undo.
