(* ===== verification/DagreNormalizeClaims.v ===== *)
(** * dagre: what splitting long edges guarantees

    [normalize.run] makes every edge join adjacent ranks and [normalize.undo] takes the split back, with the places of the
    dummies as the points of the edge.  Between the two, [order] and [position] of [DagrePosition] apply: the four passes
    together lay out a graph with edges of any length. *)
From Stdlib Require Import QArith_base.
Local Close Scope Q_scope.
From S2P Require Import Prelude JsObject Graphlib GraphWf GraphInv GraphRemove GraphQuery GraphView Lodash DagreTypes DagreBk DagreUtil DagreCross DagreLayers DagreOrder DagreOrderLayer DagreOrderSweep DagreOrderClaims DagreBkClaims DagrePosition DagreNormalize DagreRemap DagreNormalizeRun DagreNormalizeUndo.

Section Ranks.
Implicit Types (g : layoutGraph) (c : chain) (x e : edgeObj) (v u d : string).
Context (g0 gr : layoutGraph) (cs : list chain) (H0 : rank_ready g0) (R : run_inv g0 (edges g0) cs gr).

Lemma isNode_node {L V E} (g : Graph L V E) v l : node g v = Some l → isNode g v.
Proof. unfold node, isNode. destruct (oget (nodes_ g) v); [by eexists|done]. Qed.

Lemma run_old v : isNode g0 v → oget (nodes_ gr) v = oget (nodes_ g0) v.
Proof. apply (nz_old _ _ _ (ri_norm _ _ _ _ R)). Qed.

Lemma run_new v : isNode gr v → ¬ isNode g0 v →
  ∃ c i, c ∈ cs ∧ c_ds c !! i = Some v ∧ node gr v = Some (dummy_label (c_l c) (c_e c) (c_from c + 1 + Z.of_nat i)).
Proof.
  intros Hv Hnew. destruct (nz_node _ _ _ (ri_norm _ _ _ _ R) v Hv) as [?|(c & Hc & [i Hi]%list_elem_of_lookup)%elem_of_all_dummies]; [done|].
  exists c, i. split_and!; [done|done|]. unfold node. by rewrite (nz_dummy _ _ _ (ri_norm _ _ _ _ R) c i v Hc Hi).
Qed.

Lemma dummy_label_rank l e r : rank (dummy_label l e r) = Some r.
Proof. unfold dummy_label. by case_decide. Qed.

Lemma chain_rank c i b : c ∈ cs → (c_ds c ++ [ew (c_e c)]) !! i = Some b → rank_of gr b = Some (c_from c + 1 + Z.of_nat i)%Z.
Proof.
  intros Hc. pose proof (ri_norm _ _ _ _ R) as Hn. intros [Hi|[Hle Hi]]%lookup_app_Some; unfold rank_of, node.
  - rewrite (nz_dummy _ _ _ Hn c i b Hc Hi). cbn. apply dummy_label_rank.
  - apply list_lookup_singleton_Some in Hi as [Hz <-]. rewrite run_old by (by apply (chain_ends g0 gr cs H0 R)).
    change (rank_of g0 (ew (c_e c)) = Some (c_from c + 1 + Z.of_nat i)%Z). rewrite (ck_to _ _ (ri_chains _ _ _ _ R c Hc)). by replace i with (length (c_ds c)) by lia.
Qed.

(** Every edge goes down one rank. *)
Lemma run_short x : x ∈ edges gr → ∃ r, rank_of gr (ev x) = Some r ∧ rank_of gr (ew x) = Some (r + 1)%Z.
Proof.
  intros [(c & Hc & Hx)|[Hx Hno]]%(run_edges g0 gr cs H0 R).
  - rewrite (c_segs_closed g0 gr cs R) in Hx by done. apply elem_of_segs_index in Hx as [[Hx Hz]|(i & Hi & Hi' & _)].
    + exists (c_from c). replace (ev x) with (ev (c_e c)) by (by rewrite Hx). split; [|by rewrite (chain_rank c 0 (ew x) Hc Hz); f_equal; lia].
      unfold rank_of, node. rewrite run_old by (by apply (chain_ends g0 gr cs H0 R)). apply (ck_from _ _ (ri_chains _ _ _ _ R c Hc)).
    + eexists. split; [by apply (chain_rank c i)|]. rewrite (chain_rank c (S i) (ew x) Hc Hi'). f_equal. lia.
  - destruct (rr_edge _ H0 x Hx) as (rv & rw & l & Hv & Hw & Hlt & _). destruct (edges_nodes g0 x (dg_wf _ (rr_digraph _ H0)) Hx).
    exists rv. unfold rank_of, node. rewrite !run_old by done. split; [done|]. destruct (decide (rw = rv + 1)%Z) as [->|Hne]; [done|]. exfalso.
    assert (x ∈ c_e <$> cs) as (c & -> & Hc)%list_elem_of_fmap by (apply (ri_edges _ _ _ _ R); split; [done|by exists rv, rw]). by apply (Hno c Hc).
Qed.

(** Every edge of [g0] is a path of the result, through new nodes. *)
Lemma run_path e l : e ∈ edges g0 → edgeOf g0 e = Some l →
  ∃ ds, (∀ d, d ∈ ds → ¬ isNode g0 d) ∧ NoDup ds ∧
    ∀ x, x ∈ segs (ename e) (ev e) (ds ++ [ew e]) → x ∈ edges gr ∧ weight <$> edgeOf gr x = Some (weight l).
Proof.
  intros He Hl. pose proof (ri_norm _ _ _ _ R) as Hn. assert (plain_edge e) as Hpe by (eapply digraph_edge; [apply H0|done]).
  destruct (decide (e ∈ c_e <$> cs)) as [(c & -> & Hc)%list_elem_of_fmap|Hno].
  - exists (c_ds c). split_and!; [by intros d; apply (dummy_not_old g0 gr cs R)|by eapply chain_dummies_nodup|]. intros x Hx. rewrite <-(c_segs_closed g0 gr cs R c Hc) in Hx.
    assert (x ∈ edges gr) as Hin by (by eapply segs_edges). split; [done|]. rewrite edgeOf_elookup by (done || apply Hn). rewrite (nz_seg _ _ _ Hn c x Hc Hx). cbn.
    destruct (ck_label _ _ (ri_chains _ _ _ _ R c Hc)) as (l0 & Hl0 & ->). assert (l0 = l) as -> by congruence. done.
  - exists []. split_and!; [by intros d ?%elem_of_nil|constructor|]. intros x [->|?%elem_of_nil]%elem_of_cons; [|done].
    replace (EdgeObj (ev e) (ew e) (ename e)) with e by (by destruct e).
    assert (e ∈ edges gr) as Hin by (apply (run_edges g0 gr cs H0 R); right; split; [done|]; intros c Hc ->; by apply Hno, list_elem_of_fmap_2).
    split; [done|]. rewrite (edgeOf_plain gr e) by (done || apply Hn). rewrite (nz_kept _ _ _ Hn e); [by rewrite <-edgeOf_plain, Hl by (done || apply H0)|].
    intros c Hc. assert (e ≠ c_e c) as Hne by (intros ->; by apply Hno, list_elem_of_fmap_2). split; [|done].
    intros Hs%(seg_dummy g0 (rr_digraph _ H0)); [|by apply (nz_edge _ _ _ Hn c)]. destruct (edges_nodes g0 e (dg_wf _ (rr_digraph _ H0)) He).
    destruct Hs as [Hs|Hs]; by apply (dummy_not_old g0 gr cs R c _ Hc) in Hs.
Qed.
End Ranks.

(** [run] returns on a graph whose edges go down; the nodes keep their labels, every other node is a dummy, every edge
    joins adjacent ranks, and every edge of the input is now a path through new nodes whose segments carry its weight. *)
Theorem normalize_run_short id (g : layoutGraph) :
  rank_ready g →
  ∃ id' g', run id g = Ok (id', g') ∧ (∀ v, isNode g v → node g' v = node g v) ∧
    (∀ v, isNode g' v → ¬ isNode g v → ∃ l, node g' v = Some l ∧ is_dummy l = true) ∧
    (∀ x, x ∈ edges g' → ∃ r, rank_of g' (ev x) = Some r ∧ rank_of g' (ew x) = Some (r + 1)%Z) ∧
    ∀ e l, e ∈ edges g → edgeOf g e = Some l → ∃ ds, (∀ d, d ∈ ds → ¬ isNode g d) ∧ NoDup ds ∧
      ∀ x, x ∈ segs (ename e) (ev e) (ds ++ [ew e]) → x ∈ edges g' ∧ weight <$> edgeOf g' x = Some (weight l).
Proof.
  intros H0. destruct (run_ok g H0 id) as (id' & g' & cs & Hrun & R). exists id', g'. split_and!; [done| | | |].
  - intros v Hv. unfold node. by rewrite (run_old g g' cs R).
  - intros v Hv Hnew. destruct (run_new g g' cs R v Hv Hnew) as (c & i & _ & _ & ->). eexists. split; [done|]. unfold dummy_label. by case_decide.
  - apply (run_short g g' cs H0 R).
  - apply (run_path g g' cs H0 R).
Qed.

(** ** Restoring the edges *)

Lemma omap_Forall2 {A B} (h : A → option B) l : (∀ x, x ∈ l → is_Some (h x)) → Forall2 (λ x y, h x = Some y) l (omap h l).
Proof.
  induction l as [|x l IH]; intros Hl; [constructor|]. destruct (Hl x) as [y Hy]; [by left|]. cbn. rewrite Hy. constructor; [done|].
  apply IH. intros z Hz. apply Hl. by right.
Qed.

Section Restore.
Implicit Types (g : layoutGraph) (c : chain) (x e : edgeObj) (v u d : string).
Context (g0 gr g1 : layoutGraph) (cs : list chain) (f : string → nodeLabel → nodeLabel) (fe : edgeObj → edgeLabel → edgeLabel).
Context (H0 : rank_ready g0) (R : run_inv g0 (edges g0) cs gr) (Hr : remapped gr f fe g1) (Hf : keeps_chain f).

Lemma dummies_labelled c : c ∈ cs → Forall2 (λ d n, node g1 d = Some n) (c_ds c) (omap (node g1) (c_ds c)).
Proof.
  intros Hc. apply omap_Forall2. intros d [i Hi]%list_elem_of_lookup. destruct (dummy_node g0 gr g1 cs f fe R Hr Hf c i d Hc Hi) as (_ & l & Hl & _). by exists l.
Qed.

Context (Hplain : ∀ v, isNode g0 v → ∃ l, node g0 v = Some l ∧ is_dummy l = false).

(** The edge [e] of rank span [rv], [rw] after [undo]. *)
Definition edge_restored g e (l : edgeLabel) (rv rw : Z) : Prop :=
  if decide (rw = rv + 1)%Z then edgeOf g e = Some (fe e l)
  else ∃ ds ns l', Z.of_nat (length ds) = (rw - rv - 1)%Z ∧ (∀ x, x ∈ segs (ename e) (ev e) (ds ++ [ew e]) → x ∈ edges g1) ∧
    Forall2 (λ d n, node g1 d = Some n ∧ is_dummy n = true ∧ ¬ isNode g0 d) ds ns ∧
    edgeOf g e = Some l' ∧ l' = collect (with_points (Some []) l) ns ∧ points l' = Some ((λ n, Point (nx n) (ny n)) <$> ns).

Lemma undo_restores g2 : undone g1 cs g2 →
  (∀ u, oget (nodes_ g2) u = if decide (isNode g0 u) then oget (nodes_ g1) u else None) ∧ (∀ x, x ∈ edges g2 ↔ x ∈ edges g0) ∧
  ∀ e l rv rw, e ∈ edges g0 → edgeOf g0 e = Some l → rank_of g0 (ev e) = Some rv → rank_of g0 (ew e) = Some rw → edge_restored g2 e l rv rw.
Proof.
  intros U. pose proof (ri_norm _ _ _ _ R) as Hn. assert (∀ u, isNode g0 u → u ∉ all_dummies cs) as Hold by (intros u Hu Hin; by apply (nz_new _ _ _ Hn u)).
  assert (∀ x, x ∈ edges g0 → (∀ c, c ∈ cs → x ≠ c_e c) → elookup g2 x = (λ o : option edgeLabel, fe x <$> o) <$> elookup g0 x) as Hkept.
  { intros x Hx Hno. destruct (edges_nodes g0 x (dg_wf _ (rr_digraph _ H0)) Hx). rewrite (ud_edges _ _ _ U x Hno), decide_False by (intros [Hin|Hin]; by apply Hold in Hin).
    rewrite (rm_edges _ _ _ _ Hr). f_equal. apply (nz_kept _ _ _ Hn). intros c Hc. split; [|by apply Hno]. intros Hs%(seg_dummy g0 (rr_digraph _ H0)); [|by apply (nz_edge _ _ _ Hn c)].
    destruct Hs as [Hs|Hs]; by apply (dummy_not_old g0 gr cs R c _ Hc) in Hs. }
  split_and!.
  - intros u. rewrite (ud_nodes _ _ _ U). destruct (decide (isNode g0 u)) as [Hu|Hu]; [by rewrite decide_False by (by apply Hold)|]. case_decide as Hd; [done|].
    apply eq_None_not_Some. intros Hs. assert (isNode gr u) as Hur by (by apply (remapped_isNode _ _ _ _ u Hr)). by destruct (nz_node _ _ _ Hn u Hur).
  - intros x. rewrite <-(elookup_Some g2 x (dg_wf _ (ud_digraph _ _ _ U))). destruct (decide (x ∈ c_e <$> cs)) as [(c & -> & Hc)%list_elem_of_fmap|Hno].
    { rewrite (ud_restored _ _ _ U c Hc). split; [intros _; by apply (nz_edge _ _ _ Hn c)|by eexists]. }
    assert (∀ c, c ∈ cs → x ≠ c_e c) as Hno' by (intros c Hc ->; by apply Hno, list_elem_of_fmap_2). split; [|intros Hx; rewrite Hkept by done; by apply fmap_is_Some, elookup_Some; [apply H0|]].
    rewrite (ud_edges _ _ _ U x Hno'). case_decide as Hd; [by intros []|]. rewrite (rm_edges _ _ _ _ Hr), fmap_is_Some. intros Hx.
    apply elookup_Some in Hx; [|apply Hn]. apply (run_edges g0 gr cs H0 R) in Hx as [(c & Hc & Hx)|[? _]]; [|done]. exfalso. apply Hd.
    apply (seg_dummy g0 (rr_digraph _ H0)) in Hx; [|by apply (nz_edge _ _ _ Hn c)]. rewrite !elem_of_all_dummies. destruct Hx; eauto.
  - intros e l rv rw He Hl Hv Hw. assert (plain_edge e) as Hpe by (eapply digraph_edge; [apply H0|done]). unfold edge_restored. case_decide as Hd.
    + rewrite (edgeOf_plain g2 e (ud_digraph _ _ _ U) Hpe), Hkept; [|done|].
      { rewrite (edgeOf_plain g0 e) in Hl by (done || apply H0). destruct (elookup g0 e) as [o|]; [|done]. cbn in Hl |- *. by rewrite Hl. }
      intros c Hc ->.
      assert (c_e c ∈ c_e <$> cs) as Hin by (by apply list_elem_of_fmap_2). apply (ri_edges _ _ _ _ R) in Hin as [_ (rv' & rw' & ? & ? & ?)]. congruence.
    + assert (e ∈ c_e <$> cs) as (c & -> & Hc)%list_elem_of_fmap by (apply (ri_edges _ _ _ _ R); split; [done|by exists rv, rw]).
      destruct (ri_chains _ _ _ _ R c Hc) as [_ (l0 & Hl0 & Hcl) Hfrom Hto]. assert (l0 = l) as -> by congruence.
      exists (c_ds c), (omap (node g1) (c_ds c)), (restored g1 c). split_and!.
      * rewrite Hv in Hfrom. rewrite Hw in Hto. simplify_eq. lia.
      * intros x Hx. destruct (remapped_queries _ _ _ _ Hr) as (-> & _). apply (segs_edges g0 gr cs R c x Hc). by rewrite (c_segs_closed g0 gr cs R).
      * apply Forall2_same_length_lookup. destruct (proj1 (Forall2_same_length_lookup _ _ _) (dummies_labelled c Hc)) as [Hlen Hall]. split; [done|].
        intros i d n Hi Hni. specialize (Hall i d n Hi Hni). cbn in Hall. destruct (dummy_node g0 gr g1 cs f fe R Hr Hf c i d Hc Hi) as (_ & l' & Hl' & Hdl & _).
        assert (l' = n) as -> by congruence. split_and!; [done|done|]. apply (dummy_not_old g0 gr cs R c d Hc). by eapply list_elem_of_lookup_2.
      * rewrite (edgeOf_plain g2 _ (ud_digraph _ _ _ U) Hpe). by rewrite (ud_restored _ _ _ U c Hc).
      * unfold restored. by rewrite Hcl.
      * unfold restored. rewrite Hcl. by rewrite (collect_points _ _ []).
Qed.
End Restore.

(** C20: when nodes have been moved after [run], [undo] returns, removes every dummy, keeps the labels of the other nodes and
    restores exactly the edges of the input: an edge between adjacent ranks with its label, a longer one with the places of
    its dummies as points, one for each rank in between. *)
Theorem normalize_undo_restores id id' (g gr g1 : layoutGraph) f fe :
  rank_ready g → (∀ v, isNode g v → ∃ l, node g v = Some l ∧ is_dummy l = false) →
  run id g = Ok (id', gr) → remapped gr f fe g1 → keeps_chain f →
  ∃ g2, undo g1 = Ok g2 ∧ (∀ u, oget (nodes_ g2) u = if decide (isNode g u) then oget (nodes_ g1) u else None) ∧
    (∀ x, x ∈ edges g2 ↔ x ∈ edges g) ∧
    ∀ e l rv rw, e ∈ edges g → edgeOf g e = Some l → rank_of g (ev e) = Some rv → rank_of g (ew e) = Some rw → edge_restored g g1 fe g2 e l rv rw.
Proof.
  intros H0 Hplain Hrun Hr Hf. destruct (run_ok g H0 id) as (id2 & gr' & cs & Hrun' & R). assert (gr' = gr) as -> by congruence.
  destruct (undo_ok g gr g1 cs f fe H0 R Hr Hf Hplain) as (g2 & Hu & U). exists g2. split; [done|]. by apply (undo_restores g gr g1 cs f fe H0 R Hr Hf g2 U).
Qed.
