(* ===== verification/DagreGeometry.v ===== *)
(** * dagre: directions, bounds and edge ends (lib/coordinate-system.js, parts of lib/layout.js and lib/util.js)

    The passes around [position] that rewrite coordinates and sizes: the direction of the layout, the translation to the origin,
    the places of labels and the points where edges meet the boxes of their ends. *)
From Stdlib Require Import QArith_base Qminmax Qabs.
Local Close Scope Q_scope.
From S2P Require Import Prelude JsObject Graphlib GraphWf GraphInv GraphRemove GraphQuery GraphView Lodash DagreTypes DagreBk DagreUtil DagreNormalize DagreRemap.

(** ** Arithmetic on numbers that may be [undefined] or [NaN] *)

Definition qadd (a b : option Q) : option Q := x ← a; y ← b; Some (x + y)%Q.
Definition qsub (a b : option Q) : option Q := x ← a; y ← b; Some (x - y)%Q.
Definition qmul (a b : option Q) : option Q := x ← a; y ← b; Some (x * y)%Q.
(** [0/0] is [NaN]; a division of another number by zero, which is infinite, does not occur in the passes. *)
Definition qdiv (a b : option Q) : option Q := x ← a; y ← b; if Qeq_bool y 0 then None else Some (x / y)%Q.
Definition qgt (a b : option Q) : bool := match a, b with Some x, Some y => negb (Qle_bool x y) | _, _ => false end.
Definition falsy (a : option Q) : bool := match a with Some x => Qeq_bool x 0 | None => true end.
Definition math_max (a b : option Q) : option Q := x ← a; y ← b; Some (Qmax x y).
(** [Math.min(a,b)] where [a], the minimum so far, starts as [Infinity], here the outer [None]. *)
Definition math_min (a : option (option Q)) (b : option Q) : option (option Q) :=
  match a with None => Some b | Some a => Some (x ← a; y ← b; Some (Qmin x y)) end.

Section Geometry.
Implicit Types (g : layoutGraph) (l : edgeLabel) (n : nodeLabel) (p : point).

(** ** Space for labels *)

Definition with_ranksep (r : Q) (gl : graphLabel) : graphLabel :=
  GraphLabel (nodesep gl) (edgesep gl) r (rankdir gl) (align gl) (marginx gl) (marginy gl) (gwidth gl) (gheight gl) (gmore gl).
Definition with_minlen (m : Z) l : edgeLabel :=
  EdgeLabel m (weight l) (ewidth l) (eheight l) (labeloffset l) (labelpos l) (ex l) (ey l)
    (points l) (labelRank l) (reversed l) (forwardName l) (nestingEdge l).

Definition make_space (dir : string) l : edgeLabel :=
  let l := with_minlen (minlen l * 2) l in
  if decide (toLowerCase (labelpos l) = "c"%string) then l
  else if decide (dir = "TB"%string ∨ dir = "BT"%string) then with_esize (ewidth l + labeloffset l)%Q (eheight l) l
  else with_esize (ewidth l) (eheight l + labeloffset l)%Q l.
Definition makeSpaceForEdgeLabels g : res layoutGraph :=
  gl <-- of_option (Graphlib.graph g) ;;
  let g := setGraph g (Some (with_ranksep (ranksep gl / 2)%Q gl)) in
  res_fold (λ g x, updEdge g x (make_space (rankdir gl))) g (edges g).

(** ** The direction of the layout *)

(** [_.forEach(edge.points,f)]; nothing happens when the edge has no points. *)
Definition map_points (f : point → point) l : edgeLabel := with_points ((λ ps : list point, f <$> ps) <$> points l) l.

Definition swapWidthHeightNode n : nodeLabel := with_size (height n) (width n) n.
Definition swapWidthHeightEdge l : edgeLabel := with_esize (eheight l) (ewidth l) l.
Definition swapWidthHeight g : res layoutGraph := remap g (λ _, swapWidthHeightNode) (λ _, swapWidthHeightEdge).

Definition reverseYNode n : nodeLabel := with_xy (nx n) (Qopp <$> ny n) n.
Definition reverseYPoint p : point := Point (px p) (Qopp <$> py p).
Definition reverseYEdge l : edgeLabel := with_exy (ex l) (Qopp <$> ey l) (map_points reverseYPoint l).
Definition reverseY g : res layoutGraph := remap g (λ _, reverseYNode) (λ _, reverseYEdge).

Definition swapXYNode n : nodeLabel := with_xy (ny n) (nx n) n.
Definition swapXYPoint p : point := Point (py p) (px p).
Definition swapXYEdge l : edgeLabel :=
  let l := map_points swapXYPoint l in
  match ex l with Some _ => with_exy (ey l) (ex l) l | None => l end.
Definition swapXY g : res layoutGraph := remap g (λ _, swapXYNode) (λ _, swapXYEdge).

Definition sideways (dir : string) : bool := bool_decide (dir = "lr"%string) || bool_decide (dir = "rl"%string).
Definition backwards (dir : string) : bool := bool_decide (dir = "bt"%string) || bool_decide (dir = "rl"%string).

Definition adjust g : res layoutGraph :=
  gl <-- of_option (Graphlib.graph g) ;;
  if sideways (toLowerCase (rankdir gl)) then swapWidthHeight g else Ok g.
Definition undo g : res layoutGraph :=
  gl <-- of_option (Graphlib.graph g) ;;
  let dir := toLowerCase (rankdir gl) in
  g <-- (if backwards dir then reverseY g else Ok g) ;;
  if sideways dir then g <-- swapXY g ;; swapWidthHeight g else Ok g.

(** ** The translation to the origin *)

Record extremes := Extremes { minX : option (option Q); maxX : option Q; minY : option (option Q); maxY : option Q }.
Definition getExtremes (s : extremes) (x y : option Q) (w h : Q) : extremes :=
  Extremes (math_min (minX s) (qsub x (Some (w / 2)%Q))) (math_max (maxX s) (qadd x (Some (w / 2)%Q)))
           (math_min (minY s) (qsub y (Some (h / 2)%Q))) (math_max (maxY s) (qadd y (Some (h / 2)%Q))).
Definition node_extremes g (s : extremes) (v : string) : res extremes :=
  n <-- of_option (node g v) ;; Ok (getExtremes s (nx n) (ny n) (width n) (height n)).
Definition edge_extremes g (s : extremes) (e : edgeObj) : res extremes :=
  l <-- of_option (edgeOf g e) ;;
  Ok (match ex l with Some _ => getExtremes s (ex l) (ey l) (ewidth l) (eheight l) | None => s end).

Definition with_gsize (w h : option Q) (gl : graphLabel) : graphLabel :=
  GraphLabel (nodesep gl) (edgesep gl) (ranksep gl) (rankdir gl) (align gl) (marginx gl) (marginy gl) w h (gmore gl).
Definition translateNode (dx dy : option Q) n : nodeLabel := with_xy (qsub (nx n) dx) (qsub (ny n) dy) n.
Definition translatePoint (dx dy : option Q) p : point := Point (qsub (px p) dx) (qsub (py p) dy).
Definition translateEdge (dx dy : option Q) l : edgeLabel :=
  with_exy (qsub (ex l) dx) (qsub (ey l) dy) (map_points (translatePoint dx dy) l).

Definition translateGraph g : res layoutGraph :=
  gl <-- of_option (Graphlib.graph g) ;;
  let marginX := Some (default 0%Q (marginx gl)) in
  let marginY := Some (default 0%Q (marginy gl)) in
  s <-- res_fold (node_extremes g) (Extremes None (Some 0%Q) None (Some 0%Q)) (nodes g) ;;
  s <-- res_fold (edge_extremes g) s (edges g) ;;
  let minX := qsub (mjoin (minX s)) marginX in
  let minY := qsub (mjoin (minY s)) marginY in
  g <-- remap g (λ _, translateNode minX minY) (λ _, translateEdge minX minY) ;;
  Ok (setGraph g (Some (with_gsize (qadd (qsub (maxX s) minX) marginX) (qadd (qsub (maxY s) minY) marginY) gl))).

(** ** The ends of edges *)

Definition centre n : point := Point (nx n) (ny n).

Definition intersectRect (rect : nodeLabel) p : res point :=
  let dx := qsub (px p) (nx rect) in
  let dy := qsub (py p) (ny rect) in
  let w := (width rect / 2)%Q in
  let h := (height rect / 2)%Q in
  if falsy dx && falsy dy then Throw (JsError "Not possible to find intersection inside of the rectangle")
  else
    let '(sx, sy) :=
      if qgt (qmul (Qabs <$> dy) (Some w)) (qmul (Qabs <$> dx) (Some h)) then
        let h := if qgt (Some 0%Q) dy then (- h)%Q else h in
        (qdiv (qmul (Some h) dx) dy, Some h)
      else
        let w := if qgt (Some 0%Q) dx then (- w)%Q else w in
        (Some w, qdiv (qmul (Some w) dy) dx) in
    Ok (Point (qadd (nx rect) sx) (qadd (ny rect) sy)).

(** The points of an edge between [nodeV] and [nodeW] with its two ends. *)
Definition edge_points (nodeV nodeW : nodeLabel) l : res (list point) :=
  ends <-- match points l with
           | None => Ok ([], centre nodeW, centre nodeV)
           | Some ps => p1 <-- of_option (head ps) ;; p2 <-- of_option (list.last ps) ;; Ok (ps, p1, p2)
           end ;;
  let '(ps, p1, p2) := ends in
  a <-- intersectRect nodeV p1 ;;
  b <-- intersectRect nodeW p2 ;;
  Ok (a :: ps ++ [b]).
Definition intersect_edge g (e : edgeObj) : res layoutGraph :=
  l <-- of_option (edgeOf g e) ;;
  nodeV <-- of_option (node g (ev e)) ;;
  nodeW <-- of_option (node g (ew e)) ;;
  ps <-- edge_points nodeV nodeW l ;;
  updEdge g e (with_points (Some ps)).
Definition assignNodeIntersects g : res layoutGraph := res_fold intersect_edge g (edges g).

(** ** Labels and directions of edges *)

Definition fixup_label l : edgeLabel :=
  match ex l with
  | None => l
  | Some x =>
      if decide (labelpos l = "l"%string) then
        let l := with_esize (ewidth l - labeloffset l)%Q (eheight l) l in with_exy (Some (x - (ewidth l / 2 + labeloffset l))%Q) (ey l) l
      else if decide (labelpos l = "r"%string) then
        let l := with_esize (ewidth l - labeloffset l)%Q (eheight l) l in with_exy (Some (x + (ewidth l / 2 + labeloffset l))%Q) (ey l) l
      else l
  end.
Definition fixupEdgeLabelCoords g : res layoutGraph := res_fold (λ g x, updEdge g x fixup_label) g (edges g).

Definition reverse_points g (e : edgeObj) : res layoutGraph :=
  l <-- of_option (edgeOf g e) ;;
  if reversed l then ps <-- of_option (points l) ;; updEdge g e (with_points (Some (reverse ps))) else Ok g.
Definition reversePointsForReversedEdges g : res layoutGraph := res_fold reverse_points g (edges g).
End Geometry.
