(* ===== verification/DagreGeometryClaims.v ===== *)
(** * dagre: what the geometric passes guarantee

    [translateGraph] computes bounds that hold every node and label; [intersectRect] returns the point of the border towards a
    point; changing the direction of the layout keeps boxes apart. *)
From Stdlib Require Import QArith_base Qminmax Qabs Qround Qfield Lqa.
Local Close Scope Q_scope.
From S2P Require Import Prelude JsObject Graphlib GraphWf GraphInv GraphRemove GraphQuery GraphView Lodash DagreTypes DagreBk DagreUtil DagrePosition DagreNormalize DagreRemap DagreGeometry.

(** ** Extremes *)

Section Extremes.
Implicit Types (s : extremes) (g : layoutGraph).

(** The maxima are numbers; the minima are numbers, or [Infinity] when nothing has been seen. *)
Definition finite s : Prop :=
  is_Some (maxX s) ∧ is_Some (maxY s) ∧ (minX s = None ∨ ∃ a, minX s = Some (Some a)) ∧ (minY s = None ∨ ∃ a, minY s = Some (Some a)).

Definition at_most (m : option (option Q)) (q : Q) : Prop := ∃ a, m = Some (Some a) ∧ (a <= q)%Q.
Definition at_least (m : option Q) (q : Q) : Prop := ∃ a, m = Some a ∧ (q <= a)%Q.
Definition seen s (x y w h : Q) : Prop :=
  at_most (minX s) (x - w / 2) ∧ at_least (maxX s) (x + w / 2) ∧ at_most (minY s) (y - h / 2) ∧ at_least (maxY s) (y + h / 2).

Lemma math_min_ok (m : option (option Q)) b : m = None ∨ (∃ a, m = Some (Some a)) →
  (∃ a, math_min m (Some b) = Some (Some a)) ∧ at_most (math_min m (Some b)) b ∧ ∀ q, at_most m q → at_most (math_min m (Some b)) q.
Proof.
  intros [->|[a ->]]; cbn; unfold at_most.
  - split_and!; [by eexists|exists b; split; [done|apply Qle_refl]|by intros q (? & ? & _)].
  - split_and!; [by eexists|exists (Qmin a b); split; [done|apply Q.le_min_r]|]. intros q (a' & [= <-] & Hq). exists (Qmin a b). split; [done|].
    eapply Qle_trans; [apply Q.le_min_l|done].
Qed.

Lemma math_max_ok (m : option Q) b : is_Some m →
  is_Some (math_max m (Some b)) ∧ at_least (math_max m (Some b)) b ∧ ∀ q, at_least m q → at_least (math_max m (Some b)) q.
Proof.
  intros [a ->]; cbn; unfold at_least. split_and!; [by eexists|exists (Qmax a b); split; [done|apply Q.le_max_r]|].
  intros q (a' & [= <-] & Hq). exists (Qmax a b). split; [done|]. eapply Qle_trans; [done|apply Q.le_max_l].
Qed.

Lemma getExtremes_ok s x y w h : finite s →
  finite (getExtremes s (Some x) (Some y) w h) ∧ seen (getExtremes s (Some x) (Some y) w h) x y w h ∧
  ∀ x' y' w' h', seen s x' y' w' h' → seen (getExtremes s (Some x) (Some y) w h) x' y' w' h'.
Proof.
  intros (F1 & F2 & F3 & F4). unfold getExtremes. cbn [qsub qadd mbind option_bind].
  destruct (math_min_ok _ (x - w / 2) F3) as (A1 & A2 & A3), (math_min_ok _ (y - h / 2) F4) as (B1 & B2 & B3),
    (math_max_ok _ (x + w / 2) F1) as (C1 & C2 & C3), (math_max_ok _ (y + h / 2) F2) as (D1 & D2 & D3).
  split_and!; [by split_and!; cbn; auto|by split_and!|]. intros x' y' w' h' (S1 & S2 & S3 & S4). split_and!; cbn; auto.
Qed.

(** What the labels need for finite extremes. *)
Record drawable g : Prop := {
  pl_labelled : labelled g;
  pl_node : ∀ v n, node g v = Some n → is_Some (nx n) ∧ is_Some (ny n);
  pl_edge : ∀ x l, x ∈ edges g → edgeOf g x = Some l → is_Some (ex l) → is_Some (ey l)
}.

Lemma extremes_ok g : drawable g →
  ∃ s1 s2, res_fold (node_extremes g) (Extremes None (Some 0%Q) None (Some 0%Q)) (nodes g) = Ok s1 ∧ res_fold (edge_extremes g) s1 (edges g) = Ok s2 ∧
    (∀ v n x y, node g v = Some n → nx n = Some x → ny n = Some y → seen s2 x y (width n) (height n)) ∧
    ∀ e l x y, e ∈ edges g → edgeOf g e = Some l → ex l = Some x → ey l = Some y → seen s2 x y (ewidth l) (eheight l).
Proof.
  intros [Hg Hn He].
  destruct (res_fold_inv (node_extremes g) (λ done s, finite s ∧ ∀ v n x y, v ∈ done → node g v = Some n → nx n = Some x → ny n = Some y → seen s x y (width n) (height n))
    (nodes g) (Extremes None (Some 0%Q) None (Some 0%Q))) as (s1 & H1 & F1 & S1).
  - split; [split_and!; [by eexists|by eexists|by left|by left]|by intros v n x y ?%elem_of_nil].
  - intros done v rest s Heq [F S]. assert (isNode g v) as Hv by (apply elem_of_nodes; rewrite Heq; set_solver). destruct (lb_node _ Hg v Hv) as [n Hnv].
    destruct (Hn v n Hnv) as [[x Hx] [y Hy]]. unfold node_extremes. rewrite Hnv. cbn [of_option res_bind]. rewrite Hx, Hy. destruct (getExtremes_ok s x y (width n) (height n) F) as (F' & S' & Hmono).
    eexists. split; [done|]. split; [done|]. intros u n' x' y' [Hu| ->%list_elem_of_singleton]%elem_of_app Hn' Hx' Hy'; [by apply Hmono, (S u)|]. by simplify_eq.
  - destruct (res_fold_inv (edge_extremes g) (λ done s, finite s ∧ (∀ v n x y, node g v = Some n → nx n = Some x → ny n = Some y → seen s x y (width n) (height n)) ∧
      ∀ e l x y, e ∈ done → edgeOf g e = Some l → ex l = Some x → ey l = Some y → seen s x y (ewidth l) (eheight l)) (edges g) s1) as (s2 & H2 & F2 & S2 & S2').
    + split; [done|]. split; [|by intros e l x y ?%elem_of_nil]. intros v n x y Hv. eapply S1; [|done]. apply elem_of_nodes. unfold node in Hv. destruct (oget (nodes_ g) v) eqn:E; [by eexists|done].
    + intros done e rest s Heq (F & S & S'). assert (e ∈ edges g) as Hin by (rewrite Heq; set_solver). destruct (lb_edge _ Hg e Hin) as [l Hl]. unfold edge_extremes. rewrite Hl. cbn [of_option res_bind].
      destruct (ex l) as [x|] eqn:Hx.
      * destruct (He e l Hin Hl) as [y Hy]; [by rewrite Hx|]. rewrite Hy. destruct (getExtremes_ok s x y (ewidth l) (eheight l) F) as (F' & Hs & Hmono). eexists. split; [done|]. split; [done|].
        split; [intros; by eapply Hmono, S|]. intros e' l' x' y' [Hi| ->%list_elem_of_singleton]%elem_of_app Hl' Hx' Hy'; [by eapply Hmono, S'|]. by simplify_eq.
      * exists s. split; [done|]. split; [done|]. split; [done|]. intros e' l' x' y' [Hi| ->%list_elem_of_singleton]%elem_of_app Hl' Hx' Hy'; [by eapply S'|]. congruence.
    + by exists s1, s2.
Qed.
End Extremes.

(** ** The translation *)

Section Translate.
Implicit Types (g : layoutGraph) (gl : graphLabel).

(** A box of size [w], [h] around [x], [y] lies within the bounds of the graph, margins left free. *)
Definition within gl (x y w h : Q) : Prop :=
  ∃ W H, gwidth gl = Some W ∧ gheight gl = Some H ∧
    (default 0 (marginx gl) <= x - w / 2 ∧ x + w / 2 <= W - default 0 (marginx gl) ∧
     default 0 (marginy gl) <= y - h / 2 ∧ y + h / 2 <= H - default 0 (marginy gl))%Q.

Lemma translateGraph_ok g gl : drawable g → Graphlib.graph g = Some gl →
  ∃ dx dy W H g1, translateGraph g = Ok (setGraph g1 (Some (with_gsize W H gl))) ∧
    remapped g (λ _, translateNode dx dy) (λ _, translateEdge dx dy) g1 ∧
    (∀ v n x y, node g v = Some n → nx n = Some x → ny n = Some y →
      ∃ a b, dx = Some a ∧ dy = Some b ∧ within (with_gsize W H gl) (x - a) (y - b) (width n) (height n)) ∧
    ∀ e l x y, e ∈ edges g → edgeOf g e = Some l → ex l = Some x → ey l = Some y →
      ∃ a b, dx = Some a ∧ dy = Some b ∧ within (with_gsize W H gl) (x - a) (y - b) (ewidth l) (eheight l).
Proof.
  intros Hd Hgl. destruct (extremes_ok g Hd) as (s1 & s2 & H1 & H2 & Sn & Se). unfold translateGraph. rewrite Hgl. cbn [of_option res_bind]. rewrite H1. cbn [res_bind]. rewrite H2. cbn [res_bind].
  set (mx := default 0%Q (marginx gl)). set (my := default 0%Q (marginy gl)). set (dx := qsub (mjoin (minX s2)) (Some mx)). set (dy := qsub (mjoin (minY s2)) (Some my)).
  destruct (remap_ok g (λ _, translateNode dx dy) (λ _, translateEdge dx dy) (pl_labelled _ Hd)) as (g1 & -> & R). cbn [res_bind].
  exists dx, dy, (qadd (qsub (maxX s2) dx) (Some mx)), (qadd (qsub (maxY s2) dy) (Some my)), g1.
  assert (∀ x y w h, seen s2 x y w h → ∃ a b, dx = Some a ∧ dy = Some b ∧ within (with_gsize (qadd (qsub (maxX s2) dx) (Some mx)) (qadd (qsub (maxY s2) dy) (Some my)) gl) (x - a) (y - b) w h) as Hin.
  { intros x y w h ((a & Ha & La) & (A & HA & LA) & (b & Hb & Lb) & (B & HB & LB)). unfold dx, dy. rewrite Ha, Hb, HA, HB. cbn. eexists _, _. split_and!; [done|done|].
    eexists _, _. split_and!; [done|done|..]; cbn; fold mx; fold my; lra. }
  split_and!; [done|done|intros; by apply Hin, (Sn v n)|intros; by apply Hin, (Se e l)].
Qed.
End Translate.

(** ** Where an edge meets a box *)

Section Border.
Implicit Types (rect : nodeLabel) (p : point).

(** The vector [sx], [sy] from the centre of a box of half sizes [w], [h] leads to its border, in the direction [dx], [dy]. *)
Definition border_vector (w h dx dy sx sy : Q) : Prop :=
  (∃ t, 0 <= t ∧ sx == t * dx ∧ sy == t * dy)%Q ∧ (Qabs sx == w ∧ Qabs sy <= h ∨ Qabs sy == h ∧ Qabs sx <= w)%Q.

Lemma Qabs_div n d : ¬ (d == 0)%Q → (Qabs (n / d) == Qabs n / Qabs d)%Q.
Proof. intros Hd. unfold Qdiv. by rewrite Qabs_Qmult, Qabs_Qinv. Qed.

Lemma Qabs_strict d : ¬ (d == 0)%Q → (0 < Qabs d)%Q.
Proof.
  intros Hd. destruct (Q_dec 0 d) as [[?|?]|?]; [rewrite Qabs_pos by lra; lra|rewrite Qabs_neg by lra; lra|]. exfalso. apply Hd. lra.
Qed.

(** Scaling [dx], [dy] so that the second component becomes [± h]. *)
Lemma scaled_vector h w dx dy : (0 <= h)%Q → ¬ (dy == 0)%Q → (Qabs dx * h <= Qabs dy * w)%Q →
  let h' := if qgt (Some 0%Q) (Some dy) then (- h)%Q else h in
  (∃ t, 0 <= t ∧ h' * dx / dy == t * dx ∧ h' == t * dy)%Q ∧ (Qabs h' == h ∧ Qabs (h' * dx / dy) <= w)%Q.
Proof.
  intros Hh Hdy Hle h'. assert (Qabs h' == h)%Q as Habs by (unfold h'; destruct (qgt _ _); rewrite ?Qabs_opp; by apply Qabs_pos).
  split; [|split; [done|]].
  - exists (h' / dy)%Q. split_and!; [|field; done|field; done]. unfold h', qgt. destruct (Qle_bool 0 dy) eqn:Hs; cbn.
    + apply Qle_bool_iff in Hs. apply Qle_shift_div_l; lra.
    + assert (dy < 0)%Q by (apply Qnot_le_lt; intros ?%Qle_bool_iff; congruence). assert (- h / dy == h / - dy)%Q as -> by (field; lra). apply Qle_shift_div_l; lra.
  - rewrite Qabs_div, Qabs_Qmult, Habs by done. apply Qle_shift_div_r; [by apply Qabs_strict|]. rewrite (Qmult_comm h), (Qmult_comm w). done.
Qed.

(** [intersectRect] throws exactly when the point is the centre; otherwise it returns the point of the border on the
    line from the centre to the point, except that a box without width gives [NaN] for a point above or below it. *)
Lemma intersectRect_ok rect p x y a b :
  nx rect = Some x → ny rect = Some y → px p = Some a → py p = Some b → (0 <= width rect)%Q → (0 <= height rect)%Q →
  if Qeq_bool (a - x) 0 && Qeq_bool (b - y) 0 then intersectRect rect p = Throw (JsError "Not possible to find intersection inside of the rectangle")
  else if Qeq_bool (width rect) 0 && Qeq_bool (a - x) 0 then ∃ u, intersectRect rect p = Ok (Point (Some u) None)
  else ∃ sx sy, intersectRect rect p = Ok (Point (Some (x + sx)%Q) (Some (y + sy)%Q)) ∧ border_vector (width rect / 2) (height rect / 2) (a - x) (b - y) sx sy.
Proof.
  intros Hx Hy Ha Hb Hw Hh. unfold intersectRect. rewrite Hx, Hy, Ha, Hb. cbn [qsub mbind option_bind falsy fmap option_fmap option_map qmul].
  set (dx := (a - x)%Q). set (dy := (b - y)%Q). set (w := (width rect / 2)%Q). set (h := (height rect / 2)%Q).
  assert (0 <= w)%Q as Hw2 by (apply Qle_shift_div_l; lra). assert (0 <= h)%Q as Hh2 by (apply Qle_shift_div_l; lra).
  destruct (Qeq_bool dx 0 && Qeq_bool dy 0) eqn:Hzero; [done|]. apply andb_false_iff in Hzero. cbn [qgt].
  pose proof (Qabs_nonneg dx) as Ndx. pose proof (Qabs_nonneg dy) as Ndy. assert (0 <= Qabs dx * h)%Q as Npos by (by apply Qmult_le_0_compat).
  destruct (Qle_bool (Qabs dy * w) (Qabs dx * h)) eqn:Hc; cbn [negb].
  - apply Qle_bool_iff in Hc. destruct (Qeq_bool dx 0) eqn:Hdx.
    + destruct Hzero as [?|Hdy]; [done|]. apply Qeq_bool_iff in Hdx. apply Qeq_bool_neq in Hdy. assert (Qeq_bool (width rect) 0 = true) as ->.
      { apply Qeq_bool_iff. pose proof (Qabs_strict dy Hdy) as Hd. assert (Qabs dx == 0)%Q as H0 by (rewrite Hdx; done). rewrite H0 in Hc.
        assert (w == 0)%Q as Hw0. { apply Qle_antisym; [|done]. apply (Qmult_le_l _ _ (Qabs dy)); [done|]. lra. }
        unfold w in Hw0. assert (width rect == 2 * (width rect / 2))%Q as -> by (field; done). rewrite Hw0. lra. }
      cbn [andb]. unfold qdiv. cbn [mbind option_bind]. apply Qeq_bool_iff in Hdx. rewrite Hdx. by eexists.
    + rewrite andb_false_r. apply Qeq_bool_neq in Hdx as Hdx'. destruct (scaled_vector w h dy dx Hw2 Hdx' Hc) as [(t & Ht & T1 & T2) [B1 B2]].
      change (qgt (Some 0%Q) (Some dx)) with (negb (Qle_bool 0 dx)) in *. cbn [qdiv mbind option_bind]. rewrite Hdx. cbn [qadd mbind option_bind]. eexists _, _. split; [done|]. split; [by exists t|by left].
  - assert (Qabs dx * h < Qabs dy * w)%Q as Hlt by (apply Qnot_le_lt; intros ?%Qle_bool_iff; congruence).
    assert (¬ dy == 0)%Q as Hdy by (intros Heq; rewrite Heq in Hlt; change (Qabs 0) with 0%Q in Hlt; lra).
    assert (Qeq_bool (width rect) 0 = false) as ->.
    { apply not_true_iff_false. intros Hw0%Qeq_bool_iff. assert (w == 0)%Q as Hz by (unfold w; rewrite Hw0; done). rewrite Hz in Hlt. lra. }
    cbn [andb]. destruct (scaled_vector h w dx dy Hh2 Hdy ltac:(lra)) as [(t & Ht & T1 & T2) [B1 B2]]. change (qgt (Some 0%Q) (Some dy)) with (negb (Qle_bool 0 dy)) in *.
    cbn [qdiv mbind option_bind]. assert (Qeq_bool dy 0 = false) as -> by (apply not_true_iff_false; by rewrite Qeq_bool_iff). cbn [qadd mbind option_bind].
    eexists _, _. split; [done|]. split; [by exists t|by right].
Qed.
End Border.


(** [intersectRect] throws exactly when the point is the centre of the box; otherwise it returns the point of the border on
    the ray from the centre to the point, except that a box without width gives [NaN] when the point is straight above
    or below its centre. *)
Theorem intersectRect_border rect p x y a b :
  nx rect = Some x → ny rect = Some y → px p = Some a → py p = Some b → (0 <= width rect)%Q → (0 <= height rect)%Q →
  if Qeq_bool (a - x) 0 && Qeq_bool (b - y) 0 then intersectRect rect p = Throw (JsError "Not possible to find intersection inside of the rectangle")
  else if Qeq_bool (width rect) 0 && Qeq_bool (a - x) 0 then ∃ u, intersectRect rect p = Ok (Point (Some u) None)
  else ∃ sx sy, intersectRect rect p = Ok (Point (Some (x + sx)%Q) (Some (y + sy)%Q)) ∧ border_vector (width rect / 2) (height rect / 2) (a - x) (b - y) sx sy.
Proof. apply intersectRect_ok. Qed.

(** A box without width and a point below it. *)
Lemma intersectRect_border_witness :
  ∃ u, intersectRect (NodeLabel 0%Q 10%Q (Some 3%Q) (Some 0%Q) None None None None None no_more) (Point (Some 3%Q) (Some 20%Q)) = Ok (Point (Some u) None).
Proof.
  exact (intersectRect_border (NodeLabel 0%Q 10%Q (Some 3%Q) (Some 0%Q) None None None None None no_more) (Point (Some 3%Q) (Some 20%Q)) 3 0 3 20
    eq_refl eq_refl eq_refl eq_refl (Qle_refl 0) ltac:(discriminate)).
Defined.
