(* ===== verification/DagreDrawn.v ===== *)
(** * dagre: drawings and the passes that transform them

    A drawing of a ranked graph has its nodes and edges, boxes that do not overlap and, on every long edge, a point per rank
    outside the boxes.  The passes after [normalize.undo] change coordinates and keep drawings; the last one attaches the
    ends of the edges to the boxes. *)
From Stdlib Require Import QArith_base Qminmax Qabs Lqa.
Local Close Scope Q_scope.
From S2P Require Import Prelude JsObject Graphlib GraphWf GraphInv GraphRemove GraphQuery GraphView Lodash DagreTypes DagreBk DagreUtil DagreOrder DagrePosition DagreNormalize DagreRemap DagreGeometry DagreGeometryClaims.

Definition inside (p : point) (b : box) : Prop :=
  ∃ x y, px p = Some x ∧ py p = Some y ∧ (left_ b < x ∧ x < right_ b ∧ top_ b < y ∧ y < bottom_ b)%Q.

(** Sizes, possibly exchanged. *)
Definition sized (swapped : bool) (l n : nodeLabel) : Prop :=
  if swapped then width n = height l ∧ height n = width l else width n = width l ∧ height n = height l.

(** [a] comes before [b] in the direction of the layout. *)
Definition ahead (sw back : bool) (a b : box) : Prop :=
  match sw, back with
  | false, false => bottom_ a <= top_ b
  | false, true => bottom_ b <= top_ a
  | true, false => right_ a <= left_ b
  | true, true => right_ b <= left_ a
  end%Q.

Record drawn (g0 g : layoutGraph) (swapped : bool) (before : box → box → Prop) : Prop := {
  dw_labelled : labelled g;
  dw_nodes : ∀ v, isNode g v ↔ isNode g0 v;
  dw_edges : ∀ x, x ∈ edges g ↔ x ∈ edges g0;
  dw_size : ∀ v l, node g0 v = Some l → ∃ n, node g v = Some n ∧ sized swapped l n;
  dw_box : ∀ v n, node g v = Some n → nlabelpos n = None ∧ ∃ b, box_of n = Some b;
  dw_disjoint : ∀ u v m n a b, u ≠ v → node g u = Some m → node g v = Some n → box_of m = Some a → box_of n = Some b → disjoint_boxes a b;
  dw_label : ∀ e l, e ∈ edges g → edgeOf g e = Some l → is_Some (ex l) → is_Some (ey l);
  dw_count : ∀ e l rv rw, e ∈ edges g → edgeOf g e = Some l → rank_of g0 (ev e) = Some rv → rank_of g0 (ew e) = Some rw →
    points l ≠ Some [] ∧ Z.of_nat (length (default [] (points l))) = (rw - rv - 1)%Z;
  dw_points : ∀ e l p, e ∈ edges g → edgeOf g e = Some l → p ∈ default [] (points l) →
    is_Some (px p) ∧ is_Some (py p) ∧ ∀ v n b, node g v = Some n → box_of n = Some b → ¬ inside p b;
  dw_marks : ∀ e l l0, e ∈ edges g → edgeOf g e = Some l → edgeOf g0 e = Some l0 → reversed l = reversed l0 ∧ forwardName l = forwardName l0;
  dw_before : ∀ u v ru rv m n a b, rank_of g0 u = Some ru → rank_of g0 v = Some rv → (ru < rv)%Z → node g u = Some m → node g v = Some n → box_of m = Some a → box_of n = Some b → before a b
}.

(** ** Transformations of the plane *)

Section Transform.
Implicit Types (g : layoutGraph) (n : nodeLabel) (l : edgeLabel) (p : point) (b : box).
Context (g0 g g' : layoutGraph) (sw sw' : bool) (fn : string → nodeLabel → nodeLabel) (fe : edgeObj → edgeLabel → edgeLabel).
Context (tb : box → box → Prop) (tp : point → point) (bf bf' : box → box → Prop).
Context (D : drawn g0 g sw bf) (R : remapped g fn fe g').
Context (Hbox : ∀ v n b, node g v = Some n → box_of n = Some b → nlabelpos n = None → nlabelpos (fn v n) = None ∧ ∃ b', box_of (fn v n) = Some b' ∧ tb b b').
Context (Hsize : ∀ v m n, node g v = Some n → sized sw m n → sized sw' m (fn v n)).
Context (Hdis : ∀ a a' b b', tb a a' → tb b b' → disjoint_boxes a b → disjoint_boxes a' b').
Context (Hin : ∀ b b' p, tb b b' → inside (tp p) b' → inside p b).
Context (Hpoint : ∀ v n p, node g v = Some n → is_Some (px p) → is_Some (py p) → is_Some (px (tp p)) ∧ is_Some (py (tp p))).
Context (Hpoints : ∀ e l, points (fe e l) = (λ ps : list point, tp <$> ps) <$> points l).
Context (Hlabel : ∀ e l v n, node g v = Some n → (is_Some (ex l) → is_Some (ey l)) → is_Some (ex (fe e l)) → is_Some (ey (fe e l))).
Context (Hbefore : ∀ a a' b b', tb a a' → tb b b' → bf a b → bf' a' b').
Context (Hmarks : ∀ e l, reversed (fe e l) = reversed l ∧ forwardName (fe e l) = forwardName l).

Lemma drawn_node v n' : node g' v = Some n' → ∃ n b b', node g v = Some n ∧ box_of n = Some b ∧ nlabelpos n' = None ∧ box_of n' = Some b' ∧ tb b b'.
Proof.
  rewrite (remapped_node _ _ _ _ v R). intros (n & Hn & ->)%fmap_Some. destruct (dw_box _ _ _ _ D v n Hn) as (Hp & b & Hb).
  destruct (Hbox v n b Hn Hb Hp) as (Hp' & b' & Hb' & Ht). by exists n, b, b'.
Qed.

Lemma drawn_edge e l' : e ∈ edges g' → edgeOf g' e = Some l' → e ∈ edges g ∧ (∃ v n, node g v = Some n) ∧ ∃ l, edgeOf g e = Some l ∧ l' = fe e l.
Proof.
  destruct (remapped_queries _ _ _ _ R) as (-> & _). intros He. pose proof (dw_labelled _ _ _ _ D) as Hg. rewrite (remapped_edgeOf g fn fe g' e (lb_digraph _ Hg) R He).
  intros (l & Hl & ->)%fmap_Some. destruct (edges_nodes g e (dg_wf _ (lb_digraph _ Hg)) He) as [Hv _]. destruct (lb_node _ Hg _ Hv) as [n Hn]. split_and!; [done|by eexists _, _|by exists l].
Qed.

Lemma drawn_transform : drawn g0 g' sw' bf'.
Proof.
  split.
  - apply (remapped_labelled g fn fe g'); [apply D|done].
  - intros v. rewrite (remapped_isNode _ _ _ _ v R). apply D.
  - intros x. destruct (remapped_queries _ _ _ _ R) as (-> & _). apply D.
  - intros v l Hl. destruct (dw_size _ _ _ _ D v l Hl) as (n & Hn & Hs). exists (fn v n). rewrite (remapped_node _ _ _ _ v R), Hn. split; [done|]. by apply Hsize.
  - intros v n' Hn'. destruct (drawn_node v n' Hn') as (n & b & b' & _ & _ & ? & ? & _). eauto.
  - intros u v m' n' a' b' Huv Hm' Hn' Ha' Hb'. destruct (drawn_node u m' Hm') as (m & a & a1 & Hm & Ha & _ & Ha1 & Ta), (drawn_node v n' Hn') as (n & b & b1 & Hn & Hb & _ & Hb1 & Tb).
    assert (a1 = a') as -> by congruence. assert (b1 = b') as -> by congruence. apply (Hdis a a' b b' Ta Tb). exact (dw_disjoint _ _ _ _ D u v m n a b Huv Hm Hn Ha Hb).
  - intros e l' He Hl'. destruct (drawn_edge e l' He Hl') as (Heg & (v & n & Hn) & l & Hl & ->). apply (Hlabel e l v n Hn), (dw_label _ _ _ _ D e l Heg Hl).
  - intros e l' rv rw He Hl' Hv Hw. destruct (drawn_edge e l' He Hl') as (Heg & _ & l & Hl & ->). destruct (dw_count _ _ _ _ D e l rv rw Heg Hl Hv Hw) as [H1 H2].
    rewrite Hpoints. destruct (points l) as [[|p ps]|]; [done| |done]. cbn in *. by rewrite length_map.
  - intros e l' p' He Hl' Hp'. destruct (drawn_edge e l' He Hl') as (Heg & (v & n & Hn) & l & Hl & ->). rewrite Hpoints in Hp'.
    assert (∃ p, p' = tp p ∧ p ∈ default [] (points l)) as (p & -> & Hp) by (destruct (points l) as [ps|]; [by apply list_elem_of_fmap in Hp'|by apply elem_of_nil in Hp']).
    destruct (dw_points _ _ _ _ D e l p Heg Hl Hp) as (X & Y & Hout). destruct (Hpoint v n p Hn X Y) as [X' Y']. split_and!; [done|done|].
    intros u m' b' Hm' Hb' Hins. destruct (drawn_node u m' Hm') as (m & b & b1 & Hm & Hb & _ & Hb1 & Tb). assert (b1 = b') as -> by congruence.
    by apply (Hout u m b Hm Hb), (Hin b b').
  - intros e l' l0 He Hl' Hl0. destruct (drawn_edge e l' He Hl') as (Heg & _ & l & Hl & ->). destruct (Hmarks e l) as [-> ->]. by apply (dw_marks _ _ _ _ D e).
  - intros u v ru rv m' n' a' b' Hu Hv Hlt Hm' Hn' Ha' Hb'. destruct (drawn_node u m' Hm') as (m & a & a1 & Hm & Ha & _ & Ha1 & Ta), (drawn_node v n' Hn') as (n & b & b1 & Hn & Hb & _ & Hb1 & Tb).
    assert (a1 = a') as -> by congruence. assert (b1 = b') as -> by congruence. apply (Hbefore a a' b b' Ta Tb). exact (dw_before _ _ _ _ D u v ru rv m n a b Hu Hv Hlt Hm Hn Ha Hb).
Qed.
End Transform.

(** ** The passes *)

Section Passes.
Implicit Types (g : layoutGraph) (n : nodeLabel) (l : edgeLabel) (p : point) (b : box).

Lemma box_coordinates n b : nlabelpos n = None → box_of n = Some b → ∃ x y, nx n = Some x ∧ ny n = Some y ∧
  (left_ b == x - width n * (1 # 2) ∧ right_ b == x + width n * (1 # 2) ∧ top_ b == y - height n * (1 # 2) ∧ bottom_ b == y + height n * (1 # 2))%Q.
Proof.
  unfold box_of, left_ext, right_ext, label_delta. intros ->. destruct (nx n) as [x|], (ny n) as [y|]; try done. intros [= <-]. exists x, y. cbn. split_and!; try done.
  all: assert (width n / 2 == width n * (1 # 2))%Q as Hw by reflexivity; rewrite Hw; lra.
Qed.

Lemma centred_box n x y : nx n = Some x → ny n = Some y → ∃ b, box_of n = Some b.
Proof. unfold box_of. intros -> ->. by eexists. Qed.

Lemma fixup_drawn g0 g sw bf : drawn g0 g sw bf → ∃ g', fixupEdgeLabelCoords g = Ok g' ∧ drawn g0 g' sw bf ∧ Graphlib.graph g' = Graphlib.graph g.
Proof.
  intros D. pose proof (dw_labelled _ _ _ _ D) as [H1 H2 H3 H4]. destruct (updEdges_remapped g (λ _, fixup_label) H1 H2 H4) as (g' & Hf & R). exists g'. split; [done|].
  split; [|by apply (remapped_queries _ _ _ _ R)]. eapply (drawn_transform g0 g g' sw sw _ _ eq id bf bf D R); try done.
  - intros v n b _ Hb Hp. split; [done|]. by exists b.
  - by intros a ? b ? <- <-.
  - by intros b ? p <-.
  - intros e l. unfold fixup_label. destruct (ex l); [|by destruct (points l) as [ps|]; cbn; [rewrite list_fmap_id|]]. repeat case_decide; cbn; by destruct (points l) as [ps|]; cbn; rewrite ?list_fmap_id.
  - intros e l v n _ Hl. unfold fixup_label. destruct (ex l) as [x|] eqn:Hx; [|by rewrite Hx; intros []]. intros _. destruct Hl as [y Hy]; [by eexists|]. repeat case_decide; cbn; rewrite Hy; by eexists.
  - by intros a ? b ? <- <-.
  - intros e l. unfold fixup_label. destruct (ex l); [|done]. by repeat case_decide.
Qed.

(** Mirroring. *)
Definition mirrored (b b' : box) : Prop := (left_ b' == left_ b ∧ right_ b' == right_ b ∧ top_ b' == - bottom_ b ∧ bottom_ b' == - top_ b)%Q.

Lemma reverseY_drawn g0 g sw : drawn g0 g sw (ahead false false) → ∃ g', reverseY g = Ok g' ∧ drawn g0 g' sw (ahead false true) ∧ Graphlib.graph g' = Graphlib.graph g.
Proof.
  intros D. destruct (remap_ok g (λ _, reverseYNode) (λ _, reverseYEdge) (dw_labelled _ _ _ _ D)) as (g' & Hf & R). exists g'. split; [done|].
  split; [|by apply (remapped_queries _ _ _ _ R)]. eapply (drawn_transform g0 g g' sw sw _ _ mirrored reverseYPoint (ahead false false) (ahead false true) D R); try done.
  - intros v n b _ Hb Hp. split; [done|]. destruct (box_coordinates n b Hp Hb) as (x & y & Hx & Hy & B). assert (nlabelpos (reverseYNode n) = None) as Hp' by done.
    destruct (centred_box (reverseYNode n) x (- y)%Q) as [b' Hb']; [done|cbn; by rewrite Hy|]. exists b'. split; [done|]. destruct (box_coordinates _ b' Hp' Hb') as (x' & y' & Hx' & Hy' & B').
    cbn in Hx', Hy'. rewrite Hx in Hx'. rewrite Hy in Hy'. cbn in Hy'. injection Hx' as <-. injection Hy' as <-. cbn in B'. unfold mirrored. split_and!; lra.
  - intros a a' b b' (A1 & A2 & A3 & A4) (B1 & B2 & B3 & B4). unfold disjoint_boxes. rewrite A1, A2, A3, A4, B1, B2, B3, B4. intros [?|[?|[?|?]]]; [by left|by right; left|right; right; right; lra|right; right; left; lra].
  - intros b b' p (B1 & B2 & B3 & B4) (x & y' & Hx & Hy & I). cbn in Hx, Hy. destruct (py p) as [y|] eqn:Hpy; [|done]. cbn in Hy. injection Hy as <-. exists x, y. rewrite B1, B2, B3, B4 in I. split_and!; [done|done|lra..].
  - intros v n p _ ? [y Hy]. cbn. rewrite Hy. split; [done|by eexists].
  - intros e l v n _ Hl. cbn. intros ?. by apply fmap_is_Some, Hl.
  - intros a a' b b' (A1 & A2 & A3 & A4) (B1 & B2 & B3 & B4). cbn. rewrite A3, B4. lra.
Qed.

(** Exchanging the axes. *)
Definition turned (b b' : box) : Prop := (left_ b' == top_ b ∧ right_ b' == bottom_ b ∧ top_ b' == left_ b ∧ bottom_ b' == right_ b)%Q.

Lemma turn_drawn g0 g back : drawn g0 g true (ahead false back) → ∃ g1 g', swapXY g = Ok g1 ∧ swapWidthHeight g1 = Ok g' ∧ drawn g0 g' false (ahead true back) ∧ Graphlib.graph g' = Graphlib.graph g.
Proof.
  intros D. destruct (remap_ok g (λ _, swapXYNode) (λ _, swapXYEdge) (dw_labelled _ _ _ _ D)) as (g1 & Hf & R1).
  destruct (remap_ok g1 (λ _, swapWidthHeightNode) (λ _, swapWidthHeightEdge)) as (g' & Hf' & R2); [by eapply remapped_labelled; [apply D|]|].
  exists g1, g'. split; [done|]. split; [done|]. pose proof (remapped_trans _ _ _ _ _ _ _ R1 R2) as R. split; [|by apply (remapped_queries _ _ _ _ R)].
  eapply (drawn_transform g0 g g' true false _ _ turned swapXYPoint (ahead false back) (ahead true back) D R).
  - intros v n b _ Hb Hp. split; [done|]. destruct (box_coordinates n b Hp Hb) as (x & y & Hx & Hy & B). set (n' := swapWidthHeightNode (swapXYNode n)). assert (nlabelpos n' = None) as Hp' by done.
    destruct (centred_box n' y x) as [b' Hb']; [done|done|]. exists b'. split; [done|]. destruct (box_coordinates _ b' Hp' Hb') as (x' & y' & Hx' & Hy' & B').
    cbn in Hx', Hy'. rewrite Hy in Hx'. rewrite Hx in Hy'. injection Hx' as <-. injection Hy' as <-. cbn in B'. unfold turned. split_and!; lra.
  - intros v m n _ [? ?]. by split.
  - intros a a' b b' (A1 & A2 & A3 & A4) (B1 & B2 & B3 & B4). unfold disjoint_boxes. rewrite A1, A2, A3, A4, B1, B2, B3, B4. intros [?|[?|[?|?]]]; [by right; right; left|by right; right; right|by left|by right; left].
  - intros b b' p (B1 & B2 & B3 & B4) (x & y & Hx & Hy & I). cbn in Hx, Hy. exists y, x. rewrite B1, B2, B3, B4 in I. split_and!; [done|done|lra..].
  - intros v n p _ ? ?. by split.
  - intros e l. unfold swapXYEdge. cbn. by destruct (ex l).
  - intros e l v n _ Hl. unfold swapXYEdge. cbn. destruct (ex l) as [x|] eqn:Hx; cbn; rewrite ?Hx; [intros _; by eexists|by intros []].
  - intros a a' b b' (A1 & A2 & A3 & A4) (B1 & B2 & B3 & B4). destruct back; cbn; rewrite ?A1, ?A2, ?B1, ?B2; done.
  - intros e l. unfold swapXYEdge. cbn. by destruct (ex l).
Qed.

Lemma undo_drawn g0 g gl : Graphlib.graph g = Some gl → drawn g0 g (sideways (toLowerCase (rankdir gl))) (ahead false false) →
  ∃ g', DagreGeometry.undo g = Ok g' ∧ drawn g0 g' false (ahead (sideways (toLowerCase (rankdir gl))) (backwards (toLowerCase (rankdir gl)))) ∧ Graphlib.graph g' = Some gl.
Proof.
  intros Hgl D. unfold undo. rewrite Hgl. cbn [of_option res_bind].
  assert (∃ g1, (if backwards (toLowerCase (rankdir gl)) then reverseY g else Ok g) = Ok g1 ∧ drawn g0 g1 (sideways (toLowerCase (rankdir gl))) (ahead false (backwards (toLowerCase (rankdir gl)))) ∧ Graphlib.graph g1 = Graphlib.graph g) as (g1 & -> & D1 & Hg1).
  { destruct (backwards _); [by apply reverseY_drawn|by exists g]. }
  cbn [res_bind]. destruct (sideways _); [|exists g1; split_and!; [done|done|congruence]]. destruct (turn_drawn g0 g1 _ D1) as (g2 & g3 & -> & H3 & D3 & Hg3). cbn [res_bind].
  exists g3. split_and!; [done|done|congruence].
Qed.

(** Translating. *)
Definition shifted (a c : Q) (b b' : box) : Prop :=
  (left_ b' == left_ b - a ∧ right_ b' == right_ b - a ∧ top_ b' == top_ b - c ∧ bottom_ b' == bottom_ b - c)%Q.

Lemma drawn_setGraph g0 g gl sw bf : drawn g0 g sw bf → drawn g0 (setGraph g gl) sw bf.
Proof.
  intros [[D1 D2 D3 D4] ? ? ? ? ? ? ? ? ? ?]. split; try done. split; [|done..]. destruct D1 as [W1 W2 W3]. split; [by apply setGraph_wf|done|done].
Qed.

Lemma drawn_drawable g0 g sw bf : drawn g0 g sw bf → drawable g.
Proof.
  intros D. split; [apply D| |apply D]. intros v n Hn. destruct (dw_box _ _ _ _ D v n Hn) as (Hp & b & Hb). destruct (box_coordinates n b Hp Hb) as (x & y & -> & -> & _). by split; eexists.
Qed.

Lemma translate_drawn g0 g gl sw back : Graphlib.graph g = Some gl → drawn g0 g false (ahead sw back) →
  ∃ g' gl', translateGraph g = Ok g' ∧ drawn g0 g' false (ahead sw back) ∧ Graphlib.graph g' = Some gl' ∧ marginx gl' = marginx gl ∧ marginy gl' = marginy gl ∧
    ∀ v n, node g' v = Some n → ∃ x y, nx n = Some x ∧ ny n = Some y ∧ within gl' x y (width n) (height n).
Proof.
  intros Hgl D. destruct (translateGraph_ok g gl (drawn_drawable _ _ _ _ D) Hgl) as (dx & dy & W & H & g1 & Ht & R & Hn & _).
  assert (∀ v n, node g v = Some n → ∃ x y a c, nx n = Some x ∧ ny n = Some y ∧ dx = Some a ∧ dy = Some c ∧ within (with_gsize W H gl) (x - a) (y - c) (width n) (height n)) as Hn'.
  { intros v n Hv. destruct (dw_box _ _ _ _ D v n Hv) as (Hp & b & Hb). destruct (box_coordinates n b Hp Hb) as (x & y & Hx & Hy & _).
    destruct (Hn v n x y Hv Hx Hy) as (a & c & Ha & Hc & Hw). by exists x, y, a, c. }
  eexists _, _. split; [exact Ht|]. split_and!; [apply drawn_setGraph|done|done|done|].
  - eapply (drawn_transform g0 g g1 false false _ _ (λ b b', ∃ a c, dx = Some a ∧ dy = Some c ∧ shifted a c b b') (translatePoint dx dy) (ahead sw back) (ahead sw back) D R).
    + intros v n b Hv Hb Hp. split; [done|]. destruct (Hn' v n Hv) as (x & y & a & c & Hx & Hy & -> & -> & _). destruct (box_coordinates n b Hp Hb) as (x0 & y0 & Hx0 & Hy0 & B).
      rewrite Hx in Hx0. rewrite Hy in Hy0. injection Hx0 as <-. injection Hy0 as <-. set (n' := translateNode (Some a) (Some c) n). assert (nlabelpos n' = None) as Hp' by done.
      destruct (centred_box n' (x - a)%Q (y - c)%Q) as [b' Hb']; [cbn; by rewrite Hx|cbn; by rewrite Hy|]. exists b'. split; [done|]. exists a, c. split_and!; [done|done|].
      destruct (box_coordinates _ b' Hp' Hb') as (x' & y' & Hx' & Hy' & B'). cbn in Hx', Hy'. rewrite Hx in Hx'. rewrite Hy in Hy'. injection Hx' as <-. injection Hy' as <-. cbn in B'. unfold shifted. split_and!; lra.
    + done.
    + intros b1 b1' b2 b2' (a & c & -> & -> & A1 & A2 & A3 & A4) (a' & c' & [= <-] & [= <-] & B1 & B2 & B3 & B4). unfold disjoint_boxes. rewrite A1, A2, A3, A4, B1, B2, B3, B4.
      intros [?|[?|[?|?]]]; [left|right; left|right; right; left|right; right; right]; lra.
    + intros b b' p (a & c & -> & -> & B1 & B2 & B3 & B4) (x' & y' & Hx & Hy & I). cbn in Hx, Hy. destruct (px p) as [x|] eqn:Hpx; [|done]. destruct (py p) as [y|] eqn:Hpy; [|done]. cbn in Hx, Hy.
      injection Hx as <-. injection Hy as <-. rewrite B1, B2, B3, B4 in I. exists x, y. split_and!; [done|done|lra..].
    + intros v n p Hv [x Hx] [y Hy]. destruct (Hn' v n Hv) as (_ & _ & a & c & _ & _ & -> & -> & _). cbn. rewrite Hx, Hy. by split; eexists.
    + done.
    + intros e l v n Hv Hl. destruct (Hn' v n Hv) as (_ & _ & a & c & _ & _ & -> & -> & _). cbn. destruct (ex l) as [x|]; [|by intros []]. destruct Hl as [y ->]; [by eexists|]. intros _. by eexists.
    + intros b1 b1' b2 b2' (a & c & -> & -> & A1 & A2 & A3 & A4) (a' & c' & [= <-] & [= <-] & B1 & B2 & B3 & B4). destruct sw, back; cbn; rewrite ?A1, ?A2, ?A3, ?A4, ?B1, ?B2, ?B3, ?B4; lra.
    + done.
  - intros v n' Hn1. change (node g1 v = Some n') in Hn1. rewrite (remapped_node _ _ _ _ v R) in Hn1. apply fmap_Some in Hn1 as (n & Hv & ->). destruct (Hn' v n Hv) as (x & y & a & c & Hx & Hy & -> & -> & Hw).
    exists (x - a)%Q, (y - c)%Q. cbn. rewrite Hx, Hy. by split_and!.
Qed.
End Passes.

(** ** The ends of the edges *)

(** A point on the border of a node. *)
Definition on_border (q : point) (n : nodeLabel) : Prop :=
  ∃ x y sx sy, nx n = Some x ∧ ny n = Some y ∧ px q = Some (x + sx)%Q ∧ py q = Some (y + sy)%Q ∧
    (Qabs sx == width n / 2 ∧ Qabs sy <= height n / 2 ∨ Qabs sy == height n / 2 ∧ Qabs sx <= width n / 2)%Q.

(** The place of a node lies in its box, so not inside a box apart from it. *)
Lemma place_outside n a b : (0 <= width n)%Q → (0 <= height n)%Q → box_of n = Some a → disjoint_boxes a b → ¬ inside (centre n) b.
Proof.
  intros Hw Hh Hb Hd (x & y & Hx & Hy & Hin). cbn in Hx, Hy. destruct (ext_nonneg n Hw) as [E1 E2]. unfold box_of in Hb. rewrite Hx, Hy in Hb. cbn in Hb. injection Hb as <-.
  unfold disjoint_boxes in Hd. cbn in Hd. destruct Hin as (I1 & I2 & I3 & I4). destruct Hd as [D|[D|[D|D]]]; lra.
Qed.

Section Ends.
Implicit Types (g : layoutGraph) (n nv nw : nodeLabel) (l : edgeLabel) (p : point) (b : box).

(** A line towards a point outside the box meets the border. *)
Lemma intersect_outside n b p :
  nlabelpos n = None → box_of n = Some b → (0 < width n)%Q → (0 < height n)%Q → is_Some (px p) → is_Some (py p) → ¬ inside p b →
  ∃ q, intersectRect n p = Ok q ∧ on_border q n.
Proof.
  intros Hp Hb Hw Hh [a Ha] [c Hc] Hout. destruct (box_coordinates n b Hp Hb) as (x & y & Hx & Hy & B).
  pose proof (intersectRect_ok n p x y a c Hx Hy Ha Hc ltac:(lra) ltac:(lra)) as Hi. destruct (Qeq_bool (a - x) 0 && Qeq_bool (c - y) 0) eqn:Hz.
  { exfalso. apply Hout. apply andb_true_iff in Hz as [H1%Qeq_bool_iff H2%Qeq_bool_iff]. exists a, c. split_and!; [done|done|lra..]. }
  assert (Qeq_bool (width n) 0 = false) as Hwn by (apply not_true_iff_false; rewrite Qeq_bool_iff; lra). rewrite Hwn in Hi. cbn [andb] in Hi.
  destruct Hi as (sx & sy & Hi & _ & Hbd). eexists. split; [exact Hi|]. exists x, y, sx, sy. by split_and!.
Qed.

Context (g0 g : layoutGraph) (bf : box → box → Prop) (D : drawn g0 g false bf).
Context (Hpos : ∀ v n, node g v = Some n → (0 < width n)%Q ∧ (0 < height n)%Q).
Context (Hloop : ∀ e, e ∈ edges g → ev e ≠ ew e).
Context (Hempty : ∀ e l, e ∈ edges g → edgeOf g e = Some l → points l ≠ Some []).

Lemma edge_points_ok e l nv nw :
  e ∈ edges g → edgeOf g e = Some l → node g (ev e) = Some nv → node g (ew e) = Some nw →
  ∃ a c : point, edge_points nv nw l = Ok (a :: default [] (points l) ++ [c]) ∧ on_border a nv ∧ on_border c nw.
Proof.
  intros He Hl Hv Hw. destruct (dw_box _ _ _ _ D _ _ Hv) as (Pv & bv & Bv), (dw_box _ _ _ _ D _ _ Hw) as (Pw & bw & Bw). destruct (Hpos _ _ Hv) as [V1 V2], (Hpos _ _ Hw) as [W1 W2].
  assert (∀ p, p ∈ default [] (points l) → is_Some (px p) ∧ is_Some (py p) ∧ ¬ inside p bv ∧ ¬ inside p bw) as Hout.
  { intros p Hp. destruct (dw_points _ _ _ _ D e l p He Hl Hp) as (X & Y & Hno). split_and!; eauto. }
  assert (∃ p1 p2, match points l with None => Ok ([], centre nw, centre nv) | Some ps => p1 <-- of_option (head ps) ;; p2 <-- of_option (list.last ps) ;; Ok (ps, p1, p2) end
      = Ok (default [] (points l), p1, p2) ∧ (is_Some (px p1) ∧ is_Some (py p1) ∧ ¬ inside p1 bv) ∧ (is_Some (px p2) ∧ is_Some (py p2) ∧ ¬ inside p2 bw)) as (p1 & p2 & Hends & (X1 & Y1 & O1) & X2 & Y2 & O2).
  { destruct (points l) as [ps|] eqn:Hps.
    - destruct ps as [|p ps _] using rev_ind; [by destruct (Hempty e l He Hl)|]. rewrite last_snoc. destruct (head (ps ++ [p])) as [p1|] eqn:Hh; [|by destruct ps]. exists p1, p. split; [done|].
      destruct (Hout p1) as (? & ? & ? & _); [cbn; destruct ps; injection Hh as <-; by left|]. destruct (Hout p) as (? & ? & _ & ?); [cbn; apply elem_of_app; right; by left|]. by split_and!.
    - exists (centre nw), (centre nv). split; [done|]. destruct (box_coordinates nv bv Pv Bv) as (? & ? & Hx & Hy & _), (box_coordinates nw bw Pw Bw) as (? & ? & Hx' & Hy' & _).
      pose proof (dw_disjoint _ _ _ _ D _ _ _ _ _ _ (Hloop e He) Hv Hw Bv Bw) as Hd. assert (disjoint_boxes bw bv) as Hd' by (unfold disjoint_boxes in *; naive_solver).
      split; split_and!; [cbn; rewrite Hx'; by eexists|cbn; rewrite Hy'; by eexists|apply (place_outside nw bw bv); [lra|lra|done|done]|cbn; rewrite Hx; by eexists|cbn; rewrite Hy; by eexists|apply (place_outside nv bv bw); [lra|lra|done|done]]. }
  destruct (intersect_outside nv bv p1 Pv Bv V1 V2 X1 Y1 O1) as (a & Ha & Ba), (intersect_outside nw bw p2 Pw Bw W1 W2 X2 Y2 O2) as (b & Hb & Bb).
  exists a, b. split_and!; [|done|done]. unfold edge_points. rewrite Hends. cbn [res_bind]. rewrite Ha. cbn [res_bind]. rewrite Hb. done.
Qed.

Definition attach (e : edgeObj) l : edgeLabel :=
  match node g (ev e), node g (ew e) with
  | Some nv, Some nw => match edge_points nv nw l with Ok ps => with_points (Some ps) l | Throw _ => l end
  | _, _ => l
  end.

Lemma assignNodeIntersects_ok : ∃ g', assignNodeIntersects g = Ok g' ∧ remapped g (λ _ n, n) attach g'.
Proof.
  pose proof (dw_labelled _ _ _ _ D) as [H1 H2 H3 H4]. apply edge_pass_remapped; [done|done|done|]. intros done g1 x l R Hx Hnew Hl Hl1.
  destruct (edges_nodes g x (dg_wf _ H1) Hx) as [Hv Hw]. destruct (H3 _ Hv) as [nv Hnv], (H3 _ Hw) as [nw Hnw]. destruct (edge_points_ok x l nv nw Hx Hl Hnv Hnw) as (a & b & Hep & _).
  unfold intersect_edge. rewrite Hl1, !(remapped_node _ _ _ _ _ R), Hnv, Hnw. cbn [fmap option_fmap option_map of_option res_bind]. rewrite Hep. cbn [res_bind].
  unfold updEdge. rewrite Hl1. cbn [of_option res_bind]. unfold attach. by rewrite Hnv, Hnw, Hep.
Qed.
End Ends.
