(* ===== verification/DagreRankedLayout.v ===== *)
(** * dagre: laying out a ranked graph without clusters

    From ranks to a drawing: [normalize.run], [order], [coordinateSystem.adjust], [position], [normalize.undo],
    [fixupEdgeLabelCoords], [coordinateSystem.undo], [translateGraph] and [assignNodeIntersects] in the sequence of [runLayout].  The
    passes between them that this sequence leaves out act on clusters and loops. *)
From Stdlib Require Import QArith_base Qabs Lqa.
Local Close Scope Q_scope.
From S2P Require Import Prelude JsObject Graphlib GraphWf GraphInv GraphRemove GraphQuery GraphView Lodash DagreTypes DagreBk DagreUtil DagreCross DagreLayers DagreOrder DagreOrderLayer DagreOrderSweep DagreOrderClaims DagreBkClaims DagrePosition DagreNormalize DagreRemap DagreNormalizeRun DagreNormalizeUndo DagreNormalizeClaims DagreGeometry DagreGeometryClaims DagreDrawn.

(** A node is a leaf when nothing has it as parent. *)
Lemma leaf_iff {L V E} (g : Graph L V E) v : wf g → isNode g v → leaf g v = true ↔ (isCompound g = true → ∀ u, oget (parent_ g) u ≠ Some v).
Proof.
  intros Hwf Hv. unfold leaf, children. destruct (isCompound g) eqn:Hc.
  - pose proof (wf_tree _ Hwf Hc) as T. destruct (proj2 (tok_children _ _ _ _ T v) (or_intror Hv)) as [cs Hcs]. rewrite Hcs. cbn.
    destruct (tok_child _ _ _ _ T v cs Hcs) as [_ Hch]. split.
    + intros He _ u Hu. apply Hch, elem_of_okeys in Hu. destruct (okeys cs); [by apply elem_of_nil in Hu|done].
    + intros Hno. destruct (okeys cs) as [|u us] eqn:Hk; [done|]. exfalso. apply (Hno eq_refl u), Hch. apply elem_of_okeys. rewrite Hk. by left.
  - split; [done|]. intros _. rewrite decide_False by (by destruct (wf_plain _ Hwf v Hv)). by rewrite (proj2 (hasNode_true g v) Hv).
Qed.

(** No rank below a node is empty once the long edges are split. *)
Definition spanned (g : layoutGraph) : Prop :=
  ∀ v r, isNode g v → movable g (Z.of_nat (S r)) v →
    (∃ u, isNode g u ∧ movable g (Z.of_nat r) u) ∨
    ∃ e rv rw, e ∈ edges g ∧ rank_of g (ev e) = Some rv ∧ rank_of g (ew e) = Some rw ∧ (rv < Z.of_nat r < rw)%Z.

(** The labels of edges have sizes. *)
Definition label_sizes_ok (g : layoutGraph) : Prop := ∀ e l, e ∈ edges g → edgeOf g e = Some l → (0 <= ewidth l ∧ 0 <= eheight l)%Q.

Section Normalised.
Implicit Types (g : layoutGraph) (c : chain) (x e : edgeObj) (v u d : string).
Context (g0 gr : layoutGraph) (gl : graphLabel) (cs : list chain) (H0 : rank_ready g0) (R : run_inv g0 (edges g0) cs gr).
Context (F : flat_ranked g0).

Lemma run_isNode v : isNode g0 v → isNode gr v.
Proof. intros Hv. unfold isNode. by rewrite (run_old g0 gr cs R). Qed.

Lemma run_leaf v : isNode gr v → leaf gr v = true.
Proof.
  pose proof (ri_norm _ _ _ _ R) as Hn. destruct (nz_options _ _ _ Hn) as [_ Hc]. intros Hv. apply leaf_iff; [apply Hn|done|]. rewrite Hc. intros Hcomp u Hu.
  destruct (nz_parent _ _ _ Hn Hcomp u v Hu) as [->|Hu0]; [by destruct (wf_plain _ (dg_wf _ (nz_digraph _ _ _ Hn)) _ Hv)|].
  pose proof (wf_tree _ (dg_wf _ (rr_digraph _ H0)) Hcomp) as T. destruct (tok_inner _ _ _ _ T u v Hu0) as [->|Hv0]; [by destruct (wf_plain _ (dg_wf _ (nz_digraph _ _ _ Hn)) _ Hv)|].
  by apply (proj1 (leaf_iff g0 v (dg_wf _ (rr_digraph _ H0)) Hv0) (fr_leaf _ F v Hv0) Hcomp u).
Qed.

Lemma run_edgeOf x : x ∈ edges gr →
  (∃ c l0, c ∈ cs ∧ edgeOf g0 (c_e c) = Some l0 ∧ edgeOf gr x = Some (segment (weight l0))) ∨ x ∈ edges g0 ∧ edgeOf gr x = edgeOf g0 x.
Proof.
  pose proof (ri_norm _ _ _ _ R) as Hn. intros Hx. pose proof Hx as [(c & Hc & Hs)|[Hx0 Hno]]%(run_edges g0 gr cs H0 R).
  - left. destruct (ck_label _ _ (ri_chains _ _ _ _ R c Hc)) as (l0 & Hl0 & Hcl). exists c, l0. split_and!; [done|done|].
    rewrite edgeOf_elookup by (done || apply Hn). rewrite (nz_seg _ _ _ Hn c x Hc Hs), Hcl. done.
  - right. split; [done|]. rewrite !edgeOf_elookup by (done || apply Hn || apply H0). f_equal. apply (nz_kept _ _ _ Hn). intros c Hc. split; [|by apply Hno].
    intros Hs%(seg_dummy g0 (rr_digraph _ H0)); [|by apply (nz_edge _ _ _ Hn c)]. destruct (edges_nodes g0 x (dg_wf _ (rr_digraph _ H0)) Hx0).
    destruct Hs as [Hs|Hs]; by apply (dummy_not_old g0 gr cs R c _ Hc) in Hs.
Qed.

Lemma chain_from c : c ∈ cs → ∃ r, c_from c = Z.of_nat r.
Proof.
  intros Hc. pose proof (ck_from _ _ (ri_chains _ _ _ _ R c Hc)) as Hfr. destruct (chain_ends g0 gr cs H0 R c Hc) as [Hv _].
  destruct (fr_node _ F _ Hv) as (_ & l & r & Hl & Hr & _). exists r. unfold rank_of in Hfr. rewrite Hl in Hfr. cbn in Hfr. congruence.
Qed.

Lemma run_flat : flat_ranked gr.
Proof.
  pose proof (ri_norm _ _ _ _ R) as Hn. split; [apply Hn|apply run_leaf| |].
  - intros x Hx. destruct (run_edgeOf x Hx) as [(c & l0 & _ & _ & ->)|[Hx0 ->]]; [by eexists|by apply (fr_labelled _ F)].
  - intros v Hv. destruct (decide (isNode g0 v)) as [Hv0|Hnew].
    + unfold node. rewrite (run_old g0 gr cs R v Hv0). by apply (fr_node _ F).
    + destruct (run_new g0 gr cs R v Hv Hnew) as (c & i & Hc & Hi & ->). destruct (chain_from c Hc) as [r Hr].
      split; [apply (nz_name _ _ _ Hn), elem_of_all_dummies; exists c; split; [done|by eapply list_elem_of_lookup_2]|].
      exists (dummy_label (c_l c) (c_e c) (c_from c + 1 + Z.of_nat i)), (r + 1 + i). rewrite dummy_label_rank. split_and!; [done|f_equal; lia|..]; unfold dummy_label; by case_decide.
Qed.

Lemma run_weights : nonneg_weights g0 → nonneg_weights gr.
Proof.
  intros Hw x l Hx Hl. destruct (run_edgeOf x Hx) as [(c & l0 & Hc & Hl0 & He)|[Hx0 He]]; rewrite He in Hl.
  - injection Hl as <-. apply (Hw (c_e c) l0); [|done]. by apply (nz_edge _ _ _ (ri_norm _ _ _ _ R) c).
  - by eapply Hw.
Qed.

Lemma run_short_ranks : short_ranks gr.
Proof. intros x r Hx Hm. destruct (run_short g0 gr cs H0 R x Hx) as (r' & Hv & Hw). unfold movable in *. rewrite Hw. f_equal. rewrite Hv in Hm. injection Hm. lia. Qed.

Lemma run_dense : spanned g0 → dense_ranks gr.
Proof.
  intros Hsp v r Hv Hm. assert (∀ u, isNode g0 u → rank_of gr u = rank_of g0 u) as Hrk by (intros u Hu; unfold rank_of, node; by rewrite (run_old g0 gr cs R)).
  assert (∀ c i b, c ∈ cs → (c_ds c ++ [ew (c_e c)]) !! i = Some b → Z.of_nat r = (c_from c + 1 + Z.of_nat i)%Z → ∃ u, isNode gr u ∧ movable gr (Z.of_nat r) u) as Hin.
  { intros c i b Hc Hb Heq. pose proof (chain_rank g0 gr cs H0 R c i b Hc Hb) as Hb'. exists b. unfold movable. split; [|by rewrite Heq].
    unfold rank_of in Hb'. destruct (node gr b) eqn:Hnb; [|done]. by eapply isNode_node. }
  destruct (decide (isNode g0 v)) as [Hv0|Hnew].
  - unfold movable in Hm. rewrite Hrk in Hm by done. destruct (Hsp v r Hv0 Hm) as [(u & Hu & Hmu)|(e & rv & rw & He & Hrv & Hrw & Hlt)].
    + exists u. split; [by apply run_isNode|]. unfold movable. by rewrite Hrk.
    + assert (e ∈ c_e <$> cs) as (c & -> & Hc)%list_elem_of_fmap by (apply (ri_edges _ _ _ _ R); split; [done|]; exists rv, rw; split_and!; [done|done|lia]).
      destruct (ri_chains _ _ _ _ R c Hc) as [_ _ Hfrom Hto]. rewrite Hrv in Hfrom. rewrite Hrw in Hto. simplify_eq.
      destruct (lookup_lt_is_Some_2 (c_ds c ++ [ew (c_e c)]) (Z.to_nat (Z.of_nat r - c_from c - 1))) as [b Hb]; [rewrite length_app; cbn; lia|].
      apply (Hin c _ b Hc Hb). lia.
  - destruct (run_new g0 gr cs R v Hv Hnew) as (c & i & Hc & Hi & Hlab). unfold movable, rank_of in Hm. rewrite Hlab in Hm. cbn in Hm. rewrite dummy_label_rank in Hm.
    injection Hm as Hm. destruct i as [|i].
    + exists (ev (c_e c)). destruct (chain_ends g0 gr cs H0 R c Hc) as [Hve _]. split; [by apply run_isNode|]. unfold movable. rewrite Hrk, (ck_from _ _ (ri_chains _ _ _ _ R c Hc)) by done.
      f_equal. lia.
    + destruct (lookup_lt_is_Some_2 (c_ds c ++ [ew (c_e c)]) i) as [b Hb]; [apply lookup_lt_Some in Hi; rewrite length_app; cbn; lia|]. apply (Hin c i b Hc Hb). lia.
Qed.

Lemma run_label : Graphlib.graph g0 = Some gl → ∃ chains, Graphlib.graph gr = Some (with_dummyChains chains gl).
Proof. intros Hgl. destruct (nz_chains _ _ _ (ri_norm _ _ _ _ R)) as (gl' & Hg & _ & gl0 & Hg0 & ->). exists (omap (head ∘ c_ds) cs). congruence. Qed.

Lemma run_sizes chains : sizes_ok g0 gl → label_sizes_ok g0 → sizes_ok gr (with_dummyChains chains gl).
Proof.
  intros [S1 S2 S3 S4 S5] Hls.
  assert (∀ v l, node gr v = Some l → (0 <= width l ∧ 0 <= height l)%Q) as Hall.
  { intros v l Hl. destruct (decide (isNode g0 v)) as [Hv0|Hnew].
    - assert (node g0 v = Some l) as Hl0 by (unfold node in *; by rewrite <-(run_old g0 gr cs R v Hv0)). eauto.
    - destruct (run_new g0 gr cs R v (isNode_node _ _ _ Hl) Hnew) as (c & i & Hc & _ & Hlab). rewrite Hlab in Hl. injection Hl as <-.
      destruct (ck_label _ _ (ri_chains _ _ _ _ R c Hc)) as (l0 & Hl0 & ->). unfold dummy_label. case_decide; [|by split]. cbn.
      apply (Hls (c_e c)); [|done]. by apply (nz_edge _ _ _ (ri_norm _ _ _ _ R) c). }
  split; [intros; by eapply Hall|intros; by eapply Hall|done..].
Qed.
End Normalised.

(** ** Adjusting the direction *)

Definition adjust_node (sw : bool) : nodeLabel → nodeLabel := if sw then swapWidthHeightNode else id.
Definition adjust_edge (sw : bool) : edgeLabel → edgeLabel := if sw then swapWidthHeightEdge else id.

Lemma adjust_ok g gl : labelled g → Graphlib.graph g = Some gl →
  ∃ g', adjust g = Ok g' ∧ remapped g (λ _, adjust_node (sideways (toLowerCase (rankdir gl)))) (λ _, adjust_edge (sideways (toLowerCase (rankdir gl)))) g'.
Proof.
  intros Hg Hgl. unfold adjust. rewrite Hgl. cbn [of_option res_bind]. destruct (sideways _); [by apply remap_ok|]. exists g. split; [done|]. by apply remapped_refl; [apply Hg|..].
Qed.

Lemma adjust_arranged g gl sw g' : arranged g gl → remapped g (λ _, adjust_node sw) (λ _, adjust_edge sw) g' → arranged g' gl.
Proof.
  intros [A1 A2 A3 A4 A5 A6 A7] R. destruct (remapped_queries _ _ _ _ R) as (He & _ & Hm & _ & Hc & _ & Hch).
  assert (∀ v r o, located g' v r o ↔ located g v r o) as Hloc.
  { intros v r o. unfold located. rewrite (remapped_node _ _ _ _ v R). destruct (node g v) as [n|]; cbn; [|split; by intros (? & ? & _)]. destruct sw; split; intros (l & [= <-] & ?); by eexists. }
  split.
  - apply R.
  - congruence.
  - intros v Hv. apply (remapped_isNode _ _ _ _ v R) in Hv as Hvg. specialize (A3 v Hvg). unfold leaf, children in *. rewrite Hc, Hch. destruct (isCompound g); [done|].
    rewrite decide_False by (by destruct (wf_plain _ (dg_wf _ A1) v Hvg)). by rewrite (proj2 (hasNode_true g' v) Hv).
  - destruct A4 as [L1 L2 L3 L4]. split; [apply R| | |].
    + intros v Hv%(remapped_isNode _ _ _ _ v R). destruct (L2 v Hv) as (? & r & o & ?). split; [done|]. exists r, o. by apply Hloc.
    + intros u v r o Hu%Hloc Hv%Hloc. by eapply L3.
    + intros v r o Hv%Hloc. destruct (L4 v r o Hv) as [u Hu]. exists u. by apply Hloc.
  - intros x r o. rewrite He. intros Hx Hv%Hloc. destruct (A5 x r o Hx Hv) as [o' Ho']. exists o'. by apply Hloc.
  - intros v r o Hv%Hloc. destruct (A6 v r o Hv) as (u & o' & Hu). exists u, o'. by apply Hloc.
  - destruct A7 as [S1 S2 S3 S4 S5]. split; [| |done..]; intros v l; rewrite (remapped_node _ _ _ _ v R); intros (n & Hn & ->)%fmap_Some; destruct sw; cbn; eauto.
Qed.

(** ** From ranks to a drawing *)

(** What is asked of the ranked graph. *)
Record layout_ready (g : layoutGraph) (gl : graphLabel) : Prop := {
  lr_ranked : rank_ready g;
  lr_flat : flat_ranked g;
  lr_plain : ∀ v, isNode g v → ∃ l, node g v = Some l ∧ is_dummy l = false ∧ nlabelpos l = None ∧ (0 < width l)%Q ∧ (0 < height l)%Q;
  lr_fresh : ∀ e l, e ∈ edges g → edgeOf g e = Some l → points l = None ∧ ex l = None;
  lr_weights : nonneg_weights g;
  lr_spanned : spanned g;
  lr_label : Graphlib.graph g = Some gl;
  lr_seps : (0 <= nodesep gl ∧ 0 <= edgesep gl ∧ 0 <= ranksep gl)%Q;
  lr_esizes : label_sizes_ok g;
  lr_align : align_ok (align gl)
}.

Lemma ready_sizes g gl : layout_ready g gl → sizes_ok g gl.
Proof.
  intros L. destruct (lr_seps _ _ L) as (S1 & S2 & S3). split; [| |done..].
  all: intros v l Hl; destruct (lr_plain _ _ L v (isNode_node g v l Hl)) as (l' & Hl' & _ & _ & ? & ?); rewrite Hl in Hl'; injection Hl' as <-; lra.
Qed.

Lemma collect_xy l ns : (∀ n, n ∈ ns → is_Some (nx n) ∧ is_Some (ny n)) → (is_Some (ex l) → is_Some (ey l)) → is_Some (ex (collect l ns)) → is_Some (ey (collect l ns)).
Proof.
  revert l. induction ns as [|n ns IH]; intros l Hns Hl; [done|]. cbn. apply IH; [intros m Hm; apply Hns; by right|]. destruct (Hns n) as [? ?]; [by left|].
  unfold collect_one. by case_decide.
Qed.

Lemma collect_marks l ns : reversed (collect l ns) = reversed l ∧ forwardName (collect l ns) = forwardName l.
Proof. revert l. induction ns as [|n ns IH]; intros l; [done|]. change (collect l (n :: ns)) with (collect (collect_one l n) ns). destruct (IH (collect_one l n)) as [-> ->]. unfold collect_one. by case_decide. Qed.

Lemma box_placed n b : box_of n = Some b → is_Some (nx n) ∧ is_Some (ny n).
Proof. unfold box_of. destruct (nx n), (ny n); done || by split; eexists. Qed.

Section Ranked.
Implicit Types (x e : edgeObj) (v u d : string).
Context (g : layoutGraph) (gl : graphLabel) (L : layout_ready g gl).
Notation sw := (sideways (toLowerCase (rankdir gl))).

(** The state before [normalize.undo]: the graph with split edges has been placed. *)
Record split_placed g1 cs f g3 : Prop := {
  sp_inv : run_inv g (edges g) cs g1;
  sp_remapped : remapped g1 f (λ _, adjust_edge sw) g3;
  sp_moves : ∀ u l, ∃ o a b, f u l = with_xy a b (adjust_node sw (set_order o l));
  sp_box : ∀ v, isNode g1 v → ∃ l b, node g3 v = Some l ∧ box_of l = Some b ∧ (0 <= width l)%Q ∧ (0 <= height l)%Q;
  sp_disjoint : ∀ u v lu lv a b, isNode g1 u → isNode g1 v → u ≠ v → node g3 u = Some lu → node g3 v = Some lv → box_of lu = Some a → box_of lv = Some b → disjoint_boxes a b;
  sp_below : ∀ u v ru rv lu lv a b, rank_of g1 u = Some ru → rank_of g1 v = Some rv → (ru < rv)%Z → node g3 u = Some lu → node g3 v = Some lv → box_of lu = Some a → box_of lv = Some b → (bottom_ a <= top_ b)%Q
}.

Lemma place_any id1 g1 cs : run_inv g (edges g) cs g1 →
  ∃ id2 g2 g2' g3 f φ, Pass.order id1 g1 = Ok (id2, g2) ∧ layered g2 ∧ relabelled g1 (λ v, set_order (φ v)) g2 ∧ adjust g2 = Ok g2' ∧ position g2' = Ok g3 ∧ split_placed g1 cs f g3.
Proof.
  intros R. pose proof (lr_ranked _ _ L) as H0. pose proof (lr_flat _ _ L) as F.
  pose proof (ri_norm _ _ _ _ R) as Hn. destruct (nz_options _ _ _ Hn) as [Hm _]. destruct (run_label g g1 gl cs R (lr_label _ _ L)) as [chains Hgl1].
  pose proof (run_sizes g g1 gl cs R chains (ready_sizes g gl L) (lr_esizes _ _ L)) as Hsz1. pose proof (run_flat g g1 cs H0 R F) as F1.
  destruct (order_ok id1 g1 F1 (run_weights g g1 cs H0 R (lr_weights _ _ L))) as (_ & _ & _ & _ & _ & id2 & g2 & _ & Hord & Ho & _).
  assert (isMultigraph g1 = true) as Hm1 by (rewrite Hm; apply H0).
  pose proof (ordered_arranged g1 _ g2 F1 Hm1 (run_short_ranks g g1 cs H0 R) (run_dense g g1 cs H0 R (lr_spanned _ _ L)) Hsz1 Ho) as A2. pose proof Ho as (φ & Hr2 & _).
  pose proof (relabelled_remapped _ _ _ (nz_digraph _ _ _ Hn) Hr2) as R2. destruct (remapped_queries _ _ _ _ R2) as (He2 & Hgl2 & _).
  assert (labelled g1) as Hl1.
  { split; [apply F1|done| |apply F1]. intros v Hv. destruct (fr_node _ F1 v Hv) as (_ & l & _ & -> & _). by eexists. }
  destruct (adjust_ok g2 (with_dummyChains chains gl) (remapped_labelled _ _ _ _ Hl1 R2)) as (g2' & Hadj & Ra); [congruence|]. cbn [rankdir with_dummyChains] in Ra.
  destruct (remapped_queries _ _ _ _ Ra) as (_ & Hgla & _).
  destruct (arranged_position g2' (with_dummyChains chains gl) (adjust_arranged _ _ _ _ A2 Ra)) as (g3 & h & Hpos & R3 & Hh & Hbox & Hdis & Hbel); [congruence|apply (lr_align _ _ L)|].
  pose proof (remapped_trans _ _ _ _ _ _ _ (remapped_trans _ _ _ _ _ _ _ R2 Ra) (relabelled_remapped _ _ _ (rm_digraph _ _ _ _ Ra) R3)) as R'.
  assert (∀ v, isNode g1 v ↔ isNode g2' v) as Hns by (intros v; by rewrite (remapped_isNode _ _ _ _ v Ra), (remapped_isNode _ _ _ _ v R2)).
  exists id2, g2, g2', g3, (λ u l, h u (adjust_node sw (set_order (φ u) l))), φ. split_and!; [done|apply A2|exact Hr2|done|done|]. split; [done|exact R'| | | |].
  - intros u l. destruct (Hh u (adjust_node sw (set_order (φ u) l))) as (a & b & ->). by eexists _, _, _.
  - intros v Hv. destruct (Hbox v (proj1 (Hns v) Hv)) as (l & b & Hl & Hb). exists l, b. rewrite (remapped_node _ _ _ _ v R') in Hl. apply fmap_Some in Hl as (l1 & Hl1' & ->).
    pose proof (sz_width _ _ Hsz1 v l1 Hl1'). pose proof (sz_height _ _ Hsz1 v l1 Hl1'). rewrite (remapped_node _ _ _ _ v R'), Hl1'. cbn. split_and!; [done|done|..];
      destruct (Hh v (adjust_node sw (set_order (φ v) l1))) as (? & ? & ->); destruct sw; done.
  - intros u v lu lv a b Hu Hv. apply Hdis; by apply Hns.
  - intros u v ru rv lu lv a b Hru Hrv Hlt Hlu Hlv. pose proof (adjust_arranged _ _ _ _ A2 Ra) as A3.
    assert (∀ w rw lw, rank_of g1 w = Some rw → node g3 w = Some lw → ∃ r o, located g2' w r o ∧ rw = Z.of_nat r) as Hloc.
    { intros w rw lw Hrw Hlw. assert (isNode g2' w) as Hw by (apply Hns; by apply (remapped_isNode _ _ _ _ w R'), (isNode_node g3 w lw)). destruct (ly_node _ (ar_layered _ _ A3) w Hw) as (_ & r & o & Hat). exists r, o. split; [done|].
      destruct Hat as (lr & Hlr & Hr & _). rewrite (remapped_node _ _ _ _ w Ra), (remapped_node _ _ _ _ w R2) in Hlr. unfold rank_of in Hrw. destruct (node g1 w) as [l1|]; [|done]. cbn in Hlr, Hrw. injection Hlr as <-.
      assert (rank l1 = Some (Z.of_nat r)) as Hr1 by (by destruct sw). congruence. }
    destruct (Hloc u ru lu Hru Hlu) as (r & o & Hu & ->), (Hloc v rv lv Hrv Hlv) as (r' & o' & Hv & ->). apply (Hbel u v lu lv a b r r' o o'); [lia|done..].
Qed.

Lemma place_split id : ∃ id1 g1 id2 g2 g2' g3 cs f, run id g = Ok (id1, g1) ∧ Pass.order id1 g1 = Ok (id2, g2) ∧ adjust g2 = Ok g2' ∧ position g2' = Ok g3 ∧ split_placed g1 cs f g3.
Proof.
  destruct (run_ok g (lr_ranked _ _ L) id) as (id1 & g1 & cs & Hrun & R). destruct (place_any id1 g1 cs R) as (id2 & g2 & g2' & g3 & f & φ & ? & _ & _ & ? & ? & ?). by exists id1, g1, id2, g2, g2', g3, cs, f.
Qed.

Lemma sp_keeps g1 cs f g3 : split_placed g1 cs f g3 → keeps_chain f.
Proof. intros S u l. destruct (sp_moves _ _ _ _ S u l) as (o & a & b & ->). by destruct sw. Qed.

(** The nodes that a long edge passes have boxes. *)
Definition passed (g3 : layoutGraph) (ds : list string) (ns : list nodeLabel) : Prop := Forall2 (λ d n, node g3 d = Some n ∧ is_dummy n = true ∧ ¬ isNode g d) ds ns.

Lemma split_dummy g1 cs f g3 ds ns n : split_placed g1 cs f g3 → passed g3 ds ns → n ∈ ns →
  ∃ d a, node g3 d = Some n ∧ isNode g1 d ∧ ¬ isNode g d ∧ box_of n = Some a ∧ (0 <= width n)%Q ∧ (0 <= height n)%Q.
Proof.
  intros [R Hr Hf Hbox Hdis _] Hds [i Hi]%list_elem_of_lookup. destruct (Forall2_lookup_r _ _ _ _ _ Hds Hi) as (d & _ & Hnd & _ & Hnew).
  assert (isNode g1 d) as Hd1 by (apply (remapped_isNode _ _ _ _ d Hr); by eapply isNode_node). destruct (Hbox d Hd1) as (n' & a & Hn' & Ha & ? & ?). assert (n' = n) as -> by congruence. by exists d, a.
Qed.

(** An edge that [normalize.undo] leaves. *)
Lemma undone_edge g3 g4 e l4 :
  (∀ e l rv rw, e ∈ edges g → edgeOf g e = Some l → rank_of g (ev e) = Some rv → rank_of g (ew e) = Some rw → edge_restored g g3 (λ _, adjust_edge sw) g4 e l rv rw) →
  e ∈ edges g → edgeOf g4 e = Some l4 → ∃ l rv rw, edgeOf g e = Some l ∧ rank_of g (ev e) = Some rv ∧ rank_of g (ew e) = Some rw ∧
    (rw = (rv + 1)%Z ∧ points l4 = None ∧ ex l4 = None ∨
     ∃ ds ns, Z.of_nat (length ds) = (rw - rv - 1)%Z ∧ ns ≠ [] ∧ passed g3 ds ns ∧ l4 = collect (with_points (Some []) l) ns ∧ points l4 = Some (centre <$> ns)).
Proof.
  intros Hrest He Hl4. destruct (rr_edge _ (lr_ranked _ _ L) e He) as (rv & rw & l & Hv & Hw & Hlt & Hl). exists l, rv, rw. split_and!; [done..|]. destruct (lr_fresh _ _ L e l He Hl) as [Hp Hx].
  specialize (Hrest e l rv rw He Hl Hv Hw). unfold edge_restored in Hrest. case_decide as Hd.
  - left. rewrite Hrest in Hl4. injection Hl4 as <-. split_and!; [done|..]; destruct sw; done.
  - right. destruct Hrest as (ds & ns & l' & Hlen & _ & Hds & Hl' & Hcol & Hps). assert (l' = l4) as -> by congruence. exists ds, ns. split_and!; [done| |done|done|done].
    intros ->. apply Forall2_length in Hds. cbn in Hds. lia.
Qed.

Lemma undo_draws g1 cs f g3 : split_placed g1 cs f g3 → ∃ g4, DagreNormalize.undo g3 = Ok g4 ∧ drawn g g4 sw (ahead false false) ∧ Graphlib.graph g4 = Graphlib.graph g3.
Proof.
  intros S. pose proof S as [R Hr Hf Hbox Hdis Hbel]. pose proof (lr_ranked _ _ L) as H0. pose proof (sp_keeps _ _ _ _ S) as Hk.
  destruct (undo_ok g g1 g3 cs f _ H0 R Hr Hk) as (g4 & Hundo & U); [intros v Hv; destruct (lr_plain _ _ L v Hv) as (l & ? & ? & _); by exists l|].
  destruct (undo_restores g g1 g3 cs f _ H0 R Hr Hk g4 U) as (Hnodes & Hedges & Hrest). destruct (ud_options _ _ _ U) as [Hm4 Hg4].
  assert (∀ v, isNode g v → isNode g1 v) as Hup by (intros v Hv; unfold isNode; by rewrite (run_old g g1 cs R)).
  assert (∀ v n, node g4 v = Some n → isNode g v ∧ node g3 v = Some n) as Hn4 by (intros v l; unfold node; rewrite Hnodes; by case_decide).
  assert (∀ v, isNode g v → node g4 v = node g3 v) as Hn3 by (intros v Hv; unfold node; by rewrite Hnodes, decide_True).
  assert (∀ v l, node g v = Some l → ∃ n, node g3 v = Some n ∧ nlabelpos n = nlabelpos l ∧ sized sw l n) as Hnode.
  { intros v l Hl. exists (f v l). rewrite (remapped_node _ _ _ _ v Hr). unfold node in *. rewrite (run_old g g1 cs R v (isNode_node g v l Hl)), Hl. split; [done|].
    destruct (Hf v l) as (o & a & b & ->). unfold sized. by destruct sw. }
  pose proof (λ e l4 He, undone_edge g3 g4 e l4 Hrest (proj1 (Hedges e) He)) as Hcase. pose proof (λ ds ns n, split_dummy g1 cs f g3 ds ns n S) as Hdummy.
  exists g4. split_and!; [done| |unfold Graphlib.graph; congruence]. split.
  - split; [apply U|done| |].
    + intros v [o Ho]. rewrite Hnodes in Ho. case_decide as Hv; [|done]. destruct (lr_plain _ _ L v Hv) as (l & Hl & _). destruct (Hnode v l Hl) as (n & Hn & _). rewrite Hn3, Hn by done. by eexists.
    + intros x Hx%Hedges. destruct (rr_edge _ H0 x Hx) as (rv & rw & l & Hv & Hw & _ & Hl). specialize (Hrest x l rv rw Hx Hl Hv Hw). unfold edge_restored in Hrest. case_decide; [rewrite Hrest; by eexists|].
      destruct Hrest as (_ & _ & l' & _ & _ & _ & -> & _). by eexists.
  - intros v. unfold isNode at 1. rewrite Hnodes. case_decide as Hv; [|by split; [intros []|]]. split; [done|]. intros _. by apply (remapped_isNode _ _ _ _ v Hr), Hup.
  - done.
  - intros v l Hl. destruct (Hnode v l Hl) as (n & Hn & _ & Hs). exists n. by rewrite Hn3 by (by eapply isNode_node).
  - intros v n [Hv Hn]%Hn4. destruct (lr_plain _ _ L v Hv) as (l & Hl & _ & Hp & _). destruct (Hnode v l Hl) as (n' & Hn' & Hp' & _). assert (n' = n) as -> by congruence. split; [congruence|].
    destruct (Hbox v (Hup v Hv)) as (n' & b & Hn'' & Hb & _). exists b. congruence.
  - intros u v m n a b Huv [Hu Hm]%Hn4 [Hv Hn]%Hn4. by apply (Hdis u v); auto.
  - intros e l4 He Hl4. destruct (Hcase e l4 He Hl4) as (l & rv & rw & Hl & _ & _ & [(_ & _ & ->)|(ds & ns & _ & _ & Hds & -> & _)]); [by intros []|].
    apply collect_xy; [|apply Hedges in He; destruct (lr_fresh _ _ L e l He Hl) as [_ Hx]; cbn; rewrite Hx; by intros []]. intros n Hn. destruct (Hdummy ds ns n Hds Hn) as (d & a & _ & _ & _ & Ha & _). by eapply box_placed.
  - intros e l4 rv rw He Hl4 Hv Hw. destruct (Hcase e l4 He Hl4) as (l & rv' & rw' & Hl & Hv' & Hw' & Hc). simplify_eq. destruct Hc as [(-> & -> & _)|(ds & ns & Hlen & Hne & Hds & _ & ->)].
    + split; [done|]. cbn. lia.
    + split; [by destruct ns|]. cbn. rewrite length_map, <-(Forall2_length _ _ _ Hds). done.
  - intros e l4 p He Hl4 Hp. destruct (Hcase e l4 He Hl4) as (l & rv & rw & _ & _ & _ & [(_ & Hno & _)|(ds & ns & _ & _ & Hds & _ & Hps)]); [rewrite Hno in Hp; by apply elem_of_nil in Hp|].
    rewrite Hps in Hp. cbn in Hp. apply list_elem_of_fmap in Hp as (n & -> & Hn). destruct (Hdummy ds ns n Hds Hn) as (d & a & Hnd & Hd1 & Hnew & Ha & Hw & Hh). destruct (box_placed n a Ha). split_and!; [done|done|].
    intros v m b [Hv Hm]%Hn4 Hb. apply (place_outside n a b Hw Hh Ha). apply (Hdis d v n m a b Hd1 (Hup v Hv)); [by intros ->|done..].
  - intros e l4 l0 He Hl4 Hl0. apply Hedges in He. destruct (rr_edge _ H0 e He) as (rv & rw & l & Hv & Hw & _ & Hl). assert (l0 = l) as -> by congruence. specialize (Hrest e l rv rw He Hl Hv Hw).
    unfold edge_restored in Hrest. case_decide; [rewrite Hl4 in Hrest; injection Hrest as ->; by destruct sw|]. destruct Hrest as (ds & ns & l' & _ & _ & _ & Hl' & Hcol & _).
    assert (l' = l4) as -> by congruence. rewrite Hcol. destruct (collect_marks (with_points (Some []) l) ns) as [-> ->]. done.
  - intros u v ru rv m n a b Hru Hrv Hlt [Hu Hm]%Hn4 [Hv Hn]%Hn4. assert (∀ w, isNode g w → rank_of g1 w = rank_of g w) as Hrk by (intros w Hw; unfold rank_of, node; by rewrite (run_old g g1 cs R w Hw)).
    apply (Hbel u v ru rv m n a b); [by rewrite Hrk|by rewrite Hrk|done..].
Qed.

(** The passes after [position] on the placed graph. *)
Record finished (g4 g9 : layoutGraph) (gl9 : graphLabel) : Prop := {
  fs_passes : ∃ g5 g6 g7 g8, DagreNormalize.undo g4 = Ok g5 ∧ fixupEdgeLabelCoords g5 = Ok g6 ∧ DagreGeometry.undo g6 = Ok g7 ∧ translateGraph g7 = Ok g8 ∧ assignNodeIntersects g8 = Ok g9;
  fs_labelled : labelled g9;
  fs_graph : Graphlib.graph g9 = Some gl9;
  fs_margins : marginx gl9 = marginx gl ∧ marginy gl9 = marginy gl;
  fs_nodes : ∀ v, isNode g9 v ↔ isNode g v;
  fs_edges : ∀ x, x ∈ edges g9 ↔ x ∈ edges g;
  fs_size : ∀ v l, node g v = Some l → ∃ n (x y : Q), node g9 v = Some n ∧ nx n = Some x ∧ ny n = Some y ∧ width n = width l ∧ height n = height l ∧ within gl9 x y (width n) (height n);
  fs_disjoint : ∀ u v m n a b, u ≠ v → node g9 u = Some m → node g9 v = Some n → box_of m = Some a → box_of n = Some b → disjoint_boxes a b;
  fs_plain : ∀ v n, node g9 v = Some n → nlabelpos n = None;
  fs_points : ∀ e rv rw, e ∈ edges g → rank_of g (ev e) = Some rv → rank_of g (ew e) = Some rw →
    ∃ l nv nw a ps c, edgeOf g9 e = Some l ∧ node g9 (ev e) = Some nv ∧ node g9 (ew e) = Some nw ∧ points l = Some (a :: ps ++ [c]) ∧ on_border a nv ∧ on_border c nw ∧
      Z.of_nat (length ps) = (rw - rv - 1)%Z ∧ ∀ p, p ∈ ps → is_Some (px p) ∧ is_Some (py p) ∧ ∀ v n b, node g9 v = Some n → box_of n = Some b → ¬ inside p b;
  fs_ahead : ∀ u v ru rv m n a b, rank_of g u = Some ru → rank_of g v = Some rv → (ru < rv)%Z → node g9 u = Some m → node g9 v = Some n → box_of m = Some a → box_of n = Some b →
    ahead sw (backwards (toLowerCase (rankdir gl))) a b;
  fs_marks : ∀ e l l0, e ∈ edges g9 → edgeOf g9 e = Some l → edgeOf g e = Some l0 → reversed l = reversed l0 ∧ forwardName l = forwardName l0
}.

Lemma draw_split g1 cs f g4 : split_placed g1 cs f g4 → ∃ g9 gl9, finished g4 g9 gl9.
Proof.
  intros S. destruct (undo_draws g1 cs f g4 S) as (g5 & H5 & D5 & Hg5).
  destruct (run_label g g1 gl cs (sp_inv _ _ _ _ S) (lr_label _ _ L)) as [chains Hgl1]. destruct (remapped_queries _ _ _ _ (sp_remapped _ _ _ _ S)) as (_ & Hgl4 & _).
  destruct (fixup_drawn g g5 _ _ D5) as (g6 & H6 & D6 & Hg6). destruct (undo_drawn g g6 (with_dummyChains chains gl)) as (g7 & H7 & D7 & Hg7); [congruence|done|].
  destruct (translate_drawn g g7 _ _ _ Hg7 D7) as (g8 & gl8 & H8 & D8 & Hg8 & Mx & My & Hin).
  assert (∀ v n, node g8 v = Some n → (0 < width n)%Q ∧ (0 < height n)%Q) as Hpos.
  { intros v n Hn. destruct (lr_plain _ _ L v) as (l & Hl & _ & _ & ? & ?); [apply (dw_nodes _ _ _ _ D8); by eapply isNode_node|].
    destruct (dw_size _ _ _ _ D8 v l Hl) as (n' & Hn' & [Hw Hh]). assert (n' = n) as -> by congruence. by rewrite Hw, Hh. }
  assert (∀ e, e ∈ edges g8 → ∃ rv rw, rank_of g (ev e) = Some rv ∧ rank_of g (ew e) = Some rw ∧ ev e ≠ ew e) as Hrk.
  { intros e He%(dw_edges _ _ _ _ D8). destruct (rr_edge _ (lr_ranked _ _ L) e He) as (rv & rw & _ & Hv & Hw & Hlt & _). exists rv, rw. split_and!; [done|done|]. intros Heq. rewrite Heq in Hv. rewrite Hv in Hw. injection Hw. lia. }
  assert (∀ e, e ∈ edges g8 → ev e ≠ ew e) as Hloop by (intros e He; by destruct (Hrk e He) as (? & ? & _ & _ & ?)).
  assert (∀ e l, e ∈ edges g8 → edgeOf g8 e = Some l → points l ≠ Some []) as Hne.
  { intros e l He Hl. destruct (Hrk e He) as (rv & rw & Hv & Hw & _). by apply (dw_count _ _ _ _ D8 e l rv rw He Hl Hv Hw). }
  destruct (assignNodeIntersects_ok g g8 _ D8 Hpos Hloop Hne) as (g9 & H9 & R9). destruct (remapped_queries _ _ _ _ R9) as (He9 & Hg9 & _).
  assert (∀ v, node g9 v = node g8 v) as Hn9 by (intros v; rewrite (remapped_node _ _ _ _ v R9); by destruct (node g8 v)).
  pose proof (dw_labelled _ _ _ _ D8) as L8. exists g9, gl8. split.
  - by exists g5, g6, g7, g8.
  - by eapply remapped_labelled.
  - congruence.
  - by rewrite Mx, My.
  - intros v. rewrite (remapped_isNode _ _ _ _ v R9). apply D8.
  - intros x. rewrite He9. apply D8.
  - intros v l Hl. destruct (dw_size _ _ _ _ D8 v l Hl) as (n & Hn & [Hw Hh]). destruct (Hin v n Hn) as (x & y & Hx & Hy & Hwi). exists n, x, y. rewrite Hn9. by split_and!.
  - intros u v m n a b Huv. rewrite !Hn9. by apply (dw_disjoint _ _ _ _ D8).
  - intros v n. rewrite Hn9. apply (dw_box _ _ _ _ D8).
  - intros e rv rw He Hv Hw. apply (dw_edges _ _ _ _ D8) in He. pose proof (dw_labelled _ _ _ _ D8) as [B1 B2 B3 B4]. destruct (B4 e He) as [l Hl].
    destruct (edges_nodes g8 e (dg_wf _ B1) He) as [Nv Nw]. destruct (B3 _ Nv) as [nv Hnv], (B3 _ Nw) as [nw Hnw].
    destruct (edge_points_ok g g8 _ D8 Hpos Hloop Hne e l nv nw He Hl Hnv Hnw) as (a & c & Hep & Ba & Bc). destruct (dw_count _ _ _ _ D8 e l rv rw He Hl Hv Hw) as [_ Hlen].
    eexists _, nv, nw, a, (default [] (points l)), c. rewrite !Hn9, (remapped_edgeOf g8 _ _ g9 e B1 R9 He), Hl. cbn [fmap option_fmap option_map]. split_and!; [done|done|done| |done|done|done|].
    + unfold attach. by rewrite Hnv, Hnw, Hep.
    + intros p Hp. destruct (dw_points _ _ _ _ D8 e l p He Hl Hp) as (X & Y & Hout). split_and!; [done|done|]. intros v n b. rewrite Hn9. apply Hout.
  - intros u v ru rv m n a b Hu Hv Hlt. rewrite !Hn9. by apply (dw_before _ _ _ _ D8 u v ru rv m n a b Hu Hv Hlt).
  - intros e l l0. rewrite He9. intros He Hl Hl0. rewrite (remapped_edgeOf g8 _ _ g9 e (lb_digraph _ L8) R9 He) in Hl. apply fmap_Some in Hl as (l8 & Hl8 & ->).
    destruct (dw_marks _ _ _ _ D8 e l8 l0 He Hl8 Hl0) as [<- <-]. unfold attach. destruct (node g8 (ev e)), (node g8 (ew e)); [|done..]. by destruct (edge_points _ _ _).
Qed.
End Ranked.

(** C9: the passes from ranks to a drawing return on a ranked graph without clusters and loops, with edges of any length and in
    every direction.  The result has the nodes and edges of the input; the nodes have their sizes, and boxes that do not
    overlap and lie within the size of the graph less its margins; a node of smaller rank comes before one of larger rank in the direction
    of the layout; an edge starts and ends on the borders of its nodes
    and has one point in between for each rank it crosses, none of them inside a node. *)
Theorem ranked_layout_correct id (g : layoutGraph) gl :
  layout_ready g gl →
  ∃ id1 g1 id2 g2 g3 g4 g5 g6 g7 g8 g9 gl9,
    run id g = Ok (id1, g1) ∧ Pass.order id1 g1 = Ok (id2, g2) ∧ adjust g2 = Ok g3 ∧ position g3 = Ok g4 ∧ DagreNormalize.undo g4 = Ok g5 ∧
    fixupEdgeLabelCoords g5 = Ok g6 ∧ DagreGeometry.undo g6 = Ok g7 ∧ translateGraph g7 = Ok g8 ∧ assignNodeIntersects g8 = Ok g9 ∧
    Graphlib.graph g9 = Some gl9 ∧ marginx gl9 = marginx gl ∧ marginy gl9 = marginy gl ∧
    (∀ v, isNode g9 v ↔ isNode g v) ∧ (∀ x, x ∈ edges g9 ↔ x ∈ edges g) ∧
    (∀ v l, node g v = Some l → ∃ n x y, node g9 v = Some n ∧ nx n = Some x ∧ ny n = Some y ∧ width n = width l ∧ height n = height l ∧ within gl9 x y (width n) (height n)) ∧
    (∀ u v m n a b, u ≠ v → node g9 u = Some m → node g9 v = Some n → box_of m = Some a → box_of n = Some b → disjoint_boxes a b) ∧
    (∀ u v ru rv m n a b, rank_of g u = Some ru → rank_of g v = Some rv → (ru < rv)%Z → node g9 u = Some m → node g9 v = Some n → box_of m = Some a → box_of n = Some b →
      ahead (sideways (toLowerCase (rankdir gl))) (backwards (toLowerCase (rankdir gl))) a b) ∧
    ∀ e rv rw, e ∈ edges g → rank_of g (ev e) = Some rv → rank_of g (ew e) = Some rw →
      ∃ l nv nw a ps c, edgeOf g9 e = Some l ∧ node g9 (ev e) = Some nv ∧ node g9 (ew e) = Some nw ∧ points l = Some (a :: ps ++ [c]) ∧ on_border a nv ∧ on_border c nw ∧
        Z.of_nat (length ps) = (rw - rv - 1)%Z ∧ ∀ p, p ∈ ps → is_Some (px p) ∧ is_Some (py p) ∧ ∀ v n b, node g9 v = Some n → box_of n = Some b → ¬ inside p b.
Proof.
  intros L. destruct (place_split g gl L id) as (id1 & g1 & id2 & g2 & g3 & g4 & cs & f & H1 & H2 & H3 & H4 & S).
  destruct (draw_split g gl L g1 cs f g4 S) as (g9 & gl9 & [(g5 & g6 & g7 & g8 & H5 & H6 & H7 & H8 & H9) _ Hg [Mx My] F1 F2 F3 F4 _ F5 F6 _]).
  exists id1, g1, id2, g2, g3, g4, g5, g6, g7, g8, g9, gl9. by split_and!.
Qed.

(** ** An example *)

Definition qpos (q : Q) : bool := negb (Qle_bool q 0).
Definition layout_check (g : layoutGraph) (gl : graphLabel) : bool :=
  forallb (λ v, match node g v with Some l => negb (is_dummy l) && bool_decide (nlabelpos l = None) && qpos (width l) && qpos (height l) | None => false end) (nodes g) &&
  forallb (λ e, match rank_of g (ev e), rank_of g (ew e), edgeOf g e with
                | Some rv, Some rw, Some l => Z.ltb rv rw && Qle_bool 0 (ewidth l) && Qle_bool 0 (eheight l) &&
                    match points l, ex l with None, None => true | _, _ => false end
                | _, _, _ => false
                end) (edges g) &&
  (Qle_bool 0 (nodesep gl) && Qle_bool 0 (edgesep gl) && Qle_bool 0 (ranksep gl)) && dense_ranks_check g.

Lemma layout_check_ok g gl :
  flat_ranked g → nonneg_weights g → isMultigraph g = true → Graphlib.graph g = Some gl → align_ok (align gl) → layout_check g gl = true → layout_ready g gl.
Proof.
  intros F Hw Hm Hgl Hal. unfold layout_check. rewrite !andb_true_iff, !forallb_forall, !Qle_bool_iff. intros [[[Hn He] [[S1 S2] S3]] Hde].
  assert (∀ q, qpos q = true → (0 < q)%Q) as Hq by (intros q; unfold qpos; rewrite negb_true_iff; intros Hf; apply Qnot_le_lt; intros ?%Qle_bool_iff; congruence).
  assert (∀ e, e ∈ edges g → ∃ rv rw l, rank_of g (ev e) = Some rv ∧ rank_of g (ew e) = Some rw ∧ (rv < rw)%Z ∧ edgeOf g e = Some l ∧ ((0 <= ewidth l)%Q ∧ (0 <= eheight l)%Q) ∧ points l = None ∧ ex l = None) as Hedge.
  { intros e Hin%list_elem_of_In. specialize (He e Hin). destruct (rank_of g (ev e)) as [rv|], (rank_of g (ew e)) as [rw|], (edgeOf g e) as [l|]; try done.
    rewrite !andb_true_iff, Z.ltb_lt, !Qle_bool_iff in He. destruct He as [[[? ?] ?] ?]. exists rv, rw, l. destruct (points l), (ex l); try done; by split_and!. }
  split; [|done| | |done| |done|done| |done].
  - split; [apply F|done|by eexists|]. intros x Hx. destruct (Hedge x Hx) as (rv & rw & l & ? & ? & ? & ? & _). by exists rv, rw, l.
  - intros v Hv%elem_of_nodes%list_elem_of_In. specialize (Hn v Hv). destruct (node g v) as [l|]; [|done]. rewrite !andb_true_iff, negb_true_iff, bool_decide_eq_true in Hn. destruct Hn as [[[? ?] ?%Hq] ?%Hq]. by exists l.
  - intros e l Hin Hl. destruct (Hedge e Hin) as (rv & rw & l' & _ & _ & _ & Hl' & _ & ?). by simplify_eq.
  - intros v r Hv Hr. left. by apply (dense_ranks_check_ok g Hde v r).
  - intros e l Hin Hl. destruct (Hedge e Hin) as (rv & rw & l' & _ & _ & _ & Hl' & ? & _). by simplify_eq.
Qed.

Definition example_label : graphLabel := GraphLabel 50%Q 20%Q 50%Q "rl" None (Some 5%Q) None None None no_gmore.

(** A path of three edges and one edge past it, with its label on rank 2. *)
Definition bypass : layoutGraph :=
  build true true true
    [OpSetGraph (Some example_label);
     OpSetNode "a" (ranked_node 0); OpSetNode "b" (ranked_node 1); OpSetNode "c" (ranked_node 2); OpSetNode "d" (ranked_node 3);
     OpSetEdge "a" "b" (weighted 1) None; OpSetEdge "b" "c" (weighted 1) None; OpSetEdge "c" "d" (weighted 1) None;
     OpSetEdge "a" "d" (Some (Some (EdgeLabel 1 2 30%Q 8%Q 10%Q "c" None None None (Some 2%Z) false None false))) (Some "long"%string)].

Lemma bypass_ready : layout_ready bypass example_label.
Proof.
  destruct (flat_check_ok bypass) as [F Hw]; [apply build_wf; apply (bool_decide_unpack _); vm_compute; exact I|vm_compute; reflexivity|].
  apply layout_check_ok; [done|done|reflexivity|reflexivity|by intros [=]|vm_compute; reflexivity].
Qed.

(** The passes in sequence, and the number of points of an edge of the result. *)
Definition points_after (g : layoutGraph) (e : edgeObj) : res (option nat) :=
  r <-- run 0 g ;; r <-- Pass.order r.1 r.2 ;; g <-- adjust r.2 ;; g <-- position g ;; g <-- DagreNormalize.undo g ;; g <-- fixupEdgeLabelCoords g ;;
  g <-- DagreGeometry.undo g ;; g <-- translateGraph g ;; g <-- assignNodeIntersects g ;;
  Ok (length <$> (l ← edgeOf g e; points l)).

Lemma bypass_points : points_after bypass (EdgeObj "a" "d" (Some "long"%string)) = Ok (Some 4).
Proof. vm_compute. reflexivity. Qed.

Lemma ranked_layout_correct_witness :
  layout_ready bypass example_label ∧ ∃ id1 g1 id2 g2 g3 g4 g5 g6 g7 g8 g9, run 0 bypass = Ok (id1, g1) ∧ Pass.order id1 g1 = Ok (id2, g2) ∧ adjust g2 = Ok g3 ∧ position g3 = Ok g4 ∧
    DagreNormalize.undo g4 = Ok g5 ∧ fixupEdgeLabelCoords g5 = Ok g6 ∧ DagreGeometry.undo g6 = Ok g7 ∧ translateGraph g7 = Ok g8 ∧ assignNodeIntersects g8 = Ok g9 ∧
    ∃ n x y gl9, node g9 "d" = Some n ∧ nx n = Some x ∧ ny n = Some y ∧ marginx gl9 = Some 5%Q ∧ within gl9 x y 10 10.
Proof.
  split; [exact bypass_ready|].
  destruct (ranked_layout_correct 0 bypass example_label bypass_ready)
    as (id1 & g1 & id2 & g2 & g3 & g4 & g5 & g6 & g7 & g8 & g9 & gl9 & H1 & H2 & H3 & H4 & H5 & H6 & H7 & H8 & H9 & _ & Hm & _ & _ & _ & Hn & _).
  exists id1, g1, id2, g2, g3, g4, g5, g6, g7, g8, g9. repeat (split; [eassumption|]).
  destruct (Hn "d"%string (NodeLabel 10%Q 10%Q None None (Some 3%Z) None None None None no_more)) as (n & x & y & Hnd & Hx & Hy & Hw & Hh & Hin); [vm_compute; reflexivity|].
  rewrite Hw, Hh in Hin. exists n, x, y, gl9. repeat (split; [eassumption|]). exact Hin.
Defined.

Lemma normalize_run_short_witness :
  rank_ready bypass ∧ ∃ id' g', run 0 bypass = Ok (id', g') ∧ (∀ x, x ∈ edges g' → ∃ r, rank_of g' (ev x) = Some r ∧ rank_of g' (ew x) = Some (r + 1)%Z).
Proof.
  split; [apply bypass_ready|]. destruct (normalize_run_short 0 bypass (lr_ranked _ _ bypass_ready)) as (id' & g' & Hr & _ & _ & Hs & _). exists id', g'. split; [exact Hr|exact Hs].
Defined.

Lemma bypass_plain v : isNode bypass v → ∃ l, node bypass v = Some l ∧ is_dummy l = false.
Proof. intros Hv. destruct (lr_plain _ _ bypass_ready v Hv) as (l & ? & ? & _). exists l. split; assumption. Qed.

Definition at_origin (u : string) (l : nodeLabel) : nodeLabel := with_xy (Some 0%Q) (Some 7%Q) l.

Lemma normalize_undo_restores_witness :
  ∃ id' gr g1 g2, run 0 bypass = Ok (id', gr) ∧ res_fold (λ g v, updNode g v (at_origin v)) gr (nodes gr) = Ok g1 ∧ DagreNormalize.undo g1 = Ok g2 ∧ (∀ x, x ∈ edges g2 ↔ x ∈ edges bypass) ∧
    (l ← edgeOf g2 (EdgeObj "a" "d" (Some "long"%string)); points l) = Some [Point (Some 0%Q) (Some 7%Q); Point (Some 0%Q) (Some 7%Q)].
Proof.
  pose proof bypass_ready as B. destruct (run_ok bypass (lr_ranked _ _ B) 0) as (id' & gr & cs & Hrun & R).
  assert (wf gr) as Hwf by apply (ri_norm _ _ _ _ R).
  assert (∀ v, v ∈ nodes gr → is_Some (node gr v)) as Hlab.
  { intros v Hv%elem_of_nodes. destruct (fr_node _ (run_flat bypass gr cs (lr_ranked _ _ B) R (lr_flat _ _ B)) v Hv) as (_ & l & _ & Hl & _). rewrite Hl. eexists. reflexivity. }
  destruct (updNodes_relabelled gr (λ _ l, l) gr (nodes gr) at_origin Hlab (NoDup_nodes gr Hwf) (relabelled_refl gr (λ _ l, l) Hwf (λ _ _, eq_refl))) as (g1 & Hu & Hr).
  destruct (normalize_undo_restores 0 id' bypass gr g1 _ _ (lr_ranked _ _ B) bypass_plain Hrun (relabelled_remapped _ _ _ (nz_digraph _ _ _ (ri_norm _ _ _ _ R)) Hr)) as (g2 & Hundo & _ & He & _).
  { intros u l. cbv beta. destruct (decide (u ∈ nodes gr)); split; reflexivity. }
  exists id', gr, g1, g2. split; [exact Hrun|]. split; [exact Hu|]. split; [exact Hundo|]. split; [exact He|].
  vm_compute in Hrun. injection Hrun as <- <-. vm_compute in Hu. injection Hu as <-. vm_compute in Hundo. injection Hundo as <-. vm_compute. reflexivity.
Defined.

(** Two nodes with coordinates and an edge with a label between them. *)
Definition placed_pair : layoutGraph :=
  build true true true
    [OpSetGraph (Some example_label);
     OpSetNode "a" (Some (Some (NodeLabel 10%Q 10%Q (Some (-7)%Q) (Some 0%Q) None None None None None no_more)));
     OpSetNode "b" (Some (Some (NodeLabel 20%Q 10%Q (Some 5%Q) (Some 60%Q) None None None None None no_more)));
     OpSetEdge "a" "b" (Some (Some (EdgeLabel 1 1 6%Q 4%Q 10%Q "c" (Some 40%Q) (Some 30%Q) None None false None false))) None].

Definition drawable_check (g : layoutGraph) : bool :=
  forallb (λ v, match node g v with Some n => match nx n, ny n with Some _, Some _ => true | _, _ => false end | None => false end) (nodes g) &&
  forallb (λ e, match edgeOf g e with Some l => match ex l, ey l with Some _, None => false | _, _ => true end | None => false end) (edges g).

Lemma drawable_check_ok g : digraph g → isMultigraph g = true → drawable_check g = true → drawable g.
Proof.
  intros Hg Hm. unfold drawable_check. rewrite andb_true_iff, !forallb_forall. intros [Hn He]. split; [split; [done|done| |]| |].
  - intros v Hv%elem_of_nodes%list_elem_of_In%Hn. destruct (node g v); [by eexists|done].
  - intros x Hx%list_elem_of_In%He. destruct (edgeOf g x); [by eexists|done].
  - intros v n Hv. specialize (Hn v). rewrite Hv in Hn. destruct (nx n), (ny n); try (by split; eexists); exfalso; by discriminate (Hn (proj1 (list_elem_of_In _ _) (proj2 (elem_of_nodes _ _) (isNode_node _ _ _ Hv)))).
  - intros x l Hx%list_elem_of_In%He Hl [a Ha]. rewrite Hl, Ha in Hx. destruct (ey l); [by eexists|done].
Qed.

