(* ===== verification/DagreSimplex.v ===== *)
(** * dagre: network simplex (lib/rank/network-simplex.js inside dagre.min.js)

    The ranker that [rank] uses by default.  [simplify] merges parallel edges; the ranks of [longestPath] and the tree of
    [feasibleTree] are the start; as long as a tree edge has a negative cut value it is exchanged for a graph edge and the
    ranks are recomputed along the tree.  The code gives no bound for the number of exchanges, so [simplex_loop] takes
    one as an argument; the recursion of [dfsAssignLowLim] is bounded by the number of nodes. *)
From Stdlib Require Import QArith_base.
Local Close Scope Q_scope.
From S2P Require Import Prelude JsObject Graphlib GraphWf GraphInv GraphQuery GraphView GraphAlg GraphDfs Lodash LodashSpec.
From S2P Require Import DagreTypes DagreRank DagreTree DagreRankClaims DagreBk DagreNormalize.

Section Simplex.
Context {L : Type}.
Notation graph := (Graph L nodeLabel edgeLabel).
Notation tree := (Graph unit treeNode treeEdge).
Implicit Types (g : graph) (t : tree) (v w : string) (e x f : edgeObj).

(** ** [util.simplify] *)

(** [{weight:w,minlen:m}]; the other attributes are undefined and not read. *)
Definition simple_label (w m : Z) : edgeLabel := EdgeLabel m w 0%Q 0%Q 0%Q ""%string None None None None false None false.
Definition simplify_edge g (s : graph) e : res graph :=
  label <-- of_option (edgeOf g e) ;;
  let simpleLabel := default (simple_label 0 1) (edge s (ev e) (ew e) None) in
  setEdge s (ev e) (ew e) (Some (Some (simple_label (weight simpleLabel + weight label) (Z.max (minlen simpleLabel) (minlen label))))) None.
Definition simplify g : res graph :=
  s <-- res_fold (λ s v, setNode s v (Some (node g v))) (setGraph (newGraph true false false) (Graphlib.graph g)) (nodes g) ;;
  res_fold (simplify_edge g) s (edges g).

(** ** Numbering the tree *)

Record lowlim := LowLim { ll_tree : tree; ll_visited : obj bool; ll_next : Z }.

(** [label.low=low;label.lim=nextLim;label.parent=parent], or [delete label.parent]. *)
Definition set_lowlim (lo li : Z) (parent : option string) (l : treeNode) : treeNode :=
  TreeNode (Some lo) (Some li) (if truthy parent then parent else None).
Fixpoint dfsAssignLowLim (fuel : nat) (st : lowlim) v (parent : option string) : res lowlim :=
  match fuel with
  | O => Throw (JsError "Maximum call stack size exceeded")
  | S fuel' =>
      let lo := ll_next st in
      let st := LowLim (ll_tree st) (oset (ll_visited st) v true) (ll_next st) in
      st <-- res_fold (λ st w, if ohas (ll_visited st) w then Ok st else dfsAssignLowLim fuel' st w (Some v)) st (default [] (neighbors (ll_tree st) v)) ;;
      t <-- updNode (ll_tree st) v (set_lowlim lo (ll_next st) parent) ;;
      Ok (LowLim t (ll_visited st) (ll_next st + 1))
  end.
(** [tree.nodes()[0]] of an empty tree is [undefined]; no node has that label. *)
Definition initLowLimValues t : res tree :=
  st <-- dfsAssignLowLim (S (length (nodes t))) (LowLim t [] 1) (default "undefined"%string (head (nodes t))) None ;;
  Ok (ll_tree st).

(** ** Cut values *)

Definition oadd (a b : option Z) : option Z := x ← a; y ← b; Some (x + y)%Z.
Definition isTreeEdge t v w : bool := hasEdge t v w None.
Definition cut_step t g (child parent : string) (childIsTail : bool) (cutValue : option Z) e : res (option Z) :=
  let isOutEdge := bool_decide (ev e = child) in
  let other := if isOutEdge then ew e else ev e in
  if decide (other = parent) then Ok cutValue
  else
    let pointsToHead := Bool.eqb isOutEdge childIsTail in
    l <-- of_option (edgeOf g e) ;;
    let cutValue := oadd cutValue (Some (if pointsToHead then weight l else - weight l)%Z) in
    if isTreeEdge t child other then
      le <-- of_option (edge t child other None) ;;
      Ok (oadd cutValue (if pointsToHead then Z.opp <$> cutvalue le else cutvalue le))
    else Ok cutValue.
Definition calcCutValue t g (child : string) : res (option Z) :=
  childLab <-- of_option (node t child) ;;
  parent <-- of_option (tparent childLab) ;;
  match edge g child parent None with
  | Some graphEdge => res_fold (cut_step t g child parent true) (Some (weight graphEdge)) (default [] (nodeEdges g child None))
  | None =>
      graphEdge <-- of_option (edge g parent child None) ;;
      res_fold (cut_step t g child parent false) (Some (weight graphEdge)) (default [] (nodeEdges g child None))
  end.
Definition assignCutValue g t (child : string) : res tree :=
  childLab <-- of_option (node t child) ;;
  parent <-- of_option (tparent childLab) ;;
  c <-- calcCutValue t g child ;;
  updEdge t (EdgeObj child parent None) (λ _, TreeEdge c).
Definition initCutValues t g : res tree :=
  vs <-- postorder t (nodes t) ;;
  res_fold (assignCutValue g) t (removelast vs).

(** ** Exchanging edges *)

Definition negative (c : option Z) : bool := match c with Some z => bool_decide (z < 0)%Z | None => false end.
Definition leaveEdge t : option edgeObj := list_find (λ e, negative (edgeOf t e ≫= cutvalue) = true) (edges t) ≫= λ ie, Some ie.2.

Definition isDescendant (vLabel rootLabel : treeNode) : bool :=
  match low rootLabel, lim vLabel, lim rootLabel with
  | Some lo, Some l, Some li => bool_decide (lo ≤ l)%Z && bool_decide (l ≤ li)%Z
  | _, _, _ => false
  end.
Definition candidate t (tailLabel : treeNode) (flip : bool) (cs : list edgeObj) e : res (list edgeObj) :=
  lv <-- of_option (node t (ev e)) ;;
  lw <-- of_option (node t (ew e)) ;;
  Ok (if Bool.eqb flip (isDescendant lv tailLabel) && negb (Bool.eqb flip (isDescendant lw tailLabel)) then cs ++ [e] else cs).
Definition enterEdge t g e : res (option edgeObj) :=
  let '(v, w) := if hasEdge g (ev e) (ew e) None then (ev e, ew e) else (ew e, ev e) in
  vLabel <-- of_option (node t v) ;;
  wLabel <-- of_option (node t w) ;;
  let flip := match lim vLabel, lim wLabel with Some a, Some b => bool_decide (b < a)%Z | _, _ => false end in
  candidates <-- res_fold (candidate t (if flip then wLabel else vLabel) flip) [] (edges g) ;;
  cs <-- res_fold (λ cs e, s <-- slack g e ;; Ok (cs ++ [(e, s)])) [] candidates ;;
  Ok (fst <$> minBy cs snd).

(** [_.find(t.nodes(),function(v){return!g.node(v).parent})]: the labels of the graph have no attribute [parent], so
    that the first node is taken. *)
Definition rank_child t g v : res graph :=
  l <-- of_option (node t v) ;;
  parent <-- of_option (tparent l) ;;
  lp <-- of_option (node g parent) ;;
  match edge g v parent None with
  | Some e => updNode g v (set_rank ((λ r, r - minlen e)%Z <$> rank lp))
  | None => e <-- of_option (edge g parent v None) ;; updNode g v (set_rank ((λ r, r + minlen e)%Z <$> rank lp))
  end.
Definition updateRanks t g : res graph :=
  root <-- of_option (head (nodes t)) ;;
  vs <-- preorder t [root] ;;
  res_fold (rank_child t) g (drop 1 vs).

Definition exchangeEdges t g e f : res (tree * graph) :=
  t <-- removeEdge t (ev e) (ew e) None ;;
  t <-- setEdge t (ev f) (ew f) (Some (Some no_edge)) None ;;
  t <-- initLowLimValues t ;;
  t <-- initCutValues t g ;;
  g <-- updateRanks t g ;;
  Ok (t, g).

(** [while(e=leaveEdge(t))]. *)
Fixpoint simplex_loop (turns : nat) t g : res (tree * graph) :=
  match leaveEdge t with
  | None => Ok (t, g)
  | Some e =>
      match turns with
      | O => Throw (JsError "out of turns")
      | S turns' =>
          f <-- enterEdge t g e ;;
          f <-- of_option f ;;
          r <-- exchangeEdges t g e f ;;
          simplex_loop turns' r.1 r.2
      end
  end.

(** [simplify(g);initRank(g);var t=feasibleTree(g);initLowLimValues(t);initCutValues(t,g)]. *)
Definition simplex_start g : res (tree * graph) :=
  s <-- simplify g ;;
  s <-- longestPath s ;;
  r <-- feasibleTree s ;;
  t <-- initLowLimValues r.1 ;;
  t <-- initCutValues t r.2 ;;
  Ok (t, r.2).

(** The nodes of the simplified graph have the label objects of [g], which therefore get the ranks. *)
Definition networkSimplex (turns : nat) g : res graph :=
  r <-- simplex_start g ;;
  r <-- simplex_loop turns r.1 r.2 ;;
  res_fold (λ g v, updNode g v (λ l, default l (node r.2 v))) g (nodes r.2).

(** [rank(g)]: [ranker] is [g.graph().ranker]. *)
Definition rankWith (ranker : option string) (turns : nat) g : res graph :=
  if decide (ranker = Some "tight-tree"%string) then tightTreeRanker g
  else if decide (ranker = Some "longest-path"%string) then longestPath g
  else networkSimplex turns g.
End Simplex.
