(* ===== verification/DagreSimplexTree.v ===== *)
(** * dagre: the numbering of the tree in network simplex

    [initLowLimValues] turns a tree into a rooted tree: every node but the first gets a parent, and the interval from [low] to
    [lim] of a node holds the numbers of exactly its descendants. *)
From Stdlib Require Import QArith_base.
Local Close Scope Q_scope.
From S2P Require Import Prelude JsObject Graphlib GraphWf GraphInv GraphQuery GraphView GraphAlg GraphDfs Lodash LodashSpec.
From S2P Require Import DagreTypes DagreRank DagreTree DagreRankClaims DagreBk DagreNormalize DagreSimplex.

(** An edge between two nodes, whichever way it runs. *)
Definition joins (x : edgeObj) (u v : string) : Prop := (ev x = u ∧ ew x = v) ∨ (ev x = v ∧ ew x = u).

Lemma adjacent_joins {L N E} (t : Graph L N E) u v : adjacent t u v ↔ ∃ x, x ∈ edges t ∧ joins x u v.
Proof. unfold adjacent, arrow, joins. naive_solver. Qed.

(** ** What a loop or an assignment keeps *)

Lemma res_fold_keep {A S} (f : S → A → res S) (P : S → Prop) l s s' :
  (∀ s x s', P s → f s x = Ok s' → P s') → res_fold f s l = Ok s' → P s → P s'.
Proof.
  intros Hf. revert s. induction l as [|x l IH]; intros s; cbn; [by intros [= <-]|]. destruct (f s x) as [s1|] eqn:Hx; [|done]. cbn. intros Hr Hs. eapply IH; [exact Hr|]. by eapply Hf.
Qed.

Lemma okeys_oset {A} (o : obj A) k x y : oget o k = Some x → okeys (oset o k y) = okeys o.
Proof. intros H. unfold okeys. by rewrite (oset_keys_Some _ _ _ _ H). Qed.

Lemma updNode_nodes {L N E} (g g' : Graph L N E) v h : updNode g v h = Ok g' → nodes g' = nodes g.
Proof.
  unfold updNode, node, nodes. destruct (oget (nodes_ g) v) as [[l|]|] eqn:Hl; cbn; [|done..]. intros [= <-]. cbn. by eapply okeys_oset.
Qed.

Section Number.
Notation tree := (Graph unit treeNode treeEdge).
Implicit Types (t : tree) (st : lowlim) (u v w q : string) (p : option string).
Context (t0 : tree) (Hwf : wf t0) (Hund : isDirected t0 = false) (Hlab : ∀ v, isNode t0 v → is_Some (node t0 v)) (Hname : ¬ isNode t0 ""%string).

Definition vis_ll st u : Prop := is_Some (oget (ll_visited st) u).
#[local] Instance vis_ll_dec st u : Decision (vis_ll st u).
Proof. unfold vis_ll. apply _. Defined.

Definition lbl st u : option treeNode := node (ll_tree st) u.
Definition lim_of st u : option Z := lbl st u ≫= lim.
Definition low_of st u : option Z := lbl st u ≫= low.
Definition par_of st u : option string := lbl st u ≫= tparent.
Definition newly st st' u : Prop := vis_ll st' u ∧ ¬ vis_ll st u.

(** Same tree up to labels, with a table of visited nodes. *)
Record ll_ok st : Prop := {
  llo_tree : ∃ f, relabelled t0 f (ll_tree st);
  llo_owf : owf (ll_visited st);
  llo_dom : ∀ u, vis_ll st u → isNode t0 u
}.

(** One step up among the nodes that satisfy [N]. *)
Definition up_in (N : string → Prop) st a b : Prop := N a ∧ par_of st a = Some b.

(** The nodes between [st] and [st'] have been numbered as a forest whose roots have the parent [v]. *)
Record forest st v st' : Prop := {
  fo_ok : ll_ok st';
  fo_mono : ∀ u, vis_ll st u → vis_ll st' u;
  fo_next : (ll_next st ≤ ll_next st')%Z;
  fo_old : ∀ u, ¬ newly st st' u → lbl st' u = lbl st u;
  fo_lab : ∀ u, newly st st' u → ∃ lo li, low_of st' u = Some lo ∧ lim_of st' u = Some li ∧ (ll_next st ≤ lo ≤ li)%Z ∧ (li < ll_next st')%Z;
  fo_par : ∀ u, newly st st' u → ∃ q, par_of st' u = Some q ∧ adjacent t0 q u ∧
    (q = v ∨ newly st st' q ∧ ∀ lo li lo' li', low_of st' u = Some lo → lim_of st' u = Some li → low_of st' q = Some lo' → lim_of st' q = Some li' → (lo' ≤ lo ∧ li < li')%Z);
  fo_inj : ∀ u w, newly st st' u → newly st st' w → lim_of st' u = lim_of st' w → u = w;
  fo_desc : ∀ u w lo l li, newly st st' u → newly st st' w → lim_of st' u = Some l → low_of st' w = Some lo → lim_of st' w = Some li →
    (lo ≤ l ≤ li)%Z → rtc (up_in (newly st st') st') u w;
  fo_closed : ∀ u w, newly st st' u → adjacent t0 u w → vis_ll st' w
}.

(** A call on [v] with parent [p]. *)
Record numbered st v p st' : Prop := {
  nu_ok : ll_ok st';
  nu_mono : ∀ u, vis_ll st u → vis_ll st' u;
  nu_new : newly st st' v;
  nu_next : (ll_next st < ll_next st')%Z;
  nu_old : ∀ u, ¬ newly st st' u → lbl st' u = lbl st u;
  nu_root : lbl st' v = Some (TreeNode (Some (ll_next st)) (Some (ll_next st' - 1)%Z) p);
  nu_lab : ∀ u, newly st st' u → ∃ lo li, low_of st' u = Some lo ∧ lim_of st' u = Some li ∧ (ll_next st ≤ lo ≤ li)%Z ∧ (li < ll_next st')%Z;
  nu_par : ∀ u, newly st st' u → u ≠ v → ∃ q, par_of st' u = Some q ∧ adjacent t0 q u ∧ newly st st' q ∧
    ∀ lo li lo' li', low_of st' u = Some lo → lim_of st' u = Some li → low_of st' q = Some lo' → lim_of st' q = Some li' → (lo' ≤ lo ∧ li < li')%Z;
  nu_inj : ∀ u w, newly st st' u → newly st st' w → lim_of st' u = lim_of st' w → u = w;
  nu_desc : ∀ u w lo l li, newly st st' u → newly st st' w → lim_of st' u = Some l → low_of st' w = Some lo → lim_of st' w = Some li →
    (lo ≤ l ≤ li)%Z → rtc (up_in (newly st st') st') u w;
  nu_closed : ∀ u w, newly st st' u → adjacent t0 u w → vis_ll st' w
}.

Lemma up_in_mono (N N' : string → Prop) st st' a b :
  (∀ u, N u → N' u) → (∀ u, N u → lbl st' u = lbl st u) → rtc (up_in N st) a b → rtc (up_in N' st') a b.
Proof. intros HN Hl. apply (rtc_congruence id). intros x y [Hx Hp]. split; [by apply HN|]. unfold par_of in *. by rewrite Hl. Qed.

(** Adding the call on the next root. *)
Lemma forest_snoc st v st1 w st2 : forest st v st1 → numbered st1 w (Some v) st2 → adjacent t0 v w → forest st v st2.
Proof.
  intros [F1 F2 F3 F4 F5 F6 F7 F8 F9] [N1 N2 N3 N4 N5 N6 N7 N8 N9 N10 N11] Hvw.
  assert (∀ u, newly st st2 u ↔ newly st st1 u ∨ newly st1 st2 u) as Hnew.
  { intros u. unfold newly. specialize (F2 u). specialize (N2 u). destruct (decide (vis_ll st1 u)); naive_solver. }
  assert (∀ u, newly st st1 u → lbl st2 u = lbl st1 u) as Hkeep by (intros u [Hu _]; apply N5; by intros [_ ?]).
  assert (∀ u, newly st st1 u → low_of st2 u = low_of st1 u ∧ lim_of st2 u = lim_of st1 u ∧ par_of st2 u = par_of st1 u) as Hkeep'.
  { intros u Hu. unfold low_of, lim_of, par_of. by rewrite Hkeep. }
  split.
  - done.
  - auto.
  - lia.
  - intros u Hu. rewrite N5, F4; [done|..]; intros ?; apply Hu, Hnew; auto.
  - intros u [Hu|Hu]%Hnew.
    + destruct (Hkeep' u Hu) as (-> & -> & _). destruct (F5 u Hu) as (lo & li & ? & ? & ? & ?). exists lo, li. split_and!; try done; lia.
    + destruct (N7 u Hu) as (lo & li & ? & ? & ? & ?). exists lo, li. split_and!; try done; lia.
  - intros u [Hu|Hu]%Hnew.
    + destruct (Hkeep' u Hu) as (-> & -> & ->). destruct (F6 u Hu) as (q & Hq & Ha & [->|[Hqn Hb]]); exists q || exists v; (split_and!; [done|done|]); [by left|].
      right. destruct (Hkeep' q Hqn) as (-> & -> & _). split; [apply Hnew; by left|done].
    + destruct (decide (u = w)) as [->|Hne].
      * exists v. unfold par_of. rewrite N6. split_and!; [done|done|by left].
      * destruct (N8 u Hu Hne) as (q & Hq & Ha & Hqn & Hb). exists q. split_and!; [done|done|]. right. split; [apply Hnew; by right|done].
  - intros u x [Hu|Hu]%Hnew [Hx|Hx]%Hnew.
    + destruct (Hkeep' u Hu) as (_ & -> & _), (Hkeep' x Hx) as (_ & -> & _). by apply F7.
    + destruct (Hkeep' u Hu) as (_ & -> & _). destruct (F5 u Hu) as (? & l1 & _ & -> & _ & ?), (N7 x Hx) as (? & l2 & _ & -> & ? & _). intros [= ->]. lia.
    + destruct (Hkeep' x Hx) as (_ & -> & _). destruct (F5 x Hx) as (? & l1 & _ & -> & _ & ?), (N7 u Hu) as (? & l2 & _ & -> & ? & _). intros [= ->]. lia.
    + by apply N9.
  - intros u x lo l li Hu Hx. apply Hnew in Hu as [Hu|Hu], Hx as [Hx|Hx].
    + destruct (Hkeep' u Hu) as (_ & -> & _), (Hkeep' x Hx) as (-> & -> & _). intros H1 H2 H3 H4. eapply (up_in_mono (newly st st1)); [intros; apply Hnew; by left|done|]. by eapply F8.
    + destruct (Hkeep' u Hu) as (_ & -> & _). destruct (F5 u Hu) as (? & l1 & _ & -> & _ & ?), (N7 x Hx) as (lo2 & l2 & -> & -> & ? & _). intros [= <-] [= <-] [= <-]. lia.
    + destruct (Hkeep' x Hx) as (-> & -> & _). destruct (F5 x Hx) as (lo1 & l1 & -> & -> & _ & ?), (N7 u Hu) as (? & l2 & _ & -> & ? & _). intros [= <-] [= <-] [= <-]. lia.
    + intros H1 H2 H3 H4. eapply (up_in_mono (newly st1 st2)); [intros; apply Hnew; by right|done|]. by eapply N10.
  - intros u x [Hu|Hu]%Hnew Ha; [by eapply N2, F9|by eapply N11].
Qed.

(** The call marks [v], numbers a forest below it and then labels it. *)
Definition mark st v : lowlim := LowLim (ll_tree st) (oset (ll_visited st) v true) (ll_next st).

Lemma vis_mark st v u : vis_ll (mark st v) u ↔ u = v ∨ vis_ll st u.
Proof. unfold vis_ll, mark. cbn. rewrite oget_oset. case_decide as Hd; [subst; split; [by left|by eexists]|naive_solver]. Qed.

Lemma forest_close st v p st1 t2 st' :
  ll_ok st → isNode t0 v → ¬ vis_ll st v → (∀ w, adjacent t0 v w → vis_ll st1 w) → forest (mark st v) v st1 →
  truthy p = match p with Some _ => true | None => false end →
  updNode (ll_tree st1) v (set_lowlim (ll_next st) (ll_next st1) p) = Ok t2 → st' = LowLim t2 (ll_visited st1) (ll_next st1 + 1) →
  (∃ f, relabelled t0 f t2) → (∀ u, u ≠ v → node t2 u = lbl st1 u) → node t2 v = Some (TreeNode (Some (ll_next st)) (Some (ll_next st1)) p) →
  numbered st v p st'.
Proof.
  intros Hok Hv Hnv Hadj [F1 F2 F3 F4 F5 F6 F7 F8 F9] Hp _ -> Hf Hoth Hlv. set (st' := LowLim t2 _ _). change (ll_next (mark st v)) with (ll_next st) in *.
  assert (∀ u, vis_ll st' u ↔ vis_ll st1 u) as Hvis by done. assert (vis_ll st1 v) as Hv1 by (apply F2, vis_mark; by left).
  assert (∀ u, newly st st' u ↔ u = v ∨ newly (mark st v) st1 u) as Hnew.
  { intros u. unfold newly. rewrite Hvis, vis_mark. destruct (decide (u = v)) as [->|]; naive_solver. }
  assert (∀ u, newly (mark st v) st1 u → u ≠ v) as Hnv' by (intros u [_ Hu] ->; apply Hu, vis_mark; by left).
  assert (∀ u, u ≠ v → lbl st' u = lbl st1 u) as Hl by done.
  assert (∀ u, newly (mark st v) st1 u → low_of st' u = low_of st1 u ∧ lim_of st' u = lim_of st1 u ∧ par_of st' u = par_of st1 u) as Hkeep.
  { intros u Hu. unfold low_of, lim_of, par_of. by rewrite Hl by (by apply Hnv'). }
  assert (low_of st' v = Some (ll_next st) ∧ lim_of st' v = Some (ll_next st1)) as [Lv1 Lv2] by (unfold low_of, lim_of, lbl; cbn; by rewrite Hlv).
  assert (∀ u, newly (mark st v) st1 u → rtc (up_in (newly st st') st') u v) as Hreach.
  { intros u Hu. destruct (F5 u Hu) as (_ & n & _ & Hn & _ & Hb). remember (Z.to_nat (ll_next st1 - n)) as k eqn:Hk. revert u n Hu Hn Hb Hk. induction k as [k IH] using (well_founded_induction lt_wf).
    intros u n Hu Hn Hb ->. destruct (F6 u Hu) as (q & Hq & _ & [->|[Hqn Hlt]]).
    - apply rtc_once. split; [apply Hnew; by right|]. by destruct (Hkeep u Hu) as (_ & _ & ->).
    - destruct (F5 q Hqn) as (lo' & n' & Hlo' & Hn' & _ & Hb'). destruct (F5 u Hu) as (lo & n2 & Hlo & Hn2 & _ & _). assert (n2 = n) as -> by congruence. destruct (Hlt lo n lo' n' Hlo Hn Hlo' Hn').
      eapply rtc_l; [|eapply (IH (Z.to_nat (ll_next st1 - n'))); [lia|done|done|done|done]]. split; [apply Hnew; by right|]. by destruct (Hkeep u Hu) as (_ & _ & ->). }
  split.
  - destruct F1 as [G1 G2 G3]. split; [done|done|]. intros u. rewrite Hvis. apply G3.
  - intros u Hu. apply Hvis, F2, vis_mark. by right.
  - apply Hnew. by left.
  - cbn. lia.
  - intros u Hu. assert (u ≠ v) as Huv by (intros ->; apply Hu, Hnew; by left). rewrite Hl by done. rewrite F4; [done|]. intros ?. apply Hu, Hnew. by right.
  - unfold lbl. cbn. rewrite Hlv. do 3 f_equal. lia.
  - cbn. intros u [->|Hu]%Hnew; [exists (ll_next st), (ll_next st1); split_and!; try done; lia|]. destruct (Hkeep u Hu) as (-> & -> & _). destruct (F5 u Hu) as (lo & li & ? & ? & ? & ?). exists lo, li. split_and!; try done; lia.
  - intros u Hu Huv. apply Hnew in Hu as [?|Hu]; [done|]. destruct (Hkeep u Hu) as (-> & -> & ->). destruct (F6 u Hu) as (q & Hq & Ha & [->|[Hqn Hb]]).
    + exists v. split_and!; [done|done|apply Hnew; by left|]. rewrite Lv1, Lv2. destruct (F5 u Hu) as (lo & li & -> & -> & ? & ?). intros ???? [= <-] [= <-] [= <-] [= <-]. lia.
    + exists q. destruct (Hkeep q Hqn) as (-> & -> & _). split_and!; [done|done|apply Hnew; by right|done].
  - intros u w [->|Hu]%Hnew [->|Hw]%Hnew; [done|..].
    + rewrite Lv2. destruct (Hkeep w Hw) as (_ & -> & _). destruct (F5 w Hw) as (? & l1 & _ & -> & _ & ?). intros [= Heq]. lia.
    + rewrite Lv2. destruct (Hkeep u Hu) as (_ & -> & _). destruct (F5 u Hu) as (? & l1 & _ & -> & _ & ?). intros [= Heq]. lia.
    + destruct (Hkeep u Hu) as (_ & -> & _), (Hkeep w Hw) as (_ & -> & _). by apply F7.
  - intros u w lo l li Hu Hw H1 H2 H3 H4. apply Hnew in Hw as [->|Hw].
    + apply Hnew in Hu as [->|Hu]; [done|by apply Hreach].
    + destruct (Hkeep w Hw) as (E1 & E2 & _). rewrite E1 in H2. rewrite E2 in H3. apply Hnew in Hu as [->|Hu].
      * rewrite Lv2 in H1. injection H1 as <-. destruct (F5 w Hw) as (? & l1 & _ & Hl1 & _ & ?). rewrite Hl1 in H3. injection H3 as <-. lia.
      * destruct (Hkeep u Hu) as (_ & E3 & _). rewrite E3 in H1. eapply (up_in_mono (newly (mark st v) st1) _ st1); [intros; apply Hnew; by right|intros; by apply Hl, Hnv'|by eapply F8].
  - intros u w [->|Hu]%Hnew Ha; apply Hvis; [by apply Hadj|by eapply F9].
Qed.

Lemma tree_neighbors st u w : ll_ok st → isNode t0 u → w ∈ default [] (neighbors (ll_tree st) u) ↔ adjacent t0 u w.
Proof.
  intros [(f & R) _ _] Hu. destruct (relabelled_queries _ _ _ R) as (_ & _ & _ & Hp & Hs & _). unfold neighbors. rewrite Hp, Hs.
  pose proof (elem_of_navigation t0 w u Hwf Hu) as Hnav. unfold navigation, walks in Hnav. rewrite Hund in Hnav. exact Hnav.
Qed.

Lemma visited_bound st : ll_ok st → length (ll_visited st) ≤ length (nodes t0).
Proof.
  intros [_ H1 H2]. rewrite <-(length_fmap fst). apply submseteq_length, NoDup_submseteq; [apply H1|]. intros v Hv. apply elem_of_nodes, H2. by apply oget_keys.
Qed.

Lemma visited_le st st' : ll_ok st → ll_ok st' → (∀ u, vis_ll st u → vis_ll st' u) → length (ll_visited st) ≤ length (ll_visited st').
Proof.
  intros H H' Hm. rewrite <-(length_fmap fst (ll_visited st)), <-(length_fmap fst (ll_visited st')). apply submseteq_length, NoDup_submseteq; [apply H|].
  intros v Hv. apply oget_keys. apply Hm. by apply oget_keys.
Qed.

Lemma dfsAssignLowLim_ok fuel st v p :
  ll_ok st → isNode t0 v → ¬ vis_ll st v → length (nodes t0) < fuel + length (ll_visited st) → truthy p = match p with Some _ => true | None => false end →
  ∃ st', dfsAssignLowLim fuel st v p = Ok st' ∧ numbered st v p st'.
Proof.
  revert st v p. induction fuel as [|fuel IH]; intros st v p Hok Hv Hnv Hf Hp; [pose proof (visited_bound st Hok); cbn in Hf; lia|].
  cbn [dfsAssignLowLim]. change (LowLim (ll_tree st) (oset (ll_visited st) v true) (ll_next st)) with (mark st v).
  assert (ll_ok (mark st v)) as Hokm.
  { destruct Hok as [H1 H2 H3]. split; [done|by apply owf_oset|]. intros u [->|?]%vis_mark; auto. }
  assert (length (ll_visited (mark st v)) = S (length (ll_visited st))) as Hlen.
  { cbn. rewrite length_oset_None; [done|]. apply eq_None_not_Some. exact Hnv. }
  set (step := λ st w, if ohas (ll_visited st) w then Ok st else dfsAssignLowLim fuel st w (Some v)).
  destruct (res_fold_inv step (λ done st1, forest (mark st v) v st1 ∧ ∀ w, w ∈ done → vis_ll st1 w) (default [] (neighbors (ll_tree (mark st v)) v)) (mark st v)) as (st1 & Hr & F & Hall).
  - split; [|by intros w ?%elem_of_nil]. assert (∀ u, ¬ newly (mark st v) (mark st v) u) as Hno by (by intros u []). split; try done; intros u; try (intros H; by apply Hno in H); try (intros w H; by apply Hno in H).
    intros w lo l li H. by apply Hno in H.
  - intros done w rest st1 Heq [F Hd]. assert (adjacent t0 v w) as Hvw by (apply (tree_neighbors (mark st v)); [done|done|rewrite Heq; set_solver]). unfold step. destruct (ohas (ll_visited st1) w) eqn:Hw.
    + exists st1. split; [done|]. split; [done|]. intros u [?| ->%list_elem_of_singleton]%elem_of_app; [by apply Hd|]. by apply ohas_true in Hw.
    + assert (¬ vis_ll st1 w) as Hnw by (intros Hv1; apply ohas_false in Hw; unfold vis_ll in Hv1; rewrite Hw in Hv1; by destruct Hv1).
      destruct (IH st1 w (Some v) (fo_ok _ _ _ F)) as (st2 & H2 & N2); [by apply (adjacent_node t0 v w)|done| | |].
      * pose proof (visited_le _ _ Hokm (fo_ok _ _ _ F) (fo_mono _ _ _ F)). lia.
      * cbn. rewrite bool_decide_false; [done|]. by intros ->.
      * exists st2. split; [done|]. split; [by eapply forest_snoc|]. intros u [?| ->%list_elem_of_singleton]%elem_of_app; [by apply N2, Hd|apply (nu_new _ _ _ _ N2)].
  - fold step. rewrite Hr. cbn [res_bind]. pose proof (fo_ok _ _ _ F) as [(f & R) Ho Hd]. destruct (Hlab v Hv) as [l0 Hl0].
    destruct (updNode_relabelled t0 f (ll_tree st1) v (set_lowlim (ll_next st) (ll_next st1) p) (Hlab v Hv) R) as (t2 & Hu & R2).
    change (ll_next (mark st v)) with (ll_next st). rewrite Hu. cbn [res_bind]. eexists. split; [done|]. eapply (forest_close st v p st1 t2); try done.
    + intros w Hw. apply Hall. by apply (tree_neighbors (mark st v)).
    + by eexists.
    + intros u Hu'. rewrite (relabelled_node _ _ _ u R2). unfold lbl. rewrite (relabelled_node _ _ _ u R). destruct (node t0 u); [|done]. cbn. by rewrite decide_False.
    + rewrite (relabelled_node _ _ _ v R2), Hl0. cbn. rewrite decide_True by done. unfold set_lowlim. rewrite Hp. by destruct p.
Qed.
End Number.

(** ** Rooted trees *)

Section Rooted.
Notation tree := (Graph unit treeNode treeEdge).
Implicit Types (t : tree) (u v w p r : string) (x : edgeObj).

Definition parentOf t v : option string := node t v ≫= tparent.
Definition limOf t v : option Z := node t v ≫= lim.
Definition lowOf t v : option Z := node t v ≫= low.
Definition below t : string → string → Prop := rtc (λ a b, parentOf t a = Some b).

(** An undirected graph that is a tree. *)
Record is_tree t : Prop := {
  it_wf : wf t;
  it_undirected : isDirected t = false;
  it_label : ∀ v, isNode t v → is_Some (node t v);
  it_name : ¬ isNode t ""%string;
  it_connected : ∀ u v, isNode t u → isNode t v → rtc (adjacent t) u v;
  it_count : length (nodes t) = S (length (edges t));
  it_edge : ∀ x, x ∈ edges t → ename x = None ∧ is_Some (edgeOf t x)
}.

Record rooted t r : Prop := {
  ro_head : head (nodes t) = Some r;
  ro_root : parentOf t r = None;
  ro_label : ∀ v, isNode t v → ∃ lo li, lowOf t v = Some lo ∧ limOf t v = Some li ∧ (lo ≤ li)%Z;
  ro_parent : ∀ v, isNode t v → v ≠ r → ∃ p, parentOf t v = Some p;
  ro_adjacent : ∀ v p, isNode t v → parentOf t v = Some p → isNode t p ∧ adjacent t p v;
  ro_nest : ∀ v p lo li lo' li', isNode t v → parentOf t v = Some p → lowOf t v = Some lo → limOf t v = Some li → lowOf t p = Some lo' → limOf t p = Some li' → (lo' ≤ lo ∧ li < li')%Z;
  ro_inj : ∀ u v, isNode t u → isNode t v → limOf t u = limOf t v → u = v;
  ro_interval : ∀ u w l lo li, isNode t u → isNode t w → limOf t u = Some l → lowOf t w = Some lo → limOf t w = Some li → (lo ≤ l ≤ li)%Z → below t u w;
  ro_edge : ∀ x, x ∈ edges t → parentOf t (ev x) = Some (ew x) ∨ parentOf t (ew x) = Some (ev x)
}.

(** A choice of distinct edges for the nodes of a list. *)
Lemma choose_edges t (Q : string → edgeObj → Prop) vs :
  (∀ v, v ∈ vs → ∃ x, x ∈ edges t ∧ Q v x) → (∀ u v x, u ∈ vs → v ∈ vs → Q u x → Q v x → u = v) → NoDup vs →
  ∃ xs, length xs = length vs ∧ NoDup xs ∧ (∀ x, x ∈ xs → x ∈ edges t ∧ ∃ v, v ∈ vs ∧ Q v x).
Proof.
  induction vs as [|v vs IH]; intros Hex Hinj Hnd; [exists []; split_and!; [done|constructor|by intros x ?%elem_of_nil]|].
  apply NoDup_cons in Hnd as [Hv Hnd]. destruct IH as (xs & Hlen & Hxs & Hall); [intros u Hu; apply Hex; by right|intros u w x Hu Hw; apply Hinj; by right|done|].
  destruct (Hex v) as (x & Hx & HQ); [by left|]. exists (x :: xs). split_and!; [cbn; by rewrite Hlen| |].
  - apply NoDup_cons. split; [|done]. intros Hin. destruct (Hall x Hin) as (_ & u & Hu & HQu). apply Hv. assert (v = u) as -> by (apply (Hinj v u x); [by left|by right|done|done]). done.
  - intros y [->|Hy]%elem_of_cons; [split; [done|]; exists v; by split; [left|]|]. destruct (Hall y Hy) as (? & u & ? & ?). split; [done|]. exists u. by split; [right|].
Qed.

(** A node and its parent are joined by an edge of their own, and there are no more edges than nodes with a parent. *)
Lemma parent_edges t r :
  wf t → isNode t r → length (nodes t) = S (length (edges t)) →
  (∀ v, isNode t v → v ≠ r → ∃ p, parentOf t v = Some p ∧ adjacent t p v) →
  (∀ u v, isNode t u → isNode t v → u ≠ v → parentOf t u = Some v → parentOf t v ≠ Some u) →
  ∀ x, x ∈ edges t → parentOf t (ev x) = Some (ew x) ∨ parentOf t (ew x) = Some (ev x).
Proof.
  intros Hwf Hr Hc Hp Hasym. set (vs := filter (λ v, v ≠ r) (nodes t)). set (Q := λ v x, ∃ p, parentOf t v = Some p ∧ joins x v p).
  assert (∀ v, v ∈ vs ↔ isNode t v ∧ v ≠ r) as Hvs by (intros v; unfold vs; rewrite list_elem_of_filter, elem_of_nodes; tauto).
  assert (nodes t ≡ₚ r :: vs) as Hperm.
  { apply NoDup_Permutation; [by apply NoDup_nodes|apply NoDup_cons; split; [rewrite Hvs; by intros []|by apply NoDup_filter, NoDup_nodes]|].
    intros v. rewrite elem_of_cons, Hvs, elem_of_nodes. destruct (decide (v = r)) as [->|]; naive_solver. }
  destruct (choose_edges t Q vs) as (xs & Hlen & Hnd & Hxs).
  - intros v [Hv Hne]%Hvs. destruct (Hp v Hv Hne) as (p & Hpp & (x & Hx & Hj)%adjacent_joins). exists x. split; [done|]. exists p. split; [done|]. unfold joins in *. tauto.
  - intros u v x [Hu _]%Hvs [Hv _]%Hvs (p & Hpp & Hj) (q & Hq & Hj'). destruct (decide (u = v)) as [|Hne]; [done|]. exfalso. unfold joins in *.
    assert (p = v ∧ q = u) as [-> ->] by (destruct Hj as [[<- <-]|[<- <-]], Hj' as [[? ?]|[? ?]]; subst; done). by apply (Hasym u v).
  - by apply NoDup_filter, NoDup_nodes.
  - intros x Hx. assert (xs ≡ₚ edges t) as Hpe.
    { apply submseteq_length_Permutation; [apply NoDup_submseteq; [done|]; intros y Hy; by apply Hxs|]. rewrite Hperm in Hc. cbn in Hc. rewrite Hlen. lia. }
    rewrite <-Hpe in Hx. destruct (Hxs x Hx) as (_ & v & _ & p & Hpp & [[-> ->]|[-> ->]]); [by left|by right].
Qed.

(** Numbering does not reorder the nodes. *)
Lemma dfsAssignLowLim_nodes fuel st v (po : option string) (st' : lowlim) : dfsAssignLowLim fuel st v po = Ok st' → nodes (ll_tree st') = nodes (ll_tree st).
Proof.
  revert st v po st'. induction fuel as [|fuel IH]; intros st v po st'; cbn [dfsAssignLowLim]; [done|].
  match goal with |- context [res_fold ?f ?s ?l] => destruct (res_fold f s l) as [st1|] eqn:Hr end; [|done]. cbn [res_bind].
  eapply (res_fold_keep _ (λ s, nodes (ll_tree s) = nodes (ll_tree st))) in Hr; [|intros s w s' Hs; destruct (ohas _ _); [by intros [= <-]|]; intros H; rewrite <-Hs; by eapply IH|done].
  destruct (updNode _ _ _) as [t|] eqn:Hu; [|done]. cbn. intros [= <-]. cbn. rewrite <-Hr. by eapply updNode_nodes.
Qed.

Lemma initLowLimValues_ok t : is_tree t → ∃ t' r f, initLowLimValues t = Ok t' ∧ relabelled t f t' ∧ rooted t' r.
Proof.
  intros T. pose proof (it_wf _ T) as Hwf. destruct (nodes t) as [|r vs] eqn:Hns; [pose proof (it_count _ T) as Hc; by rewrite Hns in Hc|].
  assert (isNode t r) as Hr by (apply elem_of_nodes; rewrite Hns; by left). set (st0 := LowLim t [] 1).
  assert (ll_ok t st0) as Hok.
  { split; [exists (λ _ l, l); by apply relabelled_refl|constructor|]. by intros u [? ?]. }
  destruct (dfsAssignLowLim_ok t Hwf (it_undirected _ T) (it_label _ T) (it_name _ T) (S (length (nodes t))) st0 r None Hok Hr) as (st & Hd & N); [by intros [? ?]|cbn; lia|done|].
  pose proof (dfsAssignLowLim_nodes _ _ _ _ _ Hd) as Hnodes. cbn in Hnodes.
  unfold initLowLimValues. rewrite Hns in Hd |- *. cbn [head default from_option id]. fold st0. rewrite Hd. cbn [res_bind].
  destruct (nu_ok _ _ _ _ _ N) as [(f & Rl) _ Hdom]. exists (ll_tree st), r, f. split_and!; [done|done|].
  destruct (relabelled_edges _ _ _ Rl) as (He & _). pose proof (λ v, relabelled_isNode _ _ _ v Rl) as Hnode.
  assert (∀ u v, adjacent (ll_tree st) u v ↔ adjacent t u v) as Hadj by (intros u v; unfold adjacent, arrow; by rewrite He).
  assert (∀ u, ¬ vis_ll st0 u) as Hno by (by intros u [? ?]).
  assert (∀ a b, rtc (adjacent t) a b → vis_ll st a → vis_ll st b) as Hcl.
  { intros a b Hab. induction Hab as [|a b c Hab _ IH]; [done|]. intros Ha. apply IH. eapply (nu_closed _ _ _ _ _ N a b); [split; [done|apply Hno]|done]. }
  assert (∀ u, isNode (ll_tree st) u ↔ newly st0 st u) as Hall.
  { intros u. rewrite Hnode. split; [|by intros [Hu _]; apply Hdom]. intros Hu. split; [|by apply Hno].
    apply (Hcl r u); [by apply (it_connected _ T)|]. apply (nu_new _ _ _ _ _ N). }
  pose proof (nu_root _ _ _ _ _ N) as Hroot.
  assert (∀ v p, parentOf (ll_tree st) v = Some p → v ≠ r) as Hpr.
  { intros v p Hp ->. unfold parentOf in Hp. change (lbl st r ≫= tparent = Some p) in Hp. by rewrite Hroot in Hp. }
  assert (∀ v, isNode (ll_tree st) v → ∃ lo li, lowOf (ll_tree st) v = Some lo ∧ limOf (ll_tree st) v = Some li ∧ (lo ≤ li)%Z) as Hlab.
  { intros v Hv%Hall. destruct (nu_lab _ _ _ _ _ N v Hv) as (lo & li & ? & ? & ? & ?). exists lo, li. split_and!; [done|done|lia]. }
  assert (∀ v p, isNode (ll_tree st) v → parentOf (ll_tree st) v = Some p → adjacent (ll_tree st) p v ∧ isNode (ll_tree st) p ∧
    ∀ lo li lo' li', lowOf (ll_tree st) v = Some lo → limOf (ll_tree st) v = Some li → lowOf (ll_tree st) p = Some lo' → limOf (ll_tree st) p = Some li' → (lo' ≤ lo ∧ li < li')%Z) as Hpar.
  { intros v p Hv Hp. pose proof (Hpr v p Hp) as Hne. apply Hall in Hv. destruct (nu_par _ _ _ _ _ N v Hv Hne) as (q & Hq & Ha & Hqn & Hb).
    change (parentOf (ll_tree st) v = Some q) in Hq. assert (q = p) as -> by congruence. split_and!; [by apply Hadj|by apply Hall|exact Hb]. }
  split.
  - by rewrite Hnodes, Hns.
  - unfold parentOf. change (lbl st r ≫= tparent = None). by rewrite Hroot.
  - done.
  - intros v Hv Hne. apply Hall in Hv. destruct (nu_par _ _ _ _ _ N v Hv Hne) as (q & Hq & _). by exists q.
  - intros v p Hv Hp. destruct (Hpar v p Hv Hp) as (? & ? & _). done.
  - intros v p lo li lo' li' Hv Hp. destruct (Hpar v p Hv Hp) as (_ & _ & H). apply H.
  - intros u v Hu Hv. apply (nu_inj _ _ _ _ _ N); by apply Hall.
  - intros u w l lo li Hu Hw H1 H2 H3 H4. apply Hall in Hu, Hw. pose proof (nu_desc _ _ _ _ _ N u w lo l li Hu Hw H1 H2 H3 H4) as Hrtc.
    unfold below. eapply (rtc_congruence id); [|exact Hrtc]. intros a b [_ Hab]. exact Hab.
  - apply (parent_edges _ r); [apply Rl|by apply Hnode|by rewrite Hnodes, He, (it_count _ T)| |].
    + intros v Hv Hne. pose proof Hv as Hn%Hall. destruct (nu_par _ _ _ _ _ N v Hn Hne) as (q & Hq & _). exists q. split; [done|]. by apply (Hpar v q).
    + intros u v Hu Hv _ H1 H2. destruct (Hlab u Hu) as (lo & li & L1 & L2 & _), (Hlab v Hv) as (lo' & li' & L1' & L2' & _).
      destruct (Hpar u v Hu H1) as (_ & _ & A), (Hpar v u Hv H2) as (_ & _ & B). specialize (A _ _ _ _ L1 L2 L1' L2'). specialize (B _ _ _ _ L1' L2' L1 L2). lia.
Qed.
End Rooted.

(** * dagre: traversals of a rooted tree

    In a tree whose nodes know their parents a depth-first search from the root meets every node from its parent: the
    preorder lists parents before, the postorder after their children. *)
From Stdlib Require Import QArith_base.
Local Close Scope Q_scope.
From S2P Require Import Prelude JsObject Graphlib GraphWf GraphInv GraphQuery GraphView GraphAlg GraphDfs Lodash LodashSpec.
From S2P Require Import DagreTypes DagreRank DagreTree DagreRankClaims DagreBk DagreNormalize DagreSimplex.

Section Family.
Context (par : string → option string) (post : bool).
Implicit Types (l n : list string) (u v w p : string) (st : dfs_state).

(** Every node of [l] has a parent, which is [v] or stands on the side of it that the traversal promises. *)
Definition family v l : Prop := ∀ l1 u l2, l = l1 ++ u :: l2 → ∃ p, par u = Some p ∧ (p = v ∨ p ∈ (if post then l2 else l1)).

Lemma family_nil v : family v [].
Proof. intros l1 u l2 H. by destruct l1. Qed.

Lemma family_app v l l' : family v l → family v l' → family v (l ++ l').
Proof.
  intros H H' l1 u l2 Heq. apply app_eq_inv in Heq as [(k & -> & Hk)|(k & -> & ->)].
  - destruct k as [|z k]; cbn in Hk.
    + subst l'. destruct (H' [] u l2 eq_refl) as (p & Hp & Hin). exists p. split; [done|]. destruct post; [naive_solver|]. destruct Hin as [?|?%elem_of_nil]; [by left|done].
    + injection Hk as <- ->. destruct (H l1 u k eq_refl) as (p & Hp & Hin). exists p. split; [done|]. destruct post; [|done]. rewrite elem_of_app. tauto.
  - destruct (H' k u l2 eq_refl) as (p & Hp & Hin). exists p. split; [done|]. destruct post; [done|]. rewrite elem_of_app. tauto.
Qed.

(** A node and, before or after it, what is below it. *)
Definition around w n : list string := if post then n ++ [w] else w :: n.

Lemma family_around v w n : par w = Some v → family w n → family v (around w n).
Proof.
  intros Hw Hn l1 u l2. unfold around, family in *. destruct post.
  - intros Heq. destruct l2 as [|y l2 _] using rev_ind.
    + apply app_inj_tail in Heq as [-> ->]. exists v. by split; [|left].
    + rewrite app_comm_cons, app_assoc in Heq. apply app_inj_tail in Heq as [-> ->]. destruct (Hn _ _ _ eq_refl) as (p & Hp & Hin). exists p. split; [done|]. right. destruct Hin as [->|?]; apply elem_of_app; [right; by left|by left].
  - destruct l1 as [|y l1]; cbn; intros [= <- ->].
    + exists v. by split; [|left].
    + destruct (Hn _ _ _ eq_refl) as (p & Hp & Hin). exists p. split; [done|]. right. destruct Hin as [->|?]; apply elem_of_cons; [by left|by right].
Qed.

Context (nav : string → list string) (Hnav : ∀ u w, w ∈ nav u → par w = Some u ∨ par u = Some w).

(** The visited nodes are closed under parents. *)
Definition up_closed st : Prop := ∀ u p, vis st u → par u = Some p → vis st p.

Lemma doDfs_family fuel st v st' :
  doDfs fuel nav post st v = Ok st' → up_closed st → ¬ vis st v → (∀ p, par v = Some p → vis st p) →
  up_closed st' ∧ (∀ u, vis st u → vis st' u) ∧ vis st' v ∧ ∃ n, family v n ∧ acc st' = acc st ++ around v n.
Proof.
  revert st v st'. induction fuel as [|fuel IH]; intros st v st' Hd Hup Hv Hpar; [done|]. cbn [doDfs] in Hd.
  destruct (ohas (dvisited st) v) eqn:Hh; [by apply ohas_true in Hh|]. fold (marked post st v) in Hd.
  destruct (res_fold _ _ _) as [st1|] eqn:Hr; [|done]. cbn in Hd. injection Hd as <-.
  assert (∃ n, up_closed st1 ∧ (∀ u, vis (marked post st v) u → vis st1 u) ∧ family v n ∧ acc st1 = acc (marked post st v) ++ n) as (n & H1 & H2 & H3 & H4).
  { assert (up_closed (marked post st v)) as Hup' by (intros u p [->|Hu]%vis_marked Hp; apply vis_marked; right; eauto).
    assert (vis (marked post st v) v) as Hvm by (apply vis_marked; by left). assert (∀ w, w ∈ nav v → w ∈ nav v) as Hsub by done. revert Hr Hsub Hup' Hvm.
    generalize (nav v) at 1 2. generalize (marked post st v). clear st Hup Hv Hpar Hh.
    intros s ws. revert s. induction ws as [|w ws IHws]; intros s Hr Hsub Hup Hvs; cbn in Hr; [injection Hr as <-; exists []; split_and!; [done..|apply family_nil|by rewrite app_nil_r]|].
    destruct (doDfs fuel nav post s w) as [s1|] eqn:Hw; [|done]. cbn in Hr. assert (∀ w0, w0 ∈ ws → w0 ∈ nav v) as Hsub' by (intros; apply Hsub; by right).
    destruct (decide (is_Some (oget (dvisited s) w))) as [Hvw|Hvw].
    - assert (s1 = s) as -> by (destruct fuel; [done|]; cbn in Hw; rewrite (proj2 (ohas_true _ _) Hvw) in Hw; congruence). by apply IHws.
    - assert (par w = Some v) as Hpw by (destruct (Hnav v w) as [?|Hp]; [apply Hsub; by left|done|]; destruct Hvw; by apply (Hup v w)).
      destruct (IH s w s1 Hw Hup Hvw) as (U1 & M1 & V1 & n & F1 & A1); [congruence|].
      destruct (IHws s1 Hr Hsub' U1 (M1 v Hvs)) as (n' & U2 & M2 & F2 & A2). exists (around w n ++ n'). split_and!; [done|auto|by apply family_app; [apply family_around|]|by rewrite A2, A1, app_assoc]. }
  split_and!.
  - exact H1.
  - intros u Hu. change (vis st1 u). apply H2, vis_marked. by right.
  - change (vis st1 v). apply H2, vis_marked. by left.
  - exists n. split; [done|]. unfold around, marked in *. cbn in *. rewrite H4. destruct post; cbn; by rewrite <-app_assoc.
Qed.
End Family.

Lemma tree_dfs (t : Graph unit treeNode treeEdge) r post :
  is_tree t → rooted t r →
  ∃ n, dfs t (nodes t) post = Ok (around post r n) ∧ dfs t [r] post = Ok (around post r n) ∧ family (parentOf t) post r n ∧ NoDup (r :: n) ∧
    ∀ w, w ∈ r :: n ↔ isNode t w.
Proof.
  intros T R. pose proof (it_wf _ T) as Hwf. pose proof (ro_head _ _ R) as Hhead. destruct (nodes t) as [|r' ns] eqn:Hns; [done|]. cbn in Hhead. injection Hhead as ->.
  assert (isNode t r) as Hr by (apply elem_of_nodes; rewrite Hns; by left).
  assert (∀ u w, isNode t u → w ∈ navigation t u ↔ adjacent t u w) as Hnav.
  { intros u w Hu. rewrite elem_of_navigation by done. unfold walks. by rewrite (it_undirected _ T). }
  assert (∀ v w, v ∈ nodes t → w ∈ navigation t v → w ∈ nodes t) as Hdom.
  { intros v w Hv%elem_of_nodes Hw%Hnav; [|done]. by apply elem_of_nodes, (adjacent_node t v w). }
  destruct (doDfs_spec (navigation t) (nodes t) post Hdom (S (length (nodes t))) (DfsState [] []) r) as (st & Hd & S); [split; [constructor|by intros v [? ?]]|by apply elem_of_nodes|cbn; lia|].
  assert (∀ u, ¬ vis (DfsState [] []) u) as Hno by (by intros u [? ?]).
  assert (∀ w, isNode t w → vis st w) as Hall.
  { intros w Hw. assert (∀ a b, rtc (adjacent t) a b → isNode t a → vis st a → vis st b) as Hcl.
    { intros a b Hab. induction Hab as [|a b c Hab _ IH]; [done|]. intros Ha Hva. apply IH; [by apply (adjacent_node t a b)|]. apply (ds_new _ _ _ _ _ S a Hva (Hno a)). by apply Hnav. }
    apply (Hcl r w); [by apply (it_connected _ T)|done|]. apply (ds_roots _ _ _ _ _ S). by left. }
  assert (∀ u w, w ∈ navigation t u → parentOf t w = Some u ∨ parentOf t u = Some w) as Hpar.
  { intros u w Hw. destruct (decide (isNode t u)) as [Hu|Hu].
    - apply Hnav in Hw; [|done]. apply adjacent_joins in Hw as (x & Hx & [[<- <-]|[<- <-]]); destruct (ro_edge _ _ R x Hx); tauto.
    - exfalso. unfold navigation, neighbors in Hw. rewrite (it_undirected _ T) in Hw. destruct (predecessors t u) as [ps|] eqn:Hp; [|by apply elem_of_nil in Hw].
      unfold predecessors in Hp. destruct (oget (preds_ t) u) as [o|] eqn:Ho; [|done]. apply Hu. pose proof (eok_preds _ _ _ (wf_edges _ Hwf) u) as Hadj. rewrite Ho in Hadj. apply Hadj. }
  destruct (doDfs_family (parentOf t) post (navigation t) Hpar _ _ _ _ Hd) as (_ & _ & _ & n & F & A); [by intros u p Hu; apply Hno in Hu|apply Hno|intros p Hp; by rewrite (ro_root _ _ R) in Hp|].
  cbn in A. exists n. assert (dfs_root t post (DfsState [] []) r = Ok st) as H1 by (unfold dfs_root; by rewrite (proj2 (hasNode_true t r)) by done).
  destruct (dfs_exact _ _ _ _ S) as [Hnd Hel].
  assert (around post r n ≡ₚ r :: n) as Hperm by (unfold around; destruct post; [by rewrite Permutation_app_comm|done]). rewrite A in Hnd, Hel.
  split_and!; [| |done| |].
  - unfold dfs. cbn [res_fold]. rewrite H1. cbn [res_bind].
    destruct (res_fold_inv (dfs_root t post) (λ _ s, s = st) ns st) as (s & -> & ->); [done| |cbn; by rewrite A].
    intros dn v rest s Heq ->. exists st. split; [|done]. assert (isNode t v) as Hv by (apply elem_of_nodes; rewrite Hns, Heq; set_solver).
    unfold dfs_root. rewrite (proj2 (hasNode_true t v)) by done. cbn [doDfs]. by rewrite (proj2 (ohas_true _ _) (Hall v Hv)).
  - unfold dfs. cbn [res_fold]. rewrite H1. cbn. by rewrite A.
  - by rewrite <-Hperm.
  - intros w. rewrite <-Hperm, Hel. split.
    + intros (v & ->%list_elem_of_singleton & Hrt). eapply (rtc_on_nodes t (navigation t) (adjacent t)) in Hrt; [|done|intros; by apply (adjacent_node t)|done].
      clear -Hrt Hr Hwf. induction Hrt as [|a b c Hab _ IH]; [done|]. apply IH. by apply (adjacent_node t a b).
    + intros Hw. exists r. split; [by left|]. eapply (rtc_on_nodes t (navigation t) (adjacent t)); [done|intros; by apply (adjacent_node t)|done|]. by apply (it_connected _ T).
Qed.
