(* ===== verification/DagreSimplexFlow.v ===== *)
(** * dagre: flows on trees

    The arithmetic behind network simplex, on lists of nodes and edges.  A function [N] on the nodes of a rooted tree is
    balanced when [N v] is the weight that leaves [v] minus the weight that enters it, plus the values of the children.
    The weighted length of all edges is then a sum over the edges of the tree alone. *)
From Stdlib Require Import QArith_base.
Local Close Scope Q_scope.
From S2P Require Import Prelude JsObject Graphlib GraphWf GraphInv GraphQuery GraphView DagreTypes DagreCross.
Local Open Scope Z_scope.

(** ** More on sums *)

Lemma zsum_add {A} (f h : A → Z) l : zsum (λ x, f x + h x) l = zsum f l + zsum h l.
Proof. unfold zsum. induction l as [|x l IH]; cbn; lia. Qed.

Lemma zsum_sub {A} (f h : A → Z) l : zsum (λ x, f x - h x) l = zsum f l - zsum h l.
Proof. unfold zsum. induction l as [|x l IH]; cbn; lia. Qed.

Lemma zsum_filter {A} (P : A → Prop) `{!∀ x, Decision (P x)} (f : A → Z) l : zsum f (filter P l) = zsum (λ x, if decide (P x) then f x else 0) l.
Proof.
  induction l as [|x l IH]; [done|]. rewrite filter_cons. cbn [zsum foldr]. destruct (decide (P x)); cbn [zsum foldr]; unfold zsum in *; rewrite IH; lia.
Qed.

Lemma zsum_swap {A B} (f : A → B → Z) l k : zsum (λ x, zsum (f x) k) l = zsum (λ y, zsum (λ x, f x y) l) k.
Proof.
  induction l as [|x l IH]; [symmetry; by apply zsum_zero|]. change (zsum (f x) k + zsum (λ x, zsum (f x) k) l = zsum (λ y, f x y + zsum (λ x, f x y) l) k). rewrite IH. symmetry. apply zsum_add.
Qed.

Lemma zsum_single {A} `{!EqDecision A} (f : A → Z) a l : NoDup l → a ∈ l → zsum (λ v, if decide (a = v) then f v else 0) l = f a.
Proof.
  intros Hnd (l1 & l2 & ->)%list_elem_of_split. apply NoDup_app in Hnd as (_ & Hn1 & Hnd). apply NoDup_cons in Hnd as [Hn2 _].
  rewrite zsum_app. change (zsum ?f (a :: l2)) with (f a + zsum f l2). cbn beta. rewrite decide_True by done.
  rewrite !zsum_zero; [lia| |]; intros x Hx; apply decide_False; intros ->; [done|]. apply (Hn1 x Hx). by left.
Qed.

(** ** Balanced functions *)

Section Flow.
Context (vs : list string) (es : list edgeObj) (wt : edgeObj → Z) (par : string → option string) (r : string).
Implicit Types (N ρ : string → Z) (u v p : string) (x : edgeObj).

Definition flow v x : Z := (if decide (ev x = v) then wt x else 0) - (if decide (ew x = v) then wt x else 0).
Definition net v : Z := zsum (flow v) es.
Definition childrenOf v : list string := filter (λ u, par u = Some v) vs.
Definition balanced N v : Prop := N v = net v + zsum N (childrenOf v).

(** The weighted length of the edges, and the contribution of the tree edge above [u]. *)
Definition wlen ρ : Z := zsum (λ x, wt x * (ρ (ew x) - ρ (ev x))) es.
Definition rise N ρ u : Z := match par u with Some p => N u * (ρ p - ρ u) | None => 0 end.

Lemma elem_of_childrenOf u v : u ∈ childrenOf v ↔ u ∈ vs ∧ par u = Some v.
Proof. unfold childrenOf. rewrite list_elem_of_filter. tauto. Qed.

Lemma balanced_ext N N' v : N' v = N v → (∀ u, u ∈ childrenOf v → N' u = N u) → balanced N v → balanced N' v.
Proof. unfold balanced. intros -> Hc ->. f_equal. symmetry. by apply zsum_ext. Qed.

Context (Hnd : NoDup vs) (Hends : ∀ x, x ∈ es → ev x ∈ vs ∧ ew x ∈ vs) (Hpar : ∀ u p, u ∈ vs → par u = Some p → p ∈ vs).

Lemma sum_net ρ : zsum (λ v, net v * ρ v) vs = - wlen ρ.
Proof.
  transitivity (zsum (λ v, zsum (λ x, flow v x * ρ v) es) vs).
  { apply zsum_ext. intros v _. unfold net. rewrite Z.mul_comm, <-zsum_mul. apply zsum_ext. intros; lia. }
  rewrite zsum_swap. unfold wlen. replace (- zsum (λ x, wt x * (ρ (ew x) - ρ (ev x))) es) with (-1 * zsum (λ x, wt x * (ρ (ew x) - ρ (ev x))) es) by lia. rewrite <-zsum_mul. apply zsum_ext. intros x Hx.
  destruct (Hends x Hx) as [Hv Hw]. rewrite (zsum_ext _ (λ v, (if decide (ev x = v) then wt x * ρ v else 0) - (if decide (ew x = v) then wt x * ρ v else 0))).
  - rewrite zsum_sub, !(zsum_single (λ v, wt x * ρ v)) by done. lia.
  - intros v _. unfold flow. destruct (decide (ev x = v)), (decide (ew x = v)); lia.
Qed.

Lemma sum_children N ρ : zsum (λ v, zsum N (childrenOf v) * ρ v) vs = zsum (λ u, match par u with Some p => N u * ρ p | None => 0 end) vs.
Proof.
  transitivity (zsum (λ v, zsum (λ u, if decide (par u = Some v) then N u * ρ v else 0) vs) vs).
  { apply zsum_ext. intros v _. unfold childrenOf. rewrite zsum_filter, Z.mul_comm, <-zsum_mul. apply zsum_ext. intros u _. case_decide; lia. }
  rewrite zsum_swap. apply zsum_ext. intros u Hu. destruct (par u) as [p|] eqn:Hp.
  - rewrite (zsum_ext _ (λ v, if decide (p = v) then N u * ρ v else 0)); [apply (zsum_single (λ v, N u * ρ v)); [done|by apply (Hpar u)]|].
    intros v _. destruct (decide (p = v)) as [->|]; [by rewrite decide_True|]. rewrite decide_False; congruence.
  - by apply zsum_zero.
Qed.

Context (Hr : r ∈ vs) (Hroot : par r = None) (Hup : ∀ u, u ∈ vs → u ≠ r → is_Some (par u)).

(** All the edges count as much as the tree edges, each with the value of its lower end. *)
Lemma wlen_rise N ρ : (∀ v, v ∈ vs → v ≠ r → balanced N v) → wlen ρ = zsum (rise N ρ) vs.
Proof.
  intros Hbal. set (N' := λ v, if decide (v = r) then net r + zsum N (childrenOf r) else N v).
  assert (∀ ρ, - wlen ρ = N' r * ρ r - zsum (rise N ρ) vs) as Hsum.
  { clear ρ. intros ρ. rewrite <-sum_net. pose proof (sum_children N ρ) as Hc.
    transitivity (zsum (λ v, N' v * ρ v) vs - zsum (λ v, zsum N (childrenOf v) * ρ v) vs).
    - rewrite <-zsum_sub. apply zsum_ext. intros v Hv. unfold N'. destruct (decide (v = r)) as [->|Hne]; [lia|]. rewrite (Hbal v Hv Hne). lia.
    - rewrite Hc, <-(zsum_single (λ v, N' v * ρ v) r vs Hnd Hr), <-!zsum_sub. apply zsum_ext. intros v Hv. unfold rise, N'. destruct (decide (r = v)) as [<-|Hne].
      + rewrite Hroot. lia.
      + rewrite decide_False by congruence. destruct (Hup v Hv) as [p Hp]; [congruence|]. rewrite Hp. lia. }
  assert (N' r = 0) as H0.
  { specialize (Hsum (λ _, 1)). unfold wlen in Hsum. rewrite !zsum_zero in Hsum; [lia| |]; intros x _; unfold rise; [destruct (par x); lia|lia]. }
  specialize (Hsum ρ). rewrite H0 in Hsum. lia.
Qed.
End Flow.
