(* ===== verification/DagreSimplexCut.v ===== *)
(** * dagre: the cut values of network simplex

    [initCutValues] visits the tree in postorder, so that the cut values of the children of a node are known when its own is
    computed.  Up to a sign that says which way the tree edge runs in the graph, the cut values are a balanced function on the
    tree; the total length of the edges of the graph is the sum of cut value times length over the edges of the tree. *)
From Stdlib Require Import QArith_base.
Local Close Scope Q_scope.
From S2P Require Import Prelude JsObject Graphlib GraphWf GraphInv GraphQuery GraphView GraphAlg GraphDfs Lodash LodashSpec.
From S2P Require Import DagreTypes DagreRank DagreTree DagreRankClaims DagreBk DagreCross DagreNormalize DagreSimplex DagreSimplexTree DagreSimplexFlow.

(** ** Edges by their ends *)

Lemma orient_sym v w : orient false v w = orient false w v.
Proof.
  unfold orient. cbn. destruct (String.ltb w v) eqn:Hlt; [by rewrite (ltb_asym _ _ Hlt)|]. destruct (String.ltb v w) eqn:Hlt'; [done|].
  assert (v = w) as ->; [|done]. apply String.compare_eq_iff. unfold String.ltb in *.
  rewrite (String.compare_antisym v w) in Hlt'. destruct (String.compare w v) eqn:Hc; try done. by rewrite String.compare_antisym, Hc.
Qed.

Lemma orient_ends v w v' w' : orient false v w = orient false v' w' → (v = v' ∧ w = w') ∨ (v = w' ∧ w = v').
Proof. destruct (orient_cases false v w) as [->| ->], (orient_cases false v' w') as [->| ->]; intros [= -> ->]; auto. Qed.

Lemma edgeArgsToId_sym v w name : edgeArgsToId false v w name = edgeArgsToId false w v name.
Proof. unfold edgeArgsToId. by rewrite orient_sym. Qed.

Section Ends.
Context {L N E : Type}.
Implicit Types (g : Graph L N E) (v w : string) (x : edgeObj).

(** An entry of the table of labels belongs to an edge with the same ends. *)
Lemma edge_entry g v w : wf g → plain v → plain w → is_Some (oget (edgeLabels_ g) (edgeArgsToId (isDirected g) v w None)) →
  ∃ x, x ∈ edges g ∧ orient (isDirected g) v w = (ev x, ew x).
Proof.
  intros Hwf Hv Hw Hs. apply edge_dom in Hs as [x Hx]; [|done]. destruct (edge_endpoints g v w None x Hwf Hv Hw Hx) as (Ho & _ & _).
  exists x. split; [|done]. apply elem_of_ovalues. by eexists.
Qed.

Lemma edges_entry g x : wf g → x ∈ edges g → oget (edgeObjs_ g) (edgeObjToId (isDirected g) x) = Some x ∧ orient (isDirected g) (ev x) (ew x) = (ev x, ew x).
Proof.
  intros Hwf (e & He)%elem_of_ovalues. destruct (eok_edge _ _ _ (wf_edges _ Hwf) _ _ He) as (-> & _ & _ & _ & Ho). done.
Qed.

Lemma edge_undirected g v w : isDirected g = false → edge g v w None = edge g w v None.
Proof. intros Hd. unfold edge. by rewrite Hd, edgeArgsToId_sym. Qed.

(** The label of an edge without a name, looked up from its ends in either order. *)
Lemma edge_joins g x u v : wf g → isDirected g = false → x ∈ edges g → ename x = None → joins x u v → edge g u v None = edgeOf g x ∧ hasEdge g u v None = true.
Proof.
  intros Hwf Hd Hx Hn Hj. assert (edgeArgsToId (isDirected g) u v None = edgeObjToId (isDirected g) x) as Hid.
  { unfold edgeObjToId. rewrite Hn, Hd. destruct Hj as [[<- <-]|[<- <-]]; [done|apply edgeArgsToId_sym]. }
  destruct (edges_entry g x Hwf Hx) as [Ho _]. unfold edge, edgeOf, hasEdge. rewrite Hid. split; [done|]. apply ohas_true, edge_dom; [done|]. by eexists.
Qed.

Lemma hasEdge_undirected g u v :
  wf g → isDirected g = false → (∀ x, x ∈ edges g → ename x = None) → plain u → plain v → hasEdge g u v None = true ↔ adjacent g u v.
Proof.
  intros Hwf Hd Hn Hu Hv. rewrite adjacent_joins. split.
  - intros Hh. apply ohas_true in Hh. apply edge_entry in Hh as (x & Hx & Ho); [|done..]. exists x. split; [done|]. rewrite Hd in Ho. unfold joins. destruct (orient_cases false u v) as [Hc|Hc]; rewrite Hc in Ho; injection Ho as -> ->; tauto.
  - intros (x & Hx & Hj). by apply (edge_joins g x u v Hwf Hd Hx (Hn x Hx)).
Qed.
End Ends.

(** ** The graph: a simple acyclic digraph *)

Section Simple.
Context {L : Type}.
Notation graph := (Graph L nodeLabel edgeLabel).
Implicit Types (g : graph) (u v w p : string) (x : edgeObj).

Record simple_dag g : Prop := {
  sd_labelled : DagreRank.labelled g;
  sd_directed : isDirected g = true;
  sd_name : ∀ x, x ∈ edges g → ename x = None;
  sd_acyclic : acyclic g
}.

Lemma sd_arrow g v w : simple_dag g → arrow g v w ↔ EdgeObj v w None ∈ edges g.
Proof.
  intros D. split; [|intros H; by exists (EdgeObj v w None)]. intros ([v' w' n] & Hx & Hv & Hw). pose proof (sd_name _ D _ Hx) as Hn. cbn in *. by subst.
Qed.

Lemma sd_edge g v w : simple_dag g → arrow g v w → ∃ l, edge g v w None = Some l ∧ weight_of g (EdgeObj v w None) = weight l ∧ len g (EdgeObj v w None) = minlen l.
Proof.
  intros D Ha. apply (sd_arrow g v w D) in Ha. destruct (lb_edge _ (sd_labelled _ D) _ Ha) as [l Hl]. exists l. unfold weight_of, len. rewrite Hl. by split_and!.
Qed.

Lemma sd_no_edge g v w : simple_dag g → isNode g v → isNode g w → ¬ arrow g v w → edge g v w None = None ∧ hasEdge g v w None = false.
Proof.
  intros D Hv Hw Hn. pose proof (lb_wf _ (sd_labelled _ D)) as Hwf. assert (oget (edgeLabels_ g) (edgeArgsToId (isDirected g) v w None) = None) as Hnone.
  { apply eq_None_not_Some. intros Hs. apply Hn. apply edge_entry in Hs as (x & Hx & Ho); [|done|by apply (wf_plain _ Hwf)..]. rewrite (sd_directed _ D) in Ho. unfold orient in Ho. cbn in Ho. injection Ho as -> ->. by exists x. }
  unfold edge, edgeById, hasEdge. rewrite Hnone. split; [done|]. by apply ohas_false.
Qed.

Lemma sd_hasEdge g v w : simple_dag g → isNode g v → isNode g w → hasEdge g v w None = true ↔ arrow g v w.
Proof.
  intros D Hv Hw. split; [|intros Ha; destruct (sd_edge g v w D Ha) as (l & Hl & _)].
  - intros Hh. destruct (decide (EdgeObj v w None ∈ edges g)) as [|Hn]; [by apply sd_arrow|]. rewrite <-(sd_arrow g v w D) in Hn. by rewrite (proj2 (sd_no_edge g v w D Hv Hw Hn)) in Hh.
  - apply ohas_true. unfold edge, edgeById in Hl. destruct (oget _ _); [by eexists|done].
Qed.

Lemma sd_asym g v w : simple_dag g → arrow g v w → ¬ arrow g w v.
Proof. intros D H1 H2. apply (sd_acyclic _ D v). by eapply tc_l, tc_once. Qed.

(** The edges at a node, each once. *)
Lemma sd_nodeEdges g v : simple_dag g → isNode g v → ∃ es, nodeEdges g v None = Some es ∧ NoDup es ∧ ∀ x, x ∈ es ↔ x ∈ edges g ∧ (ev x = v ∨ ew x = v).
Proof.
  intros D Hv. pose proof (lb_wf _ (sd_labelled _ D)) as Hwf.
  destruct (inEdges_spec g v Hwf Hv) as (ies & Hi & Hn1 & Hie), (outEdges_spec g v Hwf Hv) as (oes & Ho & Hn2 & Hoe).
  exists (ies ++ oes). unfold nodeEdges. rewrite Hi. cbn. rewrite Ho. split_and!; [done| |intros x; rewrite elem_of_app, Hie, Hoe; naive_solver].
  apply NoDup_app. split_and!; [done| |done]. intros x [Hx Hw]%Hie [_ Hv']%Hoe. apply (sd_acyclic _ D v), tc_once. by exists x.
Qed.
End Simple.

(** ** The tree with some cut values *)

Section Tree.
Notation tree := (Graph unit treeNode treeEdge).
Implicit Types (t : tree) (u v w p r : string) (c : string → option Z).

Lemma rooted_asym t r u v : rooted t r → isNode t u → isNode t v → parentOf t u = Some v → parentOf t v ≠ Some u.
Proof.
  intros R Hu Hv H1 H2. destruct (ro_label _ _ R u Hu) as (lo & li & L1 & L2 & _), (ro_label _ _ R v Hv) as (lo' & li' & L1' & L2' & _).
  pose proof (ro_nest _ _ R _ _ _ _ _ _ Hu H1 L1 L2 L1' L2'). pose proof (ro_nest _ _ R _ _ _ _ _ _ Hv H2 L1' L2' L1 L2). lia.
Qed.

Lemma tree_edge t r u w : is_tree t → rooted t r → isNode t u → isNode t w → hasEdge t u w None = true ↔ parentOf t u = Some w ∨ parentOf t w = Some u.
Proof.
  intros T R Hu Hw. pose proof (it_wf _ T) as Hwf. rewrite (hasEdge_undirected t u w Hwf (it_undirected _ T)); [|intros x Hx; by apply (it_edge _ T)|by apply (wf_plain _ Hwf)..]. split.
  - intros (x & Hx & Hj)%adjacent_joins. destruct (ro_edge _ _ R x Hx), Hj as [[<- <-]|[<- <-]]; tauto.
  - intros [H|H]; apply (ro_adjacent _ _ R) in H as [_ Ha]; [|done| |done]; [by apply adjacent_sym|done].
Qed.

Record with_cuts t c t1 : Prop := {
  wc_shape : ∃ els, t1 = with_edges (edgeObjs_ t) els (edgeCount_ t) t;
  wc_wf : wf t1;
  wc_edge : ∀ v p, isNode t v → parentOf t v = Some p → edge t1 v p None = Some (TreeEdge (c v))
}.

Definition cutOf t v : option Z := p ← parentOf t v; l ← edge t v p None; cutvalue l.

Lemma with_cuts_refl t r : is_tree t → rooted t r → with_cuts t (cutOf t) t.
Proof.
  intros T R. split; [exists (edgeLabels_ t); by destruct t|apply T|]. intros v p Hv Hp. destruct (ro_adjacent _ _ R v p Hv Hp) as [_ (x & Hx & Hj)%adjacent_joins].
  destruct (it_edge _ T x Hx) as [Hn [l Hl]]. destruct (edge_joins t x p v (it_wf _ T) (it_undirected _ T) Hx Hn Hj) as [He _]. unfold cutOf. rewrite Hp. cbn.
  rewrite edge_undirected, He, Hl by apply T. by destruct l.
Qed.

Lemma with_cuts_upd t r c t1 v p z :
  is_tree t → rooted t r → with_cuts t c t1 → isNode t v → parentOf t v = Some p →
  ∃ t2, updEdge t1 (EdgeObj v p None) (λ _, TreeEdge z) = Ok t2 ∧ with_cuts t (λ u, if decide (u = v) then z else c u) t2.
Proof.
  intros T R [(els & Heq) Hwf1 He] Hv Hp. pose proof (it_wf _ T) as Hwf. destruct (ro_adjacent _ _ R v p Hv Hp) as [Hnp _]. pose proof (He v p Hv Hp) as Hl. assert (plain v ∧ plain p) as [Pv Pp] by (by split; apply (wf_plain _ Hwf)).
  assert (ohas (edgeLabels_ t1) (edgeArgsToId (isDirected t1) v p None) = true) as Hh by (apply ohas_true; unfold edge, edgeById in Hl; destruct (oget _ _); [by eexists|done]).
  destruct (setEdge_existing t1 v p (Some (Some (TreeEdge z))) None Hwf1 Pv Pp Hh) as (t2 & Hs & P). exists t2.
  assert (updEdge t1 (EdgeObj v p None) (λ _, TreeEdge z) = Ok t2) as Hu.
  { rewrite <-Hs. unfold updEdge, setEdge. rewrite Hh. change (edgeOf t1 (EdgeObj v p None)) with (edge t1 v p None). by rewrite Hl. }
  split; [done|]. assert (isDirected t1 = false) as Hd1 by (rewrite Heq; apply T). assert (isDirected t2 = false) as Hd2 by (rewrite <-Hd1; apply (se_options _ _ _ _ _ _ P)). split.
  - unfold updEdge in Hu. change (edgeOf t1 (EdgeObj v p None)) with (edge t1 v p None) in Hu. rewrite Hl in Hu. cbn in Hu. injection Hu as <-. rewrite Heq. by eexists.
  - apply P.
  - intros u q Hnu Hq. unfold edge, edgeById. rewrite (se_label _ _ _ _ _ _ P), Hd2, Hd1. destruct (decide (u = v)) as [->|Hne].
    + assert (q = p) as -> by congruence. by rewrite decide_True.
    + rewrite decide_False; [specialize (He u q Hnu Hq); unfold edge, edgeById in He; by rewrite Hd1 in He|]. intros Hid. destruct (ro_adjacent _ _ R u q Hnu Hq) as [Hnq _].
      apply edgeArgsToId_inj in Hid as [Ho _]; [|by apply plain_free, (wf_plain _ Hwf)..]. apply orient_ends in Ho as [[? _]|[-> ->]]; [done|]. by apply (rooted_asym t r p v R).
Qed.

Lemma with_cuts_same t c t1 : wf t → with_cuts t c t1 →
  (∀ v, node t1 v = node t v) ∧ nodes t1 = nodes t ∧ edges t1 = edges t ∧ ∀ u v, hasEdge t1 u v None = hasEdge t u v None.
Proof.
  intros Hwf [(els & Heq) Hwf1 _]. split_and!; [by rewrite Heq..|]. intros u v. apply Bool.eq_iff_eq_true. unfold hasEdge. rewrite !ohas_true, <-!edge_dom by done. by rewrite Heq.
Qed.

Lemma with_cuts_tree t r c t1 : is_tree t → rooted t r → with_cuts t c t1 → is_tree t1 ∧ rooted t1 r.
Proof.
  intros T R W. pose proof W as [(els & Heq) Hwf1 He]. split.
  - destruct T as [T1 T2 T3 T4 T5 T6 T7]. assert (isDirected t1 = false) as Hd by (by rewrite Heq). split; try done; try (rewrite Heq; done).
    intros x Hx. assert (x ∈ edges t) as Hx' by (by rewrite Heq in Hx). destruct (T7 x Hx') as [Hn _]. split; [done|]. destruct (edges_nodes t x T1 Hx') as [Hv Hw].
    assert (∃ u p, isNode t u ∧ parentOf t u = Some p ∧ joins x u p) as (u & p & Hu & Hp & Hj).
    { destruct (ro_edge _ _ R x Hx') as [Hp|Hp]; [exists (ev x), (ew x)|exists (ew x), (ev x)]; (split_and!; [done|done|]); unfold joins; auto. }
    destruct (edge_joins t1 x u p Hwf1 Hd Hx Hn Hj) as [<- _]. rewrite (He u p Hu Hp). by eexists.
  - destruct R. split; rewrite Heq; done.
Qed.
End Tree.

(** ** Computing one cut value *)

Section Cut.
Context {L : Type}.
Notation graph := (Graph L nodeLabel edgeLabel).
Notation tree := (Graph unit treeNode treeEdge).
Implicit Types (u v w p : string) (x : edgeObj) (c : string → option Z) (N ρ : string → Z).

(** The tree spans the graph, and its edges are edges of the graph. *)
Record spans (g : graph) (t : tree) : Prop := {
  sp_node : ∀ v, isNode t v ↔ isNode g v;
  sp_along : ∀ v p, isNode t v → parentOf t v = Some p → arrow g v p ∨ arrow g p v
}.

(** Which way the tree edge from [v] up to [p] runs in the graph. *)
Definition sign (g : graph) v p : Z := if hasEdge g v p None then 1 else -1.
Definition other v x : string := if bool_decide (ev x = v) then ew x else ev x.

Context (g : graph) (t : tree) (r : string) (D : simple_dag g) (T : is_tree t) (R : rooted t r) (S : spans g t).
Notation net := (net (edges g) (weight_of g)).
Notation childrenOf := (childrenOf (nodes t) (parentOf t)).
Notation balanced := (balanced (nodes t) (edges g) (weight_of g) (parentOf t)).

Lemma parent_node v p : isNode t v → parentOf t v = Some p → isNode t p ∧ v ≠ r.
Proof. intros Hv Hp. split; [by apply (ro_adjacent _ _ R v p)|]. intros ->. by rewrite (ro_root _ _ R) in Hp. Qed.

Lemma sign_cases v p : isNode t v → parentOf t v = Some p →
  (hasEdge g v p None = true ∧ arrow g v p ∧ sign g v p = 1%Z ∧ sign g p v = (-1)%Z) ∨ (hasEdge g v p None = false ∧ arrow g p v ∧ sign g v p = (-1)%Z ∧ sign g p v = 1%Z).
Proof.
  intros Hv Hp. destruct (parent_node v p Hv Hp) as [Hnp _]. pose proof Hv as Hv'. apply (sp_node _ _ S) in Hv', Hnp. unfold sign.
  destruct (sp_along _ _ S v p Hv Hp) as [Ha|Ha]; [left|right]; pose proof (sd_asym g _ _ D Ha) as Hn.
  - rewrite (proj2 (sd_hasEdge g v p D Hv' Hnp)), (proj2 (sd_no_edge g p v D Hnp Hv' Hn)) by done. done.
  - rewrite (proj2 (sd_hasEdge g p v D Hnp Hv')), (proj2 (sd_no_edge g v p D Hv' Hnp Hn)) by done. done.
Qed.

(** What one edge at [v] adds, given the cut values [k] of the tree edges to its children. *)
Definition term (k : string → Z) v p (tail : bool) x : Z :=
  let o := other v x in
  let pointsToHead := Bool.eqb (bool_decide (ev x = v)) tail in
  if decide (o = p) then 0%Z
  else ((if pointsToHead then weight_of g x else - weight_of g x) + (if isTreeEdge t v o then (if pointsToHead then - k o else k o) else 0))%Z.

Lemma other_ends v x : x ∈ edges g → ev x = v ∨ ew x = v → (ev x = v ∧ ew x = other v x ∧ arrow g v (other v x)) ∨ (ew x = v ∧ ev x = other v x ∧ ev x ≠ v ∧ arrow g (other v x) v).
Proof.
  intros Hx. unfold other. case_bool_decide as He; intros H; [left|right].
  - split_and!; [done|done|]. by exists x.
  - assert (ew x = v) as Hw by tauto. split_and!; [done|done|done|]. by exists x.
Qed.

Lemma cut_step_ok t1 c k v p tail a x :
  with_cuts t c t1 → isNode t v → parentOf t v = Some p → (∀ u, u ∈ childrenOf v → c u = Some (k u)) → x ∈ edges g → ev x = v ∨ ew x = v →
  cut_step t1 g v p tail (Some a) x = Ok (Some (a + term k v p tail x)%Z).
Proof.
  intros W Hv Hp Hk Hx He. unfold cut_step, term. fold (other v x). destruct (decide (other v x = p)) as [|Hne]; [by rewrite Z.add_0_r|].
  destruct (lb_edge _ (sd_labelled _ D) x Hx) as [l Hl]. unfold weight_of. rewrite Hl. cbn [of_option res_bind oadd mbind option_bind].
  destruct (with_cuts_same t c t1 (it_wf _ T) W) as (_ & _ & _ & Hsame). unfold isTreeEdge. rewrite Hsame.
  destruct (hasEdge t v (other v x) None) eqn:Ht; [|by rewrite Z.add_0_r].
  assert (isNode t (other v x)) as Ho by (apply (sp_node _ _ S); destruct (edges_nodes g x (lb_wf _ (sd_labelled _ D)) Hx); unfold other; case_bool_decide; done).
  apply (tree_edge t r v (other v x) T R Hv Ho) in Ht as [Ht|Ht]; [congruence|].
  assert (isDirected t1 = false) as Hd1 by (destruct (wc_shape _ _ _ W) as (els & ->); apply T).
  rewrite (edge_undirected t1 v (other v x) Hd1), (wc_edge _ _ _ W _ _ Ho Ht), (Hk (other v x)) by (apply elem_of_childrenOf; rewrite elem_of_nodes; done).
  cbn. do 2 f_equal. destruct (Bool.eqb _ tail); cbn; f_equal; lia.
Qed.

Lemma term_flow N v p x :
  isNode t v → parentOf t v = Some p → x ∈ edges g → ev x = v ∨ ew x = v → other v x ≠ p →
  (sign g v p * term (λ u, sign g u v * N u) v p (hasEdge g v p None) x = flow (weight_of g) v x + (if decide (other v x ∈ childrenOf v) then N (other v x) else 0))%Z.
Proof.
  intros Hv Hp Hx He Hne. unfold term. rewrite decide_False by done.
  assert (isNode t (other v x)) as Ho by (apply (sp_node _ _ S); destruct (edges_nodes g x (lb_wf _ (sd_labelled _ D)) Hx); unfold other; case_bool_decide; done).
  assert (isTreeEdge t v (other v x) = bool_decide (other v x ∈ childrenOf v)) as ->.
  { apply Bool.eq_iff_eq_true. unfold isTreeEdge. rewrite bool_decide_eq_true, (tree_edge t r v (other v x) T R Hv Ho), elem_of_childrenOf, elem_of_nodes. split; [|tauto]. intros [?|?]; [congruence|done]. }
  assert (hasEdge g (other v x) v None = bool_decide (ev x ≠ v)) as Hs.
  { apply Bool.eq_iff_eq_true. rewrite bool_decide_eq_true, sd_hasEdge by (done || by apply (sp_node _ _ S)). destruct (other_ends v x Hx He) as [(H1 & _ & H2)|(_ & _ & H1 & H2)]; [|done].
    split; [|done]. intros H3. by apply (sd_asym g _ _ D H2) in H3. }
  unfold sign. rewrite Hs. unfold flow. destruct (other_ends v x Hx He) as [(H1 & H2 & H3)|(H1 & H2 & H3 & H4)].
  - assert (ew x ≠ v) as Hw by (intros Hw; apply (sd_acyclic _ D v), tc_once; by exists x). rewrite (decide_True (P := ev x = v)), (decide_False (P := ew x = v)) by done.
    rewrite (bool_decide_true (ev x = v)) by done. rewrite (bool_decide_false (ev x ≠ v)) by (intros Hc; by apply Hc). destruct (decide (other v x ∈ childrenOf v)); [rewrite (bool_decide_true (other v x ∈ childrenOf v)) by assumption|rewrite (bool_decide_false (other v x ∈ childrenOf v)) by assumption]; destruct (hasEdge g v p None); cbn; lia.
  - rewrite (decide_True (P := ew x = v)), (decide_False (P := ev x = v)) by done.
    rewrite (bool_decide_false (ev x = v)), (bool_decide_true (ev x ≠ v)) by done. destruct (decide (other v x ∈ childrenOf v)); [rewrite (bool_decide_true (other v x ∈ childrenOf v)) by assumption|rewrite (bool_decide_false (other v x ∈ childrenOf v)) by assumption]; destruct (hasEdge g v p None); cbn; lia.
Qed.

(** The edge of the graph that the tree edge above [v] stands for. *)
Definition up_edge v p : edgeObj := if hasEdge g v p None then EdgeObj v p None else EdgeObj p v None.

Lemma up_edge_in v p : isNode t v → parentOf t v = Some p → up_edge v p ∈ edges g ∧ other v (up_edge v p) = p ∧ (ev (up_edge v p) = v ∨ ew (up_edge v p) = v).
Proof.
  intros Hv Hp. unfold up_edge, other. destruct (sign_cases v p Hv Hp) as [(-> & Ha & _)|(-> & Ha & _)]; apply (sd_arrow g _ _ D) in Ha; cbn.
  - rewrite bool_decide_true by done. split_and!; [done|done|by left].
  - assert (p ≠ v) as Hne by (intros ->; by apply (rooted_asym t r v v R)). rewrite bool_decide_false by done. split_and!; [done|done|by right].
Qed.

Lemma other_inj v x y : x ∈ edges g → y ∈ edges g → ev x = v ∨ ew x = v → ev y = v ∨ ew y = v → other v x = other v y → x = y.
Proof.
  intros Hx Hy Ex Ey Heq. pose proof (sd_name _ D x Hx) as Nx. pose proof (sd_name _ D y Hy) as Ny.
  destruct (other_ends v x Hx Ex) as [(A1 & A2 & A3)|(A1 & A2 & _ & A3)], (other_ends v y Hy Ey) as [(B1 & B2 & B3)|(B1 & B2 & _ & B3)]; destruct x, y; cbn in *; try congruence.
  - rewrite Heq in A3. by apply (sd_asym g _ _ D A3) in B3.
  - rewrite Heq in A3. by apply (sd_asym g _ _ D A3) in B3.
Qed.

Lemma sum_terms N v p es :
  isNode t v → parentOf t v = Some p → NoDup es → (∀ x, x ∈ es ↔ x ∈ edges g ∧ (ev x = v ∨ ew x = v)) →
  (sign g v p * (weight_of g (up_edge v p) + zsum (term (λ u, sign g u v * N u) v p (hasEdge g v p None)) es) = net v + zsum N (childrenOf v))%Z.
Proof.
  intros Hv Hp Hnd Hes. destruct (up_edge_in v p Hv Hp) as (H0 & Ho0 & E0). pose proof (proj2 (Hes _) (conj H0 E0)) as H0es.
  destruct (list_elem_of_split _ _ H0es) as (l1 & l2 & Hsp). set (es' := l1 ++ l2). assert (es ≡ₚ up_edge v p :: es') as Hperm by (rewrite Hsp; unfold es'; by rewrite Permutation_middle).
  assert (∀ x, x ∈ es' → x ∈ edges g ∧ (ev x = v ∨ ew x = v) ∧ other v x ≠ p) as Hes'.
  { intros x Hx. assert (x ∈ es) as [Hxe Hxv]%Hes by (rewrite Hperm; by right). split_and!; [done|done|]. intros Hxp. assert (x = up_edge v p) as -> by (apply (other_inj v); [done|done|done|done|congruence]).
    rewrite Hperm in Hnd. by apply NoDup_cons in Hnd as [? _]. }
  assert (net v = zsum (flow (weight_of g) v) es) as ->.
  { unfold DagreSimplexFlow.net. assert (es ≡ₚ filter (λ x, ev x = v ∨ ew x = v) (edges g)) as ->.
    - apply NoDup_Permutation; [done|apply NoDup_filter, NoDup_edges, (lb_wf _ (sd_labelled _ D))|]. intros x. rewrite Hes, list_elem_of_filter. tauto.
    - rewrite zsum_filter. apply zsum_ext. intros x _. unfold flow. destruct (decide (ev x = v)), (decide (ew x = v)); case_decide; try lia; tauto. }
  assert (zsum N (childrenOf v) = zsum (λ x, if decide (other v x ∈ childrenOf v) then N (other v x) else 0%Z) es') as ->.
  { rewrite <-(zsum_filter (λ x, other v x ∈ childrenOf v) (λ x, N (other v x))), <-(zsum_fmap N (other v)). apply zsum_perm.
    assert (NoDup es') as Hnd' by (rewrite Hperm in Hnd; by apply NoDup_cons in Hnd as [_ ?]).
    apply NoDup_Permutation; [apply NoDup_filter, NoDup_nodes, T| |].
    - apply NoDup_fmap_2_strong; [|by apply NoDup_filter]. intros x y [_ Hx]%list_elem_of_filter [_ Hy]%list_elem_of_filter. destruct (Hes' x Hx) as (? & ? & _), (Hes' y Hy) as (? & ? & _). by apply other_inj.
    - intros u. rewrite list_elem_of_fmap. split.
      + intros Hu. pose proof Hu as [Hun Hup]%elem_of_childrenOf. apply elem_of_nodes in Hun. destruct (up_edge_in u v Hun Hup) as (H1 & H2 & H3).
        assert (other v (up_edge u v) = u ∧ (ev (up_edge u v) = v ∨ ew (up_edge u v) = v)) as [Hou Heu].
        { assert (u ≠ v) as Hne by (intros ->; by apply (rooted_asym t r v v R)). unfold other, up_edge. destruct (hasEdge g u v None); cbn; [rewrite bool_decide_false by done|rewrite bool_decide_true by done]; split; auto. }
        exists (up_edge u v). split; [done|]. apply list_elem_of_filter. rewrite Hou. split; [done|]. assert (up_edge u v ∈ es) as Hin by (by apply Hes). rewrite Hperm in Hin. apply elem_of_cons in Hin as [Heq|?]; [|done].
        exfalso. assert (u = p) as -> by (rewrite <-Hou, Heq; done). by apply (rooted_asym t r v p R Hv Hun).
      + intros (x & -> & [Hx _]%list_elem_of_filter). done. }
  rewrite !Hperm. cbn [zsum foldr]. fold (zsum (term (λ u, sign g u v * N u)%Z v p (hasEdge g v p None)) es') (zsum (flow (weight_of g) v) es').
  assert (term (λ u, sign g u v * N u)%Z v p (hasEdge g v p None) (up_edge v p) = 0%Z) as -> by (unfold term; by rewrite decide_True).
  assert (flow (weight_of g) v (up_edge v p) = sign g v p * weight_of g (up_edge v p))%Z as ->.
  { assert (p ≠ v) as Hne by (intros ->; by apply (rooted_asym t r v v R)). unfold flow, up_edge, sign. destruct (hasEdge g v p None); cbn; repeat case_decide; try done; lia. }
  assert (sign g v p * zsum (term (λ u, sign g u v * N u) v p (hasEdge g v p None)) es' = zsum (flow (weight_of g) v) es' + zsum (λ x, if decide (other v x ∈ childrenOf v) then N (other v x) else 0) es')%Z as Hs; [|lia].
  rewrite <-zsum_mul, <-zsum_add. apply zsum_ext. intros x Hx. destruct (Hes' x Hx) as (? & ? & ?). by apply term_flow.
Qed.

Lemma calcCutValue_ok t1 c N v p :
  with_cuts t c t1 → isNode t v → parentOf t v = Some p → (∀ u, u ∈ childrenOf v → c u = Some (sign g u v * N u)%Z) →
  calcCutValue t1 g v = Ok (Some (sign g v p * (net v + zsum N (childrenOf v)))%Z).
Proof.
  intros W Hv Hp Hk. destruct (sd_nodeEdges g v D) as (es & Hne & Hnd & Hes); [by apply (sp_node _ _ S)|].
  assert (calcCutValue t1 g v = res_fold (cut_step t1 g v p (hasEdge g v p None)) (Some (weight_of g (up_edge v p))) es) as ->.
  { unfold calcCutValue. destruct (with_cuts_same t c t1 (it_wf _ T) W) as (-> & _). destruct (node t v) as [l|] eqn:Hl; [|unfold parentOf in Hp; by rewrite Hl in Hp].
    assert (tparent l = Some p) as Htp by (unfold parentOf in Hp; by rewrite Hl in Hp). cbn [of_option res_bind]. rewrite Htp, Hne. cbn [of_option res_bind default from_option id].
    destruct (parent_node v p Hv Hp) as [Hnp _]. apply (sp_node _ _ S) in Hnp. pose proof (proj1 (sp_node _ _ S v) Hv) as Hnv.
    unfold up_edge. destruct (sign_cases v p Hv Hp) as [(-> & Ha & _)|(Hh & Ha & _)]; destruct (sd_edge g _ _ D Ha) as (le & He & Hw & _).
    - by rewrite He, Hw.
    - rewrite (proj1 (sd_no_edge g v p D Hnv Hnp (sd_asym g _ _ D Ha))), He, Hh, Hw. done. }
  destruct (res_fold_inv (cut_step t1 g v p (hasEdge g v p None)) (λ done s, s = Some (weight_of g (up_edge v p) + zsum (term (λ u, sign g u v * N u) v p (hasEdge g v p None)) done)%Z) es (Some (weight_of g (up_edge v p)))) as (s & -> & ->).
  - by rewrite Z.add_0_r.
  - intros dn x rest s Heq ->. assert (x ∈ es) as [Hx He]%Hes by (rewrite Heq; set_solver). eexists. split; [by apply (cut_step_ok t1 c (λ u, sign g u v * N u)%Z)|]. rewrite zsum_app. cbn. f_equal. lia.
  - do 2 f_equal. rewrite <-(sum_terms N v p es) by done. destruct (sign_cases v p Hv Hp) as [(_ & _ & -> & _)|(_ & _ & -> & _)]; lia.
Qed.

(** The cut values of the nodes in [dn] are known. *)
Definition cuts_done N (dn : list string) c : Prop := ∀ v p, v ∈ dn → parentOf t v = Some p → c v = Some (sign g v p * N v)%Z ∧ balanced N v.

Lemma assignCutValue_ok t1 c N dn v p :
  with_cuts t c t1 → cuts_done N dn c → isNode t v → parentOf t v = Some p → v ∉ dn → (∀ u, u ∈ dn → isNode t u) →
  (∀ u, u ∈ childrenOf v → u ∈ dn) → (∀ u w, u ∈ dn → w ∈ childrenOf u → w ∈ dn) →
  ∃ t2 c' N', assignCutValue g t1 v = Ok t2 ∧ with_cuts t c' t2 ∧ cuts_done N' (dn ++ [v]) c'.
Proof.
  intros W Hd Hv Hp Hnew Hdn Hch Hcl. set (z := (net v + zsum N (childrenOf v))%Z).
  assert (calcCutValue t1 g v = Ok (Some (sign g v p * z)%Z)) as Hcalc.
  { apply (calcCutValue_ok t1 c); [done..|]. intros u Hu. pose proof (Hch u Hu) as Hud. apply elem_of_childrenOf in Hu as [_ Hup]. by apply (Hd u v). }
  destruct (with_cuts_upd t r c t1 v p (Some (sign g v p * z)%Z) T R W Hv Hp) as (t2 & Hupd & W2).
  exists t2, (λ u, if decide (u = v) then Some (sign g v p * z)%Z else c u), (λ u, if decide (u = v) then z else N u). split_and!; [|done|].
  - unfold assignCutValue. rewrite Hcalc. destruct (with_cuts_same t c t1 (it_wf _ T) W) as (-> & _). unfold parentOf in Hp. destruct (node t v) as [l|]; [|done]. cbn in Hp |- *. rewrite Hp. cbn. exact Hupd.
  - assert (∀ u, u ∈ dn → u ≠ v) as Hne by (by intros u Hu ->).
    intros u q [Hu| ->%list_elem_of_singleton]%elem_of_app Hq.
    + rewrite !decide_False by (by apply Hne). destruct (Hd u q Hu Hq) as [? Hb]. split; [done|]. eapply balanced_ext; [..|exact Hb]; cbn; [by rewrite decide_False by (by apply Hne)|].
      intros w Hw. rewrite decide_False; [done|]. by apply Hne, (Hcl u).
    + assert (q = p) as -> by congruence. rewrite !decide_True by done. split; [done|]. unfold DagreSimplexFlow.balanced. rewrite decide_True by done. unfold z. f_equal. apply zsum_ext.
      intros w Hw. rewrite decide_False; [done|]. by apply Hne, Hch.
Qed.

(** All cut values. *)
Record cut_values (g : graph) (t : tree) N : Prop := {
  cv_edge : ∀ v p, isNode t v → parentOf t v = Some p → edge t v p None = Some (TreeEdge (Some (sign g v p * N v)%Z));
  cv_balanced : ∀ v, isNode t v → is_Some (parentOf t v) → DagreSimplexFlow.balanced (nodes t) (edges g) (weight_of g) (parentOf t) N v
}.

Lemma initCutValues_ok : ∃ t1 N c, initCutValues t g = Ok t1 ∧ with_cuts t c t1 ∧ cut_values g t1 N.
Proof.
  destruct (tree_dfs t r true T R) as (n & Hpo & _ & F & Hnd & Hn). apply NoDup_cons in Hnd as [Hrn Hnd].
  assert (∀ v, v ∈ n → isNode t v ∧ ∃ p, parentOf t v = Some p) as Hpar.
  { intros v Hv. assert (isNode t v) as Hnv by (apply Hn; by right). split; [done|]. apply (ro_parent _ _ R); [done|]. by intros ->. }
  assert (∀ l1 v l2 u, n = l1 ++ v :: l2 → u ∈ childrenOf v → u ∈ l1) as Hbefore.
  { intros l1 v l2 u Heq [Hu%elem_of_nodes Hup]%elem_of_childrenOf. assert (v ∈ n) as Hv by (rewrite Heq; set_solver).
    assert (u ∈ n) as Hun by (apply Hn in Hu as [->|?]%elem_of_cons; [by rewrite (ro_root _ _ R) in Hup|done]).
    destruct (list_elem_of_split _ _ Hun) as (k1 & k2 & Hk). destruct (F k1 u k2 Hk) as (q & Hq & Hin). assert (q = v) as -> by congruence. destruct Hin as [->|Hin]; [done|].
    assert (v ≠ u) as Hne by (intros ->; by apply (rooted_asym t r u u R)). rewrite Heq in Hk. apply app_eq_inv in Hk as [(k & -> & Hk)|(k & -> & Hk)].
    - destruct k as [|z k]; cbn in Hk; injection Hk as Hz Hk; [done|]. subst z. apply elem_of_app. right. by left.
    - exfalso. destruct k as [|z k]; cbn in Hk; injection Hk as Hz Hk; [done|]. subst z l2. rewrite Heq in Hnd. apply NoDup_app in Hnd as (_ & _ & Hnd). apply NoDup_cons in Hnd as [Hnd _]. apply Hnd. set_solver. }
  destruct (res_fold_inv (assignCutValue g) (λ dn t1, ∃ c N, with_cuts t c t1 ∧ cuts_done N dn c) n t) as (t1 & Hr & c & N & W & Hd).
  - exists (cutOf t), (λ _, 0%Z). split; [by eapply with_cuts_refl|]. by intros v p ?%elem_of_nil.
  - intros dn v rest t1 Heq (c & N & W & Hd). assert (v ∈ n) as Hv by (rewrite Heq; set_solver). destruct (Hpar v Hv) as (Hnv & p & Hp).
    destruct (assignCutValue_ok t1 c N dn v p W Hd Hnv Hp) as (t2 & c' & N' & ? & ? & ?); [| | | |by exists t2; split; [|exists c', N']].
    + intros Hin. rewrite Heq in Hnd. apply NoDup_app in Hnd as (_ & Hnd & _). apply (Hnd v Hin). by left.
    + intros u Hu. apply Hpar. rewrite Heq. set_solver.
    + intros u. by apply (Hbefore dn v rest).
    + intros u w Hu Hw. destruct (list_elem_of_split _ _ Hu) as (k1 & k2 & ->). rewrite <-app_assoc in Heq. cbn in Heq. apply elem_of_app. left. by apply (Hbefore k1 u (k2 ++ v :: rest)).
  - exists t1, N, c. split_and!; [|done|].
    + unfold initCutValues, postorder. rewrite Hpo. cbn [res_bind]. unfold around. by rewrite removelast_last.
    + destruct (with_cuts_same t c t1 (it_wf _ T) W) as (Hnode & Hnodes & _).
      assert (∀ u, parentOf t1 u = parentOf t u) as Hpo1 by (intros u; unfold parentOf; by rewrite Hnode). assert (∀ u, isNode t1 u ↔ isNode t u) as Hnn by (intros u; by rewrite <-!elem_of_nodes, Hnodes).
      assert (∀ v p, isNode t v → parentOf t v = Some p → v ∈ n) as Hin.
      { intros v p Hv Hp. apply Hn in Hv as [->|?]%elem_of_cons; [by rewrite (ro_root _ _ R) in Hp|done]. }
      split.
      * intros v p Hv%Hnn Hp. rewrite Hpo1 in Hp. rewrite (wc_edge _ _ _ W v p Hv Hp). by destruct (Hd v p (Hin v p Hv Hp) Hp) as [-> _].
      * intros v Hv%Hnn [p Hp]. rewrite Hpo1 in Hp. destruct (Hd v p (Hin v p Hv Hp) Hp) as [_ Hb]. unfold DagreSimplexFlow.balanced, DagreSimplexFlow.childrenOf in *. rewrite Hb, Hnodes. f_equal. f_equal.
        apply list_filter_iff. intros u. by rewrite Hpo1.
Qed.
End Cut.
