(* ===== verification/DagreSimplexEnter.v ===== *)
(** * dagre: ranks from a tree, and the two sides of a tree edge

    [updateRanks] recomputes the ranks from the root down so that every tree edge is tight.  [isDescendant] decides which
    nodes are on the lower side of a tree edge. *)
From Stdlib Require Import QArith_base.
Local Close Scope Q_scope.
From S2P Require Import Prelude JsObject Graphlib GraphWf GraphInv GraphQuery GraphView GraphAlg GraphDfs Lodash LodashSpec.
From S2P Require Import DagreTypes DagreRank DagreTree DagreRankClaims DagreBk DagreCross DagreNormalize DagreSimplex DagreSimplexTree DagreSimplexFlow DagreSimplexCut.

Section Ranks.
Context {L : Type}.
Notation graph := (Graph L nodeLabel edgeLabel).
Notation tree := (Graph unit treeNode treeEdge).
Implicit Types (u v w p : string) (x : edgeObj) (ρ : string → Z).

(** [g1] is [g] with the ranks [ρ]. *)
Definition has_ranks (g : graph) ρ (g1 : graph) : Prop := ranked g (λ u, Some (ρ u)) g1.
Definition feasible_ranks (g : graph) ρ : Prop := ∀ x, x ∈ edges g → (len g x ≤ ρ (ew x) - ρ (ev x))%Z.
(** The edges of the graph that are tree edges have no slack. *)
Definition tight_on (g : graph) (t : tree) ρ : Prop := ∀ x, x ∈ edges g → adjacent t (ev x) (ew x) → (ρ (ew x) - ρ (ev x) = len g x)%Z.

Context (g : graph) (t : tree) (r : string) (D : simple_dag g) (T : is_tree t) (R : rooted t r) (S : spans g t).

Lemma up_edge_ends v p : isNode t v → parentOf t v = Some p → joins (up_edge g v p) v p.
Proof. intros Hv Hp. unfold up_edge, joins. destruct (hasEdge g v p None); cbn; tauto. Qed.

(** One child, when its parent has its rank. *)
Lemma rank_child_ok ρ ρ1 g1 v p :
  tight_on g t ρ → has_ranks g ρ1 g1 → isNode t v → parentOf t v = Some p → ρ1 p = ρ p →
  ∃ g2, rank_child t g1 v = Ok g2 ∧ has_ranks g (λ u, if decide (u = v) then ρ v else ρ1 u) g2.
Proof.
  intros Ht Hr Hv Hp Hρ. pose proof (lb_node _ (sd_labelled _ D)) as Hlab. destruct (parent_node t r R v p Hv Hp) as [Hnp _].
  destruct (Hlab v) as [lv Hlv]; [by apply (sp_node _ _ S)|]. destruct (Hlab p) as [lp Hlp]; [by apply (sp_node _ _ S)|].
  assert (∀ a b, edge g1 a b None = edge g a b None) as Hedge by (destruct (rk_shape _ _ _ Hr) as (ns & ->); done).
  destruct (updNode_ranked g _ g1 v (ρ v) (set_rank (Some (ρ v))) lv Hr Hlv) as (g2 & Hu & Hr2); [done|].
  exists g2. split; [|eapply ranked_ext; [|exact Hr2]; intros u _; cbn; by case_decide].
  unfold rank_child. destruct (node t v) as [l|] eqn:Hl; [|unfold parentOf in Hp; by rewrite Hl in Hp]. assert (tparent l = Some p) as Htp by (unfold parentOf in Hp; by rewrite Hl in Hp).
  cbn [of_option res_bind]. rewrite Htp. cbn [of_option res_bind]. rewrite (ranked_label _ _ _ _ _ Hr Hlp). cbn [of_option res_bind]. rewrite !Hedge.
  pose proof (up_edge_in g t r D R S v p Hv Hp) as (Hin & _ & _).
  assert (adjacent t v p) as Hadj by (apply adjacent_sym; by apply (ro_adjacent _ _ R)). pose proof (Ht _ Hin) as Htight. unfold up_edge in Htight.
  pose proof (proj1 (sp_node _ _ S v) Hv) as Hgv. pose proof (proj1 (sp_node _ _ S p) Hnp) as Hgp.
  destruct (sign_cases g t r D R S v p Hv Hp) as [(Hh & Ha & _)|(Hh & Ha & _)]; rewrite Hh in Htight; destruct (sd_edge g _ _ D Ha) as (le & He & _ & Hle); rewrite Hle in Htight; cbn in Htight.
  - rewrite He. cbn. rewrite Hρ. replace (ρ p - minlen le)%Z with (ρ v) by (specialize (Htight Hadj); lia). exact Hu.
  - rewrite (proj1 (sd_no_edge g v p D Hgv Hgp (sd_asym g _ _ D Ha))), He. cbn. rewrite Hρ. replace (ρ p + minlen le)%Z with (ρ v) by (specialize (Htight (adjacent_sym _ _ _ Hadj)); lia). exact Hu.
Qed.

(** The ranks that agree at the root and make the tree tight are the result. *)
Lemma updateRanks_ok ρ ρ0 g1 :
  tight_on g t ρ → has_ranks g ρ0 g1 → ρ0 r = ρ r → ∃ g2, updateRanks t g1 = Ok g2 ∧ has_ranks g ρ g2.
Proof.
  intros Ht Hr Hroot. destruct (tree_dfs t r false T R) as (n & _ & Hpre & F & Hnd & Hn). apply NoDup_cons in Hnd as [Hrn Hnd].
  unfold updateRanks. rewrite (ro_head _ _ R). cbn [of_option res_bind]. unfold preorder. rewrite Hpre. cbn [res_bind around drop].
  destruct (res_fold_inv (rank_child t) (λ dn g2, has_ranks g (λ u, if decide (u = r ∨ u ∈ dn) then ρ u else ρ0 u) g2) n g1) as (g2 & Hf & Hr2).
  - eapply ranked_ext; [|exact Hr]. intros u _. cbn. case_decide as Hd; [|done]. destruct Hd as [->|Hd%elem_of_nil]; [by rewrite Hroot|done].
  - intros dn v rest g2 Heq Hr2. assert (v ∈ n) as Hv by (rewrite Heq; set_solver). assert (isNode t v) as Hnv by (apply Hn; by right).
    destruct (F dn v rest Heq) as (p & Hp & Hin). destruct (rank_child_ok ρ _ g2 v p Ht Hr2 Hnv Hp) as (g3 & H3 & Hr3); [by rewrite decide_True|].
    exists g3. split; [done|]. eapply ranked_ext; [|exact Hr3]. intros u _. cbn. destruct (decide (u = v)) as [->|Hne].
    + rewrite decide_True; [done|]. right. set_solver.
    + destruct (decide (u = r ∨ u ∈ dn)) as [Hd|Hd]; [rewrite decide_True; [done|set_solver]|rewrite decide_False; [done|]]. rewrite elem_of_app, list_elem_of_singleton. tauto.
  - exists g2. split; [done|]. eapply ranked_ext; [|exact Hr2]. intros u Hu. cbn. rewrite decide_True; [done|]. apply (sp_node _ _ S), Hn in Hu. by apply elem_of_cons in Hu.
Qed.
End Ranks.

(** ** Descendants *)

Section Descendants.
Notation tree := (Graph unit treeNode treeEdge).
Implicit Types (t : tree) (u v w p q r : string).

(** [isDescendant(t, t.node(u), t.node(v))]. *)
Definition desc t v u : bool := match node t u, node t v with Some lu, Some lv => isDescendant lu lv | _, _ => false end.

Lemma isDescendant_iff lu lv : isDescendant lu lv = true ↔ ∃ lo l li, low lv = Some lo ∧ lim lu = Some l ∧ lim lv = Some li ∧ (lo ≤ l ≤ li)%Z.
Proof.
  unfold isDescendant. destruct (low lv) as [lo|]; [|naive_solver]. destruct (lim lu) as [l|]; [|naive_solver]. destruct (lim lv) as [li|]; [|naive_solver].
  rewrite andb_true_iff, !bool_decide_eq_true. split; [intros; by exists lo, l, li|]. intros (? & ? & ? & [= ->] & [= ->] & [= ->] & ?). done.
Qed.

Lemma desc_iff t v u : desc t v u = true ↔ ∃ lo l li, lowOf t v = Some lo ∧ limOf t u = Some l ∧ limOf t v = Some li ∧ (lo ≤ l ≤ li)%Z.
Proof.
  unfold desc, lowOf, limOf. destruct (node t u) as [lu|], (node t v) as [lv|]; cbn; [apply isDescendant_iff|naive_solver..].
Qed.

Context t r (T : is_tree t) (R : rooted t r).

Lemma below_interval u v : isNode t u → below t u v → isNode t v ∧ ∃ lo l li lo', lowOf t u = Some lo' ∧ lowOf t v = Some lo ∧ limOf t u = Some l ∧ limOf t v = Some li ∧ (lo ≤ lo' ∧ l ≤ li)%Z ∧ (u ≠ v → l < li)%Z.
Proof.
  intros Hu Hb. revert Hu. induction Hb as [u|u q v Hq Hb IH]; intros Hu; destruct (ro_label _ _ R u Hu) as (lo & li & L1 & L2 & L3).
  - split; [done|]. exists lo, li, li, lo. split_and!; try done; lia.
  - destruct (ro_adjacent _ _ R u q Hu Hq) as [Hnq _]. destruct (IH Hnq) as (Hnv & lov & lq & liv & loq & A1 & A2 & A3 & A4 & A5 & A6). split; [done|]. exists lov, li, liv, lo.
    pose proof (ro_nest _ _ R _ _ _ _ _ _ Hu Hq L1 L2 A1 A3). split_and!; try done; lia.
Qed.

Lemma desc_below u v : isNode t u → isNode t v → desc t v u = true ↔ below t u v.
Proof.
  intros Hu Hv. rewrite desc_iff. split.
  - intros (lo & l & li & H1 & H2 & H3 & H4). by eapply (ro_interval _ _ R).
  - intros Hb. destruct (below_interval u v Hu Hb) as (_ & lo & l & li & lo' & A1 & A2 & A3 & A4 & [A5 A6] & _). exists lo, l, li. destruct (ro_label _ _ R u Hu) as (lo2 & li2 & B1 & B2 & B3).
    assert (lo2 = lo') as -> by congruence. assert (li2 = l) as -> by congruence. split_and!; try done; lia.
Qed.

(** Going up stays on the same side, except along the edge above [v]. *)
Lemma desc_up u v q : isNode t u → isNode t v → parentOf t u = Some q → desc t v u = if decide (u = v) then true else desc t v q.
Proof.
  intros Hu Hv Hq. destruct (ro_adjacent _ _ R u q Hu Hq) as [Hnq _]. destruct (decide (u = v)) as [->|Hne]; [by apply desc_below|].
  apply Bool.eq_iff_eq_true. rewrite !desc_below by done. split.
  - intros Hb. destruct (rtc_inv _ _ Hb) as [?|(q' & Hq' & Hb')]; [done|]. by assert (q' = q) as -> by congruence.
  - intros Hb. by eapply rtc_l.
Qed.

Lemma desc_parent v p : isNode t v → parentOf t v = Some p → desc t v v = true ∧ desc t v p = false.
Proof.
  intros Hv Hp. destruct (ro_adjacent _ _ R v p Hv Hp) as [Hnp _]. split; [by apply desc_below|]. apply not_true_iff_false. rewrite desc_below by done. intros Hb.
  destruct (below_interval p v Hnp Hb) as (_ & lo & l & li & lo' & A1 & A2 & A3 & A4 & _ & A5). destruct (ro_label _ _ R v Hv) as (lo2 & li2 & B1 & B2 & _).
  pose proof (ro_nest _ _ R _ _ _ _ _ _ Hv Hp B1 B2 A1 A3). assert (li = li2) as -> by congruence. destruct (decide (p = v)) as [->|Hne]; [assert (li2 = l) by congruence; lia|]. specialize (A5 Hne). lia.
Qed.

Lemma desc_root v : isNode t v → v ≠ r → isNode t r → desc t v r = false.
Proof.
  intros Hv Hne Hr. apply not_true_iff_false. rewrite desc_below by done. intros Hb. destruct (rtc_inv _ _ Hb) as [?|(q & Hq & _)]; [done|]. by rewrite (ro_root _ _ R) in Hq.
Qed.
End Descendants.

(** * dagre: the edges that leave and enter the tree

    [leaveEdge] finds a tree edge with a negative cut value.  The edges of the graph that cross from the head side to the tail
    side of it outweigh the others, so that [enterEdge] finds one of them, with the least slack. *)
From Stdlib Require Import QArith_base.
Local Close Scope Q_scope.
From S2P Require Import Prelude JsObject Graphlib GraphWf GraphInv GraphQuery GraphView GraphAlg GraphDfs Lodash LodashSpec.
From S2P Require Import DagreTypes DagreRank DagreTree DagreRankClaims DagreBk DagreCross DagreOrderClaims DagreNormalize DagreSimplex DagreSimplexTree DagreSimplexFlow DagreSimplexCut.

(** Pushing the elements that pass a test. *)
Lemma res_fold_pick {A} (h : list A → A → res (list A)) (P : A → Prop) `{!∀ x, Decision (P x)} l :
  (∀ acc x, x ∈ l → h acc x = Ok (if decide (P x) then acc ++ [x] else acc)) → res_fold h [] l = Ok (filter P l).
Proof.
  intros Hh. destruct (res_fold_inv h (λ dn acc, acc = filter P dn) l []) as (acc & -> & ->); [done| |done].
  intros dn x rest acc Heq ->. eexists. split; [apply Hh; rewrite Heq; set_solver|]. rewrite filter_app, filter_cons. cbn. case_decide; [done|]. by rewrite app_nil_r.
Qed.

Section Enter.
Context {L : Type}.
Notation graph := (Graph L nodeLabel edgeLabel).
Notation tree := (Graph unit treeNode treeEdge).
Implicit Types (u v w p : string) (x e f : edgeObj) (ρ N : string → Z).

(** The weighted length of all edges. *)
Definition total (g : graph) ρ : Z := wlen (edges g) (weight_of g) ρ.
Definition weights_nonneg (g : graph) : Prop := ∀ x, x ∈ edges g → (0 ≤ weight_of g x)%Z.

Context (g : graph) (t : tree) (r : string) (D : simple_dag g) (T : is_tree t) (R : rooted t r) (S : spans g t).

Lemma root_node : isNode t r.
Proof. pose proof (ro_head _ _ R) as H. apply elem_of_nodes. destruct (nodes t); [done|]. injection H as ->. by left. Qed.

(** The total length is the sum of cut value times length over the tree edges. *)
Lemma total_rise N ρ : cut_values g t N → total g ρ = zsum (rise (parentOf t) N ρ) (nodes t).
Proof.
  intros C. pose proof (it_wf _ T) as Hwf. apply (wlen_rise _ _ _ _ r).
  - by apply NoDup_nodes.
  - intros x Hx. rewrite !elem_of_nodes, !(sp_node _ _ S). apply edges_nodes; [apply D|done].
  - intros u p. rewrite !elem_of_nodes. intros Hu Hp. by apply (ro_adjacent _ _ R u p).
  - apply elem_of_nodes, root_node.
  - apply R.
  - intros u Hu%elem_of_nodes Hne. destruct (ro_parent _ _ R u Hu Hne) as [p Hp]. by exists p.
  - intros u Hu%elem_of_nodes Hne. apply (cv_balanced _ _ _ C u Hu). destruct (ro_parent _ _ R u Hu Hne) as [p Hp]. by exists p.
Qed.

(** The same for feasible ranks: a bound by the cut values. *)
Lemma rise_sign N ρ u p : isNode t u → parentOf t u = Some p →
  (rise (parentOf t) N ρ u = sign g u p * N u * (ρ (ew (up_edge g u p)) - ρ (ev (up_edge g u p))))%Z.
Proof.
  intros Hu Hp. unfold rise, up_edge, sign. rewrite Hp. destruct (hasEdge g u p None); cbn; lia.
Qed.

Lemma cuts_optimal N ρ ρ' :
  cut_values g t N → (∀ u p, isNode t u → parentOf t u = Some p → 0 ≤ sign g u p * N u)%Z →
  tight_on g t ρ → feasible_ranks g ρ' → (total g ρ ≤ total g ρ')%Z.
Proof.
  intros C Hpos Ht Hf. rewrite !(total_rise N _ C). apply zsum_le. intros u Hu%elem_of_nodes.
  destruct (parentOf t u) as [p|] eqn:Hp; [|unfold rise; by rewrite Hp]. rewrite !(rise_sign _ _ u p) by done. apply Z.mul_le_mono_nonneg_l; [by apply Hpos|].
  destruct (up_edge_in g t r D R S u p Hu Hp) as (Hin & _ & _). rewrite (Ht _ Hin); [by apply Hf|]. destruct (ro_adjacent _ _ R u p Hu Hp) as [_ Ha]. destruct (up_edge_ends g t u p Hu Hp) as [[-> ->]|[-> ->]]; [by apply adjacent_sym|done].
Qed.

(** [leaveEdge]. *)
Lemma leaveEdge_None N : cut_values g t N → leaveEdge t = None → ∀ u p, isNode t u → parentOf t u = Some p → (0 ≤ sign g u p * N u)%Z.
Proof.
  intros C Hl u p Hu Hp. unfold leaveEdge in Hl. destruct (list_find _ (edges t)) as [[]|] eqn:Hf; [done|]. apply list_find_None in Hf. rewrite Forall_forall in Hf.
  destruct (ro_adjacent _ _ R u p Hu Hp) as [_ (x & Hx & Hj)%adjacent_joins]. specialize (Hf x Hx). destruct (it_edge _ T x Hx) as [Hn _].
  destruct (edge_joins t x p u (it_wf _ T) (it_undirected _ T) Hx Hn Hj) as [He _]. rewrite <-He, edge_undirected, (cv_edge _ _ _ C u p Hu Hp) in Hf by apply T. cbn in Hf.
  case_bool_decide; [by destruct Hf|lia].
Qed.

Lemma leaveEdge_Some N e : cut_values g t N → leaveEdge t = Some e → e ∈ edges t ∧ ∃ v p, isNode t v ∧ parentOf t v = Some p ∧ joins e v p ∧ (sign g v p * N v < 0)%Z.
Proof.
  intros C Hl. unfold leaveEdge in Hl. destruct (list_find _ (edges t)) as [[i e']|] eqn:Hf; [|done]. cbn in Hl. injection Hl as ->.
  apply list_find_Some in Hf as (Hi & Hneg & _). apply list_elem_of_lookup_2 in Hi. split; [done|]. destruct (edges_nodes t e (it_wf _ T) Hi) as [Hv Hw]. destruct (it_edge _ T e Hi) as [Hn _].
  assert (∃ v p, isNode t v ∧ parentOf t v = Some p ∧ joins e v p) as (v & p & Hnv & Hp & Hj).
  { destruct (ro_edge _ _ R e Hi); [exists (ev e), (ew e)|exists (ew e), (ev e)]; unfold joins; split_and!; auto. }
  exists v, p. split_and!; [done..|]. destruct (edge_joins t e v p (it_wf _ T) (it_undirected _ T) Hi Hn Hj) as [He _]. rewrite <-He, (cv_edge _ _ _ C v p Hnv Hp) in Hneg. cbn in Hneg. by apply bool_decide_eq_true in Hneg.
Qed.

(** ** The two sides of the tree edge above [v] *)

Context (v p : string) (Hv : isNode t v) (Hp : parentOf t v = Some p).
Definition side u : Z := if desc t v u then 1 else 0.
(** [x] crosses from the head side of the tree edge to its tail side. *)
Definition back x : Prop := (side (ew x) - side (ev x) = sign g v p)%Z.
#[export] Instance back_dec x : Decision (back x).
Proof. unfold back. apply _. Defined.

Lemma side_up u q : isNode t u → parentOf t u = Some q → (side q - side u = if decide (u = v) then -1 else 0)%Z.
Proof.
  intros Hu Hq. unfold side. rewrite (desc_up t r R u v q Hu Hv Hq). destruct (decide (u = v)) as [->|]; [|lia]. assert (q = p) as -> by congruence. by rewrite (proj2 (desc_parent t r R v p Hv Hp)).
Qed.

Lemma total_side N : cut_values g t N → total g side = (- N v)%Z.
Proof.
  intros C. rewrite (total_rise N _ C), <-(zsum_single (λ v, - N v)%Z v (nodes t)); [|apply NoDup_nodes, T|by apply elem_of_nodes].
  apply zsum_ext. intros u Hu%elem_of_nodes. unfold rise. destruct (parentOf t u) as [q|] eqn:Hq.
  - rewrite (side_up u q Hu Hq). destruct (decide (u = v)) as [->|]; [rewrite decide_True by done; lia|rewrite decide_False by done; lia].
  - rewrite decide_False; [done|]. intros ->. congruence.
Qed.

Lemma back_exists N : weights_nonneg g → cut_values g t N → (sign g v p * N v < 0)%Z → ∃ x, x ∈ edges g ∧ back x.
Proof.
  intros Hw C Hneg. destruct (decide (Exists back (edges g))) as [(x & ? & ?)%Exists_exists|Hno]; [by exists x|]. exfalso.
  assert (0 ≤ - sign g v p * total g side)%Z as Hle; [|rewrite (total_side N C) in Hle; lia].
  unfold total, wlen. rewrite <-zsum_mul. apply zsum_nonneg. intros x Hx. specialize (Hw x Hx). assert (¬ back x) as Hb by (intros Hb; apply Hno, Exists_exists; eauto).
  unfold back, side, sign in *. destruct (desc t v (ew x)), (desc t v (ev x)), (hasEdge g v p None); nia.
Qed.

Definition gap ρ x : Z := (ρ (ew x) - ρ (ev x) - len g x)%Z.

Lemma slack_gap ρ g1 x : has_ranks g ρ g1 → x ∈ edges g → slack g1 x = Ok (Some (gap ρ x)).
Proof. intros Hr Hx. by rewrite (slack_ranked g _ g1 x (ρ (ev x)) (ρ (ew x)) (sd_labelled _ D) Hr Hx). Qed.

Lemma back_desc x : back x ↔ Bool.eqb (negb (hasEdge g v p None)) (desc t v (ev x)) = true ∧ Bool.eqb (negb (hasEdge g v p None)) (desc t v (ew x)) = false.
Proof. unfold back, side, sign. destruct (hasEdge g v p None), (desc t v (ew x)), (desc t v (ev x)); cbn; split; intros; try done; try lia; naive_solver. Qed.

(** The least slack among the candidates. *)
Lemma least_slack ρ g1 (es : list edgeObj) : has_ranks g ρ g1 → es ≠ [] → (∀ x, x ∈ es → x ∈ edges g) →
  ∃ cs f, res_fold (λ cs e, s <-- slack g1 e ;; Ok (cs ++ [(e, s)])) [] es = Ok cs ∧ fst <$> minBy cs snd = Some f ∧ f ∈ es ∧ ∀ x, x ∈ es → (gap ρ f ≤ gap ρ x)%Z.
Proof.
  intros Hr Hne Hes. match goal with |- context [res_fold ?h ?s ?l] => destruct (res_fold_inv h (λ dn cs, cs = (λ x, (x, Some (gap ρ x))) <$> dn) l s) as (cs & -> & ->); [done| |] end.
  { intros dn x rest cs Heq ->. eexists. rewrite (slack_gap ρ g1 x Hr) by (apply Hes; rewrite Heq; set_solver). cbn. split; [done|]. by rewrite fmap_app. }
  exists ((λ x, (x, Some (gap ρ x))) <$> es). pose proof (minBy_spec ((λ x, (x, Some (gap ρ x))) <$> es) snd) as Hm. destruct (minBy _ snd) as [[f c]|].
  - destruct Hm as (pre & post & d & Heq & Hc & H1 & H2). cbn in Hc. subst c. exists f. assert ((f, Some d) ∈ (λ x, (x, Some (gap ρ x))) <$> es) as Hin by (rewrite Heq; set_solver).
    apply list_elem_of_fmap in Hin as (f' & [= <- Hd] & Hf). subst d. split_and!; [done..|]. intros x Hx.
    assert ((x, Some (gap ρ x)) ∈ (λ x, (x, Some (gap ρ x))) <$> es) as Hin' by (apply list_elem_of_fmap; eauto).
    rewrite Heq in Hin'. apply elem_of_app in Hin' as [Hq|[Hq|Hq]%elem_of_cons]; [destruct (H1 _ (gap ρ x) Hq eq_refl); lia|by injection Hq as -> _|apply (H2 _ (gap ρ x) Hq eq_refl)].
  - destruct es as [|x es]; [done|]. specialize (Hm (x, Some (gap ρ x))). cbn in Hm. discriminate Hm. by left.
Qed.

Lemma enterEdge_ok N ρ g1 e :
  weights_nonneg g → cut_values g t N → has_ranks g ρ g1 → joins e v p → (sign g v p * N v < 0)%Z →
  ∃ f, enterEdge t g1 e = Ok (Some f) ∧ f ∈ edges g ∧ back f ∧ ∀ x, x ∈ edges g → back x → (gap ρ f ≤ gap ρ x)%Z.
Proof.
  intros Hw C Hr Hj Hneg. destruct (parent_node t r R v p Hv Hp) as [Hnp _].
  assert (∀ a b, hasEdge g1 a b None = hasEdge g a b None) as Hh by (destruct (rk_shape _ _ _ Hr) as (ns & ->); done). destruct (ranked_edges _ _ _ Hr) as (He1 & _).
  assert (hasEdge g p v None = negb (hasEdge g v p None)) as Hopp.
  { destruct (sign_cases g t r D R S v p Hv Hp) as [(-> & _ & _ & Hs)|(-> & _ & _ & Hs)]; unfold sign in Hs; by destruct (hasEdge g p v None). }
  assert ((if hasEdge g1 (ev e) (ew e) None then (ev e, ew e) else (ew e, ev e)) = if hasEdge g v p None then (v, p) else (p, v)) as Hvw.
  { rewrite Hh. destruct Hj as [[-> ->]|[-> ->]]; [done|]. rewrite Hopp. by destruct (hasEdge g v p None). }
  destruct (ro_label _ _ R v Hv) as (lov & liv & Lv1 & Lv2 & _), (ro_label _ _ R p Hnp) as (lop & lip & Lp1 & Lp2 & _). pose proof (ro_nest _ _ R _ _ _ _ _ _ Hv Hp Lv1 Lv2 Lp1 Lp2) as [_ Hlt].
  unfold limOf in Lv2, Lp2. destruct (it_label _ T v Hv) as [lv Hlv], (it_label _ T p Hnp) as [lp Hlp]. rewrite Hlv in Lv2. rewrite Hlp in Lp2. cbn in Lv2, Lp2.
  assert (enterEdge t g1 e = (candidates <-- res_fold (candidate t lv (negb (hasEdge g v p None))) [] (edges g) ;; cs <-- res_fold (λ cs e, s <-- slack g1 e ;; Ok (cs ++ [(e, s)])) [] candidates ;; Ok (fst <$> minBy cs snd))) as ->.
  { unfold enterEdge. rewrite Hvw, He1. destruct (hasEdge g v p None); rewrite Hlv, Hlp; cbn [of_option res_bind]; rewrite Lv2, Lp2; [rewrite bool_decide_false by lia|rewrite bool_decide_true by lia]; done. }
  rewrite (res_fold_pick (candidate t lv (negb (hasEdge g v p None))) back).
  2:{ intros acc x Hx. destruct (edges_nodes g x (lb_wf _ (sd_labelled _ D)) Hx) as [Ha Hb]. apply (sp_node _ _ S) in Ha, Hb. destruct (it_label _ T _ Ha) as [la Hla], (it_label _ T _ Hb) as [lb Hlb].
      unfold candidate. rewrite Hla, Hlb. cbn [of_option res_bind]. pose proof (back_desc x) as Hbd. unfold desc in Hbd. rewrite Hla, Hlb, Hlv in Hbd. f_equal.
      destruct (Bool.eqb _ (isDescendant la lv)), (Bool.eqb _ (isDescendant lb lv)); case_decide as Hd; cbn; try done; naive_solver. }
  cbn [res_bind]. destruct (back_exists N Hw C Hneg) as (x0 & Hx0 & Hb0).
  destruct (least_slack ρ g1 (filter back (edges g)) Hr) as (cs & f & -> & Hmin & [Hbf Hf]%list_elem_of_filter & Hle).
  - intros Hnil. assert (x0 ∈ filter back (edges g)) as Hin by (by apply list_elem_of_filter). rewrite Hnil in Hin. by apply elem_of_nil in Hin.
  - intros x [_ Hx]%list_elem_of_filter. done.
  - exists f. cbn [res_bind]. rewrite Hmin. split_and!; [done..|]. intros x Hx Hb. apply Hle. by apply list_elem_of_filter.
Qed.
End Enter.
