(* ===== verification/DagreSimplexExchange.v ===== *)
(** * dagre: exchanging a tree edge

    [exchangeEdges] removes the leaving edge from the tree and adds the entering one, numbers the tree again and recomputes
    cut values and ranks.  The result is a spanning tree of tight edges again, the ranks stay feasible, and the total length
    changes by the cut value of the leaving edge times the slack of the entering one. *)
From Stdlib Require Import QArith_base.
Local Close Scope Q_scope.
From S2P Require Import Prelude JsObject Graphlib GraphWf GraphInv GraphQuery GraphView GraphAlg GraphDfs Lodash LodashSpec.
From S2P Require Import DagreTypes DagreRank DagreTree DagreRankClaims DagreBk DagreCross DagreOrderClaims DagreNormalize DagreSimplex DagreSimplexTree DagreSimplexFlow DagreSimplexCut DagreSimplexEnter.

(** ** The tree without one edge and with another *)

Section Swap.
Notation tree := (Graph unit treeNode treeEdge).
Implicit Types (t : tree) (u v w p q r : string) (x e f : edgeObj).

Record swapped t e f t2 : Prop := {
  sw_wf : wf t2;
  sw_undirected : isDirected t2 = false;
  sw_node : ∀ u, oget (nodes_ t2) u = oget (nodes_ t) u;
  sw_edge : ∀ x, x ∈ edges t2 ↔ x = edgeArgsToObj false (ev f) (ew f) None ∨ (x ∈ edges t ∧ x ≠ e);
  sw_count : length (edges t2) = length (edges t);
  sw_label : ∀ x, x ∈ edges t2 → ename x = None ∧ is_Some (edgeOf t2 x)
}.

(** Removing an edge. *)
Lemma removeEdge_tree t e : is_tree t → e ∈ edges t →
  ∃ t1, removeEdge t (ev e) (ew e) None = Ok t1 ∧ wf t1 ∧ isDirected t1 = false ∧ nodes_ t1 = nodes_ t ∧
    edgeObjs_ t1 = odel (edgeObjs_ t) (edgeObjToId false e) ∧ edgeLabels_ t1 = odel (edgeLabels_ t) (edgeObjToId false e) ∧ ∀ x, x ∈ edges t1 ↔ x ∈ edges t ∧ x ≠ e.
Proof.
  intros T He. pose proof (it_wf _ T) as Hwf. pose proof (it_undirected _ T) as Hd. set (i := edgeObjToId false e).
  assert (removeEdge t (ev e) (ew e) None = removeEdgeById t i) as Hre.
  { unfold removeEdge, i, edgeObjToId. rewrite Hd. by destruct (it_edge _ T e He) as [-> _]. }
  destruct (removeEdgeById_ok t i _ _ (wf_edges _ Hwf)) as (t1 & H1 & _ & Ho & Hl & Hn & _ & _ & _ & Hd1 & _). destruct (removeEdgeById_wf t i Hwf) as (t1' & H1' & Hwf1). assert (t1' = t1) as -> by congruence.
  exists t1. rewrite Hre. split_and!; [done|done|congruence|done|done|done|]. intros x. unfold edges. rewrite !elem_of_ovalues. setoid_rewrite Ho. setoid_rewrite oget_odel. destruct (edges_entry t e Hwf He) as [Hei _]. rewrite Hd in Hei. fold i in Hei. split.
  - intros (k & Hk). case_decide as Hik; [done|]. split; [by exists k|]. intros ->. destruct (eok_edge _ _ _ (wf_edges _ Hwf) _ _ Hk) as (Hki & _). rewrite Hd in Hki. done.
  - intros [(k & Hk) Hne]. exists k. rewrite decide_False; [done|]. intros <-. congruence.
Qed.

Lemma swapped_ok t e f : is_tree t → e ∈ edges t → isNode t (ev f) → isNode t (ew f) → ¬ adjacent t (ev f) (ew f) →
  ∃ t1 t2, removeEdge t (ev e) (ew e) None = Ok t1 ∧ setEdge t1 (ev f) (ew f) (Some (Some no_edge)) None = Ok t2 ∧ swapped t e f t2.
Proof.
  intros T He Hfv Hfw Hna. pose proof (it_wf _ T) as Hwf. pose proof (it_undirected _ T) as Hd. destruct (removeEdge_tree t e T He) as (t1 & H1 & Hwf1 & Hd1 & Hn1 & Ho1 & Hl1 & He1).
  assert (plain (ev f) ∧ plain (ew f)) as [Pv Pw] by (by split; apply (wf_plain _ Hwf)).
  destruct (setEdge_ok t1 (ev f) (ew f) (Some (Some no_edge)) None Hwf1 Pv Pw) as (t2 & H2 & P); [done|by left|]. exists t1, t2. split_and!; [done..|].
  set (i := edgeArgsToId false (ev f) (ew f) None). set (xf := edgeArgsToObj false (ev f) (ew f) None). destruct (se_options _ _ _ _ _ _ P) as (Hd2 & _). rewrite Hd1 in Hd2.
  assert (oget (edgeObjs_ t) i = None) as Hnew.
  { destruct (oget (edgeObjs_ t) i) as [y|] eqn:Hy; [|done]. exfalso. apply Hna, (hasEdge_undirected t (ev f) (ew f) Hwf Hd); [intros x Hx; by apply (it_edge _ T)|done|done|].
    unfold hasEdge. rewrite Hd. apply ohas_true, edge_dom; [done|]. fold i. rewrite Hy. by eexists. }
  assert (oget (edgeObjs_ t1) i = None) as Hnew1 by (rewrite Ho1, oget_odel; by case_decide).
  assert (∀ k, oget (edgeObjs_ t2) k = if decide (k = i) then Some xf else oget (edgeObjs_ t1) k) as Hobj.
  { intros k. rewrite (se_obj _ _ _ _ _ _ P), Hd1. fold i xf. case_decide as Hk; [subst k; by rewrite Hnew1|]. by destruct (oget (edgeObjs_ t1) k). }
  assert (∀ x, x ∈ edges t2 ↔ x = xf ∨ (x ∈ edges t ∧ x ≠ e)) as Hedges.
  { intros x. rewrite <-He1. unfold edges. rewrite !elem_of_ovalues. setoid_rewrite Hobj. split.
    - intros [k Hk]. case_decide; [left; congruence|right; eauto].
    - intros [->|[k Hk]]; [exists i; by rewrite decide_True|]. exists k. rewrite decide_False; [done|]. congruence. }
  assert (xf ∉ edges t) as Hxf.
  { intros Hin. destruct (edges_entry t xf Hwf Hin) as [Hx _]. unfold xf in Hx. rewrite Hd, edgeObjToId_Obj in Hx by done. fold i in Hx. congruence. }
  split.
  - apply P.
  - done.
  - intros u. rewrite (se_node _ _ _ _ _ _ P), Hn1. destruct (oget (nodes_ t) u) eqn:Hu; [done|]. rewrite decide_False; [done|]. unfold isNode in *. intros [->| ->]; rewrite Hu in *; [by destruct Hfv|by destruct Hfw].
  - exact Hedges.
  - destruct (list_elem_of_split _ _ He) as (l1 & l2 & Hsp). pose proof (NoDup_edges t Hwf) as Hnd.
    assert (edges t2 ≡ₚ xf :: (l1 ++ l2)) as ->; [|rewrite Hsp; cbn; rewrite !length_app; cbn; lia].
    assert (NoDup (e :: l1 ++ l2)) as [Hel Hndl]%NoDup_cons by (rewrite Permutation_middle, <-Hsp; done).
    assert (∀ x, x ∈ l1 ++ l2 ↔ x ∈ edges t ∧ x ≠ e) as Hl.
    { intros x. rewrite Hsp, !elem_of_app, elem_of_cons. rewrite elem_of_app in Hel. destruct (decide (x = e)) as [->|]; naive_solver. }
    apply NoDup_Permutation; [apply NoDup_edges, P|apply NoDup_cons; split; [rewrite Hl; by intros [? _]|done]|]. intros x. by rewrite elem_of_cons, Hedges, Hl.
  - intros x [->|[Hx Hne]]%Hedges.
    + split; [by unfold xf, edgeArgsToObj; destruct (orient _ _ _)|]. unfold edgeOf, edgeById. rewrite Hd2. unfold xf. rewrite edgeObjToId_Obj by done. fold i. rewrite (se_label _ _ _ _ _ _ P), Hd1. fold i. rewrite decide_True by done. by eexists.
    + destruct (it_edge _ T x Hx) as [Hn [l Hl]]. split; [done|]. exists l. unfold edgeOf, edgeById in *. rewrite Hd in Hl. rewrite Hd2, (se_label _ _ _ _ _ _ P), Hd1. fold i.
      destruct (edges_entry t x Hwf Hx) as [Hxo _]. rewrite Hd in Hxo. rewrite decide_False by congruence. rewrite Hl1, oget_odel, decide_False; [done|]. intros Heq. apply Hne.
      destruct (edges_entry t e Hwf He) as [Heo _]. rewrite Hd, Heq in Heo. congruence.
Qed.

Lemma swapped_adjacent t e f t2 u w : is_tree t → e ∈ edges t → swapped t e f t2 → adjacent t2 u w ↔ joins f u w ∨ (adjacent t u w ∧ ¬ joins e u w).
Proof.
  intros T He W. rewrite !adjacent_joins. setoid_rewrite (sw_edge _ _ _ _ W). pose proof (it_wf _ T) as Hwf. split.
  - intros (x & [->|[Hx Hne]] & Hj).
    + left. unfold edgeArgsToObj in Hj. unfold joins in *. destruct (orient_cases false (ev f) (ew f)) as [Ho|Ho]; rewrite Ho in Hj; cbn in Hj; tauto.
    + right. split; [by exists x|]. intros Hj'. apply Hne. destruct (it_edge _ T x Hx) as [N1 _], (it_edge _ T e He) as [N2 _]. destruct (edges_entry t x Hwf Hx) as [O1 _], (edges_entry t e Hwf He) as [O2 _].
      assert (edgeObjToId (isDirected t) x = edgeObjToId (isDirected t) e) as Heq; [|rewrite Heq in O1; congruence]. unfold edgeObjToId. rewrite N1, N2, (it_undirected _ T).
      destruct Hj as [[-> ->]|[-> ->]], Hj' as [[-> ->]|[-> ->]]; try done; apply edgeArgsToId_sym.
  - intros [Hj|((x & Hx & Hj) & Hn)].
    + eexists. split; [by left|]. unfold edgeArgsToObj, joins in *. destruct (orient_cases false (ev f) (ew f)) as [Ho|Ho]; rewrite Ho; cbn; tauto.
    + exists x. split; [|done]. right. split; [done|]. by intros ->.
Qed.
End Swap.

(** ** Numbering and cutting a tree *)

Section Rebuild.
Context {L : Type}.
Notation graph := (Graph L nodeLabel edgeLabel).
Notation tree := (Graph unit treeNode treeEdge).
Implicit Types (t : tree) (u v w p : string) (x e f : edgeObj) (ρ N : string → Z).

(** A spanning tree made of edges of the graph. *)
Record tree_of (g : graph) t : Prop := {
  to_tree : is_tree t;
  to_node : ∀ v, isNode t v ↔ isNode g v;
  to_along : ∀ u w, adjacent t u w → arrow g u w ∨ arrow g w u
}.

Lemma tree_of_spans g t r : tree_of g t → rooted t r → spans g t.
Proof.
  intros H R. split; [apply H|]. intros v p Hv Hp. destruct (ro_adjacent _ _ R v p Hv Hp) as [_ Ha]. destruct (to_along _ _ H p v Ha); tauto.
Qed.

Lemma relabelled_tree t h t' : is_tree t → relabelled t h t' → is_tree t'.
Proof.
  intros [T1 T2 T3 T4 T5 T6 T7] Rl. destruct (relabelled_edges _ _ _ Rl) as (He & Heo & _). pose proof (λ v, relabelled_isNode _ _ _ v Rl) as Hn. split.
  - apply Rl.
  - destruct (rl_shape _ _ _ Rl) as (ns & ->). done.
  - intros v Hv%Hn. destruct (T3 v Hv) as [l Hl]. rewrite (relabelled_node _ _ _ v Rl), Hl. by eexists.
  - rewrite Hn. done.
  - intros u v Hu%Hn Hv%Hn. pose proof (T5 u v Hu Hv) as Hc. eapply (rtc_congruence id); [|exact Hc]. intros a b. unfold adjacent, arrow. by rewrite He.
  - rewrite He, <-T6. apply Permutation_length, NoDup_Permutation; [apply NoDup_nodes, Rl|by apply NoDup_nodes|]. intros v. rewrite !elem_of_nodes. apply Hn.
  - intros x Hx. rewrite He in Hx. rewrite Heo. by apply T7.
Qed.

Lemma rebuild_ok g t g1 ρ : simple_dag g → tree_of g t → has_ranks g ρ g1 →
  ∃ t1 t2 r N, initLowLimValues t = Ok t1 ∧ initCutValues t1 g1 = Ok t2 ∧ tree_of g t2 ∧ rooted t2 r ∧ cut_values g t2 N ∧ edges t2 = edges t.
Proof.
  intros D H Hr. destruct (initLowLimValues_ok t (to_tree _ _ H)) as (t1 & r & h & H1 & Rl & R1). pose proof (relabelled_tree t h t1 (to_tree _ _ H) Rl) as T1.
  destruct (relabelled_edges _ _ _ Rl) as (He & _). assert (tree_of g t1) as Ht1.
  { split; [done| |]. - intros v. rewrite (relabelled_isNode _ _ _ v Rl). apply H. - intros u w. unfold adjacent, arrow at 1 2. rewrite He. apply (to_along _ _ H). }
  destruct (initCutValues_ok g t1 r D T1 R1 (tree_of_spans g t1 r Ht1 R1)) as (t2 & N & c & H2 & W & C). destruct (with_cuts_tree t1 r c t2 T1 R1 W) as [T2 R2]. destruct (with_cuts_same t1 c t2 (it_wf _ T1) W) as (_ & Hn2 & He2 & _).
  exists t1, t2, r, N. split_and!; [done| | |done|done|by rewrite He2].
  - rewrite <-H2. destruct (rk_shape _ _ _ Hr) as (ns & ->). reflexivity.
  - split; [done| |].
    + intros v. rewrite <-elem_of_nodes, Hn2, elem_of_nodes. apply Ht1.
    + intros u w. unfold adjacent, arrow at 1 2. rewrite He2. apply (to_along _ _ Ht1).
Qed.

(** What the loop keeps. *)
Record simplex_state (g : graph) t (g1 : graph) ρ : Prop := {
  ss_tree : tree_of g t;
  ss_rooted : ∃ r, rooted t r;
  ss_ranks : has_ranks g ρ g1;
  ss_feasible : feasible_ranks g ρ;
  ss_tight : tight_on g t ρ;
  ss_cuts : ∃ N, cut_values g t N
}.
End Rebuild.

(** ** The exchange *)

Section Exchange.
Context {L : Type}.
Notation graph := (Graph L nodeLabel edgeLabel).
Notation tree := (Graph unit treeNode treeEdge).
Implicit Types (u w : string) (x : edgeObj) (ρ N : string → Z).
Context (g : graph) (D : simple_dag g) (t : tree) (r v p : string) (H : tree_of g t) (R : rooted t r) (Hv : isNode t v) (Hp : parentOf t v = Some p).
Context (e f : edgeObj) (He : e ∈ edges t) (Hj : joins e v p) (Hf : f ∈ edges g) (Hb : back g t v p f).

Notation S := (tree_of_spans g t r H R).
Notation side := (side t v).

(** Adjacent nodes are on the same side unless they are the ends of the leaving edge. *)
Lemma side_adjacent u w : adjacent t u w → ¬ joins e u w → desc t v u = desc t v w.
Proof.
  intros Ha Hn. destruct (adjacent_node t u w (it_wf _ (to_tree _ _ H)) Ha) as [Hu Hw]. apply adjacent_joins in Ha as (x & Hx & Hxj).
  assert (parentOf t u = Some w ∨ parentOf t w = Some u) as [Hq|Hq].
  { destruct (ro_edge _ _ R x Hx), Hxj as [[<- <-]|[<- <-]]; tauto. }
  - rewrite (desc_up t r R u v w Hu Hv Hq). rewrite decide_False; [done|]. intros ->. assert (w = p) as -> by congruence. done.
  - rewrite (desc_up t r R w v u Hw Hv Hq). rewrite decide_False; [done|]. intros ->. assert (u = p) as -> by congruence. apply Hn. unfold joins in *. tauto.
Qed.

Lemma back_sides : desc t v (ev f) ≠ desc t v (ew f).
Proof. unfold back, DagreSimplexEnter.side, sign in Hb. destruct (desc t v (ev f)), (desc t v (ew f)), (hasEdge g v p None); done. Qed.

Lemma entering_nodes : isNode t (ev f) ∧ isNode t (ew f).
Proof. rewrite !(to_node _ _ H). apply edges_nodes; [apply D|done]. Qed.

(** The entering edge is not in the tree. *)
Lemma entering_new : ¬ adjacent t (ev f) (ew f).
Proof.
  intros Ha. assert (joins e (ev f) (ew f)) as Hj'.
  { unfold joins. destruct (decide (joins e (ev f) (ew f))) as [?|Hn]; [done|]. by destruct back_sides; apply side_adjacent. }
  destruct (desc_parent t r R v p Hv Hp) as [D1 D2]. unfold back, DagreSimplexEnter.side in Hb.
  assert (arrow g (ev f) (ew f)) as Harr by (by exists f).
  assert ((ev f = v ∧ ew f = p) ∨ (ev f = p ∧ ew f = v)) as [[E1 E2]|[E1 E2]] by (destruct Hj as [[A B]|[A B]], Hj' as [[A' B']|[A' B']]; rewrite <-A', <-B', A, B; tauto).
  all: rewrite E1, E2 in Harr; rewrite E1, E2, D1, D2 in Hb; destruct (sign_cases g t r D R S v p Hv Hp) as [(_ & Ha' & Hs & _)|(_ & Ha' & Hs & _)]; rewrite Hs in Hb; try done; by apply (sd_asym g _ _ D Ha').
Qed.

Context (t2 : tree) (W : swapped t e f t2).
Notation T := (to_tree _ _ H).

Lemma swapped_isNode u : isNode t2 u ↔ isNode t u.
Proof. unfold isNode. by rewrite (sw_node _ _ _ _ W). Qed.

(** Every node is still connected to the end of the leaving edge on its side. *)
Lemma swapped_reach u : isNode t u → rtc (adjacent t2) (if desc t v u then v else r) u.
Proof.
  destruct (tree_dfs t r false T R) as (n & _ & _ & F & _ & Hn). destruct (parent_node t r R v p Hv Hp) as [_ Hvr].
  assert (isNode t r) as Hr by (apply Hn; by left). pose proof (desc_root t r R v Hv Hvr Hr) as Hdr.
  assert (∀ l1 l2, n = l1 ++ l2 → ∀ u, u ∈ l1 → rtc (adjacent t2) (if desc t v u then v else r) u) as Hall.
  { intros l1. induction l1 as [|w l1 IH] using rev_ind; intros l2 Heq u' Hu'; [by apply elem_of_nil in Hu'|]. rewrite <-app_assoc in Heq. cbn in Heq.
    apply elem_of_app in Hu' as [Hu'| ->%list_elem_of_singleton]; [by apply (IH _ Heq)|]. assert (isNode t w) as Hw by (apply Hn; right; rewrite Heq; set_solver).
    destruct (decide (w = v)) as [->|Hne]; [by rewrite (proj1 (desc_parent t r R v p Hv Hp))|].
    destruct (F l1 w l2 Heq) as (q & Hq & Hin). destruct (ro_adjacent _ _ R w q Hw Hq) as [Hnq Ha]. rewrite (desc_up t r R w v q Hw Hv Hq), decide_False by done.
    assert (rtc (adjacent t2) (if desc t v q then v else r) q) as Hrq by (destruct Hin as [->|Hin]; [by rewrite Hdr|by apply (IH _ Heq)]).
    eapply rtc_r; [exact Hrq|]. apply (swapped_adjacent t e f t2 q w T He W). right. split; [done|]. intros Hjq.
    assert ((q = v ∧ w = p) ∨ (q = p ∧ w = v)) as [[-> ->]|[_ ?]] by (destruct Hj as [[A B]|[A B]], Hjq as [[A' B']|[A' B']]; rewrite <-A', <-B', A, B; tauto); [|done].
    by apply (rooted_asym t r v p R). }
  intros Hu. apply Hn in Hu as [->|Hu]%elem_of_cons; [by rewrite Hdr|]. apply (Hall n []); [by rewrite app_nil_r|done].
Qed.

Lemma swapped_connected u w : isNode t u → isNode t w → rtc (adjacent t2) u w.
Proof.
  assert (rtc (adjacent t2) r v) as Hrv.
  { destruct entering_nodes as [Ha Hw]. pose proof (swapped_reach _ Ha) as H1. pose proof (swapped_reach _ Hw) as H2. pose proof back_sides as Hne.
    assert (adjacent t2 (ev f) (ew f)) as Hadj by (apply (swapped_adjacent t e f t2 _ _ T He W); left; by left).
    destruct (desc t v (ev f)), (desc t v (ew f)); try done.
    - etrans; [exact H2|]. eapply rtc_l; [by apply adjacent_sym|]. by apply connected_sym.
    - etrans; [exact H1|]. eapply rtc_l; [done|]. by apply connected_sym. }
  assert (∀ u, isNode t u → rtc (adjacent t2) r u) as Hall.
  { intros u' Hu'. pose proof (swapped_reach u' Hu') as Hr'. destruct (desc t v u'); [by etrans|done]. }
  intros Hu Hw. etrans; [apply connected_sym; by apply Hall|by apply Hall].
Qed.

Lemma swapped_tree : tree_of g t2.
Proof.
  split; [split|..].
  - apply W.
  - apply W.
  - intros u Hu%swapped_isNode. unfold node. rewrite (sw_node _ _ _ _ W). by apply (it_label _ T).
  - rewrite swapped_isNode. apply (it_name _ T).
  - intros u w Hu%swapped_isNode Hw%swapped_isNode. by apply swapped_connected.
  - rewrite (sw_count _ _ _ _ W), <-(it_count _ T). apply Permutation_length, NoDup_Permutation; [apply NoDup_nodes, W|apply NoDup_nodes, T|]. intros u. rewrite !elem_of_nodes. apply swapped_isNode.
  - apply W.
  - intros u. rewrite swapped_isNode. apply (to_node _ _ H).
  - intros u w [[[<- <-]|[<- <-]]|[Ha _]]%(swapped_adjacent t e f t2 u w T He W); [left; by exists f|right; by exists f|by apply (to_along _ _ H)].
Qed.

(** ** The new ranks *)

(** The lower side moves by the slack of the entering edge; the ranks are fixed at [r']. *)
Definition moved (r' : string) ρ u : Z := (ρ u - sign g v p * gap g ρ f * (side u - side r'))%Z.

Lemma moved_tight r' ρ : tight_on g t ρ → tight_on g t2 (moved r' ρ).
Proof.
  intros Ht x Hx Ha. unfold moved. apply (swapped_adjacent t e f t2 _ _ T He W) in Ha as [Hjx|[Ha Hn]].
  - assert (x = f) as ->.
    { pose proof (sd_name _ D x Hx) as Nx. pose proof (sd_name _ D f Hf) as Nf. assert (arrow g (ev x) (ew x)) as A1 by (by exists x). assert (arrow g (ev f) (ew f)) as A2 by (by exists f).
      destruct Hjx as [[E1 E2]|[E1 E2]]; [destruct x, f; cbn in *; congruence|]. rewrite E1, E2 in A2. by apply (sd_asym g _ _ D A1) in A2. }
    unfold back in Hb. assert (sign g v p * gap g ρ f * (side (ew f) - side (ev f)) = gap g ρ f)%Z as Hg by (rewrite Hb; unfold sign; destruct (hasEdge g v p None); lia). unfold gap in Hg |- *. lia.
  - specialize (Ht x Hx Ha). pose proof (side_adjacent _ _ Ha Hn) as Hs. unfold DagreSimplexEnter.side. rewrite Hs. lia.
Qed.

Lemma moved_feasible r' ρ : feasible_ranks g ρ → (∀ x, x ∈ edges g → back g t v p x → (gap g ρ f ≤ gap g ρ x)%Z) → feasible_ranks g (moved r' ρ).
Proof.
  intros Hfe Hmin x Hx. pose proof (Hfe x Hx) as Hxf. pose proof (Hfe f Hf) as Hff. assert (0 ≤ gap g ρ f)%Z by (unfold gap; lia). unfold moved.
  destruct (decide (back g t v p x)) as [Hbx|Hbx].
  - specialize (Hmin x Hx Hbx). unfold back in Hbx. assert (sign g v p * gap g ρ f * (side (ew x) - side (ev x)) = gap g ρ f)%Z as Hg by (rewrite Hbx; unfold sign; destruct (hasEdge g v p None); lia). unfold gap in *. lia.
  - unfold back, DagreSimplexEnter.side, sign in *. destruct (desc t v (ew x)), (desc t v (ev x)), (hasEdge g v p None); nia.
Qed.

Lemma moved_total r' ρ N : cut_values g t N → total g (moved r' ρ) = (total g ρ + sign g v p * N v * gap g ρ f)%Z.
Proof.
  intros C. pose proof (total_side g t r D T R S v p Hv Hp N C) as Hs. unfold total, wlen in *.
  rewrite (zsum_ext _ (λ x, weight_of g x * (ρ (ew x) - ρ (ev x)) + (- (sign g v p * gap g ρ f)) * (weight_of g x * (side (ew x) - side (ev x))))%Z) by (intros x _; unfold moved; lia).
  rewrite zsum_add, zsum_mul, Hs. lia.
Qed.
End Exchange.
