(* ===== verification/DagreSimplexStart.v ===== *)
(** * dagre: where network simplex starts

    [simplify] gives a graph without parallel edges in which every weighted sum over the edges has the same value; the tree
    of [feasibleTree] has labels on all its nodes and edges, so that it can be numbered. *)
From Stdlib Require Import QArith_base.
Local Close Scope Q_scope.
From S2P Require Import Prelude JsObject Graphlib GraphWf GraphInv GraphQuery GraphView GraphAlg GraphDfs Lodash LodashSpec.
From S2P Require Import DagreTypes DagreRank DagreTree DagreRankClaims DagreBk DagreCross DagreOrderClaims DagreNormalize DagreSimplex DagreSimplexTree DagreSimplexFlow DagreSimplexCut DagreSimplexEnter DagreSimplexExchange.

(** ** The labels of the tight tree *)

Section Labels.
Context {L : Type}.
Notation graph := (Graph L nodeLabel edgeLabel).
Notation tree := (Graph unit treeNode treeEdge).
Implicit Types (t : tree) (u v w : string) (x e : edgeObj).
Context (g : graph) (Hwf : wf g).

Record label_tree t : Prop := {
  lt_wf : wf t;
  lt_node : ∀ u, isNode t u → isNode g u;
  lt_nlabel : ∀ u l, oget (nodes_ t) u = Some l → is_Some l;
  lt_elabel : ∀ k l, oget (edgeLabels_ t) k = Some l → is_Some l;
  lt_name : ∀ k x, oget (edgeObjs_ t) k = Some x → ename x = None
}.

Lemma label_tree_setNode t w t' : label_tree t → isNode g w → setNode t w (Some (Some no_node)) = Ok t' → label_tree t' ∧ isNode t' w ∧ ∀ u, isNode t u → isNode t' u.
Proof.
  intros [H1 H2 H3 H4 H5] Hw Hs. destruct (setNode_ok t w (Some (Some no_node)) H1) as (t1 & Hs' & P); [by apply (wf_plain _ Hwf)|]. assert (t1 = t') as -> by congruence.
  destruct (sn_edges _ _ _ _ P) as [E1 E2]. pose proof (λ u, setNode_isNode _ _ _ _ u P) as Hn. split_and!; [split|apply Hn; by left|intros u Hu; apply Hn; by right].
  - apply P.
  - intros u [->|Hu]%Hn; [done|by apply H2].
  - intros u l. rewrite (sn_label _ _ _ _ P). case_decide; [intros [= <-]; by eexists|apply H3].
  - intros k l. rewrite E2. apply H4.
  - intros k x. rewrite E1. apply H5.
Qed.

Lemma label_tree_setEdge t v w t' : label_tree t → isNode t v → isNode t w → setEdge t v w (Some (Some no_edge)) None = Ok t' → label_tree t' ∧ ∀ u, isNode t' u ↔ isNode t u.
Proof.
  intros [H1 H2 H3 H4 H5] Hv Hw Hs. destruct (setEdge_ok t v w (Some (Some no_edge)) None H1) as (t1 & Hs' & P); [by apply (wf_plain _ H1)..|done|by left|]. assert (t1 = t') as -> by congruence.
  assert (∀ u, oget (nodes_ t') u = oget (nodes_ t) u) as Hn.
  { intros u. rewrite (se_node _ _ _ _ _ _ P). destruct (oget (nodes_ t) u) eqn:Hu; [done|]. rewrite decide_False; [done|]. unfold isNode in *. intros [->| ->]; rewrite Hu in *; [by destruct Hv|by destruct Hw]. }
  assert (∀ u, isNode t' u ↔ isNode t u) as Hn' by (intros u; unfold isNode; by rewrite Hn). split; [split|done].
  - apply P.
  - intros u Hu%Hn'. by apply H2.
  - intros u l. rewrite Hn. apply H3.
  - intros k l. rewrite (se_label _ _ _ _ _ _ P). case_decide; [intros [= <-]; by eexists|apply H4].
  - intros k x. rewrite (se_obj _ _ _ _ _ _ P). destruct (oget (edgeObjs_ t) k) as [y|] eqn:Hy; [intros [= <-]; by eapply H5|]. case_decide; [|done]. intros [= <-]. unfold edgeArgsToObj. by destruct (orient _ _ _).
Qed.

Lemma tt_dfs_labels fuel t v t' : label_tree t → isNode t v → tt_dfs fuel g t v = Ok t' → label_tree t' ∧ ∀ u, isNode t u → isNode t' u.
Proof.
  revert t v t'. induction fuel as [|fuel IH]; intros t v t' Ht Hv Hd; [done|]. cbn [tt_dfs] in Hd.
  destruct (nodeEdges_spec g v Hwf (lt_node _ Ht v Hv)) as (es & Hes & Hel). rewrite Hes in Hd. cbn [default from_option id] in Hd.
  assert (∀ x, x ∈ es → isNode g (across v x)) as Hac by (intros x [Hx _]%Hel; destruct (edges_nodes g x Hwf Hx); unfold across; by case_decide).
  clear Hes Hel. revert t Ht Hv Hd. induction es as [|x es IHes]; intros t Ht Hv Hd; [injection Hd as <-; done|]. cbn [res_fold] in Hd.
  assert (∀ y, y ∈ es → isNode g (across v y)) as Hac' by (intros y Hy; apply Hac; by right). specialize (IHes Hac').
  destruct (hasNode t (across v x)) eqn:Hh; [cbn [res_bind] in Hd; by apply IHes|]. destruct (slack g x) as [s|]; [|done]. cbn [res_bind] in Hd.
  case_decide; [|cbn [res_bind] in Hd; by apply IHes]. destruct (setNode t _ _) as [t1|] eqn:H1; [|done]. cbn [res_bind] in Hd. destruct (setEdge t1 _ _ _ _) as [t2|] eqn:H2; [|done]. cbn [res_bind] in Hd.
  destruct (tt_dfs fuel g t2 (across v x)) as [t3|] eqn:H3; [|done]. cbn [res_bind] in Hd.
  destruct (label_tree_setNode t (across v x) t1 Ht) as (L1 & Hw1 & M1); [apply Hac; by left|done|]. destruct (label_tree_setEdge t1 v (across v x) t2 L1) as (L2 & M2); [auto|done|done|].
  destruct (IH t2 (across v x) t3 L2) as (L3 & M3); [by apply M2|done|]. destruct (IHes t3 L3) as (L4 & M4); [by apply M3, M2, M1|done|]. split; [done|]. intros u Hu. apply M4, M3, M2, M1, Hu.
Qed.

Lemma tightTree_labels t r : label_tree t → tightTree t g = Ok r → label_tree r.2.
Proof.
  intros Ht. unfold tightTree. destruct (res_fold _ _ _) as [t1|] eqn:Hr; [|done]. cbn. intros [= <-]. cbn.
  assert (∀ v, v ∈ nodes t → isNode t v) as Hvs by (intros v; by rewrite elem_of_nodes). revert Hr Ht Hvs. generalize (nodes t). intros vs. revert t.
  induction vs as [|v vs IH]; intros t Hr Ht Hvs; cbn [res_fold] in Hr; [by injection Hr as <-|]. destruct (tt_dfs _ g t v) as [t2|] eqn:H2; [|done]. cbn [res_bind] in Hr.
  destruct (tt_dfs_labels (S (length (nodes g))) t v t2 Ht) as [L2 M2]; [apply Hvs; by left|done|]. apply (IH t2 Hr L2). intros u Hu. apply M2, Hvs. by right.
Qed.
End Labels.

Section LoopLabels.
Context {L : Type}.
Notation graph := (Graph L nodeLabel edgeLabel).
Notation tree := (Graph unit treeNode treeEdge).
Implicit Types (g : graph) (t : tree) (u v w : string).

Lemma updNode_keeps g v h g' : wf g → updNode g v h = Ok g' → wf g' ∧ ∀ u, isNode g' u ↔ isNode g u.
Proof.
  intros Hwf. unfold updNode. destruct (node g v) as [l|] eqn:Hl; [|done]. cbn. intros [= <-].
  assert (isNode g v) as Hv by (unfold node in Hl; unfold isNode; destruct (oget (nodes_ g) v); [by eexists|done]). split; [by apply wf_relabel|].
  intros u. unfold isNode. cbn. rewrite oget_oset. case_decide; [|done]. subst. split; [done|by eexists].
Qed.

Lemma shiftRanks_keeps t g d g' : wf g → shiftRanks t g d = Ok g' → wf g' ∧ ∀ u, isNode g' u ↔ isNode g u.
Proof.
  intros Hwf Hs. refine (res_fold_keep _ (λ g1, wf g1 ∧ ∀ u, isNode g1 u ↔ isNode g u) _ _ _ _ Hs _); [|done].
  intros g1 v g2 [H1 H2] Hu. destruct (updNode_keeps _ _ _ _ H1 Hu) as [? H3]. split; [done|]. intros u. by rewrite H3.
Qed.

Lemma feasible_loop_labels fuel t g size r : wf g → label_tree g t → feasible_loop fuel t g size = Ok r → label_tree g r.1.
Proof.
  revert t g. induction fuel as [|fuel IH]; intros t g Hwf Ht; cbn [feasible_loop]; (destruct (tightTree t g) as [[n t1]|] eqn:H1; [|done]); cbn [res_bind fst snd];
    pose proof (tightTree_labels g Hwf t _ Ht H1) as L1; cbn in L1; (case_decide; [|by intros [= <-]]); [done|].
  destruct (findMinSlackEdge t1 g) as [oe|]; [|done]. cbn [res_bind]. destruct oe as [x|]; [|done]. cbn [of_option res_bind]. destruct (slack g x) as [s|]; [|done]. cbn [res_bind].
  destruct (shiftRanks t1 g _) as [g2|] eqn:H2; [|done]. cbn [res_bind]. intros H3. destruct (shiftRanks_keeps _ _ _ _ Hwf H2) as [Hwf2 Hn].
  assert (label_tree g2 r.1) as [A1 A2 A3 A4 A5].
  { apply (IH t1 g2 Hwf2); [|done]. destruct L1 as [B1 B2 B3 B4 B5]. split; try done. intros u Hu. by apply Hn, B2. }
  split; try done. intros u Hu. by apply Hn, A2.
Qed.

Lemma feasibleTree_labels g r : wf g → nodes g ≠ [] → feasibleTree g = Ok r → label_tree g r.1.
Proof.
  intros Hwf Hne. unfold feasibleTree. destruct (nodes g) as [|start vs] eqn:Hns; [done|]. cbn [head default from_option id]. assert (isNode g start) as Hs by (apply elem_of_nodes; rewrite Hns; by left).
  destruct (setNode _ start _) as [t|] eqn:Ht; [|done]. cbn [res_bind]. apply feasible_loop_labels; [done|].
  eapply (label_tree_setNode g Hwf (newGraph false false false) start t); [|done|done]. split; try done; [apply newGraph_wf|by intros u [? ?]].
Qed.

(** The tree that [feasibleTree] returns for a simple graph. *)
Lemma feasible_tree_of g ρ start t : simple_dag g → ¬ isNode g ""%string → label_tree g t → tight_tree g ρ start t → (∀ u, isNode t u ↔ isNode g u) → tree_of g t.
Proof.
  intros D Hname [A1 A2 A3 A4 A5] [T1 T2 T3 T4 T5 T6 T7] Hn. split; [split; try done|done|].
  - intros v [l Hl]. unfold node. rewrite Hl. by destruct (A3 v l Hl) as [l' ->].
  - by rewrite Hn.
  - intros u v Hu Hv. etrans; [apply connected_sym; by apply T6|by apply T6].
  - intros x Hx. destruct (edges_entry t x T1 Hx) as [Ho _]. split; [by eapply A5|]. unfold edgeOf, edgeById. destruct (proj1 (edge_dom t (edgeObjToId (isDirected t) x) T1)) as [l Hl]; [by eexists|]. rewrite Hl. by destruct (A4 _ l Hl) as [l' ->].
  - intros u w (x & Hx & Hj)%adjacent_joins. destruct (T5 x Hx) as (e & He & _ & Hends). assert (arrow g (ev e) (ew e)) as Ha by (by exists e).
    destruct Hj as [[E1 E2]|[E1 E2]], Hends as [[F1 F2]|[F1 F2]]; rewrite <-E1, <-E2, F1, F2; tauto.
Qed.
End LoopLabels.

(** ** [simplify] *)

Section Simplify.
Context {L : Type}.
Notation graph := (Graph L nodeLabel edgeLabel).
Implicit Types (g s : graph) (u v w : string) (x y e : edgeObj) (ρ : string → Z).

Definition merged e : edgeObj := EdgeObj (ev e) (ew e) None.

(** [s] is the simplified graph after the edges [dn] of [g]. *)
Record simplified g (dn : list edgeObj) s : Prop := {
  sm_digraph : digraph s;
  sm_node : ∀ u, oget (nodes_ s) u = oget (nodes_ g) u;
  sm_name : ∀ x, x ∈ edges s → ename x = None ∧ is_Some (edgeOf s x);
  sm_edge : ∀ x, x ∈ edges s ↔ ∃ y, y ∈ dn ∧ x = merged y;
  sm_sum : ∀ h : string → string → Z, zsum (λ x, weight_of s x * h (ev x) (ew x))%Z (edges s) = zsum (λ y, weight_of g y * h (ev y) (ew y))%Z dn;
  sm_len : ∀ ρ, feasible_ranks s ρ ↔ ∀ y, y ∈ dn → (Z.max 1 (len g y) ≤ ρ (ew y) - ρ (ev y))%Z;
  sm_weight : (∀ y, y ∈ dn → (0 ≤ weight_of g y)%Z) → weights_nonneg s;
  sm_attained : ∀ x, x ∈ edges s → len s x = 1%Z ∨ ∃ y, y ∈ dn ∧ x = merged y ∧ len s x = len g y
}.

Lemma simplify_start g : DagreRank.labelled g →
  ∃ s, res_fold (λ s v, setNode s v (Some (node g v))) (setGraph (newGraph true false false) (Graphlib.graph g)) (nodes g) = Ok s ∧ simplified g [] s ∧ isMultigraph s = false.
Proof.
  intros Hlb. pose proof (lb_wf _ Hlb) as Hwf. set (s0 := setGraph _ _).
  destruct (res_fold_inv (λ s v, setNode s v (Some (node g v))) (λ dn s, wf s ∧ isDirected s = true ∧ isMultigraph s = false ∧ edgeObjs_ s = [] ∧ ∀ u, oget (nodes_ s) u = if decide (u ∈ dn) then oget (nodes_ g) u else None) (nodes g) s0) as (s & Hs & Hwfs & Hd & Hm & He & Hn).
  - split_and!; [apply (setGraph_wf (newGraph true false false)), newGraph_wf|done|done|done|]. intros u. by rewrite decide_False by apply not_elem_of_nil.
  - intros dn v rest s Heq (Hwfs & Hd & Hm & He & Hn). assert (isNode g v) as Hv by (apply elem_of_nodes; rewrite Heq; set_solver). destruct (lb_node _ Hlb v Hv) as [l Hl].
    destruct (setNode_ok s v (Some (node g v)) Hwfs) as (s' & Hs' & P); [by apply (wf_plain _ Hwf)|]. exists s'. destruct (sn_edges _ _ _ _ P) as [E1 _]. destruct (sn_options _ _ _ _ P) as (O1 & O2 & _).
    split_and!; [done|apply P|congruence|congruence|congruence|]. intros u. rewrite (sn_label _ _ _ _ P), Hn. destruct (decide (u = v)) as [->|Hne].
    + rewrite decide_True by set_solver. rewrite Hl. unfold set_label, node. by rewrite Hl.
    + destruct (decide (u ∈ dn)); [by rewrite decide_True by set_solver|by rewrite decide_False by set_solver].
  - exists s. split_and!; [done| |done]. assert (edges s = []) as Hed by (unfold edges; by rewrite He). split.
    + split; [done|done|]. intros x. rewrite Hed. by intros ?%elem_of_nil.
    + intros u. rewrite Hn. case_decide as Hu; [done|]. rewrite elem_of_nodes in Hu. symmetry. by apply eq_None_not_Some.
    + intros x. rewrite Hed. by intros ?%elem_of_nil.
    + intros x. rewrite Hed. split; [by intros ?%elem_of_nil|by intros (y & ?%elem_of_nil & _)].
    + intros h. by rewrite Hed.
    + intros ρ. unfold feasible_ranks. rewrite Hed. split; intros _ x ?%elem_of_nil; done.
    + intros _ x. rewrite Hed. by intros ?%elem_of_nil.
    + intros x. rewrite Hed. by intros ?%elem_of_nil.
Qed.

(** The edge [e] of [g] has been added to the simple graph [s]. *)
Record edge_merged g s e s' : Prop := {
  em_digraph : digraph s';
  em_node : ∀ u, oget (nodes_ s') u = oget (nodes_ s) u;
  em_edge : edges s' ≡ₚ merged e :: filter (λ y, y ≠ merged e) (edges s);
  em_same : ∀ y, y ∈ edges s → y ≠ merged e → edgeOf s' y = edgeOf s y;
  em_label : is_Some (edgeOf s' (merged e));
  em_weight : weight_of s' (merged e) = (weight_of s (merged e) + weight_of g e)%Z;
  em_fresh : merged e ∉ edges s → weight_of s (merged e) = 0%Z;
  em_len : len s' (merged e) = Z.max (if decide (merged e ∈ edges s) then len s (merged e) else 1) (len g e)
}.

Lemma edge_merged_ok g s e : DagreRank.labelled g → digraph s → (∀ u, oget (nodes_ s) u = oget (nodes_ g) u) → (∀ x, x ∈ edges s → is_Some (edgeOf s x)) → e ∈ edges g →
  ∃ s', simplify_edge g s e = Ok s' ∧ edge_merged g s e s'.
Proof.
  intros Hlb M1 M2 M3 He. pose proof (lb_wf _ Hlb) as Hwf. pose proof (dg_wf _ M1) as Hwfs. destruct (edges_nodes g e Hwf He) as [Hv Hw]. destruct (lb_edge _ Hlb e He) as [l Hl].
  set (x0 := merged e). assert (plain_edge x0) as Hpl by (split_and!; [by apply (wf_plain _ Hwf)..|done]).
  set (sl := default (simple_label 0 1) (edgeOf s x0)). set (new := simple_label (weight sl + weight l) (Z.max (minlen sl) (minlen l))).
  destruct (setEdge_view_ok s x0 (Some (Some new)) M1 Hpl) as (s' & Hs & P); [by left|]. exists s'. split; [unfold simplify_edge; by rewrite Hl|].
  assert (weight_of g e = weight l ∧ len g e = minlen l) as [Hwe Hle] by (unfold weight_of, len; by rewrite Hl).
  assert (x0 ∉ edges s → edgeOf s x0 = None) as Hout by (intros Hn; by rewrite edgeOf_plain, (proj2 (elookup_None s x0 Hwfs) Hn)).
  assert (∀ y, y ∈ edges s' ↔ y = x0 ∨ y ∈ edges s) as Hedges.
  { intros y. rewrite <-!elookup_Some by (done || apply P). rewrite (sev_edges _ _ _ _ P). case_decide as Hd; [|naive_solver]. split; [by left|by eexists]. }
  assert (edgeOf s' x0 = Some new) as Hnew by (rewrite edgeOf_elookup, (sev_edges _ _ _ _ P) by (apply P || apply Hedges; by left); by rewrite decide_True).
  split; fold x0.
  - apply P.
  - intros u. rewrite (sev_nodes _ _ _ _ P). destruct (oget (nodes_ s) u) eqn:Hu; [done|]. rewrite M2 in Hu. rewrite decide_False; [done|]. unfold isNode in *. cbn. intros [->| ->]; rewrite Hu in *; [by destruct Hv|by destruct Hw].
  - apply NoDup_Permutation; [apply NoDup_edges, P|apply NoDup_cons; split; [rewrite list_elem_of_filter; by intros [? _]|apply NoDup_filter, NoDup_edges, Hwfs]|].
    intros y. rewrite elem_of_cons, list_elem_of_filter, Hedges. destruct (decide (y = x0)) as [->|]; naive_solver.
  - intros y Hy Hne. rewrite edgeOf_elookup, (sev_edges _ _ _ _ P), decide_False by (done || apply P || apply Hedges; by right). by rewrite edgeOf_elookup.
  - rewrite Hnew. by eexists.
  - unfold weight_of at 1. rewrite Hnew, Hwe. cbn. unfold sl, weight_of. by destruct (edgeOf s x0).
  - intros Hn. unfold weight_of. by rewrite Hout.
  - unfold len at 1. rewrite Hnew, Hle. cbn. f_equal. unfold sl, len. case_decide as Hd; [|by rewrite Hout]. by destruct (M3 x0 Hd) as [l' ->].
Qed.

Lemma simplify_edge_ok g dn s e : DagreRank.labelled g → simplified g dn s → e ∈ edges g →
  ∃ s', simplify_edge g s e = Ok s' ∧ simplified g (dn ++ [e]) s'.
Proof.
  intros Hlb [M1 M2 M3 M4 M5 M6 M7 M8] He. destruct (edge_merged_ok g s e Hlb M1 M2) as (s' & Hs & [P1 P2 P3 P4 P5 P6 P7 P8]); [intros x Hx; by apply M3|done|]. exists s'. split; [done|].
  set (x0 := merged e) in *. set (rest := filter (λ y, y ≠ x0) (edges s)) in *. assert (∀ y, y ∈ rest ↔ y ∈ edges s ∧ y ≠ x0) as Hrest by (intros y; unfold rest; rewrite list_elem_of_filter; tauto).
  assert (∀ y, y ∈ edges s' ↔ y = x0 ∨ y ∈ edges s) as Hedges by (intros y; rewrite P3, elem_of_cons, Hrest; destruct (decide (y = x0)) as [->|]; naive_solver).
  assert (∀ y, y ∈ rest → weight_of s' y = weight_of s y ∧ len s' y = len s y) as Hsame by (intros y [Hy Hne]%Hrest; unfold weight_of, len; by rewrite P4).
  assert (∀ F : edgeObj → Z, (x0 ∉ edges s → F x0 = 0%Z) → zsum F (edges s) = (F x0 + zsum F rest)%Z) as Hsplit.
  { intros F HF. pose proof (NoDup_edges s (dg_wf _ M1)) as Hnd. destruct (decide (x0 ∈ edges s)) as [Hin|Hin].
    - assert (edges s ≡ₚ x0 :: rest) as ->; [|done]. apply NoDup_Permutation; [done|apply NoDup_cons; split; [rewrite Hrest; by intros [_ ?]|by apply NoDup_filter]|]. intros y. rewrite elem_of_cons, Hrest. destruct (decide (y = x0)) as [->|]; naive_solver.
    - rewrite (HF Hin). assert (edges s ≡ₚ rest) as ->; [|done]. apply NoDup_Permutation; [done|by apply NoDup_filter|]. intros y. rewrite Hrest. split; [|naive_solver]. intros Hy. split; [done|]. by intros ->. }
  split.
  - done.
  - intros u. by rewrite P2, M2.
  - intros y Hy. destruct (decide (y = x0)) as [->|Hne]; [done|]. apply Hedges in Hy as [?|Hy]; [done|]. rewrite P4 by done. by apply M3.
  - intros y. rewrite Hedges, M4. split.
    + intros [->|(z & Hz & ->)]; [exists e|exists z]; (split; [set_solver|done]).
    + intros (z & [Hz| ->%list_elem_of_singleton]%elem_of_app & ->); [right; by exists z|by left].
  - intros h. rewrite P3, zsum_app, <-M5, Hsplit; [|intros Hn; by rewrite P7]. change (zsum ?F (x0 :: rest)) with (F x0 + zsum F rest)%Z. change (zsum ?F [e]) with (F e + 0)%Z. cbn beta. rewrite P6. cbn [ev ew x0 merged].
    rewrite (zsum_ext _ (λ x, weight_of s x * h (ev x) (ew x))%Z rest) by (intros y Hy; by destruct (Hsame y Hy) as [-> _]). lia.
  - intros ρ. specialize (M6 ρ). set (d := (ρ (ew e) - ρ (ev e))%Z). assert (feasible_ranks s' ρ ↔ (len s' x0 ≤ d)%Z ∧ ∀ y, y ∈ rest → (len s y ≤ ρ (ew y) - ρ (ev y))%Z) as ->.
    { unfold feasible_ranks. setoid_rewrite P3. setoid_rewrite elem_of_cons. split.
      - intros Hf. split; [apply (Hf x0); by left|]. intros y Hy. destruct (Hsame y Hy) as [_ <-]. apply Hf. by right.
      - intros [H0 Hr] y [->|Hy]; [done|]. destruct (Hsame y Hy) as [_ ->]. by apply Hr. }
    assert (feasible_ranks s ρ ↔ (x0 ∈ edges s → len s x0 ≤ d)%Z ∧ ∀ y, y ∈ rest → (len s y ≤ ρ (ew y) - ρ (ev y))%Z) as Hfs.
    { split; [intros Hf; split; [by apply (Hf x0)|intros y [Hy _]%Hrest; by apply Hf]|]. intros [H0 Hr] y Hy. destruct (decide (y = x0)) as [->|Hne]; [by apply H0|]. by apply Hr, Hrest. }
    assert (x0 ∈ edges s → (∀ y, y ∈ dn → Z.max 1 (len g y) ≤ ρ (ew y) - ρ (ev y))%Z → (1 ≤ d)%Z) as Hone.
    { intros (y & Hy & Heq)%M4 Hall. specialize (Hall y Hy). injection Heq as E1 E2. unfold d. rewrite E1, E2. lia. }
    rewrite P8. setoid_rewrite elem_of_app. setoid_rewrite list_elem_of_singleton. destruct (decide (x0 ∈ edges s)) as [Hin|Hin]; split.
    + intros [H0 Hr]. assert (feasible_ranks s ρ) as Hfe by (apply Hfs; split; [intros _; lia|done]). pose proof (proj1 M6 Hfe) as Hall. specialize (Hone Hin Hall). intros y [Hy| ->]; [by apply Hall|]. fold d. lia.
    + intros Hall. assert (feasible_ranks s ρ) as [H0 Hr]%Hfs by (apply M6; intros y Hy; apply Hall; by left). specialize (H0 Hin). pose proof (Hall e (or_intror eq_refl)). split; [fold d in H; lia|done].
    + intros [H0 Hr]. assert (feasible_ranks s ρ) as Hfe by (apply Hfs; split; [done|done]). pose proof (proj1 M6 Hfe) as Hall. intros y [Hy| ->]; [by apply Hall|]. fold d. lia.
    + intros Hall. assert (feasible_ranks s ρ) as [_ Hr]%Hfs by (apply M6; intros y Hy; apply Hall; by left). pose proof (Hall e (or_intror eq_refl)). split; [fold d in H; lia|done].
  - intros Hnn y Hy. assert (weights_nonneg s) as Hws by (apply M7; intros z Hz; apply Hnn; set_solver). destruct (decide (y = x0)) as [->|Hne].
    + rewrite P6. assert (0 ≤ weight_of g e)%Z by (apply Hnn; set_solver). destruct (decide (x0 ∈ edges s)) as [Hx0|Hn]; [specialize (Hws x0 Hx0); lia|]. rewrite P7 by done. lia.
    + destruct (Hsame y) as [-> _]; [apply Hrest; by apply Hedges in Hy as [?|?]|]. apply Hws. by apply Hedges in Hy as [?|?].
  - intros y Hy. assert (y ∈ edges s → len s y = 1%Z ∨ ∃ z, z ∈ dn ++ [e] ∧ y = merged z ∧ len s y = len g z) as Hold.
    { intros Hys. destruct (M8 y Hys) as [?|(z & ? & ? & ?)]; [by left|right]. exists z. split; [set_solver|done]. }
    destruct (decide (y = x0)) as [->|Hne]; [|destruct (Hsame y) as [_ ->]; [apply Hrest; by apply Hedges in Hy as [?|?]|apply Hold; by apply Hedges in Hy as [?|?]]].
    rewrite P8. destruct (Z.max_spec (if decide (x0 ∈ edges s) then len s x0 else 1) (len g e)) as [[_ ->]|[_ ->]]; [right; exists e; split; [set_solver|done]|].
    destruct (decide (x0 ∈ edges s)) as [Hin|_]; [by apply Hold|by left].
Qed.
End Simplify.
