(* ===== verification/DagreSimplexClaims.v ===== *)
(** * dagre: network simplex finds ranks of least total length

    Every exchange keeps a spanning tree of tight edges with exact cut values and feasible ranks and does not increase the
    weighted sum of the edge lengths; when no cut value is negative the sum is least.  A bound for the number of exchanges
    exists as long as the entering edges have slack. *)
From Stdlib Require Import QArith_base.
Local Close Scope Q_scope.
From S2P Require Import Prelude JsObject Graphlib GraphWf GraphInv GraphQuery GraphView GraphAlg GraphDfs Lodash LodashSpec.
From S2P Require Import DagreTypes DagreRank DagreTree DagreRankClaims DagreBk DagreCross DagreOrderClaims DagreNormalize DagreSimplex DagreSimplexTree DagreSimplexFlow DagreSimplexCut DagreSimplexEnter DagreSimplexExchange DagreSimplexStart.

Section Loop.
Context {L : Type}.
Notation graph := (Graph L nodeLabel edgeLabel).
Notation tree := (Graph unit treeNode treeEdge).
Implicit Types (t : tree) (e f x : edgeObj) (ρ : string → Z).

(** One turn of [while(e=leaveEdge(t))]. *)
Inductive turn : tree * graph → tree * graph → Prop :=
  | turn_exchange t g e f t' g' :
      leaveEdge t = Some e → enterEdge t g e = Ok (Some f) → exchangeEdges t g e f = Ok (t', g') → turn (t, g) (t', g').

(** The entering edge has no slack: the exchange moves no node. *)
Definition degenerate (s : tree * graph) : Prop :=
  ∃ e f, leaveEdge s.1 = Some e ∧ enterEdge s.1 s.2 e = Ok (Some f) ∧ slack s.2 f = Ok (Some 0%Z).

Context (g : graph) (D : simple_dag g) (Hw : weights_nonneg g).

Lemma tight_on_edges t t' ρ : edges t = edges t' → tight_on g t ρ → tight_on g t' ρ.
Proof. intros He Ht x Hx Ha. apply Ht; [done|]. unfold adjacent, arrow in *. by rewrite He. Qed.

Lemma exchange_ok t g1 ρ e : simplex_state g t g1 ρ → leaveEdge t = Some e →
  ∃ f t' g' ρ', enterEdge t g1 e = Ok (Some f) ∧ exchangeEdges t g1 e f = Ok (t', g') ∧ simplex_state g t' g' ρ' ∧
    (total g ρ' ≤ total g ρ)%Z ∧ (slack g1 f ≠ Ok (Some 0%Z) → (total g ρ' < total g ρ)%Z).
Proof.
  intros [H (r & R) Hr Hfe Hti (N & C)] Hl. pose proof (to_tree _ _ H) as T. pose proof (tree_of_spans g t r H R) as S.
  destruct (leaveEdge_Some g t r T R N e C Hl) as (He & v & p & Hv & Hp & Hj & Hneg).
  destruct (enterEdge_ok g t r D T R S v p Hv Hp N ρ g1 e Hw C Hr Hj Hneg) as (f & Hent & Hf & Hb & Hmin).
  pose proof (entering_nodes g D t H f Hf) as [Hfv Hfw]. destruct (swapped_ok t e f T He Hfv Hfw) as (t1 & t2 & H1 & H2 & W); [eapply (entering_new g D t r v p H R Hv Hp e f); eassumption|].
  pose proof (swapped_tree g D t r v p H R Hv Hp e f He Hj Hf Hb t2 W) as Ht2. destruct (rebuild_ok g t2 g1 ρ D Ht2 Hr) as (t3 & t4 & r' & N' & H3 & H4 & Ht4 & R4 & C4 & He4).
  set (ρ' := moved g t v p f r' ρ). assert (tight_on g t4 ρ') as Hti' by (apply (tight_on_edges t2); [done|]; by eapply moved_tight).
  destruct (updateRanks_ok g t4 r' D (to_tree _ _ Ht4) R4 (tree_of_spans g t4 r' Ht4 R4) ρ' ρ g1 Hti' Hr) as (g2 & H5 & Hr2); [unfold ρ', moved; lia|].
  exists f, t4, g2, ρ'. assert (total g ρ' = total g ρ + sign g v p * N v * gap g ρ f)%Z as Htot by (by apply (moved_total g D t r v p H R Hv Hp)).
  assert (0 ≤ gap g ρ f)%Z as Hgap by (specialize (Hfe f Hf); unfold gap; lia). split_and!; [done| | | |].
  - unfold exchangeEdges. rewrite H1. cbn [res_bind]. rewrite H2. cbn [res_bind]. rewrite H3. cbn [res_bind]. rewrite H4. cbn [res_bind]. by rewrite H5.
  - split; [done|by exists r'|done| |done|by exists N']. by eapply moved_feasible.
  - rewrite Htot. nia.
  - rewrite (slack_gap g D ρ g1 f Hr Hf). intros Hne. assert (gap g ρ f ≠ 0)%Z by congruence. rewrite Htot. nia.
Qed.

Lemma state_optimal t g1 ρ ρ' : simplex_state g t g1 ρ → leaveEdge t = None → feasible_ranks g ρ' → (total g ρ ≤ total g ρ')%Z.
Proof.
  intros [H (r & R) Hr Hfe Hti (N & C)] Hl Hf. pose proof (to_tree _ _ H) as T. pose proof (tree_of_spans g t r H R) as S.
  apply (cuts_optimal g t r D T R S N); [done| |done|done]. by apply (leaveEdge_None g t r T R).
Qed.

Lemma simplex_loop_ok turns t g1 ρ : simplex_state g t g1 ρ →
  simplex_loop turns t g1 = Throw (JsError "out of turns") ∨
  ∃ t' g' ρ', simplex_loop turns t g1 = Ok (t', g') ∧ simplex_state g t' g' ρ' ∧ leaveEdge t' = None.
Proof.
  revert t g1 ρ. induction turns as [|turns IH]; intros t g1 ρ Hs; cbn [simplex_loop]; destruct (leaveEdge t) as [e|] eqn:Hl; [by left|right; by exists t, g1, ρ| |right; by exists t, g1, ρ].
  destruct (exchange_ok t g1 ρ e Hs Hl) as (f & t' & g' & ρ' & -> & Hex & Hs' & _). cbn [res_bind of_option]. rewrite Hex. cbn [res_bind fst snd]. by apply (IH t' g' ρ').
Qed.

Lemma turn_ok s s' ρ : simplex_state g s.1 s.2 ρ → turn s s' → ∃ ρ', simplex_state g s'.1 s'.2 ρ' ∧ (total g ρ' ≤ total g ρ)%Z.
Proof.
  intros Hs Ht. destruct Ht as [t g1 e f t' g' Hl He Hx] in Hs |- *. cbn in *. destruct (exchange_ok t g1 ρ e Hs Hl) as (f' & t2 & g2 & ρ' & He' & Hx' & Hs' & Hle & _). assert (f' = f) as -> by congruence. assert (t2 = t' ∧ g2 = g') as [-> ->] by (split; congruence). by exists ρ'.
Qed.

Lemma turns_ok s s' ρ : rtc turn s s' → simplex_state g s.1 s.2 ρ → ∃ ρ', simplex_state g s'.1 s'.2 ρ' ∧ (total g ρ' ≤ total g ρ)%Z.
Proof.
  intros Hr. revert ρ. induction Hr as [s|s s1 s2 Ht _ IH]; intros ρ Hs; [by exists ρ|]. destruct (turn_ok s s1 ρ Hs Ht) as (ρ1 & Hs1 & Hle). destruct (IH ρ1 Hs1) as (ρ2 & Hs2 & Hle2). exists ρ2. split; [done|lia].
Qed.

Lemma simplex_loop_returns turns t g1 ρ : simplex_state g t g1 ρ → (∀ ρ', feasible_ranks g ρ' → 0 ≤ total g ρ')%Z →
  (∀ s, rtc turn (t, g1) s → ¬ degenerate s) → (total g ρ ≤ Z.of_nat turns)%Z → ∃ r, simplex_loop turns t g1 = Ok r.
Proof.
  intros Hs Hpos. revert t g1 ρ Hs. induction turns as [|turns IH]; intros t g1 ρ Hs Hd Hb; cbn [simplex_loop]; destruct (leaveEdge t) as [e|] eqn:Hl; [|by eexists| |by eexists].
  all: destruct (exchange_ok t g1 ρ e Hs Hl) as (f & t' & g' & ρ' & He & Hx & Hs' & _ & Hlt).
  all: assert (total g ρ' < total g ρ)%Z as Hdec by (apply Hlt; intros H0; apply (Hd (t, g1)); [done|]; by exists e, f).
  - specialize (Hpos ρ' (ss_feasible _ _ _ _ Hs')). lia.
  - rewrite He. cbn [res_bind of_option]. rewrite Hx. cbn [res_bind fst snd]. apply (IH t' g' ρ' Hs'); [|lia]. intros s Hr. apply Hd. eapply rtc_l; [|exact Hr]. by eapply turn_exchange.
Qed.
End Loop.

(** ** The whole ranker *)

Section Ranker.
Context {L : Type}.
Notation graph := (Graph L nodeLabel edgeLabel).
Notation tree := (Graph unit treeNode treeEdge).
Implicit Types (g s : graph) (t : tree) (x y : edgeObj) (ρ : string → Z).

(** Every edge is at least as long as it has to be, and at least 1. *)
Definition long_enough g ρ : Prop := ∀ y, y ∈ edges g → (Z.max 1 (len g y) ≤ ρ (ew y) - ρ (ev y))%Z.

(** What the ranker expects of its input. *)
Record rank_input g : Prop := {
  ri_labelled : DagreRank.labelled g;
  ri_acyclic : acyclic g;
  ri_connected : connected g;
  ri_nonempty : nodes g ≠ [];
  ri_name : ¬ isNode g ""%string;
  ri_weights : weights_nonneg g
}.

Lemma simplify_ok g : DagreRank.labelled g → ∃ s, simplify g = Ok s ∧ simplified g (edges g) s.
Proof.
  intros Hlb. destruct (simplify_start g Hlb) as (s0 & H0 & M0 & _). unfold simplify. rewrite H0. cbn [res_bind].
  apply (res_fold_inv (simplify_edge g) (λ dn s, simplified g dn s)); [done|]. intros dn e rest s Heq M. apply simplify_edge_ok; [done|done|]. rewrite Heq. set_solver.
Qed.

Lemma simplified_arrow g s u w : simplified g (edges g) s → arrow s u w ↔ arrow g u w.
Proof.
  intros M. split.
  - intros (x & (y & Hy & ->)%(sm_edge _ _ _ M) & <- & <-). by exists y.
  - intros (y & Hy & <- & <-). exists (merged y). split; [|done]. apply (sm_edge _ _ _ M). by exists y.
Qed.

Lemma simplified_dag g s : rank_input g → simplified g (edges g) s → simple_dag s ∧ connected s ∧ weights_nonneg s.
Proof.
  intros [Hlb Hac Hcon _ _ Hw] M. assert (∀ v, isNode s v ↔ isNode g v) as Hn by (intros v; unfold isNode; by rewrite (sm_node _ _ _ M)). split_and!; [split|..].
  - split; [apply M| |intros x Hx; by apply (sm_name _ _ _ M)]. intros v Hv%Hn. rewrite (sm_node _ _ _ M). by apply (lb_node _ Hlb).
  - apply M.
  - intros x Hx. by apply (sm_name _ _ _ M).
  - intros v Hc. apply (Hac v). eapply (tc_congruence id); [|exact Hc]. intros a b. by apply (simplified_arrow g s).
  - intros u v Hu%Hn Hv%Hn. eapply (rtc_congruence id); [|by apply (Hcon u v)]. intros a b. unfold adjacent. rewrite !(simplified_arrow g s) by done. done.
  - by apply M.
Qed.

Lemma simplified_total g s ρ : simplified g (edges g) s → total s ρ = total g ρ.
Proof. intros M. apply (sm_sum _ _ _ M (λ a b, ρ b - ρ a)%Z). Qed.

Lemma simplex_start_ok g : rank_input g →
  ∃ s t s1 ρ, simplify g = Ok s ∧ simplified g (edges g) s ∧ simplex_start g = Ok (t, s1) ∧ simplex_state s t s1 ρ.
Proof.
  intros I. destruct (simplify_ok g (ri_labelled _ I)) as (s & Hs & M). destruct (simplified_dag g s I M) as (D & Hcon & _). pose proof (sd_labelled _ D) as Hlb. pose proof (lb_wf _ Hlb) as Hwf.
  destruct (longestPath_spec s Hlb (sd_acyclic _ D)) as (s0 & ρ0 & H0 & Hr0 & Hex). assert (∀ v, isNode s v → is_Some (ρ0 v)) as Hρ0 by (intros v (r & -> & _)%Hex; by eexists).
  assert (nodes s0 ≠ []) as Hne.
  { destruct (nodes g) as [|v vs] eqn:Hns; [by destruct (ri_nonempty _ I)|]. assert (isNode g v) as Hv by (apply elem_of_nodes; rewrite Hns; by left).
    assert (v ∈ nodes s0) as Hin by (apply elem_of_nodes, (DagreRank.ranked_node _ _ _ _ Hr0); unfold isNode; by rewrite (sm_node _ _ _ M)). intros Hnil. rewrite Hnil in Hin. by apply elem_of_nil in Hin. }
  destruct (feasibleTree_ok s ρ0 s0 Hlb Hcon Hne Hr0 Hρ0 (exact_feasible s ρ0 Hwf Hex)) as (t & s1 & ρ1 & start & Hft & Hr1 & Hρ1 & Hf1 & Ht & Hn).
  pose proof (feasibleTree_labels s0 _ (rk_wf _ _ _ Hr0) Hne Hft) as Hlt0. cbn in Hlt0.
  assert (label_tree s t) as Hlt by (destruct Hlt0 as [A1 A2 A3 A4 A5]; split; try done; intros u Hu; by apply Hn).
  assert (tree_of s t) as Hto by (eapply feasible_tree_of; [done| |done|done|done]; unfold isNode; rewrite (sm_node _ _ _ M); apply (ri_name _ I)).
  set (ρ := λ u, default 0%Z (ρ1 u)). assert (∀ u, isNode s u → ρ1 u = Some (ρ u)) as Hρ by (intros u Hu; unfold ρ; by destruct (Hρ1 u Hu) as [r ->]).
  assert (has_ranks s ρ s1) as Hr by (eapply ranked_ext; [|exact Hr1]; done).
  destruct (rebuild_ok s t s1 ρ D Hto Hr) as (t1 & t2 & r & N & H1 & H2 & Ht2 & R2 & C2 & He2). exists s, t2, s1, ρ. split_and!; [done|done| |].
  - unfold simplex_start. rewrite Hs. cbn [res_bind]. rewrite H0. cbn [res_bind]. rewrite Hft. cbn [res_bind fst snd]. rewrite H1. cbn [res_bind]. by rewrite H2.
  - split; [done|by exists r|done| | |by exists N].
    + intros x Hx. destruct (Hf1 x Hx) as (rv & rw & Ev & Ew & Hle). unfold ρ. by rewrite Ev, Ew.
    + apply (tight_on_edges s t); [done|]. intros x Hx Ha. apply adjacent_joins in Ha as (y & Hy & Hj). destruct (tr_along _ _ _ _ Ht y Hy) as (e & He & (rv & rw & Ev & Ew & Hle) & Hends).
      assert (x = e) as ->; [|unfold ρ; rewrite Ev, Ew; done]. assert (arrow s (ev x) (ew x)) as A1 by (by exists x). assert (arrow s (ev e) (ew e)) as A2 by (by exists e).
      assert ((ev x = ev e ∧ ew x = ew e) ∨ (ev x = ew e ∧ ew x = ev e)) as [[E1 E2]|[E1 E2]] by (destruct Hj as [[A B]|[A B]], Hends as [[A' B']|[A' B']]; rewrite <-A, <-B, A', B'; tauto).
      * pose proof (sd_name _ D x Hx). pose proof (sd_name _ D e He). destruct x, e; cbn in *; congruence.
      * rewrite E1, E2 in A1. by apply (sd_asym s _ _ D A1) in A2.
Qed.

(** Writing the ranks back. *)
Lemma write_back g s ρ s1 : DagreRank.labelled g → simplified g (edges g) s → has_ranks s ρ s1 →
  ∃ g', res_fold (λ g v, updNode g v (λ l, default l (node s1 v))) g (nodes s1) = Ok g' ∧ has_ranks g ρ g'.
Proof.
  intros Hlb M Hr. assert (∀ v, isNode s1 v ↔ isNode g v) as Hn by (intros v; rewrite (DagreRank.ranked_node _ _ _ _ Hr); unfold isNode; by rewrite (sm_node _ _ _ M)).
  destruct (updNodes_relabelled g (λ _ l, l) g (nodes s1) (λ v l, default l (node s1 v))) as (g' & Hf & Rl).
  - intros v Hv%elem_of_nodes%Hn. destruct (lb_node _ Hlb v Hv) as [l Hl]. unfold node. rewrite Hl. by eexists.
  - apply NoDup_nodes, Hr.
  - by apply relabelled_refl; [apply Hlb|].
  - exists g'. split; [done|]. eapply (relabelled_ext _ _ (λ u l, set_rank (Some (ρ u)) l)) in Rl; [destruct Rl as [R1 R2 R3]; by split|]. cbn. intros u l Hl.
    assert (oget (nodes_ g) u = Some (Some l)) as Hu by (unfold node in Hl; destruct (oget (nodes_ g) u); [cbn in Hl; by subst|done]).
    rewrite decide_True by (apply elem_of_nodes, Hn; unfold isNode; by rewrite Hu). by rewrite (ranked_label _ _ _ _ l Hr) by (by rewrite (sm_node _ _ _ M)).
Qed.

Lemma networkSimplex_ok turns g :
  rank_input g →
  networkSimplex turns g = Throw (JsError "out of turns") ∨
  ∃ g' ρ, networkSimplex turns g = Ok g' ∧ has_ranks g ρ g' ∧ long_enough g ρ ∧ ∀ ρ', long_enough g ρ' → (total g ρ ≤ total g ρ')%Z.
Proof.
  intros I. destruct (simplex_start_ok g I) as (s & t & s1 & ρ0 & Hs & M & Hst & Hss). destruct (simplified_dag g s I M) as (D & _ & Hw).
  unfold networkSimplex. rewrite Hst. cbn [res_bind fst snd]. destruct (simplex_loop_ok s D Hw turns t s1 ρ0 Hss) as [->|(t' & s' & ρ & -> & Hs' & Hl)]; [by left|right]. cbn [res_bind fst snd].
  destruct (write_back g s ρ s' (ri_labelled _ I) M (ss_ranks _ _ _ _ Hs')) as (g' & -> & Hr). exists g', ρ. split_and!; [done|done| |].
  - exact (proj1 (sm_len _ _ _ M ρ) (ss_feasible _ _ _ _ Hs')).
  - intros ρ' Hρ'. rewrite <-!(simplified_total g s) by done. apply (state_optimal s D t' s' ρ ρ' Hs' Hl). by apply (sm_len _ _ _ M).
Qed.

(** C10: Network simplex on a connected graph without cycles: whatever the number of turns that the loop is given, it either
    uses them up or returns the graph with nothing but ranks changed; every edge is long enough, and no other ranks with long
    enough edges have a smaller sum of weight times length over the edges. *)
Theorem networkSimplex_optimal turns g :
  rank_input g →
  networkSimplex turns g = Throw (JsError "out of turns") ∨
  ∃ g' ρ, networkSimplex turns g = Ok g' ∧ has_ranks g ρ g' ∧ long_enough g ρ ∧ ∀ ρ', long_enough g ρ' → (total g ρ ≤ total g ρ')%Z.
Proof. apply networkSimplex_ok. Qed.

(** Whatever ranker the graph asks for, nothing but ranks changes and no edge is too short. *)
Theorem rank_feasible ranker turns g :
  rank_input g →
  rankWith ranker turns g = Throw (JsError "out of turns") ∨
  ∃ g', rankWith ranker turns g = Ok g' ∧ reranked g g' ∧ ∀ x, x ∈ edges g → ∃ z, slack g' x = Ok (Some z) ∧ (0 ≤ z)%Z.
Proof.
  intros I. pose proof (ri_labelled _ I) as Hlb. pose proof (lb_wf _ Hlb) as Hwf.
  assert (∀ g' (σ : string → option Z), ranked g σ g' → feasible g σ → reranked g g' ∧ ∀ x, x ∈ edges g → ∃ z, slack g' x = Ok (Some z) ∧ (0 ≤ z)%Z) as Hfin.
  { intros g' σ Hr Hf. split; [by exists σ|]. intros x Hx. destruct (Hf x Hx) as (rv & rw & Hv & Hw & Hle). exists (rw - rv - len g x)%Z. split; [by apply (slack_ranked g σ)|lia]. }
  destruct (longestPath_spec g Hlb (ri_acyclic _ I)) as (g1 & ρ & H1 & Hrk & Hex). assert (∀ v, isNode g v → is_Some (ρ v)) as Hρ by (intros v (r & -> & _)%Hex; by eexists).
  unfold rankWith. destruct (decide (ranker = Some "tight-tree"%string)); [right|destruct (decide (ranker = Some "longest-path"%string)); [right|]].
  - assert (nodes g1 ≠ []) as Hne.
    { intros Hnil. apply (ri_nonempty _ I). apply Permutation_nil. rewrite <-Hnil. apply NoDup_Permutation; [apply NoDup_nodes, Hrk|by apply NoDup_nodes|]. intros u. rewrite !elem_of_nodes. by apply (DagreRank.ranked_node g ρ). }
    destruct (feasibleTree_ok g ρ g1 Hlb (ri_connected _ I) Hne Hrk Hρ (exact_feasible g ρ Hwf Hex)) as (t & g' & ρ' & start & Hft & Hrk' & _ & Hf' & _).
    exists g'. split; [unfold tightTreeRanker; rewrite H1; cbn [res_bind]; by rewrite Hft|by apply (Hfin g' ρ')].
  - exists g1. split; [done|apply (Hfin g1 ρ Hrk), exact_feasible; done].
  - destruct (networkSimplex_ok turns g I) as [->|(g' & ρ' & -> & Hr & Hl & _)]; [by left|right]. exists g'. split; [done|]. apply (Hfin g' _ Hr). intros x Hx. exists (ρ' (ev x)), (ρ' (ew x)). specialize (Hl x Hx). split_and!; [done|done|lia].
Qed.

(** C11: The states of network simplex: from the start on, every state that turns of the loop lead to has a tree that spans
    the graph, whose edges are edges of the graph of minimum length, and feasible ranks whose total length is at most that of
    the start; in every such state either no tree edge has a negative cut value, or the next turn succeeds. *)
Theorem simplex_states g :
  rank_input g →
  ∃ s t s1 ρ0, simplify g = Ok s ∧ simplex_start g = Ok (t, s1) ∧ has_ranks s ρ0 s1 ∧
    ∀ t' s', rtc turn (t, s1) (t', s') →
      (∀ v, isNode t' v ↔ isNode g v) ∧ (∀ u v, isNode t' u → isNode t' v → rtc (adjacent t') u v) ∧ length (nodes t') = S (length (edges t')) ∧
      (∃ ρ, has_ranks s ρ s' ∧ long_enough g ρ ∧ tight_on s t' ρ ∧ (total g ρ ≤ total g ρ0)%Z) ∧
      (leaveEdge t' = None ∨ ∃ st, turn (t', s') st).
Proof.
  intros I. destruct (simplex_start_ok g I) as (s & t & s1 & ρ0 & Hs & M & Hst & Hss). destruct (simplified_dag g s I M) as (D & _ & Hw).
  exists s, t, s1, ρ0. split_and!; [done|done|apply Hss|]. intros t' s' Hrt.
  assert (∃ ρ, simplex_state s t' s' ρ ∧ (total s ρ ≤ total s ρ0)%Z) as (ρ & Hs' & Hle) by (by apply (turns_ok s D Hw (t, s1) (t', s') ρ0)).
  pose proof (ss_tree _ _ _ _ Hs') as Hto. pose proof (to_tree _ _ Hto) as T. split_and!.
  - intros v. rewrite (to_node _ _ Hto). unfold isNode. by rewrite (sm_node _ _ _ M).
  - intros u v Hu Hv. by apply (it_connected _ T).
  - apply T.
  - exists ρ. split_and!; [apply Hs'|exact (proj1 (sm_len _ _ _ M ρ) (ss_feasible _ _ _ _ Hs'))|apply Hs'|]. by rewrite <-!(simplified_total g s).
  - destruct (leaveEdge t') as [e|] eqn:Hl; [right|by left]. destruct (exchange_ok s D Hw t' s' ρ e Hs' Hl) as (f & t2 & g2 & ρ2 & H1 & H2 & _). exists (t2, g2). by eapply turn_exchange.
Qed.

(** C12: Termination of network simplex: unless the loop gets to a state in which the entering edge has no slack, a number of
    turns as large as the total length of the ranks at the start is enough for it to return. *)
Theorem networkSimplex_returns g :
  rank_input g →
  ∃ t s1 ρ0, simplex_start g = Ok (t, s1) ∧ (∀ v, isNode g v → rankOf s1 v = Some (ρ0 v)) ∧
    ((∀ st, rtc turn (t, s1) st → ¬ degenerate st) → ∀ turns, (total g ρ0 ≤ Z.of_nat turns)%Z → ∃ g', networkSimplex turns g = Ok g').
Proof.
  intros I. destruct (simplex_start_ok g I) as (s & t & s1 & ρ0 & Hs & M & Hst & Hss). destruct (simplified_dag g s I M) as (D & _ & Hw).
  exists t, s1, ρ0. split_and!; [done| |].
  - intros v Hv. apply (ranked_rankOf s (λ u, Some (ρ0 u))); [apply D|apply Hss|]. unfold isNode. by rewrite (sm_node _ _ _ M).
  - intros Hnd turns Hle. rewrite <-(simplified_total g s) in Hle by done. destruct (simplex_loop_returns s D Hw turns t s1 ρ0 Hss) as ([t' s'] & Hr); [|done|done|].
    + intros ρ Hf. apply zsum_nonneg. intros x Hx. specialize (Hw x Hx). apply (sm_edge _ _ _ M) in Hx as (y & Hy & ->). pose proof (proj1 (sm_len _ _ _ M ρ) Hf y Hy). cbn in *. nia.
    + destruct (simplex_loop_ok s D Hw turns t s1 ρ0 Hss) as [Hx|(t2 & s2 & ρ & Hx & Hs2 & _)]; rewrite Hr in Hx; [done|]. injection Hx as -> ->.
      unfold networkSimplex. rewrite Hst. cbn [res_bind fst snd]. rewrite Hr. cbn [res_bind fst snd]. destruct (write_back g s ρ s2 (ri_labelled _ I) M (ss_ranks _ _ _ _ Hs2)) as (g' & -> & _). by exists g'.
Qed.
End Ranker.

(** ** The example of Gansner et al., with a parallel edge *)

Definition gansner_edge : option (option edgeLabel) := Some (Some (edge_of_len 1)).
Definition gansner_ops : list (gop unit nodeLabel edgeLabel) :=
  ((λ v, OpSetNode v (Some (Some diamond_node))) <$> ["a"; "b"; "c"; "d"; "e"; "f"; "g"; "h"]%string) ++
  [OpSetEdge "a" "b" gansner_edge None; OpSetEdge "a" "b" gansner_edge (Some "again"%string); OpSetEdge "b" "c" gansner_edge None;
   OpSetEdge "c" "d" gansner_edge None; OpSetEdge "d" "h" gansner_edge None; OpSetEdge "a" "e" gansner_edge None; OpSetEdge "a" "f" gansner_edge None;
   OpSetEdge "e" "g" gansner_edge None; OpSetEdge "f" "g" gansner_edge None; OpSetEdge "g" "h" gansner_edge None].
Definition gansner : Graph unit nodeLabel edgeLabel := build true true false gansner_ops.

Lemma gansner_input : rank_input gansner.
Proof.
  assert (DagreRank.labelled gansner) as Hlb.
  { split.
    - apply build_wf. apply (bool_decide_unpack _). vm_compute. exact I.
    - intros v Hv. apply elem_of_nodes in Hv. exists diamond_node. revert v Hv. apply Forall_forall. vm_compute. repeat constructor.
    - intros x Hx. assert (Forall (λ x, is_Some (edgeOf gansner x)) (edges gansner)) as Hf by (vm_compute; repeat constructor; eauto). rewrite Forall_forall in Hf. by apply Hf. }
  split; [done|..].
  - eapply (topsort_acyclic gansner); [apply Hlb|]. vm_compute. reflexivity.
  - eapply (components_connected gansner); [apply Hlb|]. vm_compute. reflexivity.
  - vm_compute. discriminate.
  - intros H. apply hasNode_true in H. vm_compute in H. discriminate.
  - intros x Hx. assert (Forall (λ x, 0 ≤ weight_of gansner x)%Z (edges gansner)) as Hf by (apply (bool_decide_unpack _); vm_compute; exact I). rewrite Forall_forall in Hf. by apply Hf.
Qed.

Lemma networkSimplex_optimal_witness :
  ∃ g' ρ, networkSimplex 3 gansner = Ok g' ∧ has_ranks gansner ρ g' ∧ ∀ ρ', long_enough gansner ρ' → (total gansner ρ ≤ total gansner ρ')%Z.
Proof.
  destruct (networkSimplex_optimal 3 gansner gansner_input) as [H|(g' & ρ & H1 & H2 & _ & H4)].
  - exfalso. vm_compute in H. discriminate H.
  - exists g', ρ. split; [exact H1|]. split; [exact H2|exact H4].
Defined.

Lemma simplex_states_witness :
  ∃ t s1, simplex_start gansner = Ok (t, s1) ∧ length (nodes t) = S (length (edges t)) ∧ ∃ st, turn (t, s1) st.
Proof.
  destruct (simplex_states gansner gansner_input) as (s & t & s1 & ρ0 & _ & H1 & _ & H2). exists t, s1. split; [exact H1|].
  destruct (H2 t s1 (rtc_refl _ _)) as (_ & _ & H3 & _ & [H4|H4]).
  - exfalso. assert (match simplex_start gansner with Ok r => leaveEdge r.1 | Throw _ => None end = None) as H5 by (rewrite H1; exact H4). vm_compute in H5. discriminate H5.
  - split; [exact H3|exact H4].
Defined.

(** The states are computed one from the other. *)
Definition next_state (s : Graph unit treeNode treeEdge * Graph unit nodeLabel edgeLabel) : option (Graph unit treeNode treeEdge * Graph unit nodeLabel edgeLabel) :=
  match leaveEdge s.1 with
  | Some e => match enterEdge s.1 s.2 e with
      | Ok (Some f) => match exchangeEdges s.1 s.2 e f with Ok r => Some r | Throw _ => None end
      | _ => None end
  | None => None
  end.
Definition entering_slack (s : Graph unit treeNode treeEdge * Graph unit nodeLabel edgeLabel) : option Z :=
  match leaveEdge s.1 with
  | Some e => match enterEdge s.1 s.2 e with
      | Ok (Some f) => match slack s.2 f with Ok z => z | Throw _ => None end
      | _ => None end
  | None => None
  end.

Lemma turn_next s s' : turn s s' → next_state s = Some s'.
Proof. intros [t g e f t' g' H1 H2 H3]. unfold next_state. cbn. by rewrite H1, H2, H3. Qed.

Lemma degenerate_slack s : degenerate s → entering_slack s = Some 0%Z.
Proof. intros (e & f & H1 & H2 & H3). unfold entering_slack. by rewrite H1, H2, H3. Qed.

Lemma networkSimplex_returns_witness : ∃ turns g', networkSimplex turns gansner = Ok g'.
Proof.
  destruct (networkSimplex_returns gansner gansner_input) as (t & s1 & ρ0 & H1 & _ & H2). exists (Z.to_nat (total gansner ρ0)). apply H2; [|lia].
  assert (∀ {B} (F : Graph unit treeNode treeEdge * Graph unit nodeLabel edgeLabel → B) d, F (t, s1) = match simplex_start gansner with Ok r => F r | Throw _ => d end) as Hc by (intros B F d; by rewrite H1).
  assert (entering_slack (t, s1) = Some 1%Z) as E1 by (rewrite (Hc _ entering_slack None); vm_compute; reflexivity).
  assert ((next_state (t, s1) ≫= next_state) = None ∧ (next_state (t, s1) ≫= entering_slack) = None) as [E2 E3].
  { split; [rewrite (Hc _ (λ s, next_state s ≫= next_state) None)|rewrite (Hc _ (λ s, next_state s ≫= entering_slack) None)]; vm_compute; reflexivity. }
  intros st Hr Hd. apply degenerate_slack in Hd. inversion Hr as [|? s2 ? Ha Hb]; subst; [congruence|]. apply turn_next in Ha. rewrite Ha in E2, E3. cbn in E2, E3.
  inversion Hb as [|? s3 ? Ha' _]; subst; [congruence|]. apply turn_next in Ha'. congruence.
Defined.
