(* ===== verification/DagreClusters.v ===== *)
(** * dagre: clusters and loops (lib/nesting-graph.js, lib/add-border-segments.js, lib/parent-dummy-chains.js, parts of lib/layout.js and lib/util.js)

    The passes that turn a compound graph with loops into the simple ranked graph that the other passes work on, and those that
    put clusters and loops back.  Recursion over the hierarchy is bounded by the number of nodes. *)
From Stdlib Require Import QArith_base Qabs.
Local Close Scope Q_scope.
From S2P Require Import Prelude JsObject Graphlib GraphWf GraphInv GraphRemove GraphQuery GraphView Lodash DagreTypes DagreRank DagreBk DagreUtil DagreNormalize DagreRemap DagreGeometry.

(** ** Assignments to fields *)

Definition with_gmore (f : graphMore → graphMore) (gl : graphLabel) : graphLabel :=
  GraphLabel (nodesep gl) (edgesep gl) (ranksep gl) (rankdir gl) (align gl) (marginx gl) (marginy gl) (gwidth gl) (gheight gl) (f (gmore gl)).
Definition with_nestingRoot (root : option string) (gl : graphLabel) : graphLabel :=
  with_gmore (λ m, GraphMore (dummyChains m) (gmaxRank m) root (nodeRankFactor m)) gl.
Definition with_nodeRankFactor (k : Z) (gl : graphLabel) : graphLabel :=
  with_gmore (λ m, GraphMore (dummyChains m) (gmaxRank m) (nestingRoot m) (Some k)) gl.
Definition with_maxRank (r : option Z) (gl : graphLabel) : graphLabel :=
  with_gmore (λ m, GraphMore (dummyChains m) r (nestingRoot m) (nodeRankFactor m)) gl.

Definition with_more (f : nodeMore → nodeMore) (l : nodeLabel) : nodeLabel :=
  NodeLabel (width l) (height l) (nx l) (ny l) (rank l) (order l) (dummy l) (nlabelpos l) (borderType l) (f (more l)).
Definition with_borders (top bottom : option string) (m : nodeMore) : nodeMore :=
  NodeMore (minRank m) (nmaxRank m) top bottom (borderLeft m) (borderRight m) (origLabel m) (origObj m) (ne m) (nlabel m) (selfEdges m).
Definition with_ranks (lo hi : option Z) (m : nodeMore) : nodeMore :=
  NodeMore lo hi (borderTop m) (borderBottom m) (borderLeft m) (borderRight m) (origLabel m) (origObj m) (ne m) (nlabel m) (selfEdges m).
Definition with_sides (left right : option (list (option string))) (m : nodeMore) : nodeMore :=
  NodeMore (minRank m) (nmaxRank m) (borderTop m) (borderBottom m) left right (origLabel m) (origObj m) (ne m) (nlabel m) (selfEdges m).
Definition with_selfEdges (es : option (list (edgeObj * edgeLabel))) (m : nodeMore) : nodeMore :=
  NodeMore (minRank m) (nmaxRank m) (borderTop m) (borderBottom m) (borderLeft m) (borderRight m) (origLabel m) (origObj m) (ne m) (nlabel m) es.
Definition with_labelRank (r : option Z) (l : edgeLabel) : edgeLabel :=
  EdgeLabel (minlen l) (weight l) (ewidth l) (eheight l) (labeloffset l) (labelpos l) (ex l) (ey l)
    (points l) r (reversed l) (forwardName l) (nestingEdge l).

Section Clusters.
Implicit Types (g : layoutGraph) (v w root : string) (e : edgeObj) (n : nodeLabel) (l : edgeLabel).

(** [{}], and [{width:0,height:0}] with a rank and a kind of border.  Sizes that are undefined are not read. *)
Definition bare_node (r : option Z) (border : option string) : nodeLabel := NodeLabel 0%Q 0%Q None None r None None None border no_more.
(** [{weight:w,minlen:m,nestingEdge:b}]; the other attributes are undefined and not read. *)
Definition nesting_label (w m : Z) (b : bool) : edgeLabel := EdgeLabel m w 0%Q 0%Q 0%Q ""%string None None None None false None b.

Definition updGraph g (f : graphLabel → graphLabel) : res layoutGraph :=
  gl <-- of_option (Graphlib.graph g) ;; Ok (setGraph g (Some (f gl))).

(** ** The nesting graph *)

Fixpoint depths_dfs (fuel : nat) g (depth : Z) (depths : obj Z) v : res (obj Z) :=
  match fuel with
  | O => Throw (JsError "Maximum call stack size exceeded")
  | S fuel' =>
      depths <-- res_fold (depths_dfs fuel' g (depth + 1)) depths (default [] (children g v)) ;;
      Ok (oset depths v depth)
  end.
Definition treeDepths g : res (obj Z) :=
  res_fold (depths_dfs (S (length (nodes g))) g 1) [] (default [] (children g GRAPH_NODE)).
Definition sumWeights g : res Z := res_fold (λ acc e, l <-- of_option (edgeOf g e) ;; Ok (acc + weight l)%Z) 0%Z (edges g).

Definition addBorderNode (id : N) g (prefix : string) : res (N * string * layoutGraph) := addDummyNode id g "border" (bare_node None None) prefix.

(** The values that [dfs] is called with. *)
Record nesting := Nesting { ng_root : string; ng_sep : Z; ng_weight : Z; ng_height : Z; ng_depths : obj Z }.

(** The edges between a cluster and one of its children. *)
Definition nest_child (k : nesting) v (top bottom : string) g (child : string) : res layoutGraph :=
  childNode <-- of_option (node g child) ;;
  let m := more childNode in
  let childTop := if truthy (borderTop m) then default child (borderTop m) else child in
  let childBottom := if truthy (borderBottom m) then default child (borderBottom m) else child in
  let thisWeight := if truthy (borderTop m) then ng_weight k else (2 * ng_weight k)%Z in
  d <-- of_option (oget (ng_depths k) v) ;;
  let ml := if decide (childTop = childBottom) then (ng_height k - d + 1)%Z else 1%Z in
  g <-- setEdge g top childTop (Some (Some (nesting_label thisWeight ml true))) None ;;
  setEdge g childBottom bottom (Some (Some (nesting_label thisWeight ml true))) None.

Fixpoint nest_dfs (fuel : nat) (k : nesting) (st : N * layoutGraph) v : res (N * layoutGraph) :=
  match fuel with
  | O => Throw (JsError "Maximum call stack size exceeded")
  | S fuel' =>
      let '(id, g) := st in
      cs <-- of_option (children g v) ;;
      match cs with
      | [] =>
          if decide (v = ng_root k) then Ok (id, g)
          else g <-- setEdge g (ng_root k) v (Some (Some (nesting_label 0 (ng_sep k) false))) None ;; Ok (id, g)
      | _ :: _ =>
          t <-- addBorderNode id g "_bt" ;;
          let '(id, top, g) := t in
          b <-- addBorderNode id g "_bb" ;;
          let '(id, bottom, g) := b in
          g <-- setParent g top (Some v) ;;
          g <-- updNode g v (with_more (λ m, with_borders (Some top) (borderBottom m) m)) ;;
          g <-- setParent g bottom (Some v) ;;
          g <-- updNode g v (with_more (λ m, with_borders (borderTop m) (Some bottom) m)) ;;
          st <-- res_fold (λ st child,
                   s <-- nest_dfs fuel' k st child ;;
                   g <-- nest_child k v top bottom s.2 child ;; Ok (s.1, g)) (id, g) cs ;;
          let '(id, g) := st in
          if truthy (parent g v) then Ok (id, g)
          else
            d <-- of_option (oget (ng_depths k) v) ;;
            g <-- setEdge g (ng_root k) top (Some (Some (nesting_label 0 (ng_height k + d) false))) None ;;
            Ok (id, g)
      end
  end.

Definition nesting_run (id : N) g : res (N * layoutGraph) :=
  r <-- addDummyNode id g "root" (bare_node None None) "_root" ;;
  let '(id, root, g) := r in
  depths <-- treeDepths g ;;
  (* the root has a depth *)
  h <-- of_option (Lodash.max (Coll.values depths)) ;;
  let height := (h - 1)%Z in
  let nodeSep := (2 * height + 1)%Z in
  g <-- updGraph g (with_nestingRoot (Some root)) ;;
  g <-- res_fold (λ g e, updEdge g e (λ l, with_minlen (minlen l * nodeSep) l)) g (edges g) ;;
  w <-- sumWeights g ;;
  let k := Nesting root nodeSep (w + 1) height depths in
  st <-- res_fold (nest_dfs (S (length (nodes g))) k) (id, g) (default [] (children g GRAPH_NODE)) ;;
  g <-- updGraph st.2 (with_nodeRankFactor nodeSep) ;;
  Ok (st.1, g).

(** [g.removeNode(undefined)] removes nothing. *)
Definition cleanup_edge g e : res layoutGraph := l <-- of_option (edgeOf g e) ;; if nestingEdge l then removeEdgeObj g e else Ok g.
Definition cleanup g : res layoutGraph :=
  gl <-- of_option (Graphlib.graph g) ;;
  g <-- removeNode g (default "undefined"%string (nestingRoot (gmore gl))) ;;
  g <-- updGraph g (with_nestingRoot None) ;;
  res_fold cleanup_edge g (edges g).

(** ** Empty ranks *)

(** The nodes at a distance from the first rank; a node without rank is in no layer. *)
Definition at_rank g (r : Z) : res (list string) :=
  res_fold (λ vs v, l <-- of_option (node g v) ;; Ok (if decide (rank l = Some r) then vs ++ [v] else vs)) [] (nodes g).
(** [i%nodeRankFactor!==0]; the remainder by [undefined] is [NaN]. *)
Definition off_factor (factor : option Z) (i : nat) : bool := match factor with Some k => bool_decide (Z.of_nat i mod k ≠ 0)%Z | None => true end.
Definition empty_step (g : layoutGraph) (offset : Z) (factor : option Z) (st : layoutGraph * Z) (i : nat) : res (layoutGraph * Z) :=
  let '(g', delta) := st in
  vs <-- at_rank g (offset + Z.of_nat i) ;;
  if bool_decide (vs = []) && off_factor factor i then Ok (g', (delta - 1)%Z)
  else if decide (delta = 0)%Z then Ok (g', delta)
  else g' <-- res_fold (λ g v, updNode g v (λ n, set_rank ((λ r, r + delta)%Z <$> rank n) n)) g' vs ;; Ok (g', delta).
(** [layers] has an entry for every distance up to the largest. *)
Definition removeEmptyRanks g : res layoutGraph :=
  rs <-- ranks_of g ;;
  gl <-- of_option (Graphlib.graph g) ;;
  match Lodash.min rs, Lodash.max rs with
  | Some lo, Some hi =>
      st <-- res_fold (empty_step g lo (nodeRankFactor (gmore gl))) (g, 0%Z) (seq 0 (Z.to_nat (hi - lo + 1))) ;; Ok st.1
  | _, _ => Ok g
  end.

(** ** The ranks of clusters *)

(** [_.max(maxRank,node.maxRank)] of a number is [undefined]. *)
Definition rank_min_max (st : layoutGraph * option Z) v : res (layoutGraph * option Z) :=
  let '(g, maxRank) := st in
  n <-- of_option (node g v) ;;
  match borderTop (more n) with
  | Some top =>
      if truthy (Some top) then
        nt <-- of_option (node g top) ;;
        bottom <-- of_option (borderBottom (more n)) ;;
        nb <-- of_option (node g bottom) ;;
        g <-- updNode g v (with_more (with_ranks (rank nt) (rank nb))) ;;
        Ok (g, None)
      else Ok st
  | None => Ok st
  end.
Definition assignRankMinMax g : res layoutGraph :=
  st <-- res_fold rank_min_max (g, Some 0%Z) (nodes g) ;;
  updGraph st.1 (with_maxRank st.2).

(** ** Ranks for labels of edges *)

(** [(w.rank-v.rank)/2+v.rank]; when the difference is odd the result is no rank, and no pass treats it as one. *)
Definition half_way (rv rw : option Z) : option Z := a ← rv; b ← rw; if Z.even (b - a) then Some ((b - a) / 2 + a)%Z else None.
Definition proxy_node (r : option Z) e : nodeLabel :=
  NodeLabel 0%Q 0%Q None None r None None None None (NodeMore None None None None None None None None (Some e) None None).
Definition inject_proxy (st : N * layoutGraph) e : res (N * layoutGraph) :=
  let '(id, g) := st in
  l <-- of_option (edgeOf g e) ;;
  if Qeq_bool (ewidth l) 0 || Qeq_bool (eheight l) 0 then Ok st
  else
    nv <-- of_option (node g (ev e)) ;;
    nw <-- of_option (node g (ew e)) ;;
    d <-- addDummyNode id g "edge-proxy" (proxy_node (half_way (rank nv) (rank nw)) e) "_ep" ;;
    let '(id, _, g) := d in Ok (id, g).
Definition injectEdgeLabelProxies (id : N) g : res (N * layoutGraph) := res_fold inject_proxy (id, g) (edges g).

Definition remove_proxy g v : res layoutGraph :=
  n <-- of_option (node g v) ;;
  if decide (dummy n = Some "edge-proxy"%string) then
    e <-- of_option (ne (more n)) ;;
    g <-- updEdge g e (with_labelRank (rank n)) ;;
    removeNode g v
  else Ok g.
Definition removeEdgeLabelProxies g : res layoutGraph := res_fold remove_proxy g (nodes g).

(** ** The borders of clusters *)

(** [sgNode[prop][rank]] of a sparse array. *)
Definition array_get (row : list (option string)) (r : Z) : option string := if decide (0 ≤ r)%Z then mjoin (row !! Z.to_nat r) else None.
Definition side_of (left : bool) (m : nodeMore) : list (option string) := default [] (if left then borderLeft m else borderRight m).
Definition set_side (left : bool) (row : list (option string)) (m : nodeMore) : nodeMore :=
  if left then with_sides (Some row) (borderRight m) m else with_sides (borderLeft m) (Some row) m.

(** [addBorderNode(g,prop,prefix,sg,sgNode,rank)]; [left] tells the property. *)
Definition add_segment (sg : string) (r : Z) (st : N * layoutGraph) (left : bool) : res (N * layoutGraph) :=
  let '(id, g) := st in
  sgNode <-- of_option (node g sg) ;;
  let prev := array_get (side_of left (more sgNode)) (r - 1) in
  d <-- addDummyNode id g "border" (bare_node (Some r) (Some (if left then "borderLeft" else "borderRight")%string)) (if left then "_bl" else "_br")%string ;;
  let '(id, curr, g) := d in
  g <-- updNode g sg (with_more (λ m, set_side left (array_set (side_of left m) (Z.to_nat r) curr) m)) ;;
  g <-- setParent g curr (Some sg) ;;
  g <-- (if truthy prev then setEdge g (default curr prev) curr (Some (Some (segment 1))) None else Ok g) ;;
  Ok (id, g).

Fixpoint segments_dfs (fuel : nat) (st : N * layoutGraph) v : res (N * layoutGraph) :=
  match fuel with
  | O => Throw (JsError "Maximum call stack size exceeded")
  | S fuel' =>
      let '(id, g) := st in
      cs <-- of_option (children g v) ;;
      st <-- res_fold (segments_dfs fuel') (id, g) cs ;;
      let '(id, g) := st in
      n <-- of_option (node g v) ;;
      match minRank (more n), nmaxRank (more n) with
      | Some lo, Some hi =>
          g <-- updNode g v (with_more (with_sides (Some []) (Some []))) ;;
          res_fold (λ st r, st <-- add_segment v r st true ;; add_segment v r st false) (id, g) (seqZ lo (hi + 1 - lo))
      | Some _, None => g <-- updNode g v (with_more (with_sides (Some []) (Some []))) ;; Ok (id, g)
      | None, _ => Ok (id, g)
      end
  end.
Definition addBorderSegments (id : N) g : res (N * layoutGraph) :=
  res_fold (segments_dfs (S (length (nodes g)))) (id, g) (default [] (children g GRAPH_NODE)).

(** [t], [b], [l] and [r] have coordinates after [position]. *)
Definition fit_cluster g v : res layoutGraph :=
  cs <-- of_option (children g v) ;;
  match cs with
  | [] => Ok g
  | _ :: _ =>
      n <-- of_option (node g v) ;;
      t <-- of_option (borderTop (more n) ≫= node g) ;;
      b <-- of_option (borderBottom (more n) ≫= node g) ;;
      lf <-- of_option (mjoin (borderLeft (more n) ≫= list.last) ≫= node g) ;;
      rt <-- of_option (mjoin (borderRight (more n) ≫= list.last) ≫= node g) ;;
      let w := Qabs <$> qsub (nx rt) (nx lf) in
      let h := Qabs <$> qsub (ny b) (ny t) in
      updNode g v (λ n, with_xy (qadd (nx lf) (qdiv w (Some 2%Q))) (qadd (ny t) (qdiv h (Some 2%Q))) (with_size (default 0%Q w) (default 0%Q h) n))
  end.
Definition remove_border g v : res layoutGraph :=
  n <-- of_option (node g v) ;; if decide (dummy n = Some "border"%string) then removeNode g v else Ok g.
Definition removeBorderNodes g : res layoutGraph :=
  g <-- res_fold fit_cluster g (nodes g) ;; res_fold remove_border g (nodes g).

(** ** The clusters that long edges cross *)

Record span := Span { sp_low : Z; sp_lim : Z }.
Fixpoint spans_dfs (fuel : nat) g (st : obj span * Z) v : res (obj span * Z) :=
  match fuel with
  | O => Throw (JsError "Maximum call stack size exceeded")
  | S fuel' =>
      let lo := st.2 in
      st <-- res_fold (spans_dfs fuel' g) st (default [] (children g v)) ;;
      Ok (oset st.1 v (Span lo st.2), (st.2 + 1)%Z)
  end.
Definition postorderNums g : res (obj span) :=
  st <-- res_fold (spans_dfs (S (length (nodes g))) g) ([], 0%Z) (default [] (children g GRAPH_NODE)) ;; Ok st.1.

(** [do{parent=g.parent(parent);vPath.push(parent)}while(...)]. *)
Fixpoint climb_v (fuel : nat) g (nums : obj span) (lo hi : Z) (path : list (option string)) v : res (list (option string) * option string) :=
  match fuel with
  | O => Throw (JsError "out of fuel")
  | S fuel' =>
      let p := parent g v in
      let path := path ++ [p] in
      if truthy p then
        p' <-- of_option p ;;
        s <-- of_option (oget nums p') ;;
        if bool_decide (lo < sp_low s)%Z || bool_decide (sp_lim s < hi)%Z then climb_v fuel' g nums lo hi path p' else Ok (path, p)
      else Ok (path, p)
  end.
(** [while((parent=g.parent(parent))!==lca)wPath.push(parent)]. *)
Fixpoint climb_w (fuel : nat) g (lca : option string) (path : list (option string)) (w : option string) : res (list (option string)) :=
  match fuel with
  | O => Throw (JsError "out of fuel")
  | S fuel' =>
      let p := w ≫= parent g in
      if decide (p = lca) then Ok path else climb_w fuel' g lca (path ++ [p]) p
  end.
Definition findPath g (nums : obj span) v w : res (list (option string) * option string) :=
  sv <-- of_option (oget nums v) ;;
  sw <-- of_option (oget nums w) ;;
  r <-- climb_v (S (length (nodes g))) g nums (Z.min (sp_low sv) (sp_low sw)) (Z.max (sp_lim sv) (sp_lim sw)) [] v ;;
  wPath <-- climb_w (S (length (nodes g))) g r.2 [] (Some w) ;;
  Ok (r.1 ++ reverse wPath, r.2).

(** Comparisons of ranks; one with [undefined] is false. *)
Definition rank_lt (a b : option Z) : bool := match a, b with Some x, Some y => bool_decide (x < y)%Z | _, _ => false end.
Definition rank_le (a b : option Z) : bool := match a, b with Some x, Some y => bool_decide (x ≤ y)%Z | _, _ => false end.

Fixpoint ascend (fuel : nat) g (path : list (option string)) (lca : option string) (r : option Z) (i : nat) : res nat :=
  let pathV := mjoin (path !! i) in
  if decide (pathV = lca) then Ok i
  else
    n <-- of_option (pathV ≫= node g) ;;
    if rank_lt (nmaxRank (more n)) r then
      match fuel with O => Throw (JsError "out of fuel") | S fuel' => ascend fuel' g path lca r (S i) end
    else Ok i.
Fixpoint descend (fuel : nat) g (path : list (option string)) (r : option Z) (i : nat) : res nat :=
  if decide (S i < length path) then
    n <-- of_option (mjoin (path !! S i) ≫= node g) ;;
    if rank_le (minRank (more n)) r then
      match fuel with O => Throw (JsError "out of fuel") | S fuel' => descend fuel' g path r (S i) end
    else Ok i
  else Ok i.

(** [while(v!==edgeObj.w)] along the dummies of an edge. *)
Fixpoint parent_chain (fuel : nat) (path : list (option string)) (lca : option string) w (i : nat) (ascending : bool) g v : res layoutGraph :=
  if decide (v = w) then Ok g
  else
    match fuel with
    | O => Throw (JsError "out of fuel")
    | S fuel' =>
        n <-- of_option (node g v) ;;
        i <-- (if ascending then ascend (S (length path)) g path lca (rank n) i else Ok i) ;;
        let ascending := ascending && negb (bool_decide (mjoin (path !! i) = lca)) in
        i <-- (if ascending then Ok i else descend (length path) g path (rank n) i) ;;
        g <-- setParent g v (mjoin (path !! i)) ;;
        ss <-- of_option (successors g v) ;;
        v' <-- of_option (head ss) ;;
        parent_chain fuel' path lca w i ascending g v'
    end.
Definition parent_dummies (nums : obj span) g v : res layoutGraph :=
  n <-- of_option (node g v) ;;
  e <-- of_option (origObj (more n)) ;;
  r <-- findPath g nums (ev e) (ew e) ;;
  parent_chain (length (nodes g)) r.1 r.2 (ew e) 0 true g v.
Definition parentDummyChains g : res layoutGraph :=
  nums <-- postorderNums g ;;
  gl <-- of_option (Graphlib.graph g) ;;
  res_fold (parent_dummies nums) g (default [] (dummyChains (gmore gl))).

(** ** Loops *)

Definition remove_loop g e : res layoutGraph :=
  if decide (ev e = ew e) then
    l <-- of_option (edgeOf g e) ;;
    g <-- updNode g (ev e) (with_more (λ m, with_selfEdges (Some (default [] (selfEdges m) ++ [(e, l)])) m)) ;;
    removeEdgeObj g e
  else Ok g.
Definition removeSelfEdges g : res layoutGraph := res_fold remove_loop g (edges g).

Definition loop_node (e : edgeObj) l (r : option Z) (o : Z) : nodeLabel :=
  NodeLabel (ewidth l) (eheight l) None None r (Some o) None None None (NodeMore None None None None None None None None (Some e) (Some l) None).
Record loop_state := LoopState { lo_id : N; lo_graph : layoutGraph; lo_shift : Z }.
Definition insert_loop (i : Z) (r : option Z) (st : loop_state) (se : edgeObj * edgeLabel) : res loop_state :=
  let shift := (lo_shift st + 1)%Z in
  d <-- addDummyNode (lo_id st) (lo_graph st) "selfedge" (loop_node se.1 se.2 r (i + shift)) "_se" ;;
  let '(id, _, g) := d in Ok (LoopState id g shift).
Definition insert_loops (st : loop_state) (iv : nat * option string) : res loop_state :=
  let i := Z.of_nat iv.1 in
  v <-- of_option iv.2 ;;
  g <-- updNode (lo_graph st) v (with_order (i + lo_shift st)) ;;
  n <-- of_option (node g v) ;;
  st <-- res_fold (insert_loop i (rank n)) (LoopState (lo_id st) g (lo_shift st)) (default [] (selfEdges (more n))) ;;
  g <-- updNode (lo_graph st) v (with_more (with_selfEdges None)) ;;
  Ok (LoopState (lo_id st) g (lo_shift st)).
Definition insertSelfEdges (id : N) g : res (N * layoutGraph) :=
  layers <-- buildLayerMatrix g ;;
  res_fold (λ st layer,
    s <-- res_fold insert_loops (LoopState st.1 st.2 0) (imap pair layer) ;; Ok (lo_id s, lo_graph s)) (id, g) layers.

(** The five points of a loop on the right of its node. *)
Definition loop_points (selfNode n : nodeLabel) : list point :=
  let x := qadd (nx selfNode) (Some (width selfNode / 2)%Q) in
  let y := ny selfNode in
  let dx := qsub (nx n) x in
  let dy := Some (height selfNode / 2)%Q in
  let part (a b : Q) := qadd x (qdiv (qmul (Some a) dx) (Some b)) in
  [Point (part 2%Q 3%Q) (qsub y dy); Point (part 5%Q 6%Q) (qsub y dy); Point (qadd x dx) y; Point (part 5%Q 6%Q) (qadd y dy); Point (part 2%Q 3%Q) (qadd y dy)].
Definition position_loop g v : res layoutGraph :=
  n <-- of_option (node g v) ;;
  if decide (dummy n = Some "selfedge"%string) then
    e <-- of_option (ne (more n)) ;;
    l <-- of_option (nlabel (more n)) ;;
    selfNode <-- of_option (node g (ev e)) ;;
    g <-- setEdgeObj g e (Some (Some (with_exy (nx n) (ny n) (with_points (Some (loop_points selfNode n)) l)))) ;;
    removeNode g v
  else Ok g.
Definition positionSelfEdges g : res layoutGraph := res_fold position_loop g (nodes g).
End Clusters.
