(* ===== verification/DagreRunLayout.v ===== *)
(** * dagre: the sequence of passes ([runLayout] of lib/layout.js)

    All passes of the layout in the order in which the code calls them.  The counter of lodash's [uniqueId], which names dummy nodes and reversed
    edges, is threaded through; [acyclicer] and [ranker] are attributes of the graph label that no pass writes; [turns] bounds the loop of network simplex. *)
From Stdlib Require Import QArith_base.
Local Close Scope Q_scope.
From S2P Require Import Prelude JsObject Graphlib GraphWf GraphInv GraphRemove GraphQuery GraphView Lodash DagreTypes DagreAcyclic DagreRank DagreTree DagreRankClaims DagreSimplex DagreBk DagreUtil DagreOrder DagrePosition DagreNormalize DagreRemap DagreGeometry DagreClusters.

(** [rank(util.asNonCompoundGraph(g))]: the copy shares the labels. *)
Definition rank_pass (ranker : option string) (turns : nat) (g : layoutGraph) : res layoutGraph :=
  s <-- asNonCompoundGraph g ;;
  s <-- rankWith ranker turns s ;;
  share_labels g s.

(** The passes up to [removeEdgeLabelProxies] give every node a rank. *)
Definition ranking (acyclicer ranker : option string) (turns : nat) (id : N) (g : layoutGraph) : res (N * layoutGraph) :=
  g <-- makeSpaceForEdgeLabels g ;;
  g <-- removeSelfEdges g ;;
  a <-- DagreAcyclic.run acyclicer g id ;;
  n <-- nesting_run a.2 a.1 ;;
  g <-- rank_pass ranker turns n.2 ;;
  p <-- injectEdgeLabelProxies n.1 g ;;
  g <-- removeEmptyRanks p.2 ;;
  g <-- cleanup g ;;
  g <-- normalizeRanks g ;;
  g <-- assignRankMinMax g ;;
  g <-- removeEdgeLabelProxies g ;;
  Ok (p.1, g).

(** The passes from [normalize.run] to [removeBorderNodes] place the nodes. *)
Definition placing (id : N) (g : layoutGraph) : res (N * layoutGraph) :=
  n <-- DagreNormalize.run id g ;;
  g <-- parentDummyChains n.2 ;;
  b <-- addBorderSegments n.1 g ;;
  o <-- Pass.order b.1 b.2 ;;
  s <-- insertSelfEdges o.1 o.2 ;;
  g <-- adjust s.2 ;;
  g <-- position g ;;
  g <-- positionSelfEdges g ;;
  g <-- removeBorderNodes g ;;
  Ok (s.1, g).

(** The passes from [normalize.undo] to [acyclic.undo] draw the edges. *)
Definition drawing (g : layoutGraph) : res layoutGraph :=
  g <-- DagreNormalize.undo g ;;
  g <-- fixupEdgeLabelCoords g ;;
  g <-- DagreGeometry.undo g ;;
  g <-- translateGraph g ;;
  g <-- assignNodeIntersects g ;;
  g <-- reversePointsForReversedEdges g ;;
  DagreAcyclic.undo g.

Definition runLayout (acyclicer ranker : option string) (turns : nat) (id : N) (g : layoutGraph) : res (N * layoutGraph) :=
  r <-- ranking acyclicer ranker turns id g ;;
  p <-- placing r.1 r.2 ;;
  g <-- drawing p.2 ;;
  Ok (p.1, g).
