(* ===== verification/DagreFlatNest.v ===== *)
(** * dagre: graphs without clusters

    A compound graph in which every node is a child of the root.  The mutators that the passes use keep it so, and the passes
    [acyclic.run] and [acyclic.undo] are followed through with labels that other passes have changed in between. *)
From stdpp Require Import pretty.
From Stdlib Require Import QArith_base.
Local Close Scope Q_scope.
From S2P Require Import Prelude JsObject Graphlib GraphWf GraphInv GraphRemove GraphQuery GraphView GraphAlg Lodash DagreTypes DagreFas DagreAcyclic DagreUtil DagreNormalize DagreRemap DagreNormalizeRun DagreSimplexTree DagreRankedLayout.

Section Flat.
Context {L N E : Type}.
Implicit Types (g h : Graph L N E) (v u p : string) (x e : edgeObj).

Record flat_tree g : Prop := {
  ft_compound : isCompound g = true;
  ft_root : ∀ v p, oget (parent_ g) v = Some p → p = GRAPH_NODE
}.

Lemma flat_leaf g v : wf g → flat_tree g → isNode g v → leaf g v = true.
Proof.
  intros Hwf [Hc Hr] Hv. apply leaf_iff; [done|done|]. intros _ u Hu. apply Hr in Hu as ->. by destruct (wf_plain _ Hwf _ Hv).
Qed.

Lemma flat_children g v : wf g → flat_tree g → isNode g v → children g v = Some [].
Proof. intros Hwf Hf Hv. pose proof (flat_leaf g v Hwf Hf Hv) as Hl. unfold leaf in Hl. by destruct (children g v) as [[|]|]. Qed.

Lemma flat_no_parent g v : flat_tree g → parent g v = None.
Proof.
  intros [Hc Hr]. unfold parent. rewrite Hc. destruct (oget (parent_ g) v) as [p|] eqn:Hp; [|done]. by rewrite decide_True by (by eapply Hr).
Qed.

(** The children of the root are the nodes. *)
Lemma flat_roots g : wf g → flat_tree g → ∃ cs, children g GRAPH_NODE = Some cs ∧ NoDup cs ∧ ∀ v, v ∈ cs ↔ isNode g v.
Proof.
  intros Hwf [Hc Hr]. unfold children. rewrite Hc. pose proof (wf_tree _ Hwf Hc) as T.
  destruct (proj2 (tok_children _ _ _ _ T GRAPH_NODE)) as [cs Hcs]; [by left|]. rewrite Hcs. destruct (tok_child _ _ _ _ T _ _ Hcs) as [Hw Hch].
  exists (okeys cs). split_and!; [done|by apply NoDup_okeys|]. intros v. rewrite elem_of_okeys, Hch, <-(tok_parent _ _ _ _ T). split; [by eexists|].
  intros [p Hp]. by rewrite Hp, (Hr _ _ Hp).
Qed.

Lemma flat_ext g h : flat_tree g → isCompound h = isCompound g → (∀ u p, oget (parent_ h) u = Some p → p = GRAPH_NODE ∨ oget (parent_ g) u = Some p) → flat_tree h.
Proof. intros [H1 H2] Hc Hp. split; [congruence|]. intros v p Hv. destruct (Hp v p Hv) as [?|?]; [done|by eapply H2]. Qed.

Lemma flat_remapped g fn fe h : flat_tree g → remapped g fn fe h → flat_tree h.
Proof. intros Hf R. destruct (remapped_queries _ _ _ _ R) as (_ & _ & _ & _ & Hc & Hp & _). apply (flat_ext g); [done|done|]. rewrite Hp. by right. Qed.

Lemma flat_relabelled g f h : flat_tree g → relabelled g f h → flat_tree h.
Proof. intros Hf R. destruct (relabelled_queries _ _ _ R) as (_ & _ & Hc & _ & _ & _ & _ & Hp & _). apply (flat_ext g); [done|done|]. rewrite Hp. by right. Qed.

Lemma flat_setEdge g v w value name h : flat_tree g → setEdge_post g v w value name h → flat_tree h ∧ glabel h = glabel g.
Proof.
  intros Hf P. destruct (se_options _ _ _ _ _ _ P) as (_ & _ & Hc & Hl & _). split; [|done]. apply (flat_ext g); [done|done|]. intros u p.
  rewrite (se_parent _ _ _ _ _ _ P) by apply Hf. destruct (oget (parent_ g) u); [by right|]. case_decide; [|done]. intros [= <-]. by left.
Qed.

Lemma flat_setEdge_view g x value h : flat_tree g → setEdge_view g x value h → flat_tree h ∧ glabel h = glabel g.
Proof.
  intros Hf P. destruct (sev_options _ _ _ _ P) as (_ & _ & Hc & Hl & _). split; [|done]. apply (flat_ext g); [done|done|]. intros u p.
  rewrite (sev_parent _ _ _ _ P) by apply Hf. destruct (oget (parent_ g) u); [by right|]. case_decide; [|done]. intros [= <-]. by left.
Qed.

Lemma flat_removeEdge_view g x h : flat_tree g → removeEdge_view g x h → flat_tree h ∧ glabel h = glabel g.
Proof. intros Hf P. destruct (rev_options _ _ _ P) as (_ & Hc & Hl). split; [|done]. apply (flat_ext g); [done|done|]. rewrite (rev_parent _ _ _ P). by right. Qed.

Lemma flat_setParent g v h : flat_tree g → setParent_post g v None h → flat_tree h ∧ glabel h = glabel g.
Proof.
  intros Hf P. destruct (sp_options _ _ _ _ P) as (_ & _ & Hc & Hl & _). split; [|done]. apply (flat_ext g); [done|done|]. intros u p.
  rewrite (sp_parent _ _ _ _ P). case_decide; [intros [= <-]; by left|]. destruct (oget (parent_ g) u); [by right|done].
Qed.

Lemma removeNode_flat g v : digraph g → flat_tree g → isNode g v → ∃ h, removeNode g v = Ok h ∧ removeNode_view g v h ∧ flat_tree h.
Proof.
  intros Hg Hf Hv. destruct (removeNode_view_ok g v Hg Hv) as (h & Hr & V). destruct (removeNode_ok g v (dg_wf _ Hg) Hv) as (h' & Hr' & P). assert (h' = h) as -> by congruence.
  exists h. split_and!; [done|done|]. apply (flat_ext g); [done|apply P|]. intros u p. rewrite (rn_parent _ _ _ P) by apply Hf.
  case_decide; [done|]. case_decide; [intros [= <-]; by left|by right].
Qed.
End Flat.

(** ** The acyclic pass *)

Section Acyclic.
Context {L N : Type}.
Implicit Types (g h : Graph L N edgeLabel) (x e : edgeObj).

(** A state of the pass that only adds and removes edges. *)
Definition tree_kept g h : Prop := digraph h ∧ isMultigraph h = true ∧ flat_tree h ∧ glabel h = glabel g ∧ ∀ v, isNode h v ↔ isNode g v.

Lemma replace_edge_flat g h x y l h' :
  tree_kept g h → plain_edge x → plain_edge y → isNode g (ev y) → isNode g (ew y) →
  (g1 <-- removeEdgeObj h x ;; setEdge g1 (ev y) (ew y) (Some l) (ename y)) = Ok h' → tree_kept g h'.
Proof.
  intros (D & M & F & G & Hn) Hx Hy Hv Hw. destruct (removeEdge_view_ok h x D Hx) as (g1 & -> & P1). cbn [res_bind].
  destruct (flat_removeEdge_view _ _ _ F P1) as [F1 G1]. destruct (rev_options _ _ _ P1) as (M1 & _).
  destruct (setEdge_view_ok g1 y (Some l) (rev_digraph _ _ _ P1) Hy) as (g2 & -> & P2); [right; congruence|]. intros [= <-].
  destruct (flat_setEdge_view _ _ _ _ F1 P2) as [F2 G2]. destruct (sev_options _ _ _ _ P2) as (_ & M2 & _).
  assert (∀ v, isNode g1 v ↔ isNode g v) as Hn1 by (intros v; rewrite <-Hn; unfold isNode; by rewrite (rev_nodes _ _ _ P1)).
  split_and!; [apply P2|congruence|done|congruence|]. intros v. rewrite <-Hn1. unfold isNode. rewrite (sev_nodes_same _ _ _ _ _ P2) by (by apply Hn1). done.
Qed.

Lemma reverse_edges_flat g c l g' c' :
  reversible g c → flat_tree g → (∀ e, e ∈ l → e ∈ edges g) → reverse_edges g c l = Ok (g', c') → flat_tree g' ∧ glabel g' = glabel g.
Proof.
  intros Hrv Hf Hl Hr. pose proof (rv_digraph _ _ Hrv) as Hg. enough (tree_kept g g') as (_ & _ & ? & ? & _) by done.
  enough (∀ st st', tree_kept g st.1 → res_fold reverse_edge st l = Ok st' → tree_kept g st'.1) as Hall by
    (apply (Hall (g, c) (g', c')); [split_and!; [done|apply Hrv|done|done|done]|exact Hr]).
  clear Hr g' c'. induction l as [|e l IH]; intros [h i] st' Hk; cbn [res_fold]; [by intros [= <-]|].
  destruct (reverse_edge (h, i) e) as [st1|] eqn:He; [|done]. cbn [res_bind]. apply IH; [intros; apply Hl; by right|].
  unfold reverse_edge in He. destruct (edgeOf h e) as [le|]; [|done]. cbn [of_option res_bind] in He. destruct (removeEdgeObj h e) as [h1|] eqn:Hrm; [|done]. cbn [res_bind] in He.
  destruct (uniqueId i "rev") as [i2 name] eqn:Hid. destruct (setEdge h1 (ew e) (ev e) _ _) as [h2|] eqn:Hs; [|done]. injection He as <-. cbn.
  assert (e ∈ edges g) as Heg by (apply Hl; by left). destruct (edges_nodes g e (dg_wf _ Hg) Heg). pose proof (digraph_edge g e Hg Heg) as Hpl.
  apply (replace_edge_flat g h e (EdgeObj (ew e) (ev e) (Some name)) (Some (with_reversed true (ename e) le)) h2); [done|done| |done|done|by rewrite Hrm].
  destruct Hpl as (? & ? & _). split; [done|]. split; [done|]. unfold uniqueId in Hid. injection Hid as <- <-.
  split; intros [= Heq]; apply (f_equal (String.get 0)) in Heq; cbn in Heq; discriminate.
Qed.

(** [undo] after the labels, but not the marks of the reversed edges, have been changed.  The result is what [undo] would make of a graph
    that had had these labels from the start. *)
Record relabelled_edges g' h : Prop := {
  re_digraph : digraph h;
  re_multi : isMultigraph h = true;
  re_node : ∀ v, isNode h v ↔ isNode g' v;
  re_labelled : ∀ v, isNode h v → is_Some (node h v);
  re_edge : ∀ x l, elookup g' x = Some (Some l) → ∃ l', elookup h x = Some (Some l') ∧ reversed l' = reversed l ∧ forwardName l' = forwardName l;
  re_only : ∀ x, x ∈ edges h → x ∈ edges g'
}.

Definition restored_label c (l : list edgeObj) h x : option edgeLabel :=
  match list_find (λ e, e = x) l with
  | Some (i, _) => with_reversed false None <$> edgeOf h (turned c i x)
  | None => edgeOf h x
  end.

Lemma restored_turned c (l : list edgeObj) h i e : NoDup l → l !! i = Some e → restored_label c l h e = with_reversed false None <$> edgeOf h (turned c i e).
Proof.
  intros Hnd Hi. unfold restored_label. assert (list_find (λ x, x = e) l = Some (i, e)) as ->; [|done].
  apply list_find_Some. split_and!; [done|done|]. intros j y Hj Hlt ->. pose proof (NoDup_lookup _ _ _ _ Hnd Hi Hj). lia.
Qed.

Lemma restored_kept c (l : list edgeObj) h x : x ∉ l → restored_label c l h x = edgeOf h x.
Proof.
  intros Hx. unfold restored_label. destruct (list_find _ l) as [[i y]|] eqn:Hf; [|done]. apply list_find_Some in Hf as (Hi & -> & _).
  destruct Hx. by eapply list_elem_of_lookup_2.
Qed.

Lemma with_reversed_marks r name l : reversed l = r → forwardName l = name → with_reversed r name (with_reversed false None l) = l.
Proof. intros <- <-. by destruct l. Qed.

Lemma undo_relabelled g c (l : list edgeObj) g' h :
  reversible g c → NoDup l → (∀ e, e ∈ l → e ∈ edges g) → (∀ v, isNode g v → is_Some (node g v)) → reversed_upto g c l g' → relabelled_edges g' h →
  ∃ g'', DagreAcyclic.undo h = Ok g'' ∧ digraph g'' ∧ (∀ v, oget (nodes_ g'') v = oget (nodes_ h) v) ∧ (∀ x, x ∈ edges g'' ↔ x ∈ edges g) ∧
    ∀ x, x ∈ edges g → is_Some (edgeOf g'' x) ∧ edgeOf g'' x = restored_label c l h x.
Proof.
  intros Hrv Hnd Hl Hlab Hu Hre. pose proof (rv_digraph _ _ Hrv) as Hg. pose proof (dg_wf _ Hg) as Hwf.
  assert (DagreRemap.labelled g) as Hlb.
  { split; [done|apply Hrv|done|]. intros x Hx. destruct (rv_label _ _ Hrv x Hx) as (lx & Hlx & _). rewrite edgeOf_elookup, Hlx by done. by eexists. }
  destruct (remap_ok g (λ v lg, default lg (node h v)) (λ x lg, default lg (restored_label c l h x)) Hlb) as (k & _ & R).
  destruct (remapped_queries _ _ _ _ R) as (He & _ & Hm & _). pose proof (re_digraph _ _ Hre) as Hh.
  assert (∀ x lx, elookup h x = Some (Some lx) → edgeOf h x = Some lx) as Hof.
  { intros x lx Hx. rewrite edgeOf_elookup, Hx; [done|apply Hh|]. apply elookup_Some; [apply Hh|by rewrite Hx]. }
  (* the label that every edge is going to have *)
  assert (∀ x, x ∈ edges g → ∃ lh, restored_label c l h x = Some lh ∧ elookup k x = Some (Some lh) ∧ reversed lh = false ∧ forwardName lh = None ∧
    (x ∉ l → elookup h x = Some (Some lh)) ∧ ∀ i, l !! i = Some x → elookup h (turned c i x) = Some (Some (with_reversed true (ename x) lh))) as Hlabel.
  { intros x Hx. destruct (rv_label _ _ Hrv x Hx) as (lx & Hlx & Hrx & Hfx). destruct (decide (x ∈ l)) as [[i Hi]%list_elem_of_lookup|Hxl].
    - destruct (re_edge _ _ Hre _ _ (ru_turned _ _ _ _ Hu i x lx Hi Hlx)) as (lh & Hlh & Hr1 & Hf1). cbn in Hr1, Hf1.
      assert (restored_label c l h x = Some (with_reversed false None lh)) as Hres by (by rewrite (restored_turned c l h i x Hnd Hi), (Hof _ _ Hlh)).
      exists (with_reversed false None lh). split_and!; [done|by rewrite (rm_edges _ _ _ _ R), Hlx; cbn; rewrite Hres|done|done| |].
      + intros Hn. destruct Hn. by eapply list_elem_of_lookup_2.
      + intros j Hj. assert (j = i) as -> by (by eapply NoDup_lookup). by rewrite with_reversed_marks.
    - assert (elookup g' x = Some (Some lx)) as Hl' by (rewrite (ru_kept _ _ _ _ Hu) by done; by rewrite decide_False).
      destruct (re_edge _ _ Hre _ _ Hl') as (lh & Hlh & Hr1 & Hf1). exists lh.
      assert (restored_label c l h x = Some lh) as Hres by (rewrite restored_kept by done; by apply Hof).
      split_and!; [done|by rewrite (rm_edges _ _ _ _ R), Hlx; cbn; rewrite Hres|congruence|congruence|done|]. intros i Hi. destruct Hxl. by eapply list_elem_of_lookup_2. }
  assert (reversible k c) as Hrk.
  { split; [apply R|rewrite Hm; apply Hrv| |].
    - intros x. rewrite He. intros Hx. destruct (Hlabel x Hx) as (lh & _ & ? & ? & ? & _). by exists lh.
    - intros x i. rewrite He. by apply Hrv. }
  assert (reversed_upto k c l h) as Huk.
  { split; [done|apply Hre| | | |].
    - intros v. rewrite (rm_nodes _ _ _ _ R). assert (isNode h v ↔ isNode g v) as Hn by (rewrite (re_node _ _ Hre); unfold isNode; by rewrite (ru_nodes _ _ _ _ Hu)).
      destruct (oget (nodes_ g) v) as [o|] eqn:Hv; cbn.
      + assert (isNode g v) as Hvg by (by exists o). destruct (Hlab v Hvg) as [lg Hlg]. unfold node in Hlg. rewrite Hv in Hlg. cbn in Hlg. subst o.
        destruct (re_labelled _ _ Hre v (proj2 Hn Hvg)) as [lh Hlh]. rewrite Hlh. cbn. unfold node in Hlh. destruct (oget (nodes_ h) v) as [o|]; [|done]. cbn in Hlh. by rewrite Hlh.
      + apply eq_None_not_Some. intros [? ?]%Hn. congruence.
    - intros y. rewrite He. intros Hy. destruct (Hlabel y Hy) as (lh & _ & -> & _ & _ & Hk & _). case_decide as Hyl; [|by apply Hk].
      apply elookup_None; [apply Hh|]. intros Hin%(re_only _ _ Hre). apply elookup_Some in Hin; [|apply Hu]. rewrite (ru_kept _ _ _ _ Hu), decide_True in Hin by done. by destruct Hin.
    - intros i e le Hi Hle. assert (e ∈ edges g) as Heg by (by eapply Hl, list_elem_of_lookup_2). destruct (Hlabel e Heg) as (lh & _ & Hk & _ & _ & _ & Ht).
      assert (lh = le) as -> by congruence. by apply Ht.
    - intros y Hy%(re_only _ _ Hre). rewrite He. by apply (ru_only _ _ _ _ Hu). }
  destruct (undo_reversed k c l h Hrk Hnd) as (g'' & Hun & Hg'' & Hel & Hns); [rewrite He; done|done|].
  assert (∀ x, x ∈ edges g'' ↔ x ∈ edges g) as Hes.
  { intros x. rewrite <-He, <-(elookup_Some g''), <-(elookup_Some k), Hel; [done|apply R|apply Hg'']. }
  exists g''. split_and!; [done|done| |done|].
  - intros v. rewrite Hns. symmetry. apply Huk.
  - intros x Hx. destruct (Hlabel x Hx) as (lh & Hres & Hk & _). rewrite Hres, edgeOf_elookup, Hel, Hk by (apply Hg'' || by apply Hes). split; [by eexists|done].
Qed.
End Acyclic.

(** ** The label of the graph *)

Ltac ok_step H E := match type of H with res_bind ?x _ = Ok _ => destruct x eqn:E; cbn [res_bind] in H; [|done] end.

Section Label.
Context {L N E : Type}.
Implicit Types (g : Graph L N E).

Lemma setNode_glabel g v value g' : setNode g v value = Ok g' → glabel g' = glabel g.
Proof.
  unfold setNode. destruct (hasNode g v); [intros [= <-]; by destruct value|]. intros H. ok_step H E0. injection H as <-. destruct (isCompound (with_nodes _ _ g)); [ok_step E0 E1|]; by injection E0 as <-.
Qed.

Lemma setEdge_glabel g v w value name g' : setEdge g v w value name = Ok g' → glabel g' = glabel g.
Proof.
  unfold setEdge. destruct (ohas (edgeLabels_ g) _); [intros [= <-]; by destruct value|]. destruct (_ && _); [done|]. intros H. ok_step H E1. ok_step H E2. ok_step H E3. ok_step H E4. ok_step H E5. ok_step H E6. injection H as <-. cbn.
  apply setNode_glabel in E1. apply setNode_glabel in E2. congruence.
Qed.

Lemma removeEdge_glabel g x g' : removeEdgeObj g x = Ok g' → glabel g' = glabel g.
Proof.
  unfold removeEdgeObj, removeEdgeById. destruct (oget (edgeObjs_ g) _); [|by intros [= <-]]. intros H. ok_step H E1. ok_step H E2. ok_step H E3. ok_step H E4. by injection H as <-.
Qed.
End Label.

Lemma undo_glabel {L V} (g g' : Graph L V edgeLabel) : DagreAcyclic.undo g = Ok g' → glabel g' = glabel g.
Proof.
  intros H. apply (res_fold_keep restore_edge (λ h, glabel h = glabel g)) in H; [done| |done]. intros h x h' Hh Hr. unfold restore_edge in Hr. ok_step Hr E1. destruct (reversed _); [|congruence].
  ok_step Hr E2. apply removeEdge_glabel in E2. apply setEdge_glabel in Hr. congruence.
Qed.

(** * dagre: the passes before the ranker, on graphs without clusters

    Space for labels, the acyclic pass and the nesting graph of a graph in which every node is a child of the root.  The nesting graph adds
    a root with an edge of length 1 to every node and leaves the lengths of the other edges as they are. *)
From Stdlib Require Import QArith_base.
Local Close Scope Q_scope.
From S2P Require Import Prelude JsObject Graphlib GraphWf GraphInv GraphRemove GraphQuery GraphView GraphAlg GraphDfs Lodash LodashSpec DagreTypes DagreFas DagreAcyclic DagreRank DagreBk DagreUtil DagreNormalize DagreRemap DagreNormalizeRun DagreGeometry DagreSimplexTree DagreRankedLayout DagreClusters.

(** A loop whose turns change nothing. *)
Lemma res_fold_id {A S} (f : S → A → res S) s l : (∀ x, x ∈ l → f s x = Ok s) → res_fold f s l = Ok s.
Proof. intros Hf. induction l as [|x l IH]; [done|]. cbn. rewrite Hf by (by left). cbn. apply IH. intros y Hy. apply Hf. by right. Qed.

Section Nest.
Implicit Types (g h : layoutGraph) (gl : graphLabel) (v u root : string) (x e : edgeObj).

(** A labelled graph without clusters. *)
Record flat_graph g gl : Prop := {
  fg_labelled : DagreRemap.labelled g;
  fg_flat : flat_tree g;
  fg_label : Graphlib.graph g = Some gl
}.

Lemma flat_graph_remapped g gl fn fe h : flat_graph g gl → remapped g fn fe h → flat_graph h gl.
Proof.
  intros [F1 F2 F3] R. split; [by eapply remapped_labelled|by eapply flat_remapped|]. destruct (remapped_queries _ _ _ _ R) as (_ & -> & _). done.
Qed.

Lemma flat_graph_setGraph g gl gl' : flat_graph g gl → flat_graph (setGraph g (Some gl')) gl'.
Proof. intros [[F1 F2 F3 F4] [F5 F6] _]. split; [split; [by apply setGraph_digraph|done..]|by split|done]. Qed.

Lemma updGraph_flat g gl f : flat_graph g gl → updGraph g f = Ok (setGraph g (Some (f gl))) ∧ flat_graph (setGraph g (Some (f gl))) (f gl).
Proof. intros F. split; [unfold updGraph; by rewrite (fg_label _ _ F)|by eapply flat_graph_setGraph]. Qed.

Lemma flat_edge g gl x : flat_graph g gl → x ∈ edges g → ∃ l, elookup g x = Some (Some l) ∧ edgeOf g x = Some l.
Proof.
  intros [[F1 F2 F3 F4] _ _] Hx. destruct (F4 x Hx) as [l Hl]. exists l. split; [|done]. rewrite edgeOf_elookup in Hl by (done || apply F1). destruct (elookup g x) as [o|]; [|done]. cbn in Hl. by rewrite Hl.
Qed.

Lemma flat_node g gl v : flat_graph g gl → isNode g v → ∃ l, oget (nodes_ g) v = Some (Some l) ∧ node g v = Some l.
Proof.
  intros [[F1 F2 F3 F4] _ _] Hv. destruct (F3 v Hv) as [l Hl]. exists l. split; [|done]. unfold node in Hl. destruct (oget (nodes_ g) v) as [o|]; [|done]. cbn in Hl. by rewrite Hl.
Qed.

(** ** Space for labels *)

Lemma makeSpace_flat g gl : flat_graph g gl →
  ∃ g', makeSpaceForEdgeLabels g = Ok g' ∧ flat_graph g' (with_ranksep (ranksep gl / 2)%Q gl) ∧ (∀ v, oget (nodes_ g') v = oget (nodes_ g) v) ∧
    ∀ x, elookup g' x = (λ o : option edgeLabel, make_space (rankdir gl) <$> o) <$> elookup g x.
Proof.
  intros F. unfold makeSpaceForEdgeLabels. rewrite (fg_label _ _ F). cbn [of_option res_bind]. set (gl1 := with_ranksep _ gl). pose proof (flat_graph_setGraph g gl gl1 F) as F1.
  destruct (updEdges_remapped (setGraph g (Some gl1)) (λ _, make_space (rankdir gl))) as (g' & -> & R); [apply F1|apply F1|apply F1|]. exists g'.
  split_and!; [done|by eapply flat_graph_remapped| |].
  - intros v. rewrite (rm_nodes _ _ _ _ R). change (nodes_ (setGraph g (Some gl1))) with (nodes_ g). by destruct (oget (nodes_ g) v) as [[l|]|].
  - intros x. rewrite (rm_edges _ _ _ _ R). done.
Qed.

Lemma removeSelfEdges_flat g : (∀ x, x ∈ edges g → ev x ≠ ew x) → removeSelfEdges g = Ok g.
Proof. intros Hl. apply res_fold_id. intros x Hx. unfold remove_loop. by rewrite decide_False by (by apply Hl). Qed.

(** ** The acyclic pass *)

Lemma acyclic_flat acyclicer g gl c : flat_graph g gl → reversible g c → (∀ x, x ∈ edges g → ev x ≠ ew x) → acyclicer ≠ Some "greedy"%string →
  ∃ l g' c', DagreAcyclic.run acyclicer g c = Ok (g', c') ∧ NoDup l ∧ (∀ e, e ∈ l → e ∈ edges g) ∧ (∀ e, e ∈ l → rtc (arrow g) (ew e) (ev e)) ∧ reversed_upto g c l g' ∧ acyclic g' ∧ flat_graph g' gl.
Proof.
  intros F Hrv Hloop Hgr. destruct (dfsFAS_order g (dg_wf _ (rv_digraph _ _ Hrv)) Hloop) as (l & fin & Hl & Ho & Hcyc). destruct (fo_fas _ _ _ Ho) as [Hnd Hsub].
  destruct (reverse_edges_ok g c l Hrv Hnd Hsub) as (g' & Hr & Hu). destruct (reverse_edges_flat g c l g' _ Hrv (fg_flat _ _ F) Hsub Hr) as [Hf Hgl].
  exists l, g', (c + BinNatDef.N.of_nat (length l))%N. split_and!; [|done|done|done|done|by eapply reversed_acyclic|].
  { unfold DagreAcyclic.run. rewrite decide_False by done. by rewrite Hl. }
  split; [|done|unfold Graphlib.graph in *; rewrite Hgl; apply F]. split; [apply Hu|apply Hu| |].
  - intros v. unfold isNode, node. rewrite (ru_nodes _ _ _ _ Hu). apply (lb_node _ (fg_labelled _ _ F)).
  - intros x Hx. destruct (ru_only _ _ _ _ Hu x Hx) as [[Hxe Hxl]|(i & e & Hi & ->)].
    + destruct (flat_edge g gl x F Hxe) as (lx & Hlx & _). rewrite edgeOf_elookup, (ru_kept _ _ _ _ Hu), decide_False, Hlx by (done || apply Hu). by eexists.
    + assert (e ∈ edges g) as He by (by eapply Hsub, list_elem_of_lookup_2). destruct (flat_edge g gl e F He) as (le & Hle & _).
      rewrite edgeOf_elookup, (ru_turned _ _ _ _ Hu i e le Hi Hle) by (done || apply Hu). by eexists.
Qed.

(** ** The nesting graph *)

(** Every node is at depth 1. *)
Lemma treeDepths_flat g : wf g → flat_tree g → nodes g ≠ [] → ∃ d, treeDepths g = Ok d ∧ Lodash.max (Coll.values d) = Some 1%Z.
Proof.
  intros Hwf Hf Hne. unfold treeDepths. destruct (flat_roots g Hwf Hf) as (cs & -> & _ & Hcs). cbn [default from_option id].
  destruct (res_fold_inv (depths_dfs (S (length (nodes g))) g 1) (λ dn d, ∀ v, oget d v = if decide (v ∈ dn) then Some 1%Z else None) cs []) as (d & -> & Hd).
  - intros v. by rewrite decide_False by apply not_elem_of_nil.
  - intros dn v rest d Heq Hd. assert (isNode g v) as Hv by (apply Hcs; rewrite Heq; set_solver). cbn [depths_dfs]. rewrite (flat_children g v Hwf Hf Hv). cbn. eexists. split; [done|].
    intros u. rewrite oget_oset, Hd. destruct (decide (v = u)) as [->|Hvu]; [by rewrite decide_True by set_solver|]. destruct (decide (u ∈ dn)); [by rewrite decide_True by set_solver|by rewrite decide_False by set_solver].
  - exists d. split; [done|]. assert (∀ k, Some k ∈ Coll.values d → k = 1%Z) as Hone.
    { intros k. unfold Coll.values, arrayMap. rewrite arrayMap_spec. cbn. intros [i Hi]%list_elem_of_lookup. rewrite list_lookup_imap in Hi. destruct (okeys d !! i) as [v|]; [|done]. cbn in Hi. rewrite Hd in Hi. by case_decide; simplify_eq. }
    destruct (nodes g) as [|v vs] eqn:Hns; [done|]. assert (v ∈ cs) as Hv by (apply Hcs, elem_of_nodes; rewrite Hns; by left).
    assert (Some 1%Z ∈ Coll.values d) as Hin.
    { unfold Coll.values, arrayMap. rewrite arrayMap_spec. cbn. assert (v ∈ okeys d) as [i Hi]%list_elem_of_lookup by (apply elem_of_okeys; rewrite Hd, decide_True by done; by eexists).
      apply list_elem_of_lookup. exists i. rewrite list_lookup_imap, Hi. cbn. by rewrite Hd, decide_True. }
    pose proof (max_spec (Coll.values d)) as Hm. destruct (Lodash.max (Coll.values d)) as [m|]; [|by apply Hm in Hin]. destruct Hm as [Hm _]. by rewrite (Hone m Hm).
Qed.

Lemma sumWeights_flat g gl : flat_graph g gl → ∃ w, sumWeights g = Ok w.
Proof. intros F. apply res_fold_total. intros acc x Hx. destruct (flat_edge g gl x F Hx) as (l & _ & ->). by eexists. Qed.

Record nested g gl root g' : Prop := {
  nt_flat : flat_graph g' (with_nodeRankFactor 1 (with_nestingRoot (Some root) gl));
  nt_new : ¬ isNode g root;
  nt_name : root ≠ ""%string;
  nt_nodes : ∀ u, oget (nodes_ g') u = if decide (u = root) then Some (Some (with_dummy "root" (bare_node None None))) else oget (nodes_ g) u;
  nt_edges : ∀ x, elookup g' x = if decide (ev x = root ∧ ename x = None ∧ isNode g (ew x)) then Some (Some (nesting_label 0 1 false)) else elookup g x
}.

(** The edges from the root to the nodes. *)
Lemma nest_roots g gl root k fuel id cs :
  flat_graph g gl → isNode g root → (∀ x, x ∈ edges g → ev x ≠ root) → ng_root k = root → ng_sep k = 1%Z → 0 < fuel → (∀ v, v ∈ cs → isNode g v) →
  ∃ g', res_fold (nest_dfs fuel k) (id, g) cs = Ok (id, g') ∧ flat_graph g' gl ∧ (∀ u, oget (nodes_ g') u = oget (nodes_ g) u) ∧
    ∀ x, elookup g' x = if decide (ev x = root ∧ ename x = None ∧ ew x ∈ cs ∧ ew x ≠ root) then Some (Some (nesting_label 0 1 false)) else elookup g x.
Proof.
  intros F Hroot Hno Hk Hs Hfuel Hcs. destruct fuel as [|fuel]; [lia|].
  destruct (res_fold_inv (nest_dfs (S fuel) k) (λ dn st, st.1 = id ∧ flat_graph st.2 gl ∧ (∀ u, oget (nodes_ st.2) u = oget (nodes_ g) u) ∧
    ∀ x, elookup st.2 x = if decide (ev x = root ∧ ename x = None ∧ ew x ∈ dn ∧ ew x ≠ root) then Some (Some (nesting_label 0 1 false)) else elookup g x) cs (id, g))
    as ([id' g'] & Hr & Hid & F' & Hn & He).
  - split_and!; [done|done|done|]. intros x. rewrite decide_False; [done|]. by intros (_ & _ & ?%elem_of_nil & _).
  - intros dn v rest [id' h] Heq (Hid & Fh & Hn & He). cbn [fst snd] in *. subst id'. assert (isNode g v) as Hv by (apply Hcs; rewrite Heq; set_solver).
    assert (isNode h v ∧ isNode h root) as [Hvh Hrh] by (unfold isNode in *; by rewrite !Hn). cbn [nest_dfs]. rewrite (flat_children h v (dg_wf _ (lb_digraph _ (fg_labelled _ _ Fh))) (fg_flat _ _ Fh) Hvh). cbn [of_option res_bind]. rewrite Hk, Hs.
    destruct (decide (v = root)) as [->|Hvr].
    { exists (id, h). split_and!; [done|done|done|done|]. intros x. cbn [snd]. rewrite He. apply decide_ext. split; [intros (?&?&?&?)|intros (?&?&?&?)]; split_and!; set_solver. }
    set (x0 := EdgeObj root v None). assert (plain_edge x0) as Hpl by (split_and!; [by apply (wf_plain _ (dg_wf _ (lb_digraph _ (fg_labelled _ _ F))))..|done]).
    destruct (setEdge_view_ok h x0 (Some (Some (nesting_label 0 1 false))) (lb_digraph _ (fg_labelled _ _ Fh)) Hpl) as (h' & Hset & P); [by left|]. cbn [ev ew ename x0] in Hset. rewrite Hset. cbn [res_bind].
    exists (id, h'). split; [done|]. cbn [fst snd]. destruct (flat_setEdge_view _ _ _ _ (fg_flat _ _ Fh) P) as [Fl Gl]. destruct (sev_options _ _ _ _ P) as (_ & Mu & _).
    assert (∀ u, oget (nodes_ h') u = oget (nodes_ h) u) as Hn' by (intros u; by apply (sev_nodes_same _ _ _ _ u P)). split_and!; [done| |by intros u; rewrite Hn'|].
    + split; [|done|unfold Graphlib.graph in *; rewrite Gl; apply Fh]. pose proof (fg_labelled _ _ Fh) as [B1 B2 B3 B4]. split; [apply P|congruence| |].
      * intros u. unfold isNode, node. rewrite Hn'. apply B3.
      * intros y Hy. rewrite edgeOf_elookup, (sev_edges _ _ _ _ P) by (done || apply P). case_decide as Hd; [by eexists|]. apply (sev_elem _ _ _ _ _ (dg_wf _ B1) P) in Hy as [?|Hy]; [done|].
        rewrite <-edgeOf_elookup by (done || apply B1). by apply B4.
    + intros y. rewrite (sev_edges _ _ _ _ P), He. destruct (decide (y = x0)) as [->|Hne]; [by rewrite decide_True by (cbn; split_and!; set_solver)|].
      apply decide_ext. split; [intros (?&?&?&?); split_and!; set_solver|]. intros (H1 & H2 & H3 & H4). split_and!; [done|done| |done]. apply elem_of_app in H3 as [?|Hw%list_elem_of_singleton]; [done|].
      destruct Hne. unfold x0. destruct y; cbn in *; congruence.
  - cbn [fst snd] in *. subst id'. by exists g'.
Qed.

Lemma with_minlen_id l : with_minlen (minlen l * (2 * (1 - 1) + 1)) l = l.
Proof. destruct l. unfold with_minlen. cbn. f_equal. lia. Qed.

Lemma dummy_flat id g gl type attrs name : flat_graph g gl → delim_free name = true → name ≠ ""%string →
  ∃ id' d g', addDummyNode id g type attrs name = Ok (id', d, g') ∧ ¬ isNode g d ∧ d ≠ ""%string ∧ dummy_added g d (with_dummy type attrs) g' ∧ flat_graph g' gl.
Proof.
  intros F H1 H2. pose proof (fg_labelled _ _ F) as [B1 B2 B3 B4]. destruct (addDummyNode_ok id g type attrs name B1 H1 H2) as (id' & d & g' & Ha & Hd & _ & Hne & A).
  exists id', d, g'. split_and!; [done|done|done|done|]. destruct (da_options _ _ _ _ A) as (O1 & O2 & O3).
  split; [|apply (flat_ext g); [apply F|done|apply A, F]|unfold Graphlib.graph in *; rewrite O3; apply F]. split; [apply A|congruence| |].
  - intros v. unfold isNode, node. rewrite (da_nodes _ _ _ _ A). case_decide; [by eexists|apply B3].
  - intros x Hx. assert (x ∈ edges g) as Hxg.
    { apply elookup_Some; [apply B1|]. rewrite <-(da_edges _ _ _ _ A). apply elookup_Some; [apply A|done]. }
    rewrite edgeOf_elookup, (da_edges _ _ _ _ A), <-edgeOf_elookup by (done || apply A || apply B1). by apply B4.
Qed.

Lemma nesting_run_flat id g gl : flat_graph g gl → ∃ id' root g', nesting_run id g = Ok (id', g') ∧ nested g gl root g'.
Proof.
  intros F. destruct (dummy_flat id g gl "root" (bare_node None None) "_root" F) as (id1 & root & g1 & Hadd & Hnew & Hname & A & F1); [done|done|].
  pose proof (fg_labelled _ _ F1) as L1. pose proof (dg_wf _ (lb_digraph _ L1)) as Hwf1. assert (isNode g1 root) as Hr1 by (unfold isNode; rewrite (da_nodes _ _ _ _ A), decide_True by done; by eexists).
  destruct (treeDepths_flat g1 Hwf1 (fg_flat _ _ F1)) as (d & Hd & Hmax); [intros Hnil; apply (not_elem_of_nil root); rewrite <-Hnil; by apply elem_of_nodes|].
  unfold nesting_run. rewrite Hadd. cbn [res_bind]. rewrite Hd. cbn [res_bind]. rewrite Hmax. cbn [res_bind of_option]. set (gl2 := with_nestingRoot (Some root) gl).
  destruct (updGraph_flat g1 gl (with_nestingRoot (Some root)) F1) as [-> F2]. cbn [res_bind]. fold gl2 in F2 |- *. set (g2 := setGraph g1 (Some gl2)) in *.
  destruct (updEdges_remapped g2 (λ _ l, with_minlen (minlen l * (2 * (1 - 1) + 1)) l)) as (g3 & H3 & R3); [apply F2|apply F2|apply F2|]. rewrite H3. cbn [res_bind].
  pose proof (flat_graph_remapped _ _ _ _ _ F2 R3) as F3. destruct (sumWeights_flat g3 gl2 F3) as [w ->]. cbn [res_bind].
  assert (∀ u, oget (nodes_ g3) u = oget (nodes_ g1) u) as Hn3 by (intros u; rewrite (rm_nodes _ _ _ _ R3); change (nodes_ g2) with (nodes_ g1); by destruct (oget (nodes_ g1) u) as [[?|]|]).
  assert (∀ x, elookup g3 x = elookup g x) as He3.
  { intros x. rewrite (rm_edges _ _ _ _ R3). change (elookup g2 x) with (elookup g1 x). rewrite (da_edges _ _ _ _ A). destruct (elookup g x) as [[l|]|]; cbn; [|done..]. by rewrite with_minlen_id. }
  destruct (flat_roots g3 (dg_wf _ (lb_digraph _ (fg_labelled _ _ F3))) (fg_flat _ _ F3)) as (cs & -> & _ & Hcs). change (default [] (Some cs)) with cs.
  destruct (nest_roots g3 gl2 root (Nesting root (2 * (1 - 1) + 1) (w + 1) (1 - 1) d) (S (length (nodes g3))) id1 cs F3) as (g4 & -> & F4 & Hn4 & He4); [unfold isNode; by rewrite Hn3| |done|done|lia|by intros v; apply Hcs|].
  { intros x Hx Hxr. assert (x ∈ edges g) as Hxg by (apply elookup_Some; [apply F|]; rewrite <-He3; apply elookup_Some; [apply F3|done]). apply (edges_nodes g x) in Hxg as [? _]; [|apply F]. by rewrite Hxr in *. }
  cbn [res_bind fst snd]. destruct (updGraph_flat g4 gl2 (with_nodeRankFactor (2 * (1 - 1) + 1)) F4) as [-> F5]. cbn [res_bind]. eexists id1, root, _. split; [done|]. split; [done|done|done| |].
  - intros u. change (oget (nodes_ g4) u = if decide (u = root) then Some (Some (with_dummy "root" (bare_node None None))) else oget (nodes_ g) u). by rewrite Hn4, Hn3, (da_nodes _ _ _ _ A).
  - intros x. change (elookup g4 x = if decide (ev x = root ∧ ename x = None ∧ isNode g (ew x)) then Some (Some (nesting_label 0 1 false)) else elookup g x). rewrite He4, He3. apply decide_ext.
    rewrite Hcs. unfold isNode. rewrite Hn3, (da_nodes _ _ _ _ A). destruct (decide (ew x = root)) as [E|E]; [|tauto]. split; [by intros (_ & _ & _ & ?)|]. intros (_ & _ & Hx). by rewrite E in Hx.
Qed.
End Nest.
