(* ===== verification/DagreRankSpan.v ===== *)
(** * dagre: ranks without gaps

    The nesting graph has a root with an edge of length 1 to every node.  Each of the rankers leaves no gap below a node: the first
    rank and the rank of the node are joined by a path that does not lead over the root, so that a rank in between holds a node or is
    crossed by an edge.  The layout relies on this when it splits long edges and then builds one layer per rank. *)
From Stdlib Require Import QArith_base.
Local Close Scope Q_scope.
From S2P Require Import Prelude JsObject Graphlib GraphWf GraphInv GraphQuery GraphView GraphAlg GraphDfs Lodash LodashSpec.
From S2P Require Import DagreTypes DagreRank DagreTree DagreRankClaims DagreBk DagreNormalize DagreSimplex DagreSimplexTree DagreSimplexFlow DagreSimplexCut DagreSimplexEnter DagreSimplexExchange DagreSimplexStart DagreSimplexClaims.

(** A rank between the ends of a path is that of a node, or a step of the path crosses it. *)
Lemma path_crosses (R : string → string → Prop) (ρ : string → Z) a b r : rtc R a b → (ρ a ≤ r < ρ b)%Z →
  (∃ u, rtc R a u ∧ ρ u = r) ∨ ∃ u w, R u w ∧ (ρ u < r < ρ w)%Z.
Proof.
  intros Hp. induction Hp as [a|a c b Hac Hp IH]; intros Hr; [lia|].
  destruct (decide (ρ a = r)) as [|Hne]; [left; by exists a|]. destruct (decide (ρ c ≤ r)%Z) as [Hle|Hgt].
  - destruct IH as [(u & Hu & Hru)|?]; [lia| |by right]. left. exists u. split; [by eapply rtc_l|done].
  - right. exists a, c. split; [done|lia].
Qed.

Section Span.
Context {L : Type}.
Notation graph := (Graph L nodeLabel edgeLabel).
Notation tree := (Graph unit treeNode treeEdge).
Implicit Types (g s : graph) (t : tree) (x y e : edgeObj) (ρ : string → Z) (a b u v : string).

(** The root of the nesting graph of a graph without clusters. *)
Record rooted_at g (root : string) : Prop := {
  ra_node : isNode g root;
  ra_top : ∀ x, x ∈ edges g → ew x ≠ root;
  ra_edge : ∀ v, isNode g v → v ≠ root → arrow g root v;
  ra_len : ∀ x, x ∈ edges g → ev x = root → len g x = 1%Z;
  ra_pos : ∀ x, x ∈ edges g → (1 ≤ len g x)%Z
}.

(** A step that does not touch the root. *)
Definition off g (root : string) a b : Prop := adjacent g a b ∧ a ≠ root ∧ b ≠ root.

Definition spans_off g (root : string) ρ : Prop :=
  ∀ v, isNode g v → v ≠ root → ∃ a b, isNode g a ∧ a ≠ root ∧ rtc (off g root) a b ∧ (∀ u, isNode g u → u ≠ root → (ρ a ≤ ρ u)%Z) ∧ (ρ v ≤ ρ b)%Z.

(** ** Tight spanning trees *)

(** Along a tree whose edges at the root have length 1, every node has an ancestor on the first rank. *)
Lemma tree_spans g root ρ (T : string → string → Prop) :
  feasible_ranks g ρ → rooted_at g root → wf g → (∀ v, isNode g v → rtc T root v) → (∀ u w, T u w → adjacent g u w) → (∀ w, T root w → ρ w = ρ root + 1)%Z → spans_off g root ρ.
Proof.
  intros Hf [R1 R2 R3 R4 R5] Hwf Hcon Hadj Htight v Hv Hne.
  assert (∀ u, isNode g u → u ≠ root → (ρ root + 1 ≤ ρ u)%Z) as Hlow.
  { intros u Hu Hnu. destruct (R3 u Hu Hnu) as (x & Hx & Hxv & Hxw). specialize (Hf x Hx). rewrite (R4 x Hx Hxv), Hxv, Hxw in Hf. lia. }
  assert (v = root ∨ ∃ a, isNode g a ∧ a ≠ root ∧ ρ a = (ρ root + 1)%Z ∧ rtc (off g root) a v) as [?|(a & Ha & Hna & Hra & Hp)]; [|done|].
  - specialize (Hcon v Hv). clear Hv Hne. revert v Hcon. apply rtc_ind_r; [by left|]. intros c d _ Hcd IH. destruct (decide (d = root)) as [|Hd]; [by left|right].
    assert (isNode g d) as Hnd by (destruct (Hadj c d Hcd) as [A|A]; by apply (arrow_nodes g _ _ Hwf) in A as [? ?]).
    destruct (decide (c = root)) as [->|Hc]; [exists d; split_and!; [done|done|by apply Htight|done]|]. destruct IH as [?|(a & ? & ? & ? & Hp)]; [done|]. exists a. split_and!; [done|done|done|].
    eapply rtc_r; [exact Hp|]. split_and!; [by apply Hadj|done|done].
  - exists a, v. split_and!; [done|done|done| |lia]. intros u Hu Hnu. rewrite Hra. by apply Hlow.
Qed.

Lemma tight_tree_spans g root (σ : string → option Z) ρ start t :
  rooted_at g root → wf g → feasible g σ → (∀ v, isNode g v → σ v = Some (ρ v)) → tight_tree g σ start t → (∀ u, isNode t u ↔ isNode g u) → spans_off g root ρ.
Proof.
  intros R Hwf Hf Hρ Ht Hn.
  assert (∀ u w, adjacent t u w → ∃ e, e ∈ edges g ∧ joins e u w ∧ (ρ (ew e) - ρ (ev e) = len g e)%Z) as Halong.
  { intros u w (x & Hx & Hj)%adjacent_joins. destruct (tr_along _ _ _ _ Ht x Hx) as (e & He & (rv & rw & Hv & Hw & Hl) & Hends). exists e.
    destruct (edges_nodes g e Hwf He) as [Nv Nw]. rewrite (Hρ _ Nv) in Hv. rewrite (Hρ _ Nw) in Hw. split_and!; [done| |congruence].
    unfold joins in *. destruct Hj as [[<- <-]|[<- <-]], Hends as [[-> ->]|[-> ->]]; tauto. }
  apply (tree_spans g root ρ (adjacent t)); [|done|done|..].
  - intros x Hx. destruct (Hf x Hx) as (rv & rw & Hv & Hw & Hle). destruct (edges_nodes g x Hwf Hx) as [Nv Nw]. rewrite (Hρ _ Nv) in Hv. rewrite (Hρ _ Nw) in Hw. congruence.
  - intros v Hv. trans start; [apply connected_sym|]; apply Ht; apply Hn; [apply R|done].
  - intros u w Ha. destruct (Halong u w Ha) as (e & He & Hj & _). apply adjacent_joins. by exists e.
  - intros w Ha. destruct (Halong root w Ha) as (e & He & Hj & Hl). destruct Hj as [[E1 E2]|[E1 E2]]; [|by destruct (ra_top _ _ R e He)]. rewrite (ra_len _ _ R e He E1), E1, E2 in Hl. lia.
Qed.

Lemma simplex_spans g s root t s1 ρ :
  rank_input g → rooted_at g root → simplified g (edges g) s → simplex_state s t s1 ρ → spans_off g root ρ.
Proof.
  intros I R M S. pose proof (lb_wf _ (ri_labelled _ I)) as Hwf. pose proof (to_tree _ _ (ss_tree _ _ _ _ S)) as T.
  assert (∀ v, isNode t v ↔ isNode g v) as Hn by (intros v; rewrite (to_node _ _ (ss_tree _ _ _ _ S)); unfold isNode; by rewrite (sm_node _ _ _ M)).
  apply (tree_spans g root ρ (adjacent t)); [|done|done|..].
  - intros x Hx. pose proof (proj1 (sm_len _ _ _ M ρ) (ss_feasible _ _ _ _ S) x Hx). lia.
  - intros v Hv. apply (it_connected _ T); apply Hn; [apply R|done].
  - intros u w Ha. unfold adjacent. rewrite <-!(simplified_arrow g s) by done. by apply (to_along _ _ (ss_tree _ _ _ _ S)).
  - intros w Ha. assert (arrow g root w) as (y & Hy & Hyv & Hyw).
    { destruct (to_along _ _ (ss_tree _ _ _ _ S) root w Ha) as [A|A]; apply (simplified_arrow g s _ _ M) in A; [done|]. destruct A as (z & Hz & _ & Hzw). by destruct (ra_top _ _ R z Hz). }
    assert (merged y ∈ edges s) as Hm by (apply (sm_edge _ _ _ M); by exists y). pose proof (ss_tight _ _ _ _ S (merged y) Hm) as Htight. cbn in Htight. rewrite Hyv, Hyw in Htight. specialize (Htight Ha).
    destruct (sm_attained _ _ _ M _ Hm) as [Hl|(z & Hz & Heq & Hl)]; rewrite Hl in Htight; [lia|]. injection Heq as E1 E2. rewrite (ra_len _ _ R z Hz) in Htight by congruence. lia.
Qed.

(** ** Longest paths *)

Lemma longest_chain g root (σ : string → option Z) ρ :
  rooted_at g root → wf g → acyclic g → (∀ v, isNode g v → σ v = Some (ρ v)) → (∀ v, isNode g v → exact g σ v) →
  ∀ u, isNode g u → u ≠ root → (ρ u ≤ 0)%Z ∧ ∃ b, rtc (off g root) u b ∧ ρ b = 0%Z.
Proof.
  intros R Hwf Hac Hρ Hex u Hu Hne. assert (∀ n (w : string), nsteps (arrow g) n u w → n < S (length (nodes g))) as Hb.
  { intros n w Hn. apply Nat.lt_succ_r. eapply (acyclic_nsteps_bound (arrow g)); [exact Hac| |exact Hn]. intros a b Hab. by apply elem_of_nodes, (arrow_nodes g a b). }
  revert u Hu Hne Hb. generalize (S (length (nodes g))). intros k. induction k as [|k IH]; intros u Hu Hne Hb; [specialize (Hb 0 u (nsteps_O _ _)); lia|].
  destruct (Hex u Hu) as (r & Hr & _ & Hcase). rewrite (Hρ u Hu) in Hr. injection Hr as Hr. destruct Hcase as [[Hr0 _]|(x & rw & Hx & Hxv & Hw & Hrw)]; [split; [lia|]; exists u; split; [done|lia]|].
  destruct (edges_nodes g x Hwf Hx) as [_ Nw]. rewrite (Hρ _ Nw) in Hw. injection Hw as Hw. assert (arrow g u (ew x)) as Harr by (by exists x). destruct (IH (ew x)) as (Hle & b & Hp & Hb0).
  - done.
  - by apply R.
  - intros n w Hn. enough (S n < S k) by lia. eapply Hb. by eapply nsteps_l.
  - pose proof (ra_pos _ _ R x Hx). split; [lia|]. exists b. split; [|done]. eapply rtc_l; [|exact Hp]. split_and!; [by left|done|by apply R].
Qed.

Lemma least_node (ρ : string → Z) (l : list string) : l ≠ [] → ∃ a, a ∈ l ∧ ∀ u, u ∈ l → (ρ a ≤ ρ u)%Z.
Proof.
  induction l as [|v l IH]; [done|intros _]. destruct l as [|w l]; [exists v; split; [by left|]; by intros u ->%list_elem_of_singleton|]. destruct IH as (a & Ha & Hle); [done|].
  destruct (decide (ρ v ≤ ρ a)%Z) as [Hva|Hva]; [exists v|exists a]; (split; [set_solver|]); intros u [->|Hu]%elem_of_cons; [lia|specialize (Hle u Hu); lia|lia|by apply Hle].
Qed.

Lemma longest_spans g root (σ : string → option Z) ρ :
  rooted_at g root → wf g → acyclic g → (∀ v, isNode g v → σ v = Some (ρ v)) → (∀ v, isNode g v → exact g σ v) → spans_off g root ρ.
Proof.
  intros R Hwf Hac Hρ Hex v Hv Hne. destruct (least_node ρ (filter (λ u, u ≠ root) (nodes g))) as (a & [Hna Ha%elem_of_nodes]%list_elem_of_filter & Hle).
  { intros Hnil. apply (not_elem_of_nil v). rewrite <-Hnil. apply list_elem_of_filter. by rewrite elem_of_nodes. }
  pose proof (longest_chain g root σ ρ R Hwf Hac Hρ Hex) as Hch. destruct (Hch a Ha Hna) as (_ & b & Hp & Hb). destruct (Hch v Hv Hne) as (Hv0 & _).
  exists a, b. split_and!; [done|done|done| |lia]. intros u Hu Hnu. apply Hle, list_elem_of_filter. by rewrite elem_of_nodes.
Qed.

(** ** The rankers *)

Lemma ranked_total g (σ : string → option Z) g' : (∀ v, isNode g v → is_Some (σ v)) → ranked g σ g' → ∃ ρ, (∀ v, isNode g v → σ v = Some (ρ v)) ∧ has_ranks g ρ g'.
Proof.
  intros Hσ Hr. exists (λ v, default 0%Z (σ v)). assert (∀ v, isNode g v → σ v = Some (default 0%Z (σ v))) as H by (intros v Hv; by destruct (Hσ v Hv) as [r ->]).
  split; [done|]. by eapply ranked_ext.
Qed.

Lemma feasible_total g (σ : string → option Z) ρ : wf g → (∀ v, isNode g v → σ v = Some (ρ v)) → feasible g σ → feasible_ranks g ρ.
Proof.
  intros Hwf Hρ Hf x Hx. destruct (Hf x Hx) as (rv & rw & Hv & Hw & Hle). destruct (edges_nodes g x Hwf Hx) as [Nv Nw]. rewrite (Hρ _ Nv) in Hv. rewrite (Hρ _ Nw) in Hw. congruence.
Qed.

(** The other rankers always return. *)
Definition may_turn (ranker : option string) : Prop := ranker ≠ Some "tight-tree"%string ∧ ranker ≠ Some "longest-path"%string.

Lemma rankWith_spans ranker turns g root :
  rank_input g → rooted_at g root →
  (may_turn ranker ∧ rankWith ranker turns g = Throw (JsError "out of turns")) ∨
  ∃ g' ρ, rankWith ranker turns g = Ok g' ∧ has_ranks g ρ g' ∧ feasible_ranks g ρ ∧ spans_off g root ρ.
Proof.
  intros I R. pose proof (ri_labelled _ I) as Hlb. pose proof (lb_wf _ Hlb) as Hwf. destruct (longestPath_spec g Hlb (ri_acyclic _ I)) as (g1 & σ & H1 & Hrk & Hex).
  assert (∀ v, isNode g v → is_Some (σ v)) as Hσ by (intros v (r & -> & _)%Hex; by eexists). pose proof (exact_feasible g σ Hwf Hex) as Hf.
  unfold rankWith. destruct (decide (ranker = Some "tight-tree"%string)) as [|Hr1]; [right|destruct (decide (ranker = Some "longest-path"%string)) as [|Hr2]; [right|]].
  - assert (nodes g1 ≠ []) as Hne.
    { intros Hnil. apply (not_elem_of_nil root). rewrite <-Hnil. apply elem_of_nodes, (DagreRank.ranked_node g σ g1 root Hrk), R. }
    destruct (feasibleTree_ok g σ g1 Hlb (ri_connected _ I) Hne Hrk Hσ Hf) as (t & g' & σ' & start & Hft & Hrk' & Hσ' & Hf' & Ht & Hn). destruct (ranked_total g σ' g' Hσ' Hrk') as (ρ & Hρ & Hh).
    exists g', ρ. split_and!; [unfold tightTreeRanker; rewrite H1; cbn [res_bind]; by rewrite Hft|done|by eapply feasible_total|by eapply tight_tree_spans].
  - destruct (ranked_total g σ g1 Hσ Hrk) as (ρ & Hρ & Hh). exists g1, ρ. split_and!; [done|done|by eapply feasible_total|by eapply longest_spans; [done..|apply I| |]].
  - destruct (simplex_start_ok g I) as (s & t & s1 & ρ0 & Hs & M & Hst & Hss). destruct (simplified_dag g s I M) as (D & _ & Hw).
    unfold networkSimplex. rewrite Hst. cbn [res_bind fst snd]. destruct (simplex_loop_ok s D Hw turns t s1 ρ0 Hss) as [->|(t' & s' & ρ & -> & Hs' & Hl)]; [by left|right]. cbn [res_bind fst snd].
    destruct (write_back g s ρ s' (ri_labelled _ I) M (ss_ranks _ _ _ _ Hs')) as (g' & -> & Hr). exists g', ρ. split_and!; [done|done| |by eapply simplex_spans].
    intros x Hx. pose proof (proj1 (sm_len _ _ _ M ρ) (ss_feasible _ _ _ _ Hs') x Hx). lia.
Qed.
End Span.
