(* ===== verification/DagreFlatRun.v ===== *)
(** * dagre: ranking a graph without clusters

    From the nesting graph to ranks that start at 0: the ranker on the flat copy, the passes for labels and empty ranks, which have
    nothing to do here, the removal of the root, and the shift of the ranks. *)
From Stdlib Require Import QArith_base.
Local Close Scope Q_scope.
From S2P Require Import Prelude JsObject Graphlib GraphWf GraphInv GraphRemove GraphQuery GraphView GraphAlg GraphDfs Lodash LodashSpec DagreTypes DagreRank DagreTree DagreRankClaims DagreBk DagreCross DagreUtil DagreOrder DagrePosition DagreNormalize DagreRemap DagreNormalizeRun DagreNormalizeClaims DagreGeometry.
From S2P Require Import DagreSimplex DagreSimplexTree DagreSimplexFlow DagreSimplexEnter DagreSimplexClaims DagreRankSpan DagreRankedLayout DagreClusters DagreRunLayout DagreFlatNest.

Section Rank.
Implicit Types (g h s : layoutGraph) (gl : graphLabel) (v u root : string) (x e : edgeObj) (ρ : string → Z).

(** No rank below a node is left out. *)
Definition gapless g ρ : Prop :=
  ∀ v, isNode g v → ∃ a b, isNode g a ∧ rtc (adjacent g) a b ∧ (∀ u, isNode g u → (ρ a ≤ ρ u)%Z) ∧ (ρ v ≤ ρ b)%Z.
Definition long_edges g ρ : Prop := ∀ x l, elookup g x = Some (Some l) → (minlen l ≤ ρ (ew x) - ρ (ev x))%Z.

(** What the ranker asks of the edges. *)
Definition rankable g : Prop := ∀ x l, elookup g x = Some (Some l) → (1 ≤ minlen l ∧ 0 ≤ weight l)%Z.
(** No edge has a label with an area, and none belongs to the nesting graph. *)
Definition unlabelled g : Prop := ∀ x l, elookup g x = Some (Some l) → Qeq_bool (ewidth l) 0 || Qeq_bool (eheight l) 0 = true ∧ nestingEdge l = false.
(** No node belongs to a cluster or stands for something else. *)
Definition plain_nodes g : Prop := ∀ v l, node g v = Some l → borderTop (more l) = None ∧ dummy l = None.

Section Nested.
Context (g : layoutGraph) (gl : graphLabel) (root : string) (gn : layoutGraph).
Context (F : flat_graph g gl) (N : nested g gl root gn) (Hac : acyclic g) (Hrk : rankable g) (Hempty : ¬ isNode g ""%string).

Let Hwf : wf g := dg_wf _ (lb_digraph _ (fg_labelled _ _ F)).
Let Fn := nt_flat _ _ _ _ N.
Let Hwfn : wf gn := dg_wf _ (lb_digraph _ (fg_labelled _ _ Fn)).

Lemma nested_isNode v : isNode gn v ↔ v = root ∨ isNode g v.
Proof. unfold isNode. rewrite (nt_nodes _ _ _ _ N). case_decide; [subst; split; [by left|by eexists]|naive_solver]. Qed.

Lemma nested_edge x : x ∈ edges gn ↔ (ev x = root ∧ ename x = None ∧ isNode g (ew x)) ∨ x ∈ edges g.
Proof.
  rewrite <-(elookup_Some gn), (nt_edges _ _ _ _ N), <-(elookup_Some g) by done. case_decide as Hd; [|naive_solver]. split; [by left|by eexists].
Qed.

Lemma nested_arrow a b : arrow gn a b ↔ (a = root ∧ isNode g b) ∨ arrow g a b.
Proof.
  split.
  - intros (x & [(Hv & _ & Hw)|Hx]%nested_edge & <- & <-); [by left|]. right. by exists x.
  - intros [[-> Hb]|(x & Hx & <- & <-)]; [exists (EdgeObj root b None); split; [|done]; apply nested_edge; by left|]. exists x. split; [|done]. apply nested_edge. by right.
Qed.

(** The flat copy on which the ranks are computed. *)
Lemma nested_copy : ∃ s, asNonCompoundGraph gn = Ok s ∧ digraph s ∧ (∀ v, oget (nodes_ s) v = oget (nodes_ gn) v) ∧ (∀ x, elookup s x = elookup gn x).
Proof.
  assert (∀ v, isNode gn v → leaf gn v = true) as Hleaf by (intros v; by apply flat_leaf, Fn).
  destruct (asNonCompoundGraph_ok gn) as (s & Hs & V); [apply Fn|apply Fn| |].
  - intros x Hx. destruct (edges_nodes gn x Hwfn Hx). split; by apply Hleaf.
  - exists s. split_and!; [done|apply V| |apply V]. intros v. rewrite (fv_nodes _ _ V). destruct (oget (nodes_ gn) v) as [o|] eqn:Ho; [|by destruct (leaf gn v)]. by rewrite Hleaf by (by exists o).
Qed.

Section Copy.
Context (s : layoutGraph) (Ds : digraph s) (Hns : ∀ v, oget (nodes_ s) v = oget (nodes_ gn) v) (Hes : ∀ x, elookup s x = elookup gn x).

Lemma copy_isNode v : isNode s v ↔ v = root ∨ isNode g v.
Proof. rewrite <-nested_isNode. unfold isNode. by rewrite Hns. Qed.

Lemma nested_copy_edges x : x ∈ edges s ↔ x ∈ edges gn.
Proof. rewrite <-(elookup_Some s), Hes, (elookup_Some gn) by (done || apply Ds). done. Qed.

Lemma copy_arrow a b : arrow s a b ↔ (a = root ∧ isNode g b) ∨ arrow g a b.
Proof. rewrite <-nested_arrow. unfold arrow. by setoid_rewrite nested_copy_edges. Qed.

Lemma copy_label x : x ∈ edges s → ∃ l, edgeOf s x = Some l ∧ elookup gn x = Some (Some l).
Proof.
  intros Hx. destruct (flat_edge gn _ x Fn (proj1 (nested_copy_edges x) Hx)) as (l & Hl & _). exists l. by rewrite edgeOf_elookup, Hes, Hl by (done || apply Ds).
Qed.

Lemma copy_bounds x l : elookup gn x = Some (Some l) → (1 ≤ minlen l ∧ 0 ≤ weight l)%Z ∧ (ev x = root → minlen l = 1%Z).
Proof.
  rewrite (nt_edges _ _ _ _ N). case_decide as Hd; [intros [= <-]; cbn; lia|]. intros Hl. split; [by eapply Hrk|]. intros Hr. exfalso. apply (nt_new _ _ _ _ N).
  rewrite <-Hr. apply (edges_nodes g x Hwf). apply elookup_Some; [done|]. rewrite Hl. by eexists.
Qed.

Lemma arrow_not_root a b : arrow s a b → b ≠ root.
Proof.
  intros [[_ Hb]|Ha]%copy_arrow ->; [by apply (nt_new _ _ _ _ N)|]. apply (arrow_nodes g _ _ Hwf) in Ha as [_ ?]. by apply (nt_new _ _ _ _ N).
Qed.

Lemma path_not_root a b : tc (arrow s) a b → b ≠ root.
Proof. intros Hp. induction Hp as [a b Hab|]; [by eapply arrow_not_root|done]. Qed.

Lemma copy_path a b : a ≠ root → tc (arrow s) a b → tc (arrow g) a b.
Proof.
  intros Ha Hp. induction Hp as [a b Hab|a c b Hac' _ IH].
  - apply tc_once. by apply copy_arrow in Hab as [[? _]|?].
  - pose proof (arrow_not_root _ _ Hac'). apply copy_arrow in Hac' as [[? _]|?]; [done|]. eapply tc_l; [done|]. by apply IH.
Qed.

Lemma copy_input : rank_input s ∧ rooted_at s root.
Proof.
  assert (∀ v, isNode s v → rtc (adjacent s) root v) as Hcon.
  { intros v [->|Hv]%copy_isNode; [done|]. apply rtc_once. left. apply copy_arrow. by left. }
  split; split.
  - split; [apply Ds| |].
    + intros v Hv. rewrite Hns. destruct (flat_node gn _ v Fn) as (l & Hl & _); [unfold isNode in *; by rewrite <-Hns|]. by exists l.
    + intros x Hx. destruct (copy_label x Hx) as (l & ? & _). by exists l.
  - intros v Hv. pose proof (path_not_root _ _ Hv) as Hne.
    by eapply (Hac v), copy_path.
  - intros u v Hu Hv. trans root; [apply connected_sym|]; by apply Hcon.
  - intros Hnil. apply (not_elem_of_nil root). rewrite <-Hnil. apply elem_of_nodes, copy_isNode. by left.
  - intros [He|?]%copy_isNode; [|done]. by apply (nt_name _ _ _ _ N).
  - intros x Hx. destruct (copy_label x Hx) as (l & Hl & Hg). unfold weight_of. rewrite Hl. by apply copy_bounds in Hg as [[_ ?] _].
  - apply copy_isNode. by left.
  - intros x Hx. apply (arrow_not_root (ev x) (ew x)). by exists x.
  - intros v [->|Hv]%copy_isNode Hne; [done|]. apply copy_arrow. by left.
  - intros x Hx Hr. destruct (copy_label x Hx) as (l & Hl & Hg). unfold len. rewrite Hl. by apply (copy_bounds x l Hg).
  - intros x Hx. destruct (copy_label x Hx) as (l & Hl & Hg). unfold len. rewrite Hl. by apply (copy_bounds x l Hg).
Qed.

Lemma copy_gapless ρ : spans_off s root ρ → gapless g ρ.
Proof.
  assert (∀ v, isNode g v → v ≠ root) as Hne by (intros v Hv ->; by apply (nt_new _ _ _ _ N)).
  intros Hs v Hv. destruct (Hs v) as (a & b & Ha & Hna & Hp & Hle & Hvb); [apply copy_isNode; by right|by apply Hne|]. exists a, b.
  apply copy_isNode in Ha as [?|Ha]; [done|]. split_and!; [done| |intros u Hu; apply Hle; [apply copy_isNode; by right|by apply Hne]|done].
  eapply (rtc_congruence id); [|exact Hp]. intros c d (Hcd & Hc & Hd). unfold adjacent in *. rewrite !copy_arrow in Hcd. destruct Hcd as [[[? _]|?]|[[? _]|?]]; naive_solver.
Qed.
End Copy.

Lemma rank_pass_flat ranker turns :
  (may_turn ranker ∧ rank_pass ranker turns gn = Throw (JsError "out of turns")) ∨
  ∃ g' ρ, rank_pass ranker turns gn = Ok g' ∧ relabelled gn (λ v, set_rank (Some (ρ v))) g' ∧ long_edges g ρ ∧ gapless g ρ.
Proof.
  destruct nested_copy as (s & Hs & Ds & Hns & Hes). destruct (copy_input s Ds Hns Hes) as [I R]. unfold rank_pass. rewrite Hs. cbn [res_bind].
  destruct (rankWith_spans ranker turns s root I R) as [[Hm ->]|(s' & ρ & -> & Hr & Hf & Hsp)]; [by left|right]. cbn [res_bind]. unfold share_labels.
  assert (∀ v, isNode s' v ↔ isNode gn v) as Hn by (intros v; rewrite (DagreRank.ranked_node _ _ _ _ Hr); unfold isNode; by rewrite Hns).
  destruct (updNodes_relabelled gn (λ _ l, l) gn (nodes s') (λ v l, default l (node s' v))) as (g' & Hu & Rl).
  - intros v Hv%elem_of_nodes%Hn. destruct (flat_node gn _ v Fn Hv) as (l & _ & ->). by eexists.
  - apply NoDup_nodes, Hr.
  - by apply relabelled_refl.
  - exists g', ρ. split_and!; [done| | |by eapply copy_gapless].
    + eapply relabelled_ext; [|exact Rl]. intros v l Hl. cbn. assert (isNode gn v) as Hv by (by eapply isNode_node). rewrite decide_True by (by apply elem_of_nodes, Hn).
      destruct (flat_node gn _ v Fn Hv) as (l' & Hl' & Hl''). assert (l' = l) as -> by congruence. by rewrite (ranked_label _ _ _ v l Hr) by (by rewrite Hns).
    + intros x l Hl. assert (elookup s x = Some (Some l)) as Hx.
      { rewrite Hes, (nt_edges _ _ _ _ N), decide_False; [done|]. intros (Hv & _). apply (nt_new _ _ _ _ N). rewrite <-Hv. apply (edges_nodes g x Hwf). apply elookup_Some; [done|]. rewrite Hl. by eexists. }
      assert (x ∈ edges s) as Hin by (apply elookup_Some; [apply Ds|]; rewrite Hx; by eexists). specialize (Hf x Hin). unfold len in Hf. rewrite edgeOf_elookup, Hx in Hf by (done || apply Ds). done.
Qed.
End Nested.

(** ** Passes with nothing to do *)

Lemma inject_flat id g gl : flat_graph g gl → unlabelled g → injectEdgeLabelProxies id g = Ok (id, g).
Proof.
  intros F Hu. apply res_fold_id. intros x Hx. destruct (flat_edge g gl x F Hx) as (l & Hl & He). cbn [inject_proxy]. rewrite He. cbn [of_option res_bind]. by destruct (Hu x l Hl) as [-> _].
Qed.

Lemma removeEmptyRanks_flat g gl : flat_graph g gl → nodeRankFactor (gmore gl) = Some 1%Z → removeEmptyRanks g = Ok g.
Proof.
  intros F Hk. assert (∀ v, v ∈ nodes g → is_Some (node g v)) as Hlab by (intros v Hv%elem_of_nodes; by apply (lb_node _ (fg_labelled _ _ F))). unfold removeEmptyRanks.
  assert (∃ rs, ranks_of g = Ok rs) as [rs ->] by (apply res_fold_total; intros rs v [l ->]%Hlab; by eexists). cbn [res_bind]. rewrite (fg_label _ _ F). cbn [of_option res_bind]. rewrite Hk.
  destruct (Lodash.min rs), (Lodash.max rs); try done. rewrite res_fold_id; [done|]. intros i _. cbn [empty_step].
  assert (∀ r, ∃ vs, at_rank g r = Ok vs) as Hat by (intros r; apply res_fold_total; intros vs v [l ->]%Hlab; by eexists). destruct (Hat (z + Z.of_nat i)%Z) as [vs ->]. cbn [res_bind].
  assert (off_factor (Some 1%Z) i = false) as -> by (cbn; rewrite Z.mod_1_r; done). by rewrite andb_false_r, decide_True.
Qed.

Lemma removeProxies_flat g gl : flat_graph g gl → plain_nodes g → removeEdgeLabelProxies g = Ok g.
Proof.
  intros F Hp. apply res_fold_id. intros v Hv%elem_of_nodes. destruct (flat_node g gl v F Hv) as (l & _ & Hl). unfold remove_proxy. rewrite Hl. cbn [of_option res_bind]. destruct (Hp v l Hl) as [_ ->]. by rewrite decide_False.
Qed.

Lemma assignRankMinMax_flat g gl : flat_graph g gl → plain_nodes g → assignRankMinMax g = Ok (setGraph g (Some (with_maxRank (Some 0%Z) gl))) ∧ flat_graph (setGraph g (Some (with_maxRank (Some 0%Z) gl))) (with_maxRank (Some 0%Z) gl).
Proof.
  intros F Hp. unfold assignRankMinMax. rewrite res_fold_id; [cbn [res_bind fst snd]; by apply updGraph_flat|]. intros v Hv%elem_of_nodes. destruct (flat_node g gl v F Hv) as (l & _ & Hl).
  cbn [rank_min_max]. rewrite Hl. cbn [of_option res_bind]. by destruct (Hp v l Hl) as [-> _].
Qed.

(** ** Removing the root *)

Lemma cleanup_flat g gl root :
  flat_graph g gl → isNode g root → nestingRoot (gmore gl) = Some root → unlabelled g →
  ∃ h, cleanup g = Ok h ∧ flat_graph h (with_nestingRoot None gl) ∧ (∀ u, oget (nodes_ h) u = if decide (u = root) then None else oget (nodes_ g) u) ∧
    ∀ x, elookup h x = if decide (ev x = root ∨ ew x = root) then None else elookup g x.
Proof.
  intros F Hr Hn Hu. pose proof (fg_labelled _ _ F) as [B1 B2 B3 B4]. destruct (removeNode_flat g root B1 (fg_flat _ _ F) Hr) as (h & Hrm & V & Fh). destruct (rnv_options _ _ _ V) as (O1 & O2 & O3).
  assert (flat_graph h gl) as F1.
  { split; [|done|unfold Graphlib.graph in *; rewrite O3; apply F]. split; [apply V|congruence| |].
    - intros u. unfold isNode, node. rewrite (rnv_nodes _ _ _ V). case_decide; [by intros []|apply B3].
    - intros x Hx. assert (is_Some (elookup h x)) as Hs by (apply elookup_Some; [apply V|done]). rewrite edgeOf_elookup by (done || apply V). rewrite (rnv_edges _ _ _ V) in *. case_decide; [by destruct Hs|].
      apply elookup_Some in Hs; [|apply B1]. rewrite <-edgeOf_elookup by (done || apply B1). by apply B4. }
  unfold cleanup. rewrite (fg_label _ _ F). cbn [of_option res_bind]. rewrite Hn. change (default "undefined"%string (Some root)) with root. rewrite Hrm. cbn [res_bind].
  destruct (updGraph_flat h gl (with_nestingRoot None) F1) as [-> F2]. cbn [res_bind]. set (h' := setGraph h _) in *. exists h'. split_and!; [|done|apply V|apply V].
  apply res_fold_id. intros x Hx. destruct (flat_edge h' _ x F2 Hx) as (l & Hl & He). unfold cleanup_edge. rewrite He. cbn [of_option res_bind]. change (elookup h' x) with (elookup h x) in Hl.
  rewrite (rnv_edges _ _ _ V) in Hl. case_decide; [done|]. by destruct (Hu x l Hl) as [_ ->].
Qed.

Lemma flat_rank_labelled g gl : flat_graph g gl → DagreRank.labelled g.
Proof.
  intros F. split; [apply F| |apply F]. intros v Hv. destruct (flat_node g gl v F Hv) as (l & Hl & _). by exists l.
Qed.

Lemma flat_graph_ranked g gl σ h : flat_graph g gl → ranked g σ h → flat_graph h gl.
Proof.
  intros F [R1 R2 R3]. assert (relabelled g (λ v, set_rank (σ v)) h) as R by (by split). eapply flat_graph_remapped; [exact F|]. apply relabelled_remapped; [apply F|exact R].
Qed.

(** ** From the nesting graph to ranks *)

Record ranked_flat g gl ρ h : Prop := {
  rf_flat : ∃ f, flat_graph h (with_gmore f gl);
  rf_nodes : ∀ v, oget (nodes_ h) v = (λ o : option nodeLabel, set_rank (Some (ρ v)) <$> o) <$> oget (nodes_ g) v;
  rf_edges : ∀ x, elookup h x = elookup g x;
  rf_long : long_edges g ρ;
  rf_gapless : gapless g ρ;
  rf_first : ∀ v, isNode g v → (0 ≤ ρ v)%Z;
  rf_zero : ∃ v, isNode g v ∧ ρ v = 0%Z
}.

Lemma gapless_shift g ρ m : gapless g ρ → gapless g (λ v, ρ v - m)%Z.
Proof. intros Hg v Hv. destruct (Hg v Hv) as (a & b & ? & ? & Hle & ?). exists a, b. split_and!; [done|done| |lia]. intros u Hu. specialize (Hle u Hu). lia. Qed.

Lemma ranks_settle id g gl root gn g1 ρ :
  flat_graph g gl → nested g gl root gn → relabelled gn (λ v, set_rank (Some (ρ v))) g1 → long_edges g ρ → gapless g ρ → unlabelled g → plain_nodes g → nodes g ≠ [] →
  ∃ g2 g3 g4 h ρ', injectEdgeLabelProxies id g1 = Ok (id, g1) ∧ removeEmptyRanks g1 = Ok g1 ∧ cleanup g1 = Ok g2 ∧ normalizeRanks g2 = Ok g3 ∧ assignRankMinMax g3 = Ok g4 ∧ removeEdgeLabelProxies g4 = Ok h ∧ ranked_flat g gl ρ' h.
Proof.
  intros F N R1 Hlong Hgap Hu Hp Hne. pose proof (nt_flat _ _ _ _ N) as Fn. set (gln := with_nodeRankFactor _ _) in Fn. pose proof (dg_wf _ (lb_digraph _ (fg_labelled _ _ F))) as Hwf.
  pose proof (relabelled_remapped _ _ _ (lb_digraph _ (fg_labelled _ _ Fn)) R1) as R1'. pose proof (flat_graph_remapped _ _ _ _ _ Fn R1') as F1.
  assert (∀ x, elookup g1 x = elookup gn x) as He1 by (intros x; rewrite (rm_edges _ _ _ _ R1'); by destruct (elookup gn x) as [[l|]|]).
  assert (unlabelled g1) as Hu1. { intros x l. rewrite He1, (nt_edges _ _ _ _ N). case_decide; [by intros [= <-]|apply Hu]. }
  assert (isNode g1 root) as Hroot by (apply (relabelled_isNode _ _ _ _ R1); unfold isNode; rewrite (nt_nodes _ _ _ _ N), decide_True by done; by eexists).
  destruct (cleanup_flat g1 gln root F1 Hroot eq_refl Hu1) as (g2 & H2 & F2 & Hn2 & He2).
  assert (∀ u, oget (nodes_ g2) u = (λ o : option nodeLabel, set_rank (Some (ρ u)) <$> o) <$> oget (nodes_ g) u) as Hn2'.
  { intros u. rewrite Hn2, (rl_nodes _ _ _ R1), (nt_nodes _ _ _ _ N). destruct (decide (u = root)) as [->|]; [|done]. pose proof (nt_new _ _ _ _ N) as Hnew. apply eq_None_not_Some in Hnew. by rewrite Hnew. }
  assert (∀ x, elookup g2 x = elookup g x) as He2'.
  { intros x. rewrite He2, He1, (nt_edges _ _ _ _ N). assert (ev x = root ∨ ew x = root → elookup g x = None) as Hno.
    { intros Hx. apply elookup_None; [done|]. intros Hin. apply (edges_nodes g x Hwf) in Hin as [? ?]. apply (nt_new _ _ _ _ N). by destruct Hx as [<-|<-]. }
    case_decide as Hd; [by rewrite Hno|]. rewrite decide_False; [done|]. intros (? & _). apply Hd. by left. }
  assert (∀ v, isNode g2 v ↔ isNode g v) as Hiso by (intros v; unfold isNode; rewrite Hn2'; by destruct (oget (nodes_ g) v)).
  assert (∀ v, isNode g2 v → rankOf g2 v = Some (ρ v)) as Hrk2.
  { intros v Hv%Hiso. destruct (flat_node g gl v F Hv) as (l & Hl & _). unfold rankOf, node. rewrite Hn2', Hl. done. }
  destruct (normalizeRanks_ok g2 (flat_rank_labelled _ _ F2)) as (m & g3 & H3 & R3 & (v0 & Hv0 & Hm) & Hmin).
  { intros Hnil. apply Hne. destruct (nodes g) as [|v vs] eqn:Hns; [done|]. exfalso. apply (not_elem_of_nil v). rewrite <-Hnil. apply elem_of_nodes, Hiso, elem_of_nodes. rewrite Hns. by left. }
  { intros v Hv. rewrite Hrk2 by done. by eexists. }
  pose proof (flat_graph_ranked _ _ _ _ F2 R3) as F3. assert (plain_nodes g3) as Hp3.
  { intros v l Hl. unfold node in Hl. rewrite (rk_nodes _ _ _ R3), Hn2' in Hl. destruct (oget (nodes_ g) v) as [[l0|]|] eqn:Hv; [|done..]. cbn in Hl. injection Hl as <-. cbn. apply (Hp v). unfold node. by rewrite Hv. }
  destruct (assignRankMinMax_flat g3 _ F3 Hp3) as [H4 F4]. set (h := setGraph g3 _) in *. exists g2, g3, h, h, (λ v, ρ v - m)%Z. split_and!; [by eapply inject_flat|by eapply removeEmptyRanks_flat|done|done|done|by eapply removeProxies_flat|].
  split.
  - exists (λ k, GraphMore (dummyChains k) (Some 0%Z) None (Some 1%Z)). exact F4.
  - intros v. change (nodes_ h) with (nodes_ g3). rewrite (rk_nodes _ _ _ R3), Hn2'. destruct (oget (nodes_ g) v) as [[l|]|] eqn:Hv; cbn; [|done..]. by rewrite Hrk2 by (apply Hiso; by eexists).
  - intros x. change (elookup g3 x = elookup g x). rewrite <-He2'. destruct (rk_shape _ _ _ R3) as [ns ->]. done.
  - intros x l Hl. specialize (Hlong x l Hl). lia.
  - by apply gapless_shift.
  - intros v Hv. specialize (Hmin v (ρ v) (proj2 (Hiso v) Hv)). rewrite Hrk2 in Hmin by (by apply Hiso). specialize (Hmin eq_refl). lia.
  - exists v0. split; [by apply Hiso|]. rewrite Hrk2 in Hm by done. injection Hm as ->. lia.
Qed.
End Rank.

(** * dagre: the layout of a graph without clusters and loops

    The whole of [runLayout] on graphs in which every node is a child of the root and no edge is a loop. *)
From Stdlib Require Import QArith_base Lqa.
Local Close Scope Q_scope.
From S2P Require Import Prelude JsObject Graphlib GraphWf GraphInv GraphRemove GraphQuery GraphView GraphAlg GraphDfs Lodash LodashSpec DagreTypes DagreFas DagreAcyclic DagreRank DagreTree DagreRankClaims DagreBk DagreCross DagreUtil DagreOrder DagreOrderLayer DagreOrderClaims DagreBkClaims DagrePosition DagreNormalize DagreRemap DagreNormalizeRun DagreNormalizeClaims DagreGeometry.
From S2P Require Import DagreSimplex DagreSimplexTree DagreSimplexFlow DagreSimplexEnter DagreSimplexClaims DagreRankSpan DagreRankedLayout DagreClusters DagreRunLayout DagreFlatNest.

(** ** The input *)

Record fresh_node (l : nodeLabel) : Prop := {
  fn_size : (0 < width l ∧ 0 < height l)%Q;
  fn_dummy : dummy l = None;
  fn_labelpos : nlabelpos l = None;
  fn_more : more l = no_more
}.

Record fresh_edge (l : edgeLabel) : Prop := {
  fe_minlen : (1 ≤ minlen l)%Z;
  fe_weight : (0 ≤ weight l)%Z;
  fe_size : (ewidth l == 0 ∧ eheight l == 0)%Q;
  fe_offset : (0 <= labeloffset l)%Q;
  fe_place : ex l = None ∧ points l = None;
  fe_marks : reversed l = false ∧ forwardName l = None ∧ nestingEdge l = false
}.

(** A graph as [buildLayoutGraph] makes it of one without clusters and loops; [c] is the counter of [uniqueId]. *)
Record flat_input (g : layoutGraph) (gl : graphLabel) (c : BinNums.N) : Prop := {
  fi_graph : flat_graph g gl;
  fi_nonempty : nodes g ≠ [];
  fi_name : ¬ isNode g ""%string;
  fi_node : ∀ v l, node g v = Some l → fresh_node l;
  fi_edge : ∀ x l, elookup g x = Some (Some l) → fresh_edge l;
  fi_loops : ∀ x, x ∈ edges g → ev x ≠ ew x;
  fi_revs : ∀ x i, x ∈ edges g → ename x ≠ Some (rev_name c i);
  fi_seps : (0 <= nodesep gl ∧ 0 <= edgesep gl ∧ 0 <= ranksep gl)%Q;
  fi_align : align_ok (align gl)
}.

(** ** Ranking *)

Section Ranking.
Implicit Types (g h gs gm : layoutGraph) (gl : graphLabel) (c : BinNums.N) (x e : edgeObj) (v u : string) (l : edgeLabel) (ρ : string → Z).

(** Labels once space has been made, of edges that may have been reversed. *)
Record spaced_edge l : Prop := {
  sc_minlen : (2 ≤ minlen l)%Z;
  sc_weight : (0 ≤ weight l)%Z;
  sc_size : (0 <= ewidth l ∧ 0 <= eheight l)%Q;
  sc_flat : Qeq_bool (ewidth l) 0 || Qeq_bool (eheight l) 0 = true;
  sc_place : ex l = None ∧ points l = None;
  sc_nesting : nestingEdge l = false
}.

Lemma make_space_fresh dir l : fresh_edge l → spaced_edge (make_space dir l) ∧ reversed (make_space dir l) = false ∧ forwardName (make_space dir l) = None.
Proof.
  intros [E1 E2 [E3 E3'] E4 [E5 E5'] (E6 & E7 & E8)]. unfold make_space. repeat case_decide; cbn; (split; [split|done]); cbn; try done; try lia; try (split; lra);
    apply orb_true_iff; rewrite !Qeq_bool_iff; (by left) || by right.
Qed.

Lemma reversed_spaced b n l : spaced_edge l → spaced_edge (with_reversed b n l).
Proof. by intros [E1 E2 E3 E4 E5 E6]. Qed.

Section Acyclic.
Context (gs gm : layoutGraph) (c : BinNums.N) (l : list edgeObj).
Context (Hrv : reversible gs c) (Hsub : ∀ e, e ∈ l → e ∈ edges gs) (Hu : reversed_upto gs c l gm) (Hsp : ∀ x le, elookup gs x = Some (Some le) → spaced_edge le).

Lemma reversed_labels x le : elookup gm x = Some (Some le) → spaced_edge le.
Proof.
  intros Hx. destruct (ru_only _ _ _ _ Hu x) as [[Hxe Hxl]|(i & e & Hi & ->)].
  - apply elookup_Some; [apply Hu|]. rewrite Hx. by eexists.
  - rewrite (ru_kept _ _ _ _ Hu), decide_False in Hx by done. by eapply Hsp.
  - assert (e ∈ edges gs) as He by (by eapply Hsub, list_elem_of_lookup_2). destruct (rv_label _ _ Hrv e He) as (l0 & Hl0 & _).
    rewrite (ru_turned _ _ _ _ Hu i e l0 Hi Hl0) in Hx. injection Hx as <-. eapply reversed_spaced, Hsp, Hl0.
Qed.
End Acyclic.

Lemma path_isNode g a u : wf g → rtc (adjacent g) a u → isNode g a → isNode g u.
Proof. intros Hwf Hp Ha. induction Hp as [|a b u Hab _ IH]; [done|]. apply IH. by destruct Hab as [A|A]; apply (arrow_nodes g _ _ Hwf) in A as [? ?]. Qed.

Lemma ranked_spanned g gl ρ h : wf g → ranked_flat g gl ρ h → (∀ x le, elookup g x = Some (Some le) → (1 ≤ minlen le)%Z) → (∀ x, x ∈ edges g → ∃ le, elookup g x = Some (Some le)) → (∀ v, isNode h v ↔ isNode g v) →
  (∀ v, isNode h v → rank_of h v = Some (ρ v)) → (∀ x, x ∈ edges h ↔ x ∈ edges g) → spanned h.
Proof.
  intros Hwf [_ _ _ Hlong Hgap Hfirst (v0 & Hv0 & Hz)] Hmin Hlab Hn Hrk He v r Hv Hm. unfold movable in Hm. rewrite Hrk in Hm by done. injection Hm as Hm. apply Hn in Hv as Hvg.
  destruct (Hgap v Hvg) as (a & b & Ha & Hp & Hle & Hb). assert (ρ a = 0%Z) as Ha0 by (specialize (Hle v0 Hv0); specialize (Hfirst a Ha); lia).
  assert (∀ x, x ∈ edges g → (ρ (ev x) < ρ (ew x))%Z) as Hup by (intros x Hx; destruct (Hlab x Hx) as [le Hl]; specialize (Hlong x le Hl); specialize (Hmin x le Hl); lia).
  destruct (path_crosses (adjacent g) ρ a b (Z.of_nat r) Hp) as [(u & Hu & Hr)|(u & w & Ha' & Hr)]; [lia|left|right].
  - assert (isNode g u) as Hug by (by eapply path_isNode).
    exists u. split; [by apply Hn|]. unfold movable. rewrite Hrk by (by apply Hn). by rewrite Hr.
  - destruct Ha' as [(x & Hx & <- & <-)|(x & Hx & <- & <-)]; [|specialize (Hup x Hx); lia]. destruct (edges_nodes g x Hwf Hx) as [Nv Nw]. exists x, (ρ (ev x)), (ρ (ew x)).
    split_and!; [by apply He|by apply Hrk, Hn|by apply Hrk, Hn|lia|lia].
Qed.

Lemma ranked_ready g gl ρ h :
  flat_graph g gl → ranked_flat g gl ρ h → ¬ isNode g ""%string → (∀ v n, node g v = Some n → fresh_node n) → (∀ x le, elookup g x = Some (Some le) → spaced_edge le) →
  (0 <= nodesep gl ∧ 0 <= edgesep gl ∧ 0 <= ranksep gl)%Q → align_ok (align gl) → ∃ f, flat_graph h (with_gmore f gl) ∧ layout_ready h (with_gmore f gl).
Proof.
  intros F R Hname Hnode Hedge Hseps Halign. destruct (rf_flat _ _ _ _ R) as [f Fh]. exists f. split; [done|]. pose proof (dg_wf _ (lb_digraph _ (fg_labelled _ _ F))) as Hwf.
  assert (∀ v, isNode h v ↔ isNode g v) as Hn by (intros v; unfold isNode; rewrite (rf_nodes _ _ _ _ R); by destruct (oget (nodes_ g) v)).
  assert (∀ v, isNode h v → ∃ n, node g v = Some n ∧ node h v = Some (set_rank (Some (ρ v)) n)) as Hlab.
  { intros v Hv%Hn. destruct (flat_node g gl v F Hv) as (l & Hl & Hl'). exists l. split; [done|]. unfold node. by rewrite (rf_nodes _ _ _ _ R), Hl. }
  assert (∀ v, isNode h v → rank_of h v = Some (ρ v)) as Hrk by (intros v Hv; destruct (Hlab v Hv) as (l & _ & Hl); unfold rank_of; by rewrite Hl).
  assert (∀ x, x ∈ edges h ↔ x ∈ edges g) as He by (intros x; rewrite <-!elookup_Some, (rf_edges _ _ _ _ R) by (done || apply Fh); done).
  assert (∀ x le, edgeOf h x = Some le → x ∈ edges h → elookup g x = Some (Some le)) as Hel.
  { intros x le Hle Hx. destruct (flat_edge h _ x Fh Hx) as (le' & Hl' & Hl''). rewrite <-(rf_edges _ _ _ _ R). congruence. }
  assert (∀ x, x ∈ edges g → ∃ le, elookup g x = Some (Some le)) as Hsome by (intros x Hx; destruct (flat_edge g gl x F Hx) as (le & ? & _); by exists le).
  split.
  - split; [apply Fh|apply Fh|rewrite (fg_label _ _ Fh); by eexists|]. intros x Hx. destruct (flat_edge h _ x Fh Hx) as (le & Hle & Hle'). destruct (edges_nodes h x) as [Nv Nw]; [apply Fh|done|].
    exists (ρ (ev x)), (ρ (ew x)), le. split_and!; [by apply Hrk|by apply Hrk| |done]. rewrite (rf_edges _ _ _ _ R) in Hle. pose proof (rf_long _ _ _ _ R x le Hle). pose proof (sc_minlen _ (Hedge x le Hle)). lia.
  - split; [apply Fh|intros v Hv; apply flat_leaf; [apply Fh|apply Fh|done]|exact (lb_edge _ (fg_labelled _ _ Fh))|]. intros v Hv. split; [intros ->; apply Hname; by apply Hn|]. destruct (Hlab v Hv) as (l & Hl & Hl').
    exists (set_rank (Some (ρ v)) l), (Z.to_nat (ρ v)). pose proof (rf_first _ _ _ _ R v (proj1 (Hn v) Hv)). cbn. rewrite (fn_more _ (Hnode v l Hl)). split_and!; [done|f_equal; lia|done|done].
  - intros v Hv. destruct (Hlab v Hv) as (l & Hl & Hl'). destruct (Hnode v l Hl) as [[? ?] Hd Hlp _]. exists (set_rank (Some (ρ v)) l). split_and!; [done|unfold is_dummy; cbn; by rewrite Hd|done|done|done].
  - intros e le Hin Hle. pose proof (Hel e le Hle Hin) as Hg. destruct (sc_place _ (Hedge e le Hg)). done.
  - intros e le Hin Hle. pose proof (Hel e le Hle Hin) as Hg. apply (sc_weight _ (Hedge e le Hg)).
  - eapply ranked_spanned; [done|exact R| |done|done|done|done]. intros x le Hle. pose proof (sc_minlen _ (Hedge x le Hle)). lia.
  - apply Fh.
  - exact Hseps.
  - intros e le Hin Hle. pose proof (Hel e le Hle Hin) as Hg. apply (sc_size _ (Hedge e le Hg)).
  - exact Halign.
Qed.

(** The marks that [acyclic.undo] needs and the ranks that the drawing is made from. *)
Record prepared g gl c (l : list edgeObj) gs gm ρ h gl' : Prop := {
  pr_frame : ∃ f, gl' = with_gmore f (with_ranksep (ranksep gl / 2)%Q gl);
  pr_nodes : ∀ v, oget (nodes_ gs) v = oget (nodes_ g) v;
  pr_edges : ∀ x, elookup gs x = (λ o : option edgeLabel, make_space (rankdir gl) <$> o) <$> elookup g x;
  pr_reversible : reversible gs c;
  pr_nodup : NoDup l;
  pr_sub : ∀ e, e ∈ l → e ∈ edges gs;
  pr_cycle : ∀ e, e ∈ l → rtc (arrow gs) (ew e) (ev e);
  pr_reversed : reversed_upto gs c l gm;
  pr_spaced : ∀ x le, elookup gm x = Some (Some le) → spaced_edge le;
  pr_ranked : ranked_flat gm (with_ranksep (ranksep gl / 2)%Q gl) ρ h;
  pr_flat : flat_graph h gl';
  pr_ready : layout_ready h gl'
}.

Lemma ranking_ok acyclicer ranker turns c g gl :
  flat_input g gl c → acyclicer ≠ Some "greedy"%string →
  (may_turn ranker ∧ ranking acyclicer ranker turns c g = Throw (JsError "out of turns")) ∨
  ∃ c' (l : list edgeObj) gs gm ρ h gl', ranking acyclicer ranker turns c g = Ok (c', h) ∧ prepared g gl c l gs gm ρ h gl'.
Proof.
  intros [F Hne Hname Hnode Hedge Hloop Hrevs Hseps Halign] Hgr. pose proof (dg_wf _ (lb_digraph _ (fg_labelled _ _ F))) as Hwf. destruct (makeSpace_flat g gl F) as (gs & H1 & Fs & Hns & Hes).
  set (gls := with_ranksep (ranksep gl / 2)%Q gl) in *. assert (∀ x, x ∈ edges gs ↔ x ∈ edges g) as Hin.
  { intros x. rewrite <-(elookup_Some gs), Hes, <-(elookup_Some g) by (done || apply Fs). by destruct (elookup g x). }
  assert (∀ x le, elookup gs x = Some (Some le) → spaced_edge le ∧ reversed le = false ∧ forwardName le = None) as Hsp.
  { intros x le. rewrite Hes. destruct (elookup g x) as [[l0|]|] eqn:Hl; cbn; [|done..]. intros [= <-]. by apply make_space_fresh, (Hedge x). }
  assert (reversible gs c) as Hrv.
  { split; [apply Fs|apply Fs| |intros x i Hx; apply Hrevs; by apply Hin]. intros x Hx. destruct (flat_edge gs gls x Fs Hx) as (le & Hle & _). exists le. split; [done|]. by destruct (Hsp x le Hle). }
  assert (∀ x, x ∈ edges gs → ev x ≠ ew x) as Hloops by (intros x Hx; by apply Hloop, Hin).
  destruct (acyclic_flat acyclicer gs gls c Fs Hrv Hloops Hgr) as (l & gm & c1 & H2 & Hnd & Hsub & Hcyc & Hu & Hac & Fm).
  assert (∀ x le, elookup gm x = Some (Some le) → spaced_edge le) as Hsm by (eapply reversed_labels; [done..|]; intros x le Hle; by destruct (Hsp x le Hle)).
  assert (∀ v, oget (nodes_ gm) v = oget (nodes_ g) v) as Hnm by (intros v; by rewrite (ru_nodes _ _ _ _ Hu)).
  assert (∀ v, isNode gm v ↔ isNode g v) as Hnm' by (intros v; unfold isNode; by rewrite Hnm).
  assert (∀ v n, node gm v = Some n → fresh_node n) as Hnodem by (intros v n; unfold node; rewrite Hnm; apply Hnode).
  assert (rankable gm) as Hrk by (intros x le Hle; destruct (Hsm x le Hle); lia).
  assert (unlabelled gm) as Hul by (intros x le Hle; destruct (Hsm x le Hle); done).
  assert (plain_nodes gm) as Hpl by (intros v le Hle; destruct (Hnodem v le Hle) as [_ ? _ ->]; done).
  assert (nodes gm ≠ []) as Hnem by (intros Hnil; apply Hne; destruct (nodes g) as [|v vs] eqn:Hv; [done|]; exfalso; apply (not_elem_of_nil v); rewrite <-Hnil; apply elem_of_nodes, Hnm', elem_of_nodes; rewrite Hv; by left).
  destruct (nesting_run_flat c1 gm gls Fm) as (c2 & root & gn & H3 & N). unfold ranking. rewrite H1. cbn [res_bind]. rewrite removeSelfEdges_flat by done. cbn [res_bind]. rewrite H2. cbn [res_bind fst snd]. rewrite H3. cbn [res_bind fst snd].
  destruct (rank_pass_flat gm gls root gn Fm N Hac Hrk) with ranker turns as [[Hm ->]|(g1 & ρ & -> & R1 & Hlong & Hgap)]; [by rewrite Hnm'|by left|right]. cbn [res_bind].
  destruct (ranks_settle c2 gm gls root gn g1 ρ Fm N R1 Hlong Hgap Hul Hpl Hnem) as (g2 & g3 & g4 & h & ρ' & -> & E1 & E2 & E3 & E4 & E5 & R). cbn [res_bind fst snd]. rewrite E1. cbn [res_bind]. rewrite E2. cbn [res_bind]. rewrite E3. cbn [res_bind]. rewrite E4. cbn [res_bind]. rewrite E5. cbn [res_bind].
  destruct (ranked_ready gm gls ρ' h Fm R) as (f & Fh & Lr); [by rewrite Hnm'|done|done| |done|].
  { destruct Hseps as (? & ? & Hr). cbn. split_and!; [done|done|]. apply Qle_shift_div_l; [done|]. by rewrite Qmult_0_l. }
  exists c2, l, gs, gm, ρ', h, (with_gmore f gls). split; [done|]. split; try done. by exists f.
Qed.
End Ranking.
