(* ===== verification/DagreFlatPlace.v ===== *)
(** * dagre: placing a graph without clusters and loops

    The passes of [runLayout] around [order] and [position] that act on clusters and loops change nothing that matters: the dummies of
    long edges become children of the root again, there are no border nodes, and no loops to insert. *)
From Stdlib Require Import QArith_base Lqa.
Local Close Scope Q_scope.
From S2P Require Import Prelude JsObject Graphlib GraphWf GraphInv GraphRemove GraphQuery GraphView GraphAlg GraphDfs Lodash LodashSpec DagreTypes DagreBk DagreCross DagreLayers DagreUtil DagreOrder DagreOrderLayer DagreOrderSweep DagreOrderClaims DagreBkClaims DagrePosition DagreNormalize DagreRemap DagreNormalizeRun DagreNormalizeUndo DagreNormalizeClaims DagreGeometry DagreGeometryClaims DagreDrawn DagreRankedLayout.
From S2P Require Import DagreClusters DagreRunLayout DagreFlatNest.

(** ** The clusters that long edges cross: there are none *)

Section Chains.
Implicit Types (g gr : layoutGraph) (c : chain) (v u d : string).
Context (g0 : layoutGraph) (H0 : rank_ready g0) (Ft : flat_tree g0) (cs : list chain).
Abbreviation split_graph := (run_inv g0 (edges g0) cs).

Lemma split_flat gr : split_graph gr → flat_tree gr.
Proof.
  intros R. pose proof (ri_norm _ _ _ _ R) as Hn. destruct (nz_options _ _ _ Hn) as [_ Hc]. apply (flat_ext g0); [done|done|]. apply (nz_parent _ _ _ Hn), Ft.
Qed.

Lemma setParent_split gr v : split_graph gr → isNode gr v → ∃ g', setParent gr v None = Ok g' ∧ split_graph g'.
Proof.
  intros R Hv. pose proof (split_flat gr R) as Fr. destruct R as [[N1 N2 N3 N4 N5 N6 N7 N8 N9 N10 N11 N12 N13 N14] R2 R3 R4]. pose proof (dg_wf _ N1) as Hwf.
  destruct (setParent_root_ok gr v Hwf (ft_compound _ Fr) (wf_plain _ Hwf v Hv)) as (g' & Hs & P). exists g'. split; [done|].
  destruct (sp_options _ _ _ _ P) as (O1 & O2 & O3 & O4 & _). destruct (sp_edges _ _ _ _ P) as [E1 E2].
  assert (∀ u, oget (nodes_ g') u = oget (nodes_ gr) u) as Hn.
  { intros u. rewrite (sp_node _ _ _ _ P). destruct (oget (nodes_ gr) u) eqn:Hu; [done|]. rewrite decide_False; [done|]. intros [->|?]; [|done]. destruct Hv. congruence. }
  assert (∀ x, elookup g' x = elookup gr x) as He by (intros x; unfold elookup; by rewrite O1, E1, E2).
  assert (edges g' = edges gr) as Hed by (unfold edges; by rewrite E1).
  split; [|done|done|done]. split; try done.
  - split; [apply P|rewrite O1; apply N1|rewrite Hed; apply N1].
  - split; [rewrite O2|rewrite O3]; apply N2.
  - intros u Hu. rewrite Hn. by apply N6.
  - intros u Hu. apply N7. unfold isNode in *. by rewrite <-Hn.
  - intros c i d Hc Hi. rewrite Hn. by apply N8.
  - intros c x Hc Hx. rewrite He. by apply (N10 c x).
  - intros c Hc. rewrite He. by apply N11.
  - intros x Hx. rewrite He. by apply N12.
  - intros Hc u p. rewrite (sp_parent _ _ _ _ P). case_decide; [intros [= <-]; by left|]. destruct (oget (parent_ gr) u) as [q|] eqn:Hq; [|by rewrite decide_False]. intros [= <-]. by apply N13.
  - destruct N14 as (gl & ? & ? & ?). exists gl. unfold Graphlib.graph in *. rewrite O4. split_and!; done.
Qed.

Lemma next_dummy gr c i d : split_graph gr → c ∈ cs → c_ds c !! i = Some d → ∃ w, successors gr d = Some [w] ∧ (c_ds c ++ [ew (c_e c)]) !! S i = Some w.
Proof.
  intros R Hc Hi. pose proof (dg_wf _ (nz_digraph _ _ _ (ri_norm _ _ _ _ R))) as Hwf. destruct (dummy_out g0 gr cs H0 R c i d Hc Hi) as [(x & Hx & Hxv & Hxw) Huniq].
  assert (isNode gr d) as Hd by (rewrite <-Hxv; by apply (edges_nodes gr x Hwf)). destruct (successors_spec gr d Hwf Hd) as (ws & -> & Hnd & Hws). exists (ew x). split; [|done]. f_equal.
  apply Permutation_singleton_r. apply NoDup_Permutation; [done|apply NoDup_singleton|]. intros u. rewrite Hws, list_elem_of_singleton. split; [|intros ->; by exists x].
  intros (y & Hy & Hyv & <-). specialize (Huniq y Hy Hyv). congruence.
Qed.

Lemma parent_chain_flat fuel gr c i v asc :
  split_graph gr → c ∈ cs → (c_ds c ++ [ew (c_e c)]) !! i = Some v → length (c_ds c) ≤ fuel + i → ∃ g', parent_chain fuel [None] None (ew (c_e c)) 0 asc gr v = Ok g' ∧ split_graph g'.
Proof.
  revert gr i v asc. induction fuel as [|fuel IH]; intros gr i v asc R Hc Hi Hf; destruct (chain_ends g0 gr cs H0 R c Hc) as [_ Hw]; cbn [parent_chain].
  - rewrite decide_True; [by exists gr|]. apply lookup_app_Some in Hi as [Hi|[_ Hi]]; [apply lookup_lt_Some in Hi; lia|]. by apply list_lookup_singleton_Some in Hi as [_ <-].
  - destruct (decide (v = ew (c_e c))) as [_|Hne]; [by exists gr|]. assert (c_ds c !! i = Some v) as Hv.
    { apply lookup_app_Some in Hi as [?|[_ Hi]]; [done|]. by apply list_lookup_singleton_Some in Hi as [_ <-]. }
    pose proof (nz_dummy _ _ _ (ri_norm _ _ _ _ R) c i v Hc Hv) as Hlab. assert (isNode gr v) as Hnode by (by eexists). unfold node. rewrite Hlab. cbn [mjoin option_join of_option res_bind].
    assert ((if asc then ascend (S (length [None : option string])) gr [None] None (rank (dummy_label (c_l c) (c_e c) (c_from c + 1 + Z.of_nat i))) 0 else Ok 0) = Ok 0) as -> by (by destruct asc).
    cbn [res_bind]. replace (asc && negb (bool_decide (mjoin ([None] !! 0) = None))) with false by (by destruct asc). cbn [descend length]. rewrite decide_False by lia. cbn [res_bind].
    change (mjoin ([None] !! 0)) with (@None string). destruct (setParent_split gr v R Hnode) as (g' & -> & R'). cbn [res_bind].
    destruct (next_dummy g' c i v R' Hc Hv) as (w & -> & Hw'). cbn [of_option res_bind head]. eapply IH; [done|done|done|lia].
Qed.

Lemma postorderNums_flat gr : split_graph gr → ∃ nums, postorderNums gr = Ok nums ∧ ∀ v, isNode gr v → is_Some (oget nums v).
Proof.
  intros R. pose proof (split_flat gr R) as Fr. pose proof (dg_wf _ (nz_digraph _ _ _ (ri_norm _ _ _ _ R))) as Hwf. unfold postorderNums. destruct (flat_roots gr Hwf Fr) as (vs & -> & _ & Hvs).
  change (default [] (Some vs)) with vs. destruct (res_fold_inv (spans_dfs (S (length (nodes gr))) gr) (λ dn st, ∀ v, v ∈ dn → is_Some (oget st.1 v)) vs ([], 0%Z)) as (st & -> & Hst).
  - by intros v ?%elem_of_nil.
  - intros dn v rest st Heq Hst. assert (isNode gr v) as Hv by (apply Hvs; rewrite Heq; set_solver). cbn [spans_dfs]. rewrite (flat_children gr v Hwf Fr Hv). cbn. eexists. split; [done|].
    intros u Hu. cbn. rewrite oget_oset. case_decide; [by eexists|]. apply Hst. set_solver.
  - cbn [res_bind]. eexists. split; [done|]. intros v Hv. by apply Hst, Hvs.
Qed.

Lemma findPath_flat gr nums v w : split_graph gr → is_Some (oget nums v) → is_Some (oget nums w) → findPath gr nums v w = Ok ([None], None).
Proof.
  intros R [sv Hv] [sw Hw]. pose proof (split_flat gr R) as Fr. unfold findPath. rewrite Hv, Hw. cbn [of_option res_bind climb_v climb_w mbind option_bind]. rewrite (flat_no_parent gr v Fr). cbn [truthy res_bind fst snd app].
  rewrite (flat_no_parent gr w Fr), decide_True by done. done.
Qed.

Lemma parentDummyChains_flat gr : split_graph gr → ∃ g', parentDummyChains gr = Ok g' ∧ split_graph g'.
Proof.
  intros R. unfold parentDummyChains. destruct (postorderNums_flat gr R) as (nums & -> & Hnums). cbn [res_bind]. destruct (nz_chains _ _ _ (ri_norm _ _ _ _ R)) as (gl & -> & Hch & _). cbn [of_option res_bind]. rewrite Hch.
  change (default [] (Some (omap (head ∘ c_ds) cs))) with (omap (head ∘ c_ds) cs). destruct (res_fold_inv (parent_dummies nums) (λ _ g', split_graph g') (omap (head ∘ c_ds) cs) gr) as (g' & -> & R'); [done| |by exists g'].
  intros dn d rest g1 Heq R1. assert (d ∈ omap (head ∘ c_ds) cs) as (c & Hc & Hd)%list_elem_of_omap by (rewrite Heq; set_solver). cbn in Hd. unfold parent_dummies.
  assert (c_ds c !! 0 = Some d) as Hd0 by (by destruct (c_ds c)). pose proof (nz_dummy _ _ _ (ri_norm _ _ _ _ R1) c 0 d Hc Hd0) as Hlab. unfold node. rewrite Hlab. cbn [mjoin option_join of_option res_bind].
  assert (origObj (more (dummy_label (c_l c) (c_e c) (c_from c + 1 + Z.of_nat 0))) = Some (c_e c)) as -> by (unfold dummy_label; by case_decide). cbn [of_option res_bind].
  destruct (chain_ends g0 gr cs H0 R c Hc) as [Hv Hw]. assert (∀ u, isNode g0 u → isNode gr u) as Hup by (intros u Hu; unfold isNode; by rewrite (nz_old _ _ _ (ri_norm _ _ _ _ R) u Hu)).
  rewrite (findPath_flat g1 nums) by (done || apply Hnums; by apply Hup). cbn [res_bind fst snd]. eapply (parent_chain_flat _ g1 c 0); [done|done|by apply lookup_app_l_Some|].
  rewrite Nat.add_0_r. apply submseteq_length, NoDup_submseteq; [by eapply chain_dummies_nodup|]. intros u [i Hi]%list_elem_of_lookup. apply elem_of_nodes. eexists. by apply (nz_dummy _ _ _ (ri_norm _ _ _ _ R1) c i).
Qed.
End Chains.

(** ** Passes with nothing to do *)

Lemma oset_same {A} (o : obj A) k x : oget o k = Some x → oset o k x = o.
Proof. induction o as [|[k' y] o IH]; cbn; [done|]. case_decide as Hk; [intros [= ->]; by subst|]. intros H. by rewrite IH. Qed.

Lemma updNode_same {L V E} (g : Graph L V E) v f l : node g v = Some l → f l = l → updNode g v f = Ok g.
Proof.
  intros Hl Hf. unfold updNode. rewrite Hl. cbn [of_option res_bind]. unfold node in Hl. destruct (oget (nodes_ g) v) as [o|] eqn:Ho; [|done]. cbn in Hl. subst o.
  rewrite Hf, (oset_same _ _ _ Ho). by destruct g.
Qed.

Section Idle.
Implicit Types (g : layoutGraph) (v : string).

Lemma addBorderSegments_flat id g : flat_ranked g → flat_tree g → addBorderSegments id g = Ok (id, g).
Proof.
  intros F Ft. pose proof (dg_wf _ (fr_digraph _ F)) as Hwf. unfold addBorderSegments. destruct (flat_roots g Hwf Ft) as (cs & -> & _ & Hcs). change (default [] (Some cs)) with cs.
  apply res_fold_id. intros v Hv%Hcs. cbn [segments_dfs]. rewrite (flat_children g v Hwf Ft Hv). cbn [of_option res_bind res_fold]. destruct (fr_node _ F v Hv) as (_ & l & r & -> & _ & Hm & _).
  cbn [of_option res_bind]. by rewrite Hm.
Qed.

Lemma with_selfEdges_id (n : nodeLabel) : selfEdges (more n) = None → with_more (with_selfEdges None) n = n.
Proof. destruct n as [? ? ? ? ? ? ? ? ? m]. destruct m. cbn. by intros ->. Qed.

Lemma with_order_id (o : Z) (n : nodeLabel) : order n = Some o → with_order o n = n.
Proof. destruct n. cbn. by intros ->. Qed.

(** No loop is inserted, and the orders stay. *)
Lemma insertSelfEdges_flat id g : layered g → (∀ v l, node g v = Some l → selfEdges (more l) = None) → insertSelfEdges id g = Ok (id, g).
Proof.
  intros Hly Hs. unfold insertSelfEdges. destruct (buildLayerMatrix_inv g Hly) as (m & n & -> & I & _). cbn [res_bind]. apply res_fold_id. intros row [r Hr]%list_elem_of_lookup. cbn [fst snd].
  rewrite res_fold_id; [done|]. intros [i ov] [j Hj]%list_elem_of_lookup. rewrite list_lookup_imap in Hj. destruct (row !! j) as [ov'|] eqn:Hrow; [|done]. cbn in Hj. injection Hj as <- <-.
  destruct ov' as [v|].
  - apply (mx_here _ _ _ _ I r row j v Hr) in Hrow as [_ (l & Hl & _ & Ho)]. unfold insert_loops. cbn [fst snd of_option res_bind lo_graph lo_shift lo_id].
    rewrite (updNode_same g v _ l Hl) by (apply with_order_id; rewrite Ho; f_equal; lia). cbn [res_bind]. rewrite Hl. cbn [of_option res_bind]. rewrite (Hs v l Hl). cbn [default from_option res_fold res_bind lo_graph lo_shift lo_id].
    by rewrite (updNode_same g v _ l Hl) by (by apply with_selfEdges_id, (Hs v)).
  - exfalso. destruct (mx_hole _ _ _ _ I r row j Hr Hrow) as (v & o' & _ & Hat & Hlt). destruct (located_below g v r o' j Hly Hat Hlt) as [u Hu].
    assert (row !! j = Some (Some u)) as Hrow' by (apply (mx_here _ _ _ _ I r row j u Hr); split; [|done]; by eapply elem_of_nodes, located_node). congruence.
Qed.

Lemma positionSelfEdges_flat g : (∀ v, isNode g v → ∃ l, node g v = Some l ∧ dummy l ≠ Some "selfedge"%string) → positionSelfEdges g = Ok g.
Proof. intros Hd. apply res_fold_id. intros v Hv%elem_of_nodes. destruct (Hd v Hv) as (l & Hl & Hne). unfold position_loop. rewrite Hl. cbn [of_option res_bind]. by rewrite decide_False. Qed.

Lemma removeBorderNodes_flat g : wf g → flat_tree g → (∀ v, isNode g v → ∃ l, node g v = Some l ∧ dummy l ≠ Some "border"%string) → removeBorderNodes g = Ok g.
Proof.
  intros Hwf Ft Hd. unfold removeBorderNodes. rewrite res_fold_id.
  - cbn [res_bind]. apply res_fold_id. intros v Hv%elem_of_nodes. destruct (Hd v Hv) as (l & Hl & Hne). unfold remove_border. rewrite Hl. cbn [of_option res_bind]. by rewrite decide_False.
  - intros v Hv%elem_of_nodes. unfold fit_cluster. by rewrite (flat_children g v Hwf Ft Hv).
Qed.
End Idle.

(** ** From ranks to places *)

Lemma placing_ok id (g : layoutGraph) gl :
  layout_ready g gl → flat_tree g → (∀ v l, node g v = Some l → selfEdges (more l) = None) →
  ∃ id' g1 cs f g3, placing id g = Ok (id', g3) ∧ split_placed g gl g1 cs f g3.
Proof.
  intros L Ft Hself. pose proof (lr_ranked _ _ L) as H0. destruct (run_ok g H0 id) as (id1 & gr & cs & Hrun & Rr). destruct (parentDummyChains_flat g H0 Ft cs gr Rr) as (g1 & Hpar & R).
  pose proof (ri_norm _ _ _ _ R) as Hn. pose proof (run_flat g g1 cs H0 R (lr_flat _ _ L)) as F1. pose proof (split_flat g Ft cs g1 R) as Ft1.
  destruct (place_any g gl L id1 g1 cs R) as (id2 & g2 & g2' & g3 & f & φ & Hord & Hly & R2 & Hadj & Hpos & S).
  assert (∀ v l, node g1 v = Some l → selfEdges (more l) = None ∧ dummy l ≠ Some "selfedge"%string ∧ dummy l ≠ Some "border"%string) as Hlab.
  { intros v l Hl. destruct (decide (isNode g v)) as [Hv|Hnew].
    - assert (node g v = Some l) as Hl0 by (unfold node in *; by rewrite <-(run_old g g1 cs R v Hv)). split; [by apply (Hself v)|]. destruct (lr_plain _ _ L v Hv) as (l' & Hl' & Hd & _).
      assert (l' = l) as -> by congruence. unfold is_dummy in Hd. destruct (dummy l) as [d|]; [|done]. cbn in Hd. split; intros [= ->]; done.
    - destruct (run_new g g1 cs R v (isNode_node _ _ _ Hl) Hnew) as (c & i & _ & _ & Hl'). rewrite Hl in Hl'. injection Hl' as ->. unfold dummy_label. by case_decide. }
  assert (∀ v l, node g3 v = Some l → ∃ l1, node g1 v = Some l1 ∧ dummy l = dummy l1) as Hlab3.
  { intros v l. rewrite (remapped_node _ _ _ _ v (sp_remapped _ _ _ _ _ _ S)). intros (l1 & Hl1 & ->)%fmap_Some. exists l1. split; [done|]. destruct (sp_moves _ _ _ _ _ _ S v l1) as (o & a & b & ->). by destruct (sideways _). }
  assert (∀ v, isNode g3 v → ∃ l, node g3 v = Some l ∧ dummy l ≠ Some "selfedge"%string ∧ dummy l ≠ Some "border"%string) as Hd3.
  { intros v Hv. apply (remapped_isNode _ _ _ _ v (sp_remapped _ _ _ _ _ _ S)) in Hv. destruct (sp_box _ _ _ _ _ _ S v Hv) as (l & b & Hl & _). exists l. split; [done|]. destruct (Hlab3 v l Hl) as (l1 & Hl1 & ->). by apply (Hlab v l1). }
  exists id2, g1, cs, f, g3. split; [|done]. unfold placing. rewrite Hrun. cbn [res_bind fst snd]. rewrite Hpar. cbn [res_bind]. rewrite (addBorderSegments_flat id1 g1 F1 Ft1). cbn [res_bind fst snd].
  rewrite Hord. cbn [res_bind fst snd]. rewrite (insertSelfEdges_flat id2 g2 Hly).
  - cbn [res_bind fst snd]. rewrite Hadj. cbn [res_bind]. rewrite Hpos. cbn [res_bind]. rewrite positionSelfEdges_flat by (intros v Hv; destruct (Hd3 v Hv) as (l & ? & ? & _); by exists l). cbn [res_bind].
    rewrite removeBorderNodes_flat; [done|apply (rm_digraph _ _ _ _ (sp_remapped _ _ _ _ _ _ S))|by eapply flat_remapped, (sp_remapped _ _ _ _ _ _ S)|intros v Hv; destruct (Hd3 v Hv) as (l & ? & _ & ?); by exists l].
  - intros v l. rewrite (relabelled_node _ _ _ v R2). intros (l1 & Hl1 & ->)%fmap_Some. by apply (Hlab v l1).
Qed.
