(* ===== verification/DagreRunClaims.v ===== *)
(** * dagre: [runLayout] on a graph without clusters and loops

    The whole sequence of passes, from the graph that [buildLayoutGraph] makes to the drawing that [updateInputGraph] reads. *)
From Stdlib Require Import QArith_base.
Local Close Scope Q_scope.
From S2P Require Import DagreSimplexTree.
From S2P Require Import Prelude JsObject Graphlib GraphWf GraphInv GraphRemove GraphQuery GraphView GraphAlg Lodash DagreTypes DagreAcyclic DagreRank DagreRankClaims DagreBk DagreUtil DagreOrder DagreOrderLayer DagreBkClaims DagrePosition DagreNormalize DagreRemap DagreNormalizeRun DagreNormalizeClaims DagreGeometry DagreGeometryClaims DagreDrawn DagreRankedLayout.
From S2P Require Import DagreRankSpan DagreClusters DagreRunLayout DagreFlatNest DagreFlatRun DagreFlatPlace.

(** ** The hierarchy is left alone *)

Section Hierarchy.
Context {L V E : Type}.
Implicit Types (g : Graph L V E).

Lemma setNode_roots g v value g' : setNode g v value = Ok g' → flat_tree g → flat_tree g'.
Proof.
  unfold setNode. destruct (hasNode g v); [intros [= <-] [F1 F2]; by destruct value|]. intros H. ok_step H E0. injection H as <-. intros [F1 F2].
  change (isCompound (with_nodes _ _ g)) with (isCompound g) in E0. rewrite F1 in E0. ok_step E0 E1. injection E0 as <-. split; [exact F1|]. cbn. intros u p. rewrite oget_oset. case_decide; [congruence|apply F2].
Qed.

Lemma setEdge_roots g v w value name g' : setEdge g v w value name = Ok g' → flat_tree g → flat_tree g'.
Proof.
  unfold setEdge. destruct (ohas (edgeLabels_ g) _); [intros [= <-] [F1 F2]; by destruct value|]. destruct (_ && _); [done|]. intros H Hf. ok_step H E1. ok_step H E2. ok_step H E3. ok_step H E4. ok_step H E5. ok_step H E6. injection H as <-.
  apply setNode_roots in E1; [|done]. apply setNode_roots in E2 as [F1 F2]; [|done]. by split.
Qed.

Lemma removeEdgeById_roots g k g' : removeEdgeById g k = Ok g' → flat_tree g → flat_tree g'.
Proof.
  unfold removeEdgeById. destruct (oget (edgeObjs_ g) _); [|by intros [= <-]]. intros H [F1 F2]. ok_step H E1. ok_step H E2. ok_step H E3. ok_step H E4. injection H as <-. by split.
Qed.

Lemma removeIncident_roots g k g' : removeIncident g k = Ok g' → flat_tree g → flat_tree g'.
Proof. unfold removeIncident. intros H Hf. ok_step H E1. by eapply removeEdgeById_roots. Qed.

Lemma setParent_roots g v g' : setParent g v None = Ok g' → flat_tree g → flat_tree g'.
Proof.
  unfold setParent. intros H Hf. pose proof Hf as [F1 _]. rewrite F1 in H. cbn [negb res_bind] in H. ok_step H E1. apply setNode_roots in E1 as [G1 G2]; [|done]. ok_step H E2. ok_step H E3. injection H as <-.
  unfold removeFromParentsChildList in E2. ok_step E2 E4. ok_step E2 E5. injection E2 as <-. split; [exact G1|]. cbn. intros u p. rewrite oget_oset. case_decide; [congruence|apply G2].
Qed.

Lemma removeNode_roots g v g' : removeNode g v = Ok g' → flat_tree g → flat_tree g'.
Proof.
  unfold removeNode. destruct (hasNode g v); [|by intros [= <-]]. intros H [F1 F2]. ok_step H E1. change (isCompound (with_nodes _ _ g)) with (isCompound g) in E1. rewrite F1 in E1. ok_step E1 E2. ok_step E1 E3. injection E1 as <-.
  unfold removeFromParentsChildList in E2. ok_step E2 E4. ok_step E2 E5. injection E2 as <-. ok_step H E6. ok_step H E7. injection H as <-.
  apply (res_fold_keep _ flat_tree) in E3 as [G1 G2]; [|intros h c h' Hh Hc; by apply setParent_roots in Hc|].
  - apply (res_fold_keep _ flat_tree) in E6 as [I1 I2]; [|intros h k h' Hh Hk; by apply removeIncident_roots in Hk|by split].
    apply (res_fold_keep _ flat_tree) in E7 as [J1 J2]; [|intros h k h' Hh Hk; by apply removeIncident_roots in Hk|by split]. by split.
  - split; [exact F1|]. cbn. intros u p. rewrite oget_odel. case_decide; [done|apply F2].
Qed.

Lemma updNode_roots g v f g' : updNode g v f = Ok g' → flat_tree g → flat_tree g'.
Proof. unfold updNode. intros H [F1 F2]. ok_step H E1. injection H as <-. by split. Qed.

Lemma updEdge_roots g x f g' : updEdge g x f = Ok g' → flat_tree g → flat_tree g'.
Proof. unfold updEdge. intros H [F1 F2]. ok_step H E1. injection H as <-. by split. Qed.

Lemma remap_roots g fn fe g' : remap g fn fe = Ok g' → flat_tree g → flat_tree g'.
Proof.
  unfold remap. intros H Hf. ok_step H E1. apply (res_fold_keep _ flat_tree) in E1; [|intros h v h' Hh Hv; by apply updNode_roots in Hv|done].
  apply (res_fold_keep _ flat_tree) in H; [done|intros h v h' Hh Hv; by apply updEdge_roots in Hv|done].
Qed.
End Hierarchy.

Section DrawingHierarchy.
Implicit Types (g : layoutGraph).

Lemma undo_loop_roots fuel g e v n g' : undo_loop fuel g e v n = Ok g' → flat_tree g → flat_tree g'.
Proof.
  revert g v n. induction fuel as [|fuel IH]; intros g v n; cbn [undo_loop]; (destruct (is_dummy n); [|by intros [= <-]]); [done|]. intros H Hf. ok_step H E1. ok_step H E2. ok_step H E3. ok_step H E4. ok_step H E5. ok_step H E6.
  apply removeNode_roots in E2; [|done]. unfold push_point in E3. ok_step E3 E7. ok_step E3 E8. apply updEdge_roots in E3; [|done]. eapply IH; [exact H|]. case_decide; [by apply updEdge_roots in E4|by injection E4 as <-].
Qed.

Lemma geometry_undo_roots g g' : DagreGeometry.undo g = Ok g' → flat_tree g → flat_tree g'.
Proof.
  unfold DagreGeometry.undo. intros H Hf. ok_step H E1. ok_step H E2. assert (flat_tree a0) as Ha by (destruct (backwards _); [by apply remap_roots in E2|by injection E2 as <-]).
  destruct (sideways _); [|by injection H as <-]. ok_step H E3. apply remap_roots in E3; [|done]. by apply remap_roots in H.
Qed.

Lemma drawing_roots g g' : drawing g = Ok g' → flat_tree g → flat_tree g'.
Proof.
  unfold drawing. intros H Hf. ok_step H E1. ok_step H E2. ok_step H E3. ok_step H E4. ok_step H E5. ok_step H E6.
  unfold DagreNormalize.undo in E1. ok_step E1 D1. apply (res_fold_keep _ flat_tree) in E1; [|intros h v h' Hh Hv|done].
  2: { unfold undo_chain in Hv. ok_step Hv D2. ok_step Hv D3. ok_step Hv D4. apply setEdge_roots in D4; [|done]. by eapply undo_loop_roots. }
  apply (res_fold_keep _ flat_tree) in E2; [|intros h v h' Hh Hv; by apply updEdge_roots in Hv|done]. apply geometry_undo_roots in E3; [|done].
  assert (flat_tree a2) as H2. { unfold translateGraph in E4. ok_step E4 D2. ok_step E4 D3. ok_step E4 D4. ok_step E4 D5. apply remap_roots in D5 as [? ?]; [|done]. injection E4 as <-. by split. }
  apply (res_fold_keep _ flat_tree) in E5; [|intros h v h' Hh Hv|done].
  2: { unfold intersect_edge in Hv. ok_step Hv D2. ok_step Hv D3. ok_step Hv D4. ok_step Hv D5. by apply updEdge_roots in Hv. }
  apply (res_fold_keep _ flat_tree) in E6; [|intros h v h' Hh Hv|done].
  2: { unfold reverse_points in Hv. ok_step Hv D2. destruct (reversed _); [|by injection Hv as <-]. ok_step Hv D3. by apply updEdge_roots in Hv. }
  apply (res_fold_keep _ flat_tree) in H; [done|intros h v h' Hh Hv|done].
  unfold restore_edge in Hv. ok_step Hv D2. destruct (reversed _); [|by injection Hv as <-]. ok_step Hv D3. apply removeEdgeById_roots in D3; [|done]. by apply setEdge_roots in Hv.
Qed.
End DrawingHierarchy.

(** ** The points of reversed edges *)

Definition flip_points (l : edgeLabel) : edgeLabel := if reversed l then with_points ((λ ps : list point, reverse ps) <$> points l) l else l.

Lemma flip_marks l : reversed (flip_points l) = reversed l ∧ forwardName (flip_points l) = forwardName l.
Proof. unfold flip_points. destruct (reversed l) eqn:H; [by cbn|done]. Qed.

Lemma updEdge_same {L V E} (g : Graph L V E) x f l : edgeOf g x = Some l → f l = l → updEdge g x f = Ok g.
Proof.
  intros Hl Hf. unfold updEdge. rewrite Hl. cbn [of_option res_bind]. unfold edgeOf, edgeById in Hl. destruct (oget (edgeLabels_ g) _) as [o|] eqn:Ho; [|done]. cbn in Hl. subst o.
  rewrite Hf, (oset_same _ _ _ Ho). by destruct g.
Qed.

Lemma reversePoints_ok g : labelled g → (∀ x l, x ∈ edges g → edgeOf g x = Some l → is_Some (points l)) →
  ∃ g', reversePointsForReversedEdges g = Ok g' ∧ remapped g (λ _ l, l) (λ _, flip_points) g'.
Proof.
  intros [L1 L2 L3 L4] Hp. apply edge_pass_remapped; [done|done|done|]. intros done g1 x l _ Hx _ Hl Hl1. unfold reverse_points. rewrite Hl1. cbn [of_option res_bind].
  destruct (reversed l) eqn:Hr.
  - destruct (Hp x l Hx Hl) as [ps Hps]. rewrite Hps. cbn [of_option res_bind]. unfold updEdge. rewrite Hl1. cbn [of_option res_bind]. unfold flip_points. by rewrite Hr, Hps.
  - symmetry. apply (updEdge_same g1 x _ l Hl1). unfold flip_points. by rewrite Hr.
Qed.

(** ** The drawing *)

Section Drawing.
Implicit Types (x e : edgeObj) (v u : string).
Context (g : layoutGraph) (gl : graphLabel) (c : N) (l : list edgeObj) (gs gm : layoutGraph) (ρ : string → Z) (h : layoutGraph) (gl1 : graphLabel).
Context (I : flat_input g gl c) (P : prepared g gl c l gs gm ρ h gl1) (g4 g9 : layoutGraph) (gl9 : graphLabel) (S : finished h gl1 g4 g9 gl9).

Lemma prepared_edges x : x ∈ edges gs ↔ x ∈ edges g.
Proof.
  rewrite <-(elookup_Some gs), (pr_edges _ _ _ _ _ _ _ _ _ P), <-(elookup_Some g); [|apply (fi_graph _ _ _ I)|apply (pr_reversible _ _ _ _ _ _ _ _ _ P)]. by destruct (elookup g x).
Qed.

Lemma ranked_nodes v : isNode h v ↔ isNode g v.
Proof.
  unfold isNode. rewrite (rf_nodes _ _ _ _ (pr_ranked _ _ _ _ _ _ _ _ _ P)), (ru_nodes _ _ _ _ (pr_reversed _ _ _ _ _ _ _ _ _ P)), (pr_nodes _ _ _ _ _ _ _ _ _ P). by destruct (oget (nodes_ g) v).
Qed.

Lemma ranked_rank v : isNode g v → rank_of h v = Some (ρ v).
Proof.
  intros Hv. destruct (flat_node g gl v (fi_graph _ _ _ I) Hv) as (n & Hn & _). unfold rank_of, node.
  by rewrite (rf_nodes _ _ _ _ (pr_ranked _ _ _ _ _ _ _ _ _ P)), (ru_nodes _ _ _ _ (pr_reversed _ _ _ _ _ _ _ _ _ P)), (pr_nodes _ _ _ _ _ _ _ _ _ P), Hn.
Qed.

Lemma ranked_lookup x : x ∈ edges gm ↔ x ∈ edges h.
Proof.
  rewrite <-(elookup_Some gm), <-(rf_edges _ _ _ _ (pr_ranked _ _ _ _ _ _ _ _ _ P)), (elookup_Some h); [done|apply (pr_flat _ _ _ _ _ _ _ _ _ P)|apply (pr_reversed _ _ _ _ _ _ _ _ _ P)].
Qed.

(** An edge of the acyclic graph goes down at least two ranks. *)
Lemma ranked_down x : x ∈ edges gm → isNode g (ev x) ∧ isNode g (ew x) ∧ (ρ (ev x) + 2 ≤ ρ (ew x))%Z.
Proof.
  intros Hx. apply ranked_lookup in Hx as Hh. destruct (flat_edge h _ x (pr_flat _ _ _ _ _ _ _ _ _ P) Hh) as (le & Hle & _). rewrite (rf_edges _ _ _ _ (pr_ranked _ _ _ _ _ _ _ _ _ P)) in Hle.
  destruct (edges_nodes h x) as [Hv%ranked_nodes Hw%ranked_nodes]; [apply (pr_flat _ _ _ _ _ _ _ _ _ P)|done|]. split_and!; [done|done|].
  pose proof (rf_long _ _ _ _ (pr_ranked _ _ _ _ _ _ _ _ _ P) x le Hle). pose proof (sc_minlen _ (pr_spaced _ _ _ _ _ _ _ _ _ P x le Hle)). lia.
Qed.

(** The points of an edge of the drawing [g'] with the ends of [x]. *)
Definition well_drawn (g' : layoutGraph) x (le : edgeLabel) : Prop :=
  ∃ nv nw a ps b, node g' (ev x) = Some nv ∧ node g' (ew x) = Some nw ∧ points le = Some (a :: ps ++ [b]) ∧ on_border a nv ∧ on_border b nw ∧ ps ≠ [] ∧
    ∀ p, p ∈ ps → is_Some (px p) ∧ is_Some (py p) ∧ ∀ v n b, node g' v = Some n → box_of n = Some b → ¬ inside p b.

Lemma edge_drawn x : x ∈ edges gm → ∃ le, edgeOf g9 x = Some le ∧ well_drawn g9 x le.
Proof.
  intros Hx. destruct (ranked_down x Hx) as (Hv & Hw & Hd). apply ranked_lookup in Hx.
  destruct (fs_points _ _ _ _ _ S x _ _ Hx (ranked_rank _ Hv) (ranked_rank _ Hw)) as (le & nv & nw & a & ps & b & He & Hnv & Hnw & Hps & Ba & Bb & Hlen & Hout). exists le. split; [done|].
  exists nv, nw, a, ps, b. split_and!; [done..| |done]. intros ->. cbn in Hlen. lia.
Qed.

(** Reversing the points turns the edge around. *)
Lemma well_drawn_flip (g' : layoutGraph) x y le : ev y = ew x → ew y = ev x → well_drawn g' x le → well_drawn g' y (with_points ((λ ps : list point, reverse ps) <$> points le) le).
Proof.
  intros Hv Hw (nv & nw & a & ps & b & Hnv & Hnw & Hps & Ba & Bb & Hne & Hout). exists nw, nv, b, (reverse ps), a. rewrite Hv, Hw, Hps. cbn [fmap option_fmap option_map points with_points].
  split_and!; [done|done| |done|done| |].
  - by rewrite reverse_cons, reverse_app, reverse_singleton.
  - intros Hnil. apply Hne. by rewrite <-(reverse_involutive ps), Hnil.
  - intros p Hp. apply Hout. by rewrite elem_of_reverse in Hp.
Qed.

Lemma well_drawn_nodes (g' g'' : layoutGraph) x le : (∀ v, node g'' v = node g' v) → well_drawn g' x le → well_drawn g'' x le.
Proof. intros Hn (nv & nw & a & ps & b & H). exists nv, nw, a, ps, b. rewrite !Hn. destruct H as (? & ? & ? & ? & ? & ? & Hout). split_and!; try done. intros p Hp. setoid_rewrite Hn. by apply Hout. Qed.

Lemma edges_restored : ∃ g10 g11, reversePointsForReversedEdges g9 = Ok g10 ∧ DagreAcyclic.undo g10 = Ok g11 ∧ Graphlib.graph g11 = Some gl9 ∧ digraph g11 ∧ (∀ v, oget (nodes_ g11) v = oget (nodes_ g9) v) ∧ (∀ x, x ∈ edges g11 ↔ x ∈ edges g) ∧
  ∀ x, x ∈ edges g → ∃ le, edgeOf g11 x = Some le ∧ reversed le = false ∧ well_drawn g11 x le.
Proof.
  pose proof (pr_reversed _ _ _ _ _ _ _ _ _ P) as Hu. pose proof (fs_labelled _ _ _ _ _ S) as L9.
  assert (∀ x, x ∈ edges g9 ↔ x ∈ edges gm) as Hed by (intros x; rewrite ranked_lookup; apply S).
  destruct (reversePoints_ok g9 L9) as (g10 & H10 & R10).
  { intros x le Hx Hle. apply Hed in Hx. destruct (edge_drawn x Hx) as (le' & Hle' & nv & nw & a & ps & b & _ & _ & Hps & _). assert (le' = le) as -> by congruence. rewrite Hps. by eexists. }
  destruct (remapped_queries _ _ _ _ R10) as (E10 & G10 & _). assert (∀ v, oget (nodes_ g10) v = oget (nodes_ g9) v) as Hn10 by (intros v; rewrite (rm_nodes _ _ _ _ R10); by destruct (oget (nodes_ g9) v) as [[?|]|]).
  assert (∀ x le lm, edgeOf g9 x = Some le → elookup gm x = Some (Some lm) → x ∈ edges gm → reversed le = reversed lm ∧ forwardName le = forwardName lm) as Hmarks.
  { intros x le lm Hle Hlm Hx. apply (fs_marks _ _ _ _ _ S x); [by apply Hed|done|]. rewrite edgeOf_elookup, (rf_edges _ _ _ _ (pr_ranked _ _ _ _ _ _ _ _ _ P)), Hlm; [done|apply (pr_flat _ _ _ _ _ _ _ _ _ P)|by apply ranked_lookup]. }
  assert (∀ x le, x ∈ edges gm → edgeOf g9 x = Some le → edgeOf g10 x = Some (flip_points le) ∧ elookup g10 x = Some (Some (flip_points le))) as He10.
  { intros x le Hx Hle. assert (edgeOf g10 x = Some (flip_points le)) as He by (rewrite (remapped_edgeOf g9 _ _ g10 x (lb_digraph _ L9) R10), Hle by (by apply Hed); done). split; [done|].
    assert (x ∈ edges g10) as Hx10 by (rewrite E10; by apply Hed). rewrite edgeOf_elookup in He by (done || apply R10). destruct (elookup g10 x) as [o|]; [|done]. cbn in He. by rewrite He. }
  destruct (undo_relabelled gs c l gm g10) as (g11 & H11 & D11 & Hn11 & Ed11 & El11); [apply P|apply P|apply P| |done| |].
  { intros v [o Hv]. rewrite (pr_nodes _ _ _ _ _ _ _ _ _ P) in Hv. destruct (flat_node g gl v (fi_graph _ _ _ I)) as (n & Hn & _); [by exists o|]. unfold node. rewrite (pr_nodes _ _ _ _ _ _ _ _ _ P), Hn. by eexists. }
  { pose proof (remapped_labelled _ _ _ _ L9 R10) as [B1 B2 B3 B4]. split; [done|done| |done| |].
    - intros v. unfold isNode at 1. rewrite Hn10. change (isNode g9 v ↔ isNode gm v). rewrite (fs_nodes _ _ _ _ _ S), ranked_nodes. unfold isNode. by rewrite (ru_nodes _ _ _ _ Hu), (pr_nodes _ _ _ _ _ _ _ _ _ P).
    - intros x lm Hlm. assert (x ∈ edges gm) as Hx by (apply elookup_Some; [apply Hu|]; rewrite Hlm; by eexists). destruct (edge_drawn x Hx) as (le & Hle & _). destruct (He10 x le Hx Hle) as [_ He].
      exists (flip_points le). destruct (Hmarks x le lm Hle Hlm Hx) as [<- <-]. split; [done|]. destruct (flip_marks le) as [-> ->]. done.
    - intros x. rewrite E10. by apply Hed. }
  assert (∀ v, node g11 v = node g9 v) as Hnode by (intros v; unfold node; by rewrite Hn11, Hn10).
  exists g10, g11. split_and!; [done|done| |done|by intros v; rewrite Hn11, Hn10|by intros x; rewrite Ed11; apply prepared_edges|].
  { apply undo_glabel in H11. unfold Graphlib.graph in *. rewrite H11, G10. apply S. }
  intros x Hx%prepared_edges. destruct (El11 x Hx) as [_ ->]. destruct (rv_label _ _ (pr_reversible _ _ _ _ _ _ _ _ _ P) x Hx) as (ls & Hls & Hrs & Hfs). destruct (decide (x ∈ l)) as [[i Hi]%list_elem_of_lookup|Hxl].
  - rewrite (restored_turned c l g10 i x (pr_nodup _ _ _ _ _ _ _ _ _ P) Hi). pose proof (ru_turned _ _ _ _ Hu i x ls Hi Hls) as Ht. set (y := DagreAcyclic.turned c i x) in *.
    assert (y ∈ edges gm) as Hy by (apply elookup_Some; [apply Hu|]; rewrite Ht; by eexists). destruct (edge_drawn y Hy) as (le & Hle & Wd). destruct (He10 y le Hy Hle) as [-> _]. eexists. split; [done|]. split; [done|].
    destruct (Hmarks y le _ Hle Ht Hy) as [Hr _]. unfold flip_points. rewrite Hr. cbn [reversed with_reversed].
    apply (well_drawn_nodes g9); [done|]. exact (well_drawn_flip g9 y x le eq_refl eq_refl Wd).
  - rewrite restored_kept by done. pose proof (ru_kept _ _ _ _ Hu x Hx) as Hk. rewrite decide_False, Hls in Hk by done. assert (x ∈ edges gm) as Hm by (apply elookup_Some; [apply Hu|]; rewrite Hk; by eexists).
    destruct (edge_drawn x Hm) as (le & Hle & Wd). destruct (He10 x le Hm Hle) as [-> _]. destruct (Hmarks x le ls Hle Hk Hm) as [Hr _]. unfold flip_points. rewrite Hr, Hrs. eexists. split; [done|]. split; [congruence|].
    by apply (well_drawn_nodes g9).
Qed.
End Drawing.

(** ** The whole layout *)

(** What a drawing of [g] is; [gl'] is the label of the graph with its size. *)
Record drawing_of (g : layoutGraph) (gl : graphLabel) (g' : layoutGraph) (gl' : graphLabel) : Prop := {
  do_graph : Graphlib.graph g' = Some gl' ∧ marginx gl' = marginx gl ∧ marginy gl' = marginy gl;
  do_digraph : digraph g';
  do_flat : flat_tree g';
  do_nodes : ∀ v, isNode g' v ↔ isNode g v;
  do_edges : ∀ x, x ∈ edges g' ↔ x ∈ edges g;
  do_boxes : ∀ v l, node g v = Some l → ∃ n (x y : Q), node g' v = Some n ∧ nx n = Some x ∧ ny n = Some y ∧ width n = width l ∧ height n = height l ∧ nlabelpos n = None ∧ within gl' x y (width n) (height n);
  do_disjoint : ∀ u v m n a b, u ≠ v → node g' u = Some m → node g' v = Some n → box_of m = Some a → box_of n = Some b → disjoint_boxes a b;
  do_points : ∀ x, x ∈ edges g → ∃ l, edgeOf g' x = Some l ∧ reversed l = false ∧ well_drawn g' x l;
  do_direction : ∀ x m n a b, x ∈ edges g → ¬ rtc (arrow g) (ew x) (ev x) → node g' (ev x) = Some m → node g' (ew x) = Some n → box_of m = Some a → box_of n = Some b →
    ahead (sideways (toLowerCase (rankdir gl))) (backwards (toLowerCase (rankdir gl))) a b
}.

Lemma runLayout_ok acyclicer ranker turns c g gl :
  flat_input g gl c → acyclicer ≠ Some "greedy"%string →
  (may_turn ranker ∧ runLayout acyclicer ranker turns c g = Throw (JsError "out of turns")) ∨
  ∃ c' g' gl', runLayout acyclicer ranker turns c g = Ok (c', g') ∧ drawing_of g gl g' gl'.
Proof.
  intros I Hgr. unfold runLayout. destruct (ranking_ok acyclicer ranker turns c g gl I Hgr) as [[Hm ->]|(c1 & l & gs & gm & ρ & h & gl1 & -> & P)]; [by left|right]. cbn [res_bind fst snd].
  pose proof (pr_ready _ _ _ _ _ _ _ _ _ P) as L. pose proof (ranked_nodes _ _ _ _ _ _ _ _ _ P) as Hnodes.
  assert (∀ v n, node h v = Some n → ∃ n0, node g v = Some n0 ∧ n = set_rank (Some (ρ v)) n0) as Hlab.
  { intros v n. unfold node. rewrite (rf_nodes _ _ _ _ (pr_ranked _ _ _ _ _ _ _ _ _ P)), (ru_nodes _ _ _ _ (pr_reversed _ _ _ _ _ _ _ _ _ P)), (pr_nodes _ _ _ _ _ _ _ _ _ P).
    destruct (oget (nodes_ g) v) as [[n0|]|]; cbn; [|done..]. intros [= <-]. by exists n0. }
  destruct (placing_ok c1 h gl1 L) as (c2 & g1 & cs & f & g4 & -> & Sp); [apply (pr_flat _ _ _ _ _ _ _ _ _ P)| |].
  { intros v n Hn. destruct (Hlab v n Hn) as (n0 & Hn0 & ->). cbn. by rewrite (fn_more _ (fi_node _ _ _ I v n0 Hn0)). }
  cbn [res_bind fst snd]. destruct (draw_split h gl1 L g1 cs f g4 Sp) as (g9 & gl9 & S). destruct (edges_restored g gl c l gs gm ρ h gl1 I P g4 g9 gl9 S) as (g10 & g11 & H10 & H11 & Hg & D11 & Hn & He & Hps).
  destruct (fs_passes _ _ _ _ _ S) as (g5 & g6 & g7 & g8 & H5 & H6 & H7 & H8 & H9). 
  assert (drawing g4 = Ok g11) as Hdr by (unfold drawing; rewrite H5; cbn [res_bind]; rewrite H6; cbn [res_bind]; rewrite H7; cbn [res_bind]; rewrite H8; cbn [res_bind]; rewrite H9; cbn [res_bind]; rewrite H10; exact H11).
  assert (flat_tree g4) as Hf4 by (eapply flat_remapped; [|exact (sp_remapped _ _ _ _ _ _ Sp)]; exact (split_flat h (fg_flat _ _ (pr_flat _ _ _ _ _ _ _ _ _ P)) cs g1 (sp_inv _ _ _ _ _ _ Sp))).
  rewrite Hdr. cbn [res_bind].
  assert (∀ v, node g11 v = node g9 v) as Hnode by (intros v; unfold node; by rewrite Hn). destruct (pr_frame _ _ _ _ _ _ _ _ _ P) as [k ->]. exists c2, g11, gl9. split; [done|]. split.
  - split; [done|]. destruct (fs_margins _ _ _ _ _ S) as [-> ->]. done.
  - done.
  - by eapply drawing_roots.
  - intros v. rewrite <-Hnodes, <-(fs_nodes _ _ _ _ _ S). unfold isNode. by rewrite Hn.
  - done.
  - intros v n0 Hn0. assert (node h v = Some (set_rank (Some (ρ v)) n0)) as Hh.
    { unfold node in *. rewrite (rf_nodes _ _ _ _ (pr_ranked _ _ _ _ _ _ _ _ _ P)), (ru_nodes _ _ _ _ (pr_reversed _ _ _ _ _ _ _ _ _ P)), (pr_nodes _ _ _ _ _ _ _ _ _ P). destruct (oget (nodes_ g) v) as [o|]; [|done]. cbn in Hn0. by subst o. }
    destruct (fs_size _ _ _ _ _ S v _ Hh) as (n & x & y & Hn9 & ? & ? & ? & ? & ?). exists n, x, y. rewrite Hnode. pose proof (fs_plain _ _ _ _ _ S v n Hn9). by split_and!.
  - intros u v m n a b. rewrite !Hnode. apply S.
  - done.
  - intros x m n a b Hx Hcyc. rewrite !Hnode. intros Hm Hn' Ha Hb.
    assert (x ∉ l) as Hxl.
    { intros Hin. apply Hcyc. pose proof (pr_cycle _ _ _ _ _ _ _ _ _ P x Hin) as Hc. eapply (rtc_congruence id); [|exact Hc]. intros u w (y & Hy & <- & <-). exists y. split; [|done]. by apply (prepared_edges g gl c l gs gm ρ h _ I P). }
    assert (x ∈ edges gm) as Hxm.
    { apply (prepared_edges g gl c l gs gm ρ h _ I P) in Hx. apply elookup_Some; [apply (pr_reversed _ _ _ _ _ _ _ _ _ P)|]. rewrite (ru_kept _ _ _ _ (pr_reversed _ _ _ _ _ _ _ _ _ P) x Hx), decide_False by done.
      apply elookup_Some; [apply (pr_reversible _ _ _ _ _ _ _ _ _ P)|done]. }
    destruct (ranked_down g gl c l gs gm ρ h _ P x Hxm) as (Hv & Hw & Hd).
    apply (fs_ahead _ _ _ _ _ S (ev x) (ew x) (ρ (ev x)) (ρ (ew x)) m n a b); [by apply (ranked_rank g gl c l gs gm ρ h _ I P)|by apply (ranked_rank g gl c l gs gm ρ h _ I P)|lia|done..].
Qed.


(** ** A concrete graph: a cycle with a bypass, and a node of its own *)

Definition prefix_free (p : string) (o : option string) : bool := match o with Some s => negb (String.prefix p s) | None => true end.

Definition fresh_node_check (l : nodeLabel) : bool :=
  negb (Qle_bool (width l) 0) && negb (Qle_bool (height l) 0) &&
  match dummy l, nlabelpos l, more l with None, None, NodeMore None None None None None None None None None None None => true | _, _, _ => false end.

Definition fresh_edge_check (l : edgeLabel) : bool :=
  (1 <=? minlen l)%Z && (0 <=? weight l)%Z && Qeq_bool (ewidth l) 0 && Qeq_bool (eheight l) 0 && Qle_bool 0 (labeloffset l) &&
  match ex l, points l, reversed l, forwardName l, nestingEdge l with None, None, false, None, false => true | _, _, _, _, _ => false end.

Definition flat_input_check (g : layoutGraph) : bool :=
  isDirected g && isMultigraph g && isCompound g && bool_decide (nodes g ≠ []) && negb (hasNode g "") &&
  forallb (λ p, bool_decide (p = GRAPH_NODE)) (parent_ g).*2 &&
  forallb (λ v, match node g v with Some l => fresh_node_check l | None => false end) (nodes g) &&
  forallb (λ e, match edgeOf g e with Some l => fresh_edge_check l | None => false end && bool_decide (ev e ≠ ew e) && bool_decide (good_name (ename e)) && prefix_free "rev" (ename e)) (edges g).

Lemma fresh_node_check_ok l : fresh_node_check l = true → fresh_node l.
Proof.
  unfold fresh_node_check. rewrite !andb_true_iff, !negb_true_iff. intros [[Hw Hh] Hm]. destruct (dummy l) eqn:Hd, (nlabelpos l) eqn:Hp, (more l) as [[] [] [] [] [] [] [] [] [] [] []] eqn:Hm'; try done.
  split; [|done..]. split; apply Qnot_le_lt; intros H%Qle_bool_iff; congruence.
Qed.

Lemma fresh_edge_check_ok l : fresh_edge_check l = true → fresh_edge l.
Proof.
  unfold fresh_edge_check. rewrite !andb_true_iff, !Z.leb_le, !Qeq_bool_iff, Qle_bool_iff. intros [[[[[H1 H2] H3] H4] H5] H6].
  destruct (ex l) eqn:E1, (points l) eqn:E2, (reversed l) eqn:E3, (forwardName l) eqn:E4, (nestingEdge l) eqn:E5; done.
Qed.

Lemma rev_name_prefix c i : prefix_free "rev" (Some (rev_name c i)) = false.
Proof. unfold rev_name. by destruct (pretty.pretty (c + 1 + N.of_nat i)%N). Qed.

Lemma flat_input_check_ok g gl c : wf g → Graphlib.graph g = Some gl → (0 <= nodesep gl ∧ 0 <= edgesep gl ∧ 0 <= ranksep gl)%Q → align_ok (align gl) →
  flat_input_check g = true → flat_input g gl c.
Proof.
  intros Hwf Hgl Hs Ha. unfold flat_input_check. rewrite !andb_true_iff, negb_true_iff, bool_decide_eq_true, !forallb_forall. intros [[[[[[[H1 H2] H3] H4] H5] H6] H7] H8].
  assert (∀ e, e ∈ edges g → ∃ l, edgeOf g e = Some l ∧ fresh_edge l ∧ ev e ≠ ew e ∧ good_name (ename e) ∧ prefix_free "rev" (ename e) = true) as He.
  { intros e Hin%list_elem_of_In%H8. rewrite !andb_true_iff, !bool_decide_eq_true in Hin. destruct Hin as [[[Hl ?] ?] ?]. destruct (edgeOf g e) as [l|]; [|done]. exists l. split_and!; try done. by apply fresh_edge_check_ok. }
  assert (digraph g) as Hg by (split; [done|done|]; intros x Hx; by destruct (He x Hx) as (l & _ & _ & _ & ? & _)).
  assert (∀ x, x ∈ edges g → ¬ (∃ i, ename x = Some (rev_name c i))) as Hr.
  { intros x Hx [i Hi]. destruct (He x Hx) as (l & _ & _ & _ & _ & Hp). by rewrite Hi, rev_name_prefix in Hp. }
  split; [|done|by apply hasNode_false| | | | |done|done].
  - split; [split; [done|done| |]|split; [done|]|done].
    + intros v Hv%elem_of_nodes%list_elem_of_In%H7. destruct (node g v); [by eexists|done].
    + intros x Hx. destruct (He x Hx) as (l & -> & _). by eexists.
    + intros v p Hp%oget_elem_of%list_elem_of_In%H6. by apply bool_decide_eq_true in Hp.
  - intros v l Hl. specialize (H7 v). rewrite Hl in H7. apply fresh_node_check_ok, H7, list_elem_of_In, elem_of_nodes. by eapply isNode_node.
  - intros x l Hl. assert (x ∈ edges g) as Hx by (apply elookup_Some; [done|]; rewrite Hl; by eexists). destruct (He x Hx) as (l' & Hl' & Hf & _).
    rewrite (edgeOf_elookup g x Hwf Hx), Hl in Hl'. by injection Hl' as ->.
  - intros x Hx. by destruct (He x Hx) as (l & _ & _ & ? & _).
  - intros x i Hx Hi. apply (Hr x Hx). by exists i.
Qed.

Definition box_node : option (option nodeLabel) := Some (Some (NodeLabel 30%Q 20%Q None None None None None None None no_more)).
Definition link : option (option edgeLabel) := Some (Some plain_label).
Definition ring_label : graphLabel := GraphLabel 50%Q 20%Q 50%Q "LR" None (Some 5%Q) None None None no_gmore.
Definition ring : layoutGraph :=
  build true true true
    [OpSetGraph (Some ring_label); OpSetNode "a" box_node; OpSetNode "b" box_node; OpSetNode "c" box_node; OpSetNode "d" box_node; OpSetNode "e" box_node;
     OpSetEdge "a" "b" link (Some "e1"); OpSetEdge "b" "c" link (Some "e2"); OpSetEdge "c" "a" link (Some "e3"); OpSetEdge "a" "d" link (Some "e4");
     OpSetEdge "b" "d" link (Some "e5")]%string.

Lemma ring_input : flat_input ring ring_label 0.
Proof.
  apply flat_input_check_ok; [apply build_wf; apply (bool_decide_unpack _); vm_compute; exact I|reflexivity|by vm_compute|by intros [=]|vm_compute; reflexivity].
Qed.

