(* ===== verification/DagreEntry.v ===== *)
(** * dagre: the entry point (lib/layout.js: [layout], [buildLayoutGraph], [updateInputGraph])

    [layout] copies the attributes that matter from the labels of the caller's graph into fresh labels, runs the passes on the copy and
    writes coordinates and points back into the caller's labels.  The caller's labels are objects with arbitrary values ([optval]); the
    labels of the copy are read as the records of DagreTypes.  A number that these records cannot hold ([NaN], an infinity, a fractional
    length or weight) is outside the model: [layout] then stops with the error [outside]. *)
From Stdlib Require Import QArith_base Qreduction Ascii.
Local Close Scope Q_scope.
From S2P Require Import Prelude Decimal JsObject DagreLayout Graphlib GraphWf GraphInv GraphView Lodash DagreTypes DagreBk DagreUtil DagreNormalize DagreRunLayout.

Abbreviation label := DagreLayout.label.

(** ** [Number(value)] *)

(** White space at the ends of a numeric string; only that of ASCII. *)
Definition is_space (c : ascii) : bool := let n := nat_of_ascii c in (n =? 32) || ((9 <=? n) && (n <=? 13)).
Fixpoint trim_left (s : string) : string :=
  match s with String c s' => if is_space c then trim_left s' else s | EmptyString => EmptyString end.
Fixpoint trim_right (s : string) : string :=
  match s with
  | String c s' => match trim_right s' with EmptyString => if is_space c then EmptyString else String c EmptyString | t => String c t end
  | EmptyString => EmptyString
  end.

(** The value of a letter or digit as a digit of a number in base 2, 8, 10 or 16. *)
Definition digit_in (base : Z) (c : ascii) : option Z :=
  let n := Z.of_nat (nat_of_ascii (lower_ascii c)) in
  let d := if is_digit c then (n - 48)%Z else if bool_decide (97 ≤ n ≤ 102)%Z then (n - 87)%Z else base in
  if bool_decide (d < base)%Z then Some d else None.
(** The longest prefix of digits: their number, their value, and the rest. *)
Fixpoint scan_digits (base : Z) (s : string) (count : nat) (value : Z) : nat * Z * string :=
  match s with
  | String c s' => match digit_in base c with Some d => scan_digits base s' (S count) (value * base + d) | None => (count, value, s) end
  | EmptyString => (count, value, s)
  end.
Definition radix_literal (base : Z) (s : string) : jsnum :=
  match scan_digits base s 0 0 with (S _, v, EmptyString) => Rat (inject_Z v) | _ => NaN end.
(** The part from the letter [e] on. *)
Definition exponent (s : string) : option Z :=
  match s with
  | EmptyString => Some 0%Z
  | String c s' =>
      if bool_decide (lower_ascii c = "e"%char) then
        let '(neg, s') := match s' with String "-" t => (true, t) | String "+" t => (false, t) | t => (false, t) end in
        match scan_digits 10 s' 0 0 with (S _, v, EmptyString) => Some (if neg then - v else v)%Z | _ => None end
      else None
  end.
Definition power_of_ten (m k : Z) : Q := if decide (0 ≤ k)%Z then inject_Z (m * 10 ^ k) else Qmake m (Z.to_pos (10 ^ (- k))).
Definition decimal_literal (s : string) : jsnum :=
  if decide (s = "Infinity"%string) then PosInf
  else
    let '(n1, v1, rest) := scan_digits 10 s 0 0 in
    let '(n2, v2, rest) := match rest with String "." t => scan_digits 10 t 0 v1 | _ => (0, v1, rest) end in
    match n1 + n2 with
    | O => NaN
    | S _ => match exponent rest with Some k => Rat (power_of_ten v2 (k - Z.of_nat n2)) | None => NaN end
    end.
Definition number_of_string (s : string) : jsnum :=
  match trim_right (trim_left s) with
  | EmptyString => Rat 0
  | String "0" (String ("x"|"X") t) => radix_literal 16 t
  | String "0" (String ("o"|"O") t) => radix_literal 8 t
  | String "0" (String ("b"|"B") t) => radix_literal 2 t
  | String "-" t => n_opp (decimal_literal t)
  | String "+" t => decimal_literal t
  | t => decimal_literal t
  end.

(** Of objects and functions only the empty array converts to a number. *)
Definition Number (v : optval) : jsnum :=
  match v with
  | Undefined | Pos _ _ | Box _ | Fn _ | Points (_ :: _) => NaN
  | Null | Points [] => Rat 0
  | Num n => n
  | Bool b => Rat (if b then 1 else 0)
  | Str s => number_of_string s
  end.

(** ** The labels of the copy *)

(** [isLength] of lodash. *)
Definition isLength (v : optval) : bool :=
  match v with Num (Rat q) => let q := Qred q in bool_decide (Qden q = 1%positive) && bool_decide (0 ≤ Qnum q ≤ 9007199254740991)%Z | _ => false end.

(** [_.forEach] takes an object with an attribute [length] for an array: its callback gets an index, which has no [toLowerCase]. *)
Definition canonicalize (attrs : option label) : res label :=
  match attrs with
  | None => Ok []
  | Some o =>
      match oget o "length" with
      | Some v =>
          if isLength v then (if n_is_zero (Number v) then Ok [] else Throw TypeError)
          else Ok (foldl (λ acc k, match oget o k with Some v => oset acc (toLowerCase k) v | None => acc end) [] (okeys o))
      | None => Ok (foldl (λ acc k, match oget o k with Some v => oset acc (toLowerCase k) v | None => acc end) [] (okeys o))
      end
  end.
Definition selectNumberAttrs (o : label) (attrs : list string) : label := mapValues (pick o attrs) (λ v _, Num (Number v)).

(** [_.defaults] and [_.merge] on objects whose values are not merged recursively: an attribute that is [undefined] is filled by the former and
    does not override by the latter. *)
Definition fill_defaults (object source : label) : label :=
  foldl (λ o k, match oget o k with
                | None | Some Undefined => match oget source k with Some v => oset o k v | None => o end
                | Some _ => o
                end) object (okeys source).
Definition assignMergeValue (object : label) (key : string) (value : optval) : label :=
  match value with
  | Undefined => match oget object key with Some _ => object | None => oset object key Undefined end
  | v => oset object key v
  end.
Definition baseMerge (object source : label) : label :=
  foldl (λ o k, match oget source k with Some v => assignMergeValue o k v | None => o end) object (okeys source).
Definition merge (object : label) (sources : list label) : label := foldl baseMerge object sources.

Definition num_of (z : Z) : optval := Num (Rat (inject_Z z)).
Definition graphNumAttrs : list string := ["nodesep"; "edgesep"; "ranksep"; "marginx"; "marginy"]%string.
Definition graphDefaults : label := [("ranksep", num_of 50); ("edgesep", num_of 20); ("nodesep", num_of 50); ("rankdir", Str "tb")]%string.
Definition graphAttrs : list string := ["acyclicer"; "ranker"; "rankdir"; "align"]%string.
Definition nodeNumAttrs : list string := ["width"; "height"]%string.
Definition nodeDefaults : label := [("width", num_of 0); ("height", num_of 0)]%string.
Definition edgeNumAttrs : list string := ["minlen"; "weight"; "width"; "height"; "labeloffset"]%string.
Definition edgeDefaults : label :=
  [("minlen", num_of 1); ("weight", num_of 1); ("width", num_of 0); ("height", num_of 0); ("labeloffset", num_of 10); ("labelpos", Str "r")]%string.
Definition edgeAttrs : list string := ["labelpos"]%string.

Definition layout_graph_label (attrs : label) : label := merge [] [graphDefaults; selectNumberAttrs attrs graphNumAttrs; pick attrs graphAttrs].
Definition layout_node_label (attrs : label) : label := fill_defaults (selectNumberAttrs attrs nodeNumAttrs) nodeDefaults.
Definition layout_edge_label (attrs : label) : label := merge [] [edgeDefaults; selectNumberAttrs attrs edgeNumAttrs; pick attrs edgeAttrs].

(** ** Labels as records *)

Definition outside : js_error := JsError "outside the model".
Definition typed {A} (o : option A) : res A := match o with Some a => Ok a | None => Throw outside end.

Definition rational (v : option optval) : option Q := match v with Some (Num (Rat q)) => Some q | _ => None end.
Definition integer (v : option optval) : option Z :=
  q ← rational v; let q := Qred q in if decide (Qden q = 1%positive) then Some (Qnum q) else None.
Definition text (v : option optval) : option string := match v with Some (Str s) => Some s | _ => None end.
(** Absent, or of the right kind. *)
Definition optional {A} (f : option optval → option A) (v : option optval) : option (option A) :=
  match v with None | Some Undefined => Some None | v => Some <$> f v end.

Definition read_graph (l : label) : option graphLabel :=
  nodesep ← rational (oget l "nodesep"); edgesep ← rational (oget l "edgesep"); ranksep ← rational (oget l "ranksep");
  rankdir ← text (oget l "rankdir"); align ← optional text (oget l "align");
  marginx ← optional rational (oget l "marginx"); marginy ← optional rational (oget l "marginy");
  Some (GraphLabel nodesep edgesep ranksep rankdir align marginx marginy None None no_gmore).
Definition read_node (l : label) : option nodeLabel :=
  w ← rational (oget l "width"); h ← rational (oget l "height");
  Some (NodeLabel w h None None None None None None None no_more).
Definition read_edge (l : label) : option edgeLabel :=
  m ← integer (oget l "minlen"); k ← integer (oget l "weight"); w ← rational (oget l "width"); h ← rational (oget l "height");
  o ← rational (oget l "labeloffset"); p ← text (oget l "labelpos");
  Some (EdgeLabel m k w h o p None None None None false None false).

(** ** [buildLayoutGraph] *)

Definition input_node (inputGraph : dgraph) (g : layoutGraph) (v : string) : res layoutGraph :=
  attrs <-- canonicalize (node inputGraph v) ;;
  n <-- typed (read_node (layout_node_label attrs)) ;;
  g <-- setNode g v (Some (Some n)) ;;
  setParent g v (parent inputGraph v).
Definition input_edge (inputGraph : dgraph) (g : layoutGraph) (e : edgeObj) : res layoutGraph :=
  attrs <-- canonicalize (edgeOf inputGraph e) ;;
  l <-- typed (read_edge (layout_edge_label attrs)) ;;
  setEdgeObj g e (Some (Some l)).
Definition buildLayoutGraph (inputGraph : dgraph) : res layoutGraph :=
  attrs <-- canonicalize (Graphlib.graph inputGraph) ;;
  gl <-- typed (read_graph (layout_graph_label attrs)) ;;
  g <-- res_fold (input_node inputGraph) (setGraph (newGraph true true true) (Some gl)) (nodes inputGraph) ;;
  res_fold (input_edge inputGraph) g (edges inputGraph).

(** ** [updateInputGraph] *)

Definition number (q : option Q) : jsnum := match q with Some q => Rat q | None => NaN end.
(** The size of a cluster is written, that of a leaf is the caller's. *)
Definition write_node (n : nodeLabel) (children : list string) (l : label) : label :=
  let l := oset (oset l "x" (Num (number (nx n)))) "y" (Num (number (ny n))) in
  match children with [] => l | _ => oset (oset l "width" (Num (Rat (width n)))) "height" (Num (Rat (height n))) end.
Definition update_node (layoutGraph : layoutGraph) (g : dgraph) (v : string) : res dgraph :=
  match node g v with
  | None => Ok g
  | Some _ =>
      n <-- of_option (node layoutGraph v) ;;
      cs <-- of_option (children layoutGraph v) ;;
      updNode g v (write_node n cs)
  end.
Definition points_value (ps : option (list point)) : optval :=
  match ps with Some ps => Points ((λ p, (number (px p), number (py p))) <$> ps) | None => Undefined end.
Definition write_edge (le : edgeLabel) (l : label) : label :=
  let l := oset l "points" (points_value (points le)) in
  match ex le with Some x => oset (oset l "x" (Num (Rat x))) "y" (Num (number (ey le))) | None => l end.
Definition update_edge (layoutGraph : layoutGraph) (g : dgraph) (e : edgeObj) : res dgraph :=
  le <-- of_option (edgeOf layoutGraph e) ;;
  updEdge g e (write_edge le).
Definition write_graph (gl : graphLabel) (l : label) : label := oset (oset l "width" (Num (number (gwidth gl)))) "height" (Num (number (gheight gl))).
Definition updateInputGraph (g : dgraph) (layoutGraph : layoutGraph) : res dgraph :=
  g <-- res_fold (update_node layoutGraph) g (nodes g) ;;
  g <-- res_fold (update_edge layoutGraph) g (edges g) ;;
  gl <-- of_option (Graphlib.graph layoutGraph) ;;
  l <-- of_option (Graphlib.graph g) ;;
  Ok (setGraph g (Some (write_graph gl l))).

(** ** [layout] *)

(** The attributes that [acyclic.run] and [rank] look at; a value that is no string selects the default there. *)
Definition chosen (attrs : label) (k : string) : option string := text (oget (layout_graph_label attrs) k).

(** [turns] bounds the loop of network simplex and [id] is the counter of [uniqueId]. *)
Definition layout (turns : nat) (id : N) (g : dgraph) : res (N * dgraph) :=
  h <-- buildLayoutGraph g ;;
  attrs <-- canonicalize (Graphlib.graph g) ;;
  r <-- runLayout (chosen attrs "acyclicer") (chosen attrs "ranker") turns id h ;;
  g <-- updateInputGraph g r.2 ;;
  Ok (r.1, g).
