(* ===== verification/DagreEntryClaims.v ===== *)
(** * dagre: what [layout] does to the caller's graph

    The labels of the copy, the copy itself, the write back, and the whole of [layout] on graphs without clusters and loops.  The last
    part implements the interface [Layout] of the adapter. *)
From Stdlib Require Import QArith Qabs Qreduction Lqa.
Local Close Scope Q_scope.
From S2P Require Import Prelude JsObject DagreLayout DagreLayoutGraph DagreLayoutClaims Graphlib GraphWf GraphInv GraphRemove GraphQuery GraphView GraphAlg Lodash LodashSpec.
From S2P Require Import DagreTypes DagreAcyclic DagreRank DagreBk DagreBkClaims DagrePosition DagreUtil DagreNormalize DagreNormalizeClaims DagreRemap DagreGeometry DagreGeometryClaims DagreDrawn.
From S2P Require Import DagreRankSpan DagreRunLayout DagreFlatNest DagreFlatRun DagreRunClaims DagreEntry.

(** A loop whose body keeps an invariant or throws. *)
Lemma res_fold_or {A S} (f : S → A → res S) (P : list A → S → Prop) (Q : A → js_error → Prop) l s :
  P [] s →
  (∀ done x rest s, l = done ++ x :: rest → P done s → (∃ s', f s x = Ok s' ∧ P (done ++ [x]) s') ∨ ∃ e, f s x = Throw e ∧ Q x e) →
  (∃ s', res_fold f s l = Ok s' ∧ P l s') ∨ ∃ x e, x ∈ l ∧ res_fold f s l = Throw e ∧ Q x e.
Proof.
  intros H0 Hstep. assert (∀ rest done s, l = done ++ rest → P done s →
    (∃ s', res_fold f s rest = Ok s' ∧ P l s') ∨ ∃ x e, x ∈ rest ∧ res_fold f s rest = Throw e ∧ Q x e) as Hg; [|by apply (Hg l [])].
  induction rest as [|x rest IH]; intros done s1 Hl Hp; cbn.
  - left. exists s1. rewrite app_nil_r in Hl. by subst.
  - destruct (Hstep done x rest s1 Hl Hp) as [(s2 & -> & Hp2)|(e & -> & Hq)]; cbn.
    + destruct (IH (done ++ [x]) s2) as [?|(y & e & ? & ? & ?)]; [by rewrite <-app_assoc|done|by left|right; exists y, e; split; [by right|done]].
    + right. exists x, e. split; [by left|done].
Qed.

(** ** Labels *)

Definition given (v : option optval) (d : optval) : optval := match v with Some Undefined | None => d | Some v => v end.

Lemma select_lookup (o : label) attrs k :
  oget (selectNumberAttrs o attrs) k = if decide (k ∈ attrs) then (λ v, Num (Number v)) <$> oget o k else None.
Proof. unfold selectNumberAttrs. rewrite mapValues_lookup. unfold pick. rewrite pick_lookup. case_decide; [by destruct (oget o k)|done]. Qed.

Lemma pick_attrs (o : label) attrs k : oget (pick o attrs) k = if decide (k ∈ attrs) then oget o k else None.
Proof. unfold pick. rewrite pick_lookup. case_decide; [by destruct (oget o k)|done]. Qed.

(** A loop over keys whose body writes only the attribute of its key. *)
Lemma fold_keys {V} (f : obj V → string → obj V) (F : option V → string → option V) ks acc k :
  (∀ o k, oget (f o k) k = F (oget o k) k) → (∀ o k k', k ≠ k' → oget (f o k) k' = oget o k') → (∀ v k, F (F v k) k = F v k) →
  oget (foldl f acc ks) k = if decide (k ∈ ks) then F (oget acc k) k else oget acc k.
Proof.
  intros H1 H2 H3. revert acc. induction ks as [|k' ks IH]; intros acc; cbn [foldl]; [done|]. rewrite IH. destruct (decide (k' = k)) as [->|Hne].
  - rewrite (decide_True (P := k ∈ k :: ks)) by set_solver. rewrite H1, H3. by case_decide.
  - rewrite H2 by done. destruct (decide (k ∈ ks)); [by rewrite decide_True by set_solver|by rewrite decide_False by set_solver].
Qed.

Lemma okeys_case (s : label) k : if decide (k ∈ okeys s) then is_Some (oget s k) else oget s k = None.
Proof. case_decide as H; [by apply elem_of_okeys|]. rewrite elem_of_okeys in H. by apply eq_None_not_Some. Qed.

Lemma fill_lookup (o s : label) k :
  oget (fill_defaults o s) k = match oget o k with None | Some Undefined => match oget s k with Some v => Some v | None => oget o k end | Some v => Some v end.
Proof.
  unfold fill_defaults. rewrite (fold_keys _ (λ v k, match v with None | Some Undefined => match oget s k with Some v' => Some v' | None => v end | Some v => Some v end)).
  - pose proof (okeys_case s k) as H. case_decide; [by destruct (oget o k) as [[]|]|rewrite H; by destruct (oget o k) as [[]|]].
  - intros a k'. destruct (oget a k') as [[]|] eqn:Ha; rewrite ?Ha; try done; (destruct (oget s k'); [by rewrite oget_oset_eq|done]).
  - intros a k1 k2 Hne. destruct (oget a k1) as [[]|]; try done; (destruct (oget s k1); [by rewrite oget_oset_ne|done]).
  - intros v k'. destruct v as [[]|]; try done; destruct (oget s k') as [[]|]; done.
Qed.

Lemma merge_lookup (o s : label) k :
  oget (baseMerge o s) k = match oget s k with Some Undefined => Some (default Undefined (oget o k)) | Some v => Some v | None => oget o k end.
Proof.
  unfold baseMerge. rewrite (fold_keys _ (λ v k, match oget s k with Some Undefined => Some (default Undefined v) | Some v' => Some v' | None => v end)).
  - pose proof (okeys_case s k) as H. case_decide; [done|]. by rewrite H.
  - intros a k'. unfold assignMergeValue. destruct (oget s k') as [[]|]; rewrite ?oget_oset_eq; try done. destruct (oget a k') eqn:Ha; [by rewrite Ha|by rewrite oget_oset_eq].
  - intros a k1 k2 Hne. unfold assignMergeValue. destruct (oget s k1) as [[]|]; rewrite ?oget_oset_ne by done; try done. destruct (oget a k1); [done|by rewrite oget_oset_ne].
  - intros v k'. destruct (oget s k') as [[]|]; done.
Qed.

(** The value of an attribute that is to be a number, and of one that is taken as it is. *)
Definition number_or (attrs : label) (k : string) (d : Z) : option optval := Some (Num (match oget attrs k with Some v => Number v | None => Rat (inject_Z d) end)).
Definition value_or (attrs : label) (k : string) (d : string) : option optval := Some (match oget attrs k with Some Undefined | None => Str d | Some v => v end).

Lemma node_label_lookup attrs k :
  oget (layout_node_label attrs) k = if decide (k ∈ nodeNumAttrs) then number_or attrs k 0 else None.
Proof.
  unfold layout_node_label. rewrite fill_lookup, select_lookup. unfold number_or. destruct (decide (k ∈ nodeNumAttrs)) as [Hk|Hk].
  - destruct (oget attrs k); [done|]. unfold nodeNumAttrs in Hk. cbn [fmap option_fmap option_map]. repeat (apply elem_of_cons in Hk as [->|Hk]; [reflexivity|]). by apply elem_of_nil in Hk.
  - assert (oget nodeDefaults k = None) as ->; [|done]. apply oget_None. exact Hk.
Qed.

Ltac by_compute := apply (bool_decide_unpack _); vm_compute; exact I.

Lemma merged_lookup (d attrs : label) nums others k : oget d k ≠ Some Undefined →
  oget (merge [] [d; selectNumberAttrs attrs nums; pick attrs others]) k =
    if decide (k ∈ others) then match oget attrs k with Some Undefined => Some (default Undefined (if decide (k ∈ nums) then Some (Num (Number Undefined)) else oget d k)) | Some v => Some v
                                                 | None => oget d k end
    else if decide (k ∈ nums) then match oget attrs k with Some v => Some (Num (Number v)) | None => oget d k end else oget d k.
Proof.
  intros Hd. unfold merge. cbn [foldl]. rewrite !merge_lookup, select_lookup, pick_attrs.
  destruct (decide (k ∈ others)), (decide (k ∈ nums)), (oget attrs k) as [v|], (oget d k) as [[]|] eqn:E; try done; cbn; try (by destruct v).
Qed.

Lemma edge_label_lookup attrs k :
  oget (layout_edge_label attrs) k =
    if decide (k ∈ edgeNumAttrs) then number_or attrs k (if decide (k ∈ ["minlen"; "weight"]%string) then 1 else if decide (k = "labeloffset"%string) then 10 else 0)
    else if decide (k = "labelpos"%string) then value_or attrs k "r" else None.
Proof.
  unfold layout_edge_label, number_or, value_or. rewrite merged_lookup.
  - destruct (decide (k ∈ edgeNumAttrs)) as [Hk|Hk].
    + rewrite (decide_False (P := k ∈ edgeAttrs)).
      * destruct (oget attrs k); [done|]. unfold edgeNumAttrs in Hk. repeat (apply elem_of_cons in Hk as [->|Hk]; [reflexivity|]). by apply elem_of_nil in Hk.
      * intros ->%list_elem_of_singleton. revert Hk. by_compute.
    + destruct (decide (k = "labelpos"%string)) as [->|Hne].
      * rewrite decide_True by by_compute. destruct (oget attrs "labelpos") as [[]|]; done.
      * rewrite decide_False by (unfold edgeAttrs; by rewrite list_elem_of_singleton). apply oget_None. intros Hin. apply Hne.
        unfold edgeDefaults in Hin. cbn in Hin. unfold edgeNumAttrs in Hk. set_solver.
  - intros Hu. assert (∀ v, Some v ∈ (λ k, oget edgeDefaults k) <$> okeys edgeDefaults → v ≠ Undefined) as Ha. { intros v Hv. vm_compute in Hv. set_solver. }
    apply (Ha Undefined); [|done]. apply list_elem_of_fmap. exists k. split; [done|]. apply elem_of_okeys. by eexists.
Qed.

Lemma graph_label_lookup attrs k :
  oget (layout_graph_label attrs) k =
    if decide (k ∈ graphAttrs) then match oget attrs k with Some Undefined => Some (default Undefined (oget graphDefaults k)) | Some v => Some v | None => oget graphDefaults k end
    else if decide (k ∈ graphNumAttrs) then match oget attrs k with Some v => Some (Num (Number v)) | None => oget graphDefaults k end
    else None.
Proof.
  unfold layout_graph_label. rewrite merged_lookup.
  - destruct (decide (k ∈ graphAttrs)) as [Hk|Hk].
    + rewrite (decide_False (P := k ∈ graphNumAttrs)); [done|]. unfold graphAttrs in Hk. repeat (apply elem_of_cons in Hk as [->|Hk]; [by_compute|]). by apply elem_of_nil in Hk.
    + destruct (decide (k ∈ graphNumAttrs)) as [Hn|Hn]; [done|]. apply oget_None. intros Hin. unfold graphDefaults in Hin. cbn in Hin.
      unfold graphAttrs in Hk. unfold graphNumAttrs in Hn. set_solver.
  - intros Hu. assert (∀ v, Some v ∈ (λ k, oget graphDefaults k) <$> okeys graphDefaults → v ≠ Undefined) as Ha. { intros v Hv. vm_compute in Hv. set_solver. }
    apply (Ha Undefined); [|done]. apply list_elem_of_fmap. exists k. split; [done|]. apply elem_of_okeys. by eexists.
Qed.

Lemma canonicalize_lower (o : label) : oget o "length" = None → (∀ k, k ∈ okeys o → toLowerCase k = k) →
  ∃ attrs, canonicalize (Some o) = Ok attrs ∧ ∀ k, oget attrs k = oget o k.
Proof.
  intros Hl Hk. unfold canonicalize. rewrite Hl. eexists. split; [done|]. intros k.
  assert (∀ ks acc, (∀ k, k ∈ ks → toLowerCase k = k) → foldl (λ (acc : label) k, match oget o k with Some v => oset acc (toLowerCase k) v | None => acc end) acc ks =
    foldl (λ (acc : label) k, match oget o k with Some v => oset acc k v | None => acc end) acc ks) as Heq.
  { induction ks as [|k' ks IH]; intros acc Hks; cbn; [done|]. rewrite (Hks k') by (by left). apply IH. intros k1 H1. apply Hks. by right. }
  rewrite Heq by done. rewrite (oget_fold_set _ (oget o)) by done. pose proof (okeys_case o k) as H. case_decide; [|done]. by destruct (oget o k).
Qed.

(** ** The copy *)

Section Copy.
Implicit Types (g : dgraph) (h : layoutGraph) (v u : string) (x e : edgeObj).

(** The label of the copy that belongs to a label of the input. *)
Definition graph_of g : res graphLabel := attrs <-- canonicalize (Graphlib.graph g) ;; typed (read_graph (layout_graph_label attrs)).
Definition node_of g v : res nodeLabel := attrs <-- canonicalize (node g v) ;; typed (read_node (layout_node_label attrs)).
Definition edge_of g e : res edgeLabel := attrs <-- canonicalize (edgeOf g e) ;; typed (read_edge (layout_edge_label attrs)).

(** [h] has the nodes, edges and hierarchy of [g], with the labels of the copy. *)
Record copy_of g gl h : Prop := {
  co_labelled : DagreRemap.labelled h;
  co_compound : isCompound h = true;
  co_graph : Graphlib.graph h = Some gl;
  co_isNode : ∀ v, isNode h v ↔ isNode g v;
  co_edges : ∀ x, x ∈ edges h ↔ x ∈ edges g;
  co_node : ∀ v, isNode g v → ∃ n, node_of g v = Ok n ∧ node h v = Some n;
  co_edge : ∀ x, x ∈ edges g → ∃ l, edge_of g x = Ok l ∧ edgeOf h x = Some l;
  co_parent : ∀ v, parent h v = parent g v
}.

Record nodes_copied g gl (done : list string) h : Prop := {
  nc_wf : wf h;
  nc_options : isDirected h = true ∧ isMultigraph h = true ∧ isCompound h = true ∧ glabel h = Some gl;
  nc_edges : ∀ k, oget (edgeObjs_ h) k = None;
  nc_done : ∀ u, u ∈ done → ∃ n, node_of g u = Ok n ∧ oget (nodes_ h) u = Some (Some n);
  nc_nodes : ∀ u, isNode h u → isNode g u;
  nc_parent : ∀ u, parent h u = if decide (u ∈ done) then parent g u else None
}.

Lemma parent_acyclic g v : wf g → ¬ tc (λ a b, parent g a = Some b) v v.
Proof.
  intros Hwf. destruct (isCompound g) eqn:Hc.
  - intros Ht. apply (tok_acyclic _ _ _ _ (wf_tree _ Hwf Hc) v). eapply (tc_congruence id); [|exact Ht]. intros a b. by apply parent_up.
  - intros Ht. assert (∀ a b, parent g a ≠ Some b) as Hn by (intros a b; unfold parent; by rewrite Hc). inversion Ht; subst; by eapply Hn.
Qed.

Lemma parent_isNode g v p : wf g → parent g v = Some p → isNode g p.
Proof.
  intros Hwf Hp. assert (isCompound g = true) as Hc by (unfold parent in Hp; by destruct (isCompound g)).
  apply (parent_up g v p Hc) in Hp as [Ho Hne]. by destruct (tok_inner _ _ _ _ (wf_tree _ Hwf Hc) _ _ Ho).
Qed.

(** [setParent] of a node that is there, in terms of [parent]. *)
Lemma setParent_copied g h v : wf g → wf h → isCompound h = true → isNode g v → isNode h v → (∀ a b, parent h a = Some b → parent g a = Some b) →
  ∃ h', setParent h v (parent g v) = Ok h' ∧ wf h' ∧ same_options h h' ∧ same_edges h h' ∧ (∀ u, parent h' u = if decide (u = v) then parent g v else parent h u) ∧
    (∀ u, isNode h u → oget (nodes_ h') u = oget (nodes_ h) u) ∧ (∀ u, isNode h' u → isNode h u ∨ Some u = parent g v).
Proof.
  intros Hwg Hwh Hc Hv Hvh Hsub.
  assert (∃ h', setParent h v (parent g v) = Ok h' ∧ setParent_post h v (parent g v) h') as (h' & Hs & P).
  { destruct (parent g v) as [p|] eqn:Hp; [|apply setParent_root_ok; [done|done|exact (wf_plain _ Hwg _ Hv)]].
    apply setParent_ok; [done|done|exact (wf_plain _ Hwg _ Hv)|exact (wf_plain _ Hwg _ (parent_isNode g v p Hwg Hp))|].
    intros Hr. apply (parent_acyclic g v Hwg). eapply tc_rtc_r; [by apply tc_once|]. eapply (rtc_congruence id); [|exact Hr]. intros a b Hab. apply Hsub. by apply parent_up. }
  exists h'. split; [done|]. split; [apply P|]. split; [apply P|]. split; [apply P|]. destruct (sp_options _ _ _ _ P) as (_ & _ & C' & _). split_and!.
  - intros u. unfold parent at 1. rewrite C', Hc, (sp_parent _ _ _ _ P). destruct (decide (u = v)) as [->|Hne].
    + destruct (parent g v) as [p|] eqn:Hp; cbn; [|by rewrite decide_True]. rewrite decide_False; [done|]. apply (wf_plain _ Hwg _ (parent_isNode g v p Hwg Hp)).
    + unfold parent. rewrite Hc. destruct (oget (parent_ h) u); [done|]. case_decide; [|done]. by rewrite decide_True.
  - intros u [o Ho]. rewrite (sp_node _ _ _ _ P). by rewrite Ho.
  - intros u. unfold isNode. rewrite (sp_node _ _ _ _ P). destruct (oget (nodes_ h) u) eqn:Hu; [by left|]. case_decide as Hd; [|by intros [??]]. intros _. destruct Hd as [->|?]; [destruct Hvh; congruence|by right].
Qed.

Lemma input_node_ok g gl done v h n : wf g → isNode g v → v ∉ done → node_of g v = Ok n → nodes_copied g gl done h →
  ∃ h', input_node g h v = Ok h' ∧ nodes_copied g gl (done ++ [v]) h'.
Proof.
  intros Hwf Hv Hnew Hn Q. unfold input_node. unfold node_of in Hn. destruct (canonicalize (node g v)) as [attrs|] eqn:Ha; [|done]. cbn [res_bind] in *. rewrite Hn. cbn [res_bind].
  destruct (setNode_ok h v (Some (Some n)) (nc_wf _ _ _ _ Q) (wf_plain _ Hwf _ Hv)) as (h1 & -> & P). cbn [res_bind]. destruct (nc_options _ _ _ _ Q) as (O1 & O2 & O3 & O4).
  destruct (sn_options _ _ _ _ P) as (R1 & R2 & R3 & R4 & _).
  assert (∀ u, parent h1 u = parent h u) as Hp1.
  { intros u. pose proof (nc_parent _ _ _ _ Q u) as Hu. unfold parent in *. rewrite R3, O3 in *. rewrite (sn_parent _ _ _ _ P O3). destruct (decide (u = v ∧ _)) as [[-> _]|]; [|done].
    rewrite decide_False in Hu by done. by rewrite Hu, decide_True. }
  destruct (setParent_copied g h1 v) as (h2 & Hs & W2 & O' & E2 & Hp2 & Hn2 & Hn2'); [done|apply P|congruence|done|unfold isNode; by rewrite (sn_label _ _ _ _ P), decide_True| |].
  { intros a b. rewrite Hp1, (nc_parent _ _ _ _ Q). by case_decide. }
  exists h2. split; [done|]. destruct O' as (T1 & T2 & T3 & T4 & _). assert (∀ u, isNode h1 u → isNode g u) as Hi1.
  { intros u. unfold isNode at 1. rewrite (sn_label _ _ _ _ P). case_decide; [by subst|]. apply Q. }
  split; [done|split_and!; congruence| | | |].
  - intros k. destruct E2 as [-> _], (sn_edges _ _ _ _ P) as [-> _]. apply Q.
  - intros u [Hu| ->%list_elem_of_singleton]%elem_of_app.
    + destruct (nc_done _ _ _ _ Q u Hu) as (m & Hm & Ho). exists m. split; [done|]. assert (oget (nodes_ h1) u = Some (Some m)) as Ho1 by (rewrite (sn_label _ _ _ _ P), decide_False; [done|by intros ->]).
      rewrite Hn2; [done|by eexists].
    + exists n. unfold node_of. rewrite Ha. split; [done|]. assert (oget (nodes_ h1) v = Some (Some n)) as Ho1 by (by rewrite (sn_label _ _ _ _ P), decide_True).
      rewrite Hn2; [done|by eexists].
  - intros u [Hu|Hu]%Hn2'; [by apply Hi1|]. by eapply parent_isNode.
  - intros u. rewrite Hp2, Hp1, (nc_parent _ _ _ _ Q). destruct (decide (u = v)) as [->|Hne]; [by rewrite decide_True by set_solver|].
    destruct (decide (u ∈ done)); [by rewrite decide_True by set_solver|by rewrite decide_False by set_solver].
Qed.

Record edges_in g gl (done : list edgeObj) h : Prop := {
  ei_digraph : digraph h;
  ei_options : isMultigraph h = true ∧ isCompound h = true ∧ Graphlib.graph h = Some gl;
  ei_node : ∀ v, isNode g v → ∃ n, node_of g v = Ok n ∧ oget (nodes_ h) v = Some (Some n);
  ei_isNode : ∀ v, isNode h v ↔ isNode g v;
  ei_parent : ∀ v, parent h v = parent g v;
  ei_done : ∀ x, x ∈ done → ∃ l, edge_of g x = Ok l ∧ elookup h x = Some (Some l);
  ei_only : ∀ x, is_Some (elookup h x) → x ∈ done
}.

Lemma nodes_copied_all g gl h : wf g → nodes_copied g gl (nodes g) h → edges_in g gl [] h.
Proof.
  intros Hwf [Q1 (O1 & O2 & O3 & O4) Q3 Q4 Q5 Q6]. assert (∀ x, x ∉ edges h) as Hnil.
  { intros x Hx%elem_of_edges; [|done]. by rewrite Q3 in Hx. }
  split; [split; [done|done|]; by intros x ?%Hnil|done| | | |by intros x ?%elem_of_nil|].
  - intros v Hv. by apply Q4, elem_of_nodes.
  - intros v. split; [apply Q5|]. intros Hv. destruct (Q4 v) as (n & _ & Hn); [by apply elem_of_nodes|]. by eexists.
  - intros v. rewrite Q6. case_decide as Hv; [done|]. rewrite elem_of_nodes in Hv. unfold parent. destruct (isCompound g) eqn:Hc; [|done].
    destruct (oget (parent_ g) v) eqn:Hp; [|done]. destruct Hv. apply (tok_parent _ _ _ _ (wf_tree _ Hwf Hc)). by eexists.
  - intros x Hx%elookup_Some; [|done]. by destruct (Hnil x).
Qed.

Lemma input_edge_ok g gl done x h l : digraph g → x ∈ edges g → edge_of g x = Ok l → edges_in g gl done h →
  ∃ h', input_edge g h x = Ok h' ∧ edges_in g gl (done ++ [x]) h'.
Proof.
  intros Hg Hx Hl [D (M & C & G) N I P E O]. unfold input_edge. pose proof Hl as Hl'. unfold edge_of in Hl. destruct (canonicalize (edgeOf g x)) as [attrs|] eqn:Ha; [|done].
  cbn [res_bind] in *. rewrite Hl. cbn [res_bind]. unfold setEdgeObj. destruct (edges_nodes g x (dg_wf _ Hg) Hx) as [Nv%I Nw%I].
  destruct (setEdge_view_ok h x (Some (Some l)) D (digraph_edge g x Hg Hx)) as (h' & -> & V); [by right|]. exists h'. split; [done|].
  destruct (sev_options _ _ _ _ V) as (_ & M' & C' & G' & _). split; [apply V|unfold Graphlib.graph in *; split_and!; congruence| | | | |].
  - intros v Hv. destruct (N v Hv) as (n & Hn & Ho). exists n. split; [done|]. by rewrite (sev_nodes_same h x _ h' v V).
  - intros v. rewrite <-I. unfold isNode. by rewrite (sev_nodes_same h x _ h' v V).
  - intros v. rewrite <-P. unfold parent. rewrite C', C, (sev_parent _ _ _ _ V C). destruct (oget (parent_ h) v); [done|]. case_decide; [|done]. by rewrite decide_True.
  - intros y [Hy| ->%list_elem_of_singleton]%elem_of_app.
    + destruct (E y Hy) as (m & Hm & Hlk). rewrite (sev_edges _ _ _ _ V). case_decide; [subst y; by exists l|by exists m].
    + exists l. split; [done|]. by rewrite (sev_edges _ _ _ _ V), decide_True.
  - intros y. rewrite (sev_edges _ _ _ _ V). case_decide; [subst; set_solver|]. intros Hy%O. set_solver.
Qed.

Lemma edges_in_all g gl h : digraph g → edges_in g gl (edges g) h → copy_of g gl h.
Proof.
  intros Hg [D (M & C & G) N I P E O].
  assert (∀ x, x ∈ edges h ↔ x ∈ edges g) as He.
  { intros x. split; [intros Hx; by apply O, (elookup_Some h x (dg_wf _ D))|]. intros Hx. destruct (E x Hx) as (l & _ & Hl). apply elookup_Some; [apply D|]. rewrite Hl. by eexists. }
  assert (∀ v, isNode g v → ∃ n, node_of g v = Ok n ∧ node h v = Some n) as Hn.
  { intros v Hv. destruct (N v Hv) as (n & ? & Ho). exists n. split; [done|]. unfold node. by rewrite Ho. }
  assert (∀ x, x ∈ edges g → ∃ l, edge_of g x = Ok l ∧ edgeOf h x = Some l) as Hl.
  { intros x Hx. destruct (E x Hx) as (l & ? & Hlk). exists l. split; [done|]. rewrite edgeOf_elookup; [by rewrite Hlk|apply D|by apply He]. }
  split; try done. split; [done|done| |].
  - intros v Hv%I. destruct (Hn v Hv) as (n & _ & ->). by eexists.
  - intros x Hx%He. destruct (Hl x Hx) as (l & _ & ->). by eexists.
Qed.

Lemma buildLayoutGraph_ok g : digraph g →
  (∃ gl h, graph_of g = Ok gl ∧ buildLayoutGraph g = Ok h ∧ copy_of g gl h) ∨
  ∃ e : js_error, buildLayoutGraph g = Throw e ∧ (graph_of g = Throw e ∨ (∃ v, isNode g v ∧ node_of g v = Throw e) ∨ ∃ x, x ∈ edges g ∧ edge_of g x = Throw e).
Proof.
  intros Hg. pose proof (dg_wf _ Hg) as Hwf. unfold buildLayoutGraph. assert (∀ k : graphLabel → res layoutGraph, (attrs <-- canonicalize (Graphlib.graph g) ;; gl <-- typed (read_graph (layout_graph_label attrs)) ;; k gl) = (gl <-- graph_of g ;; k gl)) as Hk.
  { intros k. unfold graph_of. by rewrite res_bind_assoc. }
  rewrite Hk. clear Hk. destruct (graph_of g) as [gl|e]; cbn [res_bind]; [|right; exists e; by auto].
  match goal with |- context [res_fold (input_node g) ?s _] => set (h0 := s) end.
  destruct (res_fold_or (input_node g) (nodes_copied g gl) (λ v (e : js_error), node_of g v = Throw e) (nodes g) h0) as [(h1 & -> & Q)|(v & e & Hv & -> & He)].
  - split; [apply setGraph_wf, newGraph_wf|done|done|by intros u ?%elem_of_nil|by intros u [??]|]. intros u. by rewrite decide_False by apply not_elem_of_nil.
  - intros done v rest h Hsplit Q. assert (v ∈ nodes g) as Hv by (rewrite Hsplit; set_solver). assert (v ∉ done) as Hnew.
    { pose proof (NoDup_nodes g Hwf) as Hnd. rewrite Hsplit in Hnd. apply NoDup_app in Hnd as (_ & Hd & _). intros Hin. apply (Hd v Hin). by left. }
    destruct (node_of g v) as [n|e] eqn:Hn; [left; by apply (input_node_ok g gl done v h n); [|apply elem_of_nodes|..]|].
    right. exists e. split; [|done]. unfold input_node. unfold node_of in Hn. destruct (canonicalize (node g v)); cbn [res_bind] in *; [by rewrite Hn|by injection Hn as ->].
  - cbn [res_bind]. destruct (res_fold_or (input_edge g) (edges_in g gl) (λ x (e : js_error), edge_of g x = Throw e) (edges g) h1) as [(h2 & -> & R)|(x & e & Hx & -> & He)].
    + by apply nodes_copied_all.
    + intros done x rest h Hsplit R. assert (x ∈ edges g) as Hx by (rewrite Hsplit; set_solver).
      destruct (edge_of g x) as [l|e] eqn:Hl; [left; by apply (input_edge_ok g gl done x h l)|].
      right. exists e. split; [|done]. unfold input_edge. unfold edge_of in Hl. destruct (canonicalize (edgeOf g x)); cbn [res_bind] in *; [by rewrite Hl|by injection Hl as ->].
    + left. exists gl, h2. split; [done|]. split; [done|]. by apply edges_in_all.
    + right. exists e. split; [done|]. right. right. by exists x.
  - right. exists e. cbn [res_bind]. split; [done|]. right. left. exists v. by rewrite <-elem_of_nodes.
Qed.
End Copy.

(** ** The write back *)

Section Update.
Implicit Types (g : dgraph) (h : layoutGraph) (v u : string) (x e : edgeObj).

(** [g'] is [g] with what [h] says written into its labels. *)
Record written g h g' : Prop := {
  wr_nodes : ∀ v, isNode g' v ↔ isNode g v;
  wr_edges : edges g' = edges g;
  wr_parent : ∀ v, parent g' v = parent g v;
  wr_node : ∀ v l, node g v = Some l → ∃ n cs, node h v = Some n ∧ children h v = Some cs ∧ node g' v = Some (write_node n cs l);
  wr_edge : ∀ x l, x ∈ edges g → edgeOf g x = Some l → ∃ le, edgeOf h x = Some le ∧ edgeOf g' x = Some (write_edge le l);
  wr_graph : ∀ l gl, Graphlib.graph g = Some l → Graphlib.graph h = Some gl → Graphlib.graph g' = Some (write_graph gl l);
  wr_wf : wf g'
}.

Lemma update_nodes_ok g h : DagreRemap.labelled g → (∀ v, isNode g v → ∃ n cs, node h v = Some n ∧ children h v = Some cs) →
  ∃ g1, res_fold (update_node h) g (nodes g) = Ok g1 ∧
    remapped g (λ v l, match node h v, children h v with Some n, Some cs => write_node n cs l | _, _ => l end) (λ _ l, l) g1.
Proof.
  intros [L1 L2 L3 L4] Hh. destruct (updNodes_remapped g (λ v l, match node h v, children h v with Some n, Some cs => write_node n cs l | _, _ => l end) L1 L3) as (g1 & Hr & R).
  exists g1. split; [|done]. rewrite <-Hr. clear g1 Hr R.
  assert (∀ vs g1, (∀ v, v ∈ vs → isNode g v) → (∀ v, isNode g v → is_Some (node g1 v)) →
    res_fold (update_node h) g1 vs = res_fold (λ g v, updNode g v (λ l, match node h v, children h v with Some n, Some cs => write_node n cs l | _, _ => l end)) g1 vs) as Hg.
  { induction vs as [|v vs IH]; intros g1 Hvs Hl; cbn [res_fold]; [done|]. destruct (Hl v (Hvs v ltac:(by left))) as [l Hlv]. destruct (Hh v (Hvs v ltac:(by left))) as (n & cs & Hn & Hc).
    assert (update_node h g1 v = updNode g1 v (λ l, match node h v, children h v with Some n, Some cs => write_node n cs l | _, _ => l end)) as ->.
    { unfold update_node. by rewrite Hlv, Hn, Hc. }
    destruct (updNode g1 v _) as [g2|] eqn:Hu; [|done]. cbn [res_bind]. unfold updNode in Hu. rewrite Hlv in Hu. cbn [of_option res_bind] in Hu. injection Hu as <-. apply IH.
    - intros u Hu. apply Hvs. by right.
    - intros u Hu. unfold node at 1, with_nodes. cbn [nodes_]. rewrite oget_oset. case_decide; [by eexists|]. by apply Hl. }
  apply Hg; [|done]. intros v. by rewrite elem_of_nodes.
Qed.

Lemma updateInputGraph_ok g h l gl : DagreRemap.labelled g → Graphlib.graph g = Some l → Graphlib.graph h = Some gl →
  (∀ v, isNode g v → ∃ n cs, node h v = Some n ∧ children h v = Some cs) → (∀ x, x ∈ edges g → is_Some (edgeOf h x)) →
  ∃ g', updateInputGraph g h = Ok g' ∧ written g h g'.
Proof.
  intros Lg Hl Hgl Hn He. unfold updateInputGraph. destruct (update_nodes_ok g h Lg Hn) as (g1 & -> & R1). cbn [res_bind]. pose proof (remapped_labelled _ _ _ _ Lg R1) as [D1 M1 N1 E1].
  destruct (remapped_queries _ _ _ _ R1) as (Ed1 & _).
  destruct (edge_pass_remapped g1 (update_edge h) (λ x l, match edgeOf h x with Some le => write_edge le l | None => l end) D1 M1 E1) as (g2 & -> & R2).
  { intros done g2 x lx _ Hx _ _ _. unfold update_edge. destruct (He x) as [le ->]; [by rewrite <-Ed1|]. done. }
  pose proof (remapped_trans _ _ _ _ _ _ _ R1 R2) as R. destruct (remapped_queries _ _ _ _ R) as (Ed & Gl & _ & _ & Cm & Pa & _). cbn [res_bind]. rewrite Gl, Hl, Hgl. cbn [of_option res_bind].
  eexists. split; [done|]. split.
  - intros v. unfold isNode. change (nodes_ (setGraph g2 _)) with (nodes_ g2). rewrite (rm_nodes _ _ _ _ R). by destruct (oget (nodes_ g) v).
  - exact Ed.
  - intros v. unfold parent. change (isCompound (setGraph g2 _)) with (isCompound g2). change (parent_ (setGraph g2 _)) with (parent_ g2). by rewrite Cm, Pa.
  - intros v lv Hv. change (node (setGraph g2 _) v) with (node g2 v). destruct (Hn v (isNode_node _ _ _ Hv)) as (n & cs & Hn' & Hc). exists n, cs.
    rewrite (remapped_node _ _ _ _ v R), Hv, Hn', Hc. done.
  - intros x lx Hx Hlx. change (edgeOf (setGraph g2 _) x) with (edgeOf g2 x). destruct (He x Hx) as [le Hle]. exists le. split; [done|].
    rewrite (remapped_edgeOf g _ _ g2 x (lb_digraph _ Lg) R Hx), Hlx. cbn. by rewrite Hle.
  - intros l' gl' ? ?. simplify_eq. done.
  - apply setGraph_wf, R.
Qed.
End Update.

(** ** The whole layout *)

Section Layout.
Implicit Types (g : dgraph) (h : layoutGraph) (v u : string) (x e : edgeObj) (c : N).

(** A labelled graph without clusters and loops, whose attributes are numbers in the ranges that the layout is meant for. *)
Record layable g gl c : Prop := {
  ly_labelled : DagreRemap.labelled g;
  ly_label : is_Some (Graphlib.graph g);
  ly_graph : graph_of g = Ok gl;
  ly_nonempty : nodes g ≠ [];
  ly_name : ¬ isNode g ""%string;
  ly_node : ∀ v, isNode g v → parent g v = None ∧ ∃ n, node_of g v = Ok n ∧ (0 < width n ∧ 0 < height n)%Q;
  ly_edge : ∀ x, x ∈ edges g → ev x ≠ ew x ∧ (∀ i, ename x ≠ Some (rev_name c i)) ∧
    ∃ l, edge_of g x = Ok l ∧ (1 ≤ minlen l ∧ 0 ≤ weight l)%Z ∧ (ewidth l == 0 ∧ eheight l == 0 ∧ 0 <= labeloffset l)%Q;
  ly_seps : (0 <= nodesep gl ∧ 0 <= edgesep gl ∧ 0 <= ranksep gl)%Q;
  ly_align : align_ok (align gl)
}.

Lemma node_of_fresh g v n : node_of g v = Ok n → (0 < width n ∧ 0 < height n)%Q → fresh_node n.
Proof.
  unfold node_of. intros H. ok_step H E1. unfold typed in H. destruct (read_node _) as [m|] eqn:Hr; [|done]. injection H as <-. unfold read_node in Hr.
  destruct (rational (oget _ "width")) as [w|]; [|done]. destruct (rational (oget _ "height")) as [k|]; [|done]. cbn in Hr. injection Hr as <-. by intros [? ?].
Qed.

Lemma edge_of_fresh g x l : edge_of g x = Ok l → (1 ≤ minlen l ∧ 0 ≤ weight l)%Z → (ewidth l == 0 ∧ eheight l == 0 ∧ 0 <= labeloffset l)%Q → fresh_edge l.
Proof.
  unfold edge_of. intros H. ok_step H E1. unfold typed in H. destruct (read_edge _) as [m|] eqn:Hr; [|done]. injection H as <-. unfold read_edge in Hr.
  repeat match type of Hr with context [mbind _ ?o] => destruct o; [cbn [mbind option_bind] in Hr|done] end. injection Hr as <-. intros [? ?] (? & ? & ?). by split.
Qed.

Lemma copy_flat_input g gl c h : layable g gl c → copy_of g gl h → flat_input h gl c.
Proof.
  intros L C. assert (∀ v, parent h v = None) as Hp.
  { intros v. rewrite (co_parent _ _ _ C). destruct (parent g v) as [p|] eqn:Hp; [|done]. assert (isNode g v) as Hv.
    { unfold parent in Hp. destruct (isCompound g) eqn:Hc; [|done]. destruct (oget (parent_ g) v) eqn:Ho; [|done]. pose proof (lb_digraph _ (ly_labelled _ _ _ L)) as [Hwf _ _].
      apply (tok_parent _ _ _ _ (wf_tree _ Hwf Hc)). by eexists. }
    destruct (ly_node _ _ _ L v Hv). congruence. }
  split.
  - split; [apply C| |apply C]. split; [apply C|]. intros v p Ho. specialize (Hp v). unfold parent in Hp. rewrite (co_compound _ _ _ C), Ho in Hp. by case_decide.
  - intros Hn. apply (ly_nonempty _ _ _ L). destruct (nodes g) as [|v l] eqn:Hg; [done|]. assert (v ∈ nodes h) as Hv; [|rewrite Hn in Hv; by apply elem_of_nil in Hv].
    apply elem_of_nodes, (co_isNode _ _ _ C), elem_of_nodes. rewrite Hg. by left.
  - rewrite (co_isNode _ _ _ C). apply L.
  - intros v l Hl. assert (isNode g v) as Hv by (apply (co_isNode _ _ _ C); by eapply isNode_node). destruct (co_node _ _ _ C v Hv) as (n & Hn & Hn'). destruct (ly_node _ _ _ L v Hv) as (_ & n' & Hn2 & Hs).
    rewrite Hl in Hn'. injection Hn' as <-. rewrite Hn in Hn2. injection Hn2 as <-. by eapply node_of_fresh.
  - intros x l Hl. assert (x ∈ edges h) as Hx by (apply elookup_Some; [apply (lb_digraph _ (co_labelled _ _ _ C))|]; rewrite Hl; by eexists). pose proof (proj1 (co_edges _ _ _ C x) Hx) as Hg.
    destruct (co_edge _ _ _ C x Hg) as (l1 & H1 & H1'). destruct (ly_edge _ _ _ L x Hg) as (_ & _ & l2 & H2 & Hm & Hs). rewrite edgeOf_elookup, Hl in H1'; [|apply (lb_digraph _ (co_labelled _ _ _ C))|done].
    injection H1' as <-. rewrite H1 in H2. injection H2 as <-. by eapply edge_of_fresh.
  - intros x Hx%(co_edges _ _ _ C). by destruct (ly_edge _ _ _ L x Hx).
  - intros x i Hx%(co_edges _ _ _ C). by destruct (ly_edge _ _ _ L x Hx) as (_ & ? & _).
  - apply L.
  - apply L.
Qed.

(** The attributes of the graph label that select the algorithms. *)
Definition attr_of g (k : string) : option string := match canonicalize (Graphlib.graph g) with Ok attrs => chosen attrs k | Throw _ => None end.

Lemma layout_ok turns c g gl : layable g gl c → attr_of g "acyclicer" ≠ Some "greedy"%string →
  (may_turn (attr_of g "ranker") ∧ layout turns c g = Throw (JsError "out of turns")) ∨
  ∃ c' g' h h' gl', layout turns c g = Ok (c', g') ∧ copy_of g gl h ∧ drawing_of h gl h' gl' ∧ written g h' g'.
Proof.
  intros L Hgr. pose proof (ly_labelled _ _ _ L) as Lg. pose proof (lb_digraph _ Lg) as Hg. destruct (ly_label _ _ _ L) as [lg Hlg].
  destruct (buildLayoutGraph_ok g Hg) as [(gl0 & h & Hgl & Hb & C)|(e & _ & [He|[(v & Hv & He)|(x & Hx & He)]])].
  2: { rewrite (ly_graph _ _ _ L) in He. done. }
  2: { destruct (ly_node _ _ _ L v Hv) as (_ & n & Hn & _). congruence. }
  2: { destruct (ly_edge _ _ _ L x Hx) as (_ & _ & l & Hl & _). congruence. }
  rewrite (ly_graph _ _ _ L) in Hgl. injection Hgl as <-. pose proof (copy_flat_input g gl c h L C) as I. unfold layout. rewrite Hb. cbn [res_bind].
  assert (∃ attrs, canonicalize (Graphlib.graph g) = Ok attrs) as [attrs Ha]. { pose proof (ly_graph _ _ _ L) as Hq. unfold graph_of in Hq. ok_step Hq Ha. by eexists. }
  unfold attr_of in *. rewrite Ha in Hgr |- *. cbn [res_bind].
  destruct (runLayout_ok (chosen attrs "acyclicer") (chosen attrs "ranker") turns c h gl I Hgr) as [[Hm ->]|(c' & h' & gl' & -> & D)]; [by left|]. right. cbn [res_bind fst snd].
  assert (∀ v, isNode g v → isNode h v) as Hn by (intros v; apply (co_isNode _ _ _ C)).
  destruct (updateInputGraph_ok g h' lg gl' Lg Hlg (proj1 (do_graph _ _ _ _ D))) as (g' & -> & W).
  - intros v Hv. destruct (co_node _ _ _ C v Hv) as (n0 & _ & Hn0). destruct (do_boxes _ _ _ _ D v n0 Hn0) as (n & x & y & Hn' & _). exists n, []. split; [done|].
    apply flat_children; [apply (do_digraph _ _ _ _ D)|apply (do_flat _ _ _ _ D)|]. apply (do_nodes _ _ _ _ D). by apply Hn.
  - intros x Hx. destruct (do_points _ _ _ _ D x) as (l & -> & _); [by apply (co_edges _ _ _ C)|]. by eexists.
  - exists c', g', h, h', gl'. cbn [res_bind]. done.
Qed.

(** ** The picture in the caller's graph *)

(** Boxes with the same sides. *)
Definition box_eq (a b : box) : Prop := (left_ a == left_ b ∧ right_ a == right_ b ∧ top_ a == top_ b ∧ bottom_ a == bottom_ b)%Q.
#[local] Instance box_eq_equiv : Equivalence box_eq.
Proof.
  split; [by intros a|by intros a b (? & ? & ? & ?)|]. intros a b d (A1 & A2 & A3 & A4) (B1 & B2 & B3 & B4). unfold box_eq. by rewrite A1, A2, A3, A4.
Qed.
#[local] Instance disjoint_boxes_proper : Proper (box_eq ==> box_eq ==> iff) disjoint_boxes.
Proof. intros a a' (A1 & A2 & A3 & A4) b b' (B1 & B2 & B3 & B4). unfold disjoint_boxes. by rewrite A1, A2, A3, A4, B1, B2, B3, B4. Qed.
#[local] Instance ahead_proper sw back : Proper (box_eq ==> box_eq ==> iff) (ahead sw back).
Proof. intros a a' (A1 & A2 & A3 & A4) b b' (B1 & B2 & B3 & B4). unfold ahead. destruct sw, back; by rewrite ?A1, ?A2, ?A3, ?A4, ?B1, ?B2, ?B3, ?B4. Qed.

(** The box of a node of [g] at the place that its label has in [g']. *)
Definition shape g g' v (b : box) : Prop :=
  ∃ n l (x y : Q), node_of g v = Ok n ∧ node g' v = Some l ∧ oget l "x" = Some (Num (Rat x)) ∧ oget l "y" = Some (Num (Rat y)) ∧
    b = Box (x - width n / 2) (x + width n / 2) (y - height n / 2) (y + height n / 2)%Q.
Definition on_side (p : jsnum * jsnum) (b : box) : Prop :=
  ∃ x y : Q, p = (Rat x, Rat y) ∧ ((x == left_ b ∨ x == right_ b) ∧ top_ b <= y ∧ y <= bottom_ b ∨ (y == top_ b ∨ y == bottom_ b) ∧ left_ b <= x ∧ x <= right_ b)%Q.
Definition off_box (p : jsnum * jsnum) (b : box) : Prop :=
  ∃ x y : Q, p = (Rat x, Rat y) ∧ ¬ (left_ b < x ∧ x < right_ b ∧ top_ b < y ∧ y < bottom_ b)%Q.

(** [g'] is the graph [g] with a drawing written into its labels. *)
Record picture g gl g' : Prop := {
  pc_nodes : ∀ v, isNode g' v ↔ isNode g v;
  pc_edges : edges g' = edges g;
  pc_parent : ∀ v, parent g' v = parent g v;
  pc_place : ∀ v l, node g v = Some l → ∃ x y : Q, node g' v = Some (oset (oset l "x" (Num (Rat x))) "y" (Num (Rat y)));
  pc_disjoint : ∀ u v a b, u ≠ v → shape g g' u a → shape g g' v b → disjoint_boxes a b;
  pc_size : ∀ lg, Graphlib.graph g = Some lg → nodes g ≠ [] → ∃ W H : Q, Graphlib.graph g' = Some (oset (oset lg "width" (Num (Rat W))) "height" (Num (Rat H))) ∧
    ∀ v b, shape g g' v b → (default 0 (marginx gl) <= left_ b ∧ right_ b <= W - default 0 (marginx gl) ∧ default 0 (marginy gl) <= top_ b ∧ bottom_ b <= H - default 0 (marginy gl))%Q;
  pc_points : ∀ e l, e ∈ edges g → edgeOf g e = Some l → ∃ l' p ps q, edgeOf g' e = Some l' ∧ oget l' "points" = Some (Points (p :: ps ++ [q])) ∧ ps ≠ [] ∧
    (∀ b, shape g g' (ev e) b → on_side p b) ∧ (∀ b, shape g g' (ew e) b → on_side q b) ∧ ∀ r, r ∈ ps → ∀ v b, shape g g' v b → off_box r b;
  pc_direction : ∀ e a b, e ∈ edges g → ¬ rtc (arrow g) (ew e) (ev e) → shape g g' (ev e) a → shape g g' (ew e) b →
    ahead (sideways (toLowerCase (rankdir gl))) (backwards (toLowerCase (rankdir gl))) a b
}.

Section Picture.
Context (g : dgraph) (gl : graphLabel) (c : N) (h h' : layoutGraph) (gl' : graphLabel) (g' : dgraph).
Context (L : layable g gl c) (C : copy_of g gl h) (D : drawing_of h gl h' gl') (W : written g h' g').

Lemma drawn_place v : isNode g v → ∃ l n n' (x y : Q), node g v = Some l ∧ node_of g v = Ok n ∧ node h' v = Some n' ∧ nx n' = Some x ∧ ny n' = Some y ∧
  width n' = width n ∧ height n' = height n ∧ nlabelpos n' = None ∧ within gl' x y (width n) (height n) ∧ node g' v = Some (oset (oset l "x" (Num (Rat x))) "y" (Num (Rat y))).
Proof.
  intros Hv. destruct (lb_node _ (ly_labelled _ _ _ L) v Hv) as [l Hl]. destruct (co_node _ _ _ C v Hv) as (n & Hn & Hh). destruct (do_boxes _ _ _ _ D v n Hh) as (n' & x & y & Hn' & Hx & Hy & Hw & Hht & Hp & Hin).
  exists l, n, n', x, y. rewrite Hw, Hht in Hin. split_and!; try done. destruct (wr_node _ _ _ W v l Hl) as (n2 & cs & Hn2 & Hc & ->). rewrite Hn' in Hn2. injection Hn2 as <-.
  assert (children h' v = Some []) as Hc'. { apply flat_children; [apply (do_digraph _ _ _ _ D)|apply (do_flat _ _ _ _ D)|]. apply (do_nodes _ _ _ _ D), (co_isNode _ _ _ C), Hv. }
  rewrite Hc' in Hc. injection Hc as <-. unfold write_node. by rewrite Hx, Hy.
Qed.

Lemma shape_box v b : shape g g' v b → ∃ n' b', node h' v = Some n' ∧ box_of n' = Some b' ∧ box_eq b' b ∧ isNode g v.
Proof.
  intros (n & l & x & y & Hn & Hl & Hx & Hy & ->). assert (isNode g v) as Hv by (apply (wr_nodes _ _ _ W); by eapply isNode_node).
  destruct (drawn_place v Hv) as (l0 & n0 & n' & x' & y' & Hl0 & Hn0 & Hn' & Hx' & Hy' & Hw & Hh & Hp & _ & Hg'). rewrite Hg' in Hl. injection Hl as <-. rewrite Hn in Hn0. injection Hn0 as <-.
  rewrite oget_oset_ne, oget_oset_eq in Hx by done. rewrite oget_oset_eq in Hy. injection Hx as <-. injection Hy as <-.
  exists n'. unfold box_of. rewrite Hx', Hy'. cbn. eexists. split; [done|]. split; [done|]. split; [|done]. unfold box_eq, left_ext, right_ext, label_delta. rewrite Hp, Hw, Hh. cbn. unfold Qdiv, Qminus. change (/ 2)%Q with (1 # 2)%Q. split_and!; ring.
Qed.

Lemma border_side p n b b' : on_border p n → box_of n = Some b' → nlabelpos n = None → box_eq b' b → on_side (number (px p), number (py p)) b.
Proof.
  intros (x & y & sx & sy & Hx & Hy & Hpx & Hpy & Hs) Hb Hp (E1 & E2 & E3 & E4). unfold box_of in Hb. rewrite Hx, Hy in Hb. cbn in Hb. injection Hb as <-. cbn in E1, E2, E3, E4.
  unfold left_ext, right_ext, label_delta in E1, E2. rewrite Hp in E1, E2. rewrite Hpx, Hpy. exists (x + sx)%Q, (y + sy)%Q. split; [done|].
  assert (width n / 2 == width n * (1 # 2))%Q as Hw by reflexivity. assert (height n / 2 == height n * (1 # 2))%Q as Hh by reflexivity. rewrite Hw in *. rewrite Hh in *.
  destruct Hs as [[H1 H2]|[H1 H2]]; [left|right]; apply Qabs_Qle_condition in H2 as [? ?]; (split; [|split; lra]).
  - destruct (Qlt_le_dec sx 0) as [Hneg|Hpos]; [rewrite Qabs_neg in H1 by lra; left; lra|rewrite Qabs_pos in H1 by done; right; lra].
  - destruct (Qlt_le_dec sy 0) as [Hneg|Hpos]; [rewrite Qabs_neg in H1 by lra; left; lra|rewrite Qabs_pos in H1 by done; right; lra].
Qed.

Lemma outside_off p b b' : is_Some (px p) → is_Some (py p) → ¬ inside p b' → box_eq b' b → off_box (number (px p), number (py p)) b.
Proof.
  intros [x Hx] [y Hy] Hn (E1 & E2 & E3 & E4). rewrite Hx, Hy. exists x, y. split; [done|]. rewrite <-E1, <-E2, <-E3, <-E4. intros Hi. apply Hn. by exists x, y.
Qed.

Lemma copy_arrows u w : rtc (arrow h) u w → rtc (arrow g) u w.
Proof. intros Hr. eapply (rtc_congruence id); [|exact Hr]. intros a b (x & Hx & <- & <-). exists x. split; [|done]. by apply (co_edges _ _ _ C). Qed.

Lemma picture_ok : picture g gl g'.
Proof.
  assert (∀ v n' b', node h' v = Some n' → box_of n' = Some b' → isNode g v → nlabelpos n' = None) as Hpl.
  { intros v n' b' Hn' _ Hv. destruct (drawn_place v Hv) as (l & n & n2 & x & y & _ & _ & Hn2 & _ & _ & _ & _ & Hp & _). congruence. }
  split.
  - apply W.
  - apply W.
  - apply W.
  - intros v l Hl. destruct (drawn_place v) as (l0 & n & n' & x & y & Hl0 & _ & _ & _ & _ & _ & _ & _ & _ & Hg'); [by eapply isNode_node|]. exists x, y. congruence.
  - intros u v a b Huv (m & a' & Hm & Ha & Ea & _)%shape_box (n & b' & Hn & Hb & Eb & _)%shape_box. rewrite <-Ea, <-Eb. by apply (do_disjoint _ _ _ _ D u v m n).
  - intros lg Hlg Hne. destruct (nodes g) as [|v0 vs] eqn:Hns; [done|]. assert (isNode g v0) as Hv0 by (apply elem_of_nodes; rewrite Hns; by left).
    destruct (drawn_place v0 Hv0) as (_ & _ & _ & _ & _ & _ & _ & _ & _ & _ & _ & _ & _ & (Wd & Ht & HW & HH & _) & _). exists Wd, Ht.
    destruct (do_graph _ _ _ _ D) as (Hg' & Mx & My). rewrite (wr_graph _ _ _ W lg gl' Hlg Hg'). unfold write_graph. rewrite HW, HH. split; [done|].
    intros v b (n & l & x & y & Hn & Hl & Hx & Hy & ->). destruct (drawn_place v) as (l0 & n0 & n' & x' & y' & Hl0 & Hn0 & _ & _ & _ & _ & _ & _ & Hin & Hp); [apply (wr_nodes _ _ _ W); by eapply isNode_node|].
    rewrite Hp in Hl. injection Hl as <-. rewrite Hn in Hn0. injection Hn0 as <-. rewrite oget_oset_ne, oget_oset_eq in Hx by done. rewrite oget_oset_eq in Hy. injection Hx as <-. injection Hy as <-.
    destruct Hin as (W' & H' & HW' & HH' & Hin). rewrite Mx, My in Hin. rewrite HW in HW'. rewrite HH in HH'. injection HW' as <-. injection HH' as <-. exact Hin.
  - intros e l He Hl. destruct (do_points _ _ _ _ D e) as (le & Hle & _ & nv & nw & a & ps & b & Hnv & Hnw & Hps & Ba & Bb & Hne & Hout); [by apply (co_edges _ _ _ C)|].
    destruct (wr_edge _ _ _ W e l He Hl) as (le' & Hle' & Hg'). rewrite Hle in Hle'. injection Hle' as <-. set (f := λ p : point, (number (px p), number (py p))).
    exists (write_edge le l), (f a), (f <$> ps), (f b). split; [done|]. split_and!.
    + unfold write_edge. destruct (ex le); rewrite ?oget_oset_ne, oget_oset_eq by done; rewrite Hps; cbn; by rewrite fmap_app.
    + by destruct ps.
    + intros bx (n' & b' & Hn' & Hb' & Heq & Hv)%shape_box. rewrite Hnv in Hn'. injection Hn' as <-. by eapply border_side; [| |eapply Hpl|].
    + intros bx (n' & b' & Hn' & Hb' & Heq & Hv)%shape_box. rewrite Hnw in Hn'. injection Hn' as <-. by eapply border_side; [| |eapply Hpl|].
    + intros r (p & -> & Hp)%list_elem_of_fmap v bx (n' & b' & Hn' & Hb' & Heq & Hv)%shape_box. destruct (Hout p Hp) as (X & Y & Ho). by eapply outside_off; [| |eapply Ho|].
  - intros e a b He Hcyc (m & a' & Hm & Ha & Ea & _)%shape_box (n & b' & Hn & Hb & Eb & _)%shape_box. rewrite <-Ea, <-Eb.
    apply (do_direction _ _ _ _ D e m n a' b'); try done; [by apply (co_edges _ _ _ C)|]. intros Hr. by apply Hcyc, copy_arrows.
Qed.
End Picture.
End Layout.

(** ** The layout as the adapter sees it *)

Definition layout_in_place (turns : nat) (c : N) (g : dgraph) : res dgraph := r <-- layout turns c g ;; Ok r.2.
Definition accepted (turns : nat) (c : N) (g : dgraph) : Prop :=
  ∃ gl, layable g gl c ∧ attr_of g "acyclicer" ≠ Some "greedy"%string ∧ layout turns c g ≠ Throw (JsError "out of turns").

#[export] Instance dagre_layout turns c : Layout (layout_in_place turns c) (accepted turns c).
Proof.
  split. intros g _ (gl & L & Hgr & Ht). destruct (layout_ok turns c g gl L Hgr) as [[_ ?]|(c' & g' & h & h' & gl' & Hr & C & D & W)]; [done|].
  pose proof (picture_ok g gl c h h' gl' g' L C D W) as P. exists g'. unfold layout_in_place. rewrite Hr. split; [done|]. split; [apply P|].
  intros v _ [l Hl]. destruct (pc_place _ _ _ P v l Hl) as (x & y & Hg'). eexists _, x, y. split; [exact Hg'|]. split; [by rewrite oget_oset_ne, oget_oset_eq by done|by rewrite oget_oset_eq].
Qed.

Section Adapter.
Implicit Types (n : cnode) (e : cedge).

(** A canvas without compound nodes and loops, and options whose values are numbers in range. *)
Record flat_canvas (options : obj optval) (ns : list cnode) (es : list cedge) (gl : graphLabel) (c : N) : Prop := {
  fc_eles : eles_ok ns es;
  fc_nonempty : ns ≠ [];
  fc_node : ∀ n, n ∈ ns → n_id n ≠ ""%string ∧ n_parent n = None ∧ ∃ w h : Q, n_w n = Rat w ∧ n_h n = Rat h ∧ (0 < w)%Q ∧ (0 < h)%Q;
  fc_edge : ∀ e, e ∈ es → e_source e ≠ e_target e ∧ (∀ i, e_id e ≠ rev_name c i) ∧
    ∃ m k, integer (Some (Num (Number (getVal (e_id e) (opt options "minLen"))))) = Some m ∧ integer (Some (Num (Number (getVal (e_id e) (opt options "edgeWeight"))))) = Some k ∧ (1 ≤ m)%Z ∧ (0 ≤ k)%Z;
  fc_label : read_graph (layout_graph_label (graph_label options)) = Some gl;
  fc_seps : (0 <= nodesep gl ∧ 0 <= edgesep gl ∧ 0 <= ranksep gl)%Q
}.

Lemma graph_label_keys options k : k ∉ ["nodesep"; "edgesep"; "ranksep"; "rankdir"; "ranker"]%string → oget (graph_label options) k = None.
Proof.
  intros Hk. assert (∀ (o : label) name v, k ≠ name → oget (setGObj o name v) k = oget o k) as Hs by (intros o name [] ?; cbn; rewrite ?oget_oset_ne by done; done).
  unfold graph_label. rewrite !Hs; [done|..]; intros ->; apply Hk; by_compute.
Qed.

Lemma read_graph_ext a b : (∀ k, oget a k = oget b k) → read_graph (layout_graph_label a) = read_graph (layout_graph_label b).
Proof. intros H. assert (∀ k, oget (layout_graph_label a) k = oget (layout_graph_label b) k) as Hl by (intros k; by rewrite !graph_label_lookup, H). unfold read_graph. by rewrite !Hl. Qed.

Lemma graph_label_attrs options : ∃ attrs, canonicalize (Some (graph_label options)) = Ok attrs ∧ ∀ k, oget attrs k = oget (graph_label options) k.
Proof.
  apply canonicalize_lower; [apply graph_label_keys; by_compute|]. intros k [v Hv]%elem_of_okeys.
  destruct (decide (k ∈ ["nodesep"; "edgesep"; "ranksep"; "rankdir"; "ranker"]%string)) as [Hk|Hk]; [|rewrite graph_label_keys in Hv by done; done].
  repeat (apply elem_of_cons in Hk as [->|Hk]; [reflexivity|]). by apply elem_of_nil in Hk.
Qed.

Lemma canvas_node g n w h : node g (n_id n) = Some (node_label n) → n_w n = Rat w → n_h n = Rat h → ∃ l, node_of g (n_id n) = Ok l ∧ width l = w ∧ height l = h.
Proof.
  intros Hn Hw Hh. unfold node_of. rewrite Hn. destruct (canonicalize_lower (node_label n)) as (attrs & -> & Ha); [reflexivity|intros k Hk; change (okeys (node_label n)) with ["width"; "height"; "name"]%string in Hk|].
  { repeat (apply elem_of_cons in Hk as [->|Hk]; [reflexivity|]). by apply elem_of_nil in Hk. }
  cbn [res_bind]. assert (oget (layout_node_label attrs) "width" = Some (Num (Rat w)) ∧ oget (layout_node_label attrs) "height" = Some (Num (Rat h))) as [E1 E2].
  { rewrite !node_label_lookup. unfold number_or. rewrite !Ha. cbn. by rewrite Hw, Hh. }
  unfold read_node. rewrite E1, E2. cbn. by eexists.
Qed.

Lemma canvas_edge options g e x m k : edgeOf g x = Some (edge_label options e) →
  integer (Some (Num (Number (getVal (e_id e) (opt options "minLen"))))) = Some m → integer (Some (Num (Number (getVal (e_id e) (opt options "edgeWeight"))))) = Some k →
  ∃ l, edge_of g x = Ok l ∧ minlen l = m ∧ weight l = k ∧ ewidth l = 0%Q ∧ eheight l = 0%Q ∧ labeloffset l = 10%Q.
Proof.
  intros Hx Hm Hk. unfold edge_of. rewrite Hx. destruct (canonicalize_lower (edge_label options e)) as (attrs & -> & Ha); [reflexivity|intros k' Hk'; change (okeys (edge_label options e)) with ["minlen"; "weight"; "name"]%string in Hk'|].
  { repeat (apply elem_of_cons in Hk' as [->|Hk']; [reflexivity|]). by apply elem_of_nil in Hk'. }
  cbn [res_bind]. assert (∀ k' v, oget (edge_label options e) k' = v → oget attrs k' = v) as Hv by (intros k' v <-; apply Ha).
  assert (oget (layout_edge_label attrs) "minlen" = Some (Num (Number (getVal (e_id e) (opt options "minLen"))))) as E1 by (by rewrite edge_label_lookup; unfold number_or; rewrite (Hv "minlen"%string _ eq_refl)).
  assert (oget (layout_edge_label attrs) "weight" = Some (Num (Number (getVal (e_id e) (opt options "edgeWeight"))))) as E2 by (by rewrite edge_label_lookup; unfold number_or; rewrite (Hv "weight"%string _ eq_refl)).
  assert (oget (layout_edge_label attrs) "width" = Some (Num (Rat 0))) as E3 by (by rewrite edge_label_lookup; unfold number_or; rewrite (Hv "width"%string _ eq_refl)).
  assert (oget (layout_edge_label attrs) "height" = Some (Num (Rat 0))) as E4 by (by rewrite edge_label_lookup; unfold number_or; rewrite (Hv "height"%string _ eq_refl)).
  assert (oget (layout_edge_label attrs) "labeloffset" = Some (Num (Rat 10))) as E5 by (by rewrite edge_label_lookup; unfold number_or; rewrite (Hv "labeloffset"%string _ eq_refl)).
  assert (oget (layout_edge_label attrs) "labelpos" = Some (Str "r")) as E6 by (by rewrite edge_label_lookup; unfold value_or; rewrite (Hv "labelpos"%string _ eq_refl)).
  unfold read_edge. rewrite E1, E2, E3, E4, E5, E6, Hm, Hk. by eexists.
Qed.

Section Canvas.
Context (options : obj optval) (ns : list cnode) (es : list cedge) (isParent : string → bool) (gl : graphLabel) (c : N).
Context (F : flat_canvas options ns es gl c).

(** What [build_graph_elements] says of the graph, with the options of the graph. *)
Record canvas_graph (g : dgraph) : Prop := {
  cg_labelled : DagreRemap.labelled g;
  cg_graph : Graphlib.graph g = Some (graph_label options);
  cg_isNode : ∀ v, isNode g v ↔ ∃ n, n ∈ ns ∧ v = n_id n;
  cg_node : ∀ n, n ∈ ns → node g (n_id n) = Some (node_label n) ∧ parent g (n_id n) = n_parent n;
  cg_edges : ∀ x, x ∈ edges g ↔ ∃ e, e ∈ es ∧ isParent (e_source e) = false ∧ isParent (e_target e) = false ∧ x = obj_of e;
  cg_edge : ∀ e, obj_of e ∈ edges g → edgeOf g (obj_of e) = Some (edge_label options e)
}.

Lemma canvas_graph_ok : ∃ g, build_graph options ns es isParent = Ok g ∧ canvas_graph g.
Proof.
  destruct (build_graph_ok options ns es isParent (fc_eles _ _ _ _ _ F)) as (g & Hg & Q). destruct (build_graph_elements options ns es isParent (fc_eles _ _ _ _ _ F)) as (g' & Hg' & Hwf & Hl & Hn & Hnode & He & Hlab).
  rewrite Hg in Hg'. injection Hg' as <-. destruct (ea_options _ _ _ _ Q) as (Od & Om & _). exists g. split; [done|].
  assert (∀ v, isNode g v ↔ ∃ n, n ∈ ns ∧ v = n_id n) as Hv. { intros v. rewrite <-elem_of_nodes, Hn, list_elem_of_fmap. naive_solver. }
  assert (∀ e, obj_of e ∈ edges g → edgeOf g (obj_of e) = Some (edge_label options e)) as Hof.
  { intros e (e' & He' & Hs & Ht & Heq)%He. assert (e = e') as -> by (destruct e, e'; by injection Heq as -> -> ->). by apply Hlab. }
  split; try done. split; [split; [done|exact Od|]|exact Om| |].
  - intros x (e & Hin & _ & _ & ->)%He. cbn. destruct (el_edge_name _ _ (fc_eles _ _ _ _ _ F) e Hin) as [? ?]. split; congruence.
  - intros v (n & Hin & ->)%Hv. destruct (Hnode n Hin) as [-> _]. by eexists.
  - intros x Hx. pose proof Hx as (e & Hin & Hs & Ht & ->)%He. eexists. exact (Hof e Hx).
Qed.

Lemma canvas_layable g : canvas_graph g → layable g gl c ∧ attr_of g "acyclicer" = None.
Proof.
  intros [L G N Nd Ed El]. destruct (graph_label_attrs options) as (attrs & Hc & Ha). pose proof (fc_label _ _ _ _ _ F) as Hgl. rewrite <-(read_graph_ext attrs) in Hgl by done.
  assert (graph_of g = Ok gl) as Hgo by (unfold graph_of; rewrite G, Hc; cbn [res_bind]; by rewrite Hgl). split.
  - split; try done.
    + intros Hn. destruct ns as [|n l] eqn:Hns; [by apply (fc_nonempty _ _ _ _ _ F)|]. assert (n_id n ∈ nodes g) as Hin; [|rewrite Hn in Hin; by apply elem_of_nil in Hin].
      apply elem_of_nodes, N. exists n. split; [by left|done].
    + intros (n & Hn & Hid)%N. by destruct (fc_node _ _ _ _ _ F n Hn) as [Hne _].
    + intros v (n & Hn & ->)%N. destruct (fc_node _ _ _ _ _ F n Hn) as (_ & Hp & w & k & Hw & Hk & Hw0 & Hk0). destruct (Nd n Hn) as [Hl ->]. split; [done|].
      destruct (canvas_node g n w k Hl Hw Hk) as (l & Hl' & <- & <-). by exists l.
    + intros x Hx. pose proof Hx as (e & He & _ & _ & ->)%Ed. destruct (fc_edge _ _ _ _ _ F e He) as (Hloop & Hrev & m & k & Hm & Hk & Hm1 & Hk0). split; [done|]. split; [intros i; cbn; intros [= Hi]; by apply (Hrev i)|].
      destruct (canvas_edge options g e (obj_of e) m k (El e Hx) Hm Hk) as (l & Hl & <- & <- & W1 & W2 & W3). exists l. by rewrite W1, W2, W3.
    + apply F.
    + assert (align gl = None) as ->; [|by intros [=]]. assert (oget (layout_graph_label attrs) "align" = None) as Hal by (rewrite graph_label_lookup, Ha, graph_label_keys by by_compute; reflexivity).
      unfold read_graph in Hgl. repeat match type of Hgl with context [rational ?o ≫= _] => destruct (rational o); [cbn [mbind option_bind] in Hgl|done] end.
      destruct (text _); [cbn [mbind option_bind] in Hgl|done]. rewrite Hal in Hgl. cbn [optional mbind option_bind] in Hgl. repeat (match type of Hgl with context [optional rational ?o ≫= _] => destruct (optional rational o); [cbn [mbind option_bind] in Hgl|done] end). by injection Hgl as <-.
  - unfold attr_of. rewrite G, Hc. unfold chosen. by rewrite graph_label_lookup, Ha, graph_label_keys by by_compute.
Qed.

(** The box of an element of the canvas that is placed at [p], and the links that the layout is given. *)
Definition centred (p : jsnum * jsnum) n (b : box) : Prop :=
  ∃ x y w h : Q, p = (Rat x, Rat y) ∧ n_w n = Rat w ∧ n_h n = Rat h ∧ b = Box (x - w / 2) (x + w / 2) (y - h / 2) (y + h / 2)%Q.
Definition link_between (u v : string) : Prop := ∃ e, e ∈ es ∧ isParent (e_source e) = false ∧ isParent (e_target e) = false ∧ e_source e = u ∧ e_target e = v.

Lemma centred_shape g g' n l p b : canvas_graph g → n ∈ ns → node g' (n_id n) = Some l → p = (coord l "x", coord l "y") → centred p n b → shape g g' (n_id n) b.
Proof.
  intros G Hn Hl -> (x & y & w & k & [= Hx Hy] & Hw & Hk & ->). destruct (cg_node _ G n Hn) as [Hlab _]. destruct (canvas_node g n w k Hlab Hw Hk) as (m & Hm & <- & <-).
  exists m, l, x, y. unfold coord in Hx, Hy. destruct (oget l "x") as [[]|]; try done. destruct (oget l "y") as [[]|]; try done. simplify_eq. done.
Qed.

Lemma canvas_arrows g u v : canvas_graph g → rtc (arrow g) u v → rtc link_between u v.
Proof. intros G Hr. eapply (rtc_congruence id); [|exact Hr]. intros a b (x & Hx & <- & <-). apply (cg_edges _ G) in Hx as (e & ? & ? & ? & ->). by exists e. Qed.

Lemma adapter_ok turns cy_w cy_h scratch : given_box options = None →
  (may_turn (text (oget (layout_graph_label (graph_label options)) "ranker")) ∧ DagreLayout.run (layout_in_place turns c) options cy_w cy_h ns es isParent scratch = Throw (JsError "out of turns")) ∨
  ∃ ps, DagreLayout.run (layout_in_place turns c) options cy_w cy_h ns es isParent scratch = Ok ps ∧ ps.*1 = n_id <$> ns ∧
    (∀ n p, n ∈ ns → (n_id n, p) ∈ ps → ∃ b, centred p n b) ∧
    (∀ n n' p p' b b', n ∈ ns → n' ∈ ns → n_id n ≠ n_id n' → (n_id n, p) ∈ ps → (n_id n', p') ∈ ps → centred p n b → centred p' n' b' → disjoint_boxes b b') ∧
    (∀ n n' p p' b b', n ∈ ns → n' ∈ ns → link_between (n_id n) (n_id n') → ¬ rtc link_between (n_id n') (n_id n) → (n_id n, p) ∈ ps → (n_id n', p') ∈ ps → centred p n b → centred p' n' b' →
      ahead (sideways (toLowerCase (rankdir gl))) (backwards (toLowerCase (rankdir gl))) b b').
Proof.
  intros Hbox. destruct canvas_graph_ok as (g & Hg & G). destruct (canvas_layable g G) as [L Hac]. destruct (layout_ok turns c g gl L) as [[Hm Ht]|(c' & g' & h & h' & gl' & Hr & C & D & W)]; [by rewrite Hac|left|right].
  - split.
    + unfold attr_of in Hm. destruct (graph_label_attrs options) as (attrs & Hc & Ha). rewrite (cg_graph _ G), Hc in Hm. unfold chosen in Hm. by rewrite graph_label_lookup, Ha, <-graph_label_lookup in Hm.
    + unfold DagreLayout.run. rewrite Hg. cbn [res_bind]. unfold layout_in_place. by rewrite Ht.
  - pose proof (picture_ok g gl c h h' gl' g' L C D W) as P.
    destruct (run_unbounded_ok (layout_in_place turns c) (accepted turns c) options cy_w cy_h ns es isParent scratch (fc_eles _ _ _ _ _ F) Hbox) as (g0 & g1 & Hg0 & Hl1 & ps & Hps & Hids & Hpos).
    { intros g2 Hg2. rewrite Hg in Hg2. injection Hg2 as <-. exists gl. rewrite Hac. split_and!; [done|done|]. by rewrite Hr. }
    rewrite Hg in Hg0. injection Hg0 as <-. unfold layout_in_place in Hl1. rewrite Hr in Hl1. cbn in Hl1. injection Hl1 as <-.
    assert (∀ n p b, n ∈ ns → (n_id n, p) ∈ ps → centred p n b → shape g g' (n_id n) b) as Hsh.
    { intros n p b Hn Hp Hb. destruct (Hpos _ _ Hp) as (l & Hl & Heq). by eapply centred_shape. }
    exists ps. split; [done|]. split; [done|]. split_and!.
    + intros n p Hn Hp. destruct (Hpos _ _ Hp) as (l & Hl & ->). destruct (cg_node _ G n Hn) as [Hlab _]. destruct (pc_place _ _ _ P _ _ Hlab) as (x & y & Hg'). rewrite Hg' in Hl. injection Hl as <-.
      destruct (fc_node _ _ _ _ _ F n Hn) as (_ & _ & w & k & Hw & Hk & _). 
      eexists. exists x, y, w, k. split; [|split; [exact Hw|split; [exact Hk|reflexivity]]]. reflexivity.
    + intros n n' p p' b b' Hn Hn' Hne Hp Hp' Hb Hb'. apply (pc_disjoint _ _ _ P (n_id n) (n_id n')); [done|by eapply Hsh|by eapply Hsh].
    + intros n n' p p' b b' Hn Hn' (e & He & Hs & Ht & Es & Et) Hcyc Hp Hp' Hb Hb'. apply (pc_direction _ _ _ P (obj_of e)).
      * apply (cg_edges _ G). by exists e.
      * cbn. rewrite Es, Et. intros Hrt. by apply Hcyc, (canvas_arrows g).
      * cbn. rewrite Es. by eapply Hsh.
      * cbn. rewrite Et. by eapply Hsh.
Qed.
End Canvas.
End Adapter.

(** ** The properties *)

(** C31: The labels of the layout graph have the attributes that the layout knows and no others.  Each attribute that is to be a number is one,
    [Number] of the caller's value or the default; [labelpos], [rankdir], [acyclicer], [ranker] and [align] are the caller's values as they
    are, and an [undefined] one leaves the default. *)
Theorem layout_labels_typed attrs k :
  oget (layout_node_label attrs) k = (if decide (k ∈ nodeNumAttrs) then number_or attrs k 0 else None) ∧
  oget (layout_edge_label attrs) k =
    (if decide (k ∈ edgeNumAttrs) then number_or attrs k (if decide (k ∈ ["minlen"; "weight"]%string) then 1 else if decide (k = "labeloffset"%string) then 10 else 0)
     else if decide (k = "labelpos"%string) then value_or attrs k "r" else None) ∧
  oget (layout_graph_label attrs) k =
    (if decide (k ∈ graphAttrs) then match oget attrs k with Some Undefined => Some (default Undefined (oget graphDefaults k)) | Some v => Some v | None => oget graphDefaults k end
     else if decide (k ∈ graphNumAttrs) then match oget attrs k with Some v => Some (Num (Number v)) | None => oget graphDefaults k end
     else None).
Proof. split_and!; [apply node_label_lookup|apply edge_label_lookup|apply graph_label_lookup]. Qed.




(** ** Examples *)

Definition layable_check (g : dgraph) : bool :=
  isDirected g && isMultigraph g && bool_decide (nodes g ≠ []) && negb (hasNode g "") &&
  forallb (λ v, match node g v, parent g v, node_of g v with Some _, None, Ok n => negb (Qle_bool (width n) 0) && negb (Qle_bool (height n) 0) | _, _, _ => false end) (nodes g) &&
  forallb (λ x, match edgeOf g x, edge_of g x with
    | Some _, Ok l => (1 <=? minlen l)%Z && (0 <=? weight l)%Z && Qeq_bool (ewidth l) 0 && Qeq_bool (eheight l) 0 && Qle_bool 0 (labeloffset l)
    | _, _ => false end && bool_decide (ev x ≠ ew x) && bool_decide (good_name (ename x)) && prefix_free "rev" (ename x)) (edges g).

Lemma layable_check_ok g gl c : wf g → is_Some (Graphlib.graph g) → graph_of g = Ok gl → (0 <= nodesep gl ∧ 0 <= edgesep gl ∧ 0 <= ranksep gl)%Q → align_ok (align gl) →
  layable_check g = true → layable g gl c.
Proof.
  intros Hwf Hl Hgl Hs Ha. unfold layable_check. rewrite !andb_true_iff, negb_true_iff, bool_decide_eq_true, !forallb_forall. intros [[[[[H1 H2] H3] H4] H5] H6].
  assert (∀ v, isNode g v → is_Some (node g v) ∧ parent g v = None ∧ ∃ n, node_of g v = Ok n ∧ (0 < width n ∧ 0 < height n)%Q) as Hn.
  { intros v Hv%elem_of_nodes%list_elem_of_In%H5. destruct (node g v) as [l0|]; [|done]. destruct (parent g v) as [p0|]; [done|]. destruct (node_of g v) as [n|]; [|done]. rewrite andb_true_iff, !negb_true_iff in Hv. destruct Hv as [Hw Hh].
    split; [by eexists|]. split; [done|]. exists n. split; [done|]. split; apply Qnot_le_lt; intros H%Qle_bool_iff; congruence. }
  assert (∀ x, x ∈ edges g → is_Some (edgeOf g x) ∧ ev x ≠ ew x ∧ good_name (ename x) ∧ prefix_free "rev" (ename x) = true ∧ ∃ l, edge_of g x = Ok l ∧ (1 ≤ minlen l ∧ 0 ≤ weight l)%Z ∧ (ewidth l == 0 ∧ eheight l == 0 ∧ 0 <= labeloffset l)%Q) as He.
  { intros x Hx%list_elem_of_In%H6. rewrite !andb_true_iff, !bool_decide_eq_true in Hx. destruct Hx as [[[Hx Hlo] Hnm] Hp]. destruct (edgeOf g x) as [l0|]; [|done]. destruct (edge_of g x) as [l|]; [|done].
    rewrite !andb_true_iff, !Z.leb_le, !Qeq_bool_iff, Qle_bool_iff in Hx. destruct Hx as [[[[? ?] ?] ?] ?]. split_and!; [by eexists|done|done|done|]. by exists l. }
  split; try done.
  - split; [split; [done|done|]|done| |]; [intros x Hx; by destruct (He x Hx) as (_ & _ & ? & _)|intros v Hv; by destruct (Hn v Hv)|intros x Hx; by destruct (He x Hx)].
  - by apply hasNode_false.
  - intros v Hv. by destruct (Hn v Hv) as (_ & ? & ?).
  - intros x Hx. destruct (He x Hx) as (_ & ? & _ & Hp & ?). split_and!; [done| |done]. intros i Hi. by rewrite Hi, rev_name_prefix in Hp.
Qed.

(** A caller that writes attributes in upper case and numbers as strings; the edges form a cycle. *)
Definition caller_label (w : optval) : option (option DagreLayout.label) := Some (Some [("Width", w); ("HEIGHT", Num (Rat 20)); ("tag", Str "block")])%string.
Definition caller_edge : option (option DagreLayout.label) := Some (Some [("minLen", Str " 2 "); ("labelpos", Undefined)])%string.
Definition caller : dgraph :=
  build true true true
    [OpSetGraph (Some [("rankDir", Str "BT"); ("MarginX", Num (Rat 5)); ("ranker", Str "longest-path")]); OpSetNode "a" (caller_label (Str "0x1E")); OpSetNode "b" (caller_label (Str "3e1"));
     OpSetNode "c" (caller_label (Num (Rat 30))); OpSetEdge "a" "b" caller_edge None; OpSetEdge "b" "c" caller_edge None; OpSetEdge "c" "a" caller_edge None]%string.
Definition caller_gl : graphLabel := GraphLabel 50%Q 20%Q 50%Q "BT" None (Some 5%Q) None None None no_gmore.

Lemma caller_wf : wf caller.
Proof. apply build_wf. apply (bool_decide_unpack _). vm_compute. exact I. Qed.

Lemma caller_layable : layable caller caller_gl 0.
Proof. 
  apply layable_check_ok; [exact caller_wf| |vm_compute; reflexivity|repeat split; vm_compute; discriminate|by intros [=]|vm_compute; reflexivity].
  assert (Graphlib.graph caller ≠ None) as Hn by (vm_compute; discriminate). by apply not_eq_None_Some.
 Qed.



(** Three blocks, each linked to its predecessors, drawn from right to left. *)
Definition blocks : list cnode := [CNode "a" (Rat 60) (Rat 30) None; CNode "b" (Rat 60) (Rat 30) None; CNode "c" (Rat 60) (Rat 30) None]%string.
Definition links : list cedge := [CEdge "e1" "b" "a"; CEdge "e2" "c" "a"; CEdge "e3" "c" "b"]%string.
Definition block_options : obj optval := newDagreLayout [("rankDir", Str "RL")]%string.
Definition block_gl : graphLabel := GraphLabel 50%Q 20%Q 50%Q "RL" None None None None None no_gmore.
Definition no_parent (v : string) : bool := false.

Ltac each_elem H := repeat (apply elem_of_cons in H as [->|H]); [..|by apply elem_of_nil in H].

Lemma blocks_flat : flat_canvas block_options blocks links block_gl 0.
Proof.
  assert (∀ a b, ¬ child_of blocks a b) as Hc by (intros a b (n & Hn & _ & Hp); unfold blocks in Hn; each_elem Hn; discriminate Hp).
  split.
  - split; [by_compute|apply Forall_forall; by_compute|by intros a b ?%Hc| |by_compute|apply Forall_forall; by_compute|apply Forall_forall; by_compute].
    intros a Ha. inversion Ha; subst; by eapply Hc.
  - discriminate.
  - intros n Hn. unfold blocks in Hn. each_elem Hn; (split; [discriminate|split; [reflexivity|exists 60%Q, 30%Q; done]]).
  - intros e He. unfold links in He. assert (∀ i, prefix_free "rev" (Some (rev_name 0 i)) = false) as Hr by apply rev_name_prefix.
    each_elem He; (split; [discriminate|split; [intros i Hi; specialize (Hr i); rewrite <-Hi in Hr; discriminate Hr|exists 1%Z, 1%Z; split_and!; [vm_compute; reflexivity|vm_compute; reflexivity|lia|lia]]]).
  - vm_compute. reflexivity.
  - repeat split; vm_compute; discriminate.
Qed.

