(* ===== verification/PageClaims.v ===== *)
(** * The page as a whole

    blockchain_vis.js, the layout extension and dagre put together: what the viewer sees of a dump.  The renderer supplies the sizes of the nodes and the
    identifiers of the edges, which the page does not name. *)
From stdpp Require Import pretty.
From Stdlib Require Import QArith.
Local Close Scope Q_scope.
From S2P Require Import Prelude JsObject DagreLayout DagreLayoutGraph Graphlib GraphWf DagreTypes DagreAcyclic DagreBk DagrePosition DagreGeometry DagreDrawn DagreRankSpan DagreEntry DagreEntryClaims.
From S2P Require Import Vis VisClaims.

(** What the node promises of the blocks that it dumps: hashes are no special identifiers, and a block is one level above its
    parent, so parents have a smaller level. *)
Definition block_level (data : dump) (h : string) : option Z :=
  match oget (proposer_nodes data) h with Some v => Some (p_level v) | None => v_level <$> oget (voter_nodes data) h end.
Definition blocks_of (data : dump) : list string := okeys (proposer_nodes data) ++ okeys (voter_nodes data).

Record dump_trees (data : dump) : Prop := {
  dt_ok : dump_ok data;
  dt_genesis : proposer_nodes data ≠ [];
  dt_hash : ∀ h, h ∈ blocks_of data → plain h ∧ h ≠ ""%string;
  dt_parent : ∀ e, e ∈ Vis.edges data → is_parent_edge e = true → ∃ a b, block_level data (to e) = Some a ∧ block_level data (from e) = Some b ∧ (a < b)%Z
}.

(** What the renderer supplies: nodes have a size, and edges without an identifier get one of their own; [c] is the counter of dagre. *)
Record renderer (size : string → Q * Q) (edge_id : nat → string) (c : N) : Prop := {
  rd_size : ∀ h, (0 < (size h).1)%Q ∧ (0 < (size h).2)%Q;
  rd_ids : ∀ i j, edge_id i = edge_id j → i = j;
  rd_names : ∀ i, edge_id i ≠ ""%string ∧ edge_id i ≠ DEFAULT_EDGE_NAME;
  rd_rev : ∀ i j, edge_id i ≠ rev_name c j
}.

Section Page.
Context {C : Type} `{CanvasLaws C}.
Context (size : string → Q * Q) (edge_id : nat → string).

(** The elements of the canvas as a collection. *)
Definition node_of_element (el : element) : option cnode :=
  match el with Node id _ _ => Some (CNode id (Rat (size id).1) (Rat (size id).2) None) | Edge _ _ _ => None end.
Definition ends_of_element (el : element) : option (string * string) := match el with Edge s t _ => Some (s, t) | Node _ _ _ => None end.
Definition canvas_nodes (els : list element) : list cnode := omap node_of_element els.
Definition canvas_edges (els : list element) : list cedge := imap (λ i st, CEdge (edge_id i) st.1 st.2) (omap ends_of_element els).

(** [cy.layout({name: 'dagre'})]. *)
Definition page_options : obj optval := newDagreLayout [("name", Str "dagre")]%string.
Definition page_gl : graphLabel := GraphLabel 50%Q 20%Q 50%Q "tb" None None None None None no_gmore.
Definition page_layout (turns : nat) (c : N) (cy_w cy_h : jsnum) (els : list element) : res (list (string * (jsnum * jsnum))) :=
  DagreLayout.run (layout_in_place turns c) page_options cy_w cy_h (canvas_nodes els) (canvas_edges els) (λ _, false) [].

(** The box of a block at a position. *)
Definition block_box (h : string) (p : jsnum * jsnum) (b : box) : Prop :=
  ∃ x y : Q, p = (Rat x, Rat y) ∧ b = DagrePosition.Box (x - (size h).1 / 2) (x + (size h).1 / 2) (y - (size h).2 / 2) (y + (size h).2 / 2)%Q.

Lemma canvas_node_ids els : n_id <$> canvas_nodes els = ids_of els.
Proof. unfold canvas_nodes, ids_of. induction els as [|[] els IH]; csimpl; [done|by rewrite IH|done]. Qed.

Lemma elem_of_canvas_nodes els n : n ∈ canvas_nodes els → n_parent n = None ∧ n_id n ∈ ids_of els ∧ n_w n = Rat (size (n_id n)).1 ∧ n_h n = Rat (size (n_id n)).2.
Proof.
  intros Hn. assert (n_id n ∈ ids_of els) as Hi by (rewrite <-canvas_node_ids; by apply list_elem_of_fmap_2).
  apply list_elem_of_omap in Hn as ([id d ty|] & _ & Hn); [|done]. cbn in Hn. injection Hn as <-. by split_and!.
Qed.

Lemma elem_of_canvas_edges els e : e ∈ canvas_edges els → (∃ i, e_id e = edge_id i) ∧ ∃ ty, Edge (e_source e) (e_target e) ty ∈ els.
Proof.
  intros (i & [s t] & -> & Hi)%elem_of_lookup_imap. split; [by exists i|]. apply list_elem_of_lookup_2, list_elem_of_omap in Hi as ([|s' t' ty] & Hin & He); [done|].
  cbn in He. injection He as -> ->. by exists ty.
Qed.

Lemma canvas_edges_in els s t ty : Edge s t ty ∈ els → ∃ e, e ∈ canvas_edges els ∧ e_source e = s ∧ e_target e = t.
Proof.
  intros Hin. assert ((s, t) ∈ omap ends_of_element els) as [i Hi]%list_elem_of_lookup by (apply list_elem_of_omap; by exists (Edge s t ty)).
  exists (CEdge (edge_id i) s t). split; [|done]. apply elem_of_lookup_imap. by exists i, (s, t).
Qed.

Lemma canvas_edges_ids els : (∀ i j, edge_id i = edge_id j → i = j) → NoDup (e_id <$> canvas_edges els).
Proof.
  intros Hinj. apply NoDup_alt. intros i j x Hi Hj. rewrite list_lookup_fmap in Hi, Hj. unfold canvas_edges in Hi, Hj. rewrite list_lookup_imap in Hi, Hj.
  destruct (omap _ els !! i) as [p|]; [|done]. destruct (omap _ els !! j) as [q|]; [|done]. cbn in Hi, Hj. apply Hinj. congruence.
Qed.

Section Dump.
Context (c : N) (R : renderer size edge_id c) (data : dump) (T : dump_trees data) (first : option string).
Let els : list element := proposer_elements data first ++ voter_elements data ++ parent_edges data.

Lemma drawn_blocks h : h ∈ ids_of els ↔ h ∈ blocks_of data.
Proof.
  subst els. rewrite app_assoc, ids_of_app. unfold parent_edges. rewrite edges_no_ids, app_nil_r by done. by rewrite drawn_ids by apply T.
Qed.

Lemma drawn_edges s t ty : Edge s t ty ∈ els → ∃ e, e ∈ Vis.edges data ∧ is_parent_edge e = true ∧ s = to e ∧ t = from e.
Proof.
  subst els. rewrite !elem_of_app. intros [Hin|[Hin|(e & [= -> -> ->] & [? ?]%list_elem_of_filter)%list_elem_of_fmap]].
  - by apply proposer_elements_nodes in Hin.
  - by apply voter_elements_nodes in Hin.
  - by exists e.
Qed.

Lemma canvas_link u v : link_between (canvas_edges els) (λ _, false) u v → ∃ a b, block_level data u = Some a ∧ block_level data v = Some b ∧ (a < b)%Z.
Proof. intros (e & (_ & ty & (x & Hx & Hp & -> & ->)%drawn_edges)%elem_of_canvas_edges & _ & _ & <- & <-). by apply (dt_parent _ T). Qed.

Lemma canvas_no_cycle u v : link_between (canvas_edges els) (λ _, false) u v → ¬ rtc (link_between (canvas_edges els) (λ _, false)) v u.
Proof.
  intros (a & b & Ha & Hb & Hab)%canvas_link Hr. assert (∀ w, rtc (link_between (canvas_edges els) (λ _, false)) v w → ∃ d, block_level data w = Some d ∧ (b ≤ d)%Z) as Hg.
  { apply rtc_ind_r; [by exists b|]. intros w w' _ Hl (d & Hd & Hbd). destruct (canvas_link _ _ Hl) as (d1 & d2 & H1 & H2 & ?). exists d2. split; [done|]. assert (d1 = d) by congruence. lia. }
  destruct (Hg u Hr) as (d & Hd & ?). assert (d = a) by congruence. lia.
Qed.

Lemma page_canvas : flat_canvas page_options (canvas_nodes els) (canvas_edges els) page_gl c.
Proof.
  assert (∀ a b, ¬ child_of (canvas_nodes els) a b) as Hc by (intros a b (n & (Hp & _)%elem_of_canvas_nodes & _ & ?); congruence).
  assert (NoDup (ids_of els)) as Hnd.
  { subst els. rewrite app_assoc, ids_of_app. unfold parent_edges. rewrite edges_no_ids, app_nil_r, drawn_ids by (done || apply T). apply drawn_ids_NoDup, T. }
  split.
  - split.
    + by rewrite canvas_node_ids.
    + intros n (_ & Hi%drawn_blocks & _)%elem_of_canvas_nodes. by apply (dt_hash _ T).
    + by intros a b ?%Hc.
    + intros a Ha. inversion Ha; subst; by eapply Hc.
    + apply canvas_edges_ids, R.
    + intros e ((i & ->) & _)%elem_of_canvas_edges. apply R.
    + intros e (_ & ty & (x & Hx & _ & -> & ->)%drawn_edges)%elem_of_canvas_edges. rewrite canvas_node_ids, !drawn_blocks. destruct (d_edges _ (dt_ok _ T) x Hx). done.
  - intros Hn. assert (ids_of els = []) as Hi by (by rewrite <-canvas_node_ids, Hn). destruct (okeys (proposer_nodes data)) as [|h hs] eqn:Hk; [apply okeys_nil_iff in Hk; by apply (dt_genesis _ T)|].
    assert (h ∈ ids_of els) as Hin by (apply drawn_blocks; unfold blocks_of; rewrite Hk; by left). rewrite Hi in Hin. by apply elem_of_nil in Hin.
  - intros n (Hp & Hi%drawn_blocks & Hw & Hh)%elem_of_canvas_nodes. destruct (dt_hash _ T _ Hi) as [_ Hne]. split; [done|]. split; [done|]. exists (size (n_id n)).1, (size (n_id n)).2. destruct (rd_size _ _ _ R (n_id n)). done.
  - intros e ((i & Hid) & ty & (x & Hx & Hpe & Hs & Ht)%drawn_edges)%elem_of_canvas_edges. destruct (dt_parent _ T x Hx Hpe) as (a & b & Ha & Hb & Hab). split; [intros Heq; rewrite Hs, Ht in Heq; rewrite Heq in Ha; assert (a = b) by congruence; lia|].
    split; [intros j; rewrite Hid; apply R|]. exists 1%Z, 1%Z. split_and!; [done|done|lia|lia].
  - vm_compute. reflexivity.
  - by vm_compute.
Qed.
End Dump.

End Page.

(** ** The sample dump *)

Definition sample_size (h : string) : Q * Q := (30, 30)%Q.
Definition sample_edge_id (i : nat) : string := "e" +:+ pretty i.

Lemma sample_renderer : renderer sample_size sample_edge_id 0.
Proof.
  split.
  - intros h. done.
  - intros i j Heq. unfold sample_edge_id in Heq. injection Heq as Heq. apply (inj (R := eq) (pretty : nat → string)). exact Heq.
  - intros i. done.
  - intros i j Heq. unfold sample_edge_id, rev_name in Heq. discriminate Heq.
Qed.

Lemma sample_trees : dump_trees sample.
Proof.
  split; [exact sample_ok|discriminate|apply Forall_forall; by_compute|].
  intros e He Hp. unfold sample in He. cbn [Vis.edges] in He. each_elem He; try discriminate Hp; (eexists _, _; split; [vm_compute; reflexivity|split; [vm_compute; reflexivity|lia]]).
Qed.

